(* ===== verification/_CoqProject ===== *)
-Q . S2P
Prelude.v
Buckets.v
Decimal.v
StrHash.v
Profile.v
Util.v
Glob.v
Checksum.v
Intset.v
Dict.v
DictScan.v
Adlist.v
Sds.v
SdsText.v
Lzf.v
SdsNum.v
StringObj.v
Rio.v
Rdb.v
Notify.v
Multi.v
Query.v
Pubsub.v
RbTree.v
SkipList.v
Zipenc.v
Ziplist.v
ZipRead.v
ZipView.v
Quicklist.v
QuickNodes.v
QuickOps.v
QuickRange.v
QuickIter.v
QuickInsert.v
QuickProps.v
Keyspace.v
KeyCmd.v
StrCmd.v
Bitmap.v
BitCmd.v
KeyProps.v
KeySpec.v
Zipmap.v
Hll.v
HllSparse.v
HllCount.v
HllCmd.v
HllProps.v
