(* ===== verification/Prelude.v ===== *)
(** * Verification of the Leviathan code base

    Leviathan ([src/project]) is a C++ server toolkit with a C core: the
    string hash table and the INI profile store of its common library
    ([common/src/hash.c], [comProfileutil.c]) and the sources of the Redis 3.2
    server it is built around ([network/redis/redis-3.2/src]).  This library
    models the containers, the text and number conversions, the checksums and
    the encodings on which the server stands, its request parser, command
    dispatch, transactions and publish/subscribe, the key space with lazy expiry
    and the commands on keys, strings and bits, and the red-black tree of the
    C++ part.

    ** The parts of the program and how they interact

    The server keeps its key space and every set and hash in dictionaries
    ([dict.c]), small sets of integers in integer sets ([intset.c]), client and
    job queues in linked lists ([adlist.c]) and all text in dynamic strings
    ([sds.c]).  Numbers are printed and parsed by [util.c] and [sds.c]; keys
    are selected by the glob matcher of [util.c] and walked by [dictScan].  A
    snapshot is written through a [rio] stream ([rio.c]) with a running [crc64]
    in the RDB encoding ([rdb.c]), which stores decimal strings as integers and
    long strings compressed by LZF ([lzf_c.c], [lzf_d.c]).  Sorted sets are skip
    lists with spans ([t_zset.c]) over string objects ([object.c]).  Lists are
    quick lists ([quicklist.c]): linked nodes that hold compact lists in one
    block of bytes ([ziplist.c]), the inner ones compressed by LZF; old
    snapshots hold small hashes in compact maps ([zipmap.c]).  Bytes read
    from a client are cut into commands by [networking.c]; [processCommand]
    ([server.c]) refuses, queues or executes them, and [multi.c] watches keys
    and executes queued commands as one transaction.  Commands look keys up in
    the key space ([db.c]), where a key whose time has passed is deleted when it
    is looked up, and change them: [t_string.c], [bitops.c] and [hyperloglog.c]
    strings of bytes.
    What they change they signal to the transactions and notify to subscribers
    ([notify.c], [pubsub.c]).  The common library reads
    configuration files into one string hash table per section and has a
    red-black tree with parent pointers ([rbtree.cpp]).

    ** The files and the code they model

    - [Prelude] (this file): machine integers with their wrap-around, bytes,
      C strings, bounded reads and writes of buffers, allocation outcomes, and
      the tactics and lemmas shared by all components.
    - [Buckets]: arrays of chains and the finite map they stand for, shared by
      the two hash tables.  [Decimal]: the reference decimal notation.
    - [StrHash]: [hash.c].  [Profile]: the non-Windows half of
      [comProfileutil.c], on top of [StrHash].
    - [Util]: [digits10], [ll2string], [string2ll], [string2l], [memtoll] of
      [util.c]; [Glob]: [stringmatchlen] of [util.c].
    - [Checksum]: modules [Endian] ([endianconv.c]), [Crc16] ([crc16.c]) and
      [Crc64] ([crc64.c]).
    - [Intset]: [intset.c] on the bytes of the array.
    - [Dict]: [dict.c] with its two tables and incremental rehashing;
      [DictScan]: [rev] and [dictScan].
    - [Adlist]: [adlist.c] on a heap of nodes.
    - [Sds], [SdsText], [SdsNum]: [sds.c] and [sds.h]; headers and space
      management, quoting, splitting and joining, number printing.
    - [Lzf]: [lzf_c.c] and [lzf_d.c].
    - [Rio]: [rio.c] and [rio.h]; the table of backend functions is the class
      [RioBackend], what the clients rely on the class [RioLaws], with
      instances for memory buffers and files.
    - [Rdb]: the lengths, integers and strings of [rdb.c], proved against
      [RioLaws] and with the theorems of [Lzf], [Util] and [SdsNum].
    - [Notify]: [notify.c].
    - [StringObj]: the comparison of string objects of [object.c].  [SkipList]:
      the skip list of [t_zset.c] on a memory of nodes, proved against the class
      [TotalCompare] of this file, which [StringObj] instantiates.
    - [Multi]: [multi.c], with [processCommand], [call] and [propagate] of
      [server.c] and the key signalling and flushing of [db.c], on a record of
      the server's state; the commands of the data types are a parameter.
    - [Query]: the request side of [networking.c] and the writer of requests of
      [aof.c].
    - [Pubsub]: [pubsub.c], with the parts of creating and freeing a client
      that concern subscriptions and the publish message of the cluster bus.
    - [RbTree]: [rbtree.cpp] and [rbtree.h] on a heap of nodes.
    - [Zipenc], [Ziplist], [ZipRead]: [ziplist.c] on bytes; encodings of
      entries and lengths, insertion and deletion with the cascading update,
      access, search and merging.  [Zipmap]: [zipmap.c] on bytes.
    - [ZipView]: what quick lists rely on of a compact list, from the theorems
      of [ZipRead].  [Quicklist]: every function of [quicklist.c] on a heap of
      nodes.  Its theorems: [QuickNodes] (links, counters, compression),
      [QuickOps] (pushing, popping, replacing, deleting), [QuickRange] (deleting
      a range), [QuickIter] (iterators), [QuickInsert] (insertion with splitting
      and merging), [QuickProps] (histories).
    - [Keyspace]: the dictionaries of [db.c]; commands are programs over its
      functions, run on the dictionaries as [db.c] does ([run]) and on an
      abstract data base without expired keys ([arun]).  [KeyCmd]: the commands
      of [db.c] on keys of any type.  [StrCmd]: [t_string.c].  [Bitmap]: the
      routines of [bitops.c] on bits; [BitCmd]: its commands.  [KeyProps]:
      histories of commands.  [KeySpec]: what commands answer, and executions.
    - [Hll]: the registers and opcodes of [hyperloglog.c] on bytes, its hash,
      adding and merging; [HllSparse]: the theorems on sparse strings;
      [HllCount]: the sums and the estimate, in IEEE 754 doubles, with the
      logarithm as a parameter; [HllCmd]: its commands; [HllProps]: histories,
      the cached count, and two defects.

    ** How code becomes definitions

    One definition per C function, under its name; loops and inlined blocks
    are helpers next to it.  State is passed explicitly: a record per struct,
    a byte list per buffer, a finite map where pointers are shared ([Adlist],
    [RbTree], [SkipList], [Quicklist]).  The commands on keys are values of a
    free monad, so that one theorem on programs ([run_ok]) serves them all.
    [None] is undefined behaviour - an access outside a block, a dangling
    pointer, a failed assertion - so a theorem that an operation returns
    [Some] is a proof of memory safety.  Return codes and error paths are
    values.  Indeterminate memory (fresh allocations, locals) is an arbitrary
    argument, named [junk] or [htab0]; the outcomes of allocations the code
    tests are a list, the argument of type [oracle].  Integers are kept at the
    width of their C type wherever the code can reach the limit.

    Loops that are not structural take fuel, always computed from the input by
    the calling definition: the length of the buffer or chain, the number of
    buckets, the number of digits of a 64-bit value.  The theorems prove that
    the operations return, hence that the fuel is enough.

    ** What the theorems show

    - Refinement by histories: any sequence of operations on a new dictionary,
      integer set, linked list or dynamic string behaves as on a finite map, a
      set of integers, a list, a byte string, whatever internal state -
      rehashing, element width, header type, allocation failures - it goes
      through ([dict_history_refines], [intset_history_refines],
      [list_history_refines], [sds_history_refines]; [hash_add_refines] and
      [hash_lookup_refines] for [hash.c]).  A skip list behaves as a sorted list
      whatever heights its nodes get, with right spans on every level, so that
      ranks are positions ([zsl_history_refines], [zsl_ranks]); a compact list
      as a list of strings, with its cascading updates
      ([ziplistPush_refines], [ziplistInsert_refines],
      [ziplistDeleteRange_refines], [ziplistMerge_refines], [cascade_repairs],
      [ziplist_entries]); a compact map as an association list
      ([zipmap_history_refines]); a quick list as a list of strings
      ([quicklist_history_refines]), at every compression depth when it is used
      as a queue ([quicklist_queue_refines]) or iterated ([quicklist_iterates]),
      with its counters within their fields ([quicklist_fields_typed]); the red-black
      tree as a sorted association list, in logarithmic time
      ([rbtree_insert_refines], [rbtree_delete_refines],
      [rbtree_lookup_refines]).
    - The key space: a history of commands on keys, strings and bits, with any
      times to live, answers as a data base in which keys vanish at the moment
      their time has passed ([keyspace_history_refines]), and only keys that
      exist have times ([expires_within_dict]); SET and GET, and the arithmetic
      of INCR, are exact ([set_get], [incr_exact]).  A HyperLogLog stands for
      the set of what was added to it ([pf_history_refines]), in either encoding.
    - State machines: subscriptions of clients and server agree and a message
      reaches exactly the subscribers ([pubsub_refines], [pubsub_agreement],
      [publish_reaches]); in every reachable state of the server the tables of
      watched keys and the clients agree and no assertion can fail
      ([transactions_invariant]); a watching client is marked exactly when a
      key of it was signalled ([watch_detects_changes]); EXEC is a sequential
      run of the queue, or has no effect ([exec_atomic], [exec_dirty]), and is
      propagated as one block ([exec_block]).  The request parser handles any
      bytes ([any_input_is_handled]) and delivers what was sent, however the
      network cuts it ([requests_delivered]).
    - Round trips: RDB strings over any stream backend and chunk size
      ([rdb_string_roundtrip], [rio_transfer]), LZF ([lzf_roundtrip], and
      [lzf_decompress_exact] for the exact language of the decompressor), INI
      files ([save_parse_roundtrip], [put_get]), quoted arguments
      ([splitargs_repr]), split and join, numbers, event classes, integers of
      any width at any bit ([bitfield_roundtrip], [signed_bitfield_roundtrip]).
    - Bounds: the checks of bit fields for overflow are exact
      ([unsigned_overflow_correct], [signed_overflow_correct]).
    - Equivalence with reference definitions: counting bits seven words at a
      time ([redisPopcount_correct]), finding a bit word by word
      ([redisBitpos_correct]), the word-wise path of BITOP ([bitop_fast_path]),
      the unrolled sum over registers ([hll_sums_agree]), the cached count of
      PFCOUNT ([pfcount_cached]),
      the table-driven CRCs and their
      bit-serial definitions, number printing and parsing and [Decimal], the
      glob matcher and its language, MurmurHash2.
    - Termination and liveness: rehashing completes ([dictRehash_completes]), a
      scan ends and returns every key ([dictScan_terminates],
      [dictScan_guarantee]).
    - Refuted expectations, each on a concrete run: a scan can miss a key when
      the table starts to shrink ([dictScan_misses]), [hash_empty] clears one
      bucket ([hash_empty_keeps]), [GetPrivateProfileString] overruns its buffer
      ([get_string_overflow]), [confEntryFree] leaves a dangling pointer
      ([home_dir_dangling]), the glob matcher reads past its terminators
      ([stringmatchlen_out_of_bounds]), SAVE inside MULTI loses the EXEC that is
      propagated ([exec_lost_after_save]), a line that ends in LF alone costs
      the next request a byte ([inline_takes_a_line]), a big argument completed
      while clients are paused closes the connection
      ([paused_big_argument_closes]), deleting the root of a red-black tree
      with two elements fails an assertion ([rbtree_delete_refines]), inserting
      into and merging compact lists can corrupt them
      ([ziplistInsert_destroys], [ziplistMerge_empty_second]), quick lists
      compress their head by a stale mark ([stale_mark_breaks_head]), miscount
      deleted ranges ([del_range_miscounts]), read past a block when they are
      copied ([dup_reads_past_block]) and take options that do not fit
      ([options_overflow]), PERSIST revives expired keys ([persist_revives]),
      MOVE is not signalled ([move_unsignalled]), SETRANGE, DECRBY, SETEX and
      BITFIELD overflow on their arguments ([setrange_overflows],
      [arguments_overflow]), a bit field saturates to the wrong bound
      ([saturates_wrong_way]), a corrupt HyperLogLog makes merging write out of
      bounds ([corrupt_overflows]), and PFADD follows a number as a pointer
      ([number_is_no_pointer]).

    ** What is not modelled

    C++ code other than the red-black tree (the common library's other
    containers and pools, the network engine, the log analyser and the tester),
    the Windows emulation layer, hiredis, system calls and processes, and, but
    for [HllCount], floating point arithmetic: the scores of [SkipList] are an
    ordered type, the doubles other than NaN.  In the modelled files: lexicographic ranges, the
    ziplist encoding and the commands of [t_zset.c], replies and connections of
    [networking.c], statistics, the slow log, eviction and Lua of [server.c],
    dictionary iterators, random keys and statistics, the [printf] family of
    [sds.c], [d2string], random numbers and paths of [util.c], the socket
    backend and the protocol writers of [rio.c], doubles and the other object
    types of [rdb.c], the debugging print-outs of [ziplist.c], [zipmap.c] and [bitops.c],
    SCAN, KEYS, RANDOMKEY, SELECT, SHUTDOWN and the slot tables of [db.c],
    reference counts and the OBJECT command of [object.c], INCRBYFLOAT of
    [t_string.c], PFSELFTEST of [hyperloglog.c], and the uncached readers [GetPrivateProfileStringEX] and
    [GetPrivateProfileIntEX] of [comProfileutil.c].

    Left out for their size, though nothing stands in their way, are the
    commands of the other data types ([t_list.c], [t_set.c], [t_hash.c],
    [t_zset.c], [sort.c]), the reply buffers of
    [networking.c], the file level of [rdb.c] and [aof.c], the active expiry of
    [server.c], SHA-1 and the random numbers.  The values of those types are
    opaque in [Keyspace], and replication, cluster and the sentinel, which are
    driven by timers and sockets, appear only as the messages they are sent. *)

From Stdlib Require Import ZArith Lia Ascii.
From stdpp Require Export sorting.
From stdpp Require Export base numbers strings gmap option list.

#[global] Open Scope Z_scope.

Declare Scope lev_scope.
Delimit Scope lev_scope with lev.
#[global] Open Scope lev_scope.

(** Lengths as integers, the type the C code computes with. *)
Abbreviation zlen l := (Z.of_nat (length l)).

(** ** Machine integers

    A [w]-bit integer is a [Z]; the wrap-around of the C type is written
    out with [wrapu] (unsigned) and [wraps] (two's complement). *)
Definition wrapu (w z : Z) : Z := z mod 2 ^ w.
Definition wraps (w z : Z) : Z := (z + 2 ^ (w - 1)) mod 2 ^ w - 2 ^ (w - 1).

Definition u8 : Z → Z := wrapu 8.
Definition u16 : Z → Z := wrapu 16.
Definition u32 : Z → Z := wrapu 32.
Definition u64 : Z → Z := wrapu 64.
Definition s8 : Z → Z := wraps 8.
Definition s16 : Z → Z := wraps 16.
Definition s32 : Z → Z := wraps 32.
Definition s64 : Z → Z := wraps 64.

Definition in_u (w z : Z) : Prop := 0 ≤ z < 2 ^ w.
Definition in_s (w z : Z) : Prop := - 2 ^ (w - 1) ≤ z < 2 ^ (w - 1).

#[export] Instance in_u_dec w z : Decision (in_u w z).
Proof. unfold in_u. apply _. Defined.
#[export] Instance in_s_dec w z : Decision (in_s w z).
Proof. unfold in_s. apply _. Defined.

(** [pow2] turns the constant powers of two in the goal and the
    hypotheses into numerals, so that [lia] can use them. *)
Ltac pow2 :=
  repeat match goal with
  | |- context [2 ^ ?n] =>
      let v := eval vm_compute in (2 ^ n) in
      match v with Zpos _ => change (2 ^ n) with v end
  | H : context [2 ^ ?n] |- _ =>
      let v := eval vm_compute in (2 ^ n) in
      match v with Zpos _ => change (2 ^ n) with v in H end
  end.

Ltac wrap_unfold :=
  unfold u8, u16, u32, u64, s8, s16, s32, s64, wrapu, wraps, in_u, in_s in *.

(** Closes goals about wrap-around on constant widths. *)
Ltac wrap_lia := wrap_unfold; pow2; Z.div_mod_to_equations; lia.

Lemma wrapu_id w z : in_u w z → wrapu w z = z.
Proof. intros H. apply Z.mod_small, H. Qed.

Lemma u32_id z : 0 ≤ z < 2 ^ 32 → u32 z = z.
Proof. intros. by apply wrapu_id. Qed.

Lemma wrapu_range w z : 0 ≤ w → in_u w (wrapu w z).
Proof. intros H. apply Z.mod_pos_bound. lia. Qed.

Lemma wraps_id w z : 0 < w → in_s w z → wraps w z = z.
Proof.
  unfold wraps, in_s. intros Hw H.
  assert (2 ^ w = 2 * 2 ^ (w - 1)) as E.
  { rewrite <- Z.pow_succ_r by lia. f_equal. lia. }
  rewrite Z.mod_small; lia.
Qed.

Lemma wraps_range w z : 0 < w → in_s w (wraps w z).
Proof.
  unfold wraps, in_s. intros Hw.
  assert (2 ^ w = 2 * 2 ^ (w - 1)) as E.
  { rewrite <- Z.pow_succ_r by lia. f_equal. lia. }
  pose proof (Z.mod_pos_bound (z + 2 ^ (w - 1)) (2 ^ w)). lia.
Qed.

Lemma wraps_wrapu w z : 0 < w → wraps w (wrapu w z) = wraps w z.
Proof.
  intros Hw. unfold wraps, wrapu. by rewrite Zplus_mod_idemp_l.
Qed.

Lemma wrapu_wraps w z : 0 < w → wrapu w (wraps w z) = wrapu w z.
Proof.
  intros Hw. unfold wraps, wrapu.
  rewrite Zminus_mod_idemp_l. f_equal. lia.
Qed.

(** ** Bytes and strings

    A byte is a [Z] in [0, 255], a buffer a [list Z].  [of_string] turns a
    Rocq string literal into the bytes of the C literal (without the
    terminating NUL). *)
Definition byte_ok (b : Z) : Prop := in_u 8 b.
Definition bytes_ok (l : list Z) : Prop := Forall byte_ok l.

#[export] Instance byte_ok_dec b : Decision (byte_ok b).
Proof. unfold byte_ok. apply _. Defined.
#[export] Instance bytes_ok_dec l : Decision (bytes_ok l).
Proof. unfold bytes_ok. apply _. Defined.

Fixpoint of_string (s : string) : list Z :=
  match s with
  | EmptyString => []
  | String c s => Z.of_nat (nat_of_ascii c) :: of_string s
  end.

Definition chr (c : ascii) : Z := Z.of_nat (nat_of_ascii c).

(** A C string holds no NUL; [cstr] is what the string functions of the C
    library see of a buffer: everything before the first NUL. *)
Fixpoint cstr (l : list Z) : list Z :=
  match l with
  | [] => []
  | c :: l => if c =? 0 then [] else c :: cstr l
  end.

Definition nonul (l : list Z) : Prop := Forall (λ c, c ≠ 0) l.

#[export] Instance nonul_dec l : Decision (nonul l).
Proof. unfold nonul. apply _. Defined.

Lemma cstr_nonul l : nonul l → cstr l = l.
Proof.
  induction 1 as [|c l Hc _ IH]; [done|]. simpl.
  destruct (Z.eqb_spec c 0); [lia|]. by rewrite IH.
Qed.

Lemma nonul_cstr l : nonul (cstr l).
Proof.
  induction l as [|c l IH]; simpl; [constructor|].
  destruct (Z.eqb_spec c 0); [constructor|]. by constructor.
Qed.

Lemma nonul_app l1 l2 : nonul (l1 ++ l2) ↔ nonul l1 ∧ nonul l2.
Proof. apply Forall_app. Qed.

(** [isspace] and [tolower] of the C library, in the "C" locale. *)
Definition isspace (c : Z) : bool := ((9 <=? c) && (c <=? 13)) || (c =? 32).
Definition isdigit (c : Z) : bool := (48 <=? c) && (c <=? 57).
Definition tolower (c : Z) : Z := if (65 <=? c) && (c <=? 90) then c + 32 else c.

(** ** Little-endian encodings (the host byte order) *)
Fixpoint le_bytes (n : nat) (z : Z) : list Z :=
  match n with
  | O => []
  | S n => z mod 256 :: le_bytes n (z / 256)
  end.

Fixpoint le_val (l : list Z) : Z :=
  match l with
  | [] => 0
  | b :: l => b + 256 * le_val l
  end.

Lemma length_le_bytes n z : length (le_bytes n z) = n.
Proof. revert z. induction n; intros; simpl; auto. Qed.

Lemma le_bytes_ok n z : bytes_ok (le_bytes n z).
Proof.
  revert z. induction n as [|n IH]; intros z; simpl; constructor; [|apply IH].
  unfold byte_ok, in_u. pow2. pose proof (Z.mod_pos_bound z 256). lia.
Qed.

Lemma pow256 n : 2 ^ (8 * Z.of_nat (S n)) = 256 * 2 ^ (8 * Z.of_nat n).
Proof.
  replace (8 * Z.of_nat (S n)) with (8 + 8 * Z.of_nat n) by lia.
  rewrite Z.pow_add_r by lia. done.
Qed.

Lemma le_val_bytes n z : le_val (le_bytes n z) = wrapu (8 * Z.of_nat n) z.
Proof.
  unfold wrapu. revert z. induction n as [|n IH]; intros z; simpl le_bytes.
  { simpl. by rewrite Z.mod_1_r. }
  simpl le_val. rewrite IH, pow256, Z.rem_mul_r; lia.
Qed.

Lemma le_bytes_wrapu n z : le_bytes n (wrapu (8 * Z.of_nat n) z) = le_bytes n z.
Proof.
  unfold wrapu. revert z. induction n as [|n IH]; intros z; [done|].
  simpl. rewrite pow256, Z.rem_mul_r by lia. f_equal.
  - rewrite (Z.mul_comm 256), Z_mod_plus_full. apply Z.mod_mod. lia.
  - rewrite (Z.mul_comm 256), Z.div_add, (Z.div_small (z mod 256)) by
      (pose proof (Z.mod_pos_bound z 256); lia).
    apply IH.
Qed.

Lemma le_bytes_val l : bytes_ok l → le_bytes (length l) (le_val l) = l.
Proof.
  induction 1 as [|b l Hb _ IH]; [done|].
  unfold byte_ok, in_u in Hb. pow2. simpl.
  rewrite (Z.mul_comm 256). f_equal.
  - rewrite Z_mod_plus_full. by apply Z.mod_small.
  - rewrite Z.div_add, Z.div_small by lia. apply IH.
Qed.

Lemma le_val_range l : bytes_ok l → in_u (8 * zlen l) (le_val l).
Proof.
  unfold in_u. induction 1 as [|b l Hb _ IH]; [done|].
  cbn [length]. rewrite pow256. unfold byte_ok, in_u in Hb. pow2. simpl. lia.
Qed.

(** The value stored by a [w]-byte store and read back signed. *)
Lemma wraps_le_bytes (n : nat) z :
  (0 < n)%nat → in_s (8 * Z.of_nat n) z →
  wraps (8 * Z.of_nat n) (le_val (le_bytes n z)) = z.
Proof.
  intros Hn Hz. rewrite le_val_bytes, wraps_wrapu by lia.
  apply wraps_id; [lia|done].
Qed.

(** ** Byte buffers

    A read or a write outside a buffer is undefined behaviour in C; here it
    is [None].  An operation proved to return [Some] therefore never leaves
    its buffer. *)
Definition mread (m : list Z) (off n : Z) : option (list Z) :=
  if decide (0 ≤ off ∧ 0 ≤ n ∧ off + n ≤ zlen m)
  then Some (take (Z.to_nat n) (drop (Z.to_nat off) m)) else None.

Definition mwrite (m : list Z) (off : Z) (bs : list Z) : option (list Z) :=
  if decide (0 ≤ off ∧ off + zlen bs ≤ zlen m)
  then Some (take (Z.to_nat off) m ++ bs ++ drop (Z.to_nat off + length bs) m)
  else None.

(** A single byte, [m[i]]. *)
Definition get (m : list Z) (i : Z) : option Z :=
  if decide (0 ≤ i) then m !! Z.to_nat i else None.

(** [memmove (m+dst) (m+src) n]. *)
Definition memmove (m : list Z) (dst src n : Z) : option (list Z) :=
  bs ← mread m src n; mwrite m dst bs.

(** [zrealloc]: the common prefix is kept; the bytes of a grown block are
    indeterminate, which the argument [junk] stands for. *)
Definition zrealloc (junk : nat → Z) (m : list Z) (n : Z) : list Z :=
  take (Z.to_nat n) m ++
  map junk (seq (length m) (Z.to_nat n - length m)).

Lemma mread_app a b c off n :
  off = zlen a → n = zlen b → mread (a ++ b ++ c) off n = Some b.
Proof.
  intros -> ->. unfold mread. rewrite decide_True by (rewrite !length_app; lia).
  rewrite !Nat2Z.id, drop_app_length, take_app_length. done.
Qed.

Lemma mread_start b rest n : n = zlen b → mread (b ++ rest) 0 n = Some b.
Proof. intros ->. by apply (mread_app [] b rest). Qed.

Lemma mread_all b n : n = zlen b → mread b 0 n = Some b.
Proof. intros ->. rewrite <- (app_nil_r b) at 1. by apply mread_start. Qed.

Lemma mwrite_app a b b' c off :
  off = zlen a → length b = length b' →
  mwrite (a ++ b ++ c) off b' = Some (a ++ b' ++ c).
Proof.
  intros -> E. unfold mwrite. rewrite decide_True by (rewrite !length_app; lia).
  rewrite Nat2Z.id, take_app_length, <- E. do 3 f_equal.
  by rewrite <- drop_drop, drop_app_length, drop_app_length.
Qed.

Lemma mwrite_end a b b' off :
  off = zlen a → length b = length b' → mwrite (a ++ b) off b' = Some (a ++ b').
Proof.
  intros. rewrite <- (app_nil_r b), (mwrite_app a b b' []), app_nil_r by done. done.
Qed.

Lemma mwrite_start b b' c : length b = length b' → mwrite (b ++ c) 0 b' = Some (b' ++ c).
Proof. intros. by apply (mwrite_app [] b b' c). Qed.

Lemma get_app a c b i : i = zlen a → get (a ++ c :: b) i = Some c.
Proof.
  intros ->. unfold get. rewrite decide_True by lia.
  rewrite Nat2Z.id. by rewrite lookup_app_r, Nat.sub_diag by lia.
Qed.

Lemma get_nth m i : 0 ≤ i → get m i = m !! Z.to_nat i.
Proof. intros. unfold get. by rewrite decide_True. Qed.

Lemma get_is_some m i : 0 ≤ i < zlen m → is_Some (get m i).
Proof. intros. rewrite get_nth by lia. apply lookup_lt_is_Some. lia. Qed.

(** [memmove] of the tail [b] to the right, over the [e] bytes behind it ... *)
Lemma memmove_right a b e dst src n :
  dst = zlen a + zlen e → src = zlen a → n = zlen b →
  memmove (a ++ b ++ e) dst src n = Some (a ++ take (length e) (b ++ e) ++ b).
Proof.
  intros -> -> ->. unfold memmove. rewrite (mread_app a b e) by done.
  cbn [mbind option_bind]. rewrite <- (take_drop (length e) (b ++ e)) at 1.
  rewrite app_assoc, mwrite_end, <- app_assoc; [done|..];
    rewrite ?length_app, ?length_take, ?length_drop, ?length_app; lia.
Qed.

(** ... and to the left, over the [x] bytes in front of it. *)
Lemma memmove_left a x b dst src n :
  dst = zlen a → src = zlen a + zlen x → n = zlen b →
  memmove (a ++ x ++ b) dst src n = Some (a ++ b ++ drop (length b) (x ++ b)).
Proof.
  intros -> -> ->. unfold memmove.
  assert (a ++ x ++ b = (a ++ x) ++ b ++ []) as E by (by rewrite app_nil_r, app_assoc).
  rewrite E at 1. rewrite (mread_app (a ++ x) b []) by (rewrite ?length_app; lia).
  cbn [mbind option_bind]. rewrite <- (take_drop (length b) (x ++ b)) at 1.
  rewrite mwrite_app; [done|done|]. rewrite length_take, length_app. lia.
Qed.

(** Reads and writes do not see what is behind. *)
Lemma mread_frame m c off n b : mread m off n = Some b → mread (m ++ c) off n = Some b.
Proof.
  unfold mread. case_decide as H; [|done]. intros [= <-]. rewrite decide_True by (rewrite length_app; lia).
  rewrite drop_app_le, take_app_le by (rewrite ?length_drop; lia). done.
Qed.

Lemma mwrite_frame m c off bs m' : mwrite m off bs = Some m' → mwrite (m ++ c) off bs = Some (m' ++ c).
Proof.
  unfold mwrite. case_decide as H; [|done]. intros [= <-]. rewrite decide_True by (rewrite length_app; lia).
  rewrite take_app_le, drop_app_le, <- !app_assoc by lia. done.
Qed.

Lemma memmove_frame m c dst src n m' :
  memmove m dst src n = Some m' → memmove (m ++ c) dst src n = Some (m' ++ c).
Proof.
  unfold memmove. destruct (mread m src n) as [b|] eqn:E; [|done]. cbn [mbind option_bind]. intros H.
  rewrite (mread_frame _ _ _ _ _ E). cbn [mbind option_bind]. by apply mwrite_frame.
Qed.

Lemma length_zrealloc junk m n :
  0 ≤ n → zlen (zrealloc junk m n) = n.
Proof.
  intros. unfold zrealloc. rewrite length_app, length_take, length_map, length_seq.
  lia.
Qed.

Lemma zrealloc_grow junk m n :
  zlen m ≤ n → ∃ e, zrealloc junk m n = m ++ e ∧ zlen e = n - zlen m.
Proof.
  intros. unfold zrealloc. rewrite take_ge by lia. eexists. split; [done|].
  rewrite length_map, length_seq. lia.
Qed.

Lemma zrealloc_shrink junk a b n :
  n = zlen a → zrealloc junk (a ++ b) n = a.
Proof.
  intros ->. unfold zrealloc. rewrite Nat2Z.id, take_app_length, length_app.
  replace (length a - (length a + length b))%nat with 0%nat by lia.
  simpl. by rewrite app_nil_r.
Qed.

Lemma zrealloc_same junk m n : n = zlen m → zrealloc junk m n = m.
Proof. intros ->. rewrite <- (app_nil_r m) at 1. by apply zrealloc_shrink. Qed.

(** ** Allocation outcomes

    Code that tests for [NULL] consults an oracle: the list of the outcomes
    of the allocations still to come ([true]: success).  When the list is
    exhausted every further allocation succeeds. *)
Abbreviation oracle := (list bool).
Definition alloc (o : oracle) : bool * oracle :=
  match o with [] => (true, []) | b :: o => (b, o) end.

(** ** Automation shared by the components *)
Create HintDb lev.
#[export] Hint Resolve le_bytes_ok wrapu_range wraps_range nonul_cstr : lev.
Create Rewrite HintDb len.
#[export] Hint Rewrite @length_app @length_take @length_drop @length_map
  @length_le_bytes @length_insert @length_replicate : len.
Ltac len := autorewrite with len in *; try lia.

(** [case_ifs] splits on every boolean test of the goal that compares
    integers, leaving the corresponding facts as hypotheses. *)
Ltac case_if1 :=
  match goal with
  | |- context [?a =? ?b] => destruct (Z.eqb_spec a b)
  | |- context [?a <? ?b] => destruct (Z.ltb_spec a b)
  | |- context [?a <=? ?b] => destruct (Z.leb_spec a b)
  | |- context [?a >? ?b] => rewrite (Z.gtb_ltb a b)
  | |- context [?a >=? ?b] => rewrite (Z.geb_leb a b)
  | |- context [decide ?P] => destruct (decide P)
  end.
Ltac case_ifs := repeat (case_if1; simpl; try lia; try done).

(** ** Options *)
Lemma some_bind {A B} (x : A) (f : A → option B) : Some x ≫= f = f x.
Proof. done. Qed.

(** ** Lists *)
Lemma elem_of_concat {A} (x : A) (ls : list (list A)) :
  x ∈ concat ls ↔ ∃ l, x ∈ l ∧ l ∈ ls.
Proof.
  rewrite list_elem_of_In, in_concat. setoid_rewrite list_elem_of_In.
  naive_solver.
Qed.

(** ** Bits *)
(** A test of one flag, [flags & (1<<k)]. *)
Lemma flag_set flags k : 0 ≤ k → negb (Z.land flags (Z.shiftl 1 k) =? 0) = Z.testbit flags k.
Proof.
  intros Hk. rewrite Z.shiftl_1_l.
  destruct (Z.eqb_spec (Z.land flags (2 ^ k)) 0) as [E|E]; cbn [negb].
  - apply (f_equal (λ z, Z.testbit z k)) in E. rewrite Z.land_spec, Z.pow2_bits_true, Z.bits_0 in E by lia.
    by rewrite andb_true_r in E.
  - destruct (Z.testbit flags k) eqn:Et; [done|]. destruct E. apply Z.bits_inj'. intros i Hi.
    rewrite Z.land_spec, Z.bits_0. destruct (decide (i = k)) as [->|]; [by rewrite Et|].
    by rewrite Z.pow2_bits_false, andb_false_r by lia.
Qed.

Lemma lxor_mod a b n :
  0 ≤ n → Z.lxor a b mod 2 ^ n = Z.lxor (a mod 2 ^ n) (b mod 2 ^ n).
Proof.
  intros Hn. apply Z.bits_inj'. intros m Hm. rewrite Z.lxor_spec.
  destruct (Z.lt_ge_cases m n).
  - by rewrite !Z.mod_pow2_bits_low, Z.lxor_spec.
  - by rewrite !Z.mod_pow2_bits_high.
Qed.

Lemma lxor_range a b w : 0 ≤ w → in_u w a → in_u w b → in_u w (Z.lxor a b).
Proof.
  intros Hw Ha Hb.
  assert (Z.lxor a b mod 2 ^ w = Z.lxor a b) as <-.
  { rewrite lxor_mod by done. by rewrite !Z.mod_small. }
  by apply wrapu_range.
Qed.

(** A number is the exclusive or of its high part and its low part. *)
Lemma lxor_split x n :
  0 ≤ n → x = Z.lxor (Z.shiftl (Z.shiftr x n) n) (x mod 2 ^ n).
Proof.
  intros Hn. apply Z.bits_inj'. intros m Hm. rewrite Z.lxor_spec.
  destruct (Z.lt_ge_cases m n).
  - by rewrite Z.shiftl_spec_low, Z.mod_pow2_bits_low.
  - rewrite Z.shiftl_spec_high, Z.shiftr_spec, Z.mod_pow2_bits_high, xorb_false_r by lia.
    f_equal. lia.
Qed.

Lemma shiftr_range x w k : 0 ≤ k ≤ w → in_u w x → in_u (w - k) (Z.shiftr x k).
Proof.
  intros Hk [H0 H1]. rewrite Z.shiftr_div_pow2 by lia. split; [apply Z.div_pos; lia|].
  apply Z.div_lt_upper_bound; [lia|]. rewrite <- Z.pow_add_r by lia.
  by replace (k + (w - k)) with w by lia.
Qed.

(** Disjoint bits add up. *)
Lemma lor_shift a b n : 0 ≤ n → 0 ≤ a < 2 ^ n → Z.lor a (Z.shiftl b n) = a + b * 2 ^ n.
Proof.
  intros Hn Ha. assert (Z.land a (Z.shiftl b n) = 0) as E.
  { apply Z.bits_inj'. intros i Hi. rewrite Z.land_spec, Z.bits_0.
    destruct (Z.lt_ge_cases i n).
    - by rewrite Z.shiftl_spec_low, andb_false_r.
    - replace a with (a mod 2 ^ n) by by apply Z.mod_small.
      by rewrite Z.mod_pow2_bits_high by lia. }
  rewrite <- (Z.lxor_lor _ _ E), <- (Z.add_nocarry_lxor _ _ E).
  by rewrite Z.shiftl_mul_pow2.
Qed.

Lemma land_byte v : Z.land v 0xFF = v mod 256.
Proof. change 0xFF with (Z.ones 8). by rewrite Z.land_ones. Qed.

(** Equality of [foldl]s under an invariant of the accumulator. *)
Lemma foldl_inv_eq {A B} (f g : A → B → A) (I : A → Prop) (J : B → Prop) l a :
  (∀ a b, I a → J b → f a b = g a b ∧ I (f a b)) →
  I a → Forall J l → foldl f a l = foldl g a l ∧ I (foldl f a l).
Proof.
  intros Hstep Ha Hl. revert a Ha. induction Hl as [|b l Hb _ IH]; intros a Ha; [done|].
  simpl. destruct (Hstep a b Ha Hb) as [<- Hi]. by apply IH.
Qed.

(** ** Comparison functions *)

(** What the ordered containers expect of a comparison function that returns a
    negative number, zero or a positive number. *)
Class TotalCompare {K : Type} (compare : K → K → Z) : Prop := {
  cmp_antisym a b : compare a b < 0 ↔ 0 < compare b a;
  cmp_trans a b c : compare a b < 0 → compare b c < 0 → compare a c < 0;
  cmp_eq a b c : compare a b = 0 → (compare a c < 0 ↔ compare b c < 0)
}.

Section compare.
Context {K : Type} (compare : K → K → Z) {ord : TotalCompare compare}.

Lemma cmp_zero_sym a b : compare a b = 0 → compare b a = 0.
Proof. intros H. pose proof (cmp_antisym a b). pose proof (cmp_antisym b a). lia. Qed.

Lemma cmp_zero_trans a b c : compare a b = 0 → compare b c = 0 → compare a c = 0.
Proof.
  intros H1 H2. destruct (Z.lt_trichotomy (compare a c) 0) as [H|[H|H]]; [|done|].
  - apply (cmp_eq a b c H1) in H. lia.
  - apply cmp_antisym in H. apply (cmp_eq c b a (cmp_zero_sym _ _ H2)) in H.
    apply cmp_zero_sym in H1. lia.
Qed.

Lemma cmp_refl a : compare a a = 0.
Proof. pose proof (cmp_antisym a a). lia. Qed.

Lemma cmp_nlt a b : compare a b < 0 ↔ ¬ compare b a ≤ 0.
Proof. rewrite cmp_antisym. lia. Qed.

Lemma cmp_le_lt a b c : compare a b ≤ 0 → compare b c < 0 → compare a c < 0.
Proof.
  intros H1 H2. destruct (Z.eq_dec (compare a b) 0) as [E|E]; [by apply (cmp_eq a b c E)|].
  apply (cmp_trans a b c); [lia|done].
Qed.

Lemma cmp_lt_le a b c : compare a b < 0 → compare b c ≤ 0 → compare a c < 0.
Proof.
  intros H1 H2. apply cmp_nlt. intros H3. rewrite cmp_nlt in H1. destruct H1.
  destruct (Z.eq_dec (compare b c) 0) as [E|E].
  - destruct (Z.eq_dec (compare c a) 0) as [E'|E'].
    + rewrite (cmp_zero_trans b c a E E'). lia.
    + apply Z.lt_le_incl, (cmp_eq b c a E). lia.
  - apply Z.lt_le_incl. destruct (Z.eq_dec (compare c a) 0) as [E'|E']; [|apply (cmp_trans b c a); lia].
    apply cmp_nlt. intros H4. apply cmp_zero_sym in E'. assert (compare c b ≤ 0); [|pose proof (cmp_antisym b c); lia].
    destruct (Z.eq_dec (compare a b) 0) as [E2|E2].
    + apply cmp_zero_sym in E'. rewrite (cmp_zero_trans c a b E' E2). lia.
    + apply Z.lt_le_incl, (cmp_eq c a b (cmp_zero_sym _ _ E')). lia.
Qed.

Lemma cmp_le_le a b c : compare a b ≤ 0 → compare b c ≤ 0 → compare a c ≤ 0.
Proof.
  intros H1 H2. destruct (Z.eq_dec (compare a b) 0) as [E|E].
  - destruct (Z.eq_dec (compare b c) 0) as [E'|E']; [rewrite (cmp_zero_trans a b c E E'); lia|].
    apply Z.lt_le_incl, (cmp_eq a b c E). lia.
  - apply Z.lt_le_incl, (cmp_lt_le a b c); [lia|done].
Qed.
End compare.

(** ** Filters *)
Section filter.
Context {A : Type} (P : A → Prop) `{!∀ x, Decision (P x)}.

Lemma filter_keeps l : Forall P l → filter P l = l.
Proof. induction 1 as [|x l Hx _ IH]; [done|]. by rewrite filter_cons_True, IH. Qed.
Lemma filter_drops l : Forall (λ x, ¬ P x) l → filter P l = [].
Proof. induction 1 as [|x l Hx _ IH]; [done|]. by rewrite filter_cons_False. Qed.
End filter.
