(* ===== verification/Buckets.v ===== *)
(** * Chained hash tables

    The two hash tables of the code base ([hash.c] of the common library and
    [dict.c] of the Redis server) store an array of buckets, each bucket a
    singly linked chain of entries.  This file holds what both need: the
    operations on one chain, the well-formedness of an array of chains with
    respect to an index function, and the finite map such an array stands
    for. *)

From S2P Require Import Prelude.

Section chain.
Context {E K V : Type} `{Countable K}.
(** An entry [e] has the key [kof e] and the value [vof e]. *)
Context (kof : E → K) (vof : E → V).

(** The first entry of a chain with key [k] (a [while (he)] loop). *)
Fixpoint chain_find (k : K) (b : list E) : option E :=
  match b with
  | [] => None
  | e :: b => if decide (kof e = k) then Some e else chain_find k b
  end.

(** The chain with its first entry of key [k] replaced by [e']. *)
Fixpoint chain_set (k : K) (e' : E) (b : list E) : list E :=
  match b with
  | [] => []
  | e :: b => if decide (kof e = k) then e' :: b else e :: chain_set k e' b
  end.

(** The chain with its first entry of key [k] unlinked. *)
Fixpoint chain_del (k : K) (b : list E) : list E :=
  match b with
  | [] => []
  | e :: b => if decide (kof e = k) then b else e :: chain_del k b
  end.

Lemma chain_find_None k b : chain_find k b = None ↔ k ∉ (kof <$> b).
Proof.
  clear vof. induction b as [|e b IH]; simpl; [split; [intros _; apply not_elem_of_nil|done]|].
  rewrite not_elem_of_cons. case_decide; naive_solver.
Qed.

Lemma chain_find_split k b e :
  chain_find k b = Some e →
  ∃ b1 b2, b = b1 ++ e :: b2 ∧ kof e = k ∧
    (∀ e', chain_set k e' b = b1 ++ e' :: b2) ∧ chain_del k b = b1 ++ b2.
Proof.
  induction b as [|x b IH]; simpl; [done|]. case_decide as Hx.
  - intros [= ->]. exists [], b. split_and!; auto.
  - intros (b1 & b2 & -> & Hk & Hs & Hd)%IH. exists (x :: b1), b2.
    split_and!; [done|done| |by rewrite Hd].
    intros e'. simpl. by rewrite Hs.
Qed.

(** ** Arrays of chains *)
Definition kv (e : E) : K * V := (kof e, vof e).

Definition tmap (tab : list (list E)) : gmap K V :=
  list_to_map (kv <$> concat tab).

Record tab_wf (idx : K → nat) (tab : list (list E)) : Prop := {
  tab_nodup : NoDup (kof <$> concat tab);
  tab_place : ∀ i b e, tab !! i = Some b → e ∈ b → idx (kof e) = i
}.

Lemma kv_keys l : (kv <$> l).*1 = kof <$> l.
Proof. rewrite <- list_fmap_compose. done. Qed.

Lemma tmap_Some idx tab k e :
  tab_wf idx tab → e ∈ concat tab → kof e = k → tmap tab !! k = Some (vof e).
Proof.
  intros [Hnd _] He <-. apply elem_of_list_to_map; [by rewrite kv_keys|].
  apply list_elem_of_fmap. by exists e.
Qed.

Lemma elem_of_bucket idx tab k b e :
  tab_wf idx tab → tab !! idx k = Some b → e ∈ concat tab → kof e = k → e ∈ b.
Proof.
  intros [_ Hp] Hb (b' & He & Hb')%elem_of_concat <-.
  apply list_elem_of_lookup in Hb' as [j Hj].
  rewrite (Hp _ _ _ Hj He) in Hb. by simplify_eq.
Qed.

Lemma bucket_elem_of tab i (b : list E) e :
  tab !! i = Some b → e ∈ b → e ∈ concat tab.
Proof.
  intros Hb He. apply elem_of_concat. exists b. split; [done|].
  by eapply list_elem_of_lookup_2.
Qed.

(** A lookup in the bucket of a key is a lookup in the map. *)
Lemma tmap_find idx tab k b :
  tab_wf idx tab → tab !! idx k = Some b →
  tmap tab !! k = vof <$> chain_find k b.
Proof.
  intros Hwf Hb. destruct (chain_find k b) as [e|] eqn:Hf; simpl.
  - apply chain_find_split in Hf as (b1 & b2 & -> & Hk & _).
    eapply tmap_Some; [done| |done]. eapply bucket_elem_of; [done|set_solver].
  - apply not_elem_of_list_to_map_1. rewrite kv_keys.
    intros (e & -> & He)%list_elem_of_fmap.
    apply chain_find_None in Hf. apply Hf, list_elem_of_fmap.
    exists e. split; [done|]. by eapply elem_of_bucket.
Qed.

Lemma concat_insert_perm (tab : list (list E)) i b b' :
  tab !! i = Some b →
  ∃ r, concat tab ≡ₚ b ++ r ∧ concat (<[i := b']> tab) ≡ₚ b' ++ r.
Proof.
  intros Hb. pose proof (lookup_lt_Some _ _ _ Hb) as Hlt.
  exists (concat (take i tab) ++ concat (drop (S i) tab)). split.
  - rewrite <- (take_drop_middle _ _ _ Hb) at 1.
    rewrite concat_app. simpl. by rewrite Permutation_app_swap_app.
  - rewrite insert_take_drop, concat_app by done. simpl.
    by rewrite Permutation_app_swap_app.
Qed.

Lemma tab_place_insert idx (tab : list (list E)) i b' :
  (∀ j b e, tab !! j = Some b → e ∈ b → idx (kof e) = j) →
  (∀ e, e ∈ b' → idx (kof e) = i) →
  ∀ j b e, <[i := b']> tab !! j = Some b → e ∈ b → idx (kof e) = j.
Proof.
  intros Ht Hb' j b e Hj He. destruct (decide (i = j)) as [->|Hne].
  - destruct (decide (j < length tab)%nat).
    + rewrite list_lookup_insert_eq in Hj by done. simplify_eq. auto.
    + rewrite list_insert_ge in Hj by lia. eauto.
  - rewrite list_lookup_insert_ne in Hj by done. eauto.
Qed.

Lemma tmap_perm (l : list E) tab :
  NoDup (kof <$> concat tab) → concat tab ≡ₚ l → tmap tab = list_to_map (kv <$> l).
Proof.
  intros Hnd Hp. apply list_to_map_proper; [by rewrite kv_keys|]. by rewrite Hp.
Qed.

(** Linking a new entry at the head of the bucket of its key. *)
Lemma tmap_add idx tab b e :
  tab_wf idx tab → tab !! idx (kof e) = Some b → chain_find (kof e) b = None →
  tab_wf idx (<[idx (kof e) := e :: b]> tab) ∧
  tmap (<[idx (kof e) := e :: b]> tab) = <[kof e := vof e]> (tmap tab).
Proof.
  intros Hwf Hb Hf. pose proof (tmap_find _ _ _ _ Hwf Hb) as Hno.
  rewrite Hf in Hno. destruct Hwf as [Hnd Hp].
  destruct (concat_insert_perm tab _ b (e :: b) Hb) as (r & H1 & H2).
  assert (NoDup (kof <$> concat (<[idx (kof e) := e :: b]> tab))) as Hnd'.
  { rewrite H2. simpl. rewrite <- H1. constructor; [|done].
    apply not_elem_of_list_to_map_2 in Hno. by rewrite kv_keys in Hno. }
  split; [split; [done|]|].
  - apply tab_place_insert; [done|].
    intros x [->|Hx]%elem_of_cons; [done|]. by eapply Hp.
  - rewrite (tmap_perm (e :: concat tab)); [done|done|].
    rewrite H2. simpl. by rewrite H1.
Qed.

(** Replacing the entry of a key by one with the same key. *)
Lemma tmap_set idx tab b e e' :
  tab_wf idx tab → tab !! idx (kof e') = Some b →
  chain_find (kof e') b = Some e →
  tab_wf idx (<[idx (kof e') := chain_set (kof e') e' b]> tab) ∧
  tmap (<[idx (kof e') := chain_set (kof e') e' b]> tab)
    = <[kof e' := vof e']> (tmap tab).
Proof.
  intros [Hnd Hp] Hb Hf.
  apply chain_find_split in Hf as (b1 & b2 & -> & Hk & Hs & _). rewrite Hs.
  destruct (concat_insert_perm tab _ _ (b1 ++ e' :: b2) Hb) as (r & H1 & H2).
  assert (concat tab ≡ₚ e :: b1 ++ b2 ++ r) as P1.
  { rewrite H1, <- app_assoc. simpl. symmetry. apply Permutation_middle. }
  assert (concat (<[idx (kof e') := b1 ++ e' :: b2]> tab) ≡ₚ e' :: b1 ++ b2 ++ r) as P2.
  { rewrite H2, <- app_assoc. simpl. symmetry. apply Permutation_middle. }
  assert (NoDup (kof <$> concat (<[idx (kof e') := b1 ++ e' :: b2]> tab))) as Hnd'.
  { rewrite P1 in Hnd. rewrite P2. simpl in *. by rewrite <- Hk. }
  split; [split; [done|]|].
  - apply tab_place_insert; [done|]. intros x Hx.
    apply elem_of_app in Hx as [Hx|[->|Hx]%elem_of_cons]; [|done|];
      eapply Hp; try done; set_solver.
  - rewrite (tmap_perm _ _ Hnd' P2), (tmap_perm _ _ Hnd P1). simpl.
    by rewrite Hk, insert_insert_eq.
Qed.

(** Unlinking the entry of a key. *)
Lemma tmap_del idx tab b e k :
  tab_wf idx tab → tab !! idx k = Some b → chain_find k b = Some e →
  tab_wf idx (<[idx k := chain_del k b]> tab) ∧
  tmap (<[idx k := chain_del k b]> tab) = delete k (tmap tab).
Proof.
  intros [Hnd Hp] Hb Hf.
  apply chain_find_split in Hf as (b1 & b2 & -> & Hk & _ & Hd). rewrite Hd.
  destruct (concat_insert_perm tab _ _ (b1 ++ b2) Hb) as (r & H1 & H2).
  assert (concat tab ≡ₚ e :: b1 ++ b2 ++ r) as P1.
  { rewrite H1, <- app_assoc. simpl. symmetry. apply Permutation_middle. }
  rewrite <- app_assoc in H2.
  pose proof Hnd as Hnd0. rewrite P1 in Hnd0. simpl in Hnd0.
  apply NoDup_cons in Hnd0 as [Hni Hnd0].
  assert (NoDup (kof <$> concat (<[idx k := b1 ++ b2]> tab))) as Hnd'.
  { by rewrite H2. }
  split; [split; [done|]|].
  - apply tab_place_insert; [done|]. intros x Hx. eapply Hp; [done|].
    set_solver.
  - rewrite (tmap_perm _ _ Hnd' H2), (tmap_perm _ _ Hnd P1). simpl.
    rewrite Hk, delete_insert_id; [done|].
    apply not_elem_of_list_to_map_1. by rewrite kv_keys, <- Hk.
Qed.

(** The empty array. *)
Lemma concat_replicate_nil n : concat (replicate n ([] : list E)) = [].
Proof. by induction n. Qed.

Lemma tab_wf_empty idx n : tab_wf idx (replicate n []).
Proof.
  split; [by rewrite concat_replicate_nil; constructor|].
  intros i b e [-> _]%lookup_replicate_1 He. by apply not_elem_of_nil in He.
Qed.

Lemma tmap_empty n : tmap (replicate n []) = ∅.
Proof. unfold tmap. by rewrite concat_replicate_nil. Qed.
End chain.
