(* ===== verification/Decimal.v ===== *)
(** * Decimal text

    The reference definition of the decimal notation of an integer, the one
    [sprintf] with [%d] or [%lld] produces, and of the value such a text
    denotes.  The optimised routines of [util.c] are compared with it. *)

From S2P Require Import Prelude.

Fixpoint dec_go (fuel : nat) (z : Z) : list Z :=
  match fuel with
  | O => []
  | S fuel => if z <? 10 then [48 + z] else dec_go fuel (z / 10) ++ [48 + z mod 10]
  end.

(** The digits of a non-negative integer. *)
Definition dec (z : Z) : list Z := dec_go (S (Z.to_nat (Z.log2 z))) z.

(** The text of an integer, [%lld]. *)
Definition dec_of_Z (z : Z) : list Z := if z <? 0 then 45 :: dec (- z) else dec z.

(** The value of a string of digits, most significant first. *)
Definition dec_val (l : list Z) : Z := foldl (λ a c, 10 * a + (c - 48)) 0 l.

Definition digit (c : Z) : Prop := 48 ≤ c ≤ 57.

Lemma dec_go_fuel f g z :
  0 ≤ z < 2 ^ Z.of_nat f → 0 ≤ z < 2 ^ Z.of_nat g →
  (0 < f)%nat → (0 < g)%nat → dec_go f z = dec_go g z.
Proof.
  revert g z. induction f as [|f IH]; intros [|g] z Hf Hg Pf Pg; try lia.
  simpl. destruct (Z.ltb_spec z 10) as [|Hz]; [done|].
  rewrite Nat2Z.inj_succ, Z.pow_succ_r in Hf, Hg by lia.
  assert (f ≠ 0%nat ∧ g ≠ 0%nat).
  { split; intros ->; simpl in *; lia. }
  rewrite (IH g (z / 10)); [done|Z.div_mod_to_equations; lia..].
Qed.

Lemma dec_fuel_ok z : 0 ≤ z → 0 ≤ z < 2 ^ Z.of_nat (S (Z.to_nat (Z.log2 z))).
Proof.
  intros Hz. split; [done|]. rewrite Nat2Z.inj_succ, Z2Nat.id by apply Z.log2_nonneg.
  destruct (decide (z = 0)) as [->|]; [done|]. apply Z.log2_spec. lia.
Qed.

(** The defining equation of [dec]. *)
Lemma dec_unfold z :
  0 ≤ z → dec z = if z <? 10 then [48 + z] else dec (z / 10) ++ [48 + z mod 10].
Proof.
  intros Hz. unfold dec at 1. cbn [dec_go].
  destruct (Z.ltb_spec z 10) as [|Hz']; [done|]. f_equal. unfold dec.
  assert (1 ≤ Z.log2 z).
  { change 1 with (Z.log2 2). apply Z.log2_le_mono. lia. }
  assert (0 ≤ z / 10) by (apply Z.div_pos; lia).
  apply dec_go_fuel; [|by apply dec_fuel_ok|lia|lia].
  split; [done|]. rewrite Z2Nat.id by lia.
  pose proof (dec_fuel_ok z Hz) as [_ Hb].
  rewrite Nat2Z.inj_succ, Z2Nat.id, Z.pow_succ_r in Hb by lia.
  Z.div_mod_to_equations. lia.
Qed.

(** Induction on the number of digits. *)
Lemma dec_ind (P : Z → Prop) :
  (∀ z, 0 ≤ z < 10 → P z) → (∀ z, 10 ≤ z → P (z / 10) → P z) →
  ∀ z, 0 ≤ z → P z.
Proof.
  intros H0 H1 z Hz. revert z Hz.
  refine (Zlt_0_ind _ _). intros z IH Hz.
  destruct (Z.ltb_spec z 10); [apply H0; lia|].
  apply H1; [done|]. apply IH. Z.div_mod_to_equations. lia.
Qed.

Lemma dec_digits z : 0 ≤ z → Forall digit (dec z).
Proof.
  revert z. apply dec_ind; [intros z Hz|intros z Hz IH]; rewrite dec_unfold by lia.
  - destruct (Z.ltb_spec z 10); [|lia]. repeat constructor; unfold digit; lia.
  - destruct (Z.ltb_spec z 10); [lia|]. apply Forall_app. split; [done|].
    repeat constructor; unfold digit; Z.div_mod_to_equations; lia.
Qed.

Lemma dec_val_snoc l c : dec_val (l ++ [c]) = 10 * dec_val l + (c - 48).
Proof. unfold dec_val. by rewrite foldl_app. Qed.

(** The value of the text is the number. *)
Lemma dec_val_dec z : 0 ≤ z → dec_val (dec z) = z.
Proof.
  revert z. apply dec_ind; [intros z Hz|intros z Hz IH]; rewrite dec_unfold by lia.
  - destruct (Z.ltb_spec z 10); [|lia]. unfold dec_val. simpl. lia.
  - destruct (Z.ltb_spec z 10); [lia|]. rewrite dec_val_snoc, IH.
    Z.div_mod_to_equations. lia.
Qed.

Lemma dec_nonempty z : 0 ≤ z → dec z ≠ [].
Proof.
  intros Hz. rewrite dec_unfold by done. destruct (z <? 10); [done|].
  intros []%app_eq_nil. done.
Qed.

(** A number without leading zero: the first digit is 0 only for 0. *)
Lemma dec_head z : 0 < z → ∃ c l, dec z = c :: l ∧ 49 ≤ c ≤ 57.
Proof.
  intros Hz. assert (0 ≤ z) as Hz0 by lia. revert z Hz0 Hz.
  apply (dec_ind (λ z, 0 < z → _)); [intros z Hz|intros z Hz IH];
    intros Hpos; rewrite dec_unfold by lia.
  - destruct (Z.ltb_spec z 10); [|lia]. do 2 eexists. split; [done|lia].
  - destruct (Z.ltb_spec z 10); [lia|].
    destruct IH as (c & l & -> & Hc); [Z.div_mod_to_equations; lia|].
    do 2 eexists. split; [done|lia].
Qed.

Lemma length_dec z k :
  1 ≤ k → 0 ≤ z → (zlen (dec z) ≤ k ↔ z < 10 ^ k).
Proof.
  intros Hk Hz. revert z Hz k Hk.
  apply (dec_ind (λ z, ∀ k, 1 ≤ k → _)); [intros z Hz|intros z Hz IH];
    intros k Hk; rewrite dec_unfold by lia.
  - destruct (Z.ltb_spec z 10); [|lia]. simpl.
    pose proof (Z.pow_le_mono_r 10 1 k). lia.
  - destruct (Z.ltb_spec z 10); [lia|]. rewrite length_app. simpl.
    destruct (decide (k = 1)) as [->|].
    + assert (1 ≤ zlen (dec (z / 10))).
      { pose proof (dec_nonempty (z / 10)). destruct (dec (z / 10)); simpl; [|lia].
        exfalso. apply H0; [Z.div_mod_to_equations; lia|done]. }
      change (10 ^ 1) with 10. lia.
    + assert (zlen (dec (z / 10)) ≤ k - 1 ↔ z / 10 < 10 ^ (k - 1)) as E.
      { apply IH. lia. }
      replace k with (Z.succ (k - 1)) at 2 by lia. rewrite Z.pow_succ_r by lia.
      assert (z / 10 < 10 ^ (k - 1) ↔ z < 10 * 10 ^ (k - 1)) by
        (Z.div_mod_to_equations; lia).
      lia.
Qed.
