(* ===== verification/StrHash.v ===== *)
(** * The string hash table of the common library ([common/src/hash.c])

    [struct hash] is an array of [size] chains of [struct nlist] nodes; keys
    and values are C strings (a [list Z] without NUL).  The model keeps the
    array as a list of chains and writes out what the C code does on
    [NULL] results of [malloc]/[strdup], on a zero table size and on writes
    past the end of a buffer ([None]: undefined behaviour). *)

From S2P Require Import Prelude Buckets.

(** ** Data *)

(** [struct nlist]: the [next] pointer is the rest of the chain; [value] is
    [NULL] when its [strdup] failed. *)
Record nlist := mk_nlist { key : list Z; value : option (list Z) }.

(** [struct hash]. *)
Record hash := mk_hash { hashtab : list (list nlist); size : Z }.

(** [struct dynBuf]: [buf] is [NULL] or the C string stored in the block,
    [blen] the size of the block. *)
Record dynBuf := mk_dynBuf { buf : option (list Z); blen : Z }.

(** ** Operations *)

(** A negative [size] makes the [malloc] of the array fail, and the [memset]
    then writes through [NULL]. *)
Definition hash_new (sz : Z) : option hash :=
  if decide (0 ≤ sz) then Some (mk_hash (replicate (Z.to_nat sz) []) sz) else None.

(** The loop of [hashfunc]; [*s] is a signed [char]. *)
Definition hash_step (hashval c : Z) : Z := u32 (s8 c + 21 * hashval).
Definition hashval_of (s : list Z) : Z := foldl hash_step 0 s.

(** [hashval % h->size]: the [int] is converted to [unsigned]; a zero divisor
    is undefined. *)
Definition hashfunc (h : hash) (s : list Z) : option Z :=
  if decide (u32 (size h) = 0) then None
  else Some (hashval_of s mod u32 (size h)).

Definition bucket_of (h : hash) (s : list Z) : option (nat * list nlist) :=
  i ← hashfunc h s;
  b ← hashtab h !! Z.to_nat i;
  Some (Z.to_nat i, b).

Definition hash_lookup (h : hash) (s : list Z) : option (option nlist) :=
  '(_, b) ← bucket_of h s; Some (chain_find key s b).

(** The node is linked at the head of its chain before its value is
    duplicated; an existing node has its value freed and duplicated anew. *)
Definition hash_add (o : oracle) (h : hash) (k v : list Z)
  : option (option nlist * hash * oracle) :=
  np ← hash_lookup h k;
  '(i, b) ← bucket_of h k;
  match np with
  | None =>
      let '(ok_np, o) := alloc o in
      if negb ok_np then Some (None, h, o) else
      let '(ok_key, o) := alloc o in
      if negb ok_key then Some (None, h, o) else
      let '(ok_val, o) := alloc o in
      let np := mk_nlist k (if ok_val then Some v else None) in
      let h' := mk_hash (<[i := np :: b]> (hashtab h)) (size h) in
      Some (if ok_val then Some np else None, h', o)
  | Some _ =>
      let '(ok_val, o) := alloc o in
      let np := mk_nlist k (if ok_val then Some v else None) in
      let h' := mk_hash (<[i := chain_set key k np b]> (hashtab h)) (size h) in
      Some (if ok_val then Some np else None, h', o)
  end.

(** [memset(h->hashtab, 0, sizeof(h->hashtab))] clears [sizeof] a pointer:
    the first bucket. *)
Definition hash_empty (h : hash) : option hash :=
  match hashtab h with
  | [] => None
  | _ :: tab => Some (mk_hash ([] :: tab) (size h))
  end.

(** The nodes freed, in the order of the two loops. *)
Fixpoint hash_destroy_chain (np : list nlist) : list nlist :=
  match np with
  | [] => []
  | n :: op => n :: hash_destroy_chain op
  end.

Fixpoint hash_destroy_loop (tab : list (list nlist)) : list nlist :=
  match tab with
  | [] => []
  | np :: tab =>
      match np with
      | [] => hash_destroy_loop tab
      | _ => hash_destroy_chain np ++ hash_destroy_loop tab
      end
  end.

Definition hash_destroy (h : hash) : list nlist :=
  hash_destroy_loop (take (Z.to_nat (size h)) (hashtab h)).

Definition BUF_UNIT_LEN : Z := 256.

(** The [while] loop of [add_string]: [inl] when a [realloc] failed. *)
Fixpoint grow_loop (fuel : nat) (o : oracle) (need len : Z) : option (bool * Z * oracle) :=
  match fuel with
  | O => None
  | S fuel =>
      if need >? len then
        let '(ok, o) := alloc o in
        if ok then grow_loop fuel o need (len + BUF_UNIT_LEN)
        else Some (false, len, o)
      else Some (true, len, o)
  end.

(** [add_string]: result [true] for the C value 1 (failure).  [strcat]
    writes [strlen(buf) + strlen(str) + 1] bytes into a block of [blen]. *)
Definition add_string (o : oracle) (st : dynBuf) (str : option (list Z))
  : option (bool * dynBuf * oracle) :=
  match str with
  | None => Some (true, st, o)
  | Some str =>
      let '(ok, st, o) :=
        match buf st with
        | None =>
            let '(ok, o) := alloc o in
            if ok then (true, mk_dynBuf (Some []) BUF_UNIT_LEN, o)
            else (false, st, o)
        | Some _ => (true, st, o)
        end in
      if negb ok then Some (true, st, o) else
      match buf st with
      | None => None
      | Some s =>
          let need := zlen s + zlen str in
          '(ok, len, o) ← grow_loop (S (length s + length str)) o need (blen st);
          if ok : bool then
            if need + 1 <=? len
            then Some (false, mk_dynBuf (Some (s ++ str)) len, o)
            else None
          else Some (true, mk_dynBuf None len, o)
      end
  end.

(** One node of [hash_string]: up to four [add_string] calls whose results
    are or-ed into [res]. *)
Definition add_node (o : oracle) (st : dynBuf) (n : nlist)
  : option (bool * dynBuf * oracle) :=
  '(r1, st, o) ← add_string o st (Some (key n));
  '(r2, st, o) ← add_string o st (Some (of_string "="));
  match value n with
  | None => Some (r1 || r2, st, o)
  | Some v =>
      '(r3, st, o) ← add_string o st (Some v);
      '(r4, st, o) ← add_string o st (Some [10]);
      Some (r1 || r2 || r3 || r4, st, o)
  end.

Fixpoint hash_string_loop (ns : list nlist) (o : oracle) (st : dynBuf)
  : option (dynBuf * oracle) :=
  match ns with
  | [] => Some (st, o)
  | n :: ns =>
      '(res, st, o) ← add_node o st n;
      if res : bool then Some (st, o) else hash_string_loop ns o st
  end.

(** The two nested loops visit the nodes of the chains in order and stop at
    the first failure. *)
Definition hash_string (o : oracle) (h : hash) : option (option (list Z) * oracle) :=
  '(st, o) ← hash_string_loop (concat (take (Z.to_nat (size h)) (hashtab h)))
               o (mk_dynBuf None 0);
  Some (buf st, o).

(** ** Invariant and abstraction *)

Definition hash_idx (sz : Z) (k : list Z) : nat :=
  Z.to_nat (hashval_of k mod u32 sz).

Record hash_wf (h : hash) : Prop := {
  wf_size : 0 < size h < 2 ^ 31;
  wf_len : zlen (hashtab h) = size h;
  wf_tab : tab_wf key (hash_idx (size h)) (hashtab h)
}.

(** The finite map a table stands for ([None]: a [NULL] value). *)
Definition hmap (h : hash) : gmap (list Z) (option (list Z)) :=
  tmap key value (hashtab h).

Lemma bucket_of_wf h k :
  hash_wf h → ∃ b, bucket_of h k = Some (hash_idx (size h) k, b) ∧
    hashtab h !! hash_idx (size h) k = Some b.
Proof.
  intros [Hs Hl _]. unfold bucket_of, hashfunc, hash_idx.
  assert (u32 (size h) = size h) as -> by wrap_lia.
  rewrite decide_False by lia. simpl.
  pose proof (Z.mod_pos_bound (hashval_of k) (size h)).
  destruct (lookup_lt_is_Some_2 (hashtab h)
              (Z.to_nat (hashval_of k mod size h))) as [b Hb]; [lia|].
  exists b. by rewrite Hb.
Qed.

Lemma hash_lookup_wf h k b :
  hash_wf h → hashtab h !! hash_idx (size h) k = Some b →
  hash_lookup h k = Some (chain_find key k b).
Proof.
  intros Hwf Hb. destruct (bucket_of_wf h k Hwf) as (b' & E & Hb').
  unfold hash_lookup. rewrite E. simpl. by simplify_eq.
Qed.

Lemma hash_wf_insert h i b :
  hash_wf h → tab_wf key (hash_idx (size h)) (<[i := b]> (hashtab h)) →
  hash_wf (mk_hash (<[i := b]> (hashtab h)) (size h)).
Proof. intros [Hs Hl Ht] Ht'. split; simpl; [done|by rewrite length_insert|done]. Qed.

(** The three outcomes of [hash_add] on a well-formed table. *)
Inductive add_outcome (h : hash) (k v : list Z) : option nlist → hash → Prop :=
  | add_done h' :
      hmap h' = <[k := Some v]> (hmap h) →
      add_outcome h k v (Some (mk_nlist k (Some v))) h'
  | add_no_node :
      hmap h !! k = None → add_outcome h k v None h
  | add_no_value h' :
      hmap h' = <[k := None]> (hmap h) → add_outcome h k v None h'.

Lemma link_node h k w b :
  hash_wf h → hashtab h !! hash_idx (size h) k = Some b →
  chain_find key k b = None →
  let h' := mk_hash (<[hash_idx (size h) k := mk_nlist k w :: b]> (hashtab h)) (size h) in
  hash_wf h' ∧ hmap h' = <[k := w]> (hmap h).
Proof.
  intros Hwf Hb Hf.
  destruct (tmap_add key value _ _ b (mk_nlist k w) (wf_tab _ Hwf) Hb Hf) as [H1 H2].
  split; [by apply hash_wf_insert|done].
Qed.

Lemma set_node h k w b e :
  hash_wf h → hashtab h !! hash_idx (size h) k = Some b →
  chain_find key k b = Some e →
  let h' := mk_hash (<[hash_idx (size h) k := chain_set key k (mk_nlist k w) b]>
                       (hashtab h)) (size h) in
  hash_wf h' ∧ hmap h' = <[k := w]> (hmap h).
Proof.
  intros Hwf Hb Hf.
  destruct (tmap_set key value _ _ b e (mk_nlist k w) (wf_tab _ Hwf) Hb Hf) as [H1 H2].
  split; [by apply hash_wf_insert|done].
Qed.

Lemma hash_add_spec o h k v :
  hash_wf h →
  ∃ r h' o', hash_add o h k v = Some (r, h', o') ∧ hash_wf h' ∧
    size h' = size h ∧ add_outcome h k v r h' ∧ (o = [] → is_Some r ∧ o' = []).
Proof.
  intros Hwf. destruct (bucket_of_wf h k Hwf) as (b & E & Hb).
  pose proof (tmap_find key value _ _ _ _ (wf_tab _ Hwf) Hb) as Hm.
  unfold hash_add. rewrite E, (hash_lookup_wf _ _ _ Hwf Hb). simpl.
  destruct (chain_find key k b) as [e|] eqn:Hf; simpl in Hm.
  - pose proof (λ w, set_node h k w b e Hwf Hb Hf) as Hset.
    destruct (alloc o) as [[] o1] eqn:A1; do 3 eexists; (split; [reflexivity|]);
      destruct (Hset (Some v)), (Hset None); split_and!; try done;
      try (by constructor); destruct o; naive_solver.
  - pose proof (λ w, link_node h k w b Hwf Hb Hf) as Hlink.
    destruct (alloc o) as [[] o1] eqn:A1; simpl.
    2: { do 3 eexists; (split; [reflexivity|]); split_and!; try done;
         [by constructor|destruct o; naive_solver]. }
    destruct (alloc o1) as [[] o2] eqn:A2; simpl.
    2: { do 3 eexists; (split; [reflexivity|]); split_and!; try done;
         [by constructor|destruct o; naive_solver]. }
    destruct (alloc o2) as [[] o3] eqn:A3; do 3 eexists; (split; [reflexivity|]);
      destruct (Hlink (Some v)), (Hlink None); split_and!; try done;
      try (by constructor); destruct o; naive_solver.
Qed.

(** ** Growing buffers *)
Definition buf_ok (st : dynBuf) (s : list Z) : Prop :=
  (buf st = None ∧ s = []) ∨
  (buf st = Some s ∧ ∃ m, blen st = 256 * m ∧ 1 ≤ m ∧ zlen s < 256 * m ∧
     (m = 1 ∨ 256 * (m - 1) < zlen s)).

(** [strcat] of a string ending exactly at the end of the block writes its
    NUL one byte past it. *)
Definition fills_block (n : Z) : bool := (0 <? n) && (n mod 256 =? 0).

Lemma grow_loop_ok fuel need m :
  (0 < fuel)%nat → need - 256 * m ≤ 256 * (Z.of_nat fuel - 1) →
  ∃ m', grow_loop fuel [] need (256 * m) = Some (true, 256 * m', []) ∧
    m ≤ m' ∧ need ≤ 256 * m' ∧ (m' = m ∨ 256 * (m' - 1) < need).
Proof.
  revert m. induction fuel as [|fuel IH]; intros m Hf Hn; [lia|]. simpl.
  rewrite Z.gtb_ltb. destruct (Z.ltb_spec (256 * m) need).
  - unfold BUF_UNIT_LEN. replace (256 * m + 256) with (256 * (m + 1)) by lia.
    destruct (IH (m + 1)) as (m' & -> & ? & ? & ?); [lia..|].
    exists m'. split_and!; try done; lia.
  - exists m. split_and!; try done; lia.
Qed.

Lemma add_string_spec st s str :
  buf_ok st s →
  if fills_block (zlen s + zlen str) then add_string [] st (Some str) = None
  else ∃ st', add_string [] st (Some str) = Some (false, st', []) ∧
       buf st' = Some (s ++ str) ∧ buf_ok st' (s ++ str).
Proof.
  intros Hok.
  assert (∃ m, 1 ≤ m ∧ zlen s < 256 * m ∧ (m = 1 ∨ 256 * (m - 1) < zlen s) ∧
    add_string [] st (Some str) =
      ('(ok, len, o) ← grow_loop (S (length s + length str)) [] (zlen s + zlen str) (256 * m);
      if ok : bool then
        if zlen s + zlen str + 1 <=? len
        then Some (false, mk_dynBuf (Some (s ++ str)) len, o) else None
      else Some (true, mk_dynBuf None len, o))) as (m & Hm & Hs & Hmin & ->).
  { destruct st as [b l]. destruct Hok as [[Hb ->]|(Hb & m & Hl & ?)]; simpl in *; subst.
    - exists 1. split_and!; [lia|simpl; lia|by left|done].
    - exists m. split_and!; naive_solver. }
  destruct (grow_loop_ok (S (length s + length str)) (zlen s + zlen str) m)
    as (m' & -> & H1 & H2 & H3); [lia..|].
  simpl. unfold fills_block.
  assert ((zlen s + zlen str + 1 <=? 256 * m') =
    negb ((0 <? zlen s + zlen str) && ((zlen s + zlen str) mod 256 =? 0))) as ->.
  { pose proof (Z.div_mod (zlen s + zlen str) 256).
    pose proof (Z.mod_pos_bound (zlen s + zlen str) 256).
    destruct (Z.leb_spec (zlen s + zlen str + 1) (256 * m'));
      destruct (Z.ltb_spec 0 (zlen s + zlen str));
      destruct (Z.eqb_spec ((zlen s + zlen str) mod 256) 0); simpl; lia. }
  destruct ((0 <? zlen s + zlen str) && ((zlen s + zlen str) mod 256 =? 0)) eqn:F;
    simpl; [done|]. eexists. split; [done|].
  split; [done|]. right. split; [done|]. exists m'. simpl. rewrite length_app.
  apply andb_false_iff in F. rewrite Z.ltb_ge, Z.eqb_neq in F.
  pose proof (Z.div_mod (zlen s + zlen str) 256).
  pose proof (Z.mod_pos_bound (zlen s + zlen str) 256). lia.
Qed.

(** The strings [hash_string] appends for one node, and the text they make. *)
Definition node_pieces (n : nlist) : list (list Z) :=
  [key n; of_string "="] ++ match value n with None => [] | Some v => [v; [10]] end.

Fixpoint pieces_fit (len : Z) (ps : list (list Z)) : bool :=
  match ps with
  | [] => true
  | p :: ps => negb (fills_block (len + zlen p)) && pieces_fit (len + zlen p) ps
  end.

Lemma add_node_spec st s n :
  buf_ok st s →
  if pieces_fit (zlen s) (node_pieces n)
  then ∃ st', add_node [] st n = Some (false, st', []) ∧
       buf st' = Some (s ++ concat (node_pieces n)) ∧
       buf_ok st' (s ++ concat (node_pieces n))
  else add_node [] st n = None.
Proof.
  intros H0. unfold add_node, node_pieces. cbn [app pieces_fit].
  pose proof (add_string_spec st s (key n) H0) as H1.
  destruct (fills_block (zlen s + zlen (key n))); cbn [negb andb].
  { by rewrite H1. }
  destruct H1 as (st1 & -> & _ & H1). cbn [mbind option_bind].
  pose proof (add_string_spec st1 _ (of_string "=") H1) as H2.
  rewrite length_app, Nat2Z.inj_add in H2.
  destruct (fills_block _); cbn [negb andb]; [by rewrite H2|].
  destruct H2 as (st2 & -> & Hb2 & H2). cbn [mbind option_bind].
  destruct (value n) as [v|]; cbn [pieces_fit].
  2: { eexists. split; [done|]. cbn [concat]. rewrite app_nil_r, app_assoc. done. }
  pose proof (add_string_spec st2 _ v H2) as H3.
  rewrite !length_app, !Nat2Z.inj_add in H3.
  destruct (fills_block _); cbn [negb andb]; [by rewrite H3|].
  destruct H3 as (st3 & -> & Hb3 & H3). cbn [mbind option_bind].
  pose proof (add_string_spec st3 _ [10] H3) as H4.
  rewrite !length_app, !Nat2Z.inj_add in H4.
  destruct (fills_block _); cbn [negb andb]; [by rewrite H4|].
  destruct H4 as (st4 & -> & Hb4 & H4). cbn [mbind option_bind].
  eexists. split; [done|]. cbn [concat]. rewrite app_nil_r.
  rewrite !app_assoc. done.
Qed.

Lemma pieces_fit_app len ps qs :
  pieces_fit len (ps ++ qs) =
  pieces_fit len ps && pieces_fit (len + zlen (concat ps)) qs.
Proof.
  revert len. induction ps as [|p ps IH]; intros len; simpl; [by rewrite Z.add_0_r|].
  rewrite IH, andb_assoc, length_app. do 2 f_equal. lia.
Qed.

Lemma hash_string_loop_spec ns st s :
  buf_ok st s →
  if pieces_fit (zlen s) (concat (node_pieces <$> ns))
  then ∃ st', hash_string_loop ns [] st = Some (st', []) ∧
       buf st' = (if ns is [] then buf st
                  else Some (s ++ concat (concat (node_pieces <$> ns))))
  else hash_string_loop ns [] st = None.
Proof.
  revert st s. induction ns as [|n ns IH]; intros st s Hok.
  { simpl. eauto. }
  cbn [fmap list_fmap concat hash_string_loop].
  change (list_fmap _ _ node_pieces ns) with (node_pieces <$> ns).
  rewrite pieces_fit_app.
  pose proof (add_node_spec st s n Hok) as Hn.
  destruct (pieces_fit (zlen s) (node_pieces n)); cbn [andb]; [|by rewrite Hn].
  destruct Hn as (st1 & -> & Hb1 & H1). cbn [mbind option_bind].
  specialize (IH st1 _ H1). rewrite length_app, Nat2Z.inj_add in IH.
  destruct (pieces_fit _ (concat (node_pieces <$> ns))); [|done].
  destruct IH as (st' & -> & Hb). exists st'. split; [done|].
  rewrite Hb, concat_app. destruct ns; [|by rewrite app_assoc].
  simpl. by rewrite app_nil_r.
Qed.

Lemma hash_string_eq h :
  hash_wf h →
  hash_string [] h =
    let ns := concat (hashtab h) in
    if pieces_fit 0 (concat (node_pieces <$> ns))
    then Some (if ns is [] then None
               else Some (concat (concat (node_pieces <$> ns))), [])
    else None.
Proof.
  intros Hwf. unfold hash_string. simpl.
  rewrite take_ge by (pose proof (wf_len _ Hwf); lia).
  pose proof (hash_string_loop_spec (concat (hashtab h)) (mk_dynBuf None 0) []) as H.
  specialize (H ltac:(by left)). simpl zlen in H.
  destruct (pieces_fit _ _); [|by rewrite H].
  destruct H as (st' & -> & Hb). simpl. by rewrite Hb.
Qed.

(** ** Properties *)

Lemma hash_new_wf sz :
  0 < sz < 2 ^ 31 → ∃ h, hash_new sz = Some h ∧ hash_wf h ∧ hmap h = ∅ ∧ size h = sz.
Proof.
  intros Hsz. unfold hash_new. rewrite decide_True by lia. eexists.
  split_and!; [done| |apply tmap_empty|done].
  split; simpl; [done|rewrite length_replicate; lia|apply tab_wf_empty].
Qed.

(** On a well-formed table [hash_lookup] is defined (no division by
    zero, no index outside the array) and finds exactly the entry of the
    finite map the table stands for. *)
Theorem hash_lookup_refines h k :
  hash_wf h →
  ∃ r, hash_lookup h k = Some r ∧ value <$> r = hmap h !! k.
Proof.
  intros Hwf. destruct (bucket_of_wf h k Hwf) as (b & _ & Hb).
  exists (chain_find key k b). split; [by apply hash_lookup_wf|].
  symmetry. apply (tmap_find key value (hash_idx (size h)));
    [apply Hwf|done].
Qed.

(** A table with the two entries a = 1 and b = 2. *)
Definition sample : hash :=
  mk_hash [[]; [mk_nlist (of_string "a") (Some (of_string "1"))];
           [mk_nlist (of_string "b") (Some (of_string "2"))]] 3.

Lemma sample_wf : hash_wf sample.
Proof.
  split; [simpl; lia|done|]. split.
  - apply (bool_decide_unpack _). by vm_compute.
  - intros [|[|[|i]]] b e H He; simplify_eq/=;
      repeat (apply elem_of_cons in He as [->|He]; [by vm_compute|]);
      by apply not_elem_of_nil in He.
Qed.

Lemma hash_lookup_refines_witness :
  ∃ r, hash_lookup sample (of_string "b") = Some r ∧
    value <$> r = hmap sample !! of_string "b".
Proof. apply (hash_lookup_refines sample (of_string "b")). apply sample_wf. Defined.

(** [hash_add] keeps the table well formed whatever the allocator does,
    and its effect on the stored map is one of three: the key is bound to
    the value (and the node returned), the table is untouched (the node
    could not be allocated), or the key is bound to a [NULL] value (the last
    [strdup] failed); with allocations succeeding it is the first. *)
Theorem hash_add_refines o h k v :
  hash_wf h →
  ∃ r h' o', hash_add o h k v = Some (r, h', o') ∧ hash_wf h' ∧
    size h' = size h ∧ add_outcome h k v r h' ∧ (o = [] → is_Some r ∧ o' = []).
Proof. apply hash_add_spec. Qed.

Lemma hash_add_refines_witness :
  ∃ r h' o', hash_add [true; true; false] sample (of_string "c") (of_string "3")
             = Some (r, h', o') ∧ hash_wf h' ∧
    size h' = size sample ∧
    add_outcome sample (of_string "c") (of_string "3") r h' ∧
    ([true; true; false] = [] → is_Some r ∧ o' = []).
Proof. apply (hash_add_refines [true; true; false]). apply sample_wf. Defined.

(** [hash_empty] passes the size of the pointer, not of the array, to
    [memset]: every entry outside the first bucket is still found
    afterwards. *)
Theorem hash_empty_keeps h k :
  hash_wf h → hash_idx (size h) k ≠ 0%nat →
  ∃ h' r, hash_empty h = Some h' ∧ hash_lookup h' k = Some r ∧
    hash_lookup h k = Some r.
Proof.
  intros Hwf Hk. destruct (bucket_of_wf h k Hwf) as (b & E & Hb).
  unfold hash_empty, hash_lookup. rewrite E.
  unfold bucket_of, hash_idx in *.
  destruct (hashfunc h k) as [i|] eqn:Hi; simplify_eq/=.
  destruct (hashtab h !! Z.to_nat i) as [b'|] eqn:Hb'; simplify_eq/=.
  destruct (hashtab h) as [|b0 tab]; [done|].
  do 2 eexists. split; [done|]. split; [|done]. unfold hashfunc in *. simpl.
  case_decide; simplify_eq/=.
  destruct (Z.to_nat _) as [|i]; [done|]. simpl in *. by rewrite Hb'.
Qed.

Lemma hash_empty_keeps_witness :
  hash_idx (size sample) (of_string "b") ≠ 0%nat ∧
  ∃ h' r, hash_empty sample = Some h' ∧ hash_lookup h' (of_string "b") = Some r ∧
    hash_lookup sample (of_string "b") = Some r.
Proof.
  split; [by vm_compute|].
  apply (hash_empty_keeps sample (of_string "b")); [apply sample_wf|by vm_compute].
Defined.

(** With allocations succeeding, [hash_string] of a well-formed table
    returns the lines key=value of all its nodes exactly when no prefix of
    the appended strings has a positive length divisible by 256; otherwise
    the [strcat] of [add_string] writes its NUL past the end of the block. *)
Theorem hash_string_text h :
  hash_wf h →
  hash_string [] h =
    let ns := concat (hashtab h) in
    if pieces_fit 0 (concat (node_pieces <$> ns))
    then Some (if ns is [] then None
               else Some (concat (concat (node_pieces <$> ns))), [])
    else None.
Proof. apply hash_string_eq. Qed.

Lemma hash_string_text_witness :
  hash_string [] sample = Some (Some (of_string "a=1" ++ [10] ++ of_string "b=2" ++ [10]), []).
Proof. rewrite (hash_string_text sample); [by vm_compute|apply sample_wf]. Defined.

(** The overflow on a concrete string: 256 bytes appended to a fresh
    buffer. *)
Example add_string_overflow :
  add_string [] (mk_dynBuf None 0) (Some (replicate 256 97)) = None.
Proof. by vm_compute. Qed.
