(* ===== verification/Profile.v ===== *)
(** * The INI profile store ([common/src/comProfileutil.c], the non-Windows half)

    A [ConfEntry] is a parsed INI file: sections, each with the string hash
    table of [StrHash].  One [ConfEntry] is cached in the globals of the file
    together with the current section name and a dirty flag; the exported
    [Get...]/[Put...]/[Save...] functions work on that cache under a mutex.

    Allocations whose result the code tests consult the oracle; the others
    succeed.  [None] is undefined behaviour: an access outside an array or a
    buffer, a use of a freed pointer, a relock of the mutex.  The file system
    and the clock are the record [World]. *)

From S2P Require Import Prelude Decimal Buckets StrHash.

Definition HASH_SIZE : Z := 100.

(** [struct _SectEntry] *)
Record SectEntry := mk_SectEntry { name : list Z; h : hash }.

(** [struct ConfEntry]; [sections] is the array behind the pointer (empty
    when it is [NULL]). *)
Record ConfEntry := mk_ConfEntry {
  filename : list Z;
  tmRead : Z;
  curEntryIdx : Z;
  maxEntry : Z;
  sections : list SectEntry
}.

(** A file: its bytes and its modification time. *)
Record World := mk_World {
  files : gmap (list Z) (list Z * Z);
  writable : list Z → bool;
  now : Z
}.

Definition set_cur (ce : ConfEntry) (i : Z) : ConfEntry :=
  mk_ConfEntry (filename ce) (tmRead ce) i (maxEntry ce) (sections ce).

Definition set_sections (ce : ConfEntry) (m : Z) (s : list SectEntry) : ConfEntry :=
  mk_ConfEntry (filename ce) (tmRead ce) (curEntryIdx ce) m s.

(** Array access with the bounds of C. *)
Definition sect_at (ce : ConfEntry) (i : Z) : option SectEntry :=
  if decide (0 ≤ i) then sections ce !! Z.to_nat i else None.

(** ** Text *)

(** [!(c & 0x80) && isspace(c)]. *)
Definition trim_char (c : Z) : bool := negb (Z.testbit c 7) && isspace c.

Fixpoint trim_left (s : list Z) : list Z :=
  match s with
  | c :: s' => if trim_char c then trim_left s' else s
  | [] => []
  end.

(** [trimString]: the pointer moves over the leading blanks, then NULs are
    written over the trailing ones, from the end. *)
Definition trimString (s : list Z) : list Z :=
  reverse (trim_left (reverse (trim_left s))).

(** [strchr]: the text before the first [c] and the text after it. *)
Fixpoint strchr (c : Z) (s : list Z) : option (list Z * list Z) :=
  match s with
  | [] => None
  | x :: s => if x =? c then Some ([], s)
              else '(a, b) ← strchr c s; Some (x :: a, b)
  end.

(** [fgets] with room for [n] characters: up to and including a newline. *)
Fixpoint fgets_take (n : nat) (s : list Z) : list Z * list Z :=
  match n, s with
  | O, _ | _, [] => ([], s)
  | S n, c :: s => if c =? 10 then ([c], s)
                   else let '(a, b) := fgets_take n s in (c :: a, b)
  end.

(** The successive results of [fgets(data, 256, fp)] on a file. *)
Fixpoint fgets_all (fuel : nat) (s : list Z) : list (list Z) :=
  match fuel with
  | O => []
  | S fuel =>
      match s with
      | [] => []
      | _ => let '(a, b) := fgets_take 255 s in a :: fgets_all fuel b
      end
  end.

(** [delspace]: the non-blank characters, collected in a 256-byte array. *)
Definition delspace (s : list Z) : option (list Z) :=
  let val := filter (λ c, isspace c = false) s in
  if zlen val <? 256 then Some val else None.

(** [atoi] of the C library ([strtol], converted to [int]). *)
Fixpoint digits_prefix (s : list Z) (acc : Z) : Z :=
  match s with
  | c :: s => if isdigit c then digits_prefix s (10 * acc + (c - 48)) else acc
  | [] => acc
  end.

Fixpoint skip_space (s : list Z) : list Z :=
  match s with
  | c :: s' => if isspace c then skip_space s' else s
  | [] => []
  end.

Definition atoi (s : list Z) : Z :=
  let s := skip_space s in
  let c := default 0 (head s) in
  let v := if c =? 45 then - digits_prefix (tail s) 0
           else if c =? 43 then digits_prefix (tail s) 0
           else digits_prefix s 0 in
  s32 (Z.max (- 2 ^ 63) (Z.min (2 ^ 63 - 1) v)).

(** ** Configuration entries *)

(** The search loop of [currentSectionSet], from index [i]. *)
Fixpoint find_section (n : nat) (i : Z) (ce : ConfEntry) (secName : list Z) : option Z :=
  match n with
  | O => Some i
  | S n =>
      s ← sect_at ce i;
      if decide (name s = secName) then Some i
      else find_section n (i + 1) ce secName
  end.

Definition currentSectionSet (ce : ConfEntry) (secName : list Z) : option (bool * ConfEntry) :=
  i ← find_section (Z.to_nat (maxEntry ce)) 0 ce secName;
  if i >=? maxEntry ce then Some (false, set_cur ce (-1))
  else Some (true, set_cur ce i).

Definition entryNew (o : oracle) (ce : ConfEntry) (secName : list Z)
  : option (bool * ConfEntry * oracle) :=
  if decide (secName = []) then Some (false, set_cur ce (-1), o) else
  '(found, ce) ← currentSectionSet ce secName;
  if found : bool then Some (true, ce, o) else
  let '(ok, o) := alloc o in
  if negb ok then Some (false, set_sections ce (maxEntry ce) [], o) else
  hn ← hash_new HASH_SIZE;
  Some (true,
        set_cur (set_sections ce (maxEntry ce + 1)
                   (sections ce ++ [mk_SectEntry secName hn])) (maxEntry ce), o).

(** [hash_add(ce->sections[ce->curEntryIdx].h, key, val)]. *)
Definition sect_put (o : oracle) (ce : ConfEntry) (k v : list Z)
  : option (ConfEntry * oracle) :=
  s ← sect_at ce (curEntryIdx ce);
  '(_, h', o) ← hash_add o (h s) k v;
  Some (set_sections ce (maxEntry ce)
          (<[Z.to_nat (curEntryIdx ce) := mk_SectEntry (name s) h']> (sections ce)), o).

(** One iteration of the loop of [_parse_config_entry].  After the trims the
    value ends in no newline, so the test of its last character changes
    nothing but, for an empty value, a blank in front of it. *)
Definition parse_line (o : oracle) (ce : ConfEntry) (line : list Z)
  : option (ConfEntry * oracle) :=
  let data := cstr line in
  let data0 := default 0 (head data) in
  if data0 =? 35 then Some (ce, o)
  else if data0 =? 91 then
    match strchr 93 (tail data) with
    | Some (sec, _) => '(_, ce, o) ← entryNew o ce sec; Some (ce, o)
    | None => Some (set_cur ce (-1), o)
    end
  else if curEntryIdx ce >=? 0 then
    match strchr 61 data with
    | Some (k, v) =>
        if decide (v = []) then Some (ce, o) else
        let k := trimString k in
        let v := trimString v in
        if decide (v = []) then Some (ce, o) else sect_put o ce k v
    | None => Some (ce, o)
    end
  else Some (ce, o).

Fixpoint parse_lines (o : oracle) (ce : ConfEntry) (ls : list (list Z))
  : option (ConfEntry * oracle) :=
  match ls with
  | [] => Some (ce, o)
  | l :: ls => '(ce, o) ← parse_line o ce l; parse_lines o ce ls
  end.

Definition _parse_config_entry (o : oracle) (w : World) (ce : ConfEntry)
  : option (bool * ConfEntry * oracle) :=
  match files w !! filename ce with
  | None => Some (false, ce, o)
  | Some (text, _) =>
      '(ce, o) ← parse_lines o ce (fgets_all (length text) text);
      Some (true, ce, o)
  end.

Definition confEntryNew (o : oracle) (w : World) (fname : list Z)
  : option (ConfEntry * oracle) :=
  '(_, ce, o) ← _parse_config_entry o w (mk_ConfEntry fname (now w) (-1) 0 []);
  Some (ce, o).

Definition confEntryGetFilename (ce : option ConfEntry) : option (list Z) :=
  filename <$> ce.

(** The result is [NULL] without a section, without the key, or with a
    [NULL] value. *)
Definition confEntryGet (ce : ConfEntry) (field : list Z) : option (option (list Z)) :=
  if curEntryIdx ce <? 0 then Some None else
  s ← sect_at ce (curEntryIdx ce);
  n ← hash_lookup (h s) field;
  Some (n ≫= value).

Definition confEntryPut (o : oracle) (ce : ConfEntry) (field : option (list Z)) (v : list Z)
  : option (bool * ConfEntry * oracle) :=
  match field with
  | Some k => '(ce, o) ← sect_put o ce k v; Some (true, ce, o)
  | None => Some (true, ce, o)
  end.

(** The text [confEntrySave] prints for one section, then for all. *)
Definition sect_text (o : oracle) (s : SectEntry) : option (list Z * oracle) :=
  '(b, o) ← hash_string o (h s);
  Some ([91] ++ name s ++ [93; 10] ++ default [] b ++ [10], o).

Fixpoint sects_text (o : oracle) (ss : list SectEntry) : option (list Z * oracle) :=
  match ss with
  | [] => Some ([], o)
  | s :: ss =>
      '(t, o) ← sect_text o s;
      '(ts, o) ← sects_text o ss;
      Some (t ++ ts, o)
  end.

Definition confEntrySave (o : oracle) (w : World) (ce : ConfEntry)
  : option (bool * World * oracle) :=
  if negb (writable w (filename ce)) then Some (false, w, o) else
  if decide (zlen (sections ce) < maxEntry ce) then None else
  '(t, o) ← sects_text o (take (Z.to_nat (maxEntry ce)) (sections ce));
  Some (true, mk_World (<[filename ce := (t, now w)]> (files w)) (writable w) (now w), o).

(** ** The globals of the file *)

(** [projectHomeDir]: [NULL], a live string, or a dangling pointer. *)
Inductive homedir := HomeNull | HomeLive (p : list Z) | HomeFreed.

(** [_confWork], likewise. *)
Inductive workptr := WorkNull | WorkLive (ce : ConfEntry) | WorkFreed.

Record Profile := mk_Profile {
  projectHomeDir : homedir;
  _section : list Z;             (* static char _section[128] *)
  _confWork : workptr;
  _bWrite : bool;
  G_RUN : bool;
  G_CS : bool                    (* the mutex is held *)
}.

Definition set_work (p : Profile) (sec : list Z) (ce : workptr) (bw : bool) : Profile :=
  mk_Profile (projectHomeDir p) sec ce bw (G_RUN p) (G_CS p).

Definition set_home (p : Profile) (d : homedir) : Profile :=
  mk_Profile d (_section p) (_confWork p) (_bWrite p) (G_RUN p) (G_CS p).

(** [strcpy(_section, section)] into 128 bytes. *)
Definition section_copy (sec : list Z) : option (list Z) :=
  if zlen sec <? 128 then Some sec else None.

(** [confEntryFree(_confWork)]: the home directory is freed and its pointer
    kept; [ce = NULL] at the end only changes the parameter. *)
Definition confEntryFree (p : Profile) : option Profile :=
  p ← match projectHomeDir p with
      | HomeNull => Some p
      | HomeLive _ => Some (set_home p HomeFreed)
      | HomeFreed => None
      end;
  match _confWork p with
  | WorkNull => Some p
  | WorkLive _ => Some (set_work p (_section p) WorkFreed (_bWrite p))
  | WorkFreed => None
  end.

Definition confEntryDestroy (p : Profile) : option Profile := confEntryFree p.

Definition SETTINGS_FNAME : list Z := of_string "./default.ini".
Definition PROJECT_HOME_DIR : list Z := of_string "./".

(** [settingsFilename]; [env] is [getenv("PROJECT_HOME")]. *)
Definition settingsFilename (p : Profile) (env fname : option (list Z))
  : option (list Z * Profile) :=
  '(home, p) ←
    match projectHomeDir p with
    | HomeNull =>
        let tmpdir := default PROJECT_HOME_DIR env in
        c ← last tmpdir;
        let d := tmpdir ++ (if c =? 47 then of_string "bin/" else of_string "/bin/") in
        Some (d, set_home p (HomeLive d))
    | HomeLive d => Some (d, p)
    | HomeFreed => None
    end;
  (* strncpy of 256 bytes leaves no terminator for a longer path *)
  if negb (zlen home <? 256) then None else
  let fname := default SETTINGS_FNAME fname in
  Some (if zlen home + zlen fname <? 256 then home ++ fname else home, p).

Definition checkCSInfo (p : Profile) : Profile :=
  mk_Profile (projectHomeDir p) (_section p) (_confWork p) (_bWrite p) true (G_CS p).

(** [pthread_mutex_lock] of a mutex the thread holds never returns. *)
Definition lock (p : Profile) : option Profile :=
  if G_CS p then None
  else Some (mk_Profile (projectHomeDir p) (_section p) (_confWork p) (_bWrite p) (G_RUN p) true).

Definition unlock (p : Profile) : Profile :=
  mk_Profile (projectHomeDir p) (_section p) (_confWork p) (_bWrite p) (G_RUN p) false.

(** The test of [setProfileSection] for a stale cache. *)
Definition stale (w : World) (p : Profile) (fName : list Z) : option bool :=
  match _confWork p with
  | WorkNull => Some false
  | WorkFreed => None
  | WorkLive ce =>
      Some (if decide (filename ce = fName) then
              match files w !! filename ce with
              | None => true
              | Some (_, mtime) => mtime >? tmRead ce
              end
            else true)
  end.

(** Writing back and dropping a stale cache. *)
Definition drop_cache (o : oracle) (w : World) (p : Profile)
  : option (World * Profile * oracle) :=
  '(w, o) ←
    match _confWork p with
    | WorkLive ce => if _bWrite p
                     then '(_, w, o) ← confEntrySave o w ce; Some (w, o)
                     else Some (w, o)
    | _ => Some (w, o)
    end;
  p ← confEntryFree p;
  Some (w, set_work p [] WorkNull false, o).

(** Reading the file when nothing is cached. *)
Definition load_cache (o : oracle) (w : World) (p : Profile) (fName : list Z)
  : option (Profile * ConfEntry * oracle) :=
  match _confWork p with
  | WorkLive ce => Some (p, ce, o)
  | WorkFreed => None
  | WorkNull =>
      '(ce, o) ← confEntryNew o w fName;
      Some (set_work p [] (WorkLive ce) false, ce, o)
  end.

Definition setProfileSection (o : oracle) (w : World) (p : Profile) (sec fName : list Z)
  : option (bool * World * Profile * oracle) :=
  newB ← stale w p fName;
  '(w, p, o) ← (if newB : bool then drop_cache o w p else Some (w, p, o));
  '(p, ce, o) ← load_cache o w p fName;
  if decide (_section p = sec) then Some (true, w, p, o) else
  '(found, ce) ← currentSectionSet ce sec;
  if found : bool then
    sec' ← section_copy sec;
    Some (true, w, set_work p sec' (WorkLive ce) (_bWrite p), o)
  else Some (false, w, set_work p [] (WorkLive ce) (_bWrite p), o).

(** [(char * )confEntryGet(_confWork, key)] after [setProfileSection]. *)
Definition work_get (p : Profile) (k : list Z) : option (option (list Z)) :=
  match _confWork p with
  | WorkLive ce => confEntryGet ce k
  | WorkNull => Some None
  | WorkFreed => None
  end.

Definition GetPrivateProfileInt (o : oracle) (w : World) (p : Profile)
    (sec k : list Z) (initVal : Z) (fName : list Z)
  : option (Z * World * Profile * oracle) :=
  p ← lock (checkCSInfo p);
  '(ok, w, p, o) ← setProfileSection o w p sec fName;
  retVal ← (if ok : bool
            then pRes ← work_get p k;
                 Some (match pRes with None => initVal | Some s => atoi s end)
            else Some initVal);
  Some (retVal, w, unlock p, o).

(** [GetPrivateProfileString]: [pRet] is the caller's buffer; its size [len]
    is overwritten with the length of the value before anything is copied. *)
Definition GetPrivateProfileString (o : oracle) (w : World) (p : Profile)
    (sec k : list Z) (initVal : option (list Z)) (pRet : list Z) (len : Z) (fName : list Z)
  : option (Z * list Z * World * Profile * oracle) :=
  p ← lock (checkCSInfo p);
  '(ok, w, p, o) ← setProfileSection o w p sec fName;
  pRes ← (if ok : bool
          then pRes ← work_get p k;
               Some (match pRes with None => initVal | Some s => Some s end)
          else Some initVal);
  '(len, pRet) ←
    match pRes with
    | Some s => r ← mwrite pRet 0 (s ++ [0]); Some (zlen s, r)
    | None => r ← mwrite pRet 0 [0]; Some (len, r)
    end;
  Some (len, pRet, w, unlock p, o).

Definition SavePrivateProfile (o : oracle) (w : World) (p : Profile)
  : option (World * Profile * oracle) :=
  p ← lock (checkCSInfo p);
  '(w, p, o) ←
    match _bWrite p, _confWork p with
    | true, WorkLive ce =>
        '(_, w, o) ← confEntrySave o w ce;
        Some (w, set_work p (_section p) (_confWork p) false, o)
    | true, WorkFreed => None
    | _, _ => Some (w, p, o)
    end;
  Some (w, unlock p, o).

(** The section is created when [setProfileSection] did not find it; on
    failure [_section] is cleared. *)
Definition create_section (o : oracle) (ce : ConfEntry) (sec : list Z)
  : option (bool * list Z * ConfEntry * oracle) :=
  '(created, ce, o) ← entryNew o ce sec;
  if created : bool then sec' ← section_copy sec; Some (true, sec', ce, o)
  else Some (false, [], ce, o).

Definition PutPrivateProfileString (o : oracle) (w : World) (p : Profile)
    (sec : list Z) (k : option (list Z)) (v fName : list Z)
  : option (World * Profile * oracle) :=
  p ← lock (checkCSInfo p);
  '(ok, w, p, o) ← setProfileSection o w p sec fName;
  ce ← match _confWork p with WorkLive ce => Some ce | _ => None end;
  '(created, sec', ce, o) ← (if ok : bool then Some (true, _section p, ce, o)
                             else create_section o ce sec);
  if (created : bool) then
    '(_, ce, o) ← confEntryPut o ce k v;
    Some (w, unlock (set_work p sec' (WorkLive ce) true), o)
  else Some (w, unlock (set_work p [] (WorkLive ce) (_bWrite p)), o).

(** [sprintf(szVal, "%d", val)] then the same steps. *)
Definition PutPrivateProfileInt (o : oracle) (w : World) (p : Profile)
    (sec : list Z) (k : option (list Z)) (val : Z) (fName : list Z)
  : option (World * Profile * oracle) :=
  PutPrivateProfileString o w p sec k (dec_of_Z val) fName.

(** ** Text lemmas *)

Lemma trim_left_id s :
  (∀ c, head s = Some c → trim_char c = false) → trim_left s = s.
Proof. destruct s as [|c s]; [done|]. intros H. simpl. by rewrite (H c). Qed.

Lemma trim_left_suffix s : ∃ p, s = p ++ trim_left s ∧ Forall (λ c, trim_char c = true) p.
Proof.
  induction s as [|c s (p & Hp & Hf)]; simpl; [by exists []|].
  destruct (trim_char c) eqn:E; [|by exists []].
  exists (c :: p). simpl. rewrite <- Hp. auto.
Qed.

Lemma trim_left_head s c : head (trim_left s) = Some c → trim_char c = false.
Proof.
  induction s as [|x s IH]; simpl; [done|].
  destruct (trim_char x) eqn:E; [done|]. simpl. naive_solver.
Qed.

(** Neither end of the text is blank. *)
Definition trimmed (s : list Z) : Prop :=
  (∀ c, head s = Some c → trim_char c = false) ∧
  (∀ c, last s = Some c → trim_char c = false).

Lemma trimString_spec s :
  trimmed (trimString s) ∧
  ∃ p q, s = p ++ trimString s ++ q ∧
    Forall (λ c, trim_char c = true) (p ++ q).
Proof.
  unfold trimString. destruct (trim_left_suffix s) as (p & Hp & Hfp).
  destruct (trim_left_suffix (reverse (trim_left s))) as (q & Hq & Hfq).
  assert (trim_left s = reverse (trim_left (reverse (trim_left s))) ++ reverse q) as E.
  { rewrite <- reverse_app, <- Hq. by rewrite reverse_involutive. }
  split.
  - split.
    + intros c Hc. apply (trim_left_head s). rewrite E.
      by rewrite head_app, Hc.
    + intros c Hc. rewrite last_reverse in Hc. by eapply trim_left_head.
  - exists p, (reverse q). rewrite <- E. split; [done|].
    apply Forall_app. split; [done|]. by rewrite Forall_reverse.
Qed.

Lemma trimString_id s : trimmed s → trimString s = s.
Proof.
  intros [Hh Hl]. unfold trimString. rewrite (trim_left_id s) by done.
  rewrite trim_left_id, reverse_involutive; [done|].
  intros c Hc. apply Hl. by rewrite <- head_reverse.
Qed.

Lemma trimString_newline s : s ≠ [] → trimmed s → trimString (s ++ [10]) = s.
Proof.
  intros Hne [Hh Hl]. unfold trimString.
  rewrite (trim_left_id (s ++ [10])) by (destruct s; [done|apply Hh]).
  rewrite reverse_app. simpl.
  rewrite trim_left_id, reverse_involutive; [done|].
  intros c Hc. apply Hl. by rewrite <- head_reverse.
Qed.

Lemma strchr_app c a b :
  Forall (λ x, x ≠ c) a → strchr c (a ++ c :: b) = Some (a, b).
Proof.
  induction 1 as [|x a Hx _ IH]; simpl; [by rewrite Z.eqb_refl|].
  destruct (Z.eqb_spec x c); [done|]. by rewrite IH.
Qed.

Lemma strchr_None c a : Forall (λ x, x ≠ c) a → strchr c a = None.
Proof.
  induction 1 as [|x a Hx _ IH]; simpl; [done|].
  destruct (Z.eqb_spec x c); [done|]. by rewrite IH.
Qed.

Lemma strchr_Some c s a b : strchr c s = Some (a, b) → s = a ++ c :: b.
Proof.
  revert a. induction s as [|x s IH]; simpl; intros a; [done|].
  destruct (Z.eqb_spec x c) as [->|]; [by intros [= <- <-]|].
  destruct (strchr c s) as [[a' b']|]; [|done]. intros [= <- <-].
  simpl. by rewrite (IH a').
Qed.

(** A line of a file: at most 254 characters and a newline. *)
Definition line_ok (l : list Z) : Prop :=
  ∃ s, l = s ++ [10] ∧ Forall (λ c, c ≠ 10) s ∧ (length s ≤ 254)%nat.

Lemma fgets_take_line n s r :
  Forall (λ c, c ≠ 10) s → (length s < n)%nat →
  fgets_take n (s ++ 10 :: r) = (s ++ [10], r).
Proof.
  revert n. induction s as [|c s IH]; intros n Hs Hn; destruct n as [|n]; simpl in *; try lia.
  - done.
  - inversion Hs; subst. destruct (Z.eqb_spec c 10); [done|].
    by rewrite IH by (done || lia).
Qed.

Lemma fgets_all_lines fuel ls :
  Forall line_ok ls → (length (concat ls) ≤ fuel)%nat → fgets_all fuel (concat ls) = ls.
Proof.
  intros Hls. revert fuel. induction Hls as [|l ls (s & -> & Hs & Hl) _ IH]; intros fuel Hf.
  { by destruct fuel. }
  cbn [concat] in *. rewrite !length_app in Hf. simpl in Hf.
  destruct fuel as [|fuel]; [lia|]. cbn [fgets_all].
  rewrite <- app_assoc. simpl app.
  destruct (s ++ 10 :: concat ls) eqn:E; [by destruct s|]. rewrite <- E.
  rewrite fgets_take_line by (done || lia). f_equal. apply IH. lia.
Qed.

Lemma fgets_take_app n s : s = (fgets_take n s).1 ++ (fgets_take n s).2.
Proof.
  revert s. induction n as [|n IH]; intros [|c s]; simpl; [done..|].
  destruct (c =? 10); [done|]. specialize (IH s).
  destruct (fgets_take n s) as [a b]. simpl in *. by rewrite <- IH.
Qed.

Lemma fgets_take_rest n c s : (length (fgets_take (S n) (c :: s)).2 ≤ length s)%nat.
Proof.
  cbn [fgets_take]. destruct (c =? 10); [done|]. pose proof (fgets_take_app n s) as E.
  destruct (fgets_take n s) as [a b]. simpl in *. rewrite E, length_app. lia.
Qed.

(** Reading a file loses nothing: the lines concatenate to its bytes. *)
Lemma fgets_all_concat fuel s :
  (length s ≤ fuel)%nat → concat (fgets_all fuel s) = s.
Proof.
  revert s. induction fuel as [|fuel IH]; intros [|c s] Hf; simpl length in *; try done; try lia.
  cbn [fgets_all]. pose proof (fgets_take_app 255 (c :: s)) as E.
  pose proof (fgets_take_rest 254 c s) as L.
  destruct (fgets_take 255 (c :: s)) as [a b]. cbn [fst snd concat] in *.
  rewrite IH by lia. by rewrite E.
Qed.

(** ** Invariant of a configuration entry *)
Record conf_wf (ce : ConfEntry) : Prop := {
  cw_len : maxEntry ce = zlen (sections ce);
  cw_cur : -1 ≤ curEntryIdx ce < maxEntry ce;
  cw_names : NoDup (name <$> sections ce);
  cw_hash : Forall (λ s, hash_wf (h s)) (sections ce)
}.

(** What an entry stands for: its sections in order, each with its map. *)
Definition sect_abs (s : SectEntry) : list Z * gmap (list Z) (option (list Z)) :=
  (name s, hmap (h s)).
Definition conf_abs (ce : ConfEntry) := sect_abs <$> sections ce.

Lemma sect_at_nat ce i : sect_at ce (Z.of_nat i) = sections ce !! i.
Proof. unfold sect_at. rewrite decide_True by lia. by rewrite Nat2Z.id. Qed.

Lemma find_section_spec ce nm n i :
  (i + n = length (sections ce))%nat →
  ∃ j, find_section n (Z.of_nat i) ce nm = Some (Z.of_nat j) ∧
    ((j < length (sections ce))%nat ∧ (∃ s, sections ce !! j = Some s ∧ name s = nm) ∨
     j = length (sections ce) ∧ nm ∉ (name <$> drop i (sections ce))).
Proof.
  revert i. induction n as [|n IH]; intros i Hi; simpl.
  { exists i. split; [done|]. right. split; [lia|].
    rewrite drop_ge by lia. apply not_elem_of_nil. }
  rewrite sect_at_nat.
  destruct (lookup_lt_is_Some_2 (sections ce) i) as [s Hs]; [lia|].
  rewrite Hs. simpl. case_decide as Hn.
  { exists i. split; [done|]. left. split; [lia|]. eauto. }
  replace (Z.of_nat i + 1) with (Z.of_nat (S i)) by lia.
  destruct (IH (S i)) as (j & -> & Hj); [lia|]. exists j. split; [done|].
  destruct Hj as [Hj|[Hj Hni]]; [by left|]. right. split; [done|].
  rewrite (drop_S _ _ _ Hs). simpl. apply not_elem_of_cons. auto.
Qed.

Lemma currentSectionSet_spec ce nm :
  conf_wf ce →
  (∃ i s, sections ce !! i = Some s ∧ name s = nm ∧
     currentSectionSet ce nm = Some (true, set_cur ce (Z.of_nat i))) ∨
  ((nm ∉ (name <$> sections ce)) ∧ currentSectionSet ce nm = Some (false, set_cur ce (-1))).
Proof.
  intros [Hl _ _ _]. unfold currentSectionSet.
  destruct (find_section_spec ce nm (Z.to_nat (maxEntry ce)) 0) as (j & Hf & Hj); [lia|].
  change (Z.of_nat 0) with 0 in Hf. rewrite Hf. simpl. rewrite Z.geb_leb.
  destruct Hj as [[Hj (s & Hs & Hn)]|[-> Hni]].
  - left. exists j, s. split_and!; [done|done|].
    destruct (Z.leb_spec (maxEntry ce) (Z.of_nat j)); [lia|done].
  - right. split; [done|]. by rewrite Hl, Z.leb_refl.
Qed.

Lemma conf_wf_cur ce i : conf_wf ce → -1 ≤ i < maxEntry ce → conf_wf (set_cur ce i).
Proof. intros [H1 H2 H3 H4] Hi. by split. Qed.

Lemma entryNew_spec ce nm :
  conf_wf ce → nm ≠ [] →
  ∃ ce' i s, entryNew [] ce nm = Some (true, ce', []) ∧ conf_wf ce' ∧
    filename ce' = filename ce ∧ tmRead ce' = tmRead ce ∧
    curEntryIdx ce' = Z.of_nat i ∧ sections ce' !! i = Some s ∧ name s = nm ∧
    (nm ∈ (name <$> sections ce) ∧ sections ce' = sections ce ∨
     (nm ∉ (name <$> sections ce)) ∧ i = length (sections ce) ∧ sections ce' = sections ce ++ [s] ∧
       hmap (h s) = ∅).
Proof.
  intros Hwf Hnm. unfold entryNew. rewrite decide_False by done.
  destruct (currentSectionSet_spec ce nm Hwf) as [(i & s & Hs & Hn & ->)|[Hni ->]];
    cbn [mbind option_bind].
  - exists (set_cur ce (Z.of_nat i)), i, s. apply lookup_lt_Some in Hs as Hlt.
    split_and!; try done.
    + apply conf_wf_cur; [done|]. rewrite (cw_len _ Hwf). lia.
    + left. split; [|done]. rewrite <- Hn. by eapply list_elem_of_lookup_2, list_lookup_fmap_Some_2.
  - cbn [alloc negb]. destruct (hash_new_wf HASH_SIZE) as (hn & -> & Hwfn & Hmn & _); [done|].
    cbn [mbind option_bind]. eexists. exists (length (sections ce)), (mk_SectEntry nm hn). split; [done|].
    destruct Hwf as [H1 H2 H3 H4]. split_and!; try done.
    + split; simpl; rewrite ?length_app; simpl; [lia|lia| |].
      * rewrite fmap_app. simpl. apply NoDup_app. split_and!; [done| |apply NoDup_singleton].
        intros x Hx ->%list_elem_of_singleton. done.
      * apply Forall_app. split; [done|]. by apply Forall_singleton.
    + simpl. by rewrite lookup_app_r, Nat.sub_diag by done.
    + right. by split_and!.
Qed.

Lemma sect_put_spec ce i s k v :
  conf_wf ce → curEntryIdx ce = Z.of_nat i → sections ce !! i = Some s →
  ∃ ce' s', sect_put [] ce k v = Some (ce', []) ∧ conf_wf ce' ∧
    filename ce' = filename ce ∧ tmRead ce' = tmRead ce ∧
    curEntryIdx ce' = curEntryIdx ce ∧ sections ce' = <[i := s']> (sections ce) ∧
    name s' = name s ∧ hash_wf (h s') ∧ hmap (h s') = <[k := Some v]> (hmap (h s)).
Proof.
  intros [H1 H2 H3 H4] Hcur Hs. unfold sect_put. rewrite Hcur, sect_at_nat, Hs. simpl.
  assert (hash_wf (h s)) as Hh.
  { rewrite Forall_lookup in H4. eauto. }
  destruct (hash_add_spec [] (h s) k v Hh) as (r & h' & o' & -> & Hh' & _ & Hout & Ho).
  destruct (Ho eq_refl) as [[n ->] ->]. simpl. rewrite Nat2Z.id.
  do 2 eexists. split; [done|].
  assert ((name <$> <[i:=mk_SectEntry (name s) h']> (sections ce)) = (name <$> sections ce)) as En.
  { rewrite list_fmap_insert. simpl. apply list_insert_id.
    by apply list_lookup_fmap_Some_2. }
  split_and!; try done.
  - split; simpl; [by rewrite length_insert|done|by rewrite En|].
    by apply Forall_insert.
  - simpl. by inversion Hout.
Qed.

(** ** The parser *)

Definition same_file (ce ce' : ConfEntry) : Prop :=
  filename ce' = filename ce ∧ tmRead ce' = tmRead ce.

Lemma same_file_refl ce : same_file ce ce.
Proof. done. Qed.

#[export] Instance same_file_preorder : PreOrder same_file.
Proof. split; [by intros x|]. intros x y z [] []. split; congruence. Qed.

Lemma parse_line_wf ce l :
  conf_wf ce → ∃ ce', parse_line [] ce l = Some (ce', []) ∧ conf_wf ce' ∧ same_file ce ce'.
Proof.
  intros Hwf. unfold parse_line. pose proof (cw_cur _ Hwf) as Hcur.
  destruct (_ =? 35); [by eauto using same_file_refl|].
  destruct (_ =? 91).
  { destruct (strchr 93 _) as [[sec ?]|].
    - destruct (decide (sec = [])) as [->|Hne].
      + simpl. eexists. split; [done|]. split; [|done]. by apply conf_wf_cur; [|lia].
      + destruct (entryNew_spec ce sec Hwf Hne) as (ce' & i & s & -> & Hwf' & ? & ? & _).
        simpl. eexists. split; [done|]. by split_and!.
    - eexists. split; [done|]. split; [|done]. by apply conf_wf_cur; [|lia]. }
  rewrite Z.geb_leb. destruct (Z.leb_spec 0 (curEntryIdx ce)) as [H0|]; [|by eauto using same_file_refl].
  destruct (strchr 61 _) as [[k v]|]; [|by eauto using same_file_refl].
  case_decide; [by eauto using same_file_refl|]. cbv zeta.
  case_decide; [by eauto using same_file_refl|].
  destruct (lookup_lt_is_Some_2 (sections ce) (Z.to_nat (curEntryIdx ce))) as [s Hs].
  { pose proof (cw_len _ Hwf). lia. }
  destruct (sect_put_spec ce (Z.to_nat (curEntryIdx ce)) s (trimString k) (trimString v) Hwf)
    as (ce' & s' & -> & Hwf' & ? & ? & _); [lia|done|].
  eexists. split; [done|]. by split_and!.
Qed.

Lemma parse_lines_wf ls ce :
  conf_wf ce → ∃ ce', parse_lines [] ce ls = Some (ce', []) ∧ conf_wf ce' ∧ same_file ce ce'.
Proof.
  revert ce. induction ls as [|l ls IH]; intros ce Hwf; simpl; [by eauto using same_file_refl|].
  destruct (parse_line_wf ce l Hwf) as (ce1 & -> & Hwf1 & H1). simpl.
  destruct (IH ce1 Hwf1) as (ce2 & -> & Hwf2 & H2).
  eexists. split; [done|]. split; [done|]. by transitivity ce1.
Qed.

Lemma conf_wf_fresh fname t : conf_wf (mk_ConfEntry fname t (-1) 0 []).
Proof. split; simpl; [done|lia|constructor|constructor]. Qed.

Lemma confEntryNew_spec w fname :
  ∃ ce, confEntryNew [] w fname = Some (ce, []) ∧ conf_wf ce ∧
    filename ce = fname ∧ tmRead ce = now w.
Proof.
  unfold confEntryNew, _parse_config_entry. simpl filename.
  pose proof (conf_wf_fresh fname (now w)) as H0.
  destruct (files w !! fname) as [[text ?]|]; [|by simpl; eauto].
  destruct (parse_lines_wf (fgets_all (length text) text) _ H0) as (ce & -> & ? & ? & ?).
  simpl. eauto.
Qed.

(** ** Saving and reading back *)

Definition key_ok (k : list Z) : Prop :=
  Forall (λ c, c ≠ 0 ∧ c ≠ 10 ∧ c ≠ 61) k ∧ head k ≠ Some 35 ∧ head k ≠ Some 91 ∧ trimmed k.
Definition val_ok (v : list Z) : Prop :=
  v ≠ [] ∧ Forall (λ c, c ≠ 0 ∧ c ≠ 10) v ∧ trimmed v.
Definition name_ok (n : list Z) : Prop :=
  n ≠ [] ∧ Forall (λ c, c ≠ 0 ∧ c ≠ 10 ∧ c ≠ 93) n ∧ (length n ≤ 252)%nat.
Definition node_ok (n : nlist) : Prop :=
  key_ok (key n) ∧
  ∃ v, value n = Some v ∧ val_ok v ∧ (length (key n) + length v ≤ 253)%nat.
Definition nodes_of (s : SectEntry) : list nlist := concat (hashtab (h s)).
Definition sect_ok (s : SectEntry) : Prop :=
  name_ok (name s) ∧ Forall node_ok (nodes_of s) ∧
  pieces_fit 0 (concat (node_pieces <$> nodes_of s)) = true.

(** An entry whose text the parser can read back. *)
Definition conf_ok (ce : ConfEntry) : Prop := conf_wf ce ∧ Forall sect_ok (sections ce).

(** The lines of the saved file. *)
Definition node_line (n : nlist) : list Z := key n ++ [61] ++ default [] (value n) ++ [10].
Definition sect_lines (s : SectEntry) : list (list Z) :=
  [[91] ++ name s ++ [93; 10]] ++ (node_line <$> nodes_of s) ++ [[10]].

Lemma node_text n : node_ok n → concat (node_pieces n) = node_line n.
Proof.
  intros (_ & v & Hv & _). unfold node_pieces, node_line. by rewrite Hv.
Qed.

Lemma nodes_text ns :
  Forall node_ok ns → concat (concat (node_pieces <$> ns)) = concat (node_line <$> ns).
Proof.
  induction 1 as [|n ns Hn _ IH]; [done|].
  rewrite !fmap_cons. cbn [concat]. rewrite concat_app, node_text by done. by f_equal.
Qed.

Lemma sect_text_lines s :
  hash_wf (h s) → sect_ok s → sect_text [] s = Some (concat (sect_lines s), []).
Proof.
  intros Hwf (_ & Hns & Hfit). unfold sect_text, sect_lines.
  rewrite hash_string_eq by done. unfold nodes_of in *. rewrite Hfit. simpl.
  do 3 f_equal. rewrite <- !app_assoc. simpl. do 2 f_equal.
  rewrite concat_app. simpl. rewrite <- nodes_text by done.
  by destruct (concat (hashtab (h s))).
Qed.

Lemma sects_text_lines ss :
  Forall (λ s, hash_wf (h s)) ss → Forall sect_ok ss →
  sects_text [] ss = Some (concat (concat (sect_lines <$> ss)), []).
Proof.
  induction ss as [|s ss IH]; intros H1 H2; [done|].
  inversion H1; inversion H2; subst. cbn [sects_text].
  rewrite sect_text_lines by done. cbn [mbind option_bind].
  rewrite IH by done. cbn [mbind option_bind].
  rewrite fmap_cons. cbn [concat]. by rewrite concat_app.
Qed.

(** Reading the lines back. *)

Lemma line_nonul l : Forall (λ c, c ≠ 0) l → cstr l = l.
Proof. apply cstr_nonul. Qed.

Lemma parse_name_line ce nm :
  conf_wf ce → name_ok nm → nm ∉ (name <$> sections ce) →
  ∃ ce' s, parse_line [] ce ([91] ++ nm ++ [93; 10]) = Some (ce', []) ∧
    conf_wf ce' ∧ curEntryIdx ce' = zlen (sections ce) ∧
    sections ce' = sections ce ++ [s] ∧ name s = nm ∧ hmap (h s) = ∅.
Proof.
  intros Hwf (Hne & Hc & _) Hni. unfold parse_line.
  rewrite cstr_nonul.
  2: { repeat apply Forall_app_2; [by repeat constructor| |by repeat constructor].
       eapply Forall_impl; [exact Hc|naive_solver]. }
  cbn [app head default tail]. simpl (91 =? _).
  rewrite strchr_app by (eapply Forall_impl; [exact Hc|naive_solver]).
  destruct (entryNew_spec ce nm Hwf Hne)
    as (ce' & i & s & -> & Hwf' & _ & _ & Hcur & Hs & Hn & [[? _]|(_ & -> & Hss & Hm)]); [done|].
  exists ce', s. by rewrite Hcur.
Qed.

Lemma parse_blank_line ce : parse_line [] ce [10] = Some (ce, []).
Proof. unfold parse_line. simpl. by destruct (curEntryIdx ce >=? 0). Qed.

Lemma parse_node_line ce i s n v :
  conf_wf ce → curEntryIdx ce = Z.of_nat i → sections ce !! i = Some s →
  node_ok n → value n = Some v →
  ∃ ce' s', parse_line [] ce (node_line n) = Some (ce', []) ∧ conf_wf ce' ∧
    curEntryIdx ce' = Z.of_nat i ∧ sections ce' = <[i := s']> (sections ce) ∧
    name s' = name s ∧ hmap (h s') = <[key n := value n]> (hmap (h s)).
Proof.
  intros Hwf Hcur Hs ((Hk & H35 & H91 & Htk) & v' & Hv' & (Hvne & Hvc & Htv) & _) Hv.
  assert (v' = v) as -> by congruence. unfold parse_line, node_line. rewrite Hv.
  change (default [] (Some v)) with v.
  rewrite cstr_nonul.
  2: { repeat apply Forall_app_2; [|by repeat constructor| |by repeat constructor];
       eapply Forall_impl; eauto; naive_solver. }
  assert (∃ c, head (key n ++ [61] ++ v ++ [10]) = Some c ∧ c ≠ 35 ∧ c ≠ 91) as (c & -> & ? & ?).
  { destruct (key n) as [|c k]; simpl in *; [by exists 61|]. exists c. naive_solver. }
  change (default 0 (Some c)) with c. destruct (Z.eqb_spec c 35), (Z.eqb_spec c 91); try done.
  rewrite Hcur, Z.geb_leb. destruct (Z.leb_spec 0 (Z.of_nat i)); [|lia].
  change ([61] ++ v ++ [10]) with (61 :: (v ++ [10])).
  rewrite strchr_app by (eapply Forall_impl; [exact Hk|naive_solver]).
  rewrite decide_False by (by destruct v). cbv zeta.
  rewrite trimString_newline, (trimString_id (key n)) by done.
  rewrite decide_False by done.
  destruct (sect_put_spec ce i s (key n) v Hwf Hcur Hs)
    as (ce' & s' & -> & Hwf' & _ & _ & Hc' & Hss & Hn & _ & Hm).
  exists ce', s'. by rewrite Hc'.
Qed.

Definition ins_nodes (ns : list nlist) (m : gmap (list Z) (option (list Z))) :=
  foldl (λ m n, <[key n := value n]> m) m ns.

Lemma ins_nodes_union ns m :
  NoDup (key <$> ns) → ins_nodes ns m = list_to_map (kv key value <$> ns) ∪ m.
Proof.
  revert m. induction ns as [|n ns IH]; intros m Hnd; simpl; [by rewrite map_empty_union|].
  apply NoDup_cons in Hnd as [Hni Hnd]. unfold ins_nodes in *. rewrite IH by done.
  rewrite <- insert_union_r, insert_union_l; [done|].
  apply not_elem_of_list_to_map_1. by rewrite kv_keys.
Qed.

Lemma parse_node_lines ns ce i s :
  conf_wf ce → curEntryIdx ce = Z.of_nat i → sections ce !! i = Some s →
  Forall node_ok ns →
  ∃ ce' s', parse_lines [] ce (node_line <$> ns) = Some (ce', []) ∧ conf_wf ce' ∧
    curEntryIdx ce' = Z.of_nat i ∧ sections ce' = <[i := s']> (sections ce) ∧
    name s' = name s ∧ hmap (h s') = ins_nodes ns (hmap (h s)).
Proof.
  intros Hwf Hcur Hs Hns. revert ce s Hwf Hcur Hs.
  induction Hns as [|n ns Hn _ IH]; intros ce s Hwf Hcur Hs.
  { exists ce, s. split_and!; try done. by rewrite list_insert_id. }
  destruct Hn as [Hk (v & Hv & Hrest)] eqn:E. clear E.
  destruct (parse_node_line ce i s n v Hwf Hcur Hs) as (ce1 & s1 & H1 & Hwf1 & Hc1 & Hs1 & Hn1 & Hm1);
    [by split; [|exists v]|done|].
  destruct (IH ce1 s1) as (ce2 & s2 & H2 & Hwf2 & Hc2 & Hs2 & Hn2 & Hm2); [done..| |].
  { rewrite Hs1. apply list_lookup_insert_eq. by eapply lookup_lt_Some. }
  exists ce2, s2. rewrite fmap_cons. cbn [parse_lines]. rewrite H1. cbn [mbind option_bind].
  split_and!; try done.
  - by rewrite Hs2, Hs1, list_insert_insert_eq.
  - by rewrite Hn2.
  - rewrite Hm2, Hm1. done.
Qed.

Lemma parse_lines_app o ce l1 l2 :
  parse_lines o ce (l1 ++ l2) =
  '(ce, o) ← parse_lines o ce l1; parse_lines o ce l2.
Proof.
  revert o ce. induction l1 as [|l l1 IH]; intros o ce; simpl; [done|].
  destruct (parse_line o ce l) as [[ce1 o1]|]; simpl; [apply IH|done].
Qed.

Lemma parse_lines_one o ce l ce' o' :
  parse_line o ce l = Some (ce', o') → parse_lines o ce [l] = Some (ce', o').
Proof. intros H. cbn [parse_lines]. by rewrite H. Qed.

Lemma parse_sect ce s :
  conf_wf ce → hash_wf (h s) → sect_ok s → name s ∉ (name <$> sections ce) →
  ∃ ce' s', parse_lines [] ce (sect_lines s) = Some (ce', []) ∧ conf_wf ce' ∧
    sections ce' = sections ce ++ [s'] ∧ sect_abs s' = sect_abs s.
Proof.
  intros Hwf Hh (Hname & Hns & _) Hni. unfold sect_lines.
  destruct (parse_name_line ce (name s) Hwf Hname Hni)
    as (ce1 & s1 & H1 & Hwf1 & Hc1 & Hs1 & Hn1 & Hm1).
  assert (sections ce1 !! length (sections ce) = Some s1) as Hl1.
  { by rewrite Hs1, lookup_app_r, Nat.sub_diag. }
  destruct (parse_node_lines (nodes_of s) ce1 _ s1 Hwf1 Hc1 Hl1 Hns)
    as (ce2 & s2 & H2 & Hwf2 & Hc2 & Hs2 & Hn2 & Hm2).
  exists ce2, s2. rewrite !parse_lines_app.
  rewrite (parse_lines_one _ _ _ _ _ H1). cbn [mbind option_bind]. rewrite parse_lines_app, H2.
  cbn [mbind option_bind]. rewrite (parse_lines_one _ _ _ _ _ (parse_blank_line ce2)).
  split_and!; [done|done| |].
  - rewrite Hs2, Hs1. rewrite insert_app_r_alt, Nat.sub_diag by done. done.
  - unfold sect_abs. rewrite Hn2, Hn1, Hm2, Hm1. f_equal.
    rewrite ins_nodes_union, map_union_empty; [done|]. apply Hh.
Qed.

Lemma parse_sects ss ce :
  conf_wf ce → Forall (λ s, hash_wf (h s)) ss → Forall sect_ok ss →
  NoDup (name <$> sections ce ++ ss) →
  ∃ ce', parse_lines [] ce (concat (sect_lines <$> ss)) = Some (ce', []) ∧
    conf_wf ce' ∧ conf_abs ce' = conf_abs ce ++ (sect_abs <$> ss).
Proof.
  revert ce. induction ss as [|s ss IH]; intros ce Hwf Hh Hok Hnd.
  { exists ce. simpl. by rewrite app_nil_r. }
  inversion Hh; inversion Hok; subst.
  assert (name s ∉ (name <$> sections ce)) as Hni.
  { rewrite fmap_app in Hnd. apply NoDup_app in Hnd as (_ & Hd & _).
    intros Hin. apply (Hd _ Hin). simpl. apply elem_of_cons. by left. }
  destruct (parse_sect ce s) as (ce1 & s1 & H1' & Hwf1 & Hs1 & Ha1); [done..|].
  assert (name s1 = name s) as Hn1 by (unfold sect_abs in Ha1; congruence).
  destruct (IH ce1) as (ce2 & H2' & Hwf2 & Ha2); [done..| |].
  { rewrite Hs1, <- app_assoc, fmap_app. rewrite fmap_app in Hnd. simpl in *.
    by rewrite Hn1. }
  exists ce2. rewrite fmap_cons. cbn [concat]. rewrite parse_lines_app, H1'.
  cbn [mbind option_bind]. split_and!; [done|done|].
  rewrite Ha2. unfold conf_abs. rewrite Hs1, fmap_app, <- app_assoc. simpl.
  by rewrite Ha1.
Qed.

Lemma node_line_ok n : node_ok n → line_ok (node_line n).
Proof.
  intros ((Hk & _) & v & Hv & (_ & Hvc & _) & Hl). unfold node_line. rewrite Hv.
  change (default [] (Some v)) with v.
  exists (key n ++ [61] ++ v). split_and!.
  - by rewrite <- !app_assoc.
  - repeat apply Forall_app_2; [|by repeat constructor|];
      eapply Forall_impl; eauto; naive_solver.
  - rewrite !length_app. simpl. lia.
Qed.

Lemma sect_lines_ok s : sect_ok s → Forall line_ok (sect_lines s).
Proof.
  intros ((_ & Hc & Hl) & Hns & _). unfold sect_lines.
  repeat apply Forall_app_2.
  - apply Forall_singleton. exists ([91] ++ name s ++ [93]). split_and!.
    + by rewrite <- !app_assoc.
    + repeat apply Forall_app_2; [by repeat constructor| |by repeat constructor].
      eapply Forall_impl; [exact Hc|naive_solver].
    + rewrite !length_app. simpl. lia.
  - apply Forall_fmap. eapply Forall_impl; [exact Hns|]. apply node_line_ok.
  - apply Forall_singleton. exists []. split_and!; [done|constructor|simpl; lia].
Qed.

Lemma sects_lines_ok ss : Forall sect_ok ss → Forall line_ok (concat (sect_lines <$> ss)).
Proof.
  induction 1 as [|s ss Hs _ IH]; [constructor|]. rewrite fmap_cons. cbn [concat].
  apply Forall_app_2; [by apply sect_lines_ok|done].
Qed.

Lemma confEntrySave_spec w ce :
  conf_ok ce → writable w (filename ce) = true →
  confEntrySave [] w ce =
    Some (true, mk_World (<[filename ce :=
      (concat (concat (sect_lines <$> sections ce)), now w)]> (files w)) (writable w) (now w), []).
Proof.
  intros [Hwf Hok] Hw. unfold confEntrySave. rewrite Hw. cbn [negb].
  rewrite (cw_len _ Hwf), decide_False by lia. rewrite take_ge by lia.
  rewrite sects_text_lines; [done|apply Hwf|done].
Qed.

(** ** Properties *)

(** The parser is total and memory safe: on every file content, and when
    the file cannot be opened, [confEntryNew] returns an entry that satisfies
    the invariant (allocations succeeding). *)
Theorem confEntryNew_total w fname :
  ∃ ce, confEntryNew [] w fname = Some (ce, []) ∧ conf_wf ce ∧
    filename ce = fname ∧ tmRead ce = now w.
Proof. apply confEntryNew_spec. Qed.


(** An entry with one section holding port = 80. *)
Definition sample_conf : ConfEntry :=
  mk_ConfEntry (of_string "a.ini") 0 0 1
    [mk_SectEntry (of_string "net")
       (mk_hash [[mk_nlist (of_string "port") (Some (of_string "80"))]] 1)].

Definition sample_world : World := mk_World ∅ (λ _, true) 7.

Lemma sample_conf_ok : conf_ok sample_conf.
Proof.
  assert (∀ l : list Z, Forall (λ c, (negb (c =? 0) && negb (c =? 10) && negb (c =? 61)
             && negb (c =? 93) && negb (trim_char c)) = true) l →
    Forall (λ c, c ≠ 0 ∧ c ≠ 10 ∧ c ≠ 61 ∧ c ≠ 93 ∧ trim_char c = false) l) as Hb.
  { intros l Hl. eapply Forall_impl; [exact Hl|]. intros c Hc. simpl in Hc.
    repeat rewrite andb_true_iff in Hc. repeat rewrite negb_true_iff in Hc.
    repeat rewrite Z.eqb_neq in Hc. tauto. }
  assert (∀ l, Forall (λ c, trim_char c = false) l → trimmed l) as Ht.
  { intros l Hl. rewrite Forall_forall in Hl. split; intros c Hc; apply Hl.
    - destruct l; simplify_eq/=. apply elem_of_cons; by left.
    - by apply last_Some_elem_of. }
  assert (∀ l : list Z, Forall (λ c, (negb (c =? 0) && negb (c =? 10) && negb (c =? 61)
             && negb (c =? 93) && negb (trim_char c)) = true) l → trimmed l) as Hbt.
  { intros l Hl%Hb. apply Ht. eapply Forall_impl; [exact Hl|naive_solver]. }
  split.
  - split; simpl; [done|lia|apply NoDup_singleton|]. apply Forall_singleton. simpl.
    split; simpl; [lia|done|]. split; [apply NoDup_singleton|].
    intros [|i] b e Hi He; simplify_eq/=. by apply list_elem_of_singleton in He as ->.
  - apply Forall_singleton. unfold sect_ok, name_ok. split_and!; simpl.
    + done.
    + eapply Forall_impl; [apply Hb; by repeat constructor|naive_solver].
    + lia.
    + apply Forall_singleton. unfold node_ok, key_ok, val_ok. split_and!; [|done|done| |].
      * eapply Forall_impl; [apply Hb; by repeat constructor|naive_solver].
      * apply Hbt; by repeat constructor.
      * exists (of_string "80"). split_and!; [done|done| | |simpl; lia].
        -- eapply Forall_impl; [apply Hb; by repeat constructor|naive_solver].
        -- apply Hbt; by repeat constructor.
    + by vm_compute.
Qed.


(** ** The cached entry *)

(** The current index of [ce] points to the section called [sec]. *)
Definition points_to (ce : ConfEntry) (sec : list Z) (s : SectEntry) : Prop :=
  ∃ i, curEntryIdx ce = Z.of_nat i ∧ sections ce !! i = Some s ∧ name s = sec.

(** The invariant of the globals between two calls of the API. *)
Definition work_ok (p : Profile) : Prop :=
  match _confWork p with
  | WorkNull => _section p = []
  | WorkLive ce => conf_wf ce ∧ (_section p ≠ [] → ∃ s, points_to ce (_section p) s)
  | WorkFreed => False
  end.

Definition prof_ok (p : Profile) : Prop := work_ok p ∧ G_CS p = false.

(** The section selected by [setProfileSection] when the cache is fresh. *)
Lemma setProfileSection_fresh w p sec f :
  work_ok p → stale w p f = Some false → sec ≠ [] → zlen sec < 128 →
  ∃ b p' ce, setProfileSection [] w p sec f = Some (b, w, p', []) ∧ work_ok p' ∧
    G_CS p' = G_CS p ∧ _confWork p' = WorkLive ce ∧
    (if b then _section p' = sec else True).
Proof.
  intros Hok Hst Hsec Hlen. unfold setProfileSection. rewrite Hst.
  cbn [mbind option_bind].
  assert (∃ p1 ce1, load_cache [] w p f = Some (p1, ce1, [])
    ∧ work_ok p1 ∧ conf_wf ce1 ∧ _confWork p1 = WorkLive ce1 ∧ G_CS p1 = G_CS p)
    as (p1 & ce1 & -> & Hok1 & Hwf1 & Hw1 & Hg1).
  { unfold work_ok, load_cache in *. destruct (_confWork p) as [|ce|] eqn:E; [| |done].
    - destruct (confEntryNew_spec w f) as (ce & -> & Hwf & _). cbn [mbind option_bind].
      do 2 eexists. split; [done|]. unfold work_ok. simpl. split_and!; done.
    - do 2 eexists. split; [done|]. unfold work_ok. rewrite E. naive_solver. }
  cbn [mbind option_bind]. case_decide as Hs.
  { do 3 eexists. split; [done|]. split_and!; try done. }
  destruct (currentSectionSet_spec ce1 sec Hwf1) as [(i & s & Hi & Hn & ->)|[_ ->]];
    cbn [mbind option_bind].
  - unfold section_copy. destruct (Z.ltb_spec (zlen sec) 128); [|lia].
    cbn [mbind option_bind]. do 3 eexists. split; [done|]. split_and!; try done.
    unfold work_ok. simpl. split.
    + apply conf_wf_cur; [done|]. apply lookup_lt_Some in Hi.
      pose proof (cw_len _ Hwf1). lia.
    + intros _. exists s, i. done.
  - do 3 eexists. split; [done|]. split_and!; try done.
    unfold work_ok. simpl. split; [|done]. apply conf_wf_cur; [done|].
    pose proof (cw_cur _ Hwf1). lia.
Qed.

Lemma points_to_get ce sec s k v :
  conf_wf ce → points_to ce sec s → hmap (h s) !! k = Some (Some v) →
  confEntryGet ce k = Some (Some v).
Proof.
  intros Hwf (i & Hc & Hi & Hn) Hk. unfold confEntryGet. rewrite Hc.
  destruct (Z.ltb_spec (Z.of_nat i) 0); [lia|]. rewrite sect_at_nat, Hi. cbn [mbind option_bind].
  assert (hash_wf (h s)) as Hh.
  { pose proof (cw_hash _ Hwf) as Hf. rewrite Forall_lookup in Hf. eauto. }
  destruct (bucket_of_wf (h s) k Hh) as (b & _ & Hb).
  rewrite (hash_lookup_wf _ _ _ Hh Hb). cbn [mbind option_bind].
  pose proof (tmap_find key value _ _ _ _ (wf_tab _ Hh) Hb) as E.
  unfold hmap in Hk. rewrite Hk in E. destruct (chain_find key k b); simplify_eq/=.
  by rewrite <- E.
Qed.

Lemma points_to_put ce sec s k v :
  conf_wf ce → points_to ce sec s →
  ∃ ce' s', sect_put [] ce k v = Some (ce', []) ∧ conf_wf ce' ∧ points_to ce' sec s' ∧
    filename ce' = filename ce ∧ tmRead ce' = tmRead ce ∧
    hmap (h s') = <[k := Some v]> (hmap (h s)).
Proof.
  intros Hwf (i & Hc & Hi & Hn).
  destruct (sect_put_spec ce i s k v Hwf Hc Hi)
    as (ce' & s' & E & Hwf' & ? & ? & Hc' & Hs' & Hn' & _ & Hm).
  exists ce', s'. split_and!; try done. exists i. split_and!; [congruence| |congruence].
  rewrite Hs'. apply list_lookup_insert_eq. by eapply lookup_lt_Some.
Qed.

(** What holds after a successful [PutPrivateProfileString]. *)
Definition put_post (p' : Profile) (sec k v : list Z) : Prop :=
  prof_ok p' ∧ _section p' = sec ∧ _bWrite p' = true ∧
  ∃ ce s, _confWork p' = WorkLive ce ∧ points_to ce sec s ∧
          hmap (h s) !! k = Some (Some v).

Lemma put_spec w p sec k v f :
  prof_ok p → stale w p f = Some false → sec ≠ [] → zlen sec < 128 →
  ∃ p', PutPrivateProfileString [] w p sec (Some k) v f = Some (w, p', []) ∧
    put_post p' sec k v.
Proof.
  intros [Hok Hg] Hst Hsec Hlen. unfold PutPrivateProfileString, lock. simpl G_CS.
  rewrite Hg. cbn [mbind option_bind].
  destruct (setProfileSection_fresh w
    (mk_Profile (projectHomeDir p) (_section p) (_confWork p) (_bWrite p) true true) sec f)
    as (b & p1 & ce & Hset & Hok1 & Hg1 & Hw1 & Hb); [done..|].
  cbn [checkCSInfo projectHomeDir _section _confWork _bWrite G_RUN].
  rewrite Hset. cbn [mbind option_bind]. rewrite Hw1. cbn [mbind option_bind].
  unfold work_ok in Hok1. rewrite Hw1 in Hok1. destruct Hok1 as [Hwf1 Hp1].
  assert (∃ ce2 s2, (if b then Some (true, _section p1, ce, [])
     else create_section [] ce sec) = Some (true, sec, ce2, []) ∧
     conf_wf ce2 ∧ points_to ce2 sec s2) as (ce2 & s2 & -> & Hwf2 & Hp2).
  { destruct b.
    - rewrite Hb in *. destruct Hp1 as [s Hs]; [done|]. eauto.
    - unfold create_section. destruct (entryNew_spec ce sec Hwf1 Hsec)
        as (ce' & i & s & -> & Hwf' & _ & _ & Hc & Hs & Hn & _). cbn [mbind option_bind].
      unfold section_copy. destruct (Z.ltb_spec (zlen sec) 128); [|lia].
      cbn [mbind option_bind]. exists ce', s. split_and!; [done|done|]. by exists i. }
  cbn [mbind option_bind confEntryPut].
  destruct (points_to_put ce2 sec s2 k v Hwf2 Hp2) as (ce3 & s3 & -> & Hwf3 & Hp3 & _ & _ & Hm3).
  cbn [mbind option_bind]. eexists. split; [done|].
  split_and!; try done.
  - split; [|done]. unfold work_ok. simpl. eauto.
  - exists ce3, s3. split_and!; try done. rewrite Hm3. apply lookup_insert_eq.
Qed.

(** [GetPrivateProfileString] after such a put: only the copy remains. *)
Lemma get_eq w p sec k v init pRet len f :
  put_post p sec k v → stale w p f = Some false →
  ∃ p', prof_ok p' ∧ GetPrivateProfileString [] w p sec k init pRet len f =
    (r ← mwrite pRet 0 (v ++ [0]); Some (zlen v, r, w, p', [])).
Proof.
  intros ([Hok Hg] & Hsec & _ & ce & s & Hw & Hp & Hk) Hst.
  unfold GetPrivateProfileString, lock. simpl G_CS. rewrite Hg. cbn [mbind option_bind].
  unfold setProfileSection, load_cache, checkCSInfo.
  cbn [projectHomeDir _section _confWork _bWrite G_RUN].
  assert (stale w (mk_Profile (projectHomeDir p) (_section p) (_confWork p) (_bWrite p) true true) f
    = Some false) as -> by done.
  cbn [mbind option_bind _confWork _section]. rewrite Hw. cbn [mbind option_bind _section].
  rewrite decide_True by done. cbn [mbind option_bind].
  unfold work_get. cbn [_confWork mbind option_bind].
  unfold work_ok in Hok. rewrite Hw in Hok. destruct Hok as [Hwf Hpt].
  rewrite (points_to_get ce sec s k v) by done. cbn [mbind option_bind].
  eexists. split; [|by destruct (mwrite pRet 0 (v ++ [0]))].
  split; [|done]. unfold work_ok. simpl. eauto.
Qed.

Lemma mwrite_cstring m s :
  mwrite m 0 (s ++ [0]) =
  if decide (zlen s < zlen m) then Some (s ++ [0] ++ drop (S (length s)) m) else None.
Proof.
  unfold mwrite. rewrite length_app. simpl (length [0]).
  destruct (decide (zlen s < zlen m)); [|by rewrite decide_False by lia].
  rewrite decide_True by lia. change (Z.to_nat 0) with 0%nat. cbn [take app].
  by rewrite Nat.add_0_l, Nat.add_1_r, <- app_assoc.
Qed.

(** A value written with [PutPrivateProfileString] is what
    [GetPrivateProfileString] then reads (while the cache is fresh and the
    caller's buffer has room): the text, a NUL, and the rest of the buffer
    untouched; the mutex is free after both calls. *)
Theorem put_get w p sec k v f :
  prof_ok p → stale w p f = Some false → sec ≠ [] → zlen sec < 128 →
  ∃ p', PutPrivateProfileString [] w p sec (Some k) v f = Some (w, p', []) ∧
    prof_ok p' ∧ _bWrite p' = true ∧
    ∀ init pRet len, stale w p' f = Some false → zlen v < zlen pRet →
      ∃ p'', GetPrivateProfileString [] w p' sec k init pRet len f =
        Some (zlen v, v ++ [0] ++ drop (S (length v)) pRet, w, p'', []) ∧ prof_ok p''.
Proof.
  intros H1 H2 H3 H4. destruct (put_spec w p sec k v f H1 H2 H3 H4) as (p' & Hp & Hpost).
  exists p'. split_and!; [done|apply Hpost|apply Hpost|]. intros init pRet len Hst Hlen.
  destruct (get_eq w p' sec k v init pRet len f Hpost Hst) as (p'' & Hok & ->).
  rewrite mwrite_cstring, decide_True by done. eauto.
Qed.

Definition fresh_profile : Profile := mk_Profile HomeNull [] WorkNull false false false.

Lemma put_get_witness :
  ∃ p', PutPrivateProfileString [] sample_world fresh_profile (of_string "net")
          (Some (of_string "port")) (of_string "80") (of_string "a.ini")
        = Some (sample_world, p', []) ∧
    prof_ok p' ∧ _bWrite p' = true ∧
    ∀ init pRet len, stale sample_world p' (of_string "a.ini") = Some false →
      zlen (of_string "80") < zlen pRet →
      ∃ p'', GetPrivateProfileString [] sample_world p' (of_string "net") (of_string "port")
               init pRet len (of_string "a.ini") =
        Some (zlen (of_string "80"),
              of_string "80" ++ [0] ++ drop (S (length (of_string "80"))) pRet,
              sample_world, p'', []) ∧ prof_ok p''.
Proof.
  apply (put_get sample_world fresh_profile (of_string "net") (of_string "port")
           (of_string "80") (of_string "a.ini")).
  - split; reflexivity.
  - reflexivity.
  - discriminate.
  - reflexivity.
Defined.

(** [GetPrivateProfileString] ignores the buffer size it is given: a
    stored value that does not fit is copied all the same, past the end of
    the caller's buffer. *)
Theorem get_string_overflow w p sec k v init pRet len f :
  put_post p sec k v → stale w p f = Some false → zlen pRet ≤ zlen v →
  GetPrivateProfileString [] w p sec k init pRet len f = None.
Proof.
  intros Hpost Hst Hlen.
  destruct (get_eq w p sec k v init pRet len f Hpost Hst) as (p'' & _ & ->).
  by rewrite mwrite_cstring, decide_False by lia.
Qed.

(** The globals after one put, with the file present and older than the
    cache. *)
Definition disk_world : World := mk_World {[of_string "a.ini" := ([], 0)]} (λ _, true) 7.
Definition put_profile : Profile :=
  match PutPrivateProfileString [] disk_world fresh_profile (of_string "net")
          (Some (of_string "port")) (of_string "8080") (of_string "a.ini") with
  | Some (_, p, _) => p
  | None => fresh_profile
  end.

Lemma put_profile_post :
  put_post put_profile (of_string "net") (of_string "port") (of_string "8080").
Proof.
  destruct (put_spec disk_world fresh_profile (of_string "net") (of_string "port")
              (of_string "8080") (of_string "a.ini")) as (p' & Hp & Hpost); [done..|].
  unfold put_profile. by rewrite Hp.
Qed.

Lemma get_string_overflow_witness :
  zlen [1; 2; 3] ≤ zlen (of_string "8080") ∧
  GetPrivateProfileString [] disk_world put_profile (of_string "net") (of_string "port")
    None [1; 2; 3] 3 (of_string "a.ini") = None.
Proof.
  split; [by vm_compute|].
  apply (get_string_overflow _ _ _ _ (of_string "8080"));
    [apply put_profile_post|by vm_compute|by vm_compute].
Defined.

(** [confEntryFree] frees [projectHomeDir] without clearing the pointer:
    once [settingsFilename] has set it, the second file switch frees it again
    and every later [settingsFilename] reads freed memory. *)
Theorem home_dir_dangling p d :
  projectHomeDir p = HomeLive d → _confWork p ≠ WorkFreed →
  ∃ p', confEntryFree p = Some p' ∧
    ∀ q, projectHomeDir q = projectHomeDir p' →
      confEntryFree q = None ∧ ∀ env f, settingsFilename q env f = None.
Proof.
  intros Hd Hw. unfold confEntryFree, settingsFilename. rewrite Hd. cbn [mbind option_bind].
  destruct p as [d' sec [|ce|] bw run cs]; simplify_eq/=;
    (eexists; split; [done|]; intros q ->; done).
Qed.

Lemma home_dir_dangling_witness :
  ∃ p', confEntryFree (set_home fresh_profile (HomeLive (of_string "./bin/"))) = Some p' ∧
    ∀ q, projectHomeDir q = projectHomeDir p' →
      confEntryFree q = None ∧ ∀ env f, settingsFilename q env f = None.
Proof.
  apply (home_dir_dangling (set_home fresh_profile (HomeLive (of_string "./bin/")))
           (of_string "./bin/")); [reflexivity|discriminate].
Defined.

