(* ===== verification/Util.v ===== *)
(** * Number and string utilities of the server ([redis-3.2/src/util.c])

    [digits10]/[sdigits10]/[ll2string] print integers with precomputed
    digit pairs, [string2ll]/[string2l] parse them back, [memtoll] reads
    memory sizes with a unit, [stringmatchlen] is the glob matcher.  The
    64-bit build is modelled: [PORT_LONG] and [PORT_LONGLONG] are 64 bits
    wide.  Buffers are explicit; an access outside one is [None] (or [Oob]
    in the matcher). *)

From S2P Require Import Prelude Decimal.

Definition LLONG_MIN : Z := - 2 ^ 63.
Definition LLONG_MAX : Z := 2 ^ 63 - 1.
Definition ULLONG_MAX : Z := 2 ^ 64 - 1.
Definition b2z (b : bool) : Z := if b then 1 else 0.

(** ** Printing *)

(** The recursion divides by 10^12, so three levels cover 64 bits. *)
Fixpoint digits10_go (fuel : nat) (v : Z) : Z :=
  match fuel with
  | O => 0
  | S fuel =>
      if v <? 10 then 1 else
      if v <? 100 then 2 else
      if v <? 1000 then 3 else
      if v <? 1000000000000 then
        if v <? 100000000 then
          if v <? 1000000 then
            if v <? 10000 then 4 else 5 + b2z (v >=? 100000)
          else 7 + b2z (v >=? 10000000)
        else
          if v <? 10000000000 then 9 + b2z (v >=? 1000000000)
          else 11 + b2z (v >=? 100000000000)
      else 12 + digits10_go fuel (v / 1000000000000)
  end.
Definition digits10 (v : Z) : Z := digits10_go 3 v.

Definition sdigits10 (v : Z) : Z :=
  if v <? 0 then
    let uv := if negb (v =? LLONG_MIN) then u64 (- v) else u64 (LLONG_MAX + 1) in
    digits10 uv + 1
  else digits10 v.

(** The static table [digits], two characters per value 0..99. *)
Definition digits : list Z :=
  of_string "0001020304050607080910111213141516171819" ++
  of_string "2021222324252627282930313233343536373839" ++
  of_string "4041424344454647484950515253545556575859" ++
  of_string "6061626364656667686970717273747576777879" ++
  of_string "8081828384858687888990919293949596979899".

Definition digits_at (i : Z) : option Z := digits !! Z.to_nat i.

(** [dst[i] = c]. *)
Definition put (dst : list Z) (i c : Z) : option (list Z) := mwrite dst i [c].

(** The main loop of [ll2string] and the last one or two digits. *)
Fixpoint ll2string_loop (fuel : nat) (dst : list Z) (next value : Z) : option (list Z) :=
  match fuel with
  | O => None
  | S fuel =>
      if value >=? 100 then
        let i := (value mod 100) * 2 in
        let value := value / 100 in
        c1 ← digits_at (i + 1); dst ← put dst next c1;
        c0 ← digits_at i; dst ← put dst (next - 1) c0;
        ll2string_loop fuel dst (next - 2) value
      else if value <? 10 then put dst next (48 + value)
      else
        let i := value * 2 in
        c1 ← digits_at (i + 1); dst ← put dst next c1;
        c0 ← digits_at i; put dst (next - 1) c0
  end.

(** [ll2string(dst, dstlen, svalue)]: the result and the buffer. *)
Definition ll2string (dst : list Z) (dstlen svalue : Z) : option (Z * list Z) :=
  let '(value, negative) :=
    if svalue <? 0 then
      ((if negb (svalue =? LLONG_MIN) then u64 (- svalue) else u64 (LLONG_MAX + 1)), 1)
    else (svalue, 0) in
  let length := digits10 value + negative in
  if length >=? dstlen then Some (0, dst) else
  dst ← put dst length 0;
  dst ← ll2string_loop 11 dst (length - 1) value;
  dst ← (if negative =? 1 then put dst 0 45 else Some dst);
  Some (length, dst).

(** ** Parsing *)

(** The digit loop of [string2ll]; [None] on overflow.  The bytes left over
    are returned. *)
Fixpoint string2ll_loop (p : list Z) (v : Z) : option (Z * list Z) :=
  match p with
  | c :: p' =>
      if (c >=? 48) && (c <=? 57) then
        if v >? ULLONG_MAX / 10 then None else
        let v := v * 10 in
        if v >? ULLONG_MAX - (c - 48) then None else
        string2ll_loop p' (v + (c - 48))
      else Some (v, p)
  | [] => Some (v, [])
  end.

(** [string2ll(s, slen, &value)] with [slen] the length of [s]: the parsed
    value, or [None] for the result 0. *)
Definition string2ll (s : list Z) : option Z :=
  match s with
  | [] => None
  | c0 :: s1 =>
      if (zlen s =? 1) && (c0 =? 48) then Some 0 else
      let negative := c0 =? 45 in
      let p := if negative then s1 else s in
      match p with
      | [] => None
      | d :: p1 =>
          if (d >=? 49) && (d <=? 57) then
            '(v, rest) ← string2ll_loop p1 (d - 48);
            if (0 <? zlen rest) then None
            else if negative then
              if v >? - (LLONG_MIN + 1) + 1 then None else Some (s64 (- v))
            else
              if v >? LLONG_MAX then None else Some v
          else if (d =? 48) && (zlen s =? 1) then Some 0
          else None
      end
  end.

Definition string2l (s : list Z) : option Z :=
  llval ← string2ll s;
  if (llval <? LLONG_MIN) || (llval >? LLONG_MAX) then None else Some (s64 llval).

(** ** Memory sizes *)

(** [strcasecmp(a, b) == 0]. *)
Definition strcaseeq (a b : list Z) : bool :=
  bool_decide (map tolower a = map tolower b).

Fixpoint span_digits (u : list Z) : list Z * list Z :=
  match u with
  | c :: u' => if isdigit c then let '(a, b) := span_digits u' in (c :: a, b) else ([], u)
  | [] => ([], [])
  end.

Definition unit_mul (u : list Z) : option Z :=
  if bool_decide (u = []) || strcaseeq u (of_string "b") then Some 1
  else if strcaseeq u (of_string "k") then Some 1000
  else if strcaseeq u (of_string "kb") then Some 1024
  else if strcaseeq u (of_string "m") then Some (1000 * 1000)
  else if strcaseeq u (of_string "mb") then Some (1024 * 1024)
  else if strcaseeq u (of_string "g") then Some (1000 * 1000 * 1000)
  else if strcaseeq u (of_string "gb") then Some (1024 * 1024 * 1024)
  else None.

(** [strtol] on an optional minus and digits, saturating at 64 bits; without
    digits nothing is consumed, and [*endptr] is the minus if there is one. *)
Definition strtol_digits (minus : bool) (ds : list Z) : option Z :=
  match ds with
  | [] => if minus then None else Some 0
  | _ => let v := dec_val ds in
         Some (if minus then Z.max LLONG_MIN (- v) else Z.min LLONG_MAX v)
  end.

(** [memtoll(p, &err)]: [None] when [err] is set. *)
Definition memtoll (p : list Z) : option Z :=
  let minus := bool_decide (head p = Some 45) in
  let '(ds, u) := span_digits (if minus then tail p else p) in
  mul ← unit_mul u;
  let digits := b2z minus + zlen ds in
  if digits >=? 128 then None else
  val ← strtol_digits minus ds;
  Some (s64 (val * mul)).

(** ** Lemmas on printing *)

Lemma length_dec_step z : 10 ≤ z → zlen (dec z) = 1 + zlen (dec (z / 10)).
Proof.
  intros Hz. rewrite dec_unfold by lia. destruct (Z.ltb_spec z 10); [lia|].
  rewrite length_app. simpl. lia.
Qed.

Lemma length_dec_shift (n : nat) z :
  10 ^ Z.of_nat n ≤ z → zlen (dec z) = Z.of_nat n + zlen (dec (z / 10 ^ Z.of_nat n)).
Proof.
  revert z. induction n as [|n IH]; intros z Hz.
  { simpl. by rewrite Z.div_1_r. }
  rewrite Nat2Z.inj_succ, Z.pow_succ_r in * by lia.
  assert (0 < 10 ^ Z.of_nat n) by lia.
  rewrite length_dec_step by lia. rewrite IH.
  - rewrite Z.div_div by lia. lia.
  - apply Z.div_le_lower_bound; lia.
Qed.

Lemma length_dec_eq z k :
  2 ≤ k → 10 ^ (k - 1) ≤ z < 10 ^ k → zlen (dec z) = k.
Proof.
  intros Hk Hz. pose proof (Z.pow_nonneg 10 (k - 1)).
  pose proof (length_dec z k). pose proof (length_dec z (k - 1)). lia.
Qed.

Lemma digits10_step f v :
  0 ≤ v → digits10_go (S f) v =
    if v <? 10 ^ 12 then zlen (dec v) else 12 + digits10_go f (v / 10 ^ 12).
Proof.
  intros Hv. cbn [digits10_go].
  change (10 ^ 12) with 1000000000000.
  destruct (Z.ltb_spec v 10).
  { destruct (Z.ltb_spec v 1000000000000); [|lia]. rewrite dec_unfold by done.
    by destruct (Z.ltb_spec v 10); [|lia]. }
  repeat (rewrite Z.geb_leb || case_if1; try lia); unfold b2z;
    try (symmetry; apply length_dec_eq; lia).
Qed.

Lemma digits10_spec v : in_u 64 v → digits10 v = zlen (dec v).
Proof.
  intros [Hv Hm]. unfold digits10. rewrite digits10_step by done.
  destruct (Z.ltb_spec v (10 ^ 12)); [done|].
  rewrite (length_dec_shift 12 v) by done. change (Z.of_nat 12) with 12.
  rewrite digits10_step by (apply Z.div_pos; lia).
  destruct (Z.ltb_spec (v / 10 ^ 12) (10 ^ 12)) as [|Hc]; [done|].
  exfalso.
  assert (10 ^ 12 * 10 ^ 12 ≤ v).
  { Z.div_mod_to_equations. lia. }
  pow2. lia.
Qed.

Lemma dec_100 v :
  100 ≤ v → dec v = dec (v / 100) ++ [48 + v mod 100 / 10; 48 + v mod 10].
Proof.
  intros Hv. rewrite dec_unfold by lia. destruct (Z.ltb_spec v 10); [lia|].
  rewrite (dec_unfold (v / 10)) by (Z.div_mod_to_equations; lia).
  destruct (Z.ltb_spec (v / 10) 10); [Z.div_mod_to_equations; lia|].
  rewrite Z.div_div, <- app_assoc by lia. simpl. do 3 f_equal.
  Z.div_mod_to_equations. lia.
Qed.

Lemma dec_2 v : 10 ≤ v < 100 → dec v = [48 + v / 10; 48 + v mod 10].
Proof.
  intros Hv. rewrite dec_unfold by lia. destruct (Z.ltb_spec v 10); [lia|].
  rewrite dec_unfold by (Z.div_mod_to_equations; lia).
  destruct (Z.ltb_spec (v / 10) 10); [done|Z.div_mod_to_equations; lia].
Qed.

(** The table holds the two digits of every value below 100. *)
Lemma digits_table r :
  0 ≤ r < 100 →
  digits_at (r * 2) = Some (48 + r / 10) ∧ digits_at (r * 2 + 1) = Some (48 + r mod 10).
Proof.
  intros Hr.
  assert (Forall (λ n : nat, digits_at (Z.of_nat n * 2) = Some (48 + Z.of_nat n / 10) ∧
    digits_at (Z.of_nat n * 2 + 1) = Some (48 + Z.of_nat n mod 10)) (seq 0 100)) as H.
  { apply (bool_decide_unpack _). by vm_compute. }
  rewrite Forall_forall in H. specialize (H (Z.to_nat r)).
  rewrite Z2Nat.id in H by lia. apply H. apply elem_of_seq. lia.
Qed.

Lemma put_app a x b i c : i = zlen a → put (a ++ x :: b) i c = Some (a ++ c :: b).
Proof. intros ->. apply (mwrite_app a [x] [c] b); done. Qed.

Lemma put2 a x y b i c1 c0 :
  i = zlen a + 1 →
  (dst ← put (a ++ x :: y :: b) i c1; put dst (i - 1) c0) = Some (a ++ c0 :: c1 :: b).
Proof.
  intros ->. change (a ++ x :: y :: b) with (a ++ [x] ++ y :: b). rewrite app_assoc.
  rewrite put_app by (rewrite length_app; simpl; lia). simpl.
  rewrite <- app_assoc. simpl. apply put_app. lia.
Qed.

Lemma snoc2 (l : list Z) k :
  length l = (k + 2)%nat → ∃ l' x y, l = l' ++ [x; y] ∧ length l' = k.
Proof.
  intros Hl. exists (take k l). destruct (drop k l) as [|x [|y [|z r]]] eqn:E;
    apply (f_equal length) in E as E'; rewrite length_drop in E'; simpl in E'; try lia.
  exists x, y. rewrite <- E, take_drop, length_take. split; [done|lia].
Qed.

(** The loop fills a hole of the right size with the digits of [value]. *)
Lemma ll2string_loop_spec fuel pre hole suf value :
  0 ≤ value < 100 ^ Z.of_nat fuel → (0 < fuel)%nat → length hole = length (dec value) →
  ll2string_loop fuel (pre ++ hole ++ suf) (zlen pre + zlen hole - 1) value
    = Some (pre ++ dec value ++ suf).
Proof.
  revert pre hole suf value. induction fuel as [|fuel IH]; intros pre hole suf value Hv Hf Hh; [lia|].
  cbn [ll2string_loop]. rewrite Z.geb_leb. destruct (Z.leb_spec 100 value) as [H100|H100].
  - pose proof (digits_table (value mod 100)) as [-> ->]; [apply Z.mod_pos_bound; lia|].
    rewrite dec_100 in Hh |- * by done. rewrite length_app in Hh. simpl in Hh.
    destruct (snoc2 hole _ Hh) as (h' & x & y & -> & Hh').
    rewrite length_app. simpl (length [x; y]). cbn [mbind option_bind].
    rewrite <- app_assoc. simpl ([x; y] ++ suf). rewrite (app_assoc pre).
    pose proof (put2 (pre ++ h') x y suf (zlen pre + Z.of_nat (length h' + 2) - 1)
      (48 + (value mod 100) mod 10) (48 + value mod 100 / 10)) as E.
    rewrite length_app in E. specialize (E ltac:(lia)).
    destruct (put _ (zlen pre + _ - 1) _) as [d|]; simpl in E |- *; [|done].
    rewrite E. cbn [mbind option_bind]. rewrite <- !app_assoc.
    replace (zlen pre + Z.of_nat (length h' + 2) - 1 - 2) with (zlen pre + zlen h' - 1) by lia.
    rewrite Z.mod_mod_divide by (by exists 10).
    rewrite Nat2Z.inj_succ, Z.pow_succ_r in Hv by lia.
    apply IH; [|destruct fuel; [simpl in Hv|]; lia|done].
    Z.div_mod_to_equations; lia.
  - destruct (Z.ltb_spec value 10).
    + rewrite dec_unfold in Hh |- * by lia. destruct (Z.ltb_spec value 10); [|lia].
      destruct hole as [|x [|]]; simplify_eq/=. apply put_app. lia.
    + pose proof (digits_table value) as [-> ->]; [lia|].
      rewrite dec_2 in Hh |- * by lia. destruct hole as [|x [|y [|]]]; simplify_eq/=.
      pose proof (put2 pre x y suf (zlen pre + 2 - 1) (48 + value mod 10) (48 + value / 10)) as E.
      specialize (E ltac:(lia)). apply E.
Qed.

(** The magnitude and the sign [ll2string] computes first. *)
Lemma ll2string_split v :
  in_s 64 v →
  ∃ m n, (if v <? 0 then
      ((if negb (v =? LLONG_MIN) then u64 (- v) else u64 (LLONG_MAX + 1)), 1)
    else (v, 0)) = (m, n) ∧ in_u 64 m ∧
    ((n = 1 ∧ m = - v ∧ v < 0) ∨ (n = 0 ∧ m = v ∧ 0 ≤ v)).
Proof.
  unfold LLONG_MIN, LLONG_MAX. intros Hv.
  destruct (Z.ltb_spec v 0); [|do 2 eexists; split; [done|]; wrap_unfold; pow2; lia].
  destruct (Z.eqb_spec v (- 2 ^ 63)); simpl negb; cbv iota;
    (do 2 eexists; split; [done|]); wrap_unfold; pow2;
    rewrite Z.mod_small by lia; lia.
Qed.

Lemma length_dec_of_Z v m n :
  (n = 1 ∧ m = - v ∧ v < 0) ∨ (n = 0 ∧ m = v ∧ 0 ≤ v) →
  zlen (dec_of_Z v) = zlen (dec m) + n.
Proof.
  unfold dec_of_Z. intros [(-> & -> & ?)|(-> & -> & ?)];
    destruct (Z.ltb_spec v 0); simpl; lia.
Qed.

Lemma ll2string_spec dst v :
  in_s 64 v →
  ll2string dst (zlen dst) v =
    if decide (zlen (dec_of_Z v) < zlen dst)
    then Some (zlen (dec_of_Z v),
               dec_of_Z v ++ [0] ++ drop (S (length (dec_of_Z v))) dst)
    else Some (0, dst).
Proof.
  intros Hv. unfold ll2string.
  destruct (ll2string_split v Hv) as (m & n & -> & Hm & Hcase).
  rewrite digits10_spec by done. pose proof (length_dec_of_Z v m n Hcase) as El.
  rewrite <- El, Z.geb_leb.
  destruct (Z.leb_spec (zlen dst) (zlen (dec_of_Z v))); [by rewrite decide_False by lia|].
  rewrite decide_True by done.
  set (k := length (dec_of_Z v)) in *.
  assert (∃ a x b, dst = a ++ x :: b ∧ length a = k ∧ b = drop (S k) dst) as (a & x & b & Ed & Ha & Eb).
  { destruct (lookup_lt_is_Some_2 dst k) as [x Hx]; [lia|].
    exists (take k dst), x, (drop (S k) dst).
    rewrite (take_drop_middle _ _ _ Hx), length_take. split_and!; [done|lia|done]. }
  rewrite <- Eb, Ed, <- Ha. rewrite put_app by done. cbn [mbind option_bind].
  assert (∃ pre hole, a = pre ++ hole ∧ length hole = length (dec m) ∧ zlen pre = n)
    as (pre & hole & -> & Hh & Hp).
  { exists (take (Z.to_nat n) a), (drop (Z.to_nat n) a).
    rewrite take_drop, length_drop, length_take. split_and!; done || lia. }
  rewrite length_app, <- app_assoc.
  replace (Z.of_nat (length pre + length hole) - 1) with (zlen pre + zlen hole - 1) by lia.
  rewrite ll2string_loop_spec; [|wrap_unfold; pow2; simpl Z.of_nat; change (100 ^ 11) with 10000000000000000000000; lia|lia|done].
  cbn [mbind option_bind]. unfold dec_of_Z.
  destruct Hcase as [(-> & -> & ?)|(-> & -> & ?)]; destruct (Z.ltb_spec v 0); try lia; simpl.
  - destruct pre as [|y [|]]; simpl in Hp; try lia.
    pose proof (put_app [] y (dec (- v) ++ 0 :: b) 0 45) as E. simpl in E. simpl.
    rewrite E by done. simpl. by rewrite Hh.
  - destruct pre; simpl in Hp; try lia. simpl. by rewrite Hh.
Qed.

(** ** Lemmas on parsing *)

Lemma dec_val_nonneg l a :
  0 ≤ a → Forall digit l → a ≤ foldl (λ a c, 10 * a + (c - 48)) a l.
Proof.
  intros Ha Hl. revert a Ha. induction Hl as [|c l Hc _ IH]; intros a Ha; simpl; [lia|].
  unfold digit in Hc. etransitivity; [|apply IH; lia]. lia.
Qed.

Lemma dec_val_inv c l :
  49 ≤ c ≤ 57 → Forall digit l → dec (dec_val (c :: l)) = c :: l.
Proof.
  intros Hc. induction l as [|d l IH] using rev_ind; intros Hl.
  { change (dec_val [c]) with (0 + (c - 48)). rewrite Z.add_0_l, dec_unfold by lia.
    destruct (Z.ltb_spec (c - 48) 10); [|lia]. f_equal. lia. }
  apply Forall_app in Hl as [Hl Hd]. rewrite Forall_singleton in Hd. unfold digit in Hd.
  specialize (IH Hl). rewrite app_comm_cons, dec_val_snoc.
  assert (1 ≤ dec_val (c :: l)).
  { pose proof (dec_val_nonneg l (10 * 0 + (c - 48)) ltac:(lia) Hl) as Hn.
    unfold dec_val. cbn [foldl]. lia. }
  rewrite dec_unfold by lia.
  destruct (Z.ltb_spec (10 * dec_val (c :: l) + (d - 48)) 10); [lia|].
  replace ((10 * dec_val (c :: l) + (d - 48)) / 10) with (dec_val (c :: l)) by
    (Z.div_mod_to_equations; lia).
  rewrite IH. do 2 f_equal. Z.div_mod_to_equations. lia.
Qed.

(** The loop consumes all of a string of digits exactly when its value fits
    64 bits. *)
Lemma string2ll_loop_digits p v :
  0 ≤ v → Forall digit p →
  let r := foldl (λ a c, 10 * a + (c - 48)) v p in
  v ≤ ULLONG_MAX →
  string2ll_loop p v = if r <=? ULLONG_MAX then Some (r, []) else None.
Proof.
  intros Hv Hp. revert v Hv. induction Hp as [|c p Hc Hp IH]; intros v Hv r Hm.
  { subst r. simpl. destruct (Z.leb_spec v ULLONG_MAX); [done|lia]. }
  unfold digit in Hc. simpl in r. cbn [string2ll_loop].
  destruct (Z.geb_spec c 48), (Z.leb_spec c 57); try lia. cbn [andb].
  pose proof (dec_val_nonneg p (10 * v + (c - 48)) ltac:(lia) Hp) as Hge. fold r in Hge.
  rewrite !Z.gtb_ltb. unfold ULLONG_MAX in *. pow2.
  destruct (Z.ltb_spec ((18446744073709551616 - 1) / 10) v).
  { destruct (Z.leb_spec r (18446744073709551616 - 1)); [|done].
    Z.div_mod_to_equations. lia. }
  destruct (Z.ltb_spec (18446744073709551616 - 1 - (c - 48)) (v * 10)).
  { destruct (Z.leb_spec r (18446744073709551616 - 1)); [|done]. lia. }
  rewrite (Z.mul_comm v 10). apply IH; lia.
Qed.

(** Bytes other than digits stop the loop. *)
Lemma string2ll_loop_rest p v w rest :
  string2ll_loop p v = Some (w, rest) → rest = [] → Forall digit p.
Proof.
  revert v. induction p as [|c p IH]; intros v Hl Hr; [constructor|].
  cbn [string2ll_loop] in Hl.
  destruct (Z.geb_spec c 48), (Z.leb_spec c 57); simpl in Hl; simplify_eq.
  do 2 (match type of Hl with context [if ?b then _ else _] => destruct b; [done|] end).
  constructor; [unfold digit; lia|]. by eapply IH.
Qed.

Lemma dec_val_cons c l : dec_val (c :: l) = foldl (λ a c, 10 * a + (c - 48)) (c - 48) l.
Proof. unfold dec_val. cbn [foldl]. done. Qed.

(** The part of [string2ll] after the sign, on a first digit from 1 to 9. *)
Lemma parse_magnitude c l :
  49 ≤ c ≤ 57 → Forall digit l → dec_val (c :: l) ≤ ULLONG_MAX →
  string2ll_loop l (c - 48) = Some (dec_val (c :: l), []).
Proof.
  intros Hc Hl Hm. rewrite string2ll_loop_digits; [|lia|done|unfold ULLONG_MAX; pow2; lia].
  rewrite <- dec_val_cons. by destruct (Z.leb_spec (dec_val (c :: l)) ULLONG_MAX); [|lia].
Qed.

Lemma parse_magnitude_inv c l v rest :
  49 ≤ c ≤ 57 → string2ll_loop l (c - 48) = Some (v, rest) → rest = [] →
  dec v = c :: l ∧ 1 ≤ v.
Proof.
  intros Hc Hv ->. assert (Forall digit l) as Hl by (by eapply string2ll_loop_rest).
  rewrite string2ll_loop_digits in Hv; [|lia|done|unfold ULLONG_MAX; pow2; lia].
  rewrite <- dec_val_cons in Hv. case_match; simplify_eq.
  split; [by apply dec_val_inv|].
  pose proof (dec_val_nonneg l (c - 48) ltac:(lia) Hl). rewrite dec_val_cons. lia.
Qed.

Lemma string2ll_sound s z : string2ll s = Some z → in_s 64 z ∧ s = dec_of_Z z.
Proof.
  unfold string2ll. destruct s as [|c0 s1]; [done|].
  destruct ((zlen (c0 :: s1) =? 1) && (c0 =? 48)) eqn:E0.
  { intros [= <-]. apply andb_true_iff in E0 as [E1 ->%Z.eqb_eq].
    apply Z.eqb_eq in E1. destruct s1; simpl in E1; [|lia].
    split; [wrap_unfold; pow2; lia|by vm_compute]. }
  destruct (Z.eqb_spec c0 45) as [->|Hneg].
  - destruct s1 as [|d p1]; [done|]. cbv zeta.
    destruct ((d >=? 49) && (d <=? 57)) eqn:Ed.
    2: { assert ((zlen (45 :: d :: p1) =? 1) = false) as -> by (apply Z.eqb_neq; simpl; lia).
         by rewrite andb_false_r. }
    apply andb_true_iff in Ed as [H1 H2]. rewrite Z.geb_leb, Z.leb_le in H1. rewrite Z.leb_le in H2.
    destruct (string2ll_loop p1 (d - 48)) as [[v rest]|] eqn:Ev; [|done].
    cbn [mbind option_bind].
    destruct rest as [|]; [|done]. change (0 <? zlen []) with false. cbv iota.
    destruct (parse_magnitude_inv d p1 v [] (conj H1 H2) Ev eq_refl) as [Hd Hv].
    rewrite Z.gtb_ltb. unfold LLONG_MIN. pow2.
    case_if1; [done|]. intros [= <-].
    assert (s64 (- v) = - v) as -> by (apply wraps_id; wrap_unfold; pow2; lia).
    split; [wrap_unfold; pow2; lia|]. unfold dec_of_Z.
    destruct (Z.ltb_spec (- v) 0); [|lia]. by rewrite Z.opp_involutive, Hd.
  - destruct ((c0 >=? 49) && (c0 <=? 57)) eqn:Ed.
    2: { destruct (c0 =? 48), (zlen (c0 :: s1) =? 1); done. }
    apply andb_true_iff in Ed as [H1 H2]. rewrite Z.geb_leb, Z.leb_le in H1. rewrite Z.leb_le in H2.
    destruct (string2ll_loop s1 (c0 - 48)) as [[v rest]|] eqn:Ev; [|done].
    cbn [mbind option_bind].
    destruct rest as [|]; [|done]. change (0 <? zlen []) with false. cbv iota.
    destruct (parse_magnitude_inv c0 s1 v [] (conj H1 H2) Ev eq_refl) as [Hd Hv].
    rewrite Z.gtb_ltb. unfold LLONG_MAX. pow2.
    case_if1; [done|]. intros [= <-].
    split; [wrap_unfold; pow2; lia|]. unfold dec_of_Z.
    destruct (Z.ltb_spec v 0); [lia|]. by rewrite Hd.
Qed.

Lemma string2ll_complete z : in_s 64 z → string2ll (dec_of_Z z) = Some z.
Proof.
  intros Hz. unfold dec_of_Z. destruct (Z.ltb_spec z 0) as [Hneg|Hpos].
  - destruct (dec_head (- z)) as (c & l & E & Hc); [lia|].
    assert (Forall digit l) as Hl.
    { pose proof (dec_digits (- z)) as Hd. rewrite E in Hd. specialize (Hd ltac:(lia)). by inversion Hd. }
    assert (dec_val (c :: l) = - z) as Ev by (rewrite <- E; apply dec_val_dec; lia).
    rewrite E. unfold string2ll. change (45 =? 48) with false. change (45 =? 45) with true.
    rewrite andb_false_r. cbv iota zeta.
    destruct (Z.geb_spec c 49), (Z.leb_spec c 57); try lia. cbn [andb].
    rewrite parse_magnitude; [|lia|done|unfold ULLONG_MAX; wrap_unfold; pow2; lia].
    cbn [mbind option_bind]. change (0 <? zlen []) with false. cbv iota.
    rewrite Ev, Z.gtb_ltb. unfold LLONG_MIN.
    case_if1; [wrap_unfold; pow2; lia|].
    rewrite Z.opp_involutive. f_equal. apply wraps_id; [lia|done].
  - destruct (decide (z = 0)) as [->|Hz0]; [by vm_compute|].
    destruct (dec_head z) as (c & l & E & Hc); [lia|].
    assert (Forall digit l) as Hl.
    { pose proof (dec_digits z Hpos) as Hd. rewrite E in Hd. by inversion Hd. }
    assert (dec_val (c :: l) = z) as Ev by (rewrite <- E; apply dec_val_dec; lia).
    rewrite E. unfold string2ll.
    destruct (Z.eqb_spec c 48); [lia|]. rewrite andb_false_r.
    destruct (Z.eqb_spec c 45); [lia|].
    destruct (Z.geb_spec c 49), (Z.leb_spec c 57); try lia. cbn [andb].
    rewrite parse_magnitude; [|lia|done|unfold ULLONG_MAX; wrap_unfold; pow2; lia].
    cbn [mbind option_bind]. change (0 <? zlen []) with false. cbv iota.
    rewrite Ev, Z.gtb_ltb. unfold LLONG_MAX.
    case_if1; [wrap_unfold; pow2; lia|done].
Qed.

(** ** Lemmas on memory sizes *)

Lemma strcaseeq_head u c w :
  strcaseeq u (c :: w) = true → 97 ≤ c ≤ 122 →
  ∃ d u', u = d :: u' ∧ isdigit d = false.
Proof.
  unfold strcaseeq. intros H%bool_decide_eq_true Hc. destruct u as [|d u']; simplify_eq/=.
  exists d, u'. split; [done|]. unfold tolower, isdigit in *.
  destruct (Z.leb_spec 65 d), (Z.leb_spec d 90), (Z.leb_spec 65 c), (Z.leb_spec c 90);
    simpl in *; destruct (Z.leb_spec 48 d), (Z.leb_spec d 57); simpl; try done; lia.
Qed.

Lemma unit_mul_spec u mul :
  unit_mul u = Some mul →
  1 ≤ mul ∧ (u = [] ∨ ∃ d u', u = d :: u' ∧ isdigit d = false).
Proof.
  unfold unit_mul. destruct (bool_decide (u = [])) eqn:E.
  { apply bool_decide_eq_true in E. intros [= <-]. split; [lia|by left]. }
  intros H. cbn [orb] in H.
  repeat match type of H with
  | context [strcaseeq u ?w] => destruct (strcaseeq u w) eqn:?; simplify_eq
  end; (split; [lia|]; right; eapply strcaseeq_head; [eassumption|by split; vm_compute]).
Qed.

Lemma span_digits_app ds u :
  Forall digit ds → (u = [] ∨ ∃ d u', u = d :: u' ∧ isdigit d = false) →
  span_digits (ds ++ u) = (ds, u).
Proof.
  intros Hds Hu. induction Hds as [|c ds Hc _ IH]; simpl.
  - destruct Hu as [->|(d & u' & -> & Hd)]; [done|]. simpl. by rewrite Hd.
  - unfold isdigit, digit in *. rewrite IH.
    by destruct (Z.leb_spec 48 c), (Z.leb_spec c 57); try lia.
Qed.

(** ** Properties *)

(** [ll2string] writes exactly the decimal text of the value and a NUL
    when they fit, leaving the rest of the buffer untouched; otherwise it
    returns 0 and writes nothing.  No byte outside the buffer is accessed,
    for every 64-bit value, the minimum included. *)
Theorem ll2string_correct dst v :
  in_s 64 v →
  ll2string dst (zlen dst) v =
    if decide (zlen (dec_of_Z v) < zlen dst)
    then Some (zlen (dec_of_Z v),
               dec_of_Z v ++ [0] ++ drop (S (length (dec_of_Z v))) dst)
    else Some (0, dst).
Proof. apply ll2string_spec. Qed.

Lemma ll2string_correct_witness :
  ll2string (replicate 32 7) 32 (- 2 ^ 63) =
    Some (20, of_string "-9223372036854775808" ++ [0] ++ replicate 11 7).
Proof.
  change 32 with (zlen (replicate 32 7)) at 1.
  rewrite (ll2string_correct (replicate 32 7) (- 2 ^ 63)); [by vm_compute|].
  unfold in_s. lia.
Defined.

(** [string2ll] accepts exactly the canonical decimal texts of the
    64-bit integers (no leading zeros, no plus sign, no blanks, no overflow)
    and returns the integer. *)
Theorem string2ll_iff s z : string2ll s = Some z ↔ in_s 64 z ∧ s = dec_of_Z z.
Proof.
  split; [apply string2ll_sound|]. intros [Hz ->]. by apply string2ll_complete.
Qed.

(** Printing with [ll2string] and parsing the written bytes back with
    [string2l] is the identity on 64-bit integers. *)
Theorem ll2string_string2l dst v :
  in_s 64 v → zlen (dec_of_Z v) < zlen dst →
  ∃ n dst', ll2string dst (zlen dst) v = Some (n, dst') ∧
    string2l (take (Z.to_nat n) dst') = Some v.
Proof.
  intros Hv Hl. rewrite ll2string_spec, decide_True by done.
  do 2 eexists. split; [done|]. rewrite Nat2Z.id, take_app_length.
  unfold string2l. rewrite string2ll_complete by done. cbn [mbind option_bind].
  assert (s64 v = v) as -> by (apply wraps_id; [lia|done]).
  rewrite Z.gtb_ltb. unfold LLONG_MIN, LLONG_MAX. wrap_unfold.
  case_if1; [pow2; lia|]. case_if1; [pow2; lia|done].
Qed.

Lemma ll2string_string2l_witness :
  ∃ n dst', ll2string (replicate 4 0) (zlen (replicate 4 0)) (-42) = Some (n, dst') ∧
    string2l (take (Z.to_nat n) dst') = Some (-42).
Proof. apply (ll2string_string2l (replicate 4 0) (-42)); [unfold in_s; lia|by vm_compute]. Defined.

(** [memtoll] reads a decimal amount followed by any of the units
    b, k, kb, m, mb, g, gb in either case (or no unit) as the amount times
    the unit, when the product fits 64 bits. *)
Theorem memtoll_units n u mul :
  0 ≤ n → unit_mul u = Some mul → zlen (dec n) < 128 → n * mul ≤ LLONG_MAX →
  memtoll (dec n ++ u) = Some (n * mul).
Proof.
  intros Hn Hu Hl Hm. destruct (unit_mul_spec u mul Hu) as [Hmul Hhd].
  pose proof (dec_digits n Hn) as Hd. pose proof (dec_nonempty n Hn) as Hne.
  pose proof (dec_val_dec n Hn) as Hv. unfold memtoll, LLONG_MAX in *.
  rewrite bool_decide_false.
  2: { destruct (dec n) as [|c l]; [done|]. inversion Hd as [|?? Hc]; subst.
       unfold digit in Hc. simpl. intros [= ->]. lia. }
  rewrite span_digits_app by done. rewrite Hu. cbn [mbind option_bind b2z]. rewrite Z.geb_leb.
  destruct (Z.leb_spec 128 (0 + zlen (dec n))); [lia|].
  unfold strtol_digits. destruct (dec n) as [|c l]; [done|]. cbn [mbind option_bind].
  rewrite Hv. unfold LLONG_MAX. rewrite Z.min_r by nia.
  f_equal. apply wraps_id; [lia|]. unfold in_s. pow2. nia.
Qed.

Lemma memtoll_units_witness : memtoll (of_string "64Mb") = Some 67108864.
Proof.
  change (of_string "64Mb") with (dec 64 ++ of_string "Mb").
  apply (memtoll_units 64 (of_string "Mb") 1048576); [lia|by vm_compute..].
Defined.
