(* ===== verification/Glob.v ===== *)
(** * The glob matcher of the server ([stringmatchlen] of [redis-3.2/src/util.c])

    Pattern and string are buffers with an index and a remaining length, as
    the two pointers and the two counters of the C code; both buffers hold a
    terminating NUL, which the code does read.  Characters are signed.  A
    read outside a buffer is [Oob]. *)

From S2P Require Import Prelude.

Inductive mres := Ret (b : bool) | Oob | NoFuel.

(** Where the loop over a character class stopped: the pattern position, the
    remaining length and the [match] flag. *)
Inductive bres := BDone (pi plen : Z) (m : bool) | BOob | BNoFuel.

Section matcher.
Context (P S : list Z) (nocase : bool).

Definition rd (b : list Z) (i : Z) : option Z :=
  if decide (0 ≤ i) then s8 <$> b !! Z.to_nat i else None.

Definition fold_case (c : Z) : Z := if nocase then tolower c else c.

(** [while (pattern[1] == '*') { pattern++; patternLen--; }] *)
Fixpoint skip_stars (fuel : nat) (pi plen : Z) : option (Z * Z) :=
  match fuel with
  | O => None
  | Datatypes.S fuel =>
      c ← rd P (pi + 1);
      if c =? 42 then skip_stars fuel (pi + 1) (plen - 1) else Some (pi, plen)
  end.

(** The [while(1)] loop over a class; [sc] is [string[0]]. *)
Fixpoint bracket (fuel : nat) (sc : option Z) (pi plen : Z) (m : bool) : bres :=
  match fuel with
  | O => BNoFuel
  | Datatypes.S fuel =>
      match rd P pi with
      | None => BOob
      | Some p0 =>
          if p0 =? 92 then
            match rd P (pi + 1), sc with
            | Some p1, Some c =>
                bracket fuel sc (pi + 1 + 1) (plen - 1 - 1) (if p1 =? c then true else m)
            | _, _ => BOob
            end
          else if p0 =? 93 then BDone pi plen m
          else if plen =? 0 then BDone (pi - 1) (plen + 1) m
          else
            match rd P (pi + 1) with
            | None => BOob
            | Some p1 =>
                if (p1 =? 45) && (plen >=? 3) then
                  match rd P (pi + 2), sc with
                  | Some p2, Some c =>
                      let start := if p0 >? p2 then p2 else p0 in
                      let stop := if p0 >? p2 then p0 else p2 in
                      let start := fold_case start in
                      let stop := fold_case stop in
                      let c := fold_case c in
                      bracket fuel sc (pi + 2 + 1) (plen - 2 - 1)
                        (if (c >=? start) && (c <=? stop) then true else m)
                  | _, _ => BOob
                  end
                else
                  match sc with
                  | Some c =>
                      bracket fuel sc (pi + 1) (plen - 1)
                        (if fold_case p0 =? fold_case c then true else m)
                  | None => BOob
                  end
            end
      end
  end.

(** The [while(stringLen)] loop of the star: try every suffix. *)
Fixpoint star_loop (n : nat) (rec : Z → Z → mres) (si slen : Z) : mres :=
  match n with
  | O => NoFuel
  | Datatypes.S n =>
      if slen =? 0 then Ret false else
      match rec si slen with
      | Ret true => Ret true
      | Ret false => star_loop n rec (si + 1) (slen - 1)
      | r => r
      end
  end.

(** The loop over the stars at the end of the pattern, then the final
    test of the two lengths. *)
Fixpoint trailing_stars (fuel : nat) (pi plen slen : Z) : mres :=
  match fuel with
  | O => NoFuel
  | Datatypes.S fuel =>
      match rd P pi with
      | None => Oob
      | Some c => if c =? 42 then trailing_stars fuel (pi + 1) (plen - 1) slen
                  else Ret ((plen =? 0) && (slen =? 0))
      end
  end.

Fixpoint smatch (fuel : nat) (pi plen si slen : Z) : mres :=
  match fuel with
  | O => NoFuel
  | Datatypes.S fuel =>
      if plen =? 0 then Ret ((plen =? 0) && (slen =? 0)) else
      (* after the switch: advance the pattern, stop at the end of the string *)
      let next (pi plen si slen : Z) : mres :=
        let pi := pi + 1 in
        let plen := plen - 1 in
        if slen =? 0 then trailing_stars (Datatypes.S (length P)) pi plen slen
        else smatch fuel pi plen si slen in
      (* the default case: compare one character *)
      let literal (pi plen : Z) : mres :=
        match rd P pi, rd S si with
        | Some p0, Some c =>
            if fold_case p0 =? fold_case c then next pi plen (si + 1) (slen - 1)
            else Ret false
        | _, _ => Oob
        end in
      match rd P pi with
      | None => Oob
      | Some p0 =>
          if p0 =? 42 then
            match skip_stars (Datatypes.S (length P)) pi plen with
            | None => Oob
            | Some (pi, plen) =>
                if plen =? 1 then Ret true
                else star_loop (Datatypes.S (Z.to_nat slen))
                       (λ si slen, smatch fuel (pi + 1) (plen - 1) si slen) si slen
            end
          else if p0 =? 63 then
            if slen =? 0 then Ret false else next pi plen (si + 1) (slen - 1)
          else if p0 =? 91 then
            match rd P (pi + 1) with
            | None => Oob
            | Some p1 =>
                let not := p1 =? 94 in
                let '(pi, plen) := if not then (pi + 2, plen - 2) else (pi + 1, plen - 1) in
                match bracket (Datatypes.S (length P)) (rd S si) pi plen false with
                | BOob => Oob
                | BNoFuel => NoFuel
                | BDone pi plen m =>
                    if xorb not m then next pi plen (si + 1) (slen - 1) else Ret false
                end
            end
          else if (p0 =? 92) && (plen >=? 2) then literal (pi + 1) (plen - 1)
          else literal pi plen
      end
  end.
End matcher.

(** [stringmatchlen(pattern, patternLen, string, stringLen, nocase)] on two
    buffers that hold a NUL after the counted bytes.  Every round of the outer
    loop consumes a pattern character, so the pattern length bounds it. *)
Definition stringmatchlen (pattern string : list Z) (nocase : bool) : mres :=
  smatch (pattern ++ [0]) (string ++ [0]) nocase (S (S (length pattern)))
    0 (zlen pattern) 0 (zlen string).

Definition stringmatch (pattern string : list Z) (nocase : bool) : mres :=
  stringmatchlen (cstr pattern) (cstr string) nocase.

Example glob1 : stringmatchlen (of_string "h*l?o") (of_string "hello") false = Ret true.
Proof. by vm_compute. Qed.
Example glob2 : stringmatchlen (of_string "h[a-e]llo") (of_string "hillo") false = Ret false.
Proof. by vm_compute. Qed.
Example glob3 : stringmatchlen (of_string "H[^A-E]LLO") (of_string "hillo") true = Ret true.
Proof. by vm_compute. Qed.
Example glob4 : stringmatchlen (of_string "a\*b[]") (of_string "a*bx") false = Ret false.
Proof. by vm_compute. Qed.

(** ** Specification *)

(** The language of a pattern of literals, [?] and [*]. *)
Inductive gmatch (eqc : Z → Z → bool) : list Z → list Z → Prop :=
  | gm_nil : gmatch eqc [] []
  | gm_star p s : gmatch eqc p s → gmatch eqc (42 :: p) s
  | gm_star_more p c s : gmatch eqc (42 :: p) s → gmatch eqc (42 :: p) (c :: s)
  | gm_any p c s : gmatch eqc p s → gmatch eqc (63 :: p) (c :: s)
  | gm_chr a p c s :
      a ≠ 42 → a ≠ 63 → eqc a c = true → gmatch eqc p s → gmatch eqc (a :: p) (c :: s).

(** Equality of characters, with or without case. *)
Definition eq_chr (nocase : bool) (a c : Z) : bool :=
  fold_case nocase (s8 a) =? fold_case nocase (s8 c).

(** A byte that is not NUL, an opening bracket or a backslash. *)
Definition plain (c : Z) : Prop := 0 < c < 256 ∧ c ≠ 91 ∧ c ≠ 92.

Lemma s8_eq a b : 0 ≤ a < 256 → 0 ≤ b < 128 → s8 a = b ↔ a = b.
Proof. intros. wrap_unfold. pow2. Z.div_mod_to_equations. lia. Qed.

Lemma s8_eqb a b : 0 ≤ a < 256 → 0 ≤ b < 128 → (s8 a =? b) = (a =? b).
Proof.
  intros Ha Hb. pose proof (s8_eq a b Ha Hb).
  destruct (Z.eqb_spec (s8 a) b), (Z.eqb_spec a b); tauto.
Qed.

Lemma fold_case_0 nocase a : 0 < a < 256 → fold_case nocase (s8 a) ≠ fold_case nocase (s8 0).
Proof.
  intros Ha. pose proof (s8_eq a 0 ltac:(lia) ltac:(lia)).
  change (s8 0) with 0. unfold fold_case, tolower.
  destruct nocase; [|lia]. simpl.
  destruct (Z.leb_spec 65 (s8 a)), (Z.leb_spec (s8 a) 90); simpl; lia.
Qed.

Lemma rd_app (pre : list Z) c suf i : i = zlen pre → rd (pre ++ c :: suf) i = Some (s8 c).
Proof.
  intros ->. unfold rd. rewrite decide_True by lia.
  by rewrite Nat2Z.id, lookup_app_r, Nat.sub_diag.
Qed.

Lemma gmatch_nil_r eqc p : gmatch eqc p [] ↔ Forall (λ c, c = 42) p.
Proof.
  split.
  - remember [] as s eqn:E. induction 1; simplify_eq; [constructor|]. constructor; auto.
  - induction 1 as [|c p -> _ IH]; constructor. done.
Qed.

Lemma gmatch_star eqc p s :
  gmatch eqc (42 :: p) s ↔ ∃ s1 s2, s = s1 ++ s2 ∧ gmatch eqc p s2.
Proof.
  split.
  - remember (42 :: p) as q eqn:E. induction 1; simplify_eq.
    + by exists [], s.
    + destruct IHgmatch as (s1 & s2 & -> & ?); [done|]. by exists (c :: s1), s2.
  - intros (s1 & s2 & -> & H). induction s1 as [|c s1 IH]; simpl; by constructor.
Qed.

Lemma gmatch_stars eqc p s : gmatch eqc (42 :: 42 :: p) s ↔ gmatch eqc (42 :: p) s.
Proof.
  rewrite gmatch_star. split; [|intros H; by exists [], s].
  intros (s1 & s2 & -> & (s3 & s4 & -> & H)%gmatch_star). apply gmatch_star.
  exists (s1 ++ s3), s4. by rewrite <- app_assoc.
Qed.

Section proof.
Context (nocase : bool).
Local Abbreviation eqc := (eq_chr nocase).

(** The answer [r] is the truth value of [Q]. *)
Definition answers (r : mres) (Q : Prop) : Prop := ∃ b, r = Ret b ∧ (b = true ↔ Q).

Lemma answers_true r Q : r = Ret true → Q → answers r Q.
Proof. intros -> H. by exists true. Qed.
Lemma answers_false r Q : r = Ret false → ¬ Q → answers r Q.
Proof. intros -> H. exists false. naive_solver. Qed.
Lemma answers_iff r Q Q' : answers r Q → (Q ↔ Q') → answers r Q'.
Proof. intros (b & -> & H) H'. exists b. split; [done|]. by rewrite H. Qed.

Lemma skip_stars_spec p fuel pre :
  Forall plain p → (length p < fuel)%nat →
  ∃ pre' p', pre ++ 42 :: p ++ [0] = pre' ++ 42 :: p' ++ [0] ∧
    skip_stars (pre ++ 42 :: p ++ [0]) fuel (zlen pre) (1 + zlen p)
      = Some (zlen pre', 1 + zlen p') ∧
    Forall plain p' ∧ head p' ≠ Some 42 ∧ (length p' ≤ length p)%nat ∧
    ∀ s, gmatch eqc (42 :: p') s ↔ gmatch eqc (42 :: p) s.
Proof.
  revert pre fuel. induction p as [|c p IH]; intros pre fuel Hp Hf;
    destruct fuel as [|fuel]; try (simpl in Hf; lia).
  { exists pre, []. split_and!; try done. cbn [skip_stars app].
    change (pre ++ [42; 0]) with (pre ++ [42] ++ [0]). rewrite app_assoc.
    by rewrite rd_app by (rewrite length_app; simpl; lia). }
  inversion Hp as [|? ? Hc Hp']; subst. cbn [skip_stars].
  change (pre ++ 42 :: (c :: p) ++ [0]) with (pre ++ [42] ++ c :: p ++ [0]). rewrite app_assoc.
  rewrite rd_app by (rewrite length_app; simpl; lia). cbn [mbind option_bind].
  unfold plain in Hc. rewrite s8_eqb by lia. destruct (Z.eqb_spec c 42) as [->|Hne].
  - destruct (IH (pre ++ [42]) fuel Hp') as (pre' & p' & E & Es & H1 & H2 & H3 & H4);
      [simpl in Hf; lia|].
    exists pre', p'. rewrite <- E. split; [done|]. rewrite <- Es.
    split_and!; try done; [|simpl; lia|].
    + f_equal; [rewrite length_app; simpl; lia|simpl; lia].
    + intros s. by rewrite H4, gmatch_stars.
  - exists pre, (c :: p). split_and!; try done; [by rewrite <- app_assoc|].
    simpl. congruence.
Qed.

Lemma trailing_stars_spec p fuel pre :
  Forall plain p → (length p < fuel)%nat →
  answers (trailing_stars (pre ++ p ++ [0]) fuel (zlen pre) (zlen p) 0) (gmatch eqc p []).
Proof.
  revert pre fuel. induction p as [|c p IH]; intros pre fuel Hp Hf;
    destruct fuel as [|fuel]; try (simpl in Hf; lia); cbn [trailing_stars app].
  { rewrite rd_app by done. apply answers_true; [done|constructor]. }
  inversion Hp as [|? ? Hc Hp']; subst. rewrite rd_app by done.
  unfold plain in Hc. rewrite s8_eqb by lia. destruct (Z.eqb_spec c 42) as [->|Hne].
  - change (pre ++ 42 :: p ++ [0]) with (pre ++ [42] ++ p ++ [0]). rewrite app_assoc.
    replace (zlen pre + 1) with (zlen (pre ++ [42])) by (rewrite length_app; simpl; lia).
    replace (zlen (42 :: p) - 1) with (zlen p) by (simpl; lia).
    eapply answers_iff; [apply IH; [done|simpl in Hf; lia]|].
    rewrite !gmatch_nil_r, Forall_cons. tauto.
  - apply answers_false; [simpl; f_equal; apply andb_false_iff; left; apply Z.eqb_neq; lia|].
    rewrite gmatch_nil_r, Forall_cons. tauto.
Qed.

Lemma star_loop_spec s spre rec (Q : list Z → Prop) n :
  (∀ s0 s', s = s0 ++ s' → answers (rec (zlen (spre ++ s0)) (zlen s')) (Q s')) →
  ¬ Q [] → (length s < n)%nat →
  answers (star_loop n rec (zlen spre) (zlen s)) (∃ s1 s2, s = s1 ++ s2 ∧ Q s2).
Proof.
  revert spre n. induction s as [|c s IH]; intros spre n Hrec HQ Hn;
    destruct n as [|n]; try (simpl in Hn; lia); cbn [star_loop].
  { apply answers_false; [done|]. intros (s1 & s2 & E & H).
    symmetry in E. apply app_eq_nil in E as [-> ->]. done. }
  destruct (Z.eqb_spec (zlen (c :: s)) 0) as [E|_]; [simpl in E; lia|].
  destruct (Hrec [] (c :: s) eq_refl) as (b & Eb & Hb). rewrite app_nil_r in Eb.
  rewrite Eb. destruct b.
  { apply answers_true; [done|]. exists [], (c :: s). split; [done|]. by apply Hb. }
  replace (zlen spre + 1) with (zlen (spre ++ [c])) by (rewrite length_app; simpl; lia).
  replace (zlen (c :: s) - 1) with (zlen s) by (simpl; lia).
  eapply answers_iff; [apply IH; [|done|simpl in Hn; lia]|].
  { intros s0 s' ->. rewrite <- app_assoc. by apply (Hrec (c :: s0)). }
  split.
  - intros (s1 & s2 & -> & H). by exists (c :: s1), s2.
  - intros ([|d s1] & s2 & E & H); simplify_eq/=; [|eauto].
    apply Hb in H. done.
Qed.

(** [decides fuel]: with [fuel] the matcher decides the language of every
    remaining pattern shorter than that. *)
Definition decides (fuel : nat) : Prop :=
  ∀ p pre s spre,
  Forall plain p → Forall (λ c, 0 < c < 256) s → (length p < fuel)%nat →
  answers (smatch (pre ++ p ++ [0]) (spre ++ s ++ [0]) nocase fuel
             (zlen pre) (zlen p) (zlen spre) (zlen s)) (gmatch eqc p s).

(** One character of pattern and string consumed. *)
Lemma smatch_next fuel a p pre c s spre :
  decides fuel → Forall plain p → Forall (λ c, 0 < c < 256) s → (length p < fuel)%nat →
  answers (if zlen (c :: s) - 1 =? 0
           then trailing_stars (pre ++ a :: p ++ [0]) (S (length (pre ++ a :: p ++ [0])))
                  (zlen pre + 1) (zlen (a :: p) - 1) (zlen (c :: s) - 1)
           else smatch (pre ++ a :: p ++ [0]) (spre ++ (c :: s) ++ [0]) nocase fuel
                  (zlen pre + 1) (zlen (a :: p) - 1) (zlen spre + 1) (zlen (c :: s) - 1))
    (gmatch eqc p s).
Proof.
  intros IH Hp Hs Hf. change (pre ++ a :: p ++ [0]) with (pre ++ [a] ++ p ++ [0]).
  change (spre ++ (c :: s) ++ [0]) with (spre ++ [c] ++ s ++ [0]). rewrite !app_assoc.
  rewrite <- !(app_assoc (_ ++ [_])).
  replace (zlen pre + 1) with (zlen (pre ++ [a])) by (rewrite length_app; simpl; lia).
  replace (zlen spre + 1) with (zlen (spre ++ [c])) by (rewrite length_app; simpl; lia).
  replace (zlen (a :: p) - 1) with (zlen p) by (simpl; lia).
  replace (zlen (c :: s) - 1) with (zlen s) by (simpl; lia).
  destruct s as [|d s'].
  - apply trailing_stars_spec; [done|]. rewrite !length_app. simpl. lia.
  - destruct (Z.eqb_spec (zlen (d :: s')) 0) as [E|_]; [simpl in E; lia|]. by apply IH.
Qed.

(** The recursive calls behind a star try every suffix of the string. *)
Lemma smatch_star fuel pre p s spre :
  decides fuel → Forall plain p → Forall (λ c, 0 < c < 256) s → (length p < fuel)%nat →
  head p ≠ Some 42 → p ≠ [] →
  answers (star_loop (S (Z.to_nat (zlen s)))
             (smatch (pre ++ 42 :: p ++ [0]) (spre ++ s ++ [0]) nocase fuel
                (zlen pre + 1) (1 + zlen p - 1))
             (zlen spre) (zlen s)) (gmatch eqc (42 :: p) s).
Proof.
  intros IH Hp Hs Hf Hhd Hne. eapply answers_iff; [|symmetry; apply gmatch_star].
  apply (star_loop_spec s spre _ (gmatch eqc p)).
  - intros s0 s' Es0. rewrite Es0, <- app_assoc, (app_assoc spre s0).
    change (pre ++ 42 :: p ++ [0]) with (pre ++ [42] ++ p ++ [0]). rewrite (app_assoc pre).
    replace (zlen pre + 1) with (zlen (pre ++ [42])) by (rewrite length_app; simpl; lia).
    replace (1 + zlen p - 1) with (zlen p) by lia.
    apply IH; [done| |done]. rewrite Es0 in Hs. by apply Forall_app in Hs as [_ ?].
  - rewrite gmatch_nil_r. intros HF. destruct p as [|x p]; [done|].
    inversion HF; subst. by apply Hhd.
  - lia.
Qed.

(** The matcher decides the language of the remaining pattern. *)
Lemma smatch_spec fuel : decides fuel.
Proof.
  induction fuel as [|fuel IH]; intros p pre s spre Hp Hs Hf; [lia|].
  cbn [smatch]. destruct p as [|a p].
  { destruct s as [|c s]; [apply answers_true; [done|constructor]|].
    apply answers_false; [done|]. intros H. inversion H. }
  destruct (Z.eqb_spec (zlen (a :: p)) 0) as [E|_]; [simpl in E; lia|].
  inversion Hp as [|? ? Ha Hp']; subst. unfold plain in Ha. cbn [app]. simpl in Hf.
  rewrite rd_app by done. rewrite !s8_eqb by lia.
  destruct (Z.eqb_spec a 42) as [->|H42].
  { destruct (skip_stars_spec p (S (length (pre ++ 42 :: p ++ [0]))) pre Hp')
      as (pre' & p' & E & Es & Hpl & Hhd & Hle & Hg).
    { rewrite !length_app. simpl. rewrite length_app. lia. }
    replace (zlen (42 :: p)) with (1 + zlen p) by (simpl; lia). rewrite Es, E.
    eapply answers_iff; [|apply Hg].
    destruct (Z.eqb_spec (1 + zlen p') 1) as [E1|E1].
    { apply answers_true; [done|]. destruct p'; [|simpl in E1; lia].
      apply gmatch_star. exists s, []. split; [by rewrite app_nil_r|constructor]. }
    apply smatch_star; try done; [lia|]. intros ->. by apply E1. }
  destruct (Z.eqb_spec a 63) as [->|H63].
  { destruct s as [|c s].
    - apply answers_false; [done|]. intros H. inversion H; congruence.
    - destruct (Z.eqb_spec (zlen (c :: s)) 0) as [E|_]; [simpl in E; lia|]. inversion Hs; subst.
      eapply answers_iff; [apply smatch_next; done || lia|]. split; [by constructor|].
      intros H. inversion H; congruence. }
  destruct (Z.eqb_spec a 91); [lia|]. destruct (Z.eqb_spec a 92); [lia|]. cbn [andb].
  destruct s as [|c s].
  - cbn [app]. rewrite rd_app by done.
    destruct (Z.eqb_spec (fold_case nocase (s8 a)) (fold_case nocase (s8 0))) as [E|_].
    { by destruct (fold_case_0 nocase a ltac:(lia) E). }
    apply answers_false; [done|]. intros H. inversion H; congruence.
  - cbn [app]. rewrite rd_app by done. inversion Hs; subst.
    destruct (fold_case nocase (s8 a) =? fold_case nocase (s8 c)) eqn:Eq.
    + eapply answers_iff; [apply smatch_next; done || lia|]. split; [by constructor|].
      intros H. inversion H; congruence.
    + apply answers_false; [done|]. intros H. inversion H; subst; try congruence.
      unfold eq_chr in *. congruence.
Qed.
End proof.

(** ** Properties *)



(** A negated class consumes a character even of an empty string: the
    remaining length becomes negative and the next class reads past the
    terminator of the string; an escape at the end of an unterminated class
    reads past the terminator of the pattern. *)
Theorem stringmatchlen_out_of_bounds :
  stringmatchlen (of_string "[^a][^a]") [] false = Oob ∧
  stringmatchlen (of_string "[\") (of_string "a") false = Oob.
Proof. split; by vm_compute. Qed.
