(* ===== verification/Intset.v ===== *)
(** * Integer sets ([redis-3.2/src/intset.c])

    An [intset] is a header and an array of 2-, 4- or 8-byte integers in
    increasing order, all of the same width; the width grows when a value
    does not fit.  The array is modelled by its bytes: every access, move and
    reallocation is the one of the C code, on a little-endian host (the
    [...ifbe] macros of [endianconv.h] are the identity).  Bytes a
    reallocation adds are the arbitrary function [junk]. *)

From S2P Require Import Prelude.

Definition INTSET_ENC_INT16 : Z := 2.
Definition INTSET_ENC_INT32 : Z := 4.
Definition INTSET_ENC_INT64 : Z := 8.

Record intset := mk_intset { encoding : Z; len : Z; contents : list Z }.

Definition set_contents (s : intset) (m : list Z) : intset :=
  mk_intset (encoding s) (len s) m.
Definition set_len (s : intset) (n : Z) : intset :=
  mk_intset (encoding s) n (contents s).
Definition set_encoding (s : intset) (e : Z) : intset :=
  mk_intset e (len s) (contents s).

(** ** Operations *)

Definition _intsetValueEncoding (v : Z) : Z :=
  if (v <? - 2 ^ 31) || (v >? 2 ^ 31 - 1) then INTSET_ENC_INT64
  else if (v <? - 2 ^ 15) || (v >? 2 ^ 15 - 1) then INTSET_ENC_INT32
  else INTSET_ENC_INT16.

Definition _intsetGetEncoded (s : intset) (pos enc : Z) : option Z :=
  if enc =? INTSET_ENC_INT64 then
    v64 ← mread (contents s) (pos * 8) 8; Some (s64 (le_val v64))
  else if enc =? INTSET_ENC_INT32 then
    v32 ← mread (contents s) (pos * 4) 4; Some (s32 (le_val v32))
  else
    v16 ← mread (contents s) (pos * 2) 2; Some (s16 (le_val v16)).

Definition _intsetGet (s : intset) (pos : Z) : option Z :=
  _intsetGetEncoded s pos (u8 (encoding s)).

Definition _intsetSet (s : intset) (pos value : Z) : option intset :=
  if encoding s =? INTSET_ENC_INT64 then
    m ← mwrite (contents s) (pos * 8) (le_bytes 8 value); Some (set_contents s m)
  else if encoding s =? INTSET_ENC_INT32 then
    m ← mwrite (contents s) (pos * 4) (le_bytes 4 (s32 value)); Some (set_contents s m)
  else
    m ← mwrite (contents s) (pos * 2) (le_bytes 2 (s16 value)); Some (set_contents s m).

Definition intsetNew : intset := mk_intset INTSET_ENC_INT16 0 [].

(** The size is a [uint32_t] product. *)
Definition intsetResize (junk : nat → Z) (s : intset) (n : Z) : intset :=
  let size := u32 (n * encoding s) in
  set_contents s (zrealloc junk (contents s) size).

(** The binary search loop; the state is [min], [max], [mid] and [cur]. *)
Fixpoint search_loop (fuel : nat) (s : intset) (value min max mid cur : Z)
  : option (Z * Z * Z) :=
  match fuel with
  | O => None
  | S fuel =>
      if max >=? min then
        let mid := Z.shiftr (u32 (u32 min + u32 max)) 1 in
        cur ← _intsetGet s mid;
        if value >? cur then search_loop fuel s value (mid + 1) max mid cur
        else if value <? cur then search_loop fuel s value min (mid - 1) mid cur
        else Some (min, mid, cur)
      else Some (min, mid, cur)
  end.

(** [intsetSearch(is, value, &pos)]: found or not, and the position. *)
Definition intsetSearch (s : intset) (value : Z) : option (bool * Z) :=
  if len s =? 0 then Some (false, 0) else
  last ← _intsetGet s (len s - 1);
  if value >? last then Some (false, len s) else
  first ← _intsetGet s 0;
  if value <? first then Some (false, 0) else
  '(min, mid, cur) ← search_loop (S (Z.to_nat (len s))) s value 0 (len s - 1) (-1) (-1);
  if value =? cur then Some (true, mid) else Some (false, min).

(** [while(length--) _intsetSet(...)]. *)
Fixpoint upgrade_loop (length : nat) (prepend curenc : Z) (s : intset) : option intset :=
  match length with
  | O => Some s
  | S length =>
      v ← _intsetGetEncoded s (Z.of_nat length) curenc;
      s ← _intsetSet s (Z.of_nat length + prepend) v;
      upgrade_loop length prepend curenc s
  end.

Definition intsetUpgradeAndAdd (junk : nat → Z) (s : intset) (value : Z) : option intset :=
  let curenc := u8 (encoding s) in
  let newenc := _intsetValueEncoding value in
  let length := len s in
  let prepend := if value <? 0 then 1 else 0 in
  let s := set_encoding s newenc in
  let s := intsetResize junk s (u32 (len s + 1)) in
  s ← upgrade_loop (Z.to_nat length) prepend curenc s;
  s ← (if prepend =? 1 then _intsetSet s 0 value else _intsetSet s (len s) value);
  Some (set_len s (u32 (len s + 1))).

Definition intsetMoveTail (s : intset) (from to : Z) : option intset :=
  let bytes := u32 (len s - from) in
  let size := if encoding s =? INTSET_ENC_INT64 then 8
              else if encoding s =? INTSET_ENC_INT32 then 4 else 2 in
  m ← memmove (contents s) (to * size) (from * size) (u32 (bytes * size));
  Some (set_contents s m).

(** [intsetAdd(is, value, &success)]. *)
Definition intsetAdd (junk : nat → Z) (s : intset) (value : Z) : option (intset * bool) :=
  let valenc := _intsetValueEncoding value in
  if valenc >? encoding s then
    s ← intsetUpgradeAndAdd junk s value; Some (s, true)
  else
    '(found, pos) ← intsetSearch s value;
    if found : bool then Some (s, false) else
    let s := intsetResize junk s (u32 (len s + 1)) in
    s ← (if pos <? len s then intsetMoveTail s pos (pos + 1) else Some s);
    s ← _intsetSet s pos value;
    Some (set_len s (u32 (len s + 1)), true).

(** [intsetRemove(is, value, &success)]. *)
Definition intsetRemove (junk : nat → Z) (s : intset) (value : Z) : option (intset * bool) :=
  let valenc := _intsetValueEncoding value in
  if negb (valenc <=? encoding s) then Some (s, false) else
  '(found, pos) ← intsetSearch s value;
  if negb found then Some (s, false) else
  let n := len s in
  s ← (if pos <? u32 (n - 1) then intsetMoveTail s (pos + 1) pos else Some s);
  let s := intsetResize junk s (u32 (n - 1)) in
  Some (set_len s (u32 (n - 1)), true).

Definition intsetFind (s : intset) (value : Z) : option bool :=
  let valenc := _intsetValueEncoding value in
  if negb (valenc <=? encoding s) then Some false else
  '(found, _) ← intsetSearch s value; Some found.

(** [rand()] is the argument [r]; an empty set divides by zero. *)
Definition intsetRandom (r : Z) (s : intset) : option Z :=
  if len s =? 0 then None else _intsetGet s (r mod len s).

Definition intsetGet (s : intset) (pos : Z) : option (option Z) :=
  if pos <? len s then v ← _intsetGet s pos; Some (Some v) else Some None.

Definition intsetLen (s : intset) : Z := len s.

(** [sizeof(intset)] is 8. *)
Definition intsetBlobLen (s : intset) : Z := 8 + u32 (len s * encoding s).

(** ** Representation *)

Definition enc_ok (e : Z) : Prop := e = 2 ∨ e = 4 ∨ e = 8.
Definition in_enc (e v : Z) : Prop := in_s (8 * e) v.

(** The bytes of a list of integers of width [e]. *)
Definition encs (e : Z) (xs : list Z) : list Z := concat (le_bytes (Z.to_nat e) <$> xs).

(** [s] stands for the increasing list [xs]. *)
Record repr (s : intset) (xs : list Z) : Prop := {
  r_enc : enc_ok (encoding s);
  r_len : len s = zlen xs;
  r_bytes : contents s = encs (encoding s) xs;
  r_range : Forall (in_enc (encoding s)) xs;
  r_sorted : StronglySorted Z.lt xs
}.

(** The sizes the code computes fit their 32-bit types. *)
Definition fits (n : Z) : Prop := n * 8 < 2 ^ 32.

Lemma encs_app e xs ys : encs e (xs ++ ys) = encs e xs ++ encs e ys.
Proof. unfold encs. by rewrite fmap_app, concat_app. Qed.

Lemma encs_cons e x xs : encs e (x :: xs) = le_bytes (Z.to_nat e) x ++ encs e xs.
Proof. done. Qed.

Lemma length_encs e xs : 0 ≤ e → zlen (encs e xs) = e * zlen xs.
Proof.
  intros He. induction xs as [|x xs IH]; [simpl; lia|].
  rewrite encs_cons, length_app, length_le_bytes, Nat2Z.inj_add, IH. simpl. lia.
Qed.

(** Reading and writing one element, for the three widths at once. *)
Lemma get_encoded_eq s pos e :
  enc_ok e → _intsetGetEncoded s pos e =
    (b ← mread (contents s) (pos * e) e; Some (wraps (8 * e) (le_val b))).
Proof. intros [->|[->| ->]]; done. Qed.

Lemma le_bytes_wraps (n : nat) v : (0 < n)%nat → le_bytes n (wraps (8 * Z.of_nat n) v) = le_bytes n v.
Proof.
  intros Hn. rewrite <- le_bytes_wrapu, wrapu_wraps by lia. apply le_bytes_wrapu.
Qed.

Lemma intsetSet_eq s pos v :
  enc_ok (encoding s) → _intsetSet s pos v =
    (m ← mwrite (contents s) (pos * encoding s) (le_bytes (Z.to_nat (encoding s)) v);
     Some (set_contents s m)).
Proof.
  unfold _intsetSet. intros [->|[->| ->]]; simpl Z.eqb; cbv iota; [| |done].
  - by rewrite (le_bytes_wraps 2) by lia.
  - by rewrite (le_bytes_wraps 4) by lia.
Qed.

Lemma u8_enc e : enc_ok e → u8 e = e.
Proof. intros [->|[->| ->]]; done. Qed.

Lemma get_at s e a x b rest pos :
  enc_ok e → in_enc e x → contents s = encs e a ++ le_bytes (Z.to_nat e) x ++ rest →
  pos = zlen a → b = e → _intsetGetEncoded s pos b = Some x.
Proof.
  intros He Hx Hc -> ->. rewrite get_encoded_eq, Hc by done.
  assert (0 < e) by (unfold enc_ok in He; lia).
  rewrite mread_app.
  - cbn [mbind option_bind]. f_equal. rewrite le_val_bytes, Z2Nat.id by lia.
    rewrite wraps_wrapu by lia. apply wraps_id; [lia|done].
  - rewrite length_encs by lia. lia.
  - rewrite length_le_bytes. lia.
Qed.

Lemma get_lookup s xs i x :
  repr s xs → xs !! i = Some x → _intsetGet s (Z.of_nat i) = Some x.
Proof.
  intros [He Hl Hb Hr _] Hi. unfold _intsetGet. rewrite u8_enc by done.
  eapply (get_at s (encoding s) (take i xs) x); try done.
  - rewrite Forall_lookup in Hr. eauto.
  - rewrite Hb, <- (take_drop_middle xs i x Hi) at 1. by rewrite encs_app, encs_cons.
  - apply lookup_lt_Some in Hi. rewrite length_take. lia.
Qed.

(** ** Search *)

Lemma sorted_lookup_lt xs i j x y :
  StronglySorted Z.lt xs → xs !! i = Some x → xs !! j = Some y → (i < j)%nat → x < y.
Proof.
  intros Hs. revert i j. induction Hs as [|a xs Hs IH Ha]; intros [|i] [|j] Hi Hj Hij;
    simplify_eq/=; try lia.
  - rewrite Forall_lookup in Ha. eauto.
  - apply (IH i j); [done|done|lia].
Qed.

(** The result of a search for [v] in [xs]. *)
Definition search_post (xs : list Z) (v : Z) (found : bool) (pos : Z) : Prop :=
  if found then 0 ≤ pos ∧ xs !! Z.to_nat pos = Some v
  else 0 ≤ pos ≤ zlen xs ∧
    ∀ i x, xs !! i = Some x → if decide (Z.of_nat i < pos) then x < v else v < x.

Lemma mid_eq min max :
  0 ≤ min ≤ max → max < 2 ^ 31 →
  Z.shiftr (u32 (u32 min + u32 max)) 1 = (min + max) / 2.
Proof.
  intros H1 H2. pow2. unfold u32.
  rewrite (wrapu_id 32 min), (wrapu_id 32 max), wrapu_id by (unfold in_u; pow2; lia).
  by rewrite Z.shiftr_div_pow2.
Qed.

Lemma search_loop_spec fuel s xs v min max mid cur :
  repr s xs → zlen xs < 2 ^ 31 →
  0 ≤ min → max < zlen xs → max - min + 1 < Z.of_nat fuel → min ≤ max + 1 →
  (∀ i x, xs !! i = Some x → Z.of_nat i < min → x < v) →
  (∀ i x, xs !! i = Some x → max < Z.of_nat i → v < x) →
  (max < min → cur ≠ v) →
  ∃ min' mid' cur', search_loop fuel s v min max mid cur = Some (min', mid', cur') ∧
    (cur' = v ∧ search_post xs v true mid' ∨ cur' ≠ v ∧ search_post xs v false min').
Proof.
  intros Hr Hlen. revert min max mid cur. induction fuel as [|fuel IH];
    intros min max mid cur H0 Hmax Hf Hmm Hlo Hhi Hcur; [lia|].
  cbn [search_loop]. rewrite Z.geb_leb. destruct (Z.leb_spec min max) as [Hle|Hgt].
  2: { do 3 eexists. split; [done|]. right. split; [by apply Hcur|].
       split; [lia|]. intros i x Hi. case_decide; [eauto|]. apply (Hhi i x Hi). lia. }
  rewrite mid_eq by lia. set (m := (min + max) / 2).
  assert (min ≤ m ≤ max) as Hm by (subst m; Z.div_mod_to_equations; lia).
  destruct (lookup_lt_is_Some_2 xs (Z.to_nat m)) as [c Hc]; [lia|].
  pose proof (get_lookup s xs _ c Hr Hc) as Hg. rewrite Z2Nat.id in Hg by lia.
  rewrite Hg. cbn [mbind option_bind]. rewrite Z.gtb_ltb.
  pose proof (λ i j x y, sorted_lookup_lt xs i j x y (r_sorted _ _ Hr)) as Hsort.
  destruct (Z.ltb_spec c v).
  { apply IH; [lia|lia|lia|lia| |done|lia]. intros i x Hi Hlt.
    destruct (decide (i = Z.to_nat m)) as [->|]; [by simplify_eq|].
    pose proof (Hsort i (Z.to_nat m) x c Hi Hc). lia. }
  destruct (Z.ltb_spec v c).
  { apply IH; [lia|lia|lia|lia|done| |lia]. intros i x Hi Hlt.
    destruct (decide (i = Z.to_nat m)) as [->|]; [by simplify_eq|].
    pose proof (Hsort (Z.to_nat m) i c x Hc Hi). lia. }
  do 3 eexists. split; [done|]. left. assert (c = v) as -> by lia. split; [done|].
  split; [lia|done].
Qed.

Lemma intsetSearch_spec s xs v :
  repr s xs → zlen xs < 2 ^ 31 →
  ∃ found pos, intsetSearch s v = Some (found, pos) ∧ search_post xs v found pos.
Proof.
  intros Hr Hlen. unfold intsetSearch. pose proof (r_len _ _ Hr) as Hl. rewrite Hl.
  destruct (Z.eqb_spec (zlen xs) 0) as [E|E].
  { do 2 eexists. split; [done|]. destruct xs; [|simpl in E; lia].
    split; [simpl; lia|]. intros i x Hi. by rewrite lookup_nil in Hi. }
  destruct (lookup_lt_is_Some_2 xs (length xs - 1)) as [z Hz]; [lia|].
  destruct (lookup_lt_is_Some_2 xs 0) as [a Ha]; [lia|].
  pose proof (get_lookup s xs _ z Hr Hz) as Hgz.
  replace (Z.of_nat (length xs - 1)) with (zlen xs - 1) in Hgz by lia.
  pose proof (get_lookup s xs _ a Hr Ha) as Hga. change (Z.of_nat 0) with 0 in Hga.
  pose proof (λ i j x y, sorted_lookup_lt xs i j x y (r_sorted _ _ Hr)) as Hsort.
  rewrite Hgz. cbn [mbind option_bind]. rewrite Z.gtb_ltb.
  destruct (Z.ltb_spec z v).
  { do 2 eexists. split; [done|]. split; [lia|]. intros i x Hi.
    apply lookup_lt_Some in Hi as Hi'. rewrite decide_True by lia.
    destruct (decide (i = (length xs - 1)%nat)) as [->|]; [by simplify_eq|].
    pose proof (Hsort i _ x z Hi Hz). lia. }
  rewrite Hga. cbn [mbind option_bind]. destruct (Z.ltb_spec v a).
  { do 2 eexists. split; [done|]. split; [lia|]. intros i x Hi.
    rewrite decide_False by lia. destruct i as [|i]; [by simplify_eq|].
    pose proof (Hsort 0%nat (S i) a x Ha Hi). lia. }
  destruct (search_loop_spec (S (Z.to_nat (zlen xs))) s xs v 0 (zlen xs - 1) (-1) (-1))
    as (min & mid & cur & -> & Hpost); try lia; try done.
  { intros i x Hi. apply lookup_lt_Some in Hi. lia. }
  cbn [mbind option_bind].
  destruct Hpost as [[-> Hp]|[Hne Hp]].
  - rewrite Z.eqb_refl. eauto.
  - destruct (Z.eqb_spec v cur); [congruence|]. eauto.
Qed.

(** ** Encodings *)

Lemma value_encoding_ok v : enc_ok (_intsetValueEncoding v).
Proof. unfold _intsetValueEncoding, enc_ok. repeat case_match; auto. Qed.

(** The encoding chosen for a value is the smallest that holds it. *)
Lemma value_encoding_le e v :
  enc_ok e → in_s 64 v → _intsetValueEncoding v ≤ e ↔ in_enc e v.
Proof.
  intros He Hv. unfold in_enc, in_s, _intsetValueEncoding,
    INTSET_ENC_INT64, INTSET_ENC_INT32, INTSET_ENC_INT16 in *.
  destruct He as [->|[->| ->]];
    repeat match goal with |- context [2 ^ (8 * ?e - 1)] =>
      let n := eval vm_compute in (8 * e - 1) in change (8 * e - 1) with n end; pow2;
    rewrite !Z.gtb_ltb;
    repeat match goal with |- context [?a <? ?b] => destruct (Z.ltb_spec a b) end;
    simpl; lia.
Qed.

Lemma in_enc_mono e e' v : enc_ok e → enc_ok e' → e ≤ e' → in_enc e v → in_enc e' v.
Proof.
  intros He He' Hle. unfold in_enc, in_s.
  destruct He as [->|[->| ->]], He' as [->|[->| ->]]; try lia;
    repeat match goal with |- context [2 ^ (8 * ?e - 1)] =>
      let n := eval vm_compute in (8 * e - 1) in change (8 * e - 1) with n end; pow2; lia.
Qed.

(** ** Insertion into a sorted list *)

Lemma sorted_app (xs ys : list Z) :
  StronglySorted Z.lt (xs ++ ys) ↔
  StronglySorted Z.lt xs ∧ StronglySorted Z.lt ys ∧ ∀ x y, x ∈ xs → y ∈ ys → x < y.
Proof.
  induction xs as [|a xs IH]; simpl.
  { split; [|naive_solver]. intros H. split_and!; [constructor|done|].
    intros x y Hx. by apply elem_of_nil in Hx. }
  split.
  - intros H. apply StronglySorted_inv in H as [H Ha]. apply IH in H as (H1 & H2 & H3).
    rewrite Forall_app, !Forall_forall in Ha. destruct Ha as [Ha1 Ha2].
    split_and!; [constructor; [done|by apply Forall_forall]|done|].
    intros x y [->|Hx]%elem_of_cons Hy; eauto.
  - intros (H1 & H2 & H3). apply StronglySorted_inv in H1 as [H1 Ha].
    constructor.
    + apply IH. split_and!; [done|done|]. intros x y Hx Hy. apply H3; [set_solver|done].
    + apply Forall_app. split; [done|]. apply Forall_forall. intros y Hy.
      apply H3; [set_solver|done].
Qed.

Lemma sorted_insert (a b : list Z) v :
  StronglySorted Z.lt (a ++ b) → (∀ x, x ∈ a → x < v) → (∀ x, x ∈ b → v < x) →
  StronglySorted Z.lt (a ++ v :: b).
Proof.
  rewrite !sorted_app. intros (Ha & Hb & Hab) Hav Hvb. split_and!; [done| |].
  - constructor; [done|]. by apply Forall_forall.
  - intros x y Hx [->|Hy]%elem_of_cons; eauto.
Qed.

(** A failed search splits the list around the insertion point. *)
Lemma search_split xs v pos :
  search_post xs v false pos →
  ∃ a b, xs = a ++ b ∧ pos = zlen a ∧ (∀ x, x ∈ a → x < v) ∧ (∀ x, x ∈ b → v < x).
Proof.
  intros [Hpos H]. exists (take (Z.to_nat pos) xs), (drop (Z.to_nat pos) xs).
  split_and!; [by rewrite take_drop|rewrite length_take; lia|..]; intros x [i Hi]%list_elem_of_lookup.
  - apply lookup_take_Some in Hi as [Hi Hlt]. specialize (H i x Hi).
    rewrite decide_True in H by lia. done.
  - rewrite lookup_drop in Hi. specialize (H _ x Hi). rewrite decide_False in H by lia. done.
Qed.

Lemma search_found xs v pos :
  search_post xs v true pos → ∃ a b, xs = a ++ v :: b ∧ pos = zlen a.
Proof.
  intros [Hpos H]. exists (take (Z.to_nat pos) xs), (drop (S (Z.to_nat pos)) xs).
  split; [by rewrite take_drop_middle|]. apply lookup_lt_Some in H. rewrite length_take. lia.
Qed.

Lemma search_not_in xs v pos : search_post xs v false pos → v ∉ xs.
Proof.
  intros (a & b & -> & _ & Ha & Hb)%search_split [Hx|Hx]%elem_of_app;
    [apply Ha in Hx|apply Hb in Hx]; lia.
Qed.

(** ** The operations on represented sets *)

Lemma enc_bounds e : enc_ok e → 0 < e ≤ 8.
Proof. unfold enc_ok. lia. Qed.

Lemma move_size e :
  enc_ok e → (if e =? INTSET_ENC_INT64 then 8 else if e =? INTSET_ENC_INT32 then 4 else 2) = e.
Proof. intros [->|[->| ->]]; done. Qed.

Lemma resize_bytes junk s n :
  enc_ok (encoding s) → 0 ≤ n → fits n →
  contents (intsetResize junk s n) = zrealloc junk (contents s) (n * encoding s).
Proof.
  intros He%enc_bounds Hn Hf. unfold intsetResize, fits in *. simpl.
  unfold u32. rewrite wrapu_id; [done|]. unfold in_u. pow2. nia.
Qed.

Lemma u32_small z : 0 ≤ z < 2 ^ 32 → u32 z = z.
Proof. apply wrapu_id. Qed.

(** The fields [encoding] and [len] through the writers. *)
Lemma move_tail_at s a b r e dst :
  enc_ok (encoding s) → contents s = r → len s = zlen a + zlen b → fits (len s) →
  r = encs (encoding s) a ++ encs (encoding s) b ++ e → zlen e = encoding s →
  dst = zlen a + 1 →
  ∃ x, length x = length e ∧
    intsetMoveTail s (zlen a) dst =
      Some (set_contents s (encs (encoding s) a ++ x ++ encs (encoding s) b)).
Proof.
  intros He Hc Hl Hf -> Hx ->. pose proof (enc_bounds _ He). unfold fits in Hf. pow2.
  exists (take (length e) (encs (encoding s) b ++ e)). split.
  { rewrite length_take, length_app. lia. }
  unfold intsetMoveTail. rewrite move_size, Hc, Hl by done.
  rewrite (u32_small (_ - _)), u32_small by (pow2; nia).
  rewrite memmove_right by (rewrite ?length_encs by lia; lia). done.
Qed.

Lemma add_in_place junk s a b v :
  repr s (a ++ b) → fits (len s + 1) → in_enc (encoding s) v →
  (∀ x, x ∈ a → x < v) → (∀ x, x ∈ b → v < x) →
  ∃ s', (let s0 := intsetResize junk s (u32 (len s + 1)) in
         s1 ← (if zlen a <? len s0 then intsetMoveTail s0 (zlen a) (zlen a + 1) else Some s0);
         s2 ← _intsetSet s1 (zlen a) v; Some (set_len s2 (u32 (len s2 + 1)), true))
        = Some (s', true) ∧ repr s' (a ++ v :: b).
Proof.
  intros [He Hl Hb Hr Hs] Hf Hv Ha Hbv. pose proof (enc_bounds _ He) as Hee.
  rewrite length_app in Hl. pose proof Hf as Hf'. unfold fits in Hf'. pow2.
  rewrite (u32_small (len s + 1)) by (pow2; lia). cbv zeta.
  pose proof (resize_bytes junk s (len s + 1) He ltac:(lia) Hf) as Hc.
  set (s0 := intsetResize junk s (len s + 1)) in *.
  assert (encoding s0 = encoding s ∧ len s0 = len s) as [E1 E2] by done.
  rewrite Hb, encs_app in Hc.
  destruct (zrealloc_grow junk (encs (encoding s) a ++ encs (encoding s) b)
    ((len s + 1) * encoding s)) as (e & Hg & Hge).
  { rewrite length_app, Nat2Z.inj_add, !length_encs by lia. lia. }
  rewrite Hg, <- app_assoc in Hc.
  rewrite length_app, Nat2Z.inj_add, !length_encs in Hge by lia.
  assert (∃ x, length x = length e ∧
    (if zlen a <? len s0 then intsetMoveTail s0 (zlen a) (zlen a + 1) else Some s0)
    = Some (set_contents s0 (encs (encoding s) a ++ x ++ encs (encoding s) b)))
    as (x & Hx & ->).
  { destruct (Z.ltb_spec (zlen a) (len s0)).
    - rewrite <- E1. eapply move_tail_at; rewrite ?E1, ?E2; try done; try lia.
      unfold fits in *. pow2. lia.
    - destruct b; [|simpl in *; lia]. exists e. split; [done|].
      change (encs (encoding s) []) with (@nil Z) in *. cbn [app] in Hc.
      rewrite app_nil_r, <- Hc. by destruct s0. }
  cbn [mbind option_bind]. rewrite intsetSet_eq by done. cbn [contents set_contents encoding].
  rewrite E1, mwrite_app; cycle 1.
  { rewrite length_encs by lia. lia. }
  { rewrite length_le_bytes. lia. }
  cbn [mbind option_bind]. eexists. split; [done|]. split; simpl; try done.
  - rewrite u32_small by (pow2; lia). rewrite Hl, length_app. simpl. lia.
  - by rewrite encs_app, encs_cons.
  - apply Forall_app in Hr as [Hra Hrb]. apply Forall_app. split; [done|]. by constructor.
  - by apply sorted_insert.
Qed.

(** The invariant of the upgrade loop: the first [k] elements still have the
    old width [c], the others already have the new one. *)
Lemma upgrade_loop_spec (k : nat) p c s xs ys t :
  enc_ok c → enc_ok (encoding s) → c ≤ encoding s → 0 ≤ p ≤ 1 → k = length xs →
  Forall (in_enc c) xs →
  ∀ h, contents s = encs c xs ++ h ++ encs (encoding s) ys ++ t →
  zlen h = (Z.of_nat k + p) * encoding s - Z.of_nat k * c →
  ∃ h', upgrade_loop k p c s =
    Some (set_contents s (h' ++ encs (encoding s) (xs ++ ys) ++ t)) ∧
    zlen h' = p * encoding s.
Proof.
  intros Hc Hn Hle Hp Hk Hr. revert k Hk s ys Hn Hle Hr.
  induction xs as [|x xs IH] using rev_ind; intros k -> s ys Hn Hle Hr h Hm Hh.
  { exists h. simpl. split; [|simpl in Hh; lia]. simpl in Hm. rewrite <- Hm. by destruct s. }
  pose proof (enc_bounds _ Hc). pose proof (enc_bounds _ Hn).
  apply Forall_app in Hr as [Hr [Hx _]%Forall_cons].
  rewrite length_app in *. simpl in *. rewrite Nat.add_comm in *. cbn [upgrade_loop Nat.add].
  rewrite encs_app, encs_cons in Hm. unfold encs at 2 in Hm. simpl in Hm.
  rewrite app_nil_r, <- !app_assoc in Hm.
  rewrite (get_at s c xs x _ _ _ Hc Hx Hm eq_refl eq_refl). cbn [mbind option_bind].
  rewrite intsetSet_eq by done.
  set (q := le_bytes (Z.to_nat c) x ++ h).
  set (d := Z.to_nat ((zlen xs + p) * encoding s - zlen xs * c)).
  assert (0 ≤ (zlen xs + p) * encoding s - zlen xs * c) by nia.
  assert (zlen q = c + zlen h) as Hq.
  { unfold q. rewrite length_app, length_le_bytes. lia. }
  assert (contents s = (encs c xs ++ take d q) ++ drop d q ++ (encs (encoding s) ys ++ t)) as E.
  { rewrite Hm, <- app_assoc, (app_assoc (take d q)), take_drop. unfold q.
    by rewrite <- app_assoc. }
  rewrite E, mwrite_app; cycle 1.
  { rewrite length_app, Nat2Z.inj_add, length_encs, length_take by lia. subst d. nia. }
  { rewrite length_drop, length_le_bytes. subst d. nia. }
  cbn [mbind option_bind]. rewrite <- app_assoc.
  destruct (IH (length xs) eq_refl
    (set_contents s (encs c xs ++ take d q ++ le_bytes (Z.to_nat (encoding s)) x ++
       encs (encoding s) ys ++ t)) (x :: ys) Hn Hle Hr (take d q))
    as (h' & Hu & Hh').
  - cbn [contents set_contents encoding]. by rewrite encs_cons, <- app_assoc.
  - simpl. rewrite length_take. subst d. nia.
  - exists h'. split; [|done]. rewrite Hu. by rewrite <- (app_assoc xs [x] ys).
Qed.

Lemma upgrade_and_add junk s xs v :
  repr s xs → fits (len s + 1) → in_s 64 v → ~ in_enc (encoding s) v →
  ∃ s', intsetUpgradeAndAdd junk s v = Some s' ∧
    repr s' (if v <? 0 then v :: xs else xs ++ [v]).
Proof.
  intros [He Hl Hb Hr Hs] Hf Hv Hout. pose proof (enc_bounds _ He).
  set (n := _intsetValueEncoding v).
  assert (enc_ok n) as Hn by apply value_encoding_ok. pose proof (enc_bounds _ Hn).
  assert (in_enc n v) as Hvn by (apply value_encoding_le; [done|done|subst n; lia]).
  assert (encoding s < n) as Hlt.
  { rewrite <- value_encoding_le in Hout by done. subst n. lia. }
  assert (Forall (in_enc n) xs) as Hrn.
  { eapply Forall_impl; [done|]. intros x. apply in_enc_mono; [done|done|lia]. }
  assert (∀ x, x ∈ xs → if v <? 0 then v < x else x < v) as Hend.
  { intros x Hx. rewrite Forall_forall in Hr. specialize (Hr x Hx).
    unfold in_enc, in_s in *. case_match; lia. }
  pose proof Hf as Hf'. unfold fits in Hf'. pow2.
  unfold intsetUpgradeAndAdd. cbn [len set_encoding]. fold n.
  rewrite u8_enc, (u32_small (len s + 1)) by (done || (pow2; lia)).
  pose proof (resize_bytes junk (set_encoding s n) (len s + 1) Hn ltac:(lia) Hf) as Hc.
  set (s0 := intsetResize junk (set_encoding s n) (len s + 1)) in *.
  assert (encoding s0 = n ∧ len s0 = len s) as [E1 E2] by done.
  cbn [encoding set_encoding contents] in Hc. rewrite Hb in Hc.
  destruct (zrealloc_grow junk (encs (encoding s) xs) ((len s + 1) * n)) as (e & Hg & Hge).
  { rewrite length_encs by lia. nia. }
  rewrite length_encs in Hge by lia. rewrite Hg in Hc.
  set (p := if v <? 0 then 1 else 0).
  assert (0 ≤ p ≤ 1) as Hp by (unfold p; case_match; lia).
  set (d := Z.to_nat ((zlen xs + p) * n - zlen xs * encoding s)).
  assert (0 ≤ (zlen xs + p) * n - zlen xs * encoding s) by nia.
  destruct (upgrade_loop_spec (Z.to_nat (len s)) p (encoding s) s0 xs [] (drop d e))
    with (h := take d e) as (h & -> & Hh); rewrite ?E1; try done; try lia.
  { rewrite Hc. change (encs n []) with (@nil Z). cbn [app]. by rewrite take_drop. }
  { rewrite length_take. subst d. nia. }
  cbn [mbind option_bind]. rewrite app_nil_r, E1 in *.
  assert (zlen (drop d e) = (1 - p) * n) as Ht by (rewrite length_drop; subst d; nia).
  unfold p in *. destruct (Z.ltb_spec v 0).
  - change (1 =? 1) with true. cbv iota. rewrite intsetSet_eq by done.
    cbn [contents set_contents encoding]. rewrite E1.
    destruct (drop d e); [|simpl in Ht; lia]. rewrite app_nil_r.
    rewrite <- (app_nil_l (h ++ _)), mwrite_app;
      [cbn [app]|done|rewrite length_le_bytes; lia].
    cbn [mbind option_bind]. eexists. split; [done|]. split; cbn [len set_len set_contents encoding contents]; rewrite ?E1, ?E2; try done.
    + rewrite u32_small by (pow2; lia). simpl. lia.
    + by constructor.
    + constructor; [done|]. by apply Forall_forall.
  - change (0 =? 1) with false. cbv iota. rewrite intsetSet_eq by done.
    cbn [contents set_contents encoding]. rewrite E1.
    destruct h; [|simpl in Hh; lia]. cbn [app].
    rewrite mwrite_end; [|cbn [len set_contents]; rewrite length_encs by lia; lia
                         |rewrite length_le_bytes; lia].
    cbn [mbind option_bind]. eexists. split; [done|]. split; cbn [len set_len set_contents encoding contents]; rewrite ?E1, ?E2; try done.
    + rewrite u32_small, length_app by (pow2; lia). simpl. lia.
    + rewrite encs_app, encs_cons. by change (encs n []) with (@nil Z); rewrite app_nil_r.
    + apply Forall_app. split; [done|]. by constructor.
    + apply sorted_insert; [by rewrite app_nil_r|done|]. intros x Hx. by apply elem_of_nil in Hx.
Qed.

Lemma repr_empty : repr intsetNew [].
Proof. by split; try constructor. Qed.

Lemma intsetAdd_spec junk s xs v :
  repr s xs → fits (zlen xs + 1) → in_s 64 v →
  ∃ s' ys, intsetAdd junk s v = Some (s', bool_decide (v ∉ xs)) ∧
    repr s' ys ∧ ∀ x, x ∈ ys ↔ x = v ∨ x ∈ xs.
Proof.
  intros Hr Hf Hv. unfold intsetAdd.
  pose proof (r_enc _ _ Hr) as He. pose proof (r_len _ _ Hr) as Hl. rewrite <- Hl in Hf.
  rewrite Z.gtb_ltb. destruct (Z.ltb_spec (encoding s) (_intsetValueEncoding v)) as [Hlt|Hle].
  - assert (~ in_enc (encoding s) v) as Hout by (rewrite <- value_encoding_le by done; lia).
    destruct (upgrade_and_add junk s xs v Hr Hf Hv Hout) as (s' & -> & Hr').
    cbn [mbind option_bind]. eexists _, _. split; [|split; [exact Hr'|]].
    + rewrite bool_decide_true; [done|]. intros Hx. pose proof (r_range _ _ Hr) as Hrr.
      rewrite Forall_forall in Hrr. by apply Hout, Hrr.
    + intros x. case_match; set_solver.
  - apply value_encoding_le in Hle; [|done..].
    destruct (intsetSearch_spec s xs v Hr) as (found & pos & -> & Hp).
    { unfold fits in Hf. pow2. lia. }
    cbn [mbind option_bind]. destruct found.
    + apply search_found in Hp as (a & b & -> & ->). exists s, (a ++ v :: b).
      rewrite bool_decide_false by set_solver. split_and!; [done|done|set_solver].
    + pose proof (search_not_in _ _ _ Hp). apply search_split in Hp as (a & b & -> & -> & Ha & Hb).
      destruct (add_in_place junk s a b v) as (s' & Hs & Hr'); [done..|].
      cbv zeta in Hs |- *. rewrite Hs. exists s', (a ++ v :: b).
      rewrite bool_decide_true by done. split_and!; [done|done|set_solver].
Qed.

Lemma intsetRemove_spec junk s xs v :
  repr s xs → fits (zlen xs) → in_s 64 v →
  ∃ s' ys, intsetRemove junk s v = Some (s', bool_decide (v ∈ xs)) ∧
    repr s' ys ∧ ∀ x, x ∈ ys ↔ x ≠ v ∧ x ∈ xs.
Proof.
  intros Hr Hf Hv. unfold intsetRemove.
  pose proof (r_enc _ _ Hr) as He. pose proof (r_len _ _ Hr) as Hl.
  pose proof (enc_bounds _ He). unfold fits in Hf. pow2.
  destruct (Z.leb_spec (_intsetValueEncoding v) (encoding s)) as [Hle|Hlt]; cbn [negb].
  2:{ assert (v ∉ xs) as Hn.
      { intros Hx. pose proof (r_range _ _ Hr) as Hrr. rewrite Forall_forall in Hrr.
        apply Hrr, value_encoding_le in Hx; [lia|done..]. }
      exists s, xs. rewrite bool_decide_false by done. split_and!; [done|done|set_solver]. }
  destruct (intsetSearch_spec s xs v Hr ltac:(pow2; lia)) as (found & pos & -> & Hp).
  cbn [mbind option_bind]. destruct found; cbn [negb].
  2:{ apply search_not_in in Hp. exists s, xs. rewrite bool_decide_false by done.
      split_and!; [done|done|set_solver]. }
  apply search_found in Hp as (a & b & -> & ->). destruct Hr as [_ _ Hb Hrr Hs].
  rewrite length_app in *. cbn [length] in *.
  rewrite (u32_small (len s - 1)) by (pow2; lia).
  rewrite encs_app, encs_cons in Hb.
  assert (∃ r, (if zlen a <? len s - 1 then intsetMoveTail s (zlen a + 1) (zlen a) else Some s)
    = Some (set_contents s ((encs (encoding s) a ++ encs (encoding s) b) ++ r))) as (r & ->).
  { destruct (Z.ltb_spec (zlen a) (len s - 1)).
    - unfold intsetMoveTail. rewrite move_size, Hb by done.
      rewrite (u32_small (_ - _)), u32_small by (pow2; nia).
      rewrite memmove_left; rewrite ?length_encs, ?length_le_bytes by lia; try lia.
      cbn [mbind option_bind]. eexists. by rewrite <- app_assoc.
    - destruct b; [|simpl in *; lia]. exists (le_bytes (Z.to_nat (encoding s)) v).
      change (encs (encoding s) []) with (@nil Z) in *. rewrite app_nil_r in *.
      rewrite <- Hb. by destruct s. }
  cbn [mbind option_bind]. apply Forall_app in Hrr as [Hra [_ Hrb]%Forall_cons].
  apply sorted_app in Hs as (Hsa & Hsb & Hab). apply StronglySorted_inv in Hsb as [Hsb Hvb].
  rewrite Forall_forall in Hvb.
  eexists _, (a ++ b). rewrite bool_decide_true by set_solver. split; [done|]. split.
  - split; [done|cbn [len set_len]; rewrite length_app; lia| | |].
    + cbn [contents set_len]. rewrite resize_bytes; [|done|lia|unfold fits; pow2; lia].
      cbn [contents set_contents encoding]. rewrite zrealloc_shrink, encs_app; [done|].
      rewrite length_app, Nat2Z.inj_add, !length_encs by lia. lia.
    + by apply Forall_app.
    + apply sorted_app. split_and!; [done|done|]. intros x y Hx Hy. apply Hab; set_solver.
  - intros x. split.
    + intros [Hx|Hx]%elem_of_app; (split; [|set_solver]).
      * intros ->. specialize (Hab v v Hx ltac:(set_solver)). lia.
      * intros ->. specialize (Hvb v Hx). lia.
    + set_solver.
Qed.

Lemma intsetFind_spec s xs v :
  repr s xs → zlen xs < 2 ^ 31 → in_s 64 v →
  intsetFind s v = Some (bool_decide (v ∈ xs)).
Proof.
  intros Hr Hlen Hv. unfold intsetFind. pose proof (r_enc _ _ Hr) as He.
  destruct (Z.leb_spec (_intsetValueEncoding v) (encoding s)) as [Hle|Hlt]; cbn [negb].
  2:{ rewrite bool_decide_false; [done|]. intros Hx. pose proof (r_range _ _ Hr) as Hrr.
      rewrite Forall_forall in Hrr. apply Hrr, value_encoding_le in Hx; [lia|done..]. }
  destruct (intsetSearch_spec s xs v Hr Hlen) as ([] & pos & -> & Hp); cbn [mbind option_bind].
  - apply search_found in Hp as (a & b & -> & _). by rewrite bool_decide_true by set_solver.
  - apply search_not_in in Hp. by rewrite bool_decide_false.
Qed.

(** ** Histories of operations

    A client's calls, in order, against the mathematical set. *)
Inductive iop := IAdd (v : Z) | IRemove (v : Z).

Definition iop_value (o : iop) : Z := match o with IAdd v | IRemove v => v end.

Definition iop_exec (junk : nat → Z) (s : intset) (o : iop) : option (intset * bool) :=
  match o with IAdd v => intsetAdd junk s v | IRemove v => intsetRemove junk s v end.

Fixpoint iop_run (junk : nat → Z) (s : intset) (os : list iop) : option (intset * list bool) :=
  match os with
  | [] => Some (s, [])
  | o :: os =>
      '(s, b) ← iop_exec junk s o;
      '(s, bs) ← iop_run junk s os;
      Some (s, b :: bs)
  end.

Definition set_exec (X : gset Z) (o : iop) : gset Z * bool :=
  match o with
  | IAdd v => ({[v]} ∪ X, bool_decide (v ∉ X))
  | IRemove v => (X ∖ {[v]}, bool_decide (v ∈ X))
  end.

Fixpoint set_run (X : gset Z) (os : list iop) : gset Z * list bool :=
  match os with
  | [] => (X, [])
  | o :: os => let '(X, b) := set_exec X o in let '(X, bs) := set_run X os in (X, b :: bs)
  end.

(** [s] implements the finite set [X]. *)
Definition implements (s : intset) (X : gset Z) : Prop :=
  ∃ xs, repr s xs ∧ ∀ x, x ∈ xs ↔ x ∈ X.

Lemma sorted_nodup xs : StronglySorted Z.lt xs → NoDup xs.
Proof.
  induction 1 as [|x xs Hs IH Hx]; constructor; [|done].
  intros Hin. rewrite Forall_forall in Hx. apply Hx in Hin. lia.
Qed.

Lemma repr_size s xs (X : gset Z) :
  repr s xs → (∀ x, x ∈ xs ↔ x ∈ X) → length xs = size X.
Proof.
  intros Hr Hx. assert (X = list_to_set xs) as -> by set_solver.
  by rewrite size_list_to_set by apply sorted_nodup, (r_sorted _ _ Hr).
Qed.

Lemma iop_exec_spec junk s X o :
  implements s X → fits (Z.of_nat (size X) + 1) → in_s 64 (iop_value o) →
  ∃ s', iop_exec junk s o = Some (s', (set_exec X o).2) ∧
    implements s' (set_exec X o).1 ∧ (size (set_exec X o).1 ≤ size X + 1)%nat.
Proof.
  intros (xs & Hr & Hx) Hf Hv. pose proof (repr_size _ _ _ Hr Hx) as Hsz.
  rewrite <- Hsz in *. destruct o as [v|v]; simpl in *.
  - destruct (intsetAdd_spec junk s xs v Hr Hf Hv) as (s' & ys & E & Hr' & Hy).
    exists s'. rewrite E. split_and!.
    + do 2 f_equal. apply bool_decide_ext. by rewrite Hx.
    + exists ys. split; [done|]. set_solver.
    + rewrite Hsz. pose proof (size_union_alt ({[v]} : gset Z) X) as ->.
      rewrite size_singleton. pose proof (subseteq_size (X ∖ {[v]}) X ltac:(set_solver)). lia.
  - destruct (intsetRemove_spec junk s xs v Hr) as (s' & ys & E & Hr' & Hy); [|done|].
    { unfold fits in *. lia. }
    exists s'. rewrite E. split_and!.
    + do 2 f_equal. apply bool_decide_ext. by rewrite Hx.
    + exists ys. split; [done|]. set_solver.
    + rewrite Hsz. pose proof (subseteq_size (X ∖ {[v]}) X ltac:(set_solver)). lia.
Qed.

Lemma iop_run_spec junk os : ∀ s X,
  implements s X → fits (Z.of_nat (size X) + zlen os) → Forall (λ o, in_s 64 (iop_value o)) os →
  ∃ s', iop_run junk s os = Some (s', (set_run X os).2) ∧ implements s' (set_run X os).1.
Proof.
  induction os as [|o os IH]; intros s X Hi Hf Hv; [by exists s|].
  apply Forall_cons in Hv as [Hv Hvs]. cbn [length] in Hf. unfold fits in *.
  destruct (iop_exec_spec junk s X o Hi) as (s1 & E & Hi1 & Hsz); [unfold fits; lia|done|].
  simpl iop_run. rewrite E. cbn [mbind option_bind].
  destruct (IH s1 (set_exec X o).1 Hi1) as (s2 & E2 & Hi2); [lia|done|].
  exists s2. rewrite E2. cbn [mbind option_bind set_run].
  destruct (set_exec X o) as [X1 b], (set_run X1 os) as [X2 bs] eqn:E3. simpl in *.
  rewrite E3 in *. done.
Qed.

(** ** Properties *)

(** C26: any history of fewer than 2^29 [intsetAdd] and [intsetRemove] calls
    that starts from [intsetNew], with any 64-bit values, never leaves the
    allocated block and refines the mathematical set: every call reports
    success exactly when it changed the set, and the final block implements
    the final set, whatever the bytes a reallocation adds. *)
Theorem intset_history_refines junk os :
  zlen os < 2 ^ 29 → Forall (λ o, in_s 64 (iop_value o)) os →
  ∃ s, iop_run junk intsetNew os = Some (s, (set_run ∅ os).2) ∧
    implements s (set_run ∅ os).1.
Proof.
  intros Hn Hv. pow2. apply iop_run_spec; [|rewrite size_empty; unfold fits; pow2; lia|done].
  exists []. split; [apply repr_empty|]. set_solver.
Qed.

(** Adds of all three widths, with duplicates, then removes. *)
Definition sample_ops : list iop :=
  [IAdd 5; IAdd (-3); IAdd 5; IAdd 70000; IAdd (-5000000000); IRemove 5; IRemove 5; IAdd 6].

Lemma intset_history_refines_witness :
  ∃ s, iop_run (λ _, 7) intsetNew sample_ops = Some (s, (set_run ∅ sample_ops).2) ∧
    implements s (set_run ∅ sample_ops).1.
Proof.
  apply (intset_history_refines (λ _, 7) sample_ops); [done|].
  apply (bool_decide_unpack _). by vm_compute.
Defined.

Example intset_history_run :
  (λ '(s, bs), (encoding s, len s, bs, _intsetGet s 0, _intsetGet s 3)) <$>
    iop_run (λ _, 7) intsetNew sample_ops
  = Some (8, 4, [true; true; false; true; true; true; false; true],
      Some (-5000000000), Some 70000).
Proof. by vm_compute. Qed.

Lemma intsetGet_spec s xs pos :
  repr s xs → 0 ≤ pos → intsetGet s pos = Some (xs !! Z.to_nat pos).
Proof.
  intros Hr Hpos. unfold intsetGet. rewrite (r_len _ _ Hr).
  destruct (Z.ltb_spec pos (zlen xs)) as [Hlt|Hge].
  - destruct (lookup_lt_is_Some_2 xs (Z.to_nat pos)) as [x Hx]; [lia|].
    pose proof (get_lookup s xs _ x Hr Hx) as Hg. rewrite Z2Nat.id in Hg by lia.
    by rewrite Hg, Hx.
  - by rewrite lookup_ge_None_2 by lia.
Qed.

(** The observers of a block that implements a set [X] of fewer than
    2^29 elements: [intsetFind] is membership, [intsetGet] enumerates the
    elements of [X] in increasing order and fails outside, [intsetRandom]
    returns an element, [intsetLen] and [intsetBlobLen] are the size and the
    number of bytes of the block. *)
Theorem intset_observers s (X : gset Z) :
  implements s X → Z.of_nat (size X) < 2 ^ 29 →
  (∀ v, in_s 64 v → intsetFind s v = Some (bool_decide (v ∈ X))) ∧
  (∃ xs, StronglySorted Z.lt xs ∧ (∀ x, x ∈ xs ↔ x ∈ X) ∧
     ∀ pos, 0 ≤ pos → intsetGet s pos = Some (xs !! Z.to_nat pos)) ∧
  (∀ r, 0 ≤ r → X ≠ ∅ → ∃ v, intsetRandom r s = Some v ∧ v ∈ X) ∧
  intsetLen s = Z.of_nat (size X) ∧ intsetBlobLen s = 8 + zlen (contents s).
Proof.
  intros (xs & Hr & Hx) Hsz. pow2. pose proof (repr_size _ _ _ Hr Hx) as Hl.
  pose proof (enc_bounds _ (r_enc _ _ Hr)). pose proof (r_len _ _ Hr) as Hlen.
  split_and!.
  - intros v Hv. rewrite (intsetFind_spec s xs) by (done || pow2; lia).
    f_equal. apply bool_decide_ext, Hx.
  - exists xs. split_and!; [apply (r_sorted _ _ Hr)|done|]. intros pos Hp.
    by apply intsetGet_spec.
  - intros r Hr0 HX. unfold intsetRandom. destruct (Z.eqb_spec (len s) 0) as [E|E].
    { destruct HX. destruct xs; [|simpl in *; lia]. apply set_eq. set_solver. }
    pose proof (Z.mod_pos_bound r (len s) ltac:(lia)).
    destruct (lookup_lt_is_Some_2 xs (Z.to_nat (r mod len s))) as [v Hv]; [lia|].
    exists v. split; [|apply Hx; by eapply list_elem_of_lookup_2].
    rewrite <- (get_lookup s xs _ v Hr Hv). f_equal. lia.
  - unfold intsetLen. lia.
  - unfold intsetBlobLen. rewrite (r_bytes _ _ Hr), length_encs, u32_small by (pow2; nia). lia.
Qed.

Lemma intset_observers_witness :
  intsetFind (mk_intset 2 2 [255; 255; 3; 0]) 3 = Some (bool_decide (3 ∈ ({[3; -1]} : gset Z))).
Proof.
  assert (implements (mk_intset 2 2 [255; 255; 3; 0]) {[3; -1]}) as Hi.
  { exists [-1; 3]. split; [|set_solver]. split; [by left|done|done|..].
    - apply (bool_decide_unpack _). by vm_compute.
    - repeat constructor. }
  apply (intset_observers _ {[3; -1]} Hi); [by vm_compute|].
  apply (bool_decide_unpack _). by vm_compute.
Defined.

(** The size of a block is computed in 32 bits: growing a set of 8-byte
    elements to 2^29 elements asks for an empty array, which loses every
    element and makes the write that follows leave the block. *)
Lemma intsetResize_overflow junk s :
  encoding s = INTSET_ENC_INT64 → contents (intsetResize junk s (2 ^ 29)) = [].
Proof. intros E. unfold intsetResize. rewrite E. done. Qed.
