(* ===== verification/Dict.v ===== *)
(** * Hash tables with incremental rehashing ([redis-3.2/src/dict.c])

    A [dict] has two chained tables.  When it grows or shrinks, the entries
    move from the first table to the second a few buckets at a time, on the
    operations that follow.  A table is the list of its chains ([[]] is the
    [NULL] table), an entry pointer is the table, the bucket and the key of
    the entry.  [None] is undefined behaviour or a failed assertion.

    The client's [dictType] gives the hash function, the copy functions and
    whether there are destructors; calls of destructors are recorded in the
    field [freed].  Two keys are the same when [keyCompare] says so, which is
    equality of [K] here.  [unsigned long] has 64 bits; the build is the
    POSIX one ([WIN32_ONLY] is empty). *)

From S2P Require Import Prelude Buckets.

(** ** Hash functions *)

Definition dictIntHashFunction (key : Z) : Z :=
  let key := u32 (key + Z.lnot (Z.shiftl key 15)) in
  let key := Z.lxor key (Z.shiftr key 10) in
  let key := u32 (key + Z.shiftl key 3) in
  let key := Z.lxor key (Z.shiftr key 6) in
  let key := u32 (key + Z.lnot (Z.shiftl key 11)) in
  Z.lxor key (Z.shiftr key 16).

Definition murmur_m : Z := 0x5bd1e995.

(** One turn of [while (len >= 4)], on the next four bytes. *)
Definition murmur_mix (h : Z) (b : list Z) : Z :=
  let k := le_val b in
  let k := u32 (k * murmur_m) in
  let k := Z.lxor k (Z.shiftr k 24) in
  let k := u32 (k * murmur_m) in
  Z.lxor (u32 (h * murmur_m)) k.

Fixpoint murmur_loop (fuel : nat) (h : Z) (data : list Z) (off len : Z) : option (Z * Z * Z) :=
  match fuel with
  | O => None
  | S fuel =>
      if len >=? 4 then
        k ← mread data off 4;
        murmur_loop fuel (murmur_mix h k) data (off + 4) (len - 4)
      else Some (h, off, len)
  end.

(** The [switch] falls through from case 3 to case 1. *)
Definition murmur_tail (h : Z) (data : list Z) (off len : Z) : option Z :=
  let byte i := b ← mread data (off + i) 1; Some (le_val b) in
  h ← (if len =? 3 then b ← byte 2; Some (Z.lxor h (Z.shiftl b 16)) else Some h);
  h ← (if (len =? 3) || (len =? 2) then b ← byte 1; Some (Z.lxor h (Z.shiftl b 8)) else Some h);
  if (len =? 3) || (len =? 2) || (len =? 1) then
    b ← byte 0; Some (u32 (Z.lxor h b * murmur_m))
  else Some h.

Definition dictGenHashFunction (seed : Z) (key : list Z) (len : Z) : option Z :=
  let h := Z.lxor seed (u32 len) in
  '(h, off, len) ← murmur_loop (S (Z.to_nat len)) h key 0 len;
  h ← murmur_tail h key off len;
  let h := Z.lxor h (Z.shiftr h 13) in
  let h := u32 (h * murmur_m) in
  Some (Z.lxor h (Z.shiftr h 15)).

Definition dictGenCaseHashFunction (seed : Z) (buf : list Z) : Z :=
  foldl (λ hash c, u32 (u32 (u32 (Z.shiftl hash 5) + hash) + tolower c)) seed buf.

(** ** Tables *)

Definition DICT_HT_INITIAL_SIZE : Z := 4.
Definition dict_force_resize_ratio : Z := 5.
Definition PORT_LONG_MAX : Z := 2 ^ 63 - 1.

Section dict.
Context {K V : Type} `{Countable K}.

(** A value that was not set yet is [None]. *)
Record dictEntry := mk_entry { key : K; v : option V }.

Record dictType := mk_type {
  hashFunction : K → Z;
  keyDup : option (K → K);
  valDup : option (V → V);
  keyDestructor : bool;
  valDestructor : bool
}.

Record dictht := mk_ht {
  table : list (list dictEntry);
  size : Z;
  sizemask : Z;
  used : Z
}.

Record dict := mk_dict {
  type : dictType;
  ht0 : dictht;
  ht1 : dictht;
  rehashidx : Z;
  iterators : Z;
  freed : list (K + option V)
}.

Definition set_ht0 (d : dict) (h : dictht) : dict :=
  mk_dict (type d) h (ht1 d) (rehashidx d) (iterators d) (freed d).
Definition set_ht1 (d : dict) (h : dictht) : dict :=
  mk_dict (type d) (ht0 d) h (rehashidx d) (iterators d) (freed d).
Definition set_rehashidx (d : dict) (i : Z) : dict :=
  mk_dict (type d) (ht0 d) (ht1 d) i (iterators d) (freed d).
Definition set_freed (d : dict) (l : list (K + option V)) : dict :=
  mk_dict (type d) (ht0 d) (ht1 d) (rehashidx d) (iterators d) l.

(** [d->ht[t]]. *)
Definition ht (d : dict) (t : bool) : dictht := if t then ht1 d else ht0 d.
Definition set_ht (d : dict) (t : bool) (h : dictht) : dict :=
  if t then set_ht1 d h else set_ht0 d h.

Definition dictIsRehashing (d : dict) : bool := negb (rehashidx d =? -1).
Definition dictSize (d : dict) : Z := u64 (used (ht0 d) + used (ht1 d)).
Definition dictSlots (d : dict) : Z := u64 (size (ht0 d) + size (ht1 d)).
Definition dictHashKey (d : dict) (k : K) : Z := hashFunction (type d) k.

Definition dictFreeKey (d : dict) (e : dictEntry) : dict :=
  if keyDestructor (type d) then set_freed d (inl (key e) :: freed d) else d.
Definition dictFreeVal (d : dict) (e : dictEntry) : dict :=
  if valDestructor (type d) then set_freed d (inr (v e) :: freed d) else d.

(** [ht->table[i]], and the bucket of a hash value: [h & sizemask] is an
    [unsigned int]. *)
Definition bucket (h : dictht) (i : Z) : option (list dictEntry) :=
  if decide (0 ≤ i) then table h !! Z.to_nat i else None.
Definition set_bucket (h : dictht) (i : Z) (b : list dictEntry) : dictht :=
  mk_ht (<[Z.to_nat i := b]> (table h)) (size h) (sizemask h) (used h).
Definition set_used (h : dictht) (n : Z) : dictht :=
  mk_ht (table h) (size h) (sizemask h) n.
Definition idx_of (hash : Z) (h : dictht) : Z := u32 (Z.land hash (sizemask h)).

(** ** Creation and resizing *)

Definition _dictReset : dictht := mk_ht [] 0 0 0.

Definition _dictInit (t : dictType) : dict := mk_dict t _dictReset _dictReset (-1) 0 [].
Definition dictCreate (t : dictType) : dict := _dictInit t.

Fixpoint next_power_loop (fuel : nat) (i sz : Z) : option Z :=
  match fuel with
  | O => None
  | S fuel => if i >=? sz then Some i else next_power_loop fuel (u64 (i * 2)) sz
  end.

Definition _dictNextPower (sz : Z) : option Z :=
  if sz >=? PORT_LONG_MAX then Some PORT_LONG_MAX
  else next_power_loop 62 DICT_HT_INITIAL_SIZE sz.

(** [true] is [DICT_OK]. *)
Definition dictExpand (d : dict) (sz : Z) : option (dict * bool) :=
  realsize ← _dictNextPower sz;
  if dictIsRehashing d || (used (ht0 d) >? sz) then Some (d, false)
  else if realsize =? size (ht0 d) then Some (d, false)
  else
    let n := mk_ht (replicate (Z.to_nat realsize) []) realsize (u64 (realsize - 1)) 0 in
    match table (ht0 d) with
    | [] => Some (set_ht0 d n, true)
    | _ => Some (set_rehashidx (set_ht1 d n) 0, true)
    end.

Definition dictResize (dict_can_resize : bool) (d : dict) : option (dict * bool) :=
  if negb dict_can_resize || dictIsRehashing d then Some (d, false) else
  let minimal := s32 (used (ht0 d)) in
  let minimal := if minimal <? DICT_HT_INITIAL_SIZE then DICT_HT_INITIAL_SIZE else minimal in
  dictExpand d (u64 minimal).

Definition _dictExpandIfNeeded (dict_can_resize : bool) (d : dict) : option (dict * bool) :=
  if dictIsRehashing d then Some (d, true)
  else if size (ht0 d) =? 0 then dictExpand d DICT_HT_INITIAL_SIZE
  else if (used (ht0 d) >=? size (ht0 d)) &&
          (dict_can_resize || (used (ht0 d) / size (ht0 d) >? dict_force_resize_ratio))
  then dictExpand d (u64 (used (ht0 d) * 2))
  else Some (d, true).

(** ** Incremental rehashing *)

(** Skip empty buckets; [inl] is the early [return 1]. *)
Fixpoint skip_empty (fuel : nat) (d : dict) (empty_visits : Z) : option (dict + dict * Z) :=
  match fuel with
  | O => None
  | S fuel =>
      b ← bucket (ht0 d) (rehashidx d);
      match b with
      | [] =>
          let d := set_rehashidx d (rehashidx d + 1) in
          let empty_visits := s32 (empty_visits - 1) in
          if empty_visits =? 0 then Some (inl d) else skip_empty fuel d empty_visits
      | _ => Some (inr (d, empty_visits))
      end
  end.

(** Move the entries of a chain to the second table. *)
Fixpoint move_chain (d : dict) (de : list dictEntry) : option dict :=
  match de with
  | [] => Some d
  | e :: nextde =>
      let h := idx_of (dictHashKey d (key e)) (ht1 d) in
      b ← bucket (ht1 d) h;
      let d := set_ht1 d (set_bucket (ht1 d) h (e :: b)) in
      let d := set_ht0 d (set_used (ht0 d) (u64 (used (ht0 d) - 1))) in
      let d := set_ht1 d (set_used (ht1 d) (u64 (used (ht1 d) + 1))) in
      move_chain d nextde
  end.

(** [while(n-- && d->ht[0].used != 0)]; [inl] is the early [return 1]. *)
Fixpoint rehash_loop (n : nat) (d : dict) (empty_visits : Z) : option (dict + dict) :=
  match n with
  | O => Some (inr d)
  | S n =>
      if used (ht0 d) =? 0 then Some (inr d) else
      if negb (size (ht0 d) >? u64 (rehashidx d)) then None else
      r ← skip_empty (S (length (table (ht0 d)))) d empty_visits;
      match r with
      | inl d => Some (inl d)
      | inr (d, empty_visits) =>
          de ← bucket (ht0 d) (rehashidx d);
          d ← move_chain d de;
          let d := set_ht0 d (set_bucket (ht0 d) (rehashidx d) []) in
          let d := set_rehashidx d (rehashidx d + 1) in
          rehash_loop n d empty_visits
      end
  end.

(** [true]: there is more to rehash. *)
Definition dictRehash (d : dict) (n : nat) : option (dict * bool) :=
  let empty_visits := s32 (Z.of_nat n * 10) in
  if negb (dictIsRehashing d) then Some (d, false) else
  r ← rehash_loop n d empty_visits;
  match r with
  | inl d => Some (d, true)
  | inr d =>
      if used (ht0 d) =? 0 then
        let d := set_ht0 d (ht1 d) in
        let d := set_ht1 d _dictReset in
        let d := set_rehashidx d (-1) in
        Some (d, false)
      else Some (d, true)
  end.

Definition _dictRehashStep (d : dict) : option dict :=
  if iterators d =? 0 then '(d, _) ← dictRehash d 1; Some d else Some d.

(** The clock readings [timeInMilliseconds()-start > ms] are an argument:
    the loop stops at the first [true]. *)
Fixpoint dictRehashMilliseconds (d : dict) (late : list bool) (rehashes : Z) : option (dict * Z) :=
  '(d, more) ← dictRehash d 100;
  if more : bool then
    match late with
    | [] => None
    | true :: _ => Some (d, s32 (rehashes + 100))
    | false :: late => dictRehashMilliseconds d late (s32 (rehashes + 100))
    end
  else Some (d, rehashes).

(** ** Lookup *)

(** A [dictEntry] pointer. *)
Record eptr := mk_eptr { e_table : bool; e_idx : Z; e_key : K }.

(** The loop over the tables shared by [dictFind], [_dictKeyIndex] and
    [dictGenericDelete]: table 0, then table 1 if [d] is rehashing. *)
Definition find_in (d : dict) (t : bool) (h : Z) (k : K) : option (option eptr) :=
  let idx := idx_of h (ht d t) in
  he ← bucket (ht d t) idx;
  match chain_find key k he with
  | Some e => Some (Some (mk_eptr t idx (key e)))
  | None => Some None
  end.

Definition find_tables (d : dict) (h : Z) (k : K) : option (option eptr) :=
  r ← find_in d false h k;
  match r with
  | Some p => Some (Some p)
  | None => if negb (dictIsRehashing d) then Some None else find_in d true h k
  end.

Definition dictFind (d : dict) (k : K) : option (dict * option eptr) :=
  if u64 (used (ht0 d) + used (ht1 d)) =? 0 then Some (d, None) else
  d ← (if dictIsRehashing d then _dictRehashStep d else Some d);
  let h := dictHashKey d k in
  p ← find_tables d h k; Some (d, p).

(** The entry an [eptr] points to. *)
Definition entry_at (d : dict) (p : eptr) : option dictEntry :=
  b ← bucket (ht d (e_table p)) (e_idx p); chain_find key (e_key p) b.

(** [dictFetchValue]: [NULL] is [None]. *)
Definition dictFetchValue (d : dict) (k : K) : option (dict * option (option V)) :=
  '(d, p) ← dictFind d k;
  match p with
  | Some p => e ← entry_at d p; Some (d, Some (v e))
  | None => Some (d, None)
  end.

(** ** Insertion *)

(** [-1] when the key exists (or the expansion failed). *)
Definition _dictKeyIndex (cr : bool) (d : dict) (k : K) : option (dict * Z) :=
  '(d, ok) ← _dictExpandIfNeeded cr d;
  if negb ok then Some (d, -1) else
  let h := dictHashKey d k in
  p ← find_tables d h k;
  match p with
  | Some _ => Some (d, -1)
  | None => Some (d, s32 (idx_of h (ht d (dictIsRehashing d))))
  end.

Definition dictSetKey (d : dict) (k : K) : K :=
  match keyDup (type d) with Some f => f k | None => k end.

Definition dictSetVal (d : dict) (p : eptr) (val : V) : option dict :=
  let val := match valDup (type d) with Some f => f val | None => val end in
  b ← bucket (ht d (e_table p)) (e_idx p);
  e ← chain_find key (e_key p) b;
  Some (set_ht d (e_table p) (set_bucket (ht d (e_table p)) (e_idx p)
    (chain_set key (e_key p) (mk_entry (key e) (Some val)) b))).

Definition dictAddRaw (cr : bool) (d : dict) (k : K) : option (dict * option eptr) :=
  d ← (if dictIsRehashing d then _dictRehashStep d else Some d);
  '(d, index) ← _dictKeyIndex cr d k;
  if index =? -1 then Some (d, None) else
  let t := dictIsRehashing d in
  b ← bucket (ht d t) index;
  let k' := dictSetKey d k in
  let h := set_bucket (ht d t) index (mk_entry k' None :: b) in
  let d := set_ht d t (set_used h (u64 (used h + 1))) in
  Some (d, Some (mk_eptr t index k')).

Definition dictAdd (cr : bool) (d : dict) (k : K) (val : V) : option (dict * bool) :=
  '(d, entry) ← dictAddRaw cr d k;
  match entry with
  | None => Some (d, false)
  | Some p => d ← dictSetVal d p val; Some (d, true)
  end.

(** [true]: the key was added from scratch. *)
Definition dictReplace (cr : bool) (d : dict) (k : K) (val : V) : option (dict * bool) :=
  '(d, ok) ← dictAdd cr d k val;
  if ok : bool then Some (d, true) else
  '(d, p) ← dictFind d k;
  p ← p;
  auxentry ← entry_at d p;
  d ← dictSetVal d p val;
  Some (dictFreeVal d auxentry, false).

Definition dictReplaceRaw (cr : bool) (d : dict) (k : K) : option (dict * option eptr) :=
  '(d, entry) ← dictFind d k;
  match entry with Some p => Some (d, Some p) | None => dictAddRaw cr d k end.

(** ** Deletion *)

Definition dictGenericDelete (d : dict) (k : K) (nofree : bool) : option (dict * bool) :=
  if size (ht0 d) =? 0 then Some (d, false) else
  d ← (if dictIsRehashing d then _dictRehashStep d else Some d);
  let h := dictHashKey d k in
  p ← find_tables d h k;
  match p with
  | None => Some (d, false)
  | Some p =>
      let t := e_table p in
      he ← entry_at d p;
      b ← bucket (ht d t) (e_idx p);
      let d := set_ht d t (set_bucket (ht d t) (e_idx p) (chain_del key (e_key p) b)) in
      let d := if nofree then d else dictFreeVal (dictFreeKey d he) he in
      Some (set_ht d t (set_used (ht d t) (u64 (used (ht d t) - 1))), true)
  end.

Definition dictDelete (d : dict) (k : K) : option (dict * bool) := dictGenericDelete d k false.
Definition dictDeleteNoFree (d : dict) (k : K) : option (dict * bool) := dictGenericDelete d k true.

(** ** Clearing *)

(** The inner loop of [_dictClear] on one chain. *)
Fixpoint clear_chain (d : dict) (t : bool) (he : list dictEntry) : dict :=
  match he with
  | [] => d
  | e :: nextHe =>
      let d := dictFreeVal (dictFreeKey d e) e in
      clear_chain (set_ht d t (set_used (ht d t) (u64 (used (ht d t) - 1)))) t nextHe
  end.

(** [for (i = 0; i < ht->size && ht->used > 0; i++)], with [n] buckets
    left. *)
Fixpoint clear_loop (n : nat) (i : Z) (d : dict) (t : bool) : option dict :=
  match n with
  | O => Some d
  | S n =>
      if (i <? size (ht d t)) && (used (ht d t) >? 0) then
        he ← bucket (ht d t) i;
        clear_loop n (i + 1) (clear_chain d t he) t
      else Some d
  end.

Definition _dictClear (d : dict) (t : bool) : option dict :=
  d ← clear_loop (S (Z.to_nat (size (ht d t)))) 0 d t;
  Some (set_ht d t _dictReset).

Definition dictEmpty (d : dict) : option dict :=
  d ← _dictClear d false;
  d ← _dictClear d true;
  Some (mk_dict (type d) (ht0 d) (ht1 d) (-1) 0 (freed d)).

(** The destructor calls made before the memory of [d] is freed. *)
Definition dictRelease (d : dict) : option (list (K + option V)) :=
  d ← _dictClear d false;
  d ← _dictClear d true;
  Some (freed d).

(** ** Well-formed dictionaries *)

Definition kvof (e : dictEntry) : K * option V := kv key v e.

(** The entries of a dictionary and the finite map it stands for. *)
Definition entries (d : dict) : list dictEntry :=
  concat (table (ht0 d)) ++ concat (table (ht1 d)).
Definition dmap (d : dict) : gmap K (option V) := list_to_map (kvof <$> entries d).

(** What the code relies on of the client's functions: hashes are
    [unsigned int]s and a copy of a key is the same key. *)
Record type_ok (t : dictType) : Prop := {
  t_hash : ∀ k, in_u 32 (hashFunction t k);
  t_dup : ∀ f k, keyDup t = Some f → f k = k
}.

(** A table of [2 ^ n] buckets. *)
Record live (t : dictType) (h : dictht) (n : nat) : Prop := {
  l_n : (2 ≤ n ≤ 31)%nat;
  l_size : size h = 2 ^ Z.of_nat n;
  l_mask : sizemask h = size h - 1;
  l_len : zlen (table h) = size h;
  l_used : used h = zlen (concat (table h));
  l_place : ∀ i b e, table h !! i = Some b → e ∈ b →
    hashFunction t (key e) mod 2 ^ Z.of_nat n = Z.of_nat i
}.

Definition max_entries : Z := 2 ^ 30.

Record wf (d : dict) : Prop := {
  w_type : type_ok (type d);
  w_nodup : NoDup (key <$> entries d);
  w_max : zlen (entries d) ≤ max_entries;
  w_state :
    rehashidx d = -1 ∧ ht1 d = _dictReset ∧ (ht0 d = _dictReset ∨ ∃ n, live (type d) (ht0 d) n) ∨
    0 ≤ rehashidx d ∧ (∃ n, live (type d) (ht0 d) n) ∧ (∃ n, live (type d) (ht1 d) n) ∧
      ∀ i b, Z.of_nat i < rehashidx d → table (ht0 d) !! i = Some b → b = []
}.

Lemma live_pow t h n : live t h n → 4 ≤ 2 ^ Z.of_nat n ≤ 2 ^ 31.
Proof.
  intros [Hn _ _ _ _ _]. change 4 with (2 ^ 2). split; apply Z.pow_le_mono_r; lia.
Qed.

Lemma live_table t h n : live t h n → table h ≠ [].
Proof.
  intros Hl E. pose proof (live_pow _ _ _ Hl). pose proof (l_len _ _ _ Hl) as Hlen.
  rewrite E in Hlen. rewrite (l_size _ _ _ Hl) in Hlen. simpl in Hlen. lia.
Qed.

Lemma land_mask x n : Z.land x (2 ^ Z.of_nat n - 1) = x mod 2 ^ Z.of_nat n.
Proof. rewrite Z.sub_1_r, <- Z.ones_equiv. apply Z.land_ones. lia. Qed.

(** The bucket of a hash value. *)
Lemma live_idx t h n x : live t h n → idx_of x h = x mod 2 ^ Z.of_nat n.
Proof.
  intros Hl. pose proof (live_pow _ _ _ Hl). unfold idx_of.
  rewrite (l_mask _ _ _ Hl), (l_size _ _ _ Hl), land_mask.
  pose proof (Z.mod_pos_bound x (2 ^ Z.of_nat n) ltac:(lia)). pow2.
  apply wrapu_id. unfold in_u. pow2. lia.
Qed.

Lemma live_bucket t h n x : live t h n →
  ∃ b, table h !! Z.to_nat (x mod 2 ^ Z.of_nat n) = Some b ∧
       bucket h (x mod 2 ^ Z.of_nat n) = Some b.
Proof.
  intros Hl. pose proof (live_pow _ _ _ Hl).
  pose proof (Z.mod_pos_bound x (2 ^ Z.of_nat n) ltac:(lia)).
  destruct (lookup_lt_is_Some_2 (table h) (Z.to_nat (x mod 2 ^ Z.of_nat n))) as [b Hb].
  { pose proof (l_len _ _ _ Hl) as E. rewrite (l_size _ _ _ Hl) in E. lia. }
  exists b. split; [done|]. unfold bucket. by rewrite decide_True by lia.
Qed.

Lemma live_find_None t h n k b :
  live t h n → table h !! Z.to_nat (hashFunction t k mod 2 ^ Z.of_nat n) = Some b →
  chain_find key k b = None → k ∉ key <$> concat (table h).
Proof.
  intros Hl Hb Hf (e & -> & (b' & He & Hb')%elem_of_concat)%list_elem_of_fmap.
  apply list_elem_of_lookup in Hb' as [i Hi]. pose proof (l_place _ _ _ Hl _ _ _ Hi He) as Hp.
  rewrite Hp, Nat2Z.id in Hb. simplify_eq. apply chain_find_None in Hf.
  apply Hf, list_elem_of_fmap. eauto.
Qed.

(** Replacing one bucket of a table. *)
Lemma live_update t h n i b b' :
  live t h n → table h !! i = Some b →
  (∀ e, e ∈ b' → hashFunction t (key e) mod 2 ^ Z.of_nat n = Z.of_nat i) →
  live t (mk_ht (<[i := b']> (table h)) (size h) (sizemask h) (used h - zlen b + zlen b')) n ∧
  ∃ r, concat (table h) ≡ₚ b ++ r ∧ concat (<[i := b']> (table h)) ≡ₚ b' ++ r.
Proof.
  intros [H1 H2 H3 H4 H5 H6] Hi Hb'.
  destruct (concat_insert_perm (table h) i b b' Hi) as (r & P1 & P2). split; [|by exists r].
  split; simpl; try done.
  - by rewrite length_insert.
  - rewrite H5, P1, P2, !length_app. lia.
  - intros j c e Hj He. destruct (decide (i = j)) as [->|Hne].
    + rewrite list_lookup_insert_eq in Hj by (by eapply lookup_lt_Some). simplify_eq. auto.
    + rewrite list_lookup_insert_ne in Hj by done. eauto.
Qed.

Lemma u64_small z : 0 ≤ z < 2 ^ 64 → u64 z = z.
Proof. apply wrapu_id. Qed.

(** ** Rehashing moves entries and loses none *)

Lemma live_cons t h n e b :
  live t h n →
  table h !! Z.to_nat (hashFunction t (key e) mod 2 ^ Z.of_nat n) = Some b →
  let i := hashFunction t (key e) mod 2 ^ Z.of_nat n in
  live t (set_used (set_bucket h i (e :: b)) (used h + 1)) n ∧
  concat (table (set_bucket h i (e :: b))) ≡ₚ e :: concat (table h).
Proof.
  intros Hl Hb i. pose proof (live_pow _ _ _ Hl).
  assert (0 ≤ i) by (apply Z.mod_pos_bound; lia).
  destruct (live_update t h n _ b (e :: b) Hl Hb) as (Hl' & r & P1 & P2).
  { intros x [->|Hx]%elem_of_cons; [lia|]. by eapply (l_place _ _ _ Hl). }
  split.
  - unfold set_used, set_bucket. simpl. replace (used h + 1) with
      (used h - zlen b + zlen (e :: b)) by (simpl; lia). done.
  - subst i. simpl. rewrite P2, P1. done.
Qed.

Lemma move_chain_spec n de : ∀ d,
  live (type d) (ht1 d) n →
  zlen de ≤ used (ht0 d) < 2 ^ 64 → used (ht1 d) + zlen de < 2 ^ 64 →
  ∃ h, move_chain d de =
    Some (set_ht1 (set_ht0 d (set_used (ht0 d) (used (ht0 d) - zlen de))) h) ∧
    live (type d) h n ∧ concat (table h) ≡ₚ de ++ concat (table (ht1 d)).
Proof.
  induction de as [|e de IH]; intros d Hl H0 H1.
  { exists (ht1 d). split_and!; [|done|done]. simpl. destruct d as [? [] ? ? ? ?]. simpl.
    unfold set_ht1, set_ht0, set_used. simpl. by rewrite Z.sub_0_r. }
  cbn [length] in *. cbn [move_chain].
  destruct (live_bucket (type d) (ht1 d) n (hashFunction (type d) (key e)) Hl) as (b & Hb & Hb').
  unfold dictHashKey. rewrite (live_idx _ _ _ _ Hl), Hb'. cbn [mbind option_bind].
  destruct (live_cons (type d) (ht1 d) n e b Hl Hb) as [Hl1 P1].
  pose proof (l_used _ _ _ Hl) as Hu.
  cbv zeta in *. cbn [used ht0 ht1 set_ht0 set_ht1 set_used set_bucket table] in *.
  rewrite !u64_small by lia.
  edestruct IH as (h & Hm & Hl2 & P2); [..|exists h; split_and!; [rewrite Hm|exact Hl2|]].
  - exact Hl1.
  - cbn. lia.
  - cbn. lia.
  - cbn. unfold set_ht1, set_ht0, set_used. cbn. do 3 f_equal. lia.
  - rewrite P2. cbn [table ht1 set_ht1 set_used set_ht0]. rewrite P1.
    by rewrite <- Permutation_middle.
Qed.

(** The empty buckets in front of a non-empty one are skipped. *)
Lemma skip_empty_spec fuel : ∀ d ev j b,
  0 ≤ rehashidx d ≤ Z.of_nat j → table (ht0 d) !! j = Some b → b ≠ [] →
  Z.of_nat j - rehashidx d < Z.of_nat fuel →
  (∀ i b, Z.of_nat i < rehashidx d → table (ht0 d) !! i = Some b → b = []) →
  ∃ r, skip_empty fuel d ev = Some r ∧
    match r with
    | inl d' => ∃ k, d' = set_rehashidx d k ∧ rehashidx d < k ≤ Z.of_nat j ∧
        ∀ i b, Z.of_nat i < k → table (ht0 d) !! i = Some b → b = []
    | inr (d', _) => ∃ k b, d' = set_rehashidx d k ∧ rehashidx d ≤ k ≤ Z.of_nat j ∧
        bucket (ht0 d) k = Some b ∧ b ≠ [] ∧
        ∀ i b, Z.of_nat i < k → table (ht0 d) !! i = Some b → b = []
    end.
Proof.
  induction fuel as [|fuel IH]; intros d ev j b Hr Hj Hne Hf Hlow; [lia|].
  cbn [skip_empty]. apply lookup_lt_Some in Hj as Hlt.
  destruct (lookup_lt_is_Some_2 (table (ht0 d)) (Z.to_nat (rehashidx d))) as [c Hc]; [lia|].
  assert (bucket (ht0 d) (rehashidx d) = Some c) as Hb.
  { unfold bucket. by rewrite decide_True by lia. }
  rewrite Hb. cbn [mbind option_bind]. destruct c as [|e c].
  2: { eexists. split; [done|]. exists (rehashidx d), (e :: c). split_and!; try done; try lia.
       by destruct d. }
  assert (rehashidx d ≠ Z.of_nat j) as Hnj.
  { intros E. rewrite E, Nat2Z.id in Hc. congruence. }
  assert (∀ i b, Z.of_nat i < rehashidx d + 1 → table (ht0 d) !! i = Some b → b = []) as Hlow'.
  { intros i b' Hi Hb'. destruct (decide (Z.of_nat i < rehashidx d)); [eauto|].
    replace i with (Z.to_nat (rehashidx d)) in Hb' by lia. congruence. }
  destruct (Z.eqb_spec (s32 (ev - 1)) 0).
  { eexists. split; [done|]. exists (rehashidx d + 1). split_and!; [done|lia|lia|done]. }
  destruct (IH (set_rehashidx d (rehashidx d + 1)) (s32 (ev - 1)) j b) as (r & Hs & Hp);
    [simpl; lia|done|done|simpl; lia|done|].
  exists r. split; [done|]. destruct r as [d'|[d' ev']].
  - destruct Hp as (k & -> & Hk & Hl). exists k. split_and!; try done; simpl in *; lia.
  - destruct Hp as (k & b' & -> & Hk & Hl). exists k, b'. split_and!; try apply Hl; try done;
      simpl in *; lia.
Qed.

(** The state inside the rehashing loop. *)
Record rehashing (d : dict) : Prop := {
  rh_idx : 0 ≤ rehashidx d;
  rh_0 : ∃ n, live (type d) (ht0 d) n;
  rh_1 : ∃ n, live (type d) (ht1 d) n;
  rh_low : ∀ i b, Z.of_nat i < rehashidx d → table (ht0 d) !! i = Some b → b = []
}.

(** Same entries, same other fields. *)
Definition same_entries (d d' : dict) : Prop :=
  type d' = type d ∧ iterators d' = iterators d ∧ freed d' = freed d ∧
  entries d' ≡ₚ entries d.

#[export] Instance same_entries_preorder : PreOrder same_entries.
Proof.
  split; [done|]. intros d1 d2 d3 (?&?&?&?) (?&?&?&?). repeat split; by etrans.
Qed.

Lemma nonempty_bucket (tab : list (list dictEntry)) :
  concat tab ≠ [] → ∃ j b, tab !! j = Some b ∧ b ≠ [].
Proof.
  destruct (concat tab) as [|e l] eqn:E; [done|]. intros _.
  assert (e ∈ concat tab) as (b & He & Hb)%elem_of_concat by (rewrite E; set_solver).
  apply list_elem_of_lookup in Hb as [j Hj]. exists j, b. split; [done|]. by intros ->; set_solver.
Qed.

Lemma bucket_lookup (h : dictht) i b :
  bucket h i = Some b → 0 ≤ i ∧ table h !! Z.to_nat i = Some b.
Proof. unfold bucket. case_decide; [done|discriminate]. Qed.

(** Moving the non-empty bucket [k] and clearing it. *)
Lemma move_bucket d k b :
  rehashing d → zlen (entries d) ≤ max_entries → rehashidx d = k →
  bucket (ht0 d) k = Some b →
  ∃ d1, move_chain d b = Some d1 ∧ rehashidx d1 = k ∧
    let d' := set_rehashidx (set_ht0 d1 (set_bucket (ht0 d1) k [])) (k + 1) in
    rehashing d' ∧ same_entries d d' ∧ size (ht0 d') = size (ht0 d).
Proof.
  intros [H0 [n0 L0] [n1 L1] Hlow] Hmax <- Hb. set (k := rehashidx d) in *.
  apply bucket_lookup in Hb as [Hk Hb].
  destruct (live_update (type d) (ht0 d) n0 _ b [] L0 Hb) as (L0' & r & P1 & P2).
  { intros e He. by apply elem_of_nil in He. }
  unfold entries, max_entries in Hmax. rewrite length_app in Hmax. pow2.
  pose proof (l_used _ _ _ L0) as U0. pose proof (l_used _ _ _ L1) as U1.
  assert (length (concat (table (ht0 d))) = length b + length r)%nat as Hlen.
  { rewrite P1. apply length_app. }
  destruct (move_chain_spec n1 b d L1) as (h & Hm & L1' & P3); [pow2; lia..|].
  eexists. split; [exact Hm|]. split; [done|]. cbv zeta.
  split; [split|split; [|done]].
  - simpl. lia.
  - exists n0. cbn [type ht0 set_ht0 set_ht1 set_rehashidx].
    unfold set_bucket, set_used. cbn [table size sizemask used].
    replace (used (ht0 d) - zlen b) with (used (ht0 d) - zlen b + zlen (@nil dictEntry)) by
      (simpl; lia). exact L0'.
  - by exists n1.
  - intros i c Hi Hc. cbn [rehashidx set_rehashidx] in Hi. cbn in Hc.
    destruct (decide (i = Z.to_nat k)) as [->|Hne].
    + rewrite list_lookup_insert_eq in Hc by (by eapply lookup_lt_Some). congruence.
    + rewrite list_lookup_insert_ne in Hc by done. apply (Hlow i); [lia|done].
  - repeat split; try done. unfold entries. cbn. rewrite P2, P3, P1. simpl.
    rewrite (Permutation_app_comm b r). by rewrite <- !app_assoc.
Qed.

Lemma rehashing_bound d :
  rehashing d → used (ht0 d) ≠ 0 → rehashidx d < size (ht0 d).
Proof.
  intros [H0 [n L] _ Hlow] Hu. rewrite (l_used _ _ _ L) in Hu.
  destruct (nonempty_bucket (table (ht0 d))) as (j & b & Hj & Hne).
  { intros E. by rewrite E in Hu. }
  apply lookup_lt_Some in Hj as Hlt. rewrite <- (l_len _ _ _ L).
  destruct (decide (rehashidx d ≤ Z.of_nat j)); [lia|]. destruct Hne. apply (Hlow j); [lia|done].
Qed.

Lemma rehash_loop_spec n : ∀ d ev,
  rehashing d → zlen (entries d) ≤ max_entries →
  ∃ r, rehash_loop n d ev = Some r ∧
    match r with
    | inl d' => rehashing d' ∧ same_entries d d' ∧ size (ht0 d') = size (ht0 d) ∧
        rehashidx d < rehashidx d' ∧ used (ht0 d') ≠ 0
    | inr d' => rehashing d' ∧ same_entries d d' ∧ size (ht0 d') = size (ht0 d) ∧
        rehashidx d ≤ rehashidx d' ∧
        (n ≠ 0%nat → used (ht0 d') ≠ 0 → rehashidx d < rehashidx d')
    end.
Proof.
  induction n as [|n IH]; intros d ev Hr Hmax; cbn [rehash_loop].
  { eexists. split; [done|]. simpl. split_and!; [done|done|done|lia|lia]. }
  destruct (Z.eqb_spec (used (ht0 d)) 0) as [E|E].
  { eexists. split; [done|]. simpl. split_and!; [done|done|done|lia|lia]. }
  pose proof Hr as [H0 [n0 L0] [n1 L1] Hlow].
  destruct (nonempty_bucket (table (ht0 d))) as (j & b & Hj & Hne).
  { intros Ec. rewrite (l_used _ _ _ L0), Ec in E. done. }
  assert (rehashidx d ≤ Z.of_nat j) as Hj'.
  { destruct (decide (rehashidx d ≤ Z.of_nat j)); [done|]. destruct Hne. apply (Hlow j); [lia|done]. }
  apply lookup_lt_Some in Hj as Hlt. pose proof (l_len _ _ _ L0) as Hlen.
  pose proof (live_pow _ _ _ L0) as Hpow. pose proof (l_size _ _ _ L0) as Hsz. pow2.
  rewrite (u64_small (rehashidx d)), Z.gtb_ltb by (pow2; lia).
  destruct (Z.ltb_spec (rehashidx d) (size (ht0 d))) as [_|]; [|lia]. cbn [negb].
  destruct (skip_empty_spec (S (length (table (ht0 d)))) d ev j b) as (r & -> & Hs);
    [lia|done|done|lia|done|]. cbn [mbind option_bind].
  destruct r as [d'|[d' ev']].
  - destruct Hs as (k & -> & Hk & Hl). eexists. split; [done|]. simpl.
    split_and!; [|done|done|lia|done]. split; simpl; [lia|by exists n0|by exists n1|done].
  - destruct Hs as (k & c & -> & Hk & Hc & Hcne & Hl).
    destruct (move_bucket (set_rehashidx d k) k c) as (d1 & Hm & Hk1 & Hd1 & He1 & Hs1);
      [split; simpl; [lia|by exists n0|by exists n1|done]|done|done|done|].
    cbn [rehashidx set_rehashidx ht0]. rewrite Hc. cbn [mbind option_bind].
    rewrite Hm. cbn [mbind option_bind].
    change (rehashidx (set_ht0 d1 (set_bucket (ht0 d1) (rehashidx d1) []))) with (rehashidx d1).
    rewrite Hk1.
    set (d2 := set_rehashidx _ (k + 1)) in *.
    destruct (IH d2 ev') as (r & Hrl & Hpost); [done| |].
    { destruct He1 as (_ & _ & _ & ->). done. }
    exists r. split; [done|]. assert (same_entries d d2) as Hd by exact He1.
    assert (rehashidx d2 = k + 1) as Hd2 by done. simpl in Hs1.
    destruct r as [d3|d3]; [destruct Hpost as (? & ? & ? & ? & ?)|destruct Hpost as (? & ? & ? & ? & _)];
      split_and!; try done; try lia; try (by etrans); congruence.
Qed.

Lemma rehashing_state d :
  wf d → dictIsRehashing d = true → rehashing d.
Proof.
  unfold dictIsRehashing. intros [_ _ _ [(E & _)|(H0 & H1 & H2 & H3)]] Hr.
  - by rewrite E in Hr.
  - by split.
Qed.

Lemma same_wf d d' :
  wf d → same_entries d d' →
  (rehashing d' ∨ rehashidx d' = -1 ∧ ht1 d' = _dictReset ∧ ∃ n, live (type d') (ht0 d') n) →
  wf d'.
Proof.
  intros [W1 W2 W3 _] (E1 & _ & _ & E4) Hs. split.
  - by rewrite E1.
  - by rewrite E4.
  - by rewrite E4.
  - destruct Hs as [[? ? ? ?]|(?&?&?)]; [right|left]; naive_solver.
Qed.

Lemma same_dmap d d' : wf d → same_entries d d' → dmap d' = dmap d.
Proof.
  intros Hw (_ & _ & _ & E). symmetry. apply list_to_map_proper; [|by rewrite E].
  unfold kvof. rewrite kv_keys. apply (w_nodup _ Hw).
Qed.

Lemma dictRehash_spec d n :
  wf d → ∃ d' more, dictRehash d n = Some (d', more) ∧ wf d' ∧ same_entries d d' ∧
    dictIsRehashing d' = more ∧ (dictIsRehashing d = false → d' = d) ∧
    (size (ht0 d) ≠ 0 → size (ht0 d') ≠ 0) ∧
    (more = true → n ≠ 0%nat →
      size (ht0 d') = size (ht0 d) ∧ rehashidx d < rehashidx d' ∧ used (ht0 d') ≠ 0).
Proof.
  intros Hw. unfold dictRehash. destruct (dictIsRehashing d) eqn:Hr; cbn [negb].
  2: { exists d, false. split_and!; done. }
  pose proof (rehashing_state d Hw Hr) as Hrh.
  destruct (rehash_loop_spec n d (s32 (Z.of_nat n * 10)) Hrh (w_max _ Hw)) as (r & -> & Hp).
  cbn [mbind option_bind].
  assert (∀ d', rehashing d' → dictIsRehashing d' = true) as Hrb.
  { intros d' Hd'. unfold dictIsRehashing. pose proof (rh_idx _ Hd').
    destruct (Z.eqb_spec (rehashidx d') (-1)); [lia|done]. }
  destruct r as [d'|d'].
  - destruct Hp as (R & Se & Hsz & Hlt & Hu). exists d', true.
    split_and!; try done; [by eapply same_wf; eauto|by apply Hrb|congruence].
  - destruct Hp as (R & Se & Hsz & Hle & Hlt). pose proof R as [_ [n0 L0] [n1 L1] _].
    destruct (Z.eqb_spec (used (ht0 d')) 0) as [E|E].
    + eexists _, false. split; [done|].
      assert (same_entries d (set_rehashidx (set_ht1 (set_ht0 d' (ht1 d')) _dictReset) (-1))) as Se'.
      { etrans; [exact Se|]. repeat split; try done. unfold entries. cbn.
        rewrite app_nil_r. pose proof (l_used _ _ _ L0) as U0. rewrite E in U0.
        destruct (concat (table (ht0 d'))); [done|simpl in U0; lia]. }
      split_and!; try done.
      * eapply same_wf; [done|done|]. right. split_and!; [done|done|]. by exists n1.
      * intros _. cbn. rewrite (l_size _ _ _ L1). pose proof (live_pow _ _ _ L1). lia.
    + exists d', true. split_and!; try done; [by eapply same_wf; eauto|by apply Hrb|congruence|].
      intros _ Hn. split_and!; [done|by apply Hlt|done].
Qed.

Lemma step_spec d :
  wf d → ∃ d', (if dictIsRehashing d then _dictRehashStep d else Some d) = Some d' ∧
    wf d' ∧ same_entries d d' ∧ (size (ht0 d) ≠ 0 → size (ht0 d') ≠ 0).
Proof.
  intros Hw. unfold _dictRehashStep. destruct (dictIsRehashing d); [|by exists d].
  destruct (iterators d =? 0); [|by exists d].
  destruct (dictRehash_spec d 1 Hw) as (d' & more & -> & ? & ? & _ & _ & ? & _).
  cbn [mbind option_bind]. by exists d'.
Qed.

(** ** Lookup *)

(** [p] points to the entry [e] of [d]. *)
Definition points_to (d : dict) (p : eptr) (e : dictEntry) : Prop :=
  ∃ n b, live (type d) (ht d (e_table p)) n ∧
    e_idx p = dictHashKey d (e_key p) mod 2 ^ Z.of_nat n ∧
    table (ht d (e_table p)) !! Z.to_nat (e_idx p) = Some b ∧
    chain_find key (e_key p) b = Some e ∧ key e = e_key p.

Lemma entries_ht d t :
  entries d ≡ₚ concat (table (ht d t)) ++ concat (table (ht d (negb t))).
Proof. destruct t; unfold entries; simpl; [apply Permutation_app_comm|done]. Qed.

Lemma dmap_None d k : dmap d !! k = None ↔ k ∉ key <$> entries d.
Proof.
  unfold dmap. rewrite <- not_elem_of_list_to_map. unfold kvof. by rewrite kv_keys.
Qed.

Lemma dmap_elem d e : wf d → e ∈ entries d → dmap d !! key e = Some (v e).
Proof.
  intros Hw He. apply elem_of_list_to_map.
  - unfold kvof. rewrite kv_keys. apply (w_nodup _ Hw).
  - apply list_elem_of_fmap. by exists e.
Qed.

Lemma points_to_elem d p e : points_to d p e → e ∈ entries d.
Proof.
  intros (n & b & _ & _ & Hb & Hf & _). rewrite (entries_ht d (e_table p)).
  apply elem_of_app. left. eapply bucket_elem_of; [exact Hb|].
  apply chain_find_split in Hf as (b1 & b2 & -> & _). set_solver.
Qed.

Lemma points_to_dmap d p e :
  wf d → points_to d p e → dmap d !! e_key p = Some (v e).
Proof.
  intros Hw Hp. pose proof (points_to_elem _ _ _ Hp) as He.
  destruct Hp as (n & b & _ & _ & _ & _ & <-). by apply dmap_elem.
Qed.

Lemma entry_at_spec d p e : points_to d p e → entry_at d p = Some e.
Proof.
  intros (n & b & Hl & Hi & Hb & Hf & _). unfold entry_at, bucket.
  pose proof (live_pow _ _ _ Hl).
  rewrite decide_True by (rewrite Hi; apply Z.mod_pos_bound; lia).
  rewrite Hb. done.
Qed.

Lemma find_in_spec d t k n :
  live (type d) (ht d t) n →
  ∃ r, find_in d t (dictHashKey d k) k = Some r ∧
    match r with
    | None => k ∉ key <$> concat (table (ht d t))
    | Some p => e_key p = k ∧ ∃ e, points_to d p e
    end.
Proof.
  intros Hl. unfold find_in. rewrite (live_idx _ _ _ _ Hl).
  destruct (live_bucket _ _ _ (dictHashKey d k) Hl) as (b & Hb & ->). cbn [mbind option_bind].
  destruct (chain_find key k b) as [e|] eqn:Hf.
  - eexists. split; [done|]. apply chain_find_split in Hf as Hs. destruct Hs as (? & ? & _ & <- & _).
    split; [done|]. exists e, n, b. done.
  - exists None. split; [done|]. by eapply live_find_None.
Qed.

Lemma find_tables_spec d k :
  wf d → size (ht0 d) ≠ 0 →
  ∃ r, find_tables d (dictHashKey d k) k = Some r ∧
    match r with
    | None => k ∉ key <$> entries d
    | Some p => e_key p = k ∧ ∃ e, points_to d p e
    end.
Proof.
  intros Hw Hne. unfold find_tables.
  assert ((dictIsRehashing d = false ∧ table (ht1 d) = [] ∧ ∃ n, live (type d) (ht d false) n) ∨
    dictIsRehashing d = true ∧ (∃ n, live (type d) (ht d false) n) ∧
      ∃ n, live (type d) (ht d true) n) as [(Hr & E & n & Hl)|(Hr & [n Hl] & [n1 Hl1])].
  { unfold dictIsRehashing. destruct (w_state _ Hw) as [(-> & E1 & [E0|L])|(H0 & L0 & L1 & _)].
    - by rewrite E0 in Hne.
    - left. rewrite E1. done.
    - right. split_and!; try done. destruct (Z.eqb_spec (rehashidx d) (-1)); [lia|done]. }
  - destruct (find_in_spec d false k n Hl) as (r & -> & Hp). cbn [mbind option_bind].
    rewrite Hr. cbn [negb]. destruct r as [p|]; eexists; (split; [done|]); [done|].
    unfold entries. rewrite E. simpl. by rewrite app_nil_r.
  - destruct (find_in_spec d false k n Hl) as (r & -> & Hp). cbn [mbind option_bind].
    rewrite Hr. cbn [negb]. destruct r as [p|]; [eexists; by split|].
    destruct (find_in_spec d true k n1 Hl1) as (r & -> & Hp1). eexists. split; [done|].
    destruct r; [done|]. unfold entries. rewrite fmap_app. set_solver.
Qed.

Lemma used_entries d : wf d → used (ht0 d) + used (ht1 d) = zlen (entries d).
Proof.
  intros Hw. unfold entries. rewrite length_app.
  destruct (w_state _ Hw) as [(_ & -> & [->|[n L]])|(_ & [n L] & [n1 L1] & _)]; try done;
    rewrite ?(l_used _ _ _ L), ?(l_used _ _ _ L1); simpl; lia.
Qed.

Lemma dictFind_spec d k :
  wf d → ∃ d' r, dictFind d k = Some (d', r) ∧ wf d' ∧ same_entries d d' ∧
    match r with
    | None => k ∉ key <$> entries d'
    | Some p => e_key p = k ∧ ∃ e, points_to d' p e
    end.
Proof.
  intros Hw. unfold dictFind. rewrite used_entries by done.
  pose proof (w_max _ Hw) as Hm. unfold max_entries in Hm. rewrite u64_small by (pow2; lia).
  destruct (Z.eqb_spec (zlen (entries d)) 0) as [E|E].
  { exists d, None. split_and!; try done. destruct (entries d); [set_solver|simpl in E; lia]. }
  destruct (step_spec d Hw) as (d' & -> & Hw' & Hs & _). cbn [mbind option_bind].
  destruct (find_tables_spec d' k Hw') as (r & -> & Hr).
  { intros Hz. destruct E. destruct Hs as (_ & _ & _ & <-).
    unfold entries. destruct (w_state _ Hw') as [(_ & -> & [->|[n L]])|(_ & [n L] & _)]; [done|..];
      pose proof (live_pow _ _ _ L); rewrite (l_size _ _ _ L) in Hz; lia. }
  cbn [mbind option_bind]. by exists d', r.
Qed.

Lemma dictFetchValue_spec d k :
  wf d → ∃ d', dictFetchValue d k = Some (d', dmap d !! k) ∧ wf d' ∧ same_entries d d'.
Proof.
  intros Hw. unfold dictFetchValue.
  destruct (dictFind_spec d k Hw) as (d' & r & -> & Hw' & Hs & Hr). cbn [mbind option_bind].
  exists d'. rewrite <- (same_dmap d d' Hw Hs). destruct r as [p|].
  - destruct Hr as (<- & e & He). rewrite (entry_at_spec _ _ _ He). cbn [mbind option_bind].
    by rewrite (points_to_dmap _ _ _ Hw' He).
  - apply dmap_None in Hr. by rewrite Hr.
Qed.

(** ** Resizing *)

Lemma next_power_loop_spec fuel : ∀ (j : nat) sz,
  (2 ≤ j ≤ 63)%nat → sz ≤ 2 ^ 63 → (63 - j < fuel)%nat →
  ∃ n : nat, next_power_loop fuel (2 ^ Z.of_nat j) sz = Some (2 ^ Z.of_nat n) ∧
    (j ≤ n ≤ 63)%nat ∧ sz ≤ 2 ^ Z.of_nat n ∧ (n = j ∨ 2 ^ (Z.of_nat n - 1) < sz).
Proof.
  induction fuel as [|fuel IH]; intros j sz Hj Hsz Hf; [lia|].
  cbn [next_power_loop]. rewrite Z.geb_leb.
  destruct (Z.leb_spec sz (2 ^ Z.of_nat j)) as [Hle|Hgt].
  { exists j. split_and!; try done; try lia. }
  assert (j ≠ 63)%nat by (intros ->; pow2; lia).
  assert (2 ^ Z.of_nat j * 2 = 2 ^ Z.of_nat (S j)) as E.
  { rewrite Nat2Z.inj_succ, Z.pow_succ_r by lia. lia. }
  assert (2 ^ Z.of_nat (S j) ≤ 2 ^ 63) by (apply Z.pow_le_mono_r; lia).
  rewrite E, u64_small by (pow2; lia).
  destruct (IH (S j) sz) as (n & -> & Hn & Hle & Hmin); [lia|done|lia|].
  exists n. split_and!; try done; try lia. right.
  destruct Hmin as [->|]; [|done]. by replace (Z.of_nat (S j) - 1) with (Z.of_nat j) by lia.
Qed.

(** The smallest power of two, at least 4, that is not below [sz]. *)
Lemma nextPower_spec sz :
  0 ≤ sz < PORT_LONG_MAX →
  ∃ n : nat, _dictNextPower sz = Some (2 ^ Z.of_nat n) ∧ (2 ≤ n ≤ 63)%nat ∧
    sz ≤ 2 ^ Z.of_nat n ∧ (n = 2%nat ∨ 2 ^ (Z.of_nat n - 1) < sz).
Proof.
  intros H0. unfold _dictNextPower. rewrite Z.geb_leb. unfold PORT_LONG_MAX in *. pow2.
  destruct (Z.leb_spec (9223372036854775808 - 1) sz); [lia|].
  destruct (next_power_loop_spec 62 2 sz) as (n & E & Hn); [lia|pow2; lia|lia|].
  exists n. split; [exact E|]. naive_solver.
Qed.

Lemma replicate_live t n :
  (2 ≤ n ≤ 31)%nat →
  live t (mk_ht (replicate (Z.to_nat (2 ^ Z.of_nat n)) []) (2 ^ Z.of_nat n)
    (u64 (2 ^ Z.of_nat n - 1)) 0) n.
Proof.
  intros Hn. assert (4 ≤ 2 ^ Z.of_nat n ≤ 2 ^ 31) by
    (change 4 with (2 ^ 2); split; apply Z.pow_le_mono_r; lia).
  pow2. split; cbn [size sizemask used table]; try done.
  - apply u64_small. pow2. lia.
  - rewrite length_replicate. lia.
  - by rewrite concat_replicate_nil.
  - intros i b e [-> _]%lookup_replicate_1 He. by apply elem_of_nil in He.
Qed.

Lemma dictExpand_spec d sz :
  wf d → 0 ≤ sz ≤ 2 ^ 31 →
  ∃ d' ok, dictExpand d sz = Some (d', ok) ∧ wf d' ∧ same_entries d d' ∧
    (ok = false → d' = d) ∧
    (dictIsRehashing d = false → used (ht0 d) ≤ sz → size (ht0 d) < sz →
      ok = true ∧ size (ht0 d') ≠ 0).
Proof.
  intros Hw Hsz. unfold dictExpand. pow2.
  destruct (nextPower_spec sz) as (n & -> & Hn & Hle & Hmin); [unfold PORT_LONG_MAX; pow2; lia|].
  cbn [mbind option_bind]. rewrite Z.gtb_ltb.
  destruct (dictIsRehashing d) eqn:Hr; cbn [orb].
  { exists d, false. done. }
  destruct (Z.ltb_spec sz (used (ht0 d))).
  { exists d, false. split_and!; try done. lia. }
  destruct (Z.eqb_spec (2 ^ Z.of_nat n) (size (ht0 d))).
  { exists d, false. split_and!; try done. lia. }
  assert (n ≤ 31)%nat as Hn31.
  { destruct (decide (n ≤ 31)%nat) as [|Hgt]; [done|]. exfalso.
    destruct Hmin as [->|Hmin]; [lia|].
    pose proof (Z.pow_le_mono_r 2 31 (Z.of_nat n - 1) ltac:(lia) ltac:(lia)). pow2. lia. }
  pose proof (replicate_live (type d) n ltac:(lia)) as L.
  pose proof (live_pow _ _ _ L). unfold dictIsRehashing in Hr.
  destruct (w_state _ Hw) as [(Hi & E1 & Hs)|(Hi & _)]; cycle 1.
  { destruct (Z.eqb_spec (rehashidx d) (-1)); [lia|done]. }
  destruct (table (ht0 d)) as [|b0 t0] eqn:Et.
  - eexists _, true. split; [done|].
    assert (same_entries d (set_ht0 d
      (mk_ht (replicate (Z.to_nat (2 ^ Z.of_nat n)) []) (2 ^ Z.of_nat n)
        (u64 (2 ^ Z.of_nat n - 1)) 0))) as Se.
    { repeat split; try done. unfold entries. simpl. by rewrite concat_replicate_nil, Et. }
    split_and!; try done; [|simpl; lia].
    eapply same_wf; [done|done|]. right. split_and!; [done|done|]. by exists n.
  - eexists _, true. split; [done|].
    assert (same_entries d (set_rehashidx (set_ht1 d
      (mk_ht (replicate (Z.to_nat (2 ^ Z.of_nat n)) []) (2 ^ Z.of_nat n)
        (u64 (2 ^ Z.of_nat n - 1)) 0)) 0)) as Se.
    { repeat split; try done. unfold entries. simpl. by rewrite concat_replicate_nil, E1. }
    destruct Hs as [E0|[m L0]]; [by rewrite E0 in Et|].
    split_and!; try done.
    + eapply same_wf; [done|done|]. left. split; simpl; [lia|by exists m|by exists n|lia].
    + intros _ _ _. split; [done|]. simpl. rewrite (l_size _ _ _ L0).
      pose proof (live_pow _ _ _ L0). lia.
Qed.

Lemma expandIfNeeded_spec cr d :
  wf d → ∃ d', _dictExpandIfNeeded cr d = Some (d', true) ∧ wf d' ∧ same_entries d d' ∧
    size (ht0 d') ≠ 0.
Proof.
  intros Hw. unfold _dictExpandIfNeeded. destruct (dictIsRehashing d) eqn:Hr.
  { exists d. split_and!; try done. destruct (rehashing_state d Hw Hr) as [_ [n L] _ _].
    rewrite (l_size _ _ _ L). pose proof (live_pow _ _ _ L). lia. }
  pose proof (used_entries d Hw) as Hu. pose proof (w_max _ Hw) as Hm. unfold max_entries in Hm.
  assert (0 ≤ used (ht0 d) ≤ 2 ^ 30) as Hu0.
  { pow2. destruct (w_state _ Hw) as [(_ & E1 & _)|(Hi & _)].
    - rewrite E1 in Hu. simpl in Hu. lia.
    - unfold dictIsRehashing in Hr. destruct (Z.eqb_spec (rehashidx d) (-1)); [lia|done]. }
  pow2. destruct (Z.eqb_spec (size (ht0 d)) 0) as [E|E].
  - destruct (dictExpand_spec d DICT_HT_INITIAL_SIZE Hw) as (d' & ok & -> & ? & ? & _ & Hok);
      [done|]. destruct Hok as [-> ?]; [done| |rewrite E; done|by exists d'].
    destruct (w_state _ Hw) as [(_ & _ & [->|[n L]])|(_ & [n L] & _)]; [done|..];
      pose proof (live_pow _ _ _ L); rewrite (l_size _ _ _ L) in E; lia.
  - rewrite Z.geb_leb. destruct (Z.leb_spec (size (ht0 d)) (used (ht0 d))) as [Hle|]; cbn [andb].
    2: { exists d. done. }
    destruct (cr || _); [|by exists d].
    assert (0 < size (ht0 d)).
    { destruct (w_state _ Hw) as [(_ & _ & [E0|[n L]])|(_ & [n L] & _)]; [by rewrite E0 in E|..];
        pose proof (live_pow _ _ _ L); rewrite (l_size _ _ _ L); lia. }
    rewrite u64_small by (pow2; lia).
    destruct (dictExpand_spec d (used (ht0 d) * 2) Hw) as (d' & ok & -> & ? & ? & _ & Hok);
      [pow2; lia|]. destruct Hok as [-> ?]; [done|lia|lia|by exists d'].
Qed.

Lemma dictResize_spec cr d :
  wf d → ∃ d' ok, dictResize cr d = Some (d', ok) ∧ wf d' ∧ same_entries d d'.
Proof.
  intros Hw. unfold dictResize. destruct (negb cr || dictIsRehashing d) eqn:Hr; [by exists d, false|].
  pose proof (used_entries d Hw) as Hu. pose proof (w_max _ Hw) as Hm. unfold max_entries in Hm.
  assert (0 ≤ used (ht0 d) ≤ 2 ^ 30) as Hu0.
  { pow2. destruct (w_state _ Hw) as [(_ & E1 & [E0|[n L]])|(_ & [n L] & [n1 L1] & _)];
      [rewrite E0; simpl; lia|rewrite E1 in Hu; simpl in Hu; lia|].
    rewrite (l_used _ _ _ L), (l_used _ _ _ L1) in Hu. rewrite (l_used _ _ _ L). lia. }
  pow2. unfold s32. rewrite wraps_id by (unfold in_s; simpl; pow2; lia).
  set (m := if used (ht0 d) <? DICT_HT_INITIAL_SIZE then DICT_HT_INITIAL_SIZE else used (ht0 d)).
  assert (0 ≤ m ≤ 2 ^ 30) as Hm'.
  { subst m. unfold DICT_HT_INITIAL_SIZE. pow2. destruct (Z.ltb_spec (used (ht0 d)) 4); lia. }
  pow2. rewrite u64_small by (pow2; lia).
  destruct (dictExpand_spec d m Hw) as (d' & ok & -> & ? & ? & _); [pow2; lia|].
  by exists d', ok.
Qed.

(** ** Updating one bucket *)

Definition put_bucket (d : dict) (t : bool) (i : Z) (b' : list dictEntry) (n : Z) : dict :=
  set_ht d t (set_used (set_bucket (ht d t) i b') n).

Lemma put_bucket_entries d t i b b' n :
  table (ht d t) !! Z.to_nat i = Some b →
  ∃ r, entries d ≡ₚ b ++ r ∧ entries (put_bucket d t i b' n) ≡ₚ b' ++ r.
Proof.
  intros Hb. destruct (concat_insert_perm _ _ b b' Hb) as (r & P1 & P2).
  exists (r ++ concat (table (ht d (negb t)))). split.
  - by rewrite (entries_ht d t), P1, app_assoc.
  - rewrite (entries_ht _ t). unfold put_bucket. destruct t; cbn in *; by rewrite P2, app_assoc.
Qed.

Lemma put_bucket_wf d t i b b' n m :
  wf d → live (type d) (ht d t) n → 0 ≤ i → table (ht d t) !! Z.to_nat i = Some b →
  (∀ e, e ∈ b' → hashFunction (type d) (key e) mod 2 ^ Z.of_nat n = i) →
  (b = [] → t = dictIsRehashing d) →
  m = used (ht d t) - zlen b + zlen b' →
  NoDup (key <$> entries (put_bucket d t i b' m)) →
  zlen (entries (put_bucket d t i b' m)) ≤ max_entries →
  wf (put_bucket d t i b' m).
Proof.
  intros Hw Hl Hi Hb Hp Hne -> Hnd Hmax.
  destruct (live_update _ _ _ _ b b' Hl Hb) as (Hl' & _).
  { intros e He. rewrite (Hp e He). lia. }
  split; [by destruct t; apply (w_type _ Hw)|done|done|].
  unfold dictIsRehashing in Hne.
  destruct (w_state _ Hw) as [(E & E1 & Hs)|(H0 & [n0 L0] & [n1 L1] & Hlow)].
  - left. destruct t; simpl in *.
    + rewrite E1 in Hb. by apply lookup_lt_Some in Hb; simpl in Hb; lia.
    + split_and!; [done|done|]. right. by exists n.
  - right. destruct t; simpl in *.
    + split_and!; [done|by exists n0|by exists n|done].
    + split_and!; [done|by exists n|by exists n1|]. intros j c Hj Hc.
      destruct (decide (j = Z.to_nat i)) as [->|Hji].
      * pose proof (Hlow _ _ Hj Hb) as ->. specialize (Hne eq_refl).
        destruct (Z.eqb_spec (rehashidx d) (-1)); [lia|done].
      * rewrite list_lookup_insert_ne in Hc by done. eauto.
Qed.

Lemma perm_dmap d (l : list dictEntry) :
  NoDup (key <$> entries d) → entries d ≡ₚ l → dmap d = list_to_map (kvof <$> l).
Proof.
  intros Hnd Hp. apply list_to_map_proper; [|by rewrite Hp]. unfold kvof. by rewrite kv_keys.
Qed.

Definition dup_val (t : dictType) (val : V) : V :=
  match valDup t with Some f => f val | None => val end.

Lemma dictSetVal_spec d p e val :
  wf d → points_to d p e →
  ∃ d', dictSetVal d p val = Some d' ∧ wf d' ∧ type d' = type d ∧ freed d' = freed d ∧
    dictIsRehashing d' = dictIsRehashing d ∧
    dmap d' = <[e_key p := Some (dup_val (type d) val)]> (dmap d) ∧
    length (entries d') = length (entries d).
Proof.
  intros Hw (n & b & Hl & Hi & Hb & Hf & He). unfold dictSetVal, bucket.
  pose proof (live_pow _ _ _ Hl).
  assert (0 ≤ e_idx p) by (rewrite Hi; apply Z.mod_pos_bound; lia).
  rewrite decide_True, Hb by done. cbn [mbind option_bind]. rewrite Hf. cbn [mbind option_bind].
  fold (dup_val (type d) val). set (e' := mk_entry (key e) (Some (dup_val (type d) val))).
  eexists. split; [done|].
  change (set_bucket (ht d (e_table p)) (e_idx p) (chain_set key (e_key p) e' b))
    with (set_used (set_bucket (ht d (e_table p)) (e_idx p) (chain_set key (e_key p) e' b))
      (used (ht d (e_table p)))).
  set (d' := set_ht _ _ _).
  change d' with (put_bucket d (e_table p) (e_idx p) (chain_set key (e_key p) e' b)
    (used (ht d (e_table p)))). clear d'.
  destruct (put_bucket_entries d (e_table p) (e_idx p) b (chain_set key (e_key p) e' b)
    (used (ht d (e_table p))) Hb) as (r & P1 & P2).
  apply chain_find_split in Hf as (b1 & b2 & -> & _ & Hset & _). rewrite Hset in *.
  assert (entries d ≡ₚ e :: (b1 ++ b2 ++ r)) as Q1.
  { rewrite P1, <- app_assoc. simpl. by rewrite <- Permutation_middle. }
  rewrite <- app_assoc in P2. simpl in P2.
  rewrite <- (Permutation_middle b1 (b2 ++ r)) in P2. pose proof (w_nodup _ Hw) as Hnd.
  assert (NoDup (key <$> e' :: (b1 ++ b2 ++ r))) as Hnd' by (by rewrite Q1 in Hnd).
  rewrite <- P2 in Hnd'. split_and!.
  - apply (put_bucket_wf d _ _ (b1 ++ e :: b2) _ n); try done.
    + intros x Hx. apply elem_of_app in Hx as [Hx|[->|Hx]%elem_of_cons].
      * rewrite (l_place _ _ _ Hl _ _ x Hb); [lia|set_solver].
      * change (key e') with (key e). rewrite (l_place _ _ _ Hl _ _ e Hb); [lia|set_solver].
      * rewrite (l_place _ _ _ Hl _ _ x Hb); [lia|set_solver].
    + intros Hnil. by destruct b1.
    + rewrite !length_app. simpl. lia.
    + rewrite P2. pose proof (w_max _ Hw) as Hm. rewrite Q1 in Hm. exact Hm.
  - by destruct (e_table p).
  - by destruct (e_table p).
  - by destruct (e_table p).
  - rewrite (perm_dmap _ _ Hnd' P2), (perm_dmap _ _ Hnd Q1). cbn. by rewrite He, insert_insert_eq.
  - rewrite P2, Q1. done.
Qed.

Lemma same_type d d' : same_entries d d' → type d' = type d.
Proof. by intros (? & _). Qed.

Lemma same_length d d' : same_entries d d' → length (entries d') = length (entries d).
Proof. intros (_ & _ & _ & E). by rewrite E. Qed.

Lemma same_freed d d' : same_entries d d' → freed d' = freed d.
Proof. by intros (_ & _ & ? & _). Qed.

(** Linking a new entry in front of its chain. *)
Lemma link_entry d n k b :
  let t := dictIsRehashing d in
  let i := dictHashKey d k mod 2 ^ Z.of_nat n in
  let e := mk_entry k None in
  let d' := put_bucket d t i (e :: b) (used (ht d t) + 1) in
  wf d → live (type d) (ht d t) n → table (ht d t) !! Z.to_nat i = Some b →
  k ∉ key <$> entries d → zlen (entries d) < max_entries →
  u64 (used (ht d t) + 1) = used (ht d t) + 1 ∧ wf d' ∧ points_to d' (mk_eptr t i k) e ∧
  dmap d' = <[k := None]> (dmap d) ∧ length (entries d') = S (length (entries d)).
Proof.
  intros t i e d' Hw L Hb Hk Hmax. pose proof (live_pow _ _ _ L).
  assert (0 ≤ i) as Hi by (apply Z.mod_pos_bound; lia).
  assert (0 ≤ used (ht d t) ∧ used (ht d t) + 1 < 2 ^ 64) as Hu.
  { pose proof (used_entries d Hw) as Hu. pose proof (w_max _ Hw) as Hm.
    unfold max_entries in Hm. pose proof (l_used _ _ _ L) as Hul. pow2.
    rewrite (entries_ht d t), length_app in Hm. lia. }
  split; [by rewrite u64_small by lia|].
  destruct (put_bucket_entries d t i b (e :: b) (used (ht d t) + 1) Hb) as (r & P1 & P2).
  simpl in P2. rewrite <- P1 in P2. fold d' in P2.
  assert (NoDup (key <$> e :: entries d)) as Hnd.
  { simpl. constructor; [done|]. apply (w_nodup _ Hw). }
  rewrite <- P2 in Hnd.
  destruct (live_cons (type d) (ht d t) n e b L Hb) as [L' _].
  assert (type d' = type d) as Ht by (unfold d'; by destruct t).
  split_and!.
  - apply (put_bucket_wf d t i b _ n); try done; [|simpl; lia|].
    + intros x [->|Hx]%elem_of_cons; [done|]. rewrite (l_place _ _ _ L _ _ x Hb Hx). lia.
    + fold d'. rewrite P2. simpl. lia.
  - exists n, (e :: b). simpl e_table. simpl e_key. simpl e_idx.
    assert (ht d' t = set_used (set_bucket (ht d t) i (e :: b)) (used (ht d t) + 1)) as ->
      by (unfold d'; by destruct t).
    unfold dictHashKey. rewrite Ht.
    split_and!; [done|done| |simpl; by rewrite decide_True|done].
    simpl. apply list_lookup_insert_eq. by eapply lookup_lt_Some.
  - by rewrite (perm_dmap _ _ Hnd P2).
  - by rewrite P2.
Qed.

Lemma dictAddRaw_spec cr d k :
  wf d → zlen (entries d) < max_entries →
  ∃ d' r, dictAddRaw cr d k = Some (d', r) ∧ wf d' ∧ type d' = type d ∧ freed d' = freed d ∧
    match r with
    | None => same_entries d d' ∧ is_Some (dmap d !! k)
    | Some p => dmap d !! k = None ∧ e_key p = k ∧ points_to d' p (mk_entry k None) ∧
        dmap d' = <[k := None]> (dmap d) ∧ length (entries d') = S (length (entries d))
    end.
Proof.
  intros Hw Hmax. unfold dictAddRaw.
  destruct (step_spec d Hw) as (d1 & -> & Hw1 & S1 & _). cbn [mbind option_bind].
  unfold _dictKeyIndex. destruct (expandIfNeeded_spec cr d1 Hw1) as (d2 & -> & Hw2 & S2 & Hsz).
  cbn [mbind option_bind negb].
  assert (same_entries d d2) as S12 by (by etrans). clear S1 S2 Hw1.
  destruct (find_tables_spec d2 k Hw2 Hsz) as (r & -> & Hr). cbn [mbind option_bind].
  destruct r as [p|].
  { cbn. exists d2, None. split_and!; try done; [by apply same_type|by apply same_freed|].
    destruct Hr as (<- & e & He). rewrite <- (same_dmap d d2 Hw S12).
    rewrite (points_to_dmap _ _ _ Hw2 He). done. }
  set (t := dictIsRehashing d2).
  assert (∃ n, live (type d2) (ht d2 t) n) as [n L].
  { unfold t, dictIsRehashing. destruct (w_state _ Hw2) as [(-> & _ & [E0|L])|(Hi & _ & L & _)].
    - by rewrite E0 in Hsz.
    - done.
    - destruct (Z.eqb_spec (rehashidx d2) (-1)); [lia|done]. }
  pose proof (live_pow _ _ _ L). rewrite (live_idx _ _ _ _ L).
  set (i := dictHashKey d2 k mod 2 ^ Z.of_nat n).
  assert (0 ≤ i < 2 ^ Z.of_nat n) as Hi by (apply Z.mod_pos_bound; lia).
  pow2. unfold s32. rewrite wraps_id by (unfold in_s; simpl; pow2; lia).
  cbn [mbind option_bind]. destruct (Z.eqb_spec i (-1)); [lia|].
  destruct (live_bucket _ _ _ (dictHashKey d2 k) L) as (b & Hb & Hb'). fold i in Hb, Hb'.
  cbv zeta. fold t. rewrite Hb'. cbn [mbind option_bind].
  assert (dictSetKey d2 k = k) as ->.
  { unfold dictSetKey. destruct (keyDup (type d2)) as [f|] eqn:Ef; [|done].
    by apply (t_dup _ (w_type _ Hw2) f). }
  eexists _, _. split; [done|].
  destruct (link_entry d2 n k b) as (Eu & Hw3 & Hpt & Hm3 & Hl3); fold t i; try done.
  { by rewrite (same_length _ _ S12). }
  fold t i in Eu, Hw3, Hpt, Hm3, Hl3. cbn [used set_bucket]. rewrite Eu.
  change (set_ht d2 t _) with (put_bucket d2 t i (mk_entry k None :: b) (used (ht d2 t) + 1)).
  split_and!; try done.
  - rewrite <- (same_type _ _ S12). by destruct t.
  - rewrite <- (same_freed _ _ S12). by destruct t.
  - rewrite <- (same_dmap d d2 Hw S12). by apply dmap_None.
  - by rewrite <- (same_dmap d d2 Hw S12).
  - by rewrite Hl3, (same_length _ _ S12).
Qed.

Lemma dictAdd_spec cr d k val :
  wf d → zlen (entries d) < max_entries →
  ∃ d', dictAdd cr d k val = Some (d', bool_decide (dmap d !! k = None)) ∧ wf d' ∧
    type d' = type d ∧ freed d' = freed d ∧
    dmap d' = match dmap d !! k with
              | None => <[k := Some (dup_val (type d) val)]> (dmap d)
              | Some _ => dmap d
              end ∧
    length (entries d') =
      if bool_decide (dmap d !! k = None) then S (length (entries d)) else length (entries d).
Proof.
  intros Hw Hmax. unfold dictAdd.
  destruct (dictAddRaw_spec cr d k Hw Hmax) as (d1 & r & -> & Hw1 & Ht & Hf & Hr).
  cbn [mbind option_bind]. destruct r as [p|].
  - destruct Hr as (Hn & Hk & Hp & Hm & Hlen).
    destruct (dictSetVal_spec d1 p _ val Hw1 Hp) as (d2 & -> & Hw2 & Ht2 & Hf2 & _ & Hm2 & Hlen2).
    cbn [mbind option_bind]. exists d2. rewrite Hn, bool_decide_true by done.
    split_and!; [done|done|congruence|congruence| |congruence].
    by rewrite Hm2, Hm, Hk, Ht, insert_insert_eq.
  - destruct Hr as (Hs & [o Ho]). exists d1. rewrite Ho, bool_decide_false by done.
    split_and!; try done; [by apply same_dmap|by apply same_length].
Qed.

Definition free_val (t : dictType) (o : option V) (l : list (K + option V)) :=
  if valDestructor t then inr o :: l else l.
Definition free_key (t : dictType) (k : K) (l : list (K + option V)) :=
  if keyDestructor t then inl k :: l else l.

Lemma dictFreeVal_fields d e :
  wf d → wf (dictFreeVal d e) ∧ dmap (dictFreeVal d e) = dmap d ∧
  type (dictFreeVal d e) = type d ∧ entries (dictFreeVal d e) = entries d ∧
  freed (dictFreeVal d e) = free_val (type d) (v e) (freed d).
Proof.
  intros [W1 W2 W3 W4]. unfold dictFreeVal, free_val.
  destruct (valDestructor (type d)); split_and!; done.
Qed.

Lemma dictReplace_spec cr d k val :
  wf d → zlen (entries d) < max_entries →
  ∃ d', dictReplace cr d k val = Some (d', bool_decide (dmap d !! k = None)) ∧ wf d' ∧
    type d' = type d ∧
    freed d' = match dmap d !! k with None => freed d | Some o => free_val (type d) o (freed d) end ∧
    dmap d' = <[k := Some (dup_val (type d) val)]> (dmap d) ∧
    length (entries d') =
      if bool_decide (dmap d !! k = None) then S (length (entries d)) else length (entries d).
Proof.
  intros Hw Hmax. unfold dictReplace.
  destruct (dictAdd_spec cr d k val Hw Hmax) as (d1 & -> & Hw1 & Ht1 & Hf1 & Hm1 & Hlen1).
  cbn [mbind option_bind]. destruct (dmap d !! k) as [o|] eqn:Hk.
  2: { exists d1. rewrite bool_decide_true in * by done. split_and!; done. }
  rewrite bool_decide_false in * by done.
  destruct (dictFind_spec d1 k Hw1) as (d2 & r & -> & Hw2 & Hs2 & Hr). cbn [mbind option_bind].
  assert (dmap d2 = dmap d) as Hm2 by (by rewrite (same_dmap d1 d2), Hm1).
  destruct r as [p|]; [|apply dmap_None in Hr; congruence].
  destruct Hr as (<- & e & He). cbn [mbind option_bind].
  rewrite (entry_at_spec _ _ _ He). cbn [mbind option_bind].
  destruct (dictSetVal_spec d2 p e val Hw2 He) as (d3 & -> & Hw3 & Ht3 & Hf3 & _ & Hm3 & Hlen3).
  cbn [mbind option_bind].
  destruct (dictFreeVal_fields d3 e Hw3) as (Hw4 & Hm4 & Ht4 & He4 & Hf4).
  eexists. split; [done|]. pose proof (points_to_dmap _ _ _ Hw2 He) as Hv.
  assert (type d2 = type d) as Ht2 by (rewrite (same_type _ _ Hs2); done).
  split_and!; [done|congruence| | |].
  - rewrite Hf4, Hf3, (same_freed _ _ Hs2), Hf1, Ht3, Ht2. congruence.
  - by rewrite Hm4, Hm3, Hm2, Ht2.
  - rewrite He4, Hlen3, (same_length _ _ Hs2). done.
Qed.

(** Unlinking one entry of a chain. *)
Lemma unlink_entry d t n i e b1 b2 :
  wf d → live (type d) (ht d t) n → 0 ≤ i →
  table (ht d t) !! Z.to_nat i = Some (b1 ++ e :: b2) →
  let d' := put_bucket d t i (b1 ++ b2) (used (ht d t) - 1) in
  u64 (used (ht d t) - 1) = used (ht d t) - 1 ∧ wf d' ∧
  dmap d' = delete (key e) (dmap d) ∧ length (entries d) = S (length (entries d')).
Proof.
  intros Hw Hl Hi Hb d'.
  destruct (put_bucket_entries d t i _ (b1 ++ b2) (used (ht d t) - 1) Hb) as (r & P1 & P2).
  assert (entries d ≡ₚ e :: (b1 ++ b2 ++ r)) as Q1.
  { rewrite P1, <- app_assoc. simpl. by rewrite <- Permutation_middle. }
  assert (1 ≤ used (ht d t) < 2 ^ 64) as Hu.
  { pose proof (l_used _ _ _ Hl) as Hu. pose proof (w_max _ Hw) as Hmx. unfold max_entries in Hmx.
    rewrite (entries_ht d t), length_app in Hmx. pow2.
    destruct (concat (table (ht d t))) eqn:Ec; [|simpl in *; lia].
    assert (e ∈ concat (table (ht d t))) as Hin; [|rewrite Ec in Hin; set_solver].
    eapply bucket_elem_of; [exact Hb|set_solver]. }
  split; [by rewrite u64_small by lia|]. fold d' in P2.
  pose proof (w_nodup _ Hw) as Hnd. rewrite Q1 in Hnd. simpl in Hnd.
  apply NoDup_cons in Hnd as [Hni Hnd]. rewrite <- app_assoc in P2.
  assert (NoDup (key <$> entries d')) as Hnd4 by (by rewrite P2).
  split; [|split].
  - apply (put_bucket_wf d t i (b1 ++ e :: b2) _ n); try done.
    + intros x Hx. rewrite (l_place _ _ _ Hl _ _ x Hb); [lia|set_solver].
    + intros Hnil. by destruct b1.
    + rewrite !length_app. simpl. lia.
    + fold d'. rewrite P2. pose proof (w_max _ Hw) as Hmx. rewrite Q1 in Hmx. simpl in Hmx. lia.
  - rewrite (perm_dmap _ _ Hnd4 P2), (perm_dmap _ _ (w_nodup _ Hw) Q1). cbn.
    rewrite delete_insert_id; [done|]. apply not_elem_of_list_to_map_1.
    unfold kvof. by rewrite kv_keys.
  - by rewrite P2, Q1.
Qed.

Lemma dictGenericDelete_spec d k nofree :
  wf d →
  ∃ d', dictGenericDelete d k nofree = Some (d', bool_decide (is_Some (dmap d !! k))) ∧ wf d' ∧
    type d' = type d ∧ dmap d' = delete k (dmap d) ∧
    freed d' = match dmap d !! k with
               | None => freed d
               | Some o => if nofree then freed d
                           else free_val (type d) o (free_key (type d) k (freed d))
               end ∧
    (length (entries d') ≤ length (entries d))%nat.
Proof.
  intros Hw. unfold dictGenericDelete. destruct (Z.eqb_spec (size (ht0 d)) 0) as [E|E].
  { assert (dmap d !! k = None) as Hk.
    { apply dmap_None. unfold entries.
      destruct (w_state _ Hw) as [(_ & -> & [->|[n L]])|(_ & [n L] & _)]; [set_solver|..];
        pose proof (live_pow _ _ _ L); rewrite (l_size _ _ _ L) in E; lia. }
    exists d. rewrite Hk, bool_decide_false by (by intros [? ?]).
    split_and!; try done. by rewrite delete_id. }
  destruct (step_spec d Hw) as (d1 & -> & Hw1 & S1 & E1). specialize (E1 E).
  cbn [mbind option_bind].
  destruct (find_tables_spec d1 k Hw1 E1) as (r & -> & Hr). cbn [mbind option_bind].
  pose proof (same_length d d1 S1) as Hlen.
  rewrite <- (same_dmap d d1), <- (same_type d d1), <- (same_freed d d1) by done.
  destruct r as [p|].
  2: { apply dmap_None in Hr. exists d1. rewrite Hr, bool_decide_false by (by intros [? ?]).
       split_and!; try done; [by rewrite delete_id|lia]. }
  destruct Hr as (<- & e & He). rewrite (entry_at_spec _ _ _ He). cbn [mbind option_bind].
  rewrite (points_to_dmap _ _ _ Hw1 He), bool_decide_true by done.
  destruct He as (n & b & Hl & Hi & Hb & Hf & He). pose proof (live_pow _ _ _ Hl).
  assert (0 ≤ e_idx p) by (rewrite Hi; apply Z.mod_pos_bound; lia).
  unfold bucket. rewrite decide_True, Hb by done. cbn [mbind option_bind].
  apply chain_find_split in Hf as (b1 & b2 & -> & _ & _ & Hdel). rewrite Hdel.
  eexists. split; [done|]. set (t := e_table p) in *. set (i := e_idx p) in *.
  set (d2 := set_ht d1 t _).
  set (d3 := if nofree then d2 else dictFreeVal (dictFreeKey d2 e) e).
  assert (ht d3 t = set_bucket (ht d1 t) i (b1 ++ b2)) as Eh.
  { unfold d3, dictFreeVal, dictFreeKey, d2. destruct nofree, t; repeat case_match; done. }
  rewrite Eh. cbn [used set_bucket].
  destruct (unlink_entry d1 t n i e b1 b2) as (-> & Hw4 & Hm4 & Hl4); [done..|].
  set (d4 := put_bucket d1 t i (b1 ++ b2) (used (ht d1 t) - 1)) in *. rewrite He in Hm4.
  set (d5 := set_ht d3 t _).
  assert (d5 = set_freed d4 (if nofree then freed d1
    else free_val (type d1) (v e) (free_key (type d1) (e_key p) (freed d1)))) as ->.
  { unfold d5, d4, d3, d2, dictFreeVal, dictFreeKey, put_bucket, free_val, free_key.
    rewrite <- He. destruct nofree, t; simpl; repeat (case_match; simpl in *); try done; congruence. }
  split_and!.
  - destruct Hw4. by split.
  - by destruct t.
  - done.
  - done.
  - change (entries (set_freed d4 _)) with (entries d4). lia.
Qed.

(** ** Clearing *)

Definition free_entry (t : dictType) (l : list (K + option V)) (e : dictEntry) :=
  free_val t (v e) (free_key t (key e) l).

(** [d] with [n] entries left in table [t] and the destructor calls [l]. *)
Definition clearing (d : dict) (t : bool) (n : Z) (l : list (K + option V)) : dict :=
  set_freed (set_ht d t (set_used (ht d t) n)) l.

Lemma clearing_clearing d t n l n' l' :
  clearing (clearing d t n l) t n' l' = clearing d t n' l'.
Proof. by destruct t. Qed.

Lemma clearing_ht d t n l : ht (clearing d t n l) t = set_used (ht d t) n.
Proof. by destruct t. Qed.

Lemma clear_chain_spec t he : ∀ d,
  zlen he ≤ used (ht d t) < 2 ^ 64 →
  clear_chain d t he =
    clearing d t (used (ht d t) - zlen he) (foldl (free_entry (type d)) (freed d) he).
Proof.
  induction he as [|e he IH]; intros d Hu.
  { simpl. rewrite Z.sub_0_r. destruct d as [ty [] [] ? ? ?], t; done. }
  cbn [length] in Hu. cbn [clear_chain foldl].
  assert (dictFreeVal (dictFreeKey d e) e = set_freed d (free_entry (type d) (freed d) e)) as ->.
  { unfold dictFreeVal, dictFreeKey, free_entry, free_val, free_key. destruct d; simpl.
    repeat (case_match; simpl in *); try done; congruence. }
  assert (ht (set_freed d (free_entry (type d) (freed d) e)) t = ht d t) as -> by (by destruct t).
  rewrite u64_small by lia.
  assert (set_ht (set_freed d (free_entry (type d) (freed d) e)) t
      (set_used (ht d t) (used (ht d t) - 1)) =
    clearing d t (used (ht d t) - 1) (free_entry (type d) (freed d) e)) as -> by (by destruct t).
  rewrite IH; rewrite clearing_ht; cbn [used set_used]; [|lia].
  rewrite clearing_clearing. f_equal; [simpl; lia|by destruct t].
Qed.

Lemma clear_loop_spec t n : ∀ fuel (i : nat) d,
  live (type d) (set_used (ht d t) (zlen (concat (table (ht d t))))) n →
  used (ht d t) = zlen (concat (drop i (table (ht d t)))) → used (ht d t) < 2 ^ 64 →
  size (ht d t) < Z.of_nat fuel + Z.of_nat i →
  clear_loop fuel (Z.of_nat i) d t = Some (clearing d t 0
    (foldl (free_entry (type d)) (freed d) (concat (drop i (table (ht d t)))))).
Proof.
  induction fuel as [|fuel IH]; intros i d L Hu Hmax Hf; pose proof (l_len _ _ _ L) as Hlen;
    cbn [table set_used size] in Hlen.
  { rewrite drop_ge in * by lia. simpl in *. destruct d as [ty [] [] ? ? ?], t; simpl in *; subst; done. }
  cbn [clear_loop]. rewrite Z.gtb_ltb.
  destruct (Z.ltb_spec (Z.of_nat i) (size (ht d t))) as [Hi|Hi]; cbn [andb]; cycle 1.
  { rewrite drop_ge in * by lia. simpl in *. destruct d as [ty [] [] ? ? ?], t; simpl in *; subst; done. }
  destruct (Z.ltb_spec 0 (used (ht d t))) as [Hp|Hp].
  2: { assert (concat (drop i (table (ht d t))) = []) as E.
       { destruct (concat (drop i (table (ht d t)))); [done|simpl in Hu; lia]. }
       rewrite E in *. simpl in *. destruct d as [ty [] [] ? ? ?], t; simpl in *; subst; done. }
  destruct (lookup_lt_is_Some_2 (table (ht d t)) i) as [b Hb]; [lia|].
  unfold bucket. rewrite decide_True, Nat2Z.id, Hb by lia. cbn [mbind option_bind].
  rewrite (drop_S _ _ _ Hb) in *. cbn [concat] in *. rewrite length_app in Hu.
  rewrite clear_chain_spec by lia.
  replace (Z.of_nat i + 1) with (Z.of_nat (S i)) by lia.
  rewrite IH; rewrite ?clearing_ht; cbn [table set_used used size]; try lia.
  - rewrite clearing_clearing, foldl_app. do 2 f_equal. by destruct t.
  - destruct t; exact L.
Qed.

Lemma dictClear_spec d t :
  ht d t = _dictReset ∨ (∃ n, live (type d) (ht d t) n) → used (ht d t) < 2 ^ 64 →
  _dictClear d t = Some (set_freed (set_ht d t _dictReset)
    (foldl (free_entry (type d)) (freed d) (concat (table (ht d t))))).
Proof.
  intros Hl Hu. unfold _dictClear. destruct Hl as [E|[n L]].
  { destruct d, t; simpl in *; subst; reflexivity. }
  pose proof (l_size _ _ _ L) as Hsz. pose proof (live_pow _ _ _ L).
  rewrite (clear_loop_spec t n (S (Z.to_nat (size (ht d t)))) 0); try lia.
  - cbn [mbind option_bind]. by destruct t.
  - pose proof (l_used _ _ _ L) as Hul. rewrite <- Hul. by destruct (ht d t).
  - apply (l_used _ _ _ L).
Qed.

Lemma clear_both d :
  wf d → ∃ d1 d2, _dictClear d false = Some d1 ∧ _dictClear d1 true = Some d2 ∧
    d2 = mk_dict (type d) _dictReset _dictReset (rehashidx d) (iterators d)
           (foldl (free_entry (type d)) (freed d) (entries d)).
Proof.
  intros Hw. pose proof (used_entries d Hw) as Hu. pose proof (w_max _ Hw) as Hm.
  unfold max_entries in Hm. pow2.
  assert (0 ≤ used (ht0 d) ∧ 0 ≤ used (ht1 d) ∧
    (ht0 d = _dictReset ∨ (∃ n, live (type d) (ht0 d) n)) ∧
    (ht1 d = _dictReset ∨ (∃ n, live (type d) (ht1 d) n))) as (U0 & U1 & L0 & L1).
  { destruct (w_state _ Hw) as [(_ & -> & [->|[n L]])|(_ & [n L] & [m L'] & _)];
      rewrite ?(l_used _ _ _ L), ?(l_used _ _ _ L'); simpl; split_and!; try lia; eauto. }
  rewrite (dictClear_spec d false); [|done|simpl; pow2; lia]. eexists _, _. split; [done|].
  rewrite (dictClear_spec _ true); [|done|simpl; pow2; lia]. split; [done|].
  unfold entries. rewrite foldl_app. by destruct d.
Qed.

Lemma dictEmpty_spec d :
  wf d → ∃ d', dictEmpty d = Some d' ∧ wf d' ∧ type d' = type d ∧ entries d' = [] ∧
    freed d' = foldl (free_entry (type d)) (freed d) (entries d).
Proof.
  intros Hw. destruct (clear_both d Hw) as (d1 & d2 & E1 & E2 & Hd). unfold dictEmpty.
  rewrite E1. cbn [mbind option_bind]. rewrite E2. cbn [mbind option_bind]. subst d2.
  eexists. split; [done|]. split_and!; try done. split; try done.
  - apply (w_type _ Hw).
  - constructor.
  - left. split_and!; try done. by left.
Qed.

(** ** Histories of operations

    A client's calls in order, each with the value [dict_can_resize] has
    then, against a finite map. *)
Inductive dop :=
  | DAdd (k : K) (val : V) | DReplace (k : K) (val : V) | DDelete (k : K)
  | DFetch (k : K) | DRehash (n : nat) | DResize | DEmpty.

Inductive dres := RFlag (b : bool) | RVal (o : option (option V)) | RUnit.

Definition dop_exec (cr : bool) (d : dict) (o : dop) : option (dict * dres) :=
  match o with
  | DAdd k val => '(d, b) ← dictAdd cr d k val; Some (d, RFlag b)
  | DReplace k val => '(d, b) ← dictReplace cr d k val; Some (d, RFlag b)
  | DDelete k => '(d, b) ← dictDelete d k; Some (d, RFlag b)
  | DFetch k => '(d, o) ← dictFetchValue d k; Some (d, RVal o)
  | DRehash n => '(d, _) ← dictRehash d n; Some (d, RUnit)
  | DResize => '(d, _) ← dictResize cr d; Some (d, RUnit)
  | DEmpty => d ← dictEmpty d; Some (d, RUnit)
  end.

Fixpoint dop_run (d : dict) (os : list (bool * dop)) : option (dict * list dres) :=
  match os with
  | [] => Some (d, [])
  | (cr, o) :: os =>
      '(d, r) ← dop_exec cr d o;
      '(d, rs) ← dop_run d os;
      Some (d, r :: rs)
  end.

(** The abstract map; [dup] is the client's [valDup]. *)
Definition map_exec (dup : V → V) (m : gmap K (option V)) (o : dop) : gmap K (option V) * dres :=
  match o with
  | DAdd k val =>
      (match m !! k with None => <[k := Some (dup val)]> m | Some _ => m end,
       RFlag (bool_decide (m !! k = None)))
  | DReplace k val => (<[k := Some (dup val)]> m, RFlag (bool_decide (m !! k = None)))
  | DDelete k => (delete k m, RFlag (bool_decide (is_Some (m !! k))))
  | DFetch k => (m, RVal (m !! k))
  | DRehash _ | DResize => (m, RUnit)
  | DEmpty => (∅, RUnit)
  end.

Fixpoint map_run (dup : V → V) (m : gmap K (option V)) (os : list (bool * dop))
  : gmap K (option V) * list dres :=
  match os with
  | [] => (m, [])
  | (_, o) :: os =>
      let '(m, r) := map_exec dup m o in let '(m, rs) := map_run dup m os in (m, r :: rs)
  end.

Lemma dop_exec_spec cr d o :
  wf d → zlen (entries d) < max_entries →
  ∃ d', dop_exec cr d o = Some (d', (map_exec (dup_val (type d)) (dmap d) o).2) ∧ wf d' ∧
    type d' = type d ∧ dmap d' = (map_exec (dup_val (type d)) (dmap d) o).1 ∧
    (length (entries d') ≤ S (length (entries d)))%nat.
Proof.
  intros Hw Hmax. destruct o as [k val|k val|k|k|n| |]; cbn [dop_exec map_exec fst snd].
  - destruct (dictAdd_spec cr d k val Hw Hmax) as (d' & -> & ? & ? & ? & ? & Hl).
    exists d'. split_and!; try done. rewrite Hl. case_match; lia.
  - destruct (dictReplace_spec cr d k val Hw Hmax) as (d' & -> & ? & ? & ? & ? & Hl).
    exists d'. split_and!; try done. rewrite Hl. case_match; lia.
  - destruct (dictGenericDelete_spec d k false Hw) as (d' & E & ? & ? & ? & ? & ?).
    exists d'. unfold dictDelete. rewrite E. split_and!; try done. lia.
  - destruct (dictFetchValue_spec d k Hw) as (d' & -> & ? & S1). exists d'.
    split_and!; try done; [by apply same_type|by apply same_dmap|rewrite (same_length _ _ S1); lia].
  - destruct (dictRehash_spec d n Hw) as (d' & more & -> & ? & S1 & _). exists d'.
    split_and!; try done; [by apply same_type|by apply same_dmap|rewrite (same_length _ _ S1); lia].
  - destruct (dictResize_spec cr d Hw) as (d' & ok & -> & ? & S1). exists d'.
    split_and!; try done; [by apply same_type|by apply same_dmap|rewrite (same_length _ _ S1); lia].
  - destruct (dictEmpty_spec d Hw) as (d' & -> & ? & ? & E & _). exists d'.
    split_and!; try done; [|rewrite E; simpl; lia]. unfold dmap. by rewrite E.
Qed.

Lemma dop_run_spec os : ∀ d,
  wf d → zlen (entries d) + zlen os ≤ max_entries →
  ∃ d', dop_run d os = Some (d', (map_run (dup_val (type d)) (dmap d) os).2) ∧ wf d' ∧
    type d' = type d ∧ dmap d' = (map_run (dup_val (type d)) (dmap d) os).1.
Proof.
  induction os as [|[cr o] os IH]; intros d Hw Hmax; [by exists d|]. cbn [length] in Hmax.
  destruct (dop_exec_spec cr d o Hw) as (d1 & E1 & Hw1 & Ht1 & Hm1 & Hl1); [lia|].
  cbn [dop_run]. rewrite E1. cbn [mbind option_bind].
  destruct (IH d1 Hw1) as (d2 & E2 & Hw2 & Ht2 & Hm2); [lia|]. rewrite E2. cbn [mbind option_bind].
  exists d2. rewrite Ht1, Hm1 in *. cbn [map_run].
  destruct (map_exec (dup_val (type d)) (dmap d) o) as [m r]. simpl in *.
  destruct (map_run (dup_val (type d)) m os) as [m' rs]. simpl in *. split_and!; congruence.
Qed.

Lemma wf_create t : type_ok t → wf (dictCreate t).
Proof.
  intros Ht. split; [done|constructor|done|]. left. split_and!; [done|done|by left].
Qed.

(** Repeated rehashing terminates. *)
Fixpoint rehash_all (fuel : nat) (d : dict) : option dict :=
  match fuel with
  | O => None
  | S fuel => '(d, more) ← dictRehash d 1; if more : bool then rehash_all fuel d else Some d
  end.

Lemma rehash_all_spec fuel : ∀ d,
  wf d → size (ht0 d) - rehashidx d < Z.of_nat fuel → (0 < fuel)%nat →
  ∃ d', rehash_all fuel d = Some d' ∧ wf d' ∧ same_entries d d' ∧ dictIsRehashing d' = false.
Proof.
  induction fuel as [|fuel IH]; intros d Hw Hf Hpos; [lia|]. cbn [rehash_all].
  destruct (dictRehash_spec d 1 Hw) as (d' & more & -> & Hw' & Hs & Hm & _ & _ & Hp).
  cbn [mbind option_bind]. destruct more; [|by exists d'].
  destruct Hp as (Hsz & Hlt & Hu); [done|done|].
  pose proof (rehashing_bound d' (rehashing_state d' Hw' Hm) Hu).
  destruct (IH d' Hw') as (d2 & E & ? & ? & ?); [lia|lia|].
  exists d2. split_and!; try done. by etrans.
Qed.

(** ** Properties *)

(** C14: any history of up to 2^30 calls of [dictAdd], [dictReplace],
    [dictDelete], [dictFetchValue], [dictRehash], [dictResize] and
    [dictEmpty] on a new dictionary, with resizing enabled or disabled at
    each call, is free of undefined behaviour and failed assertions and
    refines the finite map: every call returns what the map returns, whatever
    state the incremental rehashing is in. *)
Theorem dict_history_refines t os :
  type_ok t → zlen os ≤ 2 ^ 30 →
  ∃ d, dop_run (dictCreate t) os = Some (d, (map_run (dup_val t) ∅ os).2) ∧ wf d ∧
    dmap d = (map_run (dup_val t) ∅ os).1.
Proof.
  intros Ht Hn. destruct (dop_run_spec os (dictCreate t) (wf_create t Ht)) as (d & E & ? & _ & ?);
    [done|]. by exists d.
Qed.

(** Rehashing any number of buckets of a well-formed dictionary keeps it
    well-formed with exactly the same bindings, reports whether work is left,
    and completes: at most [size + 2] single steps move every entry to the
    new table. *)
Theorem dictRehash_completes d n :
  wf d →
  (∃ d' more, dictRehash d n = Some (d', more) ∧ wf d' ∧ dmap d' = dmap d ∧
     dictIsRehashing d' = more) ∧
  ∃ d', rehash_all (S (S (Z.to_nat (size (ht0 d))))) d = Some d' ∧ wf d' ∧ dmap d' = dmap d ∧
    dictIsRehashing d' = false ∧ ht1 d' = _dictReset.
Proof.
  intros Hw. split.
  - destruct (dictRehash_spec d n Hw) as (d' & more & E & ? & ? & ? & _). exists d', more.
    split_and!; try done. by apply same_dmap.
  - destruct (rehash_all_spec (S (S (Z.to_nat (size (ht0 d))))) d Hw) as (d' & E & Hw' & Hs & Hr);
      [|lia|].
    { destruct (w_state _ Hw) as [(-> & _)|(? & _)]; lia. }
    exists d'. split_and!; try done; [by apply same_dmap|].
    unfold dictIsRehashing in Hr. destruct (w_state _ Hw') as [(_ & ? & _)|(? & _)]; [done|].
    destruct (Z.eqb_spec (rehashidx d') (-1)); [lia|done].
Qed.

(** The destructors of the client are called exactly once for what leaves
    the dictionary: [dictDelete] frees the key and the value of the deleted
    entry, [dictDeleteNoFree] nothing, [dictReplace] the old value after the
    new one is set, and [dictEmpty] and [dictRelease] every key and every
    value, table by table. *)
Theorem dict_destructors cr d k val :
  wf d → zlen (entries d) < 2 ^ 30 →
  (∃ d', dictDelete d k = Some (d', bool_decide (is_Some (dmap d !! k))) ∧
     freed d' = match dmap d !! k with
                | None => freed d
                | Some o => free_val (type d) o (free_key (type d) k (freed d)) end) ∧
  (∃ d' b, dictDeleteNoFree d k = Some (d', b) ∧ freed d' = freed d) ∧
  (∃ d' b, dictReplace cr d k val = Some (d', b) ∧
     freed d' = match dmap d !! k with
                | None => freed d | Some o => free_val (type d) o (freed d) end) ∧
  (∃ d', dictEmpty d = Some d' ∧
     freed d' = foldl (free_entry (type d)) (freed d) (entries d)) ∧
  dictRelease d = Some (foldl (free_entry (type d)) (freed d) (entries d)).
Proof.
  intros Hw Hmax. split_and!.
  - destruct (dictGenericDelete_spec d k false Hw) as (d' & E & _ & _ & _ & ? & _). by exists d'.
  - destruct (dictGenericDelete_spec d k true Hw) as (d' & E & _ & _ & _ & Hf & _).
    eexists _, _. split; [exact E|]. rewrite Hf. by case_match.
  - destruct (dictReplace_spec cr d k val Hw Hmax) as (d' & E & _ & _ & ? & _). eauto.
  - destruct (dictEmpty_spec d Hw) as (d' & E & _ & _ & _ & ?). by exists d'.
  - destruct (clear_both d Hw) as (d1 & d2 & E1 & E2 & ->). unfold dictRelease.
    rewrite E1. cbn [mbind option_bind]. rewrite E2. done.
Qed.
End dict.

Arguments dictEntry : clear implicits.
Arguments dictType : clear implicits.
Arguments dictht : clear implicits.
Arguments dict : clear implicits.
Arguments dop : clear implicits.

(** A dictionary of integers, with the identity hash, destructors and no
    copies. *)
Definition ztype : dictType Z Z := mk_type u32 None None true true.

Lemma ztype_ok : type_ok ztype.
Proof. split; [intros k; by apply wrapu_range|done]. Qed.

(** Enough adds to grow twice, then deletes, a shrink and lookups. *)
Definition sample_dops : list (bool * dop Z Z) :=
  ((λ k, (true, DAdd (Z.of_nat k) (10 * Z.of_nat k))) <$> seq 0 10) ++
  [(true, DAdd 3 7); (true, DReplace 3 8); (false, DFetch 3)] ++
  ((λ k, (true, DDelete (Z.of_nat k))) <$> seq 4 7) ++
  [(true, DRehash 100); (true, DResize); (true, DFetch 3); (true, DFetch 9); (true, DEmpty)].

Lemma dict_history_refines_witness :
  ∃ d, dop_run (dictCreate ztype) sample_dops =
         Some (d, (map_run (dup_val ztype) ∅ sample_dops).2) ∧ wf d ∧
    dmap d = (map_run (dup_val ztype) ∅ sample_dops).1.
Proof.
  apply (dict_history_refines ztype sample_dops ztype_ok). by vm_compute.
Defined.

Example dict_history_run :
  (λ r, drop 10 r.2) <$> dop_run (dictCreate ztype) sample_dops =
  Some ([RFlag false; RFlag false; RVal (Some (Some 8));
         RFlag true; RFlag true; RFlag true; RFlag true; RFlag true; RFlag true; RFlag false;
         RUnit; RUnit; RVal (Some (Some 8)); RVal None; RUnit]).
Proof. by vm_compute. Qed.

(** A dictionary in the middle of its first rehashing. *)
Definition mid_dict : dict Z Z :=
  default (dictCreate ztype)
    (fst <$> dop_run (dictCreate ztype) ((λ k, (true, DAdd (Z.of_nat k) 1)) <$> seq 0 5)).

Lemma mid_dict_wf : wf mid_dict.
Proof.
  unfold mid_dict.
  destruct (dop_run_spec ((λ k, (true, DAdd (Z.of_nat k) 1)) <$> seq 0 5) (dictCreate ztype))
    as (d & -> & Hw & _); [apply wf_create, ztype_ok|by vm_compute|done].
Qed.

Lemma dictRehash_completes_witness :
  dictIsRehashing mid_dict = true ∧
  ∃ d', rehash_all (S (S (Z.to_nat (size (ht0 mid_dict))))) mid_dict = Some d' ∧ wf d' ∧
    dmap d' = dmap mid_dict ∧ dictIsRehashing d' = false ∧ ht1 d' = _dictReset.
Proof.
  split; [by vm_compute|]. apply (dictRehash_completes mid_dict 1 mid_dict_wf).
Defined.

Lemma dict_destructors_witness :
  ∃ d', dictDelete mid_dict 2 = Some (d', bool_decide (is_Some (dmap mid_dict !! 2))) ∧
    freed d' = match dmap mid_dict !! 2 with
               | None => freed mid_dict
               | Some o => free_val (type mid_dict) o (free_key (type mid_dict) 2 (freed mid_dict))
               end.
Proof.
  apply (dict_destructors true mid_dict 2 5 mid_dict_wf). by vm_compute.
Defined.

(** ** The hash functions *)

(** MurmurHash2 on the list of the bytes. *)
Fixpoint murmur_bytes (h : Z) (data : list Z) : Z :=
  match data with
  | a :: b :: c :: d :: data => murmur_bytes (murmur_mix h [a; b; c; d]) data
  | [a; b; c] => u32 (Z.lxor (Z.lxor (Z.lxor h (Z.shiftl c 16)) (Z.shiftl b 8)) a * murmur_m)
  | [a; b] => u32 (Z.lxor (Z.lxor h (Z.shiftl b 8)) a * murmur_m)
  | [a] => u32 (Z.lxor h a * murmur_m)
  | [] => h
  end.

Definition murmur_final (h : Z) : Z :=
  let h := u32 (Z.lxor h (Z.shiftr h 13) * murmur_m) in Z.lxor h (Z.shiftr h 15).

Lemma read_byte pre a post off :
  off = zlen pre → mread (pre ++ a :: post) off 1 = Some [a].
Proof. intros ->. by apply (mread_app pre [a] post). Qed.

Lemma murmur_tail_spec pre data h :
  (length data < 4)%nat →
  murmur_tail h (pre ++ data) (zlen pre) (zlen data) = Some (murmur_bytes h data).
Proof.
  intros Hl. unfold murmur_tail.
  assert (∀ i a q r, data = q ++ a :: r → i = zlen q →
    mread (pre ++ data) (zlen pre + i) 1 = Some [a]) as Hrd.
  { intros i a q r -> ->. rewrite app_assoc. apply read_byte. rewrite length_app. lia. }
  destruct data as [|a [|b [|c [|d data]]]]; [..|simpl in Hl; lia]; cbn -[Z.shiftl mread murmur_m];
    rewrite ?(Hrd 2 _ [_; _] []), ?(Hrd 1 _ [_] [_]), ?(Hrd 1 _ [_] []), ?(Hrd 0 _ [] [_; _]),
      ?(Hrd 0 _ [] [_]), ?(Hrd 0 _ [] []) by done;
    cbn -[Z.shiftl murmur_m]; rewrite ?Z.mul_0_r, ?Z.add_0_r; done.
Qed.

Lemma murmur_loop_spec fuel : ∀ pre data h,
  (length data < fuel)%nat →
  ('(h', off, len) ← murmur_loop fuel h (pre ++ data) (zlen pre) (zlen data);
    murmur_tail h' (pre ++ data) off len)
  = Some (murmur_bytes h data).
Proof.
  induction fuel as [|fuel IH]; intros pre data h Hf; [lia|]. cbn [murmur_loop].
  rewrite Z.geb_leb. destruct (Z.leb_spec 4 (zlen data)) as [H4|H4].
  - destruct data as [|a [|b [|c [|d data]]]]; simpl in H4; try lia.
    rewrite (mread_app pre [a; b; c; d] data) by done. cbn [mbind option_bind].
    replace (zlen (a :: b :: c :: d :: data) - 4) with (zlen data) by (simpl; lia).
    replace (zlen pre + 4) with (zlen (pre ++ [a; b; c; d])) by (rewrite length_app; simpl; lia).
    replace (pre ++ a :: b :: c :: d :: data) with ((pre ++ [a; b; c; d]) ++ data) by
      (by rewrite <- app_assoc).
    rewrite IH by (simpl in Hf; lia). done.
  - cbn [mbind option_bind]. apply murmur_tail_spec. lia.
Qed.

Lemma lxor_shiftr_u32 h k : 0 ≤ k → in_u 32 h → in_u 32 (Z.lxor h (Z.shiftr h k)).
Proof.
  intros Hk [H0 H1]. apply lxor_range; [lia|done|]. rewrite Z.shiftr_div_pow2 by done.
  split; [apply Z.div_pos; lia|]. eapply Z.le_lt_trans; [|exact H1].
  apply Z.div_le_upper_bound; nia.
Qed.

(** [dictGenHashFunction] reads exactly the [len] bytes of the key and
    computes MurmurHash2 of them; its result and those of
    [dictIntHashFunction] and [dictGenCaseHashFunction] are 32-bit values, as
    the tables require of a hash, and the case-insensitive hash does not see
    the case of the letters. *)
Theorem dict_hashes seed key n :
  in_u 32 seed → in_u 32 n →
  dictGenHashFunction seed key (zlen key) =
    Some (murmur_final (murmur_bytes (Z.lxor seed (u32 (zlen key))) key)) ∧
  in_u 32 (murmur_final (murmur_bytes (Z.lxor seed (u32 (zlen key))) key)) ∧
  in_u 32 (dictIntHashFunction n) ∧
  in_u 32 (dictGenCaseHashFunction seed key) ∧
  dictGenCaseHashFunction seed (tolower <$> key) = dictGenCaseHashFunction seed key.
Proof.
  intros Hs Hn. split_and!.
  - unfold dictGenHashFunction.
    pose proof (murmur_loop_spec (S (Z.to_nat (zlen key))) [] key
      (Z.lxor seed (u32 (zlen key))) ltac:(lia)) as H. simpl app in H. simpl zlen in H.
    destruct (murmur_loop _ _ _ _ _) as [[[h off] len]|]; [|done]. cbn [mbind option_bind] in *.
    rewrite H. done.
  - apply lxor_shiftr_u32; [lia|]. by apply wrapu_range.
  - apply lxor_shiftr_u32; [lia|]. by apply wrapu_range.
  - unfold dictGenCaseHashFunction. revert seed Hs. induction key as [|c key IH]; intros s Hs; [done|].
    simpl. apply IH. by apply wrapu_range.
  - unfold dictGenCaseHashFunction. revert seed Hs. induction key as [|c key IH]; intros s Hs; [done|].
    simpl. rewrite IH by (by apply wrapu_range). do 2 f_equal.
    unfold tolower. repeat case_match; lia.
Qed.

Lemma dict_hashes_witness :
  dictGenHashFunction 5381 (of_string "foo:bar") 7 =
    Some (murmur_final (murmur_bytes (Z.lxor 5381 (u32 7)) (of_string "foo:bar"))).
Proof. apply (dict_hashes 5381 (of_string "foo:bar") 0); by vm_compute. Defined.
