(* ===== verification/DictScan.v ===== *)
(** * Scanning a dictionary ([dictScan] and [rev] of [redis-3.2/src/dict.c])

    [dictScan] is a stateless iterator: the cursor is incremented from its
    high order bits, so that a scan survives resizing between calls.  Read
    with its bits reversed, a cursor is a position in [0, 2^64): one call
    emits the keys whose reversed hash lies between the position before and
    the position after, which is what the guarantee of the comment on
    [dictScan] needs.  While the table is being rehashed the expansion loop
    counts in natural order instead, and a cursor with bits above the smaller
    mask makes it skip buckets: the guarantee is proved where it holds and
    refuted where it does not. *)

From S2P Require Import Prelude Buckets Dict.

(** ** Bit reversal *)

(** One turn of the loop of [rev], for the shift [s] and the updated mask. *)
Definition rev_step (s mask v : Z) : Z :=
  Z.lor (Z.land (Z.shiftr v s) mask) (Z.land (u64 (Z.shiftl v s)) (u64 (Z.lnot mask))).

Fixpoint rev_loop (fuel : nat) (s mask v : Z) : Z :=
  match fuel with
  | O => v
  | S fuel =>
      let s := Z.shiftr s 1 in
      if s >? 0 then
        let mask := Z.lxor mask (u64 (Z.shiftl mask s)) in
        rev_loop fuel s mask (rev_step s mask v)
      else v
  end.

(** [s] starts at 64, so the loop makes six turns. *)
Definition rev (v : Z) : Z := rev_loop 7 64 (u64 (Z.lnot 0)) v.

Section scan.
Context {K V : Type} `{Countable K}.
Implicit Types d : dict K V.

(** The expansion loop: emit bucket [v & m1] of the larger table, then
    increment the bits of [v] above [m0]. *)
Fixpoint scan_expand (fuel : nat) (t1 : dictht K V) (m0 m1 v : Z) (acc : list (dictEntry K V))
  : option (Z * list (dictEntry K V)) :=
  match fuel with
  | O => None
  | S fuel =>
      de ← bucket t1 (Z.land v m1);
      let v := Z.lor (Z.land (u64 (Z.lor v m0 + 1)) (u64 (Z.lnot m0))) (Z.land v m0) in
      let acc := acc ++ de in
      if Z.land v (Z.lxor m0 m1) =? 0 then Some (v, acc) else scan_expand fuel t1 m0 m1 v acc
  end.

(** The new cursor and the entries [fn] was called on. *)
Definition dictScan (d : dict K V) (v : Z) : option (Z * list (dictEntry K V)) :=
  if dictSize d =? 0 then Some (0, []) else
  '(m0, v, em) ←
    (if negb (dictIsRehashing d) then
       let m0 := sizemask (ht0 d) in
       de ← bucket (ht0 d) (Z.land v m0); Some (m0, v, de)
     else
       let '(t0, t1) := if size (ht0 d) >? size (ht1 d) then (ht1 d, ht0 d) else (ht0 d, ht1 d) in
       let m0 := sizemask t0 in
       let m1 := sizemask t1 in
       de ← bucket t0 (Z.land v m0);
       '(v, em) ← scan_expand (S (length (table t1))) t1 m0 m1 v de;
       Some (m0, v, em));
  let v := Z.lor v (u64 (Z.lnot m0)) in
  Some (rev (u64 (rev v + 1)), em).
End scan.

(** ** [rev] reverses the 64 bits *)

Definition rev_mask (s : Z) : Z :=
  match s with
  | 32 => 0x00000000FFFFFFFF | 16 => 0x0000FFFF0000FFFF | 8 => 0x00FF00FF00FF00FF
  | 4 => 0x0F0F0F0F0F0F0F0F | 2 => 0x3333333333333333 | _ => 0x5555555555555555
  end.

Lemma rev_unfold v :
  rev v = rev_step 1 (rev_mask 1) (rev_step 2 (rev_mask 2) (rev_step 4 (rev_mask 4)
    (rev_step 8 (rev_mask 8) (rev_step 16 (rev_mask 16) (rev_step 32 (rev_mask 32) v))))).
Proof. reflexivity. Qed.

(** Where the bit [i] of the result of one turn comes from. *)
Definition rev_src (s i : Z) : Z := if Z.testbit (rev_mask s) i then i + s else i - s.

Lemma rev_step_testbit s v i :
  0 < s → 0 ≤ i < 64 →
  Z.testbit (rev_step s (rev_mask s) v) i = Z.testbit v (rev_src s i).
Proof.
  intros Hs Hi. unfold rev_step, rev_src, u64, wrapu.
  rewrite Z.lor_spec, !Z.land_spec, Z.shiftr_spec by lia.
  rewrite !Z.mod_pow2_bits_low, Z.lnot_spec, Z.shiftl_spec by lia.
  destruct (Z.testbit (rev_mask s) i); simpl; [by rewrite andb_true_r, andb_false_r, orb_false_r|].
  by rewrite andb_false_r, andb_true_r.
Qed.

Definition src_ok (i : Z) : bool :=
  let a := rev_src 1 i in let b := rev_src 2 a in let c := rev_src 4 b in
  let e := rev_src 8 c in let f := rev_src 16 e in let g := rev_src 32 f in
  forallb (λ x, (0 <=? x) && (x <? 64)) [a; b; c; e; f] && (g =? 63 - i).

Lemma src_all : forallb (λ n, src_ok (Z.of_nat n)) (seq 0 64) = true.
Proof. by vm_compute. Qed.

Lemma rev_testbit v i : 0 ≤ i < 64 → Z.testbit (rev v) i = Z.testbit v (63 - i).
Proof.
  intros Hi. pose proof src_all as Ha. rewrite forallb_forall in Ha.
  specialize (Ha (Z.to_nat i)). rewrite in_seq, Z2Nat.id in Ha by lia.
  specialize (Ha ltac:(lia)). unfold src_ok in Ha. cbn [forallb] in Ha.
  rewrite !andb_true_iff, !Z.leb_le, !Z.ltb_lt, Z.eqb_eq in Ha.
  rewrite rev_unfold, !rev_step_testbit by lia. by destruct Ha as [_ ->].
Qed.

Lemma u64_bits v i : in_u 64 v → 64 ≤ i → Z.testbit v i = false.
Proof.
  intros Hv Hi. rewrite <- (Z.mod_small v (2 ^ 64)) by exact Hv.
  apply Z.mod_pow2_bits_high. lia.
Qed.

Lemma bits_u64 v : 0 ≤ v → (∀ i, 64 ≤ i → Z.testbit v i = false) → in_u 64 v.
Proof.
  intros H0 H. split; [done|]. assert (v mod 2 ^ 64 = v) as <-; [|apply Z.mod_pos_bound; lia].
  apply Z.bits_inj'. intros i Hi. destruct (Z.lt_ge_cases i 64).
  - by rewrite Z.mod_pow2_bits_low.
  - rewrite Z.mod_pow2_bits_high by lia. by rewrite H.
Qed.

Lemma land_u64 a b : in_u 64 b → in_u 64 (Z.land a b).
Proof.
  intros Hb. apply bits_u64; [apply Z.land_nonneg; right; apply Hb|].
  intros i Hi. by rewrite Z.land_spec, (u64_bits b i Hb Hi), andb_false_r.
Qed.

Lemma lor_u64 a b : in_u 64 a → in_u 64 b → in_u 64 (Z.lor a b).
Proof.
  intros Ha Hb. apply bits_u64; [apply Z.lor_nonneg; split; [apply Ha|apply Hb]|].
  intros i Hi. by rewrite Z.lor_spec, (u64_bits a i), (u64_bits b i).
Qed.

Lemma rev_range v : in_u 64 (rev v).
Proof.
  rewrite rev_unfold. unfold rev_step at 1. apply lor_u64; apply land_u64; [done|].
  by apply wrapu_range.
Qed.

Lemma u64_ext a b :
  in_u 64 a → in_u 64 b → (∀ i, 0 ≤ i < 64 → Z.testbit a i = Z.testbit b i) → a = b.
Proof.
  intros Ha Hb E. apply Z.bits_inj'. intros i Hi. destruct (Z.lt_ge_cases i 64).
  - by apply E.
  - by rewrite !u64_bits.
Qed.

Lemma rev_involutive v : in_u 64 v → rev (rev v) = v.
Proof.
  intros Hv. apply u64_ext; [apply rev_range|done|]. intros i Hi.
  rewrite !rev_testbit by lia. f_equal. lia.
Qed.

Lemma rev_0 : rev 0 = 0.
Proof. reflexivity. Qed.

Lemma rev_inj a b : in_u 64 a → in_u 64 b → rev a = rev b → a = b.
Proof. intros Ha Hb E. by rewrite <- (rev_involutive a), <- (rev_involutive b), E. Qed.

(** ** Positions

    A table of [2 ^ n] buckets cuts the positions into blocks of
    [2 ^ (64 - n)]. *)
Definition block (n : nat) : Z := 2 ^ (64 - Z.of_nat n).

(** The position after a call on a table of [2 ^ n] buckets. *)
Definition next_pos (n : nat) (c : Z) : Z := (c / block n + 1) * block n.

Lemma block_pos n : (n ≤ 64)%nat → 0 < block n ∧ block n * 2 ^ Z.of_nat n = 2 ^ 64.
Proof.
  intros Hn. unfold block. split; [lia|]. rewrite <- Z.pow_add_r by lia. f_equal. lia.
Qed.

(** The cursor update at the end of [dictScan]. *)
Lemma scan_next n v :
  (n ≤ 64)%nat → in_u 64 v →
  rev (rev (u64 (rev (Z.lor v (u64 (Z.lnot (2 ^ Z.of_nat n - 1)))) + 1)))
  = u64 (next_pos n (rev v)).
Proof.
  intros Hn Hv. rewrite rev_involutive by (by apply wrapu_range). f_equal.
  destruct (block_pos n Hn) as [Hb Hbn].
  set (m := u64 (Z.lnot (2 ^ Z.of_nat n - 1))).
  assert (in_u 64 m) as Hm by (by apply wrapu_range).
  assert (rev (Z.lor v m) = (rev v / block n) * block n + (block n - 1)) as ->; [|unfold next_pos; lia].
  assert (∀ i, 0 ≤ i < 64 → Z.testbit m i = negb (i <? Z.of_nat n)) as Hmb.
  { intros i Hi. unfold m, u64, wrapu. rewrite Z.mod_pow2_bits_low, Z.lnot_spec by lia.
    rewrite Z.sub_1_r, <- Z.ones_equiv. f_equal. destruct (Z.ltb_spec i (Z.of_nat n)).
    - apply Z.ones_spec_low. lia.
    - apply Z.ones_spec_high. lia. }
  assert (block n - 1 = Z.ones (64 - Z.of_nat n)) as Eo.
  { rewrite Z.ones_equiv. unfold block. lia. }
  assert (rev v / block n * block n = Z.shiftl (Z.shiftr (rev v) (64 - Z.of_nat n)) (64 - Z.of_nat n)) as Es.
  { unfold block. rewrite Z.shiftl_mul_pow2, Z.shiftr_div_pow2 by lia. done. }
  assert (Z.land (rev v / block n * block n) (block n - 1) = 0) as Hd.
  { rewrite Es, Eo. apply Z.bits_inj'. intros i Hi. rewrite Z.land_spec, Z.bits_0.
    destruct (Z.lt_ge_cases i (64 - Z.of_nat n)).
    - by rewrite Z.shiftl_spec_low.
    - by rewrite Z.ones_spec_high, andb_false_r by lia. }
  rewrite Z.add_nocarry_lxor, Z.lxor_lor by done.
  assert (in_u 64 (rev v)) as Hr by apply rev_range.
  apply u64_ext; [apply rev_range|..].
  { apply bits_u64.
    - apply Z.lor_nonneg. split; [|lia]. destruct Hr. pose proof (Z.div_pos (rev v) (block n)). nia.
    - intros i Hi. rewrite Es, Eo, Z.lor_spec, Z.ones_spec_high, orb_false_r by lia.
      rewrite Z.shiftl_spec_high, Z.shiftr_spec by lia. apply u64_bits; [done|lia]. }
  intros i Hi. rewrite rev_testbit, Z.lor_spec, Hmb, Es, Eo, Z.lor_spec by lia.
  destruct (Z.ltb_spec (63 - i) (Z.of_nat n)); cbn [negb].
  - rewrite Z.ones_spec_high, !orb_false_r by lia.
    rewrite Z.shiftl_spec_high, Z.shiftr_spec by lia.
    replace (i - (64 - Z.of_nat n) + (64 - Z.of_nat n)) with i by lia. by rewrite rev_testbit.
  - by rewrite Z.ones_spec_low, !orb_true_r by lia.
Qed.

(** Positions in the block of the cursor have the bucket of the cursor. *)
Lemma same_block n v x :
  (n ≤ 64)%nat → in_u 64 v → in_u 64 x →
  rev v ≤ rev x < next_pos n (rev v) →
  x mod 2 ^ Z.of_nat n = v mod 2 ^ Z.of_nat n.
Proof.
  intros Hn Hv Hx Hc. destruct (block_pos n Hn) as [Hb _].
  assert (rev x / block n = rev v / block n) as E.
  { unfold next_pos in Hc. Z.div_mod_to_equations. nia. }
  apply Z.bits_inj'. intros i Hi. destruct (Z.lt_ge_cases i (Z.of_nat n)).
  2: { by rewrite !Z.mod_pow2_bits_high by lia. }
  rewrite !Z.mod_pow2_bits_low by lia.
  assert (Z.testbit (rev x) (63 - i) = Z.testbit (rev v) (63 - i)) as Et.
  { unfold block in E. rewrite <- !Z.shiftr_div_pow2 in E by lia.
    pose proof (f_equal (λ z, Z.testbit z (Z.of_nat n - 1 - i)) E) as Eb. simpl in Eb.
    rewrite !Z.shiftr_spec in Eb by lia.
    by replace (Z.of_nat n - 1 - i + (64 - Z.of_nat n)) with (63 - i) in Eb by lia. }
  rewrite !rev_testbit in Et by lia. by replace (63 - (63 - i)) with i in Et by lia.
Qed.

(** The converse for the low bits: equal buckets, equal blocks. *)
Lemma same_bucket n v x :
  (n ≤ 64)%nat → in_u 64 v → in_u 64 x →
  x mod 2 ^ Z.of_nat n = v mod 2 ^ Z.of_nat n → next_pos n (rev x) = next_pos n (rev v).
Proof.
  intros Hn Hv Hx E. unfold next_pos. do 2 f_equal. unfold block.
  rewrite <- !Z.shiftr_div_pow2 by lia. apply Z.bits_inj'. intros i Hi.
  rewrite !Z.shiftr_spec by lia. set (j := i + (64 - Z.of_nat n)).
  destruct (Z.lt_ge_cases j 64); [|by rewrite !u64_bits by (lia || apply rev_range)].
  rewrite !rev_testbit by lia. pose proof (f_equal (λ z, Z.testbit z (63 - j)) E) as Eb.
  simpl in Eb. by rewrite !Z.mod_pow2_bits_low in Eb by lia.
Qed.

(** A position that is a multiple of the block is a cursor of [n] bits. *)
Lemma small_cursor n v :
  (n ≤ 64)%nat → in_u 64 v → rev v mod block n = 0 → v < 2 ^ Z.of_nat n.
Proof.
  intros Hn Hv E. destruct (block_pos n Hn) as [Hb _].
  assert (v mod 2 ^ Z.of_nat n = v) as <-; [|apply Z.mod_pos_bound; lia].
  apply Z.bits_inj'. intros i Hi. destruct (Z.lt_ge_cases i (Z.of_nat n)).
  { by rewrite Z.mod_pow2_bits_low by lia. }
  rewrite Z.mod_pow2_bits_high by lia. destruct (Z.lt_ge_cases i 64); [|by rewrite u64_bits].
  pose proof (f_equal (λ z, Z.testbit z (63 - i)) E) as Eb. simpl in Eb. unfold block in Eb.
  rewrite Z.mod_pow2_bits_low, Z.bits_0, rev_testbit in Eb by lia.
  by replace (63 - (63 - i)) with i in Eb by lia.
Qed.

(** ** The expansion loop *)

Lemma lor_low q r (a : nat) :
  0 ≤ r < 2 ^ Z.of_nat a → Z.lor (q * 2 ^ Z.of_nat a) r = q * 2 ^ Z.of_nat a + r.
Proof.
  intros Hr. assert (Z.land (q * 2 ^ Z.of_nat a) r = 0) as Hd.
  { rewrite <- Z.shiftl_mul_pow2 by lia. apply Z.bits_inj'. intros i Hi.
    rewrite Z.land_spec, Z.bits_0. destruct (Z.lt_ge_cases i (Z.of_nat a)).
    - by rewrite Z.shiftl_spec_low.
    - rewrite <- (Z.mod_small r (2 ^ Z.of_nat a)) by done.
      by rewrite Z.mod_pow2_bits_high, andb_false_r by lia. }
  by rewrite Z.add_nocarry_lxor, Z.lxor_lor.
Qed.

Lemma lor_mask v (a : nat) :
  Z.lor v (2 ^ Z.of_nat a - 1) = v / 2 ^ Z.of_nat a * 2 ^ Z.of_nat a + (2 ^ Z.of_nat a - 1).
Proof.
  pose proof (Z.pow_pos_nonneg 2 (Z.of_nat a)). pose proof (Z.mod_pos_bound v (2 ^ Z.of_nat a)).
  rewrite (Z.div_mod v (2 ^ Z.of_nat a)) at 1 by lia. rewrite Z.mul_comm, <- lor_low by lia.
  rewrite <- Z.lor_assoc. rewrite <- (lor_low (v / _)) by lia. f_equal.
  rewrite Z.sub_1_r, <- Z.ones_equiv. rewrite <- (Z.land_ones v) by lia.
  apply Z.bits_inj'. intros i Hi. rewrite Z.lor_spec, Z.land_spec.
  destruct (Z.testbit v i), (Z.testbit (Z.ones (Z.of_nat a)) i); done.
Qed.

Lemma land_high q (a : nat) :
  (a ≤ 64)%nat → in_u 64 (q * 2 ^ Z.of_nat a) →
  Z.land (q * 2 ^ Z.of_nat a) (u64 (Z.lnot (2 ^ Z.of_nat a - 1))) = q * 2 ^ Z.of_nat a.
Proof.
  intros Ha Hq. apply Z.bits_inj'. intros i Hi. rewrite Z.land_spec.
  destruct (Z.lt_ge_cases i 64); [|by rewrite (u64_bits _ i Hq)].
  unfold u64, wrapu. rewrite Z.mod_pow2_bits_low, Z.lnot_spec, Z.sub_1_r, <- Z.ones_equiv by lia.
  destruct (Z.lt_ge_cases i (Z.of_nat a)).
  - by rewrite <- Z.shiftl_mul_pow2, Z.shiftl_spec_low by lia.
  - by rewrite Z.ones_spec_high, andb_true_r by lia.
Qed.

Definition expand_step (m0 v : Z) : Z :=
  Z.lor (Z.land (u64 (Z.lor v m0 + 1)) (u64 (Z.lnot m0))) (Z.land v m0).

Lemma expand_step_spec (a : nat) v :
  (a ≤ 64)%nat → in_u 64 v →
  let v' := expand_step (2 ^ Z.of_nat a - 1) v in
  in_u 64 v' ∧ v' mod 2 ^ Z.of_nat a = v mod 2 ^ Z.of_nat a ∧
  v' / 2 ^ Z.of_nat a = (v / 2 ^ Z.of_nat a + 1) mod block a.
Proof.
  intros Ha Hv. unfold expand_step. cbv zeta. destruct (block_pos a Ha) as [Hb Hba].
  pose proof (lor_mask v a) as E1. pose proof (land_mask v a) as E2.
  pose proof (λ q, land_high q a Ha) as E3. pose proof (λ q r, lor_low q r a) as E4.
  set (A := 2 ^ Z.of_nat a) in *. assert (0 < A) by (unfold A; lia).
  rewrite E1. replace (v / A * A + (A - 1) + 1) with ((v / A + 1) * A) by lia.
  set (q := (v / A + 1) mod block a).
  assert (0 ≤ q < block a) as Hq by (apply Z.mod_pos_bound; lia).
  assert (u64 ((v / A + 1) * A) = q * A) as ->.
  { unfold u64, wrapu, q. rewrite <- Hba. by rewrite Z.mul_mod_distr_r by lia. }
  assert (in_u 64 (q * A)) as Hqa by (unfold in_u; rewrite <- Hba; nia).
  pose proof (Z.mod_pos_bound v A ltac:(lia)) as Hm. rewrite E3, E2, E4 by done.
  split_and!.
  - unfold in_u. rewrite <- Hba. nia.
  - rewrite Z.add_comm, Z_mod_plus_full. apply Z.mod_mod. lia.
  - rewrite Z.add_comm, Z.div_add, Z.div_small by lia. lia.
Qed.

(** The exit test looks at the bits between the two masks. *)
Lemma expand_test (a b : nat) v :
  (a ≤ b)%nat →
  Z.land v (Z.lxor (2 ^ Z.of_nat a - 1) (2 ^ Z.of_nat b - 1))
  = (v / 2 ^ Z.of_nat a) mod 2 ^ (Z.of_nat b - Z.of_nat a) * 2 ^ Z.of_nat a.
Proof.
  intros Hab. rewrite !Z.sub_1_r, <- !Z.ones_equiv, <- Z.shiftl_mul_pow2 by lia.
  apply Z.bits_inj'. intros i Hi. rewrite Z.land_spec, Z.lxor_spec.
  rewrite <- Z.shiftr_div_pow2 by lia. destruct (Z.lt_ge_cases i (Z.of_nat a)).
  { rewrite Z.shiftl_spec_low, !Z.ones_spec_low by lia. apply andb_false_r. }
  rewrite Z.shiftl_spec_high by lia. rewrite (Z.ones_spec_high (Z.of_nat a)) by lia.
  rewrite xorb_false_l. destruct (Z.lt_ge_cases i (Z.of_nat b)).
  - rewrite Z.ones_spec_low, andb_true_r, Z.mod_pow2_bits_low, Z.shiftr_spec by lia. f_equal. lia.
  - by rewrite Z.ones_spec_high, andb_false_r, Z.mod_pow2_bits_high by lia.
Qed.

Section scan_correct.
Context {K V : Type} `{Countable K}.
Implicit Types d : dict K V.

Lemma mod_split v (a b : nat) :
  (a ≤ b)%nat →
  v mod 2 ^ Z.of_nat b =
    (v / 2 ^ Z.of_nat a) mod 2 ^ (Z.of_nat b - Z.of_nat a) * 2 ^ Z.of_nat a + v mod 2 ^ Z.of_nat a.
Proof.
  intros Hab. replace (Z.of_nat b) with (Z.of_nat a + (Z.of_nat b - Z.of_nat a)) at 1 by lia.
  rewrite Z.pow_add_r, Z.rem_mul_r by lia. lia.
Qed.

Lemma mod_mod_le v (a b : nat) :
  (a ≤ b)%nat → (v mod 2 ^ Z.of_nat b) mod 2 ^ Z.of_nat a = v mod 2 ^ Z.of_nat a.
Proof.
  intros Hab. rewrite (mod_split v a b Hab), Z.add_comm, Z_mod_plus_full. apply Z.mod_mod. lia.
Qed.

(** The loop emits the buckets of the larger table from the cursor on, in
    natural order of the bits between the masks. *)
Lemma scan_expand_spec t (t1 : dictht K V) (a b : nat) fuel : ∀ v acc,
  live t t1 b → (a ≤ b)%nat → in_u 64 v →
  2 ^ (Z.of_nat b - Z.of_nat a) - (v / 2 ^ Z.of_nat a) mod 2 ^ (Z.of_nat b - Z.of_nat a)
    ≤ Z.of_nat fuel →
  ∃ v' em, scan_expand fuel t1 (2 ^ Z.of_nat a - 1) (2 ^ Z.of_nat b - 1) v acc = Some (v', em) ∧
    in_u 64 v' ∧ v' mod 2 ^ Z.of_nat a = v mod 2 ^ Z.of_nat a ∧ acc ⊆ em ∧
    (∀ e, e ∈ em → e ∈ acc ∨ e ∈ concat (table t1)) ∧
    ∀ e x, x mod 2 ^ Z.of_nat a = v mod 2 ^ Z.of_nat a →
      (v / 2 ^ Z.of_nat a) mod 2 ^ (Z.of_nat b - Z.of_nat a)
        ≤ (x / 2 ^ Z.of_nat a) mod 2 ^ (Z.of_nat b - Z.of_nat a) →
      (∃ bk, bucket t1 (x mod 2 ^ Z.of_nat b) = Some bk ∧ e ∈ bk) → e ∈ em.
Proof.
  induction fuel as [|fuel IH]; intros v acc L Hab Hv Hf;
    pose proof (l_n _ _ _ L) as Hb;
    pose proof (Z.mod_pos_bound (v / 2 ^ Z.of_nat a) (2 ^ (Z.of_nat b - Z.of_nat a)) ltac:(lia)) as Hq;
    [lia|].
  cbn [scan_expand]. rewrite (land_mask v b).
  destruct (live_bucket _ _ _ v L) as (bk & Hbk & ->). cbn [mbind option_bind].
  change (Z.lor (Z.land (u64 (Z.lor v (2 ^ Z.of_nat a - 1) + 1)) _) _)
    with (expand_step (2 ^ Z.of_nat a - 1) v).
  destruct (expand_step_spec a v ltac:(lia) Hv) as (Hv' & Hlow & Hhigh).
  set (v1 := expand_step (2 ^ Z.of_nat a - 1) v) in *.
  set (Q := 2 ^ (Z.of_nat b - Z.of_nat a)) in *.
  assert (v1 / 2 ^ Z.of_nat a mod Q =
    if decide (v / 2 ^ Z.of_nat a mod Q = Q - 1) then 0 else v / 2 ^ Z.of_nat a mod Q + 1) as Hn.
  { rewrite Hhigh.
    assert (block a = Q * 2 ^ (64 - Z.of_nat b)) as ->.
    { unfold block, Q. rewrite <- Z.pow_add_r by lia. f_equal. lia. }
    assert (0 < 2 ^ (64 - Z.of_nat b)) by lia. assert (0 < Q) by lia.
    rewrite Z.rem_mul_r, (Z.mul_comm Q), Z_mod_plus_full, Z.mod_mod by lia.
    rewrite <- Zplus_mod_idemp_l. case_decide as Hd.
    - rewrite Hd. replace (Q - 1 + 1) with Q by lia. apply Z_mod_same_full.
    - apply Z.mod_small. lia. }
  assert (∀ e x, x mod 2 ^ Z.of_nat a = v mod 2 ^ Z.of_nat a →
    v / 2 ^ Z.of_nat a mod Q = x / 2 ^ Z.of_nat a mod Q →
    (∃ bk0, bucket t1 (x mod 2 ^ Z.of_nat b) = Some bk0 ∧ e ∈ bk0) → e ∈ bk) as Hhere.
  { intros e x Hx Hxq (bk0 & Hbk0 & He).
    assert (x mod 2 ^ Z.of_nat b = v mod 2 ^ Z.of_nat b) as E.
    { rewrite (mod_split x a b), (mod_split v a b) by done. fold Q. by rewrite Hx, Hxq. }
    rewrite E in Hbk0. apply bucket_lookup in Hbk0 as [_ Hbk0]. congruence. }
  assert (∀ e, e ∈ bk → e ∈ concat (table t1)) as Hin.
  { intros e He. by eapply bucket_elem_of. }
  rewrite (expand_test a b v1 Hab). fold Q.
  destruct (Z.eqb_spec (v1 / 2 ^ Z.of_nat a mod Q * 2 ^ Z.of_nat a) 0) as [E0|E0].
  - assert (v1 / 2 ^ Z.of_nat a mod Q = 0) as Ez by nia. rewrite Ez in Hn.
    exists v1, (acc ++ bk). split_and!; try done; [set_solver| |].
    + intros e [?|?]%elem_of_app; eauto.
    + intros e x Hx Hxq Hbx. apply elem_of_app. right. apply (Hhere e x); [done| |done].
      case_decide; [|lia]. pose proof (Z.mod_pos_bound (x / 2 ^ Z.of_nat a) Q). lia.
  - assert (v / 2 ^ Z.of_nat a mod Q ≠ Q - 1) as Hne.
    { intros E. rewrite decide_True in Hn by done. rewrite Hn in E0. lia. }
    rewrite decide_False in Hn by done.
    destruct (IH v1 (acc ++ bk) L Hab Hv') as (v' & em & E & ? & Hl' & Hsub & Hem & Hcov); [lia|].
    exists v', em. split_and!; try done; [congruence|set_solver| |].
    + intros e He. destruct (Hem e He) as [[?|?]%elem_of_app|?]; eauto.
    + intros e x Hx Hxq Hbx. destruct (decide (v / 2 ^ Z.of_nat a mod Q = x / 2 ^ Z.of_nat a mod Q)).
      * apply Hsub, elem_of_app. right. eauto.
      * apply (Hcov e x); [congruence| |done]. lia.
Qed.

(** The number of bits of the smaller table of a dictionary with entries. *)
Definition small_table (d : dict K V) : dictht K V :=
  if dictIsRehashing d && (size (ht0 d) >? size (ht1 d)) then ht1 d else ht0 d.
Definition scan_bits (d : dict K V) : nat := Z.to_nat (Z.log2 (size (small_table d))).

(** A cursor that the expansion loop handles: none of the bits between the
    two masks is set when the dictionary is rehashing. *)
Definition cursor_ok (d : dict K V) (v : Z) : bool :=
  negb (dictIsRehashing d) || (Z.land v (Z.lxor (sizemask (ht0 d)) (sizemask (ht1 d))) =? 0).

Lemma live_log t h n : live (K:=K) (V:=V) t h n → Z.to_nat (Z.log2 (size h)) = n.
Proof. intros L. rewrite (l_size _ _ _ L), Z.log2_pow2 by lia. lia. Qed.

(** What one call emits. *)
Definition covers (d : dict K V) (v : Z) (em : list (dictEntry K V)) : Prop :=
  ∀ e, e ∈ entries d →
    rev v ≤ rev (dictHashKey d (key e)) < next_pos (scan_bits d) (rev v) → e ∈ em.

Lemma hash_u64 d k : wf d → in_u 64 (dictHashKey d k).
Proof.
  intros Hw. pose proof (t_hash _ (w_type _ Hw) k) as [H0 H1]. unfold dictHashKey, in_u. pow2. lia.
Qed.

(** An entry of a live table is in the bucket of its hash. *)
Lemma live_entry d t n e :
  live (type d) (ht d t) n → e ∈ concat (table (ht d t)) →
  ∃ bk, bucket (ht d t) (dictHashKey d (key e) mod 2 ^ Z.of_nat n) = Some bk ∧ e ∈ bk.
Proof.
  intros L (bk & He & Hbk)%elem_of_concat. apply list_elem_of_lookup in Hbk as [i Hi].
  exists bk. split; [|done]. unfold dictHashKey. rewrite (l_place _ _ _ L _ _ _ Hi He).
  unfold bucket. by rewrite decide_True, Nat2Z.id by lia.
Qed.

(** The two tables of a rehashing dictionary, the smaller first. *)
Lemma scan_tables d :
  wf d → dictIsRehashing d = true →
  ∃ (s : bool) (a b : nat),
    (if size (ht0 d) >? size (ht1 d) then (ht1 d, ht0 d) else (ht0 d, ht1 d))
      = (ht d s, ht d (negb s)) ∧
    live (type d) (ht d s) a ∧ live (type d) (ht d (negb s)) b ∧ (a ≤ b)%nat ∧ scan_bits d = a ∧
    Z.lxor (sizemask (ht0 d)) (sizemask (ht1 d)) = Z.lxor (2 ^ Z.of_nat a - 1) (2 ^ Z.of_nat b - 1).
Proof.
  intros Hw Hr. destruct (rehashing_state d Hw Hr) as [_ [n0 L0] [n1 L1] _].
  unfold scan_bits, small_table. rewrite Hr. cbn [andb].
  pose proof (l_size _ _ _ L0) as S0. pose proof (l_size _ _ _ L1) as S1.
  rewrite (l_mask _ _ _ L0), (l_mask _ _ _ L1), Z.gtb_ltb.
  destruct (Z.ltb_spec (size (ht1 d)) (size (ht0 d))) as [Hlt|Hge].
  - exists true, n1, n0. split_and!; try done.
    + rewrite S0, S1 in Hlt. apply Z.pow_lt_mono_r_iff in Hlt; lia.
    + by eapply live_log.
    + rewrite S0, S1. apply Z.lxor_comm.
  - exists false, n0, n1. split_and!; try done.
    + rewrite S0, S1 in Hge. apply Z.pow_le_mono_r_iff in Hge; lia.
    + by eapply live_log.
    + by rewrite S0, S1.
Qed.

Lemma dictSize_entries d : wf d → dictSize d = zlen (entries d).
Proof.
  intros Hw. unfold dictSize. rewrite used_entries by done. pose proof (w_max _ Hw) as Hm.
  unfold max_entries in Hm. pow2. apply u64_small. pow2. lia.
Qed.

Lemma live_size0 d : wf d → entries d ≠ [] → dictIsRehashing d = false →
  ∃ n, live (type d) (ht0 d) n ∧ scan_bits d = n ∧ concat (table (ht0 d)) = entries d.
Proof.
  intros Hw Hne Hr. unfold scan_bits, small_table. rewrite Hr. cbn [andb].
  destruct (w_state _ Hw) as [(_ & E1 & [E0|[n L]])|(Hi & _)].
  - destruct Hne. unfold entries. by rewrite E0, E1.
  - exists n. split_and!; [done|by eapply live_log|]. unfold entries. rewrite E1.
    by rewrite app_nil_r.
  - unfold dictIsRehashing in Hr. destruct (Z.eqb_spec (rehashidx d) (-1)); [lia|done].
Qed.

Lemma dictScan_spec d v :
  wf d → in_u 64 v → entries d ≠ [] →
  ∃ v' em, dictScan d v = Some (v', em) ∧ in_u 64 v' ∧ (scan_bits d ≤ 31)%nat ∧
    rev v' = u64 (next_pos (scan_bits d) (rev v)) ∧
    (∀ e, e ∈ em → e ∈ entries d) ∧
    (cursor_ok d v = true → covers d v em).
Proof.
  intros Hw Hv Hne. unfold dictScan, cursor_ok, covers. rewrite dictSize_entries by done.
  destruct (Z.eqb_spec (zlen (entries d)) 0) as [E|_].
  { by destruct (entries d). }
  destruct (dictIsRehashing d) eqn:Hr; cbn [negb orb].
  - destruct (scan_tables d Hw Hr) as (s & a & b & -> & La & Lb & Hab & Hbits & Hx).
    pose proof (l_n _ _ _ La) as Ha. pose proof (l_n _ _ _ Lb) as Hb.
    rewrite (l_mask _ _ _ La), (l_size _ _ _ La), (l_mask _ _ _ Lb), (l_size _ _ _ Lb), land_mask.
    destruct (live_bucket _ _ _ v La) as (bk & Hbk & Hbk'). rewrite Hbk'. cbn [mbind option_bind].
    destruct (scan_expand_spec (type d) (ht d (negb s)) a b (S (length (table (ht d (negb s))))) v bk)
      as (v1 & em & -> & Hv1 & Hlow & Hsub & Hem & Hcov); [done|done|done| |].
    { pose proof (l_len _ _ _ Lb) as Hl. rewrite (l_size _ _ _ Lb) in Hl.
      pose proof (Z.mod_pos_bound (v / 2 ^ Z.of_nat a) (2 ^ (Z.of_nat b - Z.of_nat a)) ltac:(lia)).
      pose proof (Z.pow_le_mono_r 2 (Z.of_nat b - Z.of_nat a) (Z.of_nat b) ltac:(lia) ltac:(lia)). lia. }
    cbn [mbind option_bind]. eexists _, em. split; [done|].
    split; [apply rev_range|]. rewrite Hbits, scan_next by (done || lia).
    rewrite (same_bucket a v v1) by (done || lia). split_and!; [lia|done| |].
    + intros e He. rewrite (entries_ht d s). apply elem_of_app.
      destruct (Hem e He) as [Hin|Hin]; [left|by right]. by eapply bucket_elem_of.
    + rewrite Hx, (expand_test a b v Hab), Z.eqb_eq. intros Hz e He Hpos.
      apply same_block in Hpos; [|lia|done|by apply hash_u64].
      rewrite (entries_ht d s) in He. apply elem_of_app in He as [He|He].
      * apply Hsub. destruct (live_entry d s a e La He) as (bk0 & Hbk0 & He0).
        rewrite Hpos in Hbk0. congruence.
      * apply (Hcov e (dictHashKey d (key e))); [done| |by eapply live_entry].
        pose proof (Z.mod_pos_bound (dictHashKey d (key e) / 2 ^ Z.of_nat a)
          (2 ^ (Z.of_nat b - Z.of_nat a)) ltac:(lia)).
        assert (0 < 2 ^ Z.of_nat a) by lia. nia.
  - destruct (live_size0 d Hw Hne Hr) as (n & L & Hbits & Hent). pose proof (l_n _ _ _ L).
    rewrite (l_mask _ _ _ L), (l_size _ _ _ L), land_mask.
    destruct (live_bucket _ _ _ v L) as (bk & Hbk & Hbk'). rewrite Hbk'. cbn [mbind option_bind].
    eexists _, bk. split; [done|]. split; [apply rev_range|].
    rewrite Hbits, scan_next by (done || lia). split_and!; [lia|done| |].
    + intros e He. rewrite <- Hent. by eapply bucket_elem_of.
    + intros _ e He Hpos. apply same_block in Hpos; [|lia|done|by apply hash_u64].
      rewrite <- Hent in He. destruct (live_entry d false n e L He) as (bk0 & Hbk0 & He0).
      rewrite Hpos in Hbk0. simpl in *. congruence.
Qed.

(** ** Whole scans

    The calls of a scan: call [i] is made on the state [ds !! i], with the
    cursor call [i - 1] returned. *)
Fixpoint scan_run (ds : list (dict K V)) (v : Z) : option (Z * list (dictEntry K V)) :=
  match ds with
  | [] => Some (v, [])
  | d :: ds =>
      '(v, em) ← dictScan d v;
      '(v, ems) ← scan_run ds v;
      Some (v, em ++ ems)
  end.

(** No call starts with a cursor the expansion loop mishandles. *)
Fixpoint scan_ok (ds : list (dict K V)) (v : Z) : bool :=
  match ds with
  | [] => true
  | d :: ds =>
      cursor_ok d v &&
      match dictScan d v with Some (v, _) => scan_ok ds v | None => true end
  end.

Lemma scan_run_covers k h ds : ∀ v em,
  in_u 64 v → in_u 64 h → rev v ≤ rev h →
  Forall (λ d, wf d ∧ dictHashKey d k = h ∧ k ∈ key <$> entries d) ds → ds ≠ [] →
  scan_ok ds v = true → scan_run ds v = Some (0, em) → k ∈ key <$> em.
Proof.
  induction ds as [|d ds IH]; intros v em Hv Hh Hle Hds Hne Hok Hrun; [done|].
  apply Forall_cons in Hds as [(Hw & Hk & Hin) Hds].
  apply list_elem_of_fmap in Hin as (e & -> & He).
  destruct (dictScan_spec d v Hw Hv) as (v' & em1 & Hs & Hv' & Hbits & Hpos & _ & Hcov).
  { intros E. rewrite E in He. by apply elem_of_nil in He. }
  cbn [scan_run scan_ok] in *. rewrite Hs in *. cbn [mbind option_bind] in *.
  apply andb_true_iff in Hok as [Hc Hok].
  destruct (scan_run ds v') as [[v2 ems]|] eqn:Hr; [|done]. simplify_eq/=.
  rewrite fmap_app, elem_of_app.
  destruct (Z.lt_ge_cases (rev (dictHashKey d (key e))) (next_pos (scan_bits d) (rev v))) as [Hlt|Hge].
  { left. apply list_elem_of_fmap. exists e. split; [done|]. by apply Hcov. }
  right. pose proof (rev_range (dictHashKey d (key e))) as [_ Hr2].
  pose proof (rev_range v) as [Hr0 _].
  assert (u64 (next_pos (scan_bits d) (rev v)) = next_pos (scan_bits d) (rev v)) as E.
  { apply u64_small. destruct (block_pos (scan_bits d) ltac:(lia)) as [Hb _]. unfold next_pos in *.
    split; [|lia]. pose proof (Z.div_pos (rev v) (block (scan_bits d))). nia. }
  rewrite E in Hpos. apply (IH v' ems); try done; [lia|].
  intros ->. simpl in Hr. simplify_eq. rewrite rev_0 in Hpos.
  destruct (block_pos (scan_bits d) ltac:(lia)) as [Hb _]. unfold next_pos in Hpos.
  pose proof (Z.div_pos (rev v) (block (scan_bits d))). nia.
Qed.

(** C28: the guarantee of [dictScan]: in any scan from cursor 0 to cursor 0,
    with the dictionary changed arbitrarily between the calls (keys added and
    deleted, tables grown or shrunk, rehashing started or finished), a key
    that is present at every call is returned, provided no call on a
    rehashing dictionary gets a cursor with bits between the two masks. *)
Theorem dictScan_guarantee k h ds em :
  Forall (λ d, wf d ∧ dictHashKey d k = h ∧ k ∈ key <$> entries d) ds → ds ≠ [] →
  scan_ok ds 0 = true → scan_run ds 0 = Some (0, em) → k ∈ key <$> em.
Proof.
  intros Hds Hne Hok Hrun. eapply (scan_run_covers k h ds 0); try done.
  - destruct Hds as [|d ds (Hw & <- & _) _]; [done|]. by apply hash_u64.
  - rewrite rev_0. apply rev_range.
Qed.

Lemma cursor_ok_small d v :
  wf d → in_u 64 v → v < 2 ^ Z.of_nat (scan_bits d) → cursor_ok d v = true.
Proof.
  intros Hw Hv Hlt. unfold cursor_ok. destruct (dictIsRehashing d) eqn:Hr; [|done].
  destruct (scan_tables d Hw Hr) as (s & a & b & _ & _ & _ & Hab & Hbits & ->).
  rewrite Hbits in Hlt. rewrite (expand_test a b v Hab), Z.div_small, Z.mod_0_l; [done|lia|].
  destruct Hv. lia.
Qed.

Lemma static_run d m : ∀ v,
  wf d → entries d ≠ [] → in_u 64 v → Z.of_nat m ≤ 2 ^ Z.of_nat (scan_bits d) →
  rev v = u64 ((2 ^ Z.of_nat (scan_bits d) - Z.of_nat m) * block (scan_bits d)) →
  ∃ em, scan_run (replicate m d) v = Some (0, em) ∧ scan_ok (replicate m d) v = true ∧
    ∀ e, e ∈ em → e ∈ entries d.
Proof.
  induction m as [|m IH]; intros v Hw Hne Hv Hm Hpos;
    destruct (dictScan_spec d v Hw Hv Hne) as (v' & em1 & Hs & Hv' & Hbits & Hpos' & Hsub & _);
    destruct (block_pos (scan_bits d) ltac:(lia)) as [Hb Hbn]; set (n := scan_bits d) in *.
  { exists []. split_and!; [|done|set_solver]. simpl. do 2 f_equal. apply rev_inj; [done|done|].
    rewrite Hpos, Z.sub_0_r, Z.mul_comm, Hbn. done. }
  rewrite u64_small in Hpos by (rewrite <- Hbn; nia).
  cbn [replicate scan_run scan_ok]. rewrite Hs. cbn [mbind option_bind].
  destruct (IH v' Hw Hne Hv') as (em & -> & -> & Hem); [lia| |].
  { rewrite Hpos', Hpos. f_equal. unfold next_pos. rewrite Z.div_mul by lia. f_equal. lia. }
  cbn [mbind option_bind]. exists (em1 ++ em). split_and!; [done| |set_solver].
  rewrite andb_true_r. apply cursor_ok_small; [done|done|]. fold n.
  apply small_cursor; [lia|done|]. rewrite Hpos. apply Z_mod_mult.
Qed.

(** C37: a scan of a dictionary that does not change, rehashing or not, ends:
    after as many calls as the smaller table has buckets the cursor is 0
    again, and the calls returned every key and nothing else. *)
Theorem dictScan_terminates d :
  wf d → entries d ≠ [] →
  ∃ em, scan_run (replicate (Z.to_nat (2 ^ Z.of_nat (scan_bits d))) d) 0 = Some (0, em) ∧
    ∀ k, k ∈ key <$> em ↔ k ∈ key <$> entries d.
Proof.
  intros Hw Hne. assert (0 < 2 ^ Z.of_nat (scan_bits d)) as Hp by lia.
  destruct (static_run d (Z.to_nat (2 ^ Z.of_nat (scan_bits d))) 0 Hw Hne)
    as (em & Hrun & Hok & Hsub); [done|lia| |].
  { rewrite Z2Nat.id, Z.sub_diag by lia. done. }
  exists em. split; [done|]. intros k. split.
  - intros (e & -> & He)%list_elem_of_fmap. apply list_elem_of_fmap. eauto.
  - intros Hk. eapply (scan_run_covers k (dictHashKey d k)
      (replicate (Z.to_nat (2 ^ Z.of_nat (scan_bits d))) d) 0); try done.
    + by apply hash_u64.
    + rewrite rev_0. apply rev_range.
    + apply Forall_replicate. done.
    + intros E. apply (f_equal length) in E. rewrite length_replicate in E. simpl in E. lia.
Qed.
End scan_correct.

(** ** Witnesses and the failing case *)

(** Nine keys in a table of 16 buckets; then all but two are deleted and the
    dictionary starts to shrink to 4 buckets. *)
Definition big_ops : list (bool * dop Z Z) :=
  ((λ k, (true, DAdd (Z.of_nat k) 1)) <$> seq 0 9) ++ replicate 8 (true, DFetch 0).
Definition shrink_ops : list (bool * dop Z Z) :=
  ((λ k, (true, DDelete k)) <$> [0; 2; 3; 5; 6; 7; 8]) ++ [(true, DResize)].

Definition run_dict (d : dict Z Z) (os : list (bool * dop Z Z)) : dict Z Z :=
  default d (fst <$> dop_run d os).
Definition big_dict : dict Z Z := run_dict (dictCreate ztype) big_ops.
Definition shrinking_dict : dict Z Z := run_dict big_dict shrink_ops.

Lemma run_dict_wf d os :
  wf d → zlen (entries d) + zlen os ≤ max_entries → wf (run_dict d os).
Proof.
  intros Hw Hm. unfold run_dict. destruct (dop_run_spec os d Hw Hm) as (d' & -> & ? & _). done.
Qed.

Lemma big_dict_wf : wf big_dict.
Proof. apply run_dict_wf; [apply wf_create, ztype_ok|by vm_compute]. Qed.
Lemma shrinking_dict_wf : wf shrinking_dict.
Proof. apply run_dict_wf; [apply big_dict_wf|by vm_compute]. Qed.

(** A scan that starts on [big_dict] and ends after its entries moved to the
    small table. *)
Definition shrunk_dict : dict Z Z := run_dict shrinking_dict [(true, DRehash 100)].
Definition good_scan : list (dict Z Z) := big_dict :: replicate 4 shrunk_dict.

Lemma shrunk_dict_wf : wf shrunk_dict.
Proof. apply run_dict_wf; [apply shrinking_dict_wf|by vm_compute]. Qed.

Lemma good_scan_present :
  Forall (λ d, wf d ∧ dictHashKey d 4 = 4 ∧ 4 ∈ key <$> entries d) good_scan.
Proof.
  apply Forall_cons. split; [|apply Forall_replicate]; split_and!;
    [exact big_dict_wf|by vm_compute| |exact shrunk_dict_wf|by vm_compute|];
    apply (bool_decide_unpack _); by vm_compute.
Qed.

Lemma dictScan_guarantee_witness :
  4 ∈ key <$> default [] (snd <$> scan_run good_scan 0).
Proof.
  apply (dictScan_guarantee 4 4 good_scan (default [] (snd <$> scan_run good_scan 0)));
    [exact good_scan_present|discriminate|by vm_compute|by vm_compute].
Defined.

Lemma dictScan_terminates_witness :
  ∃ em, scan_run (replicate (Z.to_nat (2 ^ Z.of_nat (scan_bits shrinking_dict))) shrinking_dict) 0
          = Some (0, em) ∧
    ∀ k, k ∈ key <$> em ↔ k ∈ key <$> entries shrinking_dict.
Proof.
  apply (dictScan_terminates shrinking_dict); [apply shrinking_dict_wf|by vm_compute].
Defined.

(** The guarantee fails when a dictionary starts to shrink during a scan.
    A key present at every call of a complete scan (first call on the table
    of 16 buckets, the others while it is being rehashed to 4 buckets) is
    never returned: the expansion loop starts in the middle of the natural
    order of the high bits and skips the buckets in front. *)
Theorem dictScan_misses :
  wf big_dict ∧ wf shrinking_dict ∧
  scan_run (big_dict :: replicate 4 shrinking_dict) 0 ≠ None ∧
  fst <$> scan_run (big_dict :: replicate 4 shrinking_dict) 0 = Some 0 ∧
  Forall (λ d, 4 ∈ key <$> entries d) (big_dict :: replicate 4 shrinking_dict) ∧
  4 ∉ key <$> default [] (snd <$> scan_run (big_dict :: replicate 4 shrinking_dict) 0).
Proof.
  split_and!; [apply big_dict_wf|apply shrinking_dict_wf|by vm_compute|by vm_compute|..];
    apply (bool_decide_unpack _); by vm_compute.
Qed.
