(* ===== verification/Adlist.v ===== *)
(** * Doubly linked lists ([redis-3.2/src/adlist.c])

    The nodes live in a heap, a finite map from addresses to nodes, so that
    the pointer updates of every operation and the sharing between a list, an
    iterator and a node pointer held by the client are those of the code.
    [None] is a [NULL] or dangling pointer access.  The outcomes of [zmalloc]
    for nodes come from the oracle; the method pointers [dup], [free] and
    [match] of a list are options, and the calls of [free] are recorded. *)

From S2P Require Import Prelude.

Definition loc : Type := positive.

Section adlist.
Context {V : Type} `{EqDecision V}.

Record listNode := mk_node { prev : option loc; next : option loc; value : V }.

Record mem := mk_mem {
  nodes : gmap loc listNode;
  outcomes : oracle;
  freed : list V
}.

Record dlist := mk_list {
  head : option loc;
  tail : option loc;
  dup : option (V → option V);
  free : option unit;
  match_ : option (V → V → bool);
  len : Z
}.

Inductive direction := AL_START_HEAD | AL_START_TAIL.
Record listIter := mk_iter { it_next : option loc; it_direction : direction }.

(** ** Memory accesses *)

Definition set_nodes (m : mem) (h : gmap loc listNode) : mem := mk_mem h (outcomes m) (freed m).

Definition load (m : mem) (p : option loc) : option listNode := p ← p; nodes m !! p.

Definition store (m : mem) (p : option loc) (n : listNode) : option mem :=
  p ← p; _ ← nodes m !! p; Some (set_nodes m (<[p := n]> (nodes m))).

Definition set_prev (m : mem) (p q : option loc) : option mem :=
  n ← load m p; store m p (mk_node q (next n) (value n)).
Definition set_next (m : mem) (p q : option loc) : option mem :=
  n ← load m p; store m p (mk_node (prev n) q (value n)).

(** [zmalloc(sizeof(listNode))], initialised with [n]; [None] is [NULL]. *)
Definition new_node (m : mem) (n : listNode) : mem * option loc :=
  let '(ok, o) := alloc (outcomes m) in
  if ok then
    let p := fresh (dom (nodes m)) in
    (mk_mem (<[p := n]> (nodes m)) o (freed m), Some p)
  else (mk_mem (nodes m) o (freed m), None).

Definition zfree (m : mem) (p : option loc) : option mem :=
  p ← p; _ ← nodes m !! p; Some (set_nodes m (delete p (nodes m))).

(** [if (list->free) list->free(v)]. *)
Definition call_free (m : mem) (l : dlist) (v : V) : mem :=
  match free l with
  | Some _ => mk_mem (nodes m) (outcomes m) (v :: freed m)
  | None => m
  end.

Definition set_ends (l : dlist) (h t : option loc) : dlist :=
  mk_list h t (dup l) (free l) (match_ l) (len l).
Definition set_len (l : dlist) (n : Z) : dlist :=
  mk_list (head l) (tail l) (dup l) (free l) (match_ l) n.

(** ** Operations *)

Definition listCreate (m : mem) : mem * option dlist :=
  let '(ok, o) := alloc (outcomes m) in
  let m := mk_mem (nodes m) o (freed m) in
  (m, if ok then Some (mk_list None None None None None 0) else None).

(** [while(len--)]. *)
Fixpoint release_loop (n : nat) (m : mem) (l : dlist) (current : option loc) : option mem :=
  match n with
  | O => Some m
  | S n =>
      c ← load m current;
      let next := next c in
      let m := call_free m l (value c) in
      m ← zfree m current;
      release_loop n m l next
  end.

Definition listRelease (m : mem) (l : dlist) : option mem :=
  release_loop (Z.to_nat (len l)) m l (head l).

(** The [bool] of the insertions is [false] for the [NULL] result. *)
Definition listAddNodeHead (m : mem) (l : dlist) (v : V) : option (mem * dlist * bool) :=
  if len l =? 0 then
    let '(m, node) := new_node m (mk_node None None v) in
    match node with
    | None => Some (m, l, false)
    | Some _ => Some (m, set_len (set_ends l node node) (u64 (len l + 1)), true)
    end
  else
    let '(m, node) := new_node m (mk_node None (head l) v) in
    match node with
    | None => Some (m, l, false)
    | Some _ =>
        m ← set_prev m (head l) node;
        Some (m, set_len (set_ends l node (tail l)) (u64 (len l + 1)), true)
    end.

Definition listAddNodeTail (m : mem) (l : dlist) (v : V) : option (mem * dlist * bool) :=
  if len l =? 0 then
    let '(m, node) := new_node m (mk_node None None v) in
    match node with
    | None => Some (m, l, false)
    | Some _ => Some (m, set_len (set_ends l node node) (u64 (len l + 1)), true)
    end
  else
    let '(m, node) := new_node m (mk_node (tail l) None v) in
    match node with
    | None => Some (m, l, false)
    | Some _ =>
        m ← set_next m (tail l) node;
        Some (m, set_len (set_ends l (head l) node) (u64 (len l + 1)), true)
    end.

Definition listInsertNode (m : mem) (l : dlist) (old_node : option loc) (v : V) (after : bool)
  : option (mem * dlist * bool) :=
  old ← load m old_node;
  let n := if after then mk_node old_node (next old) v else mk_node (prev old) old_node v in
  let '(m, node) := new_node m n in
  match node with
  | None => Some (m, l, false)
  | Some _ =>
      let l := if after
        then (if decide (tail l = old_node) then set_ends l (head l) node else l)
        else (if decide (head l = old_node) then set_ends l node (tail l) else l) in
      m ← match prev n with Some _ => set_next m (prev n) node | None => Some m end;
      m ← match next n with Some _ => set_prev m (next n) node | None => Some m end;
      Some (m, set_len l (u64 (len l + 1)), true)
  end.

Definition listDelNode (m : mem) (l : dlist) (node : option loc) : option (mem * dlist) :=
  n ← load m node;
  '(m, l) ← match prev n with
            | Some _ => m ← set_next m (prev n) (next n); Some (m, l)
            | None => Some (m, set_ends l (next n) (tail l))
            end;
  n ← load m node;
  '(m, l) ← match next n with
            | Some _ => m ← set_prev m (next n) (prev n); Some (m, l)
            | None => Some (m, set_ends l (head l) (prev n))
            end;
  let m := call_free m l (value n) in
  m ← zfree m node;
  Some (m, set_len l (u64 (len l - 1))).

Definition listGetIterator (l : dlist) (d : direction) : listIter :=
  match d with
  | AL_START_HEAD => mk_iter (head l) d
  | AL_START_TAIL => mk_iter (tail l) d
  end.

Definition listRewind (l : dlist) : listIter := mk_iter (head l) AL_START_HEAD.
Definition listRewindTail (l : dlist) : listIter := mk_iter (tail l) AL_START_TAIL.

(** The returned node and the advanced iterator. *)
Definition listNext (m : mem) (it : listIter) : option (option loc * listIter) :=
  let current := it_next it in
  match current with
  | None => Some (None, it)
  | Some _ =>
      n ← load m current;
      Some (current,
        match it_direction it with
        | AL_START_HEAD => mk_iter (next n) AL_START_HEAD
        | AL_START_TAIL => mk_iter (prev n) AL_START_TAIL
        end)
  end.

(** The copy loop; the result is the copy, or [None] after the copy was
    released. *)
Fixpoint dup_loop (fuel : nat) (m : mem) (copy : dlist) (it : listIter)
  : option (mem * option dlist) :=
  match fuel with
  | O => None
  | S fuel =>
      '(node, it) ← listNext m it;
      match node with
      | None => Some (m, Some copy)
      | Some _ =>
          n ← load m node;
          let v := match dup copy with Some f => f (value n) | None => Some (value n) end in
          match v with
          | None => m ← listRelease m copy; Some (m, None)
          | Some v =>
              '(m, copy, ok) ← listAddNodeTail m copy v;
              if negb ok then m ← listRelease m copy; Some (m, None)
              else dup_loop fuel m copy it
          end
      end
  end.

Definition listDup (m : mem) (orig : dlist) : option (mem * option dlist) :=
  let '(m, copy) := listCreate m in
  match copy with
  | None => Some (m, None)
  | Some c =>
      let c := mk_list (head c) (tail c) (dup orig) (free orig) (match_ orig) (len c) in
      dup_loop (S (Z.to_nat (len orig))) m c (listRewind orig)
  end.

Fixpoint search_loop (fuel : nat) (m : mem) (l : dlist) (key : V) (it : listIter)
  : option (option loc) :=
  match fuel with
  | O => None
  | S fuel =>
      '(node, it) ← listNext m it;
      match node with
      | None => Some None
      | Some _ =>
          n ← load m node;
          let found := match match_ l with
                       | Some f => f (value n) key
                       | None => bool_decide (key = value n)
                       end in
          if found then Some node else search_loop fuel m l key it
      end
  end.

Definition listSearchKey (m : mem) (l : dlist) (key : V) : option (option loc) :=
  search_loop (S (Z.to_nat (len l))) m l key (listRewind l).

(** [while(index-- && n) n = n->next] (or [n->prev]). *)
Fixpoint index_loop (fuel : nat) (m : mem) (back : bool) (index : Z) (n : option loc)
  : option (option loc) :=
  match fuel with
  | O => None
  | S fuel =>
      if index =? 0 then Some n else
      match n with
      | None => Some None
      | Some _ =>
          nd ← load m n;
          index_loop fuel m back (index - 1) (if back then prev nd else next nd)
      end
  end.

Definition listIndex (m : mem) (l : dlist) (index : Z) : option (option loc) :=
  if index <? 0 then index_loop (S (S (Z.to_nat (len l)))) m true (- index - 1) (tail l)
  else index_loop (S (S (Z.to_nat (len l)))) m false index (head l).

Definition listRotate (m : mem) (l : dlist) : option (mem * dlist) :=
  let tl := tail l in
  if len l <=? 1 then Some (m, l) else
  t ← load m tl;
  let l := set_ends l (head l) (prev t) in
  m ← set_next m (tail l) None;
  m ← set_prev m (head l) tl;
  m ← set_prev m tl None;
  m ← set_next m tl (head l);
  Some (m, set_ends l tl (tail l)).

(** ** Segments

    [seg h p xs n]: the heap holds a segment with the nodes and values [xs],
    reached from [p] on the left and continued by [n] on the right. *)
Definition first (xs : list (loc * V)) (n : option loc) : option loc :=
  match xs with [] => n | (a, _) :: _ => Some a end.
Fixpoint final (p : option loc) (xs : list (loc * V)) : option loc :=
  match xs with [] => p | (a, _) :: xs => final (Some a) xs end.

Fixpoint seg (h : gmap loc listNode) (p : option loc) (xs : list (loc * V)) (n : option loc) : Prop :=
  match xs with
  | [] => True
  | (a, v) :: xs => h !! a = Some (mk_node p (first xs n) v) ∧ seg h (Some a) xs n
  end.

(** [l] is a list with the nodes and values [xs] in [m]. *)
Record repr (m : mem) (l : dlist) (xs : list (loc * V)) : Prop := {
  r_seg : seg (nodes m) None xs None;
  r_nodup : NoDup xs.*1;
  r_head : head l = first xs None;
  r_tail : tail l = final None xs;
  r_len : len l = zlen xs
}.

Lemma first_app xs ys n : first (xs ++ ys) n = first xs (first ys n).
Proof. by destruct xs as [|[a v] xs]. Qed.

Lemma final_app p xs ys : final p (xs ++ ys) = final (final p xs) ys.
Proof. revert p. induction xs as [|[a v] xs IH]; intros p; [done|]. apply IH. Qed.

Lemma seg_app h xs ys : ∀ p n,
  seg h p (xs ++ ys) n ↔ seg h p xs (first ys n) ∧ seg h (final p xs) ys n.
Proof.
  induction xs as [|[a v] xs IH]; intros p n; simpl; [tauto|].
  rewrite IH, first_app. tauto.
Qed.

(** A store outside a segment. *)
Lemma seg_frame h xs a nd : ∀ p n, a ∉ xs.*1 → seg h p xs n → seg (<[a := nd]> h) p xs n.
Proof.
  induction xs as [|[b v] xs IH]; intros p n Ha; [done|]. simpl in *.
  apply not_elem_of_cons in Ha as [Hab Ha]. intros [Hb Hs]. split; [|by apply IH].
  by rewrite lookup_insert_ne.
Qed.

Lemma seg_delete h xs a : ∀ p n, a ∉ xs.*1 → seg h p xs n → seg (delete a h) p xs n.
Proof.
  induction xs as [|[b v] xs IH]; intros p n Ha; [done|]. simpl in *.
  apply not_elem_of_cons in Ha as [Hab Ha]. intros [Hb Hs]. split; [|by apply IH].
  by rewrite lookup_delete_ne.
Qed.

Lemma seg_dom h xs : ∀ p n a, seg h p xs n → a ∈ xs.*1 → is_Some (h !! a).
Proof.
  induction xs as [|[b v] xs IH]; intros p n a; [set_solver|]. simpl.
  intros [Hb Hs] [->|Ha]%elem_of_cons; eauto.
Qed.

(** The cases of the left and of the right neighbour. *)
Lemma seg_last (xs : list (loc * V)) : xs = [] ∨ ∃ ys a v, xs = ys ++ [(a, v)].
Proof. destruct xs as [|[a v] ys _] using rev_ind; eauto 10. Qed.

Lemma seg_snoc h p xs a v n :
  seg h p (xs ++ [(a, v)]) n ↔
  seg h p xs (Some a) ∧ h !! a = Some (mk_node (final p xs) n v).
Proof. rewrite seg_app. simpl. tauto. Qed.

(** Redirecting a pointer of the node [p], if there is one. *)
Definition upd_next (h : gmap loc listNode) (p q : option loc) : gmap loc listNode :=
  match p with
  | None => h
  | Some a => alter (λ nd, mk_node (prev nd) q (value nd)) a h
  end.
Definition upd_prev (h : gmap loc listNode) (p q : option loc) : gmap loc listNode :=
  match p with
  | None => h
  | Some a => alter (λ nd, mk_node q (next nd) (value nd)) a h
  end.

Definition in_heap (h : gmap loc listNode) (p : option loc) : Prop :=
  match p with None => True | Some a => is_Some (h !! a) end.

Lemma alter_insert_node (h : gmap loc listNode) f a nd :
  h !! a = Some nd → <[a := f nd]> h = alter f a h.
Proof.
  intros Ha. apply map_eq. intros b. destruct (decide (a = b)) as [->|].
  - by rewrite lookup_insert_eq, lookup_alter_eq, Ha.
  - by rewrite lookup_insert_ne, lookup_alter_ne.
Qed.

Lemma set_next_upd m p q :
  in_heap (nodes m) p →
  match p with Some _ => set_next m p q | None => Some m end
  = Some (set_nodes m (upd_next (nodes m) p q)).
Proof.
  destruct p as [a|]; [|by destruct m]. intros [nd Ha]. unfold set_next, load, store.
  cbn [mbind option_bind]. rewrite Ha. cbn [mbind option_bind].
  by rewrite (alter_insert_node _ (λ nd, mk_node (prev nd) q (value nd)) a nd).
Qed.

Lemma set_prev_upd m p q :
  in_heap (nodes m) p →
  match p with Some _ => set_prev m p q | None => Some m end
  = Some (set_nodes m (upd_prev (nodes m) p q)).
Proof.
  destruct p as [a|]; [|by destruct m]. intros [nd Ha]. unfold set_prev, load, store.
  cbn [mbind option_bind]. rewrite Ha. cbn [mbind option_bind].
  by rewrite (alter_insert_node _ (λ nd, mk_node q (next nd) (value nd)) a nd).
Qed.

(** A change of one node that is not in a segment. *)
Lemma seg_alter h f xs a : ∀ p n, a ∉ xs.*1 → seg h p xs n → seg (alter f a h) p xs n.
Proof.
  induction xs as [|[b v] xs IH]; intros p n Ha; [done|]. simpl in *.
  apply not_elem_of_cons in Ha as [Hab Ha]. intros [Hb Hs]. split; [|by apply IH].
  by rewrite lookup_alter_ne.
Qed.

Lemma upd_next_lookup h p q a : p ≠ Some a → upd_next h p q !! a = h !! a.
Proof. destruct p as [b|]; simpl; [|done]. intros. by rewrite lookup_alter_ne by congruence. Qed.

Lemma upd_prev_lookup h p q a : p ≠ Some a → upd_prev h p q !! a = h !! a.
Proof. destruct p as [b|]; simpl; [|done]. intros. by rewrite lookup_alter_ne by congruence. Qed.

Lemma first_elem xs a : first xs None = Some a → a ∈ xs.*1.
Proof. destruct xs as [|[b v] xs]; simpl; [done|]. intros [= ->]. set_solver. Qed.

Lemma final_elem xs a : final None xs = Some a → a ∈ xs.*1.
Proof.
  destruct (seg_last xs) as [->|(ys & b & v & ->)]; [done|]. rewrite final_app. simpl.
  intros [= ->]. rewrite fmap_app. set_solver.
Qed.

Lemma upd_next_frame h ys zs p n q :
  (∀ a, a ∈ ys.*1 → a ∉ zs.*1) → seg h p zs n → seg (upd_next h (final None ys) q) p zs n.
Proof.
  intros Hd Hs. destruct (final None ys) as [a|] eqn:E; [|done].
  apply seg_alter; [|done]. by apply Hd, final_elem.
Qed.

Lemma upd_prev_frame h ys zs p n q :
  (∀ a, a ∈ ys.*1 → a ∉ zs.*1) → seg h p zs n → seg (upd_prev h (first ys None) q) p zs n.
Proof.
  intros Hd Hs. destruct (first ys None) as [a|] eqn:E; [|done].
  apply seg_alter; [|done]. by apply Hd, first_elem.
Qed.

(** Redirecting the pointer at the right end, and at the left end. *)
Lemma upd_next_seg h p ys n n' :
  NoDup ys.*1 → seg h p ys n → seg (upd_next h (final None ys) n') p ys n'.
Proof.
  destruct (seg_last ys) as [->|(xs & a & v & ->)]; [done|].
  rewrite fmap_app, NoDup_app. intros (_ & Hd & _). rewrite final_app, !seg_snoc. simpl.
  intros [Hs Ha]. split; [apply seg_alter; [|done]; set_solver|].
  by rewrite lookup_alter_eq, Ha.
Qed.

Lemma upd_prev_seg h p p' zs n :
  NoDup zs.*1 → seg h p zs n → seg (upd_prev h (first zs None) p') p' zs n.
Proof.
  destruct zs as [|[a v] zs]; [done|]. simpl. intros [Ha _]%NoDup_cons [Hh Hs].
  split; [by rewrite lookup_alter_eq, Hh|]. by apply seg_alter.
Qed.

(** Joining two segments by new pointers [x] and [y]. *)
Lemma relink h ys zs n1 p1 x y :
  NoDup (ys ++ zs).*1 → seg h None ys n1 → seg h p1 zs None →
  let h' := upd_prev (upd_next h (final None ys) x) (first zs None) y in
  seg h' None ys x ∧ seg h' y zs None.
Proof.
  rewrite fmap_app, NoDup_app. intros (Hy & Hd & Hz) Sy Sz h'. split.
  - apply upd_prev_frame; [intros a Ha Ha'; by apply (Hd a)|]. by eapply upd_next_seg.
  - eapply upd_prev_seg; [done|]. apply upd_next_frame; [intros a Ha Ha'; by apply (Hd a)|done].
Qed.

Lemma seg_in_heap h xs p n :
  seg h p xs n → in_heap h (first xs None) ∧ in_heap h (final None xs).
Proof.
  intros Hs. split.
  - destruct (first xs None) as [a|] eqn:E; [|done]. by eapply seg_dom, first_elem.
  - destruct (final None xs) as [a|] eqn:E; [|done]. by eapply seg_dom, final_elem.
Qed.

(** The nodes outside [X] are unchanged. *)
Definition frame (X : list loc) (h h' : gmap loc listNode) : Prop :=
  ∀ a, is_Some (h !! a) → a ∉ X → h' !! a = h !! a.

Lemma frame_upd_next X h h' ys q :
  frame X h h' → (∀ a, a ∈ ys.*1 → a ∈ X) → frame X h (upd_next h' (final None ys) q).
Proof.
  intros F Hy b Hb Hx. rewrite upd_next_lookup; [by apply F|].
  intros E%final_elem. by apply Hx, Hy.
Qed.

Lemma frame_upd_prev X h h' ys q :
  frame X h h' → (∀ a, a ∈ ys.*1 → a ∈ X) → frame X h (upd_prev h' (first ys None) q).
Proof.
  intros F Hy b Hb Hx. rewrite upd_prev_lookup; [by apply F|].
  intros E%first_elem. by apply Hx, Hy.
Qed.

(** ** Insertion between two segments *)
Definition linked (h : gmap loc listNode) (ys zs : list (loc * V)) (a : loc) (v : V) :=
  upd_prev (upd_next (<[a := mk_node (final None ys) (first zs None) v]> h)
    (final None ys) (Some a)) (first zs None) (Some a).

Lemma linked_spec h ys zs a v :
  seg h None (ys ++ zs) None → NoDup (ys ++ zs).*1 → h !! a = None →
  seg (linked h ys zs a v) None (ys ++ (a, v) :: zs) None ∧
  NoDup (ys ++ (a, v) :: zs).*1 ∧ frame (ys ++ zs).*1 h (linked h ys zs a v).
Proof.
  intros Hs Hnd Ha.
  assert (a ∉ (ys ++ zs).*1) as Hni.
  { intros Hin. destruct (seg_dom _ _ _ _ a Hs Hin) as [? E]. congruence. }
  assert ((a ∉ ys.*1) ∧ (a ∉ zs.*1)) as [Hy Hz] by (rewrite fmap_app in Hni; set_solver).
  apply seg_app in Hs as [Sy Sz]. unfold linked. set (nd := mk_node _ _ v).
  destruct (relink (<[a := nd]> h) ys zs (first zs None) (final None ys) (Some a) (Some a))
    as [Sy' Sz']; [done|by apply seg_frame|by apply seg_frame|].
  split_and!.
  - rewrite seg_app. split; [exact Sy'|]. cbn [seg]. split; [|exact Sz'].
    rewrite upd_prev_lookup, upd_next_lookup, lookup_insert_eq; [done|..].
    + by intros E%final_elem.
    + by intros E%first_elem.
  - rewrite fmap_app. cbn [fmap list_fmap fst]. rewrite <- Permutation_middle.
    constructor; [|by rewrite fmap_app in Hnd]. rewrite elem_of_app. tauto.
  - apply frame_upd_prev; [apply frame_upd_next|]; try (rewrite fmap_app; set_solver).
    intros b [nb Hb] Hx. rewrite lookup_insert_ne; [done|]. congruence.
Qed.

Lemma new_node_spec m n m' r :
  new_node m n = (m', r) →
  freed m' = freed m ∧ outcomes m' = (alloc (outcomes m)).2 ∧
  match r with
  | None => (alloc (outcomes m)).1 = false ∧ nodes m' = nodes m
  | Some a => (alloc (outcomes m)).1 = true ∧ nodes m !! a = None ∧ nodes m' = <[a := n]> (nodes m)
  end.
Proof.
  unfold new_node. destruct (alloc (outcomes m)) as [[] o]; intros [= <- <-]; simpl; [|done].
  split_and!; try done. apply not_elem_of_dom, is_fresh.
Qed.

(** What the three insertions promise: the value appears between [ys] and
    [zs], or the allocation failed and nothing changed. *)
Definition inserted (m : mem) (l : dlist) (ys zs : list (loc * V)) (v : V) (r : mem * dlist * bool)
  : Prop :=
  let '(m', l', ok) := r in
  ok = (alloc (outcomes m)).1 ∧ outcomes m' = (alloc (outcomes m)).2 ∧ freed m' = freed m ∧
  dup l' = dup l ∧ free l' = free l ∧ match_ l' = match_ l ∧ frame (ys ++ zs).*1 (nodes m) (nodes m') ∧
  if ok then ∃ a, nodes m !! a = None ∧ repr m' l' (ys ++ (a, v) :: zs) ∧
    (∀ b, b ≠ a → nodes m !! b = None → nodes m' !! b = None)
  else nodes m' = nodes m ∧ l' = l.

Lemma upd_next_None h p q b : upd_next h p q !! b = None ↔ h !! b = None.
Proof. destruct p as [a|]; [|done]. simpl. apply lookup_alter_None. Qed.
Lemma upd_prev_None h p q b : upd_prev h p q !! b = None ↔ h !! b = None.
Proof. destruct p as [a|]; [|done]. simpl. apply lookup_alter_None. Qed.

Lemma linked_None h ys zs a v b : b ≠ a → h !! b = None → linked h ys zs a v !! b = None.
Proof.
  intros Hb E. unfold linked. rewrite upd_prev_None, upd_next_None.
  by rewrite lookup_insert_ne by congruence.
Qed.

Lemma len_zero xs : zlen xs = 0 → xs = ([] : list (loc * V)).
Proof. destruct xs; [done|simpl; lia]. Qed.

(** The code after a successful allocation, for any way to reach it. *)
Lemma inserted_intro m m1 l l' ys zs v a :
  repr m l (ys ++ zs) → zlen (ys ++ zs) + 1 < 2 ^ 64 →
  (alloc (outcomes m)).1 = true → nodes m !! a = None →
  nodes m1 = linked (nodes m) ys zs a v → outcomes m1 = (alloc (outcomes m)).2 →
  freed m1 = freed m → dup l' = dup l → free l' = free l → match_ l' = match_ l →
  head l' = first (ys ++ (a, v) :: zs) None → tail l' = final None (ys ++ (a, v) :: zs) →
  len l' = u64 (len l + 1) →
  inserted m l ys zs v (m1, l', true).
Proof.
  intros [Hs Hnd _ _ Hl] Hlen Hok Ha Hn Ho Hf Hd Hfr Hma Hh Ht Hln.
  destruct (linked_spec (nodes m) ys zs a v Hs Hnd Ha) as (S' & N' & F').
  unfold inserted. rewrite <- Hn in *. split_and!; try done.
  exists a. split_and!; [done| |].
  - split; try done. rewrite Hln, Hl. unfold u64. rewrite wrapu_id by (unfold in_u; lia).
    rewrite !length_app. simpl. lia.
  - intros b Hb Hnone. rewrite Hn. by apply linked_None.
Qed.

Lemma frame_refl X h : frame X h h.
Proof. by intros a _ _. Qed.

Lemma inserted_fail m m1 l ys zs v :
  (alloc (outcomes m)).1 = false → nodes m1 = nodes m → outcomes m1 = (alloc (outcomes m)).2 →
  freed m1 = freed m → inserted m l ys zs v (m1, l, false).
Proof.
  intros Hok Hn Ho Hf. unfold inserted. rewrite Hok, Hn. by split_and!.
Qed.

Lemma listAddNodeHead_spec m l xs v :
  repr m l xs → zlen xs + 1 < 2 ^ 64 →
  ∃ r, listAddNodeHead m l v = Some r ∧ inserted m l [] xs v r.
Proof.
  intros Hr Hlen. pose proof Hr as [Hs Hnd Hh Ht Hl]. unfold listAddNodeHead.
  destruct (Z.eqb_spec (len l) 0) as [E|E].
  - rewrite Hl in E. apply len_zero in E as ->.
    destruct (new_node m _) as [m1 r] eqn:Hn. apply new_node_spec in Hn as (Hf & Ho & Hn).
    destruct r as [a|]; eexists; (split; [done|]).
    + destruct Hn as (Hok & Ha & Hn). by eapply inserted_intro.
    + destruct Hn as [Hok Hn]. by apply inserted_fail.
  - destruct xs as [|[b w] xs]; [done|].
    destruct (new_node m _) as [m1 r] eqn:Hn. apply new_node_spec in Hn as (Hf & Ho & Hn).
    destruct r as [a|].
    + destruct Hn as (Hok & Ha & Hn). rewrite Hh. cbn [first].
      rewrite (set_prev_upd m1 (Some b) (Some a)); cycle 1.
      { rewrite Hn. simpl in Hs. destruct Hs as [Hb _]. simpl.
        rewrite lookup_insert_ne by congruence. eauto. }
      cbn [mbind option_bind]. eexists. split; [done|].
      eapply inserted_intro; try done. cbn [nodes set_nodes]. rewrite Hn, Hh. done.
    + eexists. split; [done|]. destruct Hn as [Hok Hn]. by apply inserted_fail.
Qed.

Lemma listAddNodeTail_spec m l xs v :
  repr m l xs → zlen xs + 1 < 2 ^ 64 →
  ∃ r, listAddNodeTail m l v = Some r ∧ inserted m l xs [] v r.
Proof.
  intros Hr Hlen. pose proof Hr as [Hs Hnd Hh Ht Hl]. unfold listAddNodeTail.
  destruct (Z.eqb_spec (len l) 0) as [E|E].
  - rewrite Hl in E. apply len_zero in E as ->.
    destruct (new_node m _) as [m1 r] eqn:Hn. apply new_node_spec in Hn as (Hf & Ho & Hn).
    destruct r as [a|]; eexists; (split; [done|]).
    + destruct Hn as (Hok & Ha & Hn). by eapply inserted_intro.
    + destruct Hn as [Hok Hn]. by apply inserted_fail.
  - destruct (seg_last xs) as [->|(ys & b & w & ->)]; [done|].
    rewrite final_app in Ht. cbn [final] in Ht.
    destruct (new_node m _) as [m1 r] eqn:Hn. apply new_node_spec in Hn as (Hf & Ho & Hn).
    destruct r as [a|].
    + destruct Hn as (Hok & Ha & Hn). rewrite Ht.
      rewrite (set_next_upd m1 (Some b) (Some a)); cycle 1.
      { rewrite Hn. apply seg_snoc in Hs as [_ Hb]. simpl.
        rewrite lookup_insert_ne by congruence. eauto. }
      cbn [mbind option_bind]. eexists. split; [done|].
      eapply inserted_intro; rewrite ?app_nil_r; try done.
      * cbn [nodes set_nodes]. rewrite Hn, Ht. unfold linked. by rewrite final_app.
      * cbn [head set_len set_ends]. rewrite Hh, !first_app. by destruct ys as [|[? ?] ?].
      * by rewrite final_app.
    + eexists. split; [done|]. destruct Hn as [Hok Hn]. by apply inserted_fail.
Qed.

Lemma seg_mid h ys b w zs p n :
  seg h p (ys ++ (b, w) :: zs) n → h !! b = Some (mk_node (final p ys) (first zs n) w).
Proof. rewrite seg_app. by intros [_ [? _]]. Qed.

Lemma nodup_mid (ys zs : list (loc * V)) b w :
  NoDup (ys ++ (b, w) :: zs).*1 → (b ∉ ys.*1) ∧ (b ∉ zs.*1) ∧ NoDup (ys ++ zs).*1.
Proof.
  rewrite !fmap_app. cbn [fmap list_fmap fst]. rewrite <- Permutation_middle.
  intros [Hb Hn]%NoDup_cons. rewrite elem_of_app in Hb. split_and!; tauto.
Qed.

Lemma final_is ys b w zs :
  NoDup (ys ++ (b, w) :: zs).*1 → final None (ys ++ (b, w) :: zs) = Some b ↔ zs = [].
Proof.
  intros (_ & Hz & _)%nodup_mid. rewrite final_app. simpl. destruct (seg_last zs) as [->|(xs & a & v & ->)].
  { done. }
  rewrite final_app. simpl. split; [|intros E; by destruct xs].
  intros [= ->]. destruct Hz. rewrite fmap_app. set_solver.
Qed.

Lemma first_is ys b w zs :
  NoDup (ys ++ (b, w) :: zs).*1 → first (ys ++ (b, w) :: zs) None = Some b ↔ ys = [].
Proof.
  intros (Hy & _)%nodup_mid. destruct ys as [|[a v] ys]; simpl; [done|].
  split; [|done]. intros [= ->]. destruct Hy. set_solver.
Qed.

Lemma link_mem m m1 ys zs a v :
  seg (nodes m) None (ys ++ zs) None → NoDup (ys ++ zs).*1 → nodes m !! a = None →
  nodes m1 = <[a := mk_node (final None ys) (first zs None) v]> (nodes m) →
  (m2 ← match final None ys with Some _ => set_next m1 (final None ys) (Some a) | None => Some m1 end;
   match first zs None with Some _ => set_prev m2 (first zs None) (Some a) | None => Some m2 end)
  = Some (set_nodes m1 (linked (nodes m) ys zs a v)).
Proof.
  intros Hs Hnd Ha Hn. apply seg_app in Hs as [Sy Sz].
  assert (∀ p, in_heap (nodes m) p → in_heap (nodes m1) p) as Hin.
  { intros [b|]; [|done]. rewrite Hn. simpl. intros [nb Hb].
    rewrite lookup_insert_ne by congruence. eauto. }
  rewrite set_next_upd by (apply Hin; by eapply seg_in_heap). cbn [mbind option_bind].
  rewrite set_prev_upd.
  - cbn [nodes set_nodes]. rewrite Hn. done.
  - cbn [nodes set_nodes]. destruct (first zs None) as [c|] eqn:Ec; [|done].
    simpl. apply not_eq_None_Some. rewrite upd_next_None.
    assert (in_heap (nodes m1) (Some c)) as [? Hc].
    { apply Hin. rewrite <- Ec. by eapply seg_in_heap. }
    congruence.
Qed.

Lemma listInsertNode_spec m l ys b w zs v (after : bool) :
  repr m l (ys ++ (b, w) :: zs) → zlen (ys ++ (b, w) :: zs) + 1 < 2 ^ 64 →
  ∃ r, listInsertNode m l (Some b) v after = Some r ∧
    if after then inserted m l (ys ++ [(b, w)]) zs v r else inserted m l ys ((b, w) :: zs) v r.
Proof.
  intros Hr Hlen. pose proof Hr as [Hs Hnd Hh Ht Hl]. unfold listInsertNode.
  pose proof (seg_mid _ _ _ _ _ _ _ Hs) as Hb. unfold load. cbn [mbind option_bind]. rewrite Hb.
  cbn [mbind option_bind prev next].
  assert (ys ++ (b, w) :: zs = (ys ++ [(b, w)]) ++ zs) as Ex by (by rewrite <- app_assoc).
  destruct after; cbn [prev next];
    destruct (new_node m _) as [m1 r] eqn:Hn; apply new_node_spec in Hn as (Hf & Ho & Hn);
    (destruct r as [a|]; [|eexists; split; [done|]; destruct Hn; by apply inserted_fail]);
    destruct Hn as (Hok & Ha & Hn).
  - rewrite Ex in Hs, Hnd, Hr, Hlen.
    assert (Some b = final None (ys ++ [(b, w)])) as Eb by (by rewrite final_app).
    pose proof (link_mem m m1 (ys ++ [(b, w)]) zs a v Hs Hnd Ha) as Hlink.
    rewrite <- Eb in Hlink. specialize (Hlink Hn).
    destruct (set_next m1 (Some b) (Some a)) as [m2|]; [|done]. cbn [mbind option_bind] in *.
    rewrite Hlink. cbn [mbind option_bind]. eexists. split; [done|]. rewrite <- Ex in Hnd.
    rewrite Ht. eapply inserted_intro; try done; rewrite <- ?app_assoc; simpl app;
      case_decide as Hd; rewrite (final_is _ _ _ _ Hnd) in Hd; simpl; try done;
      rewrite ?Hh, ?Ht, ?first_app, ?final_app; simpl; try done; subst; done || (by destruct zs).
  - pose proof (link_mem m m1 ys ((b, w) :: zs) a v Hs Hnd Ha Hn) as Hlink. cbn [first] in Hlink.
    destruct (match final None ys with Some _ => _ | None => _ end) as [m2|]; [|done].
    cbn [mbind option_bind] in *. rewrite Hlink. cbn [mbind option_bind].
    eexists. split; [done|]. rewrite Hh.
    eapply inserted_intro; try done; case_decide as Hd; rewrite (first_is _ _ _ _ Hnd) in Hd; simpl;
      try done; rewrite ?Hh, ?Ht, ?first_app, ?final_app; simpl; try done; subst; try done.
    by destruct ys as [|[? ?] ?].
Qed.

(** ** Removal *)

(** [h] with the node [b] between [ys] and [zs] unlinked and freed. *)
Definition unlinked (h : gmap loc listNode) (ys zs : list (loc * V)) (b : loc) :=
  delete b (upd_prev (upd_next h (final None ys) (first zs None)) (first zs None) (final None ys)).

Lemma unlinked_spec h ys b w zs :
  seg h None (ys ++ (b, w) :: zs) None → NoDup (ys ++ (b, w) :: zs).*1 →
  seg (unlinked h ys zs b) None (ys ++ zs) None ∧
  frame (ys ++ (b, w) :: zs).*1 h (unlinked h ys zs b).
Proof.
  intros Hs Hnd. destruct (nodup_mid _ _ _ _ Hnd) as (Hy & Hz & Hnd').
  apply seg_app in Hs as [Sy [_ Sz]].
  destruct (relink h ys zs (Some b) (Some b) (first zs None) (final None ys) Hnd' Sy Sz) as [Sy' Sz'].
  split.
  - rewrite seg_app. split; by apply seg_delete.
  - intros c Hc Hx. rewrite fmap_app in Hx. cbn [fmap list_fmap fst] in Hx. unfold unlinked.
    rewrite lookup_delete_ne by set_solver.
    rewrite upd_prev_lookup, upd_next_lookup; [done|..].
    + intros E%final_elem. set_solver.
    + intros E%first_elem. set_solver.
Qed.

Definition freed_after (m : mem) (l : dlist) (v : V) : list V :=
  match free l with Some _ => v :: freed m | None => freed m end.

Lemma listDelNode_spec m l ys b w zs :
  repr m l (ys ++ (b, w) :: zs) → zlen (ys ++ (b, w) :: zs) < 2 ^ 64 →
  ∃ m' l', listDelNode m l (Some b) = Some (m', l') ∧ repr m' l' (ys ++ zs) ∧
    dup l' = dup l ∧ free l' = free l ∧ match_ l' = match_ l ∧
    outcomes m' = outcomes m ∧ freed m' = freed_after m l w ∧
    nodes m' = unlinked (nodes m) ys zs b.
Proof.
  intros [Hs Hnd Hh Ht Hl] Hlen. unfold listDelNode.
  pose proof (seg_mid _ _ _ _ _ _ _ Hs) as Hb. unfold load. cbn [mbind option_bind]. rewrite Hb.
  cbn [mbind option_bind prev next].
  destruct (nodup_mid _ _ _ _ Hnd) as (Hy & Hz & Hnd').
  destruct (unlinked_spec _ _ _ _ _ Hs Hnd) as [Hs' _].
  apply seg_app in Hs as [Sy [_ Sz]].
  set (m1 := set_nodes m (upd_next (nodes m) (final None ys) (first zs None))).
  set (l1 := match final None ys with None => set_ends l (first zs None) (tail l) | Some _ => l end).
  assert (match final None ys with
          | Some _ => m0 ← set_next m (final None ys) (first zs None); Some (m0, l)
          | None => Some (m, set_ends l (first zs None) (tail l)) end = Some (m1, l1)) as ->.
  { pose proof (set_next_upd m (final None ys) (first zs None) ltac:(by eapply seg_in_heap)) as E.
    unfold m1, l1. destruct (final None ys) as [c|]; [by rewrite E|]. by rewrite <- E || (by destruct m). }
  cbn [mbind option_bind].
  assert (nodes m1 !! b = Some (mk_node (final None ys) (first zs None) w)) as Hb1.
  { unfold m1. cbn [nodes set_nodes]. rewrite upd_next_lookup; [done|]. by intros E%final_elem. }
  rewrite Hb1. cbn [mbind option_bind prev next value].
  set (m2 := set_nodes m1 (upd_prev (nodes m1) (first zs None) (final None ys))).
  set (l2 := match first zs None with None => set_ends l1 (head l1) (final None ys) | Some _ => l1 end).
  assert (match first zs None with
          | Some _ => m0 ← set_prev m1 (first zs None) (final None ys); Some (m0, l1)
          | None => Some (m1, set_ends l1 (head l1) (final None ys)) end = Some (m2, l2)) as ->.
  { assert (in_heap (nodes m1) (first zs None)) as Hin.
    { destruct (first zs None) as [c|] eqn:Ec; [|done]. simpl. apply not_eq_None_Some.
      unfold m1. cbn [nodes set_nodes]. rewrite upd_next_None. apply not_eq_None_Some.
      eapply (seg_dom _ _ _ _ c Sz). by apply first_elem. }
    pose proof (set_prev_upd m1 (first zs None) (final None ys) Hin) as E.
    unfold m2, l2. destruct (first zs None) as [c|]; [by rewrite E|]. by destruct m1. }
  cbn [mbind option_bind].
  assert (nodes m2 !! b = Some (mk_node (final None ys) (first zs None) w)) as Hb2.
  { unfold m2. cbn [nodes set_nodes]. rewrite upd_prev_lookup; [done|]. by intros E%first_elem. }
  assert (free l2 = free l ∧ dup l2 = dup l ∧ match_ l2 = match_ l ∧ len l2 = len l) as (Ef & Ed & Em & El).
  { unfold l2, l1. by destruct (first zs None), (final None ys). }
  set (m3 := call_free m2 l2 w).
  assert (nodes m3 = nodes m2 ∧ outcomes m3 = outcomes m ∧ freed m3 = freed_after m l w) as (En & Eo & Efr).
  { unfold m3, call_free, freed_after. rewrite Ef. by destruct (free l). }
  unfold zfree. cbn [mbind option_bind]. rewrite En, Hb2. cbn [mbind option_bind].
  eexists _, _. split; [done|]. split_and!; try done.
  split; [done|done| | |].
  - cbn [head set_len]. unfold l2, l1. rewrite first_app.
    destruct (seg_last ys) as [->|(xs & c & u & ->)].
    + simpl. by destruct zs as [|[? ?] ?].
    + rewrite final_app. simpl. rewrite first_app in Hh. destruct xs as [|[? ?] ?], zs as [|[? ?] ?]; done.
  - cbn [tail set_len]. unfold l2, l1. rewrite final_app in *. simpl in Ht.
    destruct zs as [|[c u] zs]; simpl in *; [done|]. destruct (final None ys); done.
  - cbn [len set_len]. rewrite El, Hl. unfold u64. rewrite !length_app in *. simpl in *.
    rewrite wrapu_id by (unfold in_u; lia). lia.
Qed.

(** ** Rotation *)

Lemma listRotate_spec m l xs :
  repr m l xs →
  ∃ m' l' ys, listRotate m l = Some (m', l') ∧ repr m' l' ys ∧ outcomes m' = outcomes m ∧
    freed m' = freed m ∧ dup l' = dup l ∧ free l' = free l ∧ match_ l' = match_ l ∧
    (∀ zs a, xs = zs ++ [a] → ys = a :: zs) ∧ (xs = [] → ys = []) ∧
    frame xs.*1 (nodes m) (nodes m').
Proof.
  intros Hr. pose proof Hr as [Hs Hnd Hh Ht Hl]. unfold listRotate.
  destruct (Z.leb_spec (len l) 1) as [Hle|Hgt].
  { exists m, l, xs. split_and!; try done.
    intros [|z zs] a ->; [done|]. rewrite Hl, length_app in Hle. simpl in Hle. lia. }
  destruct (seg_last xs) as [->|(ys & t & v & ->)]; [simpl in Hl; lia|].
  destruct ys as [|[b w] ys]; [simpl in Hl; lia|]. cbn [app] in *.
  destruct (seg_last ((b, w) :: ys)) as [|(ys' & c & u & Ec)]; [done|].
  change ((b, w) :: ys ++ [(t, v)]) with (((b, w) :: ys) ++ [(t, v)]) in *.
  destruct (nodup_mid _ _ _ _ Hnd) as (Hy & _ & Hnd'). rewrite app_nil_r in Hnd'.
  apply seg_snoc in Hs as [Sy Hat]. rewrite final_app in Ht. cbn [final] in Ht. rewrite Ht.
  unfold load. cbn [mbind option_bind]. rewrite Hat. cbn [mbind option_bind prev].
  cbn [tail set_ends head]. rewrite Hh. cbn [first app].
  set (F := final None ((b, w) :: ys)) in *.
  assert (F = Some c) as EF by (unfold F; rewrite Ec, final_app; done).
  pose proof (set_next_upd m F None ltac:(by eapply seg_in_heap)) as E1. rewrite EF in E1 at 1.
  rewrite E1. cbn [mbind option_bind]. rewrite EF in E1.
  set (h1 := upd_next (nodes m) F None) in *.
  assert (seg h1 None ((b, w) :: ys) None) as S1 by (by eapply upd_next_seg).
  assert (h1 !! t = Some (mk_node F None v)) as T1.
  { unfold h1. rewrite upd_next_lookup; [done|]. rewrite EF. intros [= ->]. destruct Hy.
    rewrite Ec, fmap_app. set_solver. }
  pose proof (set_prev_upd (set_nodes m h1) (Some b) (Some t)) as E2. cbn [nodes set_nodes] in E2.
  rewrite E2 by (simpl in S1; destruct S1 as [Hb1 _]; simpl; eauto). clear E2. cbn [mbind option_bind].
  set (h2 := upd_prev h1 (Some b) (Some t)).
  assert (seg h2 (Some t) ((b, w) :: ys) None) as S2.
  { apply (upd_prev_seg h1 None (Some t) ((b, w) :: ys) None Hnd' S1). }
  assert (h2 !! t = Some (mk_node F None v)) as T2.
  { unfold h2. rewrite upd_prev_lookup; [done|]. intros [= ->]. destruct Hy. set_solver. }
  unfold set_prev, set_next, load, store. cbn [mbind option_bind nodes set_nodes].
  rewrite T2. cbn [mbind option_bind nodes set_nodes next value].
  rewrite lookup_insert_eq. cbn [mbind option_bind nodes set_nodes prev value].
  rewrite insert_insert_eq.
  eexists _, _, ((t, v) :: (b, w) :: ys). split; [done|]. split_and!; try done.
  - split; cbn [nodes set_nodes head tail set_ends len].
    + cbn [seg first]. split; [by rewrite lookup_insert_eq|].
      pose proof (seg_frame h2 ((b, w) :: ys) t (mk_node None (Some b) v) (Some t) None Hy S2) as S3.
      exact S3.
    + change (NoDup (t :: ((b, w) :: ys).*1)). by constructor.
    + done.
    + rewrite EF. change ((t, v) :: (b, w) :: ys) with ([(t, v)] ++ ((b, w) :: ys)).
      rewrite Ec, !final_app. done.
    + rewrite Hl, length_app. simpl. lia.
  - intros zs a E. apply (app_inj_tail ((b, w) :: ys)) in E as [<- <-]. done.
  - intros q Hq Hx. cbn [nodes set_nodes].
    change (q ∉ (((b, w) :: ys) ++ [(t, v)]).*1) in Hx. rewrite fmap_app in Hx.
    rewrite lookup_insert_ne by set_solver. unfold h2, h1.
    rewrite upd_prev_lookup by (intros [= ->]; set_solver).
    rewrite upd_next_lookup; [done|]. intros E%final_elem. set_solver.
Qed.

(** ** Traversal *)

Lemma index_fwd fuel m zs : ∀ p i,
  seg (nodes m) p zs None → 0 ≤ i → (length zs < fuel)%nat →
  index_loop fuel m false i (first zs None) = Some (zs.*1 !! Z.to_nat i).
Proof.
  revert zs. induction fuel as [|fuel IH]; intros zs p i Hs Hi Hf; [lia|]. cbn [index_loop].
  destruct (Z.eqb_spec i 0) as [->|Hne]; [by destruct zs as [|[? ?] ?]|].
  destruct zs as [|[a v] zs]; [done|]. cbn [first seg length] in *.
  destruct Hs as [Ha Hs]. unfold load. cbn [mbind option_bind]. rewrite Ha. cbn [mbind option_bind next].
  rewrite (IH zs (Some a)) by (done || lia). f_equal.
  replace (Z.to_nat i) with (S (Z.to_nat (i - 1))) by lia. done.
Qed.

Lemma index_bwd fuel m ys : ∀ n i,
  seg (nodes m) None ys n → 0 ≤ i → (length ys < fuel)%nat →
  index_loop fuel m true i (final None ys) = Some (reverse ys.*1 !! Z.to_nat i).
Proof.
  revert ys. induction fuel as [|fuel IH]; intros ys n i Hs Hi Hf; [lia|]. cbn [index_loop].
  destruct (seg_last ys) as [->|(xs & a & v & ->)].
  { destruct (Z.eqb_spec i 0); done. }
  rewrite fmap_app, reverse_app, final_app. cbn [final fmap list_fmap fst reverse app].
  apply seg_snoc in Hs as [Hs Ha]. rewrite length_app in Hf. simpl in Hf.
  destruct (Z.eqb_spec i 0) as [->|Hne]; [done|].
  unfold load. cbn [mbind option_bind]. rewrite Ha. cbn [mbind option_bind prev].
  rewrite (IH xs (Some a)) by (done || lia). f_equal.
  replace (Z.to_nat i) with (S (Z.to_nat (i - 1))) by lia. done.
Qed.

Lemma listIndex_spec m l xs i :
  repr m l xs →
  listIndex m l i =
    Some (if i <? 0 then reverse xs.*1 !! Z.to_nat (- i - 1) else xs.*1 !! Z.to_nat i).
Proof.
  intros [Hs _ Hh Ht Hl]. unfold listIndex. rewrite Hl, Hh, Ht.
  destruct (Z.ltb_spec i 0).
  - apply (index_bwd _ m xs None); [done|lia|lia].
  - apply (index_fwd _ m xs None); [done|lia|lia].
Qed.

(** The first node of [xs] whose value satisfies [f]. *)
Fixpoint find_value (f : V → bool) (xs : list (loc * V)) : option loc :=
  match xs with [] => None | (a, v) :: xs => if f v then Some a else find_value f xs end.

Definition matches (l : dlist) (key v : V) : bool :=
  match match_ l with Some f => f v key | None => bool_decide (key = v) end.

Lemma node_search_spec fuel m l key zs : ∀ p,
  seg (nodes m) p zs None → (length zs < fuel)%nat →
  search_loop fuel m l key (mk_iter (first zs None) AL_START_HEAD)
  = Some (find_value (matches l key) zs).
Proof.
  revert zs. induction fuel as [|fuel IH]; intros zs p Hs Hf; [lia|]. cbn [search_loop].
  destruct zs as [|[a v] zs]; [done|]. cbn [first seg length] in *. destruct Hs as [Ha Hs].
  unfold listNext, load. cbn [it_next it_direction mbind option_bind]. rewrite Ha.
  cbn [mbind option_bind next]. rewrite Ha. cbn [mbind option_bind value find_value].
  fold (matches l key v). destruct (matches l key v); [done|]. apply (IH zs (Some a)); [done|lia].
Qed.

(** A client's loop over a list that deletes the nodes whose value
    satisfies [p]: [while ((node = listNext(iter))) if (p) listDelNode]. *)
Fixpoint sweep (fuel : nat) (p : V → bool) (m : mem) (l : dlist) (it : listIter)
  : option (mem * dlist * list V) :=
  match fuel with
  | O => None
  | S fuel =>
      '(node, it) ← listNext m it;
      match node with
      | None => Some (m, l, [])
      | Some _ =>
          n ← load m node;
          '(m, l) ← (if p (value n) then listDelNode m l node else Some (m, l));
          '(m, l, seen) ← sweep fuel p m l it;
          Some (m, l, value n :: seen)
      end
  end.

Definition keep (p : V → bool) (xs : list (loc * V)) : list (loc * V) :=
  filter (λ x, p x.2 = false) xs.

Lemma sweep_fwd fuel p : ∀ zs ys m l,
  repr m l (ys ++ zs) → zlen (ys ++ zs) < 2 ^ 64 → (length zs < fuel)%nat →
  ∃ m' l', sweep fuel p m l (mk_iter (first zs None) AL_START_HEAD) = Some (m', l', zs.*2) ∧
    repr m' l' (ys ++ keep p zs).
Proof.
  induction fuel as [|fuel IH]; intros zs ys m l Hr Hlen Hf; [lia|]. cbn [sweep].
  destruct zs as [|[a v] zs]; [by exists m, l|]. cbn [first length] in *.
  pose proof (seg_mid _ _ _ _ _ _ _ (r_seg _ _ _ Hr)) as Ha.
  unfold listNext, load. cbn [it_next it_direction mbind option_bind]. rewrite Ha.
  cbn [mbind option_bind next]. rewrite Ha. cbn [mbind option_bind value].
  unfold keep. rewrite filter_cons. cbn [snd]. destruct (p v) eqn:Hp.
  - destruct (listDelNode_spec m l ys a v zs Hr Hlen) as (m1 & l1 & -> & Hr1 & _).
    cbn [mbind option_bind]. destruct (IH zs ys m1 l1 Hr1) as (m2 & l2 & -> & Hr2); [|lia|].
    { rewrite !length_app in *. simpl in Hlen. lia. }
    cbn [mbind option_bind]. exists m2, l2. done.
  - cbn [mbind option_bind].
    destruct (IH zs (ys ++ [(a, v)]) m l) as (m2 & l2 & -> & Hr2);
      [by rewrite <- app_assoc|by rewrite <- app_assoc|lia|].
    cbn [mbind option_bind]. exists m2, l2. by rewrite <- app_assoc in Hr2.
Qed.

Lemma sweep_bwd fuel p : ∀ ys zs m l,
  repr m l (ys ++ zs) → zlen (ys ++ zs) < 2 ^ 64 → (length ys < fuel)%nat →
  ∃ m' l', sweep fuel p m l (mk_iter (final None ys) AL_START_TAIL)
      = Some (m', l', reverse ys.*2) ∧ repr m' l' (keep p ys ++ zs).
Proof.
  induction fuel as [|fuel IH]; intros ys zs m l Hr Hlen Hf; [lia|]. cbn [sweep].
  destruct (seg_last ys) as [->|(xs & a & v & ->)]; [by exists m, l|].
  rewrite final_app, fmap_app, reverse_app. cbn [final fmap list_fmap snd reverse app].
  rewrite <- app_assoc in *. cbn [app] in *. rewrite length_app in Hf. simpl in Hf.
  pose proof (seg_mid _ _ _ _ _ _ _ (r_seg _ _ _ Hr)) as Ha.
  unfold listNext, load. cbn [it_next it_direction mbind option_bind]. rewrite Ha.
  cbn [mbind option_bind prev]. rewrite Ha. cbn [mbind option_bind value].
  unfold keep. rewrite filter_app, filter_cons, filter_nil. cbn [snd]. destruct (p v) eqn:Hp.
  - destruct (listDelNode_spec m l xs a v zs Hr Hlen) as (m1 & l1 & -> & Hr1 & _).
    cbn [mbind option_bind]. destruct (IH xs zs m1 l1 Hr1) as (m2 & l2 & -> & Hr2); [|lia|].
    { rewrite !length_app in *. simpl in Hlen. lia. }
    cbn [mbind option_bind]. exists m2, l2. by rewrite app_nil_r.
  - cbn [mbind option_bind].
    destruct (IH xs ((a, v) :: zs) m l Hr Hlen) as (m2 & l2 & -> & Hr2); [lia|].
    cbn [mbind option_bind]. exists m2, l2. by rewrite <- app_assoc.
Qed.

(** ** Release and copy *)

(** The heap [h] has the nodes [h0] and, besides them, exactly [cs]. *)
Definition extends (h0 h : gmap loc listNode) (cs : list loc) : Prop :=
  (∀ a, a ∉ cs → h !! a = h0 !! a) ∧ (∀ a, a ∈ cs → h0 !! a = None).

Lemma release_loop_spec l zs : ∀ m p h0 n,
  seg (nodes m) p zs None → NoDup zs.*1 → extends h0 (nodes m) zs.*1 → n = length zs →
  ∃ m', release_loop n m l (first zs None) = Some m' ∧ nodes m' = h0 ∧
    outcomes m' = outcomes m ∧
    freed m' = match free l with Some _ => reverse zs.*2 ++ freed m | None => freed m end.
Proof.
  induction zs as [|[a v] zs IH]; intros m p h0 n Hs Hnd [E1 E2] ->.
  { exists m. split_and!; try done; [|by destruct (free l)]. apply map_eq. intros a. apply E1. set_solver. }
  cbn [first seg length release_loop fmap list_fmap fst] in *. destruct Hs as [Ha Hs].
  apply NoDup_cons in Hnd as [Hni Hnd]. unfold load. cbn [mbind option_bind]. rewrite Ha.
  cbn [mbind option_bind next value]. set (m1 := call_free m l v).
  assert (nodes m1 = nodes m ∧ outcomes m1 = outcomes m) as [En Eo].
  { unfold m1, call_free. by destruct (free l). }
  unfold zfree. cbn [mbind option_bind]. rewrite En, Ha. cbn [mbind option_bind].
  destruct (IH (set_nodes m1 (delete a (nodes m))) (Some a) h0 (length zs))
    as (m2 & E & H1 & H2 & H3); [|done| |done|].
  - by apply seg_delete.
  - split; [|set_solver]. intros b Hb. cbn [nodes set_nodes].
    destruct (decide (b = a)) as [->|Hne]; [rewrite lookup_delete_eq; symmetry; apply E2; set_solver|].
    rewrite lookup_delete_ne by done. apply E1. set_solver.
  - exists m2. split_and!; [done|done|by rewrite H2|]. rewrite H3. cbn [freed set_nodes].
    unfold m1, call_free. destruct (free l); [|done].
    rewrite reverse_cons, <- app_assoc. done.
Qed.

Lemma listRelease_spec m l xs h0 :
  repr m l xs → extends h0 (nodes m) xs.*1 →
  ∃ m', listRelease m l = Some m' ∧ nodes m' = h0 ∧ outcomes m' = outcomes m ∧
    freed m' = match free l with Some _ => reverse xs.*2 ++ freed m | None => freed m end.
Proof.
  intros [Hs Hnd Hh _ Hl] He. unfold listRelease. rewrite Hh.
  apply (release_loop_spec l xs m None h0); try done. rewrite Hl. lia.
Qed.

(** The copies of the values, if every [dup] succeeds. *)
Definition dup_value (l : dlist) (v : V) : option V :=
  match dup l with Some f => f v | None => Some v end.

Lemma extends_inserted h0 h h' cs a :
  extends h0 h cs → h !! a = None → frame cs h h' →
  (∀ b, b ≠ a → h !! b = None → h' !! b = None) → extends h0 h' (cs ++ [a]).
Proof.
  intros [E1 E2] Ha Hf Hn. split.
  - intros b Hb. rewrite <- E1 by set_solver. destruct (h !! b) as [nb|] eqn:Hb'.
    + rewrite Hf; [done|by eexists|set_solver].
    + apply Hn; [set_solver|done].
  - intros b [Hb|Hb]%elem_of_app; [by apply E2|]. apply list_elem_of_singleton in Hb as ->.
    destruct (decide (a ∈ cs)) as [Hin|Hni]; [by apply E2|]. by rewrite <- E1.
Qed.

(** The copy loop: the copy holds the copied values of what was passed, the
    original is untouched; on failure everything allocated is freed. *)
Lemma dup_loop_spec fuel h0 : ∀ zs p m copy cs,
  seg h0 p zs None → repr m copy cs → extends h0 (nodes m) cs.*1 →
  (length zs < fuel)%nat → zlen cs + zlen zs + 1 < 2 ^ 64 →
  ∃ m' r, dup_loop fuel m copy (mk_iter (first zs None) AL_START_HEAD) = Some (m', r) ∧
    match r with
    | None => nodes m' = h0
    | Some c => ∃ cs', repr m' c cs' ∧ extends h0 (nodes m') cs'.*1 ∧
        mapM (dup_value copy) zs.*2 = Some (drop (length cs) cs'.*2) ∧
        take (length cs) cs'.*2 = cs.*2 ∧
        dup c = dup copy ∧ free c = free copy ∧ match_ c = match_ copy
    end.
Proof.
  induction fuel as [|fuel IH]; intros zs p m copy cs Hs Hc He Hf Hlen; [lia|]. cbn [dup_loop].
  destruct zs as [|[a v] zs].
  { exists m, (Some copy). split; [done|]. exists cs. split_and!; try done.
    - rewrite drop_ge by (by rewrite length_fmap). done.
    - by rewrite take_ge by (by rewrite length_fmap). }
  cbn [first seg length] in *. destruct Hs as [Ha Hs]. pose proof He as [E1 E2].
  assert (nodes m !! a = Some (mk_node p (first zs None) v)) as Ha'.
  { rewrite E1; [done|]. intros Hin%E2. congruence. }
  unfold listNext, load. cbn [it_next it_direction mbind option_bind]. rewrite Ha'.
  cbn [mbind option_bind next]. rewrite Ha'. cbn [mbind option_bind value].
  fold (dup_value copy v). cbn [fmap list_fmap snd mapM].
  destruct (dup_value copy v) as [v'|] eqn:Hv; cycle 1.
  { destruct (listRelease_spec m copy cs h0 Hc He) as (m1 & -> & Hn & _). by exists m1, None. }
  destruct (listAddNodeTail_spec m copy cs v' Hc ltac:(lia)) as ([[m1 c1] ok] & -> & Hins).
  cbn [mbind option_bind]. unfold inserted in Hins.
  destruct Hins as (_ & _ & _ & Hd & Hfr & Hm & Hframe & Hres). rewrite app_nil_r in Hframe.
  destruct ok; cbn [negb]; cycle 1.
  { destruct Hres as [Hn ->].
    assert (repr m1 copy cs) as Hc1.
    { destruct Hc. split; try done. by rewrite Hn. }
    destruct (listRelease_spec m1 copy cs h0 Hc1) as (m2 & -> & Hn2 & _); [by rewrite Hn|].
    by exists m2, None. }
  destruct Hres as (b & Hb & Hr1 & Hnone).
  destruct (IH zs (Some a) m1 c1 (cs ++ [(b, v')]) Hs Hr1) as (m2 & r & -> & Hpost).
  { rewrite fmap_app. by apply (extends_inserted h0 (nodes m)). }
  { lia. }
  { rewrite length_app. simpl. lia. }
  exists m2, r. split; [done|]. destruct r as [c|]; [|done].
  destruct Hpost as (cs' & Hr2 & He2 & Hmap & Htk & Hd2 & Hf2 & Hm2). exists cs'.
  assert (dup_value c1 = dup_value copy) as Edup by (unfold dup_value; by rewrite Hd).
  rewrite Edup in Hmap. rewrite length_app, fmap_app in *. simpl in Hmap, Htk.
  rewrite Nat.add_1_r in *.
  assert (cs'.*2 = (cs.*2 ++ [v']) ++ drop (S (length cs)) cs'.*2) as Ecs.
  { rewrite <- Htk at 1. by rewrite take_drop. }
  assert (drop (length cs) cs'.*2 = v' :: drop (S (length cs)) cs'.*2) as Edrop.
  { rewrite Ecs at 1. rewrite <- app_assoc. by rewrite drop_app_length' by (by rewrite length_fmap). }
  split_and!; [done|done| | |congruence..].
  - rewrite Edrop. cbn [mbind option_bind mret option_ret] in *. rewrite Hmap. done.
  - rewrite Ecs, <- app_assoc. by rewrite take_app_length' by (by rewrite length_fmap).
Qed.

(** ** Properties *)

(** [listDup] returns a list of the copied values in the same order with
    the same methods, in new nodes, without touching any existing node; when
    an allocation or the client's [dup] fails it returns [NULL] and frees all
    it had allocated. *)
Theorem listDup_correct m l xs :
  repr m l xs → zlen xs + 1 < 2 ^ 64 →
  ∃ m' r, listDup m l = Some (m', r) ∧
    match r with
    | None => nodes m' = nodes m
    | Some c => ∃ cs, repr m' c cs ∧ mapM (dup_value l) xs.*2 = Some cs.*2 ∧
        dup c = dup l ∧ free c = free l ∧ match_ c = match_ l ∧
        extends (nodes m) (nodes m') cs.*1
    end.
Proof.
  intros [Hs Hnd Hh Ht Hl] Hlen. unfold listDup, listCreate.
  destruct (alloc (outcomes m)) as [[] o]; [|by eexists _, None].
  unfold listRewind. rewrite Hh, Hl.
  destruct (dup_loop_spec (S (Z.to_nat (zlen xs))) (nodes m) xs None
    (mk_mem (nodes m) o (freed m)) (mk_list None None (dup l) (free l) (match_ l) 0) [])
    as (m' & r & E & Hpost);
    [done|split; try done; constructor|by split; [|set_solver]|lia|simpl; lia|].
  exists m', r. split; [exact E|]. destruct r as [c|]; [|done].
  destruct Hpost as (cs & ? & ? & Hm & _ & ? & ? & ?). exists cs. split_and!; try done.
Qed.

(** Iterating from the head or from the tail visits every value once, in
    order or in reverse order, and the node just returned may be deleted
    during the iteration: what remains is the list of the nodes that were not
    deleted. *)
Theorem list_iteration m l xs p :
  repr m l xs → zlen xs < 2 ^ 64 →
  (∃ m' l', sweep (S (length xs)) p m l (listGetIterator l AL_START_HEAD) = Some (m', l', xs.*2) ∧
     repr m' l' (keep p xs)) ∧
  (∃ m' l', sweep (S (length xs)) p m l (listGetIterator l AL_START_TAIL)
       = Some (m', l', reverse xs.*2) ∧ repr m' l' (keep p xs)).
Proof.
  intros Hr Hlen. unfold listGetIterator. rewrite (r_head _ _ _ Hr), (r_tail _ _ _ Hr). split.
  - apply (sweep_fwd _ p xs []); [done|done|lia].
  - destruct (sweep_bwd (S (length xs)) p xs [] m l) as (m' & l' & E & Hr');
      [by rewrite app_nil_r|by rewrite app_nil_r|lia|].
    exists m', l'. by rewrite app_nil_r in Hr'.
Qed.

(** [listSearchKey] returns the first node that matches the key (by the
    [match] method or by pointer equality) or [NULL], and [listIndex] the node
    at an index counted from the head, or from the tail when negative, or
    [NULL] outside the list. *)
Theorem list_lookup_nodes m l xs key i :
  repr m l xs →
  listSearchKey m l key = Some (find_value (matches l key) xs) ∧
  listIndex m l i =
    Some (if i <? 0 then reverse xs.*1 !! Z.to_nat (- i - 1) else xs.*1 !! Z.to_nat i).
Proof.
  intros Hr. split; [|by apply listIndex_spec]. unfold listSearchKey, listRewind.
  rewrite (r_head _ _ _ Hr), (r_len _ _ _ Hr).
  apply (node_search_spec _ m l key xs None); [apply (r_seg _ _ _ Hr)|lia].
Qed.

(** ** Histories of updates

    A client's calls in order; a node argument is obtained with
    [listIndex]. *)
Inductive lop :=
  | LAddHead (v : V) | LAddTail (v : V) | LInsert (i : Z) (v : V) (after : bool)
  | LDel (i : Z) | LRotate.

Definition lop_exec (m : mem) (l : dlist) (o : lop) : option (mem * dlist * bool) :=
  match o with
  | LAddHead v => listAddNodeHead m l v
  | LAddTail v => listAddNodeTail m l v
  | LInsert i v after =>
      n ← listIndex m l i;
      match n with
      | None => Some (m, l, false)
      | Some _ => listInsertNode m l n v after
      end
  | LDel i =>
      n ← listIndex m l i;
      match n with
      | None => Some (m, l, false)
      | Some _ => '(m, l) ← listDelNode m l n; Some (m, l, true)
      end
  | LRotate => '(m, l) ← listRotate m l; Some (m, l, true)
  end.

Fixpoint lop_run (m : mem) (l : dlist) (os : list lop) : option (mem * dlist * list bool) :=
  match os with
  | [] => Some (m, l, [])
  | o :: os =>
      '(m, l, b) ← lop_exec m l o;
      '(m, l, bs) ← lop_run m l os;
      Some (m, l, b :: bs)
  end.

(** The same on a mathematical list, with the allocation outcomes. *)
Definition position (n : nat) (i : Z) : option nat :=
  let i := if i <? 0 then Z.of_nat n + i else i in
  if decide (0 ≤ i < Z.of_nat n) then Some (Z.to_nat i) else None.

Definition seq_insert (o : oracle) (xs ys : list V) : oracle * list V * bool :=
  let '(ok, o) := alloc o in (o, if ok then ys else xs, ok).

Definition seq_exec (o : oracle) (xs : list V) (op : lop) : oracle * list V * bool :=
  match op with
  | LAddHead v => seq_insert o xs (v :: xs)
  | LAddTail v => seq_insert o xs (xs ++ [v])
  | LInsert i v after =>
      match position (length xs) i with
      | None => (o, xs, false)
      | Some k => let k := if after then S k else k in
                  seq_insert o xs (take k xs ++ v :: drop k xs)
      end
  | LDel i =>
      match position (length xs) i with
      | None => (o, xs, false)
      | Some k => (o, take k xs ++ drop (S k) xs, true)
      end
  | LRotate => (o, match last xs with
                   | Some v => v :: take (length xs - 1) xs | None => [] end, true)
  end.

Fixpoint seq_run (o : oracle) (xs : list V) (os : list lop) : list V * list bool :=
  match os with
  | [] => (xs, [])
  | op :: os =>
      let '(o, xs, b) := seq_exec o xs op in
      let '(xs, bs) := seq_run o xs os in (xs, b :: bs)
  end.

Lemma index_position m l xs i :
  repr m l xs → listIndex m l i = Some (k ← position (length xs) i; xs.*1 !! k).
Proof.
  intros Hr. rewrite (listIndex_spec m l xs i Hr). f_equal. unfold position.
  pose proof (length_fmap fst xs) as El.
  destruct (Z.ltb_spec i 0); case_decide as Hd; cbn [mbind option_bind].
  - rewrite reverse_lookup by lia. f_equal. lia.
  - apply lookup_ge_None_2. rewrite length_reverse. lia.
  - done.
  - apply lookup_ge_None_2. lia.
Qed.

Lemma position_split (xs : list (loc * V)) i k :
  position (length xs) i = Some k →
  ∃ ys a v zs, xs = ys ++ (a, v) :: zs ∧ length ys = k ∧ xs.*1 !! k = Some a.
Proof.
  unfold position. case_decide as Hd; [|done]. intros [= <-].
  set (j := if i <? 0 then Z.of_nat (length xs) + i else i) in *.
  destruct (lookup_lt_is_Some_2 xs (Z.to_nat j)) as [[a v] Ha]; [lia|].
  exists (take (Z.to_nat j) xs), a, v, (drop (S (Z.to_nat j)) xs). split_and!.
  - by rewrite take_drop_middle.
  - rewrite length_take. lia.
  - by rewrite list_lookup_fmap, Ha.
Qed.

(** The insertions, on the values. *)
Lemma inserted_values m l ys zs v r :
  repr m l (ys ++ zs) → inserted m l ys zs v r →
  ∃ xs', repr r.1.1 r.1.2 xs' ∧
    (outcomes r.1.1, xs'.*2, r.2) =
      seq_insert (outcomes m) (ys ++ zs).*2 (ys.*2 ++ v :: zs.*2).
Proof.
  destruct r as [[m' l'] ok]. intros Hr (Hok & Ho & _ & _ & _ & _ & _ & Hres). unfold seq_insert. cbn [fst snd].
  destruct (alloc (outcomes m)) as [b o]. simpl in *. subst. destruct b.
  - destruct Hres as (a & _ & Hr' & _). exists (ys ++ (a, v) :: zs). split; [done|].
    by rewrite fmap_app.
  - destruct Hres as [Hn ->]. exists (ys ++ zs). split; [|done].
    destruct Hr. split; try done. by rewrite Hn.
Qed.

Lemma take_mid (ys zs : list (loc * V)) x : take (length ys) (ys ++ x :: zs).*2 = ys.*2.
Proof. rewrite fmap_app. apply take_app_length'. by rewrite length_fmap. Qed.

Lemma drop_mid (ys zs : list (loc * V)) x :
  drop (length ys) (ys ++ x :: zs).*2 = x.2 :: zs.*2.
Proof. rewrite fmap_app. by rewrite drop_app_length' by (by rewrite length_fmap). Qed.

Lemma take_mid_S (ys zs : list (loc * V)) x :
  take (S (length ys)) (ys ++ x :: zs).*2 = ys.*2 ++ [x.2].
Proof.
  replace (ys ++ x :: zs) with ((ys ++ [x]) ++ zs) by (by rewrite <- app_assoc).
  rewrite fmap_app, take_app_length', fmap_app; [done|]. rewrite length_fmap, length_app. simpl. lia.
Qed.

Lemma drop_mid_S (ys zs : list (loc * V)) x : drop (S (length ys)) (ys ++ x :: zs).*2 = zs.*2.
Proof.
  replace (ys ++ x :: zs) with ((ys ++ [x]) ++ zs) by (by rewrite <- app_assoc).
  rewrite fmap_app, drop_app_length'; [done|]. rewrite length_fmap, length_app. simpl. lia.
Qed.

Lemma lop_exec_spec m l xs op :
  repr m l xs → zlen xs + 1 < 2 ^ 64 →
  ∃ m' l' b xs', lop_exec m l op = Some (m', l', b) ∧ repr m' l' xs' ∧
    (outcomes m', xs'.*2, b) = seq_exec (outcomes m) xs.*2 op.
Proof.
  intros Hr Hlen. destruct op as [v|v|i v after|i|]; cbn [lop_exec seq_exec].
  - destruct (listAddNodeHead_spec m l xs v Hr Hlen) as (r & -> & Hi).
    destruct (inserted_values m l [] xs v r Hr Hi) as (xs' & Hr' & E).
    destruct r as [[m' l'] b]. by exists m', l', b, xs'.
  - destruct (listAddNodeTail_spec m l xs v Hr Hlen) as (r & -> & Hi).
    destruct (inserted_values m l xs [] v r) as (xs' & Hr' & E); [by rewrite app_nil_r|done|].
    destruct r as [[m' l'] b]. exists m', l', b, xs'. by rewrite app_nil_r in E.
  - rewrite (index_position m l xs i Hr), length_fmap. cbn [mbind option_bind].
    destruct (position (length xs) i) as [k|] eqn:Hk; [|by exists m, l, false, xs].
    apply position_split in Hk as (ys & a & w & zs & -> & <- & Ha). cbn [mbind option_bind].
    rewrite Ha. destruct (listInsertNode_spec m l ys a w zs v after Hr Hlen) as (r & -> & Hi).
    destruct after.
    + destruct (inserted_values m l (ys ++ [(a, w)]) zs v r) as (xs' & Hr' & E);
        [by rewrite <- app_assoc|done|].
      destruct r as [[m' l'] b]. exists m', l', b, xs'. split_and!; [done|done|].
      rewrite take_mid_S, drop_mid_S. rewrite <- app_assoc in E. cbn [fst snd] in *. rewrite E.
      by rewrite (fmap_app snd ys [_]).
    + destruct (inserted_values m l ys ((a, w) :: zs) v r Hr Hi) as (xs' & Hr' & E).
      destruct r as [[m' l'] b]. exists m', l', b, xs'. split_and!; [done|done|].
      rewrite take_mid, drop_mid. exact E.
  - rewrite (index_position m l xs i Hr), length_fmap. cbn [mbind option_bind].
    destruct (position (length xs) i) as [k|] eqn:Hk; [|by exists m, l, false, xs].
    apply position_split in Hk as (ys & a & w & zs & -> & <- & Ha). cbn [mbind option_bind].
    rewrite Ha.
    destruct (listDelNode_spec m l ys a w zs Hr ltac:(lia)) as (m' & l' & -> & Hr' & _ & _ & _ & Ho & _).
    cbn [mbind option_bind]. exists m', l', true, (ys ++ zs). split_and!; [done|done|].
    rewrite take_mid, drop_mid_S, Ho, fmap_app. done.
  - destruct (listRotate_spec m l xs Hr) as (m' & l' & ys & -> & Hr' & Ho & _ & _ & _ & _ & H1 & H2 & _).
    cbn [mbind option_bind]. exists m', l', true, ys. split_and!; [done|done|]. rewrite Ho.
    destruct (seg_last xs) as [->|(zs & a & v & ->)]; [by rewrite H2|].
    rewrite (H1 zs (a, v)) by done. rewrite fmap_app. change ([(a, v)].*2) with [v].
    rewrite last_snoc, length_app. cbn [length]. rewrite Nat.add_sub.
    by rewrite take_app_length.
Qed.

Lemma seq_exec_length o (xs : list V) op :
  (length (seq_exec o xs op).1.2 ≤ S (length xs))%nat.
Proof.
  unfold seq_exec, seq_insert. destruct op; repeat case_match; cbn [fst snd length];
    rewrite ?length_app; cbn [length]; rewrite ?length_take, ?length_drop; lia.
Qed.

Lemma lop_run_spec os : ∀ m l xs,
  repr m l xs → zlen xs + zlen os < 2 ^ 63 →
  ∃ m' l' xs', lop_run m l os = Some (m', l', (seq_run (outcomes m) xs.*2 os).2) ∧
    repr m' l' xs' ∧ xs'.*2 = (seq_run (outcomes m) xs.*2 os).1.
Proof.
  induction os as [|op os IH]; intros m l xs Hr Hlen; [by exists m, l, xs|].
  cbn [length] in Hlen. cbn [lop_run seq_run]. pow2.
  destruct (lop_exec_spec m l xs op Hr) as (m1 & l1 & b & xs1 & -> & Hr1 & E); [pow2; lia|].
  cbn [mbind option_bind].
  assert (zlen xs1 ≤ zlen xs + 1) as Hl1.
  { pose proof (seq_exec_length (outcomes m) xs.*2 op) as Hle. rewrite <- E in Hle. cbn [fst snd] in Hle.
    rewrite !length_fmap in Hle. lia. }
  destruct (IH m1 l1 xs1 Hr1 ltac:(pow2; lia)) as (m2 & l2 & xs2 & -> & Hr2 & E2).
  cbn [mbind option_bind]. exists m2, l2, xs2. rewrite <- E.
  destruct (seq_run (outcomes m1) xs1.*2 os) as [ys bs]. done.
Qed.

(** Any history of insertions at the head, at the tail, before and after a
    node, deletions and rotations, with any allocation outcomes, starting
    from a new list, follows every pointer safely and refines the same
    history on a mathematical list: the results agree, and the final heap
    holds a well-formed doubly linked list of the final values, whose length
    field is exact. *)
Theorem list_history_refines m l os :
  (listCreate m).2 = Some l → zlen os < 2 ^ 63 →
  let m0 := (listCreate m).1 in
  ∃ m' l' xs, lop_run m0 l os = Some (m', l', (seq_run (outcomes m0) [] os).2) ∧
    repr m' l' xs ∧ xs.*2 = (seq_run (outcomes m0) [] os).1.
Proof.
  intros Hl Hn m0. apply (lop_run_spec os m0 l []); [|simpl; lia].
  unfold m0, listCreate in *. destruct (alloc (outcomes m)) as [[] o]; [|done].
  simpl in Hl. simplify_eq. split; try done. constructor.
Qed.
End adlist.

Arguments listNode : clear implicits.
Arguments mem : clear implicits.
Arguments dlist : clear implicits.
Arguments lop : clear implicits.

(** ** Witnesses *)

(** Insertions of all kinds; the third allocation of a node fails. *)
Definition sample_mem : mem Z := mk_mem ∅ [true; true; true; false; true; true] [].
Definition sample_lops : list (lop Z) :=
  [LAddHead 1; LAddTail 2; LAddTail 3; LInsert (-1) 4 false; LInsert 0 5 true; LRotate;
   LDel 0; LDel 7].

Lemma list_history_refines_witness :
  ∃ m' l' xs,
    lop_run (listCreate sample_mem).1 (mk_list None None None None None 0) sample_lops =
      Some (m', l', (seq_run (outcomes (listCreate sample_mem).1) [] sample_lops).2) ∧
    repr m' l' xs ∧ xs.*2 = (seq_run (outcomes (listCreate sample_mem).1) [] sample_lops).1.
Proof. by apply (list_history_refines sample_mem). Defined.

Example list_history_run :
  seq_run (outcomes (listCreate sample_mem).1) [] sample_lops =
    ([1; 5; 4], [true; true; false; true; true; true; true; false]).
Proof. by vm_compute. Qed.

(** A list of three values. *)
Definition three_mem : mem Z :=
  mk_mem {[ 1%positive := mk_node None (Some 2%positive) 10;
            2%positive := mk_node (Some 1%positive) (Some 3%positive) 20;
            3%positive := mk_node (Some 2%positive) None 30 ]} [] [].
Definition three : dlist Z :=
  mk_list (Some 1%positive) (Some 3%positive) (Some (λ v, Some (v + 1))) None None 3.
Definition three_nodes : list (loc * Z) := [(1%positive, 10); (2%positive, 20); (3%positive, 30)].

Lemma three_repr : repr three_mem three three_nodes.
Proof.
  split; [by vm_compute| |done..]. apply (bool_decide_unpack _). by vm_compute.
Qed.

Lemma listDup_correct_witness :
  ∃ m' r, listDup three_mem three = Some (m', r) ∧
    match r with
    | None => nodes m' = nodes three_mem
    | Some c => ∃ cs, repr m' c cs ∧ mapM (dup_value three) three_nodes.*2 = Some cs.*2 ∧
        dup c = dup three ∧ free c = free three ∧ match_ c = match_ three ∧
        extends (nodes three_mem) (nodes m') cs.*1
    end.
Proof. apply (listDup_correct three_mem three three_nodes three_repr). done. Defined.

Lemma list_iteration_witness :
  ∃ m' l', sweep 4 (λ v, v =? 20) three_mem three (listGetIterator three AL_START_TAIL)
      = Some (m', l', [30; 20; 10]) ∧
    repr m' l' [(1%positive, 10); (3%positive, 30)].
Proof.
  apply (list_iteration three_mem three three_nodes (λ v, v =? 20) three_repr). done.
Defined.

Lemma list_lookup_nodes_witness :
  listSearchKey three_mem three 30 = Some (find_value (matches three 30) three_nodes) ∧
  listIndex three_mem three (-2) = Some (reverse three_nodes.*1 !! 1%nat).
Proof. exact (list_lookup_nodes three_mem three three_nodes 30 (-2) three_repr). Defined.

Example list_lookup_run :
  listSearchKey three_mem three 30 = Some (Some 3%positive) ∧
  listIndex three_mem three (-2) = Some (Some 2%positive).
Proof. by vm_compute. Qed.
