(* ===== verification/Sds.v ===== *)
(** * Dynamic strings ([redis-3.2/src/sds.c] and [sds.h])

    An [sds] string is a block with a header of one of five types and the
    bytes of the string, a NUL and free space.  The model keeps the header
    fields at the width of their type and the bytes after the header; the
    type-5 header has a 5-bit length and no allocation field.  The allocator
    ([zmalloc]) never returns [NULL]: it aborts the process instead.  [None]
    is an access outside the block or a failed assertion; the bytes an
    allocation adds are the arbitrary function [junk]. *)

From S2P Require Import Prelude Decimal Util.

Definition SDS_TYPE_5 : Z := 0.
Definition SDS_TYPE_8 : Z := 1.
Definition SDS_TYPE_16 : Z := 2.
Definition SDS_TYPE_32 : Z := 3.
Definition SDS_TYPE_64 : Z := 4.
Definition SDS_MAX_PREALLOC : Z := 1024 * 1024.

Record sds := mk_sds { ty : Z; hlen : Z; halloc : Z; buf : list Z }.

(** The width of the length field of a header type. *)
Definition width (t : Z) : Z :=
  if t =? SDS_TYPE_5 then 5 else if t =? SDS_TYPE_8 then 8
  else if t =? SDS_TYPE_16 then 16 else if t =? SDS_TYPE_32 then 32 else 64.

Definition sdsHdrSize (t : Z) : Z :=
  if t =? SDS_TYPE_5 then 1 else if t =? SDS_TYPE_8 then 3
  else if t =? SDS_TYPE_16 then 5 else if t =? SDS_TYPE_32 then 9 else 17.

Definition sdsReqType (string_size : Z) : Z :=
  if string_size <? 2 ^ 5 then SDS_TYPE_5
  else if string_size <? 2 ^ 8 then SDS_TYPE_8
  else if string_size <? 2 ^ 16 then SDS_TYPE_16
  else if string_size <? 2 ^ 32 then SDS_TYPE_32
  else SDS_TYPE_64.

(** ** Header accessors ([sds.h]) *)

Definition sdslen (s : sds) : Z := hlen s.
Definition sdsalloc (s : sds) : Z := if ty s =? SDS_TYPE_5 then hlen s else halloc s.
Definition sdsavail (s : sds) : Z := if ty s =? SDS_TYPE_5 then 0 else halloc s - hlen s.
Definition sdssetlen (s : sds) (n : Z) : sds :=
  mk_sds (ty s) (wrapu (width (ty s)) n) (halloc s) (buf s).
Definition sdssetalloc (s : sds) (n : Z) : sds :=
  if ty s =? SDS_TYPE_5 then s
  else mk_sds (ty s) (hlen s) (wrapu (width (ty s)) n) (buf s).

Definition set_buf (s : sds) (b : list Z) : sds := mk_sds (ty s) (hlen s) (halloc s) b.

(** [memcpy(s+off, bs, ...)] and [s[off] = c]. *)
Definition swrite (s : sds) (off : Z) (bs : list Z) : option sds :=
  b ← mwrite (buf s) off bs; Some (set_buf s b).

(** ** Creation *)

(** [init] is [NULL] or a buffer; its first [initlen] bytes are copied. *)
Definition sdsnewlen (init : option (list Z)) (initlen : Z) : option sds :=
  let type := sdsReqType initlen in
  let type := if (type =? SDS_TYPE_5) && (initlen =? 0) then SDS_TYPE_8 else type in
  bytes ← match init with
          | None => Some (replicate (Z.to_nat initlen) 0)
          | Some m => mread m 0 initlen
          end;
  Some (mk_sds type (wrapu (width type) initlen)
    (if type =? SDS_TYPE_5 then 0 else wrapu (width type) initlen) (bytes ++ [0])).

Definition sdsempty : option sds := sdsnewlen (Some []) 0.

(** [init] is a NUL-terminated buffer. *)
Definition sdsnew (init : list Z) : option sds := sdsnewlen (Some init) (zlen (cstr init)).

Definition sdsdup (s : sds) : option sds := sdsnewlen (Some (buf s)) (sdslen s).

(** ** Space *)

Definition sdsMakeRoomFor (junk : nat → Z) (s : sds) (addlen : Z) : option sds :=
  let avail := sdsavail s in
  if avail >=? addlen then Some s else
  let len := sdslen s in
  let newlen := u64 (len + addlen) in
  let newlen := if newlen <? SDS_MAX_PREALLOC then newlen * 2
                else u64 (newlen + SDS_MAX_PREALLOC) in
  let type := sdsReqType newlen in
  let type := if type =? SDS_TYPE_5 then SDS_TYPE_8 else type in
  s ← (if ty s =? type then Some (set_buf s (zrealloc junk (buf s) (newlen + 1)))
       else
         bytes ← mread (buf s) 0 (len + 1);
         let s := mk_sds type 0 0 (zrealloc junk bytes (newlen + 1)) in
         Some (sdssetlen s len));
  Some (sdssetalloc s newlen).

Definition sdsRemoveFreeSpace (junk : nat → Z) (s : sds) : option sds :=
  let len := sdslen s in
  let type := sdsReqType len in
  s ← (if ty s =? type then Some (set_buf s (zrealloc junk (buf s) (len + 1)))
       else
         bytes ← mread (buf s) 0 (len + 1);
         let s := mk_sds type 0 0 (zrealloc junk bytes (len + 1)) in
         Some (sdssetlen s len));
  Some (sdssetalloc s len).

Definition sdsAllocSize (s : sds) : Z := sdsHdrSize (ty s) + sdsalloc s + 1.

(** ** Length updates *)

Definition sdsupdatelen (s : sds) : sds := sdssetlen s (s32 (zlen (cstr (buf s)))).

Definition sdsclear (s : sds) : option sds := swrite (sdssetlen s 0) 0 [0].

(** The assertions compare with the free space, or with the length when
    [incr] is negative; type 5 refuses [incr = 0]. *)
Definition sdsIncrLen (s : sds) (incr : Z) : option sds :=
  if ty s =? SDS_TYPE_5 then
    if ((incr >? 0) && (hlen s + incr <? 32)) || ((incr <? 0) && (hlen s >=? - incr))
    then swrite (sdssetlen s (hlen s + incr)) (hlen s + incr) [0] else None
  else
    if ((incr >=? 0) && (halloc s - hlen s >=? incr)) || ((incr <? 0) && (hlen s >=? - incr))
    then swrite (sdssetlen s (hlen s + incr)) (hlen s + incr) [0] else None.

(** ** Content updates *)

Definition sdsgrowzero (junk : nat → Z) (s : sds) (len : Z) : option sds :=
  let curlen := sdslen s in
  if len <=? curlen then Some s else
  s ← sdsMakeRoomFor junk s (len - curlen);
  s ← swrite s curlen (replicate (Z.to_nat (len - curlen + 1)) 0);
  Some (sdssetlen s len).

Definition sdscatlen (junk : nat → Z) (s : sds) (t : list Z) (len : Z) : option sds :=
  let curlen := sdslen s in
  s ← sdsMakeRoomFor junk s len;
  bytes ← mread t 0 len;
  s ← swrite s curlen bytes;
  let s := sdssetlen s (curlen + len) in
  swrite s (curlen + len) [0].

Definition sdscat (junk : nat → Z) (s : sds) (t : list Z) : option sds :=
  sdscatlen junk s t (zlen (cstr t)).
Definition sdscatsds (junk : nat → Z) (s t : sds) : option sds :=
  sdscatlen junk s (buf t) (sdslen t).

Definition sdscpylen (junk : nat → Z) (s : sds) (t : list Z) (len : Z) : option sds :=
  s ← (if sdsalloc s <? len then sdsMakeRoomFor junk s (len - sdslen s) else Some s);
  bytes ← mread t 0 len;
  s ← swrite s 0 bytes;
  s ← swrite s len [0];
  Some (sdssetlen s len).

Definition sdscpy (junk : nat → Z) (s : sds) (t : list Z) : option sds :=
  sdscpylen junk s t (zlen (cstr t)).

(** [while(sp <= end && strchr(cset, *sp)) sp++] and its mirror; [strchr]
    also finds the NUL that ends [cset]. *)
Definition in_cset (cset : list Z) (c : Z) : bool := (c =? 0) || bool_decide (c ∈ cstr cset).

Fixpoint trim_left (fuel : nat) (b cset : list Z) (sp en : Z) : option Z :=
  match fuel with
  | O => None
  | S fuel =>
      if sp <=? en then
        c ← mread b sp 1;
        if in_cset cset (le_val c) then trim_left fuel b cset (sp + 1) en else Some sp
      else Some sp
  end.

Fixpoint trim_right (fuel : nat) (b cset : list Z) (ep sp : Z) : option Z :=
  match fuel with
  | O => None
  | S fuel =>
      if ep >? sp then
        c ← mread b ep 1;
        if in_cset cset (le_val c) then trim_right fuel b cset (ep - 1) sp else Some ep
      else Some ep
  end.

Definition sdstrim (s : sds) (cset : list Z) : option sds :=
  let en := sdslen s - 1 in
  sp ← trim_left (S (S (Z.to_nat (sdslen s)))) (buf s) cset 0 en;
  ep ← trim_right (S (S (Z.to_nat (sdslen s)))) (buf s) cset en sp;
  let len := if sp >? ep then 0 else ep - sp + 1 in
  s ← (if negb (sp =? 0) then b ← memmove (buf s) 0 sp len; Some (set_buf s b) else Some s);
  s ← swrite s len [0];
  Some (sdssetlen s len).

(** [start] and [end] are [int]s, the length is cast to [int]. *)
Definition sdsrange (s : sds) (start en : Z) : option sds :=
  let len := sdslen s in
  if len =? 0 then Some s else
  let ilen := s32 len in
  let start := if start <? 0 then
      let start := s32 (ilen + start) in if start <? 0 then 0 else start else start in
  let en := if en <? 0 then
      let en := s32 (ilen + en) in if en <? 0 then 0 else en else en in
  let newlen := if start >? en then 0 else en - start + 1 in
  let '(start, newlen) :=
    if negb (newlen =? 0) then
      if start >=? ilen then (start, 0)
      else if en >=? ilen then
        let en := ilen - 1 in (start, if start >? en then 0 else en - start + 1)
      else (start, newlen)
    else (0, newlen) in
  s ← (if negb (start =? 0) && negb (newlen =? 0)
       then b ← memmove (buf s) 0 start newlen; Some (set_buf s b) else Some s);
  s ← swrite s newlen [0];
  Some (sdssetlen s newlen).

Definition toupper (c : Z) : Z := if (97 <=? c) && (c <=? 122) then c - 32 else c.

(** [for (j = 0; j < len; j++) s[j] = f(s[j])]. *)
Definition map_chars (f : Z → Z) (s : sds) : option sds :=
  bytes ← mread (buf s) 0 (sdslen s); swrite s 0 (f <$> bytes).
Definition sdstolower (s : sds) : option sds := map_chars tolower s.
Definition sdstoupper (s : sds) : option sds := map_chars toupper s.

(** The inner loop of [sdsmapchars]: the first position of [c] in [from]. *)
Fixpoint map_char (from to : list Z) (c : Z) : Z :=
  match from, to with
  | f :: from, t :: to => if c =? f then t else map_char from to c
  | _, _ => c
  end.
Definition sdsmapchars (s : sds) (from to : list Z) : option sds :=
  map_chars (map_char from to) s.

(** The sign of [memcmp]. *)
Fixpoint memcmp (a b : list Z) : Z :=
  match a, b with
  | x :: a, y :: b => if x <? y then -1 else if y <? x then 1 else memcmp a b
  | _, _ => 0
  end.

Definition sdscmp (s1 s2 : sds) : option Z :=
  let l1 := sdslen s1 in
  let l2 := sdslen s2 in
  let minlen := if l1 <? l2 then l1 else l2 in
  b1 ← mread (buf s1) 0 minlen;
  b2 ← mread (buf s2) 0 minlen;
  let cmp := memcmp b1 b2 in
  Some (if cmp =? 0 then s32 (u64 (l1 - l2)) else cmp).

(** ** Representation *)

(** [s] is a well-formed string with the content [bs]. *)
Record repr (s : sds) (bs : list Z) : Prop := {
  r_ty : 0 ≤ ty s ≤ 4;
  r_len : hlen s = zlen bs;
  r_fit : sdsalloc s < 2 ^ width (ty s);
  r_alloc : hlen s ≤ sdsalloc s;
  r_buf : ∃ slack, buf s = bs ++ 0 :: slack ∧ sdsalloc s ≤ zlen (bs ++ slack)
}.

Lemma width_range t : 5 ≤ width t ≤ 64.
Proof. unfold width. repeat case_match; lia. Qed.

(** The chosen header holds the size. *)
Lemma reqtype_spec n : 0 ≤ n < 2 ^ 64 → 0 ≤ sdsReqType n ≤ 4 ∧ n < 2 ^ width (sdsReqType n).
Proof.
  intros Hn. unfold sdsReqType.
  destruct (Z.ltb_spec n (2 ^ 5)); [split; done|].
  destruct (Z.ltb_spec n (2 ^ 8)); [split; done|].
  destruct (Z.ltb_spec n (2 ^ 16)); [split; done|].
  destruct (Z.ltb_spec n (2 ^ 32)); [split; done|].
  split; [done|]. apply Hn.
Qed.

Lemma width_mono_5_8 n : n < 2 ^ width SDS_TYPE_5 → n < 2 ^ width SDS_TYPE_8.
Proof. change (n < 2 ^ 5 → n < 2 ^ 8). pow2. lia. Qed.

(** The header of a string that is about to grow is not of type 5. *)
Definition growtype (n : Z) : Z :=
  if sdsReqType n =? SDS_TYPE_5 then SDS_TYPE_8 else sdsReqType n.

Lemma growtype_spec n :
  0 ≤ n < 2 ^ 64 → 1 ≤ growtype n ≤ 4 ∧ n < 2 ^ width (growtype n).
Proof.
  intros Hn. destruct (reqtype_spec n Hn) as [Ht Hw]. unfold growtype, SDS_TYPE_5 in *.
  destruct (Z.eqb_spec (sdsReqType n) 0) as [E|E]; [|split; [lia|done]].
  split; [done|]. apply width_mono_5_8. by rewrite E in Hw.
Qed.

Lemma alloc_type s n t :
  ty s = t → t ≠ SDS_TYPE_5 → n < 2 ^ width t → 0 ≤ n →
  sdsalloc (sdssetalloc s n) = n ∧ hlen (sdssetalloc s n) = hlen s ∧
  ty (sdssetalloc s n) = t ∧ buf (sdssetalloc s n) = buf s.
Proof.
  intros <- Ht Hn H0. unfold sdssetalloc, sdsalloc.
  destruct (Z.eqb_spec (ty s) SDS_TYPE_5); [done|]. simpl.
  destruct (Z.eqb_spec (ty s) SDS_TYPE_5); [done|].
  rewrite wrapu_id by (split; done). done.
Qed.

(** Reads and writes at the content of a represented string. *)
Lemma repr_take s bs : repr s bs → mread (buf s) 0 (zlen bs) = Some bs.
Proof.
  intros [_ _ _ _ (slack & E & _)]. rewrite E. apply (mread_app [] bs); done.
Qed.

Lemma repr_len_fit s bs : repr s bs → zlen bs < 2 ^ width (ty s) ∧ 2 ^ width (ty s) ≤ 2 ^ 64.
Proof.
  intros [Hty Hlen Hfit Hall _]. split; [lia|]. pose proof (width_range (ty s)).
  apply Z.pow_le_mono_r; lia.
Qed.

(** Setting content, NUL and length in a block with room for them. *)
Lemma repr_intro s bs b slack :
  0 ≤ ty s ≤ 4 → (ty s ≠ SDS_TYPE_5 → zlen bs ≤ halloc s < 2 ^ width (ty s)) →
  zlen bs < 2 ^ width (ty s) →
  b = bs ++ 0 :: slack → (ty s ≠ SDS_TYPE_5 → halloc s ≤ zlen (bs ++ slack)) →
  repr (sdssetlen (set_buf s b) (zlen bs)) bs.
Proof.
  intros Ht Ha Hf -> Hb. pose proof (width_range (ty s)).
  assert (wrapu (width (ty s)) (zlen bs) = zlen bs) as E by (apply wrapu_id; split; [lia|done]).
  split; unfold sdsalloc, sdssetlen; cbn [ty hlen halloc buf set_buf]; rewrite ?E; try done.
  - destruct (Z.eqb_spec (ty s) SDS_TYPE_5); [done|]. by apply Ha.
  - destruct (Z.eqb_spec (ty s) SDS_TYPE_5); [lia|]. by apply Ha.
  - exists slack. split; [done|]. destruct (Z.eqb_spec (ty s) SDS_TYPE_5).
    + rewrite length_app. lia.
    + by apply Hb.
Qed.

Lemma mwrite_tail (a b c : list Z) off :
  off = zlen a → (length c ≤ length b)%nat →
  mwrite (a ++ b) off c = Some (a ++ c ++ drop (length c) b).
Proof.
  intros -> Hl. rewrite <- (take_drop (length c) b) at 1.
  rewrite mwrite_app; [done|done|]. rewrite length_take. lia.
Qed.

(** ** Space *)

Lemma type5_dec t : t = SDS_TYPE_5 ∨ t ≠ SDS_TYPE_5.
Proof. destruct (Z.eq_dec t SDS_TYPE_5); auto. Qed.

Lemma makeroom_spec junk s bs add :
  repr s bs → 0 ≤ add → zlen bs + add < 2 ^ 62 →
  ∃ s', sdsMakeRoomFor junk s add = Some s' ∧ repr s' bs ∧
    zlen bs + add ≤ sdsalloc s' ∧ (0 < add → ty s' ≠ SDS_TYPE_5).
Proof.
  intros Hr Ha Hmax. pose proof Hr as [Hty Hlen Hfit Hall (slack & Hb & Hsl)].
  unfold sdsMakeRoomFor. rewrite Z.geb_leb.
  destruct (Z.leb_spec add (sdsavail s)) as [Hle|Hgt].
  { exists s. split_and!; [done|done|..]; unfold sdsavail, sdsalloc in *;
      destruct (Z.eqb_spec (ty s) SDS_TYPE_5); lia. }
  unfold sdslen. rewrite Hlen. pow2. unfold u64, SDS_MAX_PREALLOC.
  rewrite (wrapu_id 64 (zlen bs + add)) by (unfold in_u; pow2; lia).
  set (nl := if zlen bs + add <? 1024 * 1024 then (zlen bs + add) * 2 else _).
  assert (zlen bs + add ≤ nl < 2 ^ 64) as Hnl.
  { subst nl. destruct (Z.ltb_spec (zlen bs + add) (1024 * 1024)); [pow2; lia|].
    rewrite wrapu_id by (unfold in_u; pow2; lia). pow2. lia. }
  fold (growtype nl). destruct (growtype_spec nl) as [Ht Hw]; [lia|].
  assert (growtype nl ≠ SDS_TYPE_5) as Hne by (unfold SDS_TYPE_5; lia).
  assert (∃ s1 sl, (if ty s =? growtype nl then Some (set_buf s (zrealloc junk (buf s) (nl + 1)))
     else b ← mread (buf s) 0 (zlen bs + 1);
       Some (sdssetlen (mk_sds (growtype nl) 0 0 (zrealloc junk b (nl + 1))) (zlen bs))) = Some s1 ∧
     ty s1 = growtype nl ∧ hlen s1 = zlen bs ∧ buf s1 = bs ++ 0 :: sl ∧ nl = zlen (bs ++ sl))
    as (s1 & sl & -> & T1 & L1 & B1 & Z1).
  { destruct (Z.eqb_spec (ty s) (growtype nl)) as [E|E].
    - assert (∃ sl, zrealloc junk (buf s) (nl + 1) = (bs ++ [0]) ++ sl) as [sl E2].
      { unfold zrealloc. rewrite Hb. replace (bs ++ 0 :: slack) with ((bs ++ [0]) ++ slack) by
          (by rewrite <- app_assoc).
        rewrite take_app_ge by (rewrite length_app; simpl; lia). rewrite <- app_assoc. eauto. }
      pose proof (length_zrealloc junk (buf s) (nl + 1) ltac:(lia)) as Hz. rewrite E2 in Hz.
      eexists _, sl. split; [done|]. cbn [ty hlen buf set_buf]. split_and!; [done|done| |].
      + by rewrite E2, <- app_assoc.
      + rewrite !length_app in *. simpl in Hz. lia.
    - assert (mread (buf s) 0 (zlen bs + 1) = Some (bs ++ [0])) as ->.
      { rewrite Hb. replace (bs ++ 0 :: slack) with ((bs ++ [0]) ++ slack) by (by rewrite <- app_assoc).
        apply (mread_app []); [done|]. rewrite length_app. simpl. lia. }
      cbn [mbind option_bind].
      destruct (zrealloc_grow junk (bs ++ [0]) (nl + 1)) as (sl & E2 & Hz).
      { rewrite length_app. simpl. lia. }
      rewrite E2. eexists _, sl. split; [done|]. unfold sdssetlen. cbn [ty hlen buf].
      split_and!; [done| | |].
      + apply wrapu_id. split; [lia|]. lia.
      + by rewrite <- app_assoc.
      + rewrite length_app in Hz. rewrite length_app. simpl in Hz. lia. }
  cbn [mbind option_bind]. eexists. split; [done|].
  destruct (alloc_type s1 nl (growtype nl) T1 Hne Hw ltac:(lia)) as (A1 & A2 & A3 & A4).
  split_and!; [|lia|congruence].
  split; rewrite ?A1, ?A2, ?A3; [lia|done|done|lia|]. exists sl. rewrite A4, B1. split; [done|lia].
Qed.

Lemma removefree_spec junk s bs :
  repr s bs →
  ∃ s', sdsRemoveFreeSpace junk s = Some s' ∧ repr s' bs ∧ sdsalloc s' = zlen bs ∧
    zlen (buf s') = zlen bs + 1.
Proof.
  intros Hr. pose proof Hr as [Hty Hlen Hfit Hall (slack & Hb & Hsl)].
  destruct (repr_len_fit s bs Hr) as [Hf1 Hf2]. pow2.
  unfold sdsRemoveFreeSpace, sdslen. rewrite Hlen.
  destruct (reqtype_spec (zlen bs)) as [Ht Hw]; [pow2; lia|]. set (t := sdsReqType (zlen bs)) in *.
  assert (∃ s1, (if ty s =? t then Some (set_buf s (zrealloc junk (buf s) (zlen bs + 1)))
     else b ← mread (buf s) 0 (zlen bs + 1);
       Some (sdssetlen (mk_sds t 0 0 (zrealloc junk b (zlen bs + 1))) (zlen bs))) = Some s1 ∧
     ty s1 = t ∧ hlen s1 = zlen bs ∧ buf s1 = bs ++ [0]) as (s1 & -> & T1 & L1 & B1).
  { assert (buf s = (bs ++ [0]) ++ slack) as Eb by (by rewrite Hb, <- app_assoc).
    destruct (Z.eqb_spec (ty s) t) as [E|E].
    - eexists. split; [done|]. cbn [ty hlen buf set_buf]. split_and!; [done|done|].
      rewrite Eb. apply zrealloc_shrink. rewrite length_app. simpl. lia.
    - assert (mread (buf s) 0 (zlen bs + 1) = Some (bs ++ [0])) as ->.
      { rewrite Eb. apply (mread_app []); [done|]. rewrite length_app. simpl. lia. }
      cbn [mbind option_bind]. rewrite <- (app_nil_r (bs ++ [0])), zrealloc_shrink; cycle 1.
      { rewrite length_app. simpl. lia. }
      eexists. split; [done|]. unfold sdssetlen. cbn [ty hlen buf].
      split_and!; [done| |by rewrite app_nil_r]. apply wrapu_id. split; [lia|done]. }
  cbn [mbind option_bind]. eexists. split; [done|].
  assert (sdsalloc (sdssetalloc s1 (zlen bs)) = zlen bs ∧ ty (sdssetalloc s1 (zlen bs)) = t ∧
    hlen (sdssetalloc s1 (zlen bs)) = zlen bs ∧ buf (sdssetalloc s1 (zlen bs)) = bs ++ [0])
    as (A1 & A2 & A3 & A4).
  { destruct (type5_dec t) as [E|E].
    - unfold sdssetalloc, sdsalloc. rewrite T1, E. simpl. rewrite T1, E. done.
    - destruct (alloc_type s1 (zlen bs) t T1 E Hw ltac:(lia)) as (? & ? & ? & ?).
      split_and!; congruence. }
  split_and!; [|done|rewrite A4, length_app; simpl; lia].
  split; rewrite ?A1, ?A2, ?A3; [done|done|done|lia|]. exists []. rewrite A4, app_nil_r. split; [done|lia].
Qed.

(** ** Contents *)

Lemma sdsnewlen_spec bs rest :
  zlen bs < 2 ^ 64 → ∃ s, sdsnewlen (Some (bs ++ rest)) (zlen bs) = Some s ∧ repr s bs.
Proof.
  intros Hmax. unfold sdsnewlen. rewrite (mread_app [] bs rest) by done. cbn [mbind option_bind].
  eexists. split; [done|].
  destruct (reqtype_spec (zlen bs)) as [Ht Hw]; [lia|].
  set (t := if _ && _ then SDS_TYPE_8 else sdsReqType (zlen bs)).
  assert (0 ≤ t ≤ 4 ∧ zlen bs < 2 ^ width t) as [Ht' Hw'].
  { subst t. destruct (Z.eqb_spec (sdsReqType (zlen bs)) SDS_TYPE_5) as [E|E]; cbn [andb]; [|done].
    destruct (zlen bs =? 0); [|done]. split; [done|]. apply width_mono_5_8. by rewrite <- E. }
  assert (wrapu (width t) (zlen bs) = zlen bs) as E by (apply wrapu_id; split; [lia|done]).
  split; unfold sdsalloc; cbn [ty hlen halloc buf]; rewrite ?E; try done.
  - destruct (t =? SDS_TYPE_5); done.
  - destruct (t =? SDS_TYPE_5); lia.
  - exists []. split; [done|]. rewrite app_nil_r. destruct (t =? SDS_TYPE_5); lia.
Qed.

(** Replacing the content from position [zlen a] on, in a block with room. *)
Lemma overwrite s a c bs :
  repr s bs → a `prefix_of` bs → zlen (a ++ c) ≤ sdsalloc s →
  ∃ s', (s1 ← swrite s (zlen a) c;
         swrite (sdssetlen s1 (zlen (a ++ c))) (zlen (a ++ c)) [0]) = Some s' ∧ repr s' (a ++ c).
Proof.
  intros [Hty Hlen Hfit Hall (slack & Hb & Hsl)] [d ->] Hroom.
  unfold swrite. rewrite Hb, <- app_assoc. rewrite !length_app in *.
  rewrite mwrite_tail; [|done|rewrite length_app; simpl; lia]. cbn [mbind option_bind].
  unfold sdssetlen. cbn [buf set_buf ty hlen halloc].
  rewrite app_assoc, mwrite_tail; [|rewrite length_app; lia|].
  2: { rewrite length_drop, length_app. simpl. lia. }
  cbn [mbind option_bind]. eexists. split; [done|].
  set (sl := drop (length [0]) (drop (length c) (d ++ 0 :: slack))).
  pose proof (repr_intro s (a ++ c) ((a ++ c) ++ 0 :: sl) sl) as Hi.
  rewrite !length_app in Hi. apply Hi; clear Hi; try done.
  - intros Hne. unfold sdsalloc in *. destruct (Z.eqb_spec (ty s) SDS_TYPE_5); [done|]. lia.
  - lia.
  - intros Hne. unfold sdsalloc in *. destruct (Z.eqb_spec (ty s) SDS_TYPE_5); [done|].
    subst sl. rewrite !length_drop, !length_app. simpl. lia.
Qed.

Lemma catlen_spec junk s bs t rest :
  repr s bs → zlen bs + zlen t < 2 ^ 62 →
  ∃ s', sdscatlen junk s (t ++ rest) (zlen t) = Some s' ∧ repr s' (bs ++ t).
Proof.
  intros Hr Hmax. unfold sdscatlen, sdslen. rewrite (r_len _ _ Hr).
  destruct (makeroom_spec junk s bs (zlen t) Hr) as (s1 & -> & Hr1 & Hroom & _); [lia|done|].
  cbn [mbind option_bind]. rewrite (mread_app [] t rest) by done. cbn [mbind option_bind].
  destruct (overwrite s1 bs t bs Hr1) as (s2 & E & Hr2); [done|rewrite length_app; lia|].
  exists s2. split; [|done]. rewrite length_app, Nat2Z.inj_add in E. exact E.
Qed.

Lemma swrite_setlen s n off b :
  swrite (sdssetlen s n) off b = (s' ← swrite s off b; Some (sdssetlen s' n)).
Proof. unfold swrite, sdssetlen. cbn [buf]. by destruct (mwrite (buf s) off b). Qed.

Lemma cpylen_spec junk s bs t rest :
  repr s bs → zlen t < 2 ^ 62 →
  ∃ s', sdscpylen junk s (t ++ rest) (zlen t) = Some s' ∧ repr s' t.
Proof.
  intros Hr Hmax. unfold sdscpylen, sdslen.
  assert (∃ s1, (if sdsalloc s <? zlen t then sdsMakeRoomFor junk s (zlen t - hlen s) else Some s)
    = Some s1 ∧ repr s1 bs ∧ zlen t ≤ sdsalloc s1) as (s1 & -> & Hr1 & Hroom).
  { destruct (Z.ltb_spec (sdsalloc s) (zlen t)); [|by exists s].
    pose proof (r_len _ _ Hr). pose proof (r_alloc _ _ Hr).
    destruct (makeroom_spec junk s bs (zlen t - hlen s) Hr) as (s1 & E & ? & ? & _); [lia|lia|].
    exists s1. split_and!; [done|done|lia]. }
  cbn [mbind option_bind]. rewrite (mread_app [] t rest) by done. cbn [mbind option_bind].
  destruct (overwrite s1 [] t bs Hr1) as (s2 & E & Hr2); [apply prefix_nil|done|].
  exists s2. split; [|done]. change (zlen []) with 0 in E. simpl app in E.
  destruct (swrite s1 0 t) as [s3|]; [|done]. cbn [mbind option_bind] in *.
  by rewrite swrite_setlen in E.
Qed.

Lemma growzero_spec junk s bs n :
  repr s bs → 0 ≤ n < 2 ^ 62 →
  ∃ s', sdsgrowzero junk s n = Some s' ∧ repr s' (bs ++ replicate (Z.to_nat n - length bs) 0).
Proof.
  intros Hr Hn. unfold sdsgrowzero, sdslen. rewrite (r_len _ _ Hr).
  destruct (Z.leb_spec n (zlen bs)) as [Hle|Hgt].
  { exists s. replace (Z.to_nat n - length bs)%nat with 0%nat by lia. by rewrite app_nil_r. }
  destruct (makeroom_spec junk s bs (n - zlen bs) Hr) as (s1 & -> & Hr1 & Hroom & _); [lia|lia|].
  cbn [mbind option_bind]. set (z := replicate (Z.to_nat n - length bs) 0).
  assert (zlen (bs ++ z) = n) as Hz by (rewrite length_app; subst z; rewrite length_replicate; lia).
  destruct (overwrite s1 bs z bs Hr1) as (s2 & E & Hr2); [done|lia|].
  exists s2. split; [|done]. rewrite Hz in E.
  replace (Z.to_nat (n - zlen bs + 1)) with (length z + 1)%nat by
    (subst z; rewrite length_replicate; lia).
  rewrite replicate_add. fold z. assert (replicate (length z) 0 = z) as Ez by
    (subst z; by rewrite length_replicate). rewrite Ez. change (replicate 1 0) with [0].
  pose proof Hr1 as [_ Hlen1 _ _ (slack & Hb & Hsl)].
  assert (length z + 1 ≤ length (0%Z :: slack))%nat as Hfit.
  { rewrite length_app in Hz. rewrite length_app in Hsl. simpl. lia. }
  unfold swrite in *. rewrite Hb in *.
  rewrite mwrite_tail in E by (done || lia). cbn [mbind option_bind] in E.
  rewrite mwrite_tail; [|done|rewrite length_app; simpl; simpl in Hfit; lia]. cbn [mbind option_bind].
  unfold sdssetlen in *. cbn [buf set_buf ty hlen halloc] in *.
  rewrite app_assoc, mwrite_tail in E; [|rewrite length_app in *; lia|rewrite length_drop; simpl length in *; lia].
  cbn [mbind option_bind] in E. rewrite <- E. do 2 f_equal. rewrite <- !app_assoc. do 3 f_equal.
  by rewrite drop_drop, length_app.
Qed.

(** The end of the operations that shorten a string: the bytes [sub] are in
    front of the block, the NUL and the length follow. *)
Lemma finish_spec s bs b sub :
  repr s bs → length b = length (buf s) → sub `prefix_of` b → zlen sub ≤ zlen bs →
  ∃ s', (s1 ← swrite (set_buf s b) (zlen sub) [0]; Some (sdssetlen s1 (zlen sub))) = Some s' ∧
    repr s' sub.
Proof.
  intros [Hty Hlen Hfit Hall (slack & Hb & Hsl)] Hl [r ->] Hle.
  rewrite Hb in Hl. rewrite !length_app in *. simpl in Hl.
  unfold swrite. cbn [buf set_buf]. rewrite mwrite_tail; [|done|simpl; lia].
  cbn [mbind option_bind]. eexists. split; [done|].
  apply (repr_intro s sub (sub ++ 0 :: drop (length [0]) r) (drop (length [0]) r)); try done.
  - intros Hne. unfold sdsalloc in *. destruct (Z.eqb_spec (ty s) SDS_TYPE_5); [done|]. lia.
  - lia.
  - intros Hne. unfold sdsalloc in *. destruct (Z.eqb_spec (ty s) SDS_TYPE_5); [done|].
    rewrite length_app, length_drop. simpl. lia.
Qed.

(** Moving a substring to the front. *)
Lemma move_front (b a sub r : list Z) :
  b = a ++ sub ++ r →
  ∃ b', memmove b 0 (zlen a) (zlen sub) = Some b' ∧ length b' = length b ∧ sub `prefix_of` b'.
Proof.
  intros ->. unfold memmove. rewrite (mread_app a sub r) by done. cbn [mbind option_bind].
  pose proof (mwrite_tail [] (a ++ sub ++ r) sub 0 eq_refl) as E. simpl app in E.
  rewrite E by (rewrite !length_app; lia). eexists. split; [done|]. split; [|by eexists].
  rewrite !length_app, length_drop, !length_app. lia.
Qed.

Lemma shift_spec s bs a sub c (cond : bool) :
  repr s bs → bs = a ++ sub ++ c → (cond = false → a = [] ∨ sub = []) →
  ∃ s', (s0 ← (if cond then b ← memmove (buf s) 0 (zlen a) (zlen sub); Some (set_buf s b) else Some s);
         s1 ← swrite s0 (zlen sub) [0]; Some (sdssetlen s1 (zlen sub))) = Some s' ∧ repr s' sub.
Proof.
  intros Hr -> Hc. pose proof Hr as [_ _ _ _ (slack & Hb & _)].
  assert (zlen sub ≤ zlen (a ++ sub ++ c)) by (rewrite !length_app; lia).
  destruct cond.
  - destruct (move_front (buf s) a sub (c ++ 0 :: slack)) as (b' & -> & Hl & Hp).
    { by rewrite Hb, <- !app_assoc. }
    cbn [mbind option_bind]. by apply (finish_spec s (a ++ sub ++ c)).
  - cbn [mbind option_bind]. assert (set_buf s (buf s) = s) as E by (by destruct s).
    rewrite <- E. apply (finish_spec s (a ++ sub ++ c)); try done.
    rewrite Hb. destruct Hc as [-> | ->]; [done|..]; [|apply prefix_nil].
    simpl. rewrite <- app_assoc. by eexists.
Qed.

(** The substring an inclusive range with negative indexes selects. *)
Definition range_index (len i : Z) : Z := if i <? 0 then Z.max 0 (len + i) else i.
Definition range_list (bs : list Z) (start en : Z) : list Z :=
  let start := range_index (zlen bs) start in
  let en := range_index (zlen bs) en in
  take (Z.to_nat (Z.min en (zlen bs - 1) - start + 1)) (drop (Z.to_nat start) bs).

Lemma range_split (bs : list Z) st n :
  0 ≤ st → 0 ≤ n → st + n ≤ zlen bs →
  ∃ a c, bs = a ++ take (Z.to_nat n) (drop (Z.to_nat st) bs) ++ c ∧ zlen a = st ∧
    zlen (take (Z.to_nat n) (drop (Z.to_nat st) bs)) = n.
Proof.
  intros Hs Hn Hl. exists (take (Z.to_nat st) bs), (drop (Z.to_nat n) (drop (Z.to_nat st) bs)).
  rewrite take_drop, take_drop. split_and!; [done|rewrite length_take; lia|].
  rewrite length_take, length_drop. lia.
Qed.

Lemma sdsrange_spec s bs start en :
  repr s bs → zlen bs < 2 ^ 31 → in_s 32 start → in_s 32 en →
  ∃ s', sdsrange s start en = Some s' ∧ repr s' (range_list bs start en).
Proof.
  intros Hr Hmax Hs He. unfold sdsrange, sdslen. rewrite (r_len _ _ Hr).
  unfold in_s in *. change (32 - 1) with 31 in *. pow2.
  destruct (Z.eqb_spec (zlen bs) 0) as [E|E].
  { exists s. split; [done|]. destruct bs; [|simpl in E; lia]. unfold range_list.
    rewrite drop_nil, take_nil. done. }
  unfold s32. rewrite (wraps_id 32 (zlen bs)) by (unfold in_s; simpl; pow2; lia).
  set (st := if start <? 0 then _ else start).
  assert (st = range_index (zlen bs) start) as ->.
  { subst st. unfold range_index. destruct (Z.ltb_spec start 0); [|done].
    rewrite wraps_id by (unfold in_s; simpl; pow2; lia).
    destruct (Z.ltb_spec (zlen bs + start) 0); lia. }
  set (e1 := if en <? 0 then _ else en).
  assert (e1 = range_index (zlen bs) en) as ->.
  { subst e1. unfold range_index. destruct (Z.ltb_spec en 0); [|done].
    rewrite wraps_id by (unfold in_s; simpl; pow2; lia).
    destruct (Z.ltb_spec (zlen bs + en) 0); lia. }
  unfold range_list. set (a := range_index (zlen bs) start). set (z := range_index (zlen bs) en).
  assert (0 ≤ a) as Ha by (subst a; unfold range_index; destruct (Z.ltb_spec start 0); lia).
  assert (0 ≤ z) as Hz by (subst z; unfold range_index; destruct (Z.ltb_spec en 0); lia).
  clearbody a z. set (sub := take _ _).
  match goal with |- context [let '(_, _) := ?p in _] =>
    assert (∃ st', p = (st', zlen sub) ∧ (zlen sub ≠ 0 → st' = a)) as (st' & -> & Hst) end.
  { assert (zlen sub = Z.max 0 (Z.min (Z.min z (zlen bs - 1) - a + 1) (zlen bs - a))) as ->.
    { subst sub. rewrite length_take, length_drop. lia. }
    rewrite !Z.gtb_ltb, !Z.geb_leb.
    destruct (Z.ltb_spec z a); cbn [negb]; [exists 0; split; [simpl; f_equal; lia|lia]|].
    destruct (Z.eqb_spec (z - a + 1) 0); cbn [negb]; [lia|].
    destruct (Z.leb_spec (zlen bs) a); [exists a; split; [f_equal; lia|lia]|].
    destruct (Z.leb_spec (zlen bs) z); [|exists a; split; [f_equal; lia|lia]].
    destruct (Z.ltb_spec (zlen bs - 1) a); exists a; (split; [f_equal; lia|lia]). }
  destruct (Z.eq_dec (zlen sub) 0) as [E0|E0].
  - rewrite E0, andb_false_r. destruct sub as [|x sub']; [|simpl in E0; lia].
    apply (shift_spec s bs [] [] bs false Hr); auto.
  - rewrite (Hst E0). destruct (Z.eqb_spec (zlen sub) 0); [done|]. rewrite andb_true_r.
    assert (zlen sub = Z.min z (zlen bs - 1) - a + 1) as El.
    { subst sub. rewrite length_take, length_drop in *. lia. }
    destruct (range_split bs a (zlen sub)) as (p & c & Eb & Hp & Hsub); [lia|lia|lia|].
    rewrite El in Eb at 1. fold sub in Eb. rewrite <- Hp.
    apply (shift_spec s bs p sub c (negb (zlen p =? 0)) Hr Eb).
    destruct (Z.eqb_spec (zlen p) 0); [|done]. intros _. left. by destruct p.
Qed.

(** ** Trimming *)
Fixpoint drop_while (p : Z → bool) (l : list Z) : list Z :=
  match l with [] => [] | x :: l' => if p x then drop_while p l' else l end.
Definition trimmed (p : Z → bool) (l : list Z) : list Z :=
  reverse (drop_while p (reverse (drop_while p l))).

Lemma drop_while_suffix p l : ∃ a, l = a ++ drop_while p l.
Proof.
  induction l as [|x l [a IH]]; simpl; [by exists []|]. destruct (p x); [|by exists []].
  exists (x :: a). simpl. by rewrite <- IH.
Qed.

Lemma read1 (a : list Z) x r off : off = zlen a → mread (a ++ x :: r) off 1 = Some [x].
Proof. intros ->. by apply (mread_app a [x] r). Qed.

Lemma trim_left_spec fuel cset r en : ∀ a m,
  en = zlen (a ++ m) - 1 → (length m < fuel)%nat →
  trim_left fuel (a ++ m ++ r) cset (zlen a) en =
    Some (zlen (a ++ m) - zlen (drop_while (in_cset cset) m)).
Proof.
  induction fuel as [|fuel IH]; intros a m Hen Hf; [lia|]. cbn [trim_left].
  rewrite length_app in Hen. destruct m as [|x m].
  { simpl in Hen. destruct (Z.leb_spec (zlen a) en); [lia|]. rewrite length_app. simpl. f_equal. lia. }
  simpl length in Hen, Hf. destruct (Z.leb_spec (zlen a) en); [|lia].
  change ((x :: m) ++ r) with (x :: m ++ r). rewrite read1 by done.
  cbn [mbind option_bind le_val]. rewrite Z.mul_0_r, Z.add_0_r.
  cbn [drop_while]. destruct (in_cset cset x); [|f_equal; rewrite length_app; lia].
  replace (zlen a + 1) with (zlen (a ++ [x])) by (rewrite length_app; simpl; lia).
  replace (a ++ x :: m ++ r) with ((a ++ [x]) ++ m ++ r) by (by rewrite <- app_assoc).
  rewrite IH; [|rewrite !length_app; simpl; lia|lia]. f_equal. rewrite !length_app. simpl. lia.
Qed.

Lemma trim_right_spec fuel cset a r : ∀ m ep,
  (m = [] ∨ ∃ x m', m = x :: m' ∧ in_cset cset x = false) →
  ep = zlen a + zlen m - 1 → (length m < fuel)%nat →
  trim_right fuel (a ++ m ++ r) cset ep (zlen a) =
    Some (zlen a + zlen (drop_while (in_cset cset) (reverse m)) - 1).
Proof.
  revert r. induction fuel as [|fuel IH]; intros r m ep Hm -> Hf; [lia|]. cbn [trim_right].
  rewrite Z.gtb_ltb. destruct Hm as [->|(x & m' & -> & Hx)].
  { destruct (Z.ltb_spec (zlen a) (zlen a + zlen (@nil Z) - 1)); simpl in *; [lia|]. done. }
  destruct m' as [|y m' _] using rev_ind.
  { destruct (Z.ltb_spec (zlen a) (zlen a + zlen [x] - 1)); [simpl in *; lia|].
    rewrite reverse_singleton. simpl. by rewrite Hx. }
  rewrite app_comm_cons. destruct (Z.ltb_spec (zlen a) (zlen a + zlen ((x :: m') ++ [y]) - 1)) as [_|Hge].
  2: { rewrite length_app in Hge. simpl in Hge. lia. }
  replace (a ++ ((x :: m') ++ [y]) ++ r) with ((a ++ x :: m') ++ y :: r) by
    (rewrite <- !app_assoc; done).
  rewrite read1 by (rewrite !length_app; simpl; lia).
  cbn [mbind option_bind le_val]. rewrite Z.mul_0_r, Z.add_0_r.
  rewrite reverse_app, reverse_singleton. cbn [app drop_while].
  destruct (in_cset cset y).
  - replace ((a ++ x :: m') ++ y :: r) with (a ++ (x :: m') ++ y :: r) by (by rewrite <- app_assoc).
    apply (IH (y :: r) (x :: m')); [eauto| |].
    + simpl. rewrite ?length_app. simpl. lia.
    + simpl in *. rewrite length_app in Hf. simpl in Hf. lia.
  - f_equal. simpl. rewrite length_reverse, ?length_app. simpl. lia.
Qed.

Lemma sdstrim_spec s bs cset :
  repr s bs → ∃ s', sdstrim s cset = Some s' ∧ repr s' (trimmed (in_cset cset) bs).
Proof.
  intros Hr. pose proof Hr as [_ Hlen _ _ (slack & Hb & _)]. unfold sdstrim, sdslen. rewrite Hlen.
  set (p := in_cset cset).
  assert (drop_while p bs = [] ∨ ∃ x m', drop_while p bs = x :: m' ∧ in_cset cset x = false) as Hm.
  { subst p. clear. induction bs as [|x bs IH]; [by left|]. simpl.
    destruct (in_cset cset x) eqn:E; [done|]. right. eauto. }
  pose proof (trim_left_spec (S (S (Z.to_nat (zlen bs)))) cset (0 :: slack) (zlen bs - 1) [] bs
    eq_refl ltac:(lia)) as El. simpl app in El. change (zlen []) with 0 in El. fold p in El.
  destruct (drop_while_suffix p bs) as [a Ea]. unfold trimmed. fold p.
  remember (drop_while p bs) as m eqn:Em0. clear Em0.
  assert (buf s = a ++ m ++ 0 :: slack) as Hb2 by (by rewrite Hb, Ea, <- app_assoc).
  assert (length bs = length a + length m)%nat as Hlb by (rewrite Ea; apply length_app).
  rewrite <- Hb in El. rewrite El. cbn [mbind option_bind].
  replace (zlen bs - zlen m) with (zlen a) by lia.
  pose proof (trim_right_spec (S (S (Z.to_nat (zlen bs)))) cset a (0 :: slack) m (zlen bs - 1) Hm
    ltac:(lia) ltac:(lia)) as Er. rewrite <- Hb2 in Er. rewrite Er.
  cbn [mbind option_bind]. fold p. set (k := drop_while p (reverse m)).
  destruct (drop_while_suffix p (reverse m)) as [c Ec]. fold k in Ec.
  assert (m = reverse k ++ reverse c) as Em.
  { rewrite <- (reverse_involutive m), Ec, reverse_app. done. }
  assert ((if zlen a >? zlen a + zlen k - 1 then 0 else zlen a + zlen k - 1 - zlen a + 1)
    = zlen (reverse k)) as ->.
  { rewrite length_reverse, Z.gtb_ltb. destruct (Z.ltb_spec (zlen a + zlen k - 1) (zlen a)); lia. }
  apply (shift_spec s bs a (reverse k) (reverse c) (negb (zlen a =? 0)) Hr).
  { by rewrite <- Em. }
  destruct (Z.eqb_spec (zlen a) 0); [|done]. intros _. left. by destruct a.
Qed.

Lemma map_chars_spec f s bs :
  repr s bs → ∃ s', map_chars f s = Some s' ∧ repr s' (f <$> bs).
Proof.
  intros Hr. unfold map_chars, sdslen. rewrite (r_len _ _ Hr), (repr_take s bs Hr).
  cbn [mbind option_bind]. destruct Hr as [Hty Hlen Hfit Hall (slack & Hb & Hsl)].
  unfold swrite. rewrite Hb.
  pose proof (mwrite_app [] bs (f <$> bs) (0 :: slack) 0 eq_refl) as E. simpl app in E.
  rewrite E by (by rewrite length_fmap). cbn [mbind option_bind]. eexists. split; [done|].
  split; unfold sdsalloc in *; cbn [ty hlen halloc buf set_buf] in *; rewrite ?length_fmap; try done.
  exists slack. rewrite !length_app in *. by rewrite length_fmap.
Qed.

Lemma sdsclear_spec s bs : repr s bs → ∃ s', sdsclear s = Some s' ∧ repr s' [].
Proof.
  intros Hr. unfold sdsclear. rewrite swrite_setlen.
  destruct (shift_spec s bs [] [] bs false Hr) as (s' & E & Hr'); [done|auto|].
  exists s'. split; [exact E|done].
Qed.

(** Appending in place: the client makes room, writes behind the end of the
    string and calls [sdsIncrLen] (as the query buffer does on [read]). *)
Definition read_into (junk : nat → Z) (s : sds) (room : Z) (bytes : list Z) : option sds :=
  let oldlen := sdslen s in
  s ← sdsMakeRoomFor junk s room;
  s ← swrite s oldlen bytes;
  sdsIncrLen s (zlen bytes).

Lemma read_into_spec junk s bs room bytes :
  repr s bs → 0 < room → zlen bytes ≤ room → zlen bs + room < 2 ^ 62 →
  ∃ s', read_into junk s room bytes = Some s' ∧ repr s' (bs ++ bytes).
Proof.
  intros Hr H0 Hle Hmax. unfold read_into, sdslen. rewrite (r_len _ _ Hr).
  destruct (makeroom_spec junk s bs room Hr) as (s1 & -> & Hr1 & Hroom & Hty); [lia|done|].
  cbn [mbind option_bind]. specialize (Hty H0).
  destruct (overwrite s1 bs bytes bs Hr1) as (s2 & E & Hr2); [done|rewrite length_app; lia|].
  unfold swrite in *. rewrite length_app, Nat2Z.inj_add in E.
  destruct (mwrite (buf s1) (zlen bs) bytes) as [b|]; [|done]. cbn [mbind option_bind] in *.
  unfold sdsIncrLen. cbn [ty set_buf hlen halloc].
  unfold sdsalloc in Hroom. destruct (Z.eqb_spec (ty s1) SDS_TYPE_5); [done|].
  rewrite (r_len _ _ Hr1), !Z.geb_leb.
  destruct (Z.leb_spec 0 (zlen bytes)); [|lia].
  destruct (Z.leb_spec (zlen bytes) (halloc s1 - zlen bs)); [|lia]. cbn [andb orb].
  exists s2. split; [|done]. exact E.
Qed.

Lemma incr_trim_spec s bs n :
  repr s bs → 0 < n ≤ zlen bs →
  ∃ s', sdsIncrLen s (- n) = Some s' ∧ repr s' (take (length bs - Z.to_nat n) bs).
Proof.
  intros Hr Hn. set (k := take _ bs).
  assert (zlen k = zlen bs - n) as Hk by (subst k; rewrite length_take; lia).
  destruct (shift_spec s bs [] k (drop (length bs - Z.to_nat n) bs) false Hr) as (s' & E & Hr').
  { subst k. simpl. by rewrite take_drop. }
  { auto. }
  exists s'. split; [|done]. cbn [mbind option_bind] in E.
  unfold sdsIncrLen. rewrite (r_len _ _ Hr), !Z.gtb_ltb, !Z.geb_leb.
  destruct (Z.ltb_spec 0 (- n)); [lia|]. destruct (Z.leb_spec 0 (- n)); [lia|].
  destruct (Z.ltb_spec (- n) 0); [|lia]. destruct (Z.leb_spec (- - n) (zlen bs)); [|lia].
  cbn [andb orb]. replace (zlen bs + - n) with (zlen k) by lia.
  rewrite swrite_setlen. by destruct (ty s =? SDS_TYPE_5).
Qed.

(** ** Histories of operations *)
Inductive sop :=
  | SCat (t : list Z) | SCpy (t : list Z) | SRange (start en : Z) | STrim (cset : list Z)
  | SGrow (n : Z) | SClear | SRemoveFree | SLower | SUpper | SMap (from to : list Z)
  | SRead (room : Z) (bytes : list Z) | SDrop (n : Z).

(** [SDrop] right-trims with a negative [sdsIncrLen]. *)
Definition sop_exec (junk : nat → Z) (s : sds) (o : sop) : option sds :=
  match o with
  | SCat t => sdscatlen junk s t (zlen t)
  | SCpy t => sdscpylen junk s t (zlen t)
  | SRange a b => sdsrange s a b
  | STrim cset => sdstrim s cset
  | SGrow n => sdsgrowzero junk s n
  | SClear => sdsclear s
  | SRemoveFree => sdsRemoveFreeSpace junk s
  | SLower => sdstolower s
  | SUpper => sdstoupper s
  | SMap from to => sdsmapchars s from to
  | SRead room bytes => read_into junk s room bytes
  | SDrop n => if (0 <? n) && (n <=? sdslen s) then sdsIncrLen s (- n) else Some s
  end.

Definition bytes_exec (bs : list Z) (o : sop) : list Z :=
  match o with
  | SCat t => bs ++ t
  | SCpy t => t
  | SRange a b => range_list bs a b
  | STrim cset => trimmed (in_cset cset) bs
  | SGrow n => bs ++ replicate (Z.to_nat n - length bs) 0
  | SClear => []
  | SRemoveFree => bs
  | SLower => tolower <$> bs
  | SUpper => toupper <$> bs
  | SMap from to => map_char from to <$> bs
  | SRead _ bytes => bs ++ bytes
  | SDrop n => if (0 <? n) && (n <=? zlen bs) then take (length bs - Z.to_nat n) bs else bs
  end.

(** The bytes an operation may add, and what it asks of its arguments. *)
Definition added (o : sop) : Z :=
  match o with
  | SCat t | SCpy t => zlen t
  | SGrow n => Z.max 0 n
  | SRead room bytes => Z.max room (zlen bytes)
  | _ => 0
  end.
Definition sop_ok (o : sop) : Prop :=
  match o with
  | SRange a b => in_s 32 a ∧ in_s 32 b
  | SGrow n => 0 ≤ n
  | SRead room bytes => 0 < room ∧ zlen bytes ≤ room
  | _ => True
  end.

Lemma length_trimmed p l : zlen (trimmed p l) ≤ zlen l.
Proof.
  unfold trimmed. rewrite length_reverse.
  destruct (drop_while_suffix p l) as [a E]. destruct (drop_while_suffix p (reverse (drop_while p l)))
    as [b E2]. apply (f_equal length) in E, E2. rewrite length_app in E, E2.
  rewrite length_reverse in E2. lia.
Qed.

Lemma bytes_exec_length bs o : zlen (bytes_exec bs o) ≤ zlen bs + added o.
Proof.
  destruct o; cbn [bytes_exec added]; rewrite ?length_app, ?length_fmap, ?length_replicate; simpl length;
    try lia.
  - unfold range_list. rewrite length_take, length_drop. lia.
  - pose proof (length_trimmed (in_cset cset) bs). lia.
  - case_match; rewrite ?length_take; lia.
Qed.

Lemma sop_exec_spec junk s bs o :
  repr s bs → sop_ok o → zlen bs + added o < 2 ^ 31 →
  ∃ s', sop_exec junk s o = Some s' ∧ repr s' (bytes_exec bs o).
Proof.
  intros Hr Hok Hmax. pow2. destruct o; cbn [sop_exec bytes_exec added sop_ok] in *.
  - pose proof (catlen_spec junk s bs t [] Hr) as E. rewrite app_nil_r in E. apply E. pow2. lia.
  - pose proof (cpylen_spec junk s bs t [] Hr) as E. rewrite app_nil_r in E. apply E. pow2. lia.
  - apply sdsrange_spec; [done|pow2; lia|apply Hok..].
  - by apply sdstrim_spec.
  - apply growzero_spec; [done|pow2; lia].
  - by eapply sdsclear_spec.
  - destruct (removefree_spec junk s bs Hr) as (s' & ? & ? & _). by exists s'.
  - by apply map_chars_spec.
  - by apply map_chars_spec.
  - by apply map_chars_spec.
  - apply read_into_spec; [done|lia|lia|pow2; lia].
  - unfold sdslen. rewrite (r_len _ _ Hr).
    destruct (Z.ltb_spec 0 n); cbn [andb]; [|by exists s].
    destruct (Z.leb_spec n (zlen bs)); [|by exists s]. apply incr_trim_spec; [done|lia].
Qed.

Fixpoint sop_run (junk : nat → Z) (s : sds) (os : list sop) : option sds :=
  match os with
  | [] => Some s
  | o :: os => s ← sop_exec junk s o; sop_run junk s os
  end.

Definition total_added (os : list sop) : Z := foldr (λ o n, added o + n) 0 os.

Lemma added_nonneg o : 0 ≤ added o.
Proof. destruct o; simpl; lia. Qed.

Lemma total_nonneg os : 0 ≤ total_added os.
Proof. induction os as [|o os IH]; simpl; [lia|]. pose proof (added_nonneg o). lia. Qed.

Lemma sop_run_spec junk os : ∀ s bs,
  repr s bs → Forall sop_ok os → zlen bs + total_added os < 2 ^ 31 →
  ∃ s', sop_run junk s os = Some s' ∧ repr s' (foldl bytes_exec bs os).
Proof.
  induction os as [|o os IH]; intros s bs Hr Hok Hmax; [by exists s|].
  apply Forall_cons in Hok as [Ho Hok]. cbn [total_added foldr] in Hmax. fold (total_added os) in Hmax.
  pose proof (total_nonneg os). pose proof (bytes_exec_length bs o).
  destruct (sop_exec_spec junk s bs o Hr Ho) as (s1 & E & Hr1); [lia|].
  cbn [sop_run foldl]. rewrite E. cbn [mbind option_bind]. apply IH; [done|done|lia].
Qed.

(** ** Properties *)


Definition sample_sops : list sop :=
  [SCat (of_string "Hello World"); SRange (-5) (-1); SUpper; SGrow 40; SCat (of_string "xy");
   STrim (of_string "xyW"); SRead 300 (of_string "tail"); SRemoveFree; SDrop 2; SCpy (of_string "z")].

