(* ===== verification/SdsText.v ===== *)
(** * Quoting, splitting and joining strings ([redis-3.2/src/sds.c])

    The text functions of [sds.c].  Strings that are only appended to are
    their contents here, which is what [sdscatlen] promises (file [Sds]); the
    C string that [sdssplitargs] reads is the list of its characters, and the
    NUL behind it reads as 0. *)

From S2P Require Import Prelude Sds.

(** ** Quoting *)

Definition isprint (c : Z) : bool := (32 <=? c) && (c <=? 126).

(** The digits of ["%02x"]. *)
Definition hex_digit (d : Z) : Z := if d <? 10 then 48 + d else 87 + d.

(** One turn of the loop of [sdscatrepr]. *)
Definition repr_char (c : Z) : list Z :=
  if (c =? 92) || (c =? 34) then [92; c]
  else if c =? 10 then [92; 110]
  else if c =? 13 then [92; 114]
  else if c =? 9 then [92; 116]
  else if c =? 7 then [92; 97]
  else if c =? 8 then [92; 98]
  else if isprint c then [c]
  else [92; 120; hex_digit (c / 16); hex_digit (c mod 16)].

Definition sdscatrepr (s p : list Z) : list Z :=
  s ++ [34] ++ concat (repr_char <$> p) ++ [34].

(** ** Splitting a line into arguments *)

Definition is_hex_digit (c : Z) : bool :=
  ((48 <=? c) && (c <=? 57)) || ((97 <=? c) && (c <=? 102)) || ((65 <=? c) && (c <=? 70)).

Definition hex_digit_to_int (c : Z) : Z :=
  if (48 <=? c) && (c <=? 57) then c - 48
  else if (97 <=? c) && (c <=? 102) then c - 87
  else if (65 <=? c) && (c <=? 70) then c - 55
  else 0.

(** [*(p+i)], where [p] is the rest of the line. *)
Definition peek (p : list Z) (i : nat) : Z := match p !! i with Some c => c | None => 0 end.

Definition unescape (c : Z) : Z :=
  if c =? 110 then 10 else if c =? 114 then 13 else if c =? 116 then 9
  else if c =? 98 then 8 else if c =? 97 then 7 else c.

(** [while(!done)]: [Some None] is [goto err].  Every turn ends with
    [if ( *p) p++]. *)
Fixpoint token_loop (fuel : nat) (p : list Z) (inq insq : bool) (current : list Z)
  : option (option (list Z * list Z)) :=
  match fuel with
  | O => None
  | S fuel =>
      let c := peek p 0 in
      if inq then
        if (c =? 92) && (peek p 1 =? 120) && is_hex_digit (peek p 2) && is_hex_digit (peek p 3) then
          let byte := u8 (hex_digit_to_int (peek p 2) * 16 + hex_digit_to_int (peek p 3)) in
          token_loop fuel (drop 1 (drop 3 p)) inq insq (current ++ [byte])
        else if (c =? 92) && negb (peek p 1 =? 0) then
          token_loop fuel (drop 1 (drop 1 p)) inq insq (current ++ [unescape (peek p 1)])
        else if c =? 34 then
          if negb (peek p 1 =? 0) && negb (isspace (peek p 1)) then Some None
          else Some (Some (current, drop 1 p))
        else if c =? 0 then Some None
        else token_loop fuel (drop 1 p) inq insq (current ++ [c])
      else if insq then
        if (c =? 92) && (peek p 1 =? 39) then
          token_loop fuel (drop 1 (drop 1 p)) inq insq (current ++ [39])
        else if c =? 39 then
          if negb (peek p 1 =? 0) && negb (isspace (peek p 1)) then Some None
          else Some (Some (current, drop 1 p))
        else if c =? 0 then Some None
        else token_loop fuel (drop 1 p) inq insq (current ++ [c])
      else
        if (c =? 32) || (c =? 10) || (c =? 13) || (c =? 9) || (c =? 0)
        then Some (Some (current, drop 1 p))
        else if c =? 34 then token_loop fuel (drop 1 p) true insq current
        else if c =? 39 then token_loop fuel (drop 1 p) inq true current
        else token_loop fuel (drop 1 p) inq insq (current ++ [c])
  end.

Fixpoint skip_blanks (p : list Z) : list Z :=
  match p with
  | c :: p' => if negb (c =? 0) && isspace c then skip_blanks p' else p
  | [] => []
  end.

Fixpoint splitargs_loop (fuel : nat) (p : list Z) (vector : list (list Z))
  : option (option (list (list Z))) :=
  match fuel with
  | O => None
  | S fuel =>
      let p := skip_blanks p in
      if negb (peek p 0 =? 0) then
        r ← token_loop (S (length p)) p false false [];
        match r with
        | None => Some None
        | Some (current, p) => splitargs_loop fuel p (vector ++ [current])
        end
      else Some (Some vector)
  end.

(** [line] is a C string; [Some None] is the [NULL] result. *)
Definition sdssplitargs (line : list Z) : option (option (list (list Z))) :=
  splitargs_loop (S (length line)) line [].

(** ** Splitting by a separator and joining *)

(** The [for] loop of [sdssplitlen]: the tokens, the next start and the
    number of slots of the token array. *)
Fixpoint split_loop (fuel : nat) (s sep : list Z) (len seplen : Z)
  (tokens : list (list Z)) (slots start j : Z) : option (list (list Z) * Z * Z) :=
  match fuel with
  | O => None
  | S fuel =>
      if j <? len - (seplen - 1) then
        let slots := if slots <? zlen tokens + 2 then slots * 2 else slots in
        c ← mread s j 1;
        c0 ← mread sep 0 1;
        b ← mread s j seplen;
        b0 ← mread sep 0 seplen;
        if ((seplen =? 1) && bool_decide (c = c0)) || (memcmp b b0 =? 0) then
          t ← mread s start (j - start);
          if negb (zlen tokens <? slots) then None else
          split_loop fuel s sep len seplen (tokens ++ [t]) slots (j + seplen) (j + seplen - 1 + 1)
        else split_loop fuel s sep len seplen tokens slots start (j + 1)
      else Some (tokens, slots, start)
  end.

Definition sdssplitlen (s : list Z) (len : Z) (sep : list Z) (seplen : Z)
  : option (option (list (list Z))) :=
  if (seplen <? 1) || (len <? 0) then Some None else
  if len =? 0 then Some (Some []) else
  '(tokens, slots, start) ← split_loop (S (Z.to_nat len)) s sep len seplen [] 5 0 0;
  t ← mread s start (len - start);
  if negb (zlen tokens <? slots) then None else Some (Some (tokens ++ [t])).

(** [for (j = 0; j < argc; j++)], with [j] of [argc] passed. *)
Fixpoint join_loop (argv : list (list Z)) (j argc : Z) (sep join : list Z) : list Z :=
  match argv with
  | [] => join
  | a :: argv =>
      let join := join ++ a in
      join_loop argv (j + 1) argc sep (if negb (j =? argc - 1) then join ++ sep else join)
  end.

Definition sdsjoinsds (argv : list (list Z)) (sep : list Z) : list Z :=
  join_loop argv 0 (zlen argv) sep [].
Definition sdsjoin (argv : list (list Z)) (sep : list Z) : list Z :=
  join_loop (cstr <$> argv) 0 (zlen argv) (cstr sep) [].

(** ** [sdssplitargs] undoes [sdscatrepr] *)

Lemma hex_digit_ok d : 0 ≤ d < 16 →
  is_hex_digit (hex_digit d) = true ∧ hex_digit_to_int (hex_digit d) = d ∧ hex_digit d ≠ 0.
Proof.
  intros Hd. unfold hex_digit, is_hex_digit, hex_digit_to_int.
  destruct (Z.ltb_spec d 10); case_ifs.
Qed.

(** What may follow a closing quote. *)
Definition ends (r : list Z) : Prop := peek r 0 = 0 ∨ isspace (peek r 0) = true.

Lemma token_char fuel c p cur :
  byte_ok c →
  ∃ q, repr_char c ++ p = q ++ p ∧ q ≠ [] ∧
    token_loop (S fuel) (q ++ p) true false cur = token_loop fuel p true false (cur ++ [c]).
Proof.
  intros Hc. exists (repr_char c). split; [done|]. unfold byte_ok, in_u in Hc. pow2.
  unfold repr_char. cbn [token_loop].
  destruct (Z.eqb_spec c 92) as [->|N1]; [done|].
  destruct (Z.eqb_spec c 34) as [->|N2]; [done|]. cbn [orb].
  destruct (Z.eqb_spec c 10) as [->|N3]; [done|].
  destruct (Z.eqb_spec c 13) as [->|N4]; [done|].
  destruct (Z.eqb_spec c 9) as [->|N5]; [done|].
  destruct (Z.eqb_spec c 7) as [->|N6]; [done|].
  destruct (Z.eqb_spec c 8) as [->|N7]; [done|].
  destruct (isprint c) eqn:Hp.
  - split; [done|]. unfold peek. cbn [app lookup list_lookup].
    destruct (Z.eqb_spec c 92); [done|]. cbn [andb].
    destruct (Z.eqb_spec c 34); [done|].
    destruct (Z.eqb_spec c 0) as [->|]; [by vm_compute in Hp|]. done.
  - split; [done|].
    destruct (hex_digit_ok (c / 16)) as (A1 & A2 & _); [Z.div_mod_to_equations; lia|].
    destruct (hex_digit_ok (c mod 16)) as (B1 & B2 & _); [apply Z.mod_pos_bound; lia|].
    unfold peek. cbn [app lookup list_lookup drop]. rewrite A1, B1, A2, B2. cbn [andb Z.eqb Pos.eqb].
    do 3 f_equal. rewrite (Z.mul_comm (c / 16)), <- Z.div_mod by lia.
    unfold u8. rewrite wrapu_id by (unfold in_u; pow2; lia). done.
Qed.

Lemma token_quoted bs : ∀ fuel r cur,
  bytes_ok bs → ends r → (length (concat (repr_char <$> bs)) < fuel)%nat →
  token_loop fuel (concat (repr_char <$> bs) ++ 34 :: r) true false cur = Some (Some (cur ++ bs, r)).
Proof.
  induction bs as [|c bs IH]; intros fuel r cur Hb Hr Hf.
  { destruct fuel as [|fuel]; [simpl in Hf; lia|]. rewrite app_nil_r.
    cbn [concat fmap list_fmap app token_loop].
    change (peek (34 :: r) 0) with 34. change (peek (34 :: r) 1) with (peek r 0).
    change (34 =? 92) with false. change (34 =? 34) with true. cbn [andb drop].
    destruct Hr as [Hr|Hr]; rewrite Hr; [done|]. by rewrite andb_false_r. }
  apply Forall_cons in Hb as [Hc Hb]. cbn [fmap list_fmap concat] in *. rewrite <- app_assoc.
  destruct fuel as [|fuel]; [lia|].
  destruct (token_char fuel c (concat (repr_char <$> bs) ++ 34 :: r) cur Hc) as (q & E & Hq & Ht).
  apply app_inv_tail in E as <-. rewrite Ht. rewrite length_app in Hf.
  rewrite IH; [by rewrite <- app_assoc|done|done|].
  destruct (repr_char c); [done|]. simpl in Hf. lia.
Qed.

(** The quoted arguments of a line, separated by blanks. *)
Fixpoint quote_line (args : list (list Z)) : list Z :=
  match args with
  | [] => []
  | a :: args => sdscatrepr [] a ++ (match args with [] => [] | _ => [32] end) ++ quote_line args
  end.

Lemma length_quote_line args : (length args ≤ length (quote_line args))%nat.
Proof.
  induction args as [|a args IH]; [done|]. simpl. rewrite !length_app. simpl. lia.
Qed.

Lemma splitargs_loop_spec args : ∀ fuel b vec,
  Forall bytes_ok args → (b = [] ∨ b = [32]) → (length args < fuel)%nat →
  splitargs_loop fuel (b ++ quote_line args) vec = Some (Some (vec ++ args)).
Proof.
  induction args as [|a args IH]; intros fuel b vec Ha Hbl Hf; (destruct fuel as [|fuel]; [lia|]).
  { rewrite (app_nil_r vec). destruct Hbl as [->| ->]; done. }
  apply Forall_cons in Ha as [Ha Has]. cbn [quote_line length] in *. unfold sdscatrepr. cbn [app].
  set (sepr := match args with [] => [] | _ :: _ => [32] end).
  assert (skip_blanks (b ++ 34 :: (concat (repr_char <$> a) ++ [34]) ++ sepr ++ quote_line args)
    = 34 :: concat (repr_char <$> a) ++ 34 :: sepr ++ quote_line args) as E.
  { destruct Hbl as [->| ->]; simpl; by rewrite <- app_assoc. }
  cbn [splitargs_loop]. rewrite E. cbn [peek lookup list_lookup]. change (34 =? 0) with false.
  cbn [negb]. cbn [length]. rewrite length_app.
  remember (S (length (concat (repr_char <$> a)) + _)) as f1 eqn:Ef. cbn [token_loop].
  cbn [peek lookup list_lookup].
  change (34 =? 32) with false. change (34 =? 10) with false. change (34 =? 13) with false.
  change (34 =? 9) with false. change (34 =? 0) with false. change (34 =? 34) with true. cbn [orb drop].
  rewrite drop_0, token_quoted; [|done| |subst f1; lia].
  - cbn [mbind option_bind app]. rewrite IH; [by rewrite <- app_assoc|done| |lia].
    subst sepr. destruct args; auto.
  - subst sepr. destruct args; [by left|by right].
Qed.

(** [sdssplitargs] parses what [sdscatrepr] prints: a line of quoted
    arguments separated by blanks is split into exactly those arguments, for
    arbitrary byte strings (blanks, quotes, backslashes, NULs and non-ASCII
    bytes included). *)
Theorem splitargs_repr args :
  Forall bytes_ok args → sdssplitargs (quote_line args) = Some (Some args).
Proof.
  intros Ha. unfold sdssplitargs.
  apply (splitargs_loop_spec args _ [] []); [done|by left|].
  pose proof (length_quote_line args). lia.
Qed.

Lemma splitargs_repr_witness :
  sdssplitargs (quote_line [of_string "SET"; [0; 255; 34; 92; 120; 10; 32]; []]) =
    Some (Some [of_string "SET"; [0; 255; 34; 92; 120; 10; 32]; []]).
Proof.
  apply (splitargs_repr [of_string "SET"; [0; 255; 34; 92; 120; 10; 32]; []]).
  apply (bool_decide_unpack _). by vm_compute.
Defined.

(** ** [sdsjoinsds] undoes [sdssplitlen] *)

(** The tokens with the separator between them. *)
Fixpoint intercalate (sep : list Z) (ts : list (list Z)) : list Z :=
  match ts with
  | [] => []
  | [t] => t
  | t :: ts => t ++ sep ++ intercalate sep ts
  end.

Lemma join_loop_spec sep argv : ∀ j argc join,
  argc = j + zlen argv → join_loop argv j argc sep join = join ++ intercalate sep argv.
Proof.
  induction argv as [|a argv IH]; intros j argc join ->; [by rewrite app_nil_r|].
  cbn [join_loop length]. rewrite IH by lia. destruct argv as [|b argv].
  - destruct (Z.eqb_spec j (j + Z.of_nat (S (length (@nil (list Z)))) - 1)); [|simpl in *; lia].
    simpl. by rewrite app_nil_r.
  - destruct (Z.eqb_spec j (j + Z.of_nat (S (length (b :: argv))) - 1)); [simpl in *; lia|].
    cbn [negb intercalate]. by rewrite <- !app_assoc.
Qed.

Lemma memcmp_eq a : ∀ b, length a = length b → memcmp a b = 0 ↔ a = b.
Proof.
  induction a as [|x a IH]; intros [|y b] Hl; try done. simpl in *. injection Hl as Hl.
  destruct (Z.ltb_spec x y); [split; [done|]; intros [= -> ->]; lia|].
  destruct (Z.ltb_spec y x); [split; [done|]; intros [= -> ->]; lia|].
  assert (x = y) as -> by lia. rewrite IH by done. split; [by intros ->|by intros [= ->]].
Qed.

(** [sep] occurs in [s] at position [i]. *)
Definition occurs (sep s : list Z) (i : Z) : Prop :=
  0 ≤ i ∧ i + zlen sep ≤ zlen s ∧ mread s i (zlen sep) = Some sep.

Lemma mread_ok s off n : 0 ≤ off → 0 ≤ n → off + n ≤ zlen s →
  mread s off n = Some (take (Z.to_nat n) (drop (Z.to_nat off) s)).
Proof. intros. unfold mread. by rewrite decide_True. Qed.

Lemma length_mread s off n b : mread s off n = Some b → zlen b = n ∧ 0 ≤ off ∧ off + n ≤ zlen s.
Proof.
  unfold mread. case_decide; [|done]. intros [= <-]. rewrite length_take, length_drop. lia.
Qed.

Lemma mread_mread s off n b off' n' :
  mread s off n = Some b → 0 ≤ off' → 0 ≤ n' → off' + n' ≤ n → mread b off' n' = mread s (off + off') n'.
Proof.
  intros Hb H0 Hn Hle. pose proof (length_mread _ _ _ _ Hb) as (Hl & Ho & Hs).
  unfold mread in Hb. case_decide; [|done]. injection Hb as <-.
  rewrite !mread_ok by lia. f_equal. apply list_eq. intros i. destruct (decide (i < Z.to_nat n')%nat) as [Hi|Hi].
  - rewrite !lookup_take_lt, !lookup_drop by done.
    rewrite lookup_take_lt by lia. rewrite lookup_drop. f_equal. lia.
  - by rewrite !lookup_take_ge by lia.
Qed.

(** A token that holds no separator. *)
Definition sep_free (sep t : list Z) : Prop := ∀ i, ~ occurs sep t i.

(** The state of the loop: the tokens so far and the pending bytes from
    [start] on make up the string, the pending positions before [j] do not
    start a separator. *)
Record split_inv (s sep : list Z) (tokens : list (list Z)) (slots start j : Z) : Prop := {
  si_start : 0 ≤ start ≤ j;
  si_len : start ≤ zlen s;
  si_text : take (Z.to_nat start) s = concat ((λ t, t ++ sep) <$> tokens);
  si_free : Forall (sep_free sep) tokens;
  si_pending : ∀ i, start ≤ i < j → ~ occurs sep s i;
  si_slots : zlen tokens < slots ∧ 5 ≤ slots
}.

Lemma pending_free s sep start n t :
  (0 < length sep)%nat → mread s start n = Some t →
  (∀ i, start ≤ i → i + zlen sep ≤ start + n → ~ occurs sep s i) → sep_free sep t.
Proof.
  intros Hsep Ht Hp i (Hi & Hl & Ho). pose proof (length_mread _ _ _ _ Ht) as (Hlt & H0 & Hs).
  rewrite (mread_mread s start n t) in Ho by (done || lia).
  apply (Hp (start + i)); [lia|lia|]. split_and!; [lia|lia|done].
Qed.

Lemma match_occurs s sep j c c0 b :
  0 ≤ j → (0 < length sep)%nat → mread s j 1 = Some c → mread sep 0 1 = Some c0 →
  mread s j (zlen sep) = Some b →
  ((zlen sep =? 1) && bool_decide (c = c0)) || (memcmp b sep =? 0) = true ↔ occurs sep s j.
Proof.
  intros Hj Hs Hc Hc0 Hb. pose proof (length_mread _ _ _ _ Hb) as (Hl & _ & Hle).
  rewrite orb_true_iff, andb_true_iff, !Z.eqb_eq, bool_decide_eq_true, memcmp_eq by lia.
  unfold occurs. split.
  - intros [[H1 Hcc]| ->]; [|split_and!; [lia|lia|done]]. split_and!; [lia|lia|].
    rewrite H1 in *. destruct sep as [|x [|y sep]]; simpl in H1; try lia.
    assert (b = c) as -> by congruence. subst. rewrite Hb, <- Hc0. done.
  - intros (_ & _ & E). right. congruence.
Qed.

Lemma take_mread s start n t :
  mread s start n = Some t →
  take (Z.to_nat (start + n)) s = take (Z.to_nat start) s ++ t.
Proof.
  intros Ht. pose proof (length_mread _ _ _ _ Ht) as (Hl & H0 & Hs).
  unfold mread in Ht. case_decide; [|done]. injection Ht as <-.
  rewrite Z2Nat.inj_add by lia. symmetry. apply take_take_drop.
Qed.

Lemma split_loop_spec s sep fuel : ∀ tokens slots start j,
  (0 < length sep)%nat → split_inv s sep tokens slots start j → zlen s - j < Z.of_nat fuel →
  (0 < fuel)%nat →
  ∃ tokens' slots' start' j',
    split_loop fuel s sep (zlen s) (zlen sep) tokens slots start j = Some (tokens', slots', start') ∧
    split_inv s sep tokens' slots' start' j' ∧ zlen s - (zlen sep - 1) ≤ j'.
Proof.
  induction fuel as [|fuel IH]; intros tokens slots start j Hsep Hi Hf Hpos; [lia|].
  pose proof Hi as [H1 H2 H3 H4 H5 [H6 H7]]. cbn [split_loop].
  destruct (Z.ltb_spec j (zlen s - (zlen sep - 1))) as [Hj|Hj]; [|by exists tokens, slots, start, j].
  set (sl := if slots <? zlen tokens + 2 then slots * 2 else slots).
  assert (zlen tokens + 1 < sl ∧ 5 ≤ sl) as [Hsl Hsl5].
  { subst sl. destruct (Z.ltb_spec slots (zlen tokens + 2)); lia. }
  assert (∃ c, mread s j 1 = Some c) as [c Hc] by (rewrite mread_ok by lia; eauto).
  assert (∃ c0, mread sep 0 1 = Some c0) as [c0 Hc0] by (rewrite mread_ok by lia; eauto).
  assert (∃ b, mread s j (zlen sep) = Some b) as [b Hb] by (rewrite mread_ok by lia; eauto).
  assert (mread sep 0 (zlen sep) = Some sep) as Hb0.
  { rewrite mread_ok by lia. rewrite drop_0, Nat2Z.id, firstn_all. done. }
  rewrite Hc, Hc0, Hb, Hb0. cbn [mbind option_bind].
  pose proof (match_occurs s sep j c c0 b ltac:(lia) Hsep Hc Hc0 Hb) as Hm.
  destruct (((zlen sep =? 1) && bool_decide (c = c0)) || (memcmp b sep =? 0)).
  - assert (occurs sep s j) as Ho by tauto. destruct Ho as (_ & Hol & Hor).
    assert (∃ t, mread s start (j - start) = Some t) as [t Ht] by (rewrite mread_ok by lia; eauto).
    rewrite Ht. cbn [mbind option_bind].
    destruct (Z.ltb_spec (zlen tokens) sl); [|lia]. cbn [negb].
    apply IH; [done| |lia|lia]. split; try lia.
    + rewrite fmap_app, concat_app. cbn [fmap list_fmap concat]. rewrite app_nil_r, <- H3.
      rewrite (take_mread s j (zlen sep) sep Hor).
      replace j with (start + (j - start)) at 1 by lia. rewrite (take_mread s start _ t Ht).
      by rewrite <- app_assoc.
    + apply Forall_app. split; [done|]. constructor; [|done].
      apply (pending_free s sep start (j - start) t Hsep Ht). intros i Hi1 Hi2. apply H5. lia.
    + rewrite length_app. simpl. lia.
  - apply IH; [done| |lia|lia]. split; try done; try lia.
    intros i Hi1. destruct (Z.eq_dec i j) as [->|]; [|apply H5; lia].
    intros Ho. apply Hm in Ho. discriminate.
Qed.

Lemma intercalate_snoc sep ts t :
  intercalate sep (ts ++ [t]) = concat ((λ t, t ++ sep) <$> ts) ++ t.
Proof.
  induction ts as [|a ts IH]; [done|]. cbn [app fmap list_fmap concat].
  rewrite <- app_assoc, <- app_assoc, <- IH. destruct ts; done.
Qed.

(** Splitting a non-empty string by a non-empty separator reads nothing
    outside the two strings and the token array, gives tokens that hold no
    separator, and joining them with the separator gives the string back. *)
Theorem split_join s sep :
  s ≠ [] → sep ≠ [] →
  ∃ tokens, sdssplitlen s (zlen s) sep (zlen sep) = Some (Some tokens) ∧
    sdsjoinsds tokens sep = s ∧ Forall (sep_free sep) tokens.
Proof.
  intros Hs Hsep. assert (0 < length s)%nat by (by destruct s; simpl; [done|lia]).
  assert (0 < length sep)%nat by (by destruct sep; simpl; [done|lia]).
  unfold sdssplitlen. destruct (Z.ltb_spec (zlen sep) 1); [lia|].
  destruct (Z.ltb_spec (zlen s) 0); [lia|]. cbn [orb]. destruct (Z.eqb_spec (zlen s) 0); [lia|].
  destruct (split_loop_spec s sep (S (Z.to_nat (zlen s))) [] 5 0 0)
    as (tokens & slots & start & j & -> & [I1 I2 I3 I4 I5 [I6 _]] & Hj); [done| |lia|lia|].
  { split; try done; try lia. }
  cbn [mbind option_bind].
  assert (∃ t, mread s start (zlen s - start) = Some t) as [t Ht] by (rewrite mread_ok by lia; eauto).
  rewrite Ht. cbn [mbind option_bind]. destruct (Z.ltb_spec (zlen tokens) slots); [|lia]. cbn [negb].
  exists (tokens ++ [t]). split_and!; [done| |].
  - unfold sdsjoinsds. rewrite join_loop_spec by lia. simpl app.
    rewrite intercalate_snoc, <- I3, <- (take_mread s start _ t Ht).
    replace (start + (zlen s - start)) with (zlen s) by lia. rewrite Nat2Z.id. apply firstn_all.
  - apply Forall_app. split; [done|]. constructor; [|done].
    apply (pending_free s sep start (zlen s - start) t); [lia|done|].
    intros i Hi1 Hi2 Ho. destruct (Z.lt_ge_cases i j); [by apply (I5 i)|].
    destruct Ho as (_ & Hle & _). lia.
Qed.

Lemma split_join_witness :
  ∃ tokens, sdssplitlen (of_string "foo_-_bar_-__-_") 15 (of_string "_-_") 3 = Some (Some tokens) ∧
    sdsjoinsds tokens (of_string "_-_") = of_string "foo_-_bar_-__-_" ∧
    Forall (sep_free (of_string "_-_")) tokens.
Proof.
  apply (split_join (of_string "foo_-_bar_-__-_") (of_string "_-_")); done.
Defined.
