(* ===== verification/Lzf.v ===== *)
(** * LZF compression ([redis-3.2/src/lzf_c.c] and [lzf_d.c])

    The compressor of RDB strings and quicklist nodes.  Buffers are lists of
    bytes, [ip], [op] and [ref] are indexes, [None] is an access outside a
    buffer and [Some None] the result 0 (the data does not fit, or the input
    is malformed).  The configuration is the one of [lzfP.h] on a 64-bit
    host: offsets in the hash table, [VERY_FAST], no initialisation of the
    table ([INIT_HTAB] 0) and [CHECK_INPUT].  The uninitialised table is the
    arbitrary function [htab0]. *)

From S2P Require Import Prelude.

Definition HLOG : Z := 16.
Definition HSIZE : Z := Z.shiftl 1 HLOG.
Definition MAX_LIT : Z := 2 ^ 5.
Definition MAX_OFF : Z := 2 ^ 13.
Definition MAX_REF : Z := 2 ^ 8 + 2 ^ 3.

Definition put (m : list Z) (i c : Z) : option (list Z) := mwrite m i [u8 c].

(** ** Decompression *)

(** [*op++ = *ref++], [n] times; [acc] is what was written so far. *)
Fixpoint copy_bytes (n : nat) (acc : list Z) (ref : Z) : option (list Z) :=
  match n with
  | O => Some acc
  | S n => c ← get acc ref; copy_bytes n (acc ++ [c]) (ref + 1)
  end.

(** The copy of a back reference: [memcpy] for long disjoint areas. *)
Definition copy_ref (acc : list Z) (ref len : Z) : option (list Z) :=
  if (len >? 9) && (zlen acc >=? ref + (len + 2)) then
    b ← mread acc ref (len + 2); Some (acc ++ b)
  else copy_bytes (Z.to_nat (len + 2)) acc ref.

(** The body of the [do] loop; [Some None] is [return 0]. *)
Definition decompress_step (inp : list Z) (ip : Z) (acc : list Z) (out_len : Z)
  : option (option (Z * list Z)) :=
  let in_end := zlen inp in
  let op := zlen acc in
  ctrl ← get inp ip;
  let ip := ip + 1 in
  if ctrl <? 2 ^ 5 then
    let ctrl := ctrl + 1 in
    if op + ctrl >? out_len then Some None
    else if ip + ctrl >? in_end then Some None
    else b ← mread inp ip ctrl; Some (Some (ip + ctrl, acc ++ b))
  else
    let len := Z.shiftr ctrl 5 in
    let ref := op - Z.shiftl (Z.land ctrl 0x1f) 8 - 1 in
    if ip >=? in_end then Some None else
    r ← (if len =? 7 then
           c ← get inp ip;
           if ip + 1 >=? in_end then Some None else Some (Some (len + c, ip + 1))
         else Some (Some (len, ip)));
    match r with
    | None => Some None
    | Some (len, ip) =>
        c ← get inp ip;
        let ref := ref - c in
        let ip := ip + 1 in
        if op + len + 2 >? out_len then Some None
        else if ref <? 0 then Some None
        else acc ← copy_ref acc ref len; Some (Some (ip, acc))
    end.

Fixpoint decompress_loop (fuel : nat) (inp : list Z) (ip : Z) (acc : list Z) (out_len : Z)
  : option (option (list Z)) :=
  match fuel with
  | O => None
  | S fuel =>
      r ← decompress_step inp ip acc out_len;
      match r with
      | None => Some None
      | Some (ip, acc) =>
          if ip <? zlen inp then decompress_loop fuel inp ip acc out_len else Some (Some acc)
      end
  end.

Definition lzf_decompress (inp : list Z) (out_len : Z) : option (option (list Z)) :=
  decompress_loop (S (length inp)) inp 0 [] out_len.

(** ** Compression *)

Definition FRST (inp : list Z) (p : Z) : option Z :=
  a ← get inp p; b ← get inp (p + 1); Some (Z.lor (Z.shiftl a 8) b).
Definition NEXT (inp : list Z) (v p : Z) : option Z :=
  c ← get inp (p + 2); Some (u32 (Z.lor (Z.shiftl v 8) c)).
Definition IDX (h : Z) : Z :=
  Z.land (u32 (Z.shiftr h (3 * 8 - HLOG) - u32 (h * 5))) (HSIZE - 1).

Record cstate := mk_cstate {
  ip : Z; op : Z; lit : Z; hval : Z;
  htab : gmap Z Z;
  out : list Z
}.

Section compress.
Context (htab0 : Z → Z) (inp : list Z).

(** A slot of the table is an [unsigned int]. *)
Definition hget (h : gmap Z Z) (i : Z) : Z :=
  u32 (match h !! i with Some p => p | None => htab0 i end).

(** The sixteen unrolled comparisons; [true]: a mismatch at [len]. *)
Fixpoint unrolled (k : nat) (ref ip len : Z) : option (Z * bool) :=
  match k with
  | O => Some (len, false)
  | S k =>
      let len := len + 1 in
      a ← get inp (ref + len); b ← get inp (ip + len);
      if negb (a =? b) then Some (len, true) else unrolled k ref ip len
  end.

(** [do len++; while (len < maxlen && ref[len] == ip[len])]. *)
Fixpoint extend (fuel : nat) (ref ip len maxlen : Z) : option Z :=
  match fuel with
  | O => None
  | S fuel =>
      let len := len + 1 in
      if len <? maxlen then
        a ← get inp (ref + len); b ← get inp (ip + len);
        if a =? b then extend fuel ref ip len maxlen else Some len
      else Some len
  end.

Definition match_len (ref ip : Z) : option Z :=
  let len := 2 in
  let maxlen := u32 (zlen inp - ip - len) in
  let maxlen := if maxlen >? MAX_REF then MAX_REF else maxlen in
  '(len, stop) ← (if maxlen >? 16 then unrolled 16 ref ip len else Some (len, false));
  if stop : bool then Some len else extend (S (Z.to_nat maxlen)) ref ip len maxlen.

(** The test for a usable match at [ref]. *)
Definition usable (ref ip : Z) : option bool :=
  let off := u64 (ip - ref - 1) in
  if negb (off <? MAX_OFF) then Some false
  else if negb (ref >? 0) then Some false
  else
    a2 ← get inp (ref + 2); b2 ← get inp (ip + 2);
    if negb (a2 =? b2) then Some false else
    a ← mread inp ref 2; b ← mread inp ip 2;
    Some (le_val a =? le_val b).

(** The two or three bytes of a back reference. *)
Definition put_ref (o : list Z) (op off len : Z) : option (list Z * Z) :=
  '(o, op) ← (if len <? 7 then
                o ← put o op (Z.shiftr off 8 + Z.shiftl len 5); Some (o, op + 1)
              else
                o ← put o op (Z.shiftr off 8 + Z.shiftl 7 5);
                o ← put o (op + 1) (len - 7); Some (o, op + 1 + 1));
  o ← put o op off; Some (o, op + 1).

(** The code for a match at [ref]; [inl] is [return 0], and the [bool] is
    [true] when the loop is left. *)
Definition emit_match (s : cstate) (ref out_len : Z) : option (unit + cstate * bool) :=
  let notlit := if lit s =? 0 then 1 else 0 in
  let off := u64 (ip s - ref - 1) in
  if (op s + 3 + 1 >=? out_len) && (op s - notlit + 3 + 1 >=? out_len) then Some (inl tt) else
  o ← put (out s) (op s - lit s - 1) (lit s - 1);
  let op := op s - notlit in
  len ← match_len ref (ip s);
  let len := len - 2 in
  let ip := ip s + 1 in
  '(o, op) ← put_ref o op off len;
  let op := op + 1 in
  let ip := ip + (len + 1) in
  if ip >=? zlen inp - 2 then Some (inr (mk_cstate ip op 0 (hval s) (htab s) o, true)) else
  let ip := ip - 1 - 1 in
  h ← FRST inp ip;
  h ← NEXT inp h ip;
  let ht := <[IDX h := ip]> (htab s) in
  let ip := ip + 1 in
  h ← NEXT inp h ip;
  let ht := <[IDX h := ip]> ht in
  let ip := ip + 1 in
  Some (inr (mk_cstate ip op 0 h ht o, false)).

(** [lit++; *op++ = *ip++] and the end of a full run. *)
Definition emit_lit (s : cstate) : option cstate :=
  let lit := lit s + 1 in
  c ← get inp (ip s);
  o ← put (out s) (op s) c;
  let op := op s + 1 in
  let ip := ip s + 1 in
  if lit =? MAX_LIT then
    o ← put o (op - lit - 1) (lit - 1);
    Some (mk_cstate ip (op + 1) 0 (hval s) (htab s) o)
  else Some (mk_cstate ip op lit (hval s) (htab s) o).

(** [while (ip < in_end - 2)]. *)
Fixpoint compress_loop (fuel : nat) (s : cstate) (out_len : Z) : option (unit + cstate) :=
  match fuel with
  | O => None
  | S fuel =>
      if ip s <? zlen inp - 2 then
        h ← NEXT inp (hval s) (ip s);
        let ref := hget (htab s) (IDX h) in
        let s := mk_cstate (ip s) (op s) (lit s) h (<[IDX h := ip s]> (htab s)) (out s) in
        good ← usable ref (ip s);
        if good : bool then
          r ← emit_match s ref out_len;
          match r with
          | inl _ => Some (inl tt)
          | inr (s, true) => Some (inr s)
          | inr (s, false) => compress_loop fuel s out_len
          end
        else if op s >=? out_len then Some (inl tt)
        else s ← emit_lit s; compress_loop fuel s out_len
      else Some (inr s)
  end.

(** [while (ip < in_end)]. *)
Fixpoint tail_loop (fuel : nat) (s : cstate) : option cstate :=
  match fuel with
  | O => None
  | S fuel => if ip s <? zlen inp then s ← emit_lit s; tail_loop fuel s else Some s
  end.

(** [out0] is the output buffer of [out_len] bytes. *)
Definition lzf_compress (out0 : list Z) : option (option (list Z)) :=
  let out_len := zlen out0 in
  if (zlen inp =? 0) || (out_len =? 0) then Some None else
  hval ← FRST inp 0;
  r ← compress_loop (S (length inp)) (mk_cstate 0 1 0 hval ∅ out0) out_len;
  match r with
  | inl _ => Some None
  | inr s =>
      if op s + 3 >? out_len then Some None else
      s ← tail_loop (S (length inp)) s;
      o ← put (out s) (op s - lit s - 1) (lit s - 1);
      let op := op s - (if lit s =? 0 then 1 else 0) in
      b ← mread o 0 op; Some (Some b)
  end.
End compress.

Example lzf_run :
  let text := of_string "aaaaaaaaaaaaaaaaaaaaaaaaabcabcabcabcabcabcabcabc" in
  match lzf_compress (λ i, 7 * i) text (replicate 44 170) with
  | Some (Some c) => (zlen c, lzf_decompress c (zlen text)) = (15, Some (Some text))
  | _ => False
  end.
Proof. by vm_compute. Qed.

(** ** The format

    [item d e d']: the code [e] is a literal run or a back reference, and
    takes the decoded text from [d] to [d'].  [stream e d]: the codes [e]
    decode to [d]. *)
Definition enc_ref (off len : Z) : list Z :=
  if decide (len < 9) then [off / 256 + (len - 2) * 32; off mod 256]
  else [off / 256 + 224; len - 9; off mod 256].

Inductive item (d : list Z) : list Z → list Z → Prop :=
| item_lit bs : 1 ≤ zlen bs ≤ MAX_LIT → item d (zlen bs - 1 :: bs) (d ++ bs)
| item_ref off len d' :
    0 ≤ off < MAX_OFF → off < zlen d → 3 ≤ len ≤ MAX_REF →
    copy_bytes (Z.to_nat len) d (zlen d - off - 1) = Some d' →
    item d (enc_ref off len) d'.

Inductive stream : list Z → list Z → Prop :=
| stream_nil : stream [] []
| stream_snoc e d it d' : stream e d → item d it d' → stream (e ++ it) d'.

Lemma get_split m i c :
  get m i = Some c → ∃ a b, m = a ++ c :: b ∧ zlen a = i ∧ a = take (Z.to_nat i) m.
Proof.
  unfold get. case_decide; [|done]. intros E.
  exists (take (Z.to_nat i) m), (drop (S (Z.to_nat i)) m). pose proof (lookup_lt_Some _ _ _ E).
  split; [by rewrite take_drop_middle|]. split; [|done]. rewrite length_take. lia.
Qed.

Lemma get_byte m i c : bytes_ok m → get m i = Some c → 0 ≤ c < 256.
Proof.
  intros Hm. unfold get. case_decide; [|done]. intros E.
  pose proof (Forall_lookup_1 _ _ _ _ Hm E). done.
Qed.

Lemma copy_bytes_total n : ∀ acc ref,
  0 ≤ ref < zlen acc →
  ∃ b, copy_bytes n acc ref = Some (acc ++ b) ∧ length b = n.
Proof.
  induction n as [|n IH]; intros acc ref Hr.
  { exists []. by rewrite app_nil_r. }
  destruct (get_is_some acc ref) as [c Ec]; [lia|]. cbn [copy_bytes]. rewrite Ec.
  cbn [mbind option_bind].
  destruct (IH (acc ++ [c]) (ref + 1)) as (b & -> & Hb); [rewrite length_app; simpl; lia|].
  exists (c :: b). split; [by rewrite <- app_assoc|simpl; lia].
Qed.

(** A back reference that does not overlap its copy is a block copy ... *)
Lemma copy_bytes_block n : ∀ acc ref,
  0 ≤ ref → ref + Z.of_nat n ≤ zlen acc →
  copy_bytes n acc ref = Some (acc ++ take n (drop (Z.to_nat ref) acc)).
Proof.
  induction n as [|n IH]; intros acc ref Hr Hn.
  { cbn [copy_bytes]. by rewrite take_0, app_nil_r. }
  destruct (get_is_some acc ref) as [c Ec]; [lia|]. cbn [copy_bytes]. rewrite Ec.
  cbn [mbind option_bind]. rewrite IH by (rewrite ?length_app; simpl; lia).
  rewrite get_nth in Ec by lia.
  rewrite (drop_S _ _ _ Ec), firstn_cons, <- app_assoc, drop_app_le by lia.
  rewrite take_app_le by (rewrite length_drop; lia).
  by replace (Z.to_nat (ref + 1)) with (S (Z.to_nat ref)) by lia.
Qed.

(** ... so the [memcpy] of the decoder computes the same text. *)
Lemma copy_ref_bytes acc ref len :
  0 ≤ ref → 0 ≤ len → copy_ref acc ref len = copy_bytes (Z.to_nat (len + 2)) acc ref.
Proof.
  intros Hr Hl. unfold copy_ref. rewrite Z.gtb_ltb, Z.geb_leb.
  destruct (Z.ltb_spec 9 len), (Z.leb_spec (ref + (len + 2)) (zlen acc)); cbn [andb]; try done.
  unfold mread. rewrite decide_True by lia. cbn [mbind option_bind].
  symmetry. apply copy_bytes_block; lia.
Qed.

Lemma item_length d it d' : item d it d' → zlen d < zlen d' ∧ 1 ≤ zlen it.
Proof.
  destruct 1 as [bs H|off len d' Ho Hd Hl E].
  - rewrite length_app. simpl. lia.
  - destruct (copy_bytes_total (Z.to_nat len) d (zlen d - off - 1)) as (b & E' & Hb); [lia|].
    rewrite E in E'. simplify_eq. rewrite length_app. unfold enc_ref. case_decide; simpl; lia.
Qed.

Lemma stream_nil_inv d : stream [] d → d = [].
Proof.
  inversion 1 as [|e d0 it d' _ Hi E]; [done|].
  destruct (item_length _ _ _ Hi). apply app_eq_nil in E as [_ ->]. simpl in *. lia.
Qed.

Lemma ctrl_bits c :
  Z.shiftr c 5 = c / 32 ∧ Z.shiftl (Z.land c 0x1f) 8 = c mod 32 * 256.
Proof.
  rewrite Z.shiftr_div_pow2, Z.shiftl_mul_pow2 by lia.
  change 0x1f with (Z.ones 5). by rewrite Z.land_ones by lia.
Qed.

(** The decoder reads back every item ... *)
Lemma step_lit_complete e bs suf d n :
  1 ≤ zlen bs ≤ MAX_LIT → zlen d + zlen bs ≤ n →
  decompress_step (e ++ (zlen bs - 1 :: bs) ++ suf) (zlen e) d n
  = Some (Some (zlen e + (1 + zlen bs), d ++ bs)).
Proof.
  unfold MAX_LIT. intros Hb Hn. unfold decompress_step.
  rewrite <- app_comm_cons, (get_app e _ _ (zlen e)) by done. cbn [mbind option_bind]. pow2.
  rewrite (proj2 (Z.ltb_lt _ _)) by lia. rewrite !Z.gtb_ltb.
  rewrite (proj2 (Z.ltb_ge _ _)) by lia.
  rewrite (proj2 (Z.ltb_ge _ _)) by (rewrite !length_app; simpl; rewrite length_app; lia).
  replace (e ++ zlen bs - 1 :: bs ++ suf) with ((e ++ [zlen bs - 1]) ++ bs ++ suf)
    by by rewrite <- app_assoc.
  rewrite mread_app by (rewrite ?length_app; simpl; lia). cbn [mbind option_bind].
  do 3 f_equal. lia.
Qed.

Lemma step_ref_complete e off len suf d d' n :
  0 ≤ off < MAX_OFF → off < zlen d → 3 ≤ len ≤ MAX_REF →
  copy_bytes (Z.to_nat len) d (zlen d - off - 1) = Some d' → zlen d + len ≤ n →
  decompress_step (e ++ enc_ref off len ++ suf) (zlen e) d n
  = Some (Some (zlen e + zlen (enc_ref off len), d')).
Proof.
  unfold MAX_OFF, MAX_REF. intros Ho Hd Hl Hc Hn. pow2.
  set (ctrl := off / 256 + (if decide (len < 9) then (len - 2) * 32 else 224)).
  assert (Hct : 32 ≤ ctrl ∧ ctrl / 32 = (if decide (len < 9) then len - 2 else 7) ∧
          ctrl mod 32 * 256 + off mod 256 = off)
    by (subst ctrl; case_decide; Z.div_mod_to_equations; lia).
  destruct Hct as (H32 & Hdiv & Hoff).
  unfold decompress_step.
  assert (Hg : ∃ l, enc_ref off len = ctrl :: l ++ [off mod 256] ∧
                    l = if decide (len < 9) then [] else [len - 9]).
  { unfold enc_ref, ctrl. eexists. split; [|done]. by case_decide. }
  destruct Hg as (l & -> & Hl').
  rewrite <- app_comm_cons, (get_app e _ _ (zlen e)) by done. cbn [mbind option_bind]. pow2.
  rewrite (proj2 (Z.ltb_ge ctrl 32)) by lia.
  destruct (ctrl_bits ctrl) as [-> ->]. rewrite Hdiv, Z.geb_leb.
  assert (Hlen : zlen (e ++ ctrl :: (l ++ [off mod 256]) ++ suf)
                 = zlen e + 2 + zlen l + zlen suf)
    by (rewrite length_app; simpl; rewrite !length_app; simpl; lia).
  rewrite !Hlen, (proj2 (Z.leb_gt _ _)) by lia.
  assert (Hlast : ∀ i, i = zlen e + 1 + zlen l →
    get (e ++ ctrl :: (l ++ [off mod 256]) ++ suf) i = Some (off mod 256)).
  { intros i ->. rewrite <- app_assoc, app_comm_cons, app_assoc. apply get_app.
    rewrite length_app. simpl. lia. }
  replace (zlen (ctrl :: l ++ [off mod 256])) with (2 + zlen l)
    by (simpl; rewrite length_app; simpl; lia).
  assert (Hcopy : ∀ k, k = len - 2 →
    copy_ref d (zlen d - ctrl mod 32 * 256 - 1 - off mod 256) k = Some d').
  { intros k ->. rewrite copy_ref_bytes by lia. rewrite <- Hc. f_equal; lia. }
  case_decide; subst l; simpl zlen in *.
  - rewrite (proj2 (Z.eqb_neq _ _)) by lia. cbn [mbind option_bind].
    rewrite Hlast by (simpl; lia). cbn [mbind option_bind].
    rewrite Z.gtb_ltb, (proj2 (Z.ltb_ge _ _)), (proj2 (Z.ltb_ge _ _)), Hcopy by lia.
    cbn [mbind option_bind]. do 3 f_equal. lia.
  - rewrite Z.eqb_refl.
    assert (get (e ++ ctrl :: ([len - 9] ++ [off mod 256]) ++ suf) (zlen e + 1)
            = Some (len - 9)) as ->.
    { change (e ++ ctrl :: ([len - 9] ++ [off mod 256]) ++ suf)
        with (e ++ [ctrl] ++ (len - 9) :: ([off mod 256] ++ suf)).
      rewrite app_assoc. apply get_app. rewrite length_app. simpl. lia. }
    cbn [mbind option_bind]. rewrite Z.geb_leb, (proj2 (Z.leb_gt _ _)) by lia.
    cbn [mbind option_bind].
    rewrite Hlast by (simpl; lia). cbn [mbind option_bind].
    rewrite Z.gtb_ltb, (proj2 (Z.ltb_ge _ _)), (proj2 (Z.ltb_ge _ _)), Hcopy by lia.
    cbn [mbind option_bind]. do 3 f_equal. lia.
Qed.

Lemma step_complete e it suf d d' n :
  item d it d' → zlen d' ≤ n →
  decompress_step (e ++ it ++ suf) (zlen e) d n = Some (Some (zlen e + zlen it, d')).
Proof.
  destruct 1 as [bs H|off len d' Ho Hd Hl E]; intros Hn.
  - rewrite length_app in Hn. rewrite step_lit_complete by lia. simpl. do 3 f_equal. lia.
  - destruct (copy_bytes_total (Z.to_nat len) d (zlen d - off - 1)) as (b & E' & Hb); [lia|].
    rewrite E in E'. simplify_eq. rewrite length_app in Hn.
    apply step_ref_complete; try done. lia.
Qed.

(** ... and what it accepts is an item. *)
Lemma take_get m i c : get m i = Some c → take (Z.to_nat (i + 1)) m = take (Z.to_nat i) m ++ [c].
Proof.
  unfold get. case_decide; [|done]. intros E.
  replace (Z.to_nat (i + 1)) with (S (Z.to_nat i)) by lia. by apply take_S_r.
Qed.

Lemma take_block m i k b :
  mread m i k = Some b →
  take (Z.to_nat (i + k)) m = take (Z.to_nat i) m ++ b ∧ zlen b = k.
Proof.
  unfold mread. case_decide; [|done]. intros [= <-].
  rewrite Z2Nat.inj_add, take_take_drop by lia. split; [done|].
  rewrite length_take, length_drop. lia.
Qed.

Lemma copy_item d k hi lo l :
  l = (if decide (k < 7) then [] else [k - 7]) →
  1 ≤ k ≤ 262 → 0 ≤ hi < 32 → 0 ≤ lo < 256 → 0 ≤ zlen d - hi * 256 - 1 - lo →
  ∃ d', copy_ref d (zlen d - hi * 256 - 1 - lo) k = Some d' ∧ zlen d' = zlen d + k + 2 ∧
        item d ((hi + (if decide (k < 7) then k * 32 else 224)) :: l ++ [lo]) d'.
Proof.
  intros -> Hk Hh Hlo Hr. rewrite copy_ref_bytes by lia.
  destruct (copy_bytes_total (Z.to_nat (k + 2)) d (zlen d - hi * 256 - 1 - lo))
    as (b & E & Hb); [lia|].
  exists (d ++ b). split; [done|]. split; [rewrite length_app; lia|].
  replace (_ :: _ ++ [lo]) with (enc_ref (hi * 256 + lo) (k + 2)).
  { apply item_ref; unfold MAX_OFF, MAX_REF; pow2; [lia..|]. rewrite <- E. f_equal; lia. }
  unfold enc_ref. assert ((hi * 256 + lo) / 256 = hi ∧ (hi * 256 + lo) mod 256 = lo) as [-> ->]
    by (Z.div_mod_to_equations; lia).
  repeat case_decide; try lia; simpl; f_equal; try lia; f_equal; lia.
Qed.

Definition step_post (inp : list Z) (ip : Z) (d : list Z) (n : Z) (r : option (Z * list Z)) :=
  match r with
  | None => True
  | Some (ip', d') =>
      zlen d' ≤ n ∧ ip < ip' ≤ zlen inp ∧
      ∃ it, item d it d' ∧ take (Z.to_nat ip') inp = take (Z.to_nat ip) inp ++ it
  end.

Lemma step_ref_sound inp ip ctrl l k i d n :
  bytes_ok inp → l = (if decide (k < 7) then [] else [k - 7]) → 1 ≤ k ≤ 262 →
  ctrl / 32 = (if decide (k < 7) then k else 7) → ip < i < zlen inp → 0 ≤ i →
  take (Z.to_nat i) inp = take (Z.to_nat ip) inp ++ ctrl :: l →
  ∃ r, (c ← get inp i;
        if zlen d + k + 2 >? n then Some None
        else if zlen d - ctrl mod 32 * 256 - 1 - c <? 0 then Some None
        else acc ← copy_ref d (zlen d - ctrl mod 32 * 256 - 1 - c) k; Some (Some (i + 1, acc)))
       = Some r ∧ step_post inp ip d n r.
Proof.
  intros Hin Hl Hk Hdiv Hi Hi0 Ti.
  destruct (get_is_some inp i) as [c Ec']; [lia|]. rewrite Ec'. cbn [mbind option_bind].
  pose proof (get_byte _ _ _ Hin Ec') as Hc'. pose proof (take_get _ _ _ Ec') as Tc'.
  rewrite Z.gtb_ltb. destruct (Z.ltb_spec n (zlen d + k + 2)); [by exists None|].
  destruct (Z.ltb_spec (zlen d - ctrl mod 32 * 256 - 1 - c) 0); [by exists None|].
  destruct (copy_item d k (ctrl mod 32) c l) as (d' & -> & Hd' & Hitem); try done.
  { apply Z.mod_pos_bound. lia. }
  cbn [mbind option_bind]. eexists. split; [done|]. cbn. split; [lia|]. split; [lia|].
  eexists. split; [done|]. rewrite Tc', Ti, <- app_assoc. simpl. do 2 f_equal.
  case_decide; Z.div_mod_to_equations; lia.
Qed.

Lemma step_sound inp ip d n :
  bytes_ok inp → 0 ≤ ip < zlen inp →
  ∃ r, decompress_step inp ip d n = Some r ∧ step_post inp ip d n r.
Proof.
  intros Hin Hip. unfold decompress_step.
  destruct (get_is_some inp ip) as [ctrl Ec]; [lia|]. rewrite Ec. cbn [mbind option_bind].
  pose proof (get_byte _ _ _ Hin Ec) as Hc. pose proof (take_get _ _ _ Ec) as Tc. pow2.
  destruct (Z.ltb_spec ctrl 32).
  - rewrite !Z.gtb_ltb. destruct (Z.ltb_spec n (zlen d + (ctrl + 1))); [by exists None|].
    destruct (Z.ltb_spec (zlen inp) (ip + 1 + (ctrl + 1))); [by exists None|].
    destruct (mread inp (ip + 1) (ctrl + 1)) as [b|] eqn:Eb; cycle 1.
    { unfold mread in Eb. case_decide; [done|lia]. }
    destruct (take_block _ _ _ _ Eb) as [Tb Lb]. cbn [mbind option_bind].
    eexists. split; [done|]. cbn. rewrite length_app. split; [lia|]. split; [lia|].
    exists (zlen b - 1 :: b). split; [constructor; unfold MAX_LIT; pow2; lia|].
    rewrite Tb, Tc, <- app_assoc. simpl. do 2 f_equal. lia.
  - destruct (ctrl_bits ctrl) as [-> ->]. rewrite Z.geb_leb.
    destruct (Z.leb_spec (zlen inp) (ip + 1)); [by exists None|].
    destruct (Z.eqb_spec (ctrl / 32) 7) as [H7|H7].
    + destruct (get_is_some inp (ip + 1)) as [c Ec1]; [lia|]. rewrite Ec1. cbn [mbind option_bind].
      pose proof (get_byte _ _ _ Hin Ec1) as Hc1.
      rewrite Z.geb_leb. destruct (Z.leb_spec (zlen inp) (ip + 1 + 1)); [by exists None|].
      cbn [mbind option_bind]. apply (step_ref_sound _ _ _ [c]); try done; try lia.
      * case_decide; [lia|]. f_equal. lia.
      * case_decide; lia.
      * by rewrite (take_get _ _ _ Ec1), Tc, <- app_assoc.
    + cbn [mbind option_bind]. apply (step_ref_sound _ _ _ []); try done; try lia.
      * case_decide; [done|]. Z.div_mod_to_equations; lia.
      * Z.div_mod_to_equations; lia.
      * case_decide; [done|]. Z.div_mod_to_equations; lia.
Qed.

(** Every stream is decoded ... *)
Lemma decompress_prefix e d n suf :
  stream e d → zlen d ≤ n → suf ≠ [] →
  ∀ fuel, (length (e ++ suf) < fuel)%nat →
  ∃ fuel', decompress_loop fuel (e ++ suf) 0 [] n = decompress_loop fuel' (e ++ suf) (zlen e) d n ∧
           (length suf < fuel')%nat.
Proof.
  intros H. revert suf. induction H as [|e d it d' H IH Hi]; intros suf Hn Hs fuel Hf.
  { exists fuel. by split. }
  destruct (item_length _ _ _ Hi) as [Hd Hit].
  rewrite <- app_assoc in *. destruct (IH (it ++ suf) ltac:(lia)) with (fuel := fuel)
    as (f & E & Hf'); [by destruct it, suf|done|].
  rewrite length_app in Hf'. destruct f as [|f]; [lia|].
  rewrite E. cbn [decompress_loop]. rewrite (step_complete _ _ _ _ _ _ Hi) by lia.
  cbn [mbind option_bind]. rewrite (proj2 (Z.ltb_lt _ _)).
  - exists f. split; [f_equal; rewrite length_app; lia|lia].
  - rewrite !length_app. destruct suf; [done|]. simpl. lia.
Qed.

(** ... and the loop always ends, with a stream when it accepts. *)
Lemma decompress_loop_sound fuel inp ip d n :
  bytes_ok inp → 0 ≤ ip < zlen inp → zlen inp - ip < Z.of_nat fuel →
  stream (take (Z.to_nat ip) inp) d →
  ∃ r, decompress_loop fuel inp ip d n = Some r ∧
       ∀ d', r = Some d' → stream inp d' ∧ zlen d' ≤ n.
Proof.
  intros Hin. revert ip d. induction fuel as [|fuel IH]; intros ip d Hip Hf Hs; [lia|].
  cbn [decompress_loop]. destruct (step_sound inp ip d n) as (r & -> & Hr); [done..|].
  cbn [mbind option_bind]. destruct r as [[ip' d']|]; [|by exists None].
  destruct Hr as (Hn & Hip' & it & Hit & Ht).
  pose proof (stream_snoc _ _ _ _ Hs Hit) as Hs'. rewrite <- Ht in Hs'.
  destruct (Z.ltb_spec ip' (zlen inp)); [apply IH; [lia..|done]|].
  exists (Some d'). split; [done|]. intros ? [= <-]. rewrite take_ge in Hs' by lia. done.
Qed.

Lemma decompress_complete inp d n :
  stream inp d → inp ≠ [] → zlen d ≤ n → lzf_decompress inp n = Some (Some d).
Proof.
  intros Hs Hne Hn. inversion Hs as [|e d0 it d' Hs0 Hi]; subst; [done|].
  destruct (item_length _ _ _ Hi) as [Hd Hit]. unfold lzf_decompress.
  destruct (decompress_prefix e d0 n it Hs0 ltac:(lia)) with (fuel := S (length (e ++ it)))
    as (f & E' & Hf); [by destruct it|lia|].
  rewrite E'. destruct f as [|f]; [lia|]. cbn [decompress_loop].
  pose proof (step_complete e it [] d0 d n Hi Hn) as Es. rewrite app_nil_r in Es. rewrite Es.
  cbn [mbind option_bind]. rewrite (proj2 (Z.ltb_ge _ _)) by (rewrite length_app; lia). done.
Qed.

(** The decompressor is total and safe on every non-empty input - it
    never reads outside its input nor outside what it has written - and it
    decodes the LZF format exactly: it returns a text if and only if the
    input is a sequence of literal runs and back references for that text
    that fits the output buffer, the [memcpy] of long references included. *)
Theorem lzf_decompress_exact (inp : list Z) (n : Z) :
  bytes_ok inp → inp ≠ [] →
  is_Some (lzf_decompress inp n) ∧
  ∀ d, lzf_decompress inp n = Some (Some d) ↔ stream inp d ∧ zlen d ≤ n.
Proof.
  intros Hin Hne. assert (0 < zlen inp) by (destruct inp; simpl in *; [done|lia]).
  destruct (decompress_loop_sound (S (length inp)) inp 0 [] n) as (r & E & Hr);
    [done|lia..|constructor|].
  change (lzf_decompress inp n = Some r) in E. split; [by rewrite E|]. intros d. split.
  - rewrite E. naive_solver.
  - intros []. by apply decompress_complete.
Qed.

Lemma lzf_decompress_exact_witness :
  is_Some (lzf_decompress [1; 97; 98; 32; 1] 10) ∧
  ∀ d, lzf_decompress [1; 97; 98; 32; 1] 10 = Some (Some d) ↔
       stream [1; 97; 98; 32; 1] d ∧ zlen d ≤ 10.
Proof. apply lzf_decompress_exact; [by apply (bool_decide_unpack _)|done]. Defined.

(** ** The compressor writes a stream for its input *)
Section compress_ok.
Context (inp : list Z) (N : Z).
Context (inp_bytes : bytes_ok inp) (inp_len : 2 ≤ zlen inp < 2 ^ 32).

(** The two texts agree for [n] bytes. *)
Definition agree (ref ip n : Z) : Prop :=
  ∀ i, 0 ≤ i < n → get inp (ref + i) = get inp (ip + i).

Lemma agree_snoc ref ip n c d :
  agree ref ip n → get inp (ref + n) = Some c → get inp (ip + n) = Some d → (c =? d) = true →
  agree ref ip (n + 1).
Proof.
  intros H E1 E2 E i Hi. apply Z.eqb_eq in E as ->.
  destruct (decide (i = n)) as [->|]; [congruence|apply H; lia].
Qed.

Lemma unrolled_ok k ref ip len :
  0 ≤ ref < ip → 0 ≤ len → ip + len + Z.of_nat k < zlen inp → agree ref ip (len + 1) →
  ∃ l stop, unrolled inp k ref ip len = Some (l, stop) ∧ len + (if stop then 1 else 0) ≤ l ≤ len + Z.of_nat k ∧
    agree ref ip (if stop : bool then l else l + 1) ∧ (stop = false → l = len + Z.of_nat k).
Proof.
  revert len. induction k as [|k IH]; intros len Hr Hl Hk Ha.
  { exists len, false. repeat split; (done || lia). }
  cbn [unrolled].
  destruct (get_is_some inp (ref + (len + 1))) as [c Ec]; [lia|].
  destruct (get_is_some inp (ip + (len + 1))) as [d Ed]; [lia|].
  rewrite Ec, Ed. cbn [mbind option_bind].
  destruct (c =? d) eqn:E; cbn [negb].
  - destruct (IH (len + 1)) as (l & stop & -> & ? & ? & Hs); [lia..|by eapply agree_snoc|].
    exists l, stop. split; [done|]. split; [destruct stop; lia|]. split; [done|].
    intros ->. rewrite Hs by done. lia.
  - exists (len + 1), true. repeat split; [lia..|done|done].
Qed.

Lemma extend_ok fuel ref ip len maxlen :
  0 ≤ ref < ip → 0 ≤ len → ip + maxlen ≤ zlen inp → maxlen - len < Z.of_nat fuel → (0 < fuel)%nat →
  agree ref ip (len + 1) →
  ∃ l, extend inp fuel ref ip len maxlen = Some l ∧ len + 1 ≤ l ≤ Z.max (len + 1) maxlen ∧
       agree ref ip l.
Proof.
  revert len. induction fuel as [|fuel IH]; intros len Hr Hl Hm Hf Hf0 Ha; [lia|].
  cbn [extend]. destruct (Z.ltb_spec (len + 1) maxlen); [|exists (len + 1); repeat split; [lia..|done]].
  destruct (get_is_some inp (ref + (len + 1))) as [c Ec]; [lia|].
  destruct (get_is_some inp (ip + (len + 1))) as [d Ed]; [lia|].
  rewrite Ec, Ed. cbn [mbind option_bind].
  destruct (c =? d) eqn:E; [|exists (len + 1); repeat split; [lia..|done]].
  destruct (IH (len + 1)) as (l & -> & ? & ?); [lia..|by eapply agree_snoc|].
  exists l. repeat split; [lia..|done].
Qed.

Lemma match_len_ok ref ip :
  0 ≤ ref < ip → ip + 2 < zlen inp → agree ref ip 3 →
  ∃ len, match_len inp ref ip = Some len ∧ 3 ≤ len ≤ MAX_REF ∧ ip + len ≤ zlen inp ∧
         agree ref ip len.
Proof.
  intros Hr Hi Ha. unfold match_len.
  replace (u32 (zlen inp - ip - 2)) with (zlen inp - ip - 2) by wrap_lia.
  set (m := if _ >? MAX_REF then _ else _).
  assert (Hm : m ≤ MAX_REF ∧ m ≤ zlen inp - ip - 2 ∧ 1 ≤ m)
    by (subst m; rewrite Z.gtb_ltb; unfold MAX_REF; destruct (Z.ltb_spec (2 ^ 8 + 2 ^ 3) (zlen inp - ip - 2)); pow2; lia).
  unfold MAX_REF in *. pow2. rewrite Z.gtb_ltb. destruct (Z.ltb_spec 16 m).
  - destruct (unrolled_ok 16 ref ip 2) as (l & stop & -> & Hl & Hag & Hs); [lia..|done|].
    cbn [mbind option_bind]. destruct stop; [exists l; repeat split; [lia..|done]|].
    destruct (extend_ok (S (Z.to_nat m)) ref ip l m) as (l' & -> & ? & ?); [lia..|done|].
    exists l'. specialize (Hs eq_refl). repeat split; [lia..|done].
  - cbn [mbind option_bind].
    destruct (extend_ok (S (Z.to_nat m)) ref ip 2 m) as (l' & -> & ? & ?); [lia..|done|].
    exists l'. repeat split; [lia..|done].
Qed.

(** Copying from a match decodes the input. *)
Lemma copy_bytes_agree n : ∀ ref ip,
  0 ≤ ref < ip → ip + Z.of_nat n ≤ zlen inp → agree ref ip (Z.of_nat n) →
  copy_bytes n (take (Z.to_nat ip) inp) ref = Some (take (Z.to_nat (ip + Z.of_nat n)) inp).
Proof.
  induction n as [|n IH]; intros ref ip Hr Hi Ha; cbn [copy_bytes].
  { by rewrite Z.add_0_r. }
  assert (get (take (Z.to_nat ip) inp) ref = get inp ip) as ->.
  { rewrite <- (Z.add_0_r ip), <- (Ha 0), !get_nth, lookup_take by lia.
    rewrite !Z.add_0_r. by rewrite decide_True by lia. }
  destruct (get_is_some inp ip) as [c Ec]; [lia|]. rewrite Ec. cbn [mbind option_bind].
  rewrite <- (take_get _ _ _ Ec), IH; [do 3 f_equal; lia|lia..|].
  intros i Hx. specialize (Ha (i + 1)). rewrite <- !Z.add_assoc, (Z.add_comm 1).
  apply Ha. lia.
Qed.

Lemma mread2 m i : 0 ≤ i → i + 1 < zlen m →
  ∃ a b, mread m i 2 = Some [a; b] ∧ get m i = Some a ∧ get m (i + 1) = Some b.
Proof.
  intros H0 H1. destruct (get_is_some m i) as [a Ea]; [lia|].
  destruct (get_is_some m (i + 1)) as [b Eb]; [lia|]. exists a, b.
  repeat split; try done. rewrite get_nth in Ea, Eb by lia.
  unfold mread. rewrite decide_True by lia.
  replace (Z.to_nat (i + 1)) with (S (Z.to_nat i)) in Eb by lia.
  by rewrite (drop_S _ _ _ Ea), (drop_S _ _ _ Eb).
Qed.

Lemma usable_ok ref ip :
  0 ≤ ip → ip + 2 < zlen inp → in_u 32 ref →
  ∃ b, usable inp ref ip = Some b ∧
       (b = true → 0 < ref < ip ∧ ip - ref - 1 < MAX_OFF ∧ agree ref ip 3).
Proof.
  intros H0 Hi Hr. unfold usable, MAX_OFF. pow2.
  destruct (Z.ltb_spec (u64 (ip - ref - 1)) 8192) as [Ho|]; [|by exists false].
  rewrite Z.gtb_ltb. destruct (Z.ltb_spec 0 ref); [|by exists false].
  assert (ref < ip ∧ ip - ref - 1 < 8192) as [Hlt Hoff] by wrap_lia. cbn [negb].
  destruct (get_is_some inp (ref + 2)) as [a2 Ea]; [lia|].
  destruct (get_is_some inp (ip + 2)) as [b2 Eb]; [lia|].
  rewrite Ea, Eb. cbn [mbind option_bind].
  destruct (Z.eqb_spec a2 b2) as [->|]; [|by exists false]. cbn [negb].
  destruct (mread2 inp ref) as (a0 & a1 & -> & Ea0 & Ea1); [lia..|].
  destruct (mread2 inp ip) as (b0 & b1 & -> & Eb0 & Eb1); [lia..|].
  cbn [mbind option_bind]. eexists. split; [done|]. intros E%Z.eqb_eq.
  pose proof (get_byte _ _ _ inp_bytes Ea0). pose proof (get_byte _ _ _ inp_bytes Ea1).
  pose proof (get_byte _ _ _ inp_bytes Eb0). pose proof (get_byte _ _ _ inp_bytes Eb1).
  simpl in E. assert (a0 = b0 ∧ a1 = b1) as [-> ->] by lia.
  split; [lia|]. split; [lia|]. intros i Hx.
  assert (i = 0 ∨ i = 1 ∨ i = 2) as [->| [->| ->]] by lia; rewrite ?Z.add_0_r; congruence.
Qed.

(** *** The output buffer

    [closed o p i]: the first [p] bytes of [o] are a stream for the first
    [i] bytes of the input.  [run_inv]: they are followed by the place of a
    length byte and by the pending literals. *)
Definition closed (o : list Z) (p i : Z) : Prop :=
  ∃ e tl, o = e ++ tl ∧ zlen e = p ∧ stream e (take (Z.to_nat i) inp) ∧ zlen o = N.

Definition run_inv (s : cstate) : Prop :=
  ∃ e tl lits,
    out s = e ++ tl ∧ zlen e = op s - lit s - 1 ∧ zlen (out s) = N ∧
    0 ≤ ip s ≤ zlen inp ∧ zlen lits = lit s ∧ lit s ≤ MAX_LIT ∧ lit s ≤ ip s ∧
    stream e (take (Z.to_nat (ip s - lit s)) inp) ∧
    take (Z.to_nat (ip s)) inp = take (Z.to_nat (ip s - lit s)) inp ++ lits ∧
    (lits = [] ∨ ∃ x rest, tl = x :: lits ++ rest).

Lemma put_byte_app e x tl p c : p = zlen e → put (e ++ x :: tl) p c = Some (e ++ u8 c :: tl).
Proof. intros ->. apply (mwrite_app e [x] [u8 c] tl); done. Qed.

Lemma stop_run s :
  run_inv s → op s - lit s - 1 < N →
  ∃ o, put (out s) (op s - lit s - 1) (lit s - 1) = Some o ∧
       closed o (op s - (if lit s =? 0 then 1 else 0)) (ip s).
Proof.
  intros (e & tl & lits & Ho & He & HN & Hip & Hl & H32 & Hli & Hs & Ht & Htl) Hop.
  unfold MAX_LIT in H32. pow2. rewrite Ho in *. rewrite length_app in HN.
  destruct (Z.eqb_spec (lit s) 0) as [E|E].
  - destruct tl as [|x tl]; [simpl in HN; lia|]. rewrite put_byte_app by lia.
    eexists. split; [done|]. exists e. eexists. split; [done|]. split; [lia|].
    rewrite E, Z.sub_0_r in Hs. split; [done|]. rewrite length_app. simpl in *. lia.
  - destruct Htl as [->|(x & rest & ->)]; [simpl in *; lia|].
    rewrite put_byte_app by lia. replace (u8 (lit s - 1)) with (lit s - 1) by wrap_lia.
    eexists. split; [done|]. exists (e ++ lit s - 1 :: lits), rest.
    rewrite <- app_assoc. simpl. split; [done|]. rewrite !length_app. simpl.
    rewrite length_app. simpl in HN. rewrite length_app in HN. split; [lia|]. split; [|lia].
    rewrite Ht. eapply stream_snoc; [done|]. rewrite <- Hl. constructor.
    unfold MAX_LIT. pow2. lia.
Qed.

Lemma closed_run o p i : closed o p i → 0 ≤ i ≤ zlen inp →
  ∀ h ht, run_inv (mk_cstate i (p + 1) 0 h ht o).
Proof.
  intros (e & tl & -> & He & Hs & HN) Hi h ht. exists e, tl, []. simpl.
  rewrite !Z.sub_0_r, app_nil_r. repeat split; try done; try lia. by left.
Qed.

Lemma push_lit s c :
  run_inv s → lit s < MAX_LIT → get inp (ip s) = Some c → op s < N →
  ∃ o, put (out s) (op s) c = Some o ∧
       run_inv (mk_cstate (ip s + 1) (op s + 1) (lit s + 1) (hval s) (htab s) o).
Proof.
  intros (e & tl & lits & Ho & He & HN & Hip & Hl & H32 & Hli & Hs & Ht & Htl) Hlit Ec Hop.
  pose proof (get_byte _ _ _ inp_bytes Ec) as Hc.
  assert (ip s < zlen inp) as Hlt.
  { destruct (get_split _ _ _ Ec) as (a & b & E & Ha & _).
    apply (f_equal length) in E. rewrite length_app in E. simpl in E. lia. }
  assert (∃ x y rest, tl = x :: lits ++ y :: rest) as (x & y & rest & ->).
  { rewrite Ho, length_app in HN. destruct Htl as [->|(x & rest & ->)].
    - destruct tl as [|x [|y rest]]; simpl in *; [lia..|by eauto].
    - simpl in HN. rewrite length_app in HN. destruct rest; [simpl in HN; lia|by eauto]. }
  rewrite Ho. replace (e ++ x :: lits ++ y :: rest) with ((e ++ x :: lits) ++ y :: rest)
    by by rewrite <- app_assoc.
  rewrite put_byte_app by (rewrite length_app; simpl; lia).
  replace (u8 c) with c by wrap_lia. eexists. split; [done|].
  exists e, (x :: (lits ++ [c]) ++ rest), (lits ++ [c]). simpl.
  replace (ip s + 1 - (lit s + 1)) with (ip s - lit s) by lia.
  rewrite (take_get _ _ _ Ec), Ht.
  rewrite Ho, !length_app in HN. simpl in HN. rewrite length_app in HN. simpl in HN.
  rewrite <- !app_assoc. simpl. rewrite !length_app. simpl.
  rewrite !length_app. simpl. repeat split; try done; try lia. right.
  exists x, rest. by rewrite <- app_assoc.
Qed.

(** A literal keeps the invariant and takes one byte, or two at the end of a
    full run. *)
Lemma emit_lit_ok s :
  run_inv s → lit s < MAX_LIT → ip s < zlen inp → op s < N →
  ∃ s', emit_lit inp s = Some s' ∧ run_inv s' ∧ ip s' = ip s + 1 ∧
        (lit s + 1 = MAX_LIT ∧ lit s' = 0 ∧ op s' = op s + 2 ∨
         lit s + 1 < MAX_LIT ∧ lit s' = lit s + 1 ∧ op s' = op s + 1).
Proof.
  intros Hs Hlit Hlt Hop. assert (0 ≤ ip s ∧ 0 ≤ lit s) as [H0 Hl0].
  { destruct Hs as (? & ? & ? & ?). lia. }
  unfold emit_lit. destruct (get_is_some inp (ip s)) as [c Ec]; [lia|].
  destruct (push_lit s c) as (o & Eo & Hs'); [done..|].
  rewrite Ec. cbn [mbind option_bind]. rewrite Eo. cbn [mbind option_bind].
  destruct (Z.eqb_spec (lit s + 1) MAX_LIT) as [E|E].
  - destruct (stop_run _ Hs') as (o' & Eo' & Hcl); [simpl; lia|]. simpl in *.
    rewrite Eo'. cbn [mbind option_bind]. eexists. split; [done|].
    rewrite (proj2 (Z.eqb_neq _ _)), Z.sub_0_r in Hcl by lia.
    split; [apply closed_run; [done|lia]|]. simpl. split; [done|]. left. lia.
  - eexists. split; [done|]. split; [done|]. simpl. split; [done|]. right. lia.
Qed.

(** The code of a match keeps the invariant. *)
Lemma put_ref_bytes e x y z tl p off len :
  p = zlen e → 0 ≤ off < MAX_OFF → 3 ≤ len ≤ MAX_REF →
  put_ref (e ++ x :: y :: z :: tl) p off (len - 2) =
    Some (e ++ enc_ref off len ++ (if decide (len < 9) then z :: tl else tl),
          p + zlen (enc_ref off len)).
Proof.
  unfold MAX_OFF, MAX_REF. pow2. intros -> Ho Hl.
  assert (Hby : 0 ≤ off / 256 < 32) by (Z.div_mod_to_equations; lia).
  unfold put_ref, enc_ref. change (Z.shiftl 7 5) with 224.
  rewrite Z.shiftr_div_pow2, Z.shiftl_mul_pow2 by lia. pow2. rewrite !put_byte_app by lia.
  replace (u8 off) with (off mod 256) by reflexivity.
  destruct (Z.ltb_spec (len - 2) 7); cbn [mbind option_bind]; case_decide; try lia.
  - replace (u8 _) with (off / 256 + (len - 2) * 32) by wrap_lia.
    rewrite (cons_middle _ e), app_assoc, put_byte_app by (rewrite length_app; simpl; lia).
    cbn [mbind option_bind]. rewrite <- app_assoc. simpl. do 2 f_equal. lia.
  - replace (u8 _) with (off / 256 + 224) by wrap_lia.
    rewrite (cons_middle _ e), app_assoc, put_byte_app by (rewrite length_app; simpl; lia).
    cbn [mbind option_bind]. replace (u8 _) with (len - 9) by wrap_lia.
    rewrite (cons_middle (len - 9)), app_assoc, put_byte_app by (rewrite !length_app; simpl; lia).
    cbn [mbind option_bind]. rewrite <- !app_assoc. simpl. do 2 f_equal. lia.
Qed.

Lemma put_ref_ok o p i off len :
  closed o p i → p + 3 < N → 0 ≤ off < MAX_OFF → off < i → i + len ≤ zlen inp →
  3 ≤ len ≤ MAX_REF → agree (i - off - 1) i len →
  ∃ o' q, put_ref o p off (len - 2) = Some (o', q) ∧ closed o' q (i + len).
Proof.
  intros (e & tl & -> & He & Hs & HN) Hp Ho Hoi Hi Hl Ha.
  assert (Hit : item (take (Z.to_nat i) inp) (enc_ref off len) (take (Z.to_nat (i + len)) inp)).
  { assert (zlen (take (Z.to_nat i) inp) = i) as Hi' by (rewrite length_take; lia).
    apply item_ref; [lia..|]. rewrite Hi'.
    replace (i + len) with (i + Z.of_nat (Z.to_nat len)) by lia.
    apply copy_bytes_agree; [lia..|]. by rewrite Z2Nat.id by lia. }
  pose proof (stream_snoc _ _ _ _ Hs Hit) as Hs'. rewrite length_app in HN.
  destruct tl as [|x [|y [|z tl]]]; [simpl in *; lia..|].
  rewrite put_ref_bytes by done. do 2 eexists. split; [done|].
  exists (e ++ enc_ref off len). eexists. split; [apply app_assoc|].
  rewrite !length_app. split; [lia|]. split; [done|].
  unfold enc_ref. simpl in HN. case_decide; simpl; lia.
Qed.

(** A match keeps the invariant and moves forward. *)
Lemma emit_match_ok s ref :
  run_inv s → 0 < ref < ip s → ip s - ref - 1 < MAX_OFF → ip s + 2 < zlen inp →
  agree ref (ip s) 3 →
  ∃ r, emit_match inp s ref N = Some r ∧
       ∀ s' fin, r = inr (s', fin) → run_inv s' ∧ lit s' = 0 ∧ ip s < ip s' ∧
                 (fin = true → zlen inp - 2 ≤ ip s').
Proof.
  intros Hs Hr Hoff Hip Ha. unfold emit_match.
  rewrite !Z.geb_leb. set (notlit := if lit s =? 0 then 1 else 0).
  assert (0 ≤ notlit ≤ 1 ∧ 0 ≤ lit s) as [Hn Hl0].
  { destruct Hs as (? & ? & ? & ?). subst notlit. case_match; lia. }
  destruct ((N <=? op s + 3 + 1) && (N <=? op s - notlit + 3 + 1)) eqn:Efull;
    [exists (inl tt); split; [done|]; by intros|].
  assert (op s - notlit + 4 < N) as Hroom
    by (apply andb_false_iff in Efull as [?%Z.leb_gt|?%Z.leb_gt]; lia).
  destruct (stop_run s Hs) as (o & -> & Hc); [lia|]. cbn [mbind option_bind].
  destruct (match_len_ok ref (ip s)) as (len & -> & Hlen & Hend & Hag); [lia..|done|].
  cbn [mbind option_bind].
  replace (u64 (ip s - ref - 1)) with (ip s - ref - 1)
    by (unfold MAX_OFF in *; clear -Hr inp_len Hip; wrap_lia).
  destruct (put_ref_ok o (op s - notlit) (ip s) (ip s - ref - 1) len)
    as (o' & q & -> & Hc'); [done|lia..|by replace (ip s - (ip s - ref - 1) - 1) with ref by lia|].
  cbn [mbind option_bind].
  replace (ip s + 1 + (len - 2 + 1)) with (ip s + len) by lia.
  assert (Hrun := closed_run _ _ _ Hc' ltac:(lia)).
  rewrite Z.geb_leb. destruct (Z.leb_spec (zlen inp - 2) (ip s + len)).
  { eexists. split; [done|]. intros s' fin [= <- <-]. split; [apply Hrun|]. simpl.
    split; [done|]. split; [lia|]. by intros. }
  unfold FRST, NEXT. replace (ip s + len - 1 - 1 + 1 + 1) with (ip s + len) by lia.
  repeat match goal with |- context [get inp ?k] =>
    destruct (get_is_some inp k) as [? ->]; [lia|]; cbn [mbind option_bind] end.
  eexists. split; [done|]. intros s' fin [= <- <-]. split; [apply Hrun|]. simpl.
  split; [done|]. split; [lia|]. by intros.
Qed.

(** The main loop ends within one step per byte of the input ... *)
Lemma compress_loop_ok htab0 fuel s :
  run_inv s → lit s < MAX_LIT → zlen inp - ip s < Z.of_nat fuel →
  ∃ r, compress_loop htab0 inp fuel s N = Some r ∧
       ∀ s', r = inr s' → run_inv s' ∧ lit s' < MAX_LIT ∧ zlen inp - 2 ≤ ip s'.
Proof.
  revert s. induction fuel as [|fuel IH]; intros s Hs Hl Hf.
  { destruct Hs as (? & ? & ? & ?). lia. }
  assert (0 ≤ ip s) as H0 by (destruct Hs as (? & ? & ? & ?); lia).
  cbn [compress_loop]. destruct (Z.ltb_spec (ip s) (zlen inp - 2)); cycle 1.
  { eexists. split; [done|]. intros s' [= <-]. done. }
  unfold NEXT. destruct (get_is_some inp (ip s + 2)) as [c ->]; [lia|].
  cbn [mbind option_bind]. set (h := u32 _). set (ref := hget _ _ _).
  set (s1 := mk_cstate _ _ _ _ _ _). assert (run_inv s1) as Hs1 by exact Hs.
  destruct (usable_ok ref (ip s)) as (b & E & Hb); [lia..|by apply wrapu_range|].
  change (usable inp ref (ip s1) = Some b) in E. rewrite E. cbn [mbind option_bind].
  destruct b.
  - destruct (Hb eq_refl) as (Hr & Ho & Ha).
    destruct (emit_match_ok s1 ref) as (r & -> & Hr'); [done|simpl; done || lia..|].
    cbn [mbind option_bind]. destruct r as [|[s' fin]].
    { eexists. split; [done|]. by intros. }
    destruct (Hr' _ _ eq_refl) as (Hi & Hli & Hlt & Hfin).
    assert (lit s' < MAX_LIT) by (rewrite Hli; done). simpl in Hlt. destruct fin.
    + eexists. split; [done|]. intros ? [= <-]. auto.
    + apply IH; [done..|lia].
  - rewrite Z.geb_leb. destruct (Z.leb_spec N (op s1)).
    { eexists. split; [done|]. by intros. }
    destruct (emit_lit_ok s1) as (s' & -> & Hi & Hip & Hor); [done|done|simpl; lia|done|].
    cbn [mbind option_bind]. simpl in Hip. apply IH; [done| |lia].
    unfold MAX_LIT in *. pow2. destruct Hor as [(_ & -> & _)|(? & -> & _)]; simpl in *; lia.
Qed.

(** ... and the room tested after it is enough for the last literals. *)
Lemma tail_loop_ok fuel s :
  run_inv s → lit s < MAX_LIT → zlen inp - ip s < Z.of_nat fuel → zlen inp - ip s < MAX_LIT →
  op s + (zlen inp - ip s) +
    (if decide (lit s + (zlen inp - ip s) < MAX_LIT) then 0 else 1) ≤ N →
  ∃ s', tail_loop inp fuel s = Some s' ∧ run_inv s' ∧ ip s' = zlen inp ∧ op s' ≤ N.
Proof.
  revert s. induction fuel as [|fuel IH]; intros s Hs Hl Hf Hk Hop.
  { destruct Hs as (? & ? & ? & ?). lia. }
  assert (ip s ≤ zlen inp ∧ 0 ≤ lit s) as [Hip Hl0] by (destruct Hs as (? & ? & ? & ?); lia).
  cbn [tail_loop]. destruct (Z.ltb_spec (ip s) (zlen inp)); cycle 1.
  { exists s. split; [done|]. split; [done|]. case_decide; lia. }
  destruct (emit_lit_ok s) as (s' & -> & Hi & Hip' & Hor); [done|done|lia|case_decide; lia|].
  cbn [mbind option_bind]. unfold MAX_LIT in *. pow2.
  destruct Hor as [(? & E1 & E2)|(? & E1 & E2)];
    (apply IH; [done|lia|lia|lia|]); rewrite E1, E2, Hip'; repeat case_decide; lia.
Qed.
End compress_ok.

Lemma lzf_compress_ok htab0 inp out0 :
  bytes_ok inp → 2 ≤ zlen inp < 2 ^ 32 →
  ∃ r, lzf_compress htab0 inp out0 = Some r ∧
       ∀ c, r = Some c → stream c inp ∧ zlen c ≤ zlen out0.
Proof.
  intros Hin Hlen. unfold lzf_compress. rewrite (proj2 (Z.eqb_neq (zlen inp) 0)) by lia.
  cbn [orb]. destruct (Z.eqb_spec (zlen out0) 0); [exists None; split; [done|by intros]|].
  unfold FRST. destruct (get_is_some inp 0) as [a ->]; [lia|].
  destruct (get_is_some inp (0 + 1)) as [b ->]; [lia|]. cbn [mbind option_bind].
  set (s0 := mk_cstate _ _ _ _ _ _).
  assert (Hs0 : run_inv inp (zlen out0) s0).
  { apply (closed_run inp (zlen out0) out0 0 0); [|lia].
    exists [], out0. repeat split; try done; constructor. }
  destruct (compress_loop_ok inp (zlen out0) Hin Hlen htab0 (S (length inp)) s0)
    as (r & -> & Hr); [done|done|simpl; lia|].
  cbn [mbind option_bind]. destruct r as [|s1]; [exists None; split; [done|by intros]|].
  destruct (Hr _ eq_refl) as (Hs1 & Hl1 & Hip1). rewrite Z.gtb_ltb.
  destruct (Z.ltb_spec (zlen out0) (op s1 + 3)); [exists None; split; [done|by intros]|].
  assert (ip s1 ≤ zlen inp ∧ 0 ≤ ip s1) as [? ?] by (destruct Hs1 as (? & ? & ? & ?); lia).
  destruct (tail_loop_ok inp (zlen out0) Hin (S (length inp)) s1)
    as (s2 & -> & Hs2 & Hip2 & Hop2); [done|done|lia|unfold MAX_LIT; pow2; lia| |].
  { case_decide; lia. }
  cbn [mbind option_bind].
  destruct (stop_run inp (zlen out0) s2 Hs2) as (o & -> & Hc).
  { destruct Hs2 as (? & ? & ? & ?). lia. }
  cbn [mbind option_bind]. destruct Hc as (e & tl & -> & <- & Hst & HN).
  rewrite (mread_app [] e tl) by done. cbn [mbind option_bind].
  eexists. split; [done|]. intros c [= <-]. rewrite Hip2, take_ge in Hst by lia.
  split; [done|]. rewrite length_app in HN. lia.
Qed.


