(* ===== verification/SdsNum.v ===== *)
(** * Numbers as dynamic strings ([redis-3.2/src/sds.c])

    [sdsll2str] and [sdsull2str] print the digits backwards into a buffer and
    reverse them in place; [sdsfromlonglong] makes a string of them.  A
    buffer is a list of bytes, [None] an access outside it. *)

From S2P Require Import Prelude Decimal Util Sds.

Definition SDS_LLSTR_SIZE : Z := 21.

(** [do *p++ = '0'+(v%10); v /= 10; while(v)]. *)
Fixpoint print_rev (fuel : nat) (s : list Z) (p v : Z) : option (list Z * Z) :=
  match fuel with
  | O => None
  | S fuel =>
      s ← put s p (48 + v mod 10);
      let v := v / 10 in
      if v =? 0 then Some (s, p + 1) else print_rev fuel s (p + 1) v
  end.

(** [while(s < p)]: exchange the ends and move inwards. *)
Fixpoint swap_loop (fuel : nat) (m : list Z) (s p : Z) : option (list Z) :=
  match fuel with
  | O => None
  | S fuel =>
      if s <? p then
        aux ← get m s; c ← get m p;
        m ← put m s c; m ← put m p aux;
        swap_loop fuel m (s + 1) (p - 1)
      else Some m
  end.

(** [v = (value < 0) ? -value : value]; the negation of the smallest
    [long long] wraps around. *)
Definition sdsll2str (s : list Z) (value : Z) : option (Z * list Z) :=
  let v := u64 (if value <? 0 then s64 (- value) else value) in
  '(s, p) ← print_rev 20 s 0 v;
  '(s, p) ← (if value <? 0 then s ← put s p 45; Some (s, p + 1) else Some (s, p));
  let l := p in
  s ← put s p 0;
  s ← swap_loop (S (Z.to_nat l)) s 0 (p - 1);
  Some (s32 l, s).

Definition sdsull2str (s : list Z) (v : Z) : option (Z * list Z) :=
  '(s, p) ← print_rev 20 s 0 v;
  let l := p in
  s ← put s p 0;
  s ← swap_loop (S (Z.to_nat l)) s 0 (p - 1);
  Some (s32 l, s).

(** [junk] is the initial content of the local buffer. *)
Definition sdsfromlonglong (junk : nat → Z) (value : Z) : option sds :=
  let buf := map junk (seq 0 (Z.to_nat SDS_LLSTR_SIZE)) in
  '(len, buf) ← sdsll2str buf value;
  sdsnewlen (Some buf) len.

Lemma print_rev_ok fuel : ∀ a hole rest v,
  0 ≤ v < 10 ^ Z.of_nat fuel → (0 < fuel)%nat → length hole = length (dec v) →
  print_rev fuel (a ++ hole ++ rest) (zlen a) v =
    Some (a ++ reverse (dec v) ++ rest, zlen a + zlen (dec v)).
Proof.
  induction fuel as [|fuel IH]; intros a hole rest v Hv Hf Hh; [lia|].
  rewrite dec_unfold in Hh |- * by lia. cbn [print_rev].
  rewrite Nat2Z.inj_succ, Z.pow_succ_r in Hv by lia.
  destruct hole as [|x hole].
  { destruct (Z.ltb_spec v 10); simpl in Hh; [|rewrite length_app in Hh; simpl in Hh]; lia. }
  cbn [app]. rewrite put_app by done. cbn [mbind option_bind].
  destruct (Z.ltb_spec v 10) as [Hs|Hs].
  - rewrite Z.div_small, Z.mod_small by lia. simpl. destruct hole; [done|simpl in Hh; lia].
  - rewrite (proj2 (Z.eqb_neq _ _)) by (Z.div_mod_to_equations; lia).
    rewrite length_app in Hh. simpl in Hh.
    replace (a ++ 48 + v mod 10 :: hole ++ rest) with ((a ++ [48 + v mod 10]) ++ hole ++ rest)
      by by rewrite <- app_assoc.
    replace (zlen a + 1) with (zlen (a ++ [48 + v mod 10])) by (rewrite length_app; simpl; lia).
    rewrite IH; [|Z.div_mod_to_equations; lia| |lia].
    + rewrite reverse_app, <- !app_assoc, !length_app. simpl. do 2 f_equal. lia.
    + destruct fuel; [simpl in *|]; lia.
Qed.

Lemma swap_loop_ok fuel : ∀ a m b,
  (length m < fuel)%nat →
  swap_loop fuel (a ++ m ++ b) (zlen a) (zlen a + zlen m - 1) = Some (a ++ reverse m ++ b).
Proof.
  induction fuel as [|fuel IH]; intros a m b Hf; [lia|].
  cbn [swap_loop]. destruct m as [|x m]; [simpl; by rewrite (proj2 (Z.ltb_ge _ _)) by lia|].
  destruct m as [|y m _] using rev_ind; [simpl; by rewrite (proj2 (Z.ltb_ge _ _)) by lia|].
  simpl in Hf. rewrite length_app in Hf. simpl in Hf.
  rewrite (proj2 (Z.ltb_lt _ _)) by (simpl; rewrite length_app; simpl; lia).
  replace (a ++ (x :: m ++ [y]) ++ b) with (a ++ x :: m ++ y :: b)
    by (simpl; by rewrite <- app_assoc).
  rewrite (get_app a _ _ (zlen a)) by done. cbn [mbind option_bind].
  assert (∀ z, a ++ z :: m ++ y :: b = (a ++ z :: m) ++ y :: b) as Ez
    by (intros; by rewrite <- app_assoc).
  assert (zlen a + zlen (x :: m ++ [y]) - 1 = zlen (a ++ x :: m)) as ->
    by (rewrite length_app; simpl; rewrite length_app; simpl; lia).
  rewrite (Ez x), get_app by done. cbn [mbind option_bind].
  rewrite <- (Ez x), put_app by done. cbn [mbind option_bind].
  rewrite (Ez y), put_app by (rewrite !length_app; done). cbn [mbind option_bind].
  replace ((a ++ y :: m) ++ x :: b) with ((a ++ [y]) ++ m ++ x :: b)
    by (rewrite <- !app_assoc; done).
  replace (zlen a + 1) with (zlen (a ++ [y])) by (rewrite length_app; simpl; lia).
  replace (zlen (a ++ x :: m) - 1) with (zlen (a ++ [y]) + zlen m - 1)
    by (rewrite !length_app; simpl; lia).
  rewrite IH by lia. rewrite reverse_cons, reverse_app, <- !app_assoc. simpl. done.
Qed.

Lemma length_dec_20 v : in_u 64 v → 1 ≤ zlen (dec v) ≤ 20 ∧ 0 ≤ v < 10 ^ 20.
Proof.
  intros [H0 H1]. assert (v < 10 ^ 20) by (eapply Z.lt_trans; [exact H1|done]).
  split; [|done]. split; [|by apply length_dec].
  pose proof (dec_nonempty v H0). destruct (dec v); simpl in *; [done|lia].
Qed.

Lemma print_rev_start hole rest v :
  in_u 64 v → length hole = length (dec v) →
  print_rev 20 (hole ++ rest) 0 v = Some (reverse (dec v) ++ rest, zlen (dec v)).
Proof.
  intros Hv Hh. destruct (length_dec_20 v Hv) as [Hl Hr].
  apply (print_rev_ok 20 [] hole rest v); [done|lia|done].
Qed.

(** The text [t], written backwards at the start of the buffer and
    terminated, is reversed into place. *)
Lemma finish_rev t x rest :
  (s ← put (reverse t ++ x :: rest) (zlen t) 0;
   s ← swap_loop (S (Z.to_nat (zlen t))) s 0 (zlen t - 1); Some (s32 (zlen t), s))
  = Some (s32 (zlen t), t ++ 0 :: rest).
Proof.
  rewrite put_app by by rewrite length_reverse. cbn [mbind option_bind].
  pose proof (swap_loop_ok (S (Z.to_nat (zlen t))) [] (reverse t) (0 :: rest)) as E.
  rewrite length_reverse, reverse_involutive in E. change (zlen []) with 0 in E.
  rewrite Z.add_0_l in E. cbn [app] in E. rewrite E by lia. done.
Qed.

Lemma split_buffer (s : list Z) n :
  Z.of_nat n < zlen s → ∃ hole x, s = hole ++ x :: drop (S n) s ∧ length hole = n.
Proof.
  intros H. destruct (lookup_lt_is_Some_2 s n) as [x E]; [lia|].
  exists (take n s), x. rewrite take_drop_middle by done. rewrite length_take. split; [done|lia].
Qed.

Lemma sdsull2str_spec s v :
  in_u 64 v → SDS_LLSTR_SIZE ≤ zlen s →
  sdsull2str s v = Some (zlen (dec v), dec v ++ 0 :: drop (S (length (dec v))) s).
Proof.
  intros Hv Hs. unfold SDS_LLSTR_SIZE in Hs. destruct (length_dec_20 v Hv) as [Hl Hr].
  destruct (split_buffer s (length (dec v))) as (hole & x & E & Hh); [lia|].
  unfold sdsull2str. rewrite E at 1. rewrite print_rev_start by done.
  cbn [mbind option_bind].
  rewrite finish_rev. do 2 f_equal. wrap_lia.
Qed.

Lemma sdsll2str_spec s v :
  in_s 64 v → SDS_LLSTR_SIZE ≤ zlen s →
  sdsll2str s v = Some (zlen (dec_of_Z v), dec_of_Z v ++ 0 :: drop (S (length (dec_of_Z v))) s).
Proof.
  intros Hv Hs. unfold sdsll2str, dec_of_Z. destruct (Z.ltb_spec v 0) as [Hn|Hn]; cycle 1.
  { replace (u64 v) with v by wrap_lia. apply sdsull2str_spec; [wrap_lia|done]. }
  unfold SDS_LLSTR_SIZE in Hs. replace (u64 (s64 (- v))) with (- v) by wrap_lia.
  destruct (length_dec_20 (- v)) as [Hl Hr]; [wrap_lia|].
  assert (zlen (dec (- v)) ≤ 19) as H19.
  { apply length_dec; [lia..|]. wrap_unfold. pow2. lia. }
  destruct (split_buffer s (S (length (dec (- v))))) as (hole & x & E & Hh); [lia|].
  destruct hole as [|y hole _] using rev_ind; [done|]. rewrite length_app in Hh. simpl in Hh.
  rewrite E at 1. rewrite <- app_assoc, print_rev_start by (done || lia || wrap_lia).
  cbn [mbind option_bind app].
  rewrite put_app by by rewrite length_reverse. cbn [mbind option_bind].
  pose proof (finish_rev (45 :: dec (- v)) x (drop (S (S (length (dec (- v))))) s)) as F.
  rewrite reverse_cons, <- app_assoc in F. cbn [app] in F.
  replace (zlen (45 :: dec (- v))) with (zlen (dec (- v)) + 1) in F by (simpl; lia).
  rewrite F. simpl. do 2 f_equal. wrap_unfold. pow2. Z.div_mod_to_equations. lia.
Qed.

Lemma ll2string_32 (n : nat) junk v :
  in_s 64 v → zlen (dec_of_Z v) < Z.of_nat n →
  ∃ b rest, ll2string (map junk (seq 0 n)) (Z.of_nat n) v = Some (zlen (dec_of_Z v), b) ∧
    b = dec_of_Z v ++ 0 :: rest.
Proof.
  intros Hv Hn. pose proof (ll2string_spec (map junk (seq 0 n)) v Hv) as E.
  rewrite length_map, length_seq, decide_True in E by done. eauto.
Qed.

Lemma length_dec_of_Z_20 v : in_s 64 v → zlen (dec_of_Z v) ≤ 20.
Proof.
  intros Hv. unfold dec_of_Z. destruct (Z.ltb_spec v 0); cbn [length].
  - assert (zlen (dec (- v)) ≤ 19); [|lia]. apply length_dec; [lia..|]. wrap_unfold. pow2. lia.
  - destruct (length_dec_20 v); [wrap_lia|lia].
Qed.

Lemma sdsfromlonglong_spec junk v :
  in_s 64 v → ∃ s, sdsfromlonglong junk v = Some s ∧ repr s (dec_of_Z v).
Proof.
  intros Hv. unfold sdsfromlonglong. rewrite sdsll2str_spec by (done || by rewrite length_map, length_seq).
  cbn [mbind option_bind]. apply sdsnewlen_spec.
  pose proof (length_dec_of_Z_20 v Hv). pow2. lia.
Qed.

(** The number printers of [sds.c] write exactly the decimal text of
    their argument and a NUL, for every signed (the smallest one included)
    and unsigned 64-bit integer, inside any buffer of at least
    [SDS_LLSTR_SIZE] bytes and without touching the bytes behind the NUL;
    [sdsfromlonglong] is a well-formed string with that text. *)
Theorem sds_numbers junk s v :
  SDS_LLSTR_SIZE ≤ zlen s →
  (in_u 64 v → sdsull2str s v =
     Some (zlen (dec v), dec v ++ 0 :: drop (S (length (dec v))) s)) ∧
  (in_s 64 v → sdsll2str s v =
     Some (zlen (dec_of_Z v), dec_of_Z v ++ 0 :: drop (S (length (dec_of_Z v))) s)) ∧
  (in_s 64 v → ∃ d, sdsfromlonglong junk v = Some d ∧ repr d (dec_of_Z v)).
Proof.
  intros Hs. split; [|split]; intros Hv;
    [by apply sdsull2str_spec|by apply sdsll2str_spec|by apply sdsfromlonglong_spec].
Qed.

Lemma sds_numbers_witness :
  sdsll2str (replicate 21 7) (- 2 ^ 63) =
    Some (20, of_string "-9223372036854775808" ++ [0]) ∧
  ∃ d, sdsfromlonglong (λ _, 9) (- 2 ^ 63) = Some d ∧ repr d (dec_of_Z (- 2 ^ 63)).
Proof.
  destruct (sds_numbers (λ _, 9) (replicate 21 7) (- 2 ^ 63)) as (_ & H1 & H2); [done|].
  assert (in_s 64 (- 2 ^ 63)) as H by (by apply (bool_decide_unpack _)).
  split; [rewrite (H1 H); by vm_compute|exact (H2 H)].
Defined.
