(* ===== verification/StringObj.v ===== *)
(** * Comparing string objects ([redis-3.2/src/object.c])

    [compareStringObjects] and [equalStringObjects] on string objects that are
    encoded as a byte string or as an integer.  The comparison of two objects
    is shown to be the lexicographic comparison of the texts they stand for,
    which is an order as sorted sets need it ([TotalCompare]). *)

From S2P Require Import Prelude Decimal Util Sds SdsNum.

(** A string object by its encoding: [OBJ_ENCODING_RAW] or [OBJ_ENCODING_EMBSTR]
    with the bytes of the string, or [OBJ_ENCODING_INT] with the number in [ptr]. *)
Inductive robj := StrRaw (s : list Z) | StrInt (v : Z).

(** What the server guarantees of them: strings of at most 512 MB, 64-bit numbers. *)
Definition robj_ok (o : robj) : bool :=
  match o with
  | StrRaw s => (zlen s <=? 2 ^ 29) && forallb (λ c, (0 <=? c) && (c <? 256)) s
  | StrInt v => (- 2 ^ 63 <=? v) && (v <? 2 ^ 63)
  end.

(** The string and its length; numbers are printed into a buffer of 128 bytes. *)
Definition str_of (o : robj) : option (list Z) :=
  match o with
  | StrRaw s => Some s
  | StrInt v => '(len, buf) ← ll2string (replicate 128 0) 128 v; Some (take (Z.to_nat len) buf)
  end.

(** [same] is the comparison of the pointers. *)
Definition compareStringObjects (same : bool) (a b : robj) : option Z :=
  if same then Some 0 else
  astr ← str_of a;
  bstr ← str_of b;
  let minlen := if zlen astr <? zlen bstr then zlen astr else zlen bstr in
  let cmp := memcmp (take (Z.to_nat minlen) astr) (take (Z.to_nat minlen) bstr) in
  if cmp =? 0 then Some (s32 (zlen astr - zlen bstr)) else Some cmp.

Definition equalStringObjects (same : bool) (a b : robj) : option bool :=
  match a, b with
  | StrInt v, StrInt w => Some (v =? w)
  | _, _ => c ← compareStringObjects same a b; Some (c =? 0)
  end.

(** ** The texts *)
Definition text (o : robj) : list Z := match o with StrRaw s => s | StrInt v => dec_of_Z v end.

(** Lexicographic comparison; a proper prefix comes first. *)
Fixpoint tcmp (a b : list Z) : Z :=
  match a, b with
  | [], _ => - zlen b
  | _, [] => zlen a
  | x :: a, y :: b => if x <? y then -1 else if y <? x then 1 else tcmp a b
  end.

Lemma tcmp_memcmp a : ∀ b,
  (let minlen := Nat.min (length a) (length b) in
   let cmp := memcmp (take minlen a) (take minlen b) in
   if cmp =? 0 then zlen a - zlen b else cmp) = tcmp a b.
Proof.
  induction a as [|x a IH]; intros [|y b]; try (cbn; lia).
  cbn [length Nat.min take memcmp tcmp]. specialize (IH b). cbv zeta in *.
  destruct (x <? y); [done|]. destruct (y <? x); [done|]. rewrite <- IH. destruct (_ =? 0); [lia|done].
Qed.

Lemma tcmp_zero a : ∀ b, tcmp a b = 0 ↔ a = b.
Proof.
  induction a as [|x a IH]; intros [|y b]; cbn [tcmp]; try (cbn; split; [lia|done]); [done|].
  destruct (Z.ltb_spec x y); [split; [lia|intros [= -> ->]; lia]|].
  destruct (Z.ltb_spec y x); [split; [lia|intros [= -> ->]; lia]|]. rewrite IH. assert (x = y) as -> by lia.
  split; [by intros ->|by intros [= ->]].
Qed.

#[export] Instance tcmp_total : TotalCompare tcmp.
Proof.
  split.
  - intros a. induction a as [|x a IH]; intros [|y b]; cbn [tcmp]; try (cbn; lia).
    destruct (Z.ltb_spec x y), (Z.ltb_spec y x); try lia. apply IH.
  - intros a. induction a as [|x a IH]; intros [|y b] [|z c]; cbn [tcmp]; try (cbn; lia).
    destruct (Z.ltb_spec x y), (Z.ltb_spec y x), (Z.ltb_spec y z), (Z.ltb_spec z y), (Z.ltb_spec x z), (Z.ltb_spec z x); try lia.
    apply IH.
  - intros a b c E. apply tcmp_zero in E as ->. done.
Qed.

Lemma text_str o : robj_ok o = true → str_of o = Some (text o).
Proof.
  destruct o as [s|v]; [done|]. cbn. intros H. apply andb_true_iff in H as [H1%Z.leb_le H2%Z.ltb_lt].
  change 128 with (zlen (replicate 128 0)). rewrite ll2string_spec by (unfold in_s; lia).
  change (zlen (replicate 128 0)) with 128.
  assert (Hl : zlen (dec_of_Z v) < 128) by (pose proof (length_dec_of_Z_20 v); unfold in_s in *; lia).
  rewrite decide_True by done. cbn [mbind option_bind]. f_equal. rewrite Nat2Z.id. by rewrite take_app_length.
Qed.

Lemma text_length o : robj_ok o = true → zlen (text o) ≤ 2 ^ 29.
Proof.
  destruct o as [s|v]; cbn; intros H; apply andb_true_iff in H as [H1%Z.leb_le H2]; [done|].
  apply Z.ltb_lt in H2. pose proof (length_dec_of_Z_20 v). unfold in_s in *. lia.
Qed.

Lemma text_int v w : robj_ok (StrInt v) = true → robj_ok (StrInt w) = true → (text (StrInt v) = text (StrInt w) ↔ v = w).
Proof.
  cbn. rewrite !andb_true_iff, !Z.leb_le, !Z.ltb_lt. intros Hv Hw. split; [|by intros ->]. intros E.
  assert (Some v = Some w) as [= ->]; [|done].
  rewrite <- (string2ll_complete v), <- (string2ll_complete w) by (unfold in_s; lia). by rewrite E.
Qed.

Lemma compare_text same a b : robj_ok a = true → robj_ok b = true → (same = true → text a = text b) →
  compareStringObjects same a b = Some (tcmp (text a) (text b)).
Proof.
  intros Ha Hb Hs. unfold compareStringObjects. destruct same.
  { by rewrite (proj2 (tcmp_zero _ _) (Hs eq_refl)). }
  rewrite !text_str by done. cbn [mbind option_bind]. rewrite <- tcmp_memcmp. cbv zeta.
  replace (Z.to_nat (if zlen (text a) <? zlen (text b) then zlen (text a) else zlen (text b)))
    with (Nat.min (length (text a)) (length (text b))) by (destruct (Z.ltb_spec (zlen (text a)) (zlen (text b))); lia).
  destruct (_ =? 0); [|done]. f_equal. apply wraps_id; [lia|]. pose proof (text_length a Ha). pose proof (text_length b Hb).
  unfold in_s. lia.
Qed.

(** Comparing string objects.  For objects the server can hold, [compareStringObjects] returns a number whose sign
    is that of the lexicographic comparison of the texts, whatever the encodings (numbers count as their decimal text,
    without overflow of the length difference), and [equalStringObjects] decides the equality of the texts. *)
Theorem string_objects_compared same a b :
  robj_ok a = true → robj_ok b = true → (same = true → a = b) →
  compareStringObjects same a b = Some (tcmp (text a) (text b)) ∧
  equalStringObjects same a b = Some (bool_decide (text a = text b)).
Proof.
  intros Ha Hb Hs. assert (Hc : compareStringObjects same a b = Some (tcmp (text a) (text b))).
  { apply compare_text; [done|done|]. intros E. by rewrite (Hs E). }
  split; [done|]. unfold equalStringObjects. destruct a as [s|v], b as [t|w].
  4: { f_equal. case_bool_decide as E; [apply (text_int v w Ha Hb) in E as ->; apply Z.eqb_refl|].
       apply Z.eqb_neq. intros ->. done. }
  all: rewrite Hc; cbn [mbind option_bind]; f_equal; case_bool_decide as E.
  all: try (apply Z.eqb_eq; by apply tcmp_zero).
  all: apply Z.eqb_neq; intros Hx; apply E; by apply tcmp_zero.
Qed.

Lemma string_objects_compared_witness :
  compareStringObjects false (StrInt (-7)) (StrRaw (of_string "-7")) = Some 0 ∧
  equalStringObjects false (StrInt 10) (StrRaw (of_string "9")) = Some false.
Proof.
  split.
  - rewrite (proj1 (string_objects_compared false (StrInt (-7)) (StrRaw (of_string "-7")) eq_refl eq_refl ltac:(done))). by vm_compute.
  - rewrite (proj2 (string_objects_compared false (StrInt 10) (StrRaw (of_string "9")) eq_refl eq_refl ltac:(done))). by vm_compute.
Defined.

(** ** Objects the server can hold, as a type *)
Record strobj := mk_strobj { ro : robj; ro_ok : robj_ok ro = true }.
Definition obj_compare (a b : strobj) : Z := default 0 (compareStringObjects false (ro a) (ro b)).
Definition obj_equal (a b : strobj) : bool := default false (equalStringObjects false (ro a) (ro b)).

Lemma obj_compare_text a b : obj_compare a b = tcmp (text (ro a)) (text (ro b)).
Proof. unfold obj_compare. by rewrite (compare_text false _ _ (ro_ok a) (ro_ok b)). Qed.

#[export] Instance obj_compare_total : TotalCompare obj_compare.
Proof.
  split.
  - intros a b. rewrite !obj_compare_text. apply cmp_antisym.
  - intros a b c. rewrite !obj_compare_text. apply cmp_trans.
  - intros a b c. rewrite !obj_compare_text. apply cmp_eq.
Qed.

Lemma obj_equal_spec a b : obj_equal a b = true ↔ obj_compare a b = 0.
Proof.
  rewrite obj_compare_text, tcmp_zero. unfold obj_equal, equalStringObjects. destruct a as [[s|v] Ha], b as [[t|w] Hb]; cbn [ro].
  4: { cbn [from_option]. unfold id. rewrite Z.eqb_eq. symmetry. by apply text_int. }
  all: rewrite compare_text by done; cbn [mbind option_bind from_option]; unfold id; rewrite Z.eqb_eq; apply tcmp_zero.
Qed.
