(* ===== verification/Rio.v ===== *)
(** * Stream-oriented I/O ([redis-3.2/src/rio.c] and [rio.h])

    A [rio] is a backend with a running checksum, a byte count and a maximum
    chunk size.  The table of backend functions is the class [RioBackend]
    with the instances for memory buffers and files; what the clients rely on
    is the class [RioLaws].  [update_cksum] is [NULL] ([false]) or
    [rioGenericUpdateChecksum] ([true]).  The content of the [sds] of a
    buffer is its bytes.  A [FILE] is the bytes written so far, the position
    of the next read, the bytes its device still accepts and the bytes that
    reached the disk. *)

From S2P Require Import Prelude Checksum.

(** [rio_read] gives [None], [rio_write] [false], on error. *)
Class RioBackend (B : Type) := {
  rio_read : B → Z → option (list Z) * B;
  rio_write : B → list Z → bool * B
}.

Record rio (B : Type) := mk_rio {
  io : B;
  update_cksum : bool;
  cksum : Z;
  processed_bytes : Z;
  max_processing_chunk : Z
}.
Arguments mk_rio {B} _ _ _ _ _.
Arguments io {B} _.
Arguments update_cksum {B} _.
Arguments cksum {B} _.
Arguments processed_bytes {B} _.
Arguments max_processing_chunk {B} _.

Definition rioGenericUpdateChecksum (ck : Z) (buf : list Z) : Z := Crc64.crc64 ck buf.

Section rio_ops.
Context {B : Type} `{RioBackend B}.

Definition chunk (r : rio B) (len : Z) : Z :=
  if negb (max_processing_chunk r =? 0) && (max_processing_chunk r <? len)
  then max_processing_chunk r else len.

Definition new_cksum (r : rio B) (buf : list Z) : Z :=
  if update_cksum r then rioGenericUpdateChecksum (cksum r) buf else cksum r.

(** [while (len)]; every round takes at least one byte, so that the length
    of the block bounds the number of rounds. *)
Fixpoint rioWrite_loop (fuel : nat) (r : rio B) (buf : list Z) : bool * rio B :=
  match fuel, buf with
  | S fuel, _ :: _ =>
      let n := chunk r (zlen buf) in
      let b := take (Z.to_nat n) buf in
      let ck := new_cksum r b in
      let '(ok, io') := rio_write (io r) b in
      if negb ok
      then (false, mk_rio io' (update_cksum r) ck (processed_bytes r) (max_processing_chunk r))
      else
        rioWrite_loop fuel
          (mk_rio io' (update_cksum r) ck (u64 (processed_bytes r + n)) (max_processing_chunk r))
          (drop (Z.to_nat n) buf)
  | _, _ => (true, r)
  end.

Definition rioWrite (r : rio B) (buf : list Z) : bool * rio B :=
  rioWrite_loop (length buf) r buf.

Fixpoint rioRead_loop (fuel : nat) (r : rio B) (len : Z) (acc : list Z)
  : option (list Z) * rio B :=
  match fuel with
  | S fuel =>
      if len =? 0 then (Some acc, r) else
      let n := chunk r len in
      let '(res, io') := rio_read (io r) n in
      match res with
      | None =>
          (None, mk_rio io' (update_cksum r) (cksum r) (processed_bytes r)
                   (max_processing_chunk r))
      | Some b =>
          rioRead_loop fuel
            (mk_rio io' (update_cksum r) (new_cksum r b) (u64 (processed_bytes r + n))
               (max_processing_chunk r))
            (len - n) (acc ++ b)
      end
  | O => (Some acc, r)
  end.

Definition rioRead (r : rio B) (len : Z) : option (list Z) * rio B :=
  rioRead_loop (Z.to_nat len) r len [].

End rio_ops.

(** ** Memory buffers *)
Record rio_buffer := mk_buffer { ptr : list Z; pos : Z }.

Definition rioBufferWrite (b : rio_buffer) (buf : list Z) : bool * rio_buffer :=
  (true, mk_buffer (ptr b ++ buf) (pos b + zlen buf)).

Definition rioBufferRead (b : rio_buffer) (len : Z) : option (list Z) * rio_buffer :=
  if u64 (zlen (ptr b) - pos b) <? len then (None, b)
  else (mread (ptr b) (pos b) len, mk_buffer (ptr b) (pos b + len)).

Definition rioBufferTell (b : rio_buffer) : Z := pos b.

#[export] Instance rioBufferIO : RioBackend rio_buffer :=
  {| rio_read := rioBufferRead; rio_write := rioBufferWrite |}.

Definition rioInitWithBuffer (s : list Z) : rio rio_buffer :=
  mk_rio (mk_buffer s 0) false 0 0 0.

(** ** Files *)
Record FILE := mk_FILE { data : list Z; fpos : Z; room : Z; synced : Z }.

(** [fwrite(buf, len, 1, fp)] and [fread(buf, len, 1, fp)]. *)
Definition fwrite (f : FILE) (buf : list Z) : Z * FILE :=
  let w := take (Z.to_nat (room f)) buf in
  (if zlen buf <=? room f then 1 else 0,
   mk_FILE (data f ++ w) (fpos f) (room f - zlen w) (synced f)).
Definition fread (f : FILE) (len : Z) : Z * list Z * FILE :=
  let b := take (Z.to_nat len) (drop (Z.to_nat (fpos f)) (data f)) in
  (if negb (len =? 0) && (zlen b =? len) then 1 else 0, b, mk_FILE (data f) (fpos f + zlen b) (room f) (synced f)).
Definition fsync (f : FILE) : FILE := mk_FILE (data f) (fpos f) (room f) (zlen (data f)).

Record rio_file := mk_file { fp : FILE; buffered : Z; autosync : Z }.

Definition rioFileWrite (r : rio_file) (buf : list Z) : bool * rio_file :=
  let '(retval, f) := fwrite (fp r) buf in
  let n := s64 (buffered r + zlen buf) in
  let r := if negb (autosync r =? 0) && (n >=? autosync r)
           then mk_file (fsync f) 0 (autosync r) else mk_file f n (autosync r) in
  (negb (retval =? 0), r).

Definition rioFileRead (r : rio_file) (len : Z) : option (list Z) * rio_file :=
  let '(retval, b, f) := fread (fp r) len in
  (if retval =? 0 then None else Some b, mk_file f (buffered r) (autosync r)).

#[export] Instance rioFileIO : RioBackend rio_file :=
  {| rio_read := rioFileRead; rio_write := rioFileWrite |}.

Definition rioInitWithFile (f : FILE) : rio rio_file := mk_rio (mk_file f 0 0) false 0 0 0.

Definition rioSetAutoSync (r : rio rio_file) (bytes : Z) : rio rio_file :=
  mk_rio (mk_file (fp (io r)) (buffered (io r)) bytes) (update_cksum r) (cksum r)
    (processed_bytes r) (max_processing_chunk r).

(** ** What a backend promises

    [sent]: the bytes written so far; [readable b l]: a reader gets [l]. *)
Class RioLaws (B : Type) `{RioBackend B} := {
  sent : B → list Z;
  readable : B → list Z → Prop;
  rio_write_ok b bs b' : rio_write b bs = (true, b') → sent b' = sent b ++ bs;
  rio_read_ok b bs rest :
    bs ≠ [] → readable b (bs ++ rest) →
    ∃ b', rio_read b (zlen bs) = (Some bs, b') ∧ readable b' rest
}.

Lemma drop_advance (l bs rest : list Z) p :
  0 ≤ p → drop (Z.to_nat p) l = bs ++ rest → drop (Z.to_nat (p + zlen bs)) l = rest.
Proof.
  intros Hp E. by rewrite Z2Nat.inj_add, <- drop_drop, E, Nat2Z.id, drop_app_length by lia.
Qed.

#[export] Program Instance buffer_laws : RioLaws rio_buffer := {|
  sent b := ptr b;
  readable b l := 0 ≤ pos b ≤ zlen (ptr b) ∧ zlen (ptr b) < 2 ^ 63 ∧
                  drop (Z.to_nat (pos b)) (ptr b) = l
|}.
Next Obligation. by intros b bs b' [= <-]. Qed.
Next Obligation.
  intros b bs rest _ (Hp & Hl & E). cbn [rio_read rioBufferIO]. unfold rioBufferRead.
  assert (zlen (ptr b) - pos b = zlen bs + zlen rest) as El.
  { apply (f_equal length) in E. rewrite length_drop, length_app in E. lia. }
  replace (u64 (zlen (ptr b) - pos b)) with (zlen (ptr b) - pos b) by wrap_lia.
  rewrite (proj2 (Z.ltb_ge _ _)) by lia. unfold mread. rewrite decide_True by lia.
  rewrite E, Nat2Z.id, take_app_length. eexists. split; [done|]. simpl.
  split; [lia|]. split; [done|]. apply drop_advance; [lia|done].
Qed.

#[export] Program Instance file_laws : RioLaws rio_file := {|
  sent r := data (fp r);
  readable r l := 0 ≤ fpos (fp r) ∧ drop (Z.to_nat (fpos (fp r))) (data (fp r)) = l
|}.
Next Obligation.
  intros r bs r'. cbn [rio_write rioFileIO]. unfold rioFileWrite, fwrite.
  destruct (Z.leb_spec (zlen bs) (room (fp r))); [|done].
  rewrite take_ge by lia. cbn [negb Z.eqb]. intros [= <-]. by case_match.
Qed.
Next Obligation.
  intros r bs rest Hne [Hp E]. cbn [rio_read rioFileIO]. unfold rioFileRead, fread.
  rewrite E, Nat2Z.id, take_app_length. rewrite Z.eqb_refl.
  rewrite (proj2 (Z.eqb_neq _ _)) by (destruct bs; simpl; [done|lia]). cbn [negb andb Z.eqb].
  eexists. split; [done|]. split; simpl; [lia|]. by apply drop_advance.
Qed.

(** ** The chunks do not matter *)
Section rio_spec.
Context {B : Type} `{RioLaws B}.

(** The stream after the bytes [bs]: checksum and byte count. *)
Definition after (r : rio B) (bs : list Z) (r' : rio B) : Prop :=
  update_cksum r' = update_cksum r ∧ max_processing_chunk r' = max_processing_chunk r ∧
  cksum r' = new_cksum r bs ∧
  u64 (processed_bytes r') = u64 (processed_bytes r + zlen bs).

Lemma after_nil r : after r [] r.
Proof.
  unfold after, new_cksum. repeat split; [by destruct (update_cksum r)|].
  simpl. by rewrite Z.add_0_r.
Qed.

Lemma after_app r1 b1 r2 b2 r3 : after r1 b1 r2 → after r2 b2 r3 → after r1 (b1 ++ b2) r3.
Proof.
  unfold after, new_cksum. intros (-> & -> & E1 & P1) (-> & -> & -> & P2).
  rewrite E1. repeat split; [destruct (update_cksum r1); [|done]|].
  - unfold rioGenericUpdateChecksum, Crc64.crc64. by rewrite foldl_app.
  - rewrite P2, length_app. unfold u64, wrapu in *. rewrite Nat2Z.inj_add, Z.add_assoc.
    rewrite <- Zplus_mod_idemp_l, P1, Zplus_mod_idemp_l. done.
Qed.

Lemma after_step (r : rio B) b io' n :
  zlen b = n →
  after r b (mk_rio io' (update_cksum r) (new_cksum r b) (u64 (processed_bytes r + n))
               (max_processing_chunk r)).
Proof.
  intros <-. unfold after. simpl. repeat split. unfold u64, wrapu. by rewrite Z.mod_mod.
Qed.

Lemma chunk_bounds (r : rio B) len : 0 ≤ max_processing_chunk r → 0 < len → 0 < chunk r len ≤ len.
Proof.
  intros. unfold chunk. destruct (Z.eqb_spec (max_processing_chunk r) 0); cbn [negb andb]; [lia|].
  destruct (Z.ltb_spec (max_processing_chunk r) len); lia.
Qed.

Lemma rioWrite_spec (r : rio B) bs r' :
  0 ≤ max_processing_chunk r → rioWrite r bs = (true, r') →
  sent (io r') = sent (io r) ++ bs ∧ after r bs r'.
Proof.
  unfold rioWrite. generalize (le_n (length bs)). generalize (length bs) at 2 3 as fuel.
  intros fuel. revert r bs. induction fuel as [|fuel IH]; intros r bs Hf Hm E.
  { destruct bs; [|simpl in Hf; lia]. injection E as <-. rewrite app_nil_r.
    split; [done|apply after_nil]. }
  destruct bs as [|c bs].
  { injection E as <-. rewrite app_nil_r. split; [done|apply after_nil]. }
  cbn [rioWrite_loop] in E. set (bs' := c :: bs) in *.
  pose proof (chunk_bounds r (zlen bs') Hm ltac:(simpl; lia)) as Hc.
  destruct (rio_write (io r) _) as [[|] io'] eqn:Ew; cbn [negb] in E; [|done].
  apply IH in E as [Es Ea]; [|rewrite length_drop; lia|done].
  simpl in Es. rewrite Es, (rio_write_ok _ _ _ Ew), <- app_assoc, take_drop. split; [done|].
  rewrite <- (take_drop (Z.to_nat (chunk r (zlen bs'))) bs').
  eapply after_app; [|exact Ea]. apply after_step. rewrite length_take. lia.
Qed.

(** A backend that accepts every write. *)
Definition accepting : Prop := ∀ (b : B) p, (rio_write b p).1 = true.

Lemma rioWrite_accepting (r : rio B) bs : accepting → (rioWrite r bs).1 = true.
Proof.
  intros Ha. unfold rioWrite. generalize (length bs) as fuel. intros fuel. revert r bs.
  induction fuel as [|fuel IH]; intros r bs; [done|]. destruct bs as [|c bs]; [done|].
  cbn [rioWrite_loop]. set (b := take _ _). specialize (Ha (io r) b).
  destruct (rio_write (io r) b) as [ok io']. simpl in Ha. subst ok. apply IH.
Qed.

Lemma rioRead_loop_spec fuel : ∀ (r : rio B) bs rest acc,
  (length bs ≤ fuel)%nat → 0 ≤ max_processing_chunk r → readable (io r) (bs ++ rest) →
  ∃ r', rioRead_loop fuel r (zlen bs) acc = (Some (acc ++ bs), r') ∧
        readable (io r') rest ∧ after r bs r'.
Proof.
  induction fuel as [|fuel IH]; intros r bs rest acc Hf Hm Hr.
  { destruct bs; [|simpl in Hf; lia]. exists r. rewrite app_nil_r.
    split; [done|]. split; [done|apply after_nil]. }
  cbn [rioRead_loop]. destruct (Z.eqb_spec (zlen bs) 0) as [E|E].
  { destruct bs; [|simpl in E; lia]. exists r. rewrite app_nil_r.
    split; [done|]. split; [done|apply after_nil]. }
  pose proof (chunk_bounds r (zlen bs) Hm ltac:(lia)) as Hc.
  set (n := chunk r (zlen bs)) in *. set (b1 := take (Z.to_nat n) bs).
  assert (zlen b1 = n) as Hn by (subst b1; rewrite length_take; lia).
  rewrite <- (take_drop (Z.to_nat n) bs) in Hr. fold b1 in Hr. rewrite <- app_assoc in Hr.
  destruct (rio_read_ok (io r) b1 (drop (Z.to_nat n) bs ++ rest)) as (io' & Er & Hr');
    [intros Eb; rewrite Eb in Hn; simpl in Hn; lia|done|].
  rewrite Hn in Er. rewrite Er.
  replace (zlen bs - n) with (zlen (drop (Z.to_nat n) bs)) by (rewrite length_drop; lia).
  edestruct IH as (r' & E' & Hr2 & Ha); [|..|exists r']; cycle 3.
  - rewrite E'. rewrite <- app_assoc. subst b1. rewrite take_drop. split; [done|].
    split; [done|]. rewrite <- (take_drop (Z.to_nat n) bs). eapply after_app; [|exact Ha].
    by apply after_step.
  - rewrite length_drop. lia.
  - done.
  - done.
Qed.

Lemma rioRead_spec (r : rio B) bs rest :
  0 ≤ max_processing_chunk r → readable (io r) (bs ++ rest) →
  ∃ r', rioRead r (zlen bs) = (Some bs, r') ∧ readable (io r') rest ∧ after r bs r'.
Proof. intros. unfold rioRead. apply (rioRead_loop_spec _ _ _ _ []); [lia|done..]. Qed.

(** Several blocks. *)
Fixpoint write_all (r : rio B) (blocks : list (list Z)) : bool * rio B :=
  match blocks with
  | [] => (true, r)
  | b :: blocks =>
      match rioWrite r b with (true, r) => write_all r blocks | (false, r) => (false, r) end
  end.

Fixpoint read_all (r : rio B) (sizes : list Z) : option (list (list Z)) * rio B :=
  match sizes with
  | [] => (Some [], r)
  | n :: sizes =>
      match rioRead r n with
      | (Some b, r) => let '(o, r) := read_all r sizes in (cons b <$> o, r)
      | (None, r) => (None, r)
      end
  end.

Lemma write_all_spec blocks : ∀ (r : rio B) r',
  0 ≤ max_processing_chunk r → write_all r blocks = (true, r') →
  sent (io r') = sent (io r) ++ concat blocks ∧ after r (concat blocks) r'.
Proof.
  induction blocks as [|b blocks IH]; intros r r' Hm E; cbn [write_all concat] in *.
  { injection E as <-. rewrite app_nil_r. split; [done|apply after_nil]. }
  destruct (rioWrite r b) as [[|] r1] eqn:Ew; [|done].
  destruct (rioWrite_spec _ _ _ Hm Ew) as [Es Ha].
  apply IH in E as [-> Ha']; [|by destruct Ha as (_ & -> & _)].
  rewrite Es, app_assoc. split; [done|by eapply after_app].
Qed.

Lemma read_all_spec blocks : ∀ (r : rio B) rest,
  0 ≤ max_processing_chunk r → readable (io r) (concat blocks ++ rest) →
  ∃ r', read_all r (map (λ b, zlen b) blocks) = (Some blocks, r') ∧
        readable (io r') rest ∧ after r (concat blocks) r'.
Proof.
  induction blocks as [|b blocks IH]; intros r rest Hm Hr; cbn [read_all concat map] in *.
  { exists r. split; [done|]. split; [done|apply after_nil]. }
  rewrite <- app_assoc in Hr.
  destruct (rioRead_spec r b _ Hm Hr) as (r1 & -> & Hr1 & Ha).
  destruct (IH r1 rest) as (r2 & -> & Hr2 & Ha'); [by destruct Ha as (_ & -> & _)|done|].
  exists r2. split; [done|]. split; [done|by eapply after_app].
Qed.
End rio_spec.

Arguments accepting B {_}.

Lemma buffer_accepting : accepting rio_buffer.
Proof. done. Qed.

(** Whatever blocks and chunk sizes a stream is written with, reading it
    back over any backend in any other blocks and chunks gives the same
    bytes, and the reader ends with the checksum and the byte count of the
    writer. *)
Theorem rio_transfer {W R : Type} `{RioLaws W} `{RioLaws R} (w w' : rio W) (r : rio R) blocks blocks' :
  0 ≤ max_processing_chunk w → 0 ≤ max_processing_chunk r →
  update_cksum w = update_cksum r → cksum w = cksum r → processed_bytes w = processed_bytes r →
  sent (io w) = [] → write_all w blocks = (true, w') →
  concat blocks' = concat blocks → readable (io r) (sent (io w')) →
  ∃ r', read_all r (map (λ b, zlen b) blocks') = (Some blocks', r') ∧ readable (io r') [] ∧
        cksum r' = cksum w' ∧ u64 (processed_bytes r') = u64 (processed_bytes w').
Proof.
  intros Hw Hr Eu Ec Ep Hs Ew Eb Hrd.
  destruct (write_all_spec blocks w w' Hw Ew) as [Es (_ & _ & Cw & Pw)].
  rewrite Hs in Es. simpl in Es. rewrite Es, <- Eb, <- (app_nil_r (concat blocks')) in Hrd.
  destruct (read_all_spec blocks' r [] Hr Hrd) as (r' & E & Hn & (_ & _ & Cr & Pr)).
  exists r'. split; [done|]. split; [done|].
  rewrite Cr, Cw, Pr, Pw. unfold new_cksum. rewrite Eu, Ec, Ep, Eb. done.
Qed.

(** A file written in chunks of 3 bytes with automatic synchronisation, read
    back from memory in other blocks. *)
Lemma rio_transfer_witness :
  let w := mk_rio (mk_file (mk_FILE [] 0 100 0) 0 4) true 0 0 3 in
  let w' := snd (write_all w [of_string "hello "; of_string "world!!"]) in
  let r := mk_rio (mk_buffer (of_string "hello world!!") 0) true 0 0 2 in
  ∃ r', read_all r [1; 0; 12] =
          (Some [of_string "h"; []; of_string "ello world!!"], r') ∧
        readable (io r') [] ∧ cksum r' = cksum w' ∧
        u64 (processed_bytes r') = u64 (processed_bytes w').
Proof.
  intros w w' r.
  apply (rio_transfer w w' r [of_string "hello "; of_string "world!!"]
           [of_string "h"; []; of_string "ello world!!"]); try done.
Defined.
