(* ===== verification/Rdb.v ===== *)
(** * The RDB encoding of strings ([redis-3.2/src/rdb.c])

    Lengths, integers, LZF-compressed and verbatim strings, written to and
    read from a [rio] stream ([Rio.v]).  A writer takes the stream, or [NULL]
    ([None]) to count bytes only, and returns the number of bytes or -1.  The
    reader returns an object: an integer-encoded one ([StrInt]) or bytes
    ([StrRaw]).  [RUB] is undefined behaviour, [RExit] the exit of the
    process on a corrupt file.  The host is little endian. *)

From S2P Require Import Prelude Decimal Util Sds SdsNum Lzf Rio StringObj.

Definition RDB_6BITLEN : Z := 0.
Definition RDB_14BITLEN : Z := 1.
Definition RDB_32BITLEN : Z := 2.
Definition RDB_ENCVAL : Z := 3.
Definition RDB_LENERR : Z := 2 ^ 32 - 1.
Definition RDB_ENC_INT8 : Z := 0.
Definition RDB_ENC_INT16 : Z := 1.
Definition RDB_ENC_INT32 : Z := 2.
Definition RDB_ENC_LZF : Z := 3.
Definition LONG_STR_SIZE : Z := 21.
Definition RDB_LOAD_NONE : Z := 0.
Definition RDB_LOAD_ENC : Z := 1.
Definition RDB_LOAD_PLAIN : Z := 2.

(** [strtol(s, &endptr, 10)], saturating at 64 bits, and the text at
    [endptr]. *)
Fixpoint skip_spaces (s : list Z) : list Z :=
  match s with c :: s' => if isspace c then skip_spaces s' else s | [] => [] end.
Definition strtol_sign (s : list Z) : bool * list Z :=
  match s with
  | c :: t => if c =? 45 then (true, t) else if c =? 43 then (false, t) else (false, c :: t)
  | [] => (false, [])
  end.
Definition strtol (s : list Z) : Z * list Z :=
  let '(minus, t) := strtol_sign (skip_spaces s) in
  let '(ds, rest) := span_digits t in
  match ds with
  | [] => (0, s)
  | _ => (if minus then Z.max LLONG_MIN (- dec_val ds) else Z.min LLONG_MAX (dec_val ds), rest)
  end.

(** ** Integers *)

Definition rdbEncodeInteger (value : Z) : list Z :=
  if (value >=? - 2 ^ 7) && (value <=? 2 ^ 7 - 1) then
    [Z.lor (Z.shiftl RDB_ENCVAL 6) RDB_ENC_INT8; Z.land value 0xFF]
  else if (value >=? - 2 ^ 15) && (value <=? 2 ^ 15 - 1) then
    [Z.lor (Z.shiftl RDB_ENCVAL 6) RDB_ENC_INT16; Z.land value 0xFF;
     Z.land (Z.shiftr value 8) 0xFF]
  else if (value >=? - 2 ^ 31) && (value <=? 2 ^ 31 - 1) then
    [Z.lor (Z.shiftl RDB_ENCVAL 6) RDB_ENC_INT32; Z.land value 0xFF;
     Z.land (Z.shiftr value 8) 0xFF; Z.land (Z.shiftr value 16) 0xFF;
     Z.land (Z.shiftr value 24) 0xFF]
  else [].

(** [s] is followed by a NUL; [junk] is the initial content of [buf]. *)
Definition rdbTryIntegerEncoding (junk : nat → Z) (s : list Z) : option (list Z) :=
  let '(value, endptr) := strtol s in
  if negb (default 0 (head endptr) =? 0) then Some [] else
  '(_, buf) ← ll2string (map junk (seq 0 32)) 32 value;
  if negb (zlen (cstr buf) =? zlen s) then Some [] else
  b ← mread buf 0 (zlen s);
  if negb (bool_decide (b = s)) then Some [] else Some (rdbEncodeInteger value).

(** ** Writing *)
Section save.
Context {B : Type} `{RioBackend B}.

Definition rdbWriteRaw (rdb : option (rio B)) (p : list Z) : Z * option (rio B) :=
  match rdb with
  | Some r => let '(ok, r) := rioWrite r p in
              (if ok : bool then s32 (zlen p) else -1, Some r)
  | None => (s32 (zlen p), None)
  end.

(** [if ((n = f(rdb)) == -1) return -1; nwritten += n; ...]. *)
Definition seqw (f g : option (rio B) → Z * option (rio B)) (rdb : option (rio B)) :=
  let '(n, rdb) := f rdb in
  if n =? -1 then (-1, rdb) else
  let '(k, rdb) := g rdb in
  if k =? -1 then (-1, rdb) else (n + k, rdb).

Definition rdbSaveType (rdb : option (rio B)) (type : Z) : Z * option (rio B) :=
  rdbWriteRaw rdb [u8 type].

Definition rdbSaveLen (rdb : option (rio B)) (len : Z) : Z * option (rio B) :=
  if len <? 2 ^ 6 then
    let '(n, rdb) := rdbWriteRaw rdb [Z.lor (Z.land len 0xFF) (Z.shiftl RDB_6BITLEN 6)] in
    if n =? -1 then (-1, rdb) else (1, rdb)
  else if len <? 2 ^ 14 then
    let '(n, rdb) := rdbWriteRaw rdb
      [Z.lor (Z.land (Z.shiftr len 8) 0xFF) (Z.shiftl RDB_14BITLEN 6); Z.land len 0xFF] in
    if n =? -1 then (-1, rdb) else (2, rdb)
  else
    let '(n, rdb) := rdbWriteRaw rdb [Z.shiftl RDB_32BITLEN 6] in
    if n =? -1 then (-1, rdb) else
    let '(n, rdb) := rdbWriteRaw rdb (reverse (le_bytes 4 len)) in
    if n =? -1 then (-1, rdb) else (1 + 4, rdb).

Definition rdbSaveLzfBlob (rdb : option (rio B)) (data : list Z) (original_len : Z)
  : Z * option (rio B) :=
  seqw (λ rdb, rdbWriteRaw rdb [Z.lor (Z.shiftl RDB_ENCVAL 6) RDB_ENC_LZF])
    (seqw (λ rdb, rdbSaveLen rdb (u32 (zlen data)))
      (seqw (λ rdb, rdbSaveLen rdb (u32 original_len)) (λ rdb, rdbWriteRaw rdb data))) rdb.

(** [htab0] and [junk]: the uninitialised hash table and output buffer. *)
Definition rdbSaveLzfStringObject (htab0 : Z → Z) (junk : nat → Z) (rdb : option (rio B))
    (s : list Z) : option (Z * option (rio B)) :=
  if zlen s <=? 4 then Some (0, rdb) else
  let outlen := zlen s - 4 in
  r ← lzf_compress htab0 s (map junk (seq 0 (Z.to_nat outlen)));
  match r with
  | None => Some (0, rdb)
  | Some out => Some (rdbSaveLzfBlob rdb out (zlen s))
  end.

(** [Store verbatim]: the end of [rdbSaveRawString]. *)
Definition save_verbatim (rdb : option (rio B)) (s : list Z) : Z * option (rio B) :=
  let len := zlen s in
  let '(n, rdb) := rdbSaveLen rdb (u32 len) in
  if n =? -1 then (-1, rdb) else
  if len >? 0 then
    let '(k, rdb) := rdbWriteRaw rdb s in
    if k =? -1 then (-1, rdb) else (n + len, rdb)
  else (n, rdb).

Definition rdbSaveRawString (rdb_compression : bool) (htab0 : Z → Z) (junk : nat → Z)
    (rdb : option (rio B)) (s : list Z) : option (Z * option (rio B)) :=
  let len := zlen s in
  buf ← (if len <=? 11 then rdbTryIntegerEncoding junk s else Some []);
  if zlen buf >? 0 then
    let '(n, rdb) := rdbWriteRaw rdb buf in
    Some (if n =? -1 then (-1, rdb) else (zlen buf, rdb))
  else if rdb_compression && (len >? 20) then
    '(n, rdb) ← rdbSaveLzfStringObject htab0 junk rdb s;
    if n =? -1 then Some (-1, rdb)
    else if n >? 0 then Some (n, rdb) else Some (save_verbatim rdb s)
  else Some (save_verbatim rdb s).

Definition rdbSaveLongLongAsStringObject (junk : nat → Z) (rdb : option (rio B)) (value : Z)
  : option (Z * option (rio B)) :=
  let enc := rdbEncodeInteger value in
  if zlen enc >? 0 then Some (rdbWriteRaw rdb enc) else
  '(enclen, buf) ← ll2string (map junk (seq 0 32)) 32 value;
  if negb (enclen <? 32) then None else
  b ← mread buf 0 enclen;
  Some (seqw (λ rdb, rdbSaveLen rdb (u32 enclen)) (λ rdb, rdbWriteRaw rdb b) rdb).

(** The result is an [int]. *)
Definition rdbSaveStringObject (rdb_compression : bool) (htab0 : Z → Z) (junk : nat → Z)
    (rdb : option (rio B)) (obj : robj) : option (Z * option (rio B)) :=
  '(n, rdb) ← match obj with
              | StrInt z => rdbSaveLongLongAsStringObject junk rdb z
              | StrRaw s => rdbSaveRawString rdb_compression htab0 junk rdb s
              end;
  Some (s32 n, rdb).
End save.

(** ** Reading *)
Inductive rresult := RObj (o : robj) | RNull | RExit | RUB.

Definition of_option (o : option robj) : rresult :=
  match o with Some o => RObj o | None => RUB end.

Definition createStringObjectFromLongLong (junk : nat → Z) (value : Z) : option robj :=
  if (value >=? LLONG_MIN) && (value <=? LLONG_MAX) then Some (StrInt value)
  else s ← sdsfromlonglong junk value; b ← mread (buf s) 0 (sdslen s); Some (StrRaw b).

(** The object returned for an integer, according to [flags]. *)
Definition int_object (junk : nat → Z) (flags val : Z) : option robj :=
  let plain := negb (Z.land flags RDB_LOAD_PLAIN =? 0) in
  let encode := negb (Z.land flags RDB_LOAD_ENC =? 0) in
  if plain then
    '(len, buf) ← ll2string (map junk (seq 0 (Z.to_nat LONG_STR_SIZE))) LONG_STR_SIZE val;
    b ← mread buf 0 len; Some (StrRaw b)
  else if encode then createStringObjectFromLongLong junk val
  else s ← sdsfromlonglong junk val; b ← mread (buf s) 0 (sdslen s); Some (StrRaw b).

Section load.
Context {B : Type} `{RioBackend B}.

Definition rdbLoadType (r : rio B) : Z * rio B :=
  match rioRead r 1 with
  | (Some [t], r) => (t, r)
  | (_, r) => (-1, r)
  end.

(** The length or the encoding, and [isencoded]. *)
Definition rdbLoadLen (r : rio B) : Z * bool * rio B :=
  match rioRead r 1 with
  | (Some [b0], r) =>
      let type := Z.shiftr (Z.land b0 0xC0) 6 in
      if type =? RDB_ENCVAL then (Z.land b0 0x3F, true, r)
      else if type =? RDB_6BITLEN then (Z.land b0 0x3F, false, r)
      else if type =? RDB_14BITLEN then
        match rioRead r 1 with
        | (Some [b1], r) => (Z.lor (Z.shiftl (Z.land b0 0x3F) 8) b1, false, r)
        | (_, r) => (RDB_LENERR, false, r)
        end
      else
        match rioRead r 4 with
        | (Some b, r) => (le_val (reverse b), false, r)
        | (None, r) => (RDB_LENERR, false, r)
        end
  | (_, r) => (RDB_LENERR, false, r)
  end.

Definition rdbLoadIntegerObject (junk : nat → Z) (r : rio B) (enctype flags : Z)
  : rresult * rio B :=
  let finish val := of_option (int_object junk flags val) in
  if enctype =? RDB_ENC_INT8 then
    match rioRead r 1 with
    | (Some [e0], r) => (finish (s8 e0), r)
    | (_, r) => (RNull, r)
    end
  else if enctype =? RDB_ENC_INT16 then
    match rioRead r 2 with
    | (Some [e0; e1], r) => (finish (s16 (Z.lor e0 (Z.shiftl e1 8))), r)
    | (_, r) => (RNull, r)
    end
  else if enctype =? RDB_ENC_INT32 then
    match rioRead r 4 with
    | (Some [e0; e1; e2; e3], r) =>
        (finish (s32 (Z.lor (Z.lor (Z.lor e0 (Z.shiftl e1 8)) (Z.shiftl e2 16)) (Z.shiftl e3 24))), r)
    | (_, r) => (RNull, r)
    end
  else (RExit, r).

(** The target is zeroed for an [sds] and indeterminate otherwise; [None] is
    an invalid string. *)
Definition rdbLoadLzfStringObject (junk : nat → Z) (r : rio B) (flags : Z) : rresult * rio B :=
  let plain := negb (Z.land flags RDB_LOAD_PLAIN =? 0) in
  let '(clen, _, r) := rdbLoadLen r in
  if clen =? RDB_LENERR then (RNull, r) else
  let '(len, _, r) := rdbLoadLen r in
  if len =? RDB_LENERR then (RNull, r) else
  let val := if plain then map junk (seq 0 (Z.to_nat len)) else replicate (Z.to_nat len) 0 in
  match rioRead r clen with
  | (None, r) => (RNull, r)
  | (Some c, r) =>
      match lzf_decompress c len with
      | None => (RUB, r)
      | Some None => (RNull, r)
      | Some (Some d) => (of_option (StrRaw <$> mwrite val 0 d), r)
      end
  end.

Definition rdbGenericLoadStringObject (junk : nat → Z) (r : rio B) (flags : Z)
  : rresult * rio B :=
  let '(len, isencoded, r) := rdbLoadLen r in
  if isencoded : bool then
    if (len =? RDB_ENC_INT8) || (len =? RDB_ENC_INT16) || (len =? RDB_ENC_INT32)
    then rdbLoadIntegerObject junk r len flags
    else if len =? RDB_ENC_LZF then rdbLoadLzfStringObject junk r flags
    else (RExit, r)
  else if len =? RDB_LENERR then (RNull, r)
  else if len =? 0 then (RObj (StrRaw []), r)
  else match rioRead r len with
       | (Some b, r) => (RObj (StrRaw b), r)
       | (None, r) => (RNull, r)
       end.

Definition rdbLoadStringObject (junk : nat → Z) (r : rio B) : rresult * rio B :=
  rdbGenericLoadStringObject junk r RDB_LOAD_NONE.
Definition rdbLoadEncodedStringObject (junk : nat → Z) (r : rio B) : rresult * rio B :=
  rdbGenericLoadStringObject junk r RDB_LOAD_ENC.
End load.

Definition rdb_demo (s : string) : Z * rresult :=
  match rdbSaveRawString true (λ i, i) (λ _, 85) (Some (rioInitWithBuffer [])) (of_string s) with
  | Some (n, Some w) => (n, fst (rdbLoadEncodedStringObject (λ _, 85) (rioInitWithBuffer (ptr (io w)))))
  | _ => (-1, RUB)
  end.

Example rdb_demo_int : rdb_demo "-1234" = (3, RObj (StrInt (-1234))).
Proof. by vm_compute. Qed.
Example rdb_demo_lzf :
  rdb_demo "aaaaaaaaaaaaaaaaaaaaaaaaaaaaaa"
  = (12, RObj (StrRaw (of_string "aaaaaaaaaaaaaaaaaaaaaaaaaaaaaa"))).
Proof. by vm_compute. Qed.
Example rdb_demo_raw : rdb_demo "+7" = (3, RObj (StrRaw (of_string "+7"))).
Proof. by vm_compute. Qed.

(** ** Bits of the encodings *)
Lemma lor_bytes4 v :
  in_s 32 v →
  s32 (Z.lor (Z.lor (Z.lor (v mod 256) (Z.shiftl (v / 256 mod 256) 8))
         (Z.shiftl (v / 256 / 256 mod 256) 16)) (Z.shiftl (v / 256 / 256 / 256 mod 256) 24)) = v.
Proof.
  intros Hv. rewrite (lor_shift (v mod 256)) by (pow2; Z.div_mod_to_equations; lia). pow2.
  rewrite (lor_shift _ (v / 256 / 256 mod 256) 16) by (pow2; Z.div_mod_to_equations; lia). pow2.
  rewrite lor_shift by (pow2; Z.div_mod_to_equations; lia). wrap_lia.
Qed.

Lemma land_6 v : Z.land v 0x3F = v mod 64.
Proof. change 0x3F with (Z.ones 6). by rewrite Z.land_ones. Qed.

(** The first byte of a length: type [t], low bits [a]. *)
Lemma first_byte a t :
  0 ≤ a < 64 → 0 ≤ t < 4 →
  Z.shiftr (Z.land (a + t * 64) 0xC0) 6 = t ∧ Z.land (a + t * 64) 0x3F = a.
Proof.
  intros Ha Ht. rewrite land_6. split; [|Z.div_mod_to_equations; lia].
  change 0xC0 with (Z.shiftl 3 6). rewrite Z.shiftr_land, Z.shiftr_shiftl_l by lia.
  change (Z.shiftl 3 (6 - 6)) with (Z.ones 2). rewrite Z.land_ones, Z.shiftr_div_pow2 by lia.
  pow2. Z.div_mod_to_equations; lia.
Qed.

(** The bytes of a length. *)
Definition enc_len (len : Z) : list Z :=
  if decide (len < 2 ^ 6) then [len]
  else if decide (len < 2 ^ 14) then [len / 256 + 64; len mod 256]
  else 128 :: reverse (le_bytes 4 len).

Lemma enc_len_length len : 1 ≤ zlen (enc_len len) ≤ 5.
Proof. unfold enc_len. repeat case_decide; simpl; try lia. Qed.

(** *** Writers *)
Section save_spec.
Context {B : Type} `{RioLaws B}.

Definition wrote (rdb : option (rio B)) (bs : list Z) (rdb' : option (rio B)) : Prop :=
  match rdb, rdb' with
  | Some r, Some r' => sent (io r') = sent (io r) ++ bs ∧ after r bs r'
  | None, None => True
  | _, _ => False
  end.

Definition chunk_ok (rdb : option (rio B)) : Prop :=
  match rdb with Some r => 0 ≤ max_processing_chunk r | None => True end.

(** Success: all of [bs] was written, and its length is returned.  A failure
    is one of the backend. *)
Definition outcome (rdb : option (rio B)) (bs : list Z) (res : Z * option (rio B)) : Prop :=
  res.1 = -1 ∧ ¬ accepting B ∨ res.1 = zlen bs ∧ wrote rdb bs res.2.

Lemma wrote_nil rdb : wrote rdb [] rdb.
Proof. destruct rdb; [|done]. simpl. rewrite app_nil_r. split; [done|apply after_nil]. Qed.

Lemma wrote_app rdb1 b1 rdb2 b2 rdb3 :
  wrote rdb1 b1 rdb2 → wrote rdb2 b2 rdb3 → wrote rdb1 (b1 ++ b2) rdb3.
Proof.
  destruct rdb1, rdb2, rdb3; simpl; try done. intros [E1 A1] [E2 A2].
  rewrite E2, E1, app_assoc. split; [done|by eapply after_app].
Qed.

Lemma wrote_chunk rdb bs rdb' : wrote rdb bs rdb' → chunk_ok rdb → chunk_ok rdb'.
Proof. destruct rdb, rdb'; simpl; try done. by intros [_ (_ & -> & _)]. Qed.

Lemma rdbWriteRaw_outcome rdb p :
  chunk_ok rdb → zlen p < 2 ^ 31 → outcome rdb p (rdbWriteRaw rdb p).
Proof.
  intros Hc Hp. unfold outcome, rdbWriteRaw. replace (s32 (zlen p)) with (zlen p) by wrap_lia.
  destruct rdb as [r|]; [|by right]. destruct (rioWrite r p) as [[|] r'] eqn:E; cycle 1.
  { left. split; [done|]. intros Ha. pose proof (rioWrite_accepting r p Ha) as F.
    by rewrite E in F. }
  right. split; [done|]. by apply rioWrite_spec.
Qed.

Lemma outcome_failed rdb rdb' rdb2 rdb3 bs bs' n :
  outcome rdb bs (n, rdb') → n = -1 → outcome rdb2 bs' (-1, rdb3).
Proof. intros [[_ F]|[E _]] ->; [by left|simpl in E; lia]. Qed.

Lemma outcome_ok rdb bs n rdb' :
  outcome rdb bs (n, rdb') → n ≠ -1 → n = zlen bs ∧ wrote rdb bs rdb'.
Proof. by intros [[? _]|[? ?]] ?. Qed.

Lemma seqw_outcome rdb b1 b2 f g :
  chunk_ok rdb → outcome rdb b1 (f rdb) →
  (∀ rdb', chunk_ok rdb' → outcome rdb' b2 (g rdb')) → outcome rdb (b1 ++ b2) (seqw f g rdb).
Proof.
  intros Hc Hf Hg. unfold seqw. destruct (f rdb) as [n rdb1].
  destruct (Z.eqb_spec n (-1)); [by eapply outcome_failed|].
  destruct (outcome_ok _ _ _ _ Hf) as [En W1]; [done|].
  specialize (Hg rdb1 (wrote_chunk _ _ _ W1 Hc)). destruct (g rdb1) as [k rdb2].
  destruct (Z.eqb_spec k (-1)); [by eapply outcome_failed|].
  destruct (outcome_ok _ _ _ _ Hg) as [Ek W2]; [done|].
  right. simpl. rewrite length_app. split; [lia|by eapply wrote_app].
Qed.

Lemma rdbSaveLen_outcome rdb len :
  chunk_ok rdb → in_u 32 len → outcome rdb (enc_len len) (rdbSaveLen rdb len).
Proof.
  intros Hc Hl. unfold rdbSaveLen, enc_len. rewrite !land_byte. pow2.
  destruct (Z.ltb_spec len 64).
  { rewrite decide_True by lia. change (Z.shiftl RDB_6BITLEN 6) with 0.
    rewrite Z.lor_0_r, Z.mod_small by (destruct Hl; lia).
    pose proof (rdbWriteRaw_outcome rdb [len] Hc ltac:(simpl; lia)) as Ho.
    destruct (rdbWriteRaw rdb [len]) as [n rdb1].
    destruct (Z.eqb_spec n (-1)); [by eapply outcome_failed|].
    destruct (outcome_ok _ _ _ _ Ho) as [_ Hw]; [done|]. clear Ho. by right. }
  rewrite decide_False by lia. destruct (Z.ltb_spec len 16384).
  { rewrite decide_True by lia. rewrite Z.shiftr_div_pow2 by lia. pow2.
    rewrite (Z.mod_small (len / 256)) by (Z.div_mod_to_equations; lia).
    rewrite lor_shift by (pow2; Z.div_mod_to_equations; lia).
    change (RDB_14BITLEN * 2 ^ 6) with 64.
    set (bs := [_; _]). pose proof (rdbWriteRaw_outcome rdb bs Hc ltac:(simpl; lia)) as Ho.
    destruct (rdbWriteRaw rdb bs) as [n rdb1].
    destruct (Z.eqb_spec n (-1)); [by eapply outcome_failed|].
    destruct (outcome_ok _ _ _ _ Ho) as [_ Hw]; [done|]. clear Ho. by right. }
  rewrite decide_False by lia. change (Z.shiftl RDB_32BITLEN 6) with 128.
  pose proof (rdbWriteRaw_outcome rdb [128] Hc ltac:(simpl; lia)) as Ho.
  destruct (rdbWriteRaw rdb [128]) as [n rdb1].
  destruct (Z.eqb_spec n (-1)); [by eapply outcome_failed|].
    destruct (outcome_ok _ _ _ _ Ho) as [_ W1]; [done|]. clear Ho. simpl in W1.
  pose proof (rdbWriteRaw_outcome rdb1 (reverse (le_bytes 4 len)) (wrote_chunk _ _ _ W1 Hc)
    ltac:(rewrite length_reverse, length_le_bytes; simpl; lia)) as Ho.
  destruct (rdbWriteRaw rdb1 _) as [k rdb2].
  destruct (Z.eqb_spec k (-1)); [by eapply outcome_failed|].
    destruct (outcome_ok _ _ _ _ Ho) as [_ W2]; [done|]. clear Ho.
  right. split; [done|]. exact (wrote_app _ [128] _ _ _ W1 W2).
Qed.

Definition enc_lzf (c : list Z) (len : Z) : list Z :=
  [195] ++ enc_len (zlen c) ++ enc_len len ++ c.

Lemma rdbSaveLzfBlob_outcome rdb c len :
  chunk_ok rdb → zlen c < 2 ^ 31 → in_u 32 len →
  outcome rdb (enc_lzf c len) (rdbSaveLzfBlob rdb c len).
Proof.
  intros Hc Hl Hlen. unfold rdbSaveLzfBlob.
  replace (u32 (zlen c)) with (zlen c) by wrap_lia. replace (u32 len) with len by wrap_lia.
  apply seqw_outcome; [done|by apply rdbWriteRaw_outcome|]. intros rdb1 Hc1.
  apply seqw_outcome; [done|apply rdbSaveLen_outcome; [done|wrap_lia]|]. intros rdb2 Hc2.
  apply seqw_outcome; [done|by apply rdbSaveLen_outcome|]. intros rdb3 Hc3.
  by apply rdbWriteRaw_outcome.
Qed.
End save_spec.

(** *** Readers *)
Section load_spec.
Context {B : Type} `{RioLaws B}.

(** [f] consumes exactly [bs] and returns [a]. *)
Definition reads {A} (f : rio B → A * rio B) (bs : list Z) (a : A) : Prop :=
  ∀ r rest, 0 ≤ max_processing_chunk r → readable (io r) (bs ++ rest) →
  ∃ r', f r = (a, r') ∧ readable (io r') rest ∧ after r bs r'.

Lemma rioRead_n r n bs rest :
  n = zlen bs → 0 ≤ max_processing_chunk r → readable (io r) (bs ++ rest) →
  ∃ r', rioRead r n = (Some bs, r') ∧ readable (io r') rest ∧ after r bs r' ∧
        0 ≤ max_processing_chunk r'.
Proof.
  intros -> Hm Hr. destruct (rioRead_spec r bs rest Hm Hr) as (r' & -> & Hr' & Ha).
  exists r'. split; [done|]. split; [done|]. split; [done|]. by destruct Ha as (_ & -> & _).
Qed.

Lemma reads_nil {A} (f : rio B → A * rio B) a : (∀ r, f r = (a, r)) → reads f [] a.
Proof.
  intros E r rest _ Hr. exists r. split; [done|]. split; [done|apply after_nil].
Qed.

Lemma rdbLoadLen_reads len :
  in_u 32 len → reads rdbLoadLen (enc_len len) (len, false).
Proof.
  unfold reads, enc_len, rdbLoadLen. pow2. intros Hl r rest Hm Hr. revert Hr.
  destruct Hl as [Hl0 Hl]. repeat case_decide; intros Hr.
  - destruct (rioRead_n r 1 [len] rest) as (r1 & -> & Hr1 & A1 & _); [done..|].
    destruct (first_byte len 0) as [Et Ev]; [lia..|]. rewrite Z.mul_0_l, Z.add_0_r in Et, Ev.
    rewrite Et, Ev. exists r1. done.
  - destruct (rioRead_n r 1 [len / 256 + 64] ([len mod 256] ++ rest))
      as (r1 & -> & Hr1 & A1 & Hm1); [done..|].
    destruct (first_byte (len / 256) 1) as [Et Ev]; [Z.div_mod_to_equations; lia|lia|].
    rewrite Z.mul_1_l in Et, Ev. rewrite Et, Ev. cbn -[rioRead Z.lor Z.shiftl].
    destruct (rioRead_n r1 1 [len mod 256] rest) as (r2 & -> & Hr2 & A2 & _); [done..|].
    rewrite Z.lor_comm, lor_shift by (pow2; Z.div_mod_to_equations; lia).
    exists r2. split; [|split; [done|exact (after_app _ _ _ _ _ A1 A2)]].
    do 3 f_equal. pow2. Z.div_mod_to_equations; lia.
  - destruct (rioRead_n r 1 [128] (reverse (le_bytes 4 len) ++ rest))
      as (r1 & -> & Hr1 & A1 & Hm1); [done..|].
    change (Z.shiftr (Z.land 128 0xC0) 6) with 2. cbn -[rioRead le_bytes le_val].
    destruct (rioRead_n r1 4 (reverse (le_bytes 4 len)) rest) as (r2 & -> & Hr2 & A2 & _);
      [by rewrite length_reverse, length_le_bytes|done..|].
    exists r2. split; [|split; [done|exact (after_app _ _ _ _ _ A1 A2)]].
    rewrite reverse_involutive, le_val_bytes. do 3 f_equal. wrap_lia.
Qed.

Lemma rdbLoadLen_encval e :
  0 ≤ e < 64 → reads rdbLoadLen [e + 192] (e, true).
Proof.
  intros He r rest Hm Hr. unfold rdbLoadLen.
  destruct (rioRead_n r 1 [e + 192] rest) as (r1 & -> & Hr1 & A1 & _); [done..|].
  destruct (first_byte e 3) as [Et Ev]; [lia..|]. change (3 * 64) with 192 in Et, Ev.
  rewrite Et, Ev. exists r1. done.
Qed.

Lemma int_object_text junk flags v :
  in_s 64 v → ∃ o, int_object junk flags v = Some o ∧ text o = dec_of_Z v.
Proof.
  intros Hv. pose proof (length_dec_of_Z_20 v Hv) as Hl. unfold int_object.
  destruct (sdsfromlonglong_spec junk v Hv) as (s & Es & Hr).
  destruct (negb (Z.land flags RDB_LOAD_PLAIN =? 0)).
  - destruct (ll2string_32 21 junk v Hv) as (b & rest & E & ->); [lia|].
    change (Z.of_nat 21) with LONG_STR_SIZE in E. change (Z.to_nat LONG_STR_SIZE) with 21%nat.
    rewrite E. cbn [mbind option_bind]. rewrite mread_start by done.
    cbn [mbind option_bind]. eauto.
  - destruct (negb (Z.land flags RDB_LOAD_ENC =? 0)).
    + unfold createStringObjectFromLongLong, LLONG_MIN, LLONG_MAX.
      rewrite Z.geb_leb, (proj2 (Z.leb_le _ _)), (proj2 (Z.leb_le _ _)) by wrap_lia.
      cbn [andb]. eauto.
    + rewrite Es. cbn [mbind option_bind]. unfold sdslen. rewrite (r_len _ _ Hr), (repr_take _ _ Hr).
      cbn [mbind option_bind]. eauto.
Qed.

(** The bytes of an encoded integer. *)
Lemma encode_bytes v :
  rdbEncodeInteger v = [] ∨
  ∃ e k, rdbEncodeInteger v = e + 192 :: le_bytes k v ∧ in_s (8 * Z.of_nat k) v ∧
    (e = RDB_ENC_INT8 ∧ k = 1%nat ∨ e = RDB_ENC_INT16 ∧ k = 2%nat ∨ e = RDB_ENC_INT32 ∧ k = 4%nat).
Proof.
  unfold rdbEncodeInteger. rewrite !land_byte, !Z.geb_leb, !Z.shiftr_div_pow2 by lia.
  destruct ((- 2 ^ 7 <=? v) && (v <=? 2 ^ 7 - 1)) eqn:E1.
  { right. exists RDB_ENC_INT8, 1%nat. split; [done|]. split; [|tauto].
    apply andb_true_iff in E1 as [?%Z.leb_le ?%Z.leb_le]. unfold in_s. simpl. lia. }
  destruct ((- 2 ^ 15 <=? v) && (v <=? 2 ^ 15 - 1)) eqn:E2.
  { right. exists RDB_ENC_INT16, 2%nat. split; [done|]. split; [|tauto].
    apply andb_true_iff in E2 as [?%Z.leb_le ?%Z.leb_le]. unfold in_s. simpl. lia. }
  destruct ((- 2 ^ 31 <=? v) && (v <=? 2 ^ 31 - 1)) eqn:E3; [|by left].
  right. exists RDB_ENC_INT32, 4%nat. split.
  { cbn [le_bytes]. pow2. rewrite !Z.div_div by lia. done. }
  split; [|tauto].
  apply andb_true_iff in E3 as [?%Z.leb_le ?%Z.leb_le]. unfold in_s. simpl. lia.
Qed.

Lemma int_reads junk flags v :
  rdbEncodeInteger v ≠ [] →
  ∃ o, text o = dec_of_Z v ∧
    reads (λ r, rdbGenericLoadStringObject junk r flags) (rdbEncodeInteger v) (RObj o).
Proof.
  intros Hne. destruct (encode_bytes v) as [|(e & k & Eb & Hv & Hk)]; [done|].
  destruct (int_object_text junk flags v) as (o & Eo & Ho).
  { clear -Hv Hk. destruct Hk as [[_ ->]|[[_ ->]|[_ ->]]]; wrap_lia. }
  exists o. split; [done|]. rewrite Eb. intros r rest Hm Hr. unfold rdbGenericLoadStringObject.
  destruct (rdbLoadLen_encval e) with (r := r) (rest := le_bytes k v ++ rest)
    as (r1 & -> & Hr1 & A1); [unfold RDB_ENC_INT8, RDB_ENC_INT16, RDB_ENC_INT32 in Hk; lia|done|done|].
  assert ((e =? RDB_ENC_INT8) || (e =? RDB_ENC_INT16) || (e =? RDB_ENC_INT32) = true) as ->
    by (destruct Hk as [[-> _]|[[-> _]|[-> _]]]; done).
  assert (Hm1 : 0 ≤ max_processing_chunk r1) by (by destruct A1 as (_ & -> & _)).
  destruct (rioRead_n r1 (Z.of_nat k) (le_bytes k v) rest) as (r2 & E2 & Hr2 & A2 & _);
    [by rewrite length_le_bytes|done|done|].
  exists r2. split; [|split; [done|exact (after_app _ _ _ _ _ A1 A2)]].
  assert (Hfin : ∀ w, w = v → of_option (int_object junk flags w) = RObj o)
    by (intros w ->; by rewrite Eo).
  clear Eo. unfold rdbLoadIntegerObject. destruct Hk as [[-> ->]|[[-> ->]|[-> ->]]].
  - change (Z.of_nat 1) with 1 in *. cbn -[rioRead int_object]. rewrite E2. cbn [le_bytes].
    f_equal. apply Hfin. wrap_lia.
  - change (Z.of_nat 2) with 2 in *. cbn -[rioRead int_object le_bytes Z.shiftl Z.lor].
    rewrite E2. cbn [le_bytes]. f_equal. apply Hfin.
    rewrite lor_shift by (pow2; Z.div_mod_to_equations; lia). wrap_lia.
  - change (Z.of_nat 4) with 4 in *. cbn -[rioRead int_object le_bytes Z.shiftl Z.lor].
    rewrite E2. cbn [le_bytes]. f_equal. apply Hfin. by apply lor_bytes4.
Qed.

Lemma raw_reads junk flags s :
  zlen s < 2 ^ 32 - 1 →
  reads (λ r, rdbGenericLoadStringObject junk r flags) (enc_len (zlen s) ++ s) (RObj (StrRaw s)).
Proof.
  intros Hs r rest Hm Hr. unfold rdbGenericLoadStringObject. rewrite <- app_assoc in Hr.
  destruct (rdbLoadLen_reads (zlen s)) with (r := r) (rest := s ++ rest) as (r1 & -> & Hr1 & A1);
    [unfold in_u; lia|done|done|].
  assert (Hm1 : 0 ≤ max_processing_chunk r1) by (by destruct A1 as (_ & -> & _)).
  unfold RDB_LENERR. rewrite (proj2 (Z.eqb_neq _ _)) by lia.
  destruct (Z.eqb_spec (zlen s) 0).
  - destruct s; [|simpl in *; lia]. exists r1. rewrite app_nil_r. done.
  - destruct (rioRead_n r1 (zlen s) s rest) as (r2 & -> & Hr2 & A2 & _); [done..|].
    exists r2. split; [done|]. split; [done|exact (after_app _ _ _ _ _ A1 A2)].
Qed.

Lemma lzf_reads junk flags c s :
  zlen c < 2 ^ 31 → zlen s < 2 ^ 31 → lzf_decompress c (zlen s) = Some (Some s) →
  reads (λ r, rdbGenericLoadStringObject junk r flags) (enc_lzf c (zlen s)) (RObj (StrRaw s)).
Proof.
  intros Hc Hs Ed r rest Hm Hr. unfold rdbGenericLoadStringObject, enc_lzf in *. pow2.
  rewrite <- !app_assoc in Hr.
  destruct (rdbLoadLen_encval RDB_ENC_LZF) with (r := r)
    (rest := enc_len (zlen c) ++ enc_len (zlen s) ++ c ++ rest)
    as (r1 & -> & Hr1 & A1); [done|done|done|].
  assert (Hm1 : 0 ≤ max_processing_chunk r1) by (by destruct A1 as (_ & -> & _)).
  cbn -[rdbLoadLzfStringObject]. unfold rdbLoadLzfStringObject.
  destruct (rdbLoadLen_reads (zlen c)) with (r := r1) (rest := enc_len (zlen s) ++ c ++ rest)
    as (r2 & -> & Hr2 & A2); [unfold in_u; pow2; lia|done|done|].
  assert (Hm2 : 0 ≤ max_processing_chunk r2) by (by destruct A2 as (_ & -> & _)).
  unfold RDB_LENERR. pow2. rewrite (proj2 (Z.eqb_neq _ _)) by lia.
  destruct (rdbLoadLen_reads (zlen s)) with (r := r2) (rest := c ++ rest)
    as (r3 & -> & Hr3 & A3); [unfold in_u; pow2; lia|done|done|].
  assert (Hm3 : 0 ≤ max_processing_chunk r3) by (by destruct A3 as (_ & -> & _)).
  rewrite (proj2 (Z.eqb_neq _ _)) by lia.
  destruct (rioRead_n r3 (zlen c) c rest) as (r4 & -> & Hr4 & A4 & _); [done..|].
  rewrite Ed. exists r4. split; [|split; [done|]].
  - f_equal. set (val := if negb _ then _ else _).
    assert (length val = length s) as Hv.
    { subst val. case_match; rewrite ?length_map, ?length_seq, ?length_replicate; lia. }
    pose proof (mwrite_end [] val s 0 eq_refl Hv) as Ew. simpl in Ew. by rewrite Ew.
  - exact (after_app _ _ _ _ _ A1 (after_app _ _ _ _ _ A2 (after_app _ _ _ _ _ A3 A4))).
Qed.
End load_spec.

(** *** Integer detection *)
Lemma span_digits_digit u : Forall digit (span_digits u).1.
Proof.
  induction u as [|c u IH]; cbn [span_digits]; [constructor|].
  destruct (isdigit c) eqn:E; [|constructor]. destruct (span_digits u). simpl in *.
  constructor; [|done]. unfold isdigit in E.
  apply andb_true_iff in E as [?%Z.leb_le ?%Z.leb_le]. split; lia.
Qed.

Lemma strtol_range s : in_s 64 (strtol s).1.
Proof.
  unfold strtol. destruct (strtol_sign (skip_spaces s)) as [minus t].
  pose proof (span_digits_digit t) as Hd. destruct (span_digits t) as [ds rest]. simpl in Hd.
  pose proof (dec_val_nonneg ds 0 ltac:(done) Hd) as Hn. fold (dec_val ds) in Hn.
  unfold LLONG_MIN, LLONG_MAX, in_s. pow2. destruct ds; simpl; [lia|].
  destruct minus; simpl fst; lia.
Qed.

Lemma cstr_app l r : nonul l → cstr (l ++ 0 :: r) = l.
Proof.
  induction 1 as [|c l Hc _ IH]; [done|]. simpl. destruct (Z.eqb_spec c 0); [done|]. by rewrite IH.
Qed.

Lemma nonul_dec_of_Z v : nonul (dec_of_Z v).
Proof.
  assert (∀ z, 0 ≤ z → nonul (dec z)) as Hd.
  { intros z Hz. eapply Forall_impl; [by apply dec_digits|]. unfold digit. intros; lia. }
  unfold dec_of_Z. destruct (Z.ltb_spec v 0); [constructor; [lia|]|]; apply Hd; lia.
Qed.

Lemma try_integer junk s :
  ∃ e, rdbTryIntegerEncoding junk s = Some e ∧
       (e = [] ∨ ∃ v, e = rdbEncodeInteger v ∧ s = dec_of_Z v).
Proof.
  unfold rdbTryIntegerEncoding. pose proof (strtol_range s) as Hv.
  destruct (strtol s) as [v endptr]. simpl in Hv.
  destruct (negb (default 0 (head endptr) =? 0)); [by exists []; auto|].
  destruct (ll2string_32 32 junk v Hv) as (b & rest & E & ->).
  { pose proof (length_dec_of_Z_20 v Hv). lia. }
  change (Z.of_nat 32) with 32 in E. rewrite E. cbn [mbind option_bind].
  rewrite cstr_app by apply nonul_dec_of_Z.
  destruct (Z.eqb_spec (zlen (dec_of_Z v)) (zlen s)) as [El|]; cbn [negb]; [|by exists []; auto].
  rewrite mread_start by done. cbn [mbind option_bind].
  case_bool_decide; cbn [negb]; [|by exists []; auto]. subst s. exists (rdbEncodeInteger v). eauto.
Qed.

(** ** The round trip *)
Section roundtrip.
Context {W R : Type} `{RioLaws W} `{RioLaws R}.

(** [bs] is an encoding of [s]: every reader gets [s] from it. *)
Definition encodes (junk : nat → Z) (s bs : list Z) : Prop :=
  ∀ flags, ∃ o, text o = s ∧
    reads (B := R) (λ r, rdbGenericLoadStringObject junk r flags) bs (RObj o).

(** A writer that, unless it fails, has written an encoding of [s]. *)
Definition saves (junk : nat → Z) (rdb : option (rio W)) (s : list Z)
    (res : option (Z * option (rio W))) : Prop :=
  ∃ res' bs, res = Some res' ∧ encodes junk s bs ∧ outcome rdb bs res' ∧
             zlen bs ≤ zlen s + 7.

Lemma verbatim_outcome (rdb : option (rio W)) s :
  chunk_ok rdb → zlen s < 2 ^ 31 →
  outcome rdb (enc_len (zlen s) ++ s) (save_verbatim rdb s).
Proof.
  intros Hc Hs. unfold save_verbatim. replace (u32 (zlen s)) with (zlen s) by wrap_lia.
  pose proof (rdbSaveLen_outcome rdb (zlen s) Hc ltac:(wrap_lia)) as Ho.
  destruct (rdbSaveLen rdb (zlen s)) as [n rdb1].
  destruct (Z.eqb_spec n (-1)); [by eapply outcome_failed|].
    destruct (outcome_ok _ _ _ _ Ho) as [En W1]; [done|]. clear Ho. simpl in *.
  rewrite Z.gtb_ltb. destruct (Z.ltb_spec 0 (zlen s)); cycle 1.
  { destruct s; [|simpl in *; lia]. rewrite app_nil_r. by right. }
  pose proof (rdbWriteRaw_outcome rdb1 s (wrote_chunk _ _ _ W1 Hc) Hs) as Ho.
  destruct (rdbWriteRaw rdb1 s) as [k rdb2].
  destruct (Z.eqb_spec k (-1)); [by eapply outcome_failed|].
    destruct (outcome_ok _ _ _ _ Ho) as [Ek W2]; [done|]. clear Ho. simpl in *.
  right. simpl. rewrite length_app. split; [lia|by eapply wrote_app].
Qed.

Lemma encodes_raw junk s : zlen s < 2 ^ 31 → encodes junk s (enc_len (zlen s) ++ s).
Proof. intros Hs flags. exists (StrRaw s). split; [done|]. apply raw_reads. pow2. lia. Qed.

Lemma encodes_int junk v : rdbEncodeInteger v ≠ [] → encodes junk (dec_of_Z v) (rdbEncodeInteger v).
Proof. intros Hne flags. destruct (int_reads (B := R) junk flags v Hne) as (o & ? & ?). eauto. Qed.

Lemma encode_length v : zlen (rdbEncodeInteger v) ≤ 5.
Proof.
  destruct (encode_bytes v) as [->|(e & k & -> & _ & Hk)]; [done|].
  cbn [length]. rewrite length_le_bytes. lia.
Qed.

Lemma save_raw_ok compression htab0 junk (rdb : option (rio W)) s :
  chunk_ok rdb → bytes_ok s → zlen s < 2 ^ 31 →
  saves junk rdb s (rdbSaveRawString compression htab0 junk rdb s).
Proof.
  intros Hc Hb Hs. unfold rdbSaveRawString.
  assert (∃ e, (if zlen s <=? 11 then rdbTryIntegerEncoding junk s else Some []) = Some e ∧
       (e = [] ∨ ∃ v, e = rdbEncodeInteger v ∧ s = dec_of_Z v)) as (e & -> & He).
  { destruct (zlen s <=? 11); [apply try_integer|by exists []; auto]. }
  cbn [mbind option_bind]. rewrite Z.gtb_ltb. destruct (Z.ltb_spec 0 (zlen e)) as [Hp|Hp].
  { destruct He as [->|(v & -> & ->)]; [simpl in Hp; lia|].
    pose proof (encode_length v) as Hl.
    pose proof (rdbWriteRaw_outcome rdb (rdbEncodeInteger v) Hc ltac:(pow2; lia)) as Ho.
    destruct (rdbWriteRaw rdb _) as [n rdb1].
    eexists _, (rdbEncodeInteger v). split; [done|]. split.
    { apply encodes_int. intros E. rewrite E in Hp. simpl in Hp. lia. }
    split; [|lia]. destruct (Z.eqb_spec n (-1)); [by eapply outcome_failed|].
    destruct (outcome_ok _ _ _ _ Ho) as [_ Hw]; [done|]. clear Ho. by right. }
  assert (Hvb : zlen (enc_len (zlen s) ++ s) ≤ zlen s + 7).
  { rewrite length_app. pose proof (enc_len_length (zlen s)). lia. }
  destruct (compression && (zlen s >? 20)) eqn:Ec; cycle 1.
  { eexists _, _. split; [done|]. split; [by apply encodes_raw|]. split; [by apply verbatim_outcome|done]. }
  apply andb_true_iff in Ec as [_ Ec]. rewrite Z.gtb_ltb in Ec. apply Z.ltb_lt in Ec.
  unfold rdbSaveLzfStringObject. rewrite (proj2 (Z.leb_gt _ _)) by lia.
  set (out0 := map junk _).
  destruct (lzf_compress_ok htab0 s out0 Hb) as (r & -> & Hr); [pow2; lia|].
  cbn [mbind option_bind]. destruct r as [c|]; cycle 1.
  { cbn [mbind option_bind Z.eqb]. eexists _, _. split; [done|].
    split; [by apply encodes_raw|]. split; [by apply verbatim_outcome|done]. }
  destruct (Hr c eq_refl) as [Hst Hlc].
  assert (zlen c < 2 ^ 31) as Hc31.
  { subst out0. rewrite length_map, length_seq in Hlc. lia. }
  pose proof (rdbSaveLzfBlob_outcome rdb c (zlen s) Hc Hc31 ltac:(unfold in_u; pow2; lia)) as Ho.
  destruct (rdbSaveLzfBlob rdb c (zlen s)) as [n rdb1]. cbn [mbind option_bind].
  exists (n, rdb1), (enc_lzf c (zlen s)). split.
  - destruct (Z.eqb_spec n (-1)) as [->|]; [done|].
    destruct (outcome_ok _ _ _ _ Ho) as [En _]; [done|]. clear Ho. rewrite Z.gtb_ltb, (proj2 (Z.ltb_lt _ _)); [done|].
    rewrite En. unfold enc_lzf. simpl. lia.
  - split; [|split; [done|]]; cycle 1.
    { pose proof (enc_len_length (zlen s)). pose proof (enc_len_length (zlen c)).
      subst out0. rewrite length_map, length_seq in Hlc.
      unfold enc_lzf. rewrite !length_app. simpl. lia. }
    intros flags. exists (StrRaw s). split; [done|].
    apply lzf_reads; [done|done|]. apply decompress_complete; [done| |lia].
    intros ->. apply stream_nil_inv in Hst as ->. simpl in Ec. lia.
Qed.

Lemma save_longlong_ok junk (rdb : option (rio W)) v :
  chunk_ok rdb → in_s 64 v →
  saves junk rdb (dec_of_Z v) (rdbSaveLongLongAsStringObject junk rdb v).
Proof.
  intros Hc Hv. unfold rdbSaveLongLongAsStringObject. rewrite Z.gtb_ltb.
  pose proof (encode_length v) as Hl. pose proof (length_dec_of_Z_20 v Hv) as H20.
  destruct (Z.ltb_spec 0 (zlen (rdbEncodeInteger v))).
  { eexists _, _. split; [done|]. split; [|split; [apply rdbWriteRaw_outcome; [done|pow2; lia]|lia]].
    apply encodes_int. intros E. rewrite E in *. simpl in *. lia. }
  destruct (ll2string_32 32 junk v Hv) as (b & rest & E & ->); [lia|].
  change (Z.of_nat 32) with 32 in E. rewrite E. cbn [mbind option_bind].
  rewrite (proj2 (Z.ltb_lt _ _)) by lia. cbn [negb].
  rewrite mread_start by done. cbn [mbind option_bind].
  eexists _, _. split; [done|]. split; [by apply encodes_raw; pow2; lia|].
  split; cycle 1.
  { rewrite length_app. pose proof (enc_len_length (zlen (dec_of_Z v))). lia. }
  replace (u32 (zlen (dec_of_Z v))) with (zlen (dec_of_Z v)) by wrap_lia.
  apply seqw_outcome; [done|apply rdbSaveLen_outcome; [done|unfold in_u; pow2; lia]|].
  intros rdb1 Hc1. apply rdbWriteRaw_outcome; [done|pow2; lia].
Qed.

Definition obj_ok (o : robj) : Prop :=
  match o with StrInt z => in_s 64 z | StrRaw s => bytes_ok s ∧ zlen s + 7 < 2 ^ 31 end.

Lemma saves_int junk rdb s res :
  zlen s + 7 < 2 ^ 31 → saves junk rdb s res →
  saves junk rdb s ('(n, rdb) ← res; Some (s32 n, rdb)).
Proof.
  intros Hs ([n rdb'] & bs & -> & He & Ho & Hl). exists (s32 n, rdb'), bs.
  split; [done|]. split; [done|]. split; [|done].
  destruct Ho as [[E F]|[E Hw]]; simpl in E; subst n; [by left|right].
  split; [|done]. simpl. wrap_lia.
Qed.

Lemma save_object_ok compression htab0 junk (rdb : option (rio W)) obj :
  chunk_ok rdb → obj_ok obj →
  saves junk rdb (text obj) (rdbSaveStringObject compression htab0 junk rdb obj).
Proof.
  intros Hc Hok. unfold rdbSaveStringObject. destruct obj as [s|z]; simpl in Hok |- *.
  - destruct Hok as [Hb Hl]. apply saves_int; [done|]. apply save_raw_ok; [done|done|lia].
  - apply saves_int; [|by apply save_longlong_ok].
    pose proof (length_dec_of_Z_20 z Hok). pow2. lia.
Qed.
End roundtrip.

(** C21: a string object - integer-encoded or not, compressible or not, with
    or without compression - that is saved on any stream is an encoding that
    any reader, over any backend, with any chunk size and with every
    combination of load flags, turns back into the same string, consuming
    exactly the bytes written and keeping the checksum in step.  The returned
    length is the number of bytes written; saving fails only when the backend
    refuses a write.  (Strings of less than 2^31 - 7 bytes: the length is
    returned as an [int].) *)
Theorem rdb_string_roundtrip {W R : Type} `{RioLaws W} `{RioLaws R}
    (compression : bool) (htab0 : Z → Z) (junk : nat → Z) (w : rio W) (obj : robj) :
  0 ≤ max_processing_chunk w → obj_ok obj →
  ∃ n rdb', rdbSaveStringObject compression htab0 junk (Some w) obj = Some (n, rdb') ∧
    (n = -1 ∧ ¬ accepting W ∨
     ∃ w' bs, rdb' = Some w' ∧ n = zlen bs ∧ sent (io w') = sent (io w) ++ bs ∧ after w bs w' ∧
       ∀ flags (r : rio R) rest,
         0 ≤ max_processing_chunk r → readable (io r) (bs ++ rest) →
         ∃ o r', rdbGenericLoadStringObject junk r flags = (RObj o, r') ∧
           text o = text obj ∧ readable (io r') rest ∧ after r bs r').
Proof.
  intros Hm Hok.
  destruct (save_object_ok (R := R) compression htab0 junk (Some w) obj Hm Hok)
    as ([n rdb'] & bs & -> & He & Ho & _).
  exists n, rdb'. split; [done|]. destruct Ho as [|[En Hw]]; [by left|right].
  destruct rdb' as [w'|]; [|done]. destruct Hw as [Hs Ha].
  exists w', bs. repeat (split; [done|]). intros flags r rest Hr Hrd.
  destruct (He flags) as (o & Ho & Hread). destruct (Hread r rest Hr Hrd) as (r' & ? & ? & ?).
  by exists o, r'.
Qed.

(** A compressible string saved to memory in chunks of 7 bytes and read back
    from a file in chunks of 3. *)
Lemma rdb_string_roundtrip_witness :
  let obj := StrRaw (of_string "abcabcabcabcabcabcabcabcabcabc") in
  let w := mk_rio (mk_buffer [] 0) true 0 0 7 in
  ∃ n rdb', rdbSaveStringObject true (λ i, i) (λ _, 85) (Some w) obj = Some (n, rdb') ∧
    (n = -1 ∧ ¬ accepting rio_buffer ∨
     ∃ w' bs, rdb' = Some w' ∧ n = zlen bs ∧ ptr (io w') = bs ∧ after w bs w' ∧
       ∀ flags (r : rio rio_file) rest,
         0 ≤ max_processing_chunk r → readable (io r) (bs ++ rest) →
         ∃ o r', rdbGenericLoadStringObject (λ _, 85) r flags = (RObj o, r') ∧
           text o = text obj ∧ readable (io r') rest ∧ after r bs r').
Proof.
  intros obj w.
  exact (rdb_string_roundtrip (R := rio_file) true (λ i, i) (λ _, 85) w obj
    ltac:(done) ltac:(by apply (bool_decide_unpack (bytes_ok _ ∧ _)))).
Defined.
