(* ===== verification/Notify.v ===== *)
(** * Keyspace events ([redis-3.2/src/notify.c])

    The classes of events as a string and as flags, and the messages an event
    publishes.  A dynamic string is its bytes; the publications are returned
    as the list of the channels and messages passed to
    [pubsubPublishMessage]. *)

From Stdlib Require Import Ascii.
From S2P Require Import Prelude Decimal Util SdsNum.

Definition NOTIFY_KEYSPACE : Z := Z.shiftl 1 0.
Definition NOTIFY_KEYEVENT : Z := Z.shiftl 1 1.
Definition NOTIFY_GENERIC : Z := Z.shiftl 1 2.
Definition NOTIFY_STRING : Z := Z.shiftl 1 3.
Definition NOTIFY_LIST : Z := Z.shiftl 1 4.
Definition NOTIFY_SET : Z := Z.shiftl 1 5.
Definition NOTIFY_HASH : Z := Z.shiftl 1 6.
Definition NOTIFY_ZSET : Z := Z.shiftl 1 7.
Definition NOTIFY_EXPIRED : Z := Z.shiftl 1 8.
Definition NOTIFY_EVICTED : Z := Z.shiftl 1 9.
Definition NOTIFY_ALL : Z :=
  Z.lor NOTIFY_GENERIC (Z.lor NOTIFY_STRING (Z.lor NOTIFY_LIST (Z.lor NOTIFY_SET
    (Z.lor NOTIFY_HASH (Z.lor NOTIFY_ZSET (Z.lor NOTIFY_EXPIRED NOTIFY_EVICTED)))))).

(** The [switch] on a class character. *)
Definition class_flag (c : Z) : option Z :=
  if c =? chr "A"%char then Some NOTIFY_ALL
  else if c =? chr "g"%char then Some NOTIFY_GENERIC
  else if c =? chr "$"%char then Some NOTIFY_STRING
  else if c =? chr "l"%char then Some NOTIFY_LIST
  else if c =? chr "s"%char then Some NOTIFY_SET
  else if c =? chr "h"%char then Some NOTIFY_HASH
  else if c =? chr "z"%char then Some NOTIFY_ZSET
  else if c =? chr "x"%char then Some NOTIFY_EXPIRED
  else if c =? chr "e"%char then Some NOTIFY_EVICTED
  else if c =? chr "K"%char then Some NOTIFY_KEYSPACE
  else if c =? chr "E"%char then Some NOTIFY_KEYEVENT
  else None.

Fixpoint flags_loop (p : list Z) (flags : Z) : Z :=
  match p with
  | [] => flags
  | c :: p =>
      if c =? 0 then flags else
      match class_flag c with
      | Some f => flags_loop p (Z.lor flags f)
      | None => -1
      end
  end.

Definition keyspaceEventsStringToFlags (classes : list Z) : Z := flags_loop classes 0.

Definition cat_if (flags f : Z) (c : ascii) (res : list Z) : list Z :=
  if negb (Z.land flags f =? 0) then res ++ [chr c] else res.

Definition keyspaceEventsFlagsToString (flags : Z) : list Z :=
  let res := [] in
  let res :=
    if Z.land flags NOTIFY_ALL =? NOTIFY_ALL then res ++ [chr "A"%char] else
    let res := cat_if flags NOTIFY_GENERIC "g"%char res in
    let res := cat_if flags NOTIFY_STRING "$"%char res in
    let res := cat_if flags NOTIFY_LIST "l"%char res in
    let res := cat_if flags NOTIFY_SET "s"%char res in
    let res := cat_if flags NOTIFY_HASH "h"%char res in
    let res := cat_if flags NOTIFY_ZSET "z"%char res in
    let res := cat_if flags NOTIFY_EXPIRED "x"%char res in
    cat_if flags NOTIFY_EVICTED "e"%char res in
  let res := cat_if flags NOTIFY_KEYSPACE "K"%char res in
  cat_if flags NOTIFY_KEYEVENT "E"%char res.

(** [junk]: the initial content of [buf]; [None]: an access outside it. *)
Definition notifyKeyspaceEvent (junk : nat → Z) (notify_keyspace_events type : Z)
    (event key : list Z) (dbid : Z) : option (list (list Z * list Z)) :=
  let buf := map junk (seq 0 24) in
  if Z.land notify_keyspace_events type =? 0 then Some [] else
  let eventobj := cstr event in
  '(len, buf, pub1) ← (
    if negb (Z.land notify_keyspace_events NOTIFY_KEYSPACE =? 0) then
      '(len, buf) ← ll2string buf 24 dbid;
      db ← mread buf 0 len;
      Some (len, buf, [(of_string "__keyspace@" ++ db ++ of_string "__:" ++ key, eventobj)])
    else Some (-1, buf, []));
  pub2 ← (
    if negb (Z.land notify_keyspace_events NOTIFY_KEYEVENT =? 0) then
      '(len, buf) ← (if len =? -1 then ll2string buf 24 dbid else Some (len, buf));
      db ← mread buf 0 len;
      Some [(of_string "__keyevent@" ++ db ++ of_string "__:" ++ eventobj, key)]
    else Some []);
  Some (pub1 ++ pub2).

(** The set of classes a string selects, [None] for a string with an unknown
    character. *)
Definition classes_spec (s : list Z) : option (list Z) := mapM class_flag s.

Lemma flags_loop_spec s : ∀ flags,
  nonul s → 0 ≤ flags →
  flags_loop s flags = match classes_spec s with
                       | Some fs => foldl Z.lor flags fs
                       | None => -1
                       end.
Proof.
  unfold classes_spec. induction s as [|c s IH]; intros flags Hs Hf; [done|].
  inversion Hs as [|? ? Hc Hs']; subst. cbn [flags_loop mapM].
  destruct (Z.eqb_spec c 0); [done|]. cbn [mbind option_bind].
  destruct (class_flag c) as [f|] eqn:E; [|done]. cbn [mbind option_bind].
  rewrite IH; [|done|].
  - destruct (mapM class_flag s); done.
  - apply Z.lor_nonneg. split; [done|]. unfold class_flag in E.
    repeat case_match; simplify_eq; done.
Qed.

(** The two conversions are inverse: the string printed for any
    combination of event classes is parsed back to the same flags; the parser
    accepts exactly the strings of known class characters and returns the
    union of their classes, -1 for every other string. *)
Theorem notify_classes_roundtrip (flags : Z) (s : list Z) :
  0 ≤ flags < 1024 → nonul s →
  keyspaceEventsStringToFlags (keyspaceEventsFlagsToString flags) = flags ∧
  keyspaceEventsStringToFlags s = match classes_spec s with
                                  | Some fs => foldl Z.lor 0 fs
                                  | None => -1
                                  end.
Proof.
  intros Hf Hs. split; [|by apply flags_loop_spec].
  assert (Forall (λ n : nat,
    keyspaceEventsStringToFlags (keyspaceEventsFlagsToString (Z.of_nat n)) = Z.of_nat n)
    (seq 0 1024)) as H by (apply (bool_decide_unpack _); by vm_compute).
  rewrite Forall_forall in H. rewrite <- (Z2Nat.id flags) by lia.
  apply H, elem_of_seq. lia.
Qed.

Lemma notify_classes_roundtrip_witness :
  keyspaceEventsStringToFlags (keyspaceEventsFlagsToString 517) = 517 ∧
  keyspaceEventsStringToFlags (of_string "Kgq") =
    match classes_spec (of_string "Kgq") with Some fs => foldl Z.lor 0 fs | None => -1 end.
Proof. apply (notify_classes_roundtrip 517 (of_string "Kgq")); [done|by repeat constructor]. Defined.

(** An event publishes exactly the messages its configuration asks for,
    keyspace message first, with the decimal database number - printed once
    and reused - in both channel names; it never leaves its buffer. *)
Theorem notifyKeyspaceEvent_messages junk flags type event key dbid :
  in_s 32 dbid → nonul event →
  notifyKeyspaceEvent junk flags type event key dbid =
    Some (if Z.land flags type =? 0 then [] else
      (if Z.testbit flags 0
       then [(of_string "__keyspace@" ++ dec_of_Z dbid ++ of_string "__:" ++ key, event)] else []) ++
      (if Z.testbit flags 1
       then [(of_string "__keyevent@" ++ dec_of_Z dbid ++ of_string "__:" ++ event, key)] else [])).
Proof.
  intros Hd He. unfold notifyKeyspaceEvent.
  destruct (Z.land flags type =? 0); [done|]. rewrite cstr_nonul by done.
  unfold NOTIFY_KEYSPACE, NOTIFY_KEYEVENT. rewrite !flag_set by lia.
  assert (in_s 64 dbid) as Hd' by (clear -Hd; wrap_lia).
  destruct (ll2string_32 24 junk dbid Hd') as (b & rest & E & ->).
  { pose proof (length_dec_of_Z_20 dbid Hd'). lia. }
  change (Z.of_nat 24) with 24 in E. rewrite E.
  pose proof (mread_app [] (dec_of_Z dbid) (0 :: rest) 0 (zlen (dec_of_Z dbid)) eq_refl eq_refl) as Em.
  cbn [app] in Em.
  destruct (Z.testbit flags 0); cbn [mbind option_bind]; rewrite ?Em; cbn [mbind option_bind];
    [rewrite (proj2 (Z.eqb_neq (zlen (dec_of_Z dbid)) (-1))) by lia|rewrite Z.eqb_refl];
    destruct (Z.testbit flags 1); cbn [mbind option_bind]; rewrite ?E;
    cbn [mbind option_bind]; rewrite ?Em; done.
Qed.

Lemma notifyKeyspaceEvent_messages_witness :
  notifyKeyspaceEvent (λ _, 9) 7 4 (of_string "del") (of_string "mykey") 0 =
    Some [(of_string "__keyspace@0__:mykey", of_string "del");
          (of_string "__keyevent@0__:del", of_string "mykey")].
Proof.
  rewrite (notifyKeyspaceEvent_messages (λ _, 9) 7 4 (of_string "del") (of_string "mykey") 0);
    [by vm_compute|by split|by repeat constructor].
Defined.
