(* ===== verification/Multi.v ===== *)
(** * Transactions ([redis-3.2/src/multi.c])

    MULTI, EXEC, DISCARD, WATCH and UNWATCH, with the parts of [server.c] that
    check, queue, call and propagate commands ([processCommand], [call],
    [propagate], [alsoPropagate]) and of [db.c] that signal modified keys.

    The server is a record of its clients, its data set, the watched keys (the
    per-database dictionaries, keyed by database and key), the dirty counter
    and what was sent to the append only file, to the slaves and to the
    monitors.  [touched] is a ghost field, the keys signalled so far.

    The procedure of a command is a function pointer of the command table;
    here it is one of the procedures of this file, FLUSHDB or FLUSHALL, or
    [POther n f]: an arbitrary function of the flags and the database of the
    client, the dirty counter, the arguments and the data set, whose result [effect] says what it
    does to them, which keys it signals, how much it adds to the dirty
    counter, what it asks to propagate and what it replies.  It cannot change
    the three flags of transactions.  [n] tells the procedures apart that
    [processCommand] compares pointers with.

    [None] is a failed assertion or the use of a null pointer. *)

From S2P Require Import Prelude Util.

Abbreviation bytes := (list Z).
Abbreviation cid := positive.
Abbreviation dbkey := (Z * list Z)%type.

Definition CLIENT_MASTER : Z := Z.shiftl 1 1.
Definition CLIENT_MULTI : Z := Z.shiftl 1 3.
Definition CLIENT_DIRTY_CAS : Z := Z.shiftl 1 5.
Definition CLIENT_CLOSE_AFTER_REPLY : Z := Z.shiftl 1 6.
Definition CLIENT_LUA : Z := Z.shiftl 1 8.
Definition CLIENT_DIRTY_EXEC : Z := Z.shiftl 1 12.
Definition CLIENT_FORCE_AOF : Z := Z.shiftl 1 14.
Definition CLIENT_FORCE_REPL : Z := Z.shiftl 1 15.
Definition CLIENT_PUBSUB : Z := Z.shiftl 1 18.
Definition CLIENT_PREVENT_AOF_PROP : Z := Z.shiftl 1 19.
Definition CLIENT_PREVENT_REPL_PROP : Z := Z.shiftl 1 20.
Definition CLIENT_PREVENT_PROP : Z := Z.lor CLIENT_PREVENT_AOF_PROP CLIENT_PREVENT_REPL_PROP.
Definition CMD_WRITE : Z := 1.
Definition CMD_READONLY : Z := 2.
Definition CMD_DENYOOM : Z := 4.
Definition CMD_ADMIN : Z := 16.
Definition CMD_LOADING : Z := 512.
Definition CMD_STALE : Z := 1024.
Definition CMD_SKIP_MONITOR : Z := 2048.
Definition PROPAGATE_NONE : Z := 0.
Definition PROPAGATE_AOF : Z := 1.
Definition PROPAGATE_REPL : Z := 2.

(** [flags & m]. *)
Definition has (f m : Z) : bool := negb (Z.land f m =? 0).

(** The flags [call] clears before a command and restores after it. *)
Definition prop_mask : Z :=
  Z.lor CLIENT_FORCE_AOF (Z.lor CLIENT_FORCE_REPL CLIENT_PREVENT_PROP).
(** The flags a transaction owns. *)
Definition tx_mask : Z := Z.lor CLIENT_MULTI (Z.lor CLIENT_DIRTY_CAS CLIENT_DIRTY_EXEC).

(** Replies: the shared objects, error messages, and what commands answer. *)
Inductive reply :=
| ROk | RQueued | RExecAbort | RNullMulti | RMultiLen (n : Z) | RErr (msg : string)
| RUnknown (name : bytes) | RArity (name : bytes)
| RNoAuth | RRedirect | ROom | RBgsave | RAofWrite | RNoReplicas | RRoSlave | RMasterDown
| RLoading | RSlowScript | ROther (b : bytes).

(** Procedures [processCommand] names. *)
Inductive other :=
| OAuth | OPing | OSubscribe | OUnsubscribe | OPsubscribe | OPunsubscribe | OReplconf
| OShutdown | OScript | OAny.
#[export] Instance other_eq_dec : EqDecision other.
Proof. solve_decision. Defined.

(** An operation of [server.also_propagate]. *)
Record redisOp := mk_op { op_dbid : Z; op_argv : list bytes; op_target : Z }.

Section multi.
Context {V : Type}.
Abbreviation dataset := (gmap dbkey V).

Record effect := mk_effect {
  e_flags : Z;
  e_db : Z;
  e_argv : list bytes;
  e_data : dataset;
  e_keys : list dbkey;
  e_dirty : Z;
  e_also : list redisOp;
  e_reply : reply
}.
Abbreviation behaviour := (Z → Z → Z → list bytes → dataset → effect).

Inductive proc :=
| PMulti | PExec | PDiscard | PWatch | PUnwatch | PFlushdb | PFlushall
| POther (n : other) (f : behaviour).

Record redisCommand := mk_cmd {
  name : bytes; cproc : proc; arity : Z; cflags : Z; getkeys_proc : bool; firstkey : Z }.
Record multiCmd := mk_mc { mc_argv : list bytes; mc_cmd : redisCommand }.

Record client := mk_client {
  flags : Z;
  mstate : list multiCmd;
  watched_keys : list dbkey;
  cdb : Z;
  cargv : list bytes;
  ccmd : option redisCommand;
  creply : list reply
}.

(** [monitors] is [listLength(server.monitors) && !server.loading]. *)
Record server := mk_server {
  clients : gmap cid client;
  data : dataset;
  watchers : gmap dbkey (list cid);
  dirty : Z;
  aof_on : bool;
  aof : list (Z * list bytes);
  repl : list (Z * list bytes);
  also_propagate : list redisOp;
  monitors : bool;
  monitored : list (Z * list bytes);
  touched : list dbkey
}.

(** ** Field updates *)
Definition set_flags (f : Z) (c : client) : client :=
  mk_client f (mstate c) (watched_keys c) (cdb c) (cargv c) (ccmd c) (creply c).
Definition set_mstate (q : list multiCmd) (c : client) : client :=
  mk_client (flags c) q (watched_keys c) (cdb c) (cargv c) (ccmd c) (creply c).
Definition set_watched (w : list dbkey) (c : client) : client :=
  mk_client (flags c) (mstate c) w (cdb c) (cargv c) (ccmd c) (creply c).
Definition set_db (d : Z) (c : client) : client :=
  mk_client (flags c) (mstate c) (watched_keys c) d (cargv c) (ccmd c) (creply c).
Definition set_argv (a : list bytes) (c : client) : client :=
  mk_client (flags c) (mstate c) (watched_keys c) (cdb c) a (ccmd c) (creply c).
Definition set_cmd (m : option redisCommand) (c : client) : client :=
  mk_client (flags c) (mstate c) (watched_keys c) (cdb c) (cargv c) m (creply c).
Definition add_reply (r : reply) (c : client) : client :=
  mk_client (flags c) (mstate c) (watched_keys c) (cdb c) (cargv c) (ccmd c) (creply c ++ [r]).
Definition or_flags (m : Z) (c : client) : client := set_flags (Z.lor (flags c) m) c.
Definition clear_flags (m : Z) (c : client) : client :=
  set_flags (Z.land (flags c) (Z.lnot m)) c.

Definition set_clients (cs : gmap cid client) (s : server) : server :=
  mk_server cs (data s) (watchers s) (dirty s) (aof_on s) (aof s) (repl s) (also_propagate s)
    (monitors s) (monitored s) (touched s).
Definition set_data (d : dataset) (s : server) : server :=
  mk_server (clients s) d (watchers s) (dirty s) (aof_on s) (aof s) (repl s) (also_propagate s)
    (monitors s) (monitored s) (touched s).
Definition set_watchers (w : gmap dbkey (list cid)) (s : server) : server :=
  mk_server (clients s) (data s) w (dirty s) (aof_on s) (aof s) (repl s) (also_propagate s)
    (monitors s) (monitored s) (touched s).
Definition add_dirty (n : Z) (s : server) : server :=
  mk_server (clients s) (data s) (watchers s) (dirty s + n) (aof_on s) (aof s) (repl s)
    (also_propagate s) (monitors s) (monitored s) (touched s).
Definition set_also (l : list redisOp) (s : server) : server :=
  mk_server (clients s) (data s) (watchers s) (dirty s) (aof_on s) (aof s) (repl s) l
    (monitors s) (monitored s) (touched s).
Definition log_touched (ks : list dbkey) (s : server) : server :=
  mk_server (clients s) (data s) (watchers s) (dirty s) (aof_on s) (aof s) (repl s)
    (also_propagate s) (monitors s) (monitored s) (touched s ++ ks).
Definition upd (s : server) (i : cid) (f : client → client) : server :=
  set_clients (alter f i (clients s)) s.

Definition addReply (s : server) (i : cid) (r : reply) : server := upd s i (add_reply r).
Definition addReplyError (s : server) (i : cid) (msg : string) : server :=
  addReply s i (RErr msg).

(** [feedAppendOnlyFile] and [replicationFeedSlaves] append to the logs. *)
Definition propagate (s : server) (dbid : Z) (argv : list bytes) (target : Z) : server :=
  mk_server (clients s) (data s) (watchers s) (dirty s) (aof_on s)
    (if aof_on s && has target PROPAGATE_AOF then aof s ++ [(dbid, argv)] else aof s)
    (if has target PROPAGATE_REPL then repl s ++ [(dbid, argv)] else repl s)
    (also_propagate s) (monitors s) (monitored s) (touched s).

Definition replicationFeedMonitors (s : server) (dbid : Z) (argv : list bytes) : server :=
  mk_server (clients s) (data s) (watchers s) (dirty s) (aof_on s) (aof s) (repl s)
    (also_propagate s) (monitors s) (monitored s ++ [(dbid, argv)]) (touched s).

(** ** Watched keys *)

Definition watchForKey (s : server) (i : cid) (key : bytes) : option server :=
  c ← clients s !! i;
  let k := (cdb c, key) in
  if bool_decide (k ∈ watched_keys c) then Some s else
  let l := default [] (watchers s !! k) in
  let s := set_watchers (<[k := l ++ [i]]> (watchers s)) s in
  Some (upd s i (set_watched (watched_keys c ++ [k]))).

(** [listDelNode(clients,listSearchKey(clients,c))]; the first match. *)
Fixpoint del_first (i : cid) (l : list cid) : option (list cid) :=
  match l with
  | [] => None
  | x :: l => if bool_decide (x = i) then Some l else (x ::.) <$> del_first i l
  end.

(** The loop over [c->watched_keys]. *)
Fixpoint unwatch_loop (s : server) (i : cid) (wks : list dbkey) : option server :=
  match wks with
  | [] => Some (upd s i (set_watched []))
  | k :: wks =>
      l ← watchers s !! k;
      l ← del_first i l;
      let s := set_watchers
        (match l with [] => delete k (watchers s) | _ => <[k := l]> (watchers s) end) s in
      unwatch_loop s i wks
  end.

Definition unwatchAllKeys (s : server) (i : cid) : option server :=
  c ← clients s !! i;
  match watched_keys c with
  | [] => Some s
  | wks => unwatch_loop s i wks
  end.

(** Mark every client of the list. *)
Definition mark (s : server) (l : list cid) : server :=
  foldl (λ s i, upd s i (or_flags CLIENT_DIRTY_CAS)) s l.

Definition touchWatchedKey (s : server) (k : dbkey) : server :=
  mark (log_touched [k] s) (default [] (watchers s !! k)).

Definition signalModifiedKey (s : server) (k : dbkey) : server := touchWatchedKey s k.

(** [dbid == -1 || wk->db->id == dbid]. *)
Definition in_db (dbid : Z) (k : dbkey) : bool := (dbid =? -1) || (k.1 =? dbid).

(** A client with a watched key that exists and is about to be flushed. *)
Definition flush_hits (s : server) (dbid : Z) (c : client) : bool :=
  existsb (λ k, in_db dbid k && bool_decide (is_Some (data s !! k))) (watched_keys c).

Definition touchWatchedKeysOnFlush (s : server) (dbid : Z) : server :=
  log_touched (filter (λ k, in_db dbid k = true) (elements (dom (data s))))
    (set_clients ((λ c, if flush_hits s dbid c then or_flags CLIENT_DIRTY_CAS c else c)
                  <$> clients s) s).

(** ** Queueing *)

Definition initClientMultiState (c : client) : client := set_mstate [] c.

Definition queueMultiCommand (s : server) (i : cid) : option server :=
  c ← clients s !! i;
  m ← ccmd c;
  Some (upd s i (set_mstate (mstate c ++ [mk_mc (cargv c) m]))).

Definition discardTransaction (s : server) (i : cid) : option server :=
  let s := upd s i initClientMultiState in
  let s := upd s i (clear_flags tx_mask) in
  unwatchAllKeys s i.

Definition flagTransaction (s : server) (i : cid) : server :=
  upd s i (λ c, if has (flags c) CLIENT_MULTI then or_flags CLIENT_DIRTY_EXEC c else c).

(** ** Procedures *)

Definition multiCommand (s : server) (i : cid) : option server :=
  c ← clients s !! i;
  if has (flags c) CLIENT_MULTI then Some (addReplyError s i "MULTI calls can not be nested")
  else
    let s := upd s i (or_flags CLIENT_MULTI) in
    Some (addReply s i ROk).

Definition discardCommand (s : server) (i : cid) : option server :=
  c ← clients s !! i;
  if negb (has (flags c) CLIENT_MULTI) then Some (addReplyError s i "DISCARD without MULTI")
  else s ← discardTransaction s i; Some (addReply s i ROk).

Fixpoint watch_all (s : server) (i : cid) (keys : list bytes) : option server :=
  match keys with
  | [] => Some s
  | k :: keys => s ← watchForKey s i k; watch_all s i keys
  end.

Definition watchCommand (s : server) (i : cid) : option server :=
  c ← clients s !! i;
  if has (flags c) CLIENT_MULTI
  then Some (addReplyError s i "WATCH inside MULTI is not allowed")
  else s ← watch_all s i (tail (cargv c)); Some (addReply s i ROk).

Definition unwatchCommand (s : server) (i : cid) : option server :=
  s ← unwatchAllKeys s i;
  let s := upd s i (clear_flags CLIENT_DIRTY_CAS) in
  Some (addReply s i ROk).

(** The keys of a database. *)
Definition db_dict (dbid : Z) (d : dataset) : dataset := filter (λ kv, kv.1.1 = dbid) d.

Definition flushdbCommand (s : server) (i : cid) : option server :=
  c ← clients s !! i;
  let gone := db_dict (cdb c) (data s) in
  let s := add_dirty (Z.of_nat (size gone)) s in
  let s := touchWatchedKeysOnFlush s (cdb c) in
  let s := set_data (data s ∖ gone) s in
  Some (addReply s i ROk).

(** Without the snapshot that is saved and the child that is killed. *)
Definition flushallCommand (s : server) (i : cid) : option server :=
  let s := touchWatchedKeysOnFlush s (-1) in
  let s := add_dirty (Z.of_nat (size (data s))) s in
  let s := set_data ∅ s in
  let s := addReply s i ROk in
  Some (add_dirty 1 s).

(** What a command of the table does, from its [effect]. *)
Definition otherCommand (f : behaviour) (s : server) (i : cid) : option server :=
  c ← clients s !! i;
  let e := f (flags c) (cdb c) (dirty s) (cargv c) (data s) in
  let s := set_data (e_data e) s in
  let s := foldl signalModifiedKey s (e_keys e) in
  let s := add_dirty (e_dirty e) s in
  let s := set_also (also_propagate s ++ e_also e) s in
  let s := upd s i (λ c, set_flags
    (Z.lor (Z.land (flags c) tx_mask) (Z.ldiff (e_flags e) tx_mask)) c) in
  let s := upd s i (set_db (e_db e)) in
  let s := upd s i (set_argv (e_argv e)) in
  Some (addReply s i (e_reply e)).

(** [c->cmd->proc(c)], for the procedures other than EXEC. *)
Definition run_proc (p : proc) (s : server) (i : cid) : option server :=
  match p with
  | PMulti => multiCommand s i
  | PDiscard => discardCommand s i
  | PWatch => watchCommand s i
  | PUnwatch => unwatchCommand s i
  | PFlushdb => flushdbCommand s i
  | PFlushall => flushallCommand s i
  | POther _ f => otherCommand f s i
  | PExec => None
  end.

(** ** [call] *)

(** Where the command is propagated, from the flags it left and whether it
    changed the data set. *)
Definition propagate_flags (fl : Z) (changed : bool) : Z :=
  if Z.land fl CLIENT_PREVENT_PROP =? CLIENT_PREVENT_PROP then PROPAGATE_NONE else
  let p := if changed then Z.lor PROPAGATE_AOF PROPAGATE_REPL else PROPAGATE_NONE in
  let p := if has fl CLIENT_FORCE_REPL then Z.lor p PROPAGATE_REPL else p in
  let p := if has fl CLIENT_FORCE_AOF then Z.lor p PROPAGATE_AOF else p in
  let p := if has fl CLIENT_PREVENT_REPL_PROP then Z.land p (Z.lnot PROPAGATE_REPL) else p in
  if has fl CLIENT_PREVENT_AOF_PROP then Z.land p (Z.lnot PROPAGATE_AOF) else p.

(** [if (target) propagate(...)] for each operation. *)
Definition propagate_ops (s : server) (l : list redisOp) : server :=
  foldl (λ s o, if op_target o =? 0 then s
                else propagate s (op_dbid o) (op_argv o) (op_target o)) s l.

(** [call(c, CMD_CALL_FULL)], without statistics and the slow log; [run] is
    [c->cmd->proc]. *)
Definition call (run : proc → server → cid → option server) (s : server) (i : cid)
  : option server :=
  c ← clients s !! i;
  m ← ccmd c;
  let s := if monitors s && negb (has (cflags m) (Z.lor CMD_SKIP_MONITOR CMD_ADMIN))
           then replicationFeedMonitors s (cdb c) (cargv c) else s in
  let old := flags c in
  let s := upd s i (clear_flags prop_mask) in
  let s := set_also [] s in
  let before := dirty s in
  s ← run (cproc m) s i;
  c ← clients s !! i;
  let p := propagate_flags (flags c) (dirty s - before >? 0) in
  let s := if p =? PROPAGATE_NONE then s else propagate s (cdb c) (cargv c) p in
  let s := upd s i (clear_flags prop_mask) in
  let s := upd s i (or_flags (Z.land old prop_mask)) in
  Some (set_also [] (propagate_ops s (also_propagate s))).

(** ** EXEC *)

Definition execCommandPropagateMulti (s : server) (i : cid) : option server :=
  c ← clients s !! i;
  Some (propagate s (cdb c) [of_string "MULTI"] (Z.lor PROPAGATE_AOF PROPAGATE_REPL)).

(** The loop over the queued commands; [must] is [must_propagate].  The
    queued command is written back as [call] left it. *)
Fixpoint exec_loop (j : nat) (n : nat) (must : bool) (s : server) (i : cid)
  : option (bool * server) :=
  match n with
  | O => Some (must, s)
  | S n =>
      c ← clients s !! i;
      mc ← mstate c !! j;
      let s := upd s i (set_argv (mc_argv mc)) in
      let s := upd s i (set_cmd (Some (mc_cmd mc))) in
      '(must, s) ← (if negb must && negb (has (cflags (mc_cmd mc)) CMD_READONLY)
                    then s ← execCommandPropagateMulti s i; Some (true, s)
                    else Some (must, s));
      s ← call run_proc s i;
      c ← clients s !! i;
      m ← ccmd c;
      let s := upd s i (set_mstate (<[j := mk_mc (cargv c) m]> (mstate c))) in
      exec_loop (S j) n must s i
  end.

Definition execCommand (s : server) (i : cid) : option server :=
  c ← clients s !! i;
  if negb (has (flags c) CLIENT_MULTI) then Some (addReplyError s i "EXEC without MULTI") else
  s ← (if has (flags c) (Z.lor CLIENT_DIRTY_CAS CLIENT_DIRTY_EXEC) then
         let s := addReply s i (if has (flags c) CLIENT_DIRTY_EXEC then RExecAbort
                                else RNullMulti) in
         discardTransaction s i
       else
         s ← unwatchAllKeys s i;
         let s := addReply s i (RMultiLen (Z.of_nat (length (mstate c)))) in
         '(must, s) ← exec_loop 0 (length (mstate c)) false s i;
         let s := upd s i (set_argv (cargv c)) in
         let s := upd s i (set_cmd (ccmd c)) in
         s ← discardTransaction s i;
         Some (if must : bool then add_dirty 1 s else s));
  c ← clients s !! i;
  Some (if monitors s then replicationFeedMonitors s (cdb c) (cargv c) else s).

Definition run_any (p : proc) (s : server) (i : cid) : option server :=
  match p with PExec => execCommand s i | _ => run_proc p s i end.

(** ** [processCommand] *)

(** What the checks read besides the client and the command: the
    configuration and the state of persistence, replication, cluster and
    scripts.  [redirected] is the outcome of [getNodeByQuery], [oom] the one
    of [freeMemoryIfNeeded]. *)
Record env := mk_env {
  table : gmap bytes redisCommand;
  requirepass : bool;
  authenticated : bool;
  cluster_enabled : bool;
  lua_caller_master : bool;
  redirected : bool;
  maxmemory : bool;
  oom : bool;
  stop_writes_on_bgsave_err : bool;
  saveparams : bool;
  lastbgsave_err : bool;
  aof_last_write_err : bool;
  masterhost : bool;
  repl_min_slaves_to_write : Z;
  repl_min_slaves_max_lag : Z;
  repl_good_slaves_count : Z;
  repl_slave_ro : bool;
  repl_connected : bool;
  repl_serve_stale_data : bool;
  loading : bool;
  lua_timedout : bool
}.

(** The table compares names without regard to case. *)
Definition lookupCommand (e : env) (name : bytes) : option redisCommand :=
  table e !! map tolower name.

Definition is_exec (p : proc) : bool := match p with PExec => true | _ => false end.
Definition is_other (l : list other) (p : proc) : bool :=
  match p with POther n _ => bool_decide (n ∈ l) | _ => false end.

(** Two arguments, the second starting with the letter [x] in either case. *)
Definition second_is (x : Z) (argv : list bytes) : bool :=
  match argv with [_; a] => tolower (default 0 (head a)) =? x | _ => false end.

(** What is done to the transaction when a command is refused. *)
Inductive action := Flag | Discard | Leave.

(** The checks, in the order of the code: [None] lets the command pass. *)
Definition refusal (e : env) (fl : Z) (argv : list bytes) (m : redisCommand)
  : option (action * reply) :=
  let argc := Z.of_nat (length argv) in
  let p := cproc m in
  if ((arity m >? 0) && negb (arity m =? argc)) || (argc <? - arity m)
  then Some (Flag, RArity (name m))
  else if requirepass e && negb (authenticated e) && negb (is_other [OAuth] p)
  then Some (Flag, RNoAuth)
  else if cluster_enabled e && negb (has fl CLIENT_MASTER)
          && negb (has fl CLIENT_LUA && lua_caller_master e)
          && negb (negb (getkeys_proc m) && (firstkey m =? 0) && negb (is_exec p))
          && redirected e
  then Some (if is_exec p then Discard else Flag, RRedirect)
  else if maxmemory e && (has (cflags m) CMD_DENYOOM && oom e)
  then Some (Flag, ROom)
  else if ((stop_writes_on_bgsave_err e && saveparams e && lastbgsave_err e)
           || aof_last_write_err e)
          && negb (masterhost e) && (has (cflags m) CMD_WRITE || is_other [OPing] p)
  then Some (Flag, if negb (aof_last_write_err e) then RBgsave else RAofWrite)
  else if negb (masterhost e) && negb (repl_min_slaves_to_write e =? 0)
          && negb (repl_min_slaves_max_lag e =? 0) && has (cflags m) CMD_WRITE
          && (repl_good_slaves_count e <? repl_min_slaves_to_write e)
  then Some (Flag, RNoReplicas)
  else if masterhost e && repl_slave_ro e && negb (has fl CLIENT_MASTER)
          && has (cflags m) CMD_WRITE
  then Some (Leave, RRoSlave)
  else if has fl CLIENT_PUBSUB
          && negb (is_other [OPing; OSubscribe; OUnsubscribe; OPsubscribe; OPunsubscribe] p)
  then Some (Leave, RErr
    "only (P)SUBSCRIBE / (P)UNSUBSCRIBE / PING / QUIT allowed in this context")
  else if masterhost e && negb (repl_connected e) && negb (repl_serve_stale_data e)
          && negb (has (cflags m) CMD_STALE)
  then Some (Flag, RMasterDown)
  else if loading e && negb (has (cflags m) CMD_LOADING)
  then Some (Leave, RLoading)
  else if lua_timedout e && negb (is_other [OAuth; OReplconf] p)
          && negb (is_other [OShutdown] p && second_is 110 argv)
          && negb (is_other [OScript] p && second_is 107 argv)
  then Some (Flag, RSlowScript)
  else None.

(** [c->cmd->proc != execCommand && ...]: not executed inside MULTI. *)
Definition queued (p : proc) : bool :=
  match p with PExec | PDiscard | PMulti | PWatch => false | _ => true end.

Definition processCommand (s : server) (i : cid) (e : env) : option server :=
  c ← clients s !! i;
  a ← head (cargv c);
  if strcaseeq a (of_string "quit") then
    Some (upd (addReply s i ROk) i (or_flags CLIENT_CLOSE_AFTER_REPLY))
  else
  let s := upd s i (set_cmd (lookupCommand e a)) in
  match lookupCommand e a with
  | None => Some (addReply (flagTransaction s i) i (RUnknown a))
  | Some m =>
      match refusal e (flags c) (cargv c) m with
      | Some (Flag, r) => Some (addReply (flagTransaction s i) i r)
      | Some (Discard, r) => s ← discardTransaction s i; Some (addReply s i r)
      | Some (Leave, r) => Some (addReply s i r)
      | None =>
          if has (flags c) CLIENT_MULTI && queued (cproc m) then
            s ← queueMultiCommand s i; Some (addReply s i RQueued)
          else call run_any s i
      end
  end.

(** ** Clients *)

Definition createClient (s : server) (i : cid) : server :=
  set_clients (<[i := mk_client 0 [] [] 0 [] None []]> (clients s)) s.

(** The part of [freeClient] that concerns transactions. *)
Definition freeClient (s : server) (i : cid) : option server :=
  s ← unwatchAllKeys s i;
  Some (set_clients (delete i (clients s)) s).

(** ** The server as a state machine

    A command is read by a client ([argv] is never empty: [Query] proves it of
    the request parser).  [EOutside] is a change of the data set that no
    command makes (expiry, eviction, clients served that were blocked), with
    the keys it signals. *)
Inductive event :=
| EConnect (i : cid)
| ECommand (i : cid) (a : bytes) (args : list bytes) (e : env)
| EClose (i : cid)
| EOutside (d : dataset) (ks : list dbkey).

Definition step (s : server) (ev : event) : option server :=
  match ev with
  | EConnect i => if bool_decide (is_Some (clients s !! i)) then Some s else Some (createClient s i)
  | ECommand i a args e =>
      if bool_decide (is_Some (clients s !! i))
      then processCommand (upd s i (set_argv (a :: args))) i e else Some s
  | EClose i => if bool_decide (is_Some (clients s !! i)) then freeClient s i else Some s
  | EOutside d ks => Some (foldl signalModifiedKey (set_data d s) ks)
  end.

Fixpoint run (s : server) (es : list event) : option server :=
  match es with [] => Some s | e :: es => s ← step s e; run s es end.

Definition init (d : dataset) (a m : bool) : server := mk_server ∅ d ∅ 0 a [] [] [] m [] [].

(** States a server can be in. *)
Inductive reachable : server → Prop :=
| reach_init d a m : reachable (init d a m)
| reach_step s e s' : reachable s → step s e = Some s' → reachable s'.

(** ** Flags *)
Lemma has_lor f a b : has f (Z.lor a b) = has f a || has f b.
Proof.
  unfold has. rewrite Z.land_lor_distr_r.
  destruct (Z.eqb_spec (Z.lor (Z.land f a) (Z.land f b)) 0) as [E|E].
  - apply Z.lor_eq_0_iff in E as [-> ->]. done.
  - destruct (Z.eqb_spec (Z.land f a) 0) as [Ea|], (Z.eqb_spec (Z.land f b) 0) as [Eb|]; try done.
    by rewrite Ea, Eb in E.
Qed.

Definition is_multi (c : client) : bool := Z.testbit (flags c) 3.
Definition is_cas (c : client) : bool := Z.testbit (flags c) 5.
Definition is_dexec (c : client) : bool := Z.testbit (flags c) 12.

Lemma has_multi c : has (flags c) CLIENT_MULTI = is_multi c.
Proof. by apply flag_set. Qed.
Lemma has_cas c : has (flags c) CLIENT_DIRTY_CAS = is_cas c.
Proof. by apply flag_set. Qed.
Lemma has_dexec c : has (flags c) CLIENT_DIRTY_EXEC = is_dexec c.
Proof. by apply flag_set. Qed.

(** Evaluates the tests of constant bits. *)
Ltac bits :=
  unfold is_multi, is_cas, is_dexec; cbn [flags set_flags set_mstate set_watched set_db
    set_argv set_cmd add_reply initClientMultiState or_flags clear_flags];
  rewrite ?Z.lor_spec, ?Z.land_spec, ?Z.lnot_spec by done;
  repeat match goal with
  | |- context [Z.testbit ?m ?k] =>
      let v := eval vm_compute in (Z.testbit m k) in
      match v with true => change (Z.testbit m k) with true
                 | false => change (Z.testbit m k) with false end
  end;
  cbn [negb]; rewrite ?andb_true_r, ?andb_false_r, ?orb_false_r, ?orb_true_r, ?andb_true_r, ?andb_false_r.

(** ** The invariant

    A client is on the list of a watched key exactly when the key is on the
    list of the client; lists have no duplicates, and a key nobody watches
    has no entry.  Outside MULTI the queue is empty and no error is flagged;
    a queue holds only commands that can be queued. *)
Record client_ok (c : client) : Prop := {
  ok_nodup : NoDup (watched_keys c);
  ok_idle : is_multi c = false → mstate c = [] ∧ is_dexec c = false;
  ok_queue : Forall (λ m, queued (cproc (mc_cmd m)) = true) (mstate c)
}.

Record wf (s : server) : Prop := {
  wf_list k l : watchers s !! k = Some l → l ≠ [] ∧ NoDup l;
  wf_watch i k : (∃ l, watchers s !! k = Some l ∧ i ∈ l) ↔
                 (∃ c, clients s !! i = Some c ∧ k ∈ watched_keys c);
  wf_client i c : clients s !! i = Some c → client_ok c
}.

Lemma wf_ext s s' : clients s' = clients s → watchers s' = watchers s → wf s → wf s'.
Proof.
  intros E1 E2 [H1 H2 H3]. split; intros *; rewrite ?E1, ?E2; [apply H1|apply H2|apply H3].
Qed.

(** A map over the clients that keeps their watched keys. *)
Lemma wf_map s s' (f : cid → client → client) :
  watchers s' = watchers s →
  (∀ i, clients s' !! i = f i <$> clients s !! i) →
  (∀ i c, clients s !! i = Some c → watched_keys (f i c) = watched_keys c ∧ client_ok (f i c)) →
  wf s → wf s'.
Proof.
  intros Ew Ec Hf [H1 H2 H3]. split.
  - intros k l. rewrite Ew. apply H1.
  - intros i k. rewrite Ew, H2, Ec. split.
    + intros (c & E & Hk). exists (f i c). rewrite E. destruct (Hf _ _ E) as [-> _]. done.
    + intros (c & E & Hk). apply fmap_Some in E as (c' & E & ->).
      exists c'. destruct (Hf _ _ E) as [Hw _]. by rewrite <- Hw.
  - intros i c E. rewrite Ec in E. apply fmap_Some in E as (c' & E & ->). by apply Hf.
Qed.

Lemma lookup_upd s i f j :
  clients (upd s i f) !! j = (if decide (j = i) then f else id) <$> clients s !! j.
Proof.
  unfold upd. cbn [clients set_clients]. case_decide; subst.
  - apply lookup_alter_eq.
  - rewrite lookup_alter_ne by done. by rewrite option_fmap_id.
Qed.

Lemma wf_upd s i f :
  (∀ c, clients s !! i = Some c → client_ok c →
        watched_keys (f c) = watched_keys c ∧ client_ok (f c)) →
  wf s → wf (upd s i f).
Proof.
  intros Hf Hw. apply (wf_map s _ (λ j, if decide (j = i) then f else id)); [done| | |done].
  - intros j. apply lookup_upd.
  - intros j c E. pose proof (wf_client _ Hw _ _ E) as Hc.
    case_decide; subst; [by apply Hf|done].
Qed.

Lemma mark_lookup l : ∀ s j,
  clients (mark s l) !! j =
    (λ c, if bool_decide (j ∈ l) then or_flags CLIENT_DIRTY_CAS c else c)
    <$> clients s !! j.
Proof.
  unfold mark. induction l as [|i l IH]; intros s j; cbn [foldl].
  { destruct (clients s !! j); [|done]. cbn [fmap option_fmap option_map].
    by rewrite bool_decide_false by set_solver. }
  rewrite IH, lookup_upd. destruct (clients s !! j) as [c|]; [|done].
  cbn [fmap option_fmap option_map]. f_equal. case_decide as E; subst.
  - rewrite (bool_decide_true (i ∈ i :: l)) by set_solver. case_bool_decide; [|done].
    unfold or_flags, set_flags. cbn [flags]. f_equal. by rewrite <- Z.lor_assoc.
  - unfold id. case_bool_decide; case_bool_decide; set_solver.
Qed.

(** The fields other than clients and watchers. *)
Definition same_rest (s s' : server) : Prop :=
  data s' = data s ∧ dirty s' = dirty s ∧ aof_on s' = aof_on s ∧ aof s' = aof s ∧
  repl s' = repl s ∧ also_propagate s' = also_propagate s ∧ monitors s' = monitors s ∧
  monitored s' = monitored s ∧ touched s' = touched s.

Lemma mark_fields l : ∀ s, watchers (mark s l) = watchers s ∧ same_rest s (mark s l).
Proof.
  unfold mark. induction l as [|i l IH]; intros s; [done|]. cbn.
  destruct (IH (upd s i (or_flags CLIENT_DIRTY_CAS))) as [-> H]. split; [done|exact H].
Qed.

Lemma ok_set_cas c : client_ok c → client_ok (or_flags CLIENT_DIRTY_CAS c).
Proof. intros [H1 H2 H3]. split; [done| |done]. bits. apply H2. Qed.

(** ** What a transition does to the clients

    [tracks x s s']: apart from the client [x], every client keeps its watched
    keys, and is marked dirty if and only if it was or one of them was touched
    by the transition. *)
Definition hit (ks : list dbkey) (c : client) : bool :=
  existsb (λ k, bool_decide (k ∈ watched_keys c)) ks.

Definition tracks (x : option cid) (s s' : server) : Prop :=
  ∃ ks, touched s' = touched s ++ ks ∧
  ∀ j c, x ≠ Some j → clients s !! j = Some c →
    ∃ c', clients s' !! j = Some c' ∧ watched_keys c' = watched_keys c ∧
          is_cas c' = is_cas c || hit ks c.

(** [keeps i s s']: what the client [i] is doing is not disturbed. *)
Definition keeps (i : cid) (s s' : server) : Prop :=
  ∀ c, clients s !! i = Some c →
    ∃ c', clients s' !! i = Some c' ∧ mstate c' = mstate c ∧ ccmd c' = ccmd c ∧
          is_multi c' = is_multi c ∧ is_dexec c' = is_dexec c.

Lemma hit_app ks1 ks2 c : hit (ks1 ++ ks2) c = hit ks1 c || hit ks2 c.
Proof. apply existsb_app. Qed.

Lemma tracks_trans x s1 s2 s3 : tracks x s1 s2 → tracks x s2 s3 → tracks x s1 s3.
Proof.
  intros (k1 & E1 & H1) (k2 & E2 & H2). exists (k1 ++ k2).
  split; [by rewrite E2, E1, app_assoc|]. intros j c Hx Hc.
  destruct (H1 j c Hx Hc) as (c1 & Hc1 & W1 & F1).
  destruct (H2 j c1 Hx Hc1) as (c2 & Hc2 & W2 & F2).
  exists c2. split; [done|]. split; [congruence|].
  rewrite F2, F1, hit_app. unfold hit. rewrite W1. by rewrite orb_assoc.
Qed.

Lemma tracks_weaken i s s' : tracks None s s' → tracks (Some i) s s'.
Proof. intros (ks & E & H). exists ks. split; [done|]. intros j c _. by apply H. Qed.

Lemma keeps_trans i s1 s2 s3 : keeps i s1 s2 → keeps i s2 s3 → keeps i s1 s3.
Proof.
  intros H1 H2 c Hc. destruct (H1 c Hc) as (c1 & Hc1 & ? & ? & ? & ?).
  destruct (H2 c1 Hc1) as (c2 & Hc2 & ? & ? & ? & ?). exists c2. split_and!; congruence.
Qed.

(** Transitions that do not touch keys. *)
Lemma tracks_quiet x s s' :
  touched s' = touched s →
  (∀ j c, x ≠ Some j → clients s !! j = Some c →
     ∃ c', clients s' !! j = Some c' ∧ watched_keys c' = watched_keys c ∧ is_cas c' = is_cas c) →
  tracks x s s'.
Proof.
  intros E H. exists []. split; [by rewrite app_nil_r|]. intros j c Hx Hc.
  destruct (H j c Hx Hc) as (c' & ? & ? & Ec). exists c'. by rewrite Ec, orb_false_r.
Qed.

Lemma tracks_same x s s' : touched s' = touched s → clients s' = clients s → tracks x s s'.
Proof. intros E1 E2. apply tracks_quiet; [done|]. intros j c _ Hc. exists c. by rewrite E2. Qed.

Lemma keeps_same i s s' : clients s' = clients s → keeps i s s'.
Proof. intros E c Hc. exists c. by rewrite E. Qed.

(** Updates of the client at work. *)
Lemma tracks_upd s i f :
  (∀ c, watched_keys (f c) = watched_keys c ∧ is_cas (f c) = is_cas c) → tracks None s (upd s i f).
Proof.
  intros Hf. apply tracks_quiet; [done|]. intros j c _ Hc. rewrite lookup_upd, Hc.
  eexists. split; [done|]. case_decide; [apply Hf|done].
Qed.

Lemma tracks_upd_self s i f : tracks (Some i) s (upd s i f).
Proof.
  apply tracks_quiet; [done|]. intros j c Hx Hc. rewrite lookup_upd, Hc.
  eexists. split; [done|]. rewrite decide_False by congruence. done.
Qed.

Lemma keeps_upd s i f :
  (∀ c, mstate (f c) = mstate c ∧ ccmd (f c) = ccmd c ∧
        is_multi (f c) = is_multi c ∧ is_dexec (f c) = is_dexec c) → keeps i s (upd s i f).
Proof.
  intros Hf c Hc. exists (f c). rewrite lookup_upd, Hc, decide_True by done. done.
Qed.

(** *** Touching *)
Lemma touch_ok i s k :
  wf s → wf (touchWatchedKey s k) ∧ tracks None s (touchWatchedKey s k) ∧
         keeps i s (touchWatchedKey s k).
Proof.
  intros Hw. unfold touchWatchedKey. set (l := default [] (watchers s !! k)).
  assert (Hl : ∀ j c, clients s !! j = Some c → bool_decide (j ∈ l) = hit [k] c).
  { intros j c Hc. unfold hit. simpl. rewrite orb_false_r. apply bool_decide_ext.
    subst l. destruct (watchers s !! k) as [l|] eqn:El; simpl.
    - transitivity (∃ l, watchers s !! k = Some l ∧ j ∈ l); [naive_solver|].
      rewrite (wf_watch _ Hw). naive_solver.
    - split; [set_solver|]. intros Hk.
      destruct (proj2 (wf_watch _ Hw j k)) as (? & ? & _); [eauto|congruence]. }
  destruct (mark_fields l (log_touched [k] s)) as (E1 & E2 & E3 & E4 & E5 & E6 & E7 & E8 & E9 & E10).
  split; [|split].
  - eapply (wf_map s _ (λ j c, if bool_decide (j ∈ l)
      then or_flags CLIENT_DIRTY_CAS c else c)); [done| | |done].
    + intros j. rewrite mark_lookup. done.
    + intros j c Hc. pose proof (wf_client _ Hw _ _ Hc).
      case_bool_decide; [split; [done|by apply ok_set_cas]|done].
  - exists [k]. split; [done|]. intros j c _ Hc. rewrite mark_lookup.
    change (clients (log_touched [k] s)) with (clients s). rewrite Hc. eexists. split; [done|].
    rewrite (Hl j c Hc). destruct (hit [k] c); [|by rewrite orb_false_r]. split; [done|]. by bits.
  - intros c Hc. rewrite mark_lookup. change (clients (log_touched [k] s)) with (clients s).
    rewrite Hc. eexists. split; [done|]. destruct (bool_decide (i ∈ l)); split_and!; try done; by bits.
Qed.

Lemma touch_all_ok i ks : ∀ s,
  wf s → wf (foldl signalModifiedKey s ks) ∧ tracks None s (foldl signalModifiedKey s ks) ∧
         keeps i s (foldl signalModifiedKey s ks).
Proof.
  induction ks as [|k ks IH]; intros s Hw; cbn [foldl].
  { split; [done|]. split; [by apply tracks_same|by apply keeps_same]. }
  destruct (touch_ok i s k Hw) as (W1 & T1 & K1). destruct (IH _ W1) as (W2 & T2 & K2).
  split; [done|]. split; [by eapply tracks_trans|by eapply keeps_trans].
Qed.

Lemma flush_ok i s dbid :
  wf s → wf (touchWatchedKeysOnFlush s dbid) ∧ tracks None s (touchWatchedKeysOnFlush s dbid) ∧
         keeps i s (touchWatchedKeysOnFlush s dbid).
Proof.
  intros Hw. unfold touchWatchedKeysOnFlush.
  assert (Hh : ∀ c, flush_hits s dbid c =
    hit (filter (λ k, in_db dbid k = true) (elements (dom (data s)))) c).
  { intros c. unfold flush_hits, hit. apply eq_true_iff_eq. rewrite !existsb_exists.
    setoid_rewrite <- list_elem_of_In. split; intros (k & H1 & H2); exists k.
    - apply andb_true_iff in H2 as [H2 H3]. apply bool_decide_eq_true in H3.
      rewrite bool_decide_eq_true, list_elem_of_filter, elem_of_elements, elem_of_dom. done.
    - apply bool_decide_eq_true in H2. apply list_elem_of_filter in H1 as [H1 H3].
      rewrite elem_of_elements, elem_of_dom in H3. split; [done|].
      rewrite H1. by apply bool_decide_eq_true_2. }
  split; [|split].
  - eapply (wf_map s _ (λ _ c, if flush_hits s dbid c
      then or_flags CLIENT_DIRTY_CAS c else c)); [done| | |done].
    + intros j. cbn [clients log_touched set_clients]. apply lookup_fmap.
    + intros j c Hc. pose proof (wf_client _ Hw _ _ Hc).
      destruct (flush_hits s dbid c); [split; [done|by apply ok_set_cas]|done].
  - eexists. split; [done|]. intros j c _ Hc. cbn [clients log_touched set_clients].
    rewrite lookup_fmap, Hc. eexists. split; [done|]. rewrite Hh.
    destruct (hit _ c); [|by rewrite orb_false_r]. split; [done|]. by bits.
  - intros c Hc. cbn [clients log_touched set_clients]. rewrite lookup_fmap, Hc.
    eexists. split; [done|]. destruct (flush_hits s dbid c); split_and!; try done; by bits.
Qed.

(** *** Watching and unwatching *)

Lemma same_rest_trans s1 s2 s3 : same_rest s1 s2 → same_rest s2 s3 → same_rest s1 s3.
Proof. intros (? & ? & ? & ? & ? & ? & ? & ? & ?) (? & ? & ? & ? & ? & ? & ? & ? & ?). split_and!; congruence. Qed.

Lemma watchForKey_ok s i key c :
  wf s → clients s !! i = Some c →
  ∃ s', watchForKey s i key = Some s' ∧ wf s' ∧ same_rest s s' ∧
    clients s' = clients (upd s i (set_watched
      (if bool_decide ((cdb c, key) ∈ watched_keys c) then watched_keys c
       else watched_keys c ++ [(cdb c, key)]))).
Proof.
  intros Hw Hc. unfold watchForKey. rewrite Hc. cbn [mbind option_bind].
  case_bool_decide as Hin.
  { exists s. split; [done|]. split; [done|]. split; [done|]. cbn [clients upd set_clients].
    symmetry. apply alter_id. intros c' Hc'. rewrite Hc in Hc'. injection Hc' as <-. by destruct c. }
  set (k := (cdb c, key)) in *. eexists. split; [done|]. split; [|done].
  set (l := default [] (watchers s !! k)).
  assert (Hl : (i ∉ l) ∧ NoDup l).
  { subst l. destruct (watchers s !! k) as [l|] eqn:El; [|by split; [set_solver|constructor]]. simpl.
    split; [|by eapply wf_list]. intros Hi. apply Hin.
    destruct (proj1 (wf_watch _ Hw i k)) as (c' & Hc' & ?); [by eauto|]. congruence. }
  split.
  - intros k' l'. cbn [watchers upd set_watchers set_clients]. rewrite lookup_insert. case_decide; subst.
    + intros [= <-]. split; [by destruct l|]. apply NoDup_app. destruct Hl.
      split_and!; [done|set_solver|apply NoDup_singleton].
    + apply (wf_list _ Hw).
  - intros j k'. cbn [watchers upd set_watchers set_clients]. change (clients _) with
      (clients (upd s i (set_watched (watched_keys c ++ [k])))). rewrite lookup_upd.
    destruct (decide (k = k')) as [<-|Hk].
    + rewrite lookup_insert_eq. destruct (decide (j = i)) as [->|Hj].
      * rewrite Hc. simpl. split; [intros _|intros _; exists (l ++ [i]); set_solver].
        eexists. split; [done|]. simpl. set_solver.
      * rewrite option_fmap_id, <- (wf_watch _ Hw). split.
        -- intros (? & [= <-] & Hj'). subst l.
           destruct (watchers s !! k); simpl in *; [|set_solver]. eexists. split; [done|set_solver].
        -- intros (l' & El & Hj'). exists (l ++ [i]). split; [done|]. subst l. rewrite El. set_solver.
    + rewrite lookup_insert_ne, (wf_watch _ Hw) by done. destruct (decide (j = i)) as [->|Hj].
      * rewrite Hc. simpl. split; intros (? & [= <-] & ?); eexists; (split; [done|]); simpl in *; set_solver.
      * by rewrite option_fmap_id.
  - intros j c'. change (clients _) with
      (clients (upd s i (set_watched (watched_keys c ++ [k])))). rewrite lookup_upd. intros E.
    apply fmap_Some in E as (c0 & E & ->). pose proof (wf_client _ Hw _ _ E) as [H1 H2 H3].
    case_decide; [|done]. subst j. rewrite Hc in E. injection E as <-. split; [|done..]. simpl.
    apply NoDup_app. split_and!; [done|set_solver|apply NoDup_singleton].
Qed.

Lemma del_first_ok i l :
  i ∈ l → NoDup l → ∃ l', del_first i l = Some l' ∧ NoDup l' ∧ ∀ j, j ∈ l' ↔ j ∈ l ∧ j ≠ i.
Proof.
  induction l as [|x l IH]; intros Hi Hn; [set_solver|]. cbn [del_first].
  apply NoDup_cons in Hn as [Hx Hn]. case_bool_decide as E.
  { subst x. exists l. split; [done|]. split; [done|]. set_solver. }
  destruct IH as (l' & -> & Hn' & Hl'); [set_solver|done|]. exists (x :: l').
  split; [done|]. split; [constructor; [set_solver|done]|]. set_solver.
Qed.

(** The invariant inside the loop: the keys of [i] still to be removed. *)
Record wf_unwatch (i : cid) (wks : list dbkey) (s : server) : Prop := {
  wu_list k l : watchers s !! k = Some l → l ≠ [] ∧ NoDup l;
  wu_watch j k : (∃ l, watchers s !! k = Some l ∧ j ∈ l) ↔
    if decide (j = i) then k ∈ wks else ∃ c, clients s !! j = Some c ∧ k ∈ watched_keys c;
  wu_client j c : clients s !! j = Some c → client_ok c
}.

Lemma unwatch_loop_ok i wks : ∀ s,
  is_Some (clients s !! i) → NoDup wks → wf_unwatch i wks s →
  ∃ s', unwatch_loop s i wks = Some s' ∧ wf s' ∧ same_rest s s' ∧
        clients s' = clients (upd s i (set_watched [])).
Proof.
  induction wks as [|k wks IH]; intros s [c Hc] Hn [H1 H2 H3]; cbn [unwatch_loop].
  { eexists. split; [done|]. split; [|done]. split; [done| |].
    - intros j k. cbn [watchers upd set_clients]. rewrite H2, lookup_upd. case_decide as E; [|by rewrite option_fmap_id].
      subst. rewrite Hc. simpl. split; [set_solver|]. intros (? & [= <-] & ?). set_solver.
    - intros j c'. rewrite lookup_upd. intros E. apply fmap_Some in E as (c0 & E & ->).
      pose proof (H3 _ _ E) as [? ? ?]. case_decide; [|done]. split; [constructor|done..]. }
  apply NoDup_cons in Hn as [Hk Hn].
  destruct (proj2 (H2 i k)) as (l & El & Hi); [rewrite decide_True by done; set_solver|].
  rewrite El. cbn [mbind option_bind]. destruct (H1 _ _ El) as [_ Hl].
  destruct (del_first_ok i l Hi Hl) as (l' & -> & Hn' & Hl'). cbn [mbind option_bind].
  set (w := match l' with [] => _ | _ => _ end).
  assert (Hw : ∀ k', w !! k' = if decide (k' = k) then match l' with [] => None | _ => Some l' end
                              else watchers s !! k').
  { intros k'. subst w. case_decide; subst.
    - destruct l'; [apply lookup_delete_eq|apply lookup_insert_eq].
    - destruct l'; [by apply lookup_delete_ne|by apply lookup_insert_ne]. }
  apply (IH (set_watchers w s)); [by eexists|done|]. split.
  - intros k' l0. cbn [watchers set_watchers]. rewrite Hw. case_decide; [|apply H1].
    destruct l'; [done|]. intros [= <-]. done.
  - intros j k'. cbn [watchers set_watchers clients]. rewrite Hw. case_decide as Ek.
    + subst k'. assert ((∃ l, match l' with [] => None | _ => Some l' end = Some l ∧ j ∈ l) ↔ j ∈ l') as ->.
      { destruct l'; [set_solver|naive_solver]. }
      rewrite Hl'. specialize (H2 j k). case_decide as Ej; [set_solver|].
      rewrite <- H2. naive_solver.
    + rewrite H2. case_decide; [set_solver|done].
  - done.
Qed.

Lemma unwatchAllKeys_ok s i c :
  wf s → clients s !! i = Some c →
  ∃ s', unwatchAllKeys s i = Some s' ∧ wf s' ∧ same_rest s s' ∧
        clients s' = clients (upd s i (set_watched [])).
Proof.
  intros Hw Hc. unfold unwatchAllKeys. rewrite Hc. cbn [mbind option_bind].
  destruct (watched_keys c) as [|k wks] eqn:Ek.
  { exists s. split; [done|]. split; [done|]. split; [done|]. symmetry. apply alter_id.
    intros c' Hc'. rewrite Hc in Hc'. injection Hc' as <-. destruct c. simpl in *. by subst. }
  apply unwatch_loop_ok; [by eexists| |].
  - rewrite <- Ek. apply (wf_client _ Hw _ _ Hc).
  - destruct Hw as [H1 H2 H3]. split; [done| |done]. intros j k'. rewrite H2, <- Ek.
    case_decide; [|done]. subst. rewrite Hc. naive_solver.
Qed.

(** ** Transitions

    [does x s s']: the invariant is kept, the dirty marks of the clients other
    than [x] are right, and no client disappears. *)
Definition does (x : option cid) (s s' : server) : Prop :=
  wf s → wf s' ∧ tracks x s s' ∧ ∀ j, is_Some (clients s !! j) → is_Some (clients s' !! j).

Lemma does_trans x s1 s2 s3 : does x s1 s2 → does x s2 s3 → does x s1 s3.
Proof.
  intros H1 H2 W1. destruct (H1 W1) as (W2 & T2 & P2). destruct (H2 W2) as (W3 & T3 & P3).
  split; [done|]. split; [by eapply tracks_trans|]. intros j Hj. auto.
Qed.

Lemma does_weaken i s s' : does None s s' → does (Some i) s s'.
Proof. intros H W. destruct (H W) as (? & ? & ?). split_and!; [done|by apply tracks_weaken|done]. Qed.

Lemma does_frame x s s' :
  clients s' = clients s → watchers s' = watchers s → touched s' = touched s → does x s s'.
Proof.
  intros E1 E2 E3 W. split; [by eapply wf_ext|]. split; [by apply tracks_same|]. by rewrite E1.
Qed.

Lemma present_upd s i f j : is_Some (clients s !! j) → is_Some (clients (upd s i f) !! j).
Proof. rewrite lookup_upd, fmap_is_Some. done. Qed.

(** Updates of the client at work that leave the transaction alone. *)
Definition tx_same (f : client → client) : Prop := ∀ c,
  watched_keys (f c) = watched_keys c ∧ mstate (f c) = mstate c ∧ is_multi (f c) = is_multi c ∧
  is_cas (f c) = is_cas c ∧ is_dexec (f c) = is_dexec c.

Lemma ok_tx_same f c : tx_same f → client_ok c → client_ok (f c).
Proof.
  intros Hf [H1 H2 H3]. destruct (Hf c) as (E1 & E2 & E3 & _ & E5). by split; rewrite ?E1, ?E2, ?E3, ?E5.
Qed.

Lemma does_tx_same x s i f : tx_same f → does x s (upd s i f).
Proof.
  intros Hf W. assert (T : tracks None s (upd s i f)).
  { apply tracks_upd. intros c. by destruct (Hf c) as (? & _ & _ & ? & _). }
  split; [apply wf_upd; [|done]|split; [destruct x; [by apply tracks_weaken|done]|]].
  - intros c _ Hc. split; [by destruct (Hf c)|by apply ok_tx_same].
  - intros j. apply present_upd.
Qed.

Lemma does_self s i f :
  (∀ c, clients s !! i = Some c → client_ok c →
        watched_keys (f c) = watched_keys c ∧ client_ok (f c)) →
  does (Some i) s (upd s i f).
Proof.
  intros Hf W. split; [by apply wf_upd|]. split; [apply tracks_upd_self|].
  intros j. apply present_upd.
Qed.

Ltac same := intros ?; unfold is_multi, is_cas, is_dexec; split_and!; solve [reflexivity | bits; reflexivity].

Lemma same_reply r : tx_same (add_reply r).
Proof. same. Qed.
Lemma same_argv a : tx_same (set_argv a).
Proof. same. Qed.
Lemma same_cmd m : tx_same (set_cmd m).
Proof. same. Qed.
Lemma same_db d : tx_same (set_db d).
Proof. same. Qed.
Lemma same_clear : tx_same (clear_flags prop_mask).
Proof. same. Qed.
Lemma same_restore f : tx_same (or_flags (Z.land f prop_mask)).
Proof. same. Qed.
Lemma same_close : tx_same (or_flags CLIENT_CLOSE_AFTER_REPLY).
Proof. same. Qed.
Lemma same_effect f :
  tx_same (λ c, set_flags (Z.lor (Z.land (flags c) tx_mask) (Z.ldiff f tx_mask)) c).
Proof.
  intros c. split_and!; try reflexivity; unfold is_multi, is_cas, is_dexec; cbn [flags set_flags];
    rewrite Z.lor_spec, Z.land_spec, Z.ldiff_spec; by bits.
Qed.
Hint Resolve same_reply same_argv same_cmd same_db same_clear same_restore same_close same_effect
  : core.

(** A chain of updates, from the last to the first. *)
Ltac updates := repeat (eapply does_trans; [|by apply does_tx_same; auto]).
Ltac kept := intros ?; unfold is_multi, is_cas, is_dexec; split_and!; solve [reflexivity | bits; reflexivity].
Ltac keeping := repeat (eapply keeps_trans; [|apply keeps_upd; kept]).

Lemma lookup_upd_self s i f c : clients s !! i = Some c → clients (upd s i f) !! i = Some (f c).
Proof. intros E. by rewrite lookup_upd, E, decide_True. Qed.

Lemma unwatch_does s i c :
  wf s → clients s !! i = Some c →
  ∃ s', unwatchAllKeys s i = Some s' ∧ does (Some i) s s' ∧ keeps i s s' ∧ same_rest s s' ∧
        clients s' !! i = Some (set_watched [] c).
Proof.
  intros W Hc. destruct (unwatchAllKeys_ok s i c W Hc) as (s' & E & W' & R & C).
  exists s'. split; [done|]. rewrite C, (lookup_upd_self _ _ _ _ Hc).
  assert (T : tracks (Some i) s s').
  { destruct (tracks_upd_self s i (set_watched [])) as (ks & E1 & E2). exists ks. rewrite C.
    destruct R as (_ & _ & _ & _ & _ & _ & _ & _ & ->). done. }
  split_and!; [|  |done|done].
  - intros _. split; [done|]. split; [done|]. intros j. rewrite C. apply present_upd.
  - intros c' Hc'. rewrite Hc in Hc'. injection Hc' as <-. rewrite C, (lookup_upd_self _ _ _ _ Hc).
    by eexists.
Qed.

(** The client after its transaction is discarded. *)
Definition discarded (c : client) : client :=
  set_watched [] (clear_flags tx_mask (initClientMultiState c)).

Lemma discard_does s i c :
  wf s → clients s !! i = Some c →
  ∃ s', discardTransaction s i = Some s' ∧ does (Some i) s s' ∧ same_rest s s' ∧
        clients s' !! i = Some (discarded c).
Proof.
  intros W Hc. unfold discardTransaction.
  assert (D1 : does (Some i) s (upd s i initClientMultiState)).
  { apply does_self. intros c' _ [H1 H2 H3]. split; [done|]. split; [done| |constructor].
    intros Hm. split; [done|]. by apply H2. }
  set (s1 := upd s i initClientMultiState) in *.
  assert (D2 : does (Some i) s1 (upd s1 i (clear_flags tx_mask))).
  { apply does_self. intros c' Hc' [H1 H2 H3]. subst s1. rewrite (lookup_upd_self _ _ _ _ Hc) in Hc'.
    injection Hc' as <-. split; [done|]. split; [done| |done]. intros _. split; [done|]. by bits. }
  set (s2 := upd s1 i (clear_flags tx_mask)) in *.
  pose proof (does_trans _ _ _ _ D1 D2) as D. destruct (D W) as (W2 & _).
  destruct (unwatch_does s2 i (clear_flags tx_mask (initClientMultiState c)) W2)
    as (s' & -> & D3 & _ & R & C).
  { subst s2 s1. by erewrite lookup_upd_self; [|apply lookup_upd_self]. }
  exists s'. split; [done|]. split; [by eapply does_trans|]. by split.
Qed.

(** *** Commands that can be queued *)
Lemma does_touch i s ks :
  does None s (foldl signalModifiedKey s ks) ∧ (wf s → keeps i s (foldl signalModifiedKey s ks)).
Proof.
  split; [|by intros W; apply touch_all_ok]. intros W.
  destruct (touch_all_ok i ks s W) as (W' & T & _). split_and!; [done|done|].
  intros j [c Hc]. destruct T as (k & _ & T). destruct (T j c) as (c' & -> & _); [done..|by eexists].
Qed.

Lemma does_flush i s dbid :
  does None s (touchWatchedKeysOnFlush s dbid) ∧ (wf s → keeps i s (touchWatchedKeysOnFlush s dbid)).
Proof.
  split; [|by intros W; apply flush_ok]. intros W.
  destruct (flush_ok i s dbid W) as (W' & T & _). split_and!; [done|done|].
  intros j [c Hc]. destruct T as (k & _ & T). destruct (T j c) as (c' & -> & _); [done..|by eexists].
Qed.

(** Which client's marks a procedure can reset. *)
Definition resets (i : cid) (p : proc) : option cid :=
  match p with PUnwatch | PWatch | PDiscard | PExec => Some i | _ => None end.

Lemma frame_then (s s1 s2 : server) i :
  clients s1 = clients s → watchers s1 = watchers s → touched s1 = touched s →
  wf s → does None s1 s2 ∧ (wf s1 → keeps i s1 s2) → does None s s2 ∧ keeps i s s2.
Proof.
  intros E1 E2 E3 W [D K]. split.
  - eapply does_trans; [by apply does_frame|done].
  - eapply keeps_trans; [by apply keeps_same|]. apply K. by eapply wf_ext.
Qed.

Lemma queued_does p s i c :
  wf s → clients s !! i = Some c → queued p = true →
  ∃ s', run_proc p s i = Some s' ∧ does (resets i p) s s' ∧ keeps i s s'.
Proof.
  intros W Hc Hp. destruct p as [| | | | | | |n f]; try done; cbn [run_proc resets].
  - unfold unwatchCommand. destruct (unwatch_does s i c W Hc) as (s1 & -> & D & K & _ & C).
    cbn [mbind option_bind]. eexists. split; [done|]. unfold addReply. split.
    + eapply does_trans; [|by apply does_tx_same]. eapply does_trans; [done|]. apply does_self.
      intros c' Hc' [H1 H2 H3]. split; [done|]. split; [done| |done]. bits. exact H2.
    + keeping. done.
  - unfold flushdbCommand. rewrite Hc. cbn [mbind option_bind]. eexists. split; [done|].
    unfold addReply.
    destruct (frame_then s (add_dirty (Z.of_nat (size (db_dict (cdb c) (data s)))) s)
      _ i eq_refl eq_refl eq_refl W (does_flush i _ (cdb c))) as [D K]. split.
    + updates. eapply does_trans; [exact D|by apply does_frame].
    + keeping. eapply keeps_trans; [exact K|by apply keeps_same].
  - unfold flushallCommand. eexists. split; [done|]. destruct (does_flush i s (-1)) as [D K]. split.
    + eapply (does_trans _ _ (addReply _ i ROk)); [|by apply does_frame]. unfold addReply. updates.
      eapply does_trans; [exact D|by apply does_frame].
    + eapply (keeps_trans _ _ (addReply _ i ROk)); [|by apply keeps_same]. unfold addReply. keeping.
      eapply keeps_trans; [exact (K W)|by apply keeps_same].
  - unfold otherCommand. rewrite Hc. cbn [mbind option_bind]. eexists. split; [done|].
    unfold addReply. set (e := f _ _ _ _ _).
    destruct (frame_then s (set_data (e_data e) s) _ i eq_refl eq_refl eq_refl W
      (does_touch i _ (e_keys e))) as [D K]. split.
    + updates. eapply does_trans; [exact D|by apply does_frame].
    + repeat (eapply keeps_trans; [|apply keeps_upd; intros c'; destruct (same_effect (e_flags e) c')
        as (? & ? & ? & ? & ?); split_and!; try done; by bits]).
      eapply keeps_trans; [exact K|by apply keeps_same].
Qed.

(** *** The other procedures *)
Lemma watch_all_does i keys : ∀ s,
  wf s → is_Some (clients s !! i) → ∃ s', watch_all s i keys = Some s' ∧ does (Some i) s s'.
Proof.
  induction keys as [|k keys IH]; intros s W [c Hc]; cbn [watch_all].
  { exists s. split; [done|by apply does_frame]. }
  destruct (watchForKey_ok s i k c W Hc) as (s1 & -> & W1 & R & C). cbn [mbind option_bind].
  destruct (IH s1 W1) as (s2 & E2 & D2); [rewrite C; by apply present_upd|].
  exists s2. split; [done|]. eapply does_trans; [|done]. intros _. split; [done|]. split.
  - destruct (tracks_upd_self s i (set_watched
      (if bool_decide ((cdb c, k) ∈ watched_keys c) then watched_keys c
       else watched_keys c ++ [(cdb c, k)]))) as (ks & E & T).
    exists ks. rewrite C. destruct R as (_ & _ & _ & _ & _ & _ & _ & _ & ->). done.
  - intros j. rewrite C. apply present_upd.
Qed.

Lemma multi_does s i c :
  clients s !! i = Some c → ∃ s', multiCommand s i = Some s' ∧ does None s s'.
Proof.
  intros Hc. unfold multiCommand. rewrite Hc. cbn [mbind option_bind].
  destruct (has _ _) eqn:Em; eexists; (split; [done|]); unfold addReplyError, addReply; updates;
    [by apply does_frame|].
  intros W. split; [|split; [apply tracks_upd; intros c'; split; [done|by bits]|]].
  - apply wf_upd; [|done]. intros c' Hc' [H1 H2 H3]. split; [done|]. split; [done| |done].
    intros Hm. exfalso. revert Hm. by bits.
  - intros j. apply present_upd.
Qed.

Lemma run_does p s i c :
  wf s → clients s !! i = Some c → is_exec p = false →
  ∃ s', run_proc p s i = Some s' ∧ does (resets i p) s s' ∧
        (queued p = true → keeps i s s').
Proof.
  intros W Hc Hp. destruct (queued p) eqn:Hq.
  { destruct (queued_does p s i c W Hc Hq) as (s' & E & D & K). by exists s'. }
  destruct p; try done; cbn [run_proc resets].
  - destruct (multi_does s i c Hc) as (s' & E & D). by exists s'.
  - unfold discardCommand. rewrite Hc. cbn [mbind option_bind]. destruct (negb _).
    { eexists. split; [done|]. split; [|done]. unfold addReplyError, addReply. updates. by apply does_frame. }
    destruct (discard_does s i c W Hc) as (s1 & -> & D & _). cbn [mbind option_bind].
    eexists. split; [done|]. split; [|done]. unfold addReply. updates. done.
  - unfold watchCommand. rewrite Hc. cbn [mbind option_bind]. destruct (has _ _).
    { eexists. split; [done|]. split; [|done]. unfold addReplyError, addReply. updates. by apply does_frame. }
    destruct (watch_all_does i (tail (cargv c)) s W) as (s1 & -> & D); [by eexists|].
    cbn [mbind option_bind]. eexists. split; [done|]. split; [|done]. unfold addReply. updates. done.
Qed.

(** *** [call] and EXEC *)
Lemma propagate_ops_frame l : ∀ s,
  clients (propagate_ops s l) = clients s ∧ watchers (propagate_ops s l) = watchers s ∧
  touched (propagate_ops s l) = touched s.
Proof.
  unfold propagate_ops. induction l as [|o l IH]; intros s; [done|]. cbn [foldl].
  destruct (op_target o =? 0); [apply IH|]. destruct (IH (propagate s (op_dbid o) (op_argv o)
    (op_target o))) as (-> & -> & ->). done.
Qed.

Lemma call_does (K : Prop) run x s i c m :
  wf s → clients s !! i = Some c → ccmd c = Some m →
  (∀ s1 c1, wf s1 → clients s1 !! i = Some c1 → ∃ s2, run (cproc m) s1 i = Some s2 ∧
     does x s1 s2 ∧ (K → keeps i s1 s2)) →
  ∃ s', call run s i = Some s' ∧ does x s s' ∧ (K → keeps i s s').
Proof.
  intros W Hc Hm Hrun. unfold call. rewrite Hc. cbn [mbind option_bind]. rewrite Hm.
  cbn [mbind option_bind]. set (s0 := if _ && _ then _ else _).
  assert (E0 : clients s0 = clients s ∧ watchers s0 = watchers s ∧ touched s0 = touched s)
    by (subst s0; by destruct (_ && _)). destruct E0 as (E1 & E2 & E3).
  set (s1 := set_also [] (upd s0 i (clear_flags prop_mask))).
  assert (D1 : does x s s1).
  { eapply (does_trans _ _ (upd s0 i (clear_flags prop_mask))); [|by apply does_frame]. updates.
    by apply does_frame. }
  assert (K1 : keeps i s s1).
  { eapply (keeps_trans _ _ (upd s0 i (clear_flags prop_mask))); [|by apply keeps_same]. keeping.
    by apply keeps_same. }
  destruct (D1 W) as (W1 & _ & P1).
  destruct (Hrun s1 (clear_flags prop_mask c) W1) as (s2 & -> & D2 & K2).
  { change (clients s1) with (clients (upd s0 i (clear_flags prop_mask))).
    apply lookup_upd_self. by rewrite E1. }
  cbn [mbind option_bind]. destruct (D2 W1) as (_ & _ & P2).
  destruct (P2 i) as [c2 Hc2]; [apply P1; by eexists|]. rewrite Hc2. cbn [mbind option_bind].
  eexists. split; [done|]. set (s3 := if _ =? _ then _ else _).
  assert (D3 : does x s2 s3) by (apply does_frame; subst s3; by destruct (_ =? _)).
  assert (K3 : keeps i s2 s3) by (apply keeps_same; subst s3; by destruct (_ =? _)).
  set (s4 := upd _ _ (or_flags _)). destruct (propagate_ops_frame (also_propagate s4) s4) as (F1 & F2 & F3).
  split; [|intros HK].
  - eapply (does_trans _ _ s4); [|by apply does_frame]. subst s4. updates.
    eapply does_trans; [exact D1|]. by eapply does_trans.
  - eapply (keeps_trans _ _ s4); [|by apply keeps_same]. subst s4. keeping.
    eapply keeps_trans; [exact K1|]. eapply keeps_trans; [by apply K2|done].
Qed.

Lemma does_present x s s' i : wf s → does x s s' → is_Some (clients s !! i) → ∃ c, clients s' !! i = Some c.
Proof. intros W D Hi. destruct (D W) as (_ & _ & P). destruct (P i Hi) as [c ?]. by exists c. Qed.

Lemma queued_weaken i p s s' : does (resets i p) s s' → does (Some i) s s'.
Proof. destruct p; try done; apply does_weaken. Qed.

Lemma not_exec p : queued p = true → is_exec p = false.
Proof. by destruct p. Qed.

Lemma ok_write_back c j mc a :
  client_ok c → mstate c !! j = Some mc →
  client_ok (set_mstate (<[j := mk_mc a (mc_cmd mc)]> (mstate c)) c).
Proof.
  intros [H1 H2 H3] E. split; [done| |].
  - intros Hm. destruct (H2 Hm) as [Eq Hd]. by rewrite Eq in E.
  - cbn [mstate set_mstate]. apply Forall_insert; [done|]. exact (Forall_lookup_1 _ _ _ _ H3 E).
Qed.

(** One round of the loop. *)
Lemma exec_round j must s i c mc :
  wf s → clients s !! i = Some c → mstate c !! j = Some mc →
  ∃ must1 s1 s2 c2, (let s0 := upd (upd s i (set_argv (mc_argv mc))) i (set_cmd (Some (mc_cmd mc))) in
    if negb must && negb (has (cflags (mc_cmd mc)) CMD_READONLY)
    then s ← execCommandPropagateMulti s0 i; Some (true, s) else Some (must, s0)) = Some (must1, s1) ∧
    call run_proc s1 i = Some s2 ∧ clients s2 !! i = Some c2 ∧ ccmd c2 = Some (mc_cmd mc) ∧
    mstate c2 = mstate c ∧ does (Some i) s s2.
Proof.
  intros W Hc Hj. set (s0 := upd _ _ _). cbv zeta. set (c0 := set_cmd (Some (mc_cmd mc)) (set_argv (mc_argv mc) c)).
  assert (H0 : clients s0 !! i = Some c0).
  { subst s0 c0. by erewrite lookup_upd_self; [|by apply lookup_upd_self]. }
  assert (D0 : does (Some i) s s0) by (subst s0; updates; by apply does_frame).
  assert (∃ must1 s1, (if negb must && negb (has (cflags (mc_cmd mc)) CMD_READONLY)
    then s ← execCommandPropagateMulti s0 i; Some (true, s) else Some (must, s0)) = Some (must1, s1) ∧
    clients s1 = clients s0 ∧ watchers s1 = watchers s0 ∧ touched s1 = touched s0)
    as (must1 & s1 & E1 & F1 & F2 & F3).
  { destruct (_ && _); [|by do 2 eexists]. unfold execCommandPropagateMulti. rewrite H0.
    cbn [mbind option_bind]. by do 2 eexists. }
  assert (D1 : does (Some i) s s1) by (eapply does_trans; [exact D0|by apply does_frame]).
  assert (Hq : queued (cproc (mc_cmd mc)) = true).
  { exact (Forall_lookup_1 _ _ _ _ (ok_queue _ (wf_client _ W _ _ Hc)) Hj). }
  destruct (call_does True run_proc (Some i) s1 i c0 (mc_cmd mc)) as (s2 & E2 & D2 & K2).
  { by destruct (D1 W). } { by rewrite F1. } { done. }
  { intros s3 c3 W3 H3. destruct (run_does (cproc (mc_cmd mc)) s3 i c3 W3 H3) as (s4 & E & D & K).
    { by apply not_exec. } exists s4. split; [done|]. split; [by eapply queued_weaken|auto]. }
  destruct (K2 I c0) as (c2 & H2 & M & C & _); [by rewrite F1|].
  exists must1, s1, s2, c2. split_and!; try done; by eapply does_trans.
Qed.

Lemma exec_loop_does i n : ∀ j must s c,
  wf s → clients s !! i = Some c → length (mstate c) = (j + n)%nat →
  ∃ must' s', exec_loop j n must s i = Some (must', s') ∧ does (Some i) s s'.
Proof.
  induction n as [|n IH]; intros j must s c W Hc Hl; cbn [exec_loop].
  { exists must, s. split; [done|by apply does_frame]. }
  rewrite Hc. cbn [mbind option_bind].
  destruct (lookup_lt_is_Some_2 (mstate c) j) as [mc Hj]; [lia|]. rewrite Hj. cbn [mbind option_bind].
  destruct (exec_round j must s i c mc W Hc Hj) as (must1 & s1 & s2 & c2 & E1 & E2 & H2 & C2 & M2 & D2).
  cbv zeta in E1. rewrite E1. cbn [mbind option_bind]. rewrite E2. cbn [mbind option_bind].
  rewrite H2. cbn [mbind option_bind]. rewrite C2. cbn [mbind option_bind].
  set (s3 := upd s2 i _).
  assert (D3 : does (Some i) s2 s3).
  { apply does_self. intros c' Hc' Hok. rewrite H2 in Hc'. injection Hc' as <-. split; [done|].
    apply ok_write_back; [done|]. by rewrite M2. }
  pose proof (does_trans _ _ _ _ D2 D3) as D. destruct (D W) as (W3 & _).
  edestruct (IH (S j) must1 s3) as (must' & s' & E & D').
  { done. } { by apply lookup_upd_self. } { cbn [mstate set_mstate]. rewrite length_insert, M2. lia. }
  exists must', s'. split; [done|]. by eapply does_trans.
Qed.

Lemma exec_does s i c :
  wf s → clients s !! i = Some c → ∃ s', execCommand s i = Some s' ∧ does (Some i) s s'.
Proof.
  intros W Hc. unfold execCommand. rewrite Hc. cbn [mbind option_bind]. destruct (negb _).
  { eexists. split; [done|]. unfold addReplyError, addReply. updates. by apply does_frame. }
  match goal with |- context [mbind _ ?b] =>
    assert (H : ∃ z, b = Some z ∧ does (Some i) s z); [|destruct H as (s1 & -> & D)] end.
  { destruct (has (flags c) (Z.lor _ _)).
    - set (s0 := addReply _ _ _).
      assert (D0 : does (Some i) s s0) by (subst s0; unfold addReply; updates; by apply does_frame).
      destruct (does_present _ _ _ i W D0) as [c0 H0]; [by eexists|].
      destruct (discard_does s0 i c0) as (s1 & E & D & _); [by destruct (D0 W)|done|].
      exists s1. split; [done|]. by eapply does_trans.
    - destruct (unwatch_does s i c W Hc) as (s1 & -> & D1 & _ & _ & C1). cbn [mbind option_bind].
      set (s2 := addReply _ _ _).
      assert (D2 : does (Some i) s s2) by (subst s2; unfold addReply; updates; done).
      destruct (D2 W) as (W2 & _).
      destruct (exec_loop_does i (length (mstate c)) 0 false s2 (add_reply
        (RMultiLen (Z.of_nat (length (mstate c)))) (set_watched [] c)) W2) as (must & s3 & -> & D3).
      { by apply lookup_upd_self. } { done. }
      cbn [mbind option_bind]. set (s4 := upd (upd _ _ _) _ _).
      assert (D4 : does (Some i) s s4) by (subst s4; updates; by eapply does_trans).
      destruct (does_present _ _ _ i W D4) as [c4 H4]; [by eexists|]. destruct (D4 W) as (W4 & _).
      destruct (discard_does s4 i c4 W4 H4) as (s5 & -> & D5 & _). cbn [mbind option_bind].
      eexists. split; [done|]. eapply does_trans; [exact D4|]. eapply does_trans; [exact D5|].
      apply does_frame; by destruct must. }
  cbn [mbind option_bind]. destruct (does_present _ _ _ i W D) as [c1 H1]; [by eexists|].
  rewrite H1. cbn [mbind option_bind]. eexists. split; [done|].
  eapply does_trans; [exact D|]. apply does_frame; by destruct (monitors s1).
Qed.

(** *** [processCommand] *)
Lemma does_upd x s i f :
  (∀ c, clients s !! i = Some c → client_ok c → client_ok (f c)) →
  (∀ c, watched_keys (f c) = watched_keys c ∧ is_cas (f c) = is_cas c) →
  does x s (upd s i f).
Proof.
  intros H1 H2 W. assert (T : tracks None s (upd s i f)) by by apply tracks_upd.
  split; [apply wf_upd; [|done]|split; [destruct x; [by apply tracks_weaken|done]|]].
  - intros c Hc Hok. split; [apply H2|by apply H1].
  - intros j. apply present_upd.
Qed.

Lemma flag_does x s i : does x s (flagTransaction s i).
Proof.
  apply does_upd.
  - intros c _ Hok. rewrite has_multi. destruct (is_multi c) eqn:Em; [|done]. destruct Hok as [H1 H2 H3].
    split; [done| |done]. intros Hm. exfalso. revert Hm. bits. unfold is_multi in Em. by rewrite Em.
  - intros c. destruct (has _ _); [|done]. split; [done|by bits].
Qed.

Lemma queue_does x s i c m :
  clients s !! i = Some c → ccmd c = Some m → is_multi c = true → queued (cproc m) = true →
  ∃ s', queueMultiCommand s i = Some s' ∧ does x s s'.
Proof.
  intros Hc Hm Hx Hq. unfold queueMultiCommand. rewrite Hc. cbn [mbind option_bind]. rewrite Hm.
  cbn [mbind option_bind]. eexists. split; [done|]. apply does_upd; [|done].
  intros c' Hc' [H1 H2 H3]. rewrite Hc in Hc'. injection Hc' as <-. split; [done| |].
  - intros E. exfalso. revert E. change (is_multi (set_mstate _ c)) with (is_multi c). by rewrite Hx.
  - cbn [mstate set_mstate]. apply Forall_app. split; [done|]. by constructor.
Qed.

Lemma run_any_does p s i c :
  wf s → clients s !! i = Some c → ∃ s', run_any p s i = Some s' ∧ does (resets i p) s s'.
Proof.
  intros W Hc. destruct (is_exec p) eqn:Ep.
  { destruct p; try done. by apply (exec_does s i c). }
  destruct (run_does p s i c W Hc Ep) as (s' & E & D & _). exists s'. split; [|done]. by destruct p.
Qed.

(** Whose marks the command named [a] can reset when [i] sends it. *)
Definition sender (i : cid) (e : env) (a : bytes) : option cid :=
  match lookupCommand e a with Some m => resets i (cproc m) | None => None end.

Lemma refusal_discard e fl argv m r : refusal e fl argv m = Some (Discard, r) → cproc m = PExec.
Proof. unfold refusal. intros H. repeat case_match; try done. by destruct (cproc m). Qed.

Lemma process_does s i e c a args :
  wf s → clients s !! i = Some c → cargv c = a :: args →
  ∃ s', processCommand s i e = Some s' ∧ does (sender i e a) s s'.
Proof.
  intros W Hc Ha. unfold processCommand, sender. rewrite Hc. cbn [mbind option_bind]. rewrite Ha.
  cbn [head mbind option_bind]. destruct (strcaseeq _ _).
  { eexists. split; [done|]. unfold addReply. updates. by apply does_frame. }
  destruct (lookupCommand e a) as [m|] eqn:El.
  2:{ eexists. split; [done|]. unfold addReply. updates. eapply does_trans; [|apply flag_does].
      by apply does_tx_same. }
  set (s0 := upd s i (set_cmd (Some m))). set (c0 := set_cmd (Some m) c).
  assert (H0 : clients s0 !! i = Some c0) by by apply lookup_upd_self.
  assert (D0 : ∀ x, does x s s0) by (intros x; by apply does_tx_same).
  destruct (D0 None W) as (W0 & _).
  destruct (refusal _ _ _ _) as [[[| |] r]|] eqn:Er.
  - eexists. split; [done|]. unfold addReply. updates. eapply does_trans; [done|apply flag_does].
  - destruct (discard_does s0 i c0 W0 H0) as (s1 & -> & D1 & _). cbn [mbind option_bind].
    rewrite (refusal_discard _ _ _ _ _ Er). eexists. split; [done|]. unfold addReply. updates.
    by eapply does_trans.
  - eexists. split; [done|]. unfold addReply. updates. by apply does_frame.
  - destruct (_ && _) eqn:Eq.
    + apply andb_true_iff in Eq as [Em Eq]. rewrite has_multi in Em.
      destruct (queue_does (resets i (cproc m)) s0 i c0 m) as (s1 & -> & D1); try done.
      cbn [mbind option_bind]. eexists. split; [done|]. unfold addReply. updates. by eapply does_trans.
    + destruct (call_does False run_any (resets i (cproc m)) s0 i c0 m W0 H0 eq_refl)
        as (s1 & -> & D1 & _).
      { intros s1 c1 W1 H1. destruct (run_any_does (cproc m) s1 i c1 W1 H1) as (s2 & ? & ?).
        by exists s2. }
      eexists. split; [done|]. by eapply does_trans.
Qed.

(** ** Steps of the server *)

(** The event is not one by which the client [j] gives up or changes its
    watches: its own WATCH, UNWATCH, EXEC or DISCARD, or its end. *)
Definition quiet (j : cid) (ev : event) : bool :=
  match ev with
  | ECommand i a _ e => bool_decide (sender i e a ≠ Some j)
  | EClose i => bool_decide (i ≠ j)
  | _ => true
  end.

Lemma sender_self i e a j : sender i e a = Some j → i = j.
Proof. unfold sender, resets. repeat case_match; congruence. Qed.

Lemma wf_delete s i c : wf s → clients s !! i = Some c → watched_keys c = [] →
  wf (set_clients (delete i (clients s)) s).
Proof.
  intros [H1 H2 H3] Hc Hk. split; [done| |].
  - intros j k. cbn [watchers clients set_clients]. rewrite H2. destruct (decide (j = i)) as [->|].
    + rewrite lookup_delete_eq, Hc. split; [|naive_solver].
      intros (c' & [= <-] & Hin). rewrite Hk in Hin. set_solver.
    + by rewrite lookup_delete_ne.
  - intros j c'. cbn [clients set_clients]. intros E. apply lookup_delete_Some in E as [_ E]. eauto.
Qed.

Lemma wf_connect s i : wf s → clients s !! i = None → wf (createClient s i).
Proof.
  intros [H1 H2 H3] Hi. split; [done| |].
  - intros j k. cbn [watchers clients createClient set_clients]. rewrite H2.
    destruct (decide (j = i)) as [->|]; [|by rewrite lookup_insert_ne].
    rewrite lookup_insert_eq, Hi. split; [naive_solver|]. intros (? & [= <-] & ?). set_solver.
  - intros j c. cbn [clients createClient set_clients]. rewrite lookup_insert. case_decide; [|apply H3].
    intros [= <-]. split; [constructor|done|constructor].
Qed.

(** What every step promises. *)
Definition step_good (s : server) (ev : event) (s' : server) : Prop :=
  wf s' ∧ ∃ ks, touched s' = touched s ++ ks ∧
    ∀ j c, quiet j ev = true → clients s !! j = Some c →
      ∃ c', clients s' !! j = Some c' ∧ watched_keys c' = watched_keys c ∧
            is_cas c' = is_cas c || hit ks c.

Lemma step_good_intro x s ev s' :
  (∀ j, quiet j ev = true → x ≠ Some j) → wf s' → tracks x s s' → step_good s ev s'.
Proof.
  intros Hx W' (ks & T1 & T2). split; [done|]. exists ks. split; [done|].
  intros j c Hj. apply T2. by apply Hx.
Qed.

Lemma step_good_refl s ev : wf s → step_good s ev s.
Proof. intros W. apply (step_good_intro None); [done|done|by apply tracks_same]. Qed.

Lemma step_command s i a args e :
  wf s → ∃ s', step s (ECommand i a args e) = Some s' ∧ step_good s (ECommand i a args e) s'.
Proof.
  intros W. cbn [step]. case_bool_decide as Hi; [|exists s; split; [done|by apply step_good_refl]].
  destruct Hi as [c Hc].
  assert (D0 : does (sender i e a) s (upd s i (set_argv (a :: args)))) by by apply does_tx_same.
  destruct (D0 W) as (W0 & _).
  destruct (process_does (upd s i (set_argv (a :: args))) i e (set_argv (a :: args) c) a args W0)
    as (s' & E & D); [by apply lookup_upd_self|done|].
  destruct (does_trans _ _ _ _ D0 D W) as (W' & T & _).
  exists s'. split; [done|]. apply (step_good_intro (sender i e a)); [|done|done].
  intros j Hj. by apply bool_decide_eq_true in Hj.
Qed.

Lemma step_close s i :
  wf s → ∃ s', step s (EClose i) = Some s' ∧ step_good s (EClose i) s'.
Proof.
  intros W. cbn [step]. case_bool_decide as Hi; [|exists s; split; [done|by apply step_good_refl]].
  destruct Hi as [c Hc]. unfold freeClient.
  destruct (unwatch_does s i c W Hc) as (s1 & -> & D & _ & R & C). destruct (D W) as (W1 & T & _).
  eexists. split; [done|]. apply (step_good_intro (Some i)).
  - intros j Hj. apply bool_decide_eq_true in Hj. congruence.
  - by eapply wf_delete.
  - eapply tracks_trans; [exact T|]. apply tracks_quiet; [done|]. intros j c' Hx Hc'.
    exists c'. cbn [clients set_clients]. by rewrite lookup_delete_ne by congruence.
Qed.

Lemma step_ok s ev : wf s → ∃ s', step s ev = Some s' ∧ step_good s ev s'.
Proof.
  intros W. destruct ev as [i|i a args e|i|d ks].
  - cbn [step]. case_bool_decide as Hi; [exists s; split; [done|by apply step_good_refl]|].
    apply eq_None_not_Some in Hi. eexists. split; [done|].
    apply (step_good_intro None); [done|by apply wf_connect|].
    apply tracks_quiet; [done|]. intros j c _ Hc. exists c.
    cbn [createClient set_clients clients]. by rewrite lookup_insert_ne by congruence.
  - by apply step_command.
  - by apply step_close.
  - destruct (touch_all_ok 1%positive ks (set_data d s)) as (W' & T & _).
    { exact (wf_ext s (set_data d s) eq_refl eq_refl W). }
    eexists. split; [done|]. apply (step_good_intro None); [done|exact W'|].
    eapply tracks_trans; [|exact T]. by apply tracks_same.
Qed.

Lemma reachable_wf s : reachable s → wf s.
Proof.
  induction 1 as [d a m|s e s' _ W E].
  - split; cbn [init watchers clients].
    + intros k l. by rewrite lookup_empty.
    + intros i k. rewrite lookup_empty. split; intros (? & E & _); [done|]. by rewrite lookup_empty in E.
    + intros i c. by rewrite lookup_empty.
  - destruct (step_ok s e W) as (s1 & E1 & G). rewrite E in E1. injection E1 as <-. apply G.
Qed.

(** C1: In every state the server can reach, the table of watched keys and the
    watch lists of the clients agree (a client is listed under a key exactly
    when it watches it, without duplicates, and no key has an empty list), a
    client outside MULTI has no queue and no error flagged, and queues hold
    only commands that can be queued; and no event makes an assertion fail or
    a null pointer be used: every step has a successor. *)
Theorem transactions_invariant s :
  reachable s → wf s ∧ ∀ ev, ∃ s', step s ev = Some s' ∧ wf s'.
Proof.
  intros R. apply reachable_wf in R as W. split; [done|]. intros ev.
  destruct (step_ok s ev W) as (s' & E & G). exists s'. split; [done|]. apply G.
Qed.

Lemma run_tracks j es : ∀ s c s',
  wf s → clients s !! j = Some c → forallb (quiet j) es = true → run s es = Some s' →
  ∃ ks c', touched s' = touched s ++ ks ∧ clients s' !! j = Some c' ∧
    watched_keys c' = watched_keys c ∧ is_cas c' = is_cas c || hit ks c.
Proof.
  induction es as [|ev es IH]; intros s c s' W Hc Hq E; cbn [run] in E.
  { injection E as <-. exists [], c. by rewrite app_nil_r, orb_false_r. }
  cbn [forallb] in Hq. apply andb_true_iff in Hq as [Hq1 Hq2].
  destruct (step_ok s ev W) as (s1 & E1 & W1 & k1 & T1 & C1). rewrite E1 in E. cbn [mbind option_bind] in E.
  destruct (C1 j c Hq1 Hc) as (c1 & Hc1 & K1 & F1).
  destruct (IH s1 c1 s' W1 Hc1 Hq2 E) as (k2 & c2 & T2 & Hc2 & K2 & F2).
  exists (k1 ++ k2), c2. split_and!; [by rewrite T2, T1, app_assoc|done|congruence|].
  rewrite F2, F1, hit_app, orb_assoc. unfold hit. by rewrite K1.
Qed.

(** C29: WATCH is an optimistic lock.  Between two states of a run in which the
    client does not change or give up its watches itself, it keeps its watched
    keys and is marked dirty exactly if it was before or a key it watches was
    signalled as modified in between, whatever the other clients do. *)
Theorem watch_detects_changes s es s' j c :
  reachable s → clients s !! j = Some c → forallb (quiet j) es = true → run s es = Some s' →
  ∃ ks c', touched s' = touched s ++ ks ∧ clients s' !! j = Some c' ∧
    watched_keys c' = watched_keys c ∧
    (has (flags c') CLIENT_DIRTY_CAS = true ↔
     has (flags c) CLIENT_DIRTY_CAS = true ∨ ∃ k, k ∈ ks ∧ k ∈ watched_keys c).
Proof.
  intros R Hc Hq E. destruct (run_tracks j es s c s' (reachable_wf s R) Hc Hq E)
    as (ks & c' & T & Hc' & K & F). exists ks, c'. split_and!; [done..|].
  rewrite !has_cas, F, orb_true_iff. unfold hit. rewrite existsb_exists.
  setoid_rewrite bool_decide_eq_true. setoid_rewrite <- list_elem_of_In. done.
Qed.

(** ** What EXEC does: a reference interpreter

    [act] is the effect of a procedure that can be queued, on the flags, the
    database, the dirty counter, the arguments and the data alone: no clients,
    no watches. *)
Definition act (p : proc) (fl db n : Z) (argv : list bytes) (d : dataset) : effect :=
  match p with
  | PFlushdb => mk_effect fl db argv (d ∖ db_dict db d)
      (filter (λ k, in_db db k = true) (elements (dom d))) (Z.of_nat (size (db_dict db d))) [] ROk
  | PFlushall => mk_effect fl db argv ∅
      (filter (λ k, in_db (-1) k = true) (elements (dom d))) (Z.of_nat (size d) + 1) [] ROk
  | POther _ f =>
      let e := f fl db n argv d in
      mk_effect (Z.lor (Z.land fl tx_mask) (Z.ldiff (e_flags e) tx_mask)) (e_db e) (e_argv e)
        (e_data e) (e_keys e) (e_dirty e) (e_also e) (e_reply e)
  | _ => mk_effect (Z.land fl (Z.lnot CLIENT_DIRTY_CAS)) db argv d [] 0 [] ROk
  end.

(** A propagated command and its targets. *)
Definition sent (t : Z) (log : list redisOp) : list (Z * list bytes) :=
  (λ o, (op_dbid o, op_argv o)) <$> filter (λ o, has (op_target o) t = true) log.

(** What one command propagates. *)
Definition command_log (e : effect) : list redisOp :=
  mk_op (e_db e) (e_argv e) (propagate_flags (e_flags e) (e_dirty e >? 0)) :: e_also e.

(** The flags after [call]. *)
Definition restore (old fl : Z) : Z := Z.lor (Z.land fl (Z.lnot prop_mask)) (Z.land old prop_mask).

(** The queue run as a sequential program: the flags and the database at the
    end, the data, the keys signalled, the changes counted, the replies and
    what is propagated, MULTI before the first command that may write. *)
Record outcome := mk_out {
  o_flags : Z; o_db : Z; o_data : dataset; o_touched : list dbkey; o_dirty : Z;
  o_replies : list reply; o_log : list redisOp; o_must : bool
}.

Fixpoint interp (q : list multiCmd) (must : bool) (fl db n : Z) (d : dataset) : outcome :=
  match q with
  | [] => mk_out fl db d [] 0 [] [] must
  | mc :: q =>
      let first := negb must && negb (has (cflags (mc_cmd mc)) CMD_READONLY) in
      let e := act (cproc (mc_cmd mc)) (Z.land fl (Z.lnot prop_mask)) db n (mc_argv mc) d in
      let o := interp q (must || first) (restore fl (e_flags e)) (e_db e) (n + e_dirty e)
                 (e_data e) in
      mk_out (o_flags o) (o_db o) (o_data o) (e_keys e ++ o_touched o) (e_dirty e + o_dirty o)
        (e_reply e :: o_replies o)
        ((if first then [mk_op db [of_string "MULTI"] (Z.lor PROPAGATE_AOF PROPAGATE_REPL)] else [])
         ++ command_log e ++ o_log o) (o_must o)
  end.

(** The logs grow by [log]. *)
Definition logs (log : list redisOp) (s s' : server) : Prop :=
  aof_on s' = aof_on s ∧ aof s' = aof s ++ (if aof_on s then sent PROPAGATE_AOF log else []) ∧
  repl s' = repl s ++ sent PROPAGATE_REPL log.

Lemma sent_app t l1 l2 : sent t (l1 ++ l2) = sent t l1 ++ sent t l2.
Proof. unfold sent. by rewrite filter_app, fmap_app. Qed.

Lemma logs_trans l1 l2 s1 s2 s3 : logs l1 s1 s2 → logs l2 s2 s3 → logs (l1 ++ l2) s1 s3.
Proof.
  intros (A1 & B1 & C1) (A2 & B2 & C2). split_and!; [congruence| |].
  - rewrite B2, B1, A1, sent_app, <- app_assoc. by destruct (aof_on s1).
  - by rewrite C2, C1, sent_app, app_assoc.
Qed.

Lemma logs_same s s' : aof_on s' = aof_on s → aof s' = aof s → repl s' = repl s → logs [] s s'.
Proof.
  intros A B C. split_and!; [done| |]; rewrite ?B, ?C; [destruct (aof_on s)|]; symmetry; apply app_nil_r.
Qed.

Lemma sent_one t dbid argv p :
  sent t [mk_op dbid argv p] = if has p t then [(dbid, argv)] else [].
Proof.
  unfold sent. rewrite filter_cons. cbn [op_target]. destruct (has p t).
  - by rewrite decide_True by done.
  - by rewrite decide_False by done.
Qed.

Lemma logs_propagate s dbid argv p : logs [mk_op dbid argv p] s (propagate s dbid argv p).
Proof.
  split_and!; [done|cbn [propagate aof]|cbn [propagate repl]]; rewrite sent_one;
    destruct (aof_on s), (has p _); cbn [andb]; rewrite ?app_nil_r; done.
Qed.

(** A target of 0 propagates nothing. *)
Lemma logs_maybe s s' dbid argv p :
  s' = (if p =? 0 then s else propagate s dbid argv p) → logs [mk_op dbid argv p] s s'.
Proof.
  intros ->. destruct (Z.eqb_spec p 0) as [->|]; [|apply logs_propagate].
  split_and!; [done| |]; rewrite sent_one; cbn; [by destruct (aof_on s); rewrite app_nil_r|by rewrite app_nil_r].
Qed.

Lemma logs_ops l : ∀ s, logs l s (propagate_ops s l).
Proof.
  unfold propagate_ops. induction l as [|[db av t] l IH]; intros s; [by apply logs_same|].
  cbn [foldl op_target op_dbid op_argv]. eapply (logs_trans [mk_op db av t] l); [|apply IH].
  by apply logs_maybe.
Qed.

Lemma propagate_ops_rest l : ∀ s,
  data (propagate_ops s l) = data s ∧ dirty (propagate_ops s l) = dirty s ∧
  monitors (propagate_ops s l) = monitors s.
Proof.
  unfold propagate_ops. induction l as [|o l IH]; intros s; [done|]. cbn [foldl].
  destruct (op_target o =? 0); [apply IH|]. destruct (IH (propagate s (op_dbid o) (op_argv o)
    (op_target o))) as (-> & -> & ->). done.
Qed.

(** *** A client that watches nothing is never marked *)
Lemma touch_unwatched i ks : ∀ s c,
  wf s → clients s !! i = Some c → watched_keys c = [] →
  clients (foldl signalModifiedKey s ks) !! i = Some c ∧
  touched (foldl signalModifiedKey s ks) = touched s ++ ks ∧
  data (foldl signalModifiedKey s ks) = data s ∧ dirty (foldl signalModifiedKey s ks) = dirty s ∧
  aof_on (foldl signalModifiedKey s ks) = aof_on s ∧ aof (foldl signalModifiedKey s ks) = aof s ∧
  repl (foldl signalModifiedKey s ks) = repl s ∧
  also_propagate (foldl signalModifiedKey s ks) = also_propagate s.
Proof.
  induction ks as [|k ks IH]; intros s c W Hc Hk; cbn [foldl]; [by rewrite app_nil_r|].
  destruct (touch_ok i s k W) as (W1 & _ & _). unfold signalModifiedKey in *. fold signalModifiedKey in *.
  set (s1 := touchWatchedKey s k) in *.
  assert (H1 : clients s1 !! i = Some c).
  { subst s1. unfold touchWatchedKey. rewrite mark_lookup. cbn [log_touched clients]. rewrite Hc.
    cbn [fmap option_fmap option_map]. rewrite bool_decide_false; [done|]. intros Hi.
    destruct (watchers s !! k) as [l|] eqn:El; [|set_solver]. cbn in Hi.
    destruct (proj1 (wf_watch _ W i k)) as (c' & Hc' & Hin); [by eauto|].
    rewrite Hc in Hc'. injection Hc' as <-. rewrite Hk in Hin. set_solver. }
  destruct (mark_fields (default [] (watchers s !! k)) (log_touched [k] s)) as (_ & R).
  fold (touchWatchedKey s k) in R. fold s1 in R.
  destruct R as (E1 & E2 & E3 & E4 & E5 & E6 & _ & _ & E9).
  destruct (IH s1 c W1 H1 Hk) as (-> & -> & -> & -> & -> & -> & -> & ->).
  rewrite E1, E2, E3, E4, E5, E6, E9. cbn [log_touched data dirty aof_on aof repl also_propagate touched].
  by rewrite <- app_assoc.
Qed.

(** *** The commands and the interpreter *)

(** [s'] is [s] after the effect [e], for the client [i] that was [c]. *)
Definition ran (i : cid) (c : client) (e : effect) (s s' : server) : Prop :=
  clients s' !! i = Some (mk_client (e_flags e) (mstate c) [] (e_db e) (e_argv e) (ccmd c)
                            (creply c ++ [e_reply e])) ∧
  data s' = e_data e ∧ touched s' = touched s ++ e_keys e ∧ dirty s' = dirty s + e_dirty e ∧
  also_propagate s' = also_propagate s ++ e_also e ∧ logs [] s s'.

Lemma lookup_upd_to s i f c c' :
  clients s !! i = Some c → f c = c' → clients (upd s i f) !! i = Some c'.
Proof. intros H <-. by apply lookup_upd_self. Qed.

(** Two clients are equal when their fields are. *)
Ltac fields := repeat match goal with c : client |- _ => destruct c end; cbn in *; by subst.

Lemma flush_unwatched i s dbid c :
  clients s !! i = Some c → watched_keys c = [] →
  clients (touchWatchedKeysOnFlush s dbid) !! i = Some c.
Proof.
  intros Hc Hk. unfold touchWatchedKeysOnFlush. cbn [clients log_touched set_clients].
  rewrite lookup_fmap, Hc. cbn. unfold flush_hits. by rewrite Hk.
Qed.

Lemma run_exact p s i c :
  wf s → clients s !! i = Some c → watched_keys c = [] → queued p = true →
  ∃ s', run_proc p s i = Some s' ∧ ran i c (act p (flags c) (cdb c) (dirty s) (cargv c) (data s)) s s'.
Proof.
  intros W Hc Hk Hq. destruct p as [| | | | | | |n f]; try done; cbn [run_proc].
  - unfold unwatchCommand, unwatchAllKeys. rewrite Hc. cbn [mbind option_bind]. rewrite Hk.
    cbn [mbind option_bind]. eexists. split; [done|]. cbn [act]. unfold addReply. split.
    + eapply lookup_upd_to; [by apply lookup_upd_self|fields].
    + split_and!; try done; rewrite ?app_nil_r; cbn; try done; try lia; by apply logs_same.
  - unfold flushdbCommand. rewrite Hc. cbn [mbind option_bind]. eexists. split; [done|]. cbn [act].
    unfold addReply. split.
    + eapply lookup_upd_to; [by apply (flush_unwatched i (add_dirty _ s))|fields].
    + cbn. split_and!; try done; rewrite ?app_nil_r; try done; by apply logs_same.
  - unfold flushallCommand. eexists. split; [done|]. cbn [act]. unfold addReply. split.
    + eapply (lookup_upd_to (set_data ∅ _)); [by apply (flush_unwatched i s)|fields].
    + cbn. split_and!; try done; rewrite ?app_nil_r; try done; try lia; by apply logs_same.
  - unfold otherCommand. rewrite Hc. cbn [mbind option_bind]. eexists. split; [done|]. cbn [act].
    set (e := f _ _ _ _ _). unfold addReply.
    destruct (touch_unwatched i (e_keys e) (set_data (e_data e) s) c) as
      (H1 & H2 & H3 & H4 & H5 & H6 & H7 & H8).
    { exact (wf_ext s (set_data (e_data e) s) eq_refl eq_refl W). } { done. } { done. }
    split; [|cbn; rewrite H2, H3, H4, H8; split_and!; try done].
    + eapply lookup_upd_to; [do 3 apply lookup_upd_self; exact H1|fields].
    + by apply logs_same.
Qed.

(** [call] around a procedure. *)
Lemma call_wrap run s i c m :
  clients s !! i = Some c → ccmd c = Some m →
  ∃ s1, clients s1 = clients (upd s i (clear_flags prop_mask)) ∧ watchers s1 = watchers s ∧
    data s1 = data s ∧ touched s1 = touched s ∧ dirty s1 = dirty s ∧ also_propagate s1 = [] ∧
    logs [] s s1 ∧
    ∀ s2 c2, run (cproc m) s1 i = Some s2 → clients s2 !! i = Some c2 →
    ∃ s', call run s i = Some s' ∧
      clients s' !! i = Some (set_flags (restore (flags c) (flags c2)) c2) ∧
      data s' = data s2 ∧ touched s' = touched s2 ∧ dirty s' = dirty s2 ∧ also_propagate s' = [] ∧
      logs (mk_op (cdb c2) (cargv c2) (propagate_flags (flags c2) (dirty s2 - dirty s >? 0))
            :: also_propagate s2) s2 s'.
Proof.
  intros Hc Hm. unfold call. rewrite Hc. cbn [mbind option_bind]. rewrite Hm.
  cbn [mbind option_bind]. set (s0 := if _ && _ then _ else _).
  assert (E0 : clients s0 = clients s ∧ watchers s0 = watchers s ∧ data s0 = data s ∧
    touched s0 = touched s ∧ dirty s0 = dirty s ∧ logs [] s s0).
  { subst s0. destruct (_ && _); split_and!; try done; by apply logs_same. }
  destruct E0 as (A1 & A2 & A3 & A4 & A5 & A6).
  exists (set_also [] (upd s0 i (clear_flags prop_mask))). split; [cbn; by rewrite A1|].
  do 5 (split; [done|]). split; [by apply (logs_trans [] [] _ s0 _ A6); apply logs_same|].
  intros s2 c2 -> H2. cbn [mbind option_bind]. rewrite H2. cbn [mbind option_bind].
  change (dirty (set_also _ _)) with (dirty s0). rewrite A5.
  eexists. split; [done|]. set (p := propagate_flags _ _). set (s3 := if p =? _ then _ else _).
  assert (C : clients s3 = clients s2 ∧ data s3 = data s2 ∧ touched s3 = touched s2 ∧
    dirty s3 = dirty s2 ∧ also_propagate s3 = also_propagate s2) by (subst s3; by destruct (p =? _)).
  destruct C as (C1 & C2 & C3 & C4 & C5).
  assert (L3 : logs [mk_op (cdb c2) (cargv c2) p] s2 s3) by by apply logs_maybe.
  set (s4 := upd (upd s3 i _) i _).
  destruct (propagate_ops_frame (also_propagate s4) s4) as (F1 & _ & F3).
  destruct (propagate_ops_rest (also_propagate s4) s4) as (G1 & G2 & _).
  cbn [set_also clients data touched dirty]. rewrite F1, F3, G1, G2. split.
  - eapply lookup_upd_to; [apply lookup_upd_self; by rewrite C1|fields].
  - do 4 (split; [done|]). rewrite <- C5. apply (logs_trans [_] (also_propagate s3) _ _ _ L3).
    exact (logs_ops (also_propagate s3) s4).
Qed.

Definition called (i : cid) (c : client) (e : effect) (s s' : server) : Prop :=
  clients s' !! i = Some (mk_client (restore (flags c) (e_flags e)) (mstate c) [] (e_db e)
                            (e_argv e) (ccmd c) (creply c ++ [e_reply e])) ∧
  data s' = e_data e ∧ touched s' = touched s ++ e_keys e ∧ dirty s' = dirty s + e_dirty e ∧
  also_propagate s' = [] ∧ logs (command_log e) s s'.

Lemma call_exact s i c m :
  wf s → clients s !! i = Some c → watched_keys c = [] → ccmd c = Some m →
  queued (cproc m) = true →
  ∃ s', call run_proc s i = Some s' ∧
    called i c (act (cproc m) (Z.land (flags c) (Z.lnot prop_mask)) (cdb c) (dirty s) (cargv c)
                  (data s)) s s'.
Proof.
  intros W Hc Hk Hm Hq.
  destruct (call_wrap run_proc s i c m Hc Hm) as (s1 & A1 & A2 & A3 & A4 & A5 & A6 & A7 & Hrun).
  assert (W1 : wf s1).
  { apply (wf_ext (upd s i (clear_flags prop_mask))); [done..|]. by apply (does_tx_same None). }
  assert (H1 : clients s1 !! i = Some (clear_flags prop_mask c)) by (rewrite A1; by apply lookup_upd_self).
  destruct (run_exact (cproc m) s1 i _ W1 H1 Hk Hq) as (s2 & E & B1 & B2 & B3 & B4 & B5 & B6).
  destruct (Hrun _ _ E B1) as (s' & E' & C1 & C2 & C3 & C4 & C5 & C6).
  exists s'. split; [done|]. rewrite A3, A5 in *. rewrite A6 in B5.
  change (flags (clear_flags prop_mask c)) with (Z.land (flags c) (Z.lnot prop_mask)) in *.
  change (cdb (clear_flags prop_mask c)) with (cdb c) in *.
  change (cargv (clear_flags prop_mask c)) with (cargv c) in *.
  set (e := act _ _ _ _ _ _) in *. unfold called.
  split; [done|]. do 3 (split; [congruence|]). split; [done|]. unfold command_log.
  replace (e_dirty e) with (dirty s2 - dirty s) by lia. cbn [flags cdb cargv] in C6.
  rewrite B5 in C6. apply (logs_trans [] _ _ _ _ A7), (logs_trans [] _ _ _ _ B6). exact C6.
Qed.

(** *** The loop of EXEC and the interpreter *)
Definition multi_log (first : bool) (db : Z) : list redisOp :=
  if first then [mk_op db [of_string "MULTI"] (Z.lor PROPAGATE_AOF PROPAGATE_REPL)] else [].

Lemma exec_round_exact j must s i c mc :
  wf s → clients s !! i = Some c → watched_keys c = [] → mstate c !! j = Some mc →
  let first := negb must && negb (has (cflags (mc_cmd mc)) CMD_READONLY) in
  let s0 := upd (upd s i (set_argv (mc_argv mc))) i (set_cmd (Some (mc_cmd mc))) in
  let c0 := set_cmd (Some (mc_cmd mc)) (set_argv (mc_argv mc) c) in
  ∃ s1 s2, (if first then s ← execCommandPropagateMulti s0 i; Some (true, s) else Some (must, s0))
      = Some (must || first, s1) ∧ call run_proc s1 i = Some s2 ∧ logs (multi_log first (cdb c)) s s1 ∧
    called i c0 (act (cproc (mc_cmd mc)) (Z.land (flags c) (Z.lnot prop_mask)) (cdb c) (dirty s)
                   (mc_argv mc) (data s)) s1 s2 ∧ touched s1 = touched s ∧ dirty s1 = dirty s.
Proof.
  intros W Hc Hk Hj first s0 c0.
  assert (Q : ∃ s1, (if first then s ← execCommandPropagateMulti s0 i; Some (true, s)
      else Some (must, s0)) = Some (must || first, s1) ∧ clients s1 = clients s0 ∧
      watchers s1 = watchers s ∧ data s1 = data s ∧ touched s1 = touched s ∧ dirty s1 = dirty s ∧
      logs (multi_log first (cdb c)) s s1).
  { assert (H0 : clients s0 !! i = Some c0) by by do 2 apply lookup_upd_self.
    destruct first eqn:Ef; unfold multi_log.
    - unfold execCommandPropagateMulti. rewrite H0. cbn [mbind option_bind]. eexists. rewrite orb_true_r.
      split_and!; try done. apply (logs_trans [] _ _ s0); [by apply logs_same|apply logs_propagate].
    - exists s0. rewrite orb_false_r. split_and!; try done. by apply logs_same. }
  destruct Q as (s1 & -> & E1 & E2 & E3 & E4 & E5 & L).
  assert (W1 : wf s1).
  { apply (wf_ext s0); [done|done|]. apply (does_tx_same None); [done|]. by apply (does_tx_same None). }
  destruct (call_exact s1 i c0 (mc_cmd mc) W1) as (s2 & E & C); try done.
  { rewrite E1. by do 2 apply lookup_upd_self. }
  { exact (Forall_lookup_1 _ _ _ _ (ok_queue _ (wf_client _ W _ _ Hc)) Hj). }
  exists s1, s2. rewrite E3, E5 in C. done.
Qed.

Lemma exec_loop_exact i n : ∀ j must s c,
  wf s → clients s !! i = Some c → watched_keys c = [] → length (mstate c) = (j + n)%nat →
  let o := interp (drop j (mstate c)) must (flags c) (cdb c) (dirty s) (data s) in
  ∃ s' c', exec_loop j n must s i = Some (o_must o, s') ∧ wf s' ∧
    clients s' !! i = Some c' ∧ flags c' = o_flags o ∧ watched_keys c' = [] ∧ cdb c' = o_db o ∧
    creply c' = creply c ++ o_replies o ∧ data s' = o_data o ∧ touched s' = touched s ++ o_touched o ∧
    dirty s' = dirty s + o_dirty o ∧ (also_propagate s = [] → also_propagate s' = []) ∧
    logs (o_log o) s s'.
Proof.
  induction n as [|n IH]; intros j must s c W Hc Hk Hl; cbn [exec_loop].
  { rewrite drop_ge by lia. cbn. exists s, c. rewrite !app_nil_r. split_and!; try done; [lia|by apply logs_same]. }
  rewrite Hc. cbn [mbind option_bind].
  destruct (lookup_lt_is_Some_2 (mstate c) j) as [mc Hj]; [lia|]. rewrite Hj. cbn [mbind option_bind].
  destruct (exec_round j must s i c mc W Hc Hj) as (must1 & s1 & s2 & c2 & E1 & E2 & H2 & C2 & M2 & D2).
  destruct (exec_round_exact j must s i c mc W Hc Hk Hj) as (s1' & s2' & E1' & E2' & L & K & T & D).
  cbv zeta in E1, E1', L. rewrite E1' in E1. injection E1 as <- <-. rewrite E2' in E2.
  injection E2 as <-. rewrite E1'. cbn [mbind option_bind]. rewrite E2'. cbn [mbind option_bind].
  rewrite H2. cbn [mbind option_bind]. rewrite C2. cbn [mbind option_bind].
  rewrite (drop_S _ _ _ Hj). cbn [interp]. fold (multi_log (negb must &&
    negb (has (cflags (mc_cmd mc)) CMD_READONLY)) (cdb c)). set (first := negb must && _) in *.
  set (e := act _ _ _ _ _ _) in *. destruct K as (K1 & K2 & K3 & K4 & K6 & K5). rewrite H2 in K1.
  injection K1 as ->. cbn [mstate cargv] in *. set (s3 := upd s2' i _).
  assert (W3 : wf s3).
  { apply does_self; [|by apply D2]. intros c' Hc' Hok. rewrite H2 in Hc'. injection Hc' as <-.
    split; [done|]. exact (ok_write_back _ j mc _ Hok Hj). }
  edestruct (IH (S j) (must || first) s3) as (s' & c' & E & W' & H' & F1 & F2 & F3 & F4 & F5 & F6 & F7 & F9 & F8).
  { done. } { apply lookup_upd_self. exact H2. } { done. } { cbn. rewrite length_insert. lia. }
  cbn [mstate set_mstate flags cdb creply] in *. rewrite drop_insert_lt in * by lia.
  change (data s3) with (data s2') in *. change (dirty s3) with (dirty s2') in *.
  rewrite K2, K4, D in *. set (o := interp _ _ _ _ _ _) in *.
  exists s', c'. split_and!; try done.
  - rewrite F4. cbn. by rewrite <- app_assoc.
  - rewrite F6. change (touched s3) with (touched s2'). by rewrite K3, T, <- app_assoc.
  - rewrite F7. change (dirty s3) with (dirty s2'). cbn. lia.
  - intros _. by apply F9.
  - eapply logs_trans; [exact L|]. apply (logs_trans _ _ _ _ _ K5), (logs_trans [] _ _ s3); [|done].
    by apply logs_same.
Qed.

(** *** Flags around EXEC *)
Lemma restore_mask old fl : Z.land (restore old fl) prop_mask = Z.land old prop_mask.
Proof.
  unfold restore. rewrite Z.land_lor_distr_l, <- !Z.land_assoc.
  rewrite (Z.land_comm (Z.lnot prop_mask)), Z.land_lnot_diag, Z.land_0_r, Z.land_diag. done.
Qed.

Lemma interp_mask q : ∀ must fl db n d,
  Z.land (o_flags (interp q must fl db n d)) prop_mask = Z.land fl prop_mask.
Proof.
  induction q as [|mc q IH]; intros must fl db n d; [done|]. cbn [interp o_flags].
  rewrite IH. apply restore_mask.
Qed.

Lemma restore_tx old fl :
  has (restore old (Z.land fl (Z.lnot tx_mask))) tx_mask = false.
Proof.
  unfold has, restore. apply negb_false_iff, Z.eqb_eq.
  rewrite Z.land_lor_distr_l, <- !Z.land_assoc. rewrite (Z.land_comm (Z.lnot prop_mask)).
  rewrite (Z.land_assoc (Z.lnot tx_mask)), (Z.land_comm (Z.lnot tx_mask)), Z.land_lnot_diag.
  by rewrite Z.land_0_l, !Z.land_0_r.
Qed.

Lemma propagate_flags_clear fl b :
  Z.land fl prop_mask = 0 → propagate_flags fl b = if b then Z.lor PROPAGATE_AOF PROPAGATE_REPL else 0.
Proof.
  intros H. assert (Hh : has fl prop_mask = false) by (unfold has; by rewrite H).
  unfold prop_mask, CLIENT_PREVENT_PROP in Hh. rewrite !has_lor in Hh.
  repeat (apply orb_false_iff in Hh as [? Hh]). unfold propagate_flags. case_match eqn:E.
  - apply Z.eqb_eq in E. unfold has in Hh. apply negb_false_iff, Z.eqb_eq in Hh. exfalso.
    apply (f_equal (λ z, Z.land z CLIENT_PREVENT_REPL_PROP)) in E.
    rewrite <- Z.land_assoc in E. change (Z.land CLIENT_PREVENT_PROP CLIENT_PREVENT_REPL_PROP) with
      CLIENT_PREVENT_REPL_PROP in E. rewrite Hh in E. done.
  - by repeat match goal with H : has fl _ = false |- _ => rewrite H; clear H end.
Qed.

(** ** EXEC *)

(** The command passes the checks. *)
Definition passes (c : client) (a : bytes) (args : list bytes) (e : env) (m : redisCommand) : Prop :=
  strcaseeq a (of_string "quit") = false ∧ lookupCommand e a = Some m ∧
  refusal e (flags c) (a :: args) m = None.

Lemma step_exec s i c a args e m :
  clients s !! i = Some c → passes c a args e m → cproc m = PExec →
  step s (ECommand i a args e) =
    call run_any (upd (upd s i (set_argv (a :: args))) i (set_cmd (Some m))) i.
Proof.
  intros Hc (H1 & H2 & H3) Hp. cbn [step]. rewrite bool_decide_true by by eexists.
  unfold processCommand. rewrite (lookup_upd_self _ _ _ _ Hc). cbn [mbind option_bind cargv set_argv head].
  rewrite H1, H2. cbn [flags set_argv]. rewrite H3, Hp. cbn [queued]. by rewrite andb_false_r.
Qed.

(** The end of EXEC. *)
Lemma exec_finish s i c av cm (must : bool) :
  wf s → clients s !! i = Some c →
  ∃ s', (s ← (s ← discardTransaction (upd (upd s i (set_argv av)) i (set_cmd cm)) i;
              Some (if must then add_dirty 1 s else s));
         c ← clients s !! i;
         Some (if monitors s then replicationFeedMonitors s (cdb c) (cargv c) else s)) = Some s' ∧
    clients s' !! i = Some (mk_client (Z.land (flags c) (Z.lnot tx_mask)) [] [] (cdb c) av cm
                              (creply c)) ∧
    data s' = data s ∧ touched s' = touched s ∧ dirty s' = dirty s + (if must then 1 else 0) ∧
    also_propagate s' = also_propagate s ∧ logs [] s s'.
Proof.
  intros W Hc. set (s4 := upd (upd s i _) i _).
  assert (W4 : wf s4) by (apply (does_tx_same None); [done|by apply (does_tx_same None)]).
  destruct (discard_does s4 i (set_cmd cm (set_argv av c)) W4) as (s5 & -> & _ & Q & C5).
  { by do 2 apply lookup_upd_self. }
  destruct Q as (Q1 & Q2 & Q3 & Q4 & Q5 & Q6 & Q7 & Q8 & Q9). cbn [mbind option_bind].
  set (s6 := if must then _ else _). assert (G1 : clients s6 = clients s5) by (subst s6; by destruct must).
  rewrite G1, C5. cbn [mbind option_bind]. eexists. split; [done|].
  set (s7 := if monitors s6 then _ else _).
  assert (G : clients s7 = clients s6 ∧ data s7 = data s6 ∧ touched s7 = touched s6 ∧
    dirty s7 = dirty s6 ∧ also_propagate s7 = also_propagate s6 ∧ aof_on s7 = aof_on s6 ∧
    aof s7 = aof s6 ∧ repl s7 = repl s6) by (subst s7; by destruct (monitors s6)).
  destruct G as (-> & -> & -> & -> & -> & A1 & A2 & A3). rewrite G1, C5.
  split; [done|]. split; [subst s6; by destruct must|]. split; [subst s6; by destruct must|].
  split; [subst s6; destruct must; cbn; rewrite Q2; cbn; lia|]. split; [subst s6; by destruct must|].
  apply logs_same; rewrite ?A1, ?A2, ?A3; subst s6; destruct must; done.
Qed.

Lemma exec_clean s i c :
  wf s → clients s !! i = Some c → has (flags c) CLIENT_MULTI = true →
  has (flags c) (Z.lor CLIENT_DIRTY_CAS CLIENT_DIRTY_EXEC) = false → also_propagate s = [] →
  let o := interp (mstate c) false (flags c) (cdb c) (dirty s) (data s) in
  ∃ s', execCommand s i = Some s' ∧
    clients s' !! i = Some (mk_client (Z.land (o_flags o) (Z.lnot tx_mask)) [] [] (o_db o) (cargv c)
      (ccmd c) (creply c ++ RMultiLen (Z.of_nat (length (mstate c))) :: o_replies o)) ∧
    data s' = o_data o ∧ touched s' = touched s ++ o_touched o ∧
    dirty s' = dirty s + o_dirty o + (if o_must o then 1 else 0) ∧ also_propagate s' = [] ∧
    logs (o_log o) s s'.
Proof.
  intros W Hc Hm Hd Ha o. unfold execCommand. rewrite Hc. cbn [mbind option_bind]. rewrite Hm, Hd.
  cbn [negb]. destruct (unwatch_does s i c W Hc) as (s1 & -> & D1 & _ & R & C1). cbn [mbind option_bind].
  destruct R as (R1 & R2 & R3 & R4 & R5 & R6 & R7 & R8 & R9). set (s2 := addReply s1 i _).
  assert (W2 : wf s2) by (apply (does_tx_same None); [done|by apply D1]).
  assert (H2 : clients s2 !! i = Some (add_reply (RMultiLen (Z.of_nat (length (mstate c))))
    (set_watched [] c))) by by apply lookup_upd_self.
  destruct (exec_loop_exact i (length (mstate c)) 0 false s2 _ W2 H2) as
    (s3 & c3 & E & W3 & H3 & F1 & F2 & F3 & F4 & F5 & F6 & F7 & F8 & F9); [done|done|].
  cbn [mstate flags cdb creply add_reply set_watched] in *. rewrite drop_0 in *.
  change (data s2) with (data s1) in *. change (dirty s2) with (dirty s1) in *. rewrite R1, R2 in *.
  fold o in E, F1, F3, F4, F5, F6, F7, F9. rewrite E. cbn [mbind option_bind].
  destruct (exec_finish s3 i c3 (cargv c) (ccmd c) (o_must o) W3 H3) as
    (s' & E' & K1 & K2 & K3 & K4 & K5 & K6).
  exists s'. split; [exact E'|]. rewrite K1, K2, K3, K4, K5, F1, F3, F4, F5, F6, F7. cbn [app].
  split; [by rewrite <- app_assoc|]. split; [done|]. split; [by rewrite <- R9|]. split; [done|].
  split; [by apply F8; rewrite <- Ha|]. rewrite <- (app_nil_r (o_log o)).
  eapply logs_trans; [|exact K6]. apply (logs_trans [] _ _ s2); [by apply logs_same|done].
Qed.

(** [call] entered for EXEC: the same transaction, without the flags of propagation. *)
Lemma exec_entry s i c a args m :
  wf s → clients s !! i = Some c → cproc m = PExec →
  let s0 := upd (upd s i (set_argv (a :: args))) i (set_cmd (Some m)) in
  ∃ s1 c1, wf s1 ∧ clients s1 !! i = Some c1 ∧
    c1 = clear_flags prop_mask (set_cmd (Some m) (set_argv (a :: args) c)) ∧
    has (flags c1) CLIENT_MULTI = has (flags c) CLIENT_MULTI ∧
    has (flags c1) CLIENT_DIRTY_CAS = has (flags c) CLIENT_DIRTY_CAS ∧
    has (flags c1) CLIENT_DIRTY_EXEC = has (flags c) CLIENT_DIRTY_EXEC ∧
    data s1 = data s ∧ touched s1 = touched s ∧ dirty s1 = dirty s ∧ also_propagate s1 = [] ∧
    logs [] s s1 ∧
    ∀ s2 c2, execCommand s1 i = Some s2 → clients s2 !! i = Some c2 → also_propagate s2 = [] →
    Z.land (flags c2) prop_mask = 0 →
    ∃ s', call run_any s0 i = Some s' ∧
      clients s' !! i = Some (set_flags (restore (flags c) (flags c2)) c2) ∧
      data s' = data s2 ∧ touched s' = touched s2 ∧ dirty s' = dirty s2 ∧
      logs [mk_op (cdb c2) (cargv c2) (if dirty s2 - dirty s >? 0
              then Z.lor PROPAGATE_AOF PROPAGATE_REPL else PROPAGATE_NONE)] s2 s'.
Proof.
  intros W Hc Hp s0. set (c0 := set_cmd (Some m) (set_argv (a :: args) c)).
  assert (H0 : clients s0 !! i = Some c0) by by do 2 apply lookup_upd_self.
  assert (W0 : wf s0) by (apply (does_tx_same None); [done|by apply (does_tx_same None)]).
  destruct (call_wrap run_any s0 i c0 m H0 eq_refl) as (s1 & A1 & A2 & A3 & A4 & A5 & A6 & A7 & Hrun).
  rewrite Hp in Hrun. exists s1, (clear_flags prop_mask c0).
  split; [apply (wf_ext (upd s0 i (clear_flags prop_mask))); [done..|by apply (does_tx_same None)]|].
  split; [rewrite A1; by apply lookup_upd_self|]. split; [done|].
  rewrite !has_multi, !has_cas, !has_dexec.
  split; [by bits|]. split; [by bits|]. split; [by bits|]. do 4 (split; [done|]). split.
  { apply (logs_trans [] _ _ s0); [by apply logs_same|done]. }
  intros s2 c2 E2 H2 Ha Hf. destruct (Hrun s2 c2 E2 H2) as (s' & E' & B1 & B2 & B3 & B4 & _ & B6).
  exists s'. rewrite Ha, propagate_flags_clear in B6 by done. done.
Qed.

Lemma exec_spec s i c a args e m :
  wf s → clients s !! i = Some c → passes c a args e m → cproc m = PExec →
  has (flags c) CLIENT_MULTI = true →
  has (flags c) (Z.lor CLIENT_DIRTY_CAS CLIENT_DIRTY_EXEC) = false →
  let o := interp (mstate c) false (Z.land (flags c) (Z.lnot prop_mask)) (cdb c) (dirty s) (data s) in
  let n := o_dirty o + (if o_must o then 1 else 0) in
  ∃ s' c', step s (ECommand i a args e) = Some s' ∧ clients s' !! i = Some c' ∧
    data s' = o_data o ∧ touched s' = touched s ++ o_touched o ∧ dirty s' = dirty s + n ∧
    logs (o_log o ++ [mk_op (o_db o) (a :: args)
            (if n >? 0 then Z.lor PROPAGATE_AOF PROPAGATE_REPL else PROPAGATE_NONE)]) s s' ∧
    creply c' = creply c ++ RMultiLen (Z.of_nat (length (mstate c))) :: o_replies o ∧
    cdb c' = o_db o ∧ mstate c' = [] ∧ watched_keys c' = [] ∧ has (flags c') tx_mask = false.
Proof.
  intros W Hc Hpass Hp Hm Hd o n.
  rewrite (step_exec s i c a args e m Hc Hpass Hp).
  destruct (exec_entry s i c a args m W Hc Hp) as
    (s1 & c1 & W1 & H1 & -> & M1 & M2 & M3 & A1 & A2 & A3 & A4 & A5 & Hrun).
  destruct (exec_clean s1 i _ W1 H1) as (s2 & E2 & H2 & B1 & B2 & B3 & B4 & B5).
  { by rewrite M1. } { rewrite has_lor, M2, M3, <- has_lor. done. } { done. }
  cbn [mstate flags cdb cargv ccmd creply clear_flags set_flags set_cmd set_argv] in *.
  rewrite A1, A3 in *. fold o in H2, B1, B2, B3, B5.
  destruct (Hrun s2 _ E2 H2 B4) as (s' & E' & C1 & C2 & C3 & C4 & C5).
  { cbn [flags]. rewrite <- Z.land_assoc, (Z.land_comm (Z.lnot _)), Z.land_assoc. unfold o.
    rewrite interp_mask, <- (Z.land_assoc (flags c)), (Z.land_comm (Z.lnot prop_mask)), Z.land_lnot_diag.
    by rewrite Z.land_0_r, Z.land_0_l. }
  exists s'. eexists. split; [exact E'|]. split; [exact C1|]. cbn [creply cdb mstate watched_keys flags set_flags].
  split; [congruence|]. split; [congruence|]. split; [lia|]. split.
  { apply (logs_trans [] _ _ _ _ A5), (logs_trans _ _ _ _ _ B5). cbn [cdb cargv] in C5.
    replace (dirty s2 - dirty s) with n in C5 by lia. exact C5. }
  do 4 (split; [done|]). apply restore_tx.
Qed.

(** C23: EXEC is atomic.  When no watched key was touched and no command was
    refused while queueing, EXEC runs exactly the queue: the data set, the keys
    signalled, the replies (an array header with the number of commands, then
    one reply per command in order), and what goes to the append only file and
    the slaves are those of the reference interpreter on the queue, starting
    from the state at EXEC; then the client is outside MULTI, with an empty
    queue, no watched key and no dirty mark.  EXEC itself is propagated after
    the queue, exactly if the dirty counter grew or MULTI was propagated and
    the counter is not lower than before. *)
Theorem exec_atomic s i c a args e m :
  reachable s → clients s !! i = Some c → passes c a args e m → cproc m = PExec →
  has (flags c) CLIENT_MULTI = true →
  has (flags c) (Z.lor CLIENT_DIRTY_CAS CLIENT_DIRTY_EXEC) = false →
  let o := interp (mstate c) false (Z.land (flags c) (Z.lnot prop_mask)) (cdb c) (dirty s) (data s) in
  let n := o_dirty o + (if o_must o then 1 else 0) in
  ∃ s' c', step s (ECommand i a args e) = Some s' ∧ clients s' !! i = Some c' ∧
    data s' = o_data o ∧ touched s' = touched s ++ o_touched o ∧ dirty s' = dirty s + n ∧
    logs (o_log o ++ [mk_op (o_db o) (a :: args)
            (if n >? 0 then Z.lor PROPAGATE_AOF PROPAGATE_REPL else PROPAGATE_NONE)]) s s' ∧
    creply c' = creply c ++ RMultiLen (Z.of_nat (length (mstate c))) :: o_replies o ∧
    cdb c' = o_db o ∧ mstate c' = [] ∧ watched_keys c' = [] ∧ has (flags c') tx_mask = false.
Proof. intros R. by apply exec_spec, reachable_wf. Qed.

(** EXEC of a dirty transaction does nothing.  When a watched key was
    touched or a command was refused while queueing, EXEC leaves the data set,
    the keys signalled, the dirty counter, the append only file and the slaves
    as they were, answers EXECABORT in the second case and the nil array in the
    first, and ends the transaction: no queue, no watched key, no mark. *)
Theorem exec_dirty s i c a args e m :
  reachable s → clients s !! i = Some c → passes c a args e m → cproc m = PExec →
  has (flags c) CLIENT_MULTI = true →
  has (flags c) (Z.lor CLIENT_DIRTY_CAS CLIENT_DIRTY_EXEC) = true →
  ∃ s' c', step s (ECommand i a args e) = Some s' ∧ clients s' !! i = Some c' ∧
    data s' = data s ∧ touched s' = touched s ∧ dirty s' = dirty s ∧ aof s' = aof s ∧
    repl s' = repl s ∧
    creply c' = creply c ++ [if has (flags c) CLIENT_DIRTY_EXEC then RExecAbort else RNullMulti] ∧
    mstate c' = [] ∧ watched_keys c' = [] ∧ has (flags c') tx_mask = false.
Proof.
  intros R Hc Hpass Hp Hm Hd. apply reachable_wf in R as W.
  rewrite (step_exec s i c a args e m Hc Hpass Hp).
  destruct (exec_entry s i c a args m W Hc Hp) as
    (s1 & c1 & W1 & H1 & E1 & M1 & M2 & M3 & A1 & A2 & A3 & A4 & A5 & Hrun).
  assert (E : ∃ s2 c2, execCommand s1 i = Some s2 ∧ clients s2 !! i = Some c2 ∧
    c2 = discarded (add_reply (if has (flags c) CLIENT_DIRTY_EXEC then RExecAbort else RNullMulti) c1) ∧
    data s2 = data s1 ∧ touched s2 = touched s1 ∧ dirty s2 = dirty s1 ∧ also_propagate s2 = [] ∧
    logs [] s1 s2).
  { unfold execCommand. rewrite H1. cbn [mbind option_bind]. rewrite M1, Hm, has_lor, M2, M3, <- has_lor, Hd.
    cbn [negb]. set (s2 := addReply _ _ _).
    destruct (discard_does s2 i _ (proj1 (does_tx_same None s1 i _ (same_reply _) W1))
      (lookup_upd_self _ _ _ _ H1)) as (s3 & -> & _ & Q & C3).
    cbn [mbind option_bind]. rewrite C3. cbn [mbind option_bind]. eexists _, _. split; [done|].
    destruct Q as (Q1 & Q2 & Q3 & Q4 & Q5 & Q6 & Q7 & Q8 & Q9).
    change (also_propagate s2) with (also_propagate s1) in Q6. rewrite A4 in Q6. destruct (monitors s3); do 6 (split; [done|]); by apply logs_same. }
  destruct E as (s2 & c2 & E2 & H2 & -> & B1 & B2 & B3 & B4 & B5).
  destruct (Hrun s2 _ E2 H2 B4) as (s' & E' & C1 & C2 & C3 & C4 & C5).
  { subst c1. cbn. rewrite <- !Z.land_assoc, (Z.land_comm (Z.lnot tx_mask)), (Z.land_assoc (Z.lnot prop_mask)).
    by rewrite (Z.land_comm (Z.lnot prop_mask)), Z.land_lnot_diag, Z.land_0_l, Z.land_0_r. }
  exists s'. eexists. split; [exact E'|]. split; [exact C1|].
  split; [congruence|]. split; [congruence|]. split; [lia|].
  replace (dirty s2 - dirty s) with 0 in C5 by lia.
  destruct A5 as (_ & L1 & L2), B5 as (_ & L3 & L4), C5 as (_ & L5 & L6).
  rewrite sent_one in L5, L6. cbn in L1, L2, L3, L4, L5, L6.
  split; [rewrite L5, L3, L1; by repeat case_match; rewrite !app_nil_r|].
  split; [rewrite L6, L4, L2; by rewrite !app_nil_r|]. subst c1. do 3 (split; [done|]). apply restore_tx.
Qed.

(** *** The MULTI ... EXEC block in the logs *)
Definition readonly (mc : multiCmd) : bool := has (cflags (mc_cmd mc)) CMD_READONLY.

(** A read only command changes and propagates nothing; no command lowers the
    dirty counter.  [call] clears the flags of propagation before it. *)
Definition well_behaved (mc : multiCmd) : Prop := ∀ fl db n d, Z.land fl prop_mask = 0 →
  let e := act (cproc (mc_cmd mc)) fl db n (mc_argv mc) d in
  0 ≤ e_dirty e ∧
  (readonly mc = true → e_dirty e = 0 ∧ ∀ t, sent t (command_log e) = []).

Lemma land_clear fl m : Z.land (Z.land fl (Z.lnot m)) m = 0.
Proof. by rewrite <- Z.land_assoc, (Z.land_comm (Z.lnot m)), Z.land_lnot_diag, Z.land_0_r. Qed.

Lemma interp_grows q : Forall well_behaved q → ∀ must fl db n d,
  0 ≤ o_dirty (interp q must fl db n d).
Proof.
  induction 1 as [|mc q Hmc _ IH]; intros must fl db n d; cbn [interp o_dirty]; [lia|].
  match goal with |- context [e_dirty (act ?p ?f ?b ?m ?v ?x)] =>
    destruct (Hmc f b m x) as [H _]; [apply land_clear|] end. cbv zeta in H.
  match goal with |- context [interp q ?u ?f ?b ?m ?x] => pose proof (IH u f b m x) end. lia.
Qed.

Lemma interp_must q : ∀ fl db n d, o_must (interp q true fl db n d) = true.
Proof. induction q as [|mc q IH]; intros *; [done|]. cbn [interp o_must]. apply IH. Qed.

Lemma interp_block q : Forall well_behaved q → ∀ fl db n d,
  let o := interp q false fl db n d in
  if forallb readonly q then o_must o = false ∧ o_dirty o = 0 ∧ ∀ t, sent t (o_log o) = []
  else o_must o = true ∧ ∃ d1 body, ∀ t, t = PROPAGATE_AOF ∨ t = PROPAGATE_REPL →
    sent t (o_log o) = (d1, [of_string "MULTI"]) :: sent t body.
Proof.
  induction 1 as [|mc q Hmc _ IH]; intros fl db n d; [done|]. cbn [interp o_must o_dirty o_log forallb].
  set (e := act _ _ _ _ _ _). fold (readonly mc). destruct (readonly mc) eqn:Er; cbn [negb andb orb app].
  - destruct (Hmc (Z.land fl (Z.lnot prop_mask)) db n d) as [_ Hr]; [apply land_clear|]. fold e in Hr.
    destruct (Hr Er) as [-> Hs].
    specialize (IH (restore fl (e_flags e)) (e_db e) (n + 0) (e_data e)). cbv zeta in IH.
    destruct (forallb readonly q).
    + destruct IH as (-> & -> & Hl). split_and!; [done|done|]. intros t. by rewrite sent_app, Hs, Hl.
    + destruct IH as (-> & d1 & body & Hl). split; [done|]. exists d1, body. intros t Ht.
      by rewrite sent_app, Hs, Hl.
  - split; [apply interp_must|]. eexists db, _. intros t Ht.
    change (mk_op db ?a ?p :: ?l) with ([mk_op db a p] ++ l). rewrite sent_app, sent_one.
    by destruct Ht as [-> | ->].
Qed.

(** The append only file and the slaves receive a transaction as one block.
    When the read only commands of the queue change and propagate nothing and
    no command lowers the dirty counter, a transaction of read only commands
    sends nothing; any other one sends MULTI first, then what the commands
    propagate, and EXEC last. *)
Theorem exec_block s i c a args e m :
  reachable s → clients s !! i = Some c → passes c a args e m → cproc m = PExec →
  has (flags c) CLIENT_MULTI = true →
  has (flags c) (Z.lor CLIENT_DIRTY_CAS CLIENT_DIRTY_EXEC) = false →
  Forall well_behaved (mstate c) →
  ∃ s', step s (ECommand i a args e) = Some s' ∧
    if forallb readonly (mstate c) then aof s' = aof s ∧ repl s' = repl s
    else ∃ d1 d2 body,
      let block t := (d1, [of_string "MULTI"]) :: sent t body ++ [(d2, a :: args)] in
      aof s' = aof s ++ (if aof_on s then block PROPAGATE_AOF else []) ∧
      repl s' = repl s ++ block PROPAGATE_REPL.
Proof.
  intros R Hc Hpass Hp Hm Hd Hq.
  destruct (exec_spec s i c a args e m (reachable_wf s R) Hc Hpass Hp Hm Hd) as
    (s' & c' & E & _ & _ & _ & _ & (_ & L1 & L2) & _). exists s'. split; [done|].
  set (fl := Z.land _ _) in *. pose proof (interp_block _ Hq fl (cdb c) (dirty s) (data s)) as B.
  pose proof (interp_grows _ Hq false fl (cdb c) (dirty s) (data s)) as G. cbv zeta in B.
  set (o := interp _ _ _ _ _ _) in *. rewrite !sent_app, !sent_one in *.
  destruct (forallb readonly (mstate c)).
  - destruct B as (B1 & B2 & B3). rewrite B1, B2, !B3 in *. cbn in L1, L2.
    split; [rewrite L1; destruct (aof_on s)|rewrite L2]; apply app_nil_r.
  - destruct B as (B1 & d1 & body & B2). rewrite B1 in *. rewrite !B2 in * by auto.
    exists d1, (o_db o), body. replace (o_dirty o + 1 >? 0) with true in * by lia. by split.
Qed.

(** ** Refused commands *)

(** A command refused inside MULTI makes EXEC fail, except the refusals of
    a read only slave, of the publish/subscribe mode and while loading: when
    [processCommand] answers an error instead of queueing or calling the
    command, the transaction is flagged or (for a redirected EXEC) discarded,
    or the error is one of these three and the transaction is left as it was. *)
Theorem refusals_flag s i c a args e m act r :
  reachable s → clients s !! i = Some c → strcaseeq a (of_string "quit") = false →
  lookupCommand e a = Some m → refusal e (flags c) (a :: args) m = Some (act, r) →
  has (flags c) CLIENT_MULTI = true →
  ∃ s' c', step s (ECommand i a args e) = Some s' ∧ clients s' !! i = Some c' ∧
    creply c' = creply c ++ [r] ∧ data s' = data s ∧
    match act with
    | Flag => has (flags c') CLIENT_DIRTY_EXEC = true ∧ mstate c' = mstate c
    | Discard => cproc m = PExec ∧ mstate c' = [] ∧ has (flags c') CLIENT_MULTI = false
    | Leave => (r = RRoSlave ∨ r = RLoading ∨ has (flags c) CLIENT_PUBSUB = true) ∧
               flags c' = flags c ∧ mstate c' = mstate c
    end.
Proof.
  intros W%reachable_wf Hc Hq Hl Hr Hm. cbn [step]. rewrite bool_decide_true by by eexists.
  unfold processCommand. rewrite (lookup_upd_self _ _ _ _ Hc). cbn [mbind option_bind cargv set_argv head].
  rewrite Hq, Hl. cbn [flags set_argv]. rewrite Hr.
  set (s0 := upd (upd s i _) i _). set (c0 := set_cmd (Some m) (set_argv (a :: args) c)).
  assert (H0 : clients s0 !! i = Some c0) by by do 2 apply lookup_upd_self.
  assert (W0 : wf s0) by (apply (does_tx_same None); [done|by apply (does_tx_same None)]).
  destruct act.
  - do 2 eexists. split; [done|]. split; [by do 2 apply lookup_upd_self|]. cbn. rewrite Hm.
    do 2 (split; [done|]). split; [|done]. rewrite has_dexec. by bits.
  - destruct (discard_does s0 i c0 W0 H0) as (s1 & -> & _ & Q & C). cbn [mbind option_bind].
    do 2 eexists. split; [done|]. split; [by apply lookup_upd_self|]. split; [done|].
    split; [by destruct Q|]. split; [by eapply refusal_discard|]. split; [done|].
    rewrite has_multi. unfold discarded. by bits.
  - do 2 eexists. split; [done|]. split; [by apply lookup_upd_self|]. do 2 (split; [done|]).
    split; [|done]. revert Hr. unfold refusal. intros H. repeat case_match; try done.
    all: simplify_eq; repeat match goal with H : _ && _ = true |- _ => apply andb_true_iff in H as [? ?] end; auto.
Qed.
End multi.

(** ** Concrete runs *)
Module Runs.
Abbreviation data := (gmap dbkey bytes).

Definition set_f (fl db n : Z) (argv : list bytes) (d : data) : effect (V := bytes) :=
  match argv with
  | [_; k; v] => mk_effect fl db argv (<[(db, k) := v]> d) [(db, k)] 1 [] ROk
  | _ => mk_effect fl db argv d [] 0 [] (RErr "syntax error")
  end.
Definition get_f (fl db n : Z) (argv : list bytes) (d : data) : effect (V := bytes) :=
  mk_effect fl db argv d [] 0 [] (ROther (default [] (k ← argv !! 1%nat; d !! (db, k)))).
(** [rdbSave] sets the dirty counter to 0. *)
Definition save_f (fl db n : Z) (argv : list bytes) (d : data) : effect (V := bytes) :=
  mk_effect fl db argv d [] (- n) [] ROk.

Definition cmd (n : string) (p : proc (V := bytes)) (ar fl : Z) : bytes * redisCommand (V := bytes) :=
  (of_string n, mk_cmd (of_string n) p ar fl false 0).
Definition commands : gmap bytes (redisCommand (V := bytes)) := list_to_map
  [cmd "multi" PMulti 1 64; cmd "exec" PExec 1 2112; cmd "discard" PDiscard 1 64;
   cmd "watch" PWatch (-2) 64; cmd "unwatch" PUnwatch 1 64; cmd "flushall" PFlushall 1 1;
   cmd "set" (POther OAny set_f) (-3) 5; cmd "get" (POther OAny get_f) 2 2;
   cmd "save" (POther OAny save_f) 1 80].
Definition conf (slave_ro : bool) : env (V := bytes) :=
  mk_env commands false false false false false false false false false false false slave_ro
    0 0 0 slave_ro true true false false.

Definition send (i : cid) (a : string) (args : list string) : event (V := bytes) :=
  ECommand i (of_string a) (of_string <$> args) (conf false).
Definition start : server (V := bytes) := init (∅ : data) true true.
Definition trace (es : list (event (V := bytes))) : server (V := bytes) := default start (run start es).
Definition client_at (i : cid) (s : server (V := bytes)) : client (V := bytes) :=
  default (mk_client 0 [] [] 0 [] None []) (clients s !! i).

Lemma run_reachable es : ∀ s s' : server (V := bytes), reachable s → run s es = Some s' → reachable s'.
Proof.
  induction es as [|ev es IH]; intros s s' R E; cbn [run] in E; [by injection E as <-|].
  destruct (step s ev) as [s1|] eqn:E1; [|done]. apply (IH s1 s'); [|done].
  exact (reach_step s ev s1 R E1).
Qed.

Lemma trace_reachable es : reachable (trace es).
Proof.
  unfold trace. destruct (run start es) as [s|] eqn:E; cbn; [|apply reach_init].
  apply (run_reachable es start s); [apply reach_init|done].
Qed.

Definition watching : list (event (V := bytes)) := [EConnect 1; EConnect 2; send 1 "WATCH" ["k"]].
Definition clean : list (event (V := bytes)) :=
  watching ++ [send 1 "multi" []; send 1 "GET" ["k"]; send 1 "set" ["k"; "v"]].
Definition raced : list (event (V := bytes)) := clean ++ [send 2 "SET" ["k"; "w"]].
Definition exec_cmd : redisCommand (V := bytes) := mk_cmd (of_string "exec") PExec 1 2112 false 0.

Lemma transactions_invariant_witness :
  wf (trace clean) ∧ ∀ ev, ∃ s', step (trace clean) ev = Some s' ∧ wf s'.
Proof. apply (transactions_invariant (trace clean)). apply trace_reachable. Defined.

Lemma watch_detects_changes_witness :
  ∃ ks c', touched (trace raced) = touched (trace watching) ++ ks ∧
    clients (trace raced) !! 1%positive = Some c' ∧
    watched_keys c' = watched_keys (client_at 1 (trace watching)) ∧
    (has (flags c') CLIENT_DIRTY_CAS = true ↔
     has (flags (client_at 1 (trace watching))) CLIENT_DIRTY_CAS = true ∨
     ∃ k, k ∈ ks ∧ k ∈ watched_keys (client_at 1 (trace watching))).
Proof.
  apply (watch_detects_changes (trace watching) (drop 3 raced) (trace raced)).
  - apply trace_reachable.
  - vm_compute. reflexivity.
  - vm_compute. reflexivity.
  - vm_compute. reflexivity.
Defined.

Lemma exec_atomic_witness :
  ∃ s' c', step (trace clean) (send 1 "exec" []) = Some s' ∧ clients s' !! 1%positive = Some c' ∧
    creply c' = [ROk; ROk; RQueued; RQueued; RMultiLen 2; ROther []; ROk] ∧
    Multi.data s' = {[(0, of_string "k") := of_string "v"]}.
Proof.
  destruct (exec_atomic (trace clean) 1 (client_at 1 (trace clean)) (of_string "exec") []
    (conf false) exec_cmd) as (s' & c' & E & H & D & _ & _ & _ & R & _).
  - apply trace_reachable.
  - vm_compute. reflexivity.
  - split; [|split]; vm_compute; reflexivity.
  - reflexivity.
  - vm_compute. reflexivity.
  - vm_compute. reflexivity.
  - exists s', c'. split; [exact E|]. split; [exact H|]. split; [rewrite R|rewrite D]; vm_compute; reflexivity.
Defined.

Lemma exec_dirty_witness :
  ∃ s' c', step (trace raced) (send 1 "exec" []) = Some s' ∧ clients s' !! 1%positive = Some c' ∧
    creply c' = [ROk; ROk; RQueued; RQueued; RNullMulti] ∧
    Multi.data s' = {[(0, of_string "k") := of_string "w"]}.
Proof.
  destruct (exec_dirty (trace raced) 1 (client_at 1 (trace raced)) (of_string "exec") []
    (conf false) exec_cmd) as (s' & c' & E & H & D & _ & _ & _ & _ & R & _).
  - apply trace_reachable.
  - vm_compute. reflexivity.
  - split; [|split]; vm_compute; reflexivity.
  - reflexivity.
  - vm_compute. reflexivity.
  - vm_compute. reflexivity.
  - exists s', c'. split; [exact E|]. split; [exact H|]. split; [rewrite R|rewrite D]; vm_compute; reflexivity.
Defined.

Lemma clean_behaved : Forall well_behaved (mstate (client_at 1 (trace clean))).
Proof.
  assert (E : mstate (client_at 1 (trace clean)) =
    [mk_mc [of_string "GET"; of_string "k"] (cmd "get" (POther OAny get_f) 2 2).2;
     mk_mc [of_string "set"; of_string "k"; of_string "v"] (cmd "set" (POther OAny set_f) (-3) 5).2])
    by (vm_compute; reflexivity).
  rewrite E. constructor; [|constructor; [|constructor]]; intros fl db n d Hf;
    cbn [act mc_cmd mc_argv cproc snd cmd].
  - split; [done|]. intros _. split; [done|]. intros t. unfold command_log, get_f.
    cbn [e_db e_argv e_flags e_dirty e_also].
    rewrite sent_one, propagate_flags_clear; [by destruct t|].
    rewrite Z.land_lor_distr_l. apply Z.lor_eq_0_iff.
    rewrite <- (Z.land_assoc fl tx_mask). split; [by rewrite Z.land_0_r|].
    rewrite Z.ldiff_land, <- Z.land_assoc, (Z.land_comm (Z.lnot _)), Z.land_assoc, Hf. done.
  - by split.
Qed.

Lemma exec_block_witness :
  ∃ s', step (trace clean) (send 1 "exec" []) = Some s' ∧
    aof s' = [(0, [of_string "MULTI"]); (0, of_string <$> ["set"; "k"; "v"]); (0, [of_string "exec"])].
Proof.
  destruct (exec_block (trace clean) 1 (client_at 1 (trace clean)) (of_string "exec") []
    (conf false) exec_cmd) as (s' & E & L).
  - apply trace_reachable.
  - vm_compute. reflexivity.
  - split; [|split]; vm_compute; reflexivity.
  - reflexivity.
  - vm_compute. reflexivity.
  - vm_compute. reflexivity.
  - apply clean_behaved.
  - exists s'. split; [exact E|]. clear L. revert E. vm_compute. intros E. injection E as <-. reflexivity.
Defined.

Definition refused : event (V := bytes) :=
  ECommand 1 (of_string "set") (of_string <$> ["k"; "v"]) (conf true).

Lemma refusals_flag_witness :
  ∃ s' c', step (trace clean) refused = Some s' ∧ clients s' !! 1%positive = Some c' ∧
    creply c' = [ROk; ROk; RQueued; RQueued; RRoSlave] ∧
    has (flags c') CLIENT_DIRTY_EXEC = false ∧ mstate c' = mstate (client_at 1 (trace clean)).
Proof.
  destruct (refusals_flag (trace clean) 1 (client_at 1 (trace clean)) (of_string "set")
    (of_string <$> ["k"; "v"]) (conf true) (cmd "set" (POther OAny set_f) (-3) 5).2 Leave RRoSlave)
    as (s' & c' & E & H & R & _ & _ & F & M).
  - apply trace_reachable.
  - vm_compute. reflexivity.
  - vm_compute. reflexivity.
  - vm_compute. reflexivity.
  - vm_compute. reflexivity.
  - vm_compute. reflexivity.
  - exists s', c'. split; [exact E|]. split; [exact H|]. split; [rewrite R; vm_compute; reflexivity|].
    split; [rewrite F; vm_compute; reflexivity|exact M].
Defined.

(** EXEC can be lost.  SAVE inside a transaction sets the dirty counter to
    0, so that the counter is lower after EXEC than before: MULTI and the
    writes have been propagated, EXEC is not, and the append only file and the
    slaves are left inside a transaction that never ends. *)
Theorem exec_lost_after_save :
  aof (trace [EConnect 1; send 1 "set" ["a"; "1"]; send 1 "set" ["a"; "2"]; send 1 "multi" [];
              send 1 "set" ["k"; "v"]; send 1 "save" []; send 1 "exec" []]) =
  [(0, of_string <$> ["set"; "a"; "1"]); (0, of_string <$> ["set"; "a"; "2"]);
   (0, [of_string "MULTI"]); (0, of_string <$> ["set"; "k"; "v"])].
Proof. vm_compute. reflexivity. Qed.

(** An error does not always stop a transaction.  A write refused because
    the server has become a read only slave does not flag the transaction:
    when the server is a master again, EXEC runs the commands queued before
    and after it, without the refused one. *)
Theorem refused_write_still_executes :
  creply (client_at 1 (trace [EConnect 1; send 1 "multi" []; send 1 "set" ["a"; "1"]; refused;
                              send 1 "set" ["b"; "2"]; send 1 "exec" []])) =
  [ROk; RQueued; RRoSlave; RQueued; RMultiLen 2; ROk; ROk].
Proof. vm_compute. reflexivity. Qed.
End Runs.
