(* ===== verification/Query.v ===== *)
(** * Requests ([redis-3.2/src/networking.c])

    How the server reads requests: [readQueryFromClient] reads from the socket
    into the query buffer, [processInputBuffer] takes commands out of it, in
    the inline form ([processInlineBuffer]) or the multi bulk form
    ([processMultibulkBuffer]), and calls [processCommand] for each.  The
    query buffer is the byte string its sds holds (the component [Sds] proves
    what the sds functions do to byte strings).

    [processCommand] and [clientsArePaused] are parameters; the state of the
    rest of the server is of any type [X].  The writer of requests is
    [catAppendOnlyGenericCommand] of [aof.c].

    [None] is a failed assertion, an access out of bounds or a loop that has
    not ended. *)

From S2P Require Import Prelude Decimal Util SdsText Multi.

Definition CLIENT_SLAVE : Z := Z.shiftl 1 0.
Definition CLIENT_BLOCKED : Z := Z.shiftl 1 4.
Definition CLIENT_ASKING : Z := Z.shiftl 1 9.
Definition CLIENT_REPLY_SKIP_NEXT : Z := Z.shiftl 1 23.
Definition CLIENT_REPLY_SKIP : Z := Z.shiftl 1 24.
Definition PROTO_REQ_INLINE : Z := 1.
Definition PROTO_REQ_MULTIBULK : Z := 2.
Definition PROTO_IOBUF_LEN : Z := 1024 * 16.
Definition PROTO_INLINE_MAX_SIZE : Z := 1024 * 64.
Definition PROTO_MBULK_BIG_ARG : Z := 1024 * 32.
Definition PROTO_MAX_QUERYBUF_LEN : Z := 1024 * 1024 * 1024.

(** The protocol errors. *)
Inductive perror :=
| TooBigInline | UnbalancedQuotes | TooBigMbulkCount | InvalidMbulkLength | TooBigBulkCount
| ExpectedDollar (got : Z) | InvalidBulkLength.

(** [argv] holds [argc] arguments in an array of [alloc] slots. *)
Record qclient := mk_q {
  querybuf : list Z;
  qflags : Z;
  reqtype : Z;
  multibulklen : Z;
  bulklen : Z;
  argv : list bytes;
  alloc : Z;
  errors : list perror
}.

Definition set_querybuf (q : list Z) (c : qclient) : qclient :=
  mk_q q (qflags c) (reqtype c) (multibulklen c) (bulklen c) (argv c) (alloc c) (errors c).
Definition set_qflags (f : Z) (c : qclient) : qclient :=
  mk_q (querybuf c) f (reqtype c) (multibulklen c) (bulklen c) (argv c) (alloc c) (errors c).
Definition set_reqtype (t : Z) (c : qclient) : qclient :=
  mk_q (querybuf c) (qflags c) t (multibulklen c) (bulklen c) (argv c) (alloc c) (errors c).
Definition set_multibulklen (n : Z) (c : qclient) : qclient :=
  mk_q (querybuf c) (qflags c) (reqtype c) n (bulklen c) (argv c) (alloc c) (errors c).
Definition set_bulklen (n : Z) (c : qclient) : qclient :=
  mk_q (querybuf c) (qflags c) (reqtype c) (multibulklen c) n (argv c) (alloc c) (errors c).
Definition set_args (a : list bytes) (n : Z) (c : qclient) : qclient :=
  mk_q (querybuf c) (qflags c) (reqtype c) (multibulklen c) (bulklen c) a n (errors c).
Definition add_error (e : perror) (c : qclient) : qclient :=
  mk_q (querybuf c) (qflags c) (reqtype c) (multibulklen c) (bulklen c) (argv c) (alloc c)
    (errors c ++ [e]).

(** [c->argv[c->argc++] = o]. *)
Definition push_arg (a : bytes) (c : qclient) : option qclient :=
  if zlen (argv c) <? alloc c then Some (set_args (argv c ++ [a]) (alloc c) c) else None.

(** [strchr(s, x)]: where, if before the first NUL. *)
Fixpoint strchr (s : list Z) (x : Z) : option Z :=
  match s with
  | [] => None
  | c :: s => if c =? x then Some 0 else if c =? 0 then None else Z.succ <$> strchr s x
  end.

(** [sdsrange(s, start, -1)]. *)
Definition from (start : Z) (s : list Z) : list Z := drop (Z.to_nat start) s.

Definition setProtocolError (pos : Z) (c : qclient) : qclient :=
  let c := set_qflags (Z.lor (qflags c) CLIENT_CLOSE_AFTER_REPLY) c in
  set_querybuf (from pos (querybuf c)) c.

(** [addReplyError] and [setProtocolError]. *)
Definition fail_at (e : perror) (pos : Z) (c : qclient) : qclient :=
  setProtocolError pos (add_error e c).

(** ** The inline form: the boolean is [C_OK]. *)

(** The [for] loop that keeps the arguments that are not empty. *)
Fixpoint push_nonempty (args : list bytes) (c : qclient) : option qclient :=
  match args with
  | [] => Some c
  | a :: args => if 0 <? zlen a then c ← push_arg a c; push_nonempty args c else push_nonempty args c
  end.

Definition processInlineBuffer (c : qclient) : option (bool * qclient) :=
  match strchr (querybuf c) 10 with
  | None =>
      if zlen (querybuf c) >? PROTO_INLINE_MAX_SIZE then Some (false, fail_at TooBigInline 0 c)
      else Some (false, c)
  | Some newline =>
      let newline := if negb (newline =? 0) && bool_decide (get (querybuf c) (newline - 1) = Some 13)
                     then newline - 1 else newline in
      let querylen := newline in
      let aux := take (Z.to_nat querylen) (querybuf c) in
      r ← sdssplitargs aux;
      match r with
      | None => Some (false, fail_at UnbalancedQuotes 0 c)
      | Some args =>
          let c := set_querybuf (from (s32 (querylen + 2)) (querybuf c)) c in
          let c := if zlen args =? 0 then c else set_args (argv c) (zlen args) c in
          c ← push_nonempty args (set_args [] (alloc c) c);
          Some (true, c)
      end
  end.

(** ** The multi bulk form *)

(** How the loop over the arguments goes on: with the next argument at [pos],
    out of the loop ([break]), or out of the function with an error. *)
Inductive mbres := MGo (c : qclient) (pos : Z) | MBreak (c : qclient) (pos : Z) | MErr (c : qclient).

(** [s + pos] up to the character at [i], without the first one. *)
Definition digits_of (s : list Z) (pos i : Z) : list Z :=
  take (Z.to_nat (i - (pos + 1))) (from (pos + 1) s).

(** Read the bulk length if unknown. *)
Definition read_bulklen (c : qclient) (pos : Z) : option mbres :=
  match strchr (from pos (querybuf c)) 13 with
  | None =>
      if zlen (querybuf c) >? PROTO_INLINE_MAX_SIZE
      then Some (MErr (fail_at TooBigBulkCount 0 c)) else Some (MBreak c pos)
  | Some i =>
      let newline := pos + i in
      if newline >? s32 (zlen (querybuf c)) - 2 then Some (MBreak c pos) else
      x ← get (querybuf c) pos;
      if negb (x =? 36) then Some (MErr (fail_at (ExpectedDollar x) pos c)) else
      match string2ll (digits_of (querybuf c) pos newline) with
      | None => Some (MErr (fail_at InvalidBulkLength pos c))
      | Some ll =>
          if (ll <? 0) || (ll >? 512 * 1024 * 1024)
          then Some (MErr (fail_at InvalidBulkLength pos c)) else
          let pos := s32 (pos + s32 (newline - pos + 2)) in
          if ll >=? PROTO_MBULK_BIG_ARG
          then Some (MGo (set_bulklen ll (set_querybuf (from pos (querybuf c)) c)) 0)
          else Some (MGo (set_bulklen ll c) pos)
      end
  end.

(** Read the bulk argument. *)
Definition read_bulk (c : qclient) (pos : Z) : option mbres :=
  if u64 (zlen (querybuf c) - pos) <? u32 (bulklen c + 2) then Some (MBreak c pos) else
  '(c, pos) ←
    (if (pos =? 0) && (bulklen c >=? PROTO_MBULK_BIG_ARG)
        && (s32 (zlen (querybuf c)) =? bulklen c + 2)
     then c ← push_arg (take (Z.to_nat (zlen (querybuf c) - 2)) (querybuf c)) c;
          Some (set_querybuf [] c, 0)
     else c ← push_arg (take (Z.to_nat (bulklen c)) (from pos (querybuf c))) c;
          Some (c, s32 (pos + s32 (bulklen c) + 2)));
  Some (MGo (set_multibulklen (multibulklen c - 1) (set_bulklen (-1) c)) pos).

(** [while(c->multibulklen)]: one turn per argument. *)
Fixpoint mb_loop (fuel : nat) (c : qclient) (pos : Z) : option mbres :=
  if multibulklen c =? 0 then Some (MBreak c pos) else
  match fuel with
  | O => None
  | S fuel =>
      r ← (if bulklen c =? -1 then read_bulklen c pos else Some (MGo c pos));
      match r with
      | MGo c pos =>
          r ← read_bulk c pos;
          match r with MGo c pos => mb_loop fuel c pos | r => Some r end
      | r => Some r
      end
  end.

(** Read the number of arguments. *)
Inductive hdres := HLoop (c : qclient) (pos : Z) | HRet (ok : bool) (c : qclient).

Definition read_multibulklen (c : qclient) : option hdres :=
  if negb (zlen (argv c) =? 0) then None else
  match strchr (querybuf c) 13 with
  | None =>
      if zlen (querybuf c) >? PROTO_INLINE_MAX_SIZE
      then Some (HRet false (fail_at TooBigMbulkCount 0 c)) else Some (HRet false c)
  | Some newline =>
      if newline >? s32 (zlen (querybuf c)) - 2 then Some (HRet false c) else
      x ← get (querybuf c) 0;
      if negb (x =? 42) then None else
      match string2ll (digits_of (querybuf c) 0 newline) with
      | None => Some (HRet false (fail_at InvalidMbulkLength 0 c))
      | Some ll =>
          if ll >? 1024 * 1024 then Some (HRet false (fail_at InvalidMbulkLength 0 c)) else
          let pos := s32 (newline + 2) in
          if ll <=? 0 then Some (HRet true (set_querybuf (from pos (querybuf c)) c)) else
          Some (HLoop (set_args [] ll (set_multibulklen ll c)) pos)
      end
  end.

Definition processMultibulkBuffer (c : qclient) : option (bool * qclient) :=
  h ← (if multibulklen c =? 0 then read_multibulklen c else Some (HLoop c 0));
  match h with
  | HRet ok c => Some (ok, c)
  | HLoop c pos =>
      if negb (multibulklen c >? 0) then None else
      r ← mb_loop (Z.to_nat (multibulklen c)) c pos;
      match r with
      | MErr c => Some (false, c)
      | MGo c pos | MBreak c pos =>
          let c := if pos =? 0 then c else set_querybuf (from pos (querybuf c)) c in
          Some (multibulklen c =? 0, c)
      end
  end.

(** ** The input buffer *)
Section input.
Context {X : Type}.
(** The state after the command, the flags of the client and [C_OK]. *)
Context (processCommand : X → Z → list bytes → X * Z * bool).
Context (clientsArePaused : X → bool).
(** [prevcmd == askingCommand]. *)
Context (asking : list bytes → bool).

Definition resetClient (c : qclient) : qclient :=
  let prev := asking (argv c) in
  let c := set_args [] 0 c in
  let c := set_bulklen (-1) (set_multibulklen 0 (set_reqtype 0 c)) in
  let c := if negb (has (qflags c) CLIENT_MULTI) && negb prev
           then set_qflags (Z.land (qflags c) (Z.lnot CLIENT_ASKING)) c else c in
  let c := set_qflags (Z.land (qflags c) (Z.lnot CLIENT_REPLY_SKIP)) c in
  if has (qflags c) CLIENT_REPLY_SKIP_NEXT
  then set_qflags (Z.land (Z.lor (qflags c) CLIENT_REPLY_SKIP) (Z.lnot CLIENT_REPLY_SKIP_NEXT)) c
  else c.

Fixpoint processInputBuffer (fuel : nat) (x : X) (c : qclient) : option (X * qclient) :=
  if zlen (querybuf c) =? 0 then Some (x, c) else
  match fuel with
  | O => None
  | S fuel =>
      if negb (has (qflags c) CLIENT_SLAVE) && clientsArePaused x then Some (x, c) else
      if has (qflags c) CLIENT_BLOCKED then Some (x, c) else
      if has (qflags c) CLIENT_CLOSE_AFTER_REPLY then Some (x, c) else
      let c := if reqtype c =? 0
               then set_reqtype (if bool_decide (get (querybuf c) 0 = Some 42)
                                 then PROTO_REQ_MULTIBULK else PROTO_REQ_INLINE) c else c in
      '(ok, c) ← (if reqtype c =? PROTO_REQ_INLINE then processInlineBuffer c
                  else if reqtype c =? PROTO_REQ_MULTIBULK then processMultibulkBuffer c else None);
      if negb ok then Some (x, c) else
      if zlen (argv c) =? 0 then processInputBuffer fuel x (resetClient c) else
      let '(x, f, ok) := processCommand x (qflags c) (argv c) in
      let c := set_qflags f c in
      processInputBuffer fuel x (if ok : bool then resetClient c else c)
  end.

(** ** Reading from the socket *)

(** The outcome of [read]. *)
Inductive read_result := RData (bs : list Z) | RAgain | RFailed | REof.

(** How many bytes [readQueryFromClient] asks for. *)
Definition readlen (c : qclient) : Z :=
  if (reqtype c =? PROTO_REQ_MULTIBULK) && negb (multibulklen c =? 0) && negb (bulklen c =? -1)
     && (bulklen c >=? PROTO_MBULK_BIG_ARG)
  then let remaining := s32 (u64 (u32 (bulklen c + 2) - zlen (querybuf c))) in
       if remaining <? PROTO_IOBUF_LEN then remaining else PROTO_IOBUF_LEN
  else PROTO_IOBUF_LEN.

(** The client is [None] when it was freed.  [read] is given the number of
    bytes asked for. *)
Definition readQueryFromClient (client_max_querybuf_len : Z) (read : Z → read_result) (x : X)
    (c : qclient) : option (X * option qclient) :=
  match read (readlen c) with
  | RAgain => Some (x, Some c)
  | RFailed | REof => Some (x, None)
  | RData bs =>
      let c := set_querybuf (querybuf c ++ bs) c in
      if zlen (querybuf c) >? client_max_querybuf_len then Some (x, None) else
      '(x, c) ← processInputBuffer (length (querybuf c)) x c;
      Some (x, Some c)
  end.
End input.

(** ** Writing a request ([aof.c]) *)

(** [buf[0] = x; len = 1+ll2string(buf+1,31,n); buf[len++] = '\r'; buf[len++] =
    '\n'; dst = sdscatlen(dst,buf,len)], from a buffer with any contents. *)
Definition cat_count (buf : list Z) (x n : Z) (dst : list Z) : option (list Z * list Z) :=
  '(k, rest) ← ll2string (drop 1 buf) 31 n;
  let len := 1 + k in
  buf ← mwrite (x :: rest) len [13; 10];
  Some (buf, dst ++ take (Z.to_nat (len + 2)) buf).

Fixpoint cat_args (buf : list Z) (args : list bytes) (dst : list Z) : option (list Z) :=
  match args with
  | [] => Some dst
  | a :: args =>
      '(buf, dst) ← cat_count buf 36 (zlen a) dst;
      cat_args buf args (dst ++ a ++ [13; 10])
  end.

Definition catAppendOnlyGenericCommand (buf : list Z) (dst : list Z) (args : list bytes)
  : option (list Z) :=
  '(buf, dst) ← cat_count buf 42 (zlen args) dst;
  cat_args buf args dst.

(** ** Any input is handled *)

Lemma strchr_at s x i : strchr s x = Some i → 0 ≤ i < zlen s ∧ s !! Z.to_nat i = Some x.
Proof.
  revert i. induction s as [|c s IH]; intros i E; cbn [strchr] in E; [done|].
  cbn [length]. destruct (Z.eqb_spec c x) as [->|].
  { injection E as <-. split; [lia|done]. }
  destruct (c =? 0); [done|]. apply fmap_Some in E as (j & Ej & ->). destruct (IH j Ej) as [H1 H2].
  split; [lia|]. replace (Z.to_nat (Z.succ j)) with (S (Z.to_nat j)) by lia. done.
Qed.

Lemma zlen_from p s : 0 ≤ p ≤ zlen s → zlen (from p s) = zlen s - p.
Proof. intros H. unfold from. rewrite length_drop. lia. Qed.

Lemma zlen_from_le p s : zlen (from p s) ≤ zlen s.
Proof. unfold from. rewrite length_drop. lia. Qed.

(** Positions stay far from the limits of an int. *)
Lemma s32_small z : - 2 ^ 31 ≤ z < 2 ^ 31 → s32 z = z.
Proof. intros H. apply wraps_id; [lia|]. unfold in_s. lia. Qed.

Record mbok (c : qclient) (pos : Z) : Prop := {
  mb_pos : 0 ≤ pos ≤ zlen (querybuf c);
  mb_len : zlen (querybuf c) ≤ PROTO_MAX_QUERYBUF_LEN;
  mb_left : 0 ≤ multibulklen c;
  mb_bulk : -1 ≤ bulklen c ≤ 512 * 1024 * 1024;
  mb_args : zlen (argv c) + multibulklen c ≤ alloc c
}.

(** What is left of the buffer. *)
Definition rest (c : qclient) (pos : Z) : Z := zlen (querybuf c) - pos.
(** What stays the same in a client that goes on. *)
Definition same_mode (c c' : qclient) : Prop := reqtype c' = reqtype c ∧ qflags c' = qflags c.

Ltac consts := unfold PROTO_MAX_QUERYBUF_LEN, PROTO_INLINE_MAX_SIZE, PROTO_MBULK_BIG_ARG,
  PROTO_IOBUF_LEN in *.

Lemma closing_fail e pos c : has (qflags (fail_at e pos c)) CLIENT_CLOSE_AFTER_REPLY = true.
Proof.
  cbn. unfold has. apply negb_true_iff, Z.eqb_neq. intros E.
  apply (f_equal (λ z, Z.testbit z 6)) in E. rewrite Z.land_spec, Z.lor_spec in E.
  cbn in E. by rewrite orb_true_r in E.
Qed.

(** A state in which the client is going to be closed. *)
Record failed (c c' : qclient) : Prop := {
  f_close : has (qflags c') CLIENT_CLOSE_AFTER_REPLY = true;
  f_len : zlen (querybuf c') ≤ PROTO_MAX_QUERYBUF_LEN;
  f_left : 0 ≤ multibulklen c';
  f_bulk : -1 ≤ bulklen c' ≤ 512 * 1024 * 1024;
  f_type : reqtype c' = reqtype c
}.

Lemma fail_failed e pos c :
  zlen (querybuf c) ≤ PROTO_MAX_QUERYBUF_LEN → 0 ≤ multibulklen c →
  -1 ≤ bulklen c ≤ 512 * 1024 * 1024 → failed c (fail_at e pos c).
Proof.
  intros H0 H1 H2. split; [apply closing_fail| |done|done|done].
  cbn. pose proof (zlen_from_le pos (querybuf c)). lia.
Qed.

Lemma read_bulklen_ok c pos :
  mbok c pos → ∃ r, read_bulklen c pos = Some r ∧
    match r with
    | MGo c' pos' => mbok c' pos' ∧ 0 ≤ bulklen c' ∧ rest c' pos' ≤ rest c pos ∧ same_mode c c' ∧
                     multibulklen c' = multibulklen c
    | MBreak c' pos' => c' = c ∧ pos' = pos
    | MErr c' => failed c c'
    end.
Proof.
  intros [H1 H2 H3 H4 H5]. unfold read_bulklen. consts.
  destruct (strchr _ _) as [i|] eqn:Es; [|case_match; eexists; (split; [done|]); [by apply fail_failed|done]].
  apply strchr_at in Es as [Hi _]. rewrite zlen_from in Hi by lia.
  case_match; [by eexists|]. rewrite s32_small in * by lia.
  destruct (get_is_some (querybuf c) pos) as [x ->]; [lia|]. cbn [mbind option_bind].
  case_match; [eexists; split; [done|]; by apply fail_failed|].
  destruct (string2ll _) as [ll|]; [|eexists; split; [done|]; by apply fail_failed].
  case_match eqn:Ell; [eexists; split; [done|]; by apply fail_failed|].
  rewrite (s32_small (pos + i - pos + 2)), s32_small by lia.
  case_match; eexists; (split; [done|]); unfold rest; cbn; rewrite ?zlen_from by lia;
    (split; [split; cbn; rewrite ?zlen_from by lia; consts; lia|]); split_and!; try done; lia.
Qed.

Lemma read_bulk_ok c pos :
  mbok c pos → 0 ≤ bulklen c → 0 < multibulklen c → ∃ r, read_bulk c pos = Some r ∧
    match r with
    | MGo c' pos' => mbok c' pos' ∧ bulklen c' = -1 ∧ rest c' pos' ≤ rest c pos - 2 ∧
                     same_mode c c' ∧ multibulklen c' = multibulklen c - 1
    | MBreak c' pos' => c' = c ∧ pos' = pos
    | MErr c' => False
    end.
Proof.
  intros [H1 H2 H3 H4 H5] Hb Hm. unfold read_bulk. consts.
  assert (u64 (zlen (querybuf c) - pos) = zlen (querybuf c) - pos) as -> by (apply wrapu_id; unfold in_u; lia).
  assert (u32 (bulklen c + 2) = bulklen c + 2) as -> by (apply wrapu_id; unfold in_u; lia).
  case_match eqn:E; [by eexists|].
  assert (Hp : ∀ a, push_arg a c = Some (set_args (argv c ++ [a]) (alloc c) c)).
  { intros a. unfold push_arg. case_match; [done|lia]. }
  case_match eqn:E2; rewrite Hp; cbn [mbind option_bind bulklen set_args];
    rewrite ?(s32_small (bulklen c)), ?(s32_small (pos + bulklen c + 2)) by lia;
    eexists; (split; [done|]); unfold rest; cbn;
    (split; [split; cbn; rewrite ?length_app; cbn; consts; lia|]); split_and!; try done; lia.
Qed.

Lemma mb_loop_ok n : ∀ c pos,
  mbok c pos → multibulklen c = Z.of_nat n → ∃ r, mb_loop n c pos = Some r ∧
    match r with
    | MGo _ _ => False
    | MBreak c' pos' => mbok c' pos' ∧ rest c' pos' ≤ rest c pos ∧ same_mode c c' ∧
        (multibulklen c' = 0 → 0 < multibulklen c → rest c' pos' ≤ rest c pos - 2) ∧
        ((multibulklen c = 0 → bulklen c = -1) → multibulklen c' = 0 → bulklen c' = -1)
    | MErr c' => failed c c'
    end.
Proof.
  induction n as [|n IH]; intros c pos H Hn; cbn [mb_loop].
  { rewrite (proj2 (Z.eqb_eq _ _)) by lia. eexists. split; [done|]. cbn. split_and!; try done; lia. }
  rewrite (proj2 (Z.eqb_neq _ _)) by lia.
  match goal with |- context [mbind _ ?b] => assert (S1 : ∃ r, b = Some r ∧
    match r with
    | MGo c' pos' => mbok c' pos' ∧ 0 ≤ bulklen c' ∧ rest c' pos' ≤ rest c pos ∧ same_mode c c' ∧
                     multibulklen c' = multibulklen c
    | MBreak c' pos' => c' = c ∧ pos' = pos
    | MErr c' => failed c c'
    end); [|destruct S1 as (r1 & -> & S1)] end.
  { destruct (Z.eqb_spec (bulklen c) (-1)); [by apply read_bulklen_ok|]. eexists. split; [done|].
    destruct H. by split_and!; try lia. }
  cbn [mbind option_bind]. destruct r1 as [c1 pos1|c1 pos1|c1].
  2:{ destruct S1 as [-> ->]. eexists. split; [done|]. cbn. by split_and!; try lia. }
  2:{ by eexists. }
  destruct S1 as (H1 & Hb & R1 & M1 & L1).
  destruct (read_bulk_ok c1 pos1 H1 Hb) as (r2 & -> & S2); [lia|]. cbn [mbind option_bind].
  destruct r2 as [c2 pos2|c2 pos2|c2]; [| |done].
  2:{ destruct S2 as [-> ->]. eexists. split; [done|]. cbn. split_and!; try done; lia. }
  destruct S2 as (H2 & B2 & R2 & M2 & L2). destruct M1 as [M1 F1], M2 as [M2 F2].
  destruct (IH c2 pos2 H2) as (r & -> & S); [lia|]. eexists. split; [done|].
  destruct r as [|c' pos'|c']; [done| |].
  - destruct S as (? & ? & [? ?] & ? & HB). split; [done|]. split; [lia|].
    split; [split; congruence|]. split; [lia|]. auto.
  - destruct S as [F3 F4 F5 F6 F7]. split; try done. congruence.
Qed.

(** [sdssplitargs] returns on every line. *)
Lemma token_loop_total fuel : ∀ p inq insq current,
  (length p < fuel)%nat → ∃ r, token_loop fuel p inq insq current = Some r ∧
    ∀ cur p', r = Some (cur, p') → (length p' ≤ length p - 1)%nat.
Proof.
  induction fuel as [|fuel IH]; intros p inq insq current Hf; [lia|]. cbn [token_loop].
  assert (Hd : ∀ q i s cur, (length q ≤ length p - 1)%nat → (0 < length p)%nat →
    ∃ r, token_loop fuel q i s cur = Some r ∧
      ∀ cur p', r = Some (cur, p') → (length p' ≤ length p - 1)%nat).
  { intros q i s cur Hq Hp. destruct (IH q i s cur) as (r & E & H); [lia|].
    exists r. split; [done|]. intros cur' p' E'. specialize (H _ _ E'). lia. }
  assert (Hs : ∀ cur : list Z, ∃ r, Some (Some (cur, drop 1 p)) = Some r ∧
      ∀ cur p', r = Some (cur, p') → (length p' ≤ length p - 1)%nat).
  { intros cur. eexists. split; [done|]. intros ? ? [= <- <-]. rewrite length_drop. lia. }
  assert (Hn : ∃ r : option (list Z * list Z), Some None = Some r ∧
      ∀ cur p', r = Some (cur, p') → (length p' ≤ length p - 1)%nat) by by eexists.
  destruct p as [|c p].
  { change (peek [] 0) with 0. destruct inq; [by cbn|]. destruct insq; [by cbn|]. apply Hs. }
  assert (Hc : peek (c :: p) 0 = c) by done. rewrite Hc.
  repeat case_match; try done; try apply Hs; apply Hd; cbn [length]; rewrite ?length_drop; cbn [length]; lia.
Qed.

Lemma length_skip_blanks p : (length (skip_blanks p) ≤ length p)%nat.
Proof. induction p as [|c p IH]; cbn [skip_blanks]; [done|]. case_match; cbn [length]; lia. Qed.

Lemma splitargs_loop_total fuel : ∀ p v,
  (length p < fuel)%nat → is_Some (splitargs_loop fuel p v).
Proof.
  induction fuel as [|fuel IH]; intros p v Hf; [lia|]. cbn [splitargs_loop].
  case_match eqn:E; [|by eexists]. pose proof (length_skip_blanks p).
  destruct (token_loop_total (S (length (skip_blanks p))) (skip_blanks p) false false []) as (r & -> & Hr); [lia|].
  cbn [mbind option_bind]. destruct r as [[cur p']|]; [|by eexists]. apply IH.
  specialize (Hr _ _ eq_refl). destruct (skip_blanks p); [done|]. cbn [length] in *. lia.
Qed.

Lemma push_nonempty_ok args : ∀ c,
  zlen (argv c) + zlen args ≤ alloc c → ∃ c', push_nonempty args c = Some c' ∧
    querybuf c' = querybuf c ∧ qflags c' = qflags c ∧ reqtype c' = reqtype c ∧
    multibulklen c' = multibulklen c ∧ bulklen c' = bulklen c ∧ errors c' = errors c ∧
    argv c' = argv c ++ filter (λ a, a ≠ []) args ∧ alloc c' = alloc c.
Proof.
  induction args as [|a args IH]; intros c H; cbn [push_nonempty].
  { exists c. rewrite filter_nil, app_nil_r. done. }
  cbn [length] in H. rewrite filter_cons. case_match eqn:E.
  - unfold push_arg. rewrite (proj2 (Z.ltb_lt _ _)) by lia. cbn [mbind option_bind].
    destruct (IH (set_args (argv c ++ [a]) (alloc c) c)) as (c' & -> & E1 & E2 & E3 & E4 & E5 & E6 & E7 & E8).
    { cbn. rewrite length_app. cbn. lia. }
    exists c'. rewrite E1, E2, E3, E4, E5, E6, E7, E8. cbn. rewrite decide_True, <- app_assoc; [done|].
    by intros ->.
  - destruct (IH c) as (c' & -> & ?); [lia|]. exists c'. rewrite decide_False; [done|].
    intros Ha. by destruct a.
Qed.

Lemma inline_ok c :
  zlen (querybuf c) ≤ PROTO_MAX_QUERYBUF_LEN → 0 ≤ multibulklen c → 0 ≤ alloc c →
  -1 ≤ bulklen c ≤ 512 * 1024 * 1024 → ∃ ok c', processInlineBuffer c = Some (ok, c') ∧
    if ok : bool then (zlen (querybuf c') < zlen (querybuf c)) ∧ multibulklen c' = multibulklen c ∧
      bulklen c' = bulklen c ∧ reqtype c' = reqtype c ∧ qflags c' = qflags c
    else failed c c' ∨ c' = c.
Proof.
  intros H0 H1 Ha H2. unfold processInlineBuffer. consts. destruct (strchr _ _) as [i|] eqn:Es.
  2:{ case_match; do 2 eexists; (split; [done|]); [left; by apply fail_failed|by right]. }
  apply strchr_at in Es as [Hi _].
  set (n := if negb _ && _ then _ else _).
  assert (Hn : 0 ≤ n ≤ i) by (subst n; case_match eqn:E; [apply andb_true_iff in E as [E _]|]; lia).
  unfold sdssplitargs. destruct (splitargs_loop_total (S (length (take (Z.to_nat n) (querybuf c))))
    (take (Z.to_nat n) (querybuf c)) []) as [r ->]; [lia|]. cbn [mbind option_bind].
  destruct r as [args|]; [|do 2 eexists; split; [done|]; left; by apply fail_failed].
  set (c1 := if zlen args =? 0 then _ else _).
  destruct (push_nonempty_ok args (set_args [] (alloc c1) c1)) as
    (c' & -> & E1 & E2 & E3 & E4 & E5 & _).
  { cbn. subst c1. destruct (Z.eqb_spec (zlen args) 0); cbn; lia. }
  do 2 eexists. split; [done|]. rewrite E1, E2, E3, E4, E5.
  assert (Hq : querybuf c1 = from (n + 2) (querybuf c)).
  { subst c1. case_match; cbn; by rewrite s32_small by lia. }
  cbn. rewrite Hq. split; [|by subst c1; case_match]. unfold from. rewrite length_drop. lia.
Qed.

(** The invariant of a client between events. *)
Record qok (c : qclient) : Prop := {
  q_len : zlen (querybuf c) ≤ PROTO_MAX_QUERYBUF_LEN;
  q_left : 0 ≤ multibulklen c;
  q_bulk : -1 ≤ bulklen c ≤ 512 * 1024 * 1024;
  q_type : reqtype c = 0 ∨ reqtype c = PROTO_REQ_INLINE ∨ reqtype c = PROTO_REQ_MULTIBULK;
  q_open : has (qflags c) CLIENT_CLOSE_AFTER_REPLY = true ∨
    zlen (argv c) + multibulklen c ≤ alloc c ∧
    (multibulklen c = 0 → argv c = [] ∧ bulklen c = -1) ∧
    (0 < multibulklen c → reqtype c = PROTO_REQ_MULTIBULK) ∧
    (reqtype c = PROTO_REQ_MULTIBULK → multibulklen c = 0 → get (querybuf c) 0 = Some 42)
}.

Lemma failed_qok c c' : qok c → failed c c' → qok c'.
Proof. intros [H1 H2 H3 H4 H5] [F1 F2 F3 F4 F5]. split; try done; [by rewrite F5|by left]. Qed.

(** The client can be given a new command. *)
Record ready (c : qclient) : Prop := {
  r_len : zlen (querybuf c) ≤ PROTO_MAX_QUERYBUF_LEN;
  r_left : multibulklen c = 0;
  r_bulk : bulklen c = -1;
  r_type : reqtype c = PROTO_REQ_INLINE ∨ reqtype c = PROTO_REQ_MULTIBULK
}.

Lemma header_ok c :
  zlen (querybuf c) ≤ PROTO_MAX_QUERYBUF_LEN → multibulklen c = 0 → bulklen c = -1 → argv c = [] →
  get (querybuf c) 0 = Some 42 →
  ∃ h, read_multibulklen c = Some h ∧
    match h with
    | HRet true c' => zlen (querybuf c') < zlen (querybuf c) ∧ multibulklen c' = 0 ∧
        bulklen c' = -1 ∧ reqtype c' = reqtype c ∧ qflags c' = qflags c ∧ argv c' = []
    | HRet false c' => failed c c' ∨ c' = c
    | HLoop c' pos => mbok c' pos ∧ 2 ≤ pos ∧ 0 < multibulklen c' ∧ same_mode c c' ∧
        querybuf c' = querybuf c
    end.
Proof.
  intros H1 H2 H3 H4 H5. unfold read_multibulklen. consts. rewrite H4, H5.
  change (negb (zlen (@nil bytes) =? 0)) with false. cbv iota.
  destruct (strchr _ _) as [i|] eqn:Es.
  2:{ case_match; eexists; (split; [done|]); [left; apply fail_failed; consts; lia|by right]. }
  apply strchr_at in Es as [Hi _].
  case_match; [eexists; split; [done|by right]|]. cbn [mbind option_bind negb Z.eqb].
  change (negb (42 =? 42)) with false. cbv iota. rewrite s32_small in * by lia.
  destruct (string2ll _) as [ll|].
  2:{ eexists. split; [done|]. left. apply fail_failed; consts; lia. }
  destruct (ll >? _) eqn:El; [eexists; split; [done|]; left; apply fail_failed; consts; lia|].
  destruct (ll <=? 0) eqn:E0; (eexists; split; [done|]).
  - cbn. split_and!; try done. unfold from. rewrite length_drop. lia.
  - cbn. split_and!; try done; [split; cbn; consts; lia|lia|lia].
Qed.

(** The loop and the trimming after it. *)
Lemma mb_tail_ok c pos :
  mbok c pos → 0 < multibulklen c → reqtype c = PROTO_REQ_MULTIBULK →
  ∃ ok c', (r ← mb_loop (Z.to_nat (multibulklen c)) c pos;
    match r with
    | MErr c => Some (false, c)
    | MGo c pos | MBreak c pos =>
        let c := if pos =? 0 then c else set_querybuf (from pos (querybuf c)) c in
        Some (multibulklen c =? 0, c)
    end) = Some (ok, c') ∧
    if ok : bool then zlen (querybuf c') ≤ rest c pos - 2 ∧ ready c' ∧ qflags c' = qflags c
    else qok c'.
Proof.
  intros Hm Hl Ht. destruct (mb_loop_ok (Z.to_nat (multibulklen c)) c pos Hm) as (r & -> & S); [lia|].
  cbn [mbind option_bind]. destruct r as [|c1 p1|c1]; [done| |].
  - destruct S as ([P1 P2 P3 P4 P5] & R1 & [M1 M2] & Z1 & Z2).
    set (c2 := if p1 =? 0 then _ else _).
    assert (E : multibulklen c2 = multibulklen c1 ∧ bulklen c2 = bulklen c1 ∧ reqtype c2 = reqtype c1 ∧
      qflags c2 = qflags c1 ∧ argv c2 = argv c1 ∧ alloc c2 = alloc c1 ∧ zlen (querybuf c2) = rest c1 p1).
    { subst c2. unfold rest. destruct (Z.eqb_spec p1 0); split_and!; try done; [lia|]. cbn.
      rewrite zlen_from; lia. }
    destruct E as (E1 & E2 & E3 & E4 & E5 & E6 & E7). do 2 eexists. split; [done|].
    unfold rest in *. destruct (Z.eqb_spec (multibulklen c2) 0).
    + split; [lia|]. split; [|congruence]. split; [lia|done|rewrite E2; apply Z2; lia|right; congruence].
    + split; [lia|lia|by rewrite E2|right; right; congruence|]. right. rewrite E1, E3, E5, E6.
      split; [done|]. split; [lia|]. split; [congruence|lia].
  - do 2 eexists. split; [done|]. destruct S as [F1 F2 F3 F4 F5].
    split; try done; [right; right; congruence|by left].
Qed.

Lemma multibulk_ok c :
  qok c → has (qflags c) CLIENT_CLOSE_AFTER_REPLY = false → reqtype c = PROTO_REQ_MULTIBULK →
  ∃ ok c', processMultibulkBuffer c = Some (ok, c') ∧
    if ok : bool then zlen (querybuf c') < zlen (querybuf c) ∧ ready c' ∧ qflags c' = qflags c
    else qok c'.
Proof.
  intros Hq Hf Ht. destruct Hq as [H1 H2 H3 H4 [H5|(H5 & H6 & H7 & H8)]]; [congruence|].
  assert (Hq : qok c) by (split; try done; by right).
  unfold processMultibulkBuffer. destruct (Z.eqb_spec (multibulklen c) 0) as [E0|E0].
  - destruct (H6 E0) as [Ea Eb].
    destruct (header_ok c H1 E0 Eb Ea (H8 Ht E0)) as (h & -> & S). cbn [mbind option_bind].
    destruct h as [c1 p1|[] c1].
    + destruct S as (M1 & P1 & L1 & [T1 F1] & Q1). rewrite (proj2 (Z.gtb_lt _ _)) by lia. cbn [negb].
      destruct (mb_tail_ok c1 p1 M1 L1) as (ok & c' & E & S); [congruence|]. exists ok, c'.
      split; [exact E|]. destruct ok; [|done]. destruct S as (? & ? & ?). unfold rest in *.
      rewrite Q1 in *. split; [lia|]. split; [done|congruence].
    + destruct S as (? & ? & ? & ? & ? & ?). do 2 eexists. split; [done|].
      split; [done|]. split; [|done]. split; [lia|done|done|right; congruence].
    + do 2 eexists. split; [done|]. destruct S as [S| ->]; [by eapply failed_qok|done].
  - cbn [mbind option_bind]. rewrite (proj2 (Z.gtb_lt _ _)) by lia. cbn [negb].
    destruct (mb_tail_ok c 0) as (ok & c' & E & S); [by split; lia|lia|done|]. exists ok, c'.
    split; [exact E|]. destruct ok; [|done]. destruct S as (? & ? & ?). unfold rest in *.
    split; [lia|]. done.
Qed.

(** The request type is determined. *)
Definition with_type (c : qclient) : qclient :=
  if reqtype c =? 0
  then set_reqtype (if bool_decide (get (querybuf c) 0 = Some 42)
                    then PROTO_REQ_MULTIBULK else PROTO_REQ_INLINE) c else c.

Lemma with_type_ok c :
  qok c → has (qflags c) CLIENT_CLOSE_AFTER_REPLY = false →
  qok (with_type c) ∧ querybuf (with_type c) = querybuf c ∧ qflags (with_type c) = qflags c ∧
  (reqtype (with_type c) = PROTO_REQ_INLINE ∧ multibulklen (with_type c) = 0 ∧
     bulklen (with_type c) = -1 ∨ reqtype (with_type c) = PROTO_REQ_MULTIBULK).
Proof.
  intros [H1 H2 H3 H4 [H5|(H5 & H6 & H7 & H8)]] Hf; [congruence|].
  unfold with_type. destruct (Z.eqb_spec (reqtype c) 0) as [E0|E0].
  - unfold PROTO_REQ_MULTIBULK, PROTO_REQ_INLINE in *.
    assert (Em : multibulklen c = 0) by lia. destruct (H6 Em) as [Ea Eb]. case_bool_decide as Eg.
    + split; [|cbn; auto]. split; [done..|cbn; auto|]. right. split_and!; try done; lia.
    + split; [|do 2 (split; [done|]); by left]. split; [done..|cbn; auto|]. right.
      split_and!; try done; cbn; lia.
  - split; [split; try done; by right|]. split_and!; try done.
    destruct H4 as [|[H4|]]; [done| |by auto]. left. assert (multibulklen c = 0) as Em.
    { unfold PROTO_REQ_MULTIBULK, PROTO_REQ_INLINE in *. lia. } destruct (H6 Em). done.
Qed.

Section input_ok.
Context {X : Type} (processCommand : X → Z → list bytes → X * Z * bool).
Context (clientsArePaused : X → bool) (asking : list bytes → bool).

(** QUIT is the only command after which the client is not reset. *)
Hypothesis command_quit : ∀ x f a x' f', processCommand x f a = (x', f', false) →
  has f' CLIENT_CLOSE_AFTER_REPLY = true.

Lemma reset_fields c :
  querybuf (resetClient asking c) = querybuf c ∧ reqtype (resetClient asking c) = 0 ∧
  multibulklen (resetClient asking c) = 0 ∧ bulklen (resetClient asking c) = -1 ∧
  argv (resetClient asking c) = [] ∧ alloc (resetClient asking c) = 0.
Proof. unfold resetClient. by repeat case_match. Qed.

Lemma reset_qok c : zlen (querybuf c) ≤ PROTO_MAX_QUERYBUF_LEN → qok (resetClient asking c).
Proof.
  intros H. destruct (reset_fields c) as (E1 & E2 & E3 & E4 & E5 & E6).
  split; rewrite ?E1, ?E2, ?E3, ?E4, ?E5, ?E6; [done|lia|lia|by left|]. right. by split_and!.
Qed.

Lemma input_ok fuel : ∀ x c,
  qok c → (length (querybuf c) ≤ fuel)%nat →
  ∃ x' c', processInputBuffer processCommand clientsArePaused asking fuel x c = Some (x', c') ∧ qok c'.
Proof.
  induction fuel as [|fuel IH]; intros x c Hq Hl; cbn [processInputBuffer].
  { destruct (querybuf c) eqn:E; [|cbn in Hl; lia]. cbn. by exists x, c. }
  case_match eqn:Ez; [by exists x, c|]. case_match; [by exists x, c|]. case_match; [by exists x, c|].
  destruct (has (qflags c) CLIENT_CLOSE_AFTER_REPLY) eqn:Ef; [by exists x, c|].
  fold (with_type c). destruct (with_type_ok c Hq Ef) as (Q1 & Eq & Efl & Q2).
  set (c1 := with_type c) in *.
  match goal with |- context [mbind _ ?b] => assert (S1 : ∃ ok c', b = Some (ok, c') ∧
    if ok : bool then zlen (querybuf c') < zlen (querybuf c) ∧ ready c' else qok c');
    [|destruct S1 as (ok & c2 & -> & S1)] end.
  { destruct Q2 as [(Et & Em & Eb)|Et].
    - rewrite Et. change (PROTO_REQ_INLINE =? PROTO_REQ_INLINE) with true. cbv iota.
      pose proof Q1 as [H1 H2 H3 H4 [H5|(H5 & H6)]]; [congruence|].
      destruct (inline_ok c1) as (ok & c' & -> & S); [done|done|lia|done|]. exists ok, c'.
      split; [done|]. destruct ok; [|destruct S as [S| ->]; [by eapply failed_qok|done]].
      destruct S as (S1 & S2 & S3 & S4 & S5). rewrite Eq in S1. split; [done|].
      rewrite Eq in H1. split; [lia|lia|lia|left; congruence].
    - rewrite Et. change (PROTO_REQ_MULTIBULK =? PROTO_REQ_INLINE) with false.
      change (PROTO_REQ_MULTIBULK =? PROTO_REQ_MULTIBULK) with true. cbv iota.
      destruct (multibulk_ok c1 Q1) as (ok & c' & -> & S); [congruence|done|]. exists ok, c'.
      split; [done|]. destruct ok; [|done]. rewrite Eq in S. by destruct S as (? & ? & ?). }
  cbn [mbind option_bind]. destruct ok; cbn [negb]; [|by exists x, c2].
  destruct S1 as [Hless [R1 R2 R3 R4]]. case_match.
  { apply IH; [by apply reset_qok|]. destruct (reset_fields c2) as (-> & _). lia. }
  destruct (processCommand x (qflags c2) (argv c2)) as [[x' f] ok] eqn:Ep. destruct ok.
  - apply IH; [by apply reset_qok|]. destruct (reset_fields (set_qflags f c2)) as (-> & _). cbn. lia.
  - apply IH; [|cbn; lia]. split; cbn; [done|lia|lia|by auto|]. left. by eapply command_quit.
Qed.

End input_ok.

(** ** Requests arrive as they were sent *)

(** The form of an argument and of a command. *)
Definition enc_arg (a : bytes) : list Z := 36 :: dec (zlen a) ++ [13; 10] ++ a ++ [13; 10].
Definition enc_args (l : list bytes) : list Z := concat (enc_arg <$> l).
Definition enc (cmd : list bytes) : list Z := 42 :: dec (zlen cmd) ++ [13; 10] ++ enc_args cmd.
Definition encs (cmds : list (list bytes)) : list Z := concat (enc <$> cmds).

(** *** The writer *)
Lemma cat_count_ok buf x n dst :
  length buf = 32%nat → 0 ≤ n < 2 ^ 63 →
  ∃ buf', cat_count buf x n dst = Some (buf', dst ++ x :: dec n ++ [13; 10]) ∧ length buf' = 32%nat.
Proof.
  intros Hb Hn. unfold cat_count. assert (Hl : zlen (drop 1 buf) = 31) by (rewrite length_drop; lia).
  rewrite <- Hl, ll2string_spec by (unfold in_s; lia).
  assert (En : dec_of_Z n = dec n) by (unfold dec_of_Z; case_match; [lia|done]). rewrite En.
  assert (Hd : zlen (dec n) ≤ 19) by (apply length_dec; lia).
  rewrite decide_True by lia. cbn [mbind option_bind].
  destruct (drop (S (length (dec n))) (drop 1 buf)) as [|t tl] eqn:Et.
  { apply (f_equal length) in Et. rewrite !length_drop in Et. cbn [length] in Et. lia. }
  change (x :: dec n ++ [0] ++ t :: tl) with ((x :: dec n) ++ [0; t] ++ tl).
  rewrite (mwrite_app (x :: dec n) [0; t] [13; 10] tl) by (cbn [length]; lia).
  cbn [mbind option_bind]. eexists. split.
  - do 2 f_equal. f_equal. rewrite app_assoc. rewrite take_app_length'; [by rewrite <- app_comm_cons|].
    rewrite length_app. cbn [length]. lia.
  - apply (f_equal length) in Et. rewrite !length_drop in Et. cbn [length] in Et.
    rewrite !length_app. cbn [length]. lia.
Qed.

Lemma cat_args_ok args : ∀ buf dst,
  length buf = 32%nat → Forall (λ a, zlen a < 2 ^ 63) args →
  cat_args buf args dst = Some (dst ++ enc_args args).
Proof.
  induction args as [|a args IH]; intros buf dst Hb Ha; cbn [cat_args].
  { unfold enc_args. cbn. by rewrite app_nil_r. }
  apply Forall_cons in Ha as [Ha Has].
  destruct (cat_count_ok buf 36 (zlen a) dst Hb) as (buf' & -> & Hb'); [lia|].
  cbn [mbind option_bind]. rewrite IH by done. f_equal. unfold enc_args. cbn [fmap list_fmap concat].
  unfold enc_arg. repeat (rewrite <- app_assoc; cbn [app]); done.
Qed.

Lemma cat_ok buf dst args :
  length buf = 32%nat → zlen args < 2 ^ 63 → Forall (λ a, zlen a < 2 ^ 63) args →
  catAppendOnlyGenericCommand buf dst args = Some (dst ++ enc args).
Proof.
  intros Hb Hn Ha. unfold catAppendOnlyGenericCommand.
  destruct (cat_count_ok buf 42 (zlen args) dst Hb) as (buf' & -> & Hb'); [lia|].
  cbn [mbind option_bind]. rewrite cat_args_ok by done. f_equal. unfold enc.
  repeat (rewrite <- app_assoc; cbn [app]); done.
Qed.

(** *** A header line *)
Lemma strchr_found a x b : x ∉ a → 0 ∉ a → strchr (a ++ x :: b) x = Some (zlen a).
Proof.
  induction a as [|c a IH]; intros Hx H0; cbn [app strchr].
  { by rewrite Z.eqb_refl. }
  rewrite (proj2 (Z.eqb_neq c x)), (proj2 (Z.eqb_neq c 0)) by set_solver.
  rewrite IH by set_solver. cbn [fmap option_fmap option_map length]. f_equal. lia.
Qed.

Lemma strchr_absent a x : x ∉ a → strchr a x = None.
Proof.
  induction a as [|c a IH]; intros Hx; cbn [strchr]; [done|].
  rewrite (proj2 (Z.eqb_neq c x)) by set_solver. rewrite IH by set_solver. by destruct (c =? 0).
Qed.

Lemma dec_free z x : 0 ≤ z → ¬ digit x → x ∉ dec z.
Proof. intros Hz Hx Hin. apply Hx. pose proof (dec_digits z Hz) as H. rewrite Forall_forall in H. auto. Qed.

(** A prefix shorter than what comes first is not all. *)
Lemma short_prefix (q s A B T : list Z) :
  zlen q < zlen A + zlen B → q ++ s = A ++ B ++ T → s ≠ [].
Proof.
  intros Hl E ->. apply (f_equal length) in E. rewrite !length_app in E. cbn in E. lia.
Qed.

(** A prefix [q] of a stream that starts with a header line. *)
Lemma header_prefix h q s T :
  q ++ s = h ++ [13; 10] ++ T → 13 ∉ h → 0 ∉ h →
  (zlen q < zlen h + 2 ∧
     (strchr q 13 = None ∨ strchr q 13 = Some (zlen h) ∧ zlen q = zlen h + 1)) ∨
  (∃ q', q = h ++ [13; 10] ++ q' ∧ q' ++ s = T ∧ strchr q 13 = Some (zlen h)).
Proof.
  intros E H13 H0. rewrite app_assoc in E. apply app_eq_inv in E as [(k & -> & ->)|(k & E & ->)].
  { right. exists k. rewrite <- app_assoc. split; [done|]. split; [done|]. by apply strchr_found. }
  apply app_eq_inv in E as [(k1 & -> & ->)|(k1 & -> & E)].
  { left. split; [rewrite length_app; lia|]. left. apply strchr_absent. set_solver. }
  destruct k1 as [|y [|z k1]].
  - left. rewrite app_nil_r. split; [lia|]. left. by apply strchr_absent.
  - cbn in E. injection E as <- <-. left. rewrite length_app. cbn [length]. split; [lia|].
    right. split; [by apply strchr_found|lia].
  - cbn in E. injection E as <- <- E. symmetry in E. apply app_nil in E as [-> ->].
    right. exists []. split; [done|]. split; [done|]. by apply strchr_found.
Qed.

(** *** One command *)
#[local] Arguments from : simpl never.

(** What is left to read of the arguments [todo], of which the length of the
    first is known if [bl] is not -1. *)
Definition todo_bytes (bl : Z) (todo : list bytes) : list Z :=
  if bl =? -1 then enc_args todo
  else match todo with [] => [] | a :: todo => a ++ [13; 10] ++ enc_args todo end.

Definition arg_ok (a : bytes) : Prop := zlen a ≤ 512 * 1024 * 1024.

(** The buffer holds little, or part of one big argument. *)
Definition fits (c : qclient) (pos : Z) : Prop :=
  zlen (querybuf c) ≤ PROTO_INLINE_MAX_SIZE ∨
  pos = 0 ∧ PROTO_MBULK_BIG_ARG ≤ bulklen c ∧ zlen (querybuf c) ≤ bulklen c + 2.

(** What the loop leaves alone. *)
Definition frame (c c' : qclient) : Prop :=
  reqtype c' = reqtype c ∧ qflags c' = qflags c ∧ errors c' = errors c ∧ alloc c' = alloc c.

Lemma frame_trans c1 c2 c3 : frame c1 c2 → frame c2 c3 → frame c1 c3.
Proof. intros (? & ? & ? & ?) (? & ? & ? & ?). split_and!; congruence. Qed.

(** The state of the loop: [todo] is being read, [T] follows, [s] has not
    been read from the socket. *)
Record reading (c : qclient) (pos : Z) (todo : list bytes) (T s : list Z) : Prop := {
  rd_pos : 0 ≤ pos ≤ zlen (querybuf c);
  rd_fits : fits c pos;
  rd_stream : from pos (querybuf c) ++ s = todo_bytes (bulklen c) todo ++ T;
  rd_bulk : bulklen c = -1 ∨ ∃ a t, todo = a :: t ∧ bulklen c = zlen a;
  rd_left : multibulklen c = zlen todo;
  rd_alloc : zlen (argv c) + multibulklen c ≤ alloc c
}.

(** Nothing more can be done with what the buffer holds. *)
Definition stuck (c : qclient) (pos : Z) : Prop :=
  zlen (querybuf c) - pos < if bulklen c =? -1 then 32 else bulklen c + 2.

Lemma header_free x n y : 0 ≤ n → x ≠ y → ¬ digit y → y ∉ x :: dec n.
Proof. intros Hn Hx Hy. pose proof (dec_free n y Hn Hy). set_solver. Qed.

Lemma digits_of_header (p : list Z) x n r pos i :
  0 ≤ n < 2 ^ 63 → pos = zlen p → i = zlen p + zlen (x :: dec n) →
  string2ll (digits_of (p ++ (x :: dec n) ++ r) pos i) = Some n.
Proof.
  intros Hn -> ->. unfold digits_of, from.
  rewrite drop_app_ge by lia.
  replace (Z.to_nat (zlen p + 1) - length p)%nat with 1%nat by lia.
  change (drop 1 ((x :: dec n) ++ r)) with (dec n ++ r). cbn [length].
  rewrite take_app_length' by lia. rewrite <- (string2ll_complete n) by (unfold in_s; lia).
  unfold dec_of_Z. by rewrite (proj2 (Z.ltb_ge _ _)) by lia.
Qed.

Lemma read_bulklen_parse c pos a t T s :
  reading c pos (a :: t) T s → arg_ok a → bulklen c = -1 →
  (read_bulklen c pos = Some (MBreak c pos) ∧ stuck c pos ∧ s ≠ []) ∨
  (∃ c1 p1, read_bulklen c pos = Some (MGo c1 p1) ∧ reading c1 p1 (a :: t) T s ∧
     bulklen c1 = zlen a ∧ argv c1 = argv c ∧ frame c c1).
Proof.
  intros [H1 H2 H3 H4 H5 H6] Ha Hb. unfold arg_ok in Ha. unfold todo_bytes in H3. rewrite Hb in H3.
  change (-1 =? -1) with true in H3. cbv iota in H3. destruct H2 as [H2|(_ & H2 & _)]; [|consts; lia].
  set (q := from pos (querybuf c)) in *. unfold enc_args in H3. cbn [fmap list_fmap concat] in H3.
  unfold enc_arg in H3 at 1. change (36 :: dec (zlen a) ++ ?l) with ((36 :: dec (zlen a)) ++ l) in H3.
  rewrite <- !app_assoc in H3. fold (enc_args t) in H3.
  assert (Hd : zlen (dec (zlen a)) ≤ 10) by (apply length_dec; lia).
  assert (Hq : zlen q = zlen (querybuf c) - pos) by by apply zlen_from.
  unfold read_bulklen, stuck. fold q. rewrite Hb. change (-1 =? -1) with true. cbv iota.
  destruct (header_prefix (36 :: dec (zlen a)) q s _ H3) as [[Hl Hs]|(q' & Eq & Es & ->)].
  { apply header_free; [lia|done|]. unfold digit. lia. }
  { apply header_free; [lia|done|]. unfold digit. lia. }
  - left. cbn [length] in *. split; [|split; [lia|by eapply short_prefix; [|exact H3]; cbn [length]; lia]].
    destruct Hs as [-> | [-> Hl2]].
    + destruct (Z.gtb_spec (zlen (querybuf c)) PROTO_INLINE_MAX_SIZE); [lia|done].
    + consts. rewrite s32_small by lia. cbn [length]. destruct (Z.gtb_spec (pos + Z.of_nat (S (length (dec (zlen a)))))
        (zlen (querybuf c) - 2)); [done|lia].
  - right. assert (Hp : querybuf c = take (Z.to_nat pos) (querybuf c) ++ q) by (symmetry; apply take_drop).
    assert (Hlp : zlen (take (Z.to_nat pos) (querybuf c)) = pos) by (rewrite length_take; lia).
    apply (f_equal length) in Eq as Lq. rewrite !length_app in Lq. cbn [length] in Lq. consts.
    rewrite s32_small by lia. cbn [length]. rewrite Z.gtb_ltb, (proj2 (Z.ltb_ge _ _)) by lia.
    assert (Hg : get (querybuf c) pos = Some 36) by (rewrite Hp, Eq; apply get_app; lia).
    assert (Hll : string2ll (digits_of (querybuf c) pos (pos + Z.of_nat (S (length (dec (zlen a)))))) =
      Some (zlen a)) by (rewrite Hp, Eq; apply digits_of_header; cbn [length]; lia).
    rewrite Hg. cbn [mbind option_bind]. change (negb (36 =? 36)) with false. cbv iota.
    rewrite Hll. rewrite (proj2 (Z.ltb_ge _ _)) by lia.
    rewrite Z.gtb_ltb, (proj2 (Z.ltb_ge _ _)) by lia. cbn [orb].
    set (p1 := s32 _). assert (Hp1 : p1 = pos + zlen (36 :: dec (zlen a)) + 2).
    { subst p1. cbn [length]. rewrite (s32_small (_ + 2)), s32_small by lia. lia. }
    assert (Hf : from p1 (querybuf c) = q').
    { unfold from. rewrite Hp, Eq, Hp1. rewrite !app_assoc. rewrite drop_app_length'; [done|].
      rewrite !length_app. cbn [length]. lia. }
    assert (Hts : from p1 (querybuf c) ++ s = todo_bytes (zlen a) (a :: t) ++ T).
    { rewrite Hf, Es. unfold todo_bytes. rewrite (proj2 (Z.eqb_neq _ _)) by lia. by rewrite <- !app_assoc. }
    destruct (Z.geb_spec (zlen a) (1024 * 32)); do 2 eexists; (split; [done|]); cbn.
    + split; [|done]. split; cbn; rewrite ?Hf; [lia|left; cbn; consts; lia| | |done|done].
      * change (from 0 q') with q'. rewrite <- Hf. exact Hts.
      * right. eauto.
    + split; [|done]. split; cbn; [cbn [length] in *; lia|by left|done|right; eauto|done|done].
Qed.

Lemma push_arg_ok a c : zlen (argv c) < alloc c → push_arg a c = Some (set_args (argv c ++ [a]) (alloc c) c).
Proof. intros H. unfold push_arg. by rewrite (proj2 (Z.ltb_lt _ _)). Qed.

Lemma read_bulk_parse c pos a t T s :
  reading c pos (a :: t) T s → arg_ok a → bulklen c = zlen a →
  (read_bulk c pos = Some (MBreak c pos) ∧ stuck c pos ∧ s ≠ []) ∨
  (∃ c1 p1, read_bulk c pos = Some (MGo c1 p1) ∧ reading c1 p1 t T s ∧ bulklen c1 = -1 ∧
     argv c1 = argv c ++ [a] ∧ frame c c1).
Proof.
  intros [H1 H2 H3 H4 H5 H6] Ha Hb. unfold arg_ok in Ha. unfold todo_bytes in H3.
  rewrite Hb, (proj2 (Z.eqb_neq _ _)) in H3 by lia. rewrite <- !app_assoc in H3. cbn [length] in H5.
  assert (Hlen : zlen (querybuf c) ≤ 2 ^ 30) by (destruct H2 as [H2|(_ & _ & H2)]; consts; lia).
  unfold read_bulk, stuck. rewrite Hb, (proj2 (Z.eqb_neq (zlen a) (-1))) by lia.
  assert (u64 (zlen (querybuf c) - pos) = zlen (querybuf c) - pos) as -> by (apply wrapu_id; unfold in_u; lia).
  assert (u32 (zlen a + 2) = zlen a + 2) as -> by (apply wrapu_id; unfold in_u; lia).
  set (q := from pos (querybuf c)) in *. assert (Hq : zlen q = zlen (querybuf c) - pos) by by apply zlen_from.
  destruct (Z.ltb_spec (zlen (querybuf c) - pos) (zlen a + 2)) as [Hl|Hl].
  { left. split_and!; [done|done|]. eapply short_prefix; [|exact H3]. cbn [length]. lia. }
  right.
  assert (Eq : ∃ q', q = a ++ [13; 10] ++ q' ∧ q' ++ s = enc_args t ++ T).
  { rewrite app_assoc in H3. apply app_eq_inv in H3 as [(k & -> & ->)|(k & E & ->)].
    - exists k. by rewrite <- app_assoc.
    - exists []. apply (f_equal length) in E as L. rewrite !length_app in L. cbn in L.
      destruct k; [|cbn in L; lia]. rewrite app_nil_r in E. rewrite <- E. by rewrite app_nil_r. }
  destruct Eq as (q' & Eq & Es). rewrite s32_small by lia.
  assert (Et : todo_bytes (-1) t ++ T = enc_args t ++ T) by done.
  destruct (_ && _) eqn:Eb.
  - apply andb_true_iff in Eb as [Eb1 Eb2]. apply andb_true_iff in Eb1 as [Eb0 Eb1].
    assert (pos = 0) as -> by lia. rewrite push_arg_ok by lia. cbn [mbind option_bind].
    apply (f_equal length) in Eq as L. rewrite !length_app in L. cbn in L. destruct q'; [|cbn in L; lia].
    do 2 eexists. split; [done|]. split; [|split; [done|split; [|done]]].
    + split; cbn; [lia|left; consts; cbn; lia|done|by left|lia|rewrite length_app; cbn; lia].
    + cbn. do 2 f_equal. change (from 0 (querybuf c)) with (querybuf c) in q. subst q. rewrite Eq at 2.
      apply take_app_length'. lia.
  - rewrite push_arg_ok by lia. cbn [mbind option_bind bulklen set_args]. rewrite Hb.
    rewrite (s32_small (zlen a)), s32_small by lia. do 2 eexists. split; [done|].
    apply (f_equal length) in Eq as L. rewrite !length_app in L. cbn in L.
    split; [|split; [done|split; [|done]]].
    + split; cbn; [lia| | |by left|lia|rewrite length_app; cbn; lia].
      * destruct H2 as [H2|(-> & H2 & H2')]; [by left|]. exfalso. consts. lia.
      * change (enc_args t ++ T) with (enc_args t ++ T) in Es. unfold todo_bytes.
        change (-1 =? -1) with true. cbv iota. rewrite <- Es. f_equal. unfold from.
        replace (Z.to_nat (pos + zlen a + 2)) with (Z.to_nat pos + (length a + 2))%nat by lia.
        rewrite <- drop_drop. fold (from pos (querybuf c)). fold q. rewrite Eq.
        rewrite app_assoc. rewrite drop_app_length'; [done|]. rewrite length_app. cbn. lia.
    + cbn. do 2 f_equal. fold q. rewrite Eq. apply take_app_length'. lia.
Qed.

(** The result of the loop: everything was read, or the buffer ran out. *)
Definition read_on (c : qclient) (todo : list bytes) (T s : list Z) (c' : qclient) (pos' : Z) : Prop :=
  ∃ todo', argv c' ++ todo' = argv c ++ todo ∧ reading c' pos' todo' T s ∧ frame c c' ∧
    (todo' = [] ∧ bulklen c' = -1 ∨ todo' ≠ [] ∧ stuck c' pos' ∧ s ≠ []).

Lemma mb_loop_parse todo : ∀ c pos T s,
  reading c pos todo T s → Forall arg_ok todo → (todo = [] → bulklen c = -1) →
  ∃ c' pos', mb_loop (length todo) c pos = Some (MBreak c' pos') ∧ read_on c todo T s c' pos'.
Proof.
  induction todo as [|a t IH]; intros c pos T s R Ha Hn; cbn [mb_loop length].
  { rewrite (rd_left _ _ _ _ _ R). cbn. exists c, pos. split; [done|]. exists []. split_and!; try done.
    left. auto. }
  apply Forall_cons in Ha as [Ha Has].
  rewrite (proj2 (Z.eqb_neq (multibulklen c) 0)) by (rewrite (rd_left _ _ _ _ _ R); cbn; lia).
  assert (S1 : (∃ c1 p1, (if bulklen c =? -1 then read_bulklen c pos else Some (MGo c pos)) =
      Some (MGo c1 p1) ∧ reading c1 p1 (a :: t) T s ∧ bulklen c1 = zlen a ∧ argv c1 = argv c ∧ frame c c1) ∨
    ((if bulklen c =? -1 then read_bulklen c pos else Some (MGo c pos)) = Some (MBreak c pos) ∧
      stuck c pos ∧ s ≠ [])).
  { destruct (Z.eqb_spec (bulklen c) (-1)) as [Eb|Eb].
    - destruct (read_bulklen_parse c pos a t T s R Ha Eb) as [?|?]; auto.
    - left. exists c, pos. split; [done|]. split; [done|].
      destruct (rd_bulk _ _ _ _ _ R) as [|(a' & t' & [= -> ->] & ?)]; done. }
  destruct S1 as [(c1 & p1 & -> & R1 & B1 & A1 & F1)|[-> Hs]]; cbn [mbind option_bind].
  2:{ exists c, pos. split; [done|]. exists (a :: t). split_and!; try done. by right. }
  destruct (read_bulk_parse c1 p1 a t T s R1 Ha B1) as [[-> Hs]|(c2 & p2 & -> & R2 & B2 & A2 & F2)];
    cbn [mbind option_bind].
  { exists c1, p1. split; [done|]. exists (a :: t). split; [by rewrite A1|]. split_and!; try done; try apply F1.
    by right. }
  destruct (IH c2 p2 T s R2 Has) as (c' & pos' & -> & t' & E & R' & F' & Hst); [done|].
  exists c', pos'. split; [done|]. exists t'. split; [rewrite E, A2, A1; by rewrite <- app_assoc|].
  split; [done|]. split; [|done]. by eapply frame_trans; [|eapply frame_trans].
Qed.

(** *** The client between two events

    [pending c s cmds]: the buffer and what has not been read hold the rest of
    the commands [cmds], the first of which may be half read. *)
Inductive pending (c : qclient) (s : list Z) : list (list bytes) → Prop :=
| pend_idle cmds : multibulklen c = 0 → bulklen c = -1 → argv c = [] →
    reqtype c = 0 ∨ reqtype c = PROTO_REQ_MULTIBULK →
    zlen (querybuf c) ≤ PROTO_INLINE_MAX_SIZE → querybuf c ++ s = encs cmds → pending c s cmds
| pend_cmd todo cmds : todo ≠ [] → reqtype c = PROTO_REQ_MULTIBULK →
    reading c 0 todo (encs cmds) s → pending c s ((argv c ++ todo) :: cmds).

(** A command the protocol can carry. *)
Definition cmd_ok (cmd : list bytes) : Prop :=
  cmd ≠ [] ∧ zlen cmd ≤ 1024 * 1024 ∧ Forall arg_ok cmd.

Lemma mb_header_parse c s cmd cmds :
  multibulklen c = 0 → argv c = [] → bulklen c = -1 →
  zlen (querybuf c) ≤ PROTO_INLINE_MAX_SIZE → cmd_ok cmd →
  querybuf c ++ s = encs (cmd :: cmds) →
  (read_multibulklen c = Some (HRet false c) ∧ zlen (querybuf c) < 32 ∧ s ≠ []) ∨
  (∃ c1 p1, read_multibulklen c = Some (HLoop c1 p1) ∧ reading c1 p1 cmd (encs cmds) s ∧
     argv c1 = [] ∧ bulklen c1 = -1 ∧ reqtype c1 = reqtype c ∧ qflags c1 = qflags c ∧ errors c1 = errors c).
Proof.
  intros Hm Ha Hb Hl (Hne & Hn & Has) E. unfold encs in E. cbn [fmap list_fmap concat] in E.
  unfold enc in E at 1. change (42 :: dec (zlen cmd) ++ ?l) with ((42 :: dec (zlen cmd)) ++ l) in E.
  rewrite <- !app_assoc in E. fold (encs cmds) in E.
  assert (Hd : zlen (dec (zlen cmd)) ≤ 10) by (apply length_dec; lia).
  unfold read_multibulklen. rewrite Ha. change (negb (zlen (@nil bytes) =? 0)) with false. cbv iota.
  destruct (header_prefix (42 :: dec (zlen cmd)) _ s _ E) as [[Hq Hs]|(q' & Eq & Es & ->)].
  { apply header_free; [lia|done|]. unfold digit. lia. }
  { apply header_free; [lia|done|]. unfold digit. lia. }
  - left. cbn [length] in *. split; [|split; [lia|by eapply short_prefix; [|exact E]; cbn [length]; lia]].
    destruct Hs as [-> | [-> Hl2]].
    + destruct (Z.gtb_spec (zlen (querybuf c)) PROTO_INLINE_MAX_SIZE); [lia|done].
    + consts. rewrite s32_small by lia. cbn [length].
      destruct (Z.gtb_spec (Z.of_nat (S (length (dec (zlen cmd))))) (zlen (querybuf c) - 2)); [done|lia].
  - right. apply (f_equal length) in Eq as L. rewrite !length_app in L. cbn [length] in L. consts.
    rewrite s32_small by lia. cbn [length]. rewrite Z.gtb_ltb, (proj2 (Z.ltb_ge _ _)) by lia.
    assert (Hg : get (querybuf c) 0 = Some 42) by (rewrite Eq; done).
    assert (Hll : string2ll (digits_of (querybuf c) 0 (Z.of_nat (S (length (dec (zlen cmd)))))) =
      Some (zlen cmd)).
    { rewrite Eq. apply (digits_of_header [] 42 (zlen cmd)); cbn [length]; lia. }
    rewrite Hg. cbn [mbind option_bind]. change (negb (42 =? 42)) with false. cbv iota.
    rewrite Hll, Z.gtb_ltb, (proj2 (Z.ltb_ge _ _)) by lia.
    destruct (Z.leb_spec (zlen cmd) 0) as [H0|H0]; [destruct cmd; [done|cbn in H0; lia]|].
    rewrite s32_small by lia. do 2 eexists. split; [done|]. split; [|by cbn].
    split; cbn [querybuf argv alloc multibulklen bulklen set_args set_multibulklen length];
      [lia|left; consts; done| |by left|done|lia].
    rewrite Hb. unfold todo_bytes. change (-1 =? -1) with true. cbv iota. rewrite <- Es. f_equal.
    unfold from. rewrite Eq, app_assoc, drop_app_length'; [done|]. rewrite length_app. cbn [length]. lia.
Qed.

(** After the loop: a whole command, or a client that waits for more. *)
Lemma mb_tail_parse c pos todo cmds s :
  reading c pos todo (encs cmds) s → Forall arg_ok todo → todo ≠ [] → reqtype c = PROTO_REQ_MULTIBULK →
  ∃ ok c', (r ← mb_loop (Z.to_nat (multibulklen c)) c pos;
    match r with
    | MErr c => Some (false, c)
    | MGo c pos | MBreak c pos =>
        let c := if pos =? 0 then c else set_querybuf (from pos (querybuf c)) c in
        Some (multibulklen c =? 0, c)
    end) = Some (ok, c') ∧ qflags c' = qflags c ∧ errors c' = errors c ∧
    if ok : bool then argv c' = argv c ++ todo ∧ querybuf c' ++ s = encs cmds ∧
      zlen (querybuf c') ≤ PROTO_INLINE_MAX_SIZE
    else pending c' s ((argv c ++ todo) :: cmds) ∧ stuck c' 0 ∧ s ≠ [].
Proof.
  intros R Ha Hne Ht. rewrite (rd_left _ _ _ _ _ R), Nat2Z.id.
  destruct (mb_loop_parse todo c pos (encs cmds) s R Ha) as (c1 & p1 & -> & t1 & E & R1 & F & Hst); [done|].
  cbn [mbind option_bind]. do 2 eexists. split; [done|]. set (c2 := if p1 =? 0 then _ else _).
  destruct R1 as [P1 P2 P3 P4 P5 P6], F as (F1 & F2 & F3 & F4).
  assert (Q : querybuf c2 = from p1 (querybuf c1) ∧ multibulklen c2 = multibulklen c1 ∧
    bulklen c2 = bulklen c1 ∧ argv c2 = argv c1 ∧ alloc c2 = alloc c1 ∧ qflags c2 = qflags c1 ∧
    errors c2 = errors c1 ∧ reqtype c2 = reqtype c1).
  { subst c2. destruct (Z.eqb_spec p1 0) as [->|]; by split_and!. }
  destruct Q as (Q1 & Q2 & Q3 & Q4 & Q5 & Q6 & Q7 & Q8). rewrite Q2, Q6, Q7.
  split; [done|]. split; [done|]. pose proof (zlen_from p1 (querybuf c1) P1) as Hz.
  destruct Hst as [[-> Eb]|(Hne1 & Hst & Hs)].
  - rewrite P5. change (zlen (@nil bytes) =? 0) with true. cbv iota. rewrite Q4, Q1.
    rewrite app_nil_r in E. split; [done|]. rewrite Eb in P3. split; [done|].
    destruct P2 as [P2|(_ & P2 & _)]; [lia|consts; lia].
  - assert (multibulklen c1 ≠ 0) as Hz1 by (destruct t1; [done|cbn in P5; lia]).
    rewrite (proj2 (Z.eqb_neq _ _)) by done. rewrite <- E, <- Q4. split.
    + apply pend_cmd; [done|congruence|]. split; rewrite ?Q1, ?Q2, ?Q3, ?Q4, ?Q5; try done; [lia|].
      unfold fits. rewrite Q1, Q3. destruct P2 as [P2|(-> & P2 & P2')]; [left; lia|right; split; [done|lia]].
    + split; [|done]. unfold stuck in *. rewrite Q1, Q3. lia.
Qed.

Lemma multibulk_parse c s cmd cmds :
  pending c s (cmd :: cmds) → cmd_ok cmd → reqtype c = PROTO_REQ_MULTIBULK →
  ∃ ok c', processMultibulkBuffer c = Some (ok, c') ∧ qflags c' = qflags c ∧ errors c' = errors c ∧
    if ok : bool then argv c' = cmd ∧ querybuf c' ++ s = encs cmds ∧
      zlen (querybuf c') ≤ PROTO_INLINE_MAX_SIZE
    else pending c' s (cmd :: cmds) ∧ stuck c' 0 ∧ s ≠ [].
Proof.
  intros Hp Hc Ht. unfold processMultibulkBuffer. inversion Hp as [cmds' H1 H2 H3 H4 H5 H6 E|todo cmds' H1 H2 H3 E]; subst.
  - rewrite (proj2 (Z.eqb_eq _ _)) by done.
    destruct (mb_header_parse c s cmd cmds H1 H3 H2 H5 Hc H6) as
      [(-> & Hs & Hs')|(c1 & p1 & -> & R & A1 & B1 & T1 & F1 & E1)]; cbn [mbind option_bind].
    + do 2 eexists. split; [done|]. do 2 (split; [done|]). split; [done|].
      split; [|done]. unfold stuck. rewrite H2. change (-1 =? -1) with true. cbv iota. lia.
    + destruct Hc as (Hne & _ & Has). pose proof (rd_left _ _ _ _ _ R) as Hl.
      rewrite (proj2 (Z.gtb_lt _ _)) by (destruct cmd; [done|cbn in Hl; lia]). cbn [negb].
      destruct (mb_tail_parse c1 p1 cmd cmds s R Has Hne) as (ok & c' & E & Q1 & Q2 & Q3); [congruence|].
      exists ok, c'. split; [exact E|]. rewrite A1 in Q3. cbn [app] in Q3.
      split; [congruence|]. split; [congruence|done].
  - pose proof (rd_left _ _ _ _ _ H3) as Hl. assert (0 < multibulklen c) by (destruct todo; [done|cbn in Hl; lia]).
    rewrite (proj2 (Z.eqb_neq _ _)) by lia. cbn [mbind option_bind].
    rewrite (proj2 (Z.gtb_lt _ _)) by lia. cbn [negb].
    destruct Hc as (_ & _ & Has). apply Forall_app in Has as [_ Has].
    exact (mb_tail_parse c 0 todo cmds s H3 Has H1 Ht).
Qed.

(** The client is served: neither blocked nor about to be closed. *)
Definition open (f : Z) : bool := negb (has f (Z.lor CLIENT_BLOCKED CLIENT_CLOSE_AFTER_REPLY)).

Lemma open_bits f : open f = negb (Z.testbit f 4) && negb (Z.testbit f 6).
Proof.
  unfold open. rewrite has_lor, negb_orb. f_equal; f_equal; by apply flag_set.
Qed.

Lemma open_split f :
  open f = true → has f CLIENT_BLOCKED = false ∧ has f CLIENT_CLOSE_AFTER_REPLY = false.
Proof. unfold open. rewrite has_lor, negb_true_iff. apply orb_false_iff. Qed.

Lemma reset_open asking c : open (qflags (resetClient asking c)) = open (qflags c).
Proof.
  rewrite !open_bits. unfold resetClient. repeat case_match;
    cbn [qflags set_qflags set_bulklen set_multibulklen set_reqtype set_args];
    rewrite ?Z.land_spec, ?Z.lor_spec, ?Z.land_spec, ?Z.lnot_spec by done; cbn;
    rewrite ?orb_false_r, ?andb_true_r; done.
Qed.

Section delivery.
Context {X : Type} (processCommand : X → Z → list bytes → X * Z * bool).
Context (clientsArePaused : X → bool) (asking : list bytes → bool).
(** What the commands do to the server. *)
Context (perform : X → list bytes → X).

Hypothesis never_paused : ∀ x, clientsArePaused x = false.
Hypothesis command_runs : ∀ x f a, open f = true →
  ∃ f', processCommand x f a = (perform x a, f', true) ∧ open f' = true.

Abbreviation input := (processInputBuffer processCommand clientsArePaused asking).

Lemma pending_nonempty c s cmds : pending c s cmds → querybuf c ≠ [] → ∃ cmd cmds', cmds = cmd :: cmds'.
Proof.
  intros [cmds' _ _ _ _ _ E|todo cmds' _ _ _] Hq; [|by eauto]. destruct cmds' as [|cmd cmds']; [|by eauto].
  cbn in E. by apply app_nil in E as [E _].
Qed.

(** What is left of the first command is not empty. *)
Lemma pending_length c s cmd cmds :
  pending c s (cmd :: cmds) → (length (encs cmds) < length (querybuf c) + length s)%nat.
Proof.
  intros Hp. inversion Hp as [? H1 H2 H3 H4 H5 H6 E|todo ? H1 H2 H3 E]; subst.
  - apply (f_equal length) in H6. rewrite length_app in H6. rewrite H6. unfold encs. cbn. rewrite length_app. lia.
  - pose proof (rd_stream _ _ _ _ _ H3) as E. change (from 0 (querybuf c)) with (querybuf c) in E.
    apply (f_equal length) in E. rewrite !length_app in E. rewrite E.
    assert (0 < length (todo_bytes (bulklen c) todo))%nat; [|lia].
    destruct todo as [|a t]; [done|]. unfold todo_bytes. case_match; [cbn; lia|]. rewrite !length_app. cbn. lia.
Qed.

Lemma pending_typed c s cmds :
  pending c s cmds → querybuf c ≠ [] → pending (with_type c) s cmds ∧
    reqtype (with_type c) = PROTO_REQ_MULTIBULK ∧ qflags (with_type c) = qflags c ∧
    errors (with_type c) = errors c.
Proof.
  intros Hp Hq. destruct (pending_nonempty c s cmds Hp Hq) as (cmd & cmds' & ->). unfold with_type.
  destruct (Z.eqb_spec (reqtype c) 0) as [E0|E0].
  - inversion Hp as [? H1 H2 H3 H4 H5 H6 E|todo ? H1 H2 H3 E]; subst; [|by rewrite H2 in E0].
    assert (get (querybuf c) 0 = Some 42) as Hg.
    { unfold encs in H6. cbn in H6. destruct (querybuf c) as [|y q]; [done|]. injection H6 as -> _. done. }
    rewrite bool_decide_true by done. split; [|done]. apply pend_idle; try done. by right.
  - split; [done|]. split; [|done]. inversion Hp as [? H1 H2 H3 [|] H5 H6 E|todo ? H1 H2 H3 E]; done.
Qed.

Lemma pending_nil c s cmds : pending c s cmds → querybuf c = [] → s = [] → cmds = [].
Proof.
  intros Hp Hq ->. destruct cmds as [|cmd cmds]; [done|]. apply pending_length in Hp.
  rewrite Hq in Hp. cbn in Hp. lia.
Qed.

Lemma pending_stuck_nil c s cmds : pending c s cmds → querybuf c = [] → stuck c 0.
Proof.
  intros Hp Hq. unfold stuck. rewrite Hq. cbn. inversion Hp as [? H1 H2 H3 H4 H5 H6 E|todo ? H1 H2 H3 E]; subst.
  - rewrite H2. done.
  - destruct (rd_bulk _ _ _ _ _ H3) as [->|(a & t & _ & ->)]; [done|]. case_match; lia.
Qed.

Lemma input_parse fuel : ∀ x c s cmds,
  pending c s cmds → Forall cmd_ok cmds → (length (querybuf c) ≤ fuel)%nat → open (qflags c) = true →
  ∃ fin todo c', cmds = fin ++ todo ∧ input fuel x c = Some (foldl perform x fin, c') ∧
    pending c' s todo ∧ stuck c' 0 ∧ open (qflags c') = true ∧ errors c' = errors c ∧
    (s = [] → todo = []).
Proof.
  induction fuel as [|fuel IH]; intros x c s cmds Hp Hok Hl Ho; cbn [processInputBuffer].
  { destruct (querybuf c) eqn:E; [|cbn in Hl; lia]. cbn. exists [], cmds, c. split_and!; try done; [by eapply pending_stuck_nil|by eapply pending_nil]. }
  destruct (querybuf c) as [|y q] eqn:Eq.
  { cbn. exists [], cmds, c. split_and!; try done; [by eapply pending_stuck_nil|by eapply pending_nil]. }
  rewrite <- Eq in *. assert (Hne : querybuf c ≠ []) by by rewrite Eq.
  rewrite (proj2 (Z.eqb_neq _ _)) by (rewrite Eq; cbn; lia). rewrite never_paused, andb_false_r.
  destruct (open_split _ Ho) as [-> ->]. fold (with_type c).
  destruct (pending_typed c s cmds Hp Hne) as (Hp1 & -> & F1 & E1).
  change (PROTO_REQ_MULTIBULK =? PROTO_REQ_INLINE) with false.
  change (PROTO_REQ_MULTIBULK =? PROTO_REQ_MULTIBULK) with true. cbv iota.
  destruct (pending_nonempty c s cmds Hp Hne) as (cmd & cmds' & ->).
  apply Forall_cons in Hok as [Hok1 Hok].
  destruct (multibulk_parse (with_type c) s cmd cmds' Hp1 Hok1) as (ok & c2 & E2 & F2 & E3 & S).
  { by apply (pending_typed c s (cmd :: cmds')). }
  rewrite E2. cbn [mbind option_bind]. destruct ok; cbn [negb].
  2:{ destruct S as (S1 & S2 & S3). exists [], (cmd :: cmds'), c2. split_and!; try done; congruence. }
  destruct S as (Ea & Es & Hz). rewrite Ea. destruct Hok1 as (Hnc & _).
  rewrite (proj2 (Z.eqb_neq _ _)) by (destruct cmd; [done|cbn; lia]).
  destruct (command_runs x (qflags c2) cmd) as (f & -> & Hf); [congruence|].
  set (c3 := resetClient asking (set_qflags f c2)).
  destruct (reset_fields asking (set_qflags f c2)) as (R1 & R2 & R3 & R4 & R5 & R6).
  assert (Ec3 : errors c3 = errors c2) by (subst c3; unfold resetClient; by repeat case_match).
  destruct (IH (perform x cmd) c3 s cmds') as (fin & todo & c' & -> & E & Hp' & Hs' & Ho' & Ee & Hnil).
  { apply pend_idle; subst c3; rewrite ?R1, ?R3, ?R4, ?R5, ?R2; cbn; auto. }
  { done. }
  { subst c3. rewrite R1. cbn. pose proof (pending_length c s cmd cmds' Hp).
    apply (f_equal length) in Es. rewrite length_app in Es. lia. }
  { subst c3. by rewrite reset_open. }
  exists (cmd :: fin), todo, c'. split_and!; try done; congruence.
Qed.

(** *** The socket

    A readable event: the socket gives some of the bytes of the stream [s],
    [k] + 1 if as many were asked for and are there. *)
Definition socket (s : list Z) (k : nat) (len : Z) : read_result :=
  match s with
  | [] => RAgain
  | _ => if len <=? 0 then REof else RData (take (Nat.min (S k) (Z.to_nat len)) s)
  end.
Definition left_after (s : list Z) (k : nat) (len : Z) : list Z :=
  drop (Nat.min (S k) (Z.to_nat len)) s.

Fixpoint serve (max : Z) (ks : list nat) (x : X) (c : qclient) (s : list Z)
  : option (X * option qclient * list Z) :=
  match ks with
  | [] => Some (x, Some c, s)
  | k :: ks =>
      '(x, o) ← readQueryFromClient processCommand clientsArePaused asking max (socket s k) x c;
      match o with
      | None => Some (x, None, s)
      | Some c' => serve max ks x c' (left_after s k (readlen c))
      end
  end.

(** How much is asked for. *)
Lemma readlen_small c : bulklen c = -1 ∨ multibulklen c = 0 ∨ bulklen c < PROTO_MBULK_BIG_ARG →
  readlen c = PROTO_IOBUF_LEN.
Proof.
  intros H. unfold readlen. destruct (_ && _) eqn:E; [|done]. repeat (apply andb_true_iff in E as [E ?]). lia.
Qed.

Lemma readlen_big c :
  reqtype c = PROTO_REQ_MULTIBULK → multibulklen c ≠ 0 → PROTO_MBULK_BIG_ARG ≤ bulklen c ≤ 512 * 1024 * 1024 →
  zlen (querybuf c) < bulklen c + 2 →
  readlen c = Z.min PROTO_IOBUF_LEN (bulklen c + 2 - zlen (querybuf c)).
Proof.
  intros Ht Hm Hb Hq. unfold readlen. consts. rewrite Ht. change (PROTO_REQ_MULTIBULK =? PROTO_REQ_MULTIBULK) with true.
  rewrite (proj2 (Z.eqb_neq _ _)), (proj2 (Z.eqb_neq (bulklen c) (-1))), (proj2 (Z.geb_le _ _)) by lia.
  cbn [negb andb]. assert (u32 (bulklen c + 2) = bulklen c + 2) as -> by (apply wrapu_id; unfold in_u; lia).
  assert (u64 (bulklen c + 2 - zlen (querybuf c)) = bulklen c + 2 - zlen (querybuf c)) as ->
    by (apply wrapu_id; unfold in_u; lia).
  rewrite s32_small by lia. case_match; lia.
Qed.

(** The buffer never grows beyond what the parser accepts, and something is
    always asked for. *)
Lemma pending_read c bs s cmds :
  pending c (bs ++ s) cmds → Forall cmd_ok cmds → stuck c 0 →
  0 < readlen c ∧ (zlen bs ≤ readlen c →
    pending (set_querybuf (querybuf c ++ bs) c) s cmds ∧
    zlen (querybuf c ++ bs) ≤ 512 * 1024 * 1024 + 2).
Proof.
  intros Hp Hok Hs. rewrite length_app. unfold stuck in Hs.
  inversion Hp as [? H1 H2 H3 H4 H5 H6 E|todo ? H1 H2 H3 E]; subst.
  - rewrite H2 in Hs. change (-1 =? -1) with true in Hs. cbv iota in Hs.
    rewrite readlen_small by auto. consts. split; [lia|]. intros Hb. split; [|lia].
    apply pend_idle; cbn; try done; [rewrite length_app; consts; lia|by rewrite <- app_assoc].
  - destruct H3 as [P1 P2 P3 P4 P5 P6]. apply Forall_cons in Hok as [(_ & _ & Has) _].
    apply Forall_app in Has as [_ Has].
    assert (Hm : multibulklen c ≠ 0) by (destruct todo; [done|cbn in P5; lia]).
    assert (Hpend : zlen (querybuf c) + zlen bs ≤ PROTO_INLINE_MAX_SIZE ∨ PROTO_MBULK_BIG_ARG ≤ bulklen c ∧
      zlen (querybuf c) + zlen bs ≤ bulklen c + 2 →
      pending (set_querybuf (querybuf c ++ bs) c) s ((argv c ++ todo) :: cmds0)).
    { intros Hf. change (argv c) with (argv (set_querybuf (querybuf c ++ bs) c)). apply pend_cmd; try done.
      split; cbn; try done; [rewrite length_app; lia| |].
      - unfold fits. cbn. rewrite length_app. destruct Hf as [|[? ?]]; [left; lia|right; lia].
      - change (from 0 ?q) with q in *. by rewrite <- app_assoc. }
    destruct P4 as [Eb|(a & t & -> & Eb)].
    + rewrite Eb in Hs. change (-1 =? -1) with true in Hs. cbv iota in Hs.
      rewrite readlen_small by auto. consts. split; [lia|]. intros Hb. split; [apply Hpend|]; lia.
    + apply Forall_cons in Has as [Ha _]. unfold arg_ok in Ha.
      rewrite (proj2 (Z.eqb_neq _ _)) in Hs by lia. destruct (Z.lt_ge_cases (bulklen c) PROTO_MBULK_BIG_ARG) as [Hlt|Hge].
      * rewrite readlen_small by auto. consts. split; [lia|]. intros Hb. split; [apply Hpend|]; lia.
      * rewrite readlen_big by (done || lia). consts. split; [lia|]. intros Hb. split; [apply Hpend|]; lia.
Qed.

(** One readable event. *)
Lemma serve_step max k x c s cmds :
  512 * 1024 * 1024 + 2 ≤ max → pending c s cmds → Forall cmd_ok cmds → stuck c 0 →
  open (qflags c) = true → (s = [] → cmds = []) →
  ∃ fin todo c', cmds = fin ++ todo ∧
    readQueryFromClient processCommand clientsArePaused asking max (socket s k) x c =
      Some (foldl perform x fin, Some c') ∧
    pending c' (left_after s k (readlen c)) todo ∧ stuck c' 0 ∧ open (qflags c') = true ∧
    errors c' = errors c ∧ (left_after s k (readlen c) = [] → todo = []) ∧
    (s ≠ [] → length (left_after s k (readlen c)) < length s)%nat.
Proof.
  intros Hmax Hp Hok Hs Ho Hn. unfold readQueryFromClient, socket, left_after.
  destruct s as [|y s'] eqn:Es.
  { exists [], cmds, c. rewrite drop_nil. split_and!; try done. }
  rewrite <- Es in *. assert (Hne : s ≠ []) by by rewrite Es. clear Es.
  set (n := Nat.min (S k) (Z.to_nat (readlen c))).
  rewrite <- (take_drop n s) in Hp. destruct (pending_read c _ _ _ Hp Hok Hs) as [Hr Hrd].
  destruct (Hrd ltac:(rewrite length_take; lia)) as [Hp1 Hl1].
  rewrite (proj2 (Z.leb_gt _ _)) by lia. cbn [querybuf set_querybuf].
  destruct (Z.gtb_spec (zlen (querybuf c ++ take n s)) max); [lia|].
  destruct (input_parse (length (querybuf c ++ take n s)) x (set_querybuf (querybuf c ++ take n s) c)
    (drop n s) cmds Hp1 Hok) as (fin & todo & c' & -> & E & Hp' & Hs' & Ho' & He' & Hn'); [done|done|].
  rewrite E. cbn [mbind option_bind]. exists fin, todo, c'. split_and!; try done.
  intros _. rewrite length_drop. destruct s; [done|]. cbn [length]. lia.
Qed.

Lemma serve_delivers max ks : ∀ x c s cmds,
  512 * 1024 * 1024 + 2 ≤ max → pending c s cmds → Forall cmd_ok cmds → stuck c 0 →
  open (qflags c) = true → (s = [] → cmds = []) →
  ∃ fin todo c' s', cmds = fin ++ todo ∧
    serve max ks x c s = Some (foldl perform x fin, Some c', s') ∧ pending c' s' todo ∧ stuck c' 0 ∧
    errors c' = errors c ∧ (s' = [] → todo = []) ∧ ((length s ≤ length ks)%nat → s' = []).
Proof.
  induction ks as [|k ks IH]; intros x c s cmds Hm Hp Hok Hs Ho Hn; cbn [serve].
  { exists [], cmds, c, s. split_and!; try done. destruct s; [done|]. cbn. lia. }
  destruct (serve_step max k x c s cmds Hm Hp Hok Hs Ho Hn)
    as (d1 & t1 & c1 & -> & E & Hp1 & Hs1 & Ho1 & He1 & Hn1 & Hl1).
  rewrite E. cbn [mbind option_bind]. apply Forall_app in Hok as [_ Hok].
  destruct (IH (foldl perform x d1) c1 _ t1 Hm Hp1 Hok Hs1 Ho1 Hn1)
    as (d2 & t2 & c2 & s2 & -> & E2 & Hp2 & Hs2 & He2 & Hn2 & Hl2).
  exists (d1 ++ d2), t2, c2, s2. split; [by rewrite app_assoc|]. split; [by rewrite foldl_app|].
  split; [done|]. split; [done|]. split; [congruence|]. split; [done|]. intros Hl. apply Hl2. cbn [length] in Hl.
  destruct s as [|y s]; [cbn; unfold left_after; rewrite drop_nil; cbn; lia|].
  specialize (Hl1 ltac:(done)). cbn [length] in *. lia.
Qed.

(** The bytes a writer of requests sends. *)
Fixpoint cat_all (buf : list Z) (cmds : list (list bytes)) (dst : list Z) : option (list Z) :=
  match cmds with
  | [] => Some dst
  | cmd :: cmds => dst ← catAppendOnlyGenericCommand buf dst cmd; cat_all buf cmds dst
  end.

Lemma cat_all_ok buf cmds : ∀ dst,
  length buf = 32%nat → Forall cmd_ok cmds → cat_all buf cmds dst = Some (dst ++ encs cmds).
Proof.
  induction cmds as [|cmd cmds IH]; intros dst Hb Hok; cbn [cat_all].
  { unfold encs. cbn. by rewrite app_nil_r. }
  apply Forall_cons in Hok as [(_ & Hn & Ha) Hok]. rewrite cat_ok; [|done|lia|].
  2:{ eapply Forall_impl; [exact Ha|]. unfold arg_ok. intros a Hl. cbn in *. lia. }
  cbn [mbind option_bind]. rewrite IH by done. unfold encs. cbn. by rewrite <- app_assoc.
Qed.

(** A client that has just connected. *)
Definition fresh (f : Z) : qclient := mk_q [] f 0 0 (-1) [] 0 [].

End delivery.

(** ** Inline requests *)

(** An inline request takes one byte too many.  A line ended by CR LF is
    split into its arguments (the empty ones dropped) and exactly the line is
    removed from the buffer; a line ended by LF alone is split the same way,
    but the first byte of what follows it is removed too, so that a second
    request sent along with it is damaged. *)
Theorem inline_takes_a_line c line args rest (crlf : bool) :
  nonul line → 10 ∉ line → last line ≠ Some 13 → 0 ≤ alloc c →
  querybuf c = line ++ (if crlf then [13; 10] else [10]) ++ rest →
  zlen (querybuf c) ≤ PROTO_MAX_QUERYBUF_LEN →
  sdssplitargs line = Some (Some args) →
  ∃ c', processInlineBuffer c = Some (true, c') ∧ argv c' = filter (λ a, a ≠ []) args ∧
    querybuf c' = if crlf then rest else tail rest.
Proof.
  intros Hn H10 H13 Ha Eq Hl Hs. unfold processInlineBuffer.
  assert (H0 : 0 ∉ line).
  { intros Hin. unfold nonul in Hn. rewrite Forall_forall in Hn. by apply (Hn 0). }
  set (l' := if crlf then line ++ [13] else line).
  assert (Es : strchr (querybuf c) 10 = Some (zlen l')).
  { replace (querybuf c) with (l' ++ 10 :: rest).
    - apply strchr_found; subst l'; destruct crlf; set_solver.
    - rewrite Eq. subst l'. destruct crlf; [by rewrite <- app_assoc|done]. }
  rewrite Es. consts. set (n := if negb _ && _ then _ else _).
  assert (Hx : n = zlen line).
  { subst n l'. destruct crlf.
    - rewrite length_app. cbn [length]. rewrite (proj2 (Z.eqb_neq _ _)) by lia.
      rewrite bool_decide_true; [cbn [negb andb]; lia|]. rewrite Eq. apply get_app. lia.
    - case_match eqn:E; [|done]. exfalso. apply andb_true_iff in E as [E1 E2]. apply bool_decide_eq_true in E2.
      apply H13. rewrite last_lookup. rewrite Eq in E2. unfold get in E2. case_decide; [|done].
      rewrite lookup_app_l in E2 by lia. rewrite <- E2. f_equal. lia. }
  rewrite Hx. assert (Et : take (Z.to_nat (zlen line)) (querybuf c) = line).
  { rewrite Eq, Nat2Z.id. apply take_app_length. }
  rewrite Et, Hs. cbn [mbind option_bind]. assert (zlen line + 2 ≤ zlen (querybuf c) + 1).
  { rewrite Eq, !length_app. destruct crlf; cbn; lia. }
  rewrite s32_small by lia. set (c1 := if zlen args =? 0 then _ else _).
  destruct (push_nonempty_ok args (set_args [] (alloc c1) c1)) as (c' & -> & E1 & _ & _ & _ & _ & _ & E7 & _).
  { cbn. subst c1. destruct (Z.eqb_spec (zlen args) 0); cbn; lia. }
  exists c'. split; [done|]. split; [done|]. rewrite E1.
  transitivity (from (zlen line + 2) (querybuf c)); [subst c1; by case_match|]. unfold from. rewrite Eq.
  replace (Z.to_nat (zlen line + 2)) with (length line + 2)%nat by lia.
  rewrite <- drop_drop, drop_app_length. destruct crlf; [done|]. by destruct rest.
Qed.

(** ** A paused client *)

(** A client that was paused can be closed although it sent nothing
    wrong.  When a big argument has been read completely while clients are
    paused, [readQueryFromClient] asks for 0 bytes at the next event; [read]
    then returns 0, which is taken for the end of the connection. *)
Theorem paused_big_argument_closes {X} processCommand paused asking max read (x : X) c :
  reqtype c = PROTO_REQ_MULTIBULK → multibulklen c ≠ 0 →
  PROTO_MBULK_BIG_ARG ≤ bulklen c ≤ 512 * 1024 * 1024 → zlen (querybuf c) = bulklen c + 2 →
  read 0 = REof →
  readQueryFromClient processCommand paused asking max read x c = Some (x, None).
Proof.
  intros Ht Hm Hb Hq Hr. unfold readQueryFromClient. consts.
  assert (readlen c = 0) as ->; [|by rewrite Hr]. unfold readlen. consts. rewrite Ht.
  change (PROTO_REQ_MULTIBULK =? PROTO_REQ_MULTIBULK) with true.
  rewrite (proj2 (Z.eqb_neq _ _)), (proj2 (Z.eqb_neq (bulklen c) (-1))), (proj2 (Z.geb_le _ _)) by lia.
  cbn [negb andb]. rewrite Hq. assert (u32 (bulklen c + 2) = bulklen c + 2) as -> by (apply wrapu_id; unfold in_u; lia).
  by rewrite Z.sub_diag.
Qed.

(** ** Concrete runs *)
Module Sample.
(** A server that logs its commands; [true] while clients are paused. *)
Definition state : Type := bool * list (list bytes).
Definition process (x : state) (f : Z) (a : list bytes) : state * Z * bool := ((x.1, x.2 ++ [a]), f, true).
Definition perform (x : state) (a : list bytes) : state := (x.1, x.2 ++ [a]).
Definition request (l : list string) : list bytes := of_string <$> l.
Definition cmds : list (list bytes) := [request ["SET"; "k"; "hello"]; request ["GET"; "k"]].



Lemma inline_takes_a_line_witness :
  ∃ c', processInlineBuffer (set_querybuf (of_string "PING" ++ [10] ++ of_string "QUIT") (fresh 0)) = Some (true, c') ∧
    argv c' = request ["PING"] ∧ querybuf c' = of_string "UIT".
Proof.
  apply (inline_takes_a_line _ (of_string "PING") (request ["PING"]) (of_string "QUIT") false).
  - repeat constructor; done.
  - cbn. set_solver.
  - vm_compute. discriminate.
  - reflexivity.
  - reflexivity.
  - vm_compute. discriminate.
  - vm_compute. reflexivity.
Defined.

(** Read [bs] in one event, with clients paused or not. *)
Definition get_bytes (paused : bool) (bs : list Z) (c : qclient) : qclient :=
  match readQueryFromClient process fst (λ _, false) PROTO_MAX_QUERYBUF_LEN (λ _, RData bs) (paused, []) c with
  | Some (_, Some c') => c'
  | _ => c
  end.
Definition held : qclient :=
  get_bytes true [13; 10] (get_bytes true (replicate (Z.to_nat PROTO_IOBUF_LEN) 97) (get_bytes true (replicate (Z.to_nat PROTO_IOBUF_LEN) 97)
    (get_bytes false (42 :: 49 :: 13 :: 10 :: of_string "$32768" ++ [13; 10]) (fresh 0)))).

Lemma paused_big_argument_closes_witness :
  readQueryFromClient process fst (λ _, false) PROTO_MAX_QUERYBUF_LEN
    (λ len, if len =? 0 then REof else RData (of_string "$1")) (false, []) held = Some (false, [], None).
Proof.
  apply paused_big_argument_closes.
  - vm_compute. reflexivity.
  - vm_compute. discriminate.
  - vm_compute. split; discriminate.
  - vm_compute. reflexivity.
  - reflexivity.
Defined.
End Sample.
