(* ===== verification/Pubsub.v ===== *)
(** * Publish/subscribe ([redis-3.2/src/pubsub.c])

    Each client keeps the set of its channels (a dictionary without values) and
    the list of its patterns; the server keeps an index from channels to the
    list of their subscribers and the list of all (client, pattern) pairs.  Both
    sides change in every operation, and the code asserts that they agree.

    A client is named by its identity (the pointer of the C code); channels and
    patterns are byte strings, as the arguments of a command are.  [pout] is
    the sequence of the items handed to [addReply] and its variants.  The order
    in which a dictionary iterator yields the keys is the argument [order] of
    the operations that walk a dictionary.

    [None] is a failed assertion, the use of a client that does not exist, the
    removal of a null list node or a read of the matcher outside its buffers.

    The abstract machine at the end of the model has the clients only: no index,
    no list of pairs.  The server is shown to implement it. *)

From S2P Require Import Prelude Util Glob Multi.

(** ** State *)

(** What a reply is made of: the header of a multi bulk of [n] elements, a bulk
    string, the null bulk, an integer, an error line. *)
Inductive item := IMulti (n : Z) | IBulk (s : bytes) | INull | IInt (n : Z) | IErr (s : bytes).

Record pclient := PClient {
  chans : gset bytes; pats : list bytes; pflags : Z; pout : list item }.

Record pserver := PServer {
  pclients : gmap cid pclient;
  pchannels : gmap bytes (list cid);
  ppatterns : list (cid * bytes);
  cluster_enabled : bool;
  bus : list (bytes * bytes) }.

Definition set_chans (x : gset bytes) (c : pclient) : pclient :=
  PClient x (pats c) (pflags c) (pout c).
Definition set_pats (x : list bytes) (c : pclient) : pclient :=
  PClient (chans c) x (pflags c) (pout c).
Definition set_pflags (x : Z) (c : pclient) : pclient :=
  PClient (chans c) (pats c) x (pout c).
Definition say (l : list item) (c : pclient) : pclient :=
  PClient (chans c) (pats c) (pflags c) (pout c ++ l).

Definition set_pclients (x : gmap cid pclient) (s : pserver) : pserver :=
  PServer x (pchannels s) (ppatterns s) (cluster_enabled s) (bus s).
Definition set_pchannels (x : gmap bytes (list cid)) (s : pserver) : pserver :=
  PServer (pclients s) x (ppatterns s) (cluster_enabled s) (bus s).
Definition set_ppatterns (x : list (cid * bytes)) (s : pserver) : pserver :=
  PServer (pclients s) (pchannels s) x (cluster_enabled s) (bus s).
Definition set_bus (x : list (bytes * bytes)) (s : pserver) : pserver :=
  PServer (pclients s) (pchannels s) (ppatterns s) (cluster_enabled s) x.

(** A write to an existing client. *)
Definition pupd (i : cid) (f : pclient → pclient) (s : pserver) : option pserver :=
  c ← pclients s !! i;
  Some (set_pclients (<[i := f c]> (pclients s)) s).

Definition addReplies (i : cid) (l : list item) (s : pserver) : option pserver :=
  pupd i (say l) s.

(** ** Low level operations *)

(** [listDelNode(l, listSearchKey(l, x))]: the first node that matches. *)
Fixpoint list_del {A} `{EqDecision A} (x : A) (l : list A) : option (list A) :=
  match l with
  | [] => None
  | y :: l => if decide (y = x) then Some l else (y ::.) <$> list_del x l
  end.

(** [dictSize(c->pubsub_channels) + listLength(c->pubsub_patterns)]. *)
Definition subscriptions (c : pclient) : Z := Z.of_nat (size (chans c)) + zlen (pats c).

(** The sum is cut to an [int]. *)
Definition clientSubscriptionsCount (c : pclient) : Z := s32 (subscriptions c).

(** A header of three, the name of the event, the channel or pattern (the null
    bulk when there is none) and the count. *)
Definition notice (name : string) (what : option bytes) (n : Z) : list item :=
  [IMulti 3; IBulk (of_string name);
   match what with Some w => IBulk w | None => INull end; IInt n].

Definition pubsubSubscribeChannel (i : cid) (channel : bytes) (s : pserver) : option (Z * pserver) :=
  c ← pclients s !! i;
  '(retval, s) ←
    (if decide (channel ∈ chans c) then Some (0, s) else
     s ← pupd i (set_chans ({[channel]} ∪ chans c)) s;
     let clients := match pchannels s !! channel with None => [] | Some l => l end in
     Some (1, set_pchannels (<[channel := clients ++ [i]]> (pchannels s)) s));
  c ← pclients s !! i;
  s ← addReplies i (notice "subscribe" (Some channel) (clientSubscriptionsCount c)) s;
  Some (retval, s).

Definition pubsubUnsubscribeChannel (i : cid) (notify : bool) (channel : bytes) (s : pserver) :
    option (Z * pserver) :=
  c ← pclients s !! i;
  '(retval, s) ←
    (if decide (channel ∈ chans c) then
       s ← pupd i (set_chans (chans c ∖ {[channel]})) s;
       clients ← pchannels s !! channel;
       clients ← list_del i clients;
       Some (1, set_pchannels
                  (if (length clients =? 0)%nat then delete channel (pchannels s)
                   else <[channel := clients]> (pchannels s)) s)
     else Some (0, s));
  c ← pclients s !! i;
  s ← (if notify then addReplies i (notice "unsubscribe" (Some channel) (subscriptions c)) s
       else Some s);
  Some (retval, s).

Definition pubsubSubscribePattern (i : cid) (pattern : bytes) (s : pserver) : option (Z * pserver) :=
  c ← pclients s !! i;
  '(retval, s) ←
    (if decide (pattern ∈ pats c) then Some (0, s) else
     s ← pupd i (set_pats (pats c ++ [pattern])) s;
     Some (1, set_ppatterns (ppatterns s ++ [(i, pattern)]) s));
  c ← pclients s !! i;
  s ← addReplies i (notice "psubscribe" (Some pattern) (clientSubscriptionsCount c)) s;
  Some (retval, s).

Definition pubsubUnsubscribePattern (i : cid) (notify : bool) (pattern : bytes) (s : pserver) :
    option (Z * pserver) :=
  c ← pclients s !! i;
  '(retval, s) ←
    match list_del pattern (pats c) with
    | Some l =>
        s ← pupd i (set_pats l) s;
        l ← list_del (i, pattern) (ppatterns s);
        Some (1, set_ppatterns l s)
    | None => Some (0, s)
    end;
  c ← pclients s !! i;
  s ← (if notify then addReplies i (notice "punsubscribe" (Some pattern) (subscriptions c)) s
       else Some s);
  Some (retval, s).

(** A loop over keys that adds up the results of [f] in an [int]. *)
Fixpoint each (f : bytes → pserver → option (Z * pserver)) (l : list bytes) (count : Z) (s : pserver) :
    option (Z * pserver) :=
  match l with
  | [] => Some (count, s)
  | x :: l => '(r, s) ← f x s; each f l (s32 (count + r)) s
  end.

(** The walk over [c->pubsub_channels] visits every key once, in [order]. *)
Definition pubsubUnsubscribeAllChannels (i : cid) (notify : bool) (order : list bytes) (s : pserver) :
    option (Z * pserver) :=
  '(count, s) ← each (pubsubUnsubscribeChannel i notify) order 0 s;
  c ← pclients s !! i;
  s ← (if notify && (count =? 0) then addReplies i (notice "unsubscribe" None (subscriptions c)) s
       else Some s);
  Some (count, s).

(** The iterator holds the successor of the node it handed out, and a call
    deletes that node or one before it: the walk sees the nodes of the list as
    it was. *)
Definition pubsubUnsubscribeAllPatterns (i : cid) (notify : bool) (s : pserver) :
    option (Z * pserver) :=
  c ← pclients s !! i;
  '(count, s) ← each (pubsubUnsubscribePattern i notify) (pats c) 0 s;
  c ← pclients s !! i;
  s ← (if notify && (count =? 0) then addReplies i (notice "punsubscribe" None (subscriptions c)) s
       else Some s);
  Some (count, s).

(** ** Publishing *)
Definition message (channel msg : bytes) : list item :=
  [IMulti 3; IBulk (of_string "message"); IBulk channel; IBulk msg].
Definition pmessage (pattern channel msg : bytes) : list item :=
  [IMulti 4; IBulk (of_string "pmessage"); IBulk pattern; IBulk channel; IBulk msg].

Fixpoint publish_clients (l : list cid) (channel msg : bytes) (receivers : Z) (s : pserver) :
    option (Z * pserver) :=
  match l with
  | [] => Some (receivers, s)
  | i :: l =>
      s ← addReplies i (message channel msg) s;
      publish_clients l channel msg (s32 (receivers + 1)) s
  end.

Fixpoint publish_patterns (l : list (cid * bytes)) (channel msg : bytes) (receivers : Z)
    (s : pserver) : option (Z * pserver) :=
  match l with
  | [] => Some (receivers, s)
  | (i, pattern) :: l =>
      match stringmatchlen pattern channel false with
      | Ret true =>
          s ← addReplies i (pmessage pattern channel msg) s;
          publish_patterns l channel msg (s32 (receivers + 1)) s
      | Ret false => publish_patterns l channel msg receivers s
      | _ => None
      end
  end.

Definition pubsubPublishMessage (channel msg : bytes) (s : pserver) : option (Z * pserver) :=
  '(receivers, s) ←
    match pchannels s !! channel with
    | Some l => publish_clients l channel msg 0 s
    | None => Some (0, s)
    end;
  if (length (ppatterns s) =? 0)%nat then Some (receivers, s)
  else publish_patterns (ppatterns s) channel msg receivers s.

(** ** Commands; [args] is [argv] without the name of the command *)
Definition set_pubsub (c : pclient) : pclient := set_pflags (Z.lor (pflags c) CLIENT_PUBSUB) c.
Definition clear_pubsub (c : pclient) : pclient :=
  if clientSubscriptionsCount c =? 0
  then set_pflags (Z.land (pflags c) (Z.lnot CLIENT_PUBSUB)) c else c.

Definition subscribeCommand (i : cid) (args : list bytes) (s : pserver) : option pserver :=
  '(_, s) ← each (pubsubSubscribeChannel i) args 0 s;
  pupd i set_pubsub s.

Definition unsubscribeCommand (i : cid) (args order : list bytes) (s : pserver) : option pserver :=
  '(_, s) ← match args with
            | [] => pubsubUnsubscribeAllChannels i true order s
            | _ => each (pubsubUnsubscribeChannel i true) args 0 s
            end;
  pupd i clear_pubsub s.

Definition psubscribeCommand (i : cid) (args : list bytes) (s : pserver) : option pserver :=
  '(_, s) ← each (pubsubSubscribePattern i) args 0 s;
  pupd i set_pubsub s.

Definition punsubscribeCommand (i : cid) (args : list bytes) (s : pserver) : option pserver :=
  '(_, s) ← match args with
            | [] => pubsubUnsubscribeAllPatterns i true s
            | _ => each (pubsubUnsubscribePattern i true) args 0 s
            end;
  pupd i clear_pubsub s.

(** [forceCommandPropagation(c, PROPAGATE_REPL)]; in a cluster the message goes
    to the bus instead. *)
Definition force_repl (c : pclient) : pclient := set_pflags (Z.lor (pflags c) CLIENT_FORCE_REPL) c.

Definition publishCommand (i : cid) (channel msg : bytes) (s : pserver) : option pserver :=
  '(receivers, s) ← pubsubPublishMessage channel msg s;
  s ← (if cluster_enabled s then Some (set_bus (bus s ++ [(channel, msg)]) s)
       else pupd i force_repl s);
  addReplies i [IInt receivers] s.

(** The branch of [clusterProcessPacket] for a message of another node. *)
Definition cluster_publish (channel msg : bytes) (s : pserver) : option pserver :=
  if negb (size (pchannels s) =? 0)%nat || negb (length (ppatterns s) =? 0)%nat
  then '(_, s) ← pubsubPublishMessage channel msg s; Some s
  else Some s.

(** The walk of PUBSUB CHANNELS. *)
Fixpoint matching_channels (pat : option bytes) (order : list bytes) : option (list bytes) :=
  match order with
  | [] => Some []
  | ch :: order =>
      match match pat with None => Ret true | Some p => stringmatchlen p ch false end with
      | Ret true => (ch ::.) <$> matching_channels pat order
      | Ret false => matching_channels pat order
      | _ => None
      end
  end.

Definition numsub_reply (s : pserver) (ch : bytes) : list item :=
  [IBulk ch; IInt (match pchannels s !! ch with Some l => zlen l | None => 0 end)].

(** Line breaks in an error are replaced by blanks. *)
Definition one_line : bytes → bytes := map (λ c, if (c =? 13) || (c =? 10) then 32 else c).

Definition unknown_subcommand (sub : bytes) : item :=
  IErr (one_line (of_string "Unknown PUBSUB subcommand or wrong number of arguments for '" ++
                  cstr sub ++ of_string "'")).

Definition pubsubCommand (i : cid) (sub : bytes) (rest order : list bytes) (s : pserver) :
    option pserver :=
  let argc := zlen rest + 2 in
  if strcaseeq (cstr sub) (of_string "channels") && ((argc =? 2) || (argc =? 3)) then
    l ← matching_channels (head rest) order;
    addReplies i (IMulti (zlen l) :: map IBulk l) s
  else if strcaseeq (cstr sub) (of_string "numsub") && (argc >=? 2) then
    addReplies i (IMulti ((argc - 2) * 2) :: (rest ≫= numsub_reply s)) s
  else if strcaseeq (cstr sub) (of_string "numpat") && (argc =? 2) then
    addReplies i [IInt (zlen (ppatterns s))] s
  else addReplies i [unknown_subcommand sub] s.

(** ** Clients that come and go *)

(** The fields [createClient] sets; the identity is that of a fresh object. *)
Definition new_pclient : pclient := PClient ∅ [] 0 [].
Definition createClient (i : cid) (s : pserver) : pserver :=
  set_pclients (<[i := new_pclient]> (pclients s)) s.

(** What [freeClient] does to the subscriptions; the client is gone at its end. *)
Definition freeClient (i : cid) (order : list bytes) (s : pserver) : option pserver :=
  '(_, s) ← pubsubUnsubscribeAllChannels i false order s;
  '(_, s) ← pubsubUnsubscribeAllPatterns i false s;
  Some (set_pclients (delete i (pclients s)) s).

(** ** The abstract machine: clients and what they subscribed to *)

(** What the operations do to the client that runs them. *)
Definition c_sub (ch : bytes) (c : pclient) : pclient :=
  let c := set_chans ({[ch]} ∪ chans c) c in
  say (notice "subscribe" (Some ch) (clientSubscriptionsCount c)) c.

Definition c_unsub (notify : bool) (ch : bytes) (c : pclient) : pclient :=
  let c := set_chans (chans c ∖ {[ch]}) c in
  if notify then say (notice "unsubscribe" (Some ch) (subscriptions c)) c else c.

Definition c_psub (p : bytes) (c : pclient) : pclient :=
  let c := if decide (p ∈ pats c) then c else set_pats (pats c ++ [p]) c in
  say (notice "psubscribe" (Some p) (clientSubscriptionsCount c)) c.

Definition c_punsub (notify : bool) (p : bytes) (c : pclient) : pclient :=
  let c := set_pats (filter (λ q, q ≠ p) (pats c)) c in
  if notify then say (notice "punsubscribe" (Some p) (subscriptions c)) c else c.

Definition c_each (g : bytes → pclient → pclient) (l : list bytes) (c : pclient) : pclient :=
  foldl (λ c x, g x c) c l.

(** After a walk over [l], where there was nothing to leave. *)
Definition c_nothing (name : string) (l : list bytes) (c : pclient) : pclient :=
  if s32 (zlen l) =? 0 then say (notice name None (subscriptions c)) c else c.

Definition matches (ch p : bytes) : bool :=
  match stringmatchlen p ch false with Ret b => b | _ => false end.

(** A client gets the message once if it is subscribed to the channel, and
    once more for each of its patterns that match it. *)
Definition deliver (ch msg : bytes) (c : pclient) : pclient :=
  say ((if decide (ch ∈ chans c) then message ch msg else []) ++
       (filter (λ p, matches ch p = true) (pats c) ≫= λ p, pmessage p ch msg)) c.

Definition deliveries (ch : bytes) (c : pclient) : Z :=
  (if decide (ch ∈ chans c) then 1 else 0) + zlen (filter (λ p, matches ch p = true) (pats c)).

Definition total (f : pclient → Z) (m : gmap cid pclient) : Z :=
  foldr (λ ic n, f ic.2 + n) 0 (map_to_list m).

Definition numsub (m : gmap cid pclient) (ch : bytes) : Z :=
  total (λ c, if decide (ch ∈ chans c) then 1 else 0) m.

(** What happens to the server, one event at a time. *)
Inductive event :=
  | Connect (i : cid)
  | Disconnect (i : cid) (order : list bytes)
  | Subscribe (i : cid) (args : list bytes)
  | Unsubscribe (i : cid) (args order : list bytes)
  | PSubscribe (i : cid) (args : list bytes)
  | PUnsubscribe (i : cid) (args : list bytes)
  | Publish (i : cid) (ch msg : bytes)
  | FromBus (ch msg : bytes)
  | Introspect (i : cid) (sub : bytes) (rest order : list bytes).

Definition run (e : event) (s : pserver) : option pserver :=
  match e with
  | Connect i => Some (createClient i s)
  | Disconnect i order => freeClient i order s
  | Subscribe i args => subscribeCommand i args s
  | Unsubscribe i args order => unsubscribeCommand i args order s
  | PSubscribe i args => psubscribeCommand i args s
  | PUnsubscribe i args => punsubscribeCommand i args s
  | Publish i ch msg => publishCommand i ch msg s
  | FromBus ch msg => cluster_publish ch msg s
  | Introspect i sub rest order => pubsubCommand i sub rest order s
  end.

(** The reply to PUBSUB. *)
Definition introspection (m : gmap cid pclient) (sub : bytes) (rest order : list bytes) : list item :=
  if strcaseeq (cstr sub) (of_string "channels") && (length rest <=? 1)%nat then
    let l := match rest with [] => order | p :: _ => filter (λ ch, matches ch p = true) order end in
    IMulti (zlen l) :: map IBulk l
  else if strcaseeq (cstr sub) (of_string "numsub") then
    IMulti (zlen rest * 2) :: (rest ≫= λ ch, [IBulk ch; IInt (numsub m ch)])
  else if strcaseeq (cstr sub) (of_string "numpat") && (length rest =? 0)%nat then
    [IInt (total (λ c, zlen (pats c)) m)]
  else [unknown_subcommand sub].

(** The machine on the clients; [cl] says whether the server is in a cluster. *)
Definition spec (cl : bool) (e : event) (m : gmap cid pclient) : gmap cid pclient :=
  match e with
  | Connect i => <[i := new_pclient]> m
  | Disconnect i _ => delete i m
  | Subscribe i args => alter (λ c, set_pubsub (c_each c_sub args c)) i m
  | Unsubscribe i [] order =>
      alter (λ c, clear_pubsub (c_nothing "unsubscribe" order (c_each (c_unsub true) order c))) i m
  | Unsubscribe i args _ => alter (λ c, clear_pubsub (c_each (c_unsub true) args c)) i m
  | PSubscribe i args => alter (λ c, set_pubsub (c_each c_psub args c)) i m
  | PUnsubscribe i [] =>
      alter (λ c, clear_pubsub (c_nothing "punsubscribe" (pats c)
                                  (c_each (c_punsub true) (pats c) c))) i m
  | PUnsubscribe i args => alter (λ c, clear_pubsub (c_each (c_punsub true) args c)) i m
  | Publish i ch msg =>
      let n := s32 (total (deliveries ch) m) in
      alter (λ c, say [IInt n] (if cl then c else force_repl c)) i (deliver ch msg <$> m)
  | FromBus ch msg => deliver ch msg <$> m
  | Introspect i sub rest order => alter (say (introspection m sub rest order)) i m
  end.

Definition posted (cl : bool) (e : event) : list (bytes * bytes) :=
  match e with Publish _ ch msg => if cl then [(ch, msg)] else [] | _ => [] end.

(** When an event can happen: the client exists (a new one does not), a
    command has the number of arguments its arity asks for, an iterator yields
    every key of its dictionary once, and the matcher stays in its buffers. *)
Definition matchable (p ch : bytes) : Prop := ∃ b, stringmatchlen p ch false = Ret b.

Definition enabled (e : event) (m : gmap cid pclient) : Prop :=
  match e with
  | Connect i => m !! i = None
  | Disconnect i order => ∃ c, m !! i = Some c ∧ order ≡ₚ elements (chans c)
  | Subscribe i args | PSubscribe i args => is_Some (m !! i) ∧ args ≠ []
  | Unsubscribe i args order => ∃ c, m !! i = Some c ∧ (args = [] → order ≡ₚ elements (chans c))
  | PUnsubscribe i _ => is_Some (m !! i)
  | Publish i ch _ => is_Some (m !! i) ∧ map_Forall (λ _ c, Forall (λ p, matchable p ch) (pats c)) m
  | FromBus ch _ => map_Forall (λ _ c, Forall (λ p, matchable p ch) (pats c)) m
  | Introspect i _ rest order =>
      is_Some (m !! i) ∧ NoDup order ∧
      (∀ ch, ch ∈ order ↔ ∃ j c, m !! j = Some c ∧ ch ∈ chans c) ∧
      (∀ p, head rest = Some p → Forall (matchable p) order)
  end.

(** ** The registry agrees with the clients *)
Definition subs (c : pclient) : gset bytes * list bytes := (chans c, pats c).

Record registry (m : gmap cid (gset bytes * list bytes)) (chs : gmap bytes (list cid))
    (ps : list (cid * bytes)) : Prop := {
  ro_list ch l : chs !! ch = Some l → l ≠ [] ∧ NoDup l;
  ro_sub i ch : (∃ l, chs !! ch = Some l ∧ i ∈ l) ↔ (∃ c, m !! i = Some c ∧ ch ∈ c.1);
  ro_pat i c : m !! i = Some c → (filter (λ x, x.1 = i) ps).*2 = c.2;
  ro_own i p : (i, p) ∈ ps → is_Some (m !! i);
  ro_nodup : NoDup ps
}.

Definition reg_ok (s : pserver) : Prop := registry (subs <$> pclients s) (pchannels s) (ppatterns s).

(** [s'] is [s] with the client [i] changed to [c'], and registered as [c'] says. *)
Record becomes (i : cid) (c' : pclient) (s s' : pserver) : Prop := {
  bc_reg : reg_ok s';
  bc_clients : pclients s' = <[i := c']> (pclients s);
  bc_cluster : cluster_enabled s' = cluster_enabled s;
  bc_bus : bus s' = bus s
}.

(** ** Proofs: the registry *)
Lemma list_del_none {A} `{EqDecision A} (x : A) l : x ∉ l → list_del x l = None.
Proof.
  induction l as [|y l IH]; [done|]. intros Hx. cbn. rewrite decide_False by set_solver.
  by rewrite IH by set_solver.
Qed.

Lemma list_del_some {A} `{EqDecision A} (x : A) l :
  x ∈ l → NoDup l → list_del x l = Some (filter (λ y, y ≠ x) l).
Proof.
  induction l as [|y l IH]; [set_solver|]. intros Hx [Hy Hl]%NoDup_cons. cbn [list_del].
  case_decide as E.
  - subst y. rewrite filter_cons_False by auto. rewrite filter_keeps; [done|].
    apply Forall_forall. intros z Hz ->. done.
  - rewrite filter_cons_True by done. rewrite IH; [done|set_solver|done].
Qed.

Lemma reg_add_chan m chs ps i c ch :
  registry m chs ps → m !! i = Some c → ch ∉ c.1 →
  registry (<[i := ({[ch]} ∪ c.1, c.2)]> m) (<[ch := default [] (chs !! ch) ++ [i]]> chs) ps.
Proof.
  intros [Hl Hs Hp Ho Hn] Hc Hch.
  assert (i ∉ default [] (chs !! ch)) as Hi.
  { destruct (chs !! ch) as [l|] eqn:E; simpl; [|apply not_elem_of_nil]. intros Hi.
    destruct (proj1 (Hs i ch)) as (c' & E' & ?); [by exists l|]. congruence. }
  split; [| | | |done].
  - intros ch' l. rewrite lookup_insert_Some. intros [[<- <-]|[_ H]]; [|by eapply Hl].
    split; [by destruct (default _ _)|]. apply NoDup_app. split; [|split].
    + destruct (chs !! ch) eqn:E; [by eapply Hl|constructor].
    + intros x Hx ->%list_elem_of_singleton. done.
    + apply NoDup_singleton.
  - intros j ch'. destruct (decide (ch' = ch)) as [->|N], (decide (j = i)) as [->|Nj].
    + rewrite !lookup_insert_eq. split; intros _; eexists; (split; [done|]); set_solver.
    + rewrite lookup_insert_eq, lookup_insert_ne by done. rewrite <- (Hs j ch).
      split; [intros (l & [= <-] & H)|intros (l & -> & H)].
      * apply elem_of_app in H as [H|H]; [|set_solver].
        destruct (chs !! ch); [by eexists|by apply not_elem_of_nil in H].
      * eexists. split; [done|]. simpl. set_solver.
    + rewrite lookup_insert_eq, lookup_insert_ne by done. rewrite (Hs i ch').
      rewrite Hc. split; intros (c' & [= <-] & H); (eexists; split; [done|]); cbn [fst] in *; set_solver.
    + rewrite !lookup_insert_ne by done. apply Hs.
  - intros j c'. rewrite lookup_insert_Some. intros [[<- <-]|[_ H]]; [apply (Hp _ _ Hc)|by apply Hp].
  - intros j p H. rewrite lookup_insert_is_Some. destruct (decide (i = j)); [by left|].
    right. split; [done|]. by eapply Ho.
Qed.

Lemma reg_del_chan m chs ps i c ch :
  registry m chs ps → m !! i = Some c → ch ∈ c.1 →
  ∃ l, chs !! ch = Some l ∧ i ∈ l ∧ NoDup l ∧
    let l' := filter (λ y, y ≠ i) l in
    registry (<[i := (c.1 ∖ {[ch]}, c.2)]> m)
      (if (length l' =? 0)%nat then delete ch chs else <[ch := l']> chs) ps.
Proof.
  intros [Hl Hs Hp Ho Hn] Hc Hch.
  destruct (proj2 (Hs i ch)) as (l & El & Hi); [by exists c|].
  destruct (Hl _ _ El) as [_ Hnl]. exists l. split; [done|]. split; [done|]. split; [done|].
  cbv zeta. set (l' := filter (λ y, y ≠ i) l).
  assert (∀ j, j ∈ l' ↔ j ∈ l ∧ j ≠ i) as Hl'.
  { intros j. unfold l'. rewrite list_elem_of_filter. tauto. }
  set (chs' := if (length l' =? 0)%nat then delete ch chs else <[ch := l']> chs).
  assert (∀ ch', ch' ≠ ch → chs' !! ch' = chs !! ch') as Hne.
  { intros ch' N. unfold chs'. destruct (length l' =? 0)%nat eqn:En; [by rewrite lookup_delete_ne|by rewrite lookup_insert_ne]. }
  assert (∀ j, (∃ l0, chs' !! ch = Some l0 ∧ j ∈ l0) ↔ j ∈ l') as Heq.
  { intros j. unfold chs'. destruct (length l' =? 0)%nat eqn:En.
    - destruct l'; [|done]. rewrite lookup_delete_eq. split; [by intros (? & ? & ?)|by intros ?%not_elem_of_nil].
    - rewrite lookup_insert_eq. split; [by intros (? & [= <-] & ?)|by eexists]. }
  split; [| | | |done].
  - intros ch' l0 E. destruct (decide (ch' = ch)) as [->|N]; [|rewrite Hne in E by done; by eapply Hl].
    unfold chs' in E. destruct (length l' =? 0)%nat eqn:En; [by rewrite lookup_delete_eq in E|].
    rewrite lookup_insert_eq in E. injection E as <-. split; [by destruct l'|].
    by apply NoDup_filter.
  - intros j ch'. destruct (decide (ch' = ch)) as [->|N], (decide (j = i)) as [->|Nj].
    + rewrite Heq, Hl', lookup_insert_eq. split; [tauto|]. intros (? & [= <-] & H). set_solver.
    + rewrite Heq, Hl', lookup_insert_ne by done. rewrite <- (Hs j ch). rewrite El.
      split; [intros [? _]; by eexists|by intros (? & [= <-] & ?)].
    + rewrite Hne, lookup_insert_eq by done. rewrite (Hs i ch').
      rewrite Hc. split; intros (c' & [= <-] & H); (eexists; split; [done|]); cbn [fst] in *; set_solver.
    + rewrite Hne, lookup_insert_ne by done. apply Hs.
  - intros j c'. rewrite lookup_insert_Some. intros [[<- <-]|[_ H]]; [apply (Hp _ _ Hc)|by apply Hp].
  - intros j p H. rewrite lookup_insert_is_Some. destruct (decide (i = j)); [by left|].
    right. split; [done|]. by eapply Ho.
Qed.

Lemma reg_pats_in m chs ps i c p : registry m chs ps → m !! i = Some c → (i, p) ∈ ps ↔ p ∈ c.2.
Proof.
  intros [_ _ Hp _ _] Hc. rewrite <- (Hp _ _ Hc), list_elem_of_fmap. split.
  - intros H. exists (i, p). split; [done|]. by rewrite list_elem_of_filter.
  - intros ([j q] & -> & [E H]%list_elem_of_filter). simpl in *. by subst j.
Qed.

Lemma reg_add_pat m chs ps i c p :
  registry m chs ps → m !! i = Some c → p ∉ c.2 →
  registry (<[i := (c.1, c.2 ++ [p])]> m) chs (ps ++ [(i, p)]).
Proof.
  intros Hr Hc Hnp. pose proof (reg_pats_in _ _ _ _ _ p Hr Hc) as Hin.
  destruct Hr as [Hl Hs Hp Ho Hn]. split; [done| | | |].
  - intros j ch. rewrite Hs. destruct (decide (i = j)) as [->|N].
    + rewrite lookup_insert_eq, Hc. split; intros (? & [= <-] & ?); by eexists.
    + by rewrite lookup_insert_ne.
  - intros j c'. rewrite filter_app, fmap_app, lookup_insert_Some. intros [[<- <-]|[N H]].
    + rewrite (Hp _ _ Hc). f_equal. by rewrite filter_cons_True.
    + rewrite (Hp _ _ H), filter_cons_False by done. apply app_nil_r.
  - intros j q. rewrite lookup_insert_is_Some, elem_of_app, list_elem_of_singleton.
    destruct (decide (i = j)); [by left|]. intros [H|[=]]; [|congruence]. right. by eauto.
  - apply NoDup_app. split; [done|]. split; [|apply NoDup_singleton].
    intros x Hx ->%list_elem_of_singleton. tauto.
Qed.

Lemma filter_filter_fst (i j : cid) p (ps : list (cid * bytes)) :
  (filter (λ x, x.1 = j) (filter (λ y, y ≠ (i, p)) ps)).*2 =
  if decide (i = j) then filter (λ q, q ≠ p) (filter (λ x, x.1 = j) ps).*2
  else (filter (λ x, x.1 = j) ps).*2.
Proof.
  case_decide as Eij; [subst j|]; (induction ps as [|[k q] ps IH]; [done|]);
    destruct (decide ((k, q) = (i, p))) as [[= -> ->]|N].
  - rewrite filter_cons_False by auto. rewrite IH, (filter_cons_True _ (i, p)) by done.
    rewrite fmap_cons, filter_cons_False by auto. done.
  - rewrite filter_cons_True by done. destruct (decide (k = i)) as [->|Nk].
    + rewrite !(filter_cons_True _ (i, q)) by done.
      rewrite !fmap_cons, IH, filter_cons_True; [done|cbn; congruence].
    + by rewrite !(filter_cons_False _ (k, q)) by done.
  - rewrite filter_cons_False by auto. by rewrite IH, (filter_cons_False _ (i, p)).
  - rewrite filter_cons_True by done. destruct (decide (k = j)) as [->|Nk].
    + by rewrite !(filter_cons_True _ (j, q)), !fmap_cons, IH by done.
    + by rewrite !(filter_cons_False _ (k, q)) by done.
Qed.

Lemma reg_del_pat m chs ps i c p :
  registry m chs ps → m !! i = Some c → p ∈ c.2 →
  (i, p) ∈ ps ∧ NoDup ps ∧ NoDup c.2 ∧
  registry (<[i := (c.1, filter (λ q, q ≠ p) c.2)]> m) chs (filter (λ x, x ≠ (i, p)) ps).
Proof.
  intros Hr Hc Hnp. pose proof (reg_pats_in _ _ _ _ _ p Hr Hc) as Hin.
  destruct Hr as [Hl Hs Hp Ho Hn]. split; [tauto|]. split; [done|]. split.
  { rewrite <- (Hp _ _ Hc). apply NoDup_fmap_2_strong; [|by apply NoDup_filter].
    intros [a q] [b r] [E1 _]%list_elem_of_filter [E2 _]%list_elem_of_filter. simpl in *. congruence. }
  split; [done| | | |by apply NoDup_filter].
  - intros j ch. rewrite Hs. destruct (decide (i = j)) as [->|N].
    + rewrite lookup_insert_eq, Hc. split; intros (? & [= <-] & ?); by eexists.
    + by rewrite lookup_insert_ne.
  - intros j c'. rewrite filter_filter_fst, lookup_insert_Some. intros [[<- <-]|[N H]].
    + rewrite decide_True by done. by rewrite (Hp _ _ Hc).
    + rewrite decide_False by done. by apply Hp.
  - intros j q. rewrite lookup_insert_is_Some, list_elem_of_filter.
    destruct (decide (i = j)); [by left|]. intros [_ H]. right. by eauto.
Qed.

(** Replies and flags are no part of the registry. *)
Lemma subs_insert (m : gmap cid pclient) i c c' :
  m !! i = Some c → subs c' = subs c → subs <$> <[i := c']> m = subs <$> m.
Proof.
  intros Hc E. rewrite fmap_insert, E. apply insert_id. by rewrite lookup_fmap, Hc.
Qed.

Lemma becomes_same i c s c' :
  reg_ok s → pclients s !! i = Some c → subs c' = subs c →
  becomes i c' s (set_pclients (<[i := c']> (pclients s)) s).
Proof. intros H Hc E. split; [|done..]. unfold reg_ok. simpl. by rewrite (subs_insert _ _ _ _ Hc E). Qed.

Lemma becomes_trans i c1 c2 s s1 s2 : becomes i c1 s s1 → becomes i c2 s1 s2 → becomes i c2 s s2.
Proof. intros [H1 E1 F1 G1] [H2 E2 F2 G2]. split; [done| |congruence..]. by rewrite E2, E1, insert_insert_eq. Qed.

Lemma becomes_lookup i c s s' : becomes i c s s' → pclients s' !! i = Some c.
Proof. intros [_ -> _ _]. apply lookup_insert_eq. Qed.

Lemma pupd_same i f s c :
  reg_ok s → pclients s !! i = Some c → subs (f c) = subs c →
  ∃ s', pupd i f s = Some s' ∧ becomes i (f c) s s'.
Proof. intros H Hc E. unfold pupd. rewrite Hc. eexists. split; [done|]. by eapply becomes_same. Qed.

Lemma becomes_id i c s : reg_ok s → pclients s !! i = Some c → becomes i c s s.
Proof. intros H Hc. split; [done| |done..]. by rewrite insert_id. Qed.

Lemma then_upd i f c1 s s1 :
  becomes i c1 s s1 → subs (f c1) = subs c1 →
  ∃ s', pupd i f s1 = Some s' ∧ becomes i (f c1) s s'.
Proof.
  intros H E. pose proof (becomes_lookup _ _ _ _ H) as Hc.
  destruct (pupd_same i f s1 c1) as (s' & Hs' & Hb); [by apply H|done|done|].
  exists s'. split; [done|]. by eapply becomes_trans.
Qed.

Lemma then_notify i (b : bool) l c1 s s1 :
  becomes i c1 s s1 →
  ∃ s', (if b then addReplies i l s1 else Some s1) = Some s' ∧
        becomes i (if b then say l c1 else c1) s s'.
Proof. intros H. destruct b; [by apply then_upd|by exists s1]. Qed.

(** ** The operations on one client *)
Lemma sub_ok i ch s c :
  reg_ok s → pclients s !! i = Some c →
  ∃ s', pubsubSubscribeChannel i ch s = Some (if decide (ch ∈ chans c) then 0 else 1, s') ∧
        becomes i (c_sub ch c) s s'.
Proof.
  intros Hr Hc. unfold pubsubSubscribeChannel. rewrite Hc, some_bind. cbv beta.
  assert (∃ s1, (if decide (ch ∈ chans c) then Some (0, s) else
       s ← pupd i (set_chans ({[ch]} ∪ chans c)) s;
       Some (1, set_pchannels (<[ch := match pchannels s !! ch with Some l => l | None => [] end ++ [i]]>
                                 (pchannels s)) s)) =
       Some (if decide (ch ∈ chans c) then 0 else 1, s1) ∧
       becomes i (set_chans ({[ch]} ∪ chans c) c) s s1) as (s1 & -> & H1).
  { case_decide as E.
    - exists s. split; [done|]. replace (set_chans _ c) with c; [by apply becomes_id|].
      destruct c; unfold set_chans; simpl in *. f_equal. set_solver.
    - unfold pupd. rewrite Hc. cbn. eexists. split; [done|]. split; [|done..].
      unfold reg_ok. simpl. rewrite fmap_insert. unfold subs at 1. simpl.
      apply (reg_add_chan _ _ _ i (subs c)); [done| |done]. by rewrite lookup_fmap, Hc. }
  rewrite some_bind, (becomes_lookup _ _ _ _ H1), some_bind.
  destruct (then_upd i (say (notice "subscribe" (Some ch)
    (clientSubscriptionsCount (set_chans ({[ch]} ∪ chans c) c)))) _ _ _ H1) as (s' & E & H'); [done|].
  unfold addReplies. rewrite E. by exists s'.
Qed.

Lemma unsub_ok i b ch s c :
  reg_ok s → pclients s !! i = Some c →
  ∃ s', pubsubUnsubscribeChannel i b ch s = Some (if decide (ch ∈ chans c) then 1 else 0, s') ∧
        becomes i (c_unsub b ch c) s s'.
Proof.
  intros Hr Hc. unfold pubsubUnsubscribeChannel. rewrite Hc, some_bind. cbv beta.
  assert (∃ s1, (if decide (ch ∈ chans c) then
       s ← pupd i (set_chans (chans c ∖ {[ch]})) s;
       clients ← pchannels s !! ch;
       clients ← list_del i clients;
       Some (1, set_pchannels
                  (if (length clients =? 0)%nat then delete ch (pchannels s)
                   else <[ch := clients]> (pchannels s)) s)
     else Some (0, s)) = Some (if decide (ch ∈ chans c) then 1 else 0, s1) ∧
       becomes i (set_chans (chans c ∖ {[ch]}) c) s s1) as (s1 & -> & H1).
  { case_decide as E.
    - destruct (reg_del_chan _ _ _ i (subs c) ch Hr) as (l & El & Hi & Hn & Hreg); [|done|].
      { by rewrite lookup_fmap, Hc. }
      unfold pupd. rewrite Hc. cbn. rewrite El. cbn. rewrite (list_del_some _ _ Hi Hn). cbn.
      eexists. split; [done|]. split; [|done..]. unfold reg_ok. simpl. by rewrite fmap_insert.
    - exists s. split; [done|]. replace (set_chans _ c) with c; [by apply becomes_id|].
      destruct c; unfold set_chans; simpl in *. f_equal. set_solver. }
  rewrite some_bind, (becomes_lookup _ _ _ _ H1), some_bind.
  destruct (then_notify i b (notice "unsubscribe" (Some ch)
    (subscriptions (set_chans (chans c ∖ {[ch]}) c))) _ _ _ H1) as (s' & -> & H').
  by exists s'.
Qed.

Lemma psub_ok i p s c :
  reg_ok s → pclients s !! i = Some c →
  ∃ s', pubsubSubscribePattern i p s = Some (if decide (p ∈ pats c) then 0 else 1, s') ∧
        becomes i (c_psub p c) s s'.
Proof.
  intros Hr Hc. unfold pubsubSubscribePattern. rewrite Hc, some_bind. cbv beta.
  assert (∃ s1, (if decide (p ∈ pats c) then Some (0, s) else
       s ← pupd i (set_pats (pats c ++ [p])) s;
       Some (1, set_ppatterns (ppatterns s ++ [(i, p)]) s)) =
       Some (if decide (p ∈ pats c) then 0 else 1, s1) ∧
       becomes i (if decide (p ∈ pats c) then c else set_pats (pats c ++ [p]) c) s s1)
    as (s1 & -> & H1).
  { case_decide as E.
    - exists s. split; [done|]. by apply becomes_id.
    - unfold pupd. rewrite Hc. cbn. eexists. split; [done|]. split; [|done..].
      unfold reg_ok. simpl. rewrite fmap_insert. unfold subs at 1. simpl.
      apply (reg_add_pat _ _ _ i (subs c)); [done| |done]. by rewrite lookup_fmap, Hc. }
  rewrite some_bind, (becomes_lookup _ _ _ _ H1), some_bind.
  destruct (then_notify i true (notice "psubscribe" (Some p) (clientSubscriptionsCount
    (if decide (p ∈ pats c) then c else set_pats (pats c ++ [p]) c))) _ _ _ H1) as (s' & -> & H').
  by exists s'.
Qed.

Lemma punsub_ok i b p s c :
  reg_ok s → pclients s !! i = Some c →
  ∃ s', pubsubUnsubscribePattern i b p s = Some (if decide (p ∈ pats c) then 1 else 0, s') ∧
        becomes i (c_punsub b p c) s s'.
Proof.
  intros Hr Hc. unfold pubsubUnsubscribePattern. rewrite Hc, some_bind. cbv beta.
  assert (∃ s1, match list_del p (pats c) with
    | Some l =>
        s ← pupd i (set_pats l) s;
        l ← list_del (i, p) (ppatterns s);
        Some (1, set_ppatterns l s)
    | None => Some (0, s)
    end = Some (if decide (p ∈ pats c) then 1 else 0, s1) ∧
    becomes i (set_pats (filter (λ q, q ≠ p) (pats c)) c) s s1) as (s1 & -> & H1).
  { case_decide as E.
    - destruct (reg_del_pat _ _ _ i (subs c) p Hr) as (Hi & Hn & Hn' & Hreg); [|done|].
      { by rewrite lookup_fmap, Hc. }
      rewrite (list_del_some _ _ E Hn'). unfold pupd. rewrite Hc. cbn.
      rewrite (list_del_some _ _ Hi Hn). cbn.
      eexists. split; [done|]. split; [|done..]. unfold reg_ok. simpl. by rewrite fmap_insert.
    - exists s. rewrite list_del_none by done. split; [done|].
      rewrite filter_keeps by (apply Forall_forall; intros q Hq ->; done).
      replace (set_pats _ c) with c by (by destruct c). by apply becomes_id. }
  rewrite some_bind, (becomes_lookup _ _ _ _ H1), some_bind.
  destruct (then_notify i b (notice "punsubscribe" (Some p)
    (subscriptions (set_pats (filter (λ q, q ≠ p) (pats c)) c))) _ _ _ H1) as (s' & -> & H').
  by exists s'.
Qed.

(** ** The loops *)
Fixpoint c_count (g : bytes → pclient → pclient) (rf : bytes → pclient → Z) (l : list bytes)
    (n : Z) (c : pclient) : Z :=
  match l with
  | [] => n
  | x :: l => c_count g rf l (s32 (n + rf x c)) (g x c)
  end.

Lemma each_ok i f g rf :
  (∀ x s c, reg_ok s → pclients s !! i = Some c →
     ∃ s', f x s = Some (rf x c, s') ∧ becomes i (g x c) s s') →
  ∀ l n s c, reg_ok s → pclients s !! i = Some c →
    ∃ s', each f l n s = Some (c_count g rf l n c, s') ∧ becomes i (c_each g l c) s s'.
Proof.
  intros Hf l. induction l as [|x l IH]; intros n s c Hr Hc.
  { exists s. split; [done|]. by apply becomes_id. }
  destruct (Hf x s c Hr Hc) as (s1 & E1 & H1). cbn [each]. rewrite E1, some_bind.
  destruct (IH (s32 (n + rf x c)) s1 (g x c)) as (s2 & E2 & H2);
    [by apply H1|by eapply becomes_lookup|].
  exists s2. split; [done|]. by eapply becomes_trans.
Qed.

Lemma c_count_all g rf l :
  (∀ x y c, x ≠ y → rf y (g x c) = rf y c) → NoDup l →
  ∀ n c, n = s32 n → Forall (λ x, rf x c = 1) l → c_count g rf l n c = s32 (n + zlen l).
Proof.
  intros Hne Hl. induction Hl as [|x l Hx Hl IH]; intros n c Hn H.
  { cbn [c_count length]. by rewrite Z.add_0_r. }
  apply Forall_cons in H as [Hx1 H]. cbn [c_count]. rewrite Hx1, IH.
  - rewrite length_cons. wrap_lia.
  - wrap_lia.
  - rewrite Forall_forall in *. intros y Hy. rewrite Hne; [by apply H|]. by intros ->.
Qed.

Lemma unsub_keeps b x y c :
  x ≠ y → (if decide (y ∈ chans (c_unsub b x c)) then 1 else 0) =
          (if decide (y ∈ chans c) then 1 else 0) :> Z.
Proof.
  intros N. assert (y ∈ chans (c_unsub b x c) ↔ y ∈ chans c).
  { unfold c_unsub. destruct b; simpl; set_solver. }
  by apply decide_ext.
Qed.

Lemma punsub_keeps b x y c :
  x ≠ y → (if decide (y ∈ pats (c_punsub b x c)) then 1 else 0) =
          (if decide (y ∈ pats c) then 1 else 0) :> Z.
Proof.
  intros N. assert (y ∈ pats (c_punsub b x c) ↔ y ∈ pats c).
  { unfold c_punsub. destruct b; simpl; rewrite list_elem_of_filter; naive_solver. }
  by apply decide_ext.
Qed.

(** A walk that notifies says so when there was nothing to leave. *)
Definition c_walked (notify : bool) (name : string) (l : list bytes) (c : pclient) : pclient :=
  if notify then c_nothing name l c else c.

Lemma unsub_all_ok i b order s c :
  reg_ok s → pclients s !! i = Some c → order ≡ₚ elements (chans c) →
  ∃ s', pubsubUnsubscribeAllChannels i b order s = Some (s32 (zlen order), s') ∧
        becomes i (c_walked b "unsubscribe" order (c_each (c_unsub b) order c)) s s'.
Proof.
  intros Hr Hc Ho. unfold pubsubUnsubscribeAllChannels.
  destruct (each_ok i _ _ _ (unsub_ok i b) order 0 s c Hr Hc) as (s1 & -> & H1).
  rewrite c_count_all; first last.
  { apply Forall_forall. intros x. rewrite Ho, elem_of_elements. intros. by rewrite decide_True. }
  { done. } { rewrite Ho. apply NoDup_elements. } { apply unsub_keeps. }
  rewrite some_bind. cbv beta iota. rewrite (becomes_lookup _ _ _ _ H1), some_bind, Z.add_0_l.
  destruct (then_notify i (b && (s32 (zlen order) =? 0)) (notice "unsubscribe" None
    (subscriptions (c_each (c_unsub b) order c))) _ _ _ H1) as (s' & -> & H').
  exists s'. split; [done|]. unfold c_walked, c_nothing. by destruct b.
Qed.

Lemma reg_pats_nodup s i c : reg_ok s → pclients s !! i = Some c → NoDup (pats c).
Proof.
  intros [_ _ Hp _ Hn] Hc. specialize (Hp i (subs c)). rewrite lookup_fmap, Hc in Hp.
  change (pats c) with ((subs c).2). rewrite <- Hp by done.
  apply NoDup_fmap_2_strong; [|by apply NoDup_filter].
  intros [a q] [d r] [E1 _]%list_elem_of_filter [E2 _]%list_elem_of_filter. simpl in *. congruence.
Qed.

Lemma punsub_all_ok i b s c :
  reg_ok s → pclients s !! i = Some c →
  ∃ s', pubsubUnsubscribeAllPatterns i b s = Some (s32 (zlen (pats c)), s') ∧
        becomes i (c_walked b "punsubscribe" (pats c) (c_each (c_punsub b) (pats c) c)) s s'.
Proof.
  intros Hr Hc. unfold pubsubUnsubscribeAllPatterns. rewrite Hc, some_bind.
  destruct (each_ok i _ _ _ (punsub_ok i b) (pats c) 0 s c Hr Hc) as (s1 & -> & H1).
  rewrite c_count_all; first last.
  { apply Forall_forall. intros x Hx. by rewrite decide_True. }
  { done. } { by eapply reg_pats_nodup. } { apply punsub_keeps. }
  rewrite some_bind. cbv beta iota. rewrite (becomes_lookup _ _ _ _ H1), some_bind, Z.add_0_l.
  destruct (then_notify i (b && (s32 (zlen (pats c)) =? 0)) (notice "punsubscribe" None
    (subscriptions (c_each (c_punsub b) (pats c) c))) _ _ _ H1) as (s' & -> & H').
  exists s'. split; [done|]. unfold c_walked, c_nothing. by destruct b.
Qed.

(** ** The commands on one client *)
Lemma clear_subs c : subs (clear_pubsub c) = subs c.
Proof. unfold clear_pubsub. by destruct (_ =? _). Qed.

Lemma subscribe_ok i args s c :
  reg_ok s → pclients s !! i = Some c →
  ∃ s', subscribeCommand i args s = Some s' ∧ becomes i (set_pubsub (c_each c_sub args c)) s s'.
Proof.
  intros Hr Hc. unfold subscribeCommand.
  destruct (each_ok i _ _ _ (sub_ok i) args 0 s c Hr Hc) as (s1 & -> & H1).
  rewrite some_bind. by apply then_upd.
Qed.

Lemma psubscribe_ok i args s c :
  reg_ok s → pclients s !! i = Some c →
  ∃ s', psubscribeCommand i args s = Some s' ∧ becomes i (set_pubsub (c_each c_psub args c)) s s'.
Proof.
  intros Hr Hc. unfold psubscribeCommand.
  destruct (each_ok i _ _ _ (psub_ok i) args 0 s c Hr Hc) as (s1 & -> & H1).
  rewrite some_bind. by apply then_upd.
Qed.

Lemma unsubscribe_ok i args order s c :
  reg_ok s → pclients s !! i = Some c → (args = [] → order ≡ₚ elements (chans c)) →
  ∃ s', unsubscribeCommand i args order s = Some s' ∧
    becomes i (clear_pubsub match args with
                            | [] => c_nothing "unsubscribe" order (c_each (c_unsub true) order c)
                            | _ => c_each (c_unsub true) args c
                            end) s s'.
Proof.
  intros Hr Hc Ho. unfold unsubscribeCommand. destruct args as [|x args].
  - destruct (unsub_all_ok i true order s c) as (s1 & -> & H1); [done|done|by apply Ho|].
    rewrite some_bind. apply then_upd; [done|apply clear_subs].
  - destruct (each_ok i _ _ _ (unsub_ok i true) (x :: args) 0 s c Hr Hc) as (s1 & -> & H1).
    rewrite some_bind. apply then_upd; [done|apply clear_subs].
Qed.

Lemma punsubscribe_ok i args s c :
  reg_ok s → pclients s !! i = Some c →
  ∃ s', punsubscribeCommand i args s = Some s' ∧
    becomes i (clear_pubsub match args with
                            | [] => c_nothing "punsubscribe" (pats c) (c_each (c_punsub true) (pats c) c)
                            | _ => c_each (c_punsub true) args c
                            end) s s'.
Proof.
  intros Hr Hc. unfold punsubscribeCommand. destruct args as [|x args].
  - destruct (punsub_all_ok i true s c) as (s1 & -> & H1); [done|done|].
    rewrite some_bind. apply then_upd; [done|apply clear_subs].
  - destruct (each_ok i _ _ _ (punsub_ok i true) (x :: args) 0 s c Hr Hc) as (s1 & -> & H1).
    rewrite some_bind. apply then_upd; [done|apply clear_subs].
Qed.

(** ** Clients that come and go *)
Lemma unsub_each_subs b l : ∀ c, subs (c_each (c_unsub b) l c) = (chans c ∖ list_to_set l, pats c).
Proof.
  induction l as [|x l IH]; intros c; cbn [c_each foldl].
  - unfold subs. f_equal. set_solver.
  - unfold c_each in IH. rewrite IH. unfold c_unsub. destruct b; simpl; f_equal; set_solver.
Qed.

Lemma punsub_each_subs b l : ∀ c, subs (c_each (c_punsub b) l c) = (chans c, filter (λ p, p ∉ l) (pats c)).
Proof.
  induction l as [|x l IH]; intros c; cbn [c_each foldl].
  - unfold subs. f_equal. rewrite filter_keeps; [done|]. apply Forall_forall. set_solver.
  - unfold c_each in IH. rewrite IH. unfold c_punsub.
    destruct b; simpl; f_equal; rewrite list_filter_filter; apply list_filter_iff; set_solver.
Qed.

Lemma walked_subs b name l c : subs (c_walked b name l c) = subs c.
Proof. unfold c_walked, c_nothing. destruct b; [|done]. by destruct (_ =? _). Qed.

Lemma reg_new m chs ps i :
  registry m chs ps → m !! i = None → registry (<[i := (∅, [])]> m) chs ps.
Proof.
  intros [Hl Hs Hp Ho Hn] Hi. split; [done| | | |done].
  - intros j ch. rewrite Hs. destruct (decide (i = j)) as [<-|N].
    + rewrite lookup_insert_eq, Hi. split; [by intros (? & ? & _)|].
      intros (? & [= <-] & H). set_solver.
    + by rewrite lookup_insert_ne.
  - intros j c. rewrite lookup_insert_Some. intros [[<- <-]|[_ H]]; [|by apply Hp].
    rewrite filter_drops; [done|]. apply Forall_forall. intros [k p] Hk E. simpl in E. subst k.
    destruct (Ho _ _ Hk). congruence.
  - intros j p H. apply lookup_insert_is_Some'. right. by eapply Ho.
Qed.

Lemma reg_gone m chs ps i :
  registry m chs ps → m !! i = Some (∅, []) → registry (delete i m) chs ps.
Proof.
  intros Hr Hi. assert (∀ p, (i, p) ∈ ps ↔ p ∈ []) as Hin by (intros p; by apply (reg_pats_in _ _ _ _ _ p Hr Hi)). destruct Hr as [Hl Hs Hp Ho Hn].
  split; [done| | | |done].
  - intros j ch. rewrite Hs. destruct (decide (i = j)) as [<-|N].
    + rewrite lookup_delete_eq, Hi. split; [|by intros (? & ? & _)].
      intros (? & [= <-] & H). set_solver.
    + by rewrite lookup_delete_ne.
  - intros j c [_ H]%lookup_delete_Some. by apply Hp.
  - intros j p H. destruct (decide (i = j)) as [<-|N]; [|rewrite lookup_delete_ne by done; by eapply Ho].
    apply Hin in H. set_solver.
Qed.

Lemma free_ok i order s c :
  reg_ok s → pclients s !! i = Some c → order ≡ₚ elements (chans c) →
  ∃ s', freeClient i order s = Some s' ∧ reg_ok s' ∧ pclients s' = delete i (pclients s) ∧
    cluster_enabled s' = cluster_enabled s ∧ bus s' = bus s.
Proof.
  intros Hr Hc Ho. unfold freeClient.
  destruct (unsub_all_ok i false order s c Hr Hc Ho) as (s1 & -> & H1). rewrite some_bind.
  destruct (punsub_all_ok i false s1 _ (bc_reg _ _ _ _ H1) (becomes_lookup _ _ _ _ H1))
    as (s2 & -> & H2). rewrite some_bind.
  pose proof (becomes_lookup _ _ _ _ H2) as L2. destruct H2 as [R2 E2 F2 G2], H1 as [R1 E1 F1 G1].
  eexists. split; [done|]. split; [|split; [|split; simpl; congruence]].
  - unfold reg_ok. simpl. rewrite fmap_delete. apply reg_gone; [done|].
    rewrite lookup_fmap, L2. simpl. f_equal. unfold c_walked.
    rewrite punsub_each_subs. change (chans ?c, ?x) with ((subs c).1, x).
    rewrite unsub_each_subs. simpl. f_equal.
    + rewrite Ho. apply set_eq. intros x. rewrite elem_of_difference, elem_of_list_to_set, elem_of_elements.
      set_solver.
    + apply filter_drops, Forall_forall. intros p Hp Hn. done.
  - simpl. rewrite E2, E1. by rewrite !delete_insert_eq.
Qed.

(** ** Publishing *)
Definition posts (q : list (cid * list item)) (m : gmap cid pclient) : gmap cid pclient :=
  foldl (λ m x, alter (say x.2) x.1 m) m q.

Lemma say_say l1 l2 c : say l2 (say l1 c) = say (l1 ++ l2) c.
Proof. unfold say. simpl. by rewrite app_assoc. Qed.

Lemma posts_lookup q : ∀ m i, posts q m !! i = say (concat (filter (λ x, x.1 = i) q).*2) <$> m !! i.
Proof.
  induction q as [|[j l] q IH]; intros m i; cbn [posts foldl].
  { destruct (m !! i) as [[]|]; [|done]. simpl. unfold say. simpl. by rewrite app_nil_r. }
  unfold posts in IH. rewrite IH. simpl. destruct (decide (j = i)) as [->|N].
  - rewrite lookup_alter_eq, filter_cons_True by done. simpl.
    destruct (m !! i); [|done]. simpl. by rewrite say_say.
  - by rewrite lookup_alter_ne, filter_cons_False.
Qed.

Lemma posts_is_some q m i : is_Some (m !! i) → is_Some (posts q m !! i).
Proof. rewrite posts_lookup. by intros [c ->]. Qed.

Lemma add_replies i l s :
  is_Some (pclients s !! i) → addReplies i l s = Some (set_pclients (alter (say l) i (pclients s)) s).
Proof.
  intros [c Hc]. unfold addReplies, pupd. rewrite Hc. cbn. do 2 f_equal.
  apply map_eq. intros j. destruct (decide (i = j)) as [<-|N].
  - by rewrite lookup_insert_eq, lookup_alter_eq, Hc.
  - by rewrite lookup_insert_ne, lookup_alter_ne.
Qed.

Lemma publish_clients_ok ch msg l : ∀ n s,
  n = s32 n → Forall (λ i, is_Some (pclients s !! i)) l →
  publish_clients l ch msg n s =
    Some (s32 (n + zlen l), set_pclients (posts ((λ i, (i, message ch msg)) <$> l) (pclients s)) s).
Proof.
  induction l as [|i l IH]; intros n s Hn Hl; cbn [publish_clients].
  { cbn. rewrite Z.add_0_r, <- Hn. by destruct s. }
  apply Forall_cons in Hl as [Hi Hl]. rewrite add_replies, some_bind, IH by
    (done || wrap_lia || (eapply Forall_impl; [done|]; intros; by apply lookup_alter_is_Some)).
  f_equal. f_equal. rewrite length_cons. wrap_lia.
Qed.

Lemma publish_patterns_ok ch msg l : ∀ n s,
  n = s32 n → Forall (λ ip, is_Some (pclients s !! ip.1) ∧ matchable ip.2 ch) l →
  let l' := filter (λ ip, matches ch ip.2 = true) l in
  publish_patterns l ch msg n s =
    Some (s32 (n + zlen l'),
          set_pclients (posts ((λ ip, (ip.1, pmessage ip.2 ch msg)) <$> l') (pclients s)) s).
Proof.
  induction l as [|[i p] l IH]; intros n s Hn Hl l'; cbn [publish_patterns].
  { cbn. rewrite Z.add_0_r, <- Hn. by destruct s. }
  apply Forall_cons in Hl as [[Hi [b Hb]] Hl]. simpl in Hi, Hb. unfold l'.
  assert (matches ch p = b) as Hm by (unfold matches; by rewrite Hb). rewrite Hb. destruct b.
  - rewrite filter_cons_True by done. rewrite add_replies, some_bind, IH; [|wrap_lia| |done].
    + f_equal. f_equal. rewrite length_cons. wrap_lia.
    + eapply Forall_impl; [done|]. intros [j q] [??]. split; [|done]. by apply lookup_alter_is_Some.
  - rewrite filter_cons_False by (simpl; congruence). by rewrite IH.
Qed.

(** Counting over all clients. *)
Lemma total_bind {A} f (h : cid * pclient → list A) m l :
  (∀ ic, zlen (h ic) = f ic.2) → l ≡ₚ map_to_list m ≫= h → total f m = zlen l.
Proof.
  intros Hh ->. unfold total. induction (map_to_list m) as [|ic q IH]; [done|].
  cbn [foldr mbind list_bind]. rewrite length_app, <- Hh, IH. unfold mbind. lia.
Qed.

Lemma total_add f g m : total (λ c, f c + g c) m = total f m + total g m.
Proof. unfold total. induction (map_to_list m) as [|ic q IH]; cbn [foldr]; lia. Qed.

(** A walk over the clients that lists pairs tagged with the client has no
    duplicates. *)
Lemma nodup_by_client {A} (m : gmap cid pclient) (h : pclient → list A) :
  (∀ i c, m !! i = Some c → NoDup (h c)) →
  NoDup (map_to_list m ≫= λ ic, (ic.1,.) <$> h ic.2).
Proof.
  intros Hh. apply NoDup_bind.
  - intros [i c] [j d] [k x] Hi Hj [? [E1 _]]%list_elem_of_fmap [? [E2 _]]%list_elem_of_fmap.
    simplify_eq/=. apply elem_of_map_to_list in Hi, Hj. congruence.
  - intros [i c] Hi%elem_of_map_to_list. apply (NoDup_fmap_2 _), (Hh i). done.
  - apply NoDup_map_to_list.
Qed.

Lemma total_subscribers s ch :
  reg_ok s → numsub (pclients s) ch = zlen (default [] (pchannels s !! ch)).
Proof.
  intros Hr. unfold numsub.
  set (h := λ c : pclient, if decide (ch ∈ chans c) then [()] else []).
  rewrite (total_bind _ (λ ic, (ic.1,.) <$> h ic.2) _ ((λ i, (i, ())) <$> default [] (pchannels s !! ch))).
  - by rewrite length_fmap.
  - intros [i c]. unfold h. simpl. by case_decide.
  - apply NoDup_Permutation.
    + apply (NoDup_fmap_2 _). destruct (pchannels s !! ch) eqn:E; [|constructor]. simpl.
      by destruct (ro_list _ _ _ Hr _ _ E).
    + apply nodup_by_client. intros i c _. unfold h. case_decide; [apply NoDup_singleton|constructor].
    + intros [i []]. rewrite list_elem_of_fmap, list_elem_of_bind. pose proof (ro_sub _ _ _ Hr i ch) as Hs.
      rewrite lookup_fmap in Hs. split.
      * intros (j & [= <-] & Hi). destruct (pchannels s !! ch) as [l|]; [|by apply not_elem_of_nil in Hi].
        destruct (proj1 Hs) as (sc & E & Hc); [by eauto|].
        apply fmap_Some in E as (c & Ec & ->). exists (i, c). rewrite elem_of_map_to_list. split; [|done].
        unfold h. simpl in *. rewrite decide_True by done. by apply list_elem_of_singleton.
      * intros ([j c] & (u & [= <-] & Hu)%list_elem_of_fmap & Hj%elem_of_map_to_list). simpl in *.
        unfold h in Hu. case_decide as Hch; [|by apply not_elem_of_nil in Hu].
        destruct (proj2 Hs) as (l & -> & Hl); [|by exists i]. rewrite Hj. by exists (subs c).
Qed.

Lemma total_patterns s (Q : bytes → bool) :
  reg_ok s →
  total (λ c, zlen (filter (λ p, Q p = true) (pats c))) (pclients s) =
  zlen (filter (λ ip, Q ip.2 = true) (ppatterns s)).
Proof.
  intros Hr.
  apply (total_bind _ (λ ic, (ic.1,.) <$> filter (λ p, Q p = true) (pats ic.2))).
  { intros [i c]. by rewrite length_fmap. }
  apply NoDup_Permutation.
  - apply NoDup_filter, (ro_nodup _ _ _ Hr).
  - apply (nodup_by_client _ (λ c, filter (λ p, Q p = true) (pats c))).
    intros i c Hc. eapply NoDup_filter, reg_pats_nodup; done.
  - intros [i p]. rewrite list_elem_of_filter, list_elem_of_bind. split.
    + intros [HQ Hin]. pose proof (ro_own _ _ _ Hr _ _ Hin) as [sc E].
      rewrite lookup_fmap in E. apply fmap_Some in E as (c & Ec & _). exists (i, c).
      rewrite elem_of_map_to_list, list_elem_of_fmap. split; [|done]. exists p. split; [done|].
      rewrite list_elem_of_filter. split; [done|].
      apply (reg_pats_in _ _ _ i (subs c) p Hr); [|done]. by rewrite lookup_fmap, Ec.
    + intros ([j c] & (q & [= <- <-] & [HQ Hq]%list_elem_of_filter)%list_elem_of_fmap & Hj%elem_of_map_to_list).
      split; [done|]. apply (reg_pats_in _ _ _ i (subs c) p Hr); [|done]. simpl in *. by rewrite lookup_fmap, Hj.
Qed.

Lemma posted_messages i l (x : list item) :
  NoDup l →
  concat (filter (λ y, y.1 = i) ((λ i : cid, (i, x)) <$> l)).*2 = if decide (i ∈ l) then x else [].
Proof.
  induction 1 as [|j l Hj Hl IH]; [done|]. rewrite fmap_cons.
  destruct (decide (j = i)) as [->|N].
  - rewrite filter_cons_True by done. cbn. rewrite IH, decide_False by done.
    rewrite decide_True by (by left). apply app_nil_r.
  - rewrite filter_cons_False by done. rewrite IH. apply decide_ext. set_solver.
Qed.

Lemma posted_pmessages i ps (Q : bytes → bool) (x : bytes → list item) :
  concat (filter (λ y, y.1 = i)
    ((λ ip : cid * bytes, (ip.1, x ip.2)) <$> filter (λ ip, Q ip.2 = true) ps)).*2 =
  filter (λ p, Q p = true) (filter (λ y, y.1 = i) ps).*2 ≫= x.
Proof.
  induction ps as [|[j p] ps IH]; [done|].
  destruct (decide (j = i)) as [->|N], (decide (Q p = true)) as [HQ|HQ].
  - rewrite !(filter_cons_True _ (i, p)) by done. rewrite !fmap_cons, filter_cons_True by done.
    cbn [concat fmap list_fmap snd fst]. rewrite filter_cons_True by done.
    cbn [mbind list_bind]. rewrite <- IH. done.
  - rewrite (filter_cons_False _ (i, p)), (filter_cons_True _ (i, p)) by done.
    rewrite !fmap_cons, filter_cons_False by done. apply IH.
  - rewrite (filter_cons_True _ (j, p)), (filter_cons_False (λ y, y.1 = i) (j, p)) by done.
    rewrite fmap_cons, filter_cons_False by done. apply IH.
  - by rewrite !(filter_cons_False _ (j, p)) by done.
Qed.

Lemma subscribers_ok s ch :
  reg_ok s →
  let l := default [] (pchannels s !! ch) in
  NoDup l ∧ ∀ i, i ∈ l ↔ ∃ c, pclients s !! i = Some c ∧ ch ∈ chans c.
Proof.
  intros Hr. pose proof (ro_sub _ _ _ Hr) as Hs. pose proof (ro_list _ _ _ Hr ch) as Hn.
  destruct (pchannels s !! ch) as [l|] eqn:E; simpl; (split; [first [by destruct (Hn _ eq_refl) | constructor]|]);
    intros i; specialize (Hs i ch); rewrite E, lookup_fmap in Hs; split.
  - intros Hi. destruct (proj1 Hs) as (sc & (c & Ec & ->)%fmap_Some & Hc); [by eauto|]. by exists c.
  - intros (c & Ec & Hc). destruct (proj2 Hs) as (? & [= <-] & Hi); [|done]. rewrite Ec. by exists (subs c).
  - by intros ?%not_elem_of_nil.
  - intros (c & Ec & Hc). destruct (proj2 Hs) as (? & [=] & _). rewrite Ec. by exists (subs c).
Qed.

Lemma publish_ok ch msg s :
  reg_ok s → map_Forall (λ _ c, Forall (λ p, matchable p ch) (pats c)) (pclients s) →
  pubsubPublishMessage ch msg s =
    Some (s32 (total (deliveries ch) (pclients s)), set_pclients (deliver ch msg <$> pclients s) s).
Proof.
  intros Hr Hm. destruct (subscribers_ok s ch Hr) as [Hnl Hl].
  set (l := default [] (pchannels s !! ch)) in *.
  assert (Forall (λ i, is_Some (pclients s !! i)) l) as Hal.
  { apply Forall_forall. intros i (c & -> & _)%Hl. done. }
  set (q1 := (λ i, (i, message ch msg)) <$> l). set (s1 := set_pclients (posts q1 (pclients s)) s).
  assert (match pchannels s !! ch with
          | Some l => publish_clients l ch msg 0 s
          | None => Some (0, s)
          end = Some (s32 (zlen l), s1)) as E1.
  { subst s1 q1 l. destruct (pchannels s !! ch); simpl in *; [by rewrite publish_clients_ok|by destruct s]. }
  unfold pubsubPublishMessage. rewrite E1, some_bind. cbv beta iota.
  assert (Forall (λ ip, is_Some (pclients s1 !! ip.1) ∧ matchable ip.2 ch) (ppatterns s1)) as Hp.
  { apply Forall_forall. intros [i p] Hin. simpl in *.
    destruct (ro_own _ _ _ Hr _ _ Hin) as [sc (c & <- & Ec)%lookup_fmap_Some].
    split; [apply posts_is_some; by rewrite Ec|]. specialize (Hm _ _ Ec). rewrite Forall_forall in Hm.
    apply Hm. apply (reg_pats_in _ _ _ i (subs c) p Hr); [|done]. by rewrite lookup_fmap, Ec. }
  set (ps := filter (λ ip, matches ch ip.2 = true) (ppatterns s1)).
  transitivity (Some (s32 (s32 (zlen l) + zlen ps),
    set_pclients (posts ((λ ip, (ip.1, pmessage ip.2 ch msg)) <$> ps) (pclients s1)) s1)).
  { destruct (ppatterns s1) eqn:E; cbn [length Nat.eqb]; [|apply publish_patterns_ok; [wrap_lia|done]].
    subst ps. cbn. rewrite Z.add_0_r. f_equal. f_equal. wrap_lia. }
  f_equal. f_equal.
  - unfold deliveries. rewrite total_add, total_patterns by done.
    change (total _ _) with (numsub (pclients s) ch). rewrite total_subscribers by done.
    fold l. change (zlen (filter _ (ppatterns s))) with (zlen ps). wrap_lia.
  - unfold set_pclients. f_equal. apply map_eq. intros i. rewrite posts_lookup. simpl.
    rewrite posts_lookup, lookup_fmap. destruct (pclients s !! i) as [c|] eqn:Ec; [|done]. simpl.
    f_equal. rewrite say_say. subst q1 ps. change (ppatterns s1) with (ppatterns s). rewrite posted_messages by done.
    rewrite (posted_pmessages i (ppatterns s) (matches ch) (λ p, pmessage p ch msg)).
    unfold deliver. f_equal. f_equal.
    + apply decide_ext. rewrite Hl, Ec. split; [by intros (? & [= <-] & ?)|by eexists].
    + pose proof (ro_pat _ _ _ Hr i (subs c)) as Hpat. rewrite lookup_fmap, Ec in Hpat.
      simpl in *. by rewrite Hpat.
Qed.

(** ** The server implements the machine *)
Lemma deliver_subs ch msg c : subs (deliver ch msg c) = subs c.
Proof. done. Qed.

Lemma reg_ok_deliver ch msg s : reg_ok s → reg_ok (set_pclients (deliver ch msg <$> pclients s) s).
Proof.
  unfold reg_ok. simpl. rewrite <- map_fmap_compose.
  replace (subs ∘ deliver ch msg <$> pclients s) with (subs <$> pclients s); [done|].
  by apply map_fmap_ext.
Qed.

Lemma cluster_publish_ok ch msg s :
  reg_ok s → map_Forall (λ _ c, Forall (λ p, matchable p ch) (pats c)) (pclients s) →
  cluster_publish ch msg s = Some (set_pclients (deliver ch msg <$> pclients s) s).
Proof.
  intros Hr Hm. unfold cluster_publish. rewrite publish_ok by done. case_match eqn:E; [done|].
  apply orb_false_iff in E as [E1%negb_false_iff%Nat.eqb_eq%map_size_empty_inv
    E2%negb_false_iff%Nat.eqb_eq%nil_length_inv].
  f_equal. destruct s as [m chs ps cl b]. simpl in *. subst. unfold set_pclients. simpl. f_equal.
  rewrite <- (map_fmap_id m) at 1. apply map_fmap_ext. intros i c Hc. destruct Hr as [_ Hs Hp _ _].
  simpl in *. specialize (Hs i). specialize (Hp i (subs c)). rewrite lookup_fmap, Hc in Hs, Hp.
  unfold deliver. rewrite decide_False.
  - specialize (Hp eq_refl). simpl in Hp. rewrite <- Hp. destruct c. unfold say. simpl. by rewrite app_nil_r.
  - intros Hch. destruct (proj2 (Hs ch)) as (? & ? & _); [by exists (subs c)|done].
Qed.

Lemma matching_channels_ok pat order :
  (∀ p, pat = Some p → Forall (matchable p) order) →
  matching_channels pat order =
    Some (match pat with None => order | Some p => filter (λ ch, matches ch p = true) order end).
Proof.
  intros H. induction order as [|ch order IH]; [by destruct pat|]. cbn [matching_channels].
  destruct pat as [p|]; [|by rewrite IH].
  specialize (H p eq_refl). apply Forall_cons in H as [[b Hb] H].
  assert (matches ch p = b) as Hm by (unfold matches; by rewrite Hb).
  rewrite Hb, IH by (by intros ? [= <-]). destruct b.
  - by rewrite filter_cons_True.
  - by rewrite filter_cons_False by congruence.
Qed.

Lemma pubsub_command_reply i sub rest order s :
  reg_ok s → (∀ p, head rest = Some p → Forall (matchable p) order) →
  pubsubCommand i sub rest order s =
    addReplies i (introspection (pclients s) sub rest order) s.
Proof.
  intros Hr Hm. unfold pubsubCommand, introspection.
  replace ((zlen rest + 2 =? 2) || (zlen rest + 2 =? 3)) with (length rest <=? 1)%nat; first last.
  { apply eq_true_iff_eq. rewrite orb_true_iff, !Z.eqb_eq, Nat.leb_le. lia. }
  replace (zlen rest + 2 =? 2) with (length rest =? 0)%nat; first last.
  { apply eq_true_iff_eq. rewrite Z.eqb_eq, Nat.eqb_eq. lia. }
  replace (zlen rest + 2 >=? 2) with true by (symmetry; apply Z.geb_le; lia).
  rewrite andb_true_r. destruct (strcaseeq _ (of_string "channels") && _).
  { rewrite matching_channels_ok by done. rewrite some_bind. by destruct rest. }
  destruct (strcaseeq _ (of_string "numsub")).
  { f_equal. replace (zlen rest + 2 - 2) with (zlen rest) by lia. f_equal.
    apply list_bind_ext; [|done]. intros ch. unfold numsub_reply. rewrite total_subscribers by done.
    by destruct (pchannels s !! ch). }
  destruct (_ && _); [|done]. f_equal. f_equal. f_equal.
  pose proof (total_patterns s (λ _, true) Hr) as H.
  rewrite filter_keeps in H by (by apply Forall_true). rewrite <- H.
  unfold total. induction (map_to_list (pclients s)) as [|ic q IH]; [done|]. cbn [foldr].
  rewrite IH, filter_keeps by (by apply Forall_true). done.
Qed.

Lemma becomes_alter i f c s s' :
  pclients s !! i = Some c → becomes i (f c) s s' → pclients s' = alter f i (pclients s).
Proof.
  intros Hc [_ -> _ _]. apply map_eq. intros j. destruct (decide (i = j)) as [<-|N].
  - by rewrite lookup_insert_eq, lookup_alter_eq, Hc.
  - by rewrite lookup_insert_ne, lookup_alter_ne.
Qed.

(** [s'] is what the machine makes of [s]. *)
Record follows (e : event) (s s' : pserver) : Prop := {
  fo_reg : reg_ok s';
  fo_clients : pclients s' = spec (cluster_enabled s) e (pclients s);
  fo_cluster : cluster_enabled s' = cluster_enabled s;
  fo_bus : bus s' = bus s ++ posted (cluster_enabled s) e
}.

Lemma follows_becomes e i c f s s' :
  pclients s !! i = Some c → becomes i (f c) s s' →
  spec (cluster_enabled s) e (pclients s) = alter f i (pclients s) →
  posted (cluster_enabled s) e = [] → follows e s s'.
Proof.
  intros Hc H E P. split; [apply H| |apply H|].
  - rewrite E. by eapply becomes_alter.
  - rewrite P, app_nil_r. apply H.
Qed.

Lemma publish_command_ok i ch msg s :
  reg_ok s → enabled (Publish i ch msg) (pclients s) →
  ∃ s', publishCommand i ch msg s = Some s' ∧ follows (Publish i ch msg) s s'.
Proof.
  intros Hr [[c Hc] Hm]. unfold publishCommand. rewrite publish_ok, some_bind by done. cbv beta iota.
  set (s1 := set_pclients _ s). pose proof (reg_ok_deliver ch msg s Hr : reg_ok s1) as Hr1.
  assert (pclients s1 !! i = Some (deliver ch msg c)) as Hc1 by (simpl; by rewrite lookup_fmap, Hc).
  set (n := s32 _).
  change (cluster_enabled s1) with (cluster_enabled s).
  assert (∃ s2, (if cluster_enabled s then Some (set_bus (bus s1 ++ [(ch, msg)]) s1)
                 else pupd i force_repl s1) = Some s2 ∧
          reg_ok s2 ∧ cluster_enabled s2 = cluster_enabled s ∧
          bus s2 = bus s ++ posted (cluster_enabled s) (Publish i ch msg) ∧
          pclients s2 = <[i := if cluster_enabled s then deliver ch msg c
                               else force_repl (deliver ch msg c)]> (pclients s1))
    as (s2 & -> & Hr2 & Ecl & Ebus & Em).
  { destruct (cluster_enabled s) eqn:Ec.
    - eexists. split; [done|]. simpl. by rewrite insert_id.
    - destruct (pupd_same i force_repl s1 _ Hr1 Hc1) as (s2 & -> & [? ? ? ?]); [done|]. exists s2.
      simpl in *. rewrite app_nil_r. split; [done|]. split; [done|]. split; [congruence|]. by split. }
  assert (pclients s2 !! i = Some (if cluster_enabled s then deliver ch msg c
                                   else force_repl (deliver ch msg c))) as Hc2.
  { rewrite Em. apply lookup_insert_eq. }
  rewrite some_bind.
  destruct (pupd_same i (say [IInt n]) s2 _ Hr2 Hc2 eq_refl) as (s3 & E3 & [Hr3 Em3 Ecl3 Eb3]).
  unfold addReplies. rewrite E3. exists s3. split; [done|].
  split; [done| |congruence|congruence]. rewrite Em3, Em, insert_insert_eq. cbn [spec]. fold n.
  apply map_eq. intros j. destruct (decide (i = j)) as [<-|N].
  - rewrite lookup_insert_eq, lookup_alter_eq, lookup_fmap, Hc. simpl. by destruct (cluster_enabled s).
  - by rewrite lookup_insert_ne, lookup_alter_ne.
Qed.

Lemma run_follows e s :
  reg_ok s → enabled e (pclients s) → ∃ s', run e s = Some s' ∧ follows e s s'.
Proof.
  intros Hr He.
  destruct e as [i|i order|i args|i args order|i args|i args|i ch msg|ch msg|i sub rest order]; cbn [run].
  - eexists. split; [done|]. split; [|done|done|by rewrite app_nil_r].
    unfold reg_ok, createClient. simpl. rewrite fmap_insert. apply reg_new; [done|].
    by rewrite lookup_fmap, He.
  - destruct He as (c & Hc & Ho). destruct (free_ok i order s c Hr Hc Ho) as (s' & E & ? & ? & ? & ?).
    exists s'. split; [done|]. split; [done|done|done|by rewrite app_nil_r].
  - destruct He as [[c Hc] _]. destruct (subscribe_ok i args s c Hr Hc) as (s' & E & H).
    exists s'. split; [done|]. by eapply (follows_becomes _ i c (λ c, set_pubsub (c_each c_sub args c))).
  - destruct He as (c & Hc & Ho). destruct (unsubscribe_ok i args order s c Hr Hc Ho) as (s' & E & H).
    exists s'. split; [done|]. destruct args as [|x args].
    + by eapply (follows_becomes _ i c (λ c, clear_pubsub (c_nothing "unsubscribe" order
        (c_each (c_unsub true) order c)))).
    + by eapply (follows_becomes _ i c (λ c, clear_pubsub (c_each (c_unsub true) (x :: args) c))).
  - destruct He as [[c Hc] _]. destruct (psubscribe_ok i args s c Hr Hc) as (s' & E & H).
    exists s'. split; [done|]. by eapply (follows_becomes _ i c (λ c, set_pubsub (c_each c_psub args c))).
  - destruct He as [c Hc]. destruct (punsubscribe_ok i args s c Hr Hc) as (s' & E & H).
    exists s'. split; [done|]. destruct args as [|x args].
    + by eapply (follows_becomes _ i c (λ c, clear_pubsub (c_nothing "punsubscribe" (pats c)
        (c_each (c_punsub true) (pats c) c)))).
    + by eapply (follows_becomes _ i c (λ c, clear_pubsub (c_each (c_punsub true) (x :: args) c))).
  - by apply publish_command_ok.
  - rewrite cluster_publish_ok by done. eexists. split; [done|].
    split; [by apply reg_ok_deliver|done|done|by rewrite app_nil_r].
  - destruct He as ([c Hc] & _ & _ & Hm). rewrite pubsub_command_reply by done.
    destruct (pupd_same i (say (introspection (pclients s) sub rest order)) s c Hr Hc eq_refl) as (s' & E & H).
    exists s'. split; [done|]. by eapply follows_becomes.
Qed.

(** ** The flag of subscribed clients *)
Definition flag_ok (c : pclient) : Prop :=
  has (pflags c) CLIENT_PUBSUB = negb (subscriptions c =? 0).

(** No client has as many subscriptions as an [int] cannot count. *)
Definition countable (m : gmap cid pclient) : Prop := map_Forall (λ _ c, subscriptions c < 2 ^ 31) m.

Lemma subscriptions_pos c : 0 ≤ subscriptions c.
Proof. unfold subscriptions. lia. Qed.

Lemma has_pubsub f : has f CLIENT_PUBSUB = Z.testbit f 18.
Proof. by apply flag_set. Qed.

Lemma set_pubsub_flag c : subscriptions c ≠ 0 → flag_ok (set_pubsub c).
Proof.
  intros H. unfold flag_ok. rewrite has_pubsub. cbn [set_pubsub pflags set_pflags]. rewrite Z.lor_spec.
  change (subscriptions (set_pubsub c)) with (subscriptions c). rewrite (proj2 (Z.eqb_neq _ _) H).
  change (Z.testbit CLIENT_PUBSUB 18) with true. apply orb_true_r.
Qed.

Lemma clear_pubsub_flag c :
  subscriptions c < 2 ^ 31 → (subscriptions c ≠ 0 → has (pflags c) CLIENT_PUBSUB = true) →
  flag_ok (clear_pubsub c).
Proof.
  intros Hb H. pose proof (subscriptions_pos c) as Hp. unfold flag_ok, clear_pubsub, clientSubscriptionsCount.
  assert (s32 (subscriptions c) = subscriptions c) as -> by (apply wraps_id; unfold in_s; lia). destruct (subscriptions c =? 0) eqn:E.
  - change (subscriptions (set_pflags _ c)) with (subscriptions c). rewrite has_pubsub, E. cbn [pflags set_pflags negb].
    rewrite Z.land_spec, Z.lnot_spec by lia. change (Z.testbit CLIENT_PUBSUB 18) with true. apply andb_false_r.
  - rewrite E. apply H. lia.
Qed.

Lemma c_each_flags g : (∀ x c, pflags (g x c) = pflags c) → ∀ l c, pflags (c_each g l c) = pflags c.
Proof. intros H l. induction l as [|x l IH]; intros c; [done|]. unfold c_each in *. simpl. by rewrite IH. Qed.

Lemma c_each_subs g : (∀ x c, subscriptions (g x c) ≤ subscriptions c) →
  ∀ l c, subscriptions (c_each g l c) ≤ subscriptions c.
Proof.
  intros H l. induction l as [|x l IH]; intros c; [done|]. unfold c_each in *. simpl.
  etrans; [apply IH|apply H].
Qed.

Lemma c_unsub_less b x c : subscriptions (c_unsub b x c) ≤ subscriptions c.
Proof.
  assert (size (chans c ∖ {[x]}) ≤ size (chans c))%nat by (apply subseteq_size; set_solver).
  unfold c_unsub, subscriptions. destruct b; simpl; lia.
Qed.

Lemma c_punsub_less b x c : subscriptions (c_punsub b x c) ≤ subscriptions c.
Proof.
  pose proof (length_filter (λ q, q ≠ x) (pats c)).
  unfold c_punsub, subscriptions. destruct b; simpl; lia.
Qed.

(** A command that leaves: the flags are untouched and the count does not grow. *)
Lemma leave_flag f c :
  flag_ok c → pflags (f c) = pflags c → subscriptions (f c) ≤ subscriptions c →
  subscriptions c < 2 ^ 31 → flag_ok (clear_pubsub (f c)).
Proof.
  intros H Ef Es Hb. apply clear_pubsub_flag; [lia|]. intros Hn. rewrite Ef, H.
  apply negb_true_iff, Z.eqb_neq. pose proof (subscriptions_pos (f c)). lia.
Qed.

Lemma c_sub_mono l : ∀ c ch, ch ∈ chans c ∨ ch ∈ l → ch ∈ chans (c_each c_sub l c).
Proof.
  induction l as [|x l IH]; intros c ch H; [set_solver|]. unfold c_each in *. simpl. apply IH.
  unfold c_sub. simpl. set_solver.
Qed.

Lemma c_psub_mono l : ∀ c p, p ∈ pats c ∨ p ∈ l → p ∈ pats (c_each c_psub l c).
Proof.
  induction l as [|x l IH]; intros c p H; [set_solver|]. unfold c_each in *. simpl. apply IH.
  unfold c_psub. case_decide; simpl; set_solver.
Qed.

Lemma chans_count ch c : ch ∈ chans c → subscriptions c ≠ 0.
Proof.
  intros H. unfold subscriptions. assert (size (chans c) ≠ 0%nat); [|lia].
  intros E%size_empty_inv. set_solver.
Qed.

Lemma pats_count p c : p ∈ pats c → subscriptions c ≠ 0.
Proof. intros H. unfold subscriptions. destruct (pats c); [by apply not_elem_of_nil in H|]. rewrite length_cons. lia. Qed.

Lemma nothing_flags name l c : pflags (c_nothing name l c) = pflags c ∧ subscriptions (c_nothing name l c) = subscriptions c.
Proof. unfold c_nothing. by destruct (_ =? _). Qed.

Lemma alter_forall (P : cid → pclient → Prop) f i (m : gmap cid pclient) :
  map_Forall P m → (∀ c, m !! i = Some c → P i (f c)) → map_Forall P (alter f i m).
Proof.
  intros H Hf j c. rewrite lookup_alter_Some. intros [(<- & c' & Hc & ->)|[_ Hc]]; [by apply Hf|by apply H].
Qed.

Lemma spec_flags cl e m :
  enabled e m → countable m → map_Forall (λ _, flag_ok) m → map_Forall (λ _, flag_ok) (spec cl e m).
Proof.
  intros He Hb H.
  assert (∀ ch msg, map_Forall (λ _, flag_ok) (deliver ch msg <$> m)) as Hd.
  { intros ch msg j c (c' & <- & Hc)%lookup_fmap_Some. by apply (H _ _ Hc). }
  destruct e as [i|i order|i args|i args order|i args|i args|i ch msg|ch msg|i sub rest order]; cbn [spec].
  - apply map_Forall_insert_2; [|done]. by vm_compute.
  - by apply map_Forall_delete.
  - destruct He as [_ Ha]. apply alter_forall; [done|]. intros c Hc. apply set_pubsub_flag.
    destruct args as [|x args]; [done|]. apply (chans_count x), c_sub_mono. right. by left.
  - destruct args as [|x args]; (apply alter_forall; [done|]); intros c Hc.
    + destruct (nothing_flags "unsubscribe" order (c_each (c_unsub true) order c)) as [Ef Es].
      apply (leave_flag (λ c, c_nothing "unsubscribe" order (c_each (c_unsub true) order c)));
        [by apply (H _ _ Hc)| | |by apply (Hb _ _ Hc)].
      * rewrite Ef. by apply c_each_flags.
      * rewrite Es. apply c_each_subs, c_unsub_less.
    + apply (leave_flag (c_each (c_unsub true) (x :: args)));
        [by apply (H _ _ Hc)|by apply c_each_flags|apply c_each_subs, c_unsub_less|by apply (Hb _ _ Hc)].
  - destruct He as [_ Ha]. apply alter_forall; [done|]. intros c Hc. apply set_pubsub_flag.
    destruct args as [|x args]; [done|]. apply (pats_count x), c_psub_mono. right. by left.
  - destruct args as [|x args]; (apply alter_forall; [done|]); intros c Hc.
    + destruct (nothing_flags "punsubscribe" (pats c) (c_each (c_punsub true) (pats c) c)) as [Ef Es].
      apply (leave_flag (λ c, c_nothing "punsubscribe" (pats c) (c_each (c_punsub true) (pats c) c)));
        [by apply (H _ _ Hc)| | |by apply (Hb _ _ Hc)].
      * rewrite Ef. by apply c_each_flags.
      * rewrite Es. apply c_each_subs, c_punsub_less.
    + apply (leave_flag (c_each (c_punsub true) (x :: args)));
        [by apply (H _ _ Hc)|by apply c_each_flags|apply c_each_subs, c_punsub_less|by apply (Hb _ _ Hc)].
  - apply alter_forall; [done|]. intros c Hc%Hd. destruct cl; [done|]. unfold flag_ok in *.
    rewrite has_pubsub in *. cbn [say force_repl pflags set_pflags]. rewrite Z.lor_spec, Hc. apply orb_false_r.
  - done.
  - apply alter_forall; [done|]. intros c Hc. by apply (H _ _ Hc).
Qed.

(** ** Reachable states *)
Inductive reachable : pserver → Prop :=
  | reach_init cl : reachable (PServer ∅ ∅ [] cl [])
  | reach_step s e s' :
      reachable s → enabled e (pclients s) → run e s = Some s' → countable (pclients s') → reachable s'.

Lemma reachable_ok s :
  reachable s → reg_ok s ∧ countable (pclients s) ∧ map_Forall (λ _, flag_ok) (pclients s).
Proof.
  induction 1 as [cl|s e s' _ (Hr & Hb & Hf) He Hrun Hb'].
  - split; [|split; apply map_Forall_empty]. split; simpl; try done.
    + intros i ch. rewrite fmap_empty. split; by intros (? & ? & _).
    + by intros i p ?%not_elem_of_nil.
    + constructor.
  - destruct (run_follows e s Hr He) as (s'' & E & [Hr' Em _ _]). rewrite Hrun in E. injection E as <-.
    split; [done|]. split; [done|]. rewrite Em. by apply spec_flags.
Qed.

(** A history of the server: two clients, three subscriptions and a cluster. *)
Definition demo_events : list event :=
  [Connect 1; Connect 2; Subscribe 1 [of_string "news"; of_string "chat"];
   PSubscribe 2 [of_string "n*"; of_string "n?ws"]; Subscribe 2 [of_string "news"]].
Definition demo : pserver :=
  default (PServer ∅ ∅ [] true []) (foldl (λ s e, s ≫= run e) (Some (PServer ∅ ∅ [] true [])) demo_events).

Lemma demo_reachable : reachable demo.
Proof.
  assert (∀ e s s', reachable s → run e s = Some s' →
    bool_decide (map_Forall (λ _ c, subscriptions c < 2 ^ 31) (pclients s')) = true →
    enabled e (pclients s) → reachable s') as Hstep.
  { intros e s s' Hs Hrun Hb%bool_decide_eq_true He. by eapply reach_step. }
  unfold demo, demo_events. cbn [foldl].
  repeat match goal with
  | |- reachable (default _ (?x ≫= run ?e)) => eapply (Hstep e (default (PServer ∅ ∅ [] true []) x))
  end; try (by vm_compute); try apply reach_init.
  all: split; [eexists; by vm_compute|done].
Qed.

(** In every state the server can reach, the index and the clients agree:
    a channel of the index has a non-empty list of subscribers without
    duplicates, a client is in the list of a channel exactly when the channel
    is in its own set, the patterns of the server restricted to a client are
    the client's own list in the same order, no pattern belongs to a client
    that is gone; and a client carries the flag CLIENT_PUBSUB exactly while it
    has a subscription. *)
Theorem pubsub_agreement s :
  reachable s → reg_ok s ∧ map_Forall (λ _, flag_ok) (pclients s).
Proof. intros (Hr & _ & Hf)%reachable_ok. done. Qed.

Lemma pubsub_agreement_witness :
  (reg_ok demo ∧ map_Forall (λ _, flag_ok) (pclients demo)) ∧ size (pchannels demo) = 2%nat.
Proof. split; [apply (pubsub_agreement demo), demo_reachable|by vm_compute]. Defined.

(** C5: every command, connection and disconnection succeeds in every reachable
    state (no assertion fails, no dangling client is used) and does what the
    machine without an index does: to the clients, to their replies with their
    counts, and to the bus of the cluster. *)
Theorem pubsub_refines s e :
  reachable s → enabled e (pclients s) → ∃ s', run e s = Some s' ∧ follows e s s'.
Proof. intros (Hr & _ & _)%reachable_ok He. by apply run_follows. Qed.

Lemma pubsub_refines_witness :
  let order := match pclients demo !! 1%positive with Some c => elements (chans c) | None => [] end in
  length order = 2%nat ∧
  ∃ s', run (Unsubscribe 1 [] order) demo = Some s' ∧ follows (Unsubscribe 1 [] order) demo s'.
Proof.
  intros order. split; [by vm_compute|].
  apply (pubsub_refines demo); [apply demo_reachable|]. subst order.
  destruct (pclients demo !! 1%positive) as [c|] eqn:E; [|by vm_compute in E].
  exists c. split; [done|]. by intros _.
Defined.

(** A message published on a channel reaches a client once if the client is
    subscribed to the channel, then once for each of its patterns whose
    language has the channel, in the order of the subscriptions, and nobody
    else; the number of receivers is the number of the messages.  Patterns are
    of literals, [?] and [*], the channel has no NUL. *)
Theorem publish_reaches s ch msg :
  reachable s → Forall (λ c, 0 < c < 256) ch →
  map_Forall (λ _ c, Forall (Forall plain) (pats c)) (pclients s) →
  ∃ n s', pubsubPublishMessage ch msg s = Some (n, s') ∧
    pchannels s' = pchannels s ∧ ppatterns s' = ppatterns s ∧
    n = s32 (total (deliveries ch) (pclients s)) ∧
    (∀ i, pclients s !! i = None → pclients s' !! i = None) ∧
    (∀ i c, pclients s !! i = Some c →
       ∃ ps, sublist ps (pats c) ∧ (∀ p, p ∈ ps ↔ p ∈ pats c ∧ gmatch (eq_chr false) p ch) ∧
         deliveries ch c = (if decide (ch ∈ chans c) then 1 else 0) + zlen ps ∧
         pclients s' !! i =
           Some (say ((if decide (ch ∈ chans c) then message ch msg else []) ++
                      (ps ≫= λ p, pmessage p ch msg)) c)).
Proof.
  intros (Hr & _ & _)%reachable_ok Hch Hp.
  assert (∀ p, Forall plain p → answers (stringmatchlen p ch false) (gmatch (eq_chr false) p ch)) as Hans.
  { intros p H. apply (smatch_spec false (S (S (length p))) p [] ch []); [done|done|lia]. }
  rewrite publish_ok; [|done|].
  - exists (s32 (total (deliveries ch) (pclients s))), (set_pclients (deliver ch msg <$> pclients s) s).
    do 4 (split; [reflexivity|]). split.
    { intros i Hi. simpl. by rewrite lookup_fmap, Hi. }
    intros i c Hc. exists (filter (λ p, matches ch p = true) (pats c)).
    split; [apply sublist_filter|]. split; [|split; [done|simpl; by rewrite lookup_fmap, Hc]].
    intros p. rewrite list_elem_of_filter. specialize (Hp _ _ Hc). rewrite Forall_forall in Hp.
    destruct (decide (p ∈ pats c)) as [Hin|Hn]; [|tauto].
    destruct (Hans p (Hp _ Hin)) as (b & Eb & Hb). unfold matches. rewrite Eb. tauto.
  - intros i c Hc. specialize (Hp _ _ Hc). eapply Forall_impl; [exact Hp|]. intros p H.
    destruct (Hans p H) as (b & Eb & _). by exists b.
Qed.

Lemma publish_reaches_witness :
  ∃ n s', pubsubPublishMessage (of_string "news") (of_string "hi") demo = Some (n, s') ∧
    n = s32 (total (deliveries (of_string "news")) (pclients demo)) ∧ n = 4.
Proof.
  destruct (publish_reaches demo (of_string "news") (of_string "hi")) as (n & s' & E & _ & _ & Hn & _).
  - apply demo_reachable.
  - by repeat (constructor; [split; reflexivity|]).
  - apply map_Forall_to_list. by repeat (constructor || split || discriminate).
  - exists n, s'. split; [done|]. split; [done|]. rewrite Hn. by vm_compute.
Defined.

(** Nothing is left behind: when nobody is subscribed the index is empty, and
    it never names a client that is gone. *)
Lemma no_subscription_left s :
  reachable s → map_Forall (λ _ c, subscriptions c = 0) (pclients s) →
  pchannels s = ∅ ∧ ppatterns s = [].
Proof.
  intros (Hr & _ & _)%reachable_ok H0. split.
  - apply map_eq. intros ch. rewrite lookup_empty. destruct (pchannels s !! ch) as [[|i l]|] eqn:E; [| |done].
    + by destruct (ro_list _ _ _ Hr _ _ E).
    + destruct (proj1 (ro_sub _ _ _ Hr i ch)) as (? & (c & <- & Hc)%lookup_fmap_Some & Hin).
      { exists (i :: l). split; [done|by left]. }
      exfalso. by apply (chans_count ch c Hin), (H0 _ _ Hc).
  - destruct (ppatterns s) as [|[i p] ps] eqn:E; [done|]. exfalso.
    assert ((i, p) ∈ ppatterns s) as Hin by (rewrite E; by left).
    destruct (ro_own _ _ _ Hr _ _ Hin) as [? (c & <- & Hc)%lookup_fmap_Some].
    apply (pats_count p c), (H0 _ _ Hc).
    apply (reg_pats_in _ _ _ i (subs c) p Hr); [by rewrite lookup_fmap, Hc|done].
Qed.
