(* ===== verification/RbTree.v ===== *)
(** * Red-black trees ([project/common/src/rbtree.cpp])

    The tree is a heap of nodes with pointers to children and parents, as in
    the code: [heap] maps addresses to nodes and [NULL] is [None].  One
    definition per method of [RBTree]; [None] is a failed [assert] or the use
    of a null pointer, and loops have fuel, the number of nodes in the heap.
    The comparison function is a parameter.

    The proofs go through trees with addresses ([tree]) and zippers: [R s t]
    says that the heap of [s] holds the tree [t].  Rotations, colours and
    replacements are shown once to do to a zipper what they do to the heap;
    the cases of insertion and deletion are then computations on zippers. *)

From S2P Require Import Prelude.

Abbreviation addr := positive.

Inductive color := RED | BLACK.
#[export] Instance color_eq_dec : EqDecision color.
Proof. solve_decision. Defined.

(** [compare_int], on the integers the pointers hold. *)
Definition compare_int (left right : Z) : Z :=
  if left <? right then -1 else if left >? right then 1 else 0.

#[export] Instance compare_int_total : TotalCompare compare_int.
Proof.
  split; unfold compare_int; intros *; repeat case_match; lia.
Qed.

Section rb.
Context {K V : Type} (compare : K → K → Z).

Record node := mk_node {
  ncolor : color; key : K; value : V;
  left : option addr; right : option addr; parent : option addr }.

Record rbtree := mk_t { heap : gmap addr node; root : option addr }.

(** [n->field = x]. *)
Definition upd (s : rbtree) (p : addr) (f : node → node) : option rbtree :=
  _ ← heap s !! p; Some (mk_t (alter f p (heap s)) (root s)).
Definition with_color (c : color) (n : node) : node :=
  mk_node c (key n) (value n) (left n) (right n) (parent n).
Definition with_value (v : V) (n : node) : node :=
  mk_node (ncolor n) (key n) v (left n) (right n) (parent n).
Definition with_key (k : K) (n : node) : node :=
  mk_node (ncolor n) k (value n) (left n) (right n) (parent n).
Definition with_left (p : option addr) (n : node) : node :=
  mk_node (ncolor n) (key n) (value n) p (right n) (parent n).
Definition with_right (p : option addr) (n : node) : node :=
  mk_node (ncolor n) (key n) (value n) (left n) p (parent n).
Definition with_parent (p : option addr) (n : node) : node :=
  mk_node (ncolor n) (key n) (value n) (left n) (right n) p.
Definition set_color (s : rbtree) (p : addr) (c : color) : option rbtree := upd s p (with_color c).
Definition set_left (s : rbtree) (p : addr) (x : option addr) : option rbtree := upd s p (with_left x).
Definition set_right (s : rbtree) (p : addr) (x : option addr) : option rbtree := upd s p (with_right x).
Definition set_parent (s : rbtree) (p : addr) (x : option addr) : option rbtree := upd s p (with_parent x).

(** ** Neighbours *)
Definition parent_of (s : rbtree) (n : addr) : option addr := x ← heap s !! n; parent x.

Definition grandparent (s : rbtree) (n : addr) : option addr :=
  p ← parent_of s n; parent_of s p.

(** The result may be [NULL]. *)
Definition sibling (s : rbtree) (n : addr) : option (option addr) :=
  p ← parent_of s n;
  x ← heap s !! p;
  Some (if bool_decide (Some n = left x) then right x else left x).

Definition uncle (s : rbtree) (n : addr) : option (option addr) :=
  p ← parent_of s n; _ ← parent_of s p; sibling s p.

Definition node_color (s : rbtree) (n : option addr) : option color :=
  match n with None => Some BLACK | Some p => x ← heap s !! p; Some (ncolor x) end.

(** ** The verification of the properties *)

Fixpoint verify_property_1 (fuel : nat) (s : rbtree) (n : option addr) : option unit :=
  match fuel with
  | O => None
  | S fuel =>
      c ← node_color s n;
      if bool_decide (c = RED ∨ c = BLACK) then
        match n with
        | None => Some tt
        | Some p => x ← heap s !! p; _ ← verify_property_1 fuel s (left x); verify_property_1 fuel s (right x)
        end
      else None
  end.

Definition verify_property_2 (s : rbtree) (n : option addr) : option unit :=
  c ← node_color s n; if bool_decide (c = BLACK) then Some tt else None.

(** [assert (node_color(n) == BLACK)]. *)
Definition assert_black (s : rbtree) (n : option addr) : option unit :=
  c ← node_color s n; if bool_decide (c = BLACK) then Some tt else None.

Fixpoint verify_property_4 (fuel : nat) (s : rbtree) (n : option addr) : option unit :=
  match fuel with
  | O => None
  | S fuel =>
      c ← node_color s n;
      match n with
      | None => if bool_decide (c = RED) then None else Some tt
      | Some p =>
          x ← heap s !! p;
          _ ← (if bool_decide (c = RED) then
                 _ ← assert_black s (left x); _ ← assert_black s (right x); assert_black s (parent x)
               else Some tt);
          _ ← verify_property_4 fuel s (left x); verify_property_4 fuel s (right x)
      end
  end.

(** The helper returns the value of [*path_black_count]. *)
Fixpoint verify_property_5_helper (fuel : nat) (s : rbtree) (n : option addr)
    (black_count path_black_count : Z) : option Z :=
  match fuel with
  | O => None
  | S fuel =>
      c ← node_color s n;
      let black_count := if bool_decide (c = BLACK) then black_count + 1 else black_count in
      match n with
      | None =>
          if path_black_count =? -1 then Some black_count
          else if black_count =? path_black_count then Some path_black_count else None
      | Some p =>
          x ← heap s !! p;
          path_black_count ← verify_property_5_helper fuel s (left x) black_count path_black_count;
          verify_property_5_helper fuel s (right x) black_count path_black_count
      end
  end.

Definition verify_property_5 (fuel : nat) (s : rbtree) (n : option addr) : option unit :=
  _ ← verify_property_5_helper fuel s n 0 (-1); Some tt.

Definition fuel_of (s : rbtree) : nat := S (size (heap s)).

Definition verify_properties (s : rbtree) : option unit :=
  _ ← verify_property_1 (fuel_of s) s (root s);
  _ ← verify_property_2 s (root s);
  _ ← verify_property_4 (fuel_of s) s (root s);
  verify_property_5 (fuel_of s) s (root s).

(** ** Creation and lookup *)

Definition rbtree_create (h : gmap addr node) : option rbtree :=
  let t := mk_t h None in _ ← verify_properties t; Some t.

(** [new_node] with the default colour and children, in the memory [p]. *)
Definition new_node (s : rbtree) (k : K) (v : V) (p : addr) : rbtree :=
  mk_t (<[p := mk_node RED k v None None None]> (heap s)) (root s).

Fixpoint lookup_loop (fuel : nat) (s : rbtree) (k : K) (n : option addr) : option (option addr) :=
  match n with
  | None => Some None
  | Some p =>
      match fuel with
      | O => None
      | S fuel =>
          x ← heap s !! p;
          let comp_result := compare k (key x) in
          if comp_result =? 0 then Some (Some p)
          else if comp_result <? 0 then lookup_loop fuel s k (left x)
          else lookup_loop fuel s k (right x)
      end
  end.
Definition lookup_node (s : rbtree) (k : K) : option (option addr) :=
  lookup_loop (fuel_of s) s k (root s).

(** The inner option is [NULL]. *)
Definition rbtree_lookup (s : rbtree) (k : K) : option (option V) :=
  n ← lookup_node s k;
  match n with None => Some None | Some p => x ← heap s !! p; Some (Some (value x)) end.

(** ** Rotations *)

Definition replace_node (s : rbtree) (oldn : addr) (newn : option addr) : option rbtree :=
  x ← heap s !! oldn;
  s ← match parent x with
      | None => Some (mk_t (heap s) newn)
      | Some q =>
          y ← heap s !! q;
          if bool_decide (Some oldn = left y) then set_left s q newn else set_right s q newn
      end;
  match newn with
  | None => Some s
  | Some m => x ← heap s !! oldn; set_parent s m (parent x)
  end.

Definition rotate_left (s : rbtree) (n : addr) : option rbtree :=
  x ← heap s !! n;
  r ← right x;
  s ← replace_node s n (Some r);
  y ← heap s !! r;
  s ← set_right s n (left y);
  s ← match left y with None => Some s | Some q => set_parent s q (Some n) end;
  s ← set_left s r (Some n);
  set_parent s n (Some r).

Definition rotate_right (s : rbtree) (n : addr) : option rbtree :=
  x ← heap s !! n;
  l ← left x;
  s ← replace_node s n (Some l);
  y ← heap s !! l;
  s ← set_left s n (right y);
  s ← match right y with None => Some s | Some q => set_parent s q (Some n) end;
  s ← set_right s l (Some n);
  set_parent s n (Some l).

(** ** Insertion *)

Definition insert_case5 (s : rbtree) (n : addr) : option rbtree :=
  p ← parent_of s n;
  s ← set_color s p BLACK;
  g ← grandparent s n;
  s ← set_color s g RED;
  xp ← heap s !! p;
  xg ← heap s !! g;
  if bool_decide (Some n = left xp) && bool_decide (Some p = left xg) then rotate_right s g
  else if bool_decide (Some n = right xp) && bool_decide (Some p = right xg) then rotate_left s g
  else None.

Definition insert_case4 (s : rbtree) (n : addr) : option rbtree :=
  p ← parent_of s n;
  xp ← heap s !! p;
  g ← grandparent s n;
  xg ← heap s !! g;
  if bool_decide (Some n = right xp) && bool_decide (Some p = left xg) then
    s ← rotate_left s p;
    xn ← heap s !! n; n ← left xn;
    insert_case5 s n
  else if bool_decide (Some n = left xp) && bool_decide (Some p = right xg) then
    s ← rotate_right s p;
    xn ← heap s !! n; n ← right xn;
    insert_case5 s n
  else insert_case5 s n.

Fixpoint insert_case1 (fuel : nat) (s : rbtree) (n : addr) : option rbtree :=
  match fuel with
  | O => None
  | S fuel =>
      xn ← heap s !! n;
      match parent xn with
      | None => set_color s n BLACK
      | Some p =>
          (* insert_case2 *)
          c ← node_color s (Some p);
          if bool_decide (c = BLACK) then Some s else
          (* insert_case3 *)
          u ← uncle s n;
          cu ← node_color s u;
          if bool_decide (cu = RED) then
            s ← set_color s p BLACK;
            u ← uncle s n; u ← u;
            s ← set_color s u BLACK;
            g ← grandparent s n;
            s ← set_color s g RED;
            g ← grandparent s n;
            insert_case1 fuel s g
          else insert_case4 s n
      end
  end.

(** The [while] loop of [rbtree_insert]: the state, and the node below which
    [ins] was linked or [None] when the key was there. *)
Fixpoint insert_loop (fuel : nat) (s : rbtree) (ins n : addr) (k : K) (v : V)
  : option (rbtree * option addr) :=
  match fuel with
  | O => None
  | S fuel =>
      x ← heap s !! n;
      let comp_result := compare k (key x) in
      if comp_result =? 0 then s ← upd s n (with_value v); Some (s, None)
      else if comp_result <? 0 then
        match left x with
        | None => s ← set_left s n (Some ins); Some (s, Some n)
        | Some m => insert_loop fuel s ins m k v
        end
      else
        match right x with
        | None => s ← set_right s n (Some ins); Some (s, Some n)
        | Some m => insert_loop fuel s ins m k v
        end
  end.

Definition rbtree_insert (s : rbtree) (ins : addr) : option rbtree :=
  xi ← heap s !! ins;
  '(s, stop) ←
    match root s with
    | None => Some (mk_t (heap s) (Some ins), false)
    | Some r =>
        '(s, n) ← insert_loop (fuel_of s) s ins r (key xi) (value xi);
        match n with
        | None => Some (s, true)
        | Some n => s ← set_parent s ins (Some n); Some (s, false)
        end
    end;
  if stop : bool then Some s else
  s ← insert_case1 (fuel_of s) s ins;
  _ ← verify_properties s;
  Some s.

(** ** Deletion *)

Fixpoint maximum_node (fuel : nat) (s : rbtree) (n : addr) : option addr :=
  match fuel with
  | O => None
  | S fuel =>
      x ← heap s !! n;
      match right x with None => Some n | Some m => maximum_node fuel s m end
  end.

Definition delete_case6 (s : rbtree) (n : addr) : option rbtree :=
  sb ← sibling s n; sb ← sb;
  p ← parent_of s n;
  cp ← node_color s (Some p);
  s ← set_color s sb cp;
  s ← set_color s p BLACK;
  xp ← heap s !! p;
  sb ← sibling s n; sb ← sb;
  xs ← heap s !! sb;
  if bool_decide (Some n = left xp) then
    c ← node_color s (right xs);
    if bool_decide (c = RED) then
      q ← right xs; s ← set_color s q BLACK; rotate_left s p
    else None
  else
    c ← node_color s (left xs);
    if bool_decide (c = RED) then
      q ← left xs; s ← set_color s q BLACK; rotate_right s p
    else None.

(** [node_color(sibling(n)) == BLACK && node_color(sibling(n)->left) == cl &&
    node_color(sibling(n)->right) == cr]; a null sibling is dereferenced. *)
Definition sibling_is (s : rbtree) (n : addr) (cl cr : color) : option bool :=
  sb ← sibling s n;
  c ← node_color s sb;
  if bool_decide (c = BLACK) then
    sb ← sb;
    xs ← heap s !! sb;
    l ← node_color s (left xs);
    r ← node_color s (right xs);
    Some (bool_decide (l = cl) && bool_decide (r = cr))
  else Some false.

Definition delete_case5 (s : rbtree) (n : addr) : option rbtree :=
  p ← parent_of s n;
  xp ← heap s !! p;
  b1 ← (if bool_decide (Some n = left xp) then sibling_is s n RED BLACK else Some false);
  s ← (if b1 : bool then
         sb ← sibling s n; sb ← sb;
         s ← set_color s sb RED;
         xs ← heap s !! sb; q ← left xs;
         s ← set_color s q BLACK;
         rotate_right s sb
       else
         b2 ← (if bool_decide (Some n = right xp) then sibling_is s n BLACK RED else Some false);
         if b2 : bool then
           sb ← sibling s n; sb ← sb;
           s ← set_color s sb RED;
           xs ← heap s !! sb; q ← right xs;
           s ← set_color s q BLACK;
           rotate_left s sb
         else Some s);
  delete_case6 s n.

Definition delete_case4 (s : rbtree) (n : addr) : option rbtree :=
  p ← parent_of s n;
  cp ← node_color s (Some p);
  b ← (if bool_decide (cp = RED) then sibling_is s n BLACK BLACK else Some false);
  if b : bool then
    sb ← sibling s n; sb ← sb;
    s ← set_color s sb RED;
    set_color s p BLACK
  else delete_case5 s n.

(** [delete_case1], with [delete_case2] and [delete_case3] in it. *)
Fixpoint delete_case1 (fuel : nat) (s : rbtree) (n : addr) : option rbtree :=
  match fuel with
  | O => None
  | S fuel =>
      xn ← heap s !! n;
      match parent xn with
      | None => Some s
      | Some p =>
          (* delete_case2 *)
          sb ← sibling s n;
          c ← node_color s sb;
          s ← (if bool_decide (c = RED) then
                 s ← set_color s p RED;
                 sb ← sibling s n; sb ← sb;
                 s ← set_color s sb BLACK;
                 xp ← heap s !! p;
                 if bool_decide (Some n = left xp) then rotate_left s p else rotate_right s p
               else Some s);
          (* delete_case3 *)
          p ← parent_of s n;
          cp ← node_color s (Some p);
          b ← (if bool_decide (cp = BLACK) then sibling_is s n BLACK BLACK else Some false);
          if b : bool then
            sb ← sibling s n; sb ← sb;
            s ← set_color s sb RED;
            p ← parent_of s n;
            delete_case1 fuel s p
          else delete_case4 s n
      end
  end.

(** The second half of [rbtree_delete]: [n] has at most one child, which takes
    its place. *)
Definition delete_node (s : rbtree) (n : addr) : option rbtree :=
  x ← heap s !! n;
  if bool_decide (left x = None) || bool_decide (right x = None) then
    let child := match right x with None => left x | Some r => Some r end in
    c ← node_color s (Some n);
    s ← (if bool_decide (c = BLACK) then
           cc ← node_color s child;
           s ← set_color s n cc;
           delete_case1 (fuel_of s) s n
         else Some s);
    s ← replace_node s n child;
    let s := mk_t (delete n (heap s)) (root s) in
    _ ← verify_properties s;
    Some s
  else None.

Definition rbtree_delete (s : rbtree) (k : K) : option rbtree :=
  n ← lookup_node s k;
  match n with
  | None => Some s
  | Some n =>
      x ← heap s !! n;
      '(s, n) ←
        match left x, right x with
        | Some l, Some _ =>
            pred ← maximum_node (fuel_of s) s l;
            xp ← heap s !! pred;
            s ← upd s n (with_key (key xp));
            s ← upd s n (with_value (value xp));
            Some (s, pred)
        | _, _ => Some (s, n)
        end;
      delete_node s n
  end.

(** ** Trees and zippers *)
Inductive tree := E | T (c : color) (l : tree) (p : addr) (k : K) (v : V) (r : tree).

Definition addr_of (t : tree) : option addr := match t with E => None | T _ _ p _ _ _ => Some p end.
Fixpoint addrs (t : tree) : list addr :=
  match t with E => [] | T _ l p _ _ r => p :: addrs l ++ addrs r end.

(** The heap holds [t], whose root has the parent [par]. *)
Fixpoint rep (h : gmap addr node) (par : option addr) (t : tree) : Prop :=
  match t with
  | E => True
  | T c l p k v r =>
      h !! p = Some (mk_node c k v (addr_of l) (addr_of r) par) ∧
      rep h (Some p) l ∧ rep h (Some p) r
  end.

(** A step up from the left child or the right child, with the other one. *)
Inductive frame := FL (c : color) (p : addr) (k : K) (v : V) (sib : tree)
                 | FR (c : color) (sib : tree) (p : addr) (k : K) (v : V).
Definition fill (t : tree) (f : frame) : tree :=
  match f with FL c p k v r => T c t p k v r | FR c l p k v => T c l p k v t end.
Fixpoint plug (t : tree) (ctx : list frame) : tree :=
  match ctx with [] => t | f :: ctx => plug (fill t f) ctx end.

Definition faddr (f : frame) : addr := match f with FL _ p _ _ _ | FR _ _ p _ _ => p end.
Definition fsib (f : frame) : tree := match f with FL _ _ _ _ t | FR _ t _ _ _ => t end.
Definition fnode (hole : option addr) (f : frame) (par : option addr) : node :=
  match f with
  | FL c p k v r => mk_node c k v hole (addr_of r) par
  | FR c l p k v => mk_node c k v (addr_of l) hole par
  end.
Definition cpar (ctx : list frame) : option addr := faddr <$> head ctx.
Fixpoint caddrs (ctx : list frame) : list addr :=
  match ctx with [] => [] | f :: ctx => faddr f :: addrs (fsib f) ++ caddrs ctx end.

Fixpoint repc (h : gmap addr node) (hole : option addr) (ctx : list frame) : Prop :=
  match ctx with
  | [] => True
  | f :: ctx => h !! faddr f = Some (fnode hole f (cpar ctx)) ∧
                rep h (Some (faddr f)) (fsib f) ∧ repc h (Some (faddr f)) ctx
  end.

(** The state holds the tree. *)
Record R (s : rbtree) (t : tree) : Prop := {
  R_rep : rep (heap s) None t;
  R_root : root s = addr_of t;
  R_nodup : NoDup (addrs t)
}.

Lemma rep_plug h ctx : ∀ t,
  rep h None (plug t ctx) ↔ rep h (cpar ctx) t ∧ repc h (addr_of t) ctx.
Proof.
  induction ctx as [|f ctx IH]; intros t; cbn [plug repc]; [by cbn; tauto|].
  rewrite IH. destruct f; cbn; tauto.
Qed.

Lemma addrs_plug ctx : ∀ t, addrs (plug t ctx) ≡ₚ addrs t ++ caddrs ctx.
Proof.
  induction ctx as [|f ctx IH]; intros t; cbn [plug caddrs]; [by rewrite app_nil_r|].
  rewrite IH. destruct f; cbn; solve_Permutation.
Qed.

Lemma nodup_plug t ctx : NoDup (addrs (plug t ctx)) ↔
  NoDup (addrs t) ∧ (∀ x, x ∈ addrs t → x ∉ caddrs ctx) ∧ NoDup (caddrs ctx).
Proof. rewrite addrs_plug, NoDup_app. done. Qed.

Lemma addr_of_plug ctx : ∀ t t', ctx ≠ [] ∨ addr_of t = addr_of t' →
  addr_of (plug t ctx) = addr_of (plug t' ctx).
Proof.
  induction ctx as [|f ctx IH]; intros t t' H; cbn [plug]; [by destruct H|].
  apply IH. right. by destruct f.
Qed.

Lemma rep_frame h h' t : ∀ par,
  (∀ p, p ∈ addrs t → h' !! p = h !! p) → rep h par t → rep h' par t.
Proof.
  induction t as [|c l IHl p k v r IHr]; intros par Hh H; [done|]. cbn [rep addrs] in *.
  destruct H as (H1 & H2 & H3). split_and!.
  - rewrite Hh; [done|set_solver].
  - apply IHl; [|done]. intros q Hq. apply Hh. set_solver.
  - apply IHr; [|done]. intros q Hq. apply Hh. set_solver.
Qed.

Lemma repc_frame h h' ctx : ∀ hole,
  (∀ p, p ∈ caddrs ctx → h' !! p = h !! p) → repc h hole ctx → repc h' hole ctx.
Proof.
  induction ctx as [|f ctx IH]; intros hole Hh H; [done|]. cbn [repc caddrs] in *.
  destruct H as (H1 & H2 & H3). split_and!.
  - rewrite Hh; [done|set_solver].
  - eapply rep_frame; [|done]. intros q Hq. apply Hh. set_solver.
  - apply IH; [|done]. intros q Hq. apply Hh. set_solver.
Qed.

(** The root of a subtree gets another parent. *)
Definition reparent (t : tree) (par : option addr) (h : gmap addr node) : gmap addr node :=
  match addr_of t with None => h | Some p => alter (with_parent par) p h end.

Lemma rep_reparent h t par par' : NoDup (addrs t) → rep h par t → rep (reparent t par' h) par' t.
Proof.
  unfold reparent. destruct t as [|c l p k v r]; [done|]. cbn [addr_of addrs rep]. intros Hn (H1 & H2 & H3).
  apply NoDup_cons in Hn as [Hp _]. split_and!.
  - by rewrite lookup_alter_eq, H1.
  - eapply rep_frame; [|done]. intros q Hq. rewrite lookup_alter_ne by set_solver. done.
  - eapply rep_frame; [|done]. intros q Hq. rewrite lookup_alter_ne by set_solver. done.
Qed.

(** The hole of a context is filled with another node. *)
Lemma repc_refill h f ctx hole hole' :
  NoDup (caddrs (f :: ctx)) → repc h hole (f :: ctx) →
  repc (alter (match f with FL _ _ _ _ _ => with_left hole' | FR _ _ _ _ _ => with_right hole' end)
          (faddr f) h) hole' (f :: ctx).
Proof.
  cbn [caddrs repc]. intros Hn (H1 & H2 & H3). apply NoDup_cons in Hn as [Hp _]. split_and!.
  - rewrite lookup_alter_eq, H1. by destruct f.
  - eapply rep_frame; [|done]. intros q Hq. rewrite lookup_alter_ne by set_solver. done.
  - eapply repc_frame; [|done]. intros q Hq. rewrite lookup_alter_ne by set_solver. done.
Qed.

(** ** What the heap operations do to zippers *)

(** The heap after the hole of the context is filled. *)
Definition refill (ctx : list frame) (hole : option addr) (h : gmap addr node) : gmap addr node :=
  match ctx with
  | [] => h
  | f :: _ => alter (match f with FL _ _ _ _ _ => with_left hole | FR _ _ _ _ _ => with_right hole end)
                (faddr f) h
  end.
Definition reroot (ctx : list frame) (new old : option addr) : option addr :=
  match ctx with [] => new | _ => old end.

Lemma refill_ne ctx hole h p : p ∉ caddrs ctx → refill ctx hole h !! p = h !! p.
Proof. destruct ctx as [|f ctx]; [done|]. cbn. intros H. apply lookup_alter_ne. set_solver. Qed.

Lemma repc_refilled h ctx hole hole' :
  NoDup (caddrs ctx) → repc h hole ctx → repc (refill ctx hole' h) hole' ctx.
Proof. destruct ctx as [|f ctx]; [done|]. apply repc_refill. Qed.

Lemma upd_eq s p f x : heap s !! p = Some x → upd s p f = Some (mk_t (alter f p (heap s)) (root s)).
Proof. intros H. unfold upd. by rewrite H. Qed.

Lemma replace_node_eq s oldn newn ctx x :
  heap s !! oldn = Some x → parent x = cpar ctx → oldn ∉ caddrs ctx →
  repc (heap s) (Some oldn) ctx → (∀ m, newn = Some m → is_Some (heap s !! m)) →
  replace_node s oldn newn = Some (mk_t
    (match newn with
     | None => refill ctx newn (heap s)
     | Some m => alter (with_parent (cpar ctx)) m (refill ctx newn (heap s))
     end) (reroot ctx newn (root s))).
Proof.
  intros Hx Hp Hn Hc Hm. unfold replace_node. rewrite Hx. cbn [mbind option_bind]. rewrite Hp.
  match goal with |- mbind _ ?b = _ =>
    assert (Hb : b = Some (mk_t (refill ctx newn (heap s)) (reroot ctx newn (root s)))) end.
  { destruct ctx as [|f ctx]; [done|]. cbn [cpar head fmap option_fmap option_map]. cbn [repc caddrs] in *.
    destruct Hc as (H1 & _ & _). rewrite H1. cbn [mbind option_bind].
    destruct f as [c p k v sib|c sib p k v]; cbn [fnode left faddr fsib] in *.
    - rewrite bool_decide_true by done. unfold set_left. by rewrite (upd_eq _ _ _ _ H1).
    - rewrite bool_decide_false. { unfold set_right. by rewrite (upd_eq _ _ _ _ H1). }
      destruct sib as [|c' l p' k' v' r]; cbn; [done|]. intros [= ->]. set_solver. }
  rewrite Hb. cbn [mbind option_bind]. destruct newn as [m|]; [|done]. cbn [heap].
  rewrite refill_ne by done. rewrite Hx. cbn [mbind option_bind]. rewrite Hp.
  destruct (Hm m eq_refl) as [y Hy]. unfold set_parent, upd. cbn [heap root].
  assert (is_Some (refill ctx (Some m) (heap s) !! m)) as [z ->]; [|done].
  destruct ctx as [|f ctx]; cbn; [by eexists|]. destruct (decide (m = faddr f)) as [->|Hne].
  - rewrite lookup_alter_eq, Hy. by eexists.
  - rewrite lookup_alter_ne by done. by eexists.
Qed.

Lemma reparent_ne t par h p : p ∉ addrs t → reparent t par h !! p = h !! p.
Proof. unfold reparent. destruct t; [done|]. cbn. intros H. apply lookup_alter_ne. set_solver. Qed.

Lemma reparent_eq t par h h' p : h' !! p = h !! p → reparent t par h' !! p = reparent t par h !! p.
Proof.
  unfold reparent. destruct (addr_of t) as [q|]; [|done]. intros H.
  destruct (decide (q = p)) as [->|]; [by rewrite !lookup_alter_eq, H|by rewrite !lookup_alter_ne].
Qed.

Lemma set_parent_eq s t par : rep (heap s) par t ∨ (∃ p0, rep (heap s) p0 t) → ∀ par',
  match addr_of t with None => Some s | Some q => set_parent s q par' end =
  Some (mk_t (reparent t par' (heap s)) (root s)).
Proof.
  intros H par'. unfold reparent. destruct t as [|c l p k v r]; cbn; [by destruct s|].
  unfold set_parent. destruct H as [(H & _)|(p0 & H & _)]; by rewrite (upd_eq _ _ _ _ H).
Qed.

(** The parts of a tree with two inner nodes in focus have no address in common. *)
Record apart (n r : addr) (a b d C : list addr) : Prop := {
  ap_nr : n ≠ r;
  ap_n : (n ∉ a) ∧ (n ∉ b) ∧ (n ∉ d) ∧ (n ∉ C);
  ap_r : (r ∉ a) ∧ (r ∉ b) ∧ (r ∉ d) ∧ (r ∉ C);
  ap_abd : ∀ x, (x ∈ a → x ∈ b → False) ∧ (x ∈ a → x ∈ d → False) ∧ (x ∈ b → x ∈ d → False);
  ap_C : ∀ x, (x ∈ a → x ∈ C → False) ∧ (x ∈ b → x ∈ C → False) ∧ (x ∈ d → x ∈ C → False);
  ap_nodup : NoDup a ∧ NoDup b ∧ NoDup d ∧ NoDup C
}.

Lemma nodup_apart n r a b d C :
  NoDup (n :: r :: (a ++ b ++ d) ++ C) → apart n r a b d C.
Proof.
  rewrite !NoDup_cons, !NoDup_app. intros (H1 & H2 & (H3 & H4 & H5 & H6 & H7) & H8 & H9).
  rewrite elem_of_cons, !elem_of_app in H1. rewrite !elem_of_app in H2.
  setoid_rewrite elem_of_app in H4. setoid_rewrite elem_of_app in H8. setoid_rewrite elem_of_app in H8.
  split; naive_solver.
Qed.

(** Inequalities of addresses. *)
Ltac ne :=
  solve [assumption | symmetry; assumption |
    match goal with
    | H : apart _ _ _ _ _ _ |- _ => destruct H as [? (? & ? & ? & ?) (? & ? & ? & ?) ? ? _]
    end; intros ?; subst;
    repeat match goal with H : ∀ x : addr, _ ∧ _ |- _ =>
      let H1 := fresh in let H2 := fresh in let H3 := fresh in
      pose proof (λ x, proj1 (H x)) as H1; pose proof (λ x, proj1 (proj2 (H x))) as H2;
      pose proof (λ x, proj2 (proj2 (H x))) as H3; clear H end;
    first [contradiction | eauto 3]].

(** Simplifies lookups in updated heaps. *)
Ltac la := repeat first [rewrite lookup_alter_eq | rewrite lookup_alter_ne by ne
  | rewrite refill_ne by ne | rewrite reparent_ne by ne].

Lemma dom_reparent t par h : dom (reparent t par h) = dom h.
Proof. unfold reparent. destruct (addr_of t); [|done]. apply dom_alter_L. Qed.
Lemma dom_refill ctx hole h : dom (refill ctx hole h) = dom h.
Proof. destruct ctx; [done|]. apply dom_alter_L. Qed.

Lemma R_root_plug s t t' ctx :
  root s = addr_of (plug t ctx) → reroot ctx (addr_of t') (root s) = addr_of (plug t' ctx).
Proof.
  intros H. destruct ctx as [|f ctx]; [done|]. cbn [reroot]. rewrite H. apply addr_of_plug. by left.
Qed.

Lemma rotate_left_R s c a n k v c' b r k' v' d ctx :
  R s (plug (T c a n k v (T c' b r k' v' d)) ctx) →
  ∃ s', rotate_left s n = Some s' ∧ R s' (plug (T c' (T c a n k v b) r k' v' d) ctx) ∧
    dom (heap s') = dom (heap s).
Proof.
  intros [Hr Hroot Hn]. apply rep_plug in Hr as [(N1 & Ra & N2 & Rb & Rd) Hc]. cbn [addr_of] in *.
  assert (Hn' : NoDup (addrs (plug (T c' (T c a n k v b) r k' v' d) ctx))).
  { rewrite addrs_plug in Hn |- *. eapply NoDup_Permutation_proper; [|exact Hn]. cbn [addrs]. solve_Permutation. }
  assert (A : apart n r (addrs a) (addrs b) (addrs d) (caddrs ctx)).
  { apply nodup_apart. rewrite addrs_plug in Hn. eapply NoDup_Permutation_proper; [|exact Hn].
    cbn [addrs]. solve_Permutation. }
  destruct (ap_nodup _ _ _ _ _ _ A) as (Hna & Hnb & Hnd & Hnc).
  unfold rotate_left. rewrite N1. cbn [mbind option_bind right].
  rewrite (replace_node_eq s n (Some r) ctx _ N1); [|done|ne|done|intros m [= <-]; by eexists].
  cbn [mbind option_bind heap]. la. rewrite N2. cbn [fmap option_fmap option_map mbind option_bind left with_parent].
  unfold set_right. erewrite upd_eq; [|cbn [heap]; la; exact N1]. cbn [mbind option_bind heap root].
  set (h1 := alter _ n _).
  rewrite (set_parent_eq (mk_t h1 _) b (Some r)); [|left; cbn [heap]; eapply rep_frame; [|exact Rb];
    intros p Hp; subst h1; la; done].
  cbn [mbind option_bind heap root]. set (h2 := reparent b (Some n) h1).
  assert (Hr2 : h2 !! r = Some (mk_node c' k' v' (addr_of b) (addr_of d) (cpar ctx))).
  { subst h2 h1. la. by rewrite N2. }
  assert (Hn2' : h2 !! n = Some (mk_node c k v (addr_of a) (addr_of b) (cpar ctx))).
  { subst h2 h1. la. by rewrite N1. }
  unfold set_left. erewrite upd_eq by exact Hr2. cbn [mbind option_bind heap root].
  unfold set_parent. erewrite upd_eq by (cbn [heap]; la; exact Hn2'). cbn [heap root].
  eexists. split; [done|]. split; [split|].
  - apply rep_plug. cbn [heap rep addr_of]. split_and!.
    + la. by rewrite Hr2.
    + la. by rewrite Hn2'.
    + eapply rep_frame; [|exact Ra]. intros p Hp. subst h2 h1. la. done.
    + eapply rep_frame; [|exact (rep_reparent _ _ _ (Some n) Hnb Rb)]. intros p Hp. la.
      subst h2. apply reparent_eq. subst h1. la. done.
    + eapply rep_frame; [|exact Rd]. intros p Hp. subst h2 h1. la. done.
    + eapply repc_frame; [|exact (repc_refilled _ _ _ (Some r) Hnc Hc)]. intros p Hp. subst h2 h1. la. done.
  - cbn [root]. by apply (R_root_plug _ _ (T c' (T c a n k v b) r k' v' d)) in Hroot.
  - done.
  - cbn [heap]. subst h2 h1. by rewrite !dom_alter_L, dom_reparent, !dom_alter_L, dom_refill.
Qed.
Lemma rotate_right_R s c c' a r k' v' b n k v d ctx :
  R s (plug (T c (T c' a r k' v' b) n k v d) ctx) →
  ∃ s', rotate_right s n = Some s' ∧ R s' (plug (T c' a r k' v' (T c b n k v d)) ctx) ∧
    dom (heap s') = dom (heap s).
Proof.
  intros [Hr Hroot Hn]. apply rep_plug in Hr as [(N1 & (N2 & Ra & Rb) & Rd) Hc]. cbn [addr_of] in *.
  assert (Hn' : NoDup (addrs (plug (T c' a r k' v' (T c b n k v d)) ctx))).
  { rewrite addrs_plug in Hn |- *. eapply NoDup_Permutation_proper; [|exact Hn]. cbn [addrs]. solve_Permutation. }
  assert (A : apart n r (addrs a) (addrs b) (addrs d) (caddrs ctx)).
  { apply nodup_apart. rewrite addrs_plug in Hn. eapply NoDup_Permutation_proper; [|exact Hn].
    cbn [addrs]. solve_Permutation. }
  destruct (ap_nodup _ _ _ _ _ _ A) as (Hna & Hnb & Hnd & Hnc).
  unfold rotate_right. rewrite N1. cbn [mbind option_bind left].
  rewrite (replace_node_eq s n (Some r) ctx _ N1); [|done|ne|done|intros m [= <-]; by eexists].
  cbn [mbind option_bind heap]. la. rewrite N2. cbn [fmap option_fmap option_map mbind option_bind right with_parent].
  unfold set_left. erewrite upd_eq; [|cbn [heap]; la; exact N1]. cbn [mbind option_bind heap root].
  set (h1 := alter _ n _).
  rewrite (set_parent_eq (mk_t h1 _) b (Some r)); [|left; cbn [heap]; eapply rep_frame; [|exact Rb];
    intros p Hp; subst h1; la; done].
  cbn [mbind option_bind heap root]. set (h2 := reparent b (Some n) h1).
  assert (Hr2 : h2 !! r = Some (mk_node c' k' v' (addr_of a) (addr_of b) (cpar ctx))).
  { subst h2 h1. la. by rewrite N2. }
  assert (Hn2' : h2 !! n = Some (mk_node c k v (addr_of b) (addr_of d) (cpar ctx))).
  { subst h2 h1. la. by rewrite N1. }
  unfold set_right. erewrite upd_eq by exact Hr2. cbn [mbind option_bind heap root].
  unfold set_parent. erewrite upd_eq by (cbn [heap]; la; exact Hn2'). cbn [heap root].
  eexists. split; [done|]. split; [split|].
  - apply rep_plug. cbn [heap rep addr_of]. split_and!.
    + la. by rewrite Hr2.
    + eapply rep_frame; [|exact Ra]. intros p Hp. subst h2 h1. la. done.
    + la. by rewrite Hn2'.
    + eapply rep_frame; [|exact (rep_reparent _ _ _ (Some n) Hnb Rb)]. intros p Hp. la.
      subst h2. apply reparent_eq. subst h1. la. done.
    + eapply rep_frame; [|exact Rd]. intros p Hp. subst h2 h1. la. done.
    + eapply repc_frame; [|exact (repc_refilled _ _ _ (Some r) Hnc Hc)]. intros p Hp. subst h2 h1. la. done.
  - cbn [root]. by apply (R_root_plug _ _ (T c' a r k' v' (T c b n k v d))) in Hroot.
  - done.
  - cbn [heap]. subst h2 h1. by rewrite !dom_alter_L, dom_reparent, !dom_alter_L, dom_refill.
Qed.

(** *** Reading *)
Definition tcolor (t : tree) : color := match t with E => BLACK | T c _ _ _ _ _ => c end.
Definition fcolor (f : frame) : color := match f with FL c _ _ _ _ | FR c _ _ _ _ => c end.

Lemma R_focus s c l p k v r ctx :
  R s (plug (T c l p k v r) ctx) →
  heap s !! p = Some (mk_node c k v (addr_of l) (addr_of r) (cpar ctx)).
Proof. intros [H _ _]. apply rep_plug in H as [(H & _) _]. exact H. Qed.

Lemma R_color s t ctx : R s (plug t ctx) → node_color s (addr_of t) = Some (tcolor t).
Proof. intros H. destruct t; [done|]. cbn. by rewrite (R_focus _ _ _ _ _ _ _ _ H). Qed.

Lemma R_frame s t f ctx :
  R s (plug t (f :: ctx)) → heap s !! faddr f = Some (fnode (addr_of t) f (cpar ctx)).
Proof. intros [H _ _]. apply rep_plug in H as [_ (H & _)]. exact H. Qed.

(** The sibling is another node. *)
Lemma R_side s t f ctx n : R s (plug t (f :: ctx)) → addr_of t = Some n → addr_of (fsib f) ≠ Some n.
Proof.
  intros [_ _ H] Hn E. apply nodup_plug in H as (_ & H & _). apply (H n).
  - destruct t; [done|]. injection Hn as ->. cbn. set_solver.
  - destruct (fsib f) eqn:Ef; [done|]. injection E as ->. cbn. rewrite Ef. cbn. set_solver.
Qed.

Lemma R_parent s t ctx n : R s (plug t ctx) → addr_of t = Some n → parent_of s n = cpar ctx.
Proof.
  intros H Hn. destruct t; [done|]. injection Hn as ->. unfold parent_of.
  by rewrite (R_focus _ _ _ _ _ _ _ _ H).
Qed.

Lemma R_sibling s t f ctx n :
  R s (plug t (f :: ctx)) → addr_of t = Some n → sibling s n = Some (addr_of (fsib f)).
Proof.
  intros H Hn. unfold sibling. rewrite (R_parent s t (f :: ctx) n H Hn). cbn [cpar head fmap option_fmap option_map].
  cbn [mbind option_bind]. rewrite (R_frame _ _ _ _ H). cbn [mbind option_bind]. rewrite Hn.
  pose proof (R_side _ _ _ _ _ H Hn) as Hs. destruct f; cbn [fnode left right fsib] in *.
  - by rewrite bool_decide_true.
  - rewrite bool_decide_false by congruence. done.
Qed.

Lemma R_grandparent s t f g ctx n :
  R s (plug t (f :: g :: ctx)) → addr_of t = Some n → grandparent s n = Some (faddr g).
Proof.
  intros H Hn. unfold grandparent. rewrite (R_parent s t _ n H Hn). cbn [cpar head fmap option_fmap option_map].
  cbn [mbind option_bind]. apply (R_parent s (fill t f) (g :: ctx)); [exact H|by destruct f].
Qed.

Lemma R_uncle s t f g ctx n :
  R s (plug t (f :: g :: ctx)) → addr_of t = Some n → uncle s n = Some (addr_of (fsib g)).
Proof.
  intros H Hn. unfold uncle. rewrite (R_parent s t _ n H Hn). cbn [cpar head fmap option_fmap option_map].
  cbn [mbind option_bind].
  assert (Hf : addr_of (fill t f) = Some (faddr f)) by by destruct f.
  rewrite (R_parent s (fill t f) (g :: ctx) _ H Hf). cbn [cpar head fmap option_fmap option_map mbind option_bind].
  by apply (R_sibling s (fill t f) g ctx).
Qed.

(** *** Updating colour, key and value *)
Lemma upd_R s c l p k v r ctx f c2 k2 v2 :
  R s (plug (T c l p k v r) ctx) →
  (∀ a b par, f (mk_node c k v a b par) = mk_node c2 k2 v2 a b par) →
  ∃ s', upd s p f = Some s' ∧ R s' (plug (T c2 l p k2 v2 r) ctx) ∧ dom (heap s') = dom (heap s).
Proof.
  intros H Hf. pose proof (R_focus _ _ _ _ _ _ _ _ H) as Hp. destruct H as [Hr Hroot Hn].
  apply rep_plug in Hr as [(_ & Rl & Rr) Hc]. rewrite (upd_eq _ _ _ _ Hp). eexists. split; [done|].
  split; [split|]; cbn [heap root].
  - apply nodup_plug in Hn as (Hn & Hd & _). cbn [addrs] in *. apply NoDup_cons in Hn as [Hn _].
    apply rep_plug. cbn [rep addr_of]. split_and!.
    + by rewrite lookup_alter_eq, Hp, <- Hf.
    + eapply rep_frame; [|exact Rl]. intros q Hq. apply lookup_alter_ne. set_solver.
    + eapply rep_frame; [|exact Rr]. intros q Hq. apply lookup_alter_ne. set_solver.
    + eapply repc_frame; [|exact Hc]. intros q Hq. apply lookup_alter_ne. set_solver.
  - rewrite Hroot. by apply addr_of_plug; right.
  - rewrite addrs_plug in *. exact Hn.
  - apply dom_alter_L.
Qed.

Lemma set_color_R s c l p k v r ctx c2 :
  R s (plug (T c l p k v r) ctx) →
  ∃ s', set_color s p c2 = Some s' ∧ R s' (plug (T c2 l p k v r) ctx) ∧ dom (heap s') = dom (heap s).
Proof. intros H. by apply (upd_R s c l p k v r ctx). Qed.

(** Recolouring a tree in focus and the frame above the focus. *)
Definition tpaint (c : color) (t : tree) : tree :=
  match t with E => E | T _ l p k v r => T c l p k v r end.
Definition fpaint (c : color) (f : frame) : frame :=
  match f with FL _ p k v r => FL c p k v r | FR _ l p k v => FR c l p k v end.

Lemma paint_R s t ctx q c :
  R s (plug t ctx) → addr_of t = Some q →
  ∃ s', set_color s q c = Some s' ∧ R s' (plug (tpaint c t) ctx) ∧ dom (heap s') = dom (heap s).
Proof. intros H Hq. destruct t; [done|]. injection Hq as ->. by eapply set_color_R. Qed.

Lemma fpaint_R s t f ctx c :
  R s (plug t (f :: ctx)) →
  ∃ s', set_color s (faddr f) c = Some s' ∧ R s' (plug t (fpaint c f :: ctx)) ∧ dom (heap s') = dom (heap s).
Proof. intros H. destruct f; by eapply set_color_R. Qed.

(** The sibling is painted. *)
Definition sib_with (t : tree) (f : frame) : frame :=
  match f with FL c p k v _ => FL c p k v t | FR c _ p k v => FR c t p k v end.

Lemma sib_zip t f ctx : plug t (f :: ctx) = plug (fsib f)
  (match f with FL c p k v _ => FR c t p k v | FR c _ p k v => FL c p k v t end :: ctx).
Proof. by destruct f. Qed.

Lemma sib_zip_back u t f ctx : plug u
  (match f with FL c p k v _ => FR c t p k v | FR c _ p k v => FL c p k v t end :: ctx) =
  plug t (sib_with u f :: ctx).
Proof. by destruct f. Qed.

Lemma sibpaint_R s t f ctx q c :
  R s (plug t (f :: ctx)) → addr_of (fsib f) = Some q →
  ∃ s', set_color s q c = Some s' ∧ R s' (plug t (sib_with (tpaint c (fsib f)) f :: ctx)) ∧
    dom (heap s') = dom (heap s).
Proof.
  intros H Hq. rewrite sib_zip in H. destruct (paint_R _ _ _ q c H Hq) as (s' & E' & H' & D).
  exists s'. split; [done|]. split; [|done]. by rewrite sib_zip_back in H'.
Qed.

(** ** The red-black properties *)

(** [rb t c n]: [t] is balanced, its root has colour [c] and [n] black nodes
    are on every path. *)
Inductive rb : tree → color → nat → Prop :=
| rb_E : rb E BLACK 0
| rb_red l p k v r n : rb l BLACK n → rb r BLACK n → rb (T RED l p k v r) RED n
| rb_black l p k v r cl cr n : rb l cl n → rb r cr n → rb (T BLACK l p k v r) BLACK (S n).

(** [cx ctx b n]: a tree with [n] black nodes on its paths makes a red-black
    tree in this context, if [b] only with a black root. *)
Inductive cx : list frame → bool → nat → Prop :=
| cx_nil n : cx [] true n
| cx_black f ctx cs b n : fcolor f = BLACK → rb (fsib f) cs n → cx ctx b (S n) → cx (f :: ctx) false n
| cx_red f ctx n : fcolor f = RED → rb (fsib f) BLACK n → cx ctx false n → cx (f :: ctx) true n.

Lemma rb_tcolor t c n : rb t c n → tcolor t = c.
Proof. by destruct 1. Qed.

Lemma rb_tpaint_black t c n : rb t c n → t ≠ E → ∃ m, rb (tpaint BLACK t) BLACK m.
Proof. destruct 1; intros; [done|exists (S n)|exists (S n)]; by econstructor. Qed.

Lemma rb_node c l p k v r cl cr n :
  rb l cl n → rb r cr n → (c = RED → cl = BLACK ∧ cr = BLACK) →
  rb (T c l p k v r) c (if decide (c = BLACK) then S n else n).
Proof.
  intros Hl Hr Hc. destruct c; case_decide; try done; [|by econstructor].
  destruct (Hc eq_refl) as [-> ->]. by constructor.
Qed.

Lemma rb_fill t c n f cs :
  rb t c n → rb (fsib f) cs n → (fcolor f = RED → c = BLACK ∧ cs = BLACK) →
  rb (fill t f) (fcolor f) (if decide (fcolor f = BLACK) then S n else n).
Proof.
  intros Ht Hs Hc. destruct f; cbn in *; eapply rb_node; try done; naive_solver.
Qed.

Lemma cx_plug ctx : ∀ b n t c,
  cx ctx b n → rb t c n → (b = true → c = BLACK) → ∃ m, rb (plug t ctx) BLACK m.
Proof.
  induction ctx as [|f ctx IH]; intros b n t c Hc Ht Hb; inversion Hc; subst; cbn [plug].
  - exists n. rewrite (Hb eq_refl) in Ht. done.
  - eapply (IH _ _ _ BLACK); [done| |done]. destruct f; cbn in *; subst; by econstructor.
  - rewrite (Hb eq_refl) in Ht. eapply (IH _ _ _ RED); [done| |done]. destruct f; cbn in *; subst; by constructor.
Qed.

Lemma plug_cx ctx : ∀ t m, rb (plug t ctx) BLACK m →
  ∃ b n c, cx ctx b n ∧ rb t c n ∧ (b = true → c = BLACK).
Proof.
  induction ctx as [|f ctx IH]; intros t m H; cbn [plug] in H.
  { exists true, m, BLACK. by split_and!; [constructor|..]. }
  destruct (IH _ _ H) as (b & n & c & Hc & Hf & Hb).
  destruct f as [fc p k v sib|fc sib p k v]; cbn [fill] in Hf; inversion Hf; subst.
  all: try (assert (b = false) as -> by (destruct b; [by specialize (Hb eq_refl)|done])).
  - exists true. do 2 eexists. split; [by apply cx_red|]. by split.
  - exists false. do 2 eexists. split; [by eapply cx_black|]. by split.
  - exists true. do 2 eexists. split; [by apply cx_red|]. by split.
  - exists false. do 2 eexists. split; [by eapply cx_black|]. by split.
Qed.

(** The properties do not depend on keys and values. *)
Lemma rb_plug_kv c l p k v k' v' r ctx m :
  rb (plug (T c l p k v r) ctx) BLACK m → ∃ m', rb (plug (T c l p k' v' r) ctx) BLACK m'.
Proof.
  intros H. apply plug_cx in H as (b & n & c' & Hc & Ht & Hb). apply (cx_plug ctx b n _ c' Hc); [|done].
  inversion Ht; subst; by econstructor.
Qed.

(** ** The contents *)
Fixpoint elems (t : tree) : list (K * V) :=
  match t with E => [] | T _ l _ k v r => elems l ++ (k, v) :: elems r end.

Lemma elems_plug ctx : ∀ t t', elems t = elems t' → elems (plug t ctx) = elems (plug t' ctx).
Proof.
  induction ctx as [|f ctx IH]; intros t t' H; cbn [plug]; [done|]. apply IH.
  destruct f; cbn; by rewrite H.
Qed.

(** Equality of contents, up to associativity. *)
Ltac els := cbn [elems fill fpaint tpaint sib_with]; repeat (rewrite <- app_assoc; cbn [app]); reflexivity.

(** ** Insertion *)
Lemma insert_case5_R s t f g ctx n h u cu b :
  R s (plug t (f :: g :: ctx)) → addr_of t = Some n → rb t RED h → fcolor f = RED → rb (fsib f) BLACK h →
  fcolor g = BLACK → fsib g = u → rb u cu h → cu = BLACK → cx ctx b (S h) →
  (match f, g with FL _ _ _ _ _, FL _ _ _ _ _ | FR _ _ _ _ _, FR _ _ _ _ _ => True | _, _ => False end) →
  ∃ s' t' m, insert_case5 s n = Some s' ∧ R s' t' ∧ rb t' BLACK m ∧
    elems t' = elems (plug t (f :: g :: ctx)) ∧ dom (heap s') = dom (heap s).
Proof.
  intros H Hn Ht Hf Hs Hg Hu Hru -> Hcx Hdir. unfold insert_case5.
  rewrite (R_parent _ _ _ _ H Hn). cbn [cpar head fmap option_fmap option_map mbind option_bind].
  destruct (fpaint_R _ _ _ _ BLACK H) as (s1 & -> & H1 & D1). cbn [mbind option_bind].
  rewrite (R_grandparent _ _ _ _ _ _ H1 Hn). cbn [mbind option_bind].
  destruct (fpaint_R _ (fill t (fpaint BLACK f)) _ _ RED H1) as (s2 & -> & H2 & D2). cbn [mbind option_bind].
  assert (H2' : R s2 (plug t (fpaint BLACK f :: fpaint RED g :: ctx))) by exact H2.
  replace (faddr f) with (faddr (fpaint BLACK f)) by by destruct f. rewrite (R_frame _ _ _ _ H2').
  cbn [mbind option_bind]. replace (faddr g) with (faddr (fpaint RED g)) by by destruct g.
  pose proof (R_frame _ _ _ _ H2) as Hfg. rewrite Hfg. cbn [mbind option_bind]. clear Hfg.
  pose proof (R_side _ _ _ _ _ H2' Hn) as Hside. rewrite Hn.
  assert (Hs' := Hs). destruct f as [fc p k v sib|fc sib p k v], g as [gc q k' v' u'|gc u' q k' v']; try done;
    cbn in Hf, Hg, Hs, Hu; subst; cbn [fpaint fnode faddr left right fill addr_of fsib] in *.
  - rewrite !bool_decide_true by done. cbn [andb].
    destruct (rotate_right_R _ _ _ _ _ _ _ _ _ _ _ _ _ H2) as (s3 & -> & H3 & D3).
    eexists _, _. destruct (cx_plug ctx b (S h) (T BLACK t p k v (T RED sib q k' v' u)) BLACK Hcx) as [m Hm].
    { econstructor; [done|]. by constructor. } { done. }
    exists m. split; [done|]. split; [exact H3|]. split; [done|]. split; [|congruence].
    cbn [plug fill]. apply elems_plug. els.
  - rewrite (bool_decide_false (Some n = addr_of sib)) by congruence. cbn [andb].
    rewrite !bool_decide_true by done. cbn [andb].
    destruct (rotate_left_R _ _ _ _ _ _ _ _ _ _ _ _ _ H2) as (s3 & -> & H3 & D3).
    eexists _, _. destruct (cx_plug ctx b (S h) (T BLACK (T RED u q k' v' sib) p k v t) BLACK Hcx) as [m Hm].
    { econstructor; [|done]. by constructor. } { done. }
    exists m. split; [done|]. split; [exact H3|]. split; [done|]. split; [|congruence].
    cbn [plug fill]. apply elems_plug. els.
Qed.

(** What a repair of the tree promises. *)
Definition repaired (s : rbtree) (t : tree) (s' : rbtree) : Prop :=
  ∃ t' m, R s' t' ∧ rb t' BLACK m ∧ elems t' = elems t ∧ dom (heap s') = dom (heap s).

Lemma insert_case4_R s t f g ctx n h b :
  R s (plug t (f :: g :: ctx)) → addr_of t = Some n → rb t RED h → fcolor f = RED → rb (fsib f) BLACK h →
  fcolor g = BLACK → rb (fsib g) BLACK h → cx ctx b (S h) →
  ∃ s', insert_case4 s n = Some s' ∧ repaired s (plug t (f :: g :: ctx)) s'.
Proof.
  intros H Hn Ht Hf Hs Hg Hu Hcx. unfold insert_case4.
  rewrite (R_parent _ _ _ _ H Hn). cbn [cpar head fmap option_fmap option_map mbind option_bind].
  rewrite (R_frame _ _ _ _ H). cbn [mbind option_bind].
  rewrite (R_grandparent _ _ _ _ _ _ H Hn). cbn [mbind option_bind].
  pose proof (R_frame _ (fill t f) _ _ H) as Hfg. rewrite Hfg. cbn [mbind option_bind]. clear Hfg.
  pose proof (R_side _ _ _ _ _ H Hn) as Hside.
  assert (Hff : addr_of (fill t f) = Some (faddr f)) by by destruct f.
  pose proof (R_side _ (fill t f) _ _ _ H Hff) as Hside2. rewrite Hn, Hff.
  destruct f as [fc p k v sib|fc sib p k v], g as [gc q k' v' u|gc u q k' v'];
    cbn [fnode left right faddr fsib fcolor] in *; subst fc gc.
  - rewrite (bool_decide_false (Some n = addr_of sib)) by congruence. cbn [andb].
    rewrite (bool_decide_false (Some p = addr_of u)), andb_false_r by congruence.
    edestruct (insert_case5_R s t) as (s' & t' & m & E' & ?); try done.
    exists s'. split; [exact E'|]. by exists t', m.
  - rewrite (bool_decide_false (Some n = addr_of sib)) by congruence. cbn [andb].
    rewrite !bool_decide_true by done. cbn [andb]. inversion Ht as [|l ? kt vt r ? Hl Hr|]; subst.
    injection Hn as ->.
    destruct (rotate_right_R s RED RED l n kt vt r p k v sib (FR BLACK u q k' v' :: ctx) H) as (s1 & -> & H1 & D1).
    cbn [mbind option_bind]. rewrite (R_focus _ _ _ _ _ _ _ _ H1). cbn [mbind option_bind right addr_of].
    edestruct (insert_case5_R s1 (T RED r p k v sib) (FR RED l n kt vt) (FR BLACK u q k' v') ctx p h)
      as (s' & t' & m & E' & ? & ? & El & ?); try done; [by constructor|].
    exists s'. split; [exact E'|]. exists t', m. split_and!; try done; [|congruence]. rewrite El.
    cbn [plug fill]. apply elems_plug. els.
  - rewrite !bool_decide_true by done. cbn [andb]. inversion Ht as [|l ? kt vt r ? Hl Hr|]; subst.
    injection Hn as ->.
    destruct (rotate_left_R s RED sib p k v RED l n kt vt r (FL BLACK q k' v' u :: ctx) H) as (s1 & -> & H1 & D1).
    cbn [mbind option_bind]. rewrite (R_focus _ _ _ _ _ _ _ _ H1). cbn [mbind option_bind left addr_of].
    edestruct (insert_case5_R s1 (T RED sib p k v l) (FL RED n kt vt r) (FL BLACK q k' v' u) ctx p h)
      as (s' & t' & m & E' & ? & ? & El & ?); try done; [by constructor|].
    exists s'. split; [exact E'|]. exists t', m. split_and!; try done; [|congruence]. rewrite El.
    cbn [plug fill]. apply elems_plug. els.
  - rewrite (bool_decide_false (Some p = addr_of u)), andb_false_r by congruence.
    rewrite (bool_decide_false (Some n = addr_of sib)) by congruence. cbn [andb].
    edestruct (insert_case5_R s t) as (s' & t' & m & E' & ?); try done.
    exists s'. split; [exact E'|]. by exists t', m.
Qed.

(** The cases together: [t] is red, and nothing else is wrong. *)
Lemma insert_fix_R fuel : ∀ s t ctx n h b,
  (length ctx < fuel)%nat → R s (plug t ctx) → addr_of t = Some n → rb t RED h → cx ctx b h →
  ∃ s', insert_case1 fuel s n = Some s' ∧ repaired s (plug t ctx) s'.
Proof.
  induction fuel as [|fuel IH]; intros s t ctx n h b Hl H Hn Ht Hcx; [lia|]. cbn [insert_case1].
  inversion Ht as [|l p k v r h' Hl' Hr'|]; subst. injection Hn as ->.
  rewrite (R_focus _ _ _ _ _ _ _ _ H). cbn [mbind option_bind parent].
  destruct ctx as [|f ctx]; cbn [cpar head fmap option_fmap option_map].
  { destruct (set_color_R _ _ _ _ _ _ _ [] BLACK H) as (s' & -> & H' & D'). exists s'. split; [done|].
    eexists _, (S h). split; [exact H'|]. split; [by econstructor|]. done. }
  assert (Hc : node_color s (Some (faddr f)) = Some (fcolor f)).
  { pose proof (R_color s (fill (T RED l n k v r) f) ctx H) as Hc. destruct f; exact Hc. }
  rewrite Hc. cbn [mbind option_bind].
  inversion Hcx as [|f' ctx' cs b' n' Hfc Hfs Hctx|f' ctx' n' Hfc Hfs Hctx]; subst; rewrite Hfc.
  { rewrite bool_decide_true by done. exists s. split; [done|].
    destruct (cx_plug _ _ _ _ _ Hcx Ht) as [m Hm]; [done|]. by exists (plug (T RED l n k v r) (f :: ctx)), m. }
  rewrite bool_decide_false by done.
  inversion Hctx as [|g ctx' cu b'' n' Hgc Hgs Hctx'|]; subst.
  rewrite (R_uncle _ _ _ _ _ n H) by done. cbn [mbind option_bind].
  assert (Hcu : node_color s (addr_of (fsib g)) = Some (tcolor (fsib g))).
  { assert (H2 : R s (plug (fill (T RED l n k v r) f) (g :: ctx'))) by exact H.
    rewrite sib_zip in H2. exact (R_color _ _ _ H2). }
  rewrite Hcu. cbn [mbind option_bind]. rewrite (rb_tcolor _ _ _ Hgs). destruct cu.
  - rewrite bool_decide_true by done.
    destruct (fpaint_R _ _ _ _ BLACK H) as (s1 & -> & H1 & D1). cbn [mbind option_bind].
    rewrite (R_uncle _ _ _ _ _ n H1) by done. cbn [mbind option_bind].
    inversion Hgs as [|ul uq uk uv ur ? Hul Hur Eu|]; subst. rewrite <- ?Eu. cbn [addr_of mbind option_bind].
    destruct (sibpaint_R _ (fill (T RED l n k v r) (fpaint BLACK f)) _ _ uq BLACK H1) as (s2 & -> & H2 & D2).
    { by rewrite <- Eu. }
    cbn [mbind option_bind]. rewrite <- Eu in H2. cbn [tpaint] in H2.
    set (g2 := sib_with _ g) in *.
    assert (H2' : R s2 (plug (T RED l n k v r) (fpaint BLACK f :: g2 :: ctx'))) by exact H2.
    rewrite (R_grandparent _ _ _ _ _ n H2') by done. cbn [mbind option_bind].
    destruct (fpaint_R _ _ _ _ RED H2) as (s3 & -> & H3 & D3). cbn [mbind option_bind].
    assert (H3' : R s3 (plug (T RED l n k v r) (fpaint BLACK f :: fpaint RED g2 :: ctx'))) by exact H3.
    rewrite (R_grandparent _ _ _ _ _ n H3') by done. cbn [mbind option_bind].
    edestruct (IH s3 (fill (fill (T RED l n k v r) (fpaint BLACK f)) (fpaint RED g2)) ctx'
      (faddr (fpaint RED g2)) (S h)) as (s' & E' & t' & m & R' & B' & El & D').
    { cbn [length] in Hl. lia. } { exact H3. } { by destruct g. }
    { assert (Hfb : rb (fill (T RED l n k v r) (fpaint BLACK f)) BLACK (S h)).
      { destruct f; cbn in *; by econstructor. }
      assert (Hub : rb (T BLACK ul uq uk uv ur) BLACK (S h)) by by econstructor.
      subst g2. destruct g; cbn in *; by constructor. }
    { done. }
    exists s'. split; [exact E'|]. exists t', m. split_and!; try done; [|congruence]. rewrite El.
    cbn [plug]. apply elems_plug. subst g2. destruct f, g; cbn [fsib] in Eu; subst; els.
  - rewrite bool_decide_false by done. by eapply insert_case4_R.
Qed.

(** *** Fuel *)
Lemma R_size s t : R s t → (length (addrs t) ≤ size (heap s))%nat.
Proof.
  intros [Hr _ Hn]. rewrite <- size_dom, <- (size_list_to_set (C := gset addr) (addrs t)) by done.
  apply subseteq_size. clear Hn. revert Hr. generalize (@None addr). induction t as [|c l IHl p k v r IHr]; intros par Hr.
  { set_solver. }
  destruct Hr as (H1 & H2 & H3). specialize (IHl _ H2). specialize (IHr _ H3).
  assert (p ∈ dom (heap s)) by (apply elem_of_dom; by eexists). cbn [addrs]. set_solver.
Qed.

Lemma length_ctx t ctx : (length ctx + length (addrs t) ≤ length (addrs (plug t ctx)))%nat.
Proof.
  rewrite addrs_plug, length_app. induction ctx as [|f ctx IH]; cbn [caddrs length]; [lia|].
  rewrite length_app. lia.
Qed.

Lemma fuel_ctx s t ctx : R s (plug t ctx) → (length ctx + length (addrs t) < fuel_of s)%nat.
Proof. intros H. apply R_size in H. pose proof (length_ctx t ctx). unfold fuel_of. lia. Qed.

(** ** The verification succeeds on red-black trees *)
Lemma verify_1_ok fuel s : ∀ t par, (length (addrs t) < fuel)%nat → rep (heap s) par t →
  verify_property_1 fuel s (addr_of t) = Some tt.
Proof.
  induction fuel as [|fuel IH]; intros t par Hf Hr; [lia|]. cbn [verify_property_1].
  destruct t as [|c l p k v r]; [done|]. destruct Hr as (H1 & H2 & H3). cbn [addr_of node_color addrs length] in *.
  rewrite length_app in Hf. rewrite H1. cbn [mbind option_bind ncolor].
  rewrite bool_decide_true by (destruct c; auto). cbn [left right].
  rewrite (IH l (Some p)) by (done || lia). cbn [mbind option_bind]. apply (IH r (Some p)); [lia|done].
Qed.

Lemma color_of s par t : rep (heap s) par t → node_color s (addr_of t) = Some (tcolor t).
Proof. destruct t; [done|]. intros (H & _). cbn. by rewrite H. Qed.

Lemma assert_black_ok s par t n : rep (heap s) par t → rb t BLACK n → assert_black s (addr_of t) = Some tt.
Proof. intros Hr Hb. unfold assert_black. rewrite (color_of _ _ _ Hr). cbn. by rewrite (rb_tcolor _ _ _ Hb). Qed.

Lemma verify_4_ok fuel s : ∀ t par c n, (length (addrs t) < fuel)%nat → rep (heap s) par t → rb t c n →
  (c = RED → node_color s par = Some BLACK) → verify_property_4 fuel s (addr_of t) = Some tt.
Proof.
  induction fuel as [|fuel IH]; intros t par c n Hf Hr Hb Hp; [lia|]. cbn [verify_property_4].
  rewrite (color_of _ _ _ Hr). cbn [mbind option_bind].
  destruct t as [|c0 l p k v r]; [done|]. destruct Hr as (H1 & H2 & H3). cbn [addr_of addrs length tcolor] in *.
  rewrite length_app in Hf. rewrite H1. cbn [mbind option_bind left right parent].
  inversion Hb as [|? ? ? ? ? ? Hl Hr|? ? ? ? ? cl cr ? Hl Hr]; subst.
  - rewrite bool_decide_true by done. rewrite (assert_black_ok _ _ _ _ H2 Hl). cbn [mbind option_bind].
    rewrite (assert_black_ok _ _ _ _ H3 Hr). cbn [mbind option_bind]. unfold assert_black. rewrite (Hp eq_refl).
    cbn [mbind option_bind]. rewrite bool_decide_true by done.
    rewrite (IH l (Some p) BLACK n) by (done || lia). cbn [mbind option_bind].
    apply (IH r (Some p) BLACK n); [lia|done|done|done].
  - rewrite bool_decide_false by done. cbn [mbind option_bind].
    assert (Hpc : node_color s (Some p) = Some BLACK) by (cbn; by rewrite H1).
    rewrite (IH l (Some p) cl n0) by (done || lia). cbn [mbind option_bind].
    apply (IH r (Some p) cr n0); [lia|done|done|done].
Qed.

Lemma verify_5_ok fuel s : ∀ t par c n bc pbc, (length (addrs t) < fuel)%nat → rep (heap s) par t →
  rb t c n → pbc = -1 ∨ pbc = bc + Z.of_nat n + 1 →
  verify_property_5_helper fuel s (addr_of t) bc pbc = Some (bc + Z.of_nat n + 1).
Proof.
  induction fuel as [|fuel IH]; intros t par c n bc pbc Hf Hr Hb Hp; [lia|]. cbn [verify_property_5_helper].
  rewrite (color_of _ _ _ Hr). cbn [mbind option_bind].
  destruct t as [|c0 l p k v r]; cbn [addr_of addrs length tcolor] in *.
  - inversion Hb; subst. rewrite bool_decide_true by done. change (Z.of_nat 0) with 0 in *. destruct Hp as [->| ->].
    + change (-1 =? -1) with true. f_equal. lia.
    + destruct (Z.eqb_spec (bc + 0 + 1) (-1)); [f_equal; lia|].
      destruct (Z.eqb_spec (bc + 1) (bc + 0 + 1)); [done|lia].
  - destruct Hr as (H1 & H2 & H3). rewrite length_app in Hf. rewrite H1. cbn [mbind option_bind left right].
    inversion Hb as [|? ? ? ? ? ? Hl Hr|? ? ? ? ? cl cr ? Hl Hr]; subst.
    + rewrite bool_decide_false by done. rewrite (IH l (Some p) BLACK n) by (done || lia). cbn [mbind option_bind].
      apply (IH r (Some p) BLACK n); [lia|done|done|by right].
    + rewrite bool_decide_true by done. rewrite (IH l (Some p) cl n0) by (done || lia). cbn [mbind option_bind].
      replace (bc + Z.of_nat (S n0) + 1) with (bc + 1 + Z.of_nat n0 + 1) by lia.
      apply (IH r (Some p) cr n0); [lia|done|done|by right].
Qed.

Lemma verify_ok s t m : R s t → rb t BLACK m → verify_properties s = Some tt.
Proof.
  intros H Hb. pose proof (R_size _ _ H) as Hs. destruct H as [Hr Hroot _]. unfold verify_properties. rewrite Hroot.
  rewrite (verify_1_ok _ _ t None) by (done || unfold fuel_of; lia). cbn [mbind option_bind].
  unfold verify_property_2. fold (assert_black s (addr_of t)). rewrite (assert_black_ok _ _ _ _ Hr Hb).
  cbn [mbind option_bind]. rewrite (verify_4_ok _ _ t None BLACK m) by (done || unfold fuel_of; lia).
  cbn [mbind option_bind]. unfold verify_property_5.
  rewrite (verify_5_ok _ _ t None BLACK m) by (done || auto || unfold fuel_of; lia). done.
Qed.

(** ** The abstract specification: sorted association lists *)
Context {ord : TotalCompare compare}.

Abbreviation alist := (list (K * V)).

Fixpoint find (k : K) (l : alist) : option V :=
  match l with [] => None | (k', v) :: l => if compare k k' =? 0 then Some v else find k l end.
Fixpoint put (k : K) (v : V) (l : alist) : alist :=
  match l with
  | [] => [(k, v)]
  | (k', v') :: l =>
      if compare k k' =? 0 then (k', v) :: l
      else if compare k k' <? 0 then (k, v) :: (k', v') :: l
      else (k', v') :: put k v l
  end.
Fixpoint remove (k : K) (l : alist) : alist :=
  match l with [] => [] | (k', v) :: l => if compare k k' =? 0 then l else (k', v) :: remove k l end.

Definition below (e1 e2 : K * V) : Prop := compare e1.1 e2.1 < 0.
Definition sorted (l : alist) : Prop := StronglySorted below l.

(** [k] is after, or before, all keys of the list. *)
Definition after (k : K) (l : alist) : Prop := Forall (λ e, 0 < compare k e.1) l.
Definition before (k : K) (l : alist) : Prop := Forall (λ e, compare k e.1 < 0) l.

Lemma put_left k v l e r : compare k e.1 < 0 → put k v (l ++ e :: r) = put k v l ++ e :: r.
Proof.
  intros H. induction l as [|[k' v'] l IH]; cbn.
  - destruct e as [k' v']. cbn in H. rewrite (proj2 (Z.eqb_neq _ _)), (proj2 (Z.ltb_lt _ _)) by lia. done.
  - repeat case_match; [done|done|]. by rewrite IH.
Qed.

Lemma put_before k v l r : before k r → put k v (l ++ r) = put k v l ++ r.
Proof. destruct r as [|e r]; [by rewrite !app_nil_r|]. intros H. apply put_left. by inversion H. Qed.

Lemma put_after k v l r : after k l → put k v (l ++ r) = l ++ put k v r.
Proof.
  induction 1 as [|[k' v'] l H _ IH]; [done|]. cbn in *.
  rewrite (proj2 (Z.eqb_neq _ _)), (proj2 (Z.ltb_ge _ _)) by lia. by rewrite IH.
Qed.

Lemma find_after k l r : after k l → find k (l ++ r) = find k r.
Proof.
  induction 1 as [|[k' v'] l H _ IH]; [done|]. cbn in *. by rewrite (proj2 (Z.eqb_neq _ _)) by lia.
Qed.

Lemma find_before k l r : before k r → find k (l ++ r) = find k l.
Proof.
  intros H. induction l as [|[k' v'] l IH]; cbn; [|by rewrite IH].
  induction H as [|[k' v'] r Hx _ IH]; [done|]. cbn in *. by rewrite (proj2 (Z.eqb_neq _ _)) by lia.
Qed.

Lemma remove_after k l r : after k l → remove k (l ++ r) = l ++ remove k r.
Proof.
  induction 1 as [|[k' v'] l H _ IH]; [done|]. cbn in *. by rewrite (proj2 (Z.eqb_neq _ _)), IH by lia.
Qed.

Lemma remove_none k l : find k l = None → remove k l = l.
Proof. induction l as [|[k' v'] l IH]; cbn; [done|]. case_match; [done|]. intros Hx. by rewrite IH. Qed.

Lemma sorted_split l e r :
  sorted (l ++ e :: r) → Forall (λ x, below x e) l ∧ Forall (below e) r ∧ sorted l ∧ sorted r ∧
    Forall (λ x, Forall (below x) r) l.
Proof.
  induction l as [|x l IH]; cbn; intros H.
  - apply StronglySorted_inv in H as [H1 H2]. by split_and!; try constructor.
  - apply StronglySorted_inv in H as [H1 H2]. destruct (IH H1) as (I1 & I2 & I3 & I4 & I5).
    apply Forall_app in H2 as [H2 H3]. apply Forall_cons in H3 as [H3 H4].
    split_and!; try done; by constructor.
Qed.

(** *** Searching with a zipper *)

(** The elements before and after the hole. *)
Fixpoint cbefore (ctx : list frame) : alist :=
  match ctx with
  | [] => []
  | FL _ _ _ _ _ :: ctx => cbefore ctx
  | FR _ l _ k v :: ctx => cbefore ctx ++ elems l ++ [(k, v)]
  end.
Fixpoint cafter (ctx : list frame) : alist :=
  match ctx with
  | [] => []
  | FL _ _ k v r :: ctx => (k, v) :: elems r ++ cafter ctx
  | FR _ _ _ _ _ :: ctx => cafter ctx
  end.

Lemma elems_ctx ctx : ∀ t, elems (plug t ctx) = cbefore ctx ++ elems t ++ cafter ctx.
Proof.
  induction ctx as [|f ctx IH]; intros t; cbn [plug]; [by rewrite app_nil_r|].
  rewrite IH. destruct f; cbn; repeat (rewrite <- app_assoc; cbn [app]); done.
Qed.

(** The hole is where [k] belongs. *)
Definition place (k : K) (ctx : list frame) : Prop := after k (cbefore ctx) ∧ before k (cafter ctx).

Lemma place_find k t ctx : place k ctx → find k (elems (plug t ctx)) = find k (elems t).
Proof. intros [H1 H2]. by rewrite elems_ctx, find_after, find_before. Qed.

Lemma place_put k v t ctx :
  place k ctx → put k v (elems (plug t ctx)) = cbefore ctx ++ put k v (elems t) ++ cafter ctx.
Proof. intros [H1 H2]. by rewrite elems_ctx, put_after, put_before. Qed.

Lemma before_trans k e l : compare k e.1 < 0 → Forall (below e) l → before k l.
Proof.
  intros H Hl. eapply Forall_impl; [exact Hl|]. intros x Hx. unfold below in Hx. cbn in *. by eapply cmp_trans.
Qed.

Lemma after_trans k e l : 0 < compare k e.1 → Forall (λ x, below x e) l → after k l.
Proof.
  intros H Hl. eapply Forall_impl; [exact Hl|]. intros x Hx. unfold below in Hx. cbn in *.
  apply cmp_antisym. apply cmp_antisym in H. by eapply cmp_trans.
Qed.

(** The search goes on in the right subtree. *)
Lemma place_down k c l p kk vv r ctx :
  sorted (elems (plug (T c l p kk vv r) ctx)) → place k ctx →
  (compare k kk < 0 → place k (FL c p kk vv r :: ctx)) ∧
  (0 < compare k kk → place k (FR c l p kk vv :: ctx)).
Proof.
  intros Hs [H1 H2]. rewrite elems_ctx in Hs. cbn [elems] in Hs. rewrite <- app_assoc in Hs. cbn [app] in Hs.
  rewrite app_assoc in Hs. apply sorted_split in Hs as (Hl & Hr & _). apply Forall_app in Hl as [_ Hl].
  apply Forall_app in Hr as [Hr _]. split; intros H; split; cbn [cbefore cafter]; try done.
  - constructor; [done|]. apply Forall_app. split; [|done]. exact (before_trans k (kk, vv) _ H Hr).
  - apply Forall_app. split; [done|]. apply Forall_app. split; [exact (after_trans k (kk, vv) _ H Hl)|by constructor].
Qed.

Fixpoint height (t : tree) : nat :=
  match t with E => 0 | T _ l _ _ _ r => S (max (height l) (height r)) end.

Lemma height_addrs t : (height t ≤ length (addrs t))%nat.
Proof. induction t; cbn [height addrs length]; [lia|]. rewrite length_app. lia. Qed.

Lemma lookup_loop_R fuel : ∀ s t ctx k,
  (height t ≤ fuel)%nat → R s (plug t ctx) → sorted (elems (plug t ctx)) → place k ctx →
  ∃ r, lookup_loop fuel s k (addr_of t) = Some r ∧
    match r with
    | None => find k (elems (plug t ctx)) = None
    | Some p => ∃ c l kk vv r' ctx', plug t ctx = plug (T c l p kk vv r') ctx' ∧ place k ctx' ∧
                  compare k kk = 0
    end.
Proof.
  induction fuel as [|fuel IH]; intros s t ctx k Hf H Hs Hp.
  { destruct t; [|cbn in Hf; lia]. exists None. split; [done|]. by rewrite place_find. }
  destruct t as [|c l p kk vv r]; cbn [lookup_loop addr_of].
  { exists None. split; [done|]. by rewrite place_find. }
  rewrite (R_focus _ _ _ _ _ _ _ _ H). cbn [mbind option_bind key left right]. cbn [height] in Hf.
  destruct (place_down k c l p kk vv r ctx Hs Hp) as [Hpl Hpr].
  destruct (Z.eqb_spec (compare k kk) 0) as [E0|E0].
  { exists (Some p). split; [done|]. by do 6 eexists. }
  destruct (Z.ltb_spec (compare k kk) 0) as [E1|E1].
  - destruct (IH s l (FL c p kk vv r :: ctx) k) as (x & E & Hx); [lia|done|done|auto|]. by exists x.
  - destruct (IH s r (FR c l p kk vv :: ctx) k) as (x & E & Hx); [lia|done|done|apply Hpr; lia|]. by exists x.
Qed.

(** Equal keys have the same neighbours. *)
Lemma cmp_zero_after k kk x : compare k kk = 0 → compare x kk < 0 → 0 < compare k x.
Proof.
  intros H0 Hx. destruct (Z.lt_trichotomy (compare k x) 0) as [Hc|[Hc|Hc]]; [| |done].
  - apply (cmp_eq k kk x H0) in Hc. apply cmp_antisym in Hc. lia.
  - apply (cmp_eq k x kk Hc) in Hx. lia.
Qed.

Lemma cmp_zero_before k kk x : compare k kk = 0 → compare kk x < 0 → compare k x < 0.
Proof. intros H0 Hx. by apply (cmp_eq k kk x H0). Qed.

Lemma after_zero k e l : compare k e.1 = 0 → Forall (λ x, below x e) l → after k l.
Proof. intros H Hl. eapply Forall_impl; [exact Hl|]. intros x Hx. by apply (cmp_zero_after k e.1). Qed.

Lemma sorted_node c l p k v r ctx :
  sorted (elems (plug (T c l p k v r) ctx)) → sorted ((cbefore ctx ++ elems l) ++ (k, v) :: elems r ++ cafter ctx).
Proof. rewrite elems_ctx. cbn [elems]. repeat (rewrite <- app_assoc; cbn [app]). done. Qed.

(** A red-black search tree with the contents [l]. *)
Definition holds (s : rbtree) (l : alist) : Prop :=
  ∃ t m, R s t ∧ rb t BLACK m ∧ elems t = l ∧ sorted l.

Lemma lookup_spec s l k : holds s l → rbtree_lookup s k = Some (find k l).
Proof.
  intros (t & m & H & _ & <- & Hs). unfold rbtree_lookup, lookup_node. rewrite (R_root _ _ H).
  destruct (lookup_loop_R (fuel_of s) s t [] k) as (r & -> & Hr); [|done|done|by split; constructor|].
  { pose proof (fuel_ctx s t [] H). pose proof (height_addrs t). cbn in *. lia. }
  cbn [mbind option_bind plug] in *. destruct r as [p|]; [|by rewrite Hr].
  destruct Hr as (c & l & kk & vv & r & ctx & -> & Hp & Hk). rewrite (R_focus _ _ _ _ _ _ _ _ H).
  cbn [mbind option_bind value]. f_equal. rewrite place_find by done. cbn.
  apply sorted_node, sorted_split in Hs as (Hl & _). apply Forall_app in Hl as [_ Hl].
  rewrite find_after; [cbn; by rewrite Hk|]. by apply (after_zero k (kk, vv)).
Qed.

(** *** Linking a new node *)
Definition fresh_node (k : K) (v : V) : node := mk_node RED k v None None None.

(** The hole at the end of a search gets the new node: first the pointer of
    the parent, then the parent of the node. *)
Lemma link_R s f ctx ins k v :
  R s (plug E (f :: ctx)) → ins ∉ addrs (plug E (f :: ctx)) → heap s !! ins = Some (fresh_node k v) →
  ∃ s1 s2, upd s (faddr f) (match f with FL _ _ _ _ _ => with_left (Some ins)
                            | FR _ _ _ _ _ => with_right (Some ins) end) = Some s1 ∧
    set_parent s1 ins (Some (faddr f)) = Some s2 ∧
    R s2 (plug (T RED E ins k v E) (f :: ctx)) ∧ dom (heap s2) = dom (heap s).
Proof.
  intros H Hi Hh. pose proof (R_frame _ _ _ _ H) as Hf. destruct H as [Hr Hroot Hn].
  rewrite (upd_eq _ _ _ _ Hf). rewrite addrs_plug in Hi. cbn [addrs app] in Hi.
  assert (Hne : faddr f ≠ ins) by (cbn [caddrs] in Hi; set_solver).
  eexists _, _. split; [done|]. unfold set_parent.
  split; [eapply upd_eq; cbn [heap]; rewrite lookup_alter_ne by done; exact Hh|].
  split; [split|]; cbn [heap root].
  - apply rep_plug in Hr as [_ Hc]. apply nodup_plug in Hn as (_ & _ & Hn). apply rep_plug.
    cbn [rep addr_of]. split; [split; [|done]|].
    + rewrite lookup_alter_eq, lookup_alter_ne, Hh by done. done.
    + eapply repc_frame; [|exact (repc_refill _ _ _ _ (Some ins) Hn Hc)]. intros q Hq.
      rewrite lookup_alter_ne; [done|]. intros ->. done.
  - rewrite Hroot. apply addr_of_plug. by left.
  - rewrite addrs_plug in *. cbn [addrs app] in *. by constructor.
  - by rewrite !dom_alter_L.
Qed.

Lemma insert_loop_R fuel : ∀ s c l n kk vv r ctx ins k v,
  let t := T c l n kk vv r in
  (length (addrs t) ≤ fuel)%nat → R s (plug t ctx) → sorted (elems (plug t ctx)) → place k ctx →
  ins ∉ addrs (plug t ctx) → heap s !! ins = Some (fresh_node k v) →
  ∃ s1 o, insert_loop fuel s ins n k v = Some (s1, o) ∧
    match o with
    | None => ∃ t', R s1 t' ∧ elems t' = put k v (elems (plug t ctx)) ∧
                (∀ m, rb (plug t ctx) BLACK m → ∃ m', rb t' BLACK m') ∧ dom (heap s1) = dom (heap s)
    | Some q => ∃ s2 ctx', set_parent s1 ins (Some q) = Some s2 ∧ plug t ctx = plug E ctx' ∧ place k ctx' ∧
                  R s2 (plug (T RED E ins k v E) ctx') ∧ dom (heap s2) = dom (heap s)
    end.
Proof.
  induction fuel as [|fuel IH]; intros s c l n kk vv r ctx ins k v t Hf H Hs Hp Hi Hh; [cbn in Hf; lia|].
  subst t. cbn [insert_loop]. rewrite (R_focus _ _ _ _ _ _ _ _ H). cbn [mbind option_bind key left right].
  cbn [addrs length] in Hf. rewrite length_app in Hf. destruct (place_down k c l n kk vv r ctx Hs Hp) as [Hpl Hpr].
  destruct (Z.eqb_spec (compare k kk) 0) as [E0|E0].
  - destruct (upd_R s c l n kk vv r ctx (with_value v) c kk v H) as (s' & -> & H' & D'); [done|].
    cbn [mbind option_bind]. eexists _, _. split; [done|]. eexists. split; [exact H'|]. split; [|split; [|done]].
    + rewrite place_put, elems_ctx by done. do 2 f_equal. cbn.
      apply sorted_node, sorted_split in Hs as (Hl & _). apply Forall_app in Hl as [_ Hl].
      rewrite put_after by by apply (after_zero k (kk, vv)). cbn. by rewrite E0.
    + intros m. apply rb_plug_kv.
  - destruct (Z.ltb_spec (compare k kk) 0) as [E1|E1].
    + destruct l as [|c' l' n' k' v' r']; cbn [addr_of].
      * destruct (link_R s (FL c n kk vv r) ctx ins k v H Hi Hh) as (s1 & s2 & E2 & E3 & H2 & D2).
        cbn [faddr] in *. unfold set_left. rewrite E2. cbn [mbind option_bind]. eexists _, _. split; [done|].
        exists s2, (FL c n kk vv r :: ctx). split_and!; try done. auto.
      * apply (IH s c' l' n' k' v' r' (FL c n kk vv r :: ctx)); try done; [lia|auto].
    + destruct r as [|c' l' n' k' v' r']; cbn [addr_of].
      * destruct (link_R s (FR c l n kk vv) ctx ins k v H Hi Hh) as (s1 & s2 & E2 & E3 & H2 & D2).
        cbn [faddr] in *. unfold set_right. rewrite E2. cbn [mbind option_bind]. eexists _, _. split; [done|].
        exists s2, (FR c l n kk vv :: ctx). split_and!; try done; apply Hpr; lia.
      * apply (IH s c' l' n' k' v' r' (FR c l n kk vv :: ctx)); try done; [lia|apply Hpr; lia].
Qed.

(** *** Laws of the specification *)
Lemma put_keys k v l e : e ∈ put k v l → e ∈ l ∨ e = (k, v) ∨ (e.2 = v ∧ ∃ v', (e.1, v') ∈ l).
Proof.
  induction l as [|[k' v'] l IH]; cbn; [set_solver|].
  destruct (_ =? _); [|destruct (_ <? _)]; rewrite !elem_of_cons; [|naive_solver|].
  - intros [->|He]; [|naive_solver]. right. right. split; [done|]. exists v'. by left.
  - intros [->|He]; [naive_solver|]. destruct (IH He) as [?|[?|[? [v2 ?]]]]; [naive_solver|naive_solver|].
    right. right. split; [done|]. exists v2. by right.
Qed.

Lemma put_sorted k v l : sorted l → sorted (put k v l).
Proof.
  unfold sorted. induction l as [|[k' v'] l IH]; cbn; intros H; [by repeat constructor|].
  apply StronglySorted_inv in H as [H1 H2].
  destruct (Z.eqb_spec (compare k k') 0) as [E0|E0]; [by constructor|].
  destruct (Z.ltb_spec (compare k k') 0) as [E1|E1].
  - constructor; [by constructor|]. constructor; [done|]. exact (before_trans k (k', v') _ E1 H2).
  - constructor; [by apply IH|]. apply Forall_forall. intros e He. rewrite Forall_forall in H2.
    destruct (put_keys _ _ _ _ He) as [Hx|[->|[_ [v'' Hx]]]]; [by apply H2| |exact (H2 _ Hx)].
    unfold below. cbn. apply cmp_antisym. lia.
Qed.

(** A free cell becomes a new node. *)
Lemma new_node_R s t k v p : R s t → heap s !! p = None →
  R (new_node s k v p) t ∧ (p ∉ addrs t) ∧ heap (new_node s k v p) !! p = Some (fresh_node k v).
Proof.
  intros [Hr Hroot Hn] Hp.
  assert (Hi : p ∉ addrs t).
  { intros Hi. clear Hroot Hn. revert Hr Hi. generalize (@None addr).
    induction t as [|c l IHl q k' v' r IHr]; cbn; intros par Hr Hi; [set_solver|].
    destruct Hr as (H1 & H2 & H3). apply elem_of_cons in Hi as [->|Hi]; [congruence|].
    apply elem_of_app in Hi as [Hi|Hi]; eauto. }
  unfold new_node. split; [split; cbn [heap root]; try done|].
  - eapply rep_frame; [|exact Hr]. intros q Hq. cbn. apply lookup_insert_ne. by intros ->.
  - split; [done|]. cbn [heap]. by rewrite lookup_insert_eq.
Qed.

Lemma insert_spec s l k v p :
  holds s l → heap s !! p = None →
  ∃ s', rbtree_insert (new_node s k v p) p = Some s' ∧ holds s' (put k v l) ∧
    dom (heap s') = {[p]} ∪ dom (heap s).
Proof.
  intros (t & m & H & Hb & <- & Hs) Hp. destruct (new_node_R s t k v p H Hp) as (H0 & Hi & Hh).
  assert (D0 : dom (heap (new_node s k v p)) = {[p]} ∪ dom (heap s)) by apply dom_insert_L.
  set (s0 := new_node s k v p) in *. clearbody s0. rewrite <- D0. clear D0 H Hp s.
  assert (Hfix : ∀ s1 ctx, R s1 (plug (T RED E p k v E) ctx) → t = plug E ctx → place k ctx →
    dom (heap s1) = dom (heap s0) →
    ∃ s', (s ← insert_case1 (fuel_of s1) s1 p; _ ← verify_properties s; Some s) = Some s' ∧
      holds s' (put k v (elems t)) ∧ dom (heap s') = dom (heap s0)).
  { intros s1 ctx H1 -> Hpl D1. destruct (plug_cx _ _ _ Hb) as (b & n & c & Hcx & Hrb & _).
    inversion Hrb; subst. destruct (insert_fix_R (fuel_of s1) s1 (T RED E p k v E) ctx p 0 b)
      as (s' & -> & t' & m' & H' & Hb' & El & D'); [|done|done|apply rb_red; apply rb_E|done|].
    { pose proof (fuel_ctx s1 (T RED E p k v E) ctx H1). lia. }
    cbn [mbind option_bind]. rewrite (verify_ok _ _ _ H' Hb'). cbn [mbind option_bind].
    exists s'. split; [done|]. split; [|congruence]. exists t', m'. split; [done|]. split; [done|].
    split; [|by apply put_sorted]. rewrite El, place_put, elems_ctx by done. done. }
  unfold rbtree_insert. rewrite Hh. cbn [mbind option_bind key value fresh_node].
  rewrite (R_root _ _ H0). destruct t as [|c lt n kk vv rt]; cbn [addr_of].
  - cbn [mbind option_bind]. apply (Hfix _ []); try done; [|by split; constructor].
    split; cbn [heap root plug rep addrs]; [by split|done|apply NoDup_singleton].
  - destruct (insert_loop_R (fuel_of s0) s0 c lt n kk vv rt [] p k v) as (s1 & o & -> & Ho); try done.
    { pose proof (fuel_ctx s0 _ [] H0). cbn [length] in *. lia. } { by split; constructor. }
    cbn [mbind option_bind]. destruct o as [q|].
    + destruct Ho as (s2 & ctx & -> & Ht & Hpl & H2 & D2). cbn [mbind option_bind].
      by apply (Hfix s2 ctx).
    + destruct Ho as (t' & H' & El & Hm & D'). destruct (Hm m Hb) as [m' Hb']. cbn [mbind option_bind].
      exists s1. split; [done|]. split; [|done]. exists t', m'. split; [done|]. split; [done|].
      split; [done|by apply put_sorted].
Qed.

(** ** Deletion *)

(** What a repair after a deletion promises: the hole, which had one black
    node too few, takes a tree with [h] black nodes on its paths, and below a
    parent also a red one. *)
Definition rebalanced (s : rbtree) (t : tree) (ctx : list frame) (h : nat) (s' : rbtree) : Prop :=
  ∃ ctx' b', R s' (plug t ctx') ∧ cx ctx' b' h ∧ (ctx ≠ [] → b' = false) ∧
    cbefore ctx' = cbefore ctx ∧ cafter ctx' = cafter ctx ∧ dom (heap s') = dom (heap s).

(** The child of the sibling that is far from the hole, and the near one. *)
Definition far (f : frame) (sl sr : tree) : tree := match f with FL _ _ _ _ _ => sr | FR _ _ _ _ _ => sl end.
Definition near (f : frame) (sl sr : tree) : tree := match f with FL _ _ _ _ _ => sl | FR _ _ _ _ _ => sr end.

Ltac cel := cbn [cbefore cafter elems]; repeat (rewrite <- app_assoc; cbn [app]); reflexivity.

Lemma R_fcolor s t f ctx : R s (plug t (f :: ctx)) → node_color s (Some (faddr f)) = Some (fcolor f).
Proof. intros H. pose proof (R_color s (fill t f) ctx H) as Hc. destruct f; exact Hc. Qed.

Lemma R_sib_color s t f ctx : R s (plug t (f :: ctx)) → node_color s (addr_of (fsib f)) = Some (tcolor (fsib f)).
Proof. intros H. rewrite sib_zip in H. exact (R_color _ _ _ H). Qed.

(** The sibling and its children. *)
Lemma R_sib s t f ctx c sl q ks vs sr : R s (plug t (f :: ctx)) → fsib f = T c sl q ks vs sr →
  heap s !! q = Some (mk_node c ks vs (addr_of sl) (addr_of sr) (Some (faddr f))) ∧
  node_color s (addr_of sl) = Some (tcolor sl) ∧ node_color s (addr_of sr) = Some (tcolor sr).
Proof.
  intros H Hf. rewrite sib_zip, Hf in H.
  assert (Hc : ∀ g, match f with FL c0 p k v _ => FR c0 t p k v | FR c0 _ p k v => FL c0 p k v t end = g →
    faddr g = faddr f) by (intros g <-; by destruct f).
  destruct (match f with FL _ _ _ _ _ => _ | FR _ _ _ _ _ => _ end) as [] eqn:Eg; specialize (Hc _ eq_refl);
    rewrite <- Hc; (split; [exact (R_focus _ _ _ _ _ _ _ _ H)|]);
    (split; [exact (R_color s sl (FL c q ks vs sr :: _ :: ctx) H)|exact (R_color s sr (FR c sl q ks vs :: _ :: ctx) H)]).
Qed.

Lemma sibling_is_R s t f ctx n sl q ks vs sr cl cr :
  R s (plug t (f :: ctx)) → addr_of t = Some n → fsib f = T BLACK sl q ks vs sr →
  sibling_is s n cl cr = Some (bool_decide (tcolor sl = cl) && bool_decide (tcolor sr = cr)).
Proof.
  intros H Hn Hf. unfold sibling_is. rewrite (R_sibling _ _ _ _ _ H Hn). cbn [mbind option_bind].
  destruct (R_sib _ _ _ _ _ _ _ _ _ _ H Hf) as (H1 & H2 & H3).
  rewrite (R_sib_color _ _ _ _ H), Hf. cbn [mbind option_bind tcolor addr_of]. rewrite bool_decide_true by done.
  by rewrite H1; cbn [mbind option_bind left right]; rewrite H2; cbn [mbind option_bind]; rewrite H3.
Qed.

Lemma rb_red_inv t c n : rb t c n → tcolor t = RED →
  ∃ l p k v r, t = T RED l p k v r ∧ rb l BLACK n ∧ rb r BLACK n.
Proof. intros [] Hc; try done. by do 5 eexists. Qed.

Lemma delete_case6_R s t f ctx n b h sl q ks vs sr :
  R s (plug t (f :: ctx)) → addr_of t = Some n → cx (f :: ctx) b (S h) →
  fsib f = T BLACK sl q ks vs sr → tcolor (far f sl sr) = RED →
  ∃ s', delete_case6 s n = Some s' ∧ rebalanced s t (f :: ctx) h s'.
Proof.
  intros H Hn Hcx Hf Hfar. unfold delete_case6.
  rewrite (R_sibling _ _ _ _ _ H Hn), Hf. cbn [mbind option_bind addr_of].
  rewrite (R_parent _ _ _ _ H Hn). cbn [cpar head fmap option_fmap option_map mbind option_bind].
  rewrite (R_fcolor _ _ _ _ H). cbn [mbind option_bind].
  destruct (sibpaint_R s t f ctx q (fcolor f) H) as (s1 & -> & H1 & D1); [by rewrite Hf|].
  cbn [mbind option_bind]. rewrite Hf in H1. cbn [tpaint] in H1.
  destruct (fpaint_R _ _ _ _ BLACK H1) as (s2 & E2 & H2 & D2).
  replace (faddr (sib_with _ f)) with (faddr f) in E2 by by destruct f. rewrite E2. cbn [mbind option_bind].
  set (f2 := fpaint BLACK _) in H2.
  replace (faddr f) with (faddr f2) by by destruct f. rewrite (R_frame _ _ _ _ H2). cbn [mbind option_bind].
  rewrite (R_sibling _ _ _ _ _ H2 Hn). cbn [mbind option_bind].
  assert (Hf2 : fsib f2 = T (fcolor f) sl q ks vs sr) by by destruct f.
  pose proof (R_side _ _ _ _ _ H2 Hn) as Hside. rewrite Hf2. cbn [mbind option_bind addr_of].
  destruct (R_sib _ _ _ _ _ _ _ _ _ _ H2 Hf2) as (G1 & G2 & G3). rewrite G1. cbn [mbind option_bind left right].
  assert (Hrb : ∃ cl cr, rb sl cl h ∧ rb sr cr h).
  { inversion Hcx as [|? ? ? ? ? ? Hs|? ? ? ? Hs]; subst; rewrite Hf in Hs; inversion Hs; subst; eauto. }
  destruct Hrb as (cl & cr & Hl & Hr). rewrite Hn.
  destruct f as [c p k v sib|c sib p k v]; cbn [fsib far fcolor] in *; subst sib; subst f2;
    cbn [sib_with fpaint fnode left right faddr addr_of fsib] in *.
  - rewrite bool_decide_true by done. rewrite G3. cbn [mbind option_bind]. rewrite Hfar, bool_decide_true by done.
    destruct (rb_red_inv _ _ _ Hr Hfar) as (a & x & kx & vx & d & -> & Ha & Hd). cbn [addr_of mbind option_bind].
    destruct (set_color_R s2 RED a x kx vx d (FR c sl q ks vs :: FR BLACK t p k v :: ctx) BLACK H2) as (s3 & -> & H3 & D3).
    cbn [mbind option_bind].
    destruct (rotate_left_R s3 _ _ _ _ _ _ _ _ _ _ _ ctx H3) as (s4 & -> & H4 & D4).
    exists s4. split; [done|].
    exists (FL BLACK p k v sl :: FL c q ks vs (T BLACK a x kx vx d) :: ctx), false.
    split; [exact H4|]. split.
    + inversion Hcx as [|? ? ? b' ? Ec Hs Ho|? ? ? Ec Hs Ho]; subst; cbn in Ec; subst c.
      * eapply cx_black; [done|done|]. eapply cx_black; [done| |done]. by econstructor.
      * eapply cx_black; [done|done|]. eapply cx_red; [done| |done]. by econstructor.
    + split_and!; try done; [cel|congruence].
  - rewrite bool_decide_false by congruence. rewrite G2. cbn [mbind option_bind]. rewrite Hfar, bool_decide_true by done.
    destruct (rb_red_inv _ _ _ Hl Hfar) as (a & x & kx & vx & d & -> & Ha & Hd). cbn [addr_of mbind option_bind].
    destruct (set_color_R s2 RED a x kx vx d (FL c q ks vs sr :: FL BLACK p k v t :: ctx) BLACK H2) as (s3 & -> & H3 & D3).
    cbn [mbind option_bind].
    destruct (rotate_right_R s3 _ _ _ _ _ _ _ _ _ _ _ ctx H3) as (s4 & -> & H4 & D4).
    exists s4. split; [done|].
    exists (FR BLACK sr p k v :: FR c (T BLACK a x kx vx d) q ks vs :: ctx), false.
    split; [exact H4|]. split.
    + inversion Hcx as [|? ? ? b' ? Ec Hs Ho|? ? ? Ec Hs Ho]; subst; cbn in Ec; subst c.
      * eapply cx_black; [done|done|]. eapply cx_black; [done| |done]. by econstructor.
      * eapply cx_black; [done|done|]. eapply cx_red; [done| |done]. by econstructor.
    + split_and!; try done; [cel|congruence].
Qed.

Lemma rebalanced_trans s s1 s' t f ctx f1 ctx1 h :
  rebalanced s1 t (f1 :: ctx1) h s' → dom (heap s1) = dom (heap s) →
  cbefore (f1 :: ctx1) = cbefore (f :: ctx) → cafter (f1 :: ctx1) = cafter (f :: ctx) →
  rebalanced s t (f :: ctx) h s'.
Proof.
  intros (ctx' & b' & H1 & H2 & H3 & H4 & H5 & H6) D B A. exists ctx', b'.
  split_and!; try done; [intros _; by apply H3|congruence..].
Qed.

(** The colours of the black sibling's children. *)
Lemma cx_sib f ctx b h sl q ks vs sr :
  cx (f :: ctx) b (S h) → fsib f = T BLACK sl q ks vs sr → rb sl (tcolor sl) h ∧ rb sr (tcolor sr) h.
Proof.
  intros Hcx Hf. inversion Hcx as [|? ? ? ? ? ? Hs|? ? ? ? Hs]; subst; rewrite Hf in Hs;
    inversion Hs as [| |? ? ? ? ? cl cr ? Hl Hr]; subst;
    by rewrite (rb_tcolor _ _ _ Hl), (rb_tcolor _ _ _ Hr).
Qed.

(** The sibling is exchanged for another one of its height. *)
Lemma cx_sib_with f ctx b n u : cx (f :: ctx) b n → rb u BLACK n → cx (sib_with u f :: ctx) b n.
Proof.
  intros Hcx Hu. inversion Hcx; subst; destruct f; cbn in *; subst.
  all: first [by eapply cx_black | by apply cx_red].
Qed.

Lemma delete_case5_R s t f ctx n b h sl q ks vs sr :
  R s (plug t (f :: ctx)) → addr_of t = Some n → cx (f :: ctx) b (S h) →
  fsib f = T BLACK sl q ks vs sr → tcolor sl = RED ∨ tcolor sr = RED →
  ∃ s', delete_case5 s n = Some s' ∧ rebalanced s t (f :: ctx) h s'.
Proof.
  intros H Hn Hcx Hf Hred. unfold delete_case5.
  rewrite (R_parent _ _ _ _ H Hn). cbn [cpar head fmap option_fmap option_map mbind option_bind].
  rewrite (R_frame _ _ _ _ H). cbn [mbind option_bind].
  destruct (cx_sib _ _ _ _ _ _ _ _ _ Hcx Hf) as [Hl Hr].
  pose proof (R_side _ _ _ _ _ H Hn) as Hside. rewrite !(sibling_is_R _ _ _ _ _ _ _ _ _ _ _ _ H Hn Hf).
  rewrite (R_sibling _ _ _ _ _ H Hn), Hn. rewrite Hf in Hside |- *. cbn [addr_of] in *.
  destruct (decide (tcolor (far f sl sr) = RED)) as [Hfar|Hfar].
  { destruct (delete_case6_R s t f ctx n b h sl q ks vs sr H Hn Hcx Hf Hfar) as (s' & E' & Hb).
    exists s'. split; [|exact Hb]. rewrite <- E'.
    destruct f; cbn [fnode left right far fsib] in *; subst; rewrite Hfar; cbn [addr_of].
    - rewrite (bool_decide_true (Some n = Some n)), (bool_decide_false (RED = BLACK)), andb_false_r by done.
      cbn [mbind option_bind]. rewrite bool_decide_false by congruence. done.
    - rewrite (bool_decide_false (Some n = Some q)) by congruence. cbn [mbind option_bind].
      rewrite bool_decide_true by done. rewrite (bool_decide_false (RED = BLACK)) by done. done. }
  destruct f as [c p k v sib|c sib p k v]; cbn [fnode left right far fsib] in *; subst sib; cbn [addr_of];
    cbn [mbind option_bind].
  - assert (El : tcolor sl = RED) by tauto. assert (Er : tcolor sr = BLACK) by (by destruct (tcolor sr)).
    rewrite El, Er, (bool_decide_true (Some n = Some n)), (bool_decide_true (RED = RED)),
      (bool_decide_true (BLACK = BLACK)) by done. cbn [andb mbind option_bind].
    destruct (rb_red_inv _ _ _ Hl El) as (a & x & kx & vx & d & -> & Ha & Hd). rewrite Er in Hr.
    destruct (set_color_R s BLACK _ q ks vs sr (FR c t p k v :: ctx) RED H) as (s1 & -> & H1 & D1).
    cbn [mbind option_bind]. rewrite (R_focus _ _ _ _ _ _ _ _ H1). cbn [mbind option_bind left addr_of].
    destruct (set_color_R s1 RED a x kx vx d (FL RED q ks vs sr :: FR c t p k v :: ctx) BLACK H1) as (s2 & -> & H2 & D2).
    cbn [mbind option_bind].
    destruct (rotate_right_R s2 _ _ _ _ _ _ _ _ _ _ _ (FR c t p k v :: ctx) H2) as (s3 & -> & H3 & D3).
    cbn [mbind option_bind].
    destruct (delete_case6_R s3 t (FL c p k v (T BLACK a x kx vx (T RED d q ks vs sr))) ctx n b h
      a x kx vx (T RED d q ks vs sr)) as (s' & E' & Hb); try done.
    { apply (cx_sib_with _ _ _ _ _ Hcx). econstructor; [done|]. by constructor. }
    exists s'. split; [done|]. apply (rebalanced_trans _ _ _ _ _ _ _ _ _ Hb); [congruence|done|cel].
  - assert (El : tcolor sr = RED) by tauto. assert (Er : tcolor sl = BLACK) by (by destruct (tcolor sl)).
    rewrite (bool_decide_false (Some n = Some q)) by congruence. cbn [mbind option_bind].
    rewrite El, Er, (bool_decide_true (Some n = Some n)), (bool_decide_true (RED = RED)),
      (bool_decide_true (BLACK = BLACK)) by done. cbn [andb mbind option_bind].
    destruct (rb_red_inv _ _ _ Hr El) as (a & x & kx & vx & d & -> & Ha & Hd). rewrite Er in Hl.
    destruct (set_color_R s BLACK sl q ks vs _ (FL c p k v t :: ctx) RED H) as (s1 & -> & H1 & D1).
    cbn [mbind option_bind]. rewrite (R_focus _ _ _ _ _ _ _ _ H1). cbn [mbind option_bind right addr_of].
    destruct (set_color_R s1 RED a x kx vx d (FR RED sl q ks vs :: FL c p k v t :: ctx) BLACK H1) as (s2 & -> & H2 & D2).
    cbn [mbind option_bind].
    destruct (rotate_left_R s2 _ _ _ _ _ _ _ _ _ _ _ (FL c p k v t :: ctx) H2) as (s3 & -> & H3 & D3).
    cbn [mbind option_bind].
    destruct (delete_case6_R s3 t (FR c (T BLACK (T RED sl q ks vs a) x kx vx d) p k v) ctx n b h
      (T RED sl q ks vs a) x kx vx d) as (s' & E' & Hb); try done.
    { apply (cx_sib_with _ _ _ _ _ Hcx). econstructor; [|done]. by constructor. }
    exists s'. split; [done|]. apply (rebalanced_trans _ _ _ _ _ _ _ _ _ Hb); [congruence|cel|done].
Qed.

Lemma cx_black_sib f ctx b h : cx (f :: ctx) b (S h) → tcolor (fsib f) = BLACK →
  ∃ sl q ks vs sr, fsib f = T BLACK sl q ks vs sr.
Proof.
  intros Hcx Hc. inversion Hcx as [|? ? ? ? ? ? Hs|? ? ? ? Hs]; subst; inversion Hs as [| |? ? ? ? ? ? ? ? ? ? Eq]; subst;
    try (match goal with H : _ = fsib f |- _ => rewrite <- H in Hc end; done); by do 5 eexists.
Qed.

(** The black sibling with black children becomes red. *)
Lemma sib_red_R s t f ctx n b h sl q ks vs sr :
  R s (plug t (f :: ctx)) → addr_of t = Some n → cx (f :: ctx) b (S h) →
  fsib f = T BLACK sl q ks vs sr → tcolor sl = BLACK → tcolor sr = BLACK →
  ∃ s1, (sb ← sibling s n; sb ← sb; set_color s sb RED) = Some s1 ∧
    R s1 (plug t (sib_with (T RED sl q ks vs sr) f :: ctx)) ∧ rb (T RED sl q ks vs sr) RED h ∧
    dom (heap s1) = dom (heap s).
Proof.
  intros H Hn Hcx Hf El Er. rewrite (R_sibling _ _ _ _ _ H Hn), Hf. cbn [mbind option_bind addr_of].
  destruct (cx_sib _ _ _ _ _ _ _ _ _ Hcx Hf) as [Hl Hr]. rewrite El in Hl. rewrite Er in Hr.
  destruct (sibpaint_R s t f ctx q RED H) as (s1 & E1 & H1 & D1); [by rewrite Hf|]. rewrite Hf in H1.
  exists s1. split_and!; try done. by constructor.
Qed.

Lemma csib f u ctx c' : elems u = elems (fsib f) →
  cbefore (fpaint c' (sib_with u f) :: ctx) = cbefore (f :: ctx) ∧
  cafter (fpaint c' (sib_with u f) :: ctx) = cafter (f :: ctx).
Proof. intros Hu. destruct f; cbn [fpaint sib_with cbefore cafter fsib] in *; by rewrite Hu. Qed.

Lemma delete_case4_R s t f ctx n b h sl q ks vs sr :
  R s (plug t (f :: ctx)) → addr_of t = Some n → cx (f :: ctx) b (S h) →
  fsib f = T BLACK sl q ks vs sr → (fcolor f = RED ∨ tcolor sl = RED ∨ tcolor sr = RED) →
  ∃ s', delete_case4 s n = Some s' ∧ rebalanced s t (f :: ctx) h s'.
Proof.
  intros H Hn Hcx Hf Hred. unfold delete_case4.
  rewrite (R_parent _ _ _ _ H Hn). cbn [cpar head fmap option_fmap option_map mbind option_bind].
  rewrite (R_fcolor _ _ _ _ H). cbn [mbind option_bind].
  rewrite (sibling_is_R _ _ _ _ _ _ _ _ _ _ BLACK BLACK H Hn Hf).
  destruct (decide (fcolor f = RED ∧ tcolor sl = BLACK ∧ tcolor sr = BLACK)) as [(Ec & El & Er)|Hnot].
  - rewrite Ec, El, Er. rewrite !bool_decide_true by done. cbn [andb mbind option_bind].
    destruct (sib_red_R _ _ _ _ _ _ _ _ _ _ _ _ H Hn Hcx Hf El Er) as (s1 & E1 & H1 & Hrb & D1).
    rewrite (R_sibling _ _ _ _ _ H Hn) in E1 |- *. cbn [mbind option_bind] in *.
    destruct (addr_of (fsib f)); [|done]. cbn [mbind option_bind] in *. rewrite E1. cbn [mbind option_bind].
    destruct (fpaint_R _ _ _ _ BLACK H1) as (s2 & E2 & H2 & D2).
    replace (faddr (sib_with _ f)) with (faddr f) in E2 by by destruct f. rewrite E2. exists s2. split; [done|].
    eexists _, false. split; [exact H2|].
    inversion Hcx as [|? ? ? ? ? Ec'|? ? ? _ Hs Ho]; subst; [congruence|]. split.
    + eapply cx_black; [by destruct f| |exact Ho]. by destruct f.
    + destruct (csib f (T RED sl q ks vs sr) ctx BLACK) as [-> ->]; [by rewrite Hf|].
      split_and!; try done. congruence.
  - assert (Hb : (b0 ← (if bool_decide (fcolor f = RED) then
        Some (bool_decide (tcolor sl = BLACK) && bool_decide (tcolor sr = BLACK)) else Some false);
      Some b0) = Some false).
    { repeat case_bool_decide; cbn; try done. by destruct Hnot. }
    destruct (if bool_decide (fcolor f = RED) then _ else _) as [b0|]; [|done]. cbn [mbind option_bind] in Hb |- *.
    injection Hb as ->. eapply delete_case5_R; try done. destruct Hred as [Hc|?]; [|done].
    destruct (tcolor sl) eqn:El, (tcolor sr) eqn:Er; tauto.
Qed.

(** [delete_case2] with a red sibling: the parent becomes red and the new
    sibling is black. *)
Lemma delete_case2_R s t f ctx n b h :
  R s (plug t (f :: ctx)) → addr_of t = Some n → cx (f :: ctx) b (S h) → tcolor (fsib f) = RED →
  ∃ s1 f1 f2, (s ← set_color s (faddr f) RED; sb ← sibling s n; sb ← sb; s ← set_color s sb BLACK;
      xp ← heap s !! faddr f;
      if bool_decide (Some n = left xp) then rotate_left s (faddr f) else rotate_right s (faddr f)) = Some s1 ∧
    R s1 (plug t (f1 :: f2 :: ctx)) ∧ cx (f1 :: f2 :: ctx) true (S h) ∧ tcolor (fsib f1) = BLACK ∧
    fcolor f1 = RED ∧ cbefore (f1 :: f2 :: ctx) = cbefore (f :: ctx) ∧
    cafter (f1 :: f2 :: ctx) = cafter (f :: ctx) ∧ dom (heap s1) = dom (heap s).
Proof.
  intros H Hn Hcx Hred.
  inversion Hcx as [|? ? cs b2 ? Ec Hs Ho|? ? ? _ Hs _]; subst; [|by rewrite (rb_tcolor _ _ _ Hs) in Hred].
  destruct (rb_red_inv _ _ _ Hs Hred) as (sl & q & ks & vs & sr & Hf & Hl & Hr).
  destruct (fpaint_R _ _ _ _ RED H) as (s1 & -> & H1 & D1). cbn [mbind option_bind].
  rewrite (R_sibling _ _ _ _ _ H1 Hn). cbn [mbind option_bind].
  assert (Hf1 : fsib (fpaint RED f) = T RED sl q ks vs sr) by by destruct f.
  destruct (sibpaint_R s1 t _ ctx q BLACK H1) as (s2 & E2 & H2 & D2); [by rewrite Hf1|].
  rewrite Hf1 in H2 |- *. cbn [addr_of mbind option_bind tpaint] in *. rewrite E2. cbn [mbind option_bind].
  set (g := sib_with _ _) in *. replace (faddr f) with (faddr g) by by destruct f.
  rewrite (R_frame _ _ _ _ H2). cbn [mbind option_bind]. pose proof (R_side _ _ _ _ _ H2 Hn) as Hside. rewrite Hn.
  destruct f as [c p k v sib|c sib p k v]; cbn in Ec, Hf; subst; subst g;
    cbn [sib_with fpaint fnode left faddr addr_of fsib] in *.
  - rewrite bool_decide_true by done.
    destruct (rotate_left_R s2 _ _ _ _ _ _ _ _ _ _ _ ctx H2) as (s3 & -> & H3 & D3).
    exists s3, (FL RED p k v sl), (FL BLACK q ks vs sr). split_and!; try done; [| |cel|congruence].
    + apply cx_red; [done..|]. by eapply cx_black.
    + by apply (rb_tcolor _ _ _ Hl).
  - rewrite bool_decide_false by congruence.
    destruct (rotate_right_R s2 _ _ _ _ _ _ _ _ _ _ _ ctx H2) as (s3 & -> & H3 & D3).
    exists s3, (FR RED sr p k v), (FR BLACK sl q ks vs). split_and!; try done; [| |cel|congruence].
    + apply cx_red; [done..|]. by eapply cx_black.
    + by apply (rb_tcolor _ _ _ Hr).
Qed.

Lemma delete_fix_R fuel : ∀ s t ctx n h b,
  (length ctx < fuel)%nat → R s (plug t ctx) → addr_of t = Some n → cx ctx b (S h) →
  ∃ s', delete_case1 fuel s n = Some s' ∧ rebalanced s t ctx h s'.
Proof.
  induction fuel as [|fuel IH]; intros s t ctx n h b Hlen H Hn Hcx; [lia|]. cbn [delete_case1].
  assert (Hx : ∃ x, heap s !! n = Some x ∧ parent x = cpar ctx).
  { destruct t; [done|]. injection Hn as ->. rewrite (R_focus _ _ _ _ _ _ _ _ H). eauto. }
  destruct Hx as (x & -> & Hpx). cbn [mbind option_bind]. rewrite Hpx. destruct ctx as [|f ctx].
  { exists s. split; [done|]. exists [], true. split_and!; try done. constructor. }
  cbn [cpar head fmap option_fmap option_map]. match goal with |- context [mbind ?k (if _ then _ else Some s)] =>
    set (tail := k) end.
  assert (Htail : ∀ s1 f1 ctx1 b1, R s1 (plug t (f1 :: ctx1)) → cx (f1 :: ctx1) b1 (S h) →
    tcolor (fsib f1) = BLACK → (fcolor f1 = BLACK → length ctx1 < fuel)%nat →
    ∃ s', tail s1 = Some s' ∧ rebalanced s1 t (f1 :: ctx1) h s').
  { intros s1 f1 ctx1 b1 H1 Hcx1 Hsc Hfu. destruct (cx_black_sib _ _ _ _ Hcx1 Hsc) as (sl & q & ks & vs & sr & Hf).
    subst tail. cbv beta. rewrite (R_parent _ _ _ _ H1 Hn). cbn [cpar head fmap option_fmap option_map mbind option_bind].
    rewrite (R_fcolor _ _ _ _ H1). cbn [mbind option_bind].
    rewrite (sibling_is_R _ _ _ _ _ _ _ _ _ _ BLACK BLACK H1 Hn Hf).
    destruct (decide (fcolor f1 = BLACK ∧ tcolor sl = BLACK ∧ tcolor sr = BLACK)) as [(Ec & El & Er)|Hnot].
    - rewrite Ec, El, Er. rewrite !bool_decide_true by done. cbn [andb mbind option_bind].
      destruct (sib_red_R _ _ _ _ _ _ _ _ _ _ _ _ H1 Hn Hcx1 Hf El Er) as (s2 & E2 & H2 & Hrb & D2).
      rewrite (R_sibling _ _ _ _ _ H1 Hn) in E2 |- *. cbn [mbind option_bind] in *.
      destruct (addr_of (fsib f1)); [|done]. cbn [mbind option_bind] in *. rewrite E2. cbn [mbind option_bind].
      rewrite (R_parent _ _ _ _ H2 Hn). cbn [cpar head fmap option_fmap option_map mbind option_bind].
      set (f2 := sib_with _ f1) in *.
      inversion Hcx1 as [|? ? ? b2 ? _ Hs Ho|? ? ? Ec' Hs Ho]; subst; [|congruence].
      destruct (IH s2 (fill t f2) ctx1 (faddr f2) (S h) b2) as (s' & E' & ctx' & b' & H' & C' & _ & B' & A' & D');
        [auto|exact H2|by destruct f1|done|].
      exists s'. split; [exact E'|]. exists (f2 :: ctx'), false. split; [exact H'|].
      split; [eapply (cx_black _ _ RED); [by destruct f1|by destruct f1|done]|].
      destruct (csib f1 (T RED sl q ks vs sr) ctx1 BLACK) as [HB HA]; [by rewrite Hf|].
      split; [done|]. rewrite <- HB, <- HA. split_and!; [| |congruence]; destruct f1; cbn; congruence.
    - destruct (delete_case4_R s1 t f1 ctx1 n b1 h sl q ks vs sr) as (s' & E' & Hb); try done.
      { destruct (fcolor f1) eqn:?, (tcolor sl) eqn:?, (tcolor sr) eqn:?; tauto. }
      exists s'. split; [|done]. rewrite <- E'. repeat case_bool_decide; cbn [andb mbind option_bind]; try done.
      by destruct Hnot. }
  rewrite (R_sibling _ _ _ _ _ H Hn). cbn [mbind option_bind]. rewrite (R_sib_color _ _ _ _ H). cbn [mbind option_bind].
  destruct (tcolor (fsib f)) eqn:Esc.
  2: { rewrite bool_decide_false by done. cbn [mbind option_bind]. apply (Htail s f ctx b); try done.
       intros _. cbn [length] in Hlen. lia. }
  rewrite bool_decide_true by done.
  destruct (delete_case2_R _ _ _ _ _ _ _ H Hn Hcx Esc) as (s1 & f1 & f2 & -> & H1 & C1 & S1 & F1 & B1 & A1 & D1).
  cbn [mbind option_bind]. destruct (Htail s1 f1 (f2 :: ctx) true) as (s' & E' & Hb); try done; [congruence|].
  exists s'. split; [exact E'|]. by eapply rebalanced_trans.
Qed.

(** *** Unlinking a node *)
Definition child_of (l r : tree) : tree := match r with E => l | _ => r end.

Lemma unlink_R s c l n k v r ctx :
  R s (plug (T c l n k v r) ctx) → l = E ∨ r = E →
  ∃ s', replace_node s n (addr_of (child_of l r)) = Some s' ∧
    R (mk_t (delete n (heap s')) (root s')) (plug (child_of l r) ctx) ∧ dom (heap s') = dom (heap s).
Proof.
  intros H Hlr. pose proof (R_focus _ _ _ _ _ _ _ _ H) as Hx. destruct H as [Hr Hroot Hn].
  apply rep_plug in Hr as [(_ & Rl & Rr) Hc]. pose proof Hn as Hn'. apply nodup_plug in Hn as (Hn1 & Hn2 & Hn3).
  cbn [addrs addr_of] in *. apply NoDup_cons in Hn1 as [Hnl Hn1]. apply NoDup_app in Hn1 as (Hnd1 & _ & Hnd2).
  set (ch := child_of l r). assert (Rc : rep (heap s) (Some n) ch) by by (subst ch; destruct r).
  assert (Hch : NoDup (addrs ch)) by by (subst ch; destruct r).
  assert (Hsub : ∀ x, x ∈ addrs ch → x ≠ n ∧ x ∉ caddrs ctx).
  { intros x Hxc. assert (x ∈ addrs l ++ addrs r) by (subst ch; destruct r; set_solver).
    split; [set_solver|]. apply Hn2. set_solver. }
  assert (Hnc : n ∉ caddrs ctx) by (apply Hn2; set_solver).
  rewrite (replace_node_eq s n (addr_of ch) ctx _ Hx); [|done|done|done|].
  2: { intros m Hm. destruct ch; [done|]. injection Hm as ->. destruct Rc as [-> _]. by eexists. }
  set (h := refill ctx (addr_of ch) (heap s)).
  assert (Hh : ∀ o, o = addr_of ch → match o with None => h
    | Some m => alter (with_parent (cpar ctx)) m h end = reparent ch (cpar ctx) h).
  { intros o ->. unfold reparent. by destruct (addr_of ch). }
  eexists. split; [done|]. cbn [heap root]. rewrite Hh by done. split; [split|]; cbn [heap root].
  - apply rep_plug. split.
    + eapply rep_frame; [|apply (rep_reparent h ch (Some n) (cpar ctx) Hch)].
      * intros p Hp. apply lookup_delete_ne. symmetry. by apply Hsub.
      * eapply rep_frame; [|exact Rc]. intros p Hp. apply refill_ne. by apply Hsub.
    + eapply repc_frame; [|exact (repc_refilled _ _ _ (addr_of ch) Hn3 Hc)]. intros p Hp.
      rewrite lookup_delete_ne by (intros ->; done). apply reparent_ne. intros Hp'. by apply Hsub in Hp' as [].
  - by apply (R_root_plug _ _ ch) in Hroot.
  - rewrite nodup_plug. split_and!; try done. intros x Hxc. by apply Hsub.
  - rewrite dom_reparent. apply dom_refill.
Qed.

(** A node with at most one child has height 0 below it. *)
Lemma one_child l r cl cr h : rb l cl h → rb r cr h → l = E ∨ r = E → h = 0%nat.
Proof. intros Hl Hr [->| ->]; [by inversion Hl|by inversion Hr]. Qed.

Lemma delete_node_R s c l n k v r ctx m :
  R s (plug (T c l n k v r) ctx) → rb (plug (T c l n k v r) ctx) BLACK m → l = E ∨ r = E →
  ctx ≠ [] ∨ child_of l r = E →
  ∃ s' t' m', delete_node s n = Some s' ∧ R s' t' ∧ rb t' BLACK m' ∧
    elems t' = cbefore ctx ++ (elems l ++ elems r) ++ cafter ctx ∧ dom (heap s') = dom (heap s) ∖ {[n]}.
Proof.
  intros H Hb Hlr Hroot. unfold delete_node. rewrite (R_focus _ _ _ _ _ _ _ _ H). cbn [mbind option_bind left right].
  assert (Hd : bool_decide (addr_of l = None) || bool_decide (addr_of r = None) = true).
  { destruct Hlr as [->| ->]; cbn [addr_of]; rewrite (bool_decide_true (None = None)) by done;
      [done|apply orb_true_r]. }
  rewrite Hd. clear Hd.
  assert (Hch : match addr_of r with None => addr_of l | Some q => Some q end = addr_of (child_of l r)) by by destruct r.
  rewrite Hch. clear Hch. pose proof (R_color _ _ _ H) as Hcol. cbn [addr_of tcolor] in Hcol. rewrite Hcol.
  cbn [mbind option_bind]. clear Hcol.
  assert (Hel : elems (child_of l r) = elems l ++ elems r).
  { destruct Hlr as [->| ->]; [by destruct r|]. cbn. by rewrite app_nil_r. }
  assert (Hend : ∀ s1 c1 ctx1 b, R s1 (plug (T c1 l n k v r) ctx1) → cx ctx1 b 0 →
    (∃ cc, rb (child_of l r) cc 0 ∧ (b = true → cc = BLACK)) →
    cbefore ctx1 = cbefore ctx → cafter ctx1 = cafter ctx → dom (heap s1) = dom (heap s) →
    ∃ s' t' m', (s2 ← replace_node s1 n (addr_of (child_of l r));
      _ ← verify_properties (mk_t (delete n (heap s2)) (root s2)); Some (mk_t (delete n (heap s2)) (root s2))) = Some s' ∧
      R s' t' ∧ rb t' BLACK m' ∧ elems t' = cbefore ctx ++ (elems l ++ elems r) ++ cafter ctx ∧
      dom (heap s') = dom (heap s) ∖ {[n]}).
  { intros s1 c1 ctx1 b H1 C1 (cc & Hcc & Hbc) B1 A1 D1.
    destruct (unlink_R _ _ _ _ _ _ _ _ H1 Hlr) as (s2 & -> & H2 & D2). cbn [mbind option_bind].
    destruct (cx_plug _ _ _ _ _ C1 Hcc Hbc) as [m' Hm']. rewrite (verify_ok _ _ _ H2 Hm'). cbn [mbind option_bind].
    eexists _, _, m'. split; [done|]. split; [exact H2|]. split; [done|]. rewrite elems_ctx, Hel, B1, A1.
    split; [done|]. cbn [heap]. rewrite dom_delete_L. congruence. }
  destruct (plug_cx _ _ _ Hb) as (b & h & c' & Hcx & Hrb & Hbc).
  inversion Hrb as [|? ? ? ? ? ? Hl Hr|? ? ? ? ? cl cr h' Hl Hr]; subst.
  - rewrite bool_decide_false by done. cbn [mbind option_bind].
    pose proof (one_child _ _ _ _ _ Hl Hr Hlr) as ->.
    assert (child_of l r = E) as Hc by (inversion Hl; inversion Hr; subst; done).
    apply (Hend s RED ctx b); try done. rewrite Hc. eexists. by split; [constructor|].
  - rewrite bool_decide_true by done. pose proof (one_child _ _ _ _ _ Hl Hr Hlr) as ->.
    assert (Hcc : ∃ cc, rb (child_of l r) cc 0 ∧ node_color s (addr_of (child_of l r)) = Some cc).
    { destruct r as [|rc rl rp rk rv rr] eqn:Er; cbn [child_of].
      - exists cl. split; [done|]. rewrite (R_color s l (FL BLACK n k v E :: ctx) H). by rewrite (rb_tcolor _ _ _ Hl).
      - exists cr. split; [done|]. rewrite (R_color s (T rc rl rp rk rv rr) (FR BLACK l n k v :: ctx) H).
        by rewrite (rb_tcolor _ _ _ Hr). }
    destruct Hcc as (cc & Hcc & ->). cbn [mbind option_bind].
    destruct (set_color_R _ _ _ _ _ _ _ _ cc H) as (s1 & -> & H1 & D1). cbn [mbind option_bind].
    destruct (delete_fix_R (fuel_of s1) s1 (T cc l n k v r) ctx n 0 b)
      as (s2 & -> & ctx' & b' & H2 & C2 & Hb2 & B2 & A2 & D2); try done.
    { pose proof (fuel_ctx s1 (T cc l n k v r) ctx H1). lia. }
    cbn [mbind option_bind]. apply (Hend s2 cc ctx' b'); try done; [|congruence].
    exists cc. split; [done|]. intros ->. destruct Hroot as [Hx|Hx]; [by specialize (Hb2 Hx)|].
    rewrite Hx in Hcc. by inversion Hcc.
Qed.

(** *** The predecessor *)
Lemma plug_app t c1 c2 : plug t (c1 ++ c2) = plug (plug t c1) c2.
Proof. revert t. induction c1 as [|f c1 IH]; intros t; cbn; [done|apply IH]. Qed.

Lemma cbefore_app c1 c2 : cbefore (c1 ++ c2) = cbefore c2 ++ cbefore c1.
Proof.
  induction c1 as [|[] c1 IH]; cbn; rewrite ?app_nil_r, ?IH; [done|done|]. by rewrite <- app_assoc.
Qed.
Lemma cafter_app c1 c2 : cafter (c1 ++ c2) = cafter c1 ++ cafter c2.
Proof. induction c1 as [|[] c1 IH]; cbn; rewrite ?IH; [done| |done]. by rewrite <- app_assoc. Qed.

(** [maximum_node] ends at the rightmost node. *)
Lemma maximum_node_R fuel : ∀ s c l n k v r ctx,
  (length (addrs (T c l n k v r)) ≤ fuel)%nat → R s (plug (T c l n k v r) ctx) →
  ∃ p ctx' c' l' k' v', maximum_node fuel s n = Some p ∧
    T c l n k v r = plug (T c' l' p k' v' E) ctx' ∧ cafter ctx' = [].
Proof.
  induction fuel as [|fuel IH]; intros s c l n k v r ctx Hf H; [cbn in Hf; lia|]. cbn [maximum_node].
  rewrite (R_focus _ _ _ _ _ _ _ _ H). cbn [mbind option_bind right].
  destruct r as [|c2 l2 n2 k2 v2 r2]; cbn [addr_of]; [by exists n, [], c, l, k, v|].
  destruct (IH s c2 l2 n2 k2 v2 r2 (FR c l n k v :: ctx)) as (p & ctx' & c' & l' & k' & v' & E1 & E2 & E3); [|done|].
  { cbn [addrs length] in *. rewrite length_app in Hf. cbn [length] in Hf. lia. }
  exists p, (ctx' ++ [FR c l n k v]), c', l', k', v'. split; [done|]. rewrite plug_app, <- E2.
  split; [done|]. by rewrite cafter_app, E3.
Qed.

Lemma remove_node k c l n kk vv r ctx :
  sorted (elems (plug (T c l n kk vv r) ctx)) → compare k kk = 0 →
  remove k (elems (plug (T c l n kk vv r) ctx)) = cbefore ctx ++ (elems l ++ elems r) ++ cafter ctx.
Proof.
  intros Hs Hk. pose proof (sorted_node _ _ _ _ _ _ _ Hs) as Hs'. rewrite elems_ctx. cbn [elems].
  apply sorted_split in Hs' as (Hl & _).
  replace (cbefore ctx ++ (elems l ++ (kk, vv) :: elems r) ++ cafter ctx) with
    ((cbefore ctx ++ elems l) ++ (kk, vv) :: elems r ++ cafter ctx) by by repeat (rewrite <- app_assoc; cbn [app]).
  rewrite remove_after by by apply (after_zero k (kk, vv)). cbn [remove]. rewrite Hk. cbn. by rewrite <- !app_assoc.
Qed.

Lemma remove_elem k l e : e ∈ remove k l → e ∈ l.
Proof. induction l as [|[k' v'] l IH]; cbn; [done|]. destruct (_ =? _); set_solver. Qed.

Lemma remove_sorted k l : sorted l → sorted (remove k l).
Proof.
  unfold sorted. induction l as [|[k' v'] l IH]; cbn; intros H; [done|].
  apply StronglySorted_inv in H as [H1 H2]. case_match; [done|]. constructor; [auto|].
  apply Forall_forall. intros e He. rewrite Forall_forall in H2. apply H2.
  by eapply remove_elem.
Qed.

(** [k] is the key of the root, which has one child. *)
Definition root_of_two (s : rbtree) (l : alist) (k : K) : Prop :=
  length l = 2%nat ∧ ∃ p x, root s = Some p ∧ heap s !! p = Some x ∧ compare k (key x) = 0.

(** A black node with one child is above a red leaf. *)
Lemma one_child_two c l n k v r m : rb (T c l n k v r) BLACK m → l = E ∨ r = E → child_of l r ≠ E →
  tcolor (child_of l r) = RED ∧ length (elems (T c l n k v r)) = 2%nat.
Proof.
  intros Hb Hlr Hc. inversion Hb as [| |? ? ? ? ? cl cr h Hl Hr]; subst.
  pose proof (one_child _ _ _ _ _ Hl Hr Hlr) as ->.
  assert (Hred : ∀ t c0, rb t c0 0 → t ≠ E → tcolor t = RED ∧ length (elems t) = 1%nat).
  { intros t c0 Ht Hne. inversion Ht as [|? ? ? ? ? ? Ha Hd|]; subst; [done|]. inversion Ha; inversion Hd; subst. done. }
  cbn [elems]. rewrite length_app. cbn [length]. destruct Hlr as [->| ->]; cbn [child_of] in *.
  - destruct r as [|]; [done|]. destruct (Hred _ _ Hr Hc) as [Hx Hy]. split; [exact Hx|]. cbn [elems length] in *. lia.
  - destruct (Hred _ _ Hl Hc) as [Hx Hy]. split; [exact Hx|]. cbn [elems length] in *. lia.
Qed.

Lemma delete_spec s l k : holds s l → ¬ root_of_two s l k →
  ∃ s', rbtree_delete s k = Some s' ∧ holds s' (remove k l) ∧ dom (heap s') ⊆ dom (heap s).
Proof.
  intros (t & m & H & Hb & <- & Hs) Hnot. unfold rbtree_delete, lookup_node. rewrite (R_root _ _ H).
  destruct (lookup_loop_R (fuel_of s) s t [] k) as (o & -> & Ho); [|done|done|by split; constructor|].
  { pose proof (fuel_ctx s t [] H). pose proof (height_addrs t). cbn in *. lia. }
  cbn [mbind option_bind plug] in *. destruct o as [n|].
  2: { exists s. split; [done|]. rewrite remove_none by done. split; [by exists t, m|done]. }
  destruct Ho as (c & lt & kk & vv & rt & ctx & -> & Hp & Hk). rewrite (R_focus _ _ _ _ _ _ _ _ H).
  cbn [mbind option_bind left right]. pose proof (remove_sorted k _ Hs) as Hs'.
  rewrite (remove_node k c lt n kk vv rt ctx Hs Hk) in Hs' |- *.
  assert (Hlr : (lt = E ∨ rt = E) ∨ ¬ (lt = E ∨ rt = E)) by (destruct lt, rt; auto; right; by intros [|]).
  destruct Hlr as [Hlr|Hlr].
  - assert (Hm : match addr_of lt, addr_of rt with
      | Some a, Some _ => pred ← maximum_node (fuel_of s) s a; xp ← heap s !! pred;
          s ← upd s n (with_key (key xp)); s ← upd s n (with_value (value xp)); Some (s, pred)
      | _, _ => Some (s, n) end = Some (s, n)).
    { destruct Hlr as [->| ->]; [done|]. by destruct lt. }
    rewrite Hm. cbn [mbind option_bind].
    destruct (delete_node_R s c lt n kk vv rt ctx m H Hb Hlr) as (s' & t' & m' & E' & H' & Hb' & El & D').
    { destruct ctx as [|f ctx]; [|by left]. right. destruct (child_of lt rt) eqn:Ec; [done|]. destruct Hnot.
      split; [apply (one_child_two _ _ _ _ _ _ _ Hb Hlr); by rewrite Ec|].
      eexists _, _. rewrite (R_root _ _ H). split; [done|]. by split; [apply (R_focus s c lt n kk vv rt [] H)|]. }
    exists s'. split; [done|]. split; [|set_solver]. exists t', m'. rewrite <- El. split_and!; try done. by rewrite El.
  - destruct lt as [|c1 l1 n1 k1 v1 r1]; [tauto|]. destruct rt as [|c2 l2 n2 k2 v2 r2]; [tauto|]. cbn [addr_of].
    destruct (maximum_node_R (fuel_of s) s c1 l1 n1 k1 v1 r1 (FL c n kk vv (T c2 l2 n2 k2 v2 r2) :: ctx))
      as (p & ctx' & c' & l' & k' & v' & -> & E1 & E2); [|done|].
    { pose proof (fuel_ctx s _ (FL c n kk vv (T c2 l2 n2 k2 v2 r2) :: ctx) H). lia. }
    rewrite E1 in *. set (rt := T c2 l2 n2 k2 v2 r2) in *. cbn [mbind option_bind].
    assert (Hz : ∀ ka va, plug (T c (plug (T c' l' p k' v' E) ctx') n ka va rt) ctx =
      plug (T c' l' p k' v' E) (ctx' ++ FL c n ka va rt :: ctx)) by (intros; by rewrite plug_app).
    assert (Hpp := H). rewrite Hz in Hpp. rewrite (R_focus _ _ _ _ _ _ _ _ Hpp). cbn [mbind option_bind key value].
    destruct (upd_R _ _ _ _ _ _ _ _ (with_key k') c k' vv H) as (s1 & -> & H1 & D1); [done|]. cbn [mbind option_bind].
    destruct (upd_R _ _ _ _ _ _ _ _ (with_value v') c k' v' H1) as (s2 & -> & H2 & D2); [done|]. cbn [mbind option_bind].
    destruct (rb_plug_kv _ _ _ _ _ k' v' _ _ _ Hb) as [m2 Hb2]. rewrite Hz in H2, Hb2.
    destruct (delete_node_R s2 _ _ _ _ _ _ _ _ H2 Hb2) as (s' & t' & m' & E' & H' & Hb' & El & D');
      [by right|left; by destruct ctx'|].
    exists s'. split; [done|]. split; [|set_solver].
    assert (El' : elems t' = cbefore ctx ++ (elems (plug (T c' l' p k' v' E) ctx') ++ elems rt) ++ cafter ctx).
    { rewrite El, cbefore_app, cafter_app, E2, elems_ctx, E2. cbn [cbefore cafter elems].
      repeat (rewrite <- app_assoc; cbn [app]). done. }
    exists t', m'. rewrite <- El'. split_and!; try done. by rewrite El'.
Qed.

Lemma delete_root_fails s l k : holds s l → root_of_two s l k → rbtree_delete s k = None.
Proof.
  intros (t & m & H & Hb & <- & Hs) (Hlen & p & x & Hroot & Hx & Hk). rewrite (R_root _ _ H) in Hroot.
  destruct t as [|c lt n kk vv rt]; [done|]. injection Hroot as ->.
  pose proof (R_focus s c lt p kk vv rt [] H) as Hf. rewrite Hf in Hx. injection Hx as <-. cbn [key] in Hk.
  assert (Hlr : lt = E ∨ rt = E).
  { destruct lt, rt; auto. exfalso. cbn [elems] in Hlen. repeat (rewrite ?length_app in Hlen; cbn [length] in Hlen). lia. }
  assert (Hc : child_of lt rt ≠ E).
  { intros Hc. destruct rt; [|done]. cbn in Hc. subst lt. cbn in Hlen. lia. }
  destruct (one_child_two _ _ _ _ _ _ _ Hb Hlr Hc) as [Hred _].
  unfold rbtree_delete, lookup_node. rewrite (R_root _ _ H). cbn [lookup_loop fuel_of addr_of]. rewrite Hf.
  cbn [mbind option_bind key left right]. rewrite Hk. cbn [Z.eqb mbind option_bind]. rewrite Hf.
  cbn [mbind option_bind left right].
  assert (Hm : ∀ (A : Type) (y : addr → addr → A) z, match addr_of lt, addr_of rt with
    | Some a, Some b => y a b | _, _ => z end = z).
  { intros A y z. destruct Hlr as [->| ->]; [done|]. by destruct lt. }
  rewrite Hm. cbn [mbind option_bind]. clear Hm. unfold delete_node. rewrite Hf. cbn [mbind option_bind left right].
  destruct (_ || _); [|done].
  assert (Hch : match addr_of rt with None => addr_of lt | Some q => Some q end = addr_of (child_of lt rt)) by by destruct rt.
  rewrite Hch. clear Hch. assert (Hbc : c = BLACK) by by inversion Hb. subst c.
  pose proof (R_color s (T BLACK lt p kk vv rt) [] H) as Hcol. cbn [addr_of tcolor] in Hcol. rewrite Hcol.
  cbn [mbind option_bind]. rewrite bool_decide_true by done. destruct (node_color s (addr_of (child_of lt rt))); [|done].
  cbn [mbind option_bind]. destruct (set_color_R s _ _ _ _ _ _ [] c H) as (s1 & -> & H1 & D1). cbn [mbind option_bind].
  cbn [delete_case1 fuel_of]. rewrite (R_focus s1 c lt p kk vv rt [] H1). cbn [mbind option_bind parent].
  change (cpar []) with (@None addr). cbn [mbind option_bind].
  destruct (unlink_R s1 _ _ _ _ _ _ [] H1 Hlr) as (s2 & -> & H2 & D2). cbn [mbind option_bind plug] in *.
  unfold verify_properties. destruct (verify_property_1 _ _ _); [|done]. cbn [mbind option_bind].
  unfold verify_property_2. rewrite (R_root _ _ H2), (color_of _ None) by apply H2. cbn [mbind option_bind].
  by rewrite Hred.
Qed.

(** *** The specification is a finite map *)
Lemma find_put k v l k' : find k' (put k v l) = if compare k' k =? 0 then Some v else find k' l.
Proof.
  induction l as [|[k1 v1] l IH]; cbn; [done|].
  destruct (Z.eqb_spec (compare k k1) 0) as [E0|E0]; cbn.
  - destruct (Z.eqb_spec (compare k' k) 0) as [E1|E1], (Z.eqb_spec (compare k' k1) 0) as [E2|E2]; try done.
    + destruct E2. by eapply (cmp_zero_trans compare).
    + destruct E1. eapply (cmp_zero_trans compare); [done|]. by apply (cmp_zero_sym compare).
  - destruct (Z.ltb_spec (compare k k1) 0) as [E1|E1]; cbn; [done|]. rewrite IH.
    destruct (Z.eqb_spec (compare k' k1) 0) as [E2|E2], (Z.eqb_spec (compare k' k) 0) as [E3|E3]; try done.
    destruct E0. eapply (cmp_zero_trans compare); [|done]. by apply (cmp_zero_sym compare).
Qed.

Lemma find_remove k l k' : sorted l →
  find k' (remove k l) = if compare k' k =? 0 then None else find k' l.
Proof.
  unfold sorted. induction l as [|[k1 v1] l IH]; cbn; intros Hs; [by case_match|].
  apply StronglySorted_inv in Hs as [Hs Hl].
  destruct (Z.eqb_spec (compare k k1) 0) as [E0|E0]; cbn.
  - destruct (Z.eqb_spec (compare k' k) 0) as [E1|E1].
    + apply (find_before k' [] l). eapply Forall_impl; [exact Hl|]. intros x Hx.
      apply (cmp_zero_before k' k1); [|done]. by eapply (cmp_zero_trans compare).
    + destruct (Z.eqb_spec (compare k' k1) 0) as [E2|E2]; [|done]. destruct E1.
      eapply (cmp_zero_trans compare); [done|]. by apply (cmp_zero_sym compare).
  - rewrite IH by done.
    destruct (Z.eqb_spec (compare k' k1) 0) as [E2|E2], (Z.eqb_spec (compare k' k) 0) as [E3|E3]; try done.
    destruct E0. eapply (cmp_zero_trans compare); [|done]. by apply (cmp_zero_sym compare).
Qed.

(** *** Heights *)
Lemma rb_height t c n : rb t c n →
  (height t ≤ 2 * n + (if decide (c = RED) then 1 else 0))%nat ∧ (2 ^ n ≤ length (elems t) + 1)%nat.
Proof.
  induction 1 as [|l p k v r n _ [IHl Il] _ [IHr Ir]|l p k v r cl cr n _ [IHl Il] _ [IHr Ir]].
  - by cbn; split; lia.
  - rewrite decide_True by done. rewrite decide_False in IHl, IHr by done. cbn [height elems].
    rewrite length_app. cbn [length]. lia.
  - rewrite decide_False by done. cbn [height elems]. rewrite length_app. cbn [length]. rewrite Nat.pow_succ_r'.
    split; [|lia]. repeat case_decide; lia.
Qed.

Lemma rb_log t m : rb t BLACK m → (height t ≤ 2 * Nat.log2 (length (elems t) + 1))%nat.
Proof.
  intros H. apply rb_height in H as [H1 H2]. rewrite decide_False in H1 by done.
  apply Nat.log2_le_mono in H2. rewrite Nat.log2_pow2 in H2 by lia. lia.
Qed.

(** ** The theorems *)

(** Lookup.  In a red-black tree with the contents [l], [rbtree_lookup] returns the value of the key in [l], or
    NULL when the key is not there, and the loop of [lookup_node] makes at most 2 log2(n + 1) steps for n elements. *)
Theorem rbtree_lookup_refines s l k :
  holds s l →
  rbtree_lookup s k = Some (find k l) ∧
  ∀ fuel, (2 * Nat.log2 (length l + 1) ≤ fuel)%nat → lookup_loop fuel s k (root s) ≠ None.
Proof.
  intros H. split; [by apply lookup_spec|]. destruct H as (t & m & H & Hb & <- & Hs). intros fuel Hf.
  apply rb_log in Hb. rewrite (R_root _ _ H).
  destruct (lookup_loop_R fuel s t [] k) as (r & -> & _); [lia|done|done|by split; constructor|done].
Qed.

(** C20: insertion.  Inserting a node with the key [k] and the value [v], allocated outside the tree, into a red-black
    tree with the contents [l] succeeds - no assertion fails, no null pointer is used, the verification of the
    properties passes - and gives a red-black tree with the contents [put k v l]: [k] is looked up to [v], all other
    keys as before; a node with an equal key keeps its place and key and gets the new value. *)
Theorem rbtree_insert_refines s l k v p :
  holds s l → heap s !! p = None →
  ∃ s', rbtree_insert (new_node s k v p) p = Some s' ∧ holds s' (put k v l) ∧
    dom (heap s') = {[p]} ∪ dom (heap s) ∧
    ∀ k', rbtree_lookup s' k' = Some (if compare k' k =? 0 then Some v else find k' l).
Proof.
  intros H Hp. destruct (insert_spec s l k v p H Hp) as (s' & E' & H' & D'). exists s'. split_and!; try done.
  intros k'. by rewrite (lookup_spec _ _ _ H'), find_put.
Qed.

(** C17: deletion.  Deleting [k] from a red-black tree with the contents [l] succeeds and gives a red-black tree with
    the contents [remove k l], in which [k] is not found and all other keys are as before - except when the tree has
    two elements and [k] is at the root: then the red child becomes the root, the assertion of property 2 fails. *)
Theorem rbtree_delete_refines s l k :
  holds s l →
  (root_of_two s l k → rbtree_delete s k = None) ∧
  (¬ root_of_two s l k → ∃ s', rbtree_delete s k = Some s' ∧ holds s' (remove k l) ∧
     dom (heap s') ⊆ dom (heap s) ∧
     ∀ k', rbtree_lookup s' k' = Some (if compare k' k =? 0 then None else find k' l)).
Proof.
  intros H. split; [by apply delete_root_fails|]. intros Hn.
  destruct (delete_spec s l k H Hn) as (s' & E' & H' & D'). exists s'. split_and!; try done.
  intros k'. rewrite (lookup_spec _ _ _ H'), find_remove; [done|]. by destruct H as (? & ? & _ & _ & _ & ?).
Qed.

Lemma create_holds h : ∃ s, rbtree_create h = Some s ∧ holds s [].
Proof.
  unfold rbtree_create. exists (mk_t h None).
  assert (HR : R (mk_t h None) E) by by split; [..|constructor].
  rewrite (verify_ok _ E 0 HR) by constructor. split; [done|]. exists E, 0%nat. split_and!; try done; constructor.
Qed.
End rb.

(** ** Concrete trees *)
Module Sample.
(** The nodes of the list are inserted into an empty tree. *)
Definition insert_all (l : list (addr * Z * Z)) : option (@rbtree Z Z) :=
  foldl (λ o '(p, k, v), s ← o; rbtree_insert compare_int (new_node s k v p) p) (rbtree_create ∅) l.

Lemma empty_holds : holds compare_int (mk_t (∅ : gmap addr (@node Z Z)) None) [].
Proof. exists E, 0%nat. split_and!; [by split; [..|constructor]|constructor|done|constructor]. Qed.

Definition two : @rbtree Z Z :=
  default (mk_t ∅ None) (insert_all [(1%positive, 10, 100); (2%positive, 20, 200)]).

Lemma two_holds : holds compare_int two [(10, 100); (20, 200)].
Proof.
  exists (T BLACK E 1%positive 10 100 (T RED E 2%positive 20 200 E)), 1%nat.
  split; [split|split; [|split]].
  - by vm_compute.
  - by vm_compute.
  - by apply (bool_decide_unpack _); vm_compute.
  - by repeat econstructor.
  - done.
  - repeat constructor.
Qed.

Lemma rbtree_lookup_refines_witness :
  rbtree_lookup compare_int two 20 = Some (Some 200) ∧ rbtree_lookup compare_int two 15 = Some None.
Proof.
  split; [apply (proj1 (rbtree_lookup_refines compare_int two _ 20 two_holds))
         |apply (proj1 (rbtree_lookup_refines compare_int two _ 15 two_holds))].
Defined.

Lemma rbtree_insert_refines_witness :
  ∃ s', rbtree_insert compare_int (new_node two 15 150 3%positive) 3%positive = Some s' ∧
    holds compare_int s' [(10, 100); (15, 150); (20, 200)].
Proof.
  destruct (rbtree_insert_refines compare_int two _ 15 150 3%positive two_holds) as (s' & E' & H' & _).
  - by vm_compute.
  - exists s'. split; [exact E'|exact H'].
Defined.

Lemma rbtree_delete_refines_witness :
  rbtree_delete compare_int two 10 = None ∧
  ∃ s', rbtree_delete compare_int two 20 = Some s' ∧ holds compare_int s' [(10, 100)].
Proof.
  split.
  - apply (rbtree_delete_refines compare_int two _ 10 two_holds). split; [done|].
    eexists _, _. split; [by vm_compute|]. by split; [by vm_compute|].
  - destruct (proj2 (rbtree_delete_refines compare_int two _ 20 two_holds)) as (s' & E' & H' & _).
    + intros (_ & p & x & Hp & Hx & Hk). vm_compute in Hp. injection Hp as <-. vm_compute in Hx. by injection Hx as <-.
    + exists s'. split; [exact E'|exact H'].
Defined.
End Sample.
