(* ===== verification/SkipList.v ===== *)
(** * The skip list of sorted sets ([redis-3.2/src/t_zset.c])

    Nodes live in a memory, a map from addresses; a level of a node holds a
    forward pointer and a span.  [zmalloc] leaves the levels and the back
    pointer of a new node indeterminate, which is [None] here, and [None] as a
    result is the use of such a value, of a null pointer or of a slot outside
    an array.  Spans and the ranks of [zslInsert] are 32-bit numbers, the
    other counters are 64-bit numbers, as in the code.

    Scores are doubles other than NaN, with the comparison of doubles as a
    parameter; objects are compared by [compareStringObjects], a parameter of
    the section that is instantiated with the code of [object.c] ([StringObj])
    in [Sample].
    The loops that walk down the levels differ only in the condition under
    which they go forward and in the width of their counter: they are
    instances of [descend].

    The proofs relate a memory to a list of towers, from which all forward
    pointers and spans are computed by [fwd]. *)

From S2P Require Import Prelude StringObj.

Abbreviation addr := positive.

Definition ZSKIPLIST_MAXLEVEL : nat := 32.

(** [zslRandomLevel]: [rs] are the results of [random()].  The bound of the
    comparison, a quarter of 0xFFFF, is not an integer. *)
Fixpoint random_loop (rs : list Z) (level : Z) : option (Z * list Z) :=
  match rs with
  | [] => None
  | r :: rs => if 4 * Z.land r 65535 <? 65535 then random_loop rs (level + 1) else Some (level, rs)
  end.
Definition zslRandomLevel (rs : list Z) : option (nat * list Z) :=
  '(level, rs) ← random_loop rs 1;
  Some (if level <? Z.of_nat ZSKIPLIST_MAXLEVEL then Z.to_nat level else ZSKIPLIST_MAXLEVEL, rs).

Section zsl.
Context {Sc Ob D : Type} (scmp : Sc → Sc → Z) (compareStringObjects : Ob → Ob → Z)
  (equalStringObjects : Ob → Ob → bool) (dictDelete : D → Ob → D) (zero : Sc).

Definition slt (a b : Sc) : bool := scmp a b <? 0.
Definition seq_ (a b : Sc) : bool := scmp a b =? 0.
Definition sle (a b : Sc) : bool := scmp a b <=? 0.

Record zskiplistLevel := mk_level { forward : option addr; span : Z }.
Record zskiplistNode := mk_node {
  obj : option Ob; score : Sc; backward : option (option addr); level : list (option zskiplistLevel) }.
Abbreviation memory := (gmap addr zskiplistNode).
Record zskiplist := mk_zsl {
  mem : memory; header : addr; tail : option addr; length_ : Z; level_ : nat }.

(** [x->level[i]] and the assignment to it. *)
Definition lv (m : memory) (x : addr) (i : nat) : option zskiplistLevel :=
  n ← m !! x; o ← level n !! i; o.
Definition set_level (m : memory) (x : addr) (i : nat) (l : zskiplistLevel) : option memory :=
  n ← m !! x;
  if (i <? length (level n))%nat
  then Some (<[x := mk_node (obj n) (score n) (backward n) (<[i := Some l]> (level n))]> m) else None.
Definition set_backward (m : memory) (x : addr) (b : option addr) : option memory :=
  n ← m !! x; Some (<[x := mk_node (obj n) (score n) (Some b) (level n)]> m).

(** [for (i = a; i < a + n; i++)]. *)
Fixpoint for_ {A} (f : nat → A → option A) (a n : nat) (s : A) : option A :=
  match n with O => Some s | S n => s ← f a s; for_ f (S a) n s end.

(** ** Creation *)
Definition zslCreateNode (m : memory) (a : addr) (level : nat) (score : Sc) (obj : option Ob) : memory :=
  <[a := mk_node obj score None (replicate level None)]> m.

Definition zslCreate (m : memory) (a : addr) : option zskiplist :=
  let m := zslCreateNode m a ZSKIPLIST_MAXLEVEL zero None in
  m ← for_ (λ j m, set_level m a j (mk_level None 0)) 0 ZSKIPLIST_MAXLEVEL m;
  m ← set_backward m a None;
  Some (mk_zsl m a None 0 1).

(** ** Walking down *)

(** The inner loop: go forward on level [i] while [go] holds, adding the spans
    up in a counter of [w] bits. *)
Fixpoint walk (go : Z → zskiplistLevel → zskiplistNode → option bool) (w : Z) (fuel : nat)
    (m : memory) (i : nat) (x : addr) (r : Z) : option (addr * Z) :=
  match fuel with
  | O => None
  | S fuel =>
      l ← lv m x i;
      match forward l with
      | None => Some (x, r)
      | Some y =>
          n ← m !! y;
          b ← go r l n;
          if b : bool then walk go w fuel m i y (wrapu w (r + span l)) else Some (x, r)
      end
  end.

(** The loop over the levels [n - 1] to [0], with the arrays [update] and
    [rank] it fills. *)
Fixpoint descend (go : Z → zskiplistLevel → zskiplistNode → option bool) (w : Z)
    (m : memory) (n : nat) (x : addr) (r : Z) : option (list (addr * Z)) :=
  match n with
  | O => Some []
  | S i =>
      '(x, r) ← walk go w (S (size m)) m i x r;
      us ← descend go w m i x r;
      Some (us ++ [(x, r)])
  end.

(** The conditions; the objects are compared only when the scores are equal. *)
Definition go_before (s : Sc) (o : Ob) (_ : Z) (_ : zskiplistLevel) (n : zskiplistNode) : option bool :=
  if slt (score n) s then Some true else
  if seq_ (score n) s then o' ← obj n; Some (compareStringObjects o' o <? 0) else Some false.
Definition go_upto (s : Sc) (o : Ob) (_ : Z) (_ : zskiplistLevel) (n : zskiplistNode) : option bool :=
  if slt (score n) s then Some true else
  if seq_ (score n) s then o' ← obj n; Some (compareStringObjects o' o <=? 0) else Some false.
Definition go_rank_lt (start r : Z) (l : zskiplistLevel) (_ : zskiplistNode) : option bool :=
  Some (u64 (r + span l) <? start).
Definition go_rank_le (rank r : Z) (l : zskiplistLevel) (_ : zskiplistNode) : option bool :=
  Some (u64 (r + span l) <=? rank).

(** ** Insertion *)

(** A higher level than any before: the header is the node to update. *)
Definition grow_step (zsl : zskiplist) (i : nat) (st : memory * list (addr * Z))
  : option (memory * list (addr * Z)) :=
  let '(m, us) := st in
  l ← lv m (header zsl) i;
  m ← set_level m (header zsl) i (mk_level (forward l) (u32 (length_ zsl)));
  Some (m, us ++ [(header zsl, 0)]).

Definition insert_step (a : addr) (us : list (addr * Z)) (i : nat) (m : memory) : option memory :=
  '(_, rank0) ← us !! 0%nat;
  '(u, ranki) ← us !! i;
  l ← lv m u i;
  m ← set_level m a i (mk_level (forward l) (u32 (span l - u32 (rank0 - ranki))));
  set_level m u i (mk_level (Some a) (u32 (u32 (rank0 - ranki) + 1))).

Definition span_step (us : list (addr * Z)) (i : nat) (m : memory) : option memory :=
  '(u, _) ← us !! i;
  l ← lv m u i;
  set_level m u i (mk_level (forward l) (u32 (span l + 1))).

(** The new node is allocated at [a]; the rest of the random numbers is returned. *)
Definition zslInsert (zsl : zskiplist) (rs : list Z) (a : addr) (s : Sc) (o : Ob)
  : option (zskiplist * list Z) :=
  us ← descend (go_before s o) 32 (mem zsl) (level_ zsl) (header zsl) 0;
  '(lev, rs) ← zslRandomLevel rs;
  '(m, us) ← for_ (grow_step zsl) (level_ zsl) (lev - level_ zsl) (mem zsl, us);
  let zlev := if (level_ zsl <? lev)%nat then lev else level_ zsl in
  let m := zslCreateNode m a lev s (Some o) in
  m ← for_ (insert_step a us) 0 lev m;
  m ← for_ (span_step us) lev (zlev - lev) m;
  '(u0, _) ← us !! 0%nat;
  m ← set_backward m a (if bool_decide (u0 = header zsl) then None else Some u0);
  l0 ← lv m a 0;
  '(m, tl) ← match forward l0 with
             | Some y => m ← set_backward m y (Some a); Some (m, tail zsl)
             | None => Some (m, Some a)
             end;
  Some (mk_zsl m (header zsl) tl (u64 (length_ zsl + 1)) zlev, rs).

(** ** Deletion *)
Definition delete_step (x : addr) (us : list (addr * Z)) (i : nat) (m : memory) : option memory :=
  '(u, _) ← us !! i;
  l ← lv m u i;
  if bool_decide (forward l = Some x) then
    lx ← lv m x i;
    set_level m u i (mk_level (forward lx) (u32 (span l + u32 (span lx - 1))))
  else set_level m u i (mk_level (forward l) (u32 (span l - 1))).

(** [while(zsl->level > 1 && zsl->header->level[zsl->level-1].forward == NULL)]. *)
Fixpoint lower (m : memory) (h : addr) (lev : nat) : option nat :=
  match lev with
  | S (S k as lev') =>
      l ← lv m h lev';
      if bool_decide (forward l = None) then lower m h lev' else Some lev
  | _ => Some lev
  end.

Definition zslDeleteNode (zsl : zskiplist) (x : addr) (us : list (addr * Z)) : option zskiplist :=
  m ← for_ (delete_step x us) 0 (level_ zsl) (mem zsl);
  lx ← lv m x 0;
  nx ← m !! x;
  b ← backward nx;
  '(m, tl) ← match forward lx with
             | Some y => m ← set_backward m y b; Some (m, tail zsl)
             | None => Some (m, b)
             end;
  lev ← lower m (header zsl) (level_ zsl);
  Some (mk_zsl m (header zsl) tl (u64 (length_ zsl - 1)) lev).

Definition zslFreeNode (zsl : zskiplist) (x : addr) : zskiplist :=
  mk_zsl (delete x (mem zsl)) (header zsl) (tail zsl) (length_ zsl) (level_ zsl).

Definition zslDelete (zsl : zskiplist) (s : Sc) (o : Ob) : option (zskiplist * Z) :=
  us ← descend (go_before s o) 64 (mem zsl) (level_ zsl) (header zsl) 0;
  '(x, _) ← us !! 0%nat;
  l ← lv (mem zsl) x 0;
  match forward l with
  | None => Some (zsl, 0)
  | Some x =>
      n ← mem zsl !! x;
      b ← (if seq_ s (score n) then o' ← obj n; Some (equalStringObjects o' o) else Some false);
      if b : bool then
        zsl ← zslDeleteNode zsl x us;
        Some (zslFreeNode zsl x, 1)
      else Some (zsl, 0)
  end.

(** ** Ranges of scores *)
Record zrangespec := mk_range { min : Sc; max : Sc; minex : bool; maxex : bool }.

Definition zslValueGteMin (value : Sc) (spec : zrangespec) : bool :=
  if minex spec then slt (min spec) value else sle (min spec) value.
Definition zslValueLteMax (value : Sc) (spec : zrangespec) : bool :=
  if maxex spec then slt value (max spec) else sle value (max spec).

Definition zslIsInRange (zsl : zskiplist) (range : zrangespec) : option bool :=
  if slt (max range) (min range) || (seq_ (min range) (max range) && (minex range || maxex range))
  then Some false else
  match tail zsl with
  | None => Some false
  | Some x =>
      n ← mem zsl !! x;
      if negb (zslValueGteMin (score n) range) then Some false else
      l ← lv (mem zsl) (header zsl) 0;
      match forward l with
      | None => Some false
      | Some x => n ← mem zsl !! x; Some (zslValueLteMax (score n) range)
      end
  end.

(** The inner option is [NULL]; the assertion fails with [None]. *)
Definition zslFirstInRange (zsl : zskiplist) (range : zrangespec) : option (option addr) :=
  b ← zslIsInRange zsl range;
  if negb b then Some None else
  us ← descend (λ _ _ n, Some (negb (zslValueGteMin (score n) range))) 64 (mem zsl) (level_ zsl) (header zsl) 0;
  '(x, _) ← us !! 0%nat;
  l ← lv (mem zsl) x 0;
  x ← forward l;
  n ← mem zsl !! x;
  Some (if negb (zslValueLteMax (score n) range) then None else Some x).

Definition zslLastInRange (zsl : zskiplist) (range : zrangespec) : option (option addr) :=
  b ← zslIsInRange zsl range;
  if negb b then Some None else
  us ← descend (λ _ _ n, Some (zslValueLteMax (score n) range)) 64 (mem zsl) (level_ zsl) (header zsl) 0;
  '(x, _) ← us !! 0%nat;
  n ← mem zsl !! x;
  Some (if negb (zslValueGteMin (score n) range) then None else Some x).

(** The loop that deletes nodes while [go] holds: [traversed] is the position
    of [x]. *)
Fixpoint delete_while (go : Z → zskiplistNode → bool) (fuel : nat) (zsl : zskiplist) (d : D)
    (us : list (addr * Z)) (x : option addr) (traversed removed : Z) : option (zskiplist * D * Z) :=
  match fuel with
  | O => None
  | S fuel =>
      match x with
      | None => Some (zsl, d, removed)
      | Some x =>
          n ← mem zsl !! x;
          if go traversed n then
            l ← lv (mem zsl) x 0;
            zsl ← zslDeleteNode zsl x us;
            o ← obj n;
            delete_while go fuel (zslFreeNode zsl x) (dictDelete d o) us (forward l)
              (u64 (traversed + 1)) (u64 (removed + 1))
          else Some (zsl, d, removed)
      end
  end.

Definition zslDeleteRangeByScore (zsl : zskiplist) (range : zrangespec) (d : D) : option (zskiplist * D * Z) :=
  us ← descend (λ _ _ n, Some (if minex range then sle (score n) (min range) else slt (score n) (min range)))
         64 (mem zsl) (level_ zsl) (header zsl) 0;
  '(x, _) ← us !! 0%nat;
  l ← lv (mem zsl) x 0;
  delete_while (λ _ n, if maxex range then slt (score n) (max range) else sle (score n) (max range))
    (S (size (mem zsl))) zsl d us (forward l) 0 0.

Definition zslDeleteRangeByRank (zsl : zskiplist) (start end_ : Z) (d : D) : option (zskiplist * D * Z) :=
  us ← descend (go_rank_lt start) 64 (mem zsl) (level_ zsl) (header zsl) 0;
  '(x, traversed) ← us !! 0%nat;
  l ← lv (mem zsl) x 0;
  delete_while (λ t _, t <=? end_) (S (size (mem zsl))) zsl d us (forward l) (u64 (traversed + 1)) 0.

(** ** Ranks *)
Fixpoint rank_loop (s : Sc) (o : Ob) (m : memory) (n : nat) (x : addr) (r : Z) : option Z :=
  match n with
  | O => Some 0
  | S i =>
      '(x, r) ← walk (go_upto s o) 64 (S (size m)) m i x r;
      nx ← m !! x;
      if match obj nx with Some o' => equalStringObjects o' o | None => false end then Some r
      else rank_loop s o m i x r
  end.
Definition zslGetRank (zsl : zskiplist) (s : Sc) (o : Ob) : option Z :=
  rank_loop s o (mem zsl) (level_ zsl) (header zsl) 0.

Fixpoint element_loop (rank : Z) (m : memory) (n : nat) (x : addr) (r : Z) : option (option addr) :=
  match n with
  | O => Some None
  | S i =>
      '(x, r) ← walk (go_rank_le rank) 64 (S (size m)) m i x r;
      if r =? rank then Some (Some x) else element_loop rank m i x r
  end.
Definition zslGetElementByRank (zsl : zskiplist) (rank : Z) : option (option addr) :=
  element_loop rank (mem zsl) (level_ zsl) (header zsl) 0.

(** ** Towers *)

(** The nodes after the header, in order, with the number of their levels. *)
Record tower := mk_tower { ta : addr; ts : Sc; to : Ob; th : nat }.

(** The pointer of level [i] in front of the towers, and the distance it
    covers; to the end of the list for a null pointer. *)
Fixpoint fwd (i : nat) (L : list tower) : zskiplistLevel :=
  match L with
  | [] => mk_level None 0
  | t :: L =>
      if (i <? th t)%nat then mk_level (Some (ta t)) 1
      else mk_level (forward (fwd i L)) (span (fwd i L) + 1)
  end.

(** The towers do not reach level [i]. *)
Definition low (i : nat) (K : list tower) : Prop := Forall (λ t, (th t ≤ i)%nat) K.

Lemma fwd_low i K L : low i K → fwd i (K ++ L) = mk_level (forward (fwd i L)) (span (fwd i L) + zlen K).
Proof.
  induction 1 as [|t K Ht _ IH]; cbn [app fwd length].
  - destruct (fwd i L). cbn. f_equal. lia.
  - rewrite (proj2 (Nat.ltb_ge _ _)) by done. rewrite IH. cbn [forward span]. f_equal. lia.
Qed.

Lemma fwd_hit i K t L : low i K → (i < th t)%nat → fwd i (K ++ t :: L) = mk_level (Some (ta t)) (zlen K + 1).
Proof. intros HK Ht. rewrite fwd_low by done. cbn [fwd]. rewrite (proj2 (Nat.ltb_lt _ _)) by done. cbn. f_equal. lia. Qed.

Lemma fwd_none i K : low i K → fwd i K = mk_level None (zlen K).
Proof. intros HK. rewrite <- (app_nil_r K) at 1. rewrite fwd_low by done. cbn. f_equal; lia. Qed.

(** The first tower that reaches level [i]. *)
Lemma low_split i L : low i L ∨ ∃ K t L', L = K ++ t :: L' ∧ low i K ∧ (i < th t)%nat.
Proof.
  induction L as [|t L IH]; [by left; constructor|].
  destruct (decide (i < th t)%nat) as [Ht|Ht]; [right; exists [], t, L; by split_and!; [|constructor|]|].
  destruct IH as [IH|(K & t' & L' & -> & HK & Ht')].
  - left. constructor; [lia|done].
  - right. exists (t :: K), t', L'. split_and!; [done|constructor; [lia|done]|done].
Qed.

Lemma fwd_stop i K t K' X Y : (i < th t)%nat → fwd i (K ++ t :: K' ++ X) = fwd i (K ++ t :: K' ++ Y).
Proof.
  intros Ht. induction K as [|x K IH]; cbn [app fwd].
  - by rewrite (proj2 (Nat.ltb_lt _ _)).
  - by rewrite IH.
Qed.

(** The address of the last tower, or the header; its back pointer; its height. *)
Definition at_ (hd : addr) (A : list tower) : addr := match last A with None => hd | Some t => ta t end.
Definition back (A : list tower) : option addr := ta <$> last A.
Definition hgt (lev : nat) (A : list tower) : nat := match last A with None => lev | Some t => th t end.

Lemma at_app hd A B : B ≠ [] → at_ hd (A ++ B) = at_ hd B.
Proof. destruct B using rev_ind; [done|]. intros _. unfold at_. by rewrite app_assoc, !last_snoc. Qed.
Lemma hgt_app lev A B : B ≠ [] → hgt lev (A ++ B) = hgt lev B.
Proof. destruct B using rev_ind; [done|]. intros _. unfold hgt. by rewrite app_assoc, !last_snoc. Qed.
Lemma back_app A B : B ≠ [] → back (A ++ B) = back B.
Proof. destruct B using rev_ind; [done|]. intros _. unfold back. by rewrite app_assoc, !last_snoc. Qed.

Lemma at_in hd A : at_ hd A ∈ hd :: map ta A.
Proof.
  unfold at_. destruct (last A) as [t|] eqn:E; [|set_solver].
  apply elem_of_cons. right. apply last_Some in E as [A' ->]. rewrite map_app. set_solver.
Qed.
Lemma at_in' hd A : A ≠ [] → at_ hd A ∈ map ta A.
Proof.
  destruct A as [|t A] using rev_ind; [done|]. intros _. unfold at_. rewrite last_snoc.
  rewrite map_app. set_solver.
Qed.

(** Different prefixes end at different addresses. *)
Lemma at_inj hd A W B : NoDup (hd :: map ta (A ++ W ++ B)) → W ≠ [] → at_ hd (A ++ W) ≠ at_ hd A.
Proof.
  intros Hn HW. rewrite at_app by done. intros E. pose proof (at_in' hd W HW) as H1. pose proof (at_in hd A) as H2.
  rewrite E in H1. rewrite !map_app, app_comm_cons in Hn.
  apply NoDup_app in Hn as (_ & Hn & _). apply (Hn _ H2). set_solver.
Qed.

(** The nodes to update: the last one of [A] that reaches level [i]. *)
Definition slot (lev i : nat) (C K : list tower) : Prop := low i K ∧ (i < hgt lev C)%nat.

Lemma slot_other hd lev i A C K C' K' B :
  NoDup (hd :: map ta (A ++ B)) → A = C ++ K → slot lev i C K → A = C' ++ K' → (i < hgt lev C')%nat →
  C' = C ∧ K' = K ∨ at_ hd C' ≠ at_ hd C ∧ ∀ X Y, fwd i (K' ++ X) = fwd i (K' ++ Y).
Proof.
  intros Hn -> [HK HC] E Hi. apply app_eq_inv in E as [(E' & -> & ->)|(E' & -> & ->)].
  - destruct E' as [|x E'] using rev_ind; [left; by rewrite app_nil_r|]. right. clear IHE'. split.
    + intros Heq. symmetry in Heq. revert Heq. rewrite <- !app_assoc in Hn.
      eapply (at_inj hd C' (E' ++ [x]) (K ++ B)); [by rewrite <- !app_assoc in *|by destruct E'].
    + intros X Y. rewrite hgt_app in HC by by destruct E'. unfold hgt in HC. rewrite last_snoc in HC.
      rewrite <- !app_assoc. cbn [app]. by apply fwd_stop.
  - destruct E' as [|x E'] using rev_ind; [left; by rewrite app_nil_r|]. exfalso.
    rewrite hgt_app in Hi by by destruct E'. unfold hgt in Hi. rewrite last_snoc in Hi.
    unfold low in HK. rewrite !Forall_app, Forall_singleton in HK. destruct HK as [[_ HK] _]. lia.
Qed.

(** ** Memory *)
Definition shape (m : memory) (p : addr) : option (option Ob * Sc * option (option addr) * nat) :=
  (λ n, (obj n, score n, backward n, length (level n))) <$> m !! p.

Lemma set_level_spec m x i l sh : shape m x = Some sh → (i < sh.2)%nat →
  ∃ m', set_level m x i l = Some m' ∧ (∀ p, shape m' p = shape m p) ∧ lv m' x i = Some l ∧
    (∀ p j, p ≠ x ∨ j ≠ i → lv m' p j = lv m p j) ∧ (∀ p, p ≠ x → m' !! p = m !! p) ∧ dom m' = dom m.
Proof.
  unfold shape at 1. intros H Hi. destruct (m !! x) as [n|] eqn:E; [|done]. cbn in H. injection H as <-. cbn in Hi.
  unfold set_level. rewrite E. cbn [mbind option_bind]. rewrite (proj2 (Nat.ltb_lt _ _)) by done.
  eexists. split; [done|]. split_and!.
  - intros p. unfold shape. destruct (decide (p = x)) as [->|Hp].
    + rewrite lookup_insert_eq, E. cbn. by rewrite length_insert.
    + by rewrite lookup_insert_ne.
  - unfold lv. rewrite lookup_insert_eq. cbn [mbind option_bind level]. by rewrite list_lookup_insert_eq.
  - intros p j Hpj. unfold lv. destruct (decide (p = x)) as [->|Hp].
    + rewrite lookup_insert_eq, E. cbn [mbind option_bind level]. rewrite list_lookup_insert_ne; [done|naive_solver].
    + by rewrite lookup_insert_ne.
  - intros p Hp. by rewrite lookup_insert_ne.
  - rewrite dom_insert_L. apply elem_of_dom_2 in E. set_solver.
Qed.

Lemma set_backward_spec m x b sh : shape m x = Some sh →
  ∃ m', set_backward m x b = Some m' ∧ shape m' x = Some (sh.1.1, Some b, sh.2) ∧
    (∀ p j, lv m' p j = lv m p j) ∧ (∀ p, p ≠ x → m' !! p = m !! p) ∧ dom m' = dom m.
Proof.
  unfold shape at 1. intros H. destruct (m !! x) as [n|] eqn:E; [|done]. cbn in H. injection H as <-.
  unfold set_backward. rewrite E. cbn [mbind option_bind]. eexists. split; [done|]. split_and!.
  - unfold shape. by rewrite lookup_insert_eq.
  - intros p j. unfold lv. destruct (decide (p = x)) as [->|Hp]; [by rewrite lookup_insert_eq, E|by rewrite lookup_insert_ne].
  - intros p Hp. by rewrite lookup_insert_ne.
  - rewrite dom_insert_L. apply elem_of_dom_2 in E. set_solver.
Qed.

Lemma shape_eq m m' p : m' !! p = m !! p → shape m' p = shape m p.
Proof. unfold shape. by intros ->. Qed.
Lemma lv_eq m m' p i : m' !! p = m !! p → lv m' p i = lv m p i.
Proof. unfold lv. by intros ->. Qed.
Lemma shape_node m p o s b h : shape m p = Some (o, s, b, h) →
  ∃ n, m !! p = Some n ∧ obj n = o ∧ score n = s ∧ backward n = b ∧ length (level n) = h.
Proof. unfold shape. destruct (m !! p); [|done]. cbn. intros [= <- <- <- <-]. by eexists. Qed.

(** The memory holds the list [L] behind the header [hd], on [lev] levels. *)
Record inv (m : memory) (hd : addr) (lev : nat) (L : list tower) : Prop := {
  i_nodup : NoDup (hd :: map ta L);
  i_hd : shape m hd = Some (None, zero, Some None, ZSKIPLIST_MAXLEVEL);
  i_shape : ∀ A t B, L = A ++ t :: B → shape m (ta t) = Some (Some (to t), ts t, Some (back A), th t);
  i_lv : ∀ A B i, L = A ++ B → (i < hgt lev A)%nat → lv m (at_ hd A) i = Some (fwd i B);
  i_top : ∀ i, (lev ≤ i < ZSKIPLIST_MAXLEVEL)%nat → ∃ sp, lv m hd i = Some (mk_level None sp);
  i_lev : (1 ≤ lev ≤ ZSKIPLIST_MAXLEVEL)%nat;
  i_th : Forall (λ t, (1 ≤ th t ≤ lev)%nat) L;
  i_len : zlen L < 2 ^ 32
}.

Lemma inv_size m hd lev L : inv m hd lev L → (length L < size m)%nat.
Proof.
  intros H. rewrite <- size_dom. pose proof (i_nodup _ _ _ _ H) as Hn.
  apply (Nat.lt_le_trans _ (size (list_to_set (hd :: map ta L) : gset addr))).
  { rewrite size_list_to_set by done. cbn. rewrite length_map. lia. }
  apply subseteq_size. intros p. rewrite elem_of_list_to_set, elem_of_dom. intros Hp.
  apply elem_of_cons in Hp as [->|Hp].
  - pose proof (i_hd _ _ _ _ H) as E. apply shape_node in E as (n & -> & _). by eexists.
  - apply list_elem_of_fmap in Hp as (t & -> & Ht). apply list_elem_of_split in Ht as (A & B & ->).
    pose proof (i_shape _ _ _ _ H A t B eq_refl) as E. apply shape_node in E as (n & -> & _). by eexists.
Qed.

(** ** The search *)

(** The condition decides a property of the next node and its position. *)
Definition decides (go : Z → zskiplistLevel → zskiplistNode → option bool) (P : Z → tower → bool) : Prop :=
  ∀ r l n t, obj n = Some (to t) → score n = ts t → 0 ≤ r → 0 ≤ span l → r + span l < 2 ^ 32 →
  go r l n = Some (P (r + span l) t).
(** The property holds up to the end of [A] and nowhere after it. *)
Definition splits (P : Z → tower → bool) (A B : list tower) : Prop :=
  (∀ A1 t A2, A = A1 ++ t :: A2 → P (zlen A1 + 1) t = true) ∧
  (∀ B1 t B2, B = B1 ++ t :: B2 → P (zlen A + zlen B1 + 1) t = false).

Lemma walk_spec go P w m hd lev A B i : decides go P → splits P A B → 32 ≤ w → inv m hd lev (A ++ B) →
  ∀ fuel A1 A2, A = A1 ++ A2 → (i < hgt lev A1)%nat → (length A2 < fuel)%nat →
  ∃ C K, A = C ++ K ∧ slot lev i C K ∧ walk go w fuel m i (at_ hd A1) (zlen A1) = Some (at_ hd C, zlen C).
Proof.
  intros Hgo [HA HB] Hw H. pose proof (i_len _ _ _ _ H) as Hlen.
  induction fuel as [|fuel IH]; intros A1 A2 E Hi Hf; [lia|]. cbn [walk].
  rewrite (i_lv _ _ _ _ H A1 (A2 ++ B)) by (rewrite ?E, ?app_assoc; done). cbn [mbind option_bind].
  destruct (low_split i A2) as [Hlow|(K & t & A3 & -> & HK & Ht)].
  - exists A1, A2. split; [done|]. split; [done|]. destruct (low_split i B) as [HlB|(K & t & B' & -> & HK & Ht)].
    + rewrite fwd_none; [done|]. by apply Forall_app.
    + rewrite app_assoc, fwd_hit; [|by apply Forall_app|done]. cbn [forward].
      pose proof (i_shape _ _ _ _ H (A ++ K) t B') as Hs. rewrite <- app_assoc in Hs. specialize (Hs eq_refl).
      apply shape_node in Hs as (n & -> & Ho & Hsc & _). cbn [mbind option_bind].
      rewrite (Hgo _ _ _ t) by (done || subst A; cbn [span]; rewrite ?length_app in *; cbn [length] in *; lia).
      cbn [span]. rewrite length_app.
      replace (zlen A1 + (Z.of_nat (length A2 + length K) + 1)) with (zlen A + zlen K + 1) by (subst A; rewrite length_app; lia).
      by rewrite (HB K t B').
  - rewrite <- app_assoc. cbn [app]. rewrite fwd_hit by done. cbn [forward].
    pose proof (i_shape _ _ _ _ H (A1 ++ K) t (A3 ++ B)) as Hs. subst A. rewrite <- !app_assoc in Hs. specialize (Hs eq_refl).
    apply shape_node in Hs as (n & -> & Ho & Hsc & _). cbn [mbind option_bind].
    rewrite (Hgo _ _ _ t) by (done || cbn [span]; rewrite ?length_app in *; cbn [length] in *; rewrite ?length_app in *; lia).
    cbn [span mbind option_bind].
    replace (zlen A1 + (zlen K + 1)) with (zlen (A1 ++ K) + 1) by (rewrite length_app; lia).
    rewrite (HA (A1 ++ K) t A3) by by rewrite <- app_assoc.
    destruct (IH (A1 ++ K ++ [t]) A3) as (C & K' & E' & HS & Hwalk).
    { by rewrite <- !app_assoc. } { rewrite app_assoc, hgt_app by done. done. }
    { rewrite length_app in Hf. cbn [length] in Hf. lia. }
    exists C, K'. split; [done|]. split; [done|]. rewrite <- Hwalk.
    rewrite app_assoc, at_app by done. unfold at_ at 1. cbn [last]. f_equal. rewrite wrapu_id; [rewrite !length_app; cbn; lia|].
    unfold in_u. rewrite !length_app in Hlen. cbn [length] in Hlen. rewrite !length_app in *. cbn [length] in *.
    assert (2 ^ 32 ≤ 2 ^ w) by (apply Z.pow_le_mono_r; lia). lia.
Qed.

(** The arrays [update] and [rank] for the hole between [A] and [B]. *)
Definition updates (hd : addr) (lev : nat) (A : list tower) (us : list (addr * Z)) : Prop :=
  ∀ i, (i < lev)%nat → ∃ C K, A = C ++ K ∧ slot lev i C K ∧ us !! i = Some (at_ hd C, zlen C).

Lemma descend_spec go P w m hd lev A B : decides go P → splits P A B → 32 ≤ w → inv m hd lev (A ++ B) →
  ∀ n A1 A2, A = A1 ++ A2 → (n ≤ hgt lev A1)%nat →
  ∃ us, descend go w m n (at_ hd A1) (zlen A1) = Some us ∧ length us = n ∧
    ∀ i, (i < n)%nat → ∃ C K, A = C ++ K ∧ slot lev i C K ∧ us !! i = Some (at_ hd C, zlen C).
Proof.
  intros Hgo HP Hw H. induction n as [|n IH]; intros A1 A2 E Hn; cbn [descend].
  { exists []. split; [done|]. split; [done|]. lia. }
  destruct (walk_spec go P w m hd lev A B n Hgo HP Hw H (S (size m)) A1 A2 E) as (C & K & E' & HS & ->); [lia| |].
  { pose proof (inv_size _ _ _ _ H). subst A. rewrite !length_app in *. lia. }
  cbn [mbind option_bind]. destruct (IH C K E') as (us & -> & Hl & Hus); [destruct HS; lia|].
  cbn [mbind option_bind]. exists (us ++ [(at_ hd C, zlen C)]). split; [done|]. split; [rewrite length_app; cbn; lia|].
  intros i Hi. destruct (decide (i = n)) as [->|Hne].
  - exists C, K. split; [done|]. split; [done|]. by apply list_lookup_middle.
  - destruct (Hus i) as (C' & K' & HC); [lia|]. exists C', K'. rewrite lookup_app_l by lia. done.
Qed.

Lemma search_spec go P w zsl A B : decides go P → splits P A B → 32 ≤ w →
  inv (mem zsl) (header zsl) (level_ zsl) (A ++ B) →
  ∃ us, descend go w (mem zsl) (level_ zsl) (header zsl) 0 = Some us ∧ length us = level_ zsl ∧
    updates (header zsl) (level_ zsl) A us ∧ us !! 0%nat = Some (at_ (header zsl) A, zlen A) ∧
    lv (mem zsl) (at_ (header zsl) A) 0 = Some (fwd 0 B).
Proof.
  intros Hgo HP Hw H. destruct (descend_spec go P w _ _ _ A B Hgo HP Hw H (level_ zsl) [] A) as (us & E & Hl & Hus); [done|done|].
  exists us. split; [done|]. split; [done|]. split; [done|].
  pose proof (i_lev _ _ _ _ H) as Hlev. pose proof (i_th _ _ _ _ H) as Hth.
  destruct (Hus 0%nat) as (C & K & -> & [HK HC] & Hu); [lia|].
  assert (K = []) as ->.
  { destruct K as [|t K]; [done|]. inversion HK; subst. rewrite !Forall_app, Forall_cons in Hth. lia. }
  rewrite app_nil_r in *. split; [done|]. by apply (i_lv _ _ _ _ H C B).
Qed.

(** The next node on the lowest level. *)
Lemma fwd_0 L lev : Forall (λ t, (1 ≤ th t ≤ lev)%nat) L → fwd 0 L = mk_level (ta <$> head L) (match L with [] => 0 | _ => 1 end).
Proof. intros H. destruct H as [|t L Ht _]; [done|]. cbn [fwd]. rewrite (proj2 (Nat.ltb_lt _ _)) by lia. done. Qed.

(** ** Relinking *)

(** Behind [A], the pointers of level [i] in front of and in [A] lead to [X]. *)
Definition ptrs (m : memory) (hd : addr) (lev : nat) (A X : list tower) (i : nat) : Prop :=
  ∀ C K, A = C ++ K → (i < hgt lev C)%nat → lv m (at_ hd C) i = Some (fwd i (K ++ X)).

(** What the levels of the nodes of [A] have in common with an earlier memory. *)
Record relinked (m m' : memory) (P : addr → Prop) : Prop := {
  rl_shape : ∀ p, shape m' p = shape m p;
  rl_other : ∀ p, ¬ P p → m' !! p = m !! p;
  rl_dom : dom m' = dom m
}.

Lemma relinked_refl m P : relinked m m P.
Proof. by split. Qed.
Lemma relinked_trans m m1 m2 (P : addr → Prop) : relinked m m1 P → relinked m1 m2 P → relinked m m2 P.
Proof.
  intros [H1 H2 H3] [H4 H5 H6]. split; [by intros p; rewrite H4|intros p Hp; by rewrite H5, H2|congruence].
Qed.
Lemma relinked_weaken m m' (P Q : addr → Prop) : (∀ p, P p → Q p) → relinked m m' P → relinked m m' Q.
Proof. intros HPQ [H1 H2 H3]. split; [done| |done]. intros p Hp. apply H2. auto. Qed.

(** The headroom of the nodes of [A]: assignments to their levels succeed. *)
Definition roomy (m : memory) (hd : addr) (lev : nat) (A : list tower) : Prop :=
  ∀ C K i, A = C ++ K → (i < hgt lev C)%nat → ∃ sh, shape m (at_ hd C) = Some sh ∧ (i < sh.2)%nat.

(** The node to update gets a pointer to [Y] instead of [X]. *)
Lemma relink_slot m hd lev A X Y i C K l :
  NoDup (hd :: map ta A) → roomy m hd lev A → ptrs m hd lev A X i → A = C ++ K → slot lev i C K →
  l = fwd i (K ++ Y) →
  ∃ m', set_level m (at_ hd C) i l = Some m' ∧ ptrs m' hd lev A Y i ∧
    (∀ j Z, j ≠ i → ptrs m hd lev A Z j → ptrs m' hd lev A Z j) ∧
    (∀ p j, j ≠ i → lv m' p j = lv m p j) ∧ relinked m m' (λ p, p ∈ hd :: map ta A).
Proof.
  intros Hn Hroom Hp E HS ->. destruct (Hroom C K i E) as (sh & Hsh & Hi); [apply HS|].
  assert (Hin : at_ hd C ∈ hd :: map ta A).
  { subst A. pose proof (at_in hd C). rewrite map_app. set_solver. }
  destruct (set_level_spec m _ i (fwd i (K ++ Y)) sh Hsh Hi) as (m' & -> & M1 & M2 & M3 & M4 & M5).
  exists m'. split; [done|]. split; [|split; [|split]].
  - intros C' K' E' HC'. destruct (slot_other hd lev i A C K C' K' [] ltac:(by rewrite app_nil_r) E HS E' HC')
      as [[-> ->]|[Hne Hsame]]; [done|].
    rewrite M3 by by left. rewrite (Hp C' K' E' HC'). f_equal. apply Hsame.
  - intros j Z Hj HZ C' K' E' HC'. rewrite M3 by by right. by apply HZ.
  - intros p j Hj. apply M3. by right.
  - split; [done| |done]. intros p Hpn. apply M4. by intros ->.
Qed.

Lemma roomy_shape m m' hd lev A : (∀ p, p ∈ hd :: map ta A → shape m' p = shape m p) → roomy m hd lev A → roomy m' hd lev A.
Proof.
  intros Hs Hr C K i E Hi. rewrite Hs; [by apply (Hr C K)|]. subst A. pose proof (at_in hd C). rewrite map_app. set_solver.
Qed.

Lemma inv_roomy m hd lev A B : inv m hd lev (A ++ B) → roomy m hd lev A.
Proof.
  intros H C K i -> Hi. destruct C as [|t C _] using rev_ind.
  - exists (None, zero, Some None, ZSKIPLIST_MAXLEVEL). split; [apply (i_hd _ _ _ _ H)|].
    pose proof (i_lev _ _ _ _ H). cbn in *. unfold ZSKIPLIST_MAXLEVEL in *. unfold hgt in Hi. cbn in Hi. lia.
  - unfold at_, hgt in *. rewrite last_snoc in *. eexists. rewrite <- !app_assoc in H. cbn [app] in H.
    split; [by apply (i_shape _ _ _ _ H C t (K ++ B))|]. done.
Qed.

Lemma inv_ptrs m hd lev A B i : inv m hd lev (A ++ B) → ptrs m hd lev A B i.
Proof. intros H C K -> Hi. apply (i_lv _ _ _ _ H); [by rewrite <- app_assoc|done]. Qed.

(** A loop that relinks the levels one by one and keeps [I]. *)
Lemma relink_loop f hd lev A X Y (I : nat → memory → Prop) n : ∀ a m,
  (∀ i m1, (a ≤ i < a + n)%nat → roomy m1 hd lev A → ptrs m1 hd lev A X i → I i m1 →
     ∃ m2, f i m1 = Some m2 ∧ ptrs m2 hd lev A Y i ∧ roomy m2 hd lev A ∧
       (∀ j Z, j ≠ i → ptrs m1 hd lev A Z j → ptrs m2 hd lev A Z j) ∧ I (S i) m2) →
  roomy m hd lev A → (∀ i, (a ≤ i < a + n)%nat → ptrs m hd lev A X i) → I a m →
  ∃ m', for_ f a n m = Some m' ∧ roomy m' hd lev A ∧ (∀ i, (a ≤ i < a + n)%nat → ptrs m' hd lev A Y i) ∧
    (∀ i Z, (i < a ∨ a + n ≤ i)%nat → ptrs m hd lev A Z i → ptrs m' hd lev A Z i) ∧ I (a + n)%nat m'.
Proof.
  induction n as [|n IH]; intros a m Hf Hroom Hp HI; cbn [for_].
  { exists m. rewrite Nat.add_0_r. split_and!; try done. lia. }
  destruct (Hf a m) as (m1 & -> & P1 & R1 & O1 & I1); [lia|done|apply Hp; lia|done|]. cbn [mbind option_bind].
  destruct (IH (S a) m1) as (m' & E & R2 & P2 & O2 & I2); [|done| |done|].
  - intros i m2 Hi. apply Hf. lia.
  - intros i Hi. apply O1; [lia|]. apply Hp. lia.
  - exists m'. split; [done|]. split; [done|]. split_and!.
    + intros i Hi. destruct (decide (i = a)) as [->|Hne]; [apply O2; [lia|done]|]. apply P2. lia.
    + intros i Z Hi HZ. apply O2; [lia|]. apply O1; [lia|done].
    + by rewrite <- Nat.add_succ_comm.
Qed.

(** *** Insertion *)

(** More levels. *)
Lemma grow_spec zsl L A B us : L = A ++ B → ∀ n lev m, inv m (header zsl) lev L → updates (header zsl) lev A us →
  length us = lev → length_ zsl = zlen L → (lev + n ≤ ZSKIPLIST_MAXLEVEL)%nat →
  ∃ m' us', for_ (grow_step zsl) lev n (m, us) = Some (m', us') ∧ inv m' (header zsl) (lev + n) L ∧
    updates (header zsl) (lev + n) A us' ∧ us' !! 0%nat = us !! 0%nat ∧ dom m' = dom m ∧
    (∀ p, p ≠ header zsl → m' !! p = m !! p).
Proof.
  intros EL n. revert us. induction n as [|n IH]; intros us lev m H Hus Hl Hlen Hmax; cbn [for_].
  { exists m, us. rewrite Nat.add_0_r. by split_and!. }
  pose proof (i_lev _ _ _ _ H) as Hlev.
  destruct (i_top _ _ _ _ H lev) as [sp Hsp]; [lia|].
  destruct (set_level_spec m (header zsl) lev (mk_level None (u32 (length_ zsl))) _ (i_hd _ _ _ _ H))
    as (m1 & E1 & M1 & M2 & M3 & M4 & M5); [cbn [snd]; lia|].
  assert (Hstep : grow_step zsl lev (m, us) = Some (m1, us ++ [(header zsl, 0)])).
  { unfold grow_step. rewrite Hsp. cbn [mbind option_bind forward]. by rewrite E1. }
  rewrite Hstep. cbn [mbind option_bind]. clear Hstep E1.
  assert (Hlow : low lev L) by (eapply Forall_impl; [exact (i_th _ _ _ _ H)|]; cbn; lia).
  destruct (IH (us ++ [(header zsl, 0)]) (S lev) m1) as (m' & us' & E & H' & Hus' & Hu0 & D' & O').
  - pose proof (i_nodup _ _ _ _ H) as Hn. split; try done.
    + by rewrite M1; apply H.
    + intros A' t B' E. rewrite M1. by apply (i_shape _ _ _ _ H A' t B').
    + intros A' B' i E Hi. destruct A' as [|t A' _] using rev_ind.
      * unfold hgt in Hi. cbn in Hi. unfold at_. cbn [last]. destruct (decide (i = lev)) as [->|Hne].
        -- rewrite M2, fwd_none by by rewrite app_nil_l in E; subst. rewrite Hlen, E. cbn [app]. do 2 f_equal.
           pose proof (i_len _ _ _ _ H). apply wrapu_id. unfold in_u. subst L. rewrite E in *. cbn [app] in *. lia.
        -- rewrite M3 by by right. apply (i_lv _ _ _ _ H [] B'); [done|]. unfold hgt. cbn. lia.
      * unfold hgt in Hi. rewrite last_snoc in Hi. rewrite M3.
        -- apply (i_lv _ _ _ _ H (A' ++ [t]) B'); [done|]. unfold hgt. by rewrite last_snoc.
        -- left. intros Hx. apply NoDup_cons in Hn as [Hn _]. apply Hn. rewrite <- Hx, E, map_app.
           apply elem_of_app. left. apply at_in'. by destruct A'.
    + intros i Hi. rewrite M3 by (right; lia). apply (i_top _ _ _ _ H). lia.
    + lia.
    + eapply Forall_impl; [exact (i_th _ _ _ _ H)|]. cbn. lia.
    + apply (i_len _ _ _ _ H).
  - intros i Hi. destruct (decide (i = lev)) as [->|Hne].
    + exists [], A. split; [done|]. split; [split; [by subst L; apply Forall_app in Hlow as []|unfold hgt; cbn; lia]|].
      rewrite <- Hl. by apply list_lookup_middle.
    + destruct (Hus i) as (C & K & E & [HK HC] & Hu); [lia|]. exists C, K. split; [done|]. split.
      * split; [done|]. unfold hgt in *. destruct (last C); lia.
      * rewrite lookup_app_l by lia. done.
  - rewrite length_app. cbn. lia.
  - done.
  - lia.
  - rewrite <- Nat.add_succ_comm. exists m', us'. split_and!; try done.
    + rewrite Hu0. rewrite lookup_app_l by lia. done.
    + congruence.
    + intros p Hp. rewrite O' by done. by apply M4.
Qed.

(** *** Putting the parts together *)

(** The towers of [Y] with their pointers; the first one has the back pointer [b]. *)
Fixpoint chain (m : memory) (b : option addr) (Y : list tower) : Prop :=
  match Y with
  | [] => True
  | t :: Y =>
      shape m (ta t) = Some (Some (to t), ts t, Some b, th t) ∧
      (∀ i, (i < th t)%nat → lv m (ta t) i = Some (fwd i Y)) ∧ chain m (Some (ta t)) Y
  end.

Lemma back_snoc A t : back (A ++ [t]) = Some (ta t).
Proof. unfold back. by rewrite last_snoc. Qed.

Lemma inv_chain m hd lev B : ∀ A, inv m hd lev (A ++ B) → chain m (back A) B.
Proof.
  induction B as [|t B IH]; intros A H; [done|]. cbn [chain]. split; [by apply (i_shape _ _ _ _ H A t B)|].
  split.
  - intros i Hi. assert (Hat : at_ hd (A ++ [t]) = ta t) by (unfold at_; by rewrite last_snoc). rewrite <- Hat.
    apply (i_lv _ _ _ _ H); [by rewrite <- app_assoc|]. unfold hgt. by rewrite last_snoc.
  - rewrite <- (back_snoc A). apply IH. by rewrite <- app_assoc.
Qed.

Lemma chain_frame m m' Y : ∀ b, (∀ p, p ∈ map ta Y → m' !! p = m !! p) → chain m b Y → chain m' b Y.
Proof.
  induction Y as [|t Y IH]; intros b Hm H; [done|]. cbn [chain map] in *. destruct H as (H1 & H2 & H3).
  assert (Ht : m' !! ta t = m !! ta t) by (apply Hm; set_solver).
  split; [by rewrite (shape_eq m m')|]. split; [intros i Hi; rewrite (lv_eq m m') by done; auto|].
  apply IH; [|done]. intros p Hp. apply Hm. set_solver.
Qed.

Lemma chain_shape m Y2 t : ∀ Y1 A, chain m (back A) (Y1 ++ t :: Y2) →
  shape m (ta t) = Some (Some (to t), ts t, Some (back (A ++ Y1)), th t).
Proof.
  induction Y1 as [|y Y1 IH]; intros A H; cbn [app chain] in H; [rewrite app_nil_r; apply H|].
  destruct H as (_ & _ & H). rewrite <- (back_snoc A) in H. apply IH in H. rewrite H. by rewrite <- app_assoc.
Qed.

Lemma chain_lv m hd Y2 i : ∀ Y1 b, Y1 ≠ [] → chain m b (Y1 ++ Y2) → (i < hgt 0 Y1)%nat →
  lv m (at_ hd Y1) i = Some (fwd i Y2).
Proof.
  induction Y1 as [|y Y1 IH]; intros b Hne H Hi; [done|]. cbn [app chain] in H. destruct H as (_ & H1 & H2).
  destruct Y1 as [|y' Y1]; [by apply H1|]. by apply (IH _ ltac:(done) H2).
Qed.

(** The front of the list keeps its nodes, the rest is another chain. *)
Lemma inv_join m m' hd lev A X Y :
  inv m hd lev (A ++ X) → (∀ p, p ∈ hd :: map ta A → shape m' p = shape m p) →
  (∀ i, (i < lev)%nat → ptrs m' hd lev A Y i) → (∀ i, (lev ≤ i)%nat → lv m' hd i = lv m hd i) →
  chain m' (back A) Y → NoDup (hd :: map ta (A ++ Y)) → Forall (λ t, (1 ≤ th t ≤ lev)%nat) Y →
  zlen (A ++ Y) < 2 ^ 32 → inv m' hd lev (A ++ Y).
Proof.
  intros H Hs Hp Ht Hc Hn Hy Hl.
  assert (Hsh : ∀ C K i, A = C ++ K → (i < hgt lev C)%nat → (i < lev)%nat).
  { intros C K i -> Hi. destruct C as [|t C _] using rev_ind; [done|]. unfold hgt in Hi. rewrite last_snoc in Hi.
    pose proof (i_th _ _ _ _ H) as Hth. rewrite !Forall_app, Forall_singleton in Hth. lia. }
  split; [done| | | | |apply H| |done].
  - rewrite Hs by set_solver. apply H.
  - intros C t K E. apply app_eq_inv in E as [(k & -> & E)|(k & -> & ->)].
    + destruct k as [|x k]; cbn in E.
      * subst Y. rewrite app_nil_r in *. apply Hc.
      * injection E as -> ->. rewrite Hs by (rewrite map_app; set_solver). rewrite <- app_assoc in H.
        by apply (i_shape _ _ _ _ H C x (k ++ X)).
    + by apply (chain_shape m' K t k A).
  - intros C K i E Hi. apply app_eq_inv in E as [(k & -> & ->)|(k & -> & ->)].
    + eapply Hp; [by eapply Hsh|done|done].
    + destruct k as [|x k].
      * rewrite app_nil_r in *. assert (EA : A = A ++ []) by by rewrite app_nil_r.
        exact (Hp i (Hsh A [] i EA Hi) A [] EA Hi).
      * rewrite at_app by done. rewrite hgt_app in Hi by done. apply (chain_lv m' hd K i (x :: k) (back A)); try done.
        unfold hgt in *. by destruct (last (x :: k)) eqn:El; [|apply last_None in El].
  - intros i Hi. rewrite Ht by lia. by apply (i_top _ _ _ _ H).
  - apply Forall_app. split; [|done]. pose proof (i_th _ _ _ _ H) as Hth. by apply Forall_app in Hth as [].
Qed.

Lemma fwd_span i L : 0 ≤ span (fwd i L) ≤ zlen L.
Proof. induction L as [|t L IH]; cbn [fwd length]; [cbn; lia|]. destruct (i <? th t)%nat; cbn [span]; lia. Qed.

(** The memory changed only at the nodes [P], and there only on the levels below [lev]. *)
Record touched (m m' : memory) (hd : addr) (lev : nat) (P : addr → Prop) : Prop := {
  to_shape : ∀ p, shape m' p = shape m p;
  to_other : ∀ p, ¬ P p → m' !! p = m !! p;
  to_top : ∀ i, (lev ≤ i)%nat → lv m' hd i = lv m hd i;
  to_dom : dom m' = dom m
}.

Lemma touched_refl m hd lev P : touched m m hd lev P.
Proof. by split. Qed.
Lemma touched_trans m m1 m2 hd lev (P : addr → Prop) :
  touched m m1 hd lev P → touched m1 m2 hd lev P → touched m m2 hd lev P.
Proof.
  intros [H1 H2 H3 H4] [H5 H6 H7 H8]. split; [intros p|intros p Hp|intros i Hi|]; [by rewrite H5|by rewrite H6, H2|by rewrite H7, H3|congruence].
Qed.
Lemma touched_relinked m m' hd lev (P Q : addr → Prop) i :
  relinked m m' P → (∀ p, P p → Q p) → (∀ p j, j ≠ i → lv m' p j = lv m p j) → (i < lev)%nat → touched m m' hd lev Q.
Proof. intros [H1 H2 H3] HPQ Hlv Hi. split; [done|intros p Hp; apply H2; auto|intros j Hj; apply Hlv; lia|done]. Qed.

Lemma ptrs_frame m m' hd lev A X i :
  (∀ p, p ∈ hd :: map ta A → lv m' p i = lv m p i) → ptrs m hd lev A X i → ptrs m' hd lev A X i.
Proof.
  intros Hlv Hp C K E Hi. rewrite Hlv; [by apply Hp|]. subst A. pose proof (at_in hd C). rewrite map_app. set_solver.
Qed.

(** The levels of the new node. *)
Lemma insert_loop_spec m hd lev A B a s o h us :
  NoDup (hd :: map ta A) → a ∉ hd :: map ta A → roomy m hd lev A →
  (∀ i, (i < h)%nat → ptrs m hd lev A B i) → (h ≤ lev)%nat → updates hd lev A us →
  us !! 0%nat = Some (at_ hd A, zlen A) → shape m a = Some (Some o, s, None, h) → zlen (A ++ B) < 2 ^ 32 - 1 →
  ∃ m', for_ (insert_step a us) 0 h m = Some m' ∧ roomy m' hd lev A ∧
    (∀ i, (i < h)%nat → ptrs m' hd lev A (mk_tower a s o h :: B) i) ∧
    (∀ i Z, (h ≤ i)%nat → ptrs m hd lev A Z i → ptrs m' hd lev A Z i) ∧
    (∀ i, (i < h)%nat → lv m' a i = Some (fwd i B)) ∧
    touched m m' hd lev (λ p, p = a ∨ p ∈ hd :: map ta A).
Proof.
  intros Hn Ha Hroom Hp Hh Hus Hu0 Hsh Hlen. set (t := mk_tower a s o h).
  destruct (relink_loop (insert_step a us) hd lev A B (t :: B)
    (λ i m', touched m m' hd lev (λ p, p = a ∨ p ∈ hd :: map ta A) ∧ ∀ j, (j < i)%nat → lv m' a j = Some (fwd j B)) h 0 m)
    as (m' & E & R' & P' & O' & T' & L').
  - intros i m1 Hi Hr1 Hp1 [T1 L1]. destruct (Hus i) as (C & K & EA & HS & Hu); [lia|].
    unfold insert_step. rewrite Hu0. cbn [mbind option_bind]. rewrite Hu. cbn [mbind option_bind].
    rewrite (Hp1 C K EA) by apply HS. cbn [mbind option_bind]. rewrite fwd_low by apply HS. cbn [forward span].
    pose proof (fwd_span i B) as Hsp. assert (HlA : zlen A = zlen C + zlen K) by (rewrite EA, length_app; lia).
    rewrite length_app in Hlen.
    assert (E1 : u32 (zlen A - zlen C) = zlen K).
    { replace (zlen A - zlen C) with (zlen K) by lia. apply wrapu_id. unfold in_u. lia. }
    rewrite E1.
    assert (E2 : u32 (span (fwd i B) + zlen K - zlen K) = span (fwd i B)) by (rewrite Z.add_simpl_r; apply wrapu_id; unfold in_u; lia).
    rewrite E2. assert (E3 : u32 (zlen K + 1) = zlen K + 1) by (apply wrapu_id; unfold in_u; lia). rewrite E3.
    destruct (set_level_spec m1 a i (mk_level (forward (fwd i B)) (span (fwd i B))) (Some o, s, None, h))
      as (m2 & -> & M1 & M2 & M3 & M4 & M5); [by rewrite (to_shape _ _ _ _ _ T1)|cbn; lia|]. cbn [mbind option_bind].
    assert (Hp2 : ∀ j Z, ptrs m1 hd lev A Z j → ptrs m2 hd lev A Z j).
    { intros j Z. apply ptrs_frame. intros p Hpin. apply M3. left. by intros ->. }
    destruct (relink_slot m2 hd lev A B (t :: B) i C K (mk_level (Some a) (zlen K + 1)) Hn) as (m3 & E4 & P3 & O3 & L3 & R3);
      [eapply roomy_shape; [|exact Hr1]; auto|by apply Hp2|done|done|by rewrite fwd_hit; [|apply HS|cbn; lia]|].
    exists m3. split; [exact E4|]. split; [done|]. split.
    { eapply roomy_shape; [|exact Hr1]. intros p _. rewrite (rl_shape _ _ _ R3). apply M1. }
    split; [intros j Z Hj HZ; apply O3; [done|by apply Hp2]|]. split.
    + eapply touched_trans; [exact T1|]. eapply (touched_trans _ m2).
      * split; [done|intros p Hpn; apply M4; tauto| |done]. intros j Hj. apply M3. right. lia.
      * eapply touched_relinked; [exact R3|cbn; auto|exact L3|lia].
    + intros j Hj. rewrite (lv_eq m2 m3) by by apply (rl_other _ _ _ R3). destruct (decide (j = i)) as [->|Hne].
      * rewrite M2. by destruct (fwd i B).
      * rewrite M3 by by right. apply L1. lia.
  - done.
  - intros i Hi. apply Hp. lia.
  - split; [apply touched_refl|]. lia.
  - exists m'. split; [done|]. split; [done|]. split; [intros i Hi; apply P'; lia|].
    split; [intros i Z Hi; apply O'; lia|]. by split.
Qed.

Lemma span_loop_spec m hd lev A B t us :
  NoDup (hd :: map ta A) → roomy m hd lev A → (∀ i, (th t ≤ i < lev)%nat → ptrs m hd lev A B i) → (th t ≤ lev)%nat →
  updates hd lev A us → zlen (A ++ B) < 2 ^ 32 - 1 →
  ∃ m', for_ (span_step us) (th t) (lev - th t) m = Some m' ∧ roomy m' hd lev A ∧
    (∀ i, (th t ≤ i < lev)%nat → ptrs m' hd lev A (t :: B) i) ∧
    (∀ i Z, (i < th t)%nat → ptrs m hd lev A Z i → ptrs m' hd lev A Z i) ∧
    touched m m' hd lev (λ p, p ∈ hd :: map ta A).
Proof.
  intros Hn Hroom Hp Hh Hus Hlen.
  destruct (relink_loop (span_step us) hd lev A B (t :: B) (λ i m', touched m m' hd lev (λ p, p ∈ hd :: map ta A))
    (lev - th t) (th t) m) as (m' & E & R' & P' & O' & T').
  - intros i m1 Hi Hr1 Hp1 T1. destruct (Hus i) as (C & K & EA & HS & Hu); [lia|].
    unfold span_step. rewrite Hu. cbn [mbind option_bind]. rewrite (Hp1 C K EA) by apply HS. cbn [mbind option_bind].
    rewrite fwd_low by apply HS. cbn [forward span]. pose proof (fwd_span i B) as Hsp.
    assert (HlA : zlen A = zlen C + zlen K) by (rewrite EA, length_app; lia). rewrite length_app in Hlen.
    assert (E1 : u32 (span (fwd i B) + zlen K + 1) = span (fwd i B) + zlen K + 1) by (apply wrapu_id; unfold in_u; lia).
    rewrite E1.
    destruct (relink_slot m1 hd lev A B (t :: B) i C K (mk_level (forward (fwd i B)) (span (fwd i B) + zlen K + 1)) Hn)
      as (m2 & -> & P2 & O2 & L2 & R2); [done|done|done|done| |].
    { rewrite fwd_low by apply HS. cbn [fwd]. rewrite (proj2 (Nat.ltb_ge _ _)) by lia. cbn. f_equal. lia. }
    exists m2. split; [done|]. split; [done|].
    split; [eapply roomy_shape; [|exact Hr1]; intros p _; apply R2|]. split; [done|].
    eapply touched_trans; [exact T1|]. eapply touched_relinked; [exact R2|done|exact L2|lia].
  - done.
  - intros i Hi. apply Hp. lia.
  - apply touched_refl.
  - exists m'. split; [done|]. split; [done|]. split; [intros i Hi; apply P'; lia|]. split; [|exact T'].
    intros i Z Hi. apply O'. lia.
Qed.

(** ** The order of the towers *)
Context {sord : TotalCompare scmp} {oord : TotalCompare compareStringObjects}
  (equal_spec : ∀ o o', equalStringObjects o o' = true ↔ compareStringObjects o o' = 0).

(** Score first, then object. *)
Definition kcmp (k1 k2 : Sc * Ob) : Z :=
  if scmp k1.1 k2.1 =? 0 then compareStringObjects k1.2 k2.2 else scmp k1.1 k2.1.
Definition tkey (t : tower) : Sc * Ob := (ts t, to t).
Definition tlt (t1 t2 : tower) : Prop := kcmp (tkey t1) (tkey t2) < 0.

#[local] Instance kcmp_total : TotalCompare kcmp.
Proof.
  assert (Heq : ∀ a b c : Sc, scmp a b = 0 → (scmp a c =? 0) = (scmp b c =? 0)).
  { intros a b c H. destruct (Z.eqb_spec (scmp a c) 0) as [E|E], (Z.eqb_spec (scmp b c) 0) as [E'|E']; try done.
    - destruct E'. eapply (cmp_zero_trans scmp); [|done]. by apply (cmp_zero_sym scmp).
    - destruct E. by eapply (cmp_zero_trans scmp). }
  split; unfold kcmp.
  - intros [s1 o1] [s2 o2]. cbn. destruct (Z.eqb_spec (scmp s1 s2) 0) as [E|E].
    + rewrite (cmp_zero_sym scmp _ _ E). cbn. apply cmp_antisym.
    + destruct (Z.eqb_spec (scmp s2 s1) 0) as [E'|E']; [by apply (cmp_zero_sym scmp) in E'|]. apply cmp_antisym.
  - intros [s1 o1] [s2 o2] [s3 o3]. cbn.
    destruct (Z.eqb_spec (scmp s1 s2) 0) as [E|E]; [rewrite (Heq _ _ s3 E)|];
      destruct (Z.eqb_spec (scmp s2 s3) 0) as [E'|E']; intros H1 H2.
    + by eapply cmp_trans.
    + by apply (cmp_eq s1 s2 s3 E).
    + pose proof (cmp_lt_le scmp s1 s2 s3 H1 ltac:(lia)). destruct (Z.eqb_spec (scmp s1 s3) 0); lia.
    + pose proof (cmp_trans _ _ _ H1 H2). destruct (Z.eqb_spec (scmp s1 s3) 0); lia.
  - intros [s1 o1] [s2 o2] [s3 o3]. cbn. destruct (Z.eqb_spec (scmp s1 s2) 0) as [E|E]; [|lia].
    intros Ho. rewrite (Heq _ _ s3 E). destruct (_ =? _); [by apply cmp_eq|by apply cmp_eq].
Qed.

Lemma before_spec s o : decides (go_before s o) (λ _ t, kcmp (tkey t) (s, o) <? 0).
Proof.
  intros r l n t Ho Hs _ _ _. unfold go_before, slt, seq_, kcmp. rewrite Hs, Ho. cbn.
  destruct (Z.ltb_spec (scmp (ts t) s) 0) as [E|E], (Z.eqb_spec (scmp (ts t) s) 0) as [E'|E']; try done; try lia.
  all: f_equal; destruct (Z.ltb_spec (scmp (ts t) s) 0); first [done|lia].
Qed.
Lemma upto_spec s o : decides (go_upto s o) (λ _ t, kcmp (tkey t) (s, o) <=? 0).
Proof.
  intros r l n t Ho Hs _ _ _. unfold go_upto, slt, seq_, kcmp. rewrite Hs, Ho. cbn.
  destruct (Z.ltb_spec (scmp (ts t) s) 0) as [E|E], (Z.eqb_spec (scmp (ts t) s) 0) as [E'|E']; try done; try lia.
  all: f_equal; destruct (Z.leb_spec (scmp (ts t) s) 0); first [done|lia].
Qed.

Lemma before_down s o t t' : tlt t t' → (kcmp (tkey t') (s, o) <? 0) = true → (kcmp (tkey t) (s, o) <? 0) = true.
Proof. unfold tlt. rewrite !Z.ltb_lt. apply cmp_trans. Qed.
Lemma upto_down s o t t' : tlt t t' → (kcmp (tkey t') (s, o) <=? 0) = true → (kcmp (tkey t) (s, o) <=? 0) = true.
Proof.
  unfold tlt. rewrite !Z.leb_le. intros H H'. apply Z.lt_le_incl. by eapply (cmp_lt_le kcmp).
Qed.

(** A property that is closed downwards splits a sorted list. *)
Lemma sorted_splits (Q : tower → bool) L :
  StronglySorted tlt L → (∀ t t', tlt t t' → Q t' = true → Q t = true) →
  ∃ A B, L = A ++ B ∧ splits (λ _, Q) A B ∧ Forall (λ t, Q t = true) A ∧ Forall (λ t, Q t = false) B.
Proof.
  intros Hs HQ. induction Hs as [|t L Hs IH Ht].
  { exists [], []. split; [done|]. split; [split; intros [] * E; done|]. by split. }
  destruct IH as (A & B & -> & HP & HA & HB). destruct (Q t) eqn:Et.
  - exists (t :: A), B. split; [done|].
    split; [|by split; [constructor|]]. split; intros X x Y E.
    + assert (x ∈ t :: A) as Hx by (rewrite E; set_solver). apply elem_of_cons in Hx as [->|Hx]; [done|].
      rewrite Forall_forall in HA. auto.
    + rewrite Forall_forall in HB. apply HB. rewrite E. set_solver.
  - exists [], (t :: A ++ B).
    assert (Hall : Forall (λ t, Q t = false) (t :: A ++ B)).
    { constructor; [done|]. eapply Forall_impl; [exact Ht|]. intros x Hx. cbn. destruct (Q x) eqn:Ex; [|done].
      rewrite (HQ _ _ Hx Ex) in Et. done. }
    split; [done|]. split; [|by split; [constructor|]]. split; intros X x Y E; [by destruct X|].
    rewrite Forall_forall in Hall. apply Hall. rewrite E. set_solver.
Qed.

Lemma sorted_add {T} (R : T → T → Prop) A x B : StronglySorted R (A ++ B) → Forall (λ y, R y x) A → Forall (R x) B →
  StronglySorted R (A ++ x :: B).
Proof.
  induction A as [|y A IH]; cbn; intros Hs HA HB; [by constructor|]. apply StronglySorted_inv in Hs as [Hs Hy].
  apply Forall_cons in HA as [HyA HA]. constructor; [by apply IH|]. apply Forall_app in Hy as [H1 H2].
  apply Forall_app. split; [done|by constructor].
Qed.
Lemma sorted_delete {T} (R : T → T → Prop) A x B : StronglySorted R (A ++ x :: B) → StronglySorted R (A ++ B).
Proof.
  induction A as [|y A IH]; cbn; intros Hs; apply StronglySorted_inv in Hs as [Hs Hy]; [done|].
  constructor; [by apply IH|]. apply Forall_app in Hy as [H1 H2]. apply Forall_cons in H2 as [_ H2].
  by apply Forall_app.
Qed.

Lemma sorted_app_r {T} (R : T → T → Prop) A B : StronglySorted R (A ++ B) → StronglySorted R B.
Proof. induction A as [|y A IH]; cbn; [done|]. intros Hs. by apply StronglySorted_inv in Hs as [? _]; auto. Qed.

(** The skip list [zsl] holds the towers [L]. *)
Record wf (zsl : zskiplist) (L : list tower) : Prop := {
  wf_inv : inv (mem zsl) (header zsl) (level_ zsl) L;
  wf_tail : tail zsl = back L;
  wf_len : length_ zsl = zlen L;
  wf_top : level_ zsl = 1%nat ∨ Exists (λ t, th t = level_ zsl) L;
  wf_sorted : StronglySorted tlt L
}.

(** ** The operations *)

Lemma zslRandomLevel_range rs h rs' : zslRandomLevel rs = Some (h, rs') → (1 ≤ h ≤ ZSKIPLIST_MAXLEVEL)%nat.
Proof.
  unfold zslRandomLevel.
  assert (H : ∀ rs n l rs', random_loop rs n = Some (l, rs') → n ≤ l).
  { intros rs0. induction rs0 as [|r rs0 IH]; intros n l rs1; cbn [random_loop]; [done|]. case_match; [|intros [= -> ->]; lia].
    intros E. apply IH in E. lia. }
  destruct (random_loop rs 1) as [[l r]|] eqn:E; [|done]. cbn [mbind option_bind]. apply H in E. intros [= <- <-].
  unfold ZSKIPLIST_MAXLEVEL. destruct (Z.ltb_spec l (Z.of_nat 32)); lia.
Qed.

(** The first tower behind the hole gets another back pointer. *)
Lemma chain_head m m' b b' Y :
  chain m b Y → NoDup (map ta Y) → (∀ t Y', Y = t :: Y' → shape m' (ta t) = Some (Some (to t), ts t, Some b', th t)) →
  (∀ p j, lv m' p j = lv m p j) → (∀ p, Some p ≠ ta <$> head Y → m' !! p = m !! p) → chain m' b' Y.
Proof.
  destruct Y as [|t Y]; [done|]. cbn [chain head fmap option_fmap option_map map]. intros (H1 & H2 & H3) Hn Hs Hl Hm.
  apply NoDup_cons in Hn as [Hn _]. split; [by apply (Hs t Y)|]. split; [intros i Hi; rewrite Hl; auto|].
  eapply chain_frame; [|exact H3]. intros p Hp. apply Hm. by intros [= ->].
Qed.

Lemma back_at hd A : hd ∉ map ta A → (if bool_decide (at_ hd A = hd) then None else Some (at_ hd A)) = back A.
Proof.
  intros Hn. destruct A as [|t A _] using rev_ind; [by rewrite bool_decide_true|].
  rewrite bool_decide_false; [unfold at_, back; by rewrite last_snoc|].
  intros E. apply Hn. rewrite <- E. apply at_in'. by destruct A.
Qed.

(** Linking a new tower between [A] and [B], the levels being high enough. *)
Lemma link_spec m hd lev A B a s o h us :
  inv m hd lev (A ++ B) → updates hd lev A us → us !! 0%nat = Some (at_ hd A, zlen A) → a ∉ dom m →
  (1 ≤ h ≤ lev)%nat → zlen (A ++ B) < 2 ^ 32 - 1 →
  ∃ m', (m ← for_ (insert_step a us) 0 h (zslCreateNode m a h s (Some o));
         m ← for_ (span_step us) h (lev - h) m;
         m ← set_backward m a (back A);
         match ta <$> head B with Some y => set_backward m y (Some a) | None => Some m end) = Some m' ∧
    inv m' hd lev (A ++ mk_tower a s o h :: B) ∧ dom m' = {[a]} ∪ dom m.
Proof.
  intros H Hus Hu0 Ha Hh Hlen. set (t := mk_tower a s o h). pose proof (i_nodup _ _ _ _ H) as Hn.
  assert (Hdom : ∀ p, p ∈ hd :: map ta (A ++ B) → p ∈ dom m).
  { intros p Hp. apply elem_of_dom. apply elem_of_cons in Hp as [->|Hp].
    - pose proof (i_hd _ _ _ _ H) as E. apply shape_node in E as (n & -> & _). by eexists.
    - apply list_elem_of_fmap in Hp as (x & -> & Hx). apply list_elem_of_split in Hx as (C & K & E).
      pose proof (i_shape _ _ _ _ H C x K E) as E'. apply shape_node in E' as (n & -> & _). by eexists. }
  assert (Han : a ∉ hd :: map ta (A ++ B)) by auto. rewrite map_app in Han.
  assert (HnA : NoDup (hd :: map ta A)).
  { rewrite map_app, app_comm_cons in Hn. by apply NoDup_app in Hn as []. }
  assert (HnB : NoDup (map ta B) ∧ ∀ p, p ∈ hd :: map ta A → p ∉ map ta B).
  { rewrite map_app, app_comm_cons in Hn. by apply NoDup_app in Hn as (? & ? & ?). }
  destruct HnB as [HnB HAB].
  set (m1 := zslCreateNode m a h s (Some o)).
  assert (M1 : ∀ p, p ≠ a → m1 !! p = m !! p) by (intros p Hp; by apply lookup_insert_ne).
  assert (Hroom : roomy m1 hd lev A).
  { eapply roomy_shape; [|by eapply inv_roomy]. intros p Hp. apply shape_eq, M1. set_solver. }
  assert (Hptr : ∀ i, ptrs m1 hd lev A B i).
  { intros i. eapply ptrs_frame; [|by apply inv_ptrs]. intros p Hp. apply lv_eq, M1. set_solver. }
  destruct (insert_loop_spec m1 hd lev A B a s o h us HnA ltac:(set_solver) Hroom ltac:(auto) ltac:(lia) Hus Hu0)
    as (m2 & -> & R2 & P2 & O2 & L2 & T2); [|done|].
  { unfold shape, m1, zslCreateNode. rewrite lookup_insert_eq. cbn. by rewrite length_replicate. }
  cbn [mbind option_bind].
  destruct (span_loop_spec m2 hd lev A B t us HnA R2 ltac:(intros i Hi; apply O2; [cbn in Hi; lia|auto]) ltac:(cbn; lia) Hus Hlen)
    as (m3 & E3 & R3 & P3 & O3 & T3). cbn [th t] in E3. rewrite E3. cbn [mbind option_bind].
  assert (Sa : shape m3 a = Some (Some o, s, None, h)).
  { rewrite (to_shape _ _ _ _ _ T3), (to_shape _ _ _ _ _ T2). unfold shape, m1, zslCreateNode. rewrite lookup_insert_eq.
    cbn. by rewrite length_replicate. }
  destruct (set_backward_spec m3 a (back A) _ Sa) as (m4 & -> & S4 & L4 & M4 & D4). cbn [mbind option_bind fst snd] in *.
  assert (HmB : ∀ p, p ∈ map ta B → m4 !! p = m !! p).
  { intros p Hp. assert (p ≠ a) by set_solver. rewrite M4 by done.
    assert (Hx : p ∉ hd :: map ta A) by (intros Hx; by apply (HAB p Hx)).
    rewrite (to_other _ _ _ _ _ T3), (to_other _ _ _ _ _ T2); [by apply M1|tauto|done]. }
  assert (HcB : chain m4 (back A) B).
  { eapply chain_frame; [exact HmB|]. by eapply inv_chain. }
  assert (D4' : dom m4 = {[a]} ∪ dom m).
  { rewrite D4, (to_dom _ _ _ _ _ T3), (to_dom _ _ _ _ _ T2). apply dom_insert_L. }
  assert (Hfin : ∃ m5, match ta <$> head B with Some y => set_backward m4 y (Some a) | None => Some m4 end = Some m5 ∧
    chain m5 (Some a) B ∧ (∀ p j, lv m5 p j = lv m4 p j) ∧ (∀ p, p ∉ map ta B → m5 !! p = m4 !! p) ∧ dom m5 = dom m4).
  { destruct B as [|b B]; cbn [head fmap option_fmap option_map]; [by exists m4|].
    destruct HcB as (Sb & HcB'). destruct (set_backward_spec m4 (ta b) (Some a) _ Sb) as (m5 & -> & S5 & L5 & M5 & D5).
    exists m5. split; [done|]. split; [|split; [done|split; [|done]]].
    - eapply (chain_head m4 m5 (back A)); [by split|done| |done|].
      + by intros t' Y' [= -> ->].
      + intros p Hp. apply M5. cbn in Hp. congruence.
    - intros p Hp. apply M5. cbn in Hp. set_solver. }
  destruct Hfin as (m5 & -> & Hc5 & L5 & M5 & D5). exists m5. split; [done|]. split; [|congruence].
  assert (HAa : ∀ p, p ∈ hd :: map ta A → p ≠ a ∧ p ∉ map ta B) by (intros p Hp; split; [set_solver|by apply HAB]).
  eapply (inv_join m m5 hd lev A B (t :: B) H).
  - intros p Hp. destruct (HAa p Hp) as [Hpa HpB].
    rewrite (shape_eq m4 m5), (shape_eq m3 m4), (to_shape _ _ _ _ _ T3), (to_shape _ _ _ _ _ T2) by auto.
    by apply shape_eq, M1.
  - intros i Hi. eapply ptrs_frame; [intros p Hp; rewrite L5, L4; reflexivity|].
    destruct (decide (i < h)%nat) as [Hih|Hih]; [apply O3; [done|by apply P2]|]. apply P3. cbn. lia.
  - intros i Hi. rewrite L5, L4, (to_top _ _ _ _ _ T3), (to_top _ _ _ _ _ T2) by lia. apply lv_eq, M1. set_solver.
  - cbn [chain ta to ts th t]. split; [|split; [|done]].
    + rewrite (shape_eq m4 m5); [done|]. apply M5. set_solver.
    + intros i Hi. rewrite L5, L4. rewrite (lv_eq m2 m3); [by apply L2|]. apply (to_other _ _ _ _ _ T3). set_solver.
  - rewrite map_app. cbn [map ta t]. rewrite map_app in Hn. rewrite app_comm_cons in *.
    apply NoDup_app in Hn as (N1 & N2 & N3). apply NoDup_app. split; [done|]. split; [|constructor; [set_solver|done]].
    intros p Hp. specialize (N2 p Hp). rewrite elem_of_cons. intros [->|Hx]; [set_solver|done].
  - constructor; [cbn; lia|]. pose proof (i_th _ _ _ _ H) as Hth. by apply Forall_app in Hth as [].
  - rewrite length_app in *. cbn [length]. lia.
Qed.

Lemma zslInsert_spec zsl L rs a s o h rs' :
  wf zsl L → mem zsl !! a = None → zslRandomLevel rs = Some (h, rs') → zlen L < 2 ^ 32 - 1 →
  Forall (λ t, kcmp (tkey t) (s, o) ≠ 0) L →
  ∃ zsl' A B, zslInsert zsl rs a s o = Some (zsl', rs') ∧ L = A ++ B ∧ wf zsl' (A ++ mk_tower a s o h :: B) ∧
    dom (mem zsl') = {[a]} ∪ dom (mem zsl).
Proof.
  intros [H Ht Hl Htop Hs] Ha Hrs Hlen Hnew. pose proof (zslRandomLevel_range _ _ _ Hrs) as Hh.
  destruct (sorted_splits (λ t, kcmp (tkey t) (s, o) <? 0) L Hs (before_down s o)) as (A & B & -> & HP & HA & HB).
  unfold zslInsert.
  destruct (search_spec (go_before s o) _ 32 zsl A B (before_spec s o) HP ltac:(lia) H) as (us & -> & Hul & Hus & Hu0 & _).
  cbn [mbind option_bind]. rewrite Hrs. cbn [mbind option_bind].
  assert (Hgrow : (level_ zsl + (h - level_ zsl) ≤ ZSKIPLIST_MAXLEVEL)%nat) by (pose proof (i_lev _ _ _ _ H); lia).
  destruct (grow_spec zsl (A ++ B) A B us eq_refl _ _ _ H Hus Hul Hl Hgrow) as (m1 & us1 & -> & H1 & Hus1 & Hu1 & D1 & _).
  cbn [mbind option_bind].
  assert (Hlev : (level_ zsl + (h - level_ zsl))%nat = if (level_ zsl <? h)%nat then h else level_ zsl).
  { destruct (Nat.ltb_spec (level_ zsl) h); lia. }
  rewrite Hlev in H1, Hus1. set (lev := if (level_ zsl <? h)%nat then h else level_ zsl) in *.
  assert (Hlh : (h ≤ lev)%nat) by lia. rewrite Hu0 in Hu1.
  destruct (link_spec m1 (header zsl) lev A B a s o h us1 H1 Hus1 Hu1) as (m' & E & H' & D'); [|lia|lia|].
  { rewrite D1. by apply not_elem_of_dom. }
  destruct (for_ (insert_step a us1) 0 h _) as [m2|]; [|done]. cbn [mbind option_bind] in *.
  destruct (for_ (span_step us1) h (lev - h) m2) as [m3|]; [|done]. cbn [mbind option_bind] in *.
  rewrite Hu1. cbn [mbind option_bind]. rewrite back_at.
  2: { pose proof (i_nodup _ _ _ _ H) as Hn. rewrite map_app in Hn. apply NoDup_cons in Hn as [Hn _]. set_solver. }
  destruct (set_backward m3 a (back A)) as [m4|]; [|done]. cbn [mbind option_bind] in *.
  set (t := mk_tower a s o h) in *.
  assert (Hl4 : lv m4 a 0 = Some (fwd 0 B)).
  { assert (Hx : ∀ m5 y b p j, set_backward m4 y b = Some m5 → lv m5 p j = lv m4 p j).
    { intros m5 y b p j. unfold set_backward, lv. destruct (m4 !! y) as [n|] eqn:En; [|done]. cbn [mbind option_bind].
      intros [= <-]. destruct (decide (p = y)) as [->|Hp]; [by rewrite lookup_insert_eq, En|by rewrite lookup_insert_ne]. }
    assert (Hm : lv m' a 0 = Some (fwd 0 B)).
    { assert (Hat : at_ (header zsl) (A ++ [t]) = a) by (unfold at_; by rewrite last_snoc). rewrite <- Hat at 1.
      apply (i_lv _ _ _ _ H'); [by rewrite <- app_assoc|]. unfold hgt. rewrite last_snoc. cbn. lia. }
    rewrite <- Hm. destruct (ta <$> head B) as [y|]; [symmetry; by apply (Hx m' y (Some a))|by injection E as ->]. }
  rewrite Hl4. cbn [mbind option_bind].
  assert (HthB : Forall (λ t, (1 ≤ th t ≤ level_ zsl)%nat) B).
  { pose proof (i_th _ _ _ _ H) as Hth. by apply Forall_app in Hth as []. }
  rewrite (fwd_0 B (level_ zsl) HthB). cbn [forward].
  assert (Hsort : StronglySorted tlt (A ++ t :: B)).
  { apply sorted_add; [done| |].
    - eapply Forall_impl; [exact HA|]. intros x Hx. by apply Z.ltb_lt in Hx.
    - apply Forall_app in Hnew as [_ Hnew]. rewrite Forall_forall in HB, Hnew. apply Forall_forall. intros x Hx.
      unfold tlt. apply cmp_antisym. specialize (HB x Hx). specialize (Hnew x Hx). apply Z.ltb_ge in HB.
      change (tkey t) with (s, o). lia. }
  assert (Htop' : lev = 1%nat ∨ Exists (λ t, th t = lev) (A ++ t :: B)).
  { subst lev. destruct (Nat.ltb_spec (level_ zsl) h) as [Hc|Hc].
    - right. apply Exists_app. right. by apply Exists_cons; left.
    - destruct Htop as [Htop|Htop]; [by left|right]. apply Exists_app in Htop. apply Exists_app. rewrite Exists_cons. tauto. }
  assert (Hlen' : u64 (length_ zsl + 1) = zlen (A ++ t :: B)).
  { rewrite Hl, !length_app. rewrite length_app in Hlen. cbn [length].
    replace (Z.of_nat (length A + length B) + 1) with (Z.of_nat (length A + S (length B))) by lia.
    apply wrapu_id. unfold in_u. lia. }
  destruct B as [|b B]; cbn [head fmap option_fmap option_map] in *.
  - injection E as ->. cbn [mbind option_bind]. eexists _, A, []. split; [done|]. split; [done|]. split; [|cbn [mem]; by rewrite D', D1].
    split; cbn [mem header level_ tail length_]; try done. by rewrite back_snoc.
  - rewrite E. cbn [mbind option_bind]. eexists _, A, (b :: B). split; [done|]. split; [done|]. split; [|cbn [mem]; by rewrite D', D1].
    split; cbn [mem header level_ tail length_]; try done. rewrite Ht, (back_app A (b :: B)), (back_app A (t :: b :: B)) by done. done.
Qed.

(** *** Deletion *)
Lemma lower_spec m hd L : ∀ lev, inv m hd lev L →
  ∃ lev', lower m hd lev = Some lev' ∧ (lev' ≤ lev)%nat ∧ inv m hd lev' L ∧ (lev' = 1%nat ∨ Exists (λ t, th t = lev') L).
Proof.
  induction lev as [|lev IH]; intros H; [pose proof (i_lev _ _ _ _ H); lia|]. cbn [lower].
  destruct lev as [|lev]; [exists 1%nat; by split_and!; [..|left]|].
  pose proof (i_lv _ _ _ _ H [] L (S lev) eq_refl) as Hlv. unfold at_, hgt in Hlv. cbn [last] in Hlv.
  specialize (Hlv ltac:(lia)). rewrite Hlv. cbn [mbind option_bind].
  destruct (low_split (S lev) L) as [Hlow|(K & t & L' & -> & HK & Hth)].
  - rewrite fwd_none by done. cbn [forward]. rewrite bool_decide_true by done.
    destruct IH as (lev' & E' & Hle & H' & Hx).
    + destruct H as [G1 G2 G3 G4 G5 G6 G7 G8]. split; try done.
      * intros A B i E Hi. apply (G4 A B i E). unfold hgt in *. destruct (last A); lia.
      * intros i Hi. destruct (decide (i = S lev)) as [->|Hne]; [|apply G5; lia].
        rewrite Hlv, fwd_none by done. by eexists.
      * lia.
      * apply Forall_forall. intros x Hx. rewrite Forall_forall in G7. unfold low in Hlow. rewrite Forall_forall in Hlow.
        specialize (G7 x Hx). specialize (Hlow x Hx). cbn in *. lia.
    + exists lev'. split_and!; [done|lia|done|done].
  - rewrite fwd_hit by done. cbn [forward]. rewrite bool_decide_false by done. eexists. split; [done|].
    split; [lia|]. split; [done|]. right. apply Exists_app. right. apply Exists_cons. left.
    pose proof (i_th _ _ _ _ H) as Hall. rewrite Forall_app, Forall_cons in Hall. lia.
Qed.

Lemma delete_loop_spec m hd lev A t B us :
  inv m hd lev (A ++ t :: B) → updates hd lev A us →
  ∃ m', for_ (delete_step (ta t) us) 0 lev m = Some m' ∧ (∀ i, (i < lev)%nat → ptrs m' hd lev A B i) ∧
    touched m m' hd lev (λ p, p ∈ hd :: map ta A).
Proof.
  intros H Hus. pose proof (i_nodup _ _ _ _ H) as Hn. pose proof (i_len _ _ _ _ H) as Hlen.
  assert (HnA : NoDup (hd :: map ta A) ∧ (ta t ∉ hd :: map ta A) ∧ ta t ∉ map ta B).
  { rewrite map_app, app_comm_cons in Hn. apply NoDup_app in Hn as (N1 & N2 & N3). cbn [map] in *.
    apply NoDup_cons in N3 as [N3 _]. split; [done|]. split; [|done]. intros Hx. apply (N2 _ Hx). set_solver. }
  destruct HnA as (HnA & HtA & HtB). pose proof (inv_chain m hd lev (t :: B) A H) as (_ & Hlt & _).
  destruct (relink_loop (delete_step (ta t) us) hd lev A (t :: B) B (λ i m', touched m m' hd lev (λ p, p ∈ hd :: map ta A))
    lev 0 m) as (m' & E & _ & P' & _ & T').
  - intros i m1 Hi Hr1 Hp1 T1. destruct (Hus i) as (C & K & EA & HS & Hu); [lia|].
    unfold delete_step. rewrite Hu. cbn [mbind option_bind]. rewrite (Hp1 C K EA) by apply HS. cbn [mbind option_bind].
    assert (HlA : zlen A = zlen C + zlen K) by (rewrite EA, length_app; lia). rewrite length_app in Hlen. cbn [length] in Hlen.
    pose proof (fwd_span i B) as Hsp.
    assert (Hset : ∃ l', (if bool_decide (forward (fwd i (K ++ t :: B)) = Some (ta t)) then
        lx ← lv m1 (ta t) i; set_level m1 (at_ hd C) i (mk_level (forward lx) (u32 (span (fwd i (K ++ t :: B)) + u32 (span lx - 1))))
      else set_level m1 (at_ hd C) i (mk_level (forward (fwd i (K ++ t :: B))) (u32 (span (fwd i (K ++ t :: B)) - 1)))) =
      set_level m1 (at_ hd C) i l' ∧ l' = fwd i (K ++ B)).
    { destruct (decide (i < th t)%nat) as [Hit|Hit].
      - rewrite fwd_hit by (done || apply HS). cbn [forward span]. rewrite bool_decide_true by done.
        rewrite (lv_eq m m1) by by apply (to_other _ _ _ _ _ T1). rewrite Hlt by done. cbn [mbind option_bind].
        eexists. split; [done|]. rewrite (fwd_low i K B) by apply HS. f_equal. unfold u32, wrapu.
        rewrite Zplus_mod_idemp_r. rewrite Z.mod_small; lia.
      - rewrite !(fwd_low i K) by apply HS. cbn [fwd]. rewrite (proj2 (Nat.ltb_ge _ _)) by lia. cbn [forward span].
        rewrite bool_decide_false.
        2: { intros Hf. destruct (low_split i B) as [HB|(K' & y & B' & -> & HK' & Hy)].
             - by rewrite fwd_none in Hf.
             - rewrite fwd_hit in Hf by done. injection Hf as Hf. apply HtB. rewrite <- Hf, map_app. set_solver. }
        eexists. split; [done|]. f_equal. unfold u32, wrapu. rewrite Z.mod_small; lia. }
    destruct Hset as (l' & -> & ->).
    destruct (relink_slot m1 hd lev A (t :: B) B i C K (fwd i (K ++ B)) HnA) as (m2 & -> & P2 & O2 & L2 & R2); [done..|].
    exists m2. split; [done|]. split; [done|].
    split; [eapply roomy_shape; [|exact Hr1]; intros p _; apply R2|]. split; [done|].
    eapply touched_trans; [exact T1|]. eapply touched_relinked; [exact R2|done|exact L2|lia].
  - by eapply inv_roomy.
  - intros i Hi. by apply inv_ptrs.
  - apply touched_refl.
  - exists m'. split; [done|]. split; [|done]. intros i Hi. apply P'. lia.
Qed.

Lemma inv_frame m m' hd lev L : (∀ p, p ∈ hd :: map ta L → m' !! p = m !! p) → inv m hd lev L → inv m' hd lev L.
Proof.
  intros Hm [G1 G2 G3 G4 G5 G6 G7 G8]. assert (Hhd : m' !! hd = m !! hd) by (apply Hm; set_solver). split; try done.
  - by rewrite (shape_eq m m').
  - intros A t B E. rewrite (shape_eq m m'); [by apply (G3 A t B)|]. apply Hm. subst L. rewrite map_app. set_solver.
  - intros A B i E Hi. rewrite (lv_eq m m'); [by apply G4|]. apply Hm. subst L. pose proof (at_in hd A).
    rewrite map_app. set_solver.
  - intros i Hi. rewrite (lv_eq m m') by done. by apply G5.
Qed.

Lemma updates_mono hd lev lev' A us : (lev' ≤ lev)%nat → (1 ≤ lev')%nat → Forall (λ t, (th t ≤ lev')%nat) A →
  updates hd lev A us → updates hd lev' A us.
Proof.
  intros Hle H1 HA Hus i Hi. destruct (Hus i) as (C & K & -> & [HK HC] & Hu); [lia|]. exists C, K. split; [done|].
  split; [|done]. split; [done|]. unfold hgt in *. destruct (last C) eqn:E; [done|lia].
Qed.

Lemma delete_node_spec zsl A t B us : wf zsl (A ++ t :: B) → updates (header zsl) (level_ zsl) A us →
  ∃ zsl', zslDeleteNode zsl (ta t) us = Some zsl' ∧ wf (zslFreeNode zsl' (ta t)) (A ++ B) ∧
    updates (header zsl') (level_ zsl') A us ∧ header zsl' = header zsl ∧ dom (mem zsl') = dom (mem zsl) ∧
    (∀ p, p ∈ map ta B → lv (mem zsl') p 0 = lv (mem zsl) p 0).
Proof.
  intros [H Ht Hl Htop Hs] Hus. unfold zslDeleteNode. set (hd := header zsl) in *. set (lev := level_ zsl) in *.
  destruct (delete_loop_spec (mem zsl) hd lev A t B us H Hus) as (m1 & -> & P1 & T1). cbn [mbind option_bind].
  pose proof (i_nodup _ _ _ _ H) as Hn. pose proof (i_th _ _ _ _ H) as Hth. pose proof (inv_chain _ _ _ (t :: B) A H) as Hc.
  assert (HnA : (ta t ∉ hd :: map ta A) ∧ (ta t ∉ map ta B) ∧ NoDup (map ta B) ∧
    (∀ p, p ∈ hd :: map ta A → p ∉ map ta B) ∧ NoDup (hd :: map ta (A ++ B))).
  { rewrite map_app, app_comm_cons in *. apply NoDup_app in Hn as (N1 & N2 & N3). cbn [map] in *.
    apply NoDup_cons in N3 as [N3 N4]. split; [intros Hx; apply (N2 _ Hx); set_solver|]. split; [done|]. split; [done|].
    assert (Hx : ∀ p, p ∈ hd :: map ta A → p ∉ map ta B) by (intros p Hp Hx; apply (N2 _ Hp); set_solver).
    split; [done|]. by apply NoDup_app. }
  destruct HnA as (HtA & HtB & HnB & HAB & HnAB).
  assert (Hm1 : ∀ p, p ∉ hd :: map ta A → m1 !! p = mem zsl !! p) by apply T1.
  destruct Hc as (Hsh & Hlt & Hc). assert (HthB := Hth). rewrite Forall_app, Forall_cons in HthB. destruct HthB as (HthA & Htt & HthB).
  rewrite (lv_eq (mem zsl) m1), Hlt by (auto || lia). cbn [mbind option_bind]. rewrite (fwd_0 B lev HthB). cbn [forward].
  pose proof Hsh as Hx. apply shape_node in Hx as (nx & Hnx & _ & _ & Hb & _). rewrite Hm1, Hnx by done.
  cbn [mbind option_bind]. rewrite Hb. cbn [mbind option_bind].
  assert (HcB : chain m1 (Some (ta t)) B).
  { eapply chain_frame; [|exact Hc]. intros p Hp. apply Hm1. intros Hx. by apply (HAB p Hx). }
  assert (Hback : ∃ m2 tl, (match ta <$> head B with Some y => m ← set_backward m1 y (back A); Some (m, tail zsl)
      | None => Some (m1, back A) end) = Some (m2, tl) ∧ tl = back (A ++ B) ∧
    chain m2 (back A) B ∧ (∀ p j, lv m2 p j = lv m1 p j) ∧ (∀ p, p ∉ map ta B → m2 !! p = m1 !! p) ∧ dom m2 = dom m1).
  { destruct B as [|b B]; cbn [head fmap option_fmap option_map]; [exists m1, (back A); by rewrite app_nil_r|].
    destruct HcB as (Sb & HcB'). destruct (set_backward_spec m1 (ta b) (back A) _ Sb) as (m2 & -> & S2 & L2 & M2 & D2).
    cbn [mbind option_bind]. exists m2, (tail zsl). split; [done|]. split.
    { rewrite Ht, (back_app A (t :: b :: B)), (back_app A (b :: B)) by done. done. }
    split; [|split; [done|split; [|done]]].
    - eapply (chain_head m1 m2 (Some (ta t))); [by split|done| |done|].
      + by intros t' Y' [= -> ->].
      + intros p Hp. apply M2. cbn in Hp. congruence.
    - intros p Hp. apply M2. cbn in Hp. set_solver. }
  destruct Hback as (m2 & tl & -> & Htl & Hc2 & L2 & M2 & D2). cbn [mbind option_bind].
  assert (H2 : inv m2 hd lev (A ++ B)).
  { eapply (inv_join (mem zsl) m2 hd lev A (t :: B) B H); try done.
    - intros p Hp. rewrite (shape_eq m1 m2) by (apply M2; by apply HAB). apply T1.
    - intros i Hi. eapply ptrs_frame; [intros p Hp; apply L2|]. by apply P1.
    - intros i Hi. rewrite L2. by apply T1.
    - pose proof (i_len _ _ _ _ H) as Hlen. rewrite length_app in *. cbn [length] in Hlen. lia. }
  destruct (lower_spec m2 hd (A ++ B) lev H2) as (lev' & -> & Hle & H2' & Htop'). cbn [mbind option_bind].
  eexists. split; [done|]. split; [split; cbn [mem header tail length_ level_ zslFreeNode]; try done|].
  - eapply inv_frame; [|exact H2']. intros p Hp. apply lookup_delete_ne. intros <-. rewrite map_app in Hp. set_solver.
  - rewrite Hl, !length_app. cbn [length]. pose proof (i_len _ _ _ _ H) as Hlen. rewrite length_app in Hlen. cbn [length] in Hlen.
    replace (Z.of_nat (length A + S (length B)) - 1) with (Z.of_nat (length A + length B)) by lia. apply wrapu_id. unfold in_u. lia.
  - by eapply sorted_delete.
  - cbn [mem header level_]. split.
    { eapply updates_mono; [exact Hle|apply H2'| |done]. pose proof (i_th _ _ _ _ H2') as Hx. apply Forall_app in Hx as [Hx _].
      eapply Forall_impl; [exact Hx|]. cbn. lia. }
    split; [done|]. split; [rewrite D2; apply T1|]. intros p Hp. rewrite L2. apply lv_eq, Hm1. intros Hx. by apply (HAB p Hx).
Qed.

Lemma zslDelete_spec zsl L s o : wf zsl L →
  ∃ zsl' r, zslDelete zsl s o = Some (zsl', r) ∧
    ((∃ A t B, L = A ++ t :: B ∧ kcmp (tkey t) (s, o) = 0 ∧ r = 1 ∧ wf zsl' (A ++ B) ∧
        dom (mem zsl') = dom (mem zsl) ∖ {[ta t]}) ∨
     (Forall (λ t, kcmp (tkey t) (s, o) ≠ 0) L ∧ r = 0 ∧ zsl' = zsl)).
Proof.
  intros Hwf. pose proof Hwf as [H Ht Hl Htop Hs]. unfold zslDelete.
  destruct (sorted_splits (λ t, kcmp (tkey t) (s, o) <? 0) L Hs (before_down s o)) as (A & B & -> & HP & HA & HB).
  destruct (search_spec (go_before s o) _ 64 zsl A B (before_spec s o) HP ltac:(lia) H) as (us & -> & Hul & Hus & Hu0 & Hlv).
  cbn [mbind option_bind]. rewrite Hu0. cbn [mbind option_bind]. rewrite Hlv. cbn [mbind option_bind].
  pose proof (i_th _ _ _ _ H) as Hth. apply Forall_app in Hth as [_ HthB]. rewrite (fwd_0 B _ HthB). cbn [forward].
  assert (HAne : Forall (λ t, kcmp (tkey t) (s, o) ≠ 0) A).
  { eapply Forall_impl; [exact HA|]. intros x Hx. apply Z.ltb_lt in Hx. lia. }
  destruct B as [|t B]; cbn [head fmap option_fmap option_map].
  { exists zsl, 0. split; [done|]. right. by rewrite app_nil_r. }
  pose proof (i_shape _ _ _ _ H A t B eq_refl) as Hsh. apply shape_node in Hsh as (n & -> & Ho & Hsc & _).
  cbn [mbind option_bind]. rewrite Ho, Hsc. cbn [mbind option_bind].
  assert (Hb : (if seq_ s (ts t) then Some (equalStringObjects (to t) o) else Some false) =
    Some (kcmp (tkey t) (s, o) =? 0)).
  { unfold seq_, kcmp. cbn. destruct (Z.eqb_spec (scmp s (ts t)) 0) as [E|E].
    - rewrite (cmp_zero_sym scmp _ _ E). cbn. f_equal. destruct (equalStringObjects (to t) o) eqn:Eq.
      + apply equal_spec in Eq. by rewrite Eq.
      + symmetry. apply Z.eqb_neq. intros Eq'. apply equal_spec in Eq'. congruence.
    - destruct (Z.eqb_spec (scmp (ts t) s) 0) as [E'|E']; [by apply (cmp_zero_sym scmp) in E'|].
      f_equal. symmetry. by apply Z.eqb_neq. }
  rewrite Hb. cbn [mbind option_bind]. destruct (Z.eqb_spec (kcmp (tkey t) (s, o)) 0) as [E|E].
  - destruct (delete_node_spec zsl A t B us Hwf Hus) as (zsl' & -> & Hwf' & _ & _ & D' & _). cbn [mbind option_bind].
    eexists _, 1. split; [done|]. left. exists A, t, B. split_and!; try done. cbn [mem zslFreeNode]. by rewrite dom_delete_L, D'.
  - exists zsl, 0. split; [done|]. right. split; [|done]. apply Forall_app. split; [done|]. constructor; [done|].
    apply sorted_app_r in Hs. apply StronglySorted_inv in Hs as [_ Hs].
    apply Forall_cons in HB as [HB _]. apply Z.ltb_ge in HB. eapply Forall_impl; [exact Hs|]. intros x Hx Hz.
    pose proof (cmp_lt_le kcmp _ _ (s, o) Hx). lia.
Qed.

(** *** Creation *)
Lemma create_loop_spec a n : ∀ k m sh, shape m a = Some sh → (k + n ≤ sh.2)%nat →
  ∃ m', for_ (λ j m, set_level m a j (mk_level None 0)) k n m = Some m' ∧ shape m' a = Some sh ∧
    (∀ i, (k ≤ i < k + n)%nat → lv m' a i = Some (mk_level None 0)) ∧ (∀ i, (i < k)%nat → lv m' a i = lv m a i).
Proof.
  induction n as [|n IH]; intros k m sh Hsh Hk; cbn [for_]; [exists m; by split_and!; [..|lia|]|].
  destruct (set_level_spec m a k (mk_level None 0) sh Hsh) as (m1 & -> & M1 & M2 & M3 & _); [lia|]. cbn [mbind option_bind].
  destruct (IH (S k) m1 sh) as (m' & E & S' & L1 & L2); [by rewrite M1|lia|]. exists m'. split; [done|]. split; [done|]. split.
  - intros i Hi. destruct (decide (i = k)) as [->|Hne]; [rewrite L2 by lia; done|]. apply L1. lia.
  - intros i Hi. rewrite L2 by lia. apply M3. right. lia.
Qed.

Lemma create_spec m a : ∃ zsl, zslCreate m a = Some zsl ∧ wf zsl [].
Proof.
  unfold zslCreate. set (m0 := zslCreateNode m a ZSKIPLIST_MAXLEVEL zero None).
  destruct (create_loop_spec a ZSKIPLIST_MAXLEVEL 0 m0 (None, zero, None, ZSKIPLIST_MAXLEVEL)) as (m1 & -> & S1 & L1 & _).
  { unfold shape, m0, zslCreateNode. rewrite lookup_insert_eq. cbn. done. } { done. }
  cbn [mbind option_bind]. destruct (set_backward_spec m1 a None _ S1) as (m2 & -> & S2 & L2 & M2 & D2).
  cbn [mbind option_bind]. eexists. split; [done|].
  split; cbn [mem header tail length_ level_]; try done; [|by left|constructor].
  split; try done.
  - cbn. constructor; [set_solver|constructor].
  - by intros [] ? ? ?.
  - intros A B i E Hi. symmetry in E. apply app_eq_nil in E as [-> ->]. unfold at_, hgt in *. cbn in *.
    rewrite L2, L1; [done|]. unfold ZSKIPLIST_MAXLEVEL. lia.
  - intros i Hi. exists 0. rewrite L2, L1; [done|]. lia.
  - unfold ZSKIPLIST_MAXLEVEL. lia.
Qed.

(** *** Ranks *)
Lemma rank_loop_spec zsl A B s o : wf zsl (A ++ B) →
  splits (λ _ t, kcmp (tkey t) (s, o) <=? 0) A B → Forall (λ t, (kcmp (tkey t) (s, o) <=? 0) = false) B →
  Forall (λ t, equalStringObjects (to t) o = true → kcmp (tkey t) (s, o) = 0) (A ++ B) →
  ∀ n A1 A2, A = A1 ++ A2 → (1 ≤ n ≤ hgt (level_ zsl) A1)%nat →
  ∃ r, rank_loop s o (mem zsl) n (at_ (header zsl) A1) (zlen A1) = Some r ∧
    ((∃ C t K, A ++ B = C ++ t :: K ∧ kcmp (tkey t) (s, o) = 0 ∧ r = zlen C + 1) ∨
     (Forall (λ t, kcmp (tkey t) (s, o) ≠ 0) (A ++ B) ∧ r = 0)).
Proof.
  intros Hwf HP HB Huniq. pose proof (wf_inv _ _ Hwf) as H. induction n as [|n IH]; intros A1 A2 E Hn; [lia|]. cbn [rank_loop].
  destruct (walk_spec (go_upto s o) _ 64 _ _ _ A B n (upto_spec s o) HP ltac:(lia) H (S (size (mem zsl))) A1 A2 E)
    as (C & K & E' & HS & ->); [lia| |].
  { pose proof (inv_size _ _ _ _ H). subst A. rewrite !length_app in *. lia. }
  cbn [mbind option_bind].
  assert (Hnode : ∃ nx, mem zsl !! at_ (header zsl) C = Some nx ∧ obj nx = to <$> last C).
  { destruct C as [|t C _] using rev_ind.
    - pose proof (i_hd _ _ _ _ H) as Hx. apply shape_node in Hx as (nx & Hx & Ho & _). by exists nx.
    - unfold at_. rewrite last_snoc.
      pose proof (i_shape _ _ _ _ H C t (K ++ B) ltac:(by rewrite E', <- !app_assoc)) as Hx. apply shape_node in Hx as (nx & Hx & Ho & _). by exists nx. }
  destruct Hnode as (nx & -> & Ho). cbn [mbind option_bind]. rewrite Ho.
  destruct (match to <$> last C with Some o' => equalStringObjects o' o | None => false end) eqn:Eq.
  - destruct C as [|t C _] using rev_ind; [done|]. rewrite last_snoc in Eq. cbn in Eq.
    eexists. split; [done|]. left. exists C, t, (K ++ B).
    split; [by rewrite E', <- !app_assoc|]. split; [|rewrite length_app; cbn; lia].
    rewrite Forall_forall in Huniq. apply Huniq; [|done]. rewrite E'. set_solver.
  - destruct n as [|n].
    + cbn [rank_loop]. exists 0. split; [done|]. right. split; [|done].
      assert (K = []) as ->.
      { destruct K as [|t K]; [done|]. destruct HS as [HK _]. unfold low in HK. apply Forall_cons in HK as [HK _].
        pose proof (i_th _ _ _ _ H) as Hth. rewrite E', !Forall_app, Forall_cons in Hth. lia. }
      rewrite app_nil_r in E'. subst C. clear E HS IH A1 A2 Hn. apply Forall_app. split.
      * pose proof (wf_sorted _ _ Hwf) as Hs. destruct A as [|t A _] using rev_ind; [done|]. rewrite last_snoc in Eq. cbn in Eq.
        assert (Htn : kcmp (tkey t) (s, o) ≠ 0).
        { intros Hz. rewrite <- not_true_iff_false in Eq. apply Eq, equal_spec. unfold kcmp in Hz. cbn in Hz.
          by destruct (Z.eqb_spec (scmp (ts t) s) 0). }
        apply Forall_app. split; [|by constructor]. destruct HP as [HP _]. specialize (HP A t [] eq_refl). apply Z.leb_le in HP.
        rewrite <- app_assoc in Hs. cbn [app] in Hs. apply Forall_forall. intros x Hx Hz.
        assert (Hxt : tlt x t).
        { apply list_elem_of_split in Hx as (X & Y & ->). rewrite <- app_assoc in Hs. apply sorted_app_r in Hs.
          apply StronglySorted_inv in Hs as [_ Hs]. rewrite Forall_app, Forall_cons in Hs. tauto. }
        apply (cmp_zero_sym kcmp) in Hz. pose proof (cmp_le_lt kcmp (s, o) (tkey x) (tkey t)).
        unfold tlt in Hxt. pose proof (cmp_antisym (s, o) (tkey t)). lia.
      * eapply Forall_impl; [exact HB|]. intros x Hx. apply Z.leb_gt in Hx. lia.
    + apply (IH C K E'). destruct HS. lia.
Qed.

Lemma element_loop_spec zsl L rank : wf zsl L → 0 ≤ rank → ∀ n A1 A2,
  take (Z.to_nat rank) L = A1 ++ A2 → (1 ≤ n ≤ hgt (level_ zsl) A1)%nat →
  element_loop rank (mem zsl) n (at_ (header zsl) A1) (zlen A1) =
    Some (if rank <=? zlen L then Some (at_ (header zsl) (take (Z.to_nat rank) L)) else None).
Proof.
  intros Hwf Hr. pose proof (wf_inv _ _ Hwf) as H. set (A := take (Z.to_nat rank) L). set (B := drop (Z.to_nat rank) L).
  assert (HL : L = A ++ B) by by (symmetry; apply take_drop).
  assert (HlA : zlen A = Z.min rank (zlen L)) by (unfold A; rewrite length_take; lia).
  assert (Hgo : decides (go_rank_le rank) (λ pos _, pos <=? rank)).
  { intros r l n t _ _ H1 H2 H3. unfold go_rank_le. do 2 f_equal. apply wrapu_id. unfold in_u. lia. }
  assert (HP : splits (λ pos _, pos <=? rank) A B).
  { split; intros X t Y EX.
    - apply Z.leb_le. rewrite EX, length_app in HlA. cbn [length] in HlA. lia.
    - apply Z.leb_gt. assert (HlB : zlen B = zlen L - zlen A) by (unfold B; rewrite length_drop; lia).
      rewrite EX, length_app in HlB. cbn [length] in HlB. lia. }
  rewrite HL in H. induction n as [|n IH]; intros A1 A2 E Hn; [lia|]. cbn [element_loop].
  destruct (walk_spec (go_rank_le rank) _ 64 _ _ _ A B n Hgo HP ltac:(lia) H (S (size (mem zsl))) A1 A2 E)
    as (C & K & E' & HS & ->); [lia| |].
  { pose proof (inv_size _ _ _ _ H). rewrite E, !length_app in *. lia. }
  cbn [mbind option_bind]. destruct (Z.eqb_spec (zlen C) rank) as [Er|Er].
  - assert (K = []) as -> by (destruct K; [done|]; rewrite E', length_app in HlA; cbn in HlA; lia).
    rewrite app_nil_r in E'. rewrite <- E'. rewrite (proj2 (Z.leb_le _ _)); [done|]. rewrite <- E' in Er. lia.
  - destruct n as [|n].
    + assert (K = []) as ->.
      { destruct K as [|t K]; [done|]. destruct HS as [HK _]. unfold low in HK. apply Forall_cons in HK as [HK _].
        pose proof (i_th _ _ _ _ H) as Hth. rewrite E', !Forall_app, Forall_cons in Hth. lia. }
      rewrite app_nil_r in E'. subst C. cbn [element_loop]. rewrite (proj2 (Z.leb_gt _ _)); [done|]. lia.
    + apply (IH C K E'). destruct HS. lia.
Qed.

(** *** Ranges of scores *)
Definition gte (r : zrangespec) (t : tower) : bool := zslValueGteMin (ts t) r.
Definition lte (r : zrangespec) (t : tower) : bool := zslValueLteMax (ts t) r.
Definition in_range (r : zrangespec) (t : tower) : Prop := gte r t && lte r t = true.
#[global] Instance in_range_dec r t : Decision (in_range r t).
Proof. unfold in_range. apply _. Defined.

Lemma tlt_score t t' : tlt t t' → scmp (ts t) (ts t') ≤ 0.
Proof. unfold tlt, kcmp. cbn. destruct (Z.eqb_spec (scmp (ts t) (ts t')) 0); lia. Qed.

Lemma gte_up r t t' : tlt t t' → gte r t = true → gte r t' = true.
Proof.
  intros H%tlt_score. unfold gte, zslValueGteMin, slt, sle. destruct (minex r); rewrite ?Z.ltb_lt, ?Z.leb_le; intros.
  - by eapply (cmp_lt_le scmp).
  - by eapply (cmp_le_le scmp).
Qed.
Lemma lte_down r t t' : tlt t t' → lte r t' = true → lte r t = true.
Proof.
  intros H%tlt_score. unfold lte, zslValueLteMax, slt, sle. destruct (maxex r); rewrite ?Z.ltb_lt, ?Z.leb_le; intros.
  - by eapply (cmp_le_lt scmp).
  - by eapply (cmp_le_le scmp).
Qed.
Lemma ngte_down r t t' : tlt t t' → negb (gte r t') = true → negb (gte r t) = true.
Proof. intros H. destruct (gte r t) eqn:E; [|done]. by rewrite (gte_up r t t' H E). Qed.

Lemma empty_range r t :
  slt (max r) (min r) || (seq_ (min r) (max r) && (minex r || maxex r)) = true → ¬ in_range r t.
Proof.
  unfold in_range, gte, lte, zslValueGteMin, zslValueLteMax, slt, sle, seq_.
  intros H Hr. apply andb_true_iff in Hr as [H1 H2].
  assert (Hmm : scmp (min r) (max r) ≤ 0 ∧ (minex r || maxex r = true → scmp (min r) (max r) < 0)).
  { destruct (minex r), (maxex r); rewrite ?Z.ltb_lt, ?Z.leb_le in *; cbn.
    - pose proof (cmp_trans _ _ _ H1 H2). lia.
    - pose proof (cmp_lt_le scmp _ _ _ H1 H2). lia.
    - pose proof (cmp_le_lt scmp _ _ _ H1 H2). lia.
    - pose proof (cmp_le_le scmp _ _ _ H1 H2). done. }
  pose proof (cmp_antisym (max r) (min r)). apply orb_true_iff in H as [H|H].
  - apply Z.ltb_lt in H. lia.
  - apply andb_true_iff in H as [H H']. apply Z.eqb_eq in H. apply Hmm in H'. lia.
Qed.

Lemma filter_none r L : Forall (λ t, gte r t && lte r t = false) L → filter (in_range r) L = [].
Proof.
  intros H. apply filter_drops. eapply Forall_impl; [exact H|]. intros t Ht. unfold in_range. cbn in Ht. by rewrite Ht.
Qed.

(** The first and the last node, with their scores. *)
Lemma head_node zsl L : wf zsl L → ∃ l, lv (mem zsl) (header zsl) 0 = Some l ∧ forward l = ta <$> head L ∧
  ∀ t, head L = Some t → ∃ n, mem zsl !! ta t = Some n ∧ score n = ts t.
Proof.
  intros [H _ _ _ _]. exists (fwd 0 L). pose proof (i_lev _ _ _ _ H).
  split; [apply (i_lv _ _ _ _ H [] L); [done|]; unfold hgt; cbn; lia|].
  split; [by rewrite (fwd_0 L _ (i_th _ _ _ _ H))|]. intros t Ht. destruct L as [|t' L]; [done|]. injection Ht as ->.
  pose proof (i_shape _ _ _ _ H [] t L eq_refl) as Hx. apply shape_node in Hx as (n & Hx & _ & Hs & _). by exists n.
Qed.
Lemma at_node zsl L A B t : wf zsl L → L = A ++ t :: B → ∃ n, mem zsl !! ta t = Some n ∧ score n = ts t ∧ obj n = Some (to t).
Proof.
  intros [H _ _ _ _] E. pose proof (i_shape _ _ _ _ H A t B E) as Hx. apply shape_node in Hx as (n & Hx & Ho & Hs & _). by exists n.
Qed.

Lemma is_in_range_spec zsl L r : wf zsl L →
  ∃ b, zslIsInRange zsl r = Some b ∧
    if b then ∃ t t', head L = Some t ∧ last L = Some t' ∧ lte r t = true ∧ gte r t' = true
    else filter (in_range r) L = [].
Proof.
  intros Hwf. unfold zslIsInRange. destruct (_ || _) eqn:Ee.
  { exists false. split; [done|]. apply filter_none, Forall_forall. intros t _.
    pose proof (empty_range r t Ee) as Hx. unfold in_range in Hx. by destruct (gte r t && lte r t). }
  rewrite (wf_tail _ _ Hwf). pose proof (wf_sorted _ _ Hwf) as Hs. destruct L as [|x L _] using rev_ind; [by exists false|].
  rewrite back_snoc. destruct (at_node zsl _ L [] x Hwf eq_refl) as (n & -> & Hn & _). cbn [mbind option_bind]. rewrite Hn.
  fold (gte r x). destruct (gte r x) eqn:Eg; cbn [negb].
  2: { exists false. split; [done|]. apply filter_none, Forall_app. split; [|by constructor; [rewrite Eg|]].
       apply Forall_forall. intros y Hy. apply list_elem_of_split in Hy as (X & Y & ->). rewrite <- app_assoc in Hs.
       apply sorted_app_r in Hs. cbn [app] in Hs. apply StronglySorted_inv in Hs as [_ Hs].
       rewrite Forall_app, Forall_singleton in Hs. destruct (gte r y) eqn:Ey; [|done].
       rewrite (gte_up r y x) in Eg; [done|apply Hs|done]. }
  destruct (head_node zsl _ Hwf) as (l & -> & Hf & Hh). cbn [mbind option_bind]. rewrite Hf.
  destruct (L ++ [x]) as [|y L'] eqn:EL; [by destruct L|]. cbn [head fmap option_fmap option_map].
  destruct (Hh y eq_refl) as (n' & -> & Hn'). cbn [mbind option_bind]. rewrite Hn'. fold (lte r y).
  exists (lte r y). split; [done|]. destruct (lte r y) eqn:El.
  - exists y, x. split_and!; try done. rewrite <- EL. apply last_snoc.
  - apply filter_none. constructor; [by rewrite El, andb_false_r|]. apply StronglySorted_inv in Hs as [_ Hs].
    eapply Forall_impl; [exact Hs|]. intros z Hz. cbn. destruct (lte r z) eqn:Ez; [|apply andb_false_r].
    by rewrite (lte_down r y z Hz Ez) in El.
Qed.

Lemma ngte_spec r : decides (λ _ _ n, Some (negb (zslValueGteMin (score n) r))) (λ _ t, negb (gte r t)).
Proof. intros ? ? n t _ Hs _ _ _. by rewrite Hs. Qed.
Lemma lte_spec r : decides (λ _ _ n, Some (zslValueLteMax (score n) r)) (λ _ t, lte r t).
Proof. intros ? ? n t _ Hs _ _ _. by rewrite Hs. Qed.

Lemma first_in_range_spec zsl L r : wf zsl L → zslFirstInRange zsl r = Some (ta <$> head (filter (in_range r) L)).
Proof.
  intros Hwf. unfold zslFirstInRange. destruct (is_in_range_spec zsl L r Hwf) as (b & -> & Hb). cbn [mbind option_bind].
  destruct b; cbn [negb]; [|by rewrite Hb]. destruct Hb as (_ & t' & _ & Hlast & _ & Hg).
  destruct (sorted_splits (λ t, negb (gte r t)) L (wf_sorted _ _ Hwf) (ngte_down r)) as (A & B & -> & HP & HA & HB).
  destruct (search_spec _ _ 64 zsl A B (ngte_spec r) HP ltac:(lia) (wf_inv _ _ Hwf)) as (us & -> & _ & _ & Hu0 & Hlv).
  cbn [mbind option_bind]. rewrite Hu0. cbn [mbind option_bind]. rewrite Hlv. cbn [mbind option_bind].
  pose proof (i_th _ _ _ _ (wf_inv _ _ Hwf)) as Hth. apply Forall_app in Hth as [_ Hth]. rewrite (fwd_0 B _ Hth). cbn [forward].
  assert (HfA : filter (in_range r) A = []).
  { apply filter_none. eapply Forall_impl; [exact HA|]. intros x Hx%negb_true_iff. cbn. by rewrite Hx. }
  destruct B as [|y B].
  { rewrite app_nil_r in *. apply last_Some in Hlast as [A' ->]. rewrite Forall_app, Forall_singleton, Hg in HA. by destruct HA. }
  cbn [head fmap option_fmap option_map mbind option_bind].
  destruct (at_node zsl _ A B y Hwf eq_refl) as (n & -> & Hn & _). cbn [mbind option_bind]. rewrite Hn. fold (lte r y).
  rewrite filter_app, HfA. cbn [app]. apply Forall_cons in HB as [Hy HB]. apply negb_false_iff in Hy.
  destruct (lte r y) eqn:El; cbn [negb].
  - rewrite filter_cons_True; [done|]. unfold in_range. by rewrite Hy, El.
  - rewrite filter_none; [done|]. constructor; [by rewrite El, andb_false_r|].
    pose proof (wf_sorted _ _ Hwf) as Hs. apply sorted_app_r in Hs. apply StronglySorted_inv in Hs as [_ Hs].
    eapply Forall_impl; [exact Hs|]. intros z Hz. cbn. destruct (lte r z) eqn:Ez; [|apply andb_false_r].
    by rewrite (lte_down r y z Hz Ez) in El.
Qed.

Lemma last_in_range_spec zsl L r : wf zsl L → zslLastInRange zsl r = Some (ta <$> last (filter (in_range r) L)).
Proof.
  intros Hwf. unfold zslLastInRange. destruct (is_in_range_spec zsl L r Hwf) as (b & -> & Hb). cbn [mbind option_bind].
  destruct b; cbn [negb]; [|by rewrite Hb]. destruct Hb as (t & _ & Hhead & _ & Hl & _).
  destruct (sorted_splits (lte r) L (wf_sorted _ _ Hwf) (lte_down r)) as (A & B & -> & HP & HA & HB).
  destruct (search_spec _ _ 64 zsl A B (lte_spec r) HP ltac:(lia) (wf_inv _ _ Hwf)) as (us & -> & _ & _ & Hu0 & _).
  cbn [mbind option_bind]. rewrite Hu0. cbn [mbind option_bind].
  assert (HfB : filter (in_range r) B = []).
  { apply filter_none. eapply Forall_impl; [exact HB|]. intros x Hx. cbn in *. by rewrite Hx, andb_false_r. }
  destruct A as [|y A _] using rev_ind.
  { cbn [app] in *. destruct B as [|b B]; [done|]. injection Hhead as ->. apply Forall_cons in HB as [HB _]. congruence. }
  unfold at_. rewrite last_snoc. rewrite <- app_assoc in Hwf. cbn [app] in Hwf.
  destruct (at_node zsl _ A B y Hwf eq_refl) as (n & -> & Hn & _). cbn [mbind option_bind]. rewrite Hn. fold (gte r y).
  rewrite filter_app, HfB, app_nil_r, filter_app. apply Forall_app in HA as [HA Hy]. apply Forall_cons in Hy as [Hy _].
  destruct (gte r y) eqn:Eg; cbn [negb].
  - rewrite filter_cons_True by (unfold in_range; by rewrite Eg, Hy).
    change (filter (in_range r) []) with (@nil tower). by rewrite last_snoc.
  - rewrite filter_cons_False by (unfold in_range; by rewrite Eg).
    change (filter (in_range r) []) with (@nil tower). rewrite app_nil_r, filter_none; [done|].
    pose proof (wf_sorted _ _ Hwf) as Hs. apply Forall_forall. intros x Hx. apply list_elem_of_split in Hx as (X & Y & ->).
    rewrite <- app_assoc in Hs. apply sorted_app_r in Hs. cbn [app] in Hs. apply StronglySorted_inv in Hs as [_ Hs].
    rewrite Forall_app, Forall_cons in Hs. destruct (gte r x) eqn:Ex; [|done]. rewrite (gte_up r x y) in Eg; [done|apply Hs|done].
Qed.

(** *** Deleting ranges *)
Lemma delete_while_spec go (Q : Z → tower → bool) us A B2 :
  (∀ r n t, score n = ts t → go r n = Q r t) →
  ∀ B1 fuel zsl d tr rm, wf zsl (A ++ B1 ++ B2) → updates (header zsl) (level_ zsl) A us →
  (length B1 < fuel)%nat → 0 ≤ tr → 0 ≤ rm → tr + zlen B1 < 2 ^ 64 → rm + zlen B1 < 2 ^ 64 →
  (∀ X t Y, B1 = X ++ t :: Y → Q (tr + zlen X) t = true) → (∀ t Y, B2 = t :: Y → Q (tr + zlen B1) t = false) →
  ∃ zsl', delete_while go fuel zsl d us (ta <$> head (B1 ++ B2)) tr rm =
      Some (zsl', foldl dictDelete d (map to B1), rm + zlen B1) ∧
    wf zsl' (A ++ B2) ∧ dom (mem zsl') = dom (mem zsl) ∖ list_to_set (map ta B1).
Proof.
  intros Hgo. induction B1 as [|t B1 IH]; intros fuel zsl d tr rm Hwf Hus Hf Htr Hrm Htr' Hrm' HQ1 HQ2;
    (destruct fuel as [|fuel]; [cbn in Hf; lia|]); cbn [delete_while app map foldl length list_to_set].
  - exists zsl. replace (rm + Z.of_nat 0) with rm by lia.
    split; [|split; [done|set_solver]]. destruct B2 as [|t B2]; [done|]. cbn [head fmap option_fmap option_map].
    destruct (at_node zsl _ A B2 t Hwf eq_refl) as (n & -> & Hs & _). cbn [mbind option_bind].
    rewrite (Hgo tr n t Hs). specialize (HQ2 t B2 eq_refl). cbn [length] in HQ2. rewrite Z.add_0_r in HQ2. by rewrite HQ2.
  - cbn [head fmap option_fmap option_map]. cbn [app length] in *.
    destruct (at_node zsl _ A (B1 ++ B2) t Hwf eq_refl) as (n & -> & Hs & Ho). cbn [mbind option_bind].
    rewrite (Hgo tr n t Hs). pose proof (HQ1 [] t B1 eq_refl) as HQ. cbn [length] in HQ. rewrite Z.add_0_r in HQ. rewrite HQ.
    pose proof (inv_chain _ _ _ _ A (wf_inv _ _ Hwf)) as (_ & Hlt & _).
    pose proof (i_th _ _ _ _ (wf_inv _ _ Hwf)) as Hth. rewrite Forall_app, Forall_cons in Hth. destruct Hth as (_ & Ht1 & Hth).
    rewrite Hlt by lia. cbn [mbind option_bind]. rewrite (fwd_0 _ _ Hth). cbn [forward].
    destruct (delete_node_spec zsl A t (B1 ++ B2) us Hwf Hus) as (zsl1 & -> & Hwf1 & Hus1 & Hh1 & D1 & _).
    cbn [mbind option_bind]. rewrite Ho. cbn [mbind option_bind].
    assert (E1 : u64 (tr + 1) = tr + 1) by (apply wrapu_id; unfold in_u; lia).
    assert (E2 : u64 (rm + 1) = rm + 1) by (apply wrapu_id; unfold in_u; lia). rewrite E1, E2.
    destruct (IH fuel (zslFreeNode zsl1 (ta t)) (dictDelete d (to t)) (tr + 1) (rm + 1)) as (zsl' & E & Hwf' & D'); try done; try lia.
    + intros X x Y EX. specialize (HQ1 (t :: X) x Y ltac:(by rewrite EX)). rewrite <- HQ1. f_equal. cbn [length]. lia.
    + intros x Y EX. rewrite <- (HQ2 x Y EX). f_equal. lia.
    + exists zsl'. rewrite E. replace (rm + 1 + zlen B1) with (rm + Z.of_nat (S (length B1))) by lia. split; [done|].
      split; [done|]. rewrite D'. cbn [mem zslFreeNode]. rewrite dom_delete_L, D1. set_solver.
Qed.

Lemma delete_score_spec zsl L r d : wf zsl L →
  ∃ zsl', zslDeleteRangeByScore zsl r d =
      Some (zsl', foldl dictDelete d (map to (filter (in_range r) L)), zlen (filter (in_range r) L)) ∧
    wf zsl' (filter (λ t, ¬ in_range r t) L) ∧
    dom (mem zsl') = dom (mem zsl) ∖ list_to_set (map ta (filter (in_range r) L)).
Proof.
  intros Hwf. unfold zslDeleteRangeByScore. pose proof (wf_sorted _ _ Hwf) as Hs.
  destruct (sorted_splits (λ t, negb (gte r t)) L Hs (ngte_down r)) as (A & B & -> & HP & HA & HB).
  assert (Hgo : decides (λ _ _ n, Some (if minex r then sle (score n) (min r) else slt (score n) (min r))) (λ _ t, negb (gte r t))).
  { intros _ l n t _ Hsc _ _ _. f_equal. rewrite Hsc. unfold gte, zslValueGteMin, sle, slt.
    pose proof (cmp_antisym (min r) (ts t)). pose proof (cmp_antisym (ts t) (min r)).
    destruct (minex r); [destruct (Z.leb_spec (scmp (ts t) (min r)) 0), (Z.ltb_spec (scmp (min r) (ts t)) 0)
                        |destruct (Z.ltb_spec (scmp (ts t) (min r)) 0), (Z.leb_spec (scmp (min r) (ts t)) 0)]; cbn; (done || lia). }
  destruct (search_spec _ _ 64 zsl A B Hgo HP ltac:(lia) (wf_inv _ _ Hwf)) as (us & -> & _ & Hus & Hu0 & Hlv).
  cbn [mbind option_bind]. rewrite Hu0. cbn [mbind option_bind]. rewrite Hlv. cbn [mbind option_bind].
  pose proof (i_th _ _ _ _ (wf_inv _ _ Hwf)) as Hth. apply Forall_app in Hth as [_ Hth]. rewrite (fwd_0 B _ Hth). cbn [forward].
  destruct (sorted_splits (lte r) B (sorted_app_r _ _ _ Hs) (lte_down r)) as (B1 & B2 & -> & _ & HB1 & HB2).
  assert (F1 : filter (in_range r) (A ++ B1 ++ B2) = B1 ∧ filter (λ t, ¬ in_range r t) (A ++ B1 ++ B2) = A ++ B2).
  { assert (FA : Forall (λ t, ¬ in_range r t) A).
    { eapply Forall_impl; [exact HA|]. intros x Hx%negb_true_iff. unfold in_range. by rewrite Hx. }
    assert (FB1 : Forall (in_range r) B1).
    { apply Forall_app in HB as [HB _]. apply Forall_forall. intros x Hx. rewrite Forall_forall in HB, HB1. unfold in_range.
      specialize (HB x Hx). apply negb_false_iff in HB. by rewrite HB, (HB1 x Hx). }
    assert (FB2 : Forall (λ t, ¬ in_range r t) B2).
    { eapply Forall_impl; [exact HB2|]. intros x Hx. unfold in_range. cbn in Hx. by rewrite Hx, andb_false_r. }
    rewrite !filter_app. split.
    - rewrite (filter_drops _ A), (filter_drops _ B2), (filter_keeps _ B1) by done. apply app_nil_r.
    - rewrite (filter_keeps _ A), (filter_keeps _ B2), (filter_drops _ B1); [done| |done|done].
      eapply Forall_impl; [exact FB1|]. cbn. tauto. }
  destruct F1 as [-> ->]. pose proof (i_len _ _ _ _ (wf_inv _ _ Hwf)) as Hlen. rewrite !length_app in Hlen.
  destruct (delete_while_spec (λ _ n, if maxex r then slt (score n) (max r) else sle (score n) (max r)) (λ _ t, lte r t)
    us A B2) with (B1 := B1) (fuel := S (size (mem zsl))) (zsl := zsl) (d := d) (tr := 0) (rm := 0) as (zsl' & E & Hwf' & D');
    try done; try lia.
  - intros _ n t Hsc. rewrite Hsc. done.
  - pose proof (inv_size _ _ _ _ (wf_inv _ _ Hwf)) as Hsz. rewrite !length_app in Hsz. lia.
  - intros X t Y EX. rewrite Forall_forall in HB1. apply HB1. rewrite EX. set_solver.
  - intros t Y EX. rewrite Forall_forall in HB2. apply HB2. rewrite EX. set_solver.
  - exists zsl'. rewrite E. split; [|done]. done.
Qed.

Lemma delete_rank_spec zsl L start end_ d : wf zsl L → 1 ≤ start → start ≤ end_ + 1 → end_ < 2 ^ 32 →
  let B1 := take (Z.to_nat (end_ - (start - 1))) (drop (Z.to_nat (start - 1)) L) in
  ∃ zsl', zslDeleteRangeByRank zsl start end_ d = Some (zsl', foldl dictDelete d (map to B1), zlen B1) ∧
    wf zsl' (take (Z.to_nat (start - 1)) L ++ drop (Z.to_nat end_) L) ∧
    dom (mem zsl') = dom (mem zsl) ∖ list_to_set (map ta B1).
Proof.
  intros Hwf H1 H2 H3 B1. unfold zslDeleteRangeByRank. set (A := take (Z.to_nat (start - 1)) L).
  set (B2 := drop (Z.to_nat end_) L).
  assert (HB2 : B2 = drop (Z.to_nat (end_ - (start - 1))) (drop (Z.to_nat (start - 1)) L)).
  { unfold B2. rewrite drop_drop. f_equal. lia. }
  assert (HL : L = A ++ B1 ++ B2) by (rewrite HB2; unfold A, B1; by rewrite !take_drop).
  assert (HlA : zlen A = Z.min (start - 1) (zlen L)) by (unfold A; rewrite length_take; lia).
  assert (HlB1 : zlen B1 = Z.min (end_ - (start - 1)) (zlen L - zlen A)).
  { unfold B1. rewrite length_take, length_drop. unfold A. rewrite length_take. lia. }
  assert (HlB2 : zlen B2 = zlen L - zlen A - zlen B1) by (rewrite HL, !length_app; lia).
  pose proof (i_len _ _ _ _ (wf_inv _ _ Hwf)) as Hlen.
  assert (Hgo : decides (go_rank_lt start) (λ pos _, pos <? start)).
  { intros r l n t _ _ Hr Hl Hw. unfold go_rank_lt. do 2 f_equal. apply wrapu_id. unfold in_u. lia. }
  assert (HP : splits (λ pos _, pos <? start) A (B1 ++ B2)).
  { split; intros X t Y EX.
    - apply Z.ltb_lt. rewrite EX, length_app in HlA. cbn [length] in HlA. lia.
    - apply Z.ltb_ge. assert (Hx : zlen (B1 ++ B2) = zlen L - zlen A) by (rewrite length_app; lia).
      rewrite EX, length_app in Hx. cbn [length] in Hx. lia. }
  rewrite HL in Hwf.
  destruct (search_spec _ _ 64 zsl A (B1 ++ B2) Hgo HP ltac:(lia) (wf_inv _ _ Hwf)) as (us & -> & _ & Hus & Hu0 & Hlv).
  cbn [mbind option_bind]. rewrite Hu0. cbn [mbind option_bind]. rewrite Hlv. cbn [mbind option_bind].
  pose proof (i_th _ _ _ _ (wf_inv _ _ Hwf)) as Hth. apply Forall_app in Hth as [_ Hth]. rewrite (fwd_0 _ _ Hth). cbn [forward].
  assert (E1 : u64 (zlen A + 1) = zlen A + 1) by (apply wrapu_id; unfold in_u; lia). rewrite E1.
  apply (delete_while_spec (λ t _, t <=? end_) (λ t _, t <=? end_) us A B2 ltac:(done) B1); try done; try lia.
  - pose proof (inv_size _ _ _ _ (wf_inv _ _ Hwf)) as Hsz. rewrite !length_app in Hsz. lia.
  - intros X t Y EX. apply Z.leb_le. rewrite EX, length_app in HlB1. cbn [length] in HlB1. lia.
  - intros t Y EX. apply Z.leb_gt. rewrite EX in HlB2. cbn [length] in HlB2. lia.
Qed.

(** ** Histories *)
Inductive op :=
| Insert (rs : list Z) (a : addr) (s : Sc) (o : Ob)
| Delete (s : Sc) (o : Ob)
| DeleteByScore (r : zrangespec)
| DeleteByRank (start end_ : Z).

Definition run (op : op) (zsl : zskiplist) (d : D) : option (zskiplist * D) :=
  match op with
  | Insert rs a s o => '(zsl, _) ← zslInsert zsl rs a s o; Some (zsl, d)
  | Delete s o => '(zsl, _) ← zslDelete zsl s o; Some (zsl, d)
  | DeleteByScore r => '(zsl, d, _) ← zslDeleteRangeByScore zsl r d; Some (zsl, d)
  | DeleteByRank start end_ => '(zsl, d, _) ← zslDeleteRangeByRank zsl start end_ d; Some (zsl, d)
  end.

(** The same on sorted lists of scores and objects. *)
Definition in_rangeb (r : zrangespec) (k : Sc * Ob) : bool := zslValueGteMin k.1 r && zslValueLteMax k.1 r.
Definition spec (op : op) (l : list (Sc * Ob)) : list (Sc * Ob) :=
  match op with
  | Insert _ _ s o => filter (λ k, kcmp k (s, o) < 0) l ++ (s, o) :: filter (λ k, ¬ kcmp k (s, o) < 0) l
  | Delete s o => filter (λ k, kcmp k (s, o) ≠ 0) l
  | DeleteByScore r => filter (λ k, ¬ (in_rangeb r k = true)) l
  | DeleteByRank start end_ => take (Z.to_nat (start - 1)) l ++ drop (Z.to_nat end_) l
  end.

(** What callers ensure: a new node is outside the memory in use, its element is
    not in the list, there are fewer than 2^32 elements, the random numbers end
    the loop of [zslRandomLevel]; ranks are 1-based. *)
Definition allowed (op : op) (zsl : zskiplist) (l : list (Sc * Ob)) : Prop :=
  match op with
  | Insert rs a s o => mem zsl !! a = None ∧ is_Some (zslRandomLevel rs) ∧ zlen l < 2 ^ 32 - 1 ∧
                       Forall (λ k, kcmp k (s, o) ≠ 0) l
  | DeleteByRank start end_ => 1 ≤ start ∧ start ≤ end_ + 1 ∧ end_ < 2 ^ 32
  | _ => True
  end.

Inductive history : zskiplist → D → list (Sc * Ob) → Prop :=
| h_create m a zsl d : zslCreate m a = Some zsl → history zsl d []
| h_op zsl d l op zsl' d' : history zsl d l → allowed op zsl l → run op zsl d = Some (zsl', d') →
    history zsl' d' (spec op l).

Lemma filter_map_key (P : Sc * Ob → Prop) `{!∀ k, Decision (P k)} L :
  filter P (map tkey L) = map tkey (filter (λ t, P (tkey t)) L).
Proof. induction L as [|t L IH]; [done|]. cbn [map]. rewrite !filter_cons. repeat case_decide; cbn [map]; congruence. Qed.

Lemma sorted_middle A t B : StronglySorted tlt (A ++ t :: B) →
  Forall (λ x, tlt x t) A ∧ Forall (tlt t) B.
Proof.
  induction A as [|x A IH]; cbn; intros H; apply StronglySorted_inv in H as [H1 H2].
  - by split; [constructor|].
  - destruct (IH H1) as [H3 H4]. split; [|done]. rewrite Forall_app, Forall_cons in H2. constructor; [tauto|done].
Qed.

Lemma run_spec op zsl d L : wf zsl L → allowed op zsl (map tkey L) →
  ∃ zsl' d' L', run op zsl d = Some (zsl', d') ∧ wf zsl' L' ∧ map tkey L' = spec op (map tkey L).
Proof.
  intros Hwf Hok. destruct op as [rs a s o|s o|r|start end_]; cbn [run spec allowed] in *.
  - destruct Hok as (Ha & [[h rs'] Hrs] & Hl & Hn). rewrite length_map in Hl. rewrite Forall_map in Hn.
    destruct (zslInsert_spec zsl L rs a s o h rs' Hwf Ha Hrs Hl Hn) as (zsl' & A & B & -> & -> & Hwf' & _).
    cbn [mbind option_bind]. eexists _, _, _. split; [done|]. split; [exact Hwf'|].
    destruct (sorted_middle _ _ _ (wf_sorted _ _ Hwf')) as [HA HB]. rewrite !filter_map_key, !filter_app.
    assert (HB' : Forall (λ t, ¬ kcmp (tkey t) (s, o) < 0) B).
    { eapply Forall_impl; [exact HB|]. intros x Hx. unfold tlt in Hx.
      change (tkey (mk_tower a s o h)) with (s, o) in Hx. apply cmp_antisym in Hx. cbv beta. lia. }
    assert (HA' : Forall (λ t, ¬ ¬ kcmp (tkey t) (s, o) < 0) A).
    { eapply Forall_impl; [exact HA|]. intros x Hx Hy. exact (Hy Hx). }
    rewrite (filter_keeps _ A HA), (filter_drops _ B HB'), (filter_drops _ A HA'), (filter_keeps _ B HB').
    by rewrite app_nil_r, !map_app.
  - destruct (zslDelete_spec zsl L s o Hwf) as (zsl' & r & -> & Hx). cbn [mbind option_bind]. rewrite filter_map_key.
    destruct Hx as [(A & t & B & -> & Hz & _ & Hwf' & _)|(Hn & _ & ->)].
    + exists zsl', d, (A ++ B). split; [done|]. split; [done|]. f_equal. rewrite filter_app, filter_cons_False by (intros []; done).
      destruct (sorted_middle _ _ _ (wf_sorted _ _ Hwf)) as [HA HB].
      rewrite (filter_keeps _ A), (filter_keeps _ B); [done| |].
      * eapply Forall_impl; [exact HB|]. intros x Hx Hxz. apply (cmp_zero_sym kcmp) in Hxz.
        pose proof (cmp_zero_trans kcmp _ _ _ Hz Hxz) as Hc. unfold tlt in Hx. lia.
      * eapply Forall_impl; [exact HA|]. intros x Hx Hxz. apply (cmp_zero_sym kcmp) in Hz.
        pose proof (cmp_zero_trans kcmp _ _ _ Hxz Hz) as Hc. unfold tlt in Hx. lia.
    + exists zsl, d, L. split; [done|]. split; [done|]. by rewrite filter_keeps.
  - destruct (delete_score_spec zsl L r d Hwf) as (zsl' & -> & Hwf' & _). cbn [mbind option_bind].
    eexists _, _, _. split; [done|]. split; [exact Hwf'|]. rewrite filter_map_key. done.
  - destruct Hok as (H1 & H2 & H3). destruct (delete_rank_spec zsl L start end_ d Hwf H1 H2 H3) as (zsl' & -> & Hwf' & _).
    cbn [mbind option_bind]. eexists _, _, _. split; [done|]. split; [exact Hwf'|].
    by rewrite map_app, firstn_map, skipn_map.
Qed.

Lemma history_wf zsl d l : history zsl d l → ∃ L, wf zsl L ∧ map tkey L = l.
Proof.
  induction 1 as [m a zsl d H|zsl d l op zsl' d' _ (L & Hwf & <-) Hok Hrun].
  - destruct (create_spec m a) as (zsl0 & E & Hwf). rewrite E in H. injection H as ->. by exists [].
  - destruct (run_spec op zsl d L Hwf Hok) as (zsl1 & d1 & L' & E & Hwf' & <-). rewrite E in Hrun. injection Hrun as -> ->.
    by exists L'.
Qed.

(** ** The theorems *)

(** C3: the skip list refines a sorted list.  After any history of insertions, deletions and deletions of ranges on a
    new skip list, whatever heights the random numbers gave to the nodes, the nodes are linked on all levels in the
    order of score and object, with right spans, back pointers, tail, length and level ([wf]), and their contents are
    those of the sorted list; and every operation that callers may apply next succeeds, no pointer leading nowhere. *)
Theorem zsl_history_refines zsl d l : history zsl d l →
  (∃ L, wf zsl L ∧ map tkey L = l) ∧
  ∀ op, allowed op zsl l → ∃ zsl' d', run op zsl d = Some (zsl', d') ∧ history zsl' d' (spec op l).
Proof.
  intros H. destruct (history_wf _ _ _ H) as (L & Hwf & HL). split; [by exists L|]. intros op Hok. subst l.
  destruct (run_spec op zsl d L Hwf Hok) as (zsl' & d' & L' & E & _). exists zsl', d'. split; [done|]. by eapply h_op.
Qed.

(** Insertion.  [zslInsert] of an element that is not in the list links one new node of the random height at its
    place; all other nodes keep their place and height; the memory grows by exactly the new node. *)
Theorem zslInsert_links zsl L rs a s o h rs' :
  wf zsl L → mem zsl !! a = None → zslRandomLevel rs = Some (h, rs') → zlen L < 2 ^ 32 - 1 →
  Forall (λ t, kcmp (tkey t) (s, o) ≠ 0) L →
  (1 ≤ h ≤ ZSKIPLIST_MAXLEVEL)%nat ∧
  ∃ zsl' A B, zslInsert zsl rs a s o = Some (zsl', rs') ∧ L = A ++ B ∧ wf zsl' (A ++ mk_tower a s o h :: B) ∧
    dom (mem zsl') = {[a]} ∪ dom (mem zsl).
Proof.
  intros Hwf Ha Hrs Hl Hn. split; [by eapply zslRandomLevel_range|]. by apply zslInsert_spec.
Qed.

(** Deletion.  [zslDelete] unlinks and frees exactly the node with the given score and object and returns 1, or
    changes nothing and returns 0 if there is none. *)
Theorem zslDelete_unlinks zsl L s o : wf zsl L →
  ∃ zsl' r, zslDelete zsl s o = Some (zsl', r) ∧
    ((∃ A t B, L = A ++ t :: B ∧ kcmp (tkey t) (s, o) = 0 ∧ r = 1 ∧ wf zsl' (A ++ B) ∧
        dom (mem zsl') = dom (mem zsl) ∖ {[ta t]}) ∨
     (Forall (λ t, kcmp (tkey t) (s, o) ≠ 0) L ∧ r = 0 ∧ zsl' = zsl)).
Proof. apply zslDelete_spec. Qed.

(** Ranks.  If the objects of the list are pairwise different, as the dictionary of a sorted set ensures,
    [zslGetRank] and [zslGetElementByRank], which only add up spans, are inverse to each other: the element at position
    [i] has the rank [i + 1], and the rank [i + 1] leads to its node; the rank of an object that is not there is 0, and
    there is no node with a rank above the length. *)
Theorem zsl_ranks zsl L : wf zsl L →
  (∀ A t B, L = A ++ t :: B → Forall (λ x, equalStringObjects (to x) (to t) = false) (A ++ B)) →
  (∀ A t B, L = A ++ t :: B →
     zslGetRank zsl (ts t) (to t) = Some (zlen A + 1) ∧ zslGetElementByRank zsl (zlen A + 1) = Some (Some (ta t))) ∧
  (∀ s o, Forall (λ t, equalStringObjects (to t) o = false) L → zslGetRank zsl s o = Some 0) ∧
  (∀ rank, zlen L < rank → zslGetElementByRank zsl rank = Some None).
Proof.
  intros Hwf Huniq. pose proof (i_lev _ _ _ _ (wf_inv _ _ Hwf)) as Hlev.
  assert (Hrank : ∀ s o, Forall (λ t, equalStringObjects (to t) o = true → kcmp (tkey t) (s, o) = 0) L →
    ∃ r, zslGetRank zsl s o = Some r ∧
    ((∃ C t K, L = C ++ t :: K ∧ kcmp (tkey t) (s, o) = 0 ∧ r = zlen C + 1) ∨ (Forall (λ t, kcmp (tkey t) (s, o) ≠ 0) L ∧ r = 0))).
  { intros s o Hu. destruct (sorted_splits (λ t, kcmp (tkey t) (s, o) <=? 0) L (wf_sorted _ _ Hwf) (upto_down s o))
      as (A & B & -> & HP & _ & HB). apply (rank_loop_spec zsl A B s o Hwf HP HB Hu (level_ zsl) [] A); [done|]. unfold hgt. cbn. lia. }
  assert (Helem : ∀ rank, 0 ≤ rank → zslGetElementByRank zsl rank =
    Some (if rank <=? zlen L then Some (at_ (header zsl) (take (Z.to_nat rank) L)) else None)).
  { intros rank Hr. apply (element_loop_spec zsl L rank Hwf Hr (level_ zsl) [] (take (Z.to_nat rank) L)); [done|]. unfold hgt. cbn. lia. }
  assert (Heq : ∀ o s, kcmp o s = 0 → equalStringObjects o.2 s.2 = true).
  { intros [s o] [s' o']. unfold kcmp. cbn. intros Hz. apply equal_spec. by destruct (Z.eqb_spec (scmp s s') 0). }
  split; [|split].
  - intros A t B E. split.
    + destruct (Hrank (ts t) (to t)) as (r & -> & Hr).
      { specialize (Huniq A t B E). subst L. rewrite Forall_app in *. destruct Huniq as [H1 H2].
        split; [|constructor; [intros _; apply (cmp_refl kcmp)|]]; eapply Forall_impl; try exact H1; try exact H2; cbn; congruence. }
      f_equal. destruct Hr as [(C & t' & K & E' & Hz & ->)|[Hn _]].
      * assert (C = A) as ->; [|done]. rewrite E in E'. destruct (sorted_middle A t B) as [HA HB]; [rewrite <- E; apply Hwf|].
        change (ts t, to t) with (tkey t) in Hz. apply app_eq_inv in E' as [(k & -> & Ek)|(k & -> & Ek)].
        -- destruct k as [|x k]; [by rewrite app_nil_r|]. injection Ek as -> ->.
           rewrite Forall_app, Forall_cons in HA. destruct HA as (_ & Hx & _). unfold tlt in Hx. lia.
        -- destruct k as [|x k]; [by rewrite app_nil_r|]. injection Ek as -> ->.
           rewrite Forall_app, Forall_cons in HB. destruct HB as (_ & Hx & _). unfold tlt in Hx. apply (cmp_zero_sym kcmp) in Hz. lia.
      * rewrite E, Forall_app, Forall_cons in Hn. destruct Hn as (_ & Hn & _). destruct Hn. apply (cmp_refl kcmp).
    + rewrite Helem by lia. rewrite (proj2 (Z.leb_le _ _)) by (rewrite E, length_app; cbn [length]; lia).
      do 2 f_equal. replace (Z.to_nat (zlen A + 1)) with (length (A ++ [t])) by (rewrite length_app; cbn; lia).
      rewrite E. replace (A ++ t :: B) with ((A ++ [t]) ++ B) by by rewrite <- app_assoc.
      rewrite take_app_length. unfold at_. by rewrite last_snoc.
  - intros s o Hn. destruct (Hrank s o) as (r & -> & Hr).
    { eapply Forall_impl; [exact Hn|]. cbn. congruence. }
    destruct Hr as [(C & t & K & -> & Hz & _)|[_ ->]]; [|done]. rewrite Forall_app, Forall_cons in Hn. destruct Hn as (_ & Hn & _).
    apply (Heq (tkey t) (s, o)) in Hz. cbn in Hz. congruence.
  - intros rank Hr. rewrite Helem by lia. by rewrite (proj2 (Z.leb_gt _ _)).
Qed.

(** Ranges of scores.  [zslFirstInRange] and [zslLastInRange] return the first and the last node whose score is in
    the range, whichever ends are exclusive, and NULL when there is none; the assertions in them never fail. *)
Theorem zsl_range_ends zsl L r : wf zsl L →
  zslFirstInRange zsl r = Some (ta <$> head (filter (in_range r) L)) ∧
  zslLastInRange zsl r = Some (ta <$> last (filter (in_range r) L)).
Proof. intros Hwf. split; [by apply first_in_range_spec|by apply last_in_range_spec]. Qed.

(** Deleting a range of scores removes exactly the nodes in the range, deletes their objects from the dictionary
    in order, frees their memory and returns their number. *)
Theorem zsl_delete_range zsl L r d : wf zsl L →
  ∃ zsl', zslDeleteRangeByScore zsl r d =
      Some (zsl', foldl dictDelete d (map to (filter (in_range r) L)), zlen (filter (in_range r) L)) ∧
    wf zsl' (filter (λ t, ¬ in_range r t) L) ∧
    dom (mem zsl') = dom (mem zsl) ∖ list_to_set (map ta (filter (in_range r) L)).
Proof. apply delete_score_spec. Qed.
End zsl.

(** ** A concrete skip list *)
Module Sample.
Definition scmp (a b : Z) : Z := a - b.
#[export] Instance scmp_total : TotalCompare scmp.
Proof. split; unfold scmp; intros; lia. Qed.

Definition ob (c : Z) (H : robj_ok (StrRaw [c]) = true) : strobj := mk_strobj (StrRaw [c]) H.
Definition oa : strobj := ob 97 eq_refl.
Definition ob_ : strobj := ob 98 eq_refl.
Definition oc : strobj := ob 99 eq_refl.
(** The dictionary is the list of the objects deleted from it. *)
Definition dict_delete (d : list strobj) (o : strobj) : list strobj := d ++ [o].

Abbreviation zslist := (@zskiplist Z strobj).
Abbreviation hist := (history (D := list strobj) scmp obj_compare obj_equal dict_delete 0).
Abbreviation runs := (run (D := list strobj) scmp obj_compare obj_equal dict_delete).
Abbreviation wfs := (wf scmp obj_compare 0).

Definition created : zslist := default (mk_zsl ∅ 1%positive None 0 1) (zslCreate 0 ∅ 1%positive).
(** Random numbers that give the height [n + 1]. *)
Definition rnd (n : nat) : list Z := replicate n 0 ++ [65535].

Definition after (op : op) (zsl : zslist) : zslist := (default (zsl, []) (runs op zsl [])).1.
Definition ins1 : op := Insert (rnd 1) 2%positive 20 ob_.
Definition ins2 : op := Insert (rnd 0) 3%positive 10 oc.
Definition ins3 : op := Insert (rnd 3) 4%positive 20 oa.
Definition sample : zslist := after ins3 (after ins2 (after ins1 created)).
Definition contents : list (Z * strobj) := [(10, oc); (20, oa); (20, ob_)].

Lemma runs_after o zsl : match runs o zsl [] with Some (_, []) => true | _ => false end = true →
  runs o zsl [] = Some (after o zsl, []).
Proof. unfold after. destruct (runs o zsl []) as [[z [|]]|]; try done. Qed.

Lemma sample_history : hist sample [] contents.
Proof.
  assert (H0 : hist created [] []) by (apply (h_create _ _ _ _ _ ∅ 1%positive); by vm_compute).
  assert (H1 : hist (after ins1 created) [] [(20, ob_)]).
  { apply (h_op _ _ _ _ _ created [] [] ins1 _ _ H0); [|by apply runs_after; vm_compute].
    split_and!; [by vm_compute|by eexists|by vm_compute|constructor]. }
  assert (H2 : hist (after ins2 (after ins1 created)) [] [(10, oc); (20, ob_)]).
  { apply (h_op _ _ _ _ _ _ _ _ ins2 _ _ H1); [|by apply runs_after; vm_compute].
    split_and!; [by vm_compute|by eexists|by vm_compute|by repeat constructor]. }
  apply (h_op _ _ _ _ _ _ _ _ ins3 _ _ H2); [|by apply runs_after; vm_compute].
  split_and!; [by vm_compute|by eexists|by vm_compute|by repeat constructor].
Qed.

Lemma sample_held : ∃ L, wfs sample L ∧ map tkey L = contents.
Proof. apply (history_wf scmp obj_compare obj_equal dict_delete 0 obj_equal_spec sample [] contents sample_history). Qed.

Lemma zsl_history_refines_witness :
  ∃ zsl' d', runs (DeleteByScore (mk_range 15 20 false true)) sample [] = Some (zsl', d') ∧ hist zsl' d' contents.
Proof.
  apply (proj2 (zsl_history_refines scmp obj_compare obj_equal dict_delete 0 obj_equal_spec sample [] contents sample_history)
    (DeleteByScore (mk_range 15 20 false true))).
  exact I.
Defined.

Lemma zslInsert_links_witness :
  ∃ zsl' L', zslInsert scmp obj_compare sample (rnd 7) 5%positive 15 oa = Some (zsl', []) ∧ wfs zsl' L'.
Proof.
  destruct sample_held as (L & Hwf & HL).
  assert (Hl : zlen L < 2 ^ 32 - 1).
  { rewrite <- (length_map tkey), HL. done. }
  assert (Hn : Forall (λ t, kcmp scmp obj_compare (tkey t) (15, oa) ≠ 0) L).
  { apply (Forall_map tkey (λ k, kcmp scmp obj_compare k (15, oa) ≠ 0)). rewrite HL. by repeat constructor. }
  destruct (zslInsert_links scmp obj_compare obj_equal 0 obj_equal_spec sample L (rnd 7) 5%positive 15 oa 8 [] Hwf)
    as (_ & zsl' & A & B & E & _ & Hwf' & _).
  - by vm_compute.
  - by vm_compute.
  - exact Hl.
  - exact Hn.
  - exists zsl', (A ++ mk_tower 5%positive 15 oa 8 :: B). split; [exact E|exact Hwf'].
Defined.

Lemma zslDelete_unlinks_witness :
  ∃ zsl' r, zslDelete scmp obj_compare obj_equal sample 20 ob_ = Some (zsl', r).
Proof.
  destruct sample_held as (L & Hwf & _).
  destruct (zslDelete_unlinks scmp obj_compare obj_equal 0 obj_equal_spec sample L 20 ob_ Hwf) as (zsl' & r & E & _).
  exists zsl', r. exact E.
Defined.

Lemma zsl_ranks_witness :
  zslGetRank scmp obj_compare obj_equal sample 20 oa = Some 2 ∧ zslGetElementByRank sample 4 = Some None.
Proof.
  destruct sample_held as (L & Hwf & HL).
  assert (Hu : ∀ A t B, L = A ++ t :: B → Forall (λ x, obj_equal (to x) (to t) = false) (A ++ B)).
  { destruct L as [|t1 [|t2 [|t3 [|]]]]; try done. destruct t1, t2, t3. unfold tkey in HL. cbn in HL. injection HL as -> -> -> -> -> ->.
    intros A t B E. destruct A as [|? [|? [|? [|]]]]; simplify_list_eq; by repeat constructor. }
  destruct (zsl_ranks scmp obj_compare obj_equal 0 obj_equal_spec sample L Hwf Hu) as (H1 & _ & H3).
  destruct L as [|t1 [|t2 [|t3 [|]]]]; try discriminate HL. destruct t1, t2, t3. unfold tkey in HL. cbn in HL. injection HL as -> -> -> -> -> ->.
  split; [apply (H1 [_] _ [_] eq_refl)|apply (H3 4); done].
Defined.

Lemma zsl_range_ends_witness :
  ∃ L, zslFirstInRange scmp sample (mk_range 15 20 false false) =
    Some (ta <$> head (filter (in_range scmp (mk_range 15 20 false false)) L)) ∧ map tkey L = contents.
Proof.
  destruct sample_held as (L & Hwf & HL). exists L. split; [|exact HL].
  apply (zsl_range_ends scmp obj_compare obj_equal 0 obj_equal_spec sample L (mk_range 15 20 false false) Hwf).
Defined.

Lemma zsl_delete_range_witness :
  ∃ zsl' n, zslDeleteRangeByScore scmp dict_delete sample (mk_range 15 20 false false) [] = Some (zsl', [oa; ob_], n).
Proof.
  destruct sample_held as (L & Hwf & HL).
  destruct (zsl_delete_range scmp obj_compare obj_equal dict_delete 0 obj_equal_spec sample L (mk_range 15 20 false false) [] Hwf)
    as (zsl' & E & _).
  eexists _, _. rewrite E. destruct L as [|t1 [|t2 [|t3 [|]]]]; try discriminate HL. destruct t1, t2, t3. unfold tkey in HL. cbn in HL.
  injection HL as -> -> -> -> -> ->. reflexivity.
Defined.
End Sample.
