(* ===== verification/Zipenc.v ===== *)
(** * Entries of a ziplist ([redis-3.2/src/ziplist.c], the encodings)

    An entry is the length of the previous entry (one byte below 254, or the
    byte 254 and four bytes), a header that says how the payload is encoded,
    and the payload: the bytes of a string, or an integer of one of six sizes,
    the smallest of which is part of the header.

    The functions read from a buffer [m] at an offset and return [None] for a
    read outside it; those that write return the bytes they write (with a null
    pointer the C functions return the number of these bytes only).  The
    machine is little endian, as that of the Windows port. *)

From S2P Require Import Prelude Decimal Util.

Definition ZIP_END : Z := 255.
Definition ZIP_BIGLEN : Z := 254.
Definition ZIP_STR_MASK : Z := 0xc0.
Definition ZIP_STR_06B : Z := Z.shiftl 0 6.
Definition ZIP_STR_14B : Z := Z.shiftl 1 6.
Definition ZIP_STR_32B : Z := Z.shiftl 2 6.
Definition ZIP_INT_16B : Z := Z.lor 0xc0 (Z.shiftl 0 4).
Definition ZIP_INT_32B : Z := Z.lor 0xc0 (Z.shiftl 1 4).
Definition ZIP_INT_64B : Z := Z.lor 0xc0 (Z.shiftl 2 4).
Definition ZIP_INT_24B : Z := Z.lor 0xc0 (Z.shiftl 3 4).
Definition ZIP_INT_8B : Z := 0xfe.
Definition ZIP_INT_IMM_MASK : Z := 0x0f.
Definition ZIP_INT_IMM_MIN : Z := 0xf1.
Definition ZIP_INT_IMM_MAX : Z := 0xfd.
Definition INT24_MAX : Z := 0x7fffff.
Definition INT24_MIN : Z := - INT24_MAX - 1.

Definition ZIP_IS_STR (enc : Z) : bool := Z.land enc ZIP_STR_MASK <? ZIP_STR_MASK.

Definition zipIntSize (encoding : Z) : Z :=
  if encoding =? ZIP_INT_8B then 1
  else if encoding =? ZIP_INT_16B then 2
  else if encoding =? ZIP_INT_24B then 3
  else if encoding =? ZIP_INT_32B then 4
  else if encoding =? ZIP_INT_64B then 8
  else 0.

Definition ZIP_ENTRY_ENCODING (m : list Z) (p : Z) : option Z :=
  encoding ← get m p;
  Some (if encoding <? ZIP_STR_MASK then Z.land encoding ZIP_STR_MASK else encoding).

(** The bytes of the header for a payload of [rawlen] bytes. *)
Definition zipEncodeLength (encoding rawlen : Z) : list Z :=
  if ZIP_IS_STR encoding then
    if rawlen <=? 0x3f then [u8 (Z.lor ZIP_STR_06B rawlen)]
    else if rawlen <=? 0x3fff then
      [u8 (Z.lor ZIP_STR_14B (Z.land (Z.shiftr rawlen 8) 0x3f)); Z.land rawlen 0xff]
    else [ZIP_STR_32B; Z.land (Z.shiftr rawlen 24) 0xff; Z.land (Z.shiftr rawlen 16) 0xff;
          Z.land (Z.shiftr rawlen 8) 0xff; Z.land rawlen 0xff]
  else [encoding].

(** The encoding, the size of the header and that of the payload. *)
Definition ZIP_DECODE_LENGTH (m : list Z) (p : Z) : option (Z * Z * Z) :=
  encoding ← ZIP_ENTRY_ENCODING m p;
  if encoding <? ZIP_STR_MASK then
    if encoding =? ZIP_STR_06B then
      b0 ← get m p; Some (encoding, 1, Z.land b0 0x3f)
    else if encoding =? ZIP_STR_14B then
      b0 ← get m p; b1 ← get m (p + 1);
      Some (encoding, 2, Z.lor (Z.shiftl (Z.land b0 0x3f) 8) b1)
    else if encoding =? ZIP_STR_32B then
      b1 ← get m (p + 1); b2 ← get m (p + 2); b3 ← get m (p + 3); b4 ← get m (p + 4);
      Some (encoding, 5, u32 (Z.lor (Z.lor (Z.lor (Z.shiftl b1 24) (Z.shiftl b2 16))
                                           (Z.shiftl b3 8)) b4))
    else None
  else Some (encoding, 1, zipIntSize encoding).

Definition zipPrevEncodeLength (len : Z) : list Z :=
  if len <? ZIP_BIGLEN then [len] else ZIP_BIGLEN :: le_bytes 4 len.

Definition zipPrevEncodeLengthForceLarge (len : Z) : list Z := ZIP_BIGLEN :: le_bytes 4 len.

Definition ZIP_DECODE_PREVLENSIZE (m : list Z) (p : Z) : option Z :=
  b ← get m p; Some (if b <? ZIP_BIGLEN then 1 else 5).

Definition ZIP_DECODE_PREVLEN (m : list Z) (p : Z) : option (Z * Z) :=
  prevlensize ← ZIP_DECODE_PREVLENSIZE m p;
  if prevlensize =? 1 then b ← get m p; Some (prevlensize, b)
  else bs ← mread m (p + 1) 4; Some (prevlensize, le_val bs).

Definition zipPrevLenByteDiff (m : list Z) (p len : Z) : option Z :=
  prevlensize ← ZIP_DECODE_PREVLENSIZE m p;
  Some (s32 (zlen (zipPrevEncodeLength len) - prevlensize)).

Definition zipRawEntryLength (m : list Z) (p : Z) : option Z :=
  prevlensize ← ZIP_DECODE_PREVLENSIZE m p;
  '(_, lensize, len) ← ZIP_DECODE_LENGTH m (p + prevlensize);
  Some (u32 (prevlensize + lensize + len)).

(** The smallest encoding that holds the value. *)
Definition int_encoding (value : Z) : Z :=
  if (0 <=? value) && (value <=? 12) then u8 (ZIP_INT_IMM_MIN + value)
  else if (- 2 ^ 7 <=? value) && (value <=? 2 ^ 7 - 1) then ZIP_INT_8B
  else if (- 2 ^ 15 <=? value) && (value <=? 2 ^ 15 - 1) then ZIP_INT_16B
  else if (INT24_MIN <=? value) && (value <=? INT24_MAX) then ZIP_INT_24B
  else if (- 2 ^ 31 <=? value) && (value <=? 2 ^ 31 - 1) then ZIP_INT_32B
  else ZIP_INT_64B.

Definition zipTryEncoding (entry : list Z) : option (Z * Z) :=
  if (zlen entry >=? 32) || (zlen entry =? 0) then None
  else value ← string2ll entry; Some (value, int_encoding value).

(** The bytes stored at [p]. *)
Definition zipSaveInteger (value encoding : Z) : option (list Z) :=
  if encoding =? ZIP_INT_8B then Some (le_bytes 1 (s8 value))
  else if encoding =? ZIP_INT_16B then Some (le_bytes 2 (s16 value))
  else if encoding =? ZIP_INT_24B then Some (drop 1 (le_bytes 4 (s32 (s64 (Z.shiftl value 8)))))
  else if encoding =? ZIP_INT_32B then Some (le_bytes 4 (s32 value))
  else if encoding =? ZIP_INT_64B then Some (le_bytes 8 value)
  else if (encoding >=? ZIP_INT_IMM_MIN) && (encoding <=? ZIP_INT_IMM_MAX) then Some []
  else None.

Definition zipLoadInteger (m : list Z) (p encoding : Z) : option Z :=
  if encoding =? ZIP_INT_8B then bs ← mread m p 1; Some (s8 (le_val bs))
  else if encoding =? ZIP_INT_16B then bs ← mread m p 2; Some (s16 (le_val bs))
  else if encoding =? ZIP_INT_32B then bs ← mread m p 4; Some (s32 (le_val bs))
  else if encoding =? ZIP_INT_24B then bs ← mread m p 3; Some (Z.shiftr (s32 (le_val (0 :: bs))) 8)
  else if encoding =? ZIP_INT_64B then bs ← mread m p 8; Some (s64 (le_val bs))
  else if (encoding >=? ZIP_INT_IMM_MIN) && (encoding <=? ZIP_INT_IMM_MAX)
  then Some (Z.land encoding ZIP_INT_IMM_MASK - 1)
  else None.

Record zlentry := ZLEntry {
  prevrawlensize : Z; prevrawlen : Z; lensize : Z; elen : Z; headersize : Z; encoding : Z; ep : Z }.

Definition zipEntry (m : list Z) (p : Z) : option zlentry :=
  '(psize, plen) ← ZIP_DECODE_PREVLEN m p;
  '(enc, lsize, len) ← ZIP_DECODE_LENGTH m (p + psize);
  Some (ZLEntry psize plen lsize len (u32 (psize + lsize)) enc p).

(** ** What an entry is *)

(** The payload: a string, or an integer whose text the string was. *)
Inductive content := CStr (s : list Z) | CInt (v : Z).

#[export] Instance content_eq_dec : EqDecision content.
Proof. solve_decision. Defined.

Definition content_text (c : content) : list Z :=
  match c with CStr s => s | CInt v => dec_of_Z v end.

Definition content_of (s : list Z) : content :=
  match zipTryEncoding s with Some (v, _) => CInt v | None => CStr s end.

Definition content_ok (c : content) : Prop :=
  match c with CStr s => zlen s < 2 ^ 32 | CInt v => in_s 64 v end.

(** The bytes of an integer in its smallest encoding. *)
Definition int_bytes (v : Z) : list Z := le_bytes (Z.to_nat (zipIntSize (int_encoding v))) v.

Definition enc_content (c : content) : list Z :=
  match c with
  | CStr s => zipEncodeLength 0 (zlen s) ++ s
  | CInt v => int_encoding v :: int_bytes v
  end.

(** The header of a payload as it is decoded. *)
Definition content_hdr (c : content) : Z * Z * Z :=
  match c with
  | CStr s => (if zlen s <=? 0x3f then ZIP_STR_06B else if zlen s <=? 0x3fff then ZIP_STR_14B
               else ZIP_STR_32B, zlen (zipEncodeLength 0 (zlen s)), zlen s)
  | CInt v => (int_encoding v, 1, zipIntSize (int_encoding v))
  end.

(** An entry in memory: whether the field of the previous length is a big one,
    the length it holds, the payload. *)
Record phys := Phys { big : bool; stored : Z; payload : content }.

Definition enc_prev (b : bool) (len : Z) : list Z :=
  if b then zipPrevEncodeLengthForceLarge len else [len].

Definition enc_phys (e : phys) : list Z := enc_prev (big e) (stored e) ++ enc_content (payload e).
Definition rawlen (e : phys) : Z := (if big e then 5 else 1) + zlen (enc_content (payload e)).

Definition phys_ok (e : phys) : Prop :=
  0 ≤ stored e < 2 ^ 32 ∧ (big e = false → stored e < ZIP_BIGLEN) ∧ content_ok (payload e).

(** The fields of [zlentry] for it. *)
Definition entry_of (e : phys) (p : Z) : zlentry :=
  let '(enc, lsize, len) := content_hdr (payload e) in
  let psize := if big e then 5 else 1 in
  ZLEntry psize (stored e) lsize len (psize + lsize) enc p.

(** ** Integers *)
Lemma int_cases v :
  in_s 64 v →
  (0 ≤ v ≤ 12 ∧ int_encoding v = 0xf1 + v) ∨
  (in_s 8 v ∧ int_encoding v = ZIP_INT_8B) ∨ (in_s 16 v ∧ int_encoding v = ZIP_INT_16B) ∨
  (in_s 24 v ∧ int_encoding v = ZIP_INT_24B) ∨ (in_s 32 v ∧ int_encoding v = ZIP_INT_32B) ∨
  (in_s 64 v ∧ int_encoding v = ZIP_INT_64B).
Proof.
  intros H. unfold int_encoding, INT24_MIN, INT24_MAX, ZIP_INT_IMM_MIN, in_s in *.
  destruct ((0 <=? v) && (v <=? 12)) eqn:E0.
  { left. split; [lia|]. wrap_lia. }
  right. destruct ((- 2 ^ 7 <=? v) && _) eqn:E1; [left; split; [pow2; lia|done]|].
  right. destruct ((- 2 ^ 15 <=? v) && _) eqn:E2; [left; split; [pow2; lia|done]|].
  right. destruct ((_ <=? v) && (v <=? 0x7fffff)) eqn:E3; [left; split; [pow2; lia|done]|].
  right. destruct ((- 2 ^ 31 <=? v) && _) eqn:E4; [left; split; [pow2; lia|done]|].
  right. split; [lia|done].
Qed.

Lemma imm_size v : 0 ≤ v ≤ 12 → zipIntSize (0xf1 + v) = 0.
Proof.
  intros H. assert (v ∈ seqZ 0 13) as Hv by (apply elem_of_seqZ; lia).
  repeat (apply elem_of_cons in Hv as [->|Hv]; [done|]). by apply not_elem_of_nil in Hv.
Qed.

Lemma imm_save v w : 0 ≤ v ≤ 12 → zipSaveInteger w (0xf1 + v) = Some [].
Proof.
  intros H. assert (v ∈ seqZ 0 13) as Hv by (apply elem_of_seqZ; lia).
  repeat (apply elem_of_cons in Hv as [->|Hv]; [done|]). by apply not_elem_of_nil in Hv.
Qed.

Lemma imm_load m p v : 0 ≤ v ≤ 12 → zipLoadInteger m p (0xf1 + v) = Some v.
Proof.
  intros H. assert (v ∈ seqZ 0 13) as Hv by (apply elem_of_seqZ; lia).
  repeat (apply elem_of_cons in Hv as [->|Hv]; [done|]). by apply not_elem_of_nil in Hv.
Qed.

Lemma le_bytes_shift n z : drop 1 (le_bytes (S n) (z * 256)) = le_bytes n z.
Proof. cbn [le_bytes drop]. rewrite Z.div_mul by done. apply drop_0. Qed.

Lemma le_bytes_s n z : le_bytes n (wraps (8 * Z.of_nat n) z) = le_bytes n z.
Proof.
  destruct n as [|n]; [done|]. rewrite <- (le_bytes_wrapu (S n)), wrapu_wraps by lia. apply le_bytes_wrapu.
Qed.

Lemma save_int v : in_s 64 v → zipSaveInteger v (int_encoding v) = Some (int_bytes v).
Proof.
  intros Hv. unfold int_bytes.
  destruct (int_cases v Hv) as [[H ->]|[[H ->]|[[H ->]|[[H ->]|[[H ->]|[H ->]]]]]].
  - rewrite imm_size, imm_save by done. done.
  - change (Some (le_bytes 1 (s8 v)) = Some (le_bytes 1 v)). f_equal. apply (le_bytes_s 1).
  - change (Some (le_bytes 2 (s16 v)) = Some (le_bytes 2 v)). f_equal. apply (le_bytes_s 2).
  - change (Some (drop 1 (le_bytes 4 (s32 (s64 (Z.shiftl v 8))))) = Some (le_bytes 3 v)). f_equal.
    rewrite <- (le_bytes_shift 3), <- (le_bytes_s 4 (v * 256)). f_equal. f_equal.
    rewrite Z.shiftl_mul_pow2 by lia. unfold s64, s32, in_s in *.
    rewrite (wraps_id 64) by (try done; unfold in_s; pow2; lia). done.
  - change (Some (le_bytes 4 (s32 v)) = Some (le_bytes 4 v)). f_equal. apply (le_bytes_s 4).
  - done.
Qed.

Lemma load_bytes a bs b n : n = zlen bs → mread (a ++ bs ++ b) (zlen a) n = Some bs.
Proof. intros. by apply mread_app. Qed.

Lemma load_int a v b :
  in_s 64 v → zipLoadInteger (a ++ int_bytes v ++ b) (zlen a) (int_encoding v) = Some v.
Proof.
  intros Hv. unfold int_bytes.
  assert (∀ n : nat, (0 < n)%nat → in_s (8 * Z.of_nat n) v → wraps (8 * Z.of_nat n) (le_val (le_bytes n v)) = v)
    as Hw by (intros; apply wraps_le_bytes; [lia|done]).
  destruct (int_cases v Hv) as [[H ->]|[[H ->]|[[H ->]|[[H ->]|[[H ->]|[H ->]]]]]].
  - by rewrite imm_load.
  - unfold zipLoadInteger. cbn [Z.eqb ZIP_INT_8B]. simpl (ZIP_INT_8B =? ZIP_INT_8B). cbv iota.
    rewrite load_bytes by done. cbn [mbind option_bind]. f_equal. by apply (Hw 1%nat); [lia|].
  - unfold zipLoadInteger. simpl (ZIP_INT_16B =? _). cbv iota.
    rewrite load_bytes by done. cbn [mbind option_bind]. f_equal. by apply (Hw 2%nat); [lia|].
  - unfold zipLoadInteger. simpl (ZIP_INT_24B =? _). cbv iota.
    rewrite load_bytes by done. cbn [mbind option_bind]. f_equal.
    change (Z.to_nat (zipIntSize ZIP_INT_24B)) with 3%nat. cbn [le_val]. rewrite le_val_bytes.
    unfold s32, in_s in *. rewrite Z.shiftr_div_pow2 by lia. wrap_lia.
  - unfold zipLoadInteger. simpl (ZIP_INT_32B =? _). cbv iota.
    rewrite load_bytes by done. cbn [mbind option_bind]. f_equal. by apply (Hw 4%nat); [lia|].
  - unfold zipLoadInteger. simpl (ZIP_INT_64B =? _). cbv iota.
    rewrite load_bytes by done. cbn [mbind option_bind]. f_equal. by apply (Hw 8%nat); [lia|].
Qed.

(** ** Headers *)
Lemma int_enc_high v : in_s 64 v → 0xc0 ≤ int_encoding v < 255 ∧ ZIP_IS_STR (int_encoding v) = false.
Proof.
  intros Hv. destruct (int_cases v Hv) as [[H ->]|[[H ->]|[[H ->]|[[H ->]|[[H ->]|[H ->]]]]]]; try done.
  assert (v ∈ seqZ 0 13) as Hi by (apply elem_of_seqZ; lia). clear H Hv.
  repeat (apply elem_of_cons in Hi as [->|Hi]; [done|]). by apply not_elem_of_nil in Hi.
Qed.

Lemma land_3f x : Z.land x 0x3f = x mod 64.
Proof. change 0x3f with (Z.ones 6). by rewrite Z.land_ones. Qed.

(** The two upper bits of a byte. *)
Lemma land_c0 x : 0 ≤ x < 256 → Z.land x 0xc0 = x / 64 * 64.
Proof.
  intros Hx. assert (Z.land x 0xc0 = Z.shiftl (Z.shiftr x 6) 6) as ->.
  { apply Z.bits_inj'. intros i Hi. rewrite Z.land_spec. destruct (Z.lt_ge_cases i 6).
    - rewrite Z.shiftl_spec_low by done. assert (i ∈ seqZ 0 6) as Hin by (apply elem_of_seqZ; lia).
      repeat (apply elem_of_cons in Hin as [->|Hin]; [apply andb_false_r|]). by apply not_elem_of_nil in Hin.
    - rewrite Z.shiftl_spec_high, Z.shiftr_spec by lia. replace (i - 6 + 6) with i by lia.
      destruct (Z.lt_ge_cases i 8).
      + assert (i = 6 ∨ i = 7) as [->| ->] by lia; apply andb_true_r.
      + replace x with (x mod 2 ^ 8) by (apply Z.mod_small; pow2; lia).
        by rewrite Z.mod_pow2_bits_high by lia. }
  rewrite Z.shiftl_mul_pow2, Z.shiftr_div_pow2 by lia. done.
Qed.

Lemma str_hdr_spec n :
  0 ≤ n < 2 ^ 32 →
  zipEncodeLength 0 n =
    if n <=? 0x3f then [n]
    else if n <=? 0x3fff then [64 + n / 256; n mod 256]
    else [128; n / 2 ^ 24; n / 2 ^ 16 mod 256; n / 2 ^ 8 mod 256; n mod 256].
Proof.
  intros Hn. unfold zipEncodeLength. change (ZIP_IS_STR 0) with true. cbv iota.
  rewrite !land_byte, !Z.shiftr_div_pow2 by lia.
  destruct (Z.leb_spec n 0x3f) as [H|H].
  { change (Z.lor ZIP_STR_06B n) with n. f_equal. wrap_lia. }
  destruct (Z.leb_spec n 0x3fff) as [H2|H2].
  - rewrite land_3f. change ZIP_STR_14B with (Z.shiftl 1 6). rewrite Z.lor_comm.
    rewrite lor_shift by (pow2; Z.div_mod_to_equations; lia). f_equal. wrap_lia.
  - change ZIP_STR_32B with 128. f_equal. f_equal. pow2. Z.div_mod_to_equations. lia.
Qed.

Lemma lor_join x y k : 0 ≤ k → 0 ≤ y < 2 ^ k → Z.lor (Z.shiftl x k) y = x * 2 ^ k + y.
Proof. intros. rewrite Z.lor_comm, lor_shift by done. lia. Qed.

Lemma join4 a b c d :
  0 ≤ a < 256 → 0 ≤ b < 256 → 0 ≤ c < 256 → 0 ≤ d < 256 →
  u32 (Z.lor (Z.lor (Z.lor (Z.shiftl a 24) (Z.shiftl b 16)) (Z.shiftl c 8)) d) =
  a * 2 ^ 24 + b * 2 ^ 16 + c * 2 ^ 8 + d.
Proof.
  intros. rewrite (lor_join a (Z.shiftl b 16) 24), (Z.shiftl_mul_pow2 b) by (rewrite ?Z.shiftl_mul_pow2; pow2; lia).
  replace (a * 2 ^ 24 + b * 2 ^ 16) with (Z.shiftl (a * 2 ^ 8 + b) 16)
    by (rewrite Z.shiftl_mul_pow2 by lia; pow2; lia).
  rewrite (lor_join _ (Z.shiftl c 8) 16), (Z.shiftl_mul_pow2 c) by (rewrite ?Z.shiftl_mul_pow2; pow2; lia).
  replace ((a * 2 ^ 8 + b) * 2 ^ 16 + c * 2 ^ 8) with (Z.shiftl ((a * 2 ^ 8 + b) * 2 ^ 8 + c) 8)
    by (rewrite Z.shiftl_mul_pow2 by lia; pow2; lia).
  rewrite lor_join by (pow2; lia). rewrite !Z.shiftl_mul_pow2 by lia. wrap_lia.
Qed.

Lemma get_in_mid a l b i x :
  0 ≤ i → l !! Z.to_nat i = Some x → get (a ++ l ++ b) (zlen a + i) = Some x.
Proof.
  intros Hi H. rewrite get_nth by lia. pose proof (lookup_lt_Some _ _ _ H).
  rewrite lookup_app_r by lia. rewrite lookup_app_l by lia. rewrite <- H. f_equal. lia.
Qed.

Lemma decode_content a c b :
  content_ok c → ZIP_DECODE_LENGTH (a ++ enc_content c ++ b) (zlen a) = Some (content_hdr c).
Proof.
  intros Hc. unfold ZIP_DECODE_LENGTH, ZIP_ENTRY_ENCODING, content_hdr. destruct c as [s|v]; simpl in Hc.
  - assert (0 ≤ zlen s) as Hpos by lia. cbn [enc_content]. rewrite <- app_assoc, str_hdr_spec by lia.
    remember (s ++ b) as rest. clear Heqrest.
    assert (∀ h i x, 0 ≤ i → h !! Z.to_nat i = Some x → get (a ++ h ++ rest) (zlen a + i) = Some x) as G.
    { intros. by apply get_in_mid. }
    destruct (Z.leb_spec (zlen s) 0x3f) as [H1|H1]; [|destruct (Z.leb_spec (zlen s) 0x3fff) as [H2|H2]].
    + pose proof (G [zlen s] 0 _ ltac:(lia) eq_refl) as G0. rewrite Z.add_0_r in G0. rewrite G0. cbn [mbind option_bind].
      rewrite (proj2 (Z.ltb_lt (zlen s) ZIP_STR_MASK)) by (unfold ZIP_STR_MASK; lia).
      assert (Z.land (zlen s) ZIP_STR_MASK = 0) as ->.
      { unfold ZIP_STR_MASK. rewrite land_c0, Z.div_small by lia. done. }
      simpl (0 <? ZIP_STR_MASK). simpl (0 =? ZIP_STR_06B). cbv iota. rewrite land_3f, Z.mod_small by lia. done.
    + set (h := [64 + zlen s / 256; zlen s mod 256]).
      assert (0 ≤ zlen s / 256 < 64) as Hq by (Z.div_mod_to_equations; lia).
      pose proof (G h 0 _ ltac:(lia) eq_refl) as G0. rewrite Z.add_0_r in G0. rewrite G0. cbn [mbind option_bind].
      rewrite (proj2 (Z.ltb_lt (64 + zlen s / 256) ZIP_STR_MASK)) by (unfold ZIP_STR_MASK; lia).
      assert (Z.land (64 + zlen s / 256) ZIP_STR_MASK = 64) as ->.
      { unfold ZIP_STR_MASK. rewrite land_c0 by lia. Z.div_mod_to_equations. lia. }
      simpl (64 <? ZIP_STR_MASK). simpl (64 =? _). cbv iota. rewrite (G h 1 _ ltac:(lia) eq_refl). cbn [mbind option_bind].
      rewrite land_3f, lor_join by (pow2; Z.div_mod_to_equations; lia).
      replace (_ * 2 ^ 8 + _) with (zlen s) by (pow2; Z.div_mod_to_equations; lia). done.
    + set (h := [128; zlen s / 2 ^ 24; zlen s / 2 ^ 16 mod 256; zlen s / 2 ^ 8 mod 256; zlen s mod 256]).
      pose proof (G h 0 _ ltac:(lia) eq_refl) as G0. rewrite Z.add_0_r in G0. rewrite G0. cbn [mbind option_bind].
      simpl (128 <? ZIP_STR_MASK). cbv iota. change (Z.land 128 ZIP_STR_MASK) with 128.
      simpl (128 <? ZIP_STR_MASK). simpl (128 =? _). cbv iota.
      rewrite (G h 1 _ ltac:(lia) eq_refl), (G h 2 _ ltac:(lia) eq_refl), (G h 3 _ ltac:(lia) eq_refl), (G h 4 _ ltac:(lia) eq_refl).
      cbn [mbind option_bind]. rewrite join4 by (pow2; Z.div_mod_to_equations; lia).
      replace (_ * 2 ^ 24 + _ + _ + _) with (zlen s) by (pow2; Z.div_mod_to_equations; lia). done.
  - destruct (int_enc_high v Hc) as [H _]. cbn [enc_content app].
    rewrite (get_app a (int_encoding v) (int_bytes v ++ b)) by done. cbn [mbind option_bind].
    rewrite (proj2 (Z.ltb_ge (int_encoding v) ZIP_STR_MASK)) by (unfold ZIP_STR_MASK; lia).
    rewrite (proj2 (Z.ltb_ge (int_encoding v) ZIP_STR_MASK)) by (unfold ZIP_STR_MASK; lia). done.
Qed.

Lemma int_size_nonneg e : 0 ≤ zipIntSize e ≤ 8.
Proof. unfold zipIntSize. repeat case_match; lia. Qed.

Lemma length_int_bytes v : zlen (int_bytes v) = zipIntSize (int_encoding v).
Proof. unfold int_bytes. rewrite length_le_bytes. pose proof (int_size_nonneg (int_encoding v)). lia. Qed.

Lemma length_str_hdr n : 1 ≤ zlen (zipEncodeLength 0 n) ≤ 5.
Proof.
  unfold zipEncodeLength. change (ZIP_IS_STR 0) with true. cbv iota. repeat case_match; simpl; lia.
Qed.

Lemma hdr_len c :
  let '(_, lsize, len) := content_hdr c in
  1 ≤ lsize ≤ 5 ∧ 0 ≤ len ∧ lsize + len = zlen (enc_content c).
Proof.
  destruct c as [s|v]; cbn [content_hdr enc_content].
  - pose proof (length_str_hdr (zlen s)). rewrite length_app. lia.
  - pose proof (int_size_nonneg (int_encoding v)). rewrite length_cons, Nat2Z.inj_succ, length_int_bytes. lia.
Qed.

Lemma hdr_is_str c :
  content_ok c → ZIP_IS_STR (content_hdr c).1.1 = match c with CStr _ => true | CInt _ => false end.
Proof.
  destruct c as [s|v]; cbn [content_hdr fst]; intros H; [by repeat case_match|].
  by apply int_enc_high.
Qed.

Lemma content_len_pos c : 1 ≤ zlen (enc_content c).
Proof. pose proof (hdr_len c). destruct (content_hdr c) as [[enc lsize] len]. lia. Qed.

Lemma length_enc_prev b len : zlen (enc_prev b len) = if b then 5 else 1.
Proof. unfold enc_prev, zipPrevEncodeLengthForceLarge. destruct b; [|done]. rewrite length_cons, length_le_bytes. lia. Qed.

Lemma length_enc_phys e : zlen (enc_phys e) = rawlen e.
Proof. unfold enc_phys, rawlen. rewrite length_app, Nat2Z.inj_add, length_enc_prev. lia. Qed.

Lemma rawlen_pos e : 2 ≤ rawlen e.
Proof. unfold rawlen. pose proof (content_len_pos (payload e)). destruct (big e); lia. Qed.

(** The first byte of an entry is never the end marker. *)
Lemma enc_phys_head e :
  phys_ok e → ∃ x l, enc_phys e = x :: l ∧ 0 ≤ x ≤ 254 ∧ (x <? ZIP_BIGLEN) = negb (big e).
Proof.
  intros (H0 & Hb & _). unfold enc_phys, enc_prev, zipPrevEncodeLengthForceLarge.
  destruct (big e); cbn [app].
  - by exists 254, (le_bytes 4 (stored e) ++ enc_content (payload e)).
  - specialize (Hb eq_refl). unfold ZIP_BIGLEN in *.
    exists (stored e), (enc_content (payload e)). split; [done|]. split; [lia|]. by apply Z.ltb_lt.
Qed.

Lemma decode_prevsize a e b :
  phys_ok e → ZIP_DECODE_PREVLENSIZE (a ++ enc_phys e ++ b) (zlen a) = Some (if big e then 5 else 1).
Proof.
  intros H. destruct (enc_phys_head e H) as (x & l & -> & _ & E). unfold ZIP_DECODE_PREVLENSIZE.
  rewrite (get_app a x (l ++ b)) by done. cbn [mbind option_bind]. rewrite E. by destruct (big e).
Qed.

Lemma decode_prev a e b :
  phys_ok e → ZIP_DECODE_PREVLEN (a ++ enc_phys e ++ b) (zlen a) = Some (if big e then 5 else 1, stored e).
Proof.
  intros H. unfold ZIP_DECODE_PREVLEN. rewrite decode_prevsize by done. cbn [mbind option_bind].
  destruct H as (H0 & Hb & _). unfold enc_phys, enc_prev, zipPrevEncodeLengthForceLarge. destruct (big e); cbn [app].
  - simpl (5 =? 1). cbv iota.
    replace (a ++ ZIP_BIGLEN :: (le_bytes 4 (stored e) ++ enc_content (payload e)) ++ b)
      with ((a ++ [ZIP_BIGLEN]) ++ le_bytes 4 (stored e) ++ (enc_content (payload e) ++ b))
      by (rewrite <- !app_assoc; done).
    rewrite (mread_app (a ++ [ZIP_BIGLEN])); [|rewrite length_app; simpl; lia|by rewrite length_le_bytes].
    cbn [mbind option_bind]. rewrite le_val_bytes, wrapu_id; [done|]. unfold in_u. simpl in *. lia.
  - simpl (1 =? 1). cbv iota. rewrite get_app by done. done.
Qed.

(** The decoder finds what was encoded: the payload starts behind the field. *)
Lemma decode_payload a e b :
  phys_ok e →
  ZIP_DECODE_LENGTH (a ++ enc_phys e ++ b) (zlen a + (if big e then 5 else 1)) = Some (content_hdr (payload e)).
Proof.
  intros (_ & _ & H). unfold enc_phys. rewrite <- app_assoc, app_assoc.
  replace (zlen a + _) with (zlen (a ++ enc_prev (big e) (stored e)))
    by (rewrite length_app, Nat2Z.inj_add, length_enc_prev; done).
  by apply decode_content.
Qed.

Lemma zipEntry_spec a e b :
  phys_ok e → zipEntry (a ++ enc_phys e ++ b) (zlen a) = Some (entry_of e (zlen a)).
Proof.
  intros H. unfold zipEntry. rewrite decode_prev by done. cbn [mbind option_bind].
  rewrite decode_payload by done. cbn [mbind option_bind]. unfold entry_of.
  pose proof (hdr_len (payload e)) as Hl. destruct (content_hdr (payload e)) as [[enc lsize] len].
  do 2 f_equal. apply wrapu_id. unfold in_u. destruct (big e); pow2; lia.
Qed.

Lemma raw_length_spec a e b :
  phys_ok e → rawlen e < 2 ^ 32 → zipRawEntryLength (a ++ enc_phys e ++ b) (zlen a) = Some (rawlen e).
Proof.
  intros H Hr. unfold zipRawEntryLength. rewrite decode_prevsize by done. cbn [mbind option_bind].
  rewrite decode_payload by done. cbn [mbind option_bind].
  pose proof (hdr_len (payload e)) as Hl. destruct (content_hdr (payload e)) as [[enc lsize] len].
  pose proof (rawlen_pos e). f_equal. transitivity (u32 (rawlen e)); [|apply wrapu_id; unfold in_u; lia].
  f_equal. unfold rawlen. lia.
Qed.

(** The size of an entry from its decoded fields. *)
Lemma entry_size e p : headersize (entry_of e p) + elen (entry_of e p) = rawlen e.
Proof.
  unfold entry_of, rawlen. pose proof (hdr_len (payload e)) as Hl.
  destruct (content_hdr (payload e)) as [[enc lsize] len]. simpl. lia.
Qed.

(** The smallest field for a length. *)
Definition needs_big (len : Z) : bool := negb (len <? ZIP_BIGLEN).

Lemma prev_encode len : zipPrevEncodeLength len = enc_prev (needs_big len) len.
Proof. unfold zipPrevEncodeLength, enc_prev, needs_big, zipPrevEncodeLengthForceLarge. by destruct (_ <? _). Qed.

Lemma prev_encode_size len : zlen (zipPrevEncodeLength len) = if needs_big len then 5 else 1.
Proof. rewrite prev_encode. apply length_enc_prev. Qed.

Lemma byte_diff_spec a e b len :
  phys_ok e →
  zipPrevLenByteDiff (a ++ enc_phys e ++ b) (zlen a) len =
    Some ((if needs_big len then 5 else 1) - (if big e then 5 else 1)).
Proof.
  intros H. unfold zipPrevLenByteDiff. rewrite decode_prevsize by done. cbn [mbind option_bind].
  rewrite prev_encode_size. by destruct (needs_big len), (big e).
Qed.

(** ** Strings as entries *)
Lemma content_of_text s : content_text (content_of s) = s.
Proof.
  unfold content_of, zipTryEncoding. destruct (_ || _); [done|].
  destruct (string2ll s) as [v|] eqn:E; [|done]. cbn. by apply string2ll_sound in E as [_ ->].
Qed.

Lemma content_of_ok s : zlen s < 2 ^ 32 → content_ok (content_of s).
Proof.
  intros H. unfold content_of, zipTryEncoding. destruct (_ || _); [done|].
  destruct (string2ll s) as [v|] eqn:E; [|done]. cbn. by apply string2ll_sound in E as [? _].
Qed.

Lemma try_encoding_spec s :
  zipTryEncoding s = match content_of s with CInt v => Some (v, int_encoding v) | CStr _ => None end.
Proof.
  unfold content_of, zipTryEncoding. destruct (_ || _); [done|]. by destruct (string2ll s).
Qed.
