(* ===== verification/Ziplist.v ===== *)
(** * Ziplists ([redis-3.2/src/ziplist.c])

    A list of strings and integers in one block of memory: the size of the
    block, the offset of the last entry and the number of entries, then the
    entries, each of which starts with the size of the one before it, then a
    byte 255.  The block is a list of bytes and a pointer into it is an offset;
    [None] is a read or write outside the block or a failed assertion, so an
    operation that is shown to return [Some] stays inside its block. *)

From S2P Require Import Prelude Decimal Util Zipenc.

Definition ZIPLIST_HEADER_SIZE : Z := 10.
Definition ZIPLIST_END_SIZE : Z := 1.
Definition UINT16_MAX : Z := 65535.

Definition ZIPLIST_BYTES (zl : list Z) : option Z := le_val <$> mread zl 0 4.
Definition ZIPLIST_TAIL_OFFSET (zl : list Z) : option Z := le_val <$> mread zl 4 4.
Definition ZIPLIST_LENGTH (zl : list Z) : option Z := le_val <$> mread zl 8 2.
Definition set_bytes (zl : list Z) (v : Z) : option (list Z) := mwrite zl 0 (le_bytes 4 v).
Definition set_tail (zl : list Z) (v : Z) : option (list Z) := mwrite zl 4 (le_bytes 4 v).
Definition set_length (zl : list Z) (v : Z) : option (list Z) := mwrite zl 8 (le_bytes 2 v).

Definition ZIPLIST_INCR_LENGTH (zl : list Z) (incr : Z) : option (list Z) :=
  len ← ZIPLIST_LENGTH zl;
  if len <? UINT16_MAX then set_length zl (u16 (len + incr)) else Some zl.

Section ziplist.
(** The contents of memory that was just allocated. *)
Context (junk : nat → Z).

Definition ziplistNew : option (list Z) :=
  let bytes := ZIPLIST_HEADER_SIZE + 1 in
  let zl := zrealloc junk [] bytes in
  zl ← set_bytes zl bytes;
  zl ← set_tail zl ZIPLIST_HEADER_SIZE;
  zl ← set_length zl 0;
  mwrite zl (bytes - 1) [ZIP_END].

Definition ziplistResize (zl : list Z) (len : Z) : option (list Z) :=
  let zl := zrealloc junk zl len in
  zl ← set_bytes zl len;
  mwrite zl (len - 1) [ZIP_END].

(** Each round moves [p] to the next entry. *)
Fixpoint cascade_loop (fuel : nat) (zl : list Z) (p curlen : Z) : option (list Z) :=
  match fuel with
  | O => None
  | S fuel =>
      b ← get zl p;
      if b =? ZIP_END then Some zl else
      cur ← zipEntry zl p;
      let rawlen := u32 (headersize cur + elen cur) in
      let rawlensize := zlen (zipPrevEncodeLength rawlen) in
      b ← get zl (p + rawlen);
      if b =? ZIP_END then Some zl else
      next ← zipEntry zl (p + rawlen);
      if prevrawlen next =? rawlen then Some zl else
      if prevrawlensize next <? rawlensize then
        let extra := rawlensize - prevrawlensize next in
        zl ← ziplistResize zl (u32 (curlen + extra));
        let np := p + rawlen in
        tail ← ZIPLIST_TAIL_OFFSET zl;
        zl ← (if tail =? np then Some zl else set_tail zl (u32 (tail + extra)));
        zl ← memmove zl (np + rawlensize) (np + prevrawlensize next)
               (curlen - np - prevrawlensize next - 1);
        zl ← mwrite zl np (zipPrevEncodeLength rawlen);
        cascade_loop fuel zl (p + rawlen) (curlen + extra)
      else if prevrawlensize next >? rawlensize
      then mwrite zl (p + rawlen) (zipPrevEncodeLengthForceLarge rawlen)
      else mwrite zl (p + rawlen) (zipPrevEncodeLength rawlen)
  end.

Definition __ziplistCascadeUpdate (zl : list Z) (p : Z) : option (list Z) :=
  curlen ← ZIPLIST_BYTES zl;
  cascade_loop (S (length zl)) zl p curlen.

(** The loop that skips the entries to delete. *)
Fixpoint delete_scan (fuel : nat) (zl : list Z) (p num deleted : Z) : option (Z * Z) :=
  match fuel with
  | O => None
  | S fuel =>
      b ← get zl p;
      if negb (b =? ZIP_END) && (deleted <? num) then
        n ← zipRawEntryLength zl p;
        delete_scan fuel zl (p + n) num (deleted + 1)
      else Some (p, deleted)
  end.

Definition __ziplistDelete (zl : list Z) (p num : Z) : option (list Z) :=
  first ← zipEntry zl p;
  '(q, deleted) ← delete_scan (S (length zl)) zl p num 0;
  let totlen := u32 (q - p) in
  if totlen >? 0 then
    b ← get zl q;
    '(zl, nextdiff) ←
      (if negb (b =? ZIP_END) then
         nextdiff ← zipPrevLenByteDiff zl q (prevrawlen first);
         let q := q - nextdiff in
         zl ← mwrite zl q (zipPrevEncodeLength (prevrawlen first));
         tail ← ZIPLIST_TAIL_OFFSET zl;
         zl ← set_tail zl (u32 (tail - totlen));
         te ← zipEntry zl q;
         b ← get zl (q + u32 (headersize te + elen te));
         zl ← (if negb (b =? ZIP_END) then
                 tail ← ZIPLIST_TAIL_OFFSET zl; set_tail zl (u32 (tail + nextdiff))
               else Some zl);
         bytes ← ZIPLIST_BYTES zl;
         zl ← memmove zl p q (bytes - q - 1);
         Some (zl, nextdiff)
       else
         zl ← set_tail zl (u32 (p - prevrawlen first));
         Some (zl, 0));
    bytes ← ZIPLIST_BYTES zl;
    zl ← ziplistResize zl (u32 (bytes - totlen + nextdiff));
    zl ← ZIPLIST_INCR_LENGTH zl (- deleted);
    if negb (nextdiff =? 0) then __ziplistCascadeUpdate zl p else Some zl
  else Some zl.

(** The length of the previous entry for an entry inserted at [p]. *)
Definition insert_prevlen (zl : list Z) (p : Z) : option Z :=
  b ← get zl p;
  if negb (b =? ZIP_END) then '(_, prevlen) ← ZIP_DECODE_PREVLEN zl p; Some prevlen
  else
    ptail ← ZIPLIST_TAIL_OFFSET zl;
    b ← get zl ptail;
    if negb (b =? ZIP_END) then zipRawEntryLength zl ptail else Some 0.

Definition __ziplistInsert (zl : list Z) (p : Z) (s : list Z) : option (list Z) :=
  curlen ← ZIPLIST_BYTES zl;
  prevlen ← insert_prevlen zl p;
  let '(value, encoding, reqlen) :=
    match zipTryEncoding s with
    | Some (value, encoding) => (value, encoding, zipIntSize encoding)
    | None => (123456789, 0, zlen s)
    end in
  let reqlen := reqlen + zlen (zipPrevEncodeLength prevlen) in
  let reqlen := reqlen + zlen (zipEncodeLength encoding (zlen s)) in
  b ← get zl p;
  nextdiff ← (if negb (b =? ZIP_END) then zipPrevLenByteDiff zl p (u32 reqlen) else Some 0);
  zl ← ziplistResize zl (u32 (curlen + reqlen + nextdiff));
  b ← get zl p;
  zl ← (if negb (b =? ZIP_END) then
          zl ← memmove zl (p + reqlen) (p - nextdiff) (curlen - p - 1 + nextdiff);
          zl ← mwrite zl (p + reqlen) (zipPrevEncodeLength (u32 reqlen));
          tail ← ZIPLIST_TAIL_OFFSET zl;
          zl ← set_tail zl (u32 (tail + reqlen));
          te ← zipEntry zl (p + reqlen);
          b ← get zl (p + reqlen + headersize te + elen te);
          if negb (b =? ZIP_END) then
            tail ← ZIPLIST_TAIL_OFFSET zl; set_tail zl (u32 (tail + nextdiff))
          else Some zl
        else set_tail zl (u32 p));
  zl ← (if negb (nextdiff =? 0) then __ziplistCascadeUpdate zl (p + reqlen) else Some zl);
  zl ← mwrite zl p (zipPrevEncodeLength prevlen);
  let p := p + zlen (zipPrevEncodeLength prevlen) in
  zl ← mwrite zl p (zipEncodeLength encoding (zlen s));
  let p := p + zlen (zipEncodeLength encoding (zlen s)) in
  zl ← (if ZIP_IS_STR encoding then mwrite zl p s
        else bs ← zipSaveInteger value encoding; mwrite zl p bs);
  ZIPLIST_INCR_LENGTH zl 1.

(** [same] is [*first == *second].  The result says whether the block of
    [first] was kept ([append]) or that of [second]; the other is freed. *)
Definition ziplistMerge (same : bool) (first second : option (list Z)) :
    option (option (bool * list Z)) :=
  match first, second with
  | Some first, Some second =>
      if same then Some None else
      first_bytes ← ZIPLIST_BYTES first;
      first_len ← ZIPLIST_LENGTH first;
      second_bytes ← ZIPLIST_BYTES second;
      second_len ← ZIPLIST_LENGTH second;
      let append := first_len >=? second_len in
      let '(target, target_bytes, source, source_bytes) :=
        if append then (first, first_bytes, second, second_bytes)
        else (second, second_bytes, first, first_bytes) in
      let zlbytes := first_bytes + second_bytes - ZIPLIST_HEADER_SIZE - ZIPLIST_END_SIZE in
      let zllength := first_len + second_len in
      let zllength := if zllength <? UINT16_MAX then zllength else UINT16_MAX in
      first_offset ← ZIPLIST_TAIL_OFFSET first;
      second_offset ← ZIPLIST_TAIL_OFFSET second;
      let target := zrealloc junk target zlbytes in
      target ←
        (if append then
           bs ← mread source ZIPLIST_HEADER_SIZE (source_bytes - ZIPLIST_HEADER_SIZE);
           mwrite target (target_bytes - ZIPLIST_END_SIZE) bs
         else
           target ← memmove target (source_bytes - ZIPLIST_END_SIZE) ZIPLIST_HEADER_SIZE
                      (target_bytes - ZIPLIST_HEADER_SIZE);
           bs ← mread source 0 (source_bytes - ZIPLIST_END_SIZE);
           mwrite target 0 bs);
      target ← set_bytes target (u32 zlbytes);
      target ← set_length target (u16 zllength);
      target ← set_tail target
        (u32 ((first_bytes - ZIPLIST_END_SIZE) + (second_offset - ZIPLIST_HEADER_SIZE)));
      target ← __ziplistCascadeUpdate target first_offset;
      Some (Some (append, target))
  | _, _ => Some None
  end.

Inductive where_ := ZIPLIST_HEAD | ZIPLIST_TAIL.

Definition ziplistPush (zl s : list Z) (w : where_) : option (list Z) :=
  p ← match w with
      | ZIPLIST_HEAD => Some ZIPLIST_HEADER_SIZE
      | ZIPLIST_TAIL => bytes ← ZIPLIST_BYTES zl; Some (bytes - 1)
      end;
  __ziplistInsert zl p s.

Definition ziplistInsert (zl : list Z) (p : Z) (s : list Z) : option (list Z) := __ziplistInsert zl p s.

(** The pointer stays at its offset. *)
Definition ziplistDelete (zl : list Z) (p : Z) : option (list Z * Z) :=
  zl ← __ziplistDelete zl p 1; Some (zl, p).
End ziplist.

(** ** Reading *)

(** [while (prevlen > 0 && index--)], from the tail. *)
Fixpoint index_back (fuel : nat) (zl : list Z) (p prevlen index : Z) : option (Z * Z) :=
  match fuel with
  | O => None
  | S fuel =>
      if prevlen >? 0 then
        if index =? 0 then Some (p, s32 (index - 1)) else
        let p := p - prevlen in
        '(_, prevlen) ← ZIP_DECODE_PREVLEN zl p;
        index_back fuel zl p prevlen (s32 (index - 1))
      else Some (p, index)
  end.

(** [while (p[0] != ZIP_END && index--)], from the head. *)
Fixpoint index_forth (fuel : nat) (zl : list Z) (p index : Z) : option (Z * Z) :=
  match fuel with
  | O => None
  | S fuel =>
      b ← get zl p;
      if negb (b =? ZIP_END) then
        if index =? 0 then Some (p, s32 (index - 1)) else
        n ← zipRawEntryLength zl p;
        index_forth fuel zl (p + n) (s32 (index - 1))
      else Some (p, index)
  end.

Definition ziplistIndex (zl : list Z) (index : Z) : option (option Z) :=
  '(p, index) ←
    (if index <? 0 then
       let index := s32 (s32 (- index) - 1) in
       p ← ZIPLIST_TAIL_OFFSET zl;
       b ← get zl p;
       if negb (b =? ZIP_END) then
         '(_, prevlen) ← ZIP_DECODE_PREVLEN zl p;
         index_back (S (length zl)) zl p prevlen index
       else Some (p, index)
     else index_forth (S (length zl)) zl ZIPLIST_HEADER_SIZE index);
  b ← get zl p;
  Some (if (b =? ZIP_END) || (index >? 0) then None else Some p).

Definition ziplistNext (zl : list Z) (p : Z) : option (option Z) :=
  b ← get zl p;
  if b =? ZIP_END then Some None else
  n ← zipRawEntryLength zl p;
  b ← get zl (p + n);
  Some (if b =? ZIP_END then None else Some (p + n)).

Definition ziplistPrev (zl : list Z) (p : Z) : option (option Z) :=
  b ← get zl p;
  if b =? ZIP_END then
    p ← ZIPLIST_TAIL_OFFSET zl;
    b ← get zl p;
    Some (if b =? ZIP_END then None else Some p)
  else if p =? ZIPLIST_HEADER_SIZE then Some None
  else
    '(_, prevlen) ← ZIP_DECODE_PREVLEN zl p;
    if prevlen >? 0 then Some (Some (p - prevlen)) else None.

(** The string (by its bytes) or the number, if there is an entry. *)
Definition ziplistGet (zl : list Z) (p : option Z) : option (option content) :=
  match p with
  | None => Some None
  | Some p =>
      b ← get zl p;
      if b =? ZIP_END then Some None else
      entry ← zipEntry zl p;
      if ZIP_IS_STR (encoding entry) then
        s ← mread zl (p + headersize entry) (elen entry); Some (Some (CStr s))
      else
        v ← zipLoadInteger zl (p + headersize entry) (encoding entry); Some (Some (CInt v))
  end.

Definition ziplistDeleteRange (junk : nat → Z) (zl : list Z) (index num : Z) : option (list Z) :=
  p ← ziplistIndex zl index;
  match p with None => Some zl | Some p => __ziplistDelete junk zl p num end.

Definition ziplistCompare (zl : list Z) (p : Z) (s : list Z) : option bool :=
  b ← get zl p;
  if b =? ZIP_END then Some false else
  entry ← zipEntry zl p;
  if ZIP_IS_STR (encoding entry) then
    if elen entry =? zlen s then
      t ← mread zl (p + headersize entry) (zlen s); Some (bool_decide (t = s))
    else Some false
  else
    match zipTryEncoding s with
    | Some (sval, _) =>
        zval ← zipLoadInteger zl (p + headersize entry) (encoding entry); Some (zval =? sval)
    | None => Some false
    end.

(** [vencoding] is 0 until the wanted string was tried as an integer, then its
    encoding with the value [vll], or [UCHAR_MAX]. *)
Fixpoint find_loop (fuel : nat) (zl : list Z) (p : Z) (v : list Z) (skip skipcnt vencoding vll : Z) :
    option (option Z) :=
  match fuel with
  | O => None
  | S fuel =>
      b ← get zl p;
      if b =? ZIP_END then Some None else
      prevlensize ← ZIP_DECODE_PREVLENSIZE zl p;
      '(encoding, lensize, len) ← ZIP_DECODE_LENGTH zl (p + prevlensize);
      let q := p + prevlensize + lensize in
      if skipcnt =? 0 then
        if ZIP_IS_STR encoding then
          hit ← (if len =? zlen v then t ← mread zl q (zlen v); Some (bool_decide (t = v))
                 else Some false);
          if (hit : bool) then Some (Some p)
          else find_loop fuel zl (q + len) v skip (s32 skip) vencoding vll
        else
          let '(vencoding, vll) :=
            if vencoding =? 0 then
              match zipTryEncoding v with
              | Some (vll, vencoding) => (vencoding, vll)
              | None => (255, vll)
              end
            else (vencoding, vll) in
          if vencoding =? 0 then None (* assert *) else
          hit ← (if negb (vencoding =? 255) then
                   ll ← zipLoadInteger zl q encoding; Some (ll =? vll)
                 else Some false);
          if (hit : bool) then Some (Some p)
          else find_loop fuel zl (q + len) v skip (s32 skip) vencoding vll
      else find_loop fuel zl (q + len) v skip (s32 (skipcnt - 1)) vencoding vll
  end.

Definition ziplistFind (zl : list Z) (p : Z) (v : list Z) (skip : Z) : option (option Z) :=
  find_loop (S (length zl)) zl p v skip 0 0 0.

Fixpoint len_loop (fuel : nat) (zl : list Z) (p len : Z) : option Z :=
  match fuel with
  | O => None
  | S fuel =>
      b ← get zl p;
      if negb (b =? ZIP_END) then
        n ← zipRawEntryLength zl p; len_loop fuel zl (p + n) (u32 (len + 1))
      else Some len
  end.

(** The count, and the block, whose length field is restored when it fits. *)
Definition ziplistLen (zl : list Z) : option (Z * list Z) :=
  l ← ZIPLIST_LENGTH zl;
  if l <? UINT16_MAX then Some (l, zl) else
  len ← len_loop (S (length zl)) zl ZIPLIST_HEADER_SIZE 0;
  zl ← (if len <? UINT16_MAX then set_length zl (u16 len) else Some zl);
  Some (len, zl).

Definition ziplistBlobLen (zl : list Z) : option Z := ZIPLIST_BYTES zl.

(** ** The block of a list of entries *)
Definition header (bytes tail len : Z) : list Z := le_bytes 4 bytes ++ le_bytes 4 tail ++ le_bytes 2 len.

Definition flat (es : list phys) : list Z := concat (enc_phys <$> es).

(** The offset of the last entry when the first one is at [base]. *)
Definition tail_off (base : Z) (es : list phys) : Z := base + zlen (flat (removelast es)).

(** Each entry stores the size of the one before it. *)
Fixpoint chain (prev : Z) (es : list phys) : Prop :=
  match es with
  | [] => True
  | e :: es => stored e = prev ∧ phys_ok e ∧ chain (rawlen e) es
  end.

Definition len_ok (l : Z) (n : nat) : Prop := (l = Z.of_nat n ∧ l < UINT16_MAX) ∨ l = UINT16_MAX.

Definition image (es : list phys) (l : Z) : list Z :=
  header (11 + zlen (flat es)) (tail_off 10 es) l ++ flat es ++ [ZIP_END].

(** Entries that can be in a block: chained, the first with a small field, the
    block below 4 GB; and the length field counts them or is full. *)
Record wf (es : list phys) (l : Z) : Prop := {
  wf_chain : chain 0 es;
  wf_head e : head es = Some e → big e = false;
  wf_size : 11 + zlen (flat es) < 2 ^ 32;
  wf_len : len_ok l (length es)
}.

(** ** Header fields *)
Lemma length_header b t l : zlen (header b t l) = 10.
Proof. unfold header. rewrite !length_app, !length_le_bytes. done. Qed.

Lemma flat_app es1 es2 : flat (es1 ++ es2) = flat es1 ++ flat es2.
Proof. unfold flat. by rewrite fmap_app, concat_app. Qed.

Lemma flat_cons e es : flat (e :: es) = enc_phys e ++ flat es.
Proof. done. Qed.

Lemma flat_len_cons e es : zlen (flat (e :: es)) = rawlen e + zlen (flat es).
Proof. rewrite flat_cons, length_app, Nat2Z.inj_add, length_enc_phys. done. Qed.

Lemma flat_len_app es1 es2 : zlen (flat (es1 ++ es2)) = zlen (flat es1) + zlen (flat es2).
Proof. rewrite flat_app, length_app. lia. Qed.

Create Rewrite HintDb zip.
#[export] Hint Rewrite length_header flat_len_cons flat_len_app length_enc_phys length_enc_prev
  @length_app @length_cons @Nat2Z.inj_add Nat2Z.inj_succ length_le_bytes prev_encode_size : zip.
Ltac zlia := autorewrite with zip in *; cbn [length] in *; try lia.

Lemma header_bytes b t l r : in_u 32 b → ZIPLIST_BYTES (header b t l ++ r) = Some b.
Proof.
  intros H. unfold ZIPLIST_BYTES, header. rewrite <- !app_assoc, mread_start by (by rewrite length_le_bytes).
  cbn [fmap option_fmap option_map]. by rewrite le_val_bytes, wrapu_id.
Qed.

Lemma header_tail b t l r : in_u 32 t → ZIPLIST_TAIL_OFFSET (header b t l ++ r) = Some t.
Proof.
  intros H. unfold ZIPLIST_TAIL_OFFSET, header. rewrite <- !app_assoc, (mread_app (le_bytes 4 b) (le_bytes 4 t))
    by (rewrite ?length_le_bytes; done).
  cbn [fmap option_fmap option_map]. by rewrite le_val_bytes, wrapu_id.
Qed.

Lemma header_length b t l r : in_u 16 l → ZIPLIST_LENGTH (header b t l ++ r) = Some l.
Proof.
  intros H. unfold ZIPLIST_LENGTH, header. rewrite <- !app_assoc, (app_assoc (le_bytes 4 b)).
  rewrite (mread_app (le_bytes 4 b ++ le_bytes 4 t) (le_bytes 2 l))
    by (rewrite ?length_app, ?length_le_bytes; done).
  cbn [fmap option_fmap option_map]. by rewrite le_val_bytes, wrapu_id.
Qed.

Lemma set_bytes_header b t l r b' : set_bytes (header b t l ++ r) b' = Some (header b' t l ++ r).
Proof.
  unfold set_bytes, header. rewrite <- !app_assoc.
  by rewrite (mwrite_start (le_bytes 4 b) (le_bytes 4 b')) by (by rewrite !length_le_bytes).
Qed.

Lemma set_tail_header b t l r t' : set_tail (header b t l ++ r) t' = Some (header b t' l ++ r).
Proof.
  unfold set_tail, header. rewrite <- !app_assoc.
  by rewrite (mwrite_app (le_bytes 4 b) (le_bytes 4 t) (le_bytes 4 t')) by (rewrite ?length_le_bytes; done).
Qed.

Lemma set_length_header b t l r l' : set_length (header b t l ++ r) l' = Some (header b t l' ++ r).
Proof.
  unfold set_length, header. rewrite <- !app_assoc, !(app_assoc (le_bytes 4 b)).
  by rewrite (mwrite_app (le_bytes 4 b ++ le_bytes 4 t) (le_bytes 2 l) (le_bytes 2 l'))
    by (rewrite ?length_app, ?length_le_bytes; done).
Qed.

Section proofs.
Context (junk : nat → Z).

(** A grown block: the byte behind the old contents is still the old end. *)
Lemma resize_grow b t l X n :
  11 + zlen X ≤ n →
  ∃ J, ziplistResize junk (header b t l ++ X ++ [ZIP_END]) n = Some (header n t l ++ X ++ J ++ [ZIP_END]) ∧
       zlen J = n - (11 + zlen X) ∧ head (J ++ [ZIP_END]) = Some ZIP_END.
Proof.
  intros Hn. unfold ziplistResize.
  destruct (zrealloc_grow junk (header b t l ++ X ++ [ZIP_END]) n) as (e & -> & He); [zlia|].
  rewrite <- !app_assoc, set_bytes_header. cbn [mbind option_bind app].
  destruct (exists_last (l := ZIP_END :: e)) as (J & y & EJ); [done|]. rewrite EJ. exists J.
  assert (length (ZIP_END :: e) = length (J ++ [y])) as El by (by rewrite EJ).
  rewrite !app_assoc, (mwrite_end _ [y] [ZIP_END]) by (done || zlia). rewrite <- !app_assoc.
  split; [done|]. split; [zlia|]. destruct J as [|z J]; [done|]. by injection EJ as <- _.
Qed.

Lemma resize_shrink b t l X Y n :
  n = 11 + zlen X → 1 ≤ zlen Y →
  ziplistResize junk (header b t l ++ X ++ Y) n = Some (header n t l ++ X ++ [ZIP_END]).
Proof.
  intros Hn HY. unfold ziplistResize. destruct Y as [|y Y]; [done|].
  replace (header b t l ++ X ++ y :: Y) with ((header b t l ++ X ++ [y]) ++ Y) by (by rewrite <- !app_assoc).
  rewrite zrealloc_shrink by zlia. rewrite set_bytes_header. cbn [mbind option_bind].
  rewrite !app_assoc, (mwrite_end _ [y] [ZIP_END]) by (done || zlia). by rewrite <- !app_assoc.
Qed.

(** ** The cascade *)

(** What the cascade makes of the entries behind one of size [rl]. *)
Fixpoint fix_chain (rl : Z) (es : list phys) : list phys :=
  match es with
  | [] => []
  | e :: es' =>
      if stored e =? rl then es
      else if negb (big e) && needs_big rl then
        let e' := Phys true rl (payload e) in e' :: fix_chain (rawlen e') es'
      else Phys (big e) rl (payload e) :: es'
  end.

(** Entries that were chained before the size of the one in front changed. *)
Definition chained_after (es : list phys) : Prop :=
  match es with [] => True | e :: es => phys_ok e ∧ chain (rawlen e) es end.

Lemma chain_app prev es1 es2 :
  chain prev (es1 ++ es2) ↔ chain prev es1 ∧ chain (default prev (rawlen <$> last es1)) es2.
Proof.
  revert prev. induction es1 as [|e es1 IH]; intros prev; cbn [app chain]; [simpl; tauto|].
  rewrite IH. rewrite last_cons. destruct (last es1); simpl; tauto.
Qed.

Lemma chain_ok prev es : chain prev es → Forall phys_ok es.
Proof. revert prev. induction es as [|e es IH]; intros prev; [done|]. intros (_ & ? & ?). constructor; eauto. Qed.

Lemma chain_after prev es : chain prev es → chained_after es.
Proof. destruct es; [done|]. intros (_ & ? & ?). done. Qed.

Lemma flat_pos es : 0 ≤ zlen (flat es).
Proof. lia. Qed.

Lemma needs_big_spec n : needs_big n = true ↔ ZIP_BIGLEN ≤ n.
Proof. unfold needs_big. rewrite negb_true_iff, Z.ltb_ge. done. Qed.

Lemma fix_chain_chain es : ∀ rl,
  chained_after es → 0 ≤ rl < 2 ^ 32 → zlen (flat (fix_chain rl es)) < 2 ^ 32 → chain rl (fix_chain rl es).
Proof.
  induction es as [|e es IH]; intros rl Hc Hrl; [done|]. destruct Hc as [He Hc]. cbn [fix_chain].
  destruct (Z.eqb_spec (stored e) rl) as [E|E]; [done|].
  destruct (negb (big e) && needs_big rl) eqn:Eb.
  - intros Hs. rewrite flat_len_cons in Hs. pose proof (rawlen_pos (Phys true rl (payload e))).
    assert (phys_ok (Phys true rl (payload e))) as He' by (split; [done|]; split; [done|apply He]).
    split; [done|]. split; [done|]. apply IH; [by eapply chain_after|lia|lia].
  - intros _. split; [done|]. split; [|done]. destruct He as (H0 & Hb & Hp). split; [done|]. split; [|done].
    intros Hf. apply andb_false_iff in Eb. simpl in *. rewrite Hf in Eb.
    destruct Eb as [|Eb]; [done|]. unfold needs_big in Eb. apply negb_false_iff, Z.ltb_lt in Eb. done.
Qed.

Lemma fix_chain_payload es : ∀ rl, payload <$> fix_chain rl es = payload <$> es.
Proof.
  induction es as [|e es IH]; intros rl; [done|]. cbn [fix_chain].
  destruct (_ =? _); [done|]. destruct (_ && _); cbn [fmap list_fmap]; [|done]. by rewrite <- IH at 1.
Qed.

Lemma fix_chain_grows es : ∀ rl, zlen (flat es) ≤ zlen (flat (fix_chain rl es)) ≤ zlen (flat es) + 4 * zlen es.
Proof.
  induction es as [|e es IH]; intros rl; [done|]. cbn [fix_chain].
  destruct (_ =? _); [lia|]. destruct (negb (big e) && _) eqn:Eb.
  - specialize (IH (rawlen (Phys true rl (payload e)))). rewrite !flat_len_cons, length_cons.
    apply andb_true_iff in Eb as [Eb%negb_true_iff _]. unfold rawlen in *. simpl in *. rewrite Eb. lia.
  - rewrite !flat_len_cons, length_cons. unfold rawlen. simpl. lia.
Qed.

Lemma tail_off_cons base e x es : tail_off base (e :: x :: es) = tail_off (base + rawlen e) (x :: es).
Proof. unfold tail_off. cbn [removelast]. rewrite flat_len_cons. lia. Qed.

Lemma tail_off_one base e : tail_off base [e] = base.
Proof. unfold tail_off. simpl. lia. Qed.

Lemma tail_off_bounds base es : base ≤ tail_off base es ≤ base + zlen (flat es).
Proof.
  unfold tail_off. split; [lia|]. destruct (decide (es = [])) as [->|N]; [done|].
  destruct (exists_last N) as (es' & e & ->). rewrite removelast_last, flat_len_app. lia.
Qed.

Lemma tail_off_later base e x es : base < tail_off base (e :: x :: es).
Proof.
  rewrite tail_off_cons. pose proof (tail_off_bounds (base + rawlen e) (x :: es)). pose proof (rawlen_pos e). lia.
Qed.

(** The offset of the tail when the entry at [base] grows by [d]. *)
Lemma tail_grow base e e' es d :
  rawlen e' = rawlen e + d →
  tail_off base (e' :: es) = if tail_off base (e :: es) =? base then base else tail_off base (e :: es) + d.
Proof.
  intros E. destruct es as [|x es]; [by rewrite !tail_off_one, Z.eqb_refl|].
  pose proof (tail_off_later base e x es). rewrite (proj2 (Z.eqb_neq _ _)) by lia.
  rewrite !tail_off_cons. unfold tail_off. lia.
Qed.

Lemma get_entry a e b p : 
  phys_ok e → p = zlen a → ∃ x, get (a ++ enc_phys e ++ b) p = Some x ∧ (x =? ZIP_END) = false.
Proof.
  intros He ->. destruct (enc_phys_head e He) as (x & l & -> & Hx & _). exists x.
  cbn [app]. rewrite get_app by done. split; [done|]. apply Z.eqb_neq. unfold ZIP_END. lia.
Qed.

(** Widening the field of the entry behind [P], which ends where [X] starts. *)
Lemma widen_field b t l P e rest n np (k : list Z → option (list Z)) :
  np = 10 + zlen P → phys_ok e → big e = false → 0 ≤ n → needs_big n = true →
  b = 11 + zlen P + rawlen e + zlen rest → b + 4 < 2 ^ 32 → in_u 32 t → in_u 32 (t + 4) →
  (zl ← ziplistResize junk (header b t l ++ P ++ enc_phys e ++ rest ++ [ZIP_END]) (u32 (b + 4));
   tail ← ZIPLIST_TAIL_OFFSET zl;
   zl ← (if tail =? np then Some zl else set_tail zl (u32 (tail + 4)));
   zl ← memmove zl (np + 5) (np + 1) (b - np - 1 - 1);
   zl ← mwrite zl np (zipPrevEncodeLength n);
   k zl) =
  k (header (b + 4) (if t =? np then t else t + 4) l ++ P ++ enc_phys (Phys true n (payload e)) ++ rest ++ [ZIP_END]).
Proof.
  intros Enp He Hb Hn Hbig Eb Hs Ht Ht4.
  assert (u32 (b + 4) = b + 4) as -> by (apply wrapu_id; unfold in_u; pose proof (rawlen_pos e); lia).
  assert (u32 (t + 4) = t + 4) as Et by (by apply wrapu_id).
  set (B := enc_content (payload e) ++ rest).
  assert (enc_phys e ++ rest = [stored e] ++ B) as EB.
  { unfold enc_phys, enc_prev. rewrite Hb. by rewrite <- app_assoc. }
  assert (zlen B = rawlen e - 1 + zlen rest) as HB.
  { assert (zlen (enc_phys e ++ rest) = zlen ([stored e] ++ B)) as H by (by rewrite EB). zlia. }
  replace (P ++ enc_phys e ++ rest ++ [ZIP_END]) with ((P ++ [stored e] ++ B) ++ [ZIP_END])
    by (rewrite <- EB, <- !app_assoc; done).
  destruct (resize_grow b t l (P ++ [stored e] ++ B) (b + 4)) as (J & -> & HJ & _); [zlia|].
  cbn [mbind option_bind]. rewrite header_tail by done. cbn [mbind option_bind].
  set (t' := if t =? np then t else t + 4).
  assert ((if t =? np then Some (header (b + 4) t l ++ (P ++ [stored e] ++ B) ++ J ++ [ZIP_END])
           else set_tail (header (b + 4) t l ++ (P ++ [stored e] ++ B) ++ J ++ [ZIP_END]) (u32 (t + 4))) =
          Some (header (b + 4) t' l ++ (P ++ [stored e] ++ B) ++ J ++ [ZIP_END])) as ->.
  { subst t'. destruct (t =? np); [done|]. by rewrite set_tail_header, Et. }
  cbn [mbind option_bind]. subst np.
  replace (header (b + 4) t' l ++ (P ++ [stored e] ++ B) ++ J ++ [ZIP_END])
    with (((header (b + 4) t' l ++ P ++ [stored e]) ++ B ++ J) ++ [ZIP_END]) by (by rewrite <- !app_assoc).
  erewrite memmove_frame; [|apply memmove_right; zlia].
  cbn [mbind option_bind].
  replace ((((header (b + 4) t' l ++ P ++ [stored e]) ++ take (length J) (B ++ J) ++ B) ++ [ZIP_END]))
    with ((header (b + 4) t' l ++ P) ++ ([stored e] ++ take (length J) (B ++ J)) ++ (B ++ [ZIP_END]))
    by (by rewrite <- !app_assoc).
  rewrite (mwrite_app _ _ (zipPrevEncodeLength n)); first last.
  { rewrite prev_encode, Hbig. unfold enc_prev, zipPrevEncodeLengthForceLarge.
    rewrite length_app, length_take, !length_cons, length_app, length_le_bytes. simpl. zlia. }
  { zlia. }
  rewrite some_bind, prev_encode, Hbig. unfold enc_phys. subst B. simpl. by rewrite <- !app_assoc.
Qed.

Lemma fix_chain_same rl e es : stored e = rl → fix_chain rl (e :: es) = e :: es.
Proof. intros <-. cbn. by rewrite Z.eqb_refl. Qed.

(** One round up to the look at the byte behind the entry. *)
Lemma cascade_read fuel P cur R b :
  phys_ok cur → rawlen cur < 2 ^ 32 →
  cascade_loop junk (S fuel) (P ++ enc_phys cur ++ R) (zlen P) b =
  (let zl := P ++ enc_phys cur ++ R in
   let rl := rawlen cur in
   x ← get zl (zlen P + rl);
   if x =? ZIP_END then Some zl else
   next ← zipEntry zl (zlen P + rl);
   if prevrawlen next =? rl then Some zl else
   if prevrawlensize next <? zlen (zipPrevEncodeLength rl) then
     let extra := zlen (zipPrevEncodeLength rl) - prevrawlensize next in
     zl ← ziplistResize junk zl (u32 (b + extra));
     let np := zlen P + rl in
     tail ← ZIPLIST_TAIL_OFFSET zl;
     zl ← (if tail =? np then Some zl else set_tail zl (u32 (tail + extra)));
     zl ← memmove zl (np + zlen (zipPrevEncodeLength rl)) (np + prevrawlensize next)
            (b - np - prevrawlensize next - 1);
     zl ← mwrite zl np (zipPrevEncodeLength rl);
     cascade_loop junk fuel zl np (b + extra)
   else if prevrawlensize next >? zlen (zipPrevEncodeLength rl)
   then mwrite zl (zlen P + rl) (zipPrevEncodeLengthForceLarge rl)
   else mwrite zl (zlen P + rl) (zipPrevEncodeLength rl)).
Proof.
  intros Hc Hr. cbn [cascade_loop].
  destruct (get_entry P cur R (zlen P) Hc eq_refl) as (x & -> & Hx). rewrite some_bind, Hx.
  rewrite zipEntry_spec, some_bind by done. rewrite entry_size.
  assert (u32 (rawlen cur) = rawlen cur) as ->; [|done].
  apply wrapu_id. pose proof (rawlen_pos cur). unfold in_u. lia.
Qed.

(** Rewriting a field in its size. *)
Lemma write_field a e n X p :
  p = zlen a →
  mwrite (a ++ enc_phys e ++ X) p (enc_prev (big e) n) = Some (a ++ enc_phys (Phys (big e) n (payload e)) ++ X).
Proof.
  intros ->. unfold enc_phys. simpl. rewrite <- !app_assoc. apply mwrite_app; [done|].
  apply Nat2Z.inj. by rewrite !length_enc_prev.
Qed.

Lemma entry_prev e p :
  prevrawlen (entry_of e p) = stored e ∧ prevrawlensize (entry_of e p) = if big e then 5 else 1.
Proof. unfold entry_of. by destruct (content_hdr (payload e)) as [[??]?]. Qed.

Lemma cascade_ok es : ∀ fuel cur A b t l,
  (length es < fuel)%nat → phys_ok cur → chained_after es →
  b = 11 + zlen A + zlen (flat (cur :: es)) → t = tail_off (10 + zlen A) (cur :: es) →
  let es' := fix_chain (rawlen cur) es in
  11 + zlen A + zlen (flat (cur :: es')) < 2 ^ 32 →
  cascade_loop junk fuel (header b t l ++ A ++ flat (cur :: es) ++ [ZIP_END]) (10 + zlen A) b =
  Some (header (11 + zlen A + zlen (flat (cur :: es'))) (tail_off (10 + zlen A) (cur :: es')) l ++
        A ++ flat (cur :: es') ++ [ZIP_END]).
Proof.
  induction es as [|e es IH]; intros [|fuel] cur A b t l Hf Hcur Hes Eb Et es' Hsz; cbn [length] in *; try lia;
    pose proof (rawlen_pos cur) as Hrp; pose proof (length_header b t l) as Hh;
    rewrite flat_len_cons in Hsz;
    replace (10 + zlen A) with (zlen (header b t l ++ A)) at 1 by zlia.
  - replace (header b t l ++ A ++ flat [cur] ++ [ZIP_END])
      with ((header b t l ++ A) ++ enc_phys cur ++ [ZIP_END])
      by (rewrite flat_cons, <- !app_assoc; done).
    rewrite cascade_read by (done || lia). cbv zeta. subst es'. cbn [fix_chain] in *.
    rewrite (app_assoc _ (enc_phys cur)), get_app by zlia. rewrite some_bind. simpl (_ =? ZIP_END). cbv iota.
    rewrite <- Eb, <- Et, flat_cons, <- !app_assoc. done.
  - destruct Hes as [He Hes]. set (P := header b t l ++ A) in *.
    replace (header b t l ++ A ++ flat (cur :: e :: es) ++ [ZIP_END])
      with (P ++ enc_phys cur ++ enc_phys e ++ flat es ++ [ZIP_END])
      by (subst P; rewrite !flat_cons, <- !app_assoc; done).
    rewrite cascade_read by (done || lia). cbv zeta.
    replace (P ++ enc_phys cur ++ enc_phys e ++ flat es ++ [ZIP_END])
      with ((P ++ enc_phys cur) ++ enc_phys e ++ flat es ++ [ZIP_END]) by (by rewrite <- !app_assoc).
    assert (zlen P + rawlen cur = zlen (P ++ enc_phys cur)) as HP by zlia.
    destruct (get_entry (P ++ enc_phys cur) e (flat es ++ [ZIP_END]) (zlen P + rawlen cur) He HP) as (x & -> & Hx).
    rewrite some_bind, Hx, HP, zipEntry_spec, some_bind by done. destruct (entry_prev e (zlen (P ++ enc_phys cur))) as [-> ->].
    rewrite prev_encode_size. destruct (Z.eqb_spec (stored e) (rawlen cur)) as [Es|Es].
    { subst es'. rewrite fix_chain_same by done. rewrite <- Eb, <- Et, !flat_cons. subst P. by rewrite <- !app_assoc. }
    destruct (negb (big e) && needs_big (rawlen cur)) eqn:Ebig.
    + apply andb_true_iff in Ebig as [Ebe%negb_true_iff Enb]. rewrite Ebe, Enb. change (1 <? 5) with true. cbv iota.
      set (e' := Phys true (rawlen cur) (payload e)).
      assert (es' = e' :: fix_chain (rawlen e') es) as Ees'.
      { subst es'. cbn [fix_chain]. rewrite (proj2 (Z.eqb_neq _ _) Es), Ebe, Enb. done. }
      clearbody es'. subst es'. pose proof (fix_chain_grows es (rawlen e')) as Hg. rewrite flat_len_cons in Hsz.
      pose proof (tail_off_bounds (10 + zlen A) (cur :: e :: es)) as Htb. rewrite !flat_len_cons in Htb.
      assert (zlen (A ++ enc_phys cur) = zlen A + rawlen cur) as Hz by zlia.
      assert (rawlen e' = rawlen e + 4) as Er by (unfold rawlen; simpl; rewrite Ebe; lia).
      change (5 - 1) with 4. subst P. rewrite <- !(app_assoc (header b t l)).
      replace (zlen ((header b t l) ++ A ++ enc_phys cur)) with (10 + zlen (A ++ enc_phys cur)) by zlia.
      rewrite widen_field by (done || lia || (unfold in_u; lia) || (rewrite !flat_len_cons in Eb; zlia)).
      replace (enc_phys (Phys true (rawlen cur) (payload e)) ++ flat es ++ [ZIP_END])
        with (flat (e' :: es) ++ [ZIP_END]) by (rewrite flat_cons, <- app_assoc; done).
      pose proof (rawlen_pos e) as Hre.
      assert (phys_ok e') as He' by (split; [cbn [stored e']; lia|split; [done|apply He]]).
      rewrite IH; [|lia|done|by eapply chain_after| | |].
      * rewrite tail_off_cons. f_equal. rewrite (flat_len_cons cur), Hz.
        rewrite (flat_cons cur), <- !app_assoc, !Z.add_assoc. done.
      * rewrite Eb, !flat_len_cons. lia.
      * rewrite Et, tail_off_cons. replace (10 + zlen (A ++ enc_phys cur)) with (10 + zlen A + rawlen cur) by lia.
        rewrite (tail_grow _ e e' es 4 Er). by destruct (Z.eqb_spec (tail_off (10 + zlen A + rawlen cur) (e :: es)) (10 + zlen A + rawlen cur)) as [->|].
      * rewrite flat_len_cons. lia.
    + set (e' := Phys (big e) (rawlen cur) (payload e)).
      assert (es' = e' :: es) as Ees'.
      { subst es'. cbn [fix_chain]. rewrite (proj2 (Z.eqb_neq _ _) Es), Ebig. done. }
      clearbody es'. subst es'.
      transitivity (mwrite ((P ++ enc_phys cur) ++ enc_phys e ++ flat es ++ [ZIP_END]) (zlen (P ++ enc_phys cur))
                      (enc_prev (big e) (rawlen cur))).
      { rewrite prev_encode. destruct (big e), (needs_big (rawlen cur)); try done. }
      rewrite write_field by done. fold e'.
      rewrite tail_off_cons in Et |- *. rewrite (tail_grow _ e e' es 0) by (unfold rawlen; simpl; lia).
      rewrite Z.add_0_r. rewrite !flat_len_cons in Eb |- *. change (rawlen e') with (rawlen e).
      subst P. f_equal. rewrite (flat_cons cur), (flat_cons e'), <- !app_assoc.
      rewrite <- Et. replace (11 + zlen A + (rawlen cur + (rawlen e + zlen (flat es)))) with b by lia.
      by destruct (Z.eqb_spec t (10 + zlen A + rawlen cur)) as [->|].
Qed.

Lemma flat_count es : 2 * zlen es ≤ zlen (flat es).
Proof. induction es as [|e es IH]; [done|]. rewrite flat_len_cons, length_cons. pose proof (rawlen_pos e). lia. Qed.

Lemma cascade_update cur es A b t l :
  phys_ok cur → chained_after es →
  b = 11 + zlen A + zlen (flat (cur :: es)) → t = tail_off (10 + zlen A) (cur :: es) →
  let es' := fix_chain (rawlen cur) es in
  11 + zlen A + zlen (flat (cur :: es')) < 2 ^ 32 →
  __ziplistCascadeUpdate junk (header b t l ++ A ++ flat (cur :: es) ++ [ZIP_END]) (10 + zlen A) =
  Some (header (11 + zlen A + zlen (flat (cur :: es'))) (tail_off (10 + zlen A) (cur :: es')) l ++
        A ++ flat (cur :: es') ++ [ZIP_END]).
Proof.
  intros Hc He Eb Et es' Hs. unfold __ziplistCascadeUpdate. rewrite header_bytes, some_bind.
  - apply cascade_ok; try done. pose proof (flat_count es). rewrite !length_app, flat_cons, length_app. lia.
  - unfold in_u. pose proof (fix_chain_grows es (rawlen cur)). rewrite flat_len_cons in *. subst es'. pose proof (rawlen_pos cur). lia.
Qed.

(** ** Insertion *)
Lemma tail_off_app base es1 e es2 :
  tail_off base (es1 ++ e :: es2) = tail_off (base + zlen (flat es1)) (e :: es2).
Proof.
  unfold tail_off. rewrite removelast_app by done. rewrite flat_len_app. lia.
Qed.

Lemma tail_off_shift base d es : tail_off (base + d) es = tail_off base es + d.
Proof. unfold tail_off. lia. Qed.

Lemma incr_length b t l r d :
  in_u 16 l →
  ZIPLIST_INCR_LENGTH (header b t l ++ r) d =
    Some (header b t (if l <? UINT16_MAX then u16 (l + d) else l) ++ r).
Proof.
  intros H. unfold ZIPLIST_INCR_LENGTH. rewrite header_length, some_bind by done.
  destruct (_ <? _); [|done]. by rewrite set_length_header.
Qed.

Lemma len_ok_range l n : len_ok l n → in_u 16 l.
Proof. unfold len_ok, UINT16_MAX, in_u. pow2. lia. Qed.

(** The size of the entry in front of position [length es1]. *)
Definition prev_size (es1 : list phys) : Z := default 0 (rawlen <$> last es1).

Lemma flat_snoc es e : flat (es ++ [e]) = flat es ++ enc_phys e.
Proof. rewrite flat_app. f_equal. unfold flat. simpl. apply app_nil_r. Qed.

Lemma insert_prevlen_ok es1 es2 l :
  wf (es1 ++ es2) l →
  insert_prevlen (image (es1 ++ es2) l) (10 + zlen (flat es1)) = Some (prev_size es1).
Proof.
  intros [Hc _ Hs _]. unfold insert_prevlen, image. destruct es2 as [|x r].
  - rewrite app_nil_r in *. pose proof (tail_off_bounds 10 es1) as Ht.
    assert (in_u 32 (tail_off 10 es1)) as Hu by (unfold in_u; lia).
    set (b := 11 + _). set (t := tail_off 10 es1) in *. pose proof (length_header b t l) as HH.
    rewrite (app_assoc (header b t l)), get_app, some_bind by zlia. change (negb (ZIP_END =? ZIP_END)) with false. cbv iota.
    rewrite <- app_assoc, header_tail, some_bind by done.
    set (H := header b t l) in *. clearbody H. subst t.
    destruct (decide (es1 = [])) as [->|N].
    { unfold tail_off. cbn [removelast flat fmap list_fmap concat app length]. rewrite get_app by lia. done. }
    destruct (exists_last N) as (es0 & y & ->). apply chain_app in Hc as [_ (_ & Hy & _)].
    rewrite flat_len_app, flat_len_cons in Hs. pose proof (rawlen_pos y). pose proof (flat_pos []).
    unfold tail_off. rewrite removelast_last, flat_snoc, <- app_assoc, (app_assoc H).
    replace (10 + zlen (flat es0)) with (zlen (H ++ flat es0)) by zlia.
    destruct (get_entry (H ++ flat es0) y [ZIP_END] _ Hy eq_refl) as (x & -> & Hx). rewrite some_bind, Hx.
    cbn [negb]. rewrite raw_length_spec by (done || lia). unfold prev_size. by rewrite last_snoc.
  - apply chain_app in Hc as (_ & Est & Hx & _). set (H := header _ _ l).
    assert (zlen H = 10) as HH by apply length_header.
    rewrite flat_app, flat_cons, <- !app_assoc, (app_assoc H).
    replace (10 + zlen (flat es1)) with (zlen (H ++ flat es1)) by zlia.
    destruct (get_entry (H ++ flat es1) x (flat r ++ [ZIP_END]) _ Hx eq_refl) as (y & -> & Hy).
    rewrite some_bind, Hy. cbn [negb]. rewrite decode_prev, some_bind by done. by rewrite Est.
Qed.

(** The entry made of a string, behind one of [prev] bytes. *)
Definition new_entry (prev : Z) (s : list Z) : phys := Phys (needs_big prev) prev (content_of s).

(** What the insertion takes from the attempt to encode the string. *)
Definition encoded (s : list Z) : Z * Z * Z :=
  match zipTryEncoding s with
  | Some (value, encoding) => (value, encoding, zipIntSize encoding)
  | None => (123456789, 0, zlen s)
  end.

Lemma write_split a G1 G2 b x p :
  p = zlen a → zlen x = zlen G1 → mwrite (a ++ (G1 ++ G2) ++ b) p x = Some ((a ++ x) ++ G2 ++ b).
Proof. intros -> H. rewrite <- app_assoc, (mwrite_app a G1 x) by (done || lia). by rewrite <- app_assoc. Qed.

Lemma split_at (G : list Z) n : 0 ≤ n ≤ zlen G → ∃ G1 G2, G = G1 ++ G2 ∧ zlen G1 = n.
Proof.
  intros H. exists (take (Z.to_nat n) G), (drop (Z.to_nat n) G). split; [by rewrite take_drop|].
  rewrite length_take. lia.
Qed.

(** The three parts of a new entry. *)
Lemma entry_parts prev s value enc n :
  encoded s = (value, enc, n) → zlen s < 2 ^ 32 →
  ∃ x3, enc_phys (new_entry prev s) = zipPrevEncodeLength prev ++ zipEncodeLength enc (zlen s) ++ x3 ∧
    zlen x3 = n ∧
    ∀ zl p, (if ZIP_IS_STR enc then mwrite zl p s else bs ← zipSaveInteger value enc; mwrite zl p bs) = mwrite zl p x3.
Proof.
  intros E Hs. unfold encoded in E. rewrite try_encoding_spec in E. unfold enc_phys. simpl. rewrite <- prev_encode.
  pose proof (content_of_ok s Hs) as Hok. pose proof (content_of_text s) as Ht.
  destruct (content_of s) as [s'|v]; simpl in *; injection E as <- <- <-.
  - subst s'. by exists s.
  - destruct (int_enc_high v Hok) as [_ Hstr]. exists (int_bytes v). unfold zipEncodeLength. rewrite Hstr.
    split; [done|]. split; [apply length_int_bytes|]. intros zl p. by rewrite save_int.
Qed.

Lemma entry_required prev s value enc n :
  encoded s = (value, enc, n) → zlen s < 2 ^ 32 →
  n + zlen (zipPrevEncodeLength prev) + zlen (zipEncodeLength enc (zlen s)) = rawlen (new_entry prev s).
Proof.
  intros E Hs. destruct (entry_parts prev s value enc n E Hs) as (x3 & Ex & Hn & _).
  pose proof (length_enc_phys (new_entry prev s)) as HL. rewrite Ex, !length_app in HL. lia.
Qed.

Lemma write_entry a G b prev s p value enc n (k : list Z → option (list Z)) :
  encoded s = (value, enc, n) → zlen s < 2 ^ 32 → p = zlen a → zlen G = rawlen (new_entry prev s) →
  (zl ← mwrite (a ++ G ++ b) p (zipPrevEncodeLength prev);
   zl ← mwrite zl (p + zlen (zipPrevEncodeLength prev)) (zipEncodeLength enc (zlen s));
   zl ← (if ZIP_IS_STR enc
         then mwrite zl (p + zlen (zipPrevEncodeLength prev) + zlen (zipEncodeLength enc (zlen s))) s
         else bs ← zipSaveInteger value enc;
              mwrite zl (p + zlen (zipPrevEncodeLength prev) + zlen (zipEncodeLength enc (zlen s))) bs);
   k zl) =
  k (a ++ enc_phys (new_entry prev s) ++ b).
Proof.
  intros E Hs -> HG. destruct (entry_parts prev s value enc n E Hs) as (x3 & Ex & E3 & Hw).
  set (x1 := zipPrevEncodeLength prev) in *. set (x2 := zipEncodeLength enc (zlen s)) in *.
  pose proof (length_enc_phys (new_entry prev s)) as HL. rewrite Ex, !length_app in HL.
  destruct (split_at G (zlen x1)) as (G1 & G' & -> & H1); [lia|]. rewrite length_app in HG.
  destruct (split_at G' (zlen x2)) as (G2 & G3 & -> & H2); [lia|]. rewrite length_app in HG.
  rewrite write_split, some_bind by done.
  rewrite write_split, some_bind by (rewrite ?length_app; lia). rewrite Hw.
  rewrite (mwrite_app ((a ++ x1) ++ x2) G3 x3) by (rewrite ?length_app; lia). rewrite some_bind, Ex. by rewrite <- !app_assoc.
Qed.

(** Moving the tail [b] to the right by the size of [J], up to the end. *)
Lemma move_tail m a b J dst src n :
  m = a ++ b ++ J ++ [ZIP_END] → dst = zlen a + zlen J → src = zlen a → n = zlen b →
  memmove m dst src n = Some (a ++ take (length J) (b ++ J) ++ b ++ [ZIP_END]).
Proof.
  intros -> ? ? ?. replace (a ++ b ++ J ++ [ZIP_END]) with ((a ++ b ++ J) ++ [ZIP_END]) by (by rewrite <- !app_assoc).
  erewrite memmove_frame; [|by apply memmove_right]. by rewrite <- !app_assoc.
Qed.

(** Making room in front of the entry [x]: the old field of [x] is replaced. *)
Lemma make_room n t l F x r J n1 p reqlen :
  let nd := (if needs_big reqlen then 5 else 1) - (if big x then 5 else 1) in
  p = 10 + zlen F → zlen J = reqlen + nd → 2 ≤ reqlen → 
  n1 = zlen (enc_phys x ++ flat r) + nd →
  ∃ G, zlen G = reqlen ∧ ∀ k : list Z → option (list Z),
    (zl ← memmove (header n t l ++ (F ++ enc_phys x ++ flat r) ++ J ++ [ZIP_END]) (p + reqlen) (p - nd) n1;
     zl ← mwrite zl (p + reqlen) (zipPrevEncodeLength reqlen); k zl) =
    k (header n t l ++ (F ++ G) ++ flat (Phys (needs_big reqlen) reqlen (payload x) :: r) ++ [ZIP_END]).
Proof.
  intros nd Ep HJ Hr En. set (C := enc_content (payload x) ++ flat r).
  assert (∃ G D, zlen G = reqlen ∧ zlen D = (if needs_big reqlen then 5 else 1) ∧
    memmove (header n t l ++ (F ++ enc_phys x ++ flat r) ++ J ++ [ZIP_END]) (p + reqlen) (p - nd) n1 =
    Some ((header n t l ++ F ++ G) ++ D ++ (C ++ [ZIP_END]))) as (G & D & HG & HD & Em).
  { pose proof (length_header n t l) as HH. set (H := header n t l) in *. set (f := enc_prev (big x) (stored x)).
    assert (enc_phys x ++ flat r = f ++ C) as Ef by (unfold enc_phys; by rewrite <- app_assoc).
    pose proof (length_enc_prev (big x) (stored x)) as Hf. fold f in Hf. rewrite Ef, length_app in En. rewrite Ef.
    assert (nd = 0 ∨ (nd = 4 ∧ big x = false ∧ needs_big reqlen = true) ∨
            (nd = -4 ∧ big x = true ∧ needs_big reqlen = false)) as [Hd|[(Hd & Hb & Hn)|(Hd & Hb & Hn)]].
    { subst nd. destruct (big x), (needs_big reqlen); auto. }
    - exists (take (length J) ((f ++ C) ++ J)), f. split; [rewrite length_take, !length_app; lia|].
      split; [subst nd; lia|].
      rewrite (move_tail _ (H ++ F) (f ++ C) J) by (rewrite ?length_app, <- ?app_assoc; done || lia).
      by rewrite <- !app_assoc.
    - destruct (split_at (H ++ F) (zlen (H ++ F) - 4)) as (a0 & d4 & Ea & Ha0); [rewrite length_app; lia|].
      assert (zlen d4 = 4) as Hd4 by (rewrite Ea, !length_app in Ha0; lia).
      exists (take (Z.to_nat reqlen) (f ++ C ++ J)), (d4 ++ f). rewrite Hb in Hf. rewrite Hn.
      split; [rewrite length_take, !length_app; lia|]. split; [rewrite length_app; lia|].
      rewrite length_app in Ha0.
      rewrite (move_tail _ a0 (d4 ++ f ++ C) J); first last.
      { rewrite !length_app. lia. } { lia. } { lia. }
      { rewrite app_assoc, app_assoc, (app_assoc H), Ea. by rewrite <- !app_assoc. }
      replace (length J) with (length d4 + Z.to_nat reqlen)%nat by lia.
      rewrite <- !app_assoc, take_app_add'. 2: done.
      rewrite <- (app_assoc d4), (app_assoc a0 d4), <- Ea, <- !app_assoc. done.
    - destruct (split_at f 4) as (f4 & y & Ey & Hf4); [rewrite Hb in Hf; lia|]. rewrite Hb in Hf. rewrite Hn.
      assert (zlen y = 1) as Hy by (rewrite Ey, length_app in Hf; lia).
      exists (f4 ++ take (length J) ((y ++ C) ++ J)), y.
      split; [rewrite length_app, length_take, !length_app; lia|]. split; [done|].
      rewrite (move_tail _ (H ++ F ++ f4) (y ++ C) J); first last.
      { rewrite Ey, !length_app in En. rewrite length_app. lia. } { rewrite !length_app. lia. } { rewrite !length_app. lia. }
      { rewrite Ey. by rewrite <- !app_assoc. }
      by rewrite <- !app_assoc. }
  exists G. split; [done|]. intros k. rewrite Em, some_bind, (mwrite_app _ D (zipPrevEncodeLength reqlen)).
  - rewrite some_bind, prev_encode, flat_cons. unfold enc_phys. cbn [big stored payload]. subst C. by rewrite <- !app_assoc.
  - zlia.
  - apply Nat2Z.inj. by rewrite HD, prev_encode_size.
Qed.

(** The entries after an insertion of [s] between [es1] and [es2]: the next
    entry gets the smallest field, then the cascade. *)
Definition inserted (es1 es2 : list phys) (s : list Z) : list phys :=
  let e := new_entry (prev_size es1) s in
  es1 ++ e :: match es2 with
              | [] => []
              | x :: r =>
                  let x' := Phys (needs_big (rawlen e)) (rawlen e) (payload x) in
                  x' :: fix_chain (rawlen x') r
              end.

(** The block must not shrink before its tail is moved. *)
Definition no_shrink (es1 es2 : list phys) (s : list Z) : Prop :=
  match es2 with
  | [] => True
  | x :: _ => let n := rawlen (new_entry (prev_size es1) s) in
              big x = true → needs_big n = false → 4 ≤ n
  end.

Definition incr (l d : Z) : Z := if l <? UINT16_MAX then u16 (l + d) else l.

Lemma image_bytes es l : 11 + zlen (flat es) < 2 ^ 32 → ZIPLIST_BYTES (image es l) = Some (11 + zlen (flat es)).
Proof. intros H. apply header_bytes. unfold in_u. lia. Qed.

Lemma str_small prev s : rawlen (new_entry prev s) < 2 ^ 32 → zlen s < 2 ^ 32.
Proof.
  unfold rawlen, new_entry, content_of, zipTryEncoding. cbn [big payload].
  destruct ((zlen s >=? 32) || (zlen s =? 0)) eqn:E.
  - unfold enc_content. rewrite length_app. destruct (needs_big prev); lia.
  - intros _. apply orb_false_iff in E. rewrite Z.geb_leb in E. pow2. lia.
Qed.

Lemma insert_tail es l s :
  wf es l → 11 + zlen (flat (inserted es [] s)) < 2 ^ 32 →
  __ziplistInsert junk (image es l) (10 + zlen (flat es)) s = Some (image (inserted es [] s) (incr l 1)).
Proof.
  intros Hwf Hsz. pose proof (insert_prevlen_ok es [] l) as Hp. rewrite app_nil_r in Hp. specialize (Hp Hwf).
  unfold __ziplistInsert, inserted in *. rewrite flat_len_app, flat_len_cons in Hsz.
  set (e := new_entry (prev_size es) s) in *. pose proof (rawlen_pos e) as Hre.
  assert (zlen s < 2 ^ 32) as Hs by (apply (str_small (prev_size es)); fold e; lia).
  rewrite image_bytes, some_bind by lia. rewrite Hp, some_bind.
  change (match zipTryEncoding s with Some (v, enc) => (v, enc, zipIntSize enc) | None => (123456789, 0, zlen s) end)
    with (encoded s).
  destruct (encoded s) as [[value enc] n] eqn:E. cbv zeta.
  rewrite (entry_required _ _ _ _ _ E Hs). fold e.
  rewrite (u32_id (rawlen e)) by lia.
  pose proof (tail_off_bounds 10 es) as Ht. destruct Hwf as [_ _ _ Hl]. apply len_ok_range in Hl.
  unfold image. set (b := 11 + zlen (flat es)). set (t := tail_off 10 es) in *.
  pose proof (length_header b t l) as HH.
  replace (get (header b t l ++ flat es ++ [ZIP_END]) (10 + zlen (flat es))) with (Some ZIP_END)
    by (rewrite app_assoc, get_app; [done|zlia]).
  rewrite some_bind. change (negb (ZIP_END =? ZIP_END)) with false. cbv iota. rewrite some_bind.
  rewrite !Z.add_0_r. cbn [flat fmap list_fmap concat length] in Hsz.
  rewrite (u32_id (b + rawlen e)) by lia.
  destruct (resize_grow b t l (flat es) (b + rawlen e)) as (J & -> & HJ & HJh); [lia|]. rewrite some_bind.
  pose proof (length_header (b + rawlen e) t l) as HH2.
  destruct (J ++ [ZIP_END]) as [|j0 J0] eqn:EJ; [done|]. injection HJh as ->.
  rewrite (app_assoc (header (b + rawlen e) t l)), get_app, some_bind by zlia.
  change (negb (ZIP_END =? ZIP_END)) with false. cbv iota. rewrite <- app_assoc, <- EJ.
  rewrite set_tail_header, some_bind. change (negb (0 =? 0)) with false. cbv iota. rewrite some_bind.
  rewrite (u32_id (10 + zlen (flat es))) by lia.
  rewrite (app_assoc (header _ _ _)).
  rewrite (write_entry _ J [ZIP_END] _ _ _ _ _ _ (λ zl, ZIPLIST_INCR_LENGTH zl 1) E Hs); [|rewrite length_app, Nat2Z.inj_add, length_header; lia|fold e; lia].
  rewrite <- app_assoc, incr_length by done. fold e. f_equal. f_equal.
  - f_equal.
    + rewrite flat_len_app, flat_len_cons. cbn. lia.
    + unfold tail_off. by rewrite removelast_last.
  - rewrite flat_snoc. by rewrite <- app_assoc.
Qed.

(** The tail offset after the next entry [x] was moved and became [x']. *)
Lemma behind_entry b t l A x r :
  phys_ok x → chained_after r →
  ∃ y, get (header b t l ++ A ++ flat (x :: r) ++ [ZIP_END]) (10 + zlen A + rawlen x) = Some y ∧
       (y =? ZIP_END) = bool_decide (r = []).
Proof.
  intros Hx Hr. pose proof (length_header b t l) as HH.
  replace (header b t l ++ A ++ flat (x :: r) ++ [ZIP_END])
    with ((header b t l ++ A ++ enc_phys x) ++ flat r ++ [ZIP_END]) by (rewrite flat_cons; by rewrite <- !app_assoc).
  destruct r as [|y r].
  - change (flat [] ++ [ZIP_END]) with [ZIP_END]. rewrite get_app by zlia. by exists ZIP_END.
  - destruct Hr as [Hy _]. rewrite flat_cons, <- (app_assoc (enc_phys y)).
    destruct (get_entry (header b t l ++ A ++ enc_phys x) y (flat r ++ [ZIP_END])
      (10 + zlen A + rawlen x) Hy) as (z & E & Hz); [zlia|]. exists z. split; [done|]. rewrite Hz. done.
Qed.

Lemma entry_at b t l A x r :
  phys_ok x → zipEntry (header b t l ++ A ++ flat (x :: r) ++ [ZIP_END]) (10 + zlen A) = Some (entry_of x (10 + zlen A)).
Proof.
  intros Hx. pose proof (length_header b t l) as HH.
  replace (header b t l ++ A ++ flat (x :: r) ++ [ZIP_END])
    with ((header b t l ++ A) ++ enc_phys x ++ flat r ++ [ZIP_END]) by (rewrite flat_cons; by rewrite <- !app_assoc).
  replace (10 + zlen A) with (zlen (header b t l ++ A)) by zlia. by apply zipEntry_spec.
Qed.

(** The correction of the tail offset when the entry [x] has one behind it. *)
Lemma adjust_tail_k b t l A x r d (pos : zlentry → Z) (k : list Z → option (list Z * Z)) :
  phys_ok x → pos (entry_of x (10 + zlen A)) = 10 + zlen A + rawlen x → chained_after r → in_u 32 t →
  let zl := header b t l ++ A ++ flat (x :: r) ++ [ZIP_END] in
  (te ← zipEntry zl (10 + zlen A);
   y ← get zl (pos te);
   zl ← (if negb (y =? ZIP_END) then tail ← ZIPLIST_TAIL_OFFSET zl; set_tail zl (u32 (tail + d)) else Some zl);
   k zl) =
  k (header b (if decide (r = []) then t else u32 (t + d)) l ++ A ++ flat (x :: r) ++ [ZIP_END]).
Proof.
  intros Hx Hsz Hr Ht zl. subst zl. rewrite entry_at, some_bind, Hsz by done.
  destruct (behind_entry b t l A x r Hx Hr) as (y & -> & Hy). rewrite some_bind, Hy, header_tail, some_bind by done.
  rewrite set_tail_header. case_bool_decide; cbn [negb]; rewrite some_bind;
    [rewrite decide_True by done|rewrite decide_False by done]; done.
Qed.

Lemma adjust_tail b t l A x r d (pos : zlentry → Z) :
  phys_ok x → pos (entry_of x (10 + zlen A)) = 10 + zlen A + rawlen x → chained_after r → in_u 32 t →
  let zl := header b t l ++ A ++ flat (x :: r) ++ [ZIP_END] in
  (te ← zipEntry zl (10 + zlen A);
   y ← get zl (pos te);
   if negb (y =? ZIP_END) then tail ← ZIPLIST_TAIL_OFFSET zl; set_tail zl (u32 (tail + d)) else Some zl) =
  Some (header b (if decide (r = []) then t else u32 (t + d)) l ++ A ++ flat (x :: r) ++ [ZIP_END]).
Proof.
  intros Hx Hsz Hr Ht zl. subst zl. rewrite entry_at, some_bind, Hsz by done.
  destruct (behind_entry b t l A x r Hx Hr) as (y & -> & Hy). rewrite some_bind, Hy, header_tail, some_bind by done.
  rewrite set_tail_header. case_bool_decide; cbn [negb];
    [rewrite decide_True by done|rewrite decide_False by done]; done.
Qed.

Lemma fix_chain_id rl es : chain rl es → fix_chain rl es = es.
Proof. destruct es as [|e es]; [done|]. intros (E & _). by apply fix_chain_same. Qed.

(** The tail offset when the entries behind [es1] move by [n] and the first of
    them changes its size by [nd]. *)
Lemma moved_tail es1 x x' r n nd :
  rawlen x' = rawlen x + nd → 0 ≤ 10 + zlen (flat es1) + n → 11 + zlen (flat es1) + n + zlen (flat (x' :: r)) < 2 ^ 32 →
  let t := u32 (tail_off 10 (es1 ++ x :: r) + n) in
  (if decide (r = []) then t else u32 (t + nd)) = tail_off (10 + zlen (flat es1) + n) (x' :: r).
Proof.
  intros Er Hn Hs t. subst t. rewrite tail_off_app.
  pose proof (tail_off_bounds (10 + zlen (flat es1) + n) (x' :: r)) as Hb.
  destruct r as [|y r].
  - rewrite decide_True by done. rewrite !tail_off_one in *. apply u32_id. lia.
  - rewrite decide_False by done. rewrite (tail_grow _ x x' (y :: r) nd Er) in Hb |- *.
    pose proof (tail_off_later (10 + zlen (flat es1) + n) x y r) as Hl.
    rewrite (proj2 (Z.eqb_neq _ _)) in Hb |- * by lia. rewrite (tail_off_shift (10 + zlen (flat es1)) n) in Hb |- *.
    transitivity (u32 (tail_off (10 + zlen (flat es1)) (x :: y :: r) + n + nd)); [|apply u32_id; lia].
    unfold u32, wrapu. by rewrite Z.add_mod_idemp_l.
Qed.

(** The end of an insertion: the cascade, then the new entry over the gap [G]. *)
Lemma finish_insert es1 x x' r l s value enc n G nd :
  let e := new_entry (prev_size es1) s in
  let r' := fix_chain (rawlen x') r in
  encoded s = (value, enc, n) → zlen s < 2 ^ 32 → chain (rawlen x) r → phys_ok x' → in_u 16 l →
  rawlen x' = rawlen x + nd → zlen G = rawlen e →
  11 + zlen (flat (es1 ++ e :: x' :: r')) < 2 ^ 32 →
  let p := 10 + zlen (flat es1) in
  let A := flat es1 ++ G in
  let zl := header (11 + zlen A + zlen (flat (x' :: r))) (tail_off (10 + zlen A) (x' :: r)) l ++
            A ++ flat (x' :: r) ++ [ZIP_END] in
  (zl ← (if negb (nd =? 0) then __ziplistCascadeUpdate junk zl (p + rawlen e) else Some zl);
   zl ← mwrite zl p (zipPrevEncodeLength (prev_size es1));
   zl ← mwrite zl (p + zlen (zipPrevEncodeLength (prev_size es1))) (zipEncodeLength enc (zlen s));
   zl ← (if ZIP_IS_STR enc
         then mwrite zl (p + zlen (zipPrevEncodeLength (prev_size es1)) + zlen (zipEncodeLength enc (zlen s))) s
         else bs ← zipSaveInteger value enc;
              mwrite zl (p + zlen (zipPrevEncodeLength (prev_size es1)) + zlen (zipEncodeLength enc (zlen s))) bs);
   ZIPLIST_INCR_LENGTH zl 1) =
  Some (image (es1 ++ e :: x' :: r') (incr l 1)).
Proof.
  intros e r' E Hs Hr Hx' Hl Erx HG Hsz p A zl.
  assert (zlen A = zlen (flat es1) + rawlen e) as HA by (subst A; rewrite length_app; lia).
  rewrite flat_len_app, !flat_len_cons in Hsz.
  assert ((if negb (nd =? 0) then __ziplistCascadeUpdate junk zl (p + rawlen e) else Some zl) =
    Some (header (11 + zlen A + zlen (flat (x' :: r'))) (tail_off (10 + zlen A) (x' :: r')) l ++
          A ++ flat (x' :: r') ++ [ZIP_END])) as ->.
  { subst zl p. destruct (Z.eqb_spec nd 0) as [Hnd|Hnd]; cbn [negb].
    - subst r'. rewrite fix_chain_id; [done|]. rewrite Erx, Hnd, Z.add_0_r. done.
    - replace (10 + zlen (flat es1) + rawlen e) with (10 + zlen A) by lia.
      apply cascade_update; [done|by eapply chain_after|done|done|]. fold r'. rewrite flat_len_cons. lia. }
  rewrite some_bind. subst A p. rewrite <- (app_assoc (flat es1)), (app_assoc (header _ _ _)).
  rewrite (write_entry _ G _ _ _ _ _ _ _ (λ zl, ZIPLIST_INCR_LENGTH zl 1) E Hs);
    [|rewrite length_app, Nat2Z.inj_add, length_header; lia|done].
  rewrite <- app_assoc, incr_length by done. fold e. f_equal. unfold image, incr.
  rewrite tail_off_app, tail_off_cons, flat_len_app, (flat_len_cons e).
  rewrite flat_app, (flat_cons e), <- !app_assoc, HA, !Z.add_assoc. done.
Qed.

Lemma insert_mid es1 x r l s :
  wf (es1 ++ x :: r) l → no_shrink es1 (x :: r) s →
  11 + zlen (flat (inserted es1 (x :: r) s)) < 2 ^ 32 →
  __ziplistInsert junk (image (es1 ++ x :: r) l) (10 + zlen (flat es1)) s =
    Some (image (inserted es1 (x :: r) s) (incr l 1)).
Proof.
  intros Hwf Hns Hsz. pose proof (insert_prevlen_ok es1 (x :: r) l Hwf) as Hp.
  unfold __ziplistInsert, inserted, no_shrink in *. set (e := new_entry (prev_size es1) s) in *.
  set (x' := Phys (needs_big (rawlen e)) (rawlen e) (payload x)) in *.
  rewrite flat_len_app, !flat_len_cons in Hsz. pose proof (rawlen_pos e) as Hre. pose proof (rawlen_pos x') as Hrx'.
  pose proof (fix_chain_grows r (rawlen x')) as Hg.
  assert (zlen s < 2 ^ 32) as Hs by (apply (str_small (prev_size es1)); fold e; lia).
  pose proof (wf_size _ _ Hwf) as Hsz0. rewrite image_bytes, some_bind by lia.
  rewrite Hp, some_bind.
  change (match zipTryEncoding s with Some (v, enc) => (v, enc, zipIntSize enc) | None => (123456789, 0, zlen s) end)
    with (encoded s).
  destruct (encoded s) as [[value enc] n] eqn:E. cbv zeta.
  rewrite (entry_required _ _ _ _ _ E Hs). fold e. rewrite (u32_id (rawlen e)) by lia.
  destruct Hwf as [Hc _ _ Hl]. apply len_ok_range in Hl.
  apply chain_app in Hc as [Hc1 (Est & Hx & Hr)].
  pose proof (tail_off_bounds 10 (es1 ++ x :: r)) as Ht.
  rewrite flat_len_app, flat_len_cons in Hsz0, Ht.
  unfold image. set (b := 11 + zlen (flat (es1 ++ x :: r))). set (t := tail_off 10 (es1 ++ x :: r)) in *.
  assert (b = 11 + (zlen (flat es1) + (rawlen x + zlen (flat r)))) as Eb
    by (subst b; rewrite flat_len_app, flat_len_cons; done).
  clearbody b.
  set (F := flat es1) in *. set (nd := (if needs_big (rawlen e) then 5 else 1) - (if big x then 5 else 1)).
  assert (rawlen x' = rawlen x + nd) as Erx by (unfold rawlen; simpl; lia).
  assert (0 ≤ rawlen e + nd) as Hnd.
  { subst nd. destruct (needs_big (rawlen e)) eqn:?, (big x) eqn:?; lia. }
  assert (nd = 0 ∨ nd = 4 ∨ nd = -4) as Hnd3 by (subst nd; destruct (needs_big (rawlen e)), (big x); lia).
  assert (flat (es1 ++ x :: r) = F ++ enc_phys x ++ flat r) as Eflat by (by rewrite flat_app, flat_cons).
  rewrite Eflat. clear Eflat.
  assert (∀ b K, header b t l ++ (F ++ enc_phys x ++ flat r) ++ K =
                 (header b t l ++ F) ++ enc_phys x ++ flat r ++ K) as Em by (intros; by rewrite <- !app_assoc).
  assert (∀ b K, ∃ y, get (header b t l ++ (F ++ enc_phys x ++ flat r) ++ K) (10 + zlen F) = Some y ∧
                      (y =? ZIP_END) = false) as Hget.
  { intros b0 K. rewrite Em. apply get_entry; [done|zlia]. }
  destruct (Hget b [ZIP_END]) as (y & -> & Hy). rewrite some_bind, Hy. cbn [negb].
  assert (zipPrevLenByteDiff (header b t l ++ (F ++ enc_phys x ++ flat r) ++ [ZIP_END]) (10 + zlen F) (rawlen e) =
          Some nd) as ->.
  { rewrite Em. replace (10 + zlen F) with (zlen (header b t l ++ F)) by zlia. by apply byte_diff_spec. }
  rewrite some_bind.
  rewrite (u32_id (b + rawlen e + nd)) by lia.
  destruct (resize_grow b t l (F ++ enc_phys x ++ flat r) (b + rawlen e + nd)) as (J & -> & HJ & _); [zlia|].
  set (b' := b + rawlen e + nd) in *. rewrite some_bind.
  destruct (make_room b' t l F x r J (b - (10 + zlen F) - 1 + nd) (10 + zlen F) (rawlen e)) as (G & HG & Hroom);
    [done|zlia|lia|zlia|].
  fold nd in Hroom.
  destruct (Hget b' (J ++ [ZIP_END])) as (z & -> & Hz). rewrite some_bind, Hz. cbn [negb]. rewrite Hroom. fold x'.
  rewrite header_tail, some_bind by (unfold in_u; lia). rewrite set_tail_header, some_bind.
  assert (phys_ok x') as Hx'.
  { split; [simpl; lia|]. split; [|apply Hx]. simpl. unfold needs_big. rewrite negb_false_iff. apply Z.ltb_lt. }
  replace (10 + zlen F + rawlen e) with (10 + zlen (F ++ G)) by zlia.
  rewrite (adjust_tail b' (u32 (t + rawlen e)) l (F ++ G) x' r nd (λ te, 10 + zlen (F ++ G) + headersize te + elen te));
    [|done|rewrite <- (entry_size x' (10 + zlen (F ++ G))); lia|by eapply chain_after|apply wrapu_range; lia]. rewrite some_bind.
  replace (10 + zlen (F ++ G)) with (10 + zlen F + rawlen e) by zlia.
  assert (11 + zlen (flat es1) + rawlen e + zlen (flat (x' :: r)) < 2 ^ 32) as Hs2
    by (rewrite flat_len_cons; fold F; lia).
  pose proof (moved_tail es1 x x' r (rawlen e) nd Erx ltac:(lia) Hs2) as Hmt. cbv zeta in Hmt. fold t in Hmt.
  rewrite Hmt. fold F.
  pose proof (finish_insert es1 x x' r l s value enc n G nd E Hs Hr Hx' Hl Erx HG) as Hfin.
  fold e in Hfin. fold F in Hfin. cbv zeta in Hfin.
  replace (10 + zlen (F ++ G)) with (10 + zlen F + rawlen e) in Hfin by (rewrite length_app; lia).
  replace (11 + zlen (F ++ G) + zlen (flat (x' :: r))) with b' in Hfin by (rewrite length_app, flat_len_cons; lia).
  apply Hfin. rewrite flat_len_app, !flat_len_cons. fold F. lia.
Qed.

Lemma insert_image es1 es2 l s :
  wf (es1 ++ es2) l → no_shrink es1 es2 s → 11 + zlen (flat (inserted es1 es2 s)) < 2 ^ 32 →
  __ziplistInsert junk (image (es1 ++ es2) l) (10 + zlen (flat es1)) s = Some (image (inserted es1 es2 s) (incr l 1)).
Proof. destruct es2 as [|x r]; intros; [|by apply insert_mid]. rewrite app_nil_r in *. by apply insert_tail. Qed.

Lemma needs_small n : needs_big n = false → n < ZIP_BIGLEN.
Proof. unfold needs_big. rewrite negb_false_iff. apply Z.ltb_lt. Qed.

(** An entry with the smallest field is as it should be. *)
Lemma minimal_ok prev c : 0 ≤ prev < 2 ^ 32 → content_ok c → phys_ok (Phys (needs_big prev) prev c).
Proof. intros H Hc. split; [done|]. split; [apply needs_small|done]. Qed.

Lemma prev_size_range es l : wf es l → ∀ es1 es2, es = es1 ++ es2 → 0 ≤ prev_size es1 < 2 ^ 32.
Proof.
  intros [_ _ Hs _] es1 es2 ->. rewrite flat_len_app in Hs. unfold prev_size.
  destruct (decide (es1 = [])) as [->|N]; [done|]. destruct (exists_last N) as (es0 & y & ->).
  rewrite last_snoc. cbn. rewrite flat_len_app, flat_len_cons in Hs. pose proof (rawlen_pos y). lia.
Qed.

Lemma incr_ok l n d :
  len_ok l n → 0 ≤ Z.of_nat n + d → d ≤ 1 → len_ok (incr l d) (Z.to_nat (Z.of_nat n + d)).
Proof.
  unfold len_ok, incr, UINT16_MAX. intros [[-> H]| ->] Hd Hd1.
  - rewrite (proj2 (Z.ltb_lt _ _)) by lia. assert (u16 (Z.of_nat n + d) = Z.of_nat n + d) as ->.
    { apply wrapu_id. unfold in_u. pow2. lia. }
    destruct (decide (Z.of_nat n + d = 65535)); [by right|left; lia].
  - right. done.
Qed.

Lemma inserted_wf es1 es2 l s :
  wf (es1 ++ es2) l → 11 + zlen (flat (inserted es1 es2 s)) < 2 ^ 32 → wf (inserted es1 es2 s) (incr l 1).
Proof.
  intros Hwf Hs. pose proof (prev_size_range _ _ Hwf es1 es2 eq_refl) as Hp. destruct Hwf as [Hc Hh _ Hl].
  unfold inserted in *. set (e := new_entry (prev_size es1) s) in *. apply chain_app in Hc as [Hc1 Hc2].
  rewrite flat_len_app, flat_len_cons in Hs. pose proof (rawlen_pos e) as Hre.
  assert (phys_ok e) as He.
  { apply minimal_ok; [done|]. apply content_of_ok, (str_small (prev_size es1)). fold e. lia. }
  split.
  - apply chain_app. split; [done|]. split; [done|]. split; [done|]. destruct es2 as [|x r]; [done|].
    rewrite flat_len_cons in Hs. set (x' := Phys _ (rawlen e) _) in *. pose proof (rawlen_pos x').
    destruct Hc2 as (_ & Hx & Hr). split; [done|]. split; [apply minimal_ok; [lia|apply Hx]|].
    apply fix_chain_chain; [by eapply chain_after|lia|lia].
  - intros e0. destruct es1 as [|e1 es1]; [|by apply Hh]. cbn. intros [= <-]. done.
  - rewrite flat_len_app, flat_len_cons. lia.
  - rewrite length_app in Hl |- *. cbn [length]. 
    replace (length es1 + _)%nat with (Z.to_nat (Z.of_nat (length es1 + length es2) + 1)).
    { apply incr_ok; [done|lia|lia]. }
    destruct es2 as [|x r]; cbn [length]; [lia|].
    set (x' := Phys _ _ _). rewrite <- (length_fmap payload (fix_chain _ r)), fix_chain_payload, length_fmap. lia.
Qed.

Lemma inserted_payload es1 es2 s :
  payload <$> inserted es1 es2 s = (payload <$> es1) ++ content_of s :: (payload <$> es2).
Proof.
  unfold inserted. rewrite fmap_app, fmap_cons. f_equal. cbn [payload new_entry]. f_equal.
  destruct es2 as [|x r]; [done|]. rewrite !fmap_cons. by rewrite fix_chain_payload.
Qed.

(** ** Deletion *)
Lemma delete_scan_ok es : ∀ fuel b t l A num deleted,
  (length es < fuel)%nat → chained_after es → 0 ≤ deleted →
  11 + zlen A + zlen (flat es) < 2 ^ 32 →
  let k := Z.to_nat (num - deleted) in
  delete_scan fuel (header b t l ++ A ++ flat es ++ [ZIP_END]) (10 + zlen A) num deleted =
  Some (10 + zlen A + zlen (flat (take k es)), deleted + zlen (take k es)).
Proof.
  induction es as [|e es IH]; intros [|fuel] b t l A num deleted Hf Hes Hd Hs; cbn [length] in *; try lia;
    cbn [delete_scan].
  - change (flat [] ++ [ZIP_END]) with [ZIP_END]. rewrite app_assoc, get_app, some_bind by zlia.
    change (negb (ZIP_END =? ZIP_END)) with false. cbn [andb]. rewrite take_nil. cbn. do 2 f_equal; lia.
  - destruct Hes as [He Hes]. rewrite flat_len_cons in Hs. pose proof (rawlen_pos e).
    rewrite flat_cons, <- (app_assoc (enc_phys e)), (app_assoc (header b t l)).
    pose proof (length_header b t l) as HH.
    destruct (get_entry (header b t l ++ A) e (flat es ++ [ZIP_END]) (10 + zlen A) He) as (x & -> & Hx); [zlia|].
    rewrite some_bind, Hx. cbn [negb andb]. destruct (Z.ltb_spec deleted num) as [Hlt|Hge].
    + replace (10 + zlen A) with (zlen (header b t l ++ A)) at 1 by zlia.
      rewrite raw_length_spec, some_bind by (done || lia).
      replace ((header b t l ++ A) ++ enc_phys e ++ flat es ++ [ZIP_END])
        with (header b t l ++ (A ++ enc_phys e) ++ flat es ++ [ZIP_END]) by (by rewrite <- !app_assoc).
      replace (10 + zlen A + rawlen e) with (10 + zlen (A ++ enc_phys e)) by zlia.
      rewrite IH; [|lia|by eapply chain_after|lia|zlia].
      replace (Z.to_nat (num - deleted)) with (S (Z.to_nat (num - (deleted + 1)))) by lia.
      cbn [take]. rewrite flat_len_cons, length_cons. do 2 f_equal; zlia.
    + replace (Z.to_nat (num - deleted)) with 0%nat by lia. cbn. do 2 f_equal; lia.
Qed.

(** The entries after the deletion of those between [es1] and [es2]. *)
Definition deleted_from (es1 es2 : list phys) : list phys :=
  es1 ++ match es2 with
         | [] => []
         | x :: r => let x' := Phys (needs_big (prev_size es1)) (prev_size es1) (payload x) in
                     x' :: fix_chain (rawlen x') r
         end.

(** Storing the new field in front of the next entry [x]; [del] are the entries
    that go, whose last bytes it may take. *)
Lemma steal_field b t l F del x r n q :
  let nd := (if needs_big n then 5 else 1) - (if big x then 5 else 1) in
  q = 10 + zlen F + zlen (flat del) → 4 ≤ zlen (flat del) ∨ nd ≤ 0 →
  ∃ D, zlen D = zlen (flat del) - nd ∧
    mwrite (header b t l ++ F ++ flat del ++ flat (x :: r) ++ [ZIP_END]) (q - nd) (zipPrevEncodeLength n) =
    Some (header b t l ++ (F ++ D) ++ flat (Phys (needs_big n) n (payload x) :: r) ++ [ZIP_END]).
Proof.
  intros nd -> Hd. pose proof (length_header b t l) as HH. set (H := header b t l) in *.
  set (f := enc_prev (big x) (stored x)). set (C := enc_content (payload x) ++ flat r).
  pose proof (length_enc_prev (big x) (stored x)) as Hf. fold f in Hf.
  assert (∃ D f', zlen D = zlen (flat del) - nd ∧ zlen f' = (if needs_big n then 5 else 1) ∧
    flat del ++ f = D ++ f') as (D & f' & HD & Hf' & Ed).
  { destruct (split_at (flat del ++ f) (zlen (flat del) - nd)) as (D & f' & Ed & HD).
    { rewrite length_app. subst nd. destruct (needs_big n), (big x); lia. }
    exists D, f'. split; [done|]. split; [|done]. apply (f_equal length) in Ed. rewrite !length_app in Ed.
    subst nd. destruct (needs_big n), (big x); lia. }
  exists D. split; [done|].
  assert (H ++ F ++ flat del ++ flat (x :: r) ++ [ZIP_END] = (H ++ F ++ D) ++ f' ++ (C ++ [ZIP_END])) as ->.
  { rewrite flat_cons. unfold enc_phys. fold f. subst C. rewrite <- !app_assoc. do 2 f_equal.
    rewrite !app_assoc. by rewrite Ed. }
  rewrite (mwrite_app _ f' (zipPrevEncodeLength n)); first last.
  { apply Nat2Z.inj. by rewrite prev_encode_size. } { zlia. }
  rewrite prev_encode, flat_cons. unfold enc_phys. cbn [big stored payload]. subst C. by rewrite <- !app_assoc.
Qed.

(** The start of a deletion: the first entry and where the scan stops. *)
Lemma delete_start es1 f del es2 l num (k : zlentry → Z * Z → option (list Z)) :
  let es := es1 ++ (f :: del) ++ es2 in
  let p := 10 + zlen (flat es1) in
  wf es l → take (Z.to_nat num) ((f :: del) ++ es2) = f :: del →
  (first ← zipEntry (image es l) p;
   qd ← delete_scan (S (length (image es l))) (image es l) p num 0;
   k first qd) =
  k (entry_of f p) (p + zlen (flat (f :: del)), zlen (f :: del)).
Proof.
  intros es p [Hc _ Hs _] Htake. subst es p. rewrite flat_len_app in Hs. apply chain_app in Hc as [_ Hc].
  unfold image. rewrite (flat_app es1). set (b := 11 + _). set (t := tail_off _ _).
  pose proof (length_header b t l) as HH.
  assert (header b t l ++ (flat es1 ++ flat ((f :: del) ++ es2)) ++ [ZIP_END] =
          (header b t l ++ flat es1) ++ enc_phys f ++ flat (del ++ es2) ++ [ZIP_END]) as E.
  { cbn [app]. rewrite flat_cons. by rewrite <- !app_assoc. }
  rewrite E at 1. replace (10 + zlen (flat es1)) with (zlen (header b t l ++ flat es1)) by zlia.
  rewrite zipEntry_spec, some_bind by (apply Hc). clear E. rewrite <- (app_assoc (flat es1)).
  replace (zlen (header b t l ++ flat es1)) with (10 + zlen (flat es1)) by zlia.
  rewrite delete_scan_ok, some_bind; [|..|by eapply chain_after|lia|lia].
  - rewrite Z.sub_0_r, Htake, Z.add_0_l. done.
  - pose proof (flat_count ((f :: del) ++ es2)). rewrite !length_app in *. lia.
Qed.

Lemma tail_prev es : 10 + zlen (flat es) - prev_size es = tail_off 10 es.
Proof.
  unfold tail_off, prev_size. destruct (decide (es = [])) as [->|N]; [done|].
  destruct (exists_last N) as (es0 & y & ->). rewrite last_snoc, removelast_last, flat_len_app, flat_len_cons.
  cbn. lia.
Qed.

Lemma delete_to_end es1 f del l num :
  wf (es1 ++ f :: del) l → zlen (f :: del) ≤ num →
  __ziplistDelete junk (image (es1 ++ f :: del) l) (10 + zlen (flat es1)) num =
    Some (image es1 (incr l (- zlen (f :: del)))).
Proof.
  intros Hwf Hn. unfold __ziplistDelete.
  pose proof (λ k, delete_start es1 f del [] l num k) as Hst. cbv zeta in Hst. rewrite app_nil_r in Hst.
  rewrite Hst by (done || (apply take_ge; lia)). clear Hst. cbv beta iota.
  destruct (entry_prev f (10 + zlen (flat es1))) as [Efp _]. rewrite Efp.
  destruct Hwf as [Hc _ Hs Hl]. apply len_ok_range in Hl. apply chain_app in Hc as [_ [Hst _]].
  pose proof (rawlen_pos f) as Hrf. pose proof (tail_off_bounds 10 (es1 ++ f :: del)) as Htb.
  rewrite flat_len_app, flat_len_cons in Hs, Htb.
  assert (zlen (flat (f :: del)) = rawlen f + zlen (flat del)) as Hfd by apply flat_len_cons.
  replace (10 + zlen (flat es1) + zlen (flat (f :: del)) - (10 + zlen (flat es1))) with (zlen (flat (f :: del))) by lia.
  rewrite (u32_id (zlen (flat (f :: del)))) by lia.
  rewrite (proj2 (Z.gtb_lt (zlen (flat (f :: del))) 0)) by lia.
  rewrite Hst. fold (prev_size es1). rewrite tail_prev. pose proof (tail_off_bounds 10 es1) as Htb1.
  unfold image at 1. set (b := 11 + zlen (flat (es1 ++ f :: del))). set (t := tail_off 10 (es1 ++ f :: del)) in *.
  assert (b = 11 + zlen (flat es1) + zlen (flat (f :: del))) as Eb by (subst b; rewrite flat_len_app; lia).
  assert (flat (es1 ++ f :: del) ++ [ZIP_END] = flat es1 ++ flat (f :: del) ++ [ZIP_END]) as Ef
    by (by rewrite flat_app, <- app_assoc).
  assert (get (image (es1 ++ f :: del) l) (10 + zlen (flat es1) + zlen (flat (f :: del))) = Some ZIP_END) as ->.
  { unfold image. rewrite app_assoc, get_app; [done|]. zlia. }
  rewrite some_bind. change (negb (ZIP_END =? ZIP_END)) with false. cbv iota. unfold image at 1.
  rewrite set_tail_header, !some_bind. fold b. rewrite header_bytes, some_bind by (unfold in_u; lia).
  rewrite Ef, resize_shrink, some_bind; [|rewrite u32_id; lia|rewrite length_app; simpl; lia].
  rewrite incr_length, some_bind by done. change (negb (0 =? 0)) with false. cbv iota. unfold image.
  rewrite !u32_id by lia. do 3 f_equal. lia.
Qed.

(** The rest moves over the gap [D]. *)
Lemma close_gap b t l A D X p q n :
  p = 10 + zlen A → q = p + zlen D → n = zlen X →
  ∃ Y, 1 ≤ zlen Y ∧
    memmove (header b t l ++ (A ++ D) ++ X ++ [ZIP_END]) p q n = Some (header b t l ++ A ++ X ++ Y).
Proof.
  intros -> -> ->. pose proof (length_header b t l) as HH. exists (drop (length X) (D ++ X) ++ [ZIP_END]).
  split; [rewrite length_app; simpl; lia|].
  replace (header b t l ++ (A ++ D) ++ X ++ [ZIP_END]) with (((header b t l ++ A) ++ D ++ X) ++ [ZIP_END])
    by (by rewrite <- !app_assoc).
  erewrite memmove_frame; [|apply memmove_left; zlia]. by rewrite <- !app_assoc.
Qed.

(** The end of a deletion: the block shrinks, and the cascade runs if the size
    of the next entry changed. *)
Lemma finish_delete es1 x x' r l Y nd d tot b :
  let A := flat es1 in
  let p := 10 + zlen A in
  let r' := fix_chain (rawlen x') r in
  chain (rawlen x) r → phys_ok x' → in_u 16 l → rawlen x' = rawlen x + nd → 1 ≤ zlen Y →
  11 + zlen (flat (es1 ++ x' :: r')) < 2 ^ 32 → in_u 32 b →
  b - tot + nd = 11 + zlen A + zlen (flat (x' :: r)) →
  (bytes ← ZIPLIST_BYTES (header b (tail_off p (x' :: r)) l ++ A ++ flat (x' :: r) ++ Y);
   zl ← ziplistResize junk (header b (tail_off p (x' :: r)) l ++ A ++ flat (x' :: r) ++ Y) (u32 (bytes - tot + nd));
   zl ← ZIPLIST_INCR_LENGTH zl d;
   if negb (nd =? 0) then __ziplistCascadeUpdate junk zl p else Some zl) =
  Some (image (es1 ++ x' :: r') (incr l d)).
Proof.
  intros A p r' Hr Hx' Hl Erx HY Hs' Hb Eb. rewrite flat_len_app, flat_len_cons in Hs'. fold A in Hs'.
  pose proof (fix_chain_grows r (rawlen x')) as Hg. fold r' in Hg. pose proof (rawlen_pos x').
  rewrite header_bytes, some_bind by done. rewrite Eb. rewrite flat_len_cons.
  rewrite u32_id by lia. rewrite (app_assoc A), resize_shrink, some_bind; first last.
  { done. } { rewrite length_app, flat_cons, length_app, !Nat2Z.inj_add, length_enc_phys. lia. }
  rewrite incr_length, some_bind by done. fold (incr l d). rewrite <- app_assoc.
  transitivity (Some (header (11 + zlen A + zlen (flat (x' :: r'))) (tail_off p (x' :: r')) (incr l d) ++
                      A ++ flat (x' :: r') ++ [ZIP_END])).
  - destruct (Z.eqb_spec nd 0) as [Hnd|Hnd]; cbn [negb].
    + subst r'. rewrite fix_chain_id, flat_len_cons; [done|]. rewrite Erx, Hnd, Z.add_0_r. done.
    + apply cascade_update; [done|by eapply chain_after|by rewrite flat_len_cons|done|]. fold r'. rewrite flat_len_cons. lia.
  - unfold image. rewrite tail_off_app, flat_len_app, flat_app, <- app_assoc, Z.add_assoc. done.
Qed.

Lemma delete_mid es1 f del x r l :
  let es2 := x :: r in
  wf (es1 ++ (f :: del) ++ es2) l → 11 + zlen (flat (deleted_from es1 es2)) < 2 ^ 32 →
  __ziplistDelete junk (image (es1 ++ (f :: del) ++ es2) l) (10 + zlen (flat es1)) (zlen (f :: del)) =
    Some (image (deleted_from es1 es2) (incr l (- zlen (f :: del)))).
Proof.
  intros es2 Hwf Hs'. unfold __ziplistDelete, deleted_from in *. subst es2.
  rewrite (delete_start es1 f del (x :: r) l (zlen (f :: del))); [|done|rewrite Nat2Z.id; apply take_app_length].
  cbv beta iota. destruct (entry_prev f (10 + zlen (flat es1))) as [Efp _]. rewrite Efp.
  pose proof (prev_size_range _ _ Hwf es1 _ eq_refl) as Hps.
  destruct Hwf as [Hc _ Hs Hl]. apply len_ok_range in Hl.
  apply chain_app in Hc as [_ Hc]. apply chain_app in Hc as [[Hst [Hf _]] [_ [Hx Hr]]].
  rewrite Hst. fold (prev_size es1). set (n := prev_size es1) in *.
  pose proof (rawlen_pos f) as Hrf.
  set (nd := (if needs_big n then 5 else 1) - (if big x then 5 else 1)).
  set (x' := Phys (needs_big n) n (payload x)) in *.
  assert (rawlen x' = rawlen x + nd) as Erx by (unfold rawlen; simpl; lia).
  assert (phys_ok x') as Hx' by (apply minimal_ok; [done|apply Hx]).
  set (fd := f :: del) in *. assert (rawlen f ≤ zlen (flat fd)) as Hfd by (subst fd; rewrite flat_len_cons; lia).
  assert (4 ≤ zlen (flat fd) ∨ nd ≤ 0) as Hnd.
  { destruct (Z.le_gt_cases nd 0); [by right|left]. etrans; [|exact Hfd]. 
    assert (big f = true) as Hbf.
    { destruct (big f) eqn:Ebf; [done|]. destruct Hf as (_ & Hf & _). specialize (Hf Ebf). rewrite Hst in Hf.
      fold (prev_size es1) n in Hf. subst nd. unfold needs_big in *. rewrite (proj2 (Z.ltb_lt _ _) Hf) in *.
      simpl in *. destruct (big x); lia. }
    unfold rawlen. rewrite Hbf. pose proof (content_len_pos (payload f)). lia. }
  assert (zlen (flat (es1 ++ fd ++ x :: r)) = zlen (flat es1) + zlen (flat fd) + rawlen x + zlen (flat r)) as Hall
    by (rewrite !flat_len_app, flat_len_cons; lia).
  pose proof (tail_off_bounds 10 (es1 ++ fd ++ x :: r)) as Htb. pose proof (rawlen_pos x) as Hrx.
  replace (10 + zlen (flat es1) + zlen (flat fd) - (10 + zlen (flat es1))) with (zlen (flat fd)) by lia.
  rewrite (u32_id (zlen (flat fd))), (proj2 (Z.gtb_lt (zlen (flat fd)) 0)) by lia.
  assert (image (es1 ++ fd ++ x :: r) l =
    header (11 + zlen (flat (es1 ++ fd ++ x :: r))) (tail_off 10 (es1 ++ fd ++ x :: r)) l ++
    flat es1 ++ flat fd ++ flat (x :: r) ++ [ZIP_END]) as Eim.
  { unfold image. by rewrite !flat_app, <- !app_assoc. }
  rewrite Eim. set (b := 11 + _) in *. set (t := tail_off _ _) in *. clear Eim. pose proof (length_header b t l) as HH.
  set (q := 10 + zlen (flat es1) + zlen (flat fd)).
  assert (header b t l ++ flat es1 ++ flat fd ++ flat (x :: r) ++ [ZIP_END] =
          (header b t l ++ flat es1 ++ flat fd) ++ enc_phys x ++ flat r ++ [ZIP_END]) as E1.
  { rewrite flat_cons. by rewrite <- !app_assoc. }
  assert (q = zlen (header b t l ++ flat es1 ++ flat fd)) as Eq by (subst q; rewrite !length_app; lia).
  destruct (get_entry (header b t l ++ flat es1 ++ flat fd) x (flat r ++ [ZIP_END]) q Hx Eq) as (y & Ey & Hy).
  rewrite <- E1 in Ey. rewrite Ey, some_bind, Hy. cbn [negb]. clear Ey.
  pose proof (byte_diff_spec (header b t l ++ flat es1 ++ flat fd) x (flat r ++ [ZIP_END]) n Hx) as Ed.
  rewrite <- E1, <- Eq in Ed. rewrite Ed, some_bind. clear Ed E1. fold nd.
  destruct (steal_field b t l (flat es1) fd x r n q eq_refl Hnd) as (D & HD & Esf).
  fold nd in HD, Esf. rewrite Esf, some_bind. fold x'. clear Esf.
  rewrite header_tail, some_bind by (unfold in_u; lia). rewrite set_tail_header, some_bind.
  assert (q - nd = 10 + zlen (flat es1 ++ D)) as Eq2 by (subst q; rewrite length_app; lia). rewrite Eq2.
  pose proof (moved_tail (es1 ++ fd) x x' r (- zlen (flat fd)) nd Erx) as Hmt. cbv zeta in Hmt.
  rewrite <- app_assoc in Hmt. fold t in Hmt. rewrite flat_len_app, (flat_len_cons x') in Hmt.
  replace (10 + (zlen (flat es1) + zlen (flat fd)) + - zlen (flat fd)) with (10 + zlen (flat es1)) in Hmt by lia.
  specialize (Hmt ltac:(lia) ltac:(lia)). rewrite Z.add_opp_r in Hmt.
  set (t1 := u32 (t - zlen (flat fd))) in *. assert (in_u 32 t1) as Ht1 by (apply wrapu_range; lia).
  rewrite (adjust_tail_k b t1 l (flat es1 ++ D) x' r nd (λ te, 10 + zlen (flat es1 ++ D) + u32 (headersize te + elen te)));
    [|done|rewrite entry_size, u32_id; [done|pose proof (rawlen_pos x'); lia]|by eapply chain_after|done].
  rewrite Hmt, header_bytes, some_bind by (unfold in_u; lia).
  destruct (close_gap b (tail_off (10 + zlen (flat es1)) (x' :: r)) l (flat es1) D (flat (x' :: r))
    (10 + zlen (flat es1)) (10 + zlen (flat es1 ++ D)) (b - (10 + zlen (flat es1 ++ D)) - 1)) as (Y & HY & ->);
    [done|rewrite length_app; lia|rewrite length_app, flat_len_cons; lia|].
  rewrite !some_bind. by apply finish_delete with (x := x); try done; rewrite ?flat_len_cons; unfold in_u; lia.
Qed.

Lemma delete_zero es1 f es2 l :
  wf (es1 ++ f :: es2) l →
  __ziplistDelete junk (image (es1 ++ f :: es2) l) (10 + zlen (flat es1)) 0 = Some (image (es1 ++ f :: es2) l).
Proof.
  intros [Hc _ Hs _]. unfold __ziplistDelete. apply chain_app in Hc as [_ (_ & Hf & Hr)].
  assert (image (es1 ++ f :: es2) l = header (11 + zlen (flat (es1 ++ f :: es2))) (tail_off 10 (es1 ++ f :: es2)) l ++
            flat es1 ++ flat (f :: es2) ++ [ZIP_END]) as E by (unfold image; by rewrite flat_app, <- app_assoc).
  rewrite flat_len_app in Hs. rewrite E. rewrite entry_at, some_bind by done. rewrite delete_scan_ok, some_bind by
    (lia || (split; [done|done]) || (pose proof (flat_count (f :: es2)); rewrite !length_app; lia)).
  cbv beta iota. change (take (Z.to_nat (0 - 0)) (f :: es2)) with (@nil phys). change (zlen (flat [])) with 0.
  replace (10 + zlen (flat es1) + 0 - (10 + zlen (flat es1))) with 0 by lia.
  change (u32 0 >? 0) with false. done.
Qed.

Lemma delete_image es1 f es2 l num :
  0 < num → wf (es1 ++ f :: es2) l →
  let del := take (Z.to_nat num) (f :: es2) in
  let rest := drop (Z.to_nat num) (f :: es2) in
  11 + zlen (flat (deleted_from es1 rest)) < 2 ^ 32 →
  __ziplistDelete junk (image (es1 ++ f :: es2) l) (10 + zlen (flat es1)) num =
    Some (image (deleted_from es1 rest) (incr l (- zlen del))).
Proof.
  intros Hn Hwf del rest Hs.
  assert (∃ del', del = f :: del') as [del' Ed] by (subst del; replace (Z.to_nat num) with (S (Z.to_nat (num - 1))) by lia; by eexists).
  assert (f :: es2 = del ++ rest) as Es by (subst del rest; by rewrite take_drop). rewrite Es in *.
  destruct rest as [|x r] eqn:Er.
  - rewrite app_nil_r in *. unfold deleted_from. rewrite app_nil_r. rewrite Ed in *. apply delete_to_end; [done|].
    apply (f_equal length) in Er. subst rest. rewrite length_drop, Es in Er. cbn [length] in *. lia.
  - replace num with (zlen del); [rewrite Ed in *; by apply delete_mid|].
    apply (f_equal length) in Er. subst rest del. rewrite length_drop in Er. rewrite length_take.
    cbn [length] in *. lia.
Qed.

Lemma deleted_wf es1 del es2 l :
  wf (es1 ++ del ++ es2) l → 11 + zlen (flat (deleted_from es1 es2)) < 2 ^ 32 →
  wf (deleted_from es1 es2) (incr l (- zlen del)).
Proof.
  intros Hwf Hs. pose proof (prev_size_range _ _ Hwf es1 _ eq_refl) as Hp. destruct Hwf as [Hc Hh _ Hl].
  unfold deleted_from in *. apply chain_app in Hc as [Hc1 Hc2]. apply chain_app in Hc2 as [_ Hc2]. split.
  - apply chain_app. split; [done|]. destruct es2 as [|x r]; [done|]. set (x' := Phys _ _ _) in *.
    rewrite flat_len_app, flat_len_cons in Hs. pose proof (rawlen_pos x').
    destruct Hc2 as (_ & Hx & Hr). split; [done|]. split; [apply minimal_ok; [lia|apply Hx]|].
    apply fix_chain_chain; [by eapply chain_after|lia|lia].
  - intros e0. destruct es1 as [|e1 es1]; [|by apply Hh]. destruct es2 as [|x r]; [done|].
    cbn. intros [= <-]. done.
  - done.
  - rewrite !length_app in Hl. 
    match goal with |- len_ok _ ?n => replace n with (Z.to_nat (Z.of_nat (length es1 + (length del + length es2)) + - zlen del)) end.
    { apply incr_ok; [done|lia|lia]. }
    rewrite length_app. destruct es2 as [|x r]; cbn [length]; [lia|].
    rewrite <- (length_fmap payload (fix_chain _ r)), fix_chain_payload, length_fmap. lia.
Qed.

Lemma deleted_payload es1 es2 : payload <$> deleted_from es1 es2 = (payload <$> es1) ++ (payload <$> es2).
Proof.
  unfold deleted_from. rewrite fmap_app. f_equal. destruct es2 as [|x r]; [done|].
  rewrite !fmap_cons. by rewrite fix_chain_payload.
Qed.
End proofs.

(** ** Properties *)

(** C19: the cascade ends within its bound and repairs the list: started at an
    entry whose size has changed, behind which the entries were chained, it
    makes every entry behind it store the size of the one in front, widening
    fields and moving the rest where that needs more bytes, and keeps the
    header up to date; the payloads do not change. *)
Theorem cascade_repairs junk cur es A l :
  phys_ok cur → chained_after es →
  11 + zlen A + zlen (flat (cur :: es)) + 4 * zlen es < 2 ^ 32 →
  ∃ es', __ziplistCascadeUpdate junk
           (header (11 + zlen A + zlen (flat (cur :: es))) (tail_off (10 + zlen A) (cur :: es)) l ++
            A ++ flat (cur :: es) ++ [ZIP_END]) (10 + zlen A) =
         Some (header (11 + zlen A + zlen (flat (cur :: es'))) (tail_off (10 + zlen A) (cur :: es')) l ++
               A ++ flat (cur :: es') ++ [ZIP_END]) ∧
    chain (rawlen cur) es' ∧ payload <$> es' = payload <$> es.
Proof.
  intros Hc He Hs. exists (fix_chain (rawlen cur) es).
  pose proof (fix_chain_grows es (rawlen cur)). pose proof (rawlen_pos cur). rewrite flat_len_cons in Hs.
  split; [apply cascade_update; try done; rewrite flat_len_cons; lia|].
  split; [apply fix_chain_chain; [done|lia|lia]|apply fix_chain_payload].
Qed.

(** An entry of 260 bytes in front of two entries: the field of the first is
    widened, and that makes it 254 bytes long, so the second is widened too. *)
Definition big_entry : phys := Phys false 0 (CStr (replicate 260 65)).
Definition small_entries : list phys :=
  [Phys false 3 (CStr (replicate 247 66)); Phys false 250 (CStr [67; 68])].

Lemma cascade_repairs_witness :
  phys_ok big_entry ∧ chained_after small_entries ∧
  ∃ es', __ziplistCascadeUpdate (λ _, 7)
           (header (11 + 0 + zlen (flat (big_entry :: small_entries))) (tail_off (10 + 0) (big_entry :: small_entries)) 3 ++
            [] ++ flat (big_entry :: small_entries) ++ [ZIP_END]) (10 + 0) =
         Some (header (11 + 0 + zlen (flat (big_entry :: es'))) (tail_off (10 + 0) (big_entry :: es')) 3 ++
               [] ++ flat (big_entry :: es') ++ [ZIP_END]) ∧
    chain (rawlen big_entry) es' ∧ payload <$> es' = payload <$> small_entries.
Proof.
  assert (Hc : phys_ok big_entry) by (vm_compute; repeat split; done).
  assert (He : chained_after small_entries) by (vm_compute; repeat split; done).
  split; [exact Hc|]. split; [exact He|].
  apply (cascade_repairs (λ _, 7) big_entry small_entries [] 3 Hc He). vm_compute. reflexivity.
Defined.
