(* ===== verification/ZipRead.v ===== *)
(** * Ziplists as lists ([redis-3.2/src/ziplist.c]: reading, searching, merging)

    The functions that walk a block, and the view of a block as a list of
    strings ([zip]): every operation is compared with the operation on lists
    that it stands for. *)

From S2P Require Import Prelude Decimal Util Zipenc Ziplist.

(** The offset of the entry [k]. *)
Definition offset (es : list phys) (k : nat) : Z := 10 + zlen (flat (take k es)).

(** ** Looking at one entry *)
Lemma image_split es1 e es2 l :
  ∃ P, zlen P = 10 + zlen (flat es1) ∧
    image (es1 ++ e :: es2) l = P ++ enc_phys e ++ flat es2 ++ [ZIP_END].
Proof.
  eexists (header _ _ l ++ flat es1). split; [rewrite length_app, Nat2Z.inj_add, length_header; done|].
  unfold image. rewrite flat_app, flat_cons. by rewrite <- !app_assoc.
Qed.

Lemma get_end es l : get (image es l) (10 + zlen (flat es)) = Some ZIP_END.
Proof. unfold image. rewrite app_assoc, get_app; [done|]. rewrite length_app, Nat2Z.inj_add, length_header. done. Qed.

Section entry.
Context (es1 : list phys) (e : phys) (es2 : list phys) (l : Z).
Context (Hwf : wf (es1 ++ e :: es2) l).
Let m : list Z := image (es1 ++ e :: es2) l.
Let p : Z := 10 + zlen (flat es1).

Lemma wf_mid : phys_ok e ∧ stored e = prev_size es1 ∧ chain (rawlen e) es2 ∧ rawlen e < 2 ^ 32.
Proof.
  destruct Hwf as [Hc _ Hs _]. apply chain_app in Hc as [_ (Est & He & Hr)].
  rewrite flat_len_app, flat_len_cons in Hs. split; [done|]. split; [done|]. split; [done|]. lia.
Qed.

Lemma get_mid : ∃ x, get m p = Some x ∧ (x =? ZIP_END) = false.
Proof.
  destruct (image_split es1 e es2 l) as (P & HP & E). unfold m. rewrite E. apply get_entry; [apply wf_mid|done].
Qed.

Lemma raw_mid : zipRawEntryLength m p = Some (rawlen e).
Proof.
  destruct (image_split es1 e es2 l) as (P & HP & E), wf_mid as (? & ? & ? & ?).
  unfold m, p. rewrite E, <- HP. by apply raw_length_spec.
Qed.

Lemma prev_mid : ZIP_DECODE_PREVLEN m p = Some (if big e then 5 else 1, prev_size es1).
Proof.
  destruct (image_split es1 e es2 l) as (P & HP & E), wf_mid as (? & Est & ? & ?).
  unfold m, p. rewrite E, <- HP, <- Est. by apply decode_prev.
Qed.

Lemma prevsize_mid : ZIP_DECODE_PREVLENSIZE m p = Some (if big e then 5 else 1).
Proof.
  destruct (image_split es1 e es2 l) as (P & HP & E), wf_mid as (? & Est & ? & ?).
  unfold m, p. rewrite E, <- HP. by apply decode_prevsize.
Qed.

Lemma length_mid : ZIP_DECODE_LENGTH m (p + (if big e then 5 else 1)) = Some (content_hdr (payload e)).
Proof.
  destruct (image_split es1 e es2 l) as (P & HP & E), wf_mid as (? & Est & ? & ?).
  unfold m, p. rewrite E, <- HP. by apply decode_payload.
Qed.

Lemma entry_mid : zipEntry m p = Some (entry_of e p).
Proof.
  destruct (image_split es1 e es2 l) as (P & HP & E), wf_mid as (? & Est & ? & ?).
  unfold m, p. rewrite E, <- HP. by apply zipEntry_spec.
Qed.

(** The payload, behind the header. *)
Lemma payload_mid :
  let q := p + headersize (entry_of e p) in
  match payload e with
  | CStr s => mread m q (zlen s) = Some s
  | CInt v => zipLoadInteger m q (int_encoding v) = Some v
  end.
Proof.
  destruct (image_split es1 e es2 l) as (P & HP & E), wf_mid as ((_ & _ & Hok) & _ & _ & _).
  unfold m, p. rewrite E. unfold entry_of, enc_phys. set (R := flat es2 ++ [ZIP_END]).
  pose proof (length_enc_prev (big e) (stored e)) as Hp.
  destruct (payload e) as [s|v] eqn:Ep; cbn [content_hdr headersize enc_content] in *.
  - set (h := zipEncodeLength 0 (zlen s)).
    replace (P ++ (enc_prev (big e) (stored e) ++ h ++ s) ++ R)
      with ((P ++ enc_prev (big e) (stored e) ++ h) ++ s ++ R) by (by rewrite <- !app_assoc).
    apply mread_app; [|done]. rewrite !length_app. lia.
  - replace (P ++ (enc_prev (big e) (stored e) ++ int_encoding v :: int_bytes v) ++ R)
      with ((P ++ enc_prev (big e) (stored e) ++ [int_encoding v]) ++ int_bytes v ++ R) by (by rewrite <- !app_assoc).
    replace (10 + zlen (flat es1) + _) with (zlen (P ++ enc_prev (big e) (stored e) ++ [int_encoding v]))
      by (rewrite !length_app; simpl; lia).
    by apply load_int.
Qed.
End entry.

(** ** Walking *)
Lemma offset_app es1 e es2 : offset (es1 ++ e :: es2) (length es1) = 10 + zlen (flat es1).
Proof. unfold offset. by rewrite take_app_length. Qed.

Lemma split_nth (es : list phys) k e :
  es !! k = Some e → es = take k es ++ e :: drop (S k) es ∧ length (take k es) = k.
Proof.
  intros H. split; [by rewrite take_drop_middle|]. apply length_take_le. apply lookup_lt_Some in H. lia.
Qed.

Lemma flat_snoc_len es e : zlen (flat (es ++ [e])) = zlen (flat es) + rawlen e.
Proof. rewrite flat_len_app, flat_len_cons. change (zlen (flat [])) with 0. lia. Qed.

Lemma s32_pred i : 0 ≤ i < 2 ^ 31 → s32 (i - 1) = i - 1.
Proof. intros. apply wraps_id; [lia|]. unfold in_s. pow2. lia. Qed.

Lemma index_forth_ok es2 : ∀ fuel es1 l i,
  (length es2 < fuel)%nat → wf (es1 ++ es2) l → 0 ≤ i < 2 ^ 31 →
  index_forth fuel (image (es1 ++ es2) l) (10 + zlen (flat es1)) i =
    Some (if decide (i < zlen es2) then (10 + zlen (flat (es1 ++ take (Z.to_nat i) es2)), -1)
          else (10 + zlen (flat (es1 ++ es2)), i - zlen es2)).
Proof.
  induction es2 as [|e es2 IH]; intros [|fuel] es1 l i Hf Hwf Hi; cbn [length] in *; try lia; cbn [index_forth].
  - rewrite app_nil_r, get_end, some_bind. change (negb (ZIP_END =? ZIP_END)) with false. cbv iota.
    rewrite decide_False by (cbn; lia). cbn. do 2 f_equal. lia.
  - destruct (get_mid _ _ _ _ Hwf) as (x & -> & Hx). rewrite some_bind, Hx. cbn [negb].
    destruct (Z.eqb_spec i 0) as [->|Hi0].
    { rewrite decide_True by lia. cbn [Z.to_nat take]. by rewrite app_nil_r. }
    rewrite (raw_mid _ _ _ _ Hwf), some_bind, s32_pred by lia.
    replace (10 + zlen (flat es1) + rawlen e) with (10 + zlen (flat (es1 ++ [e]))) by (rewrite flat_snoc_len; lia).
    replace (es1 ++ e :: es2) with ((es1 ++ [e]) ++ es2) in * by (by rewrite <- app_assoc).
    rewrite IH by (done || lia). f_equal.
    replace (Z.to_nat i) with (S (Z.to_nat (i - 1))) by lia. cbn [take].
    destruct (decide (i - 1 < zlen es2)); [rewrite decide_True by lia|rewrite decide_False by lia].
    + by rewrite <- app_assoc.
    + f_equal. lia.
Qed.

Lemma prev_size_pos es1 : (prev_size es1 >? 0) = negb (bool_decide (es1 = [])).
Proof.
  unfold prev_size. destruct (decide (es1 = [])) as [->|N]; [done|].
  destruct (exists_last N) as (es0 & y & ->). rewrite last_snoc, bool_decide_eq_false_2 by (by destruct es0).
  cbn. apply Z.gtb_lt. pose proof (rawlen_pos y). lia.
Qed.

Lemma index_back_ok es1 : ∀ fuel e es2 l i,
  (length es1 < fuel)%nat → wf (es1 ++ e :: es2) l → 0 ≤ i < 2 ^ 31 →
  index_back fuel (image (es1 ++ e :: es2) l) (10 + zlen (flat es1)) (prev_size es1) i =
    Some (if decide (i < zlen es1) then (offset es1 (length es1 - Z.to_nat i), -1) else (10, i - zlen es1)).
Proof.
  induction es1 as [|y es1 IH] using rev_ind; intros [|fuel] e es2 l i Hf Hwf Hi;
    rewrite ?length_app in *; cbn [length] in *; try lia; cbn [index_back]; rewrite prev_size_pos.
  - rewrite bool_decide_eq_true_2 by done. cbn [negb]. rewrite decide_False by lia. cbn. do 2 f_equal. lia.
  - rewrite bool_decide_eq_false_2 by (by destruct es1). cbn [negb].
    destruct (Z.eqb_spec i 0) as [->|Hi0].
    { rewrite decide_True by lia. unfold offset. rewrite take_ge by (rewrite length_app; simpl; lia). done. }
    assert (prev_size (es1 ++ [y]) = rawlen y) as -> by (unfold prev_size; by rewrite last_snoc).
    rewrite flat_snoc_len. replace (10 + (zlen (flat es1) + rawlen y) - rawlen y) with (10 + zlen (flat es1)) by lia.
    rewrite <- app_assoc in *. cbn [app] in *. rewrite (prev_mid _ _ _ _ Hwf), some_bind. cbv beta iota.
    rewrite s32_pred by lia. rewrite IH by (done || lia). f_equal.
    destruct (decide (i - 1 < zlen es1)); [rewrite decide_True by lia|rewrite decide_False by lia].
    + unfold offset. rewrite (take_app_le es1 [y]) by lia.
      by replace (length es1 - Z.to_nat (i - 1))%nat with (length es1 + 1 - Z.to_nat i)%nat by lia.
    + f_equal. lia.
Qed.

(** The entry a signed index stands for. *)
Definition nth_of (n : nat) (i : Z) : option nat :=
  if decide (0 ≤ i < Z.of_nat n) then Some (Z.to_nat i)
  else if decide (i < 0 ∧ 0 ≤ Z.of_nat n + i) then Some (Z.to_nat (Z.of_nat n + i)) else None.

Lemma tail_lookup es l : wf es l → ZIPLIST_TAIL_OFFSET (image es l) = Some (tail_off 10 es).
Proof.
  intros [_ _ Hs _]. apply header_tail. pose proof (tail_off_bounds 10 es). unfold in_u. lia.
Qed.

Lemma image_long es l : (length es < S (length (image es l)))%nat.
Proof. pose proof (flat_count es). unfold image. rewrite !length_app. lia. Qed.

Lemma get_offset es l k :
  wf es l → (k < length es)%nat → ∃ x, get (image es l) (offset es k) = Some x ∧ (x =? ZIP_END) = false.
Proof.
  intros Hwf Hk. destruct (lookup_lt_is_Some_2 _ _ Hk) as [z Hz]. destruct (split_nth _ _ _ Hz) as [Ees _].
  pose proof Hwf as Hwf'. rewrite Ees in Hwf'. destruct (get_mid _ _ _ _ Hwf') as (x & Hx & Hx2).
  rewrite <- Ees in Hx. by exists x.
Qed.

Lemma index_pos es l i :
  wf es l → 0 ≤ i < 2 ^ 31 →
  ziplistIndex (image es l) i = Some (if decide (i < zlen es) then Some (offset es (Z.to_nat i)) else None).
Proof.
  intros Hwf Hi. unfold ziplistIndex. rewrite (proj2 (Z.ltb_ge i 0)) by lia.
  pose proof (index_forth_ok es (S (length (image es l))) [] l i (image_long es l) Hwf Hi) as Hforth.
  cbn [app] in Hforth. change (10 + zlen (flat [])) with ZIPLIST_HEADER_SIZE in Hforth. rewrite Hforth, some_bind.
  destruct (decide (i < zlen es)) as [Hlt|Hge]; cbv beta iota.
  - destruct (get_offset es l (Z.to_nat i) Hwf) as (x & Hx & Hx2); [lia|]. unfold offset in *.
    by rewrite Hx, some_bind, Hx2.
  - by rewrite get_end, some_bind.
Qed.

Lemma index_neg es l i :
  wf es l → - 2 ^ 31 ≤ i < 0 →
  ziplistIndex (image es l) i =
    Some (if decide (0 ≤ zlen es + i) then Some (offset es (Z.to_nat (zlen es + i))) else None).
Proof.
  intros Hwf Hi. unfold ziplistIndex. rewrite (proj2 (Z.ltb_lt i 0)) by lia.
  assert (s32 (s32 (- i) - 1) = - i - 1) as -> by wrap_lia.
  rewrite (tail_lookup _ _ Hwf), some_bind. destruct (decide (es = [])) as [->|N].
  { rewrite decide_False by (cbn; lia). change (tail_off 10 []) with (10 + zlen (flat [])).
    rewrite get_end, some_bind. change (negb (ZIP_END =? ZIP_END)) with false. cbv iota.
    rewrite some_bind, get_end, some_bind. done. }
  destruct (exists_last N) as (es0 & y & ->).
  assert (tail_off 10 (es0 ++ [y]) = 10 + zlen (flat es0)) as -> by (unfold tail_off; by rewrite removelast_last).
  destruct (get_mid _ _ _ _ Hwf) as (x & -> & Hx). rewrite some_bind, Hx. cbn [negb].
  rewrite (prev_mid _ _ _ _ Hwf), some_bind. cbv beta iota. rewrite length_app. cbn [length].
  rewrite index_back_ok, some_bind; [|pose proof (image_long (es0 ++ [y]) l) as HL; rewrite length_app in HL; lia|done|pow2; lia].
  assert (0 < length (es0 ++ [y]))%nat as H0 by (rewrite length_app; simpl; lia).
  destruct (get_offset _ _ 0 Hwf H0) as (w0 & Hw0 & Hw02). change (offset _ 0) with 10 in Hw0.
  destruct (decide (- i - 1 < zlen es0)) as [Hlt|Hge]; cbv beta iota.
  - rewrite decide_True by lia.
    replace (length es0 - Z.to_nat (- i - 1))%nat with (Z.to_nat (Z.of_nat (length es0 + 1) + i)) by lia.
    set (k := Z.to_nat _). assert (offset es0 k = offset (es0 ++ [y]) k) as ->
      by (unfold offset; by rewrite take_app_le by lia).
    destruct (get_offset _ _ k Hwf) as (w & -> & Hw); [rewrite length_app; simpl; lia|]. by rewrite some_bind, Hw.
  - rewrite Hw0, some_bind, Hw02. cbn [orb]. destruct (Z.gtb_spec (- i - 1 - zlen es0) 0).
    + rewrite decide_False by lia. done.
    + rewrite decide_True by lia. replace (Z.to_nat (Z.of_nat (length es0 + 1) + i)) with 0%nat by lia. done.
Qed.

Lemma index_ok es l i :
  wf es l → in_s 32 i → ziplistIndex (image es l) i = Some (offset es <$> nth_of (length es) i).
Proof.
  intros Hwf Hi. unfold in_s in Hi. unfold nth_of. destruct (Z.lt_ge_cases i 0).
  - rewrite index_neg by (done || (pow2; lia)). rewrite (decide_False (P := 0 ≤ i < zlen es)) by lia.
    f_equal. destruct (decide (0 ≤ zlen es + i)); [rewrite decide_True by lia|rewrite decide_False by lia]; done.
  - rewrite index_pos by (done || (pow2; lia)). rewrite (decide_False (P := i < 0 ∧ _)) by lia.
    f_equal. destruct (decide (i < zlen es)); [rewrite decide_True by lia|rewrite decide_False by lia]; done.
Qed.

Lemma offset_succ es k e : es !! k = Some e → offset es (S k) = offset es k + rawlen e.
Proof. intros H. unfold offset. rewrite (take_S_r _ _ _ H), flat_snoc_len. lia. Qed.

Lemma offset_end es k : (length es ≤ k)%nat → offset es k = 10 + zlen (flat es).
Proof. intros H. unfold offset. by rewrite take_ge. Qed.

Lemma get_offset_end es l k : (length es ≤ k)%nat → get (image es l) (offset es k) = Some ZIP_END.
Proof. intros H. rewrite offset_end by done. apply get_end. Qed.

(** The lemmas of section [entry] at an index. *)
Lemma raw_offset es l k e :
  wf es l → es !! k = Some e → zipRawEntryLength (image es l) (offset es k) = Some (rawlen e).
Proof.
  intros Hwf Hk. destruct (split_nth _ _ _ Hk) as [E _]. pose proof Hwf as H. rewrite E in H.
  apply raw_mid in H. by rewrite <- E in H.
Qed.

Lemma prev_offset es l k e :
  wf es l → es !! k = Some e →
  ZIP_DECODE_PREVLEN (image es l) (offset es k) = Some (if big e then 5 else 1, prev_size (take k es)).
Proof.
  intros Hwf Hk. destruct (split_nth _ _ _ Hk) as [E _]. pose proof Hwf as H. rewrite E in H.
  apply prev_mid in H. by rewrite <- E in H.
Qed.

Lemma prevsize_offset es l k e :
  wf es l → es !! k = Some e → ZIP_DECODE_PREVLENSIZE (image es l) (offset es k) = Some (if big e then 5 else 1).
Proof.
  intros Hwf Hk. destruct (split_nth _ _ _ Hk) as [E _]. pose proof Hwf as H. rewrite E in H.
  apply prevsize_mid in H. by rewrite <- E in H.
Qed.

Lemma next_ok es l k :
  wf es l →
  ziplistNext (image es l) (offset es k) =
    Some (if decide (S k < length es)%nat then Some (offset es (S k)) else None).
Proof.
  intros Hwf. unfold ziplistNext. destruct (decide (k < length es)%nat) as [Hk|Hk].
  - destruct (get_offset es l k Hwf Hk) as (x & -> & Hx). rewrite some_bind, Hx.
    destruct (lookup_lt_is_Some_2 _ _ Hk) as [e He]. rewrite (raw_offset _ _ _ _ Hwf He), some_bind.
    rewrite <- (offset_succ _ _ _ He). destruct (decide (S k < length es)%nat) as [Hk'|Hk'].
    + destruct (get_offset es l (S k) Hwf Hk') as (y & -> & Hy). by rewrite some_bind, Hy.
    + by rewrite get_offset_end, some_bind by lia.
  - rewrite get_offset_end, some_bind by lia. rewrite decide_False by lia. done.
Qed.

Lemma prev_ok es l k :
  wf es l → (k ≤ length es)%nat →
  ziplistPrev (image es l) (offset es k) =
    Some (match k with O => None | S j => Some (offset es j) end).
Proof.
  intros Hwf Hk. unfold ziplistPrev. destruct (decide (k < length es)%nat) as [Hlt|Hge].
  - destruct (get_offset es l k Hwf Hlt) as (x & -> & Hx). rewrite some_bind, Hx.
    destruct (lookup_lt_is_Some_2 _ _ Hlt) as [e He]. destruct k as [|j]; [done|].
    destruct (lookup_lt_is_Some_2 es j) as [y Hy]; [lia|]. pose proof (rawlen_pos y) as Hry.
    rewrite (offset_succ _ _ _ Hy). rewrite (proj2 (Z.eqb_neq _ _)) by (unfold ZIPLIST_HEADER_SIZE, offset; lia).
    rewrite <- (offset_succ _ _ _ Hy), (prev_offset _ _ _ _ Hwf He), some_bind. cbv beta iota.
    assert (prev_size (take (S j) es) = rawlen y) as ->.
    { unfold prev_size. by rewrite (take_S_r _ _ _ Hy), last_snoc. }
    rewrite (proj2 (Z.gtb_lt _ _)) by lia. rewrite (offset_succ _ _ _ Hy). do 2 f_equal. lia.
  - rewrite get_offset_end, some_bind by lia. cbn [Z.eqb]. change (ZIP_END =? ZIP_END) with true. cbv iota.
    rewrite (tail_lookup _ _ Hwf), some_bind. replace k with (length es) by lia.
    destruct (decide (es = [])) as [->|N]; [done|]. destruct (exists_last N) as (es0 & y & ->).
    assert (tail_off 10 (es0 ++ [y]) = offset (es0 ++ [y]) (length es0)) as ->.
    { rewrite offset_app. unfold tail_off. by rewrite removelast_last. }
    destruct (get_offset _ _ (length es0) Hwf) as (x & -> & Hx); [rewrite length_app; simpl; lia|].
    rewrite some_bind, Hx, length_app, Nat.add_comm. done.
Qed.

(** ** The value of an entry *)
Lemma encoding_of e p : encoding (entry_of e p) = (content_hdr (payload e)).1.1.
Proof. unfold entry_of. by destruct (content_hdr (payload e)) as [[??]?]. Qed.

Lemma elen_of e p : elen (entry_of e p) = (content_hdr (payload e)).2.
Proof. unfold entry_of. by destruct (content_hdr (payload e)) as [[??]?]. Qed.

Lemma get_ok es l k e :
  wf es l → es !! k = Some e → ziplistGet (image es l) (Some (offset es k)) = Some (Some (payload e)).
Proof.
  intros Hwf Hk. destruct (split_nth _ _ _ Hk) as [E _]. unfold offset. unfold ziplistGet.
  set (es1 := take k es) in *. set (es2 := drop (S k) es) in *. clearbody es1 es2. subst es.
  destruct (get_mid _ _ _ _ Hwf) as (x & -> & Hx). rewrite some_bind, Hx, (entry_mid _ _ _ _ Hwf), some_bind.
  pose proof (wf_mid _ _ _ _ Hwf) as ((_ & _ & Hok) & _). pose proof (payload_mid _ _ _ _ Hwf) as Hp.
  rewrite encoding_of, elen_of, hdr_is_str by done. destruct (payload e) as [s|v]; cbn [content_hdr fst snd] in *;
    by rewrite Hp, some_bind.
Qed.

(** A payload that is the encoding of its text. *)
Definition canonical (c : content) : Prop := content_of (content_text c) = c.

Lemma content_of_canonical s : canonical (content_of s).
Proof. unfold canonical. by rewrite content_of_text. Qed.

Lemma canonical_str s t : canonical (CStr s) → CStr s = content_of t ↔ s = t.
Proof.
  intros Hc. unfold canonical in Hc. cbn in Hc. split; [|by intros <-].
  intros E. rewrite <- (content_of_text t), <- E. done.
Qed.

Lemma compare_ok es l k e s :
  wf es l → es !! k = Some e → canonical (payload e) →
  ziplistCompare (image es l) (offset es k) s = Some (bool_decide (payload e = content_of s)).
Proof.
  intros Hwf Hk Hcan. destruct (split_nth _ _ _ Hk) as [E _]. unfold offset. unfold ziplistCompare.
  set (es1 := take k es) in *. set (es2 := drop (S k) es) in *. clearbody es1 es2. subst es.
  destruct (get_mid _ _ _ _ Hwf) as (x & -> & Hx). rewrite some_bind, Hx, (entry_mid _ _ _ _ Hwf), some_bind.
  pose proof (wf_mid _ _ _ _ Hwf) as ((_ & _ & Hok) & _). pose proof (payload_mid _ _ _ _ Hwf) as Hp.
  rewrite encoding_of, elen_of, hdr_is_str by done. destruct (payload e) as [t|v]; cbn [content_hdr fst snd] in *.
  - destruct (Z.eqb_spec (zlen t) (zlen s)) as [El|El].
    + rewrite <- El, Hp, some_bind. f_equal. apply bool_decide_ext. symmetry. by apply canonical_str.
    + f_equal. symmetry. apply bool_decide_eq_false. rewrite canonical_str by done. by intros ->.
  - rewrite try_encoding_spec. destruct (content_of s) as [t|w]; [done|]. rewrite Hp, some_bind. f_equal.
    destruct (Z.eqb_spec v w); symmetry; [apply bool_decide_eq_true|apply bool_decide_eq_false]; congruence.
Qed.

(** ** Searching *)

(** The first payload that is [c], looking at one of every [skip + 1]. *)
Fixpoint find_from (cs : list content) (c : content) (skip cnt : nat) : option nat :=
  match cs with
  | [] => None
  | x :: cs =>
      match cnt with
      | O => if decide (x = c) then Some O else S <$> find_from cs c skip skip
      | S cnt => S <$> find_from cs c skip cnt
      end
  end.

(** What is known of the wanted string during the search. *)
Definition tried (v : list Z) (venc vll : Z) : Prop :=
  venc = 0 ∨ match content_of v with CInt w => venc = int_encoding w ∧ vll = w | CStr _ => venc = 255 end.

Lemma find_step fuel es1 e es2 l v skip cnt venc vll :
  wf (es1 ++ e :: es2) l → canonical (payload e) → zlen v < 2 ^ 32 → tried v venc vll → (Z.of_nat skip < 2 ^ 31) →
  (Z.of_nat cnt < 2 ^ 31) →
  let zl := image (es1 ++ e :: es2) l in
  let p := 10 + zlen (flat es1) in
  ∃ venc' vll', tried v venc' vll' ∧
    find_loop (S fuel) zl p v (Z.of_nat skip) (Z.of_nat cnt) venc vll =
    match cnt with
    | O => if decide (payload e = content_of v) then Some (Some p)
           else find_loop fuel zl (p + rawlen e) v (Z.of_nat skip) (Z.of_nat skip) venc' vll'
    | S cnt => find_loop fuel zl (p + rawlen e) v (Z.of_nat skip) (Z.of_nat cnt) venc' vll'
    end.
Proof.
  intros Hwf Hcan Hv Ht Hsk Hcnt zl p. pose proof (wf_mid _ _ _ _ Hwf) as ((_ & _ & Hok) & _).
  cbn [find_loop]. destruct (get_mid _ _ _ _ Hwf) as (x & Hx & Hx2). fold zl p in Hx. rewrite Hx, some_bind, Hx2.
  pose proof (prevsize_mid _ _ _ _ Hwf) as Hps. fold zl p in Hps. rewrite Hps, some_bind.
  pose proof (length_mid _ _ _ _ Hwf) as Hlen. fold zl p in Hlen. rewrite Hlen, some_bind.
  pose proof (hdr_len (payload e)) as Hl. pose proof (payload_mid _ _ _ _ Hwf) as Hp. cbv zeta in Hp. fold zl p in Hp.
  assert (p + headersize (entry_of e p) = p + (if big e then 5 else 1) + (content_hdr (payload e)).1.2) as Eq.
  { unfold entry_of. destruct (content_hdr (payload e)) as [[??]?]. simpl. lia. }
  assert (∀ k, s32 (Z.of_nat k) = Z.of_nat k ∨ 2 ^ 31 ≤ Z.of_nat k) as Hs32.
  { intros k. destruct (Z.lt_ge_cases (Z.of_nat k) (2 ^ 31)); [left|by right]. apply wraps_id; [lia|]. unfold in_s. pow2. lia. }
  rewrite Eq in Hp. pose proof (hdr_is_str (payload e) Hok) as Hstr.
  assert (∀ lsize len, content_hdr (payload e) = ((content_hdr (payload e)).1.1, lsize, len) →
    p + (if big e then 5 else 1) + lsize + len = p + rawlen e) as Hq.
  { intros lsize len Eh. rewrite Eh in Hl. unfold rawlen. lia. }
  destruct (content_hdr (payload e)) as [[enc lsize] len] eqn:Eh. cbn [fst snd] in *.
  specialize (Hq lsize len eq_refl). rewrite Hq. destruct cnt as [|cnt].
  - change (Z.of_nat 0 =? 0) with true. cbv iota. rewrite Hstr.
    destruct (Hs32 skip) as [->|]; [|lia]. destruct (payload e) as [t|w] eqn:Ep.
    + exists venc, vll. split; [done|]. cbn [content_hdr] in Eh. injection Eh as _ _ <-.
      destruct (Z.eqb_spec (zlen t) (zlen v)) as [El|El].
      * rewrite <- El, Hp, !some_bind. case_bool_decide as Ev; subst.
        { by rewrite decide_True by (by apply canonical_str). }
        by rewrite decide_False by (by rewrite canonical_str).
      * rewrite some_bind, decide_False; [done|]. rewrite canonical_str by done. by intros ->.
    + cbn [content_hdr] in Eh. injection Eh as <- _ _. rewrite try_encoding_spec.
      unfold tried in Ht. pose proof (content_of_ok v Hv) as Hvok. destruct (content_of v) as [t|w'] eqn:Ev.
      * exists 255, vll. split; [right; by rewrite Ev|]. rewrite decide_False by done.
        assert ((if venc =? 0 then (255, vll) else (venc, vll)) = (255, vll)) as ->; [|done].
        destruct Ht as [->| ->]; done.
      * pose proof (int_enc_high w' Hvok) as [Hr _]. exists (int_encoding w'), w'. split; [right; by rewrite Ev|].
        assert ((if venc =? 0 then (int_encoding w', w') else (venc, vll)) = (int_encoding w', w')) as ->.
        { destruct Ht as [->|[-> ->]]; [done|]. rewrite (proj2 (Z.eqb_neq _ _)) by lia. done. }
        rewrite (proj2 (Z.eqb_neq (int_encoding w') 0)), (proj2 (Z.eqb_neq (int_encoding w') 255)) by lia.
        cbn [negb]. rewrite Hp, !some_bind. destruct (Z.eqb_spec w w') as [->|].
        { by rewrite decide_True. } by rewrite decide_False by congruence.
  - rewrite (proj2 (Z.eqb_neq _ _)) by lia. exists venc, vll. split; [done|].
    replace (s32 (Z.of_nat (S cnt) - 1)) with (Z.of_nat cnt); [done|]. rewrite s32_pred; lia.
Qed.

Lemma find_ok es2 : ∀ fuel es1 l v skip cnt venc vll,
  (length es2 < fuel)%nat → wf (es1 ++ es2) l → Forall canonical (payload <$> es2) → zlen v < 2 ^ 32 →
  tried v venc vll → Z.of_nat skip < 2 ^ 31 → Z.of_nat cnt < 2 ^ 31 →
  find_loop fuel (image (es1 ++ es2) l) (10 + zlen (flat es1)) v (Z.of_nat skip) (Z.of_nat cnt) venc vll =
    Some ((λ j, 10 + zlen (flat (es1 ++ take j es2))) <$> find_from (payload <$> es2) (content_of v) skip cnt).
Proof.
  induction es2 as [|e es2 IH]; intros [|fuel] es1 l v skip cnt venc vll Hf Hwf Hcan Hv Ht Hsk Hcnt;
    cbn [length] in *; try lia.
  - cbn [find_loop]. rewrite app_nil_r, get_end, some_bind. done.
  - rewrite fmap_cons in *. apply Forall_cons in Hcan as [He Hcan].
    destruct (find_step fuel es1 e es2 l v skip cnt venc vll) as (venc' & vll' & Ht' & ->); try done.
    assert (∀ cnt, Z.of_nat cnt < 2 ^ 31 →
      find_loop fuel (image (es1 ++ e :: es2) l) (10 + zlen (flat es1) + rawlen e) v (Z.of_nat skip) (Z.of_nat cnt) venc' vll' =
      Some ((λ j, 10 + zlen (flat (es1 ++ take j (e :: es2)))) <$>
            (S <$> find_from (payload <$> es2) (content_of v) skip cnt))) as Hrec.
    { intros c Hc. replace (10 + zlen (flat es1) + rawlen e) with (10 + zlen (flat (es1 ++ [e]))) by (rewrite flat_snoc_len; lia).
      replace (es1 ++ e :: es2) with ((es1 ++ [e]) ++ es2) in * by (by rewrite <- app_assoc).
      rewrite IH by (done || lia). f_equal. rewrite <- option_fmap_compose. apply option_fmap_ext. intros j.
      cbn [compose take]. by rewrite <- app_assoc. }
    cbn [find_from]. destruct cnt as [|cnt]; [|by rewrite Hrec by lia].
    destruct (decide (payload e = content_of v)); [|by rewrite Hrec by lia].
    cbn [fmap option_fmap option_map take]. by rewrite app_nil_r.
Qed.

(** ** Counting *)
Lemma len_loop_ok es2 : ∀ fuel es1 l n,
  (length es2 < fuel)%nat → wf (es1 ++ es2) l → 0 ≤ n → n + zlen es2 < 2 ^ 32 →
  len_loop fuel (image (es1 ++ es2) l) (10 + zlen (flat es1)) n = Some (n + zlen es2).
Proof.
  induction es2 as [|e es2 IH]; intros [|fuel] es1 l n Hf Hwf Hn Hs; cbn [length] in *; try lia; cbn [len_loop].
  - rewrite app_nil_r, get_end, some_bind. cbn. f_equal. lia.
  - destruct (get_mid _ _ _ _ Hwf) as (x & -> & Hx). rewrite some_bind, Hx. cbn [negb].
    rewrite (raw_mid _ _ _ _ Hwf), some_bind.
    replace (10 + zlen (flat es1) + rawlen e) with (10 + zlen (flat (es1 ++ [e]))) by (rewrite flat_snoc_len; lia).
    replace (es1 ++ e :: es2) with ((es1 ++ [e]) ++ es2) in * by (by rewrite <- app_assoc).
    rewrite u32_id, IH by (done || lia). f_equal. lia.
Qed.

Lemma len_ok_count es l :
  wf es l → ∃ l', ziplistLen (image es l) = Some (zlen es, image es l') ∧ wf es l'.
Proof.
  intros Hwf. pose proof Hwf as [Hc Hh Hs Hl]. unfold ziplistLen, image.
  rewrite header_length, some_bind by (by eapply len_ok_range).
  destruct (Z.ltb_spec l UINT16_MAX) as [Hlt|Hge].
  - exists l. split; [|done]. do 2 f_equal. unfold len_ok in Hl. lia.
  - pose proof (len_loop_ok es (S (length (image es l))) [] l 0 (image_long es l) Hwf ltac:(lia)) as Hloop.
    pose proof (flat_count es) as Hfc. specialize (Hloop ltac:(lia)). cbn [app] in Hloop.
    change (10 + zlen (flat [])) with ZIPLIST_HEADER_SIZE in Hloop. unfold image in Hloop. rewrite Hloop, some_bind, Z.add_0_l.
    destruct (Z.ltb_spec (zlen es) UINT16_MAX) as [Hsmall|Hbig].
    + exists (zlen es). rewrite set_length_header, some_bind.
      assert (u16 (zlen es) = zlen es) as -> by (apply wrapu_id; unfold in_u, UINT16_MAX in *; pow2; lia).
      split; [done|]. split; try done. left. done.
    + exists l. by rewrite some_bind.
Qed.

(** ** Merging *)
Definition merged (es1 es2 : list phys) : list phys :=
  match last es1 with None => es2 | Some y => es1 ++ fix_chain (rawlen y) es2 end.

Definition merged_len (l1 l2 : Z) : Z := if l1 + l2 <? UINT16_MAX then l1 + l2 else UINT16_MAX.

Section merge.
Context (junk : nat → Z).

(** Copying one block behind the other, in whichever block is kept. *)
Lemma merge_copy (append : bool) es1 es2 l1 l2 :
  let F1 := zlen (flat es1) in
  let F2 := zlen (flat es2) in
  ∃ b t l,
  (if append then
     bs ← mread (image es2 l2) ZIPLIST_HEADER_SIZE (11 + F2 - ZIPLIST_HEADER_SIZE);
     mwrite (zrealloc junk (image es1 l1) (11 + F1 + (11 + F2) - ZIPLIST_HEADER_SIZE - ZIPLIST_END_SIZE))
       (11 + F1 - ZIPLIST_END_SIZE) bs
   else
     target ← memmove (zrealloc junk (image es2 l2) (11 + F1 + (11 + F2) - ZIPLIST_HEADER_SIZE - ZIPLIST_END_SIZE))
       (11 + F1 - ZIPLIST_END_SIZE) ZIPLIST_HEADER_SIZE (11 + F2 - ZIPLIST_HEADER_SIZE);
     bs ← mread (image es1 l1) 0 (11 + F1 - ZIPLIST_END_SIZE);
     mwrite target 0 bs) = Some (header b t l ++ flat es1 ++ flat es2 ++ [ZIP_END]).
Proof.
  intros F1 F2. unfold ZIPLIST_HEADER_SIZE, ZIPLIST_END_SIZE. exists (11 + F1), (tail_off 10 es1), l1.
  unfold image. fold F1 F2. set (h1 := header (11 + F1) _ l1). set (h2 := header (11 + F2) _ l2).
  assert (zlen h1 = 10) as H1 by apply length_header. assert (zlen h2 = 10) as H2 by apply length_header.
  assert (zlen (flat es2 ++ [ZIP_END]) = F2 + 1) as HX by (rewrite length_app; simpl; lia).
  destruct append.
  - rewrite <- (app_nil_r (flat es2 ++ [ZIP_END])), (mread_app h2 (flat es2 ++ [ZIP_END]) []), some_bind by lia.
    destruct (zrealloc_grow junk (h1 ++ flat es1 ++ [ZIP_END]) (11 + F1 + (11 + F2) - 10 - 1)) as (e & -> & He);
      rewrite !length_app in *; cbn [length] in *; [lia|].
    replace ((h1 ++ flat es1 ++ [ZIP_END]) ++ e) with ((h1 ++ flat es1) ++ ([ZIP_END] ++ e)) by (by rewrite <- !app_assoc).
    rewrite mwrite_end; [by rewrite ?app_nil_r, <- ?app_assoc| |]; rewrite ?length_app; cbn [length]; lia.
  - destruct (zrealloc_grow junk (h2 ++ flat es2 ++ [ZIP_END]) (11 + F1 + (11 + F2) - 10 - 1)) as (e & -> & He);
      [rewrite length_app; lia|]. rewrite length_app in He.
    rewrite <- app_assoc, memmove_right, some_bind by lia.
    rewrite (app_assoc h1), (mread_start (h1 ++ flat es1)), some_bind by (rewrite length_app; lia).
    rewrite (app_assoc h2), mwrite_start; [by rewrite <- !app_assoc|].
    rewrite !length_app, length_take, !length_app. cbn [length]. lia.
Qed.

Lemma merge_cascade es1 es2 l :
  es1 = [] ∨ es2 ≠ [] → chain 0 es1 → chain 0 es2 → 11 + zlen (flat (merged es1 es2)) < 2 ^ 32 →
  __ziplistCascadeUpdate junk
    (header (11 + zlen (flat es1) + zlen (flat es2)) (10 + zlen (flat es1) + (tail_off 10 es2 - 10)) l ++
     flat es1 ++ flat es2 ++ [ZIP_END]) (tail_off 10 es1) = Some (image (merged es1 es2) l).
Proof.
  intros Hne H1 H2 Hs. unfold merged in *. destruct (decide (es1 = [])) as [->|N].
  - cbn [last] in *. change (zlen (flat [])) with 0. change (flat [] ++ ?x) with x. unfold tail_off at 2. simpl removelast.
    change (zlen (flat [])) with 0. rewrite !Z.add_0_r.
    replace (10 + (tail_off 10 es2 - 10)) with (tail_off 10 es2) by lia. destruct es2 as [|x r].
    + unfold __ziplistCascadeUpdate. rewrite header_bytes, some_bind by done.
      change (flat [] ++ [ZIP_END]) with [ZIP_END]. cbn [cascade_loop]. rewrite get_app by (by rewrite length_header). done.
    + destruct H2 as (_ & Hx & Hr).
      pose proof (cascade_update junk x r [] (11 + zlen (flat (x :: r))) (tail_off 10 (x :: r)) l Hx) as Hcu.
      cbn [app length] in Hcu. change (10 + Z.of_nat 0) with 10 in Hcu. change (11 + Z.of_nat 0) with 11 in Hcu.
      cbv zeta in Hcu. rewrite (fix_chain_id (rawlen x) r) in Hcu by done.
      apply Hcu; [by eapply chain_after|done|done|done].
  - destruct Hne as [|N2]; [done|]. destruct (exists_last N) as (es0 & y & ->). rewrite last_snoc in *.
    destruct es2 as [|x r]; [done|]. apply chain_app in H1 as [_ (_ & Hy & _)].
    assert (tail_off 10 (es0 ++ [y]) = 10 + zlen (flat es0)) as -> by (unfold tail_off; by rewrite removelast_last).
    rewrite flat_snoc_len. rewrite flat_snoc, <- app_assoc.
    replace (enc_phys y ++ flat (x :: r) ++ [ZIP_END]) with (flat (y :: x :: r) ++ [ZIP_END])
      by (by rewrite (flat_cons y), <- app_assoc).
    rewrite cascade_update; [|done|by eapply chain_after|rewrite (flat_len_cons y); lia| |].
    + unfold image. rewrite <- (app_assoc es0). cbn [app]. rewrite tail_off_app, flat_len_app, flat_app, <- app_assoc.
      by rewrite Z.add_assoc.
    + rewrite tail_off_cons. replace (10 + zlen (flat es0) + rawlen y) with (10 + (zlen (flat es0) + rawlen y)) by lia.
      rewrite (tail_off_shift 10). lia.
    + rewrite flat_len_app, flat_snoc_len in Hs. rewrite flat_len_cons. lia.
Qed.
End merge.

Lemma merged_payload es1 es2 : payload <$> merged es1 es2 = (payload <$> es1) ++ (payload <$> es2).
Proof.
  unfold merged. destruct (decide (es1 = [])) as [->|N]; [done|]. destruct (exists_last N) as (es0 & y & ->).
  rewrite last_snoc, fmap_app, fix_chain_payload. done.
Qed.

Lemma merged_wf es1 es2 l1 l2 :
  wf es1 l1 → wf es2 l2 → 11 + zlen (flat (merged es1 es2)) < 2 ^ 32 → wf (merged es1 es2) (merged_len l1 l2).
Proof.
  intros [Hc1 Hh1 Hs1 Hl1] [Hc2 Hh2 _ Hl2] Hs.
  assert (length (merged es1 es2) = length es1 + length es2)%nat as Hlen
    by (rewrite <- (length_fmap payload), merged_payload, length_app, !length_fmap; done).
  split; [| |done|].
  - unfold merged in *. destruct (decide (es1 = [])) as [->|N]; [done|]. destruct (exists_last N) as (es0 & y & ->).
    rewrite last_snoc in *. apply chain_app. split; [done|]. rewrite last_snoc. cbn. rewrite flat_len_app, flat_snoc_len in Hs.
    pose proof (rawlen_pos y). apply fix_chain_chain; [by eapply chain_after|lia|lia].
  - intros e. unfold merged. destruct es1 as [|e1 es1]; [by apply Hh2|]. 
    destruct (last (e1 :: es1)) eqn:E; [by apply Hh1|by apply last_None in E].
  - rewrite Hlen. unfold merged_len, len_ok, UINT16_MAX in *. destruct (Z.ltb_spec (l1 + l2) 65535); lia.
Qed.

Lemma image_length es l : in_u 16 l → ZIPLIST_LENGTH (image es l) = Some l.
Proof. apply header_length. Qed.

Lemma merge_image junk es1 es2 l1 l2 :
  wf es1 l1 → wf es2 l2 → es1 = [] ∨ es2 ≠ [] → 11 + zlen (flat (merged es1 es2)) < 2 ^ 32 →
  ziplistMerge junk false (Some (image es1 l1)) (Some (image es2 l2)) =
    Some (Some (l1 >=? l2, image (merged es1 es2) (merged_len l1 l2))).
Proof.
  intros Hw1 Hw2 Hne Hs. destruct Hw1 as [Hc1 Hh1 Hs1 Hl1], Hw2 as [Hc2 Hh2 Hs2 Hl2].
  assert (zlen (flat es1) + zlen (flat es2) ≤ zlen (flat (merged es1 es2))) as Hsum.
  { unfold merged. destruct (decide (es1 = [])) as [->|N]; [done|]. destruct (exists_last N) as (es0 & y & ->).
    rewrite last_snoc, (flat_len_app (es0 ++ [y])). pose proof (fix_chain_grows es2 (rawlen y)). lia. }
  unfold ziplistMerge. rewrite !image_bytes by done.
  rewrite (image_length es1 l1), (image_length es2 l2), !some_bind by (by eapply len_ok_range).
  rewrite (tail_lookup es1 l1), (tail_lookup es2 l2) by done.
  destruct (merge_copy junk (l1 >=? l2) es1 es2 l1 l2) as (b & t & l & Hcopy). cbv zeta in Hcopy |- *.
  pose proof (len_ok_range _ _ Hl1) as H1. pose proof (len_ok_range _ _ Hl2) as H2.
  pose proof (tail_off_bounds 10 es2) as Ht. pose proof (merge_cascade junk es1 es2 (merged_len l1 l2) Hne Hc1 Hc2 Hs) as Hcas.
  assert (u16 (merged_len l1 l2) = merged_len l1 l2) as Hu.
  { apply wrapu_id. unfold merged_len, in_u, UINT16_MAX in *. case_match; pow2; lia. }
  destruct (l1 >=? l2); rewrite !some_bind, Hcopy, some_bind, set_bytes_header, some_bind, set_length_header, some_bind,
    set_tail_header, some_bind; fold (merged_len l1 l2); rewrite Hu;
    unfold ZIPLIST_HEADER_SIZE, ZIPLIST_END_SIZE; rewrite !u32_id by lia;
    replace (11 + zlen (flat es1) + (11 + zlen (flat es2)) - 10 - 1) with (11 + zlen (flat es1) + zlen (flat es2)) by lia;
    replace (11 + zlen (flat es1) - 1 + (tail_off 10 es2 - 10)) with (10 + zlen (flat es1) + (tail_off 10 es2 - 10)) by lia;
    by rewrite Hcas, some_bind.
Qed.

(** ** Blocks as lists of strings *)
Definition zip (zl : list Z) (xs : list (list Z)) : Prop :=
  ∃ es l, zl = image es l ∧ wf es l ∧ payload <$> es = content_of <$> xs.

(** A bound for the size of the block of a list: fourteen bytes around each string. *)
Definition total_size (xs : list (list Z)) : Z := foldr (λ x n, 14 + zlen x + n) 11 xs.
Definition fits (xs : list (list Z)) : Prop := total_size xs < 2 ^ 32.

Lemma content_size x : zlen (enc_content (content_of x)) ≤ 9 + zlen x.
Proof.
  pose proof (hdr_len (content_of x)) as H. unfold content_of in *. destruct (zipTryEncoding x) as [[v enc]|].
  - cbn [enc_content]. rewrite length_cons, Nat2Z.inj_succ, length_int_bytes.
    pose proof (int_size_nonneg (int_encoding v)). lia.
  - cbn [content_hdr] in H. lia.
Qed.

Lemma flat_fits es : ∀ xs, payload <$> es = content_of <$> xs → 11 + zlen (flat es) ≤ total_size xs.
Proof.
  induction es as [|e es IH]; intros [|x xs] E; try done. injection E as Ex E. specialize (IH _ E).
  rewrite flat_len_cons. unfold rawlen. rewrite Ex. pose proof (content_size x). cbn [total_size foldr] in *.
  unfold total_size in IH. destruct (big e); lia.
Qed.

Lemma total_size_app xs ys : total_size (xs ++ ys) = total_size xs + total_size ys - 11.
Proof. induction xs as [|x xs IH]; cbn [app total_size foldr] in *; unfold total_size in *; lia. Qed.

Lemma total_size_pos xs : 11 ≤ total_size xs.
Proof. induction xs as [|x xs IH]; cbn [total_size foldr] in *; unfold total_size in *; lia. Qed.

Lemma zip_length es xs : payload <$> es = content_of <$> xs → length es = length xs.
Proof. intros E. apply (f_equal length) in E. by rewrite !length_fmap in E. Qed.

Lemma zip_lookup es (xs : list (list Z)) k x :
  payload <$> es = content_of <$> xs → xs !! k = Some x → ∃ e, es !! k = Some e ∧ payload e = content_of x.
Proof.
  intros E Hk. assert ((payload <$> es) !! k = Some (content_of x)) as H by (by rewrite E, list_lookup_fmap, Hk).
  rewrite list_lookup_fmap in H. apply fmap_Some in H as (e & ? & ->). by exists e.
Qed.

Lemma zip_canonical es (xs : list (list Z)) : payload <$> es = content_of <$> xs → Forall canonical (payload <$> es).
Proof. intros ->. apply Forall_fmap, Forall_true. intros x. apply content_of_canonical. Qed.

Lemma content_of_inj x y : content_of x = content_of y → x = y.
Proof. intros E. rewrite <- (content_of_text x), <- (content_of_text y). by rewrite E. Qed.

Section view.
Context (junk : nat → Z).

Lemma zip_new : ∃ zl, ziplistNew junk = Some zl ∧ zip zl [].
Proof.
  exists (image [] 0). split.
  - reflexivity.
  - exists [], 0. split; [done|]. split; [|done]. split; [done|done|done|]. left. done.
Qed.

Lemma insert_view es l xs k s :
  wf es l → payload <$> es = content_of <$> xs → (k ≤ length es)%nat →
  no_shrink (take k es) (drop k es) s → fits (take k xs ++ s :: drop k xs) →
  ∃ zl', __ziplistInsert junk (image es l) (offset es k) s = Some zl' ∧ zip zl' (take k xs ++ s :: drop k xs).
Proof.
  intros Hwf E Hk Hns Hfit.
  assert (payload <$> inserted (take k es) (drop k es) s = content_of <$> (take k xs ++ s :: drop k xs)) as Ep.
  { rewrite inserted_payload, fmap_app, fmap_cons, !fmap_take, !fmap_drop, E. done. }
  pose proof (flat_fits _ _ Ep) as Hs. unfold fits in Hfit. rewrite <- (take_drop k es) in Hwf.
  exists (image (inserted (take k es) (drop k es) s) (incr l 1)). split.
  - unfold offset. rewrite <- (take_drop k es) at 1. apply insert_image; [done|done|lia].
  - eexists _, _. split; [done|]. split; [|done]. apply inserted_wf; [done|lia].
Qed.

Lemma delete_view es l xs k num :
  wf es l → payload <$> es = content_of <$> xs → (k < length es)%nat → 0 ≤ num → fits xs →
  ∃ zl', __ziplistDelete junk (image es l) (offset es k) num = Some zl' ∧
         zip zl' (take k xs ++ drop (k + Z.to_nat num) xs).
Proof.
  intros Hwf E Hk Hn Hfit. destruct (lookup_lt_is_Some_2 _ _ Hk) as [f Hf]. destruct (split_nth _ _ _ Hf) as [Ees _].
  assert (∀ j, drop j (f :: drop (S k) es) = drop (k + j) es) as Hdrop.
  { intros j. rewrite <- drop_drop. f_equal. by rewrite (drop_S _ _ _ Hf). }
  unfold offset. destruct (decide (num = 0)) as [->|Hn0].
  - exists (image es l). split; [|exists es, l; split; [done|]; split; [done|]].
    + rewrite Ees at 1 3. rewrite Ees in Hwf. by apply delete_zero.
    + rewrite E. f_equal. change (Z.to_nat 0) with 0%nat. by rewrite Nat.add_0_r, take_drop.
  - set (rest := drop (Z.to_nat num) (f :: drop (S k) es)).
    set (del := take (Z.to_nat num) (f :: drop (S k) es)).
    assert (payload <$> deleted_from (take k es) rest = content_of <$> (take k xs ++ drop (k + Z.to_nat num) xs)) as Ep.
    { rewrite deleted_payload, fmap_app. subst rest. rewrite Hdrop, !fmap_take, !fmap_drop, E. done. }
    assert (total_size (take k xs ++ drop (k + Z.to_nat num) xs) ≤ total_size xs) as Hts.
    { rewrite <- (take_drop k xs) at 3. rewrite !total_size_app, <- drop_drop.
      rewrite <- (take_drop (Z.to_nat num) (drop k xs)) at 2. rewrite total_size_app.
      pose proof (total_size_pos (take (Z.to_nat num) (drop k xs))). lia. }
    pose proof (flat_fits _ _ Ep) as Hs. unfold fits in Hfit.
    exists (image (deleted_from (take k es) rest) (incr l (- zlen del))).
    pose proof Hwf as Hwf'. rewrite Ees in Hwf'. split.
    + rewrite Ees at 1. apply delete_image; [lia|done|fold rest; lia].
    + eexists _, _. split; [done|]. split; [|done]. apply deleted_wf; [|lia]. subst del rest. by rewrite take_drop.
Qed.
End view.

(** A block built by pushing at the tail, to try the theorems on. *)
Definition zip_of (xs : list (list Z)) : list Z :=
  default [] (foldl (λ zl x, zl ← zl; ziplistPush (λ _, 7) zl x ZIPLIST_TAIL) (ziplistNew (λ _, 7)) xs).

Definition push_at (w : where_) (x : list Z) (xs : list (list Z)) : list (list Z) :=
  match w with ZIPLIST_HEAD => x :: xs | ZIPLIST_TAIL => xs ++ [x] end.

Lemma push_view junk zl xs x w :
  zip zl xs → fits (x :: xs) → ∃ zl', ziplistPush junk zl x w = Some zl' ∧ zip zl' (push_at w x xs).
Proof.
  intros (es & l & -> & Hwf & E) Hfit. unfold ziplistPush. destruct w; cbn [push_at].
  - rewrite some_bind. apply (insert_view junk es l xs 0 x Hwf E); [lia| |done].
    cbn [take drop no_shrink]. destruct es as [|e es]; [done|]. cbn. intros Hb.
    pose proof (wf_head _ _ Hwf e eq_refl). congruence.
  - rewrite image_bytes, !some_bind by apply (wf_size _ _ Hwf).
    replace (11 + zlen (flat es) - 1) with (offset es (length es)) by (rewrite offset_end by lia; lia).
    destruct (insert_view junk es l xs (length es) x Hwf E) as (zl' & Hins & Hz); [lia|by rewrite drop_ge by lia| |].
    + rewrite (zip_length _ _ E), take_ge, drop_ge by lia. unfold fits in *. rewrite total_size_app.
      cbn [total_size foldr] in *. unfold total_size in *. lia.
    + rewrite (zip_length _ _ E), take_ge, drop_ge in Hz by lia. by exists zl'.
Qed.

Lemma insert_at_view junk zl xs k p s :
  zip zl xs → Z.of_nat k < 2 ^ 31 → ziplistIndex zl (Z.of_nat k) = Some (Some p) →
  ZIP_DECODE_PREVLENSIZE zl p = Some 1 ∨ 3 ≤ zlen (enc_content (content_of s)) →
  fits (take k xs ++ s :: drop k xs) →
  ∃ zl', ziplistInsert junk zl p s = Some zl' ∧ zip zl' (take k xs ++ s :: drop k xs).
Proof.
  intros (es & l & -> & Hwf & E) Hk Hi Hroom Hfit. rewrite index_pos in Hi by (done || lia).
  case_decide as Hlt; [|done]. injection Hi as <-. rewrite Nat2Z.id in *.
  apply (insert_view junk es l xs k s Hwf E); [lia| |done].
  destruct (lookup_lt_is_Some_2 es k) as [e He]; [lia|].
  rewrite (drop_S _ _ _ He). cbn [no_shrink]. intros Hb _. destruct Hroom as [Hr|Hr].
  - by rewrite (prevsize_offset _ _ _ _ Hwf He), Hb in Hr.
  - unfold rawlen, new_entry. cbn [payload big]. destruct (needs_big _); lia.
Qed.

Lemma delete_range_view junk zl xs i num :
  zip zl xs → fits xs → in_s 32 i → 0 ≤ num →
  ∃ zl', ziplistDeleteRange junk zl i num = Some zl' ∧
    zip zl' (match nth_of (length xs) i with
             | Some k => take k xs ++ drop (k + Z.to_nat num) xs
             | None => xs
             end).
Proof.
  intros (es & l & -> & Hwf & E) Hfit Hi Hn. unfold ziplistDeleteRange. rewrite index_ok, some_bind by done.
  rewrite <- (zip_length _ _ E). destruct (nth_of (length es) i) as [k|] eqn:Ek; cbn [fmap option_fmap option_map].
  - apply (delete_view junk es l xs k num Hwf E); [|done|done]. unfold nth_of in Ek.
    case_decide; [injection Ek as <-; lia|]. case_decide; [injection Ek as <-; lia|done].
  - exists (image es l). split; [done|]. by exists es, l.
Qed.

Lemma delete_one_view junk zl xs k p :
  zip zl xs → fits xs → Z.of_nat k < 2 ^ 31 → ziplistIndex zl (Z.of_nat k) = Some (Some p) →
  ∃ zl', ziplistDelete junk zl p = Some (zl', p) ∧ zip zl' (delete k xs).
Proof.
  intros (es & l & -> & Hwf & E) Hfit Hk Hi. rewrite index_pos in Hi by (done || lia).
  case_decide as Hlt; [|done]. injection Hi as <-. rewrite Nat2Z.id. unfold ziplistDelete.
  destruct (delete_view junk es l xs k 1 Hwf E) as (zl' & -> & Hz); [lia|lia|done|].
  exists zl'. split; [done|]. rewrite delete_take_drop. by rewrite Nat.add_1_r in Hz.
Qed.

(** The length of a block: the field, or the count of the entries when the field is full. *)
Lemma ziplistLen_counts zl xs :
  zip zl xs → ∃ zl', ziplistLen zl = Some (zlen xs, zl') ∧ zip zl' xs.
Proof.
  intros (es & l & -> & Hwf & E). destruct (len_ok_count es l Hwf) as (l' & H & Hwf').
  rewrite H, (zip_length _ _ E). eexists. split; [done|]. by exists es, l'.
Qed.

Lemma merge_view junk zl1 zl2 xs ys :
  zip zl1 xs → zip zl2 ys → xs = [] ∨ ys ≠ [] → fits (xs ++ ys) →
  ∃ append zl, ziplistMerge junk false (Some zl1) (Some zl2) = Some (Some (append, zl)) ∧ zip zl (xs ++ ys).
Proof.
  intros (es1 & l1 & -> & Hw1 & E1) (es2 & l2 & -> & Hw2 & E2) Hne Hfit.
  assert (payload <$> merged es1 es2 = content_of <$> (xs ++ ys)) as Ep by (by rewrite merged_payload, fmap_app, E1, E2).
  pose proof (flat_fits _ _ Ep) as Hs. unfold fits in Hfit.
  exists (l1 >=? l2), (image (merged es1 es2) (merged_len l1 l2)). split.
  - apply merge_image; [done|done| |lia]. destruct Hne as [->|Hy]; [left|right; intros ->].
    + by apply fmap_nil_inv in E1.
    + symmetry in E2. by apply fmap_nil_inv in E2.
  - eexists _, _. split; [done|]. split; [|done]. apply merged_wf; [done|done|lia].
Qed.

(** Blocks that the functions of this file build from one another. *)
Inductive built : list Z → list (list Z) → Prop :=
  | built_new junk zl : ziplistNew junk = Some zl → built zl []
  | built_push junk zl xs x w zl' :
      built zl xs → fits (x :: xs) → ziplistPush junk zl x w = Some zl' → built zl' (push_at w x xs)
  | built_insert junk zl xs k p s zl' :
      built zl xs → Z.of_nat k < 2 ^ 31 → ziplistIndex zl (Z.of_nat k) = Some (Some p) →
      ZIP_DECODE_PREVLENSIZE zl p = Some 1 ∨ 3 ≤ zlen (enc_content (content_of s)) →
      fits (take k xs ++ s :: drop k xs) →
      ziplistInsert junk zl p s = Some zl' → built zl' (take k xs ++ s :: drop k xs)
  | built_delete junk zl xs k p zl' p' :
      built zl xs → fits xs → Z.of_nat k < 2 ^ 31 → ziplistIndex zl (Z.of_nat k) = Some (Some p) →
      ziplistDelete junk zl p = Some (zl', p') → built zl' (delete k xs)
  | built_range junk zl xs i num zl' :
      built zl xs → fits xs → in_s 32 i → 0 ≤ num → ziplistDeleteRange junk zl i num = Some zl' →
      built zl' (match nth_of (length xs) i with
                 | Some k => take k xs ++ drop (k + Z.to_nat num) xs
                 | None => xs
                 end)
  | built_merge junk zl1 zl2 xs ys append zl :
      built zl1 xs → built zl2 ys → xs = [] ∨ ys ≠ [] → fits (xs ++ ys) →
      ziplistMerge junk false (Some zl1) (Some zl2) = Some (Some (append, zl)) → built zl (xs ++ ys)
  | built_len zl xs n zl' : built zl xs → ziplistLen zl = Some (n, zl') → built zl' xs.

Lemma built_zip zl xs : built zl xs → zip zl xs.
Proof.
  induction 1 as [junk zl H|junk zl xs x w zl' _ IH Hf H|junk zl xs k p s zl' _ IH Hk Hi Hr Hf H|
    junk zl xs k p zl' p' _ IH Hf Hk Hi H|junk zl xs i num zl' _ IH Hf Hi Hn H|
    junk zl1 zl2 xs ys append zl _ IH1 _ IH2 Hne Hf H|zl xs n zl' _ IH H].
  - destruct (zip_new junk) as (zl0 & E & Hz). congruence.
  - destruct (push_view junk zl xs x w IH Hf) as (zl0 & E & Hz). congruence.
  - destruct (insert_at_view junk zl xs k p s IH Hk Hi Hr Hf) as (zl0 & E & Hz). congruence.
  - destruct (delete_one_view junk zl xs k p IH Hf Hk Hi) as (zl0 & E & Hz). congruence.
  - destruct (delete_range_view junk zl xs i num IH Hf Hi Hn) as (zl0 & E & Hz). congruence.
  - destruct (merge_view junk zl1 zl2 xs ys IH1 IH2 Hne Hf) as (a & zl0 & E & Hz). congruence.
  - destruct (ziplistLen_counts zl xs IH) as (zl0 & E & Hz). congruence.
Qed.

Lemma fits_take xs k : fits xs → fits (take k xs).
Proof.
  unfold fits. intros H. rewrite <- (take_drop k xs), total_size_app in H. pose proof (total_size_pos (drop k xs)). lia.
Qed.

Lemma zip_of_built xs : (∀ k, fits (take k xs)) → built (zip_of xs) xs.
Proof.
  intros Hf. unfold zip_of.
  assert (∃ zl, foldl (λ zl x, zl ← zl; ziplistPush (λ _, 7) zl x ZIPLIST_TAIL) (ziplistNew (λ _, 7)) xs = Some zl ∧ built zl xs)
    as (zl & -> & H); [|done].
  induction xs as [|x xs IH] using rev_ind.
  { destruct (zip_new (λ _, 7)) as (zl & E & _). exists zl. split; [done|]. by eapply built_new. }
  rewrite foldl_app. cbn [foldl].
  assert (∀ k, fits (take k xs)) as Hf'.
  { intros k. specialize (Hf (k `min` length xs)%nat). rewrite take_app_le in Hf by lia.
    destruct (decide (k ≤ length xs)%nat); [by rewrite Nat.min_l in Hf by lia|].
    rewrite Nat.min_r in Hf by lia. rewrite take_ge in Hf by lia. by rewrite take_ge by lia. }
  destruct (IH Hf') as (zl & -> & Hz). rewrite some_bind.
  assert (fits (x :: xs)) as Hfx.
  { specialize (Hf (length (xs ++ [x]))). rewrite take_ge in Hf by lia. unfold fits in *. rewrite total_size_app in Hf.
    cbn [total_size foldr] in *. unfold total_size in *. lia. }
  destruct (push_view (λ _, 7) zl xs x ZIPLIST_TAIL (built_zip _ _ Hz) Hfx) as (zl' & E & _).
  exists zl'. split; [done|]. by eapply (built_push _ _ xs x ZIPLIST_TAIL).
Qed.

Lemma zip_of_zip xs : fits xs → zip (zip_of xs) xs.
Proof. intros H. apply built_zip, zip_of_built. intros k. by apply fits_take. Qed.

Definition zdemo : list (list Z) := [of_string "foo"; of_string "1024"; replicate 300 65; of_string "-7"].

Lemma zdemo_zip : zip (zip_of zdemo) zdemo.
Proof. apply zip_of_zip. by vm_compute. Qed.

(** ** Properties *)

(** C13: pushing a string at either end of a well-formed block never leaves the
    block, whatever was in the memory that was allocated, and gives a
    well-formed block of the list with the string in front or behind. *)
Theorem ziplistPush_refines junk zl xs x w :
  zip zl xs → fits (x :: xs) → ∃ zl', ziplistPush junk zl x w = Some zl' ∧ zip zl' (push_at w x xs).
Proof. apply push_view. Qed.

Lemma ziplistPush_refines_witness :
  ∃ zl', ziplistPush (λ _, 9) (zip_of zdemo) (of_string "12") ZIPLIST_HEAD = Some zl' ∧
         zip zl' (of_string "12" :: zdemo).
Proof. apply (ziplistPush_refines (λ _, 9) (zip_of zdemo) zdemo (of_string "12") ZIPLIST_HEAD); [apply zdemo_zip|by vm_compute]. Defined.

(** C15: inserting a string in front of the entry [k] of a well-formed block
    gives the block of the list with the string at [k]: the next entry gets a
    field of the right size and the cascade repairs those behind.  The next
    entry must not hold a needlessly big field, unless the new entry takes
    four bytes or more. *)
Theorem ziplistInsert_refines junk zl xs k p s :
  zip zl xs → Z.of_nat k < 2 ^ 31 → ziplistIndex zl (Z.of_nat k) = Some (Some p) →
  ZIP_DECODE_PREVLENSIZE zl p = Some 1 ∨ 3 ≤ zlen (enc_content (content_of s)) →
  fits (take k xs ++ s :: drop k xs) →
  ∃ zl', ziplistInsert junk zl p s = Some zl' ∧ zip zl' (take k xs ++ s :: drop k xs).
Proof. apply insert_at_view. Qed.

Lemma ziplistInsert_refines_witness :
  ∃ p zl', ziplistIndex (zip_of zdemo) 2 = Some (Some p) ∧
    ziplistInsert (λ _, 9) (zip_of zdemo) p (of_string "5") = Some zl' ∧
    zip zl' (take 2 zdemo ++ of_string "5" :: drop 2 zdemo).
Proof.
  destruct (ziplistInsert_refines (λ _, 9) (zip_of zdemo) zdemo 2 19 (of_string "5")) as (zl' & H1 & H2);
    [apply zdemo_zip|done|by vm_compute|left; by vm_compute|by vm_compute|].
  exists 19, zl'. split; [by vm_compute|]. split; [exact H1|exact H2].
Defined.

(** C16: [ziplistDeleteRange] with any index, negative ones counted from the
    tail, and any number deletes the entries of that range from a well-formed
    block, or nothing when there is no such entry; the next entry gets the
    length of the new previous one and the cascade repairs those behind. *)
Theorem ziplistDeleteRange_refines junk zl xs i num :
  zip zl xs → fits xs → in_s 32 i → 0 ≤ num →
  ∃ zl', ziplistDeleteRange junk zl i num = Some zl' ∧
    zip zl' (match nth_of (length xs) i with
             | Some k => take k xs ++ drop (k + Z.to_nat num) xs
             | None => xs
             end).
Proof. apply delete_range_view. Qed.

Lemma ziplistDeleteRange_refines_witness :
  ∃ zl', ziplistDeleteRange (λ _, 9) (zip_of zdemo) (-3) 2 = Some zl' ∧
    zip zl' [of_string "foo"; of_string "-7"].
Proof.
  apply (ziplistDeleteRange_refines (λ _, 9) (zip_of zdemo) zdemo (-3) 2);
    [apply zdemo_zip|by vm_compute|done|done].
Defined.

(** C24: in a well-formed block every index finds its entry: the entry [k] by [k]
    and by [k - n] from the tail, any other index nothing; the entry reads back
    as the string that was stored (a number if the string is one), compares
    equal to that string only, and [ziplistNext] and [ziplistPrev] lead to the
    entries around it. *)
Theorem ziplist_entries zl xs :
  zip zl xs →
  (∀ i, in_s 32 i → nth_of (length xs) i = None → ziplistIndex zl i = Some None) ∧
  (∀ k x, xs !! k = Some x → zlen xs < 2 ^ 31 → ∃ p,
     ziplistIndex zl (Z.of_nat k) = Some (Some p) ∧
     ziplistIndex zl (Z.of_nat k - zlen xs) = Some (Some p) ∧
     ziplistGet zl (Some p) = Some (Some (content_of x)) ∧ content_text (content_of x) = x ∧
     (∀ s, ziplistCompare zl p s = Some (bool_decide (s = x))) ∧
     (∃ next, ziplistNext zl p = Some next ∧
        ziplistIndex zl (Z.of_nat (S k)) = Some next) ∧
     (∃ prev, ziplistPrev zl p = Some prev ∧
        match k with O => prev = None | S j => ziplistIndex zl (Z.of_nat j) = Some prev end)).
Proof.
  intros (es & l & -> & Hwf & E). pose proof (zip_length _ _ E) as Hlen. rewrite <- Hlen. split.
  { intros i Hi Hn. by rewrite index_ok, Hn by done. }
  intros k x Hk Hn. destruct (zip_lookup _ _ _ _ E Hk) as (e & He & Ee). pose proof (lookup_lt_Some _ _ _ He) as Hlt.
  exists (offset es k). rewrite !index_pos by (done || lia).
  split; [rewrite decide_True by lia; by rewrite Nat2Z.id|].
  split; [rewrite index_neg by (done || lia); rewrite decide_True by lia; do 4 f_equal; lia|].
  split; [by rewrite (get_ok _ _ _ _ Hwf He), Ee|]. split; [apply content_of_text|]. split.
  { intros s. rewrite (compare_ok _ _ _ _ _ Hwf He) by (rewrite Ee; apply content_of_canonical). f_equal.
    apply bool_decide_ext. rewrite Ee. split; [intros H; symmetry; by apply content_of_inj|by intros ->]. }
  split.
  - eexists. split; [by apply next_ok|]. rewrite index_pos by (done || lia). f_equal.
    destruct (decide (S k < length es)%nat); [rewrite decide_True by lia|rewrite decide_False by lia]; [|done].
    by rewrite Nat2Z.id.
  - eexists. split; [apply prev_ok; [done|lia]|]. destruct k as [|j]; [done|].
    rewrite index_pos, decide_True by (done || lia). by rewrite Nat2Z.id.
Qed.

Lemma ziplist_entries_witness :
  ∃ p, ziplistIndex (zip_of zdemo) (-2) = Some (Some p) ∧
    ziplistGet (zip_of zdemo) (Some p) = Some (Some (content_of (replicate 300 65))).
Proof.
  destruct (ziplist_entries (zip_of zdemo) zdemo zdemo_zip) as [_ H].
  destruct (H 2%nat (replicate 300 65) eq_refl eq_refl) as (p & _ & H1 & H2 & _).
  exists p. split; [exact H1|exact H2].
Defined.

Lemma find_from_spec cs c skip : ∀ cnt,
  match find_from cs c skip cnt with
  | Some j => (∃ q, j = cnt + q * S skip)%nat ∧ cs !! j = Some c ∧
              ∀ q i, (i = cnt + q * S skip)%nat → (i < j)%nat → cs !! i ≠ Some c
  | None => ∀ q i, (i = cnt + q * S skip)%nat → cs !! i ≠ Some c
  end.
Proof.
  induction cs as [|x cs IH]; intros cnt; cbn [find_from]; [done|]. destruct cnt as [|cnt].
  - destruct (decide (x = c)) as [->|N].
    { split; [by exists 0%nat|]. split; [done|]. intros q i _ Hi. lia. }
    specialize (IH skip). destruct (find_from cs c skip skip) as [j|]; cbn [fmap option_fmap option_map].
    + destruct IH as ((q & ->) & Hj & Hmin). split; [by exists (S q)|]. split; [done|].
      intros [|q'] i -> Hi; [cbn; congruence|]. apply (Hmin q' (skip + q' * S skip)%nat eq_refl).
      cbn [Nat.mul Nat.add] in Hi. lia.
    + intros [|q] i ->; [cbn; congruence|]. by apply (IH q (skip + q * S skip)%nat).
  - specialize (IH cnt). destruct (find_from cs c skip cnt) as [j|]; cbn [fmap option_fmap option_map].
    + destruct IH as ((q & ->) & Hj & Hmin). split; [by exists q|]. split; [done|].
      intros q' i -> Hi. apply (Hmin q' (cnt + q' * S skip)%nat eq_refl). cbn [Nat.add] in Hi. lia.
    + intros q i ->. by apply (IH q (cnt + q * S skip)%nat).
Qed.

(** [ziplistFind] from the head, comparing one entry of every [skip + 1],
    returns the first of the compared entries that equals the string, and
    nothing when none does. *)
Theorem ziplistFind_first zl xs v skip :
  zip zl xs → zlen v < 2 ^ 32 → Z.of_nat skip < 2 ^ 31 → zlen xs < 2 ^ 31 →
  ∃ r, ziplistFind zl ZIPLIST_HEADER_SIZE v (Z.of_nat skip) = Some r ∧
    match r with
    | Some p => ∃ j q, (j = q * S skip)%nat ∧ ziplistIndex zl (Z.of_nat j) = Some (Some p) ∧ xs !! j = Some v ∧
                       ∀ q' i, (i = q' * S skip)%nat → (i < j)%nat → xs !! i ≠ Some v
    | None => ∀ q i, (i = q * S skip)%nat → xs !! i ≠ Some v
    end.
Proof.
  intros (es & l & -> & Hwf & E) Hv Hskip Hn. unfold ziplistFind.
  pose proof (find_ok es (S (length (image es l))) [] l v skip 0 0 0 (image_long es l) Hwf
    (zip_canonical _ _ E) Hv (or_introl eq_refl) Hskip ltac:(done)) as Hfind. cbn [app] in Hfind.
  change (10 + zlen (flat [])) with ZIPLIST_HEADER_SIZE in Hfind. change (Z.of_nat 0) with 0 in Hfind.
  eexists. split; [exact Hfind|]. pose proof (find_from_spec (payload <$> es) (content_of v) skip 0) as Hspec.
  assert (∀ i, (payload <$> es) !! i = Some (content_of v) ↔ xs !! i = Some v) as Hiff.
  { intros i. rewrite E, list_lookup_fmap, fmap_Some. split; [|by exists v].
    intros (x & Hx & Ex). rewrite Hx. f_equal. symmetry. by apply content_of_inj. }
  destruct (find_from _ _ _ _) as [j|]; cbn [fmap option_fmap option_map].
  - destruct Hspec as ((q & Ej) & Hj & Hmin). exists j, q. split; [done|]. apply Hiff in Hj as Hj'.
    pose proof (lookup_lt_Some _ _ _ Hj') as Hlt. pose proof (zip_length _ _ E) as Hlen.
    split; [|split; [done|]].
    + rewrite index_pos, decide_True by (done || lia). by rewrite Nat2Z.id.
    + intros q' i Ei Hi. rewrite <- Hiff. by apply (Hmin q').
  - intros q i Ei. rewrite <- Hiff. by apply (Hspec q).
Qed.

Lemma ziplistFind_first_witness :
  ∃ r, ziplistFind (zip_of zdemo) ZIPLIST_HEADER_SIZE (of_string "-7") 2 = Some r ∧ r = Some 322.
Proof.
  destruct (ziplistFind_first (zip_of zdemo) zdemo (of_string "-7") 2) as (r & H & _);
    [apply zdemo_zip|done|done|done|].
  exists r. split; [exact H|]. vm_compute in H. by injection H as <-.
Defined.

(** Merging two well-formed blocks gives a well-formed block of the
    entries of the first, then those of the second, whichever of the two blocks
    is kept; the second must not be empty unless the first is. *)
Theorem ziplistMerge_refines junk zl1 zl2 xs ys :
  zip zl1 xs → zip zl2 ys → xs = [] ∨ ys ≠ [] → fits (xs ++ ys) →
  ∃ append zl, ziplistMerge junk false (Some zl1) (Some zl2) = Some (Some (append, zl)) ∧ zip zl (xs ++ ys).
Proof. apply merge_view. Qed.

Lemma ziplistMerge_refines_witness :
  ∃ append zl, ziplistMerge (λ _, 9) false (Some (zip_of [])) (Some (zip_of zdemo)) = Some (Some (append, zl)) ∧
    zip zl ([] ++ zdemo).
Proof.
  apply (ziplistMerge_refines (λ _, 9) (zip_of []) (zip_of zdemo) [] zdemo);
    [|apply zdemo_zip|by left|by vm_compute].
  by apply zip_of_zip.
Defined.

(** Every block that the functions build is well-formed: its header holds its
    size, the offset of its last entry and the number of entries (or 65535),
    each entry holds the size of the one before it, no field is too small, the
    first field is a small one, and the entries are the strings of the list. *)
Theorem ziplist_well_formed zl xs : built zl xs → zip zl xs.
Proof. apply built_zip. Qed.

Lemma ziplist_well_formed_witness :
  ∃ zl, ziplistPush (λ _, 9) (image [] 0) (of_string "a") ZIPLIST_TAIL = Some zl ∧ zip zl [of_string "a"].
Proof.
  destruct (ziplistPush (λ _, 9) (image [] 0) (of_string "a") ZIPLIST_TAIL) as [zl|] eqn:E; [|by vm_compute in E].
  exists zl. split; [done|]. apply (ziplist_well_formed zl [of_string "a"]).
  apply (built_push (λ _, 9) (image [] 0) [] (of_string "a") ZIPLIST_TAIL); [|by vm_compute|done].
  by apply (built_new (λ _, 9)).
Defined.

(** A list whose second entry keeps a big field: the first entry was deleted and
    with it shrank the one behind it. *)
Definition slack_list : list Z :=
  default [] (ziplistDeleteRange (λ _, 7) (zip_of [replicate 300 87; replicate 247 88; of_string "end"]) 0 1).

(** Inserting can destroy a block.  Where the next entry holds a field of
    five bytes for a length that needs one (the cascade leaves such fields
    behind when a large entry in front is deleted) and the new entry takes less
    than four bytes, the block is shrunk before its tail is moved: the move
    reads behind the end of the block.  Pushes, a deletion and an insertion of
    a digit are enough. *)
Theorem ziplistInsert_destroys junk :
  ∃ zl p, built zl [replicate 247 88; of_string "end"] ∧
    ziplistIndex zl 1 = Some (Some p) ∧ ZIP_DECODE_PREVLENSIZE zl p = Some 5 ∧
    ziplistInsert junk zl p (of_string "7") = None.
Proof.
  exists slack_list, 260. split; [|split; [by vm_compute|split; by vm_compute]].
  set (xs := [replicate 300 87; replicate 247 88; of_string "end"]).
  apply (built_range (λ _, 7) (zip_of xs) xs 0 1); [|by vm_compute|done|done|by vm_compute].
  apply zip_of_built. intros k. apply fits_take. by vm_compute.
Qed.

(** Merging with an empty second block destroys the tail offset: it then
    points at the end marker, so that the last entry is not found from the
    tail, and the next string pushed there is stored with the length 0 as that
    of the previous entry. *)
Theorem ziplistMerge_empty_second junk :
  ∃ zl zl', ziplistMerge junk false (Some (zip_of [of_string "abc"])) (Some (zip_of [])) = Some (Some (true, zl)) ∧
    ziplistIndex zl 0 = Some (Some 10) ∧ ziplistIndex zl (-1) = Some None ∧
    ziplistPush junk zl (of_string "d") ZIPLIST_TAIL = Some zl' ∧
    ziplistIndex zl' 1 = Some (Some 15) ∧ ZIP_DECODE_PREVLEN zl' 15 = Some (1, 0) ∧
    ziplistIndex zl' (-2) = Some None ∧ ¬ zip zl [of_string "abc"].
Proof.
  do 2 eexists. split; [by vm_compute|]. split; [by vm_compute|]. split; [by vm_compute|].
  split; [by vm_compute|]. split; [by vm_compute|]. split; [by vm_compute|]. split; [by vm_compute|].
  intros (es & l & E & Hwf & Ep). pose proof (index_neg es l (-1) Hwf ltac:(done)) as Hi. rewrite <- E in Hi.
  rewrite (zip_length _ _ Ep) in Hi. vm_compute in Hi. congruence.
Qed.
