(* ===== verification/ZipView.v ===== *)
(** * Ziplists as their clients see them

    [entries zl xs pos]: the block [zl] holds the strings [xs], the entry [k]
    lies at the offset [pos k].  The record is the interface between
    [ziplist.c] and the quick lists built on it: what the functions that take
    and return entry pointers promise.  [zip_entries] shows that every
    well-formed block has it; the sizes of blocks and their bytes are bounded
    here too. *)

From S2P Require Import Prelude Decimal Util Zipenc Ziplist ZipRead.

Record entries (zl : list Z) (xs : list (list Z)) (pos : nat → Z) : Prop := {
  e_index i : in_s 32 i → ziplistIndex zl i = Some (pos <$> nth_of (length xs) i);
  e_get k x : xs !! k = Some x → ziplistGet zl (Some (pos k)) = Some (Some (content_of x));
  e_next k : (k < length xs)%nat →
    ziplistNext zl (pos k) = Some (if decide (S k < length xs)%nat then Some (pos (S k)) else None);
  e_prev k : (k < length xs)%nat →
    ziplistPrev zl (pos k) = Some (match k with O => None | S j => Some (pos j) end);
  e_delete junk k : (k < length xs)%nat → fits xs →
    ∃ zl', ziplistDelete junk zl (pos k) = Some (zl', pos k) ∧ zip zl' (delete k xs);
  e_insert junk k s : (k < length xs)%nat →
    ZIP_DECODE_PREVLENSIZE zl (pos k) = Some 1 ∨ 3 ≤ zlen (enc_content (content_of s)) →
    fits (take k xs ++ s :: drop k xs) →
    ∃ zl', ziplistInsert junk zl (pos k) s = Some zl' ∧ zip zl' (take k xs ++ s :: drop k xs);
  e_replace junk k s : (k < length xs)%nat → fits xs → fits (<[k := s]> xs) →
    ∃ zl1 zl2, ziplistDelete junk zl (pos k) = Some (zl1, pos k) ∧
      ziplistInsert junk zl1 (pos k) s = Some zl2 ∧ zip zl2 (<[k := s]> xs)
}.

Lemma insert_image_view junk es1 es2 l xs1 xs2 s :
  wf (es1 ++ es2) l → payload <$> es1 = content_of <$> xs1 → payload <$> es2 = content_of <$> xs2 →
  no_shrink es1 es2 s → fits (xs1 ++ s :: xs2) →
  ∃ zl, __ziplistInsert junk (image (es1 ++ es2) l) (10 + zlen (flat es1)) s = Some zl ∧ zip zl (xs1 ++ s :: xs2).
Proof.
  intros Hwf E1 E2 Hns Hfit.
  pose proof (insert_view junk (es1 ++ es2) l (xs1 ++ xs2) (length es1) s Hwf) as H.
  pose proof (zip_length _ _ E1) as Hl. unfold offset in H. rewrite take_app_length, drop_app_length in H.
  rewrite Hl in H. rewrite take_app_length, drop_app_length in H. rewrite <- Hl in H.
  apply H; [by rewrite !fmap_app, E1, E2|rewrite length_app; lia|done|done].
Qed.

(** The entry that replaces another one lands in front of an entry whose field has
    just been written with the smallest size, so that the block cannot shrink. *)
Lemma replace_view junk es l xs k s :
  wf es l → payload <$> es = content_of <$> xs → (k < length xs)%nat → fits xs → fits (<[k := s]> xs) →
  ∃ zl1 zl2, ziplistDelete junk (image es l) (offset es k) = Some (zl1, offset es k) ∧
    ziplistInsert junk zl1 (offset es k) s = Some zl2 ∧ zip zl2 (<[k := s]> xs).
Proof.
  intros Hwf E Hk Hf Hfit. pose proof (zip_length _ _ E) as Hlen.
  destruct (lookup_lt_is_Some_2 es k) as [e He]; [lia|]. destruct (split_nth _ _ _ He) as [Ees _].
  set (es1 := take k es) in *. set (rest := drop (S k) es) in *.
  pose proof Hwf as Hwf'. rewrite Ees in Hwf'.
  assert (payload <$> es1 = content_of <$> take k xs) as E1 by (unfold es1; by rewrite !fmap_take, E).
  assert (payload <$> rest = content_of <$> drop (S k) xs) as E2 by (unfold rest; by rewrite !fmap_drop, E).
  assert (payload <$> deleted_from es1 rest = content_of <$> (take k xs ++ drop (S k) xs)) as Ep
    by (by rewrite deleted_payload, fmap_app, E1, E2).
  pose proof (flat_fits _ _ Ep) as Hs.
  assert (11 + zlen (flat (deleted_from es1 rest)) < 2 ^ 32) as Hs'.
  { unfold fits in Hfit. rewrite (insert_take_drop _ _ _ Hk), total_size_app in Hfit. rewrite total_size_app in Hs.
    cbn [total_size foldr] in *. unfold total_size in *. lia. }
  assert (wf (deleted_from es1 rest) (incr l (- 1))) as Hwfd.
  { apply (deleted_wf es1 [e] rest l Hwf' Hs'). }
  assert (ziplistDelete junk (image es l) (offset es k) = Some (image (deleted_from es1 rest) (incr l (- 1)), offset es k)) as Hdel.
  { unfold ziplistDelete, offset. fold es1. rewrite Ees at 1.
    rewrite (delete_image junk es1 e rest l 1); [done|done|done|exact Hs']. }
  exists (image (deleted_from es1 rest) (incr l (- 1))). unfold ziplistInsert, offset in *. fold es1 in Hdel |- *.
  unfold deleted_from in *.
  rewrite (insert_take_drop _ _ _ Hk) in Hfit.
  edestruct (insert_image_view junk es1) as (zl2 & Hi & Hz); [exact Hwfd|exact E1| | |exact Hfit|].
  - rewrite <- E2. destruct rest as [|x r]; [done|]. rewrite !fmap_cons, fix_chain_payload. done.
  - destruct rest as [|x r]; [done|]. cbn [no_shrink big]. unfold new_entry. intros Hb _.
    unfold rawlen. cbn [big payload]. rewrite Hb. lia.
  - exists zl2. split; [exact Hdel|]. split; [exact Hi|]. by rewrite (insert_take_drop _ _ _ Hk).
Qed.

Lemma zip_entries zl xs : zip zl xs → ∃ pos, entries zl xs pos.
Proof.
  intros (es & l & -> & Hwf & E). exists (offset es). pose proof (zip_length _ _ E) as Hlen. split.
  - intros i Hi. rewrite <- Hlen. by apply index_ok.
  - intros k x Hk. destruct (zip_lookup _ _ _ _ E Hk) as (e & He & <-). by apply get_ok.
  - intros k Hk. rewrite <- Hlen. by apply next_ok.
  - intros k Hk. apply prev_ok; [done|lia].
  - intros junk k Hk Hf. unfold ziplistDelete.
    destruct (delete_view junk es l xs k 1 Hwf E) as (zl' & -> & Hz); [lia|lia|done|].
    exists zl'. split; [done|]. rewrite delete_take_drop. by rewrite Nat.add_1_r in Hz.
  - intros junk k s Hk Hroom Hfit. apply (insert_view junk es l xs k s Hwf E); [lia| |done].
    destruct (lookup_lt_is_Some_2 es k) as [e He]; [lia|].
    rewrite (drop_S _ _ _ He). cbn [no_shrink]. intros Hb _. destruct Hroom as [Hr|Hr].
    + by rewrite (prevsize_offset _ _ _ _ Hwf He), Hb in Hr.
    + unfold rawlen, new_entry. cbn [payload big]. destruct (needs_big _); lia.
  - intros junk k s Hk Hf Hfit. by apply replace_view.
Qed.

(** ** Sizes *)
Lemma zip_blob zl xs : zip zl xs → ziplistBlobLen zl = Some (zlen zl) ∧ zlen zl < 2 ^ 32.
Proof.
  intros (es & l & -> & Hwf & E). pose proof (wf_size _ _ Hwf) as Hs. unfold ziplistBlobLen.
  rewrite image_bytes by done.
  assert (zlen (image es l) = 11 + zlen (flat es)) as ->; [|done].
  unfold image, header. rewrite !length_app, !length_le_bytes. simpl. lia.
Qed.

Lemma image_len es l : zlen (image es l) = 11 + zlen (flat es).
Proof. unfold image, header. rewrite !length_app, !length_le_bytes. simpl. lia. Qed.

(** Only texts of less than 32 bytes become numbers. *)
Lemma content_bound x : zlen x ≤ zlen (enc_content (content_of x)) + 30.
Proof.
  pose proof (content_len_pos (content_of x)) as H1. unfold content_of, zipTryEncoding in *.
  destruct ((zlen x >=? 32) || (zlen x =? 0)) eqn:Eb.
  - cbn [enc_content]. rewrite length_app. lia.
  - apply orb_false_iff in Eb as [Hb _]. rewrite Z.geb_leb in Hb. apply Z.leb_gt in Hb. lia.
Qed.

Lemma size_bounds es : ∀ xs, payload <$> es = content_of <$> xs →
  total_size xs ≤ 11 + zlen (flat es) + 44 * zlen xs ∧ 2 * zlen xs ≤ zlen (flat es).
Proof.
  induction es as [|e es IH]; intros [|x xs] E; try done. injection E as Ex E. specialize (IH _ E).
  rewrite flat_len_cons. pose proof (rawlen_pos e). pose proof (content_bound x). unfold rawlen in *. rewrite Ex in *.
  cbn [total_size foldr length] in *. unfold total_size in IH. destruct (big e); lia.
Qed.

Lemma zip_sizes zl xs :
  zip zl xs → total_size xs ≤ zlen zl + 44 * zlen xs ∧ 11 + 2 * zlen xs ≤ zlen zl ∧ zlen zl ≤ total_size xs.
Proof.
  intros (es & l & -> & Hwf & E). rewrite image_len. pose proof (size_bounds _ _ E). pose proof (flat_fits _ _ E). lia.
Qed.

(** A block of strings of bytes consists of bytes. *)
Lemma byte_land z : byte_ok (Z.land z 0xff).
Proof. rewrite land_byte. unfold byte_ok, in_u. pow2. pose proof (Z.mod_pos_bound z 256). lia. Qed.

Lemma bytes_str_hdr n : bytes_ok (zipEncodeLength 0 n).
Proof.
  unfold zipEncodeLength. change (ZIP_IS_STR 0) with true. cbv iota.
  repeat case_match; repeat constructor; try (apply wrapu_range; lia); try apply byte_land; done.
Qed.

Lemma bytes_content x : bytes_ok x → zlen x < 2 ^ 32 → bytes_ok (enc_content (content_of x)).
Proof.
  intros Hx Hl. pose proof (content_of_ok x Hl) as Hok. pose proof (content_of_text x) as Ht.
  destruct (content_of x) as [s|v]; cbn [enc_content content_text] in *.
  - subst s. apply Forall_app. split; [apply bytes_str_hdr|done].
  - constructor; [|apply le_bytes_ok]. pose proof (int_enc_high v Hok) as [? _]. unfold byte_ok, in_u. pow2. lia.
Qed.

Lemma bytes_phys e : phys_ok e → bytes_ok (enc_content (payload e)) → bytes_ok (enc_phys e).
Proof.
  intros (H0 & Hb & _) He. unfold enc_phys, enc_prev, zipPrevEncodeLengthForceLarge. apply Forall_app. split; [|done].
  destruct (big e); [constructor; [done|apply le_bytes_ok]|]. specialize (Hb eq_refl). unfold ZIP_BIGLEN in Hb.
  repeat constructor; [lia|]. pow2. lia.
Qed.

Lemma bytes_flat es : ∀ prev xs, chain prev es → payload <$> es = content_of <$> xs → Forall bytes_ok xs →
  fits xs → bytes_ok (flat es).
Proof.
  induction es as [|e es IH]; intros prev xs Hc E Hb Hf; [constructor|].
  destruct xs as [|x xs]; [done|]. injection E as Ex E. destruct Hc as (_ & He & Hc). apply Forall_cons in Hb as [Hx Hb].
  assert (zlen x < 2 ^ 32 ∧ fits xs) as [Hl Hf'].
  { unfold fits in *. cbn [total_size foldr] in Hf. pose proof (total_size_pos xs). unfold total_size in *. lia. }
  apply Forall_app. split; [|by apply (IH _ _ Hc E)].
  apply bytes_phys; [done|]. rewrite Ex. by apply bytes_content.
Qed.

Lemma zip_bytes zl xs : zip zl xs → fits xs → Forall bytes_ok xs → bytes_ok zl.
Proof.
  intros (es & l & -> & Hwf & E) Hf Hb. unfold image, header. rewrite <- !app_assoc.
  repeat (apply Forall_app; split; [apply le_bytes_ok|]). apply Forall_app. split.
  - by apply (bytes_flat es 0 xs (wf_chain _ _ Hwf) E).
  - by repeat constructor.
Qed.
