(* ===== verification/Quicklist.v ===== *)
(** * Quick lists ([redis-3.2/src/quicklist.c])

    A doubly linked list of ziplists, the representation of the list type.
    The nodes live in a heap of the quicklist; a node is a list node of
    [Adlist] whose value holds the other fields of [quicklistNode].  Interior
    nodes may be compressed with LZF.  [None] is a [NULL] or dangling pointer,
    an access outside a block, or the use of a block after it was given to
    [realloc].  [junk] stands for the contents of fresh memory, [htab0] for
    the uninitialised hash table of the compressor.  Values are shorter than
    2^32 bytes, so that the conversions of their sizes to [unsigned int] keep
    them. *)

From S2P Require Import Prelude Decimal Util Adlist Lzf Zipenc Ziplist.

Definition SIZE_SAFETY_LIMIT : Z := 8192.
Definition MIN_COMPRESS_BYTES : Z := 48.
Definition MIN_COMPRESS_IMPROVE : Z := 8.
Definition COMPRESS_MAX : Z := Z.shiftl 1 16.
Definition FILL_MAX : Z := Z.shiftl 1 15.
Definition QUICKLIST_NODE_ENCODING_RAW : Z := 1.
Definition QUICKLIST_NODE_ENCODING_LZF : Z := 2.
Definition QUICKLIST_NODE_CONTAINER_ZIPLIST : Z := 2.
Definition optimization_level : list Z := [4096; 8192; 16384; 32768; 65536].

(** The fields of [quicklistNode] other than the links; [n_zl] is the block that
    [zl] points to, a ziplist or a [quicklistLZF]. *)
Record qdata := QData {
  n_zl : option (list Z);
  n_sz : Z;
  n_count : Z;
  n_encoding : Z;
  n_container : Z;
  n_recompress : Z
}.
Abbreviation quicklistNode := (listNode qdata).

Record quicklist := QL {
  q_nodes : gmap loc quicklistNode;
  q_head : option loc;
  q_tail : option loc;
  q_count : Z;
  q_len : Z;
  q_fill : Z;
  q_compress : Z
}.

Inductive q_where := QUICKLIST_HEAD | QUICKLIST_TAIL.

Record quicklistIter := QIter {
  qi_current : option loc;
  qi_zi : option Z;
  qi_offset : Z;
  qi_direction : direction
}.

(** [value], [longval] and [sz] are one field: [None] is what [initEntry] sets. *)
Record quicklistEntry := QEntry {
  qe_node : option loc;
  qe_zi : option Z;
  qe_value : option content;
  qe_offset : Z
}.

Definition initEntry : quicklistEntry := QEntry None None None 123456789.

(** ** Field updates *)
Definition set_zl (x : option (list Z)) (n : qdata) : qdata :=
  QData x (n_sz n) (n_count n) (n_encoding n) (n_container n) (n_recompress n).
Definition set_sz (x : Z) (n : qdata) : qdata :=
  QData (n_zl n) x (n_count n) (n_encoding n) (n_container n) (n_recompress n).
Definition set_ncount (x : Z) (n : qdata) : qdata :=
  QData (n_zl n) (n_sz n) (u16 x) (n_encoding n) (n_container n) (n_recompress n).
Definition set_encoding (x : Z) (n : qdata) : qdata :=
  QData (n_zl n) (n_sz n) (n_count n) x (n_container n) (n_recompress n).
Definition set_recompress (x : Z) (n : qdata) : qdata :=
  QData (n_zl n) (n_sz n) (n_count n) (n_encoding n) (n_container n) x.

Definition set_qnodes (x : gmap loc quicklistNode) (q : quicklist) : quicklist :=
  QL x (q_head q) (q_tail q) (q_count q) (q_len q) (q_fill q) (q_compress q).
Definition set_qhead (x : option loc) (q : quicklist) : quicklist :=
  QL (q_nodes q) x (q_tail q) (q_count q) (q_len q) (q_fill q) (q_compress q).
Definition set_qtail (x : option loc) (q : quicklist) : quicklist :=
  QL (q_nodes q) (q_head q) x (q_count q) (q_len q) (q_fill q) (q_compress q).
Definition set_qcount (x : Z) (q : quicklist) : quicklist :=
  QL (q_nodes q) (q_head q) (q_tail q) (u64 x) (q_len q) (q_fill q) (q_compress q).
Definition set_qlen (x : Z) (q : quicklist) : quicklist :=
  QL (q_nodes q) (q_head q) (q_tail q) (q_count q) (u32 x) (q_fill q) (q_compress q).
Definition set_qfill (x : Z) (q : quicklist) : quicklist :=
  QL (q_nodes q) (q_head q) (q_tail q) (q_count q) (q_len q) (s16 x) (q_compress q).
Definition set_qcompress (x : Z) (q : quicklist) : quicklist :=
  QL (q_nodes q) (q_head q) (q_tail q) (q_count q) (q_len q) (q_fill q) (u16 x).

(** ** Memory accesses *)
Definition qload (q : quicklist) (p : option loc) : option quicklistNode := p ← p; q_nodes q !! p.
Definition qstore (q : quicklist) (p : loc) (n : quicklistNode) : quicklist :=
  set_qnodes (<[p := n]> (q_nodes q)) q.
Definition qdata_of (q : quicklist) (p : loc) : option qdata := value <$> q_nodes q !! p.
Definition qput (q : quicklist) (p : loc) (d : qdata) : option quicklist :=
  n ← q_nodes q !! p; Some (qstore q p (mk_node (prev n) (next n) d)).
Definition qset_prev (q : quicklist) (p x : option loc) : option quicklist :=
  p ← p; n ← q_nodes q !! p; Some (qstore q p (mk_node x (next n) (value n))).
Definition qset_next (q : quicklist) (p x : option loc) : option quicklist :=
  p ← p; n ← q_nodes q !! p; Some (qstore q p (mk_node (prev n) x (value n))).
Definition qalloc (q : quicklist) (n : quicklistNode) : loc * quicklist :=
  let p := fresh (dom (q_nodes q)) in (p, qstore q p n).

(** ** Creation and options *)
Definition quicklistCreate : quicklist := QL ∅ None None 0 0 (-2) 0.

Definition quicklistSetCompressDepth (q : quicklist) (compress : Z) : quicklist :=
  let compress :=
    if compress >? COMPRESS_MAX then COMPRESS_MAX else if compress <? 0 then 0 else compress in
  set_qcompress compress q.

Definition quicklistSetFill (q : quicklist) (fill : Z) : quicklist :=
  let fill := if fill >? FILL_MAX then FILL_MAX else if fill <? -5 then -5 else fill in
  set_qfill fill q.

Definition quicklistSetOptions (q : quicklist) (fill depth : Z) : quicklist :=
  quicklistSetCompressDepth (quicklistSetFill q fill) depth.

Definition quicklistNew (fill compress : Z) : quicklist :=
  quicklistSetOptions quicklistCreate fill compress.

Definition quicklistCreateNode : quicklistNode :=
  mk_node None None
    (QData None 0 0 QUICKLIST_NODE_ENCODING_RAW QUICKLIST_NODE_CONTAINER_ZIPLIST 0).

Definition quicklistCount (q : quicklist) : Z := u32 (q_count q).

(** [while (len--)]. *)
Fixpoint release_nodes (n : nat) (q : quicklist) (current : option loc) : option quicklist :=
  match n with
  | O => Some q
  | S n =>
      c ← current; nd ← q_nodes q !! c;
      let next := next nd in
      let q := set_qcount (q_count q - n_count (value nd)) q in
      let q := set_qnodes (delete c (q_nodes q)) q in
      let q := set_qlen (q_len q - 1) q in
      release_nodes n q next
  end.

(** What is left in the structure when it is freed itself. *)
Definition quicklistRelease (q : quicklist) : option quicklist :=
  release_nodes (Z.to_nat (q_len q)) q (q_head q).

(** ** Limits of the nodes *)
Definition _quicklistNodeSizeMeetsOptimizationRequirement (sz fill : Z) : bool :=
  if fill >=? 0 then false else
  match optimization_level !! Z.to_nat (- fill - 1) with
  | Some limit => sz <=? limit
  | None => false
  end.

Definition sizeMeetsSafetyLimit (sz : Z) : bool := sz <=? SIZE_SAFETY_LIMIT.

Definition ziplist_overhead (sz : Z) : Z :=
  (if sz <? 254 then 1 else 5) + (if sz <? 64 then 1 else if sz <? 16384 then 2 else 5).

Definition _quicklistNodeAllowInsert (node : option qdata) (fill sz : Z) : bool :=
  match node with
  | None => false
  | Some n =>
      let new_sz := u32 (n_sz n + sz + ziplist_overhead sz) in
      if _quicklistNodeSizeMeetsOptimizationRequirement new_sz fill then true
      else if negb (sizeMeetsSafetyLimit new_sz) then false
      else n_count n <? fill
  end.

Definition _quicklistNodeAllowMerge (a b : option qdata) (fill : Z) : bool :=
  match a, b with
  | Some a, Some b =>
      let merge_sz := u32 (n_sz a + n_sz b - 11) in
      if _quicklistNodeSizeMeetsOptimizationRequirement merge_sz fill then true
      else if negb (sizeMeetsSafetyLimit merge_sz) then false
      else n_count a + n_count b <=? fill
  | _, _ => false
  end.

(** The node behind a pointer that may be [NULL]. *)
Definition qdata_at (q : quicklist) (p : option loc) : option (option qdata) :=
  match p with None => Some None | Some p => d ← qdata_of q p; Some (Some d) end.

Definition quicklistNodeUpdateSz (n : qdata) : option qdata :=
  zl ← n_zl n; sz ← ziplistBlobLen zl; Some (set_sz sz n).

Section quicklist.
Context (junk : nat → Z) (htab0 : Z → Z).

(** ** Compression *)

(** [quicklistLZF]: the size, then the compressed bytes. *)
Definition quicklistLZF (c : list Z) : list Z := le_bytes 4 (zlen c) ++ c.

Definition __quicklistCompressNode (n : qdata) : option (Z * qdata) :=
  if n_sz n <? MIN_COMPRESS_BYTES then Some (0, n) else
  zl ← n_zl n;
  inp ← mread zl 0 (n_sz n);
  r ← lzf_compress htab0 inp (zrealloc junk [] (n_sz n));
  match r with
  | None => Some (0, n)
  | Some c =>
      if u32 (zlen c + MIN_COMPRESS_IMPROVE) >=? n_sz n then Some (0, n) else
      Some (1, set_recompress 0 (set_encoding QUICKLIST_NODE_ENCODING_LZF
                 (set_zl (Some (quicklistLZF c)) n)))
  end.

Definition quicklistCompressNode (q : quicklist) (p : option loc) : option quicklist :=
  match p with
  | None => Some q
  | Some p =>
      n ← qdata_of q p;
      if n_encoding n =? QUICKLIST_NODE_ENCODING_RAW then
        '(_, n) ← __quicklistCompressNode n; qput q p n
      else Some q
  end.

(** [quicklistGetLzf]: the bytes it returns. *)
Definition quicklistGetLzf (n : qdata) : option (list Z) :=
  blk ← n_zl n;
  sz ← le_val <$> mread blk 0 4;
  mread blk 4 sz.

Definition __quicklistDecompressNode (n : qdata) : option (Z * qdata) :=
  c ← quicklistGetLzf n;
  r ← lzf_decompress c (n_sz n);
  match r with
  | None => Some (0, n)
  | Some d =>
      Some (1, set_encoding QUICKLIST_NODE_ENCODING_RAW (set_zl (Some (zrealloc junk d (n_sz n))) n))
  end.

Definition quicklistDecompressNode (q : quicklist) (p : option loc) : option quicklist :=
  match p with
  | None => Some q
  | Some p =>
      n ← qdata_of q p;
      if n_encoding n =? QUICKLIST_NODE_ENCODING_LZF then
        '(_, n) ← __quicklistDecompressNode n; qput q p n
      else Some q
  end.

Definition quicklistDecompressNodeForUse (q : quicklist) (p : option loc) : option quicklist :=
  match p with
  | None => Some q
  | Some p =>
      n ← qdata_of q p;
      if n_encoding n =? QUICKLIST_NODE_ENCODING_LZF then
        '(_, n) ← __quicklistDecompressNode n; qput q p (set_recompress 1 n)
      else Some q
  end.

Definition quicklistAllowsCompression (q : quicklist) : bool := negb (q_compress q =? 0).

(** [while (depth++ < compress)]; [None] in the pair is the early return. *)
Fixpoint depth_loop (k : nat) (q : quicklist) (forward reverse node : option loc) (in_depth : bool) :
    option (quicklist * option (option loc * option loc * bool)) :=
  match k with
  | O => Some (q, Some (forward, reverse, in_depth))
  | S k =>
      q ← quicklistDecompressNode q forward;
      q ← quicklistDecompressNode q reverse;
      let in_depth := in_depth || bool_decide (forward = node) || bool_decide (reverse = node) in
      if bool_decide (forward = reverse) then Some (q, None) else
      f ← qload q forward;
      r ← qload q reverse;
      depth_loop k q (next f) (prev r) node in_depth
  end.

Definition __quicklistCompress (q : quicklist) (node : option loc) : option quicklist :=
  if negb (quicklistAllowsCompression q) || (q_len q <? u32 (q_compress q * 2)) then Some q else
  '(q, r) ← depth_loop (Z.to_nat (q_compress q)) q (q_head q) (q_tail q) node false;
  match r with
  | None => Some q
  | Some (forward, reverse, in_depth) =>
      let depth := q_compress q + 1 in
      q ← (if (in_depth : bool) then Some q else quicklistCompressNode q node);
      if depth >? 2 then
        q ← quicklistCompressNode q forward;
        quicklistCompressNode q reverse
      else Some q
  end.

Definition quicklistCompress (q : quicklist) (p : loc) : option quicklist :=
  n ← qdata_of q p;
  if negb (n_recompress n =? 0) then quicklistCompressNode q (Some p)
  else __quicklistCompress q (Some p).

Definition quicklistRecompressOnly (q : quicklist) (p : loc) : option quicklist :=
  n ← qdata_of q p;
  if negb (n_recompress n =? 0) then quicklistCompressNode q (Some p) else Some q.

(** ** Linking nodes *)

(** The pointers [__quicklistInsertNode] sets. *)
Definition link_node (q : quicklist) (old_node : option loc) (new_node : loc) (after : bool) :
    option quicklist :=
  q ← (if after then
         q ← qset_prev q (Some new_node) old_node;
         q ← match old_node with
             | None => Some q
             | Some _ =>
                 o ← qload q old_node;
                 q ← qset_next q (Some new_node) (next o);
                 q ← (match next o with Some _ => qset_prev q (next o) (Some new_node) | None => Some q end);
                 qset_next q old_node (Some new_node)
             end;
         Some (if decide (q_tail q = old_node) then set_qtail (Some new_node) q else q)
       else
         q ← qset_next q (Some new_node) old_node;
         q ← match old_node with
             | None => Some q
             | Some _ =>
                 o ← qload q old_node;
                 q ← qset_prev q (Some new_node) (prev o);
                 q ← (match prev o with Some _ => qset_next q (prev o) (Some new_node) | None => Some q end);
                 qset_prev q old_node (Some new_node)
             end;
         Some (if decide (q_head q = old_node) then set_qhead (Some new_node) q else q));
  Some (if q_len q =? 0 then set_qtail (Some new_node) (set_qhead (Some new_node) q) else q).

Definition __quicklistInsertNode (q : quicklist) (old_node : option loc) (new_node : loc) (after : bool) :
    option quicklist :=
  q ← link_node q old_node new_node after;
  q ← match old_node with Some old_node => quicklistCompress q old_node | None => Some q end;
  Some (set_qlen (q_len q + 1) q).

Definition _quicklistInsertNodeBefore (q : quicklist) (old_node : option loc) (new_node : loc) :=
  __quicklistInsertNode q old_node new_node false.
Definition _quicklistInsertNodeAfter (q : quicklist) (old_node : option loc) (new_node : loc) :=
  __quicklistInsertNode q old_node new_node true.

(** The pointers [__quicklistDelNode] sets. *)
Definition unlink_node (q : quicklist) (node : loc) : option quicklist :=
  n ← q_nodes q !! node;
  q ← (match next n with Some _ => qset_prev q (next n) (prev n) | None => Some q end);
  q ← (match prev n with Some _ => qset_next q (prev n) (next n) | None => Some q end);
  let q := if decide (q_tail q = Some node) then set_qtail (prev n) q else q in
  Some (if decide (q_head q = Some node) then set_qhead (next n) q else q).

Definition __quicklistDelNode (q : quicklist) (node : loc) : option quicklist :=
  q ← unlink_node q node;
  q ← __quicklistCompress q None;
  n ← q_nodes q !! node;
  let q := set_qcount (q_count q - n_count (value n)) q in
  let q := set_qnodes (delete node (q_nodes q)) q in
  Some (set_qlen (q_len q - 1) q).

(** [(n) = NULL] when the node is gone. *)
Definition quicklistDeleteIfEmpty (q : quicklist) (p : loc) : option (quicklist * bool) :=
  n ← qdata_of q p;
  if n_count n =? 0 then q ← __quicklistDelNode q p; Some (q, true) else Some (q, false).

(** ** Pushing *)

(** [node->zl = ziplistPush(node->zl, ...)], [quicklistNodeUpdateSz(node)]. *)
Definition push_node (n : qdata) (v : list Z) (w : where_) : option qdata :=
  zl ← n_zl n;
  zl ← ziplistPush junk zl v w;
  quicklistNodeUpdateSz (set_zl (Some zl) n).

(** [quicklistCreateNode()] with [ziplistPush(ziplistNew(), ...)]. *)
Definition new_node_with (v : list Z) (w : where_) : option qdata :=
  zl ← ziplistNew junk;
  push_node (set_zl (Some zl) (value quicklistCreateNode)) v w.

Definition quicklistPushHead (q : quicklist) (v : list Z) : option (bool * quicklist) :=
  let orig_head := q_head q in
  hd ← qdata_at q (q_head q);
  q ← (if _quicklistNodeAllowInsert hd (q_fill q) (zlen v) then
         h ← q_head q;
         n ← qdata_of q h;
         n ← push_node n v ZIPLIST_HEAD;
         qput q h n
       else
         n ← new_node_with v ZIPLIST_HEAD;
         let '(node, q) := qalloc q (mk_node None None n) in
         _quicklistInsertNodeBefore q (q_head q) node);
  let q := set_qcount (q_count q + 1) q in
  h ← q_head q;
  n ← qdata_of q h;
  q ← qput q h (set_ncount (n_count n + 1) n);
  Some (negb (bool_decide (orig_head = q_head q)), q).

Definition quicklistPushTail (q : quicklist) (v : list Z) : option (bool * quicklist) :=
  let orig_tail := q_tail q in
  tl ← qdata_at q (q_tail q);
  q ← (if _quicklistNodeAllowInsert tl (q_fill q) (zlen v) then
         t ← q_tail q;
         n ← qdata_of q t;
         n ← push_node n v ZIPLIST_TAIL;
         qput q t n
       else
         n ← new_node_with v ZIPLIST_TAIL;
         let '(node, q) := qalloc q (mk_node None None n) in
         _quicklistInsertNodeAfter q (q_tail q) node);
  let q := set_qcount (q_count q + 1) q in
  t ← q_tail q;
  n ← qdata_of q t;
  q ← qput q t (set_ncount (n_count n + 1) n);
  Some (negb (bool_decide (orig_tail = q_tail q)), q).

Definition quicklistPush (q : quicklist) (v : list Z) (w : q_where) : option quicklist :=
  match w with
  | QUICKLIST_HEAD => snd <$> quicklistPushHead q v
  | QUICKLIST_TAIL => snd <$> quicklistPushTail q v
  end.

Definition quicklistAppendZiplist (q : quicklist) (zl : list Z) : option quicklist :=
  '(n, zl) ← ziplistLen zl;
  sz ← ziplistBlobLen zl;
  let d := set_sz sz (set_ncount n (set_zl (Some zl) (value quicklistCreateNode))) in
  let '(node, q) := qalloc q (mk_node None None d) in
  q ← _quicklistInsertNodeAfter q (q_tail q) node;
  d ← qdata_of q node;
  Some (set_qcount (q_count q + n_count d) q).

(** The text of a value read from a ziplist; a number is printed to [longstr]. *)
Definition value_text (c : content) : option (list Z) :=
  match c with
  | CStr s => Some s
  | CInt v => '(sz, longstr) ← ll2string (replicate 32 0) 32 v; mread longstr 0 sz
  end.

Fixpoint append_values (fuel : nat) (q : quicklist) (zl : list Z) (p : option Z) : option quicklist :=
  match fuel with
  | O => None
  | S fuel =>
      c ← ziplistGet zl p;
      match c with
      | None => Some q
      | Some c =>
          v ← value_text c;
          '(_, q) ← quicklistPushTail q v;
          p ← p;
          p ← ziplistNext zl p;
          append_values fuel q zl p
      end
  end.

Definition quicklistAppendValuesFromZiplist (q : quicklist) (zl : list Z) : option quicklist :=
  p ← ziplistIndex zl 0;
  append_values (S (length zl)) q zl p.

Definition quicklistCreateFromZiplist (fill compress : Z) (zl : list Z) : option quicklist :=
  quicklistAppendValuesFromZiplist (quicklistNew fill compress) zl.

(** ** Access by index *)

(** The loop that skips nodes: the node with the index and what is before it. *)
Fixpoint index_nodes (fuel : nat) (q : quicklist) (forward : bool) (n : option loc) (accum index : Z) :
    option (option loc * Z) :=
  match n with
  | None => Some (None, accum)
  | Some p =>
      match fuel with
      | O => None
      | S fuel =>
          nd ← q_nodes q !! p;
          if u64 (accum + n_count (value nd)) >? index then Some (Some p, accum)
          else index_nodes fuel q forward (if forward then next nd else prev nd)
                 (u64 (accum + n_count (value nd))) index
      end
  end.

Definition quicklistIndex (q : quicklist) (idx : Z) : option (bool * quicklistEntry * quicklist) :=
  let forward := negb (idx <? 0) in
  let index := if forward then idx else u64 (- idx - 1) in
  let n := if forward then q_head q else q_tail q in
  if index >=? q_count q then Some (false, initEntry, q) else
  '(n, accum) ← index_nodes (size (q_nodes q)) q forward n 0 index;
  match n with
  | None => Some (false, initEntry, q)
  | Some p =>
      let offset := s32 (if forward then index - accum else - index - 1 + accum) in
      q ← quicklistDecompressNodeForUse q (Some p);
      d ← qdata_of q p;
      zl ← n_zl d;
      zi ← ziplistIndex zl offset;
      v ← ziplistGet zl zi;
      Some (true, QEntry (Some p) zi v offset, q)
  end.

(** ** Deleting *)

(** The first result says whether the node is gone. *)
Definition quicklistDelIndex (q : quicklist) (node : loc) (p : Z) : option (bool * quicklist) :=
  n ← qdata_of q node;
  zl ← n_zl n;
  '(zl, _) ← ziplistDelete junk zl p;
  let n := set_ncount (n_count n - 1) (set_zl (Some zl) n) in
  q ← qput q node n;
  '(gone, q) ← (if n_count n =? 0 then q ← __quicklistDelNode q node; Some (true, q)
                else n ← quicklistNodeUpdateSz n; q ← qput q node n; Some (false, q));
  Some (gone, set_qcount (q_count q - 1) q).

Definition quicklistDelEntry (q : quicklist) (iter : quicklistIter) (entry : quicklistEntry) :
    option (quicklistIter * quicklist) :=
  node ← qe_node entry;
  n ← q_nodes q !! node;
  let prev := prev n in
  let next := next n in
  zi ← qe_zi entry;
  '(deleted_node, q) ← quicklistDelIndex q node zi;
  Some (if (deleted_node : bool) then
          match qi_direction iter with
          | AL_START_HEAD => QIter next None 0 (qi_direction iter)
          | AL_START_TAIL => QIter prev None (-1) (qi_direction iter)
          end
        else QIter (qi_current iter) None (qi_offset iter) (qi_direction iter), q).

Definition quicklistReplaceAtIndex (q : quicklist) (index : Z) (data : list Z) : option (bool * quicklist) :=
  '(found, entry, q) ← quicklistIndex q index;
  if (found : bool) then
    node ← qe_node entry;
    zi ← qe_zi entry;
    n ← qdata_of q node;
    zl ← n_zl n;
    '(zl, zi) ← ziplistDelete junk zl zi;
    zl ← ziplistInsert junk zl zi data;
    n ← quicklistNodeUpdateSz (set_zl (Some zl) n);
    q ← qput q node n;
    q ← quicklistCompress q node;
    Some (true, q)
  else Some (false, q).

(** How many entries a round of [quicklistDelRange] deletes, and whether that is
    the whole node. *)
Definition range_step (offset extent count : Z) : Z * bool :=
  if (offset =? 0) && (extent >=? count) then (count, true)
  else if (offset >=? 0) && (extent >=? count) then (count - offset, false)
  else if offset <? 0 then (if - offset >? extent then extent else - offset, false)
  else (extent, false).

(** What a round does to its node. *)
Definition range_node (q : quicklist) (node : loc) (offset del : Z) (delete_entire_node : bool) : option quicklist :=
  if delete_entire_node then __quicklistDelNode q node
  else
    q ← quicklistDecompressNodeForUse q (Some node);
    n ← qdata_of q node;
    zl ← n_zl n;
    zl ← ziplistDeleteRange junk zl offset (u32 del);
    n ← quicklistNodeUpdateSz (set_zl (Some zl) n);
    q ← qput q node (set_ncount (n_count n - del) n);
    let q := set_qcount (q_count q - del) q in
    '(q, gone) ← quicklistDeleteIfEmpty q node;
    if (gone : bool) then Some q else quicklistRecompressOnly q node.

Fixpoint delrange_loop (fuel : nat) (q : quicklist) (node : option loc) (offset extent : Z) :
    option quicklist :=
  if extent =? 0 then Some q else
  match fuel with
  | O => None
  | S fuel =>
      node ← node;
      nd ← q_nodes q !! node;
      let next := next nd in
      let '(del, delete_entire_node) := range_step offset extent (n_count (value nd)) in
      q ← range_node q node offset del delete_entire_node;
      delrange_loop fuel q next 0 (u64 (extent - del))
  end.

Definition quicklistDelRange (q : quicklist) (start count : Z) : option (bool * quicklist) :=
  if count <=? 0 then Some (false, q) else
  let extent := count in
  let extent :=
    if (start >=? 0) && (extent >? u64 (q_count q - start)) then u64 (q_count q - start)
    else if (start <? 0) && (extent >? - start) then - start
    else extent in
  '(found, entry, q) ← quicklistIndex q start;
  if (found : bool) then
    q ← delrange_loop (S (size (q_nodes q))) q (qe_node entry) (qe_offset entry) extent;
    Some (true, q)
  else Some (false, q).

(** ** Merging and splitting nodes *)
Definition _quicklistZiplistMerge (q : quicklist) (a b : loc) : option (option loc * quicklist) :=
  q ← quicklistDecompressNode q (Some a);
  q ← quicklistDecompressNode q (Some b);
  da ← qdata_of q a;
  db ← qdata_of q b;
  r ← ziplistMerge junk false (n_zl da) (n_zl db);
  match r with
  | None => Some (None, q)
  | Some (append, zl) =>
      q ← qput q a (set_zl (if (append : bool) then Some zl else None) da);
      q ← qput q b (set_zl (if (append : bool) then None else Some zl) db);
      let '(keep, nokeep) := if (append : bool) then (a, b) else (b, a) in
      k ← qdata_of q keep;
      zl ← n_zl k;
      '(len, zl) ← ziplistLen zl;
      k ← quicklistNodeUpdateSz (set_ncount len (set_zl (Some zl) k));
      q ← qput q keep k;
      n ← qdata_of q nokeep;
      q ← qput q nokeep (set_ncount 0 n);
      q ← __quicklistDelNode q nokeep;
      q ← quicklistCompress q keep;
      Some (Some keep, q)
  end.

(** Merge the two nodes, the left one first, if the limits allow it. *)
Definition try_merge (q : quicklist) (x y left right : option loc) : option (option (option loc) * quicklist) :=
  dx ← qdata_at q x;
  dy ← qdata_at q y;
  if _quicklistNodeAllowMerge dx dy (q_fill q) then
    l ← left; r ← right;
    '(t, q) ← _quicklistZiplistMerge q l r;
    Some (Some t, q)
  else Some (None, q).

Definition _quicklistMergeNodes (q : quicklist) (center : loc) : option quicklist :=
  c ← q_nodes q !! center;
  let prev := prev c in
  let next := next c in
  prev_prev ← match prev with Some p => n ← q_nodes q !! p; Some (Adlist.prev n) | None => Some None end;
  next_next ← match next with Some p => n ← q_nodes q !! p; Some (Adlist.next n) | None => Some None end;
  '(_, q) ← try_merge q prev prev_prev prev_prev prev;
  '(_, q) ← try_merge q next next_next next next_next;
  c ← q_nodes q !! center;
  '(r, q) ← try_merge q (Some center) (Adlist.prev c) (Adlist.prev c) (Some center);
  let target := match r with Some t => t | None => Some center end in
  t ← qload q target;
  '(_, q) ← try_merge q target (Adlist.next t) target (Adlist.next t);
  Some q.

Definition _quicklistSplitNode (q : quicklist) (node : loc) (offset : Z) (after : bool) :
    option (loc * quicklist) :=
  n ← qdata_of q node;
  zl ← n_zl n;
  copy ← mread zl 0 (n_sz n);
  let new := set_zl (Some copy) (value quicklistCreateNode) in
  let orig_start := if after then s32 (offset + 1) else 0 in
  let orig_extent := if after then -1 else offset in
  let new_start := if after then 0 else offset in
  let new_extent := if after then s32 (offset + 1) else -1 in
  zl ← ziplistDeleteRange junk zl orig_start (u32 orig_extent);
  '(len, zl) ← ziplistLen zl;
  n ← quicklistNodeUpdateSz (set_ncount len (set_zl (Some zl) n));
  q ← qput q node n;
  copy ← ziplistDeleteRange junk copy new_start (u32 new_extent);
  '(len, copy) ← ziplistLen copy;
  new ← quicklistNodeUpdateSz (set_ncount len (set_zl (Some copy) new));
  Some (qalloc q (mk_node None None new)).

(** ** Inserting next to an entry *)

(** A push into the node [p] that is decompressed for it and compressed again. *)
Definition push_into (q : quicklist) (p : loc) (v : list Z) (w : where_) : option quicklist :=
  q ← quicklistDecompressNodeForUse q (Some p);
  n ← qdata_of q p;
  zl ← n_zl n;
  zl ← ziplistPush junk zl v w;
  n ← quicklistNodeUpdateSz (set_ncount (n_count n + 1) (set_zl (Some zl) n));
  q ← qput q p n;
  quicklistRecompressOnly q p.

(** The two branches that insert at the entry in its own node. *)
Definition insert_into (q : quicklist) (p : loc) (zi : option Z) (v : list Z) (after : bool) :
    option quicklist :=
  q ← quicklistDecompressNodeForUse q (Some p);
  n ← qdata_of q p;
  zl ← n_zl n;
  zi ← zi;
  zl ← (if after then
          next ← ziplistNext zl zi;
          match next with
          | None => ziplistPush junk zl v ZIPLIST_TAIL
          | Some next => ziplistInsert junk zl next v
          end
        else ziplistInsert junk zl zi v);
  n ← quicklistNodeUpdateSz (set_ncount (n_count n + 1) (set_zl (Some zl) n));
  q ← qput q p n;
  quicklistRecompressOnly q p.

Definition _quicklistInsert (q : quicklist) (entry : quicklistEntry) (v : list Z) (after : bool) :
    option quicklist :=
  let fill := q_fill q in
  match qe_node entry with
  | None =>
      zl ← ziplistNew junk;
      zl ← ziplistPush junk zl v ZIPLIST_HEAD;
      let '(new_node, q) := qalloc q (mk_node None None (set_zl (Some zl) (value quicklistCreateNode))) in
      q ← __quicklistInsertNode q None new_node after;
      n ← qdata_of q new_node;
      q ← qput q new_node (set_ncount (n_count n + 1) n);
      Some (set_qcount (q_count q + 1) q)
  | Some node =>
      nd ← q_nodes q !! node;
      nx ← qdata_at q (next nd);
      pv ← qdata_at q (prev nd);
      let full := negb (_quicklistNodeAllowInsert (Some (value nd)) fill (zlen v)) in
      let at_tail := after && (qe_offset entry =? n_count (value nd)) in
      let full_next := at_tail && negb (_quicklistNodeAllowInsert nx fill (zlen v)) in
      let at_head := negb after && (qe_offset entry =? 0) in
      let full_prev := at_head && negb (_quicklistNodeAllowInsert pv fill (zlen v)) in
      let has_next := bool_decide (next nd ≠ None) in
      let has_prev := bool_decide (prev nd ≠ None) in
      q ← (if negb full then insert_into q node (qe_zi entry) v after
           else if at_tail && has_next && negb full_next && after then
             p ← next nd; push_into q p v ZIPLIST_HEAD
           else if at_head && has_prev && negb full_prev && negb after then
             p ← prev nd; push_into q p v ZIPLIST_TAIL
           else if (at_tail && has_next && full_next && after) ||
                   (at_head && has_prev && full_prev && negb after) then
             n ← new_node_with v ZIPLIST_HEAD;
             let '(new_node, q) := qalloc q (mk_node None None (set_ncount (n_count n + 1) n)) in
             __quicklistInsertNode q (Some node) new_node after
           else
             q ← quicklistDecompressNodeForUse q (Some node);
             '(new_node, q) ← _quicklistSplitNode q node (qe_offset entry) after;
             n ← qdata_of q new_node;
             zl ← n_zl n;
             zl ← ziplistPush junk zl v (if after then ZIPLIST_HEAD else ZIPLIST_TAIL);
             n ← quicklistNodeUpdateSz (set_ncount (n_count n + 1) (set_zl (Some zl) n));
             q ← qput q new_node n;
             q ← __quicklistInsertNode q (Some node) new_node after;
             _quicklistMergeNodes q node);
      Some (set_qcount (q_count q + 1) q)
  end.

Definition quicklistInsertBefore (q : quicklist) (entry : quicklistEntry) (v : list Z) :=
  _quicklistInsert q entry v false.
Definition quicklistInsertAfter (q : quicklist) (entry : quicklistEntry) (v : list Z) :=
  _quicklistInsert q entry v true.

(** ** Iteration *)
Definition quicklistGetIterator (q : quicklist) (d : direction) : quicklistIter :=
  match d with
  | AL_START_HEAD => QIter (q_head q) None 0 d
  | AL_START_TAIL => QIter (q_tail q) None (-1) d
  end.

Definition quicklistGetIteratorAtIdx (q : quicklist) (d : direction) (idx : Z) :
    option (option quicklistIter * quicklist) :=
  '(found, entry, q) ← quicklistIndex q idx;
  Some (if (found : bool) then Some (QIter (qe_node entry) None (qe_offset entry) d) else None, q).

Definition quicklistReleaseIterator (q : quicklist) (iter : quicklistIter) : option quicklist :=
  match qi_current iter with Some p => quicklistCompress q p | None => Some q end.

(** [fuel]: the number of nodes that may still be visited; the iterator is not [NULL]. *)
Fixpoint quicklistNext (fuel : nat) (q : quicklist) (iter : quicklistIter) :
    option (option quicklistEntry * quicklistIter * quicklist) :=
  match qi_current iter with
  | None => Some (None, iter, q)
  | Some p =>
      match fuel with
      | O => None
      | S fuel =>
          q ← match qi_zi iter with
              | None => quicklistDecompressNodeForUse q (Some p)
              | Some _ => Some q
              end;
          d ← qdata_of q p;
          zl ← n_zl d;
          '(zi, offset) ←
            match qi_zi iter with
            | None => zi ← ziplistIndex zl (s32 (qi_offset iter)); Some (zi, qi_offset iter)
            | Some zi =>
                match qi_direction iter with
                | AL_START_HEAD => zi ← ziplistNext zl zi; Some (zi, qi_offset iter + 1)
                | AL_START_TAIL => zi ← ziplistPrev zl zi; Some (zi, qi_offset iter - 1)
                end
            end;
          match zi with
          | Some _ =>
              v ← ziplistGet zl zi;
              Some (Some (QEntry (Some p) zi v (s32 offset)), QIter (Some p) zi offset (qi_direction iter), q)
          | None =>
              q ← quicklistCompress q p;
              nd ← q_nodes q !! p;
              quicklistNext fuel q
                match qi_direction iter with
                | AL_START_HEAD => QIter (next nd) None 0 AL_START_HEAD
                | AL_START_TAIL => QIter (prev nd) None (-1) AL_START_TAIL
                end
          end
      end
  end.

Definition quicklistCompare (zl : list Z) (p1 : Z) (p2 : list Z) : option bool := ziplistCompare zl p1 p2.

(** ** Copying, rotating, popping *)
Fixpoint dup_nodes (fuel : nat) (orig copy : quicklist) (current : option loc) : option quicklist :=
  match current with
  | None => Some copy
  | Some p =>
      match fuel with
      | O => None
      | S fuel =>
          c ← q_nodes orig !! p;
          let node := value quicklistCreateNode in
          zl ← (if n_encoding node =? QUICKLIST_NODE_ENCODING_LZF then
                  lzf ← n_zl node;
                  sz ← le_val <$> mread lzf 0 4;
                  blk ← n_zl (value c);
                  bs ← mread blk 0 (4 + sz); Some (Some bs)
                else if n_encoding node =? QUICKLIST_NODE_ENCODING_RAW then
                  blk ← n_zl (value c);
                  bs ← mread blk 0 (n_sz (value c)); Some (Some bs)
                else Some (n_zl node));
          let node := set_ncount (n_count (value c)) (set_zl zl node) in
          let copy := set_qcount (q_count copy + n_count node) copy in
          let node := set_encoding (n_encoding (value c)) (set_sz (n_sz (value c)) node) in
          let '(a, copy) := qalloc copy (mk_node None None node) in
          copy ← _quicklistInsertNodeAfter copy (q_tail copy) a;
          dup_nodes fuel orig copy (next c)
      end
  end.

Definition quicklistDup (orig : quicklist) : option quicklist :=
  dup_nodes (size (q_nodes orig)) orig (quicklistNew (q_fill orig) (q_compress orig)) (q_head orig).

(** A string is read where it lies in the block of the tail: when the push changes
    that block the string is used after the block was reallocated. *)
Definition quicklistRotate (q : quicklist) : option quicklist :=
  if q_count q <=? 1 then Some q else
  t ← q_tail q;
  d ← qdata_of q t;
  zl ← n_zl d;
  p ← ziplistIndex zl (-1);
  c ← ziplistGet zl p;
  c ← c;
  v ← value_text c;
  hd ← qdata_at q (q_head q);
  _ ← (if bool_decide (q_head q = q_tail q) && _quicklistNodeAllowInsert hd (q_fill q) (zlen v)
       then match c with CStr _ => None | CInt _ => Some () end else Some ());
  '(_, q) ← quicklistPushHead q v;
  t ← q_tail q;
  p ← (if q_len q =? 1 then d ← qdata_of q t; zl ← n_zl d; ziplistIndex zl (-1) else Some p);
  p ← p;
  snd <$> quicklistDelIndex q t p.

(** The value that is popped, if there is one; [saver] copies strings. *)
Definition quicklistPopCustom (q : quicklist) (w : q_where) : option (option content * quicklist) :=
  let pos := match w with QUICKLIST_HEAD => 0 | QUICKLIST_TAIL => -1 end in
  if q_count q =? 0 then Some (None, q) else
  match (match w with QUICKLIST_HEAD => q_head q | QUICKLIST_TAIL => q_tail q end) with
  | None => Some (None, q)
  | Some node =>
      n ← qdata_of q node;
      zl ← n_zl n;
      p ← ziplistIndex zl pos;
      c ← ziplistGet zl p;
      match c with
      | None => Some (None, q)
      | Some c =>
          p ← p;
          '(_, q) ← quicklistDelIndex q node p;
          Some (Some c, q)
      end
  end.

Definition quicklistPop (q : quicklist) (w : q_where) : option (option content * quicklist) :=
  if q_count q =? 0 then Some (None, q) else quicklistPopCustom q w.
End quicklist.
