(* ===== verification/QuickNodes.v ===== *)
(** * The nodes of quick lists: blocks, compression and links

    [linkage q xs]: the nodes of [q] are [xs] in this order, with their
    pointers.  [block_ok d bs]: the node [d] holds the strings [bs], in a
    ziplist or in the compressed form of one.  [recoded] relates a quick list
    with the same list after nodes were compressed or decompressed.  The
    functions that compress, decompress, link and unlink nodes are specified
    here. *)

From S2P Require Import Prelude Decimal Util Adlist Lzf Zipenc Ziplist ZipRead ZipView Quicklist.

Abbreviation RAW := QUICKLIST_NODE_ENCODING_RAW.
Abbreviation LZF := QUICKLIST_NODE_ENCODING_LZF.

(** ** Blocks *)
Definition raw (d : qdata) : Prop := n_encoding d = RAW.

Definition block_ok (d : qdata) (bs : list (list Z)) : Prop :=
  Forall bytes_ok bs ∧ fits bs ∧
  ∃ zl, zip zl bs ∧ n_sz d = zlen zl ∧
    ((raw d ∧ n_zl d = Some zl) ∨
     (n_encoding d = LZF ∧ ∃ c, n_zl d = Some (quicklistLZF c) ∧ zlen c < 2 ^ 32 ∧
        lzf_decompress c (zlen zl) = Some (Some zl))).

(** The node with its block in another form ... *)
Record same_block (d d' : qdata) : Prop := {
  sb_sz : n_sz d' = n_sz d;
  sb_count : n_count d' = n_count d;
  sb_block bs : block_ok d bs → block_ok d' bs
}.
(** ... and without a new mark for compressing it again. *)
Definition recode (d d' : qdata) : Prop :=
  same_block d d' ∧ (n_recompress d' = n_recompress d ∨ n_recompress d' = 0).

#[export] Instance same_block_refl : Reflexive same_block.
Proof. by split. Qed.
#[export] Instance same_block_trans : Transitive same_block.
Proof. intros d1 d2 d3 [] []. split; [congruence|congruence|auto]. Qed.
#[export] Instance recode_refl : Reflexive recode.
Proof. intros d. split; [done|by left]. Qed.
#[export] Instance recode_trans : Transitive recode.
Proof.
  intros d1 d2 d3 [? F1] [? F2]. split; [by etrans|].
  destruct F1 as [F1|F1], F2 as [F2|F2]; rewrite ?F2, ?F1; auto.
Qed.

Section data.
Context (junk : nat → Z) (htab0 : Z → Z).

Lemma block_raw d bs :
  block_ok d bs → raw d → Forall bytes_ok bs ∧ fits bs ∧ ∃ zl, n_zl d = Some zl ∧ zip zl bs ∧ n_sz d = zlen zl.
Proof.
  intros (Hb & Hf & zl & Hz & Hs & H) Hr. split; [done|]. split; [done|]. exists zl.
  destruct H as [[_ H]|[H _]]; [done|]. unfold raw in Hr. rewrite Hr in H. done.
Qed.

Lemma compress_data d bs :
  block_ok d bs → raw d →
  ∃ r d', __quicklistCompressNode junk htab0 d = Some (r, d') ∧ recode d d'.
Proof.
  intros Hblk Hr. destruct (block_raw _ _ Hblk Hr) as (Hb & Hf & zl & Ezl & Hz & Hs).
  unfold __quicklistCompressNode. destruct (Z.ltb_spec (n_sz d) MIN_COMPRESS_BYTES) as [|Hge]; [by eexists _, _|].
  rewrite Ezl, some_bind, Hs, mread_all, some_bind by done.
  destruct (zip_blob _ _ Hz) as [_ Hlt]. unfold MIN_COMPRESS_BYTES in Hge.
  destruct (lzf_compress_ok htab0 zl (zrealloc junk [] (zlen zl))) as (r & -> & Hc).
  { by eapply zip_bytes. }
  { lia. }
  rewrite some_bind. destruct r as [c|]; [|by eexists _, _].
  destruct (u32 (zlen c + MIN_COMPRESS_IMPROVE) >=? zlen zl); [by eexists _, _|].
  destruct (Hc c eq_refl) as [Hst Hle]. rewrite length_zrealloc in Hle by lia.
  assert (lzf_decompress c (zlen zl) = Some (Some zl)) as Hd.
  { apply decompress_complete; [done| |lia]. intros ->. apply stream_nil_inv in Hst as ->. simpl in *. lia. }
  eexists _, _. split; [done|]. split; [|by right]. split; [done|done|].
  intros bs' (Hb' & Hf' & zl' & Hz' & Hs' & H). split; [done|]. split; [done|]. exists zl'.
  split; [done|]. split; [done|]. right. split; [done|]. exists c. split; [done|]. split; [lia|].
  destruct H as [[_ H]|[H _]]; [|unfold raw in Hr; rewrite Hr in H; done]. congruence.
Qed.

Lemma lzf_contents d c : n_zl d = Some (quicklistLZF c) → zlen c < 2 ^ 32 → quicklistGetLzf d = Some c.
Proof.
  intros E Hc. unfold quicklistGetLzf. rewrite E, some_bind. unfold quicklistLZF.
  rewrite mread_start by (by rewrite length_le_bytes). cbn [fmap option_fmap option_map]. rewrite some_bind, le_val_bytes.
  rewrite wrapu_id by (split; [lia|done]). rewrite <- (app_nil_r c) at 2.
  apply (mread_app (le_bytes 4 (zlen c)) c []); [by rewrite length_le_bytes|done].
Qed.

Lemma decompress_data d bs :
  block_ok d bs → n_encoding d = LZF →
  ∃ d', __quicklistDecompressNode junk d = Some (1, d') ∧ recode d d' ∧ raw d' ∧
    n_recompress d' = n_recompress d.
Proof.
  intros (Hb & Hf & zl & Hz & Hs & H) He. unfold __quicklistDecompressNode.
  destruct H as [[H _]|[_ (c & Ec & Hc & Hd)]]; [unfold raw in H; rewrite H in He; done|].
  rewrite (lzf_contents _ _ Ec Hc), some_bind, Hs, Hd, some_bind.
  eexists. split; [done|]. split; [|done]. split; [|by left]. split; [done|done|].
  intros bs' (Hb' & Hf' & zl' & Hz' & Hs' & H). split; [done|]. split; [done|]. exists zl'.
  split; [done|]. split; [done|]. left. split; [done|]. cbn.
  rewrite zrealloc_same by done.
  destruct H as [[H _]|[_ (c' & Ec' & Hc' & Hd')]]; [unfold raw in H; rewrite H in He; done|].
  assert (c' = c) as ->.
  { pose proof (lzf_contents _ _ Ec Hc) as H1. pose proof (lzf_contents _ _ Ec' Hc') as H2. congruence. }
  rewrite <- Hs', Hs, Hd in Hd'. congruence.
Qed.
End data.

(** ** Links *)
Record linkage (q : quicklist) (xs : list (loc * qdata)) : Prop := {
  l_seg : seg (q_nodes q) None xs None;
  l_nodup : NoDup xs.*1;
  l_head : q_head q = first xs None;
  l_tail : q_tail q = final None xs
}.

(** The fields that compression does not touch. *)
Record same_fields (q q' : quicklist) : Prop := {
  sf_count : q_count q' = q_count q;
  sf_len : q_len q' = q_len q;
  sf_fill : q_fill q' = q_fill q;
  sf_compress : q_compress q' = q_compress q
}.
#[export] Instance same_fields_refl : Reflexive same_fields.
Proof. by split. Qed.
#[export] Instance same_fields_trans : Transitive same_fields.
Proof. intros q1 q2 q3 [] []. split; congruence. Qed.

Lemma seg_put (h : gmap loc quicklistNode) ys a d zs d' :
  seg h None (ys ++ (a, d) :: zs) None → NoDup (ys ++ (a, d) :: zs).*1 →
  seg (<[a := mk_node (final None ys) (first zs None) d']> h) None (ys ++ (a, d') :: zs) None.
Proof.
  intros Hs Hnd. destruct (nodup_mid _ _ _ _ Hnd) as (Hy & Hz & _).
  apply seg_app in Hs as [Sy [_ Sz]]. apply seg_app. split; [by apply seg_frame|].
  split; [by rewrite lookup_insert_eq|by apply seg_frame].
Qed.

Lemma mid_update {A} (ys zs : list A) x y : <[length ys := x]> (ys ++ y :: zs) = ys ++ x :: zs.
Proof. rewrite <- (Nat.add_0_r (length ys)), insert_app_r. done. Qed.

Lemma fst_mid (ys zs : list (loc * qdata)) a d d' : (ys ++ (a, d') :: zs).*1 = (ys ++ (a, d) :: zs).*1.
Proof. by rewrite !fmap_app. Qed.

Lemma cut_at {A} (xs : list A) i x : xs !! i = Some x → xs = take i xs ++ x :: drop (S i) xs ∧ length (take i xs) = i.
Proof.
  intros H. split; [by rewrite take_drop_middle|]. apply lookup_lt_Some in H. rewrite length_take. lia.
Qed.

Section links.
Context (q : quicklist) (ys zs : list (loc * qdata)) (a : loc) (d : qdata) (Hl : linkage q (ys ++ (a, d) :: zs)).

Lemma node_mid : q_nodes q !! a = Some (mk_node (final None ys) (first zs None) d).
Proof. by apply (seg_mid _ _ _ _ _ _ _ (l_seg _ _ Hl)). Qed.

Lemma data_mid : qdata_of q a = Some d.
Proof. unfold qdata_of. by rewrite node_mid. Qed.

Lemma put_mid d' :
  ∃ q', qput q a d' = Some q' ∧ linkage q' (ys ++ (a, d') :: zs) ∧ same_fields q q' ∧
    (∀ b, b ≠ a → q_nodes q' !! b = q_nodes q !! b) ∧ dom (q_nodes q') = dom (q_nodes q).
Proof.
  unfold qput. rewrite node_mid, some_bind. eexists. split; [done|]. cbn [prev next]. split.
  - destruct Hl as [Hs Hn Hh Ht]. split.
    + by eapply seg_put.
    + by rewrite (fst_mid ys zs a d).
    + cbn. by rewrite Hh, !first_app.
    + cbn. by rewrite Ht, !final_app.
  - split; [done|]. split; [intros b Hb; cbn; by rewrite lookup_insert_ne|].
    cbn. apply dom_insert_lookup_L. rewrite node_mid. eauto.
Qed.
End links.

(** The list after the data of its nodes changed, each by a step of [R]. *)
Record changed (R : qdata → qdata → Prop) (q : quicklist) (xs : list (loc * qdata))
    (q' : quicklist) (xs' : list (loc * qdata)) : Prop := {
  ch_link : linkage q' xs';
  ch_locs : xs'.*1 = xs.*1;
  ch_data : Forall2 R xs.*2 xs'.*2;
  ch_fields : same_fields q q';
  ch_frame b : b ∉ xs.*1 → q_nodes q' !! b = q_nodes q !! b;
  ch_dom : dom (q_nodes q') = dom (q_nodes q)
}.
Abbreviation recoded := (changed recode).
Abbreviation reblocked := (changed same_block).

Lemma changed_refl R `{!Reflexive R} q xs : linkage q xs → changed R q xs q xs.
Proof. intros H. by split. Qed.

Lemma changed_trans R `{!Transitive R} q1 xs1 q2 xs2 q3 xs3 :
  changed R q1 xs1 q2 xs2 → changed R q2 xs2 q3 xs3 → changed R q1 xs1 q3 xs3.
Proof.
  intros [? L1 D1 F1 R1 M1] [? L2 D2 F2 R2 M2]. split; [done|congruence| | |intros b Hb; rewrite R2, R1; congruence|congruence].
  - by etrans.
  - by etrans.
Qed.

Lemma changed_mono (R R' : qdata → qdata → Prop) q xs q' xs' :
  (∀ d d', R d d' → R' d d') → changed R q xs q' xs' → changed R' q xs q' xs'.
Proof. intros H [? ? D ? ? ?]. split; try done. by eapply Forall2_impl. Qed.

Lemma changed_length R q xs q' xs' : changed R q xs q' xs' → length xs' = length xs.
Proof. intros H. apply ch_locs in H. apply (f_equal length) in H. by rewrite !length_fmap in H. Qed.

Lemma change_node (R : qdata → qdata → Prop) `{!Reflexive R} q xs i a d d' :
  linkage q xs → xs !! i = Some (a, d) → R d d' →
  ∃ q', qput q a d' = Some q' ∧ changed R q xs q' (<[i := (a, d')]> xs).
Proof.
  intros Hl Hi Hd. destruct (cut_at _ _ _ Hi) as [E Hlen]. revert E Hlen.
  generalize (take i xs) (drop (S i) xs). intros ys zs -> <-.
  destruct (put_mid q ys zs a d Hl d') as (q' & -> & Hl' & Hf & Hfr & Hdom). exists q'. split; [done|].
  rewrite mid_update. split; [done|by rewrite !fmap_app| |done| |done].
  - rewrite !fmap_app, !fmap_cons. apply Forall2_app; [reflexivity|]. constructor; [done|reflexivity].
  - intros b Hb. apply Hfr. intros ->. apply Hb. rewrite fmap_app, fmap_cons. set_solver.
Qed.

Definition blocks_ok (xs : list (loc * qdata)) : Prop := Forall (λ d, ∃ bs, block_ok d bs) xs.*2.

Lemma blocks_changed q xs q' xs' : reblocked q xs q' xs' → blocks_ok xs → blocks_ok xs'.
Proof.
  intros [_ _ D _ _ _] H. unfold blocks_ok in *. induction D as [|d d' l l' Hd _ IH]; [done|].
  apply Forall_cons in H as [[bs Hb] H]. constructor; [|by apply IH]. exists bs. by apply (sb_block _ _ Hd).
Qed.

Lemma recoded_reblocked q xs q' xs' : recoded q xs q' xs' → reblocked q xs q' xs'.
Proof. apply changed_mono. by intros ?? []. Qed.

Definition raw_at (xs : list (loc * qdata)) (i : nat) : Prop := ∃ x, xs !! i = Some x ∧ raw x.2.

Lemma raw_at_insert_ne xs i j x : i ≠ j → raw_at (<[i := x]> xs) j ↔ raw_at xs j.
Proof. intros H. unfold raw_at. by rewrite list_lookup_insert_ne. Qed.

Lemma raw_at_insert xs i a d d' j :
  xs !! i = Some (a, d) → raw d' → raw_at xs j ∨ i = j → raw_at (<[i := (a, d')]> xs) j.
Proof.
  intros Hi Hr H. destruct (decide (i = j)) as [<-|N].
  - exists (a, d'). split; [|done]. apply list_lookup_insert_eq. by eapply lookup_lt_Some.
  - destruct H as [H|H]; [|done]. by apply raw_at_insert_ne.
Qed.

Section nodes.
Context (junk : nat → Z) (htab0 : Z → Z).

Lemma data_at q xs i a d : linkage q xs → xs !! i = Some (a, d) → qdata_of q a = Some d.
Proof.
  intros Hl Hi. destruct (cut_at _ _ _ Hi) as [E _]. rewrite E in Hl. by eapply data_mid.
Qed.

Lemma block_at xs i a d : blocks_ok xs → xs !! i = Some (a, d) → ∃ bs, block_ok d bs.
Proof.
  intros H Hi. apply (Forall_lookup_1 _ _ i d H). by rewrite list_lookup_fmap, Hi.
Qed.

Lemma encoding_cases d bs : block_ok d bs → raw d ∨ n_encoding d = LZF.
Proof. intros (_ & _ & zl & _ & _ & [[H _]|[H _]]); auto. Qed.

Lemma decompress_at q xs i a d :
  linkage q xs → blocks_ok xs → xs !! i = Some (a, d) →
  ∃ q' d', quicklistDecompressNode junk q (Some a) = Some q' ∧ recoded q xs q' (<[i := (a, d')]> xs) ∧
    raw d' ∧ n_recompress d' = n_recompress d.
Proof.
  intros Hl Hb Hi. destruct (block_at _ _ _ _ Hb Hi) as [bs Hbs]. unfold quicklistDecompressNode.
  rewrite (data_at _ _ _ _ _ Hl Hi), some_bind. destruct (encoding_cases _ _ Hbs) as [Hr|He].
  - rewrite Hr. exists q, d. split; [done|]. rewrite list_insert_id by done. split; [by apply changed_refl; [apply _|]|done].
  - rewrite He. change (LZF =? LZF) with true. cbv iota.
    destruct (decompress_data junk d bs Hbs He) as (d' & -> & Hrc & Hr & Hfl). rewrite some_bind.
    destruct (change_node recode q xs i a d d' Hl Hi Hrc) as (q' & -> & Hch). by exists q', d'.
Qed.

Lemma use_at q xs i a d :
  linkage q xs → blocks_ok xs → xs !! i = Some (a, d) →
  ∃ q' d', quicklistDecompressNodeForUse junk q (Some a) = Some q' ∧ reblocked q xs q' (<[i := (a, d')]> xs) ∧
    raw d' ∧ (n_encoding d = LZF ∧ n_recompress d' = 1 ∨ d' = d).
Proof.
  intros Hl Hb Hi. destruct (block_at _ _ _ _ Hb Hi) as [bs Hbs]. unfold quicklistDecompressNodeForUse.
  rewrite (data_at _ _ _ _ _ Hl Hi), some_bind. destruct (encoding_cases _ _ Hbs) as [Hr|He].
  - rewrite Hr. exists q, d. split; [done|]. rewrite list_insert_id by done.
    split; [by apply changed_refl; [apply _|]|]. split; [done|by right].
  - rewrite He. change (LZF =? LZF) with true. cbv iota.
    destruct (decompress_data junk d bs Hbs He) as (d' & -> & [Hrc _] & Hr & Hfl). rewrite some_bind.
    destruct (change_node same_block q xs i a d (set_recompress 1 d') Hl Hi) as (q' & -> & Hch).
    { destruct Hrc as [? ? Hblk]. split; [done|done|]. intros bs' Hbs'. by apply Hblk. }
    exists q', (set_recompress 1 d'). split; [done|]. split; [done|]. split; [done|]. by left.
Qed.

Lemma compress_at q xs i a d :
  linkage q xs → blocks_ok xs → xs !! i = Some (a, d) →
  ∃ q' d', quicklistCompressNode junk htab0 q (Some a) = Some q' ∧ recoded q xs q' (<[i := (a, d')]> xs).
Proof.
  intros Hl Hb Hi. destruct (block_at _ _ _ _ Hb Hi) as [bs Hbs]. unfold quicklistCompressNode.
  rewrite (data_at _ _ _ _ _ Hl Hi), some_bind. destruct (encoding_cases _ _ Hbs) as [Hr|He].
  - rewrite Hr. change (RAW =? RAW) with true. cbv iota.
    destruct (compress_data junk htab0 d bs Hbs Hr) as (r & d' & -> & Hrc). rewrite some_bind.
    destruct (change_node recode q xs i a d d' Hl Hi Hrc) as (q' & -> & Hch). by exists q', d'.
  - rewrite He. exists q, d. split; [done|]. rewrite list_insert_id by done. by apply changed_refl; [apply _|].
Qed.
End nodes.

(** ** Positions *)
Lemma first_drop (xs : list (loc * qdata)) i : first (drop i xs) None = xs.*1 !! i.
Proof.
  revert i. induction xs as [|[a d] xs IH]; intros i; [by destruct i|]. destruct i as [|i]; [done|]. apply IH.
Qed.

Lemma final_take (xs : list (loc * qdata)) i :
  (i ≤ length xs)%nat → final None (take i xs) = match i with O => None | S j => xs.*1 !! j end.
Proof.
  intros Hi. destruct i as [|j]; [done|]. destruct (lookup_lt_is_Some_2 xs j) as [[a d] Hj]; [lia|].
  rewrite (take_S_r _ _ _ Hj), final_app. cbn. by rewrite list_lookup_fmap, Hj.
Qed.

Lemma final_all (xs : list (loc * qdata)) : final None xs = xs.*1 !! (length xs - 1)%nat.
Proof.
  rewrite <- (take_ge xs (length xs)) at 1 by lia. rewrite final_take by lia.
  destruct xs as [|x xs]; [done|]. cbn [length]. by rewrite Nat.sub_1_r.
Qed.

Lemma node_at q xs i a d :
  linkage q xs → xs !! i = Some (a, d) →
  q_nodes q !! a = Some (mk_node (match i with O => None | S j => xs.*1 !! j end) (xs.*1 !! S i) d).
Proof.
  intros Hl Hi. pose proof (lookup_lt_Some _ _ _ Hi). destruct (cut_at _ _ _ Hi) as [E _].
  pose proof Hl as Hl'. rewrite E in Hl'. rewrite (node_mid _ _ _ _ _ Hl').
  by rewrite first_drop, final_take by lia.
Qed.

Lemma head_at q xs : linkage q xs → q_head q = xs.*1 !! 0%nat.
Proof. intros Hl. by rewrite (l_head _ _ Hl), <- (first_drop xs 0). Qed.

Lemma tail_at q xs : linkage q xs → q_tail q = xs.*1 !! (length xs - 1)%nat.
Proof. intros Hl. by rewrite (l_tail _ _ Hl), final_all. Qed.

(** Different positions have different addresses. *)
Lemma loc_inj q xs i j a : linkage q xs → xs.*1 !! i = Some a → xs.*1 !! j = Some a → i = j.
Proof. intros Hl. apply NoDup_lookup, (l_nodup _ _ Hl). Qed.

Lemma loc_at (xs : list (loc * qdata)) i : (i < length xs)%nat → ∃ a d, xs !! i = Some (a, d) ∧ xs.*1 !! i = Some a.
Proof.
  intros Hi. destruct (lookup_lt_is_Some_2 xs i Hi) as [[a d] H]. exists a, d. split; [done|]. by rewrite list_lookup_fmap, H.
Qed.

Section compress.
Context (junk : nat → Z) (htab0 : Z → Z).

(** The two ends walk towards each other; what they passed is decompressed. *)
Lemma depth_loop_spec node c k : ∀ i q xs ind,
  linkage q xs → blocks_ok xs → (i + k = c)%nat → (2 * c ≤ length xs + 1)%nat →
  (∀ t, (t < length xs)%nat → (t < i)%nat ∨ (length xs < t + 1 + i)%nat → raw_at xs t) →
  ∃ q' xs' r,
    depth_loop junk k q (xs.*1 !! i) (xs.*1 !! (length xs - 1 - i)%nat) node ind = Some (q', r) ∧
    recoded q xs q' xs' ∧
    match r with
    | None => ∀ t, (t < length xs)%nat → raw_at xs' t
    | Some (f, rv, ind') =>
        f = xs.*1 !! c ∧ rv = xs.*1 !! (length xs - 1 - c)%nat ∧ ((0 < k)%nat → (2 * c ≤ length xs)%nat) ∧
        (∀ t, (t < length xs)%nat → (t < c)%nat ∨ (length xs < t + 1 + c)%nat → raw_at xs' t) ∧
        (ind' = false → ind = false ∧ ∀ t, (i ≤ t)%nat → (t < c)%nat → xs.*1 !! t ≠ node ∧ xs.*1 !! (length xs - 1 - t)%nat ≠ node)
    end.
Proof.
  induction k as [|k IH]; intros i q xs ind Hl Hb Hc Hn Hraw.
  { exists q, xs, (Some (xs.*1 !! i, xs.*1 !! (length xs - 1 - i)%nat, ind)). assert (i = c) as -> by lia.
    split; [done|]. split; [by apply changed_refl; [apply _|]|]. split; [done|]. split; [done|]. split; [lia|].
    split; [done|]. intros E. split; [done|]. lia. }
  set (j := (length xs - 1 - i)%nat). destruct (loc_at xs i) as (a & d & Hi & Li); [lia|].
  cbn [depth_loop]. rewrite Li.
  destruct (decompress_at junk q xs i a d Hl Hb Hi) as (q1 & d1 & -> & Hc1 & Hr1 & _). rewrite some_bind.
  set (xs1 := <[i := (a, d1)]> xs) in *. pose proof (ch_link _ _ _ _ _ Hc1) as Hl1.
  pose proof (blocks_changed _ _ _ _ (recoded_reblocked _ _ _ _ Hc1) Hb) as Hb1.
  pose proof (ch_locs _ _ _ _ _ Hc1) as E1. pose proof (changed_length _ _ _ _ _ Hc1) as Len1.
  destruct (loc_at xs1 j) as (b & e & Hj & Lj); [lia|]. rewrite <- E1, Lj.
  destruct (decompress_at junk q1 xs1 j b e Hl1 Hb1 Hj) as (q2 & e2 & -> & Hc2 & Hr2 & _). rewrite some_bind.
  set (xs2 := <[j := (b, e2)]> xs1) in *. pose proof (ch_link _ _ _ _ _ Hc2) as Hl2.
  pose proof (blocks_changed _ _ _ _ (recoded_reblocked _ _ _ _ Hc2) Hb1) as Hb2.
  pose proof (ch_locs _ _ _ _ _ Hc2) as E2. pose proof (changed_length _ _ _ _ _ Hc2) as Len2.
  pose proof (changed_trans _ _ _ _ _ _ _ Hc1 Hc2) as Hc12.
  assert (∀ t, (t < length xs)%nat → (t < S i)%nat ∨ (length xs < t + 1 + S i)%nat → raw_at xs2 t) as Hraw2.
  { intros t Ht Hcase. apply (raw_at_insert _ _ _ _ _ _ Hj Hr2).
    destruct (decide (j = t)) as [|Nj]; [by right|]. left. apply (raw_at_insert _ _ _ _ _ _ Hi Hr1).
    destruct (decide (i = t)) as [|Ni]; [by right|]. left. apply Hraw; [done|]. unfold j in *. lia. }
  destruct (bool_decide (Some a = Some b)) eqn:Eab.
  - apply bool_decide_eq_true in Eab. injection Eab as <-. exists q2, xs2, None. split; [done|]. split; [done|].
    assert (i = j) as Eij. { apply (loc_inj q1 xs1 i j a); [done|by rewrite E1|done]. }
    intros t Ht. apply Hraw2; [done|]. unfold j in *. lia.
  - apply bool_decide_eq_false in Eab.
    assert (i ≠ j) as Nij. { intros <-. apply Eab. rewrite <- E1 in Li. congruence. }
    assert (i < j)%nat as Hij by (unfold j in *; lia).
    destruct (loc_at xs2 i) as (a2 & d2 & Hi2 & Li2); [lia|]. rewrite E2, E1, Li in Li2. injection Li2 as <-.
    destruct (loc_at xs2 j) as (b2 & e2' & Hj2 & Lj2); [lia|]. rewrite E2, Lj in Lj2. injection Lj2 as <-.
    unfold qload. rewrite !some_bind, (node_at _ _ _ _ _ Hl2 Hi2), some_bind, (node_at _ _ _ _ _ Hl2 Hj2), some_bind.
    cbn [next prev].
    destruct j as [|j'] eqn:Ej; [lia|].
    replace j' with (length xs2 - 1 - S i)%nat by lia.
    edestruct (IH (S i) q2 xs2) as (q' & xs' & r & Hrun & Hch & Hr); [done|done|lia|lia|by rewrite Len2, Len1|].
    rewrite Hrun. exists q', xs', r. split; [done|]. split; [by eapply changed_trans; [apply _|exact Hc12|]|].
    rewrite Len2, Len1, E2, E1 in Hr. destruct r as [[[f rv] ind']|]; [|done].
    rewrite E1. destruct Hr as (-> & -> & Hk & Hraw' & Hind). split; [done|]. split; [done|]. split; [lia|]. split; [done|].
    intros E. destruct (Hind E) as [Eor Hind']. apply orb_false_iff in Eor as [Eor Ebn].
    apply orb_false_iff in Eor as [-> Ean]. split; [done|].
    apply bool_decide_eq_false in Ean, Ebn. intros t Hit Htc.
    destruct (decide (t = i)) as [->|Nt]; [|apply Hind'; lia].
    fold j. rewrite Ej, Li. rewrite E1 in Lj. by rewrite Lj.
Qed.

Lemma compress_keeps q xs p i :
  linkage q xs → blocks_ok xs → xs.*1 !! i = Some p →
  ∃ q' xs', quicklistCompressNode junk htab0 q (Some p) = Some q' ∧ recoded q xs q' xs' ∧
    ∀ t, t ≠ i → raw_at xs t → raw_at xs' t.
Proof.
  intros Hl Hb Hi. rewrite list_lookup_fmap in Hi. apply fmap_Some in Hi as ([a d] & Hi & ->). cbn [fst].
  destruct (compress_at junk htab0 q xs i a d Hl Hb Hi) as (q' & d' & -> & Hch). eexists _, _.
  split; [done|]. split; [done|]. intros t Ht Hr. by apply raw_at_insert_ne.
Qed.

(** [q_len q] is the number of nodes the list believes it has; it may be one more
    or one less than there are while a node is inserted or deleted. *)
Lemma compress_spec q xs node :
  linkage q xs → blocks_ok xs → 0 ≤ q_compress q < 2 ^ 16 →
  (2 * q_compress q ≤ q_len q → 2 * q_compress q ≤ zlen xs + 1) →
  match node with Some p => ∃ i, xs.*1 !! i = Some p | None => True end →
  ∃ q' xs', __quicklistCompress junk htab0 q node = Some q' ∧ recoded q xs q' xs' ∧
    if decide (q_compress q = 0 ∨ q_len q < 2 * q_compress q) then q' = q ∧ xs' = xs
    else raw_at xs' 0 ∧ raw_at xs' (length xs - 1) ∧
         (zlen xs < 2 * q_compress q → ∀ t, (t < length xs)%nat → raw_at xs' t).
Proof.
  intros Hl Hb Hc Hlen Hnode. unfold __quicklistCompress, quicklistAllowsCompression.
  assert (u32 (q_compress q * 2) = 2 * q_compress q) as -> by wrap_lia.
  destruct (decide (q_compress q = 0 ∨ q_len q < 2 * q_compress q)) as [D|D].
  { exists q, xs. split; [|by split; [apply changed_refl; [apply _|]|]].
    destruct D as [->|D]; [done|]. rewrite (proj2 (Z.ltb_lt _ _)) by done. by rewrite orb_true_r. }
  rewrite (proj2 (Z.eqb_neq _ _)), (proj2 (Z.ltb_ge _ _)) by lia. cbn [negb orb].
  assert (2 * q_compress q ≤ zlen xs + 1) as Hn by (apply Hlen; lia). set (c := Z.to_nat (q_compress q)).
  destruct (depth_loop_spec node c c 0 q xs false)
    as (q1 & xs1 & r & Hrun & Hch & Hr); [done|done|lia|lia|lia|].
  rewrite Nat.sub_0_r in Hrun. rewrite (head_at _ _ Hl), (tail_at _ _ Hl), Hrun, some_bind. cbv beta iota.
  destruct r as [[[f rv] ind]|].
  2: { exists q1, xs1. split; [done|]. split; [done|]. split; [apply Hr; lia|]. split; [apply Hr; lia|]. done. }
  destruct Hr as (-> & -> & H2c & Hraw & Hind). specialize (H2c ltac:(lia)).
  rewrite (sf_compress _ _ (ch_fields _ _ _ _ _ Hch)).
  pose proof (ch_locs _ _ _ _ _ Hch) as E1.
  (* the node itself *)
  assert (∃ q2 xs2, (if ind then Some q1 else quicklistCompressNode junk htab0 q1 node) = Some q2 ∧
            recoded q xs q2 xs2 ∧ raw_at xs2 0 ∧ raw_at xs2 (length xs - 1)) as (q2 & xs2 & -> & Hch2 & R0 & Rn).
  { destruct ind; [exists q1, xs1; split; [done|]; split; [done|]; split; apply Hraw; lia|].
    destruct (Hind eq_refl) as [_ Hnd]. destruct node as [p|].
    2: { exists q1, xs1. split; [done|]. split; [done|]. split; apply Hraw; lia. }
    destruct Hnode as [i Hi]. rewrite <- E1 in Hi.
    destruct (compress_keeps q1 xs1 p i) as (q2 & xs2 & -> & Hch2 & Hk);
      [apply Hch|by eapply blocks_changed; [apply recoded_reblocked|]|done|].
    exists q2, xs2. split; [done|]. split; [by eapply changed_trans; [apply _|exact Hch|]|].
    destruct (Hnd 0%nat ltac:(lia) ltac:(lia)) as [N0 N1]. rewrite <- E1, Nat.sub_0_r in *.
    split; apply Hk; try (apply Hraw; lia); intros <-; congruence. }
  rewrite some_bind. destruct (Z.gtb_spec (q_compress q + 1) 2) as [Hd|Hd].
  2: { exists q2, xs2. split; [done|]. split; [done|]. split; [done|]. split; [done|]. lia. }
  pose proof (ch_locs _ _ _ _ _ Hch2) as E2. pose proof (changed_length _ _ _ _ _ Hch2) as L2.
  destruct (loc_at xs c) as (pf & _ & _ & Hpf); [lia|]. destruct (loc_at xs (length xs - 1 - c)) as (pr & _ & _ & Hpr); [lia|].
  rewrite Hpf, Hpr.
  destruct (compress_keeps q2 xs2 pf c) as (q3 & xs3 & -> & Hch3 & Hk3);
    [apply Hch2|by eapply blocks_changed; [apply recoded_reblocked|]|by rewrite E2|].
  rewrite some_bind. pose proof (changed_trans _ _ _ _ _ _ _ Hch2 Hch3) as Hch23.
  destruct (compress_keeps q3 xs3 pr (length xs - 1 - c)) as (q4 & xs4 & -> & Hch4 & Hk4);
    [apply Hch3|by eapply blocks_changed; [apply recoded_reblocked|]|by rewrite (ch_locs _ _ _ _ _ Hch23)|].
  exists q4, xs4. split; [done|]. split; [by eapply changed_trans; [apply _|exact Hch23|]|].
  split; [apply Hk4, Hk3; [lia|lia|done]|]. split; [apply Hk4, Hk3; [lia|lia|done]|]. lia.
Qed.
End compress.

(** ** Linking and unlinking *)
Lemma upd_comm (h : gmap loc quicklistNode) p q x y :
  upd_next (upd_prev h p x) q y = upd_prev (upd_next h q y) p x.
Proof.
  destruct p as [a|], q as [b|]; try done. unfold upd_next, upd_prev. destruct (decide (a = b)) as [->|N].
  - rewrite !alter_alter_eq. apply alter_ext. by intros n _; destruct n.
  - by rewrite alter_alter_ne.
Qed.

Lemma dom_upd_next (h : gmap loc quicklistNode) p x : dom (upd_next h p x) = dom h.
Proof. destruct p; [|done]. apply dom_alter_L. Qed.
Lemma dom_upd_prev (h : gmap loc quicklistNode) p x : dom (upd_prev h p x) = dom h.
Proof. destruct p; [|done]. apply dom_alter_L. Qed.

Lemma dom_linked (h : gmap loc quicklistNode) ys zs a d : dom (linked h ys zs a d) = {[a]} ∪ dom h.
Proof. unfold linked. by rewrite dom_upd_prev, dom_upd_next, dom_insert_L. Qed.

Lemma qset_next_upd q p x :
  in_heap (q_nodes q) p →
  match p with Some _ => qset_next q p x | None => Some q end = Some (set_qnodes (upd_next (q_nodes q) p x) q).
Proof.
  destruct p as [a|]; [|by destruct q]. intros [n Ha]. unfold qset_next. rewrite some_bind, Ha, some_bind.
  unfold qstore. by rewrite (alter_insert_node _ (λ n, mk_node (prev n) x (value n)) a n).
Qed.

Lemma qset_prev_upd q p x :
  in_heap (q_nodes q) p →
  match p with Some _ => qset_prev q p x | None => Some q end = Some (set_qnodes (upd_prev (q_nodes q) p x) q).
Proof.
  destruct p as [a|]; [|by destruct q]. intros [n Ha]. unfold qset_prev. rewrite some_bind, Ha, some_bind.
  unfold qstore. by rewrite (alter_insert_node _ (λ n, mk_node x (next n) (value n)) a n).
Qed.

Lemma store_prev q a n x : qset_prev (qstore q a n) (Some a) x = Some (qstore q a (mk_node x (next n) (value n))).
Proof.
  unfold qset_prev, qstore. cbn. rewrite lookup_insert_eq, some_bind. unfold set_qnodes. cbn. by rewrite insert_insert_eq.
Qed.
Lemma store_next q a n x : qset_next (qstore q a n) (Some a) x = Some (qstore q a (mk_node (prev n) x (value n))).
Proof.
  unfold qset_next, qstore. cbn. rewrite lookup_insert_eq, some_bind. unfold set_qnodes. cbn. by rewrite insert_insert_eq.
Qed.

Lemma in_heap_insert (h : gmap loc quicklistNode) a n p : in_heap h p → in_heap (<[a := n]> h) p.
Proof.
  destruct p as [b|]; [|done]. cbn. intros Hb. apply lookup_insert_is_Some. destruct (decide (a = b)); auto.
Qed.

Lemma in_heap_upd_prev (h : gmap loc quicklistNode) p x r : in_heap h r → in_heap (upd_prev h p x) r.
Proof.
  destruct r as [b|]; [|done]. cbn. intros Hb. apply not_eq_None_Some. rewrite upd_prev_None. by apply not_eq_None_Some.
Qed.
Lemma in_heap_upd_next (h : gmap loc quicklistNode) p x r : in_heap h r → in_heap (upd_next h p x) r.
Proof.
  destruct r as [b|]; [|done]. cbn. intros Hb. apply not_eq_None_Some. rewrite upd_next_None. by apply not_eq_None_Some.
Qed.

Lemma qload_other q a n b m : q_nodes q !! a = None → q_nodes q !! b = Some m → qload (qstore q a n) (Some b) = Some m.
Proof. intros Ha Hb. unfold qload. cbn. rewrite lookup_insert_ne; [done|]. congruence. Qed.

Lemma link_after q ys b w zs a d :
  linkage q (ys ++ (b, w) :: zs) → q_nodes q !! a = None → q_len q ≠ 0 →
  ∃ q', link_node (qstore q a (mk_node None None d)) (Some b) a true = Some q' ∧
    linkage q' (ys ++ (b, w) :: (a, d) :: zs) ∧ same_fields q q' ∧ dom (q_nodes q') = {[a]} ∪ dom (q_nodes q).
Proof.
  intros Hl Ha Hlen. pose proof Hl as [Hs Hn Hh Ht]. unfold link_node.
  rewrite store_prev, some_bind, (qload_other _ _ _ _ _ Ha (node_mid _ _ _ _ _ Hl)), some_bind. cbn [next prev value].
  rewrite store_next, some_bind. cbn [prev value].
  assert (ys ++ (b, w) :: zs = (ys ++ [(b, w)]) ++ zs) as Ex by (by rewrite <- app_assoc).
  rewrite Ex in Hs, Hn. pose proof (seg_in_heap _ _ _ _ Hs) as _. pose proof Hs as Hs'.
  apply seg_app in Hs' as [Sy Sz]. destruct (seg_in_heap _ _ _ _ Sz) as [Iz _]. destruct (seg_in_heap _ _ _ _ Sy) as [_ Iy].
  rewrite qset_prev_upd by (by apply in_heap_insert). rewrite some_bind.
  assert (final None (ys ++ [(b, w)]) = Some b) as Ef by (by rewrite final_app).
  rewrite Ef in Iy.
  rewrite (qset_next_upd _ (Some b)) by (by apply in_heap_upd_prev, in_heap_insert). rewrite !some_bind. cbn [q_tail q_len set_qnodes].
  destruct (linked_spec (q_nodes q) (ys ++ [(b, w)]) zs a d Hs Hn Ha) as (Hs2 & Hn2 & _).
  rewrite <- app_assoc in Hs2, Hn2. cbn [app] in Hs2, Hn2.
  set (h2 := upd_next _ _ _). assert (h2 = linked (q_nodes q) (ys ++ [(b, w)]) zs a d) as Eh.
  { unfold h2, linked. cbn [q_nodes set_qnodes qstore]. by rewrite upd_comm, Ef. }
  clearbody h2. subst h2.
  cbn [qstore set_qnodes q_tail q_len]. destruct (q_len q =? 0) eqn:E0; [by apply Z.eqb_eq in E0|].
  rewrite Ht. rewrite <- Ex in Hn.
  destruct (decide (final None (ys ++ (b, w) :: zs) = Some b)) as [D|D]; cbn [q_len set_qtail set_qnodes qstore]; rewrite E0.
  - apply (final_is _ _ _ _ Hn) in D. subst zs. eexists. split; [done|]. split; [|split; [done|apply dom_linked]].
    split; cbn; [done|done| |].
    + by rewrite Hh, !first_app.
    + by rewrite final_app.
  - rewrite (final_is _ _ _ _ Hn) in D. eexists. split; [done|]. split; [|split; [done|apply dom_linked]].
    split; cbn; [done|done| |].
    + by rewrite Hh, !first_app.
    + rewrite Ht, !final_app. cbn. by destruct zs as [|[? ?] ?].
Qed.

Lemma link_before q ys b w zs a d :
  linkage q (ys ++ (b, w) :: zs) → q_nodes q !! a = None → q_len q ≠ 0 →
  ∃ q', link_node (qstore q a (mk_node None None d)) (Some b) a false = Some q' ∧
    linkage q' (ys ++ (a, d) :: (b, w) :: zs) ∧ same_fields q q' ∧ dom (q_nodes q') = {[a]} ∪ dom (q_nodes q).
Proof.
  intros Hl Ha Hlen. pose proof Hl as [Hs Hn Hh Ht]. unfold link_node.
  rewrite store_next, some_bind, (qload_other _ _ _ _ _ Ha (node_mid _ _ _ _ _ Hl)), some_bind. cbn [next prev value].
  rewrite store_prev, some_bind. cbn [next value]. pose proof Hs as Hs'.
  apply seg_app in Hs' as [Sy Sz]. destruct (seg_in_heap _ _ _ _ Sz) as [Iz _]. destruct (seg_in_heap _ _ _ _ Sy) as [_ Iy].
  cbn [first] in Iz.
  rewrite qset_next_upd by (by apply in_heap_insert). rewrite some_bind.
  rewrite (qset_prev_upd _ (Some b)) by (by apply in_heap_upd_next, in_heap_insert). rewrite !some_bind. cbn [q_head q_len set_qnodes].
  destruct (linked_spec (q_nodes q) ys ((b, w) :: zs) a d Hs Hn Ha) as (Hs2 & Hn2 & _).
  set (h2 := upd_prev _ _ _). assert (h2 = linked (q_nodes q) ys ((b, w) :: zs) a d) as Eh by done.
  clearbody h2. subst h2.
  cbn [qstore set_qnodes q_head q_len]. destruct (q_len q =? 0) eqn:E0; [by apply Z.eqb_eq in E0|].
  rewrite Hh. destruct (decide (first (ys ++ (b, w) :: zs) None = Some b)) as [D|D]; cbn [q_len set_qhead set_qnodes qstore]; rewrite E0.
  - apply (first_is _ _ _ _ Hn) in D. subst ys. eexists. split; [done|]. split; [|split; [done|apply dom_linked]].
    split; cbn; [done|done|done|by rewrite Ht].
  - rewrite (first_is _ _ _ _ Hn) in D. eexists. split; [done|]. split; [|split; [done|apply dom_linked]].
    split; cbn; [done|done| |].
    + rewrite Hh, !first_app. by destruct ys as [|[? ?] ?].
    + by rewrite Ht, !final_app.
Qed.

Lemma link_only q a d after :
  linkage q [] → q_nodes q !! a = None → q_len q = 0 →
  ∃ q', link_node (qstore q a (mk_node None None d)) None a after = Some q' ∧
    linkage q' [(a, d)] ∧ same_fields q q' ∧ dom (q_nodes q') = {[a]} ∪ dom (q_nodes q).
Proof.
  intros [_ _ Hh Ht] Ha Hlen. cbn in Hh, Ht. unfold link_node.
  destruct after; rewrite ?store_prev, ?store_next, some_bind; cbn; rewrite ?Hh, ?Ht, decide_True by done; cbn; rewrite Hlen; cbn;
    (eexists; split; [done|]; split; [|by split; [split|cbn; rewrite dom_insert_L]]);
    (split; cbn; [by rewrite lookup_insert_eq|by apply NoDup_singleton|done|done]).
Qed.

Lemma unlink_spec q ys a d zs :
  linkage q (ys ++ (a, d) :: zs) →
  ∃ q', unlink_node q a = Some q' ∧ linkage q' (ys ++ zs) ∧ same_fields q q' ∧
    q_nodes q' !! a = Some (mk_node (final None ys) (first zs None) d) ∧ dom (q_nodes q') = dom (q_nodes q).
Proof.
  intros Hl. pose proof Hl as [Hs Hn Hh Ht]. unfold unlink_node. rewrite (node_mid _ _ _ _ _ Hl), some_bind. cbn [next prev].
  destruct (nodup_mid _ _ _ _ Hn) as (Hy & Hz & Hn'). pose proof Hs as Hs'. apply seg_app in Hs' as [Sy [_ Sz]].
  destruct (seg_in_heap _ _ _ _ Sz) as [Iz _]. destruct (seg_in_heap _ _ _ _ Sy) as [_ Iy].
  rewrite qset_prev_upd by done. rewrite some_bind. rewrite qset_next_upd by (by apply in_heap_upd_prev). rewrite some_bind.
  cbn [set_qnodes q_nodes q_tail q_head].
  set (h2 := upd_next _ _ _).
  assert (seg h2 None (ys ++ zs) None) as Hs2.
  { unfold h2. cbn [q_nodes set_qnodes]. rewrite upd_comm, seg_app.
    apply (relink (q_nodes q) ys zs (Some a) (Some a) (first zs None) (final None ys) Hn' Sy Sz). }
  assert (h2 !! a = Some (mk_node (final None ys) (first zs None) d)) as Ha2.
  { unfold h2. rewrite upd_next_lookup, upd_prev_lookup by (by intros E; (apply final_elem in E || apply first_elem in E)).
    apply (node_mid _ _ _ _ _ Hl). }
  assert (dom h2 = dom (q_nodes q)) as Hd by (unfold h2; by rewrite dom_upd_next, dom_upd_prev).
  clearbody h2. rewrite Ht. set (q1 := set_qnodes h2 _).
  assert (q_head (if decide (final None (ys ++ (a, d) :: zs) = Some a) then set_qtail (final None ys) q1 else q1)
    = first (ys ++ (a, d) :: zs) None) as -> by (by destruct (decide _)).
  destruct (decide (final None (ys ++ (a, d) :: zs) = Some a)) as [D1|D1];
    destruct (decide (first (ys ++ (a, d) :: zs) None = Some a)) as [D2|D2];
    rewrite (final_is _ _ _ _ Hn) in D1; rewrite (first_is _ _ _ _ Hn) in D2;
    (eexists; split; [done|]; split; [|by split; [|split]]); split; try done; cbn.
  - by subst.
  - subst. by rewrite app_nil_r.
  - rewrite Hh, !first_app. by destruct ys as [|[? ?] ?].
  - subst zs. by rewrite app_nil_r.
  - by subst ys.
  - rewrite Ht, !final_app. cbn. by destruct zs as [|[? ?] ?].
  - rewrite Hh, !first_app. by destruct ys as [|[? ?] ?].
  - rewrite Ht, !final_app. cbn. by destruct zs as [|[? ?] ?].
Qed.

(** ** Which nodes are compressed

    The ends never are; none is in a list shorter than twice the depth; and
    none is, or is marked to be, when compression is off. *)
Definition plain (d : qdata) : Prop := raw d ∧ n_recompress d = 0.

Record enc_ok (c : Z) (xs : list (loc * qdata)) : Prop := {
  eo_head : xs ≠ [] → raw_at xs 0;
  eo_last : xs ≠ [] → raw_at xs (length xs - 1);
  eo_small : zlen xs < 2 * c → Forall raw xs.*2;
  eo_off : c = 0 → Forall plain xs.*2
}.

Lemma raw_all xs : Forall raw xs.*2 ↔ ∀ t, (t < length xs)%nat → raw_at xs t.
Proof.
  rewrite Forall_fmap, Forall_lookup. unfold raw_at. split.
  - intros H t Ht. destruct (lookup_lt_is_Some_2 xs t Ht) as [x Hx]. exists x. split; [done|]. by apply (H t).
  - intros H t x Hx. destruct (H t) as (y & Hy & Hr); [by eapply lookup_lt_Some|]. cbn. congruence.
Qed.

Lemma plain_raw l : Forall plain l → Forall raw l.
Proof. intros H. eapply Forall_impl; [exact H|]. by intros d []. Qed.

Lemma enc_raw c xs : enc_ok c xs → c = 0 ∨ zlen xs < 2 * c → Forall raw xs.*2.
Proof. intros H [Hc|Hc]; [by apply plain_raw, H|by apply H]. Qed.

Lemma enc_raw_all c xs : Forall raw xs.*2 → (c = 0 → Forall plain xs.*2) → enc_ok c xs.
Proof.
  intros H Hp. pose proof (proj1 (raw_all xs) H) as Ha.
  split; [intros N; apply Ha; destruct xs; [done|simpl; lia]|intros N; apply Ha; destruct xs; [done|simpl; lia]|done|done].
Qed.

Lemma raw_at_app_l xs ys i : raw_at xs i → raw_at (xs ++ ys) i.
Proof. intros (x & Hx & Hr). exists x. split; [|done]. by apply lookup_app_l_Some. Qed.

Lemma raw_at_last xs x : raw_at (xs ++ [x]) (length (xs ++ [x]) - 1) ↔ raw x.2.
Proof.
  rewrite length_app. cbn [length]. replace (length xs + 1 - 1)%nat with (length xs) by lia. unfold raw_at.
  rewrite list_lookup_middle by done. split; [by intros (y & [= ->] & H)|]. intros H. by exists x.
Qed.

Lemma raw_last_cons ys x zs :
  zs ≠ [] → raw_at (ys ++ x :: zs) (length (ys ++ x :: zs) - 1) ↔ raw_at (ys ++ zs) (length (ys ++ zs) - 1).
Proof.
  intros N. destruct (exists_last N) as (zs0 & z & ->).
  rewrite app_comm_cons, !app_assoc. by rewrite !raw_at_last.
Qed.

Lemma raw_head_app ys x zs : ys ≠ [] → raw_at (ys ++ x :: zs) 0 ↔ raw_at (ys ++ zs) 0.
Proof. by destruct ys. Qed.

Lemma enc_insert c ys zs a d : enc_ok c (ys ++ zs) → plain d → enc_ok c (ys ++ (a, d) :: zs).
Proof.
  intros [Hh Hl Hs Ho] Hd. split.
  - intros _. destruct ys as [|y ys]; [by exists (a, d); split; [|apply Hd]|]. by apply raw_head_app, Hh.
  - intros _. destruct (decide (zs = [])) as [->|N]; [by apply raw_at_last, Hd|].
    apply raw_last_cons; [done|]. apply Hl. by destruct ys.
  - intros Hlt. rewrite fmap_app, fmap_cons. rewrite length_app in Hlt. cbn [length] in Hlt.
    specialize (Hs ltac:(rewrite length_app; lia)). rewrite fmap_app in Hs. apply Forall_app in Hs as [H1 H2].
    apply Forall_app. split; [done|]. constructor; [apply Hd|done].
  - intros Hc. specialize (Ho Hc). rewrite fmap_app in Ho |- *. apply Forall_app in Ho as [H1 H2].
    apply Forall_app. split; [done|]. by constructor.
Qed.

(** ** The list as a whole *)
Record qshape (q : quicklist) (xs : list (loc * qdata)) : Prop := {
  s_link : linkage q xs;
  s_dom : dom (q_nodes q) = list_to_set xs.*1;
  s_len : q_len q = zlen xs;
  s_bound : zlen xs < 2 ^ 32;
  s_compress : 0 ≤ q_compress q < 2 ^ 16;
  s_enc : enc_ok (q_compress q) xs
}.

Lemma recoded_shape q xs q' xs' :
  recoded q xs q' xs' → qshape q xs → enc_ok (q_compress q) xs' → qshape q' xs'.
Proof.
  intros H [? Hd ? ? ? ?] He. pose proof (changed_length _ _ _ _ _ H) as Hlen.
  destruct H as [? L D [? E1 ? E2] ? M]. split; [done|congruence|congruence|lia|lia|congruence].
Qed.

Lemma recode_plain l l' : Forall2 recode l l' → Forall raw l' → Forall plain l → Forall plain l'.
Proof.
  induction 1 as [|d d' l l' Hd _ IH]; [done|]. intros [Hr Hr']%Forall_cons [Hp Hp']%Forall_cons.
  constructor; [|by apply IH]. split; [done|]. destruct Hd as [_ [->| ->]]; [apply Hp|done].
Qed.

(** Node for node: the same address, the block perhaps in another form. *)
Definition moved : list (loc * qdata) → list (loc * qdata) → Prop :=
  Forall2 (λ x y, y.1 = x.1 ∧ recode x.2 y.2).

Lemma moved_intro xs xs' : xs'.*1 = xs.*1 → Forall2 recode xs.*2 xs'.*2 → moved xs xs'.
Proof.
  revert xs'. induction xs as [|x xs IH]; intros [|y xs'] E H; try done; [constructor|].
  injection E as E1 E2. cbn in H. apply Forall2_cons in H as [H1 H2]. constructor; [done|]. by apply IH.
Qed.

Section ends.
Context (junk : nat → Z) (htab0 : Z → Z).

Lemma del_node_spec q ys a d zs :
  qshape q (ys ++ (a, d) :: zs) → blocks_ok (ys ++ zs) →
  ∃ q' xs', __quicklistDelNode junk htab0 q a = Some q' ∧ qshape q' xs' ∧
    moved (ys ++ zs) xs' ∧ q_count q' = u64 (q_count q - n_count d) ∧ q_fill q' = q_fill q ∧ q_compress q' = q_compress q.
Proof.
  intros [Hl Hdom Hlen Hbnd Hc He] Hb. unfold __quicklistDelNode.
  assert (zlen (ys ++ (a, d) :: zs) = zlen (ys ++ zs) + 1) as En by (rewrite !length_app; simpl; lia).
  destruct (unlink_spec q ys a d zs Hl) as (q1 & -> & Hl1 & [Ec1 El1 Ef1 Ep1] & Ha & Hd1). rewrite some_bind.
  destruct (compress_spec junk htab0 q1 (ys ++ zs) None Hl1 Hb) as (q2 & xs2 & -> & Hch & Hpost); [lia|lia|done|].
  rewrite some_bind. pose proof (nodup_mid _ _ _ _ (l_nodup _ _ Hl)) as (Hy & Hz & _).
  destruct Hch as [Hl2 Hlocs Hdata [Ec2 El2 Ef2 Ep2] Hfr Hdom2].
  rewrite Hfr by (rewrite fmap_app; set_solver). rewrite Ha, some_bind. eexists _, xs2. split; [done|].
  assert (a ∉ xs2.*1) as Ha2 by (rewrite Hlocs, fmap_app; set_solver).
  assert (length xs2 = length (ys ++ zs)) as L2 by (apply (f_equal length) in Hlocs; by rewrite !length_fmap in Hlocs).
  split; [|split; [by apply moved_intro|]; cbn; rewrite ?Ec2, ?Ec1, ?Ef2, ?Ef1, ?Ep2, ?Ep1; done].
  split; cbn.
  - destruct Hl2 as [Hs2 Hn2 Hh2 Ht2]. split; [by apply seg_delete|done|done|done].
  - rewrite dom_delete_L, Hdom2, Hd1, Hdom, Hlocs, !fmap_app, fmap_cons, !list_to_set_app_L, list_to_set_cons.
    rewrite Hlocs, fmap_app in Ha2. set_solver.
  - rewrite El2, El1, Hlen, En, L2. unfold u32. rewrite wrapu_id; [lia|]. unfold in_u. lia.
  - lia.
  - lia.
  - rewrite Ep2, Ep1. case_decide as Hcase.
    + destruct Hpost as [_ ->]. rewrite Ep1, El1, Hlen in Hcase.
      pose proof (enc_raw _ _ He Hcase) as Hraw. apply enc_raw_all.
      * rewrite fmap_app, fmap_cons, Forall_app, Forall_cons in Hraw. rewrite fmap_app, Forall_app. tauto.
      * intros H0. pose proof (eo_off _ _ He H0) as Hp. rewrite fmap_app, fmap_cons, Forall_app, Forall_cons in Hp.
        rewrite fmap_app, Forall_app. tauto.
    + destruct Hpost as (R0 & Rn & Rall). rewrite Ep1 in *. rewrite <- L2 in Rn, Rall. split; [done|done| |lia].
      intros Hlt. apply raw_all. by apply Rall.
Qed.

(** A position at which a node may be compressed. *)
Definition interior (c : Z) (ys zs : list (loc * qdata)) : Prop :=
  c ≠ 0 ∧ ys ≠ [] ∧ zs ≠ [] ∧ 2 * c ≤ zlen ys + 1 + zlen zs.

(** Inserting a node next to another; when that one is marked it is in the interior. *)
Lemma insert_node_spec q ys b w zs a d (after : bool) :
  qshape q (ys ++ (b, w) :: zs) → blocks_ok (ys ++ (b, w) :: zs) → q_nodes q !! a = None →
  plain d → (∃ bs, block_ok d bs) → (n_recompress w ≠ 0 → interior (q_compress q) ys zs) → zlen (ys ++ (b, w) :: zs) + 1 < 2 ^ 32 →
  let xs1 := if after then ys ++ (b, w) :: (a, d) :: zs else ys ++ (a, d) :: (b, w) :: zs in
  ∃ q' xs', __quicklistInsertNode junk htab0 (qstore q a (mk_node None None d)) (Some b) a after = Some q' ∧
    qshape q' xs' ∧ moved xs1 xs' ∧ q_count q' = q_count q ∧ q_fill q' = q_fill q ∧ q_compress q' = q_compress q.
Proof.
  intros [Hl Hdom Hlen Hbnd Hc He] Hb Ha Hd [bs Hbs] Hw Hbnd1 xs1. unfold __quicklistInsertNode.
  assert (0 < zlen (ys ++ (b, w) :: zs)) as Hpos by (rewrite length_app; simpl; lia).
  assert (∃ q1, link_node (qstore q a (mk_node None None d)) (Some b) a after = Some q1 ∧
    linkage q1 xs1 ∧ same_fields q q1 ∧ dom (q_nodes q1) = {[a]} ∪ dom (q_nodes q)) as (q1 & -> & Hl1 & [Ec1 El1 Ef1 Ep1] & Hd1).
  { unfold xs1. destruct after; [apply link_after|apply link_before]; (done || lia). }
  rewrite some_bind.
  assert (xs1 ≡ₚ (a, d) :: ys ++ (b, w) :: zs) as Hperm.
  { unfold xs1. destruct after; [rewrite Permutation_swap|]; by rewrite Permutation_middle. }
  assert (length xs1 = S (length (ys ++ (b, w) :: zs))) as L1 by (apply Permutation_length in Hperm; done).
  assert (blocks_ok xs1) as Hb1.
  { unfold blocks_ok in *. rewrite Hperm. cbn. constructor; [by exists bs|done]. }
  assert (enc_ok (q_compress q) xs1) as He1.
  { unfold xs1. destruct after; [|by apply enc_insert].
    change (ys ++ (b, w) :: (a, d) :: zs) with (ys ++ [(b, w)] ++ (a, d) :: zs). rewrite app_assoc.
    apply enc_insert; [|done]. by rewrite <- app_assoc. }
  assert (∃ q2 xs2, quicklistCompress junk htab0 q1 b = Some q2 ∧ recoded q1 xs1 q2 xs2 ∧ enc_ok (q_compress q) xs2)
    as (q2 & xs2 & -> & Hch & He2).
  { assert (xs1 !! (length ys + if after then 0 else 1)%nat = Some (b, w)) as Hi.
    { unfold xs1. destruct after; rewrite lookup_app_r by lia;
        [by replace (length ys + 0 - length ys)%nat with 0%nat by lia|by replace (length ys + 1 - length ys)%nat with 1%nat by lia]. }
    set (i := (length ys + _)%nat) in Hi. assert (xs1.*1 !! i = Some b) as Hib by (by rewrite list_lookup_fmap, Hi).
    unfold quicklistCompress. rewrite (data_at _ _ _ _ _ Hl1 Hi), some_bind.
    destruct (Z.eqb_spec (n_recompress w) 0) as [_|N]; cbn [negb].
    - destruct (compress_spec junk htab0 q1 xs1 (Some b) Hl1 Hb1) as (q2 & xs2 & -> & Hch & Hpost); [lia|lia|by exists i|].
      exists q2, xs2. split; [done|]. split; [done|]. rewrite Ep1 in Hpost.
      case_decide as Hcase; [by destruct Hpost as [_ ->]|]. destruct Hpost as (R0 & Rn & Rall).
      rewrite <- (changed_length _ _ _ _ _ Hch) in Rn, Rall. split; [done|done| |lia].
      intros Hlt. apply raw_all. by apply Rall.
    - destruct (Hw N) as (Hc0 & Ny & Nz & Hcl).
      destruct (compress_keeps junk htab0 q1 xs1 b i Hl1 Hb1 Hib) as (q2 & xs2 & -> & Hch & Hk).
      exists q2, xs2. split; [done|]. split; [done|]. pose proof (changed_length _ _ _ _ _ Hch) as L2.
      assert (0 < length ys ∧ 0 < length zs)%nat as [Hly Hlz] by (destruct ys, zs; simpl; try done; lia).
      assert (0 < i < length xs1 - 1)%nat as Hir by (rewrite L1, length_app; unfold i; cbn [length]; destruct after; lia).
      split.
      + intros _. apply Hk; [lia|]. apply He1. by intros ->.
      + intros _. rewrite L2. apply Hk; [lia|]. apply He1. by intros ->.
      + rewrite L2, L1, length_app. cbn [length]. lia.
      + lia. }
  rewrite some_bind. pose proof (changed_length _ _ _ _ _ Hch) as L2. eexists _, xs2. split; [done|].
  destruct Hch as [Hl2 Hlocs Hdata [Ec2 El2 Ef2 Ep2] Hfr Hdom2].
  split; [|split; [by apply moved_intro|]; cbn; by rewrite ?Ec2, ?Ec1, ?Ef2, ?Ef1, ?Ep2, ?Ep1].
  split; cbn.
  - by destruct Hl2.
  - rewrite Hdom2, Hd1, Hdom, Hlocs. rewrite Hperm. done.
  - rewrite El2, El1, Hlen, L2, L1. unfold u32. rewrite wrapu_id; [lia|]. unfold in_u. lia.
  - lia.
  - lia.
  - by rewrite Ep2, Ep1.
Qed.

Lemma insert_first_spec q a d (after : bool) :
  qshape q [] → q_nodes q !! a = None → plain d →
  ∃ q', __quicklistInsertNode junk htab0 (qstore q a (mk_node None None d)) None a after = Some q' ∧
    qshape q' [(a, d)] ∧ q_count q' = q_count q ∧ q_fill q' = q_fill q ∧ q_compress q' = q_compress q.
Proof.
  intros [Hl Hdom Hlen Hbnd Hc He] Ha Hd. unfold __quicklistInsertNode.
  destruct (link_only q a d after Hl Ha Hlen) as (q1 & -> & Hl1 & [Ec1 El1 Ef1 Ep1] & Hd1). rewrite !some_bind.
  eexists. split; [done|]. split; [|done]. split; cbn.
  - by destruct Hl1.
  - rewrite Hd1, Hdom. set_solver.
  - by rewrite El1, Hlen.
  - done.
  - lia.
  - apply enc_raw_all; [by constructor; [apply Hd|]|by constructor].
Qed.
End ends.
