(* ===== verification/QuickOps.v ===== *)
(** * Quick lists: the operations

    [qlist q l]: the quick list [q] holds the strings [l], its nodes, counters
    and sizes are consistent and its ends are not compressed.  Every operation
    of the model is specified against it. *)

From S2P Require Import Prelude Decimal Util Adlist Lzf Zipenc Ziplist ZipRead ZipView Quicklist QuickNodes.

#[local] Set Default Proof Using "Type".

Record node_ok (d : qdata) (bs : list (list Z)) : Prop := {
  no_block : block_ok d bs;
  no_ne : bs ≠ [];
  no_count : n_count d = zlen bs;
  no_small : zlen bs < 2 ^ 16;
  no_size : total_size bs < 2 ^ 31
}.

Record qinv (q : quicklist) (xs : list (loc * qdata)) (bss : list (list (list Z))) : Prop := {
  v_shape : qshape q xs;
  v_nodes : Forall2 node_ok xs.*2 bss;
  v_count : q_count q = zlen (concat bss);
  v_bound : zlen (concat bss) < 2 ^ 32;
  v_fill : in_s 16 (q_fill q)
}.

Definition qlist (q : quicklist) (l : list (list Z)) : Prop := ∃ xs bss, qinv q xs bss ∧ l = concat bss.

(** No node is marked to be compressed again. *)
Definition calm (q : quicklist) : Prop := map_Forall (λ _ n, n_recompress (value n) = 0) (q_nodes q).
Definition unmarked (xs : list (loc * qdata)) : Prop := Forall (λ d, n_recompress d = 0) xs.*2.

(** ** Nodes *)
Lemma node_recode d d' bs : same_block d d' → node_ok d bs → node_ok d' bs.
Proof. intros [E1 E2 Hb] [B ? C ? ?]. split; [by apply Hb|done|congruence|done|done]. Qed.

Lemma nodes_recode l l' bss : Forall2 recode l l' → Forall2 node_ok l bss → Forall2 node_ok l' bss.
Proof.
  intros H. revert bss. induction H as [|d d' l l' [Hd _] _ IH]; intros bss Hb; inversion Hb; subst; constructor; [|by apply IH].
  by eapply node_recode.
Qed.

Lemma nodes_blocks (xs : list (loc * qdata)) bss : Forall2 node_ok xs.*2 bss → blocks_ok xs.
Proof.
  unfold blocks_ok. generalize xs.*2. intros l H. induction H as [|d bs l bss Hd _ IH]; [constructor|].
  constructor; [|done]. exists bs. apply Hd.
Qed.

Lemma nodes_length l bss : Forall2 node_ok l bss → zlen l ≤ zlen (concat bss).
Proof.
  induction 1 as [|d bs l bss Hd _ IH]; [done|]. cbn [concat length]. rewrite length_app.
  pose proof (no_ne _ _ Hd). destruct bs; [done|]. cbn [length]. lia.
Qed.

Lemma calm_unmarked q xs : linkage q xs → calm q → unmarked xs.
Proof.
  intros Hl Hc. unfold unmarked. rewrite Forall_fmap, Forall_lookup. intros i [a d] Hi. cbn.
  apply (Hc a _ (node_at _ _ _ _ _ Hl Hi)).
Qed.

Lemma off_calm q l : qlist q l → q_compress q = 0 → calm q.
Proof.
  intros (xs & bss & [[Hl Hd _ _ _ He] _ _ _ _] & _) H0 a n Ha.
  assert (a ∈ xs.*1) as Hin. { rewrite <- (elem_of_list_to_set (C := gset loc)), <- Hd. by eapply elem_of_dom_2. }
  apply list_elem_of_lookup in Hin as [i Hi]. rewrite list_lookup_fmap in Hi. apply fmap_Some in Hi as ([a' d] & Hi & ->). cbn [fst] in Ha.
  rewrite (node_at _ _ _ _ _ Hl Hi) in Ha. injection Ha as <-. cbn.
  pose proof (eo_off _ _ He H0) as Hp. rewrite Forall_fmap, Forall_lookup in Hp. apply (Hp _ _ Hi).
Qed.

Lemma moved_nodes xs xs' bss : moved xs xs' → Forall2 node_ok xs.*2 bss → Forall2 node_ok xs'.*2 bss.
Proof.
  intros H. apply nodes_recode. induction H as [|x y xs xs' [_ Hr] _ IH]; [constructor|]. by constructor.
Qed.

(** ** Changing one node *)
Lemma enc_put c ys a d d' zs :
  enc_ok c (ys ++ (a, d) :: zs) → (raw d → raw d') → (c = 0 → plain d') → enc_ok c (ys ++ (a, d') :: zs).
Proof.
  intros [Hh Hl Hs Ho] Hr Hp. assert (length (ys ++ (a, d') :: zs) = length (ys ++ (a, d) :: zs)) as El by (by rewrite !length_app).
  assert (∀ i, raw_at (ys ++ (a, d) :: zs) i → raw_at (ys ++ (a, d') :: zs) i) as Hat.
  { intros i (x & Hx & Hrx). destruct (decide (i = length ys)) as [->|N].
    - rewrite list_lookup_middle in Hx by done. injection Hx as <-. exists (a, d').
      rewrite list_lookup_middle by done. auto.
    - exists x. split; [|done]. rewrite <- Hx. rewrite <- (mid_update ys zs (a, d') (a, d)).
      by rewrite list_lookup_insert_ne. }
  split.
  - intros _. apply Hat, Hh. by destruct ys.
  - intros _. rewrite El. apply Hat, Hl. by destruct ys.
  - rewrite El. intros Hlt. specialize (Hs Hlt). rewrite fmap_app, fmap_cons, Forall_app, Forall_cons in Hs |- *. naive_solver.
  - intros Hc. specialize (Ho Hc). rewrite fmap_app, fmap_cons, Forall_app, Forall_cons in Ho |- *. naive_solver.
Qed.

Lemma put_shape q ys a d zs d' :
  qshape q (ys ++ (a, d) :: zs) → (raw d → raw d') → (q_compress q = 0 → plain d') →
  ∃ q', qput q a d' = Some q' ∧ qshape q' (ys ++ (a, d') :: zs) ∧ same_fields q q'.
Proof.
  intros [Hl Hd Hn Hb Hc He] Hr Hp. destruct (put_mid q ys zs a d Hl d') as (q' & -> & Hl' & Hf & _ & Hdom).
  exists q'. split; [done|]. split; [|done]. pose proof Hf as [_ El _ Ec].
  assert (length (ys ++ (a, d') :: zs) = length (ys ++ (a, d) :: zs)) as Elen by (by rewrite !length_app).
  split; [done|by rewrite Hdom, Hd, (fst_mid ys zs a d d')|congruence|lia|lia|]. rewrite Ec. by eapply enc_put.
Qed.

Lemma off_plain q ys a d zs : qshape q (ys ++ (a, d) :: zs) → q_compress q = 0 → plain d.
Proof.
  intros Hs H0. pose proof (eo_off _ _ (s_enc _ _ Hs) H0) as Hp.
  rewrite fmap_app, fmap_cons, Forall_app, Forall_cons in Hp. apply Hp.
Qed.

Lemma plain_like d d' : plain d → n_encoding d' = n_encoding d → n_recompress d' = n_recompress d → plain d'.
Proof. unfold plain, raw. intros [? ?] ? ?. split; congruence. Qed.

Lemma shape_count q xs x : qshape q xs → qshape (set_qcount x q) xs.
Proof. intros [[] ? ? ? ? ?]. by split. Qed.

Section ops.
Context (junk : nat → Z) (htab0 : Z → Z).

Lemma update_sz d zl bs : zip zl bs → n_zl d = Some zl → quicklistNodeUpdateSz d = Some (set_sz (zlen zl) d).
Proof.
  intros Hz E. unfold quicklistNodeUpdateSz. rewrite E, some_bind.
  destruct (zip_blob _ _ Hz) as [-> _]. done.
Qed.

Lemma push_zip d zl bs v w :
  n_zl d = Some zl → zip zl bs → Forall bytes_ok bs → raw d → bytes_ok v → fits (v :: bs) →
  ∃ d', push_node junk d v w = Some d' ∧ block_ok d' (push_at w v bs) ∧
    n_encoding d' = n_encoding d ∧ n_recompress d' = n_recompress d ∧ n_count d' = n_count d.
Proof.
  intros Ezl Hz Hb Hr Hv Hf. unfold push_node. rewrite Ezl, some_bind.
  destruct (push_view junk zl bs v w Hz Hf) as (zl' & -> & Hz'). rewrite some_bind.
  rewrite (update_sz _ zl' _ Hz') by done. eexists. split; [done|]. split; [|done].
  split; [|split].
  - destruct w; cbn; [by constructor|]. apply Forall_app. split; [done|by constructor].
  - unfold fits in *. destruct w; cbn [push_at]; [done|]. rewrite total_size_app. cbn [total_size foldr] in *. unfold total_size in *. lia.
  - exists zl'. split; [done|]. split; [done|]. by left.
Qed.

Lemma push_node_spec d bs v w :
  block_ok d bs → raw d → bytes_ok v → fits (v :: bs) →
  ∃ d', push_node junk d v w = Some d' ∧ block_ok d' (push_at w v bs) ∧
    n_encoding d' = n_encoding d ∧ n_recompress d' = n_recompress d ∧ n_count d' = n_count d.
Proof.
  intros Hblk Hr. destruct (block_raw _ _ Hblk Hr) as (Hb & _ & zl & Ezl & Hz & _). by apply (push_zip d zl).
Qed.

(** A value that fits a node of its own. *)
Definition storable (v : list Z) : Prop := bytes_ok v ∧ zlen v < 2 ^ 30.

Lemma qnode_new_spec v w :
  storable v → ∃ d, new_node_with junk v w = Some d ∧ plain d ∧ block_ok d [v] ∧ n_count d = 0.
Proof.
  intros [Hv Hl]. unfold new_node_with. destruct (zip_new junk) as (zl & -> & Hz). rewrite some_bind.
  destruct (push_zip (set_zl (Some zl) (value quicklistCreateNode)) zl [] v w) as (d & -> & Hb & He & Hf & Hc);
    [done|done|done|done|done|unfold fits; cbn; lia|].
  exists d. split; [done|]. split; [by split|]. split; [by destruct w|done].
Qed.

Lemma single_ok d v : storable v → block_ok d [v] → n_count d = 1 → node_ok d [v].
Proof. intros [_ Hl] Hb Hc. split; [done|done|done|done|cbn; lia]. Qed.

(** What the limits of a node mean. *)
Lemma opt_level_bound sz fill : _quicklistNodeSizeMeetsOptimizationRequirement sz fill = true → sz ≤ 65536.
Proof.
  unfold _quicklistNodeSizeMeetsOptimizationRequirement. destruct (fill >=? 0); [done|].
  destruct (optimization_level !! Z.to_nat (- fill - 1)) as [x|] eqn:E; [|done]. intros H%Z.leb_le.
  apply list_elem_of_lookup_2 in E. unfold optimization_level in E.
  repeat (apply elem_of_cons in E as [->|E]; [lia|]). by apply elem_of_nil in E.
Qed.

Lemma allow_insert_bound d fill sz :
  0 ≤ sz → _quicklistNodeAllowInsert (Some d) fill sz = true → 0 ≤ n_sz d → n_sz d + sz + 10 < 2 ^ 32 →
  n_sz d + sz + 2 ≤ 65536.
Proof.
  intros Hs H Hd Hlt. unfold _quicklistNodeAllowInsert in H.
  assert (2 ≤ ziplist_overhead sz ≤ 10) as Ho by (unfold ziplist_overhead; repeat case_if1; lia).
  unfold u32 in H. rewrite wrapu_id in H by (unfold in_u; lia).
  destruct (_quicklistNodeSizeMeetsOptimizationRequirement _ _) eqn:E; [apply opt_level_bound in E; lia|].
  destruct (sizeMeetsSafetyLimit _) eqn:E2; [|done]. unfold sizeMeetsSafetyLimit, SIZE_SAFETY_LIMIT in E2. lia.
Qed.

Lemma block_size d bs : block_ok d bs → 11 + 2 * zlen bs ≤ n_sz d ∧ n_sz d ≤ total_size bs ∧ total_size bs ≤ n_sz d + 44 * zlen bs.
Proof. intros (_ & _ & zl & Hz & -> & _). pose proof (zip_sizes _ _ Hz). lia. Qed.

Lemma allow_insert_ok d bs fill v :
  node_ok d bs → storable v → _quicklistNodeAllowInsert (Some d) fill (zlen v) = true →
  total_size bs + 14 + zlen v < 2 ^ 31 ∧ zlen bs + 1 < 2 ^ 16.
Proof.
  intros [Hb ? ? ? Hs] [_ Hv] H. pose proof (block_size _ _ Hb).
  apply allow_insert_bound in H; [|lia|lia|lia]. lia.
Qed.

(** ** Pushing *)
Lemma count_data d (bs : list (list Z)) : n_count d + 1 = zlen bs → zlen bs < 2 ^ 16 → n_count (set_ncount (n_count d + 1) d) = zlen bs.
Proof. intros E Hl. cbn. rewrite E. unfold u16. apply wrapu_id. unfold in_u. lia. Qed.

Lemma fresh_node (q : quicklist) : q_nodes q !! (fresh (dom (q_nodes q)) : loc) = None.
Proof. apply not_elem_of_dom, is_fresh. Qed.

Lemma concat_mid {A} (l1 l2 : list (list A)) x : concat (l1 ++ x :: l2) = concat l1 ++ x ++ concat l2.
Proof. by rewrite concat_app. Qed.

(** The invariant when one node of it got new contents. *)
Lemma qinv_node q ys a d zs bss1 bs bss2 n :
  qshape q (ys ++ (a, d) :: zs) → Forall2 node_ok ys.*2 bss1 → Forall2 node_ok zs.*2 bss2 → node_ok d bs →
  q_count q = n → n = zlen (concat (bss1 ++ bs :: bss2)) → n < 2 ^ 32 → in_s 16 (q_fill q) →
  qinv q (ys ++ (a, d) :: zs) (bss1 ++ bs :: bss2).
Proof.
  intros Hs H1 H2 Hd <- Hn Hb Hf. split; [done| |done|lia|done].
  rewrite fmap_app, fmap_cons. apply Forall2_app; [done|]. by constructor.
Qed.

Lemma set_count_val x q : 0 ≤ x < 2 ^ 32 → q_count (set_qcount x q) = x.
Proof. intros H. cbn. unfold u64. apply wrapu_id. unfold in_u. pow2. lia. Qed.

(** The last step of both pushes: the counters of the list and of the node. *)
Lemma push_finish q ys a d zs bss1 bs v w bss2 :
  qshape q (ys ++ (a, d) :: zs) → Forall2 node_ok ys.*2 bss1 → Forall2 node_ok zs.*2 bss2 →
  block_ok d (push_at w v bs) → n_count d = zlen bs → zlen bs + 1 < 2 ^ 16 → total_size (push_at w v bs) < 2 ^ 31 →
  q_count q = zlen (concat (bss1 ++ bs :: bss2)) → q_count q + 1 < 2 ^ 32 → in_s 16 (q_fill q) →
  ∃ q', qput (set_qcount (q_count q + 1) q) a (set_ncount (n_count d + 1) d) = Some q' ∧
    qinv q' (ys ++ (a, set_ncount (n_count d + 1) d) :: zs) (bss1 ++ push_at w v bs :: bss2).
Proof.
  intros Hs H1 H2 Hb Hc Hn Ht Hq Hq1 Hf.
  assert (zlen (push_at w v bs) = zlen bs + 1) as Hlen by (destruct w; cbn; rewrite ?length_app; simpl; lia).
  destruct (put_shape (set_qcount (q_count q + 1) q) ys a d zs (set_ncount (n_count d + 1) d)) as (q' & -> & Hs' & [E1 _ E3 _]).
  { by apply shape_count. }
  { done. }
  { intros H0. by apply (plain_like d); [eapply off_plain|..]. }
  exists q'. split; [done|]. rewrite set_count_val in E1 by lia. eapply qinv_node; [done|done|done| |exact E1| |lia|by rewrite E3].
  - split; [by destruct Hb|by destruct w, bs|rewrite count_data with (bs := push_at w v bs); lia|lia|done].
  - rewrite Hq, !concat_mid, !length_app. lia.
Qed.

Lemma push_head_spec q l v :
  qlist q l → calm q → storable v → zlen l + 1 < 2 ^ 32 →
  ∃ b q', quicklistPushHead junk htab0 q v = Some (b, q') ∧ qlist q' (v :: l).
Proof.
  intros (xs & bss & [Hs Hn Hc Hb Hf] & ->) Hcalm Hv Hlen. pose proof (nodes_length _ _ Hn) as Hnl. rewrite length_fmap in Hnl.
  pose proof (s_link _ _ Hs) as Hl. unfold quicklistPushHead. rewrite (l_head _ _ Hl).
  destruct xs as [|[a d] xs]; cbn [first].
  - (* the first node *)
    inversion Hn; subst. cbn [qdata_at]. rewrite some_bind. cbn [_quicklistNodeAllowInsert].
    destruct (qnode_new_spec v ZIPLIST_HEAD Hv) as (d & -> & Hp & Hd & Hdc). rewrite some_bind. unfold qalloc.
    unfold _quicklistInsertNodeBefore. cbn [q_head qstore set_qnodes]. rewrite (l_head _ _ Hl). cbn [first].
    fold (qstore q (fresh (dom (q_nodes q))) (mk_node None None d)).
    destruct (insert_first_spec junk htab0 q _ d false Hs (fresh_node q) Hp) as (q1 & -> & Hs1 & E1 & E2 & E3).
    rewrite some_bind. cbn [q_head set_qcount]. rewrite (l_head _ _ (s_link _ _ Hs1)). cbn [first]. rewrite some_bind.
    rewrite (data_mid (set_qcount _ q1) [] [] _ d) by apply shape_count, Hs1. rewrite some_bind.
    destruct (push_finish q1 [] _ d [] [] [] v ZIPLIST_HEAD [] Hs1) as (q2 & -> & Hi2);
      [constructor|constructor|done|done|done|destruct Hv; cbn; lia|by rewrite E1|rewrite E1, Hc; lia|by rewrite E2|].
    eexists _, q2. split; [done|]. eexists _, _. split; [exact Hi2|done].
  - inversion Hn as [|? bs ? bss' Hd Hr]; subst. cbn [qdata_at]. rewrite (data_mid q [] xs a d Hl), !some_bind.
    destruct (_quicklistNodeAllowInsert (Some d) (q_fill q) (zlen v)) eqn:Ha.
    + (* into the head *)
      rewrite (data_mid q [] xs a d Hl), some_bind.
      destruct (allow_insert_ok d bs _ v Hd Hv Ha) as [Hts Hcnt].
      assert (raw d) as Hraw by (destruct (eo_head _ _ (s_enc _ _ Hs)) as (x & [= <-] & ?); done).
      destruct (push_node_spec d bs v ZIPLIST_HEAD (no_block _ _ Hd) Hraw) as (d1 & -> & Hb1 & He1 & Hf1 & Hc1);
        [apply Hv|unfold fits; cbn [total_size foldr] in *; unfold total_size in *; lia|]. rewrite some_bind.
      destruct (put_shape q [] a d xs d1 Hs) as (q1 & -> & Hs1 & [E1 _ E3 _]).
      { intros _. unfold raw in *. congruence. }
      { intros H0. by apply (plain_like d); [apply (off_plain q [] a d xs)|..]. }
      rewrite some_bind. cbn [q_head set_qcount]. rewrite (l_head _ _ (s_link _ _ Hs1)). cbn [first app]. rewrite some_bind.
      rewrite (data_mid (set_qcount _ q1) [] xs a d1) by apply shape_count, Hs1. rewrite some_bind.
      destruct (push_finish q1 [] a d1 xs [] bs v ZIPLIST_HEAD bss' Hs1) as (q2 & -> & Hi2);
        [constructor|done|done|rewrite Hc1; apply Hd|done|cbn [push_at total_size foldr] in *; unfold total_size in *; lia|
         rewrite E1; done|rewrite E1, Hc; lia|by rewrite E3|].
      eexists _, q2. split; [done|]. eexists _, _. split; [exact Hi2|done].
    + (* a new head *)
      destruct (qnode_new_spec v ZIPLIST_HEAD Hv) as (dn & -> & Hp & Hdn & Hdc). rewrite some_bind. unfold qalloc.
      unfold _quicklistInsertNodeBefore. cbn [q_head qstore set_qnodes]. rewrite (l_head _ _ Hl). cbn [first].
      fold (qstore q (fresh (dom (q_nodes q))) (mk_node None None dn)). set (b := fresh _).
      pose proof (calm_unmarked _ _ Hl Hcalm) as [Hm _]%Forall_cons.
      destruct (insert_node_spec junk htab0 q [] a d xs b dn false) as (q1 & xs1 & -> & Hs1 & Hmv & E1 & E2 & E3);
        [done|by eapply nodes_blocks|apply fresh_node|done|by exists [v]|by intros []|cbn [app]; lia|].
      rewrite some_bind. cbn [app] in Hmv. apply Forall2_cons_inv_l in Hmv as ([b' dn'] & xs1' & [Eb [Hrn _]] & Hmv & ->).
      cbn [fst snd] in Eb, Hrn. subst b'. rename xs1' into xs1.
      cbn [q_head set_qcount]. rewrite (l_head _ _ (s_link _ _ Hs1)). cbn [first]. rewrite some_bind.
      rewrite (data_mid (set_qcount _ q1) [] xs1 b dn') by apply shape_count, Hs1. rewrite some_bind.
      destruct (push_finish q1 [] b dn' xs1 [] [] v ZIPLIST_HEAD (bs :: bss') Hs1) as (q2 & -> & Hi2);
        [constructor|by eapply moved_nodes|by apply Hrn|rewrite (sb_count _ _ Hrn); done|done|destruct Hv; cbn; lia|
         by rewrite E1|rewrite E1, Hc; lia|by rewrite E2|].
      eexists _, q2. split; [done|]. eexists _, _. split; [exact Hi2|done].
Qed.

Lemma raw_last q ys a d : qshape q (ys ++ [(a, d)]) → raw d.
Proof. intros Hs. apply (raw_at_last ys (a, d)), (eo_last _ _ (s_enc _ _ Hs)). by destruct ys. Qed.

Lemma raw_first q a d zs : qshape q ((a, d) :: zs) → raw d.
Proof. intros Hs. by destruct (eo_head _ _ (s_enc _ _ Hs)) as (x & [= <-] & ?). Qed.

Lemma tail_snoc q ys a d : linkage q (ys ++ [(a, d)]) → q_tail q = Some a.
Proof. intros Hl. by rewrite (l_tail _ _ Hl), final_app. Qed.

Lemma push_tail_spec q l v :
  qlist q l → calm q → storable v → zlen l + 1 < 2 ^ 32 →
  ∃ b q', quicklistPushTail junk htab0 q v = Some (b, q') ∧ qlist q' (l ++ [v]).
Proof.
  intros (xs & bss & [Hs Hn Hc Hb Hf] & ->) Hcalm Hv Hlen. pose proof (nodes_length _ _ Hn) as Hnl. rewrite length_fmap in Hnl.
  pose proof (s_link _ _ Hs) as Hl. unfold quicklistPushTail.
  destruct (seg_last xs) as [->|(ys & a & d & ->)].
  - rewrite (l_tail _ _ Hl). cbn [final].
    inversion Hn; subst. cbn [qdata_at]. rewrite some_bind. cbn [_quicklistNodeAllowInsert].
    destruct (qnode_new_spec v ZIPLIST_TAIL Hv) as (d & -> & Hp & Hd & Hdc). rewrite some_bind. unfold qalloc.
    unfold _quicklistInsertNodeAfter. cbn [q_tail qstore set_qnodes]. rewrite (l_tail _ _ Hl). cbn [final].
    fold (qstore q (fresh (dom (q_nodes q))) (mk_node None None d)).
    destruct (insert_first_spec junk htab0 q _ d true Hs (fresh_node q) Hp) as (q1 & -> & Hs1 & E1 & E2 & E3).
    rewrite some_bind. cbn [q_tail set_qcount]. rewrite (l_tail _ _ (s_link _ _ Hs1)). cbn [final]. rewrite some_bind.
    rewrite (data_mid (set_qcount _ q1) [] [] _ d) by apply shape_count, Hs1. rewrite some_bind.
    destruct (push_finish q1 [] _ d [] [] [] v ZIPLIST_TAIL [] Hs1) as (q2 & -> & Hi2);
      [constructor|constructor|done|done|done|destruct Hv; cbn; lia|by rewrite E1|rewrite E1, Hc; lia|by rewrite E2|].
    eexists _, q2. split; [done|]. eexists _, _. split; [exact Hi2|done].
  - rewrite fmap_app in Hn. apply Forall2_app_inv_l in Hn as (bss1 & bl & Hy & Hr & ->).
    apply Forall2_cons_inv_l in Hr as (bs & bl' & Hd & Hnil & ->). apply Forall2_nil_inv_l in Hnil as ->. cbn [snd] in Hd.
    rewrite (tail_snoc _ _ _ _ Hl). cbn [qdata_at]. rewrite (data_mid q ys [] a d Hl), !some_bind.
    destruct (_quicklistNodeAllowInsert (Some d) (q_fill q) (zlen v)) eqn:Ha.
    + rewrite (data_mid q ys [] a d Hl), some_bind.
      destruct (allow_insert_ok d bs _ v Hd Hv Ha) as [Hts Hcnt]. pose proof (raw_last _ _ _ _ Hs) as Hraw.
      assert (total_size (push_at ZIPLIST_TAIL v bs) < 2 ^ 31) as Hpt.
      { cbn [push_at]. rewrite total_size_app. cbn [total_size foldr] in *. unfold total_size in *. lia. }
      destruct (push_node_spec d bs v ZIPLIST_TAIL (no_block _ _ Hd) Hraw) as (d1 & -> & Hb1 & He1 & Hf1 & Hc1);
        [apply Hv|unfold fits; cbn [total_size foldr] in *; unfold total_size in *; lia|]. rewrite some_bind.
      destruct (put_shape q ys a d [] d1 Hs) as (q1 & -> & Hs1 & [E1 _ E3 _]).
      { intros _. unfold raw in *. congruence. }
      { intros H0. by apply (plain_like d); [apply (off_plain q ys a d [])|..]. }
      rewrite some_bind. cbn [q_tail set_qcount]. rewrite (tail_snoc _ _ _ _ (s_link _ _ Hs1)), some_bind.
      rewrite (data_mid (set_qcount _ q1) ys [] a d1) by apply shape_count, Hs1. rewrite some_bind.
      destruct (push_finish q1 ys a d1 [] bss1 bs v ZIPLIST_TAIL [] Hs1) as (q2 & -> & Hi2);
        [done|constructor|done|rewrite Hc1; apply Hd|done|done|rewrite E1; done|rewrite E1, Hc; lia|by rewrite E3|].
      eexists _, q2. split; [done|]. eexists _, _. split; [exact Hi2|]. rewrite !concat_mid. cbn. by rewrite !app_nil_r, app_assoc.
    + destruct (qnode_new_spec v ZIPLIST_TAIL Hv) as (dn & -> & Hp & Hdn & Hdc). rewrite some_bind. unfold qalloc.
      unfold _quicklistInsertNodeAfter. cbn [q_tail qstore set_qnodes]. rewrite (tail_snoc _ _ _ _ Hl).
      fold (qstore q (fresh (dom (q_nodes q))) (mk_node None None dn)). set (b := fresh _).
      pose proof (calm_unmarked _ _ Hl Hcalm) as Hm. unfold unmarked in Hm. rewrite fmap_app, Forall_app in Hm.
      destruct Hm as [_ [Hm _]%Forall_cons].
      destruct (insert_node_spec junk htab0 q ys a d [] b dn true) as (q1 & xs1 & -> & Hs1 & Hmv & E1 & E2 & E3);
        [done| |apply fresh_node|done|by exists [v]|by intros []|lia|].
      { eapply nodes_blocks. rewrite fmap_app. apply Forall2_app; [done|]. by apply Forall2_cons; split; [|constructor]. }
      rewrite some_bind. cbn iota in Hmv. change (ys ++ [(a, d); (b, dn)]) with (ys ++ [(a, d)] ++ [(b, dn)]) in Hmv.
      rewrite app_assoc in Hmv. apply Forall2_app_inv_l in Hmv as (ys1 & l1 & Hmv & Hl1 & ->).
      apply Forall2_cons_inv_l in Hl1 as ([b' dn'] & l2 & [Eb [Hrn _]] & Hnil & ->).
      apply Forall2_nil_inv_l in Hnil as ->. cbn [fst snd] in Eb, Hrn. subst b'.
      cbn [q_tail set_qcount]. rewrite (tail_snoc _ _ _ _ (s_link _ _ Hs1)), some_bind.
      rewrite (data_mid (set_qcount _ q1) ys1 [] b dn') by apply shape_count, Hs1. rewrite some_bind.
      destruct (push_finish q1 ys1 b dn' [] (bss1 ++ [bs]) [] v ZIPLIST_TAIL [] Hs1) as (q2 & -> & Hi2);
        [eapply moved_nodes; [done|]|constructor|by apply Hrn|rewrite (sb_count _ _ Hrn); done|done|destruct Hv; cbn; lia|
         |rewrite E1, Hc; lia|by rewrite E2|].
      { rewrite fmap_app. apply Forall2_app; [done|]. by apply Forall2_cons; split; [|constructor]. }
      { rewrite E1, Hc, !concat_app. cbn. by rewrite !app_nil_r. }
      eexists _, q2. split; [done|]. eexists _, _. split; [exact Hi2|]. rewrite !concat_app. cbn. by rewrite !app_nil_r.
Qed.

(** ** Deleting an entry *)
Lemma nodes_split (ys zs : list (loc * qdata)) a d bss :
  Forall2 node_ok (ys ++ (a, d) :: zs).*2 bss →
  ∃ bss1 bs bss2, bss = bss1 ++ bs :: bss2 ∧ Forall2 node_ok ys.*2 bss1 ∧ node_ok d bs ∧ Forall2 node_ok zs.*2 bss2.
Proof.
  rewrite fmap_app, fmap_cons. intros (bss1 & bl & H1 & Hr & ->)%Forall2_app_inv_l.
  apply Forall2_cons_inv_l in Hr as (bs & bss2 & Hd & H2 & ->). by exists bss1, bs, bss2.
Qed.

Lemma blocks_app_cons (ys zs : list (loc * qdata)) a d bss1 bss2 :
  Forall2 node_ok ys.*2 bss1 → Forall2 node_ok zs.*2 bss2 → (∃ bs, block_ok d bs) → blocks_ok (ys ++ (a, d) :: zs).
Proof.
  intros H1%nodes_blocks H2%nodes_blocks Hd. unfold blocks_ok in *. rewrite fmap_app, fmap_cons.
  apply Forall_app. split; [done|]. by constructor.
Qed.

Lemma total_size_delete k bs : total_size (delete k bs) ≤ total_size bs.
Proof.
  revert k. induction bs as [|b bs IH]; intros k; [done|]. destruct k as [|k].
  - change (delete 0%nat (b :: bs)) with bs. cbn [total_size foldr]. unfold total_size. lia.
  - change (delete (S k) (b :: bs)) with (b :: delete k bs). specialize (IH k). cbn [total_size foldr]. unfold total_size in *. lia.
Qed.

Lemma length_delete_lt {A} (l : list A) k : (k < length l)%nat → zlen (delete k l) = zlen l - 1.
Proof. intros Hk. destruct (lookup_lt_is_Some_2 l k Hk) as [x Hx]. rewrite (length_delete l k) by eauto. lia. Qed.

(** The entry [k] of the node [a] goes, and the node when it was the only one. *)
Inductive deleted_entry (ys : list (loc * qdata)) (a : loc) (d : qdata) (zs : list (loc * qdata))
    (bss1 : list (list (list Z))) (bs : list (list Z)) (bss2 : list (list (list Z))) (k : nat) :
    bool → quicklist → Prop :=
  | entry_gone q' xs' :
      length bs = 1%nat → qinv q' xs' (bss1 ++ bss2) → moved (ys ++ zs) xs' →
      deleted_entry ys a d zs bss1 bs bss2 k true q'
  | entry_kept q' d' :
      qinv q' (ys ++ (a, d') :: zs) (bss1 ++ delete k bs :: bss2) → raw d' → n_recompress d' = n_recompress d →
      deleted_entry ys a d zs bss1 bs bss2 k false q'.

Lemma fits_node d bs : node_ok d bs → fits bs.
Proof. intros H. unfold fits. pose proof (no_size _ _ H). lia. Qed.

Lemma del_index_spec q ys a d zs bss1 bs bss2 zl pos k :
  qinv q (ys ++ (a, d) :: zs) (bss1 ++ bs :: bss2) → Forall2 node_ok ys.*2 bss1 → node_ok d bs →
  Forall2 node_ok zs.*2 bss2 → raw d → n_zl d = Some zl → entries zl bs pos → (k < length bs)%nat →
  ∃ gone q', quicklistDelIndex junk htab0 q a (pos k) = Some (gone, q') ∧
    deleted_entry ys a d zs bss1 bs bss2 k gone q' ∧ q_compress q' = q_compress q.
Proof.
  intros [Hs _ Hc Hb Hf] H1 Hd H2 Hr Ezl He Hk. unfold quicklistDelIndex.
  rewrite (data_mid _ _ _ _ _ (s_link _ _ Hs)), some_bind, Ezl, some_bind.
  destruct (e_delete _ _ _ He junk k Hk (fits_node _ _ Hd)) as (zl' & -> & Hz'). rewrite some_bind. cbv beta iota.
  set (d1 := set_ncount _ _). pose proof (no_count _ _ Hd) as Hcd. pose proof (no_small _ _ Hd) as Hsm.
  assert (n_count d1 = zlen bs - 1) as Hc1 by (cbn; rewrite Hcd; unfold u16; rewrite wrapu_id; [done|unfold in_u; lia]).
  destruct (put_shape q ys a d zs d1 Hs) as (q1 & -> & Hs1 & [E1 _ E3 E4]); [done|intros H0; by apply (plain_like d); [eapply off_plain|..]|].
  rewrite some_bind, Hc1. rewrite !concat_mid, !length_app in *.
  destruct (Z.eqb_spec (zlen bs - 1) 0) as [Hz|Hz].
  - destruct (del_node_spec junk htab0 q1 ys a d1 zs Hs1) as (q2 & xs2 & -> & Hs2 & Hmv & Ec & Ef & Ecp).
    { apply (nodes_blocks _ (bss1 ++ bss2)). rewrite fmap_app. by apply Forall2_app. }
    rewrite !some_bind. cbv beta iota. eexists _, _. split; [done|]. split; [|cbn; congruence].
    eapply entry_gone; [lia| |done].
    assert (q_count q2 = q_count q) as Eq2.
    { rewrite Ec, E1, Hc1, Hz, Z.sub_0_r, Hc. unfold u64. apply wrapu_id. unfold in_u. pow2. lia. }
    split.
    + by apply shape_count.
    + eapply moved_nodes; [done|]. rewrite fmap_app. by apply Forall2_app.
    + rewrite set_count_val, Eq2, Hc, concat_app, length_app by lia. lia.
    + rewrite concat_app, length_app. lia.
    + cbn. by rewrite Ef, E3.
  - rewrite (update_sz d1 zl' _ Hz') by done. rewrite some_bind. set (d2 := set_sz _ _).
    destruct (put_shape q1 ys a d1 zs d2 Hs1) as (q2 & -> & Hs2 & [F1 _ F3 F4]); [done|intros H0; by apply (plain_like d1); [eapply off_plain|..]|].
    rewrite !some_bind. cbv beta iota. eexists _, _. split; [done|]. split; [|cbn; congruence].
    apply entry_kept with (d' := d2); [|done|done].
    pose proof (length_delete_lt bs k Hk) as Hdl.
    eapply qinv_node; [by apply shape_count|done|done| | | | |cbn; by rewrite F3, E3].
    + destruct (no_block _ _ Hd) as (Hby & _ & _). pose proof (total_size_delete k bs). pose proof (no_size _ _ Hd). split.
      * split; [by apply Forall_delete|]. split; [unfold fits; lia|]. exists zl'. split; [done|]. split; [done|]. by left.
      * intros E. rewrite E in Hdl. cbn in Hdl. lia.
      * cbn [n_count d2 set_sz]. lia.
      * lia.
      * lia.
    + apply set_count_val. rewrite F1, E1, Hc. lia.
    + rewrite F1, E1, Hc, concat_mid, !length_app. lia.
    + rewrite F1, E1, Hc. lia.
Qed.

(** ** Popping *)
Lemma node_view d bs : node_ok d bs → raw d → ∃ zl pos, n_zl d = Some zl ∧ zip zl bs ∧ entries zl bs pos.
Proof.
  intros Hd Hr. destruct (block_raw _ _ (no_block _ _ Hd) Hr) as (_ & _ & zl & Ezl & Hz & _).
  destruct (zip_entries _ _ Hz) as [pos He]. by exists zl, pos.
Qed.

Lemma deleted_list ys a d zs bss1 bs bss2 k gone q' :
  (k < length bs)%nat → deleted_entry ys a d zs bss1 bs bss2 k gone q' → qlist q' (concat bss1 ++ delete k bs ++ concat bss2).
Proof.
  intros Hk [q1 xs' H1 Hi _|q1 d' Hi _ _].
  - exists xs', (bss1 ++ bss2). split; [done|]. rewrite concat_app. f_equal.
    destruct bs as [|b [|]]; [done| |done]. by destruct k; [|simpl in Hk; lia].
  - eexists _, _. split; [exact Hi|]. by rewrite concat_mid.
Qed.

Lemma nth_zero n : (0 < n)%nat → nth_of n 0 = Some 0%nat.
Proof. intros H. unfold nth_of. by rewrite decide_True by lia. Qed.
Lemma nth_last n : (0 < n)%nat → nth_of n (-1) = Some (n - 1)%nat.
Proof.
  intros H. unfold nth_of. rewrite decide_False, decide_True by lia. f_equal. lia.
Qed.

Lemma pop_empty q w : qlist q [] → quicklistPop junk htab0 q w = Some (None, q).
Proof.
  intros (xs & bss & [_ _ Hc _ _] & E). unfold quicklistPop. by rewrite Hc, <- E.
Qed.

Lemma pop_head_spec q x l :
  qlist q (x :: l) →
  ∃ q', quicklistPop junk htab0 q QUICKLIST_HEAD = Some (Some (content_of x), q') ∧ qlist q' l ∧
    q_compress q' = q_compress q.
Proof.
  intros (xs & bss & Hi & E). pose proof Hi as [Hs Hn Hc Hb Hf]. unfold quicklistPop, quicklistPopCustom.
  rewrite Hc, <- E. cbn [length]. rewrite (proj2 (Z.eqb_neq _ _)) by lia.
  destruct xs as [|[a d] zs]; [inversion Hn; by subst|].
  destruct (nodes_split [] zs a d bss Hn) as (bss1 & bs & bss2 & -> & H1 & Hd & H2). apply Forall2_nil_inv_l in H1 as ->.
  rewrite (l_head _ _ (s_link _ _ Hs)). cbn [first]. rewrite (data_mid q [] zs a d (s_link _ _ Hs)), some_bind.
  pose proof (raw_first _ _ _ _ Hs) as Hr. destruct (node_view d bs Hd Hr) as (zl & pos & Ezl & Hz & He).
  rewrite Ezl, some_bind. destruct bs as [|b bs]; [by destruct (no_ne _ _ Hd)|]. injection E as -> El.
  rewrite (e_index _ _ _ He), nth_zero by (done || (simpl; lia)). cbn [fmap option_fmap option_map].
  rewrite some_bind, (e_get _ _ _ He 0 b), !some_bind by done.
  destruct (del_index_spec q [] a d zs [] (b :: bs) bss2 zl pos 0 Hi) as (gone & q' & -> & Hdel & Ecp);
    [constructor|done|done|done|done|done|simpl; lia|].
  rewrite some_bind. exists q'. split; [done|]. split; [|done]. apply deleted_list in Hdel; [|simpl; lia]. by rewrite El.
Qed.

Lemma pop_tail_spec q x l :
  qlist q (l ++ [x]) →
  ∃ q', quicklistPop junk htab0 q QUICKLIST_TAIL = Some (Some (content_of x), q') ∧ qlist q' l ∧
    q_compress q' = q_compress q.
Proof.
  intros (xs & bss & Hi & E). pose proof Hi as [Hs Hn Hc Hb Hf]. unfold quicklistPop, quicklistPopCustom.
  rewrite Hc, <- E, length_app. cbn [length]. rewrite (proj2 (Z.eqb_neq _ _)) by lia.
  destruct (seg_last xs) as [->|(ys & a & d & ->)]; [inversion Hn; subst; by destruct l|].
  destruct (nodes_split ys [] a d bss Hn) as (bss1 & bs & bss2 & -> & H1 & Hd & H2). apply Forall2_nil_inv_l in H2 as ->.
  rewrite (tail_snoc _ _ _ _ (s_link _ _ Hs)). rewrite (data_mid q ys [] a d (s_link _ _ Hs)), some_bind.
  pose proof (raw_last _ _ _ _ Hs) as Hr. destruct (node_view d bs Hd Hr) as (zl & pos & Ezl & Hz & He).
  rewrite Ezl, some_bind. destruct (exists_last (no_ne _ _ Hd)) as (bs0 & b & ->).
  rewrite concat_mid, app_assoc, app_nil_r, app_assoc in E. apply app_inj_2 in E as [El [= <-]]; [|done].
  assert (0 < length (bs0 ++ [x]))%nat as Hpos by (rewrite length_app; simpl; lia).
  rewrite (e_index _ _ _ He), nth_last by done. cbn [fmap option_fmap option_map].
  replace (length (bs0 ++ [x]) - 1)%nat with (length bs0) by (rewrite length_app; simpl; lia).
  rewrite some_bind, (e_get _ _ _ He (length bs0) x), !some_bind by (by rewrite list_lookup_middle).
  destruct (del_index_spec q ys a d [] bss1 (bs0 ++ [x]) [] zl pos (length bs0) Hi) as (gone & q' & -> & Hdel & Ecp);
    [done|done|constructor|done|done|done|rewrite length_app; simpl; lia|].
  rewrite some_bind. exists q'. split; [done|]. split; [|done]. apply deleted_list in Hdel; [|rewrite length_app; simpl; lia].
  rewrite El. rewrite delete_middle in Hdel. by rewrite !app_nil_r in Hdel.
Qed.

(** ** Decompressing for use and compressing again *)

Lemma lzf_interior c ys a d zs : 0 ≤ c → enc_ok c (ys ++ (a, d) :: zs) → n_encoding d = LZF → interior c ys zs.
Proof.
  intros Hc [Hh Hl Hs Ho] He. assert (¬ raw d) as N by (unfold raw; rewrite He; done). split; [|split; [|split]].
  - intros E. specialize (Ho E). rewrite fmap_app, fmap_cons, Forall_app, Forall_cons in Ho. by apply N, Ho.
  - intros ->. destruct Hh as (x & [= <-] & ?); [done|]. done.
  - intros ->. apply N. apply (raw_at_last ys (a, d)). apply Hl. by destruct ys.
  - destruct (Z.le_gt_cases (2 * c) (zlen ys + 1 + zlen zs)) as [|Hlt]; [done|]. exfalso. apply N.
    assert (zlen (ys ++ (a, d) :: zs) < 2 * c) as H by (rewrite length_app; simpl; lia).
    specialize (Hs H). rewrite fmap_app, fmap_cons, Forall_app, Forall_cons in Hs. apply Hs.
Qed.

(** What marks say: a marked node that is not compressed is one that was. *)
Lemma use_spec q ys a d zs :
  qshape q (ys ++ (a, d) :: zs) → blocks_ok (ys ++ (a, d) :: zs) →
  ∃ q' d', quicklistDecompressNodeForUse junk q (Some a) = Some q' ∧ qshape q' (ys ++ (a, d') :: zs) ∧
    same_block d d' ∧ raw d' ∧ same_fields q q' ∧
    (d' = d ∨ n_recompress d' = 1 ∧ interior (q_compress q) ys zs).
Proof.
  intros Hs Hb. pose proof (s_enc _ _ Hs) as He. pose proof (s_compress _ _ Hs) as Hc.
  destruct (use_at junk q (ys ++ (a, d) :: zs) (length ys) a d (s_link _ _ Hs) Hb) as (q' & d' & -> & Hch & Hr & Hcase).
  { by rewrite list_lookup_middle. }
  rewrite mid_update in Hch. exists q', d'. split; [done|].
  assert (d' = d ∨ n_recompress d' = 1 ∧ interior (q_compress q) ys zs) as Hcase'.
  { destruct Hcase as [[Hl Hf]|Hd]; [|by left]. right. split; [done|]. eapply lzf_interior; [|done|done]. lia. }
  destruct Hch as [Hl' Hlocs Hdata Hf _ Hdom]. pose proof Hf as [_ E2 _ E4].
  assert (length (ys ++ (a, d') :: zs) = length (ys ++ (a, d) :: zs)) as Elen by (by rewrite !length_app).
  split; [|split].
  - pose proof Hs as Hs0. destruct Hs as [? Hd ? ? ? ?]. split; [done|by rewrite Hdom, Hd, Hlocs|congruence|lia|lia|]. rewrite E4.
    apply (enc_put _ _ _ d); [done|done|]. intros H0. destruct Hcase' as [->|[_ [N _]]]; [|done]. exact (off_plain q ys a d zs Hs0 H0).
  - rewrite !fmap_app, !fmap_cons in Hdata. apply Forall2_app_inv in Hdata as [_ Hd]; [|done].
    by apply Forall2_cons in Hd as [? _].
  - done.
Qed.

Lemma compress_mid q ys a d zs :
  qshape q (ys ++ (a, d) :: zs) → blocks_ok (ys ++ (a, d) :: zs) → interior (q_compress q) ys zs →
  ∃ q' d', quicklistCompressNode junk htab0 q (Some a) = Some q' ∧ qshape q' (ys ++ (a, d') :: zs) ∧
    recode d d' ∧ same_fields q q'.
Proof.
  intros Hs Hb (Hc0 & Ny & Nz & Hcl).
  destruct (compress_at junk htab0 q (ys ++ (a, d) :: zs) (length ys) a d (s_link _ _ Hs) Hb) as (q' & d' & -> & Hch).
  { by rewrite list_lookup_middle. }
  rewrite mid_update in Hch. exists q', d'. split; [done|]. pose proof (ch_data _ _ _ _ _ Hch) as Hdata. split; [|split].
  - eapply recoded_shape; [done|done|]. destruct (s_enc _ _ Hs) as [Hh Hl _ _]. split.
    + intros _. apply raw_head_app; [done|]. apply (raw_head_app ys (a, d)); [done|]. apply Hh. by destruct ys.
    + intros _. apply raw_last_cons; [done|]. apply (raw_last_cons ys (a, d)); [done|]. apply Hl. by destruct ys.
    + rewrite length_app. cbn [length]. lia.
    + done.
  - rewrite !fmap_app, !fmap_cons in Hdata. apply Forall2_app_inv in Hdata as [_ Hd]; [|done].
    by apply Forall2_cons in Hd as [? _].
  - apply Hch.
Qed.

Lemma moved_refl xs : moved xs xs.
Proof. unfold moved. apply Forall2_same_length_lookup. split; [done|]. intros i x y Hx Hy. assert (x = y) as -> by congruence. done. Qed.

Lemma moved_mid ys a d d' zs : recode d d' → moved (ys ++ (a, d) :: zs) (ys ++ (a, d') :: zs).
Proof. intros H. apply Forall2_app; [apply moved_refl|]. constructor; [done|apply moved_refl]. Qed.

(** [quicklistCompress] after the use of a node. *)
Lemma compress_after q ys a d zs :
  qshape q (ys ++ (a, d) :: zs) → blocks_ok (ys ++ (a, d) :: zs) →
  (n_recompress d ≠ 0 → interior (q_compress q) ys zs) →
  ∃ q' xs', quicklistCompress junk htab0 q a = Some q' ∧ qshape q' xs' ∧ moved (ys ++ (a, d) :: zs) xs' ∧ same_fields q q'.
Proof.
  intros Hs Hb Hi. unfold quicklistCompress. rewrite (data_mid _ _ _ _ _ (s_link _ _ Hs)), some_bind.
  destruct (Z.eqb_spec (n_recompress d) 0) as [E|N]; cbn [negb].
  - destruct (compress_spec junk htab0 q (ys ++ (a, d) :: zs) (Some a) (s_link _ _ Hs) Hb) as (q' & xs' & -> & Hch & Hpost).
    { apply Hs. }
    { rewrite (s_len _ _ Hs). lia. }
    { exists (length ys). by rewrite list_lookup_fmap, list_lookup_middle. }
    exists q', xs'. split; [done|]. split; [|split; [|apply Hch]].
    + eapply recoded_shape; [done|done|]. case_decide as Hcase; [destruct Hpost as [_ ->]; apply Hs|].
      destruct Hpost as (R0 & Rn & Rall). rewrite <- (changed_length _ _ _ _ _ Hch) in Rn, Rall.
      split; [done|done| |lia]. intros Hlt. apply raw_all. by apply Rall.
    + apply moved_intro; apply Hch.
  - destruct (compress_mid q ys a d zs Hs Hb (Hi N)) as (q' & d' & -> & Hs' & Hr & Hf).
    exists q', (ys ++ (a, d') :: zs). split; [done|]. split; [done|]. split; [by apply moved_mid|done].
Qed.

Lemma recompress_after q ys a d zs :
  qshape q (ys ++ (a, d) :: zs) → blocks_ok (ys ++ (a, d) :: zs) →
  (n_recompress d ≠ 0 → interior (q_compress q) ys zs) →
  ∃ q' d', quicklistRecompressOnly junk htab0 q a = Some q' ∧ qshape q' (ys ++ (a, d') :: zs) ∧ recode d d' ∧ same_fields q q'.
Proof.
  intros Hs Hb Hi. unfold quicklistRecompressOnly. rewrite (data_mid _ _ _ _ _ (s_link _ _ Hs)), some_bind.
  destruct (Z.eqb_spec (n_recompress d) 0) as [E|N]; cbn [negb]; [by exists q, d|].
  destruct (compress_mid q ys a d zs Hs Hb (Hi N)) as (q' & d' & -> & Hs' & Hr & Hf). by exists q', d'.
Qed.

(** ** Access by index *)

(** The node [a], with the strings [bs], and what is around it. *)
Record split_here (xs : list (loc * qdata)) (bss : list (list (list Z))) (ys : list (loc * qdata)) (a : loc) (d : qdata)
    (zs : list (loc * qdata)) (bss1 : list (list (list Z))) (bs : list (list Z)) (bss2 : list (list (list Z))) : Prop := {
  h_xs : xs = ys ++ (a, d) :: zs;
  h_bss : bss = bss1 ++ bs :: bss2;
  h_left : Forall2 node_ok ys.*2 bss1;
  h_node : node_ok d bs;
  h_right : Forall2 node_ok zs.*2 bss2
}.

Lemma nodes_size q xs : qshape q xs → size (q_nodes q) = length xs.
Proof.
  intros Hs. rewrite <- size_dom, (s_dom _ _ Hs), size_list_to_set, length_fmap; [done|]. apply Hs.
Qed.

Lemma qindex_fwd q xs index : ∀ zs fuel ys bss1 bss2,
  linkage q xs → xs = ys ++ zs → Forall2 node_ok ys.*2 bss1 → Forall2 node_ok zs.*2 bss2 → (length zs ≤ fuel)%nat →
  zlen (concat bss1) ≤ index < zlen (concat bss1) + zlen (concat bss2) →
  zlen (concat bss1) + zlen (concat bss2) < 2 ^ 32 →
  ∃ ys' a d zs' b1 bs b2, split_here xs (bss1 ++ bss2) ys' a d zs' b1 bs b2 ∧
    index_nodes fuel q true (first zs None) (zlen (concat bss1)) index = Some (Some a, zlen (concat b1)) ∧
    zlen (concat b1) ≤ index < zlen (concat b1) + zlen bs.
Proof.
  induction zs as [|[a d] zs IH]; intros fuel ys bss1 bss2 Hl E H1 H2 Hfuel Hi Hb.
  { inversion H2; subst. cbn in Hi. lia. }
  apply Forall2_cons_inv_l in H2 as (bs & bss2' & Hd & H2 & ->). cbn [snd] in Hd.
  cbn [concat] in Hi, Hb. rewrite length_app in Hi, Hb. destruct fuel as [|fuel]; [simpl in Hfuel; lia|].
  cbn [first index_nodes]. subst xs. rewrite (node_mid _ _ _ _ _ Hl), some_bind. cbn [value next].
  rewrite (no_count _ _ Hd). unfold u64. rewrite wrapu_id by (unfold in_u; pow2; lia).
  destruct (Z.gtb_spec (zlen (concat bss1) + zlen bs) index) as [Hgt|Hle].
  - exists ys, a, d, zs, bss1, bs, bss2'. split; [by split|]. split; [done|]. lia.
  - edestruct (IH fuel (ys ++ [(a, d)]) (bss1 ++ [bs]) bss2') as (ys' & a' & d' & zs' & b1 & b & b2 & Hsp & Hrun & Hin);
      [exact Hl|by rewrite <- app_assoc| |exact H2|simpl in Hfuel; lia| | |].
    + rewrite fmap_app. apply Forall2_app; [done|]. constructor; [done|constructor].
    + rewrite concat_app, length_app. cbn. rewrite app_nil_r. lia.
    + rewrite concat_app, length_app. cbn. rewrite app_nil_r. lia.
    + rewrite concat_app, length_app in Hrun. cbn [concat] in Hrun. rewrite app_nil_r, Nat2Z.inj_add in Hrun. rewrite Hrun.
      rewrite <- app_assoc in Hsp. eexists _, _, _, _, _, _, _. split; [exact Hsp|]. done.
Qed.

Lemma qindex_bwd q xs index : ∀ ys fuel zs bss1 bss2,
  linkage q xs → xs = ys ++ zs → Forall2 node_ok ys.*2 bss1 → Forall2 node_ok zs.*2 bss2 → (length ys ≤ fuel)%nat →
  zlen (concat bss2) ≤ index < zlen (concat bss1) + zlen (concat bss2) →
  zlen (concat bss1) + zlen (concat bss2) < 2 ^ 32 →
  ∃ ys' a d zs' b1 bs b2, split_here xs (bss1 ++ bss2) ys' a d zs' b1 bs b2 ∧
    index_nodes fuel q false (final None ys) (zlen (concat bss2)) index = Some (Some a, zlen (concat b2)) ∧
    zlen (concat b2) ≤ index < zlen (concat b2) + zlen bs.
Proof.
  induction ys as [|[a d] ys IH] using rev_ind; intros fuel zs bss1 bss2 Hl E H1 H2 Hfuel Hi Hb.
  { inversion H1; subst. cbn in Hi. lia. }
  rewrite fmap_app in H1. apply Forall2_app_inv_l in H1 as (bss1' & bl & H1 & Hr & ->).
  apply Forall2_cons_inv_l in Hr as (bs & bl' & Hd & Hnil & ->). apply Forall2_nil_inv_l in Hnil as ->. cbn [snd] in Hd.
  rewrite concat_app, length_app in Hi, Hb. cbn [concat] in Hi, Hb. rewrite app_nil_r in Hi, Hb.
  rewrite length_app in Hfuel. destruct fuel as [|fuel]; [simpl in Hfuel; lia|].
  rewrite final_app. cbn [final index_nodes]. subst xs. pose proof Hl as Hl'. rewrite <- app_assoc in Hl'. cbn [app] in Hl'.
  rewrite (node_mid _ _ _ _ _ Hl'), some_bind. cbn [value prev].
  rewrite (no_count _ _ Hd). unfold u64. rewrite wrapu_id by (unfold in_u; pow2; lia).
  destruct (Z.gtb_spec (zlen (concat bss2) + zlen bs) index) as [Hgt|Hle].
  - exists ys, a, d, zs, bss1', bs, bss2. split; [split; try done; by rewrite <- app_assoc|]. split; [done|]. lia.
  - edestruct (IH fuel ((a, d) :: zs) bss1' (bs :: bss2)) as (ys' & a' & d' & zs' & b1 & b & b2 & Hsp & Hrun & Hin);
      [exact Hl|by rewrite <- app_assoc|exact H1|by constructor|simpl in Hfuel; lia| | |].
    + cbn [concat]. rewrite length_app. lia.
    + cbn [concat]. rewrite length_app. lia.
    + cbn [concat] in Hrun. rewrite length_app, Nat2Z.inj_add, Z.add_comm in Hrun. rewrite Hrun.
      rewrite <- (app_assoc bss1'). eexists _, _, _, _, _, _, _. split; [exact Hsp|]. done.
Qed.

Lemma concat_lookup {A} (bss1 bss2 : list (list A)) bs K :
  (length (concat bss1) ≤ K < length (concat bss1) + length bs)%nat →
  concat (bss1 ++ bs :: bss2) !! K = bs !! (K - length (concat bss1))%nat.
Proof.
  intros H. rewrite concat_mid, lookup_app_r by lia. rewrite lookup_app_l by lia. done.
Qed.

(** The entry that [quicklistIndex] returns for the position [K]. *)
Record found (q : quicklist) (idx : Z) (K : nat) (xs : list (loc * qdata)) (bss : list (list (list Z)))
    (q' : quicklist) (e : quicklistEntry)
    (ys : list (loc * qdata)) (a : loc) (d : qdata) (zs : list (loc * qdata))
    (bss1 : list (list (list Z))) (bs : list (list Z)) (bss2 : list (list (list Z))) (k : nat) : Prop := {
  f_inv : qinv q' (ys ++ (a, d) :: zs) bss;
  f_locs : (ys ++ (a, d) :: zs).*1 = xs.*1;
  f_split : split_here (ys ++ (a, d) :: zs) bss ys a d zs bss1 bs bss2;
  f_raw : raw d;
  f_fields : same_fields q q';
  f_pos : (K = length (concat bss1) + k)%nat;
  f_lt : (k < length bs)%nat;
  f_node : qe_node e = Some a;
  f_zi : ∃ zl pos, n_zl d = Some zl ∧ zip zl bs ∧ entries zl bs pos ∧ qe_zi e = Some (pos k);
  f_value : qe_value e = content_of <$> concat bss !! K;
  f_offset : qe_offset e = if idx <? 0 then Z.of_nat k - zlen bs else Z.of_nat k;
  f_others : ∀ x, x ∈ (ys ++ zs) → x ∈ xs;
  f_mark : n_recompress d ≠ 0 → interior (q_compress q) ys zs ∨ (a, d) ∈ xs
}.

Lemma node_changed q q' ys a d d' zs bss1 bs bss2 :
  qinv q (ys ++ (a, d) :: zs) (bss1 ++ bs :: bss2) → qshape q' (ys ++ (a, d') :: zs) → same_fields q q' →
  Forall2 node_ok ys.*2 bss1 → node_ok d' bs → Forall2 node_ok zs.*2 bss2 →
  qinv q' (ys ++ (a, d') :: zs) (bss1 ++ bs :: bss2).
Proof.
  intros [Hs Hn Hc Hb Hf] Hs' [E1 _ E3 _] H1 Hd H2. eapply qinv_node; [done|done|done|done|exact E1|done|lia|by rewrite E3].
Qed.

Lemma index_spec q xs bss idx K :
  qinv q xs bss → in_s 64 idx → nth_of (length (concat bss)) idx = Some K →
  ∃ q' e ys a d zs bss1 bs bss2 k, quicklistIndex junk q idx = Some (true, e, q') ∧
    found q idx K xs bss q' e ys a d zs bss1 bs bss2 k.
Proof.
  clear htab0. intros Hi Hidx HK. pose proof Hi as [Hs Hn Hc Hb Hf]. pose proof (s_link _ _ Hs) as Hl. unfold quicklistIndex.
  set (n := length (concat bss)) in *.
  assert (Z.of_nat K = (if idx <? 0 then Z.of_nat n + idx else idx) ∧ (K < n)%nat) as [EK HKn].
  { unfold nth_of in HK. case_decide; [|case_decide; [|done]]; injection HK as <-; destruct (Z.ltb_spec idx 0); lia. }
  set (index := if negb (idx <? 0) then idx else u64 (- idx - 1)).
  assert (index = (if idx <? 0 then - idx - 1 else idx)) as Eidx.
  { unfold index. destruct (Z.ltb_spec idx 0) as [Hneg|]; cbn; [|done]. unfold u64. apply wrapu_id. unfold in_u.
    unfold in_s in Hidx. pow2. lia. }
  clearbody index.
  assert (0 ≤ index < Z.of_nat n) as Hir by (rewrite Eidx; destruct (Z.ltb_spec idx 0); lia).
  rewrite Hc. fold n. rewrite Z.geb_leb, (proj2 (Z.leb_gt _ _)) by lia.
  assert (∃ ys a d zs b1 bs b2 acc, split_here xs bss ys a d zs b1 bs b2 ∧
    index_nodes (size (q_nodes q)) q (negb (idx <? 0)) (if negb (idx <? 0) then q_head q else q_tail q) 0 index = Some (Some a, acc) ∧
    acc = (if idx <? 0 then zlen (concat b2) else zlen (concat b1)) ∧ acc ≤ index < acc + zlen bs)
    as (ys & a & d & zs & b1 & bs & b2 & acc & Hsp & -> & Eacc & Hacc).
  { rewrite (nodes_size _ _ Hs), (l_head _ _ Hl), (l_tail _ _ Hl). destruct (idx <? 0); cbn [negb].
    - destruct (qindex_bwd q xs index xs (length xs) [] bss []) as (ys & a & d & zs & b1 & bs & b2 & Hsp & Hrun & Hr);
        [done|by rewrite app_nil_r|done|by apply Forall2_nil|lia|cbn [concat length]; fold n; lia|cbn [concat length]; fold n; lia|].
      rewrite app_nil_r in Hsp. eexists ys, a, d, zs, b1, bs, b2, _. split; [done|]. split; [exact Hrun|]. done.
    - destruct (qindex_fwd q xs index xs (length xs) [] [] bss) as (ys & a & d & zs & b1 & bs & b2 & Hsp & Hrun & Hr);
        [done|done|by apply Forall2_nil|done|lia|cbn [concat length]; fold n; lia|cbn [concat length]; fold n; lia|].
      eexists ys, a, d, zs, b1, bs, b2, _. split; [done|]. split; [exact Hrun|]. done. }
  rewrite some_bind. cbv beta iota. destruct Hsp as [-> -> H1 Hd H2].
  assert (n = length (concat b1) + length bs + length (concat b2))%nat as En.
  { unfold n. rewrite concat_mid, !length_app. lia. }
  pose proof (no_small _ _ Hd) as Hsm.
  set (k := (K - length (concat b1))%nat).
  assert (K = (length (concat b1) + k)%nat ∧ (k < length bs)%nat) as [EKk Hk].
  { unfold k. rewrite Eacc, Eidx in Hacc. destruct (Z.ltb_spec idx 0); lia. }
  assert (s32 (if negb (idx <? 0) then index - acc else - index - 1 + acc) =
          (if idx <? 0 then Z.of_nat k - zlen bs else Z.of_nat k)) as Eoff.
  { rewrite Eacc, Eidx. unfold s32. rewrite wraps_id; [|lia|]; destruct (Z.ltb_spec idx 0); cbn [negb]; unfold in_s; pow2; lia. }
  rewrite Eoff.
  destruct (use_spec q ys a d zs Hs) as (q' & d' & -> & Hs' & Hsb & Hr & Hsf & Hmark).
  { by eapply nodes_blocks. }
  rewrite some_bind, (data_mid _ _ _ _ _ (s_link _ _ Hs')), some_bind.
  assert (node_ok d' bs) as Hd' by by eapply node_recode.
  destruct (node_view d' bs Hd' Hr) as (zl & pos & Ezl & Hz & He). rewrite Ezl, some_bind.
  assert (nth_of (length bs) (if idx <? 0 then Z.of_nat k - zlen bs else Z.of_nat k) = Some k) as Enth.
  { unfold nth_of. destruct (Z.ltb_spec idx 0).
    - rewrite decide_False, decide_True by lia. f_equal. lia.
    - rewrite decide_True by lia. f_equal. lia. }
  rewrite (e_index _ _ _ He) by (destruct (idx <? 0); unfold in_s; pow2; lia). rewrite Enth. cbn [fmap option_fmap option_map].
  rewrite some_bind. destruct (lookup_lt_is_Some_2 bs k Hk) as [x Hx]. rewrite (e_get _ _ _ He k x Hx), some_bind.
  eexists q', _, ys, a, d', zs, b1, bs, b2, k. split; [done|]. split; try done.
  - by eapply node_changed.
  - by rewrite !fmap_app.
  - cbn. by exists zl, pos.
  - cbn. rewrite concat_lookup by lia. replace (K - length (concat b1))%nat with k by lia. by rewrite Hx.
  - intros y. rewrite !elem_of_app, elem_of_cons. tauto.
  - intros Hm. destruct Hmark as [->|[_ Hint]]; [|by left]. right. rewrite elem_of_app, elem_of_cons. auto.
Qed.

Lemma index_none q xs bss idx :
  qinv q xs bss → in_s 64 idx → nth_of (length (concat bss)) idx = None → quicklistIndex junk q idx = Some (false, initEntry, q).
Proof.
  intros [Hs Hn Hc Hb Hf] Hidx HK. unfold quicklistIndex. rewrite Hc.
  assert (((if negb (idx <? 0) then idx else u64 (- idx - 1)) >=? zlen (concat bss)) = true) as ->; [|done].
  unfold nth_of in HK. case_decide; [done|]. case_decide; [done|]. rewrite Z.geb_leb. apply Z.leb_le.
  destruct (Z.ltb_spec idx 0); cbn [negb]; [|lia]. unfold u64. rewrite wrapu_id; [lia|]. unfold in_u, in_s in *. pow2. lia.
Qed.

Lemma unmarked_at xs a d : unmarked xs → (a, d) ∈ xs → n_recompress d = 0.
Proof. unfold unmarked. rewrite Forall_fmap, Forall_forall. intros H Hin. apply (H _ Hin). Qed.

Lemma total_size_part xs ys zs : total_size ys ≤ total_size (xs ++ ys ++ zs).
Proof. rewrite !total_size_app. pose proof (total_size_pos xs). pose proof (total_size_pos zs). lia. Qed.

Lemma insert_concat {A} (b1 b2 : list (list A)) bs k x :
  (k < length bs)%nat →
  <[(length (concat b1) + k)%nat := x]> (concat (b1 ++ bs :: b2)) = concat (b1 ++ <[k := x]> bs :: b2).
Proof.
  intros Hk. rewrite !concat_mid, insert_app_r. f_equal. by rewrite insert_app_l.
Qed.

(** ** Replacing *)
Lemma replace_spec q l idx K v :
  qlist q l → calm q → in_s 64 idx → nth_of (length l) idx = Some K → bytes_ok v →
  total_size (<[K := v]> l) < 2 ^ 31 →
  ∃ q', quicklistReplaceAtIndex junk htab0 q idx v = Some (true, q') ∧ qlist q' (<[K := v]> l).
Proof.
  intros (xs & bss & Hi & ->) Hcalm Hidx HK Hv Hts. pose proof (s_link _ _ (v_shape _ _ _ Hi)) as Hl0.
  pose proof (calm_unmarked _ _ Hl0 Hcalm) as Hum.
  destruct (index_spec q xs bss idx K Hi Hidx HK) as (q1 & e & ys & a & d & zs & b1 & bs & b2 & k & Hrun & F).
  unfold quicklistReplaceAtIndex. rewrite Hrun, some_bind. cbv beta iota. clear Hrun.
  destruct F as [Hi1 _ [_ -> H1 Hd H2] Hr Hsf -> Hk -> (zl & pos & Ezl & Hz & He & ->) _ _ Hoth Hm].
  pose proof Hi1 as [Hs1 _ Hc1 Hb1 Hf1]. rewrite !some_bind, (data_mid _ _ _ _ _ (s_link _ _ Hs1)), some_bind, Ezl, some_bind.
  rewrite insert_concat in Hts |- * by done.
  assert (total_size (<[k := v]> bs) < 2 ^ 31) as Hts'.
  { rewrite concat_mid in Hts. pose proof (total_size_part (concat b1) (<[k := v]> bs) (concat b2)). lia. }
  destruct (e_replace _ _ _ He junk k v Hk (fits_node _ _ Hd)) as (zl1 & zl2 & -> & Hins & Hz2); [unfold fits; lia|].
  rewrite some_bind. cbv beta iota. rewrite Hins, some_bind, (update_sz _ zl2 _ Hz2), some_bind by done.
  set (d2 := set_sz _ _).
  destruct (put_shape q1 ys a d zs d2 Hs1) as (q2 & -> & Hs2 & [F1 F2 F3 F4]);
    [done|intros H0; by apply (plain_like d); [eapply off_plain|..]|]. rewrite some_bind.
  assert (node_ok d2 (<[k := v]> bs)) as Hd2.
  { destruct Hd as [(Hby & _ & _) Hne Hcd Hsm _]. split; [|..].
    - split; [by apply Forall_insert|]. split; [unfold fits; lia|]. exists zl2. split; [done|]. split; [done|]. by left.
    - intros E. apply (f_equal length) in E. rewrite length_insert in E. simpl in E. lia.
    - rewrite length_insert. done.
    - by rewrite length_insert.
    - done. }
  destruct (compress_after q2 ys a d2 zs Hs2) as (q3 & xs3 & -> & Hs3 & Hmv & [G1 G2 G3 G4]).
  { eapply blocks_app_cons; [done|done|]. eexists. apply Hd2. }
  { intros N. rewrite F4, (sf_compress _ _ Hsf). destruct Hm as [?|Hin]; [done|done|]. destruct N. by apply (unmarked_at xs a d Hum). }
  rewrite some_bind. exists q3. split; [done|]. exists xs3, (b1 ++ <[k := v]> bs :: b2). split; [|done].
  split; [done| | | |].
  - eapply moved_nodes; [done|]. rewrite fmap_app, fmap_cons. apply Forall2_app; [done|]. by constructor.
  - rewrite G1, F1, Hc1, !concat_mid, !length_app, length_insert. done.
  - rewrite concat_mid, !length_app, length_insert. rewrite concat_mid, !length_app in Hb1. done.
  - by rewrite G3, F3.
Qed.

Lemma replace_none q l idx v :
  qlist q l → in_s 64 idx → nth_of (length l) idx = None → quicklistReplaceAtIndex junk htab0 q idx v = Some (false, q).
Proof.
  intros (xs & bss & Hi & ->) Hidx HK. unfold quicklistReplaceAtIndex. by rewrite (index_none q xs bss idx Hi Hidx HK).
Qed.
End ops.
