(* ===== verification/QuickRange.v ===== *)
(** * Quick lists: deletion of a range

    [quicklistDelRange] on the list of strings: the nodes it goes through,
    what it deletes of each, and the ranges it counts right. *)

From S2P Require Import Prelude Decimal Util Adlist Lzf Zipenc Ziplist ZipRead ZipView Quicklist QuickNodes QuickOps.

#[local] Set Default Proof Using "Type".

Section ranges.
Context (junk : nat → Z) (htab0 : Z → Z).

Lemma moved_app_inv ys zs xs' : moved (ys ++ zs) xs' → ∃ ys' zs', xs' = ys' ++ zs' ∧ moved ys ys' ∧ moved zs zs'.
Proof. intros (ys' & zs' & H1 & H2 & ->)%Forall2_app_inv_l. by exists ys', zs'. Qed.

Lemma moved_first ys ys' : moved ys ys' → first ys' None = first ys None.
Proof. intros H. destruct H as [|[a d] [a' d'] ? ? [E _] _]; [done|]. cbn in *. congruence. Qed.

Lemma moved_unmarked xs xs' : moved xs xs' → unmarked xs → unmarked xs'.
Proof.
  unfold unmarked. induction 1 as [|x y xs xs' [_ [_ Hf]] _ IH]; [done|]. rewrite !fmap_cons.
  intros [H1 H2]%Forall_cons. constructor; [|by apply IH]. destruct Hf as [-> | ->]; done.
Qed.

(** The strings that stay in front of the next node after a round. *)
Record round_done (q : quicklist) (ys zs : list (loc * qdata)) (b1 b2 : list (list (list Z)))
    (kept : list (list Z)) (q' : quicklist) (ys' zs' : list (loc * qdata)) (b1' : list (list (list Z))) : Prop := {
  rr_inv : qinv q' (ys' ++ zs') (b1' ++ b2);
  rr_left : Forall2 node_ok ys'.*2 b1';
  rr_right : Forall2 node_ok zs'.*2 b2;
  rr_moved : moved zs zs';
  rr_list : concat b1' = concat b1 ++ kept
}.

Lemma total_size_cut k del bs : total_size (take k bs ++ drop (k + del) bs) ≤ total_size bs.
Proof.
  rewrite <- (take_drop k bs) at 3. rewrite !total_size_app. rewrite <- drop_drop.
  rewrite <- (take_drop del (drop k bs)) at 2. rewrite total_size_app. pose proof (total_size_pos (take del (drop k bs))). lia.
Qed.

Lemma round_spec q ys a d zs b1 bs b2 k o del (entire : bool) :
  qinv q (ys ++ (a, d) :: zs) (b1 ++ bs :: b2) → Forall2 node_ok ys.*2 b1 → node_ok d bs → Forall2 node_ok zs.*2 b2 →
  (n_recompress d ≠ 0 → interior (q_compress q) ys zs) → (k < length bs)%nat →
  (o = Z.of_nat k ∨ o = Z.of_nat k - zlen bs) → 0 < del ≤ zlen bs - Z.of_nat k → (entire = true → k = 0%nat ∧ del = zlen bs) →
  ∃ q' ys' zs' b1', range_node junk htab0 q a o del entire = Some q' ∧
    round_done q ys zs b1 b2 (take k bs ++ drop (k + Z.to_nat del) bs) q' ys' zs' b1'.
Proof.
  intros Hi H1 Hd H2 Hm Hk Ho Hdel Hent. pose proof Hi as [Hs Hn Hc Hb Hf].
  assert (blocks_ok (ys ++ zs)) as Hbl.
  { apply (nodes_blocks _ (b1 ++ b2)). rewrite fmap_app. by apply Forall2_app. }
  rewrite concat_mid, !length_app in Hc, Hb. unfold range_node. destruct entire.
  - destruct (Hent eq_refl) as [-> Edel]. cbn [take]. rewrite drop_ge by lia.
    destruct (del_node_spec junk htab0 q ys a d zs Hs Hbl) as (q' & xs' & -> & Hs' & Hmv & Ec & Ef & _).
    destruct (moved_app_inv _ _ _ Hmv) as (ys' & zs' & -> & My & Mz). exists q', ys', zs', b1. split; [done|].
    assert (Forall2 node_ok ys'.*2 b1 ∧ Forall2 node_ok zs'.*2 b2) as [H1' H2'] by (split; by eapply moved_nodes).
    split; [|done|done|done|by rewrite app_nil_r].
    split; [done|rewrite fmap_app; by apply Forall2_app| | |by rewrite Ef].
    + rewrite Ec, Hc, (no_count _ _ Hd), concat_app, length_app. unfold u64. rewrite wrapu_id; [lia|]. unfold in_u. pow2. lia.
    + rewrite concat_app, length_app. lia.
  - destruct (use_spec junk q ys a d zs Hs) as (q1 & d1 & -> & Hs1 & Hsb & Hr & [E1 E2 E3 E4] & Hmark).
    { eapply blocks_app_cons; [done|done|]. eexists. apply Hd. }
    rewrite some_bind, (data_mid _ _ _ _ _ (s_link _ _ Hs1)), some_bind.
    assert (node_ok d1 bs) as Hd1 by by eapply node_recode.
    destruct (node_view d1 bs Hd1 Hr) as (zl & pos & Ezl & Hz & He). rewrite Ezl, some_bind.
    pose proof (no_small _ _ Hd) as Hsm. assert (u32 del = del) as -> by (unfold u32; apply wrapu_id; unfold in_u; pow2; lia).
    destruct (delete_range_view junk zl bs o del Hz (fits_node _ _ Hd1)) as (zl' & -> & Hz'); [unfold in_s; pow2; lia|lia|].
    assert (nth_of (length bs) o = Some k) as Enth.
    { unfold nth_of. destruct Ho as [-> | ->]; [rewrite decide_True by lia; f_equal; lia|].
      rewrite decide_False, decide_True by lia. f_equal. lia. }
    rewrite Enth in Hz'. set (kept := take k bs ++ drop (k + Z.to_nat del) bs) in *.
    assert (zlen kept = zlen bs - del) as Hkl.
    { unfold kept. rewrite length_app, length_take, length_drop. lia. }
    rewrite some_bind, (update_sz _ zl' _ Hz'), some_bind by done. cbn [n_count set_sz set_zl].
    rewrite (no_count _ _ Hd1). set (d2 := set_ncount _ _).
    assert (n_count d2 = zlen kept) as Hc2.
    { unfold d2. cbn. unfold u16. rewrite wrapu_id; [lia|]. unfold in_u. lia. }
    destruct (put_shape q1 ys a d1 zs d2 Hs1) as (q2 & -> & Hs2 & [F1 F2 F3 F4]);
      [done|intros H0; by apply (plain_like d1); [eapply off_plain|..]|]. rewrite some_bind.
    pose proof (shape_count _ _ (q_count q2 - del) Hs2) as Hs2'. set (q2' := set_qcount _ q2) in *.
    assert (q_count q2' = zlen (concat b1) + zlen kept + zlen (concat b2)) as Hc2'.
    { unfold q2'. rewrite set_count_val; rewrite F1, E1, Hc; lia. }
    unfold quicklistDeleteIfEmpty. rewrite (data_mid _ _ _ _ _ (s_link _ _ Hs2')), some_bind, Hc2.
    destruct (Z.eqb_spec (zlen kept) 0) as [Ek|Nk].
    + destruct (del_node_spec junk htab0 q2' ys a d2 zs Hs2' Hbl) as (q' & xs' & -> & Hs' & Hmv & Ec & Ef & _).
      rewrite !some_bind. cbv beta iota. destruct (moved_app_inv _ _ _ Hmv) as (ys' & zs' & -> & My & Mz).
      exists q', ys', zs', b1. split; [done|].
      assert (Forall2 node_ok ys'.*2 b1 ∧ Forall2 node_ok zs'.*2 b2) as [H1' H2'] by (split; by eapply moved_nodes).
      assert (kept = []) as Ekn by (destruct kept; [done|simpl in Ek; lia]).
      split; [|done|done|done|by rewrite Ekn, app_nil_r].
      split; [done|rewrite fmap_app; by apply Forall2_app| | |].
      * rewrite Ec, Hc2', Hc2, Ek, concat_app, length_app. unfold u64. rewrite wrapu_id; [lia|]. unfold in_u. pow2. lia.
      * rewrite concat_app, length_app. lia.
      * rewrite Ef. cbn. by rewrite F3, E3.
    + assert (node_ok d2 kept) as Hd2.
      { destruct Hd1 as [(Hby & _ & _) _ _ _ Hts]. pose proof (total_size_cut k (Z.to_nat del) bs) as Hcut. fold kept in Hcut.
        assert (Forall bytes_ok kept) as Hbk by (apply Forall_app; split; [by apply Forall_take|by apply Forall_drop]).
        split; [|..].
        - split; [done|]. split; [unfold fits; lia|]. exists zl'. split; [done|]. split; [done|]. by left.
        - intros E. rewrite E in Nk. done.
        - done.
        - lia.
        - lia. }
      rewrite some_bind. cbv beta iota.
      destruct (recompress_after junk htab0 q2' ys a d2 zs Hs2') as (q3 & d3 & -> & Hs3 & [Hrc _] & [G1 G2 G3 G4]).
      { eapply blocks_app_cons; [done|done|]. eexists. apply Hd2. }
      { intros N. cbn. rewrite F4, E4. destruct Hmark as [->|[_ ?]]; [by apply Hm|done]. }
      exists q3, (ys ++ [(a, d3)]), zs, (b1 ++ [kept]). split; [done|].
      assert (node_ok d3 kept) as Hd3 by by eapply node_recode.
      assert (Forall2 node_ok (ys ++ [(a, d3)]).*2 (b1 ++ [kept])) as Hl3.
      { rewrite fmap_app. apply Forall2_app; [done|]. by apply Forall2_cons; split; [|apply Forall2_nil]. }
      split; [|done|done|apply moved_refl|rewrite concat_app; cbn; by rewrite app_nil_r].
      rewrite <- !app_assoc. cbn [app]. eapply qinv_node; [done|done|done|done|exact G1| | |rewrite G3; cbn; by rewrite F3, E3].
      * rewrite Hc2', concat_mid, !length_app. lia.
      * rewrite Hc2'. lia.
Qed.

(** A round takes all that it can, unless the range ends in the next node although
    it is shorter than this one: then [range_step] takes more than there is. *)
Definition range_fits (o e : Z) (k n : nat) : Prop :=
  o < 0 ∨ k = 0%nat ∨ Z.of_nat n ≤ e ∨ Z.of_nat k + e ≤ Z.of_nat n.

Lemma range_step_spec o e k n :
  (k < n)%nat → (o = Z.of_nat k ∨ o = Z.of_nat k - Z.of_nat n) → 0 < e → range_fits o e k n →
  ∃ entire, range_step o e (Z.of_nat n) = (Z.min e (Z.of_nat n - Z.of_nat k), entire) ∧
    (entire = true → k = 0%nat ∧ Z.min e (Z.of_nat n - Z.of_nat k) = Z.of_nat n).
Proof.
  intros Hk Ho He Hfit. unfold range_step, range_fits in *.
  destruct (Z.eqb_spec o 0), (Z.geb_spec e (Z.of_nat n)), (Z.geb_spec o 0), (Z.ltb_spec o 0); cbn [andb];
    try (destruct (Z.gtb_spec (- o) e)); eexists; (split; [f_equal; lia|intros Hent; first [done|lia]]).
Qed.

Lemma delrange_loop_spec n : ∀ zs fuel q ys a d b1 bs b2 k o e,
  length zs = n →
  qinv q (ys ++ (a, d) :: zs) (b1 ++ bs :: b2) → Forall2 node_ok ys.*2 b1 → node_ok d bs → Forall2 node_ok zs.*2 b2 →
  (n_recompress d ≠ 0 → interior (q_compress q) ys zs) → unmarked zs → (length zs < fuel)%nat → (k < length bs)%nat →
  (o = Z.of_nat k ∨ o = Z.of_nat k - zlen bs) → 0 < e ≤ zlen bs - Z.of_nat k + zlen (concat b2) →
  range_fits o e k (length bs) →
  ∃ q', delrange_loop junk htab0 fuel q (Some a) o e = Some q' ∧
    qlist q' (concat b1 ++ take k bs ++ drop (k + Z.to_nat e) (bs ++ concat b2)).
Proof.
  induction n as [|n IH]; intros zs fuel q ys a d b1 bs b2 k o e Hn Hi H1 Hd H2 Hm Hum Hfuel Hk Ho He Hfit.
  all: destruct zs as [|[a2 d2] zs]; [try done|try done].
  all: destruct fuel as [|fuel]; [simpl in Hfuel; lia|]; cbn [delrange_loop];
    rewrite (proj2 (Z.eqb_neq e 0)), some_bind by lia;
    rewrite (node_mid _ _ _ _ _ (s_link _ _ (v_shape _ _ _ Hi))), some_bind; cbn [value next];
    rewrite (no_count _ _ Hd).
  all: destruct (range_step_spec o e k (length bs) Hk Ho ltac:(lia) Hfit) as (entire & -> & Hent);
    set (del := Z.min e (zlen bs - Z.of_nat k)) in *; cbv iota beta.
  all: edestruct (round_spec q ys a d _ b1 bs b2 k o del entire Hi H1 Hd H2 Hm Hk Ho) as (q1 & ys1 & zs1 & b1' & -> & R);
    [lia|done|]; rewrite some_bind; destruct R as [Hi1 H1' H2' Hmv El].
  all: assert (0 ≤ e - del < 2 ^ 32) as Hed by (pose proof (v_bound _ _ _ Hi) as Hb; rewrite concat_mid, !length_app in Hb; lia);
    assert (u64 (e - del) = e - del) as -> by (unfold u64; apply wrapu_id; unfold in_u; pow2; lia).
  - apply Forall2_nil_inv_l in H2 as ->. cbn [concat length] in *. rewrite app_nil_r.
    assert (e - del = 0) as -> by lia. exists q1. split; [by destruct fuel|].
    eexists _, _. split; [exact Hi1|]. rewrite app_nil_r, El. replace (Z.to_nat e) with (Z.to_nat del) by lia. done.
  - destruct (Z.eq_dec (e - del) 0) as [Ez|Nz].
    + exists q1. rewrite Ez. split; [by destruct fuel|]. eexists _, _. split; [exact Hi1|].
      rewrite concat_app, El, <- !app_assoc. do 2 f_equal. replace (Z.to_nat e) with (Z.to_nat del) by lia.
      rewrite drop_app_le by lia. done.
    + apply Forall2_cons_inv_l in Hmv as ([a2' d2'] & zs1' & [Ea Hr2] & Hmv & ->). cbn [fst snd] in Ea, Hr2. subst a2'.
      apply Forall2_cons_inv_l in H2' as (bs2 & b2' & Hd2 & H2'' & ->). cbn [first].
      cbn [snd] in Hd2. pose proof (Forall2_length _ _ _ Hmv) as Hlz.
      destruct (IH zs1' fuel q1 ys1 a2 d2' b1' bs2 b2' 0%nat 0 (e - del)) as (q' & Hrun & Hq').
      * injection Hn as Hn. congruence.
      * done.
      * done.
      * done.
      * done.
      * apply (moved_unmarked _ ((a2, d2') :: zs1')) in Hum as [E _]%Forall_cons; [|by constructor]. by intros [].
      * apply (moved_unmarked _ ((a2, d2') :: zs1')) in Hum as [_ E]%Forall_cons; [done|by constructor].
      * simpl in Hfuel. lia.
      * pose proof (no_ne _ _ Hd2). destruct bs2; [done|simpl; lia].
      * by left.
      * cbn [concat] in He. rewrite length_app in He. lia.
      * right. by left.
      * rewrite Hrun. exists q'. split; [done|]. cbn [take app Nat.add] in Hq'. rewrite El in Hq'. cbn [concat].
        rewrite (drop_ge bs (k + Z.to_nat del)) in Hq' by lia.
        rewrite (drop_app_ge bs (bs2 ++ concat b2')) by lia.
        replace (k + Z.to_nat e - length bs)%nat with (Z.to_nat (e - del)) by lia.
        rewrite app_nil_r, <- app_assoc in Hq'. done.
Qed.

Lemma del_range_spec q l start count K :
  qlist q l → calm q → in_s 64 start → in_s 64 count → 0 < count → start ≤ 0 → nth_of (length l) start = Some K →
  ∃ q', quicklistDelRange junk htab0 q start count = Some (true, q') ∧ qlist q' (take K l ++ drop (K + Z.to_nat count) l).
Proof.
  intros (xs & bss & Hi & ->) Hcalm Hst Hct Hpos Hle HK. pose proof (s_link _ _ (v_shape _ _ _ Hi)) as Hl0.
  pose proof (calm_unmarked _ _ Hl0 Hcalm) as Hum. unfold quicklistDelRange. rewrite (proj2 (Z.leb_gt _ _)) by lia.
  pose proof (v_count _ _ _ Hi) as Hc. pose proof (v_bound _ _ _ Hi) as Hb. rewrite Hc.
  set (n := length (concat bss)) in *. set (e := if (start >=? 0) && _ then _ else _).
  assert (start = 0 ∧ K = 0%nat ∧ (0 < n)%nat ∨ start < 0 ∧ Z.of_nat K = Z.of_nat n + start) as Hcase.
  { unfold nth_of in HK. case_decide; [|case_decide; [|done]]; injection HK as <-; lia. }
  assert (e = Z.min count (Z.of_nat n - Z.of_nat K)) as Ee.
  { unfold e. destruct Hcase as [(-> & -> & Hn)|[Hs HKn]].
    - change (0 >=? 0) with true. change (0 <? 0) with false. cbn [andb]. rewrite Z.sub_0_r. unfold u64. rewrite wrapu_id by (unfold in_u; pow2; lia).
      destruct (Z.gtb_spec count (Z.of_nat n)); lia.
    - rewrite (proj2 (Z.ltb_lt _ _)), Z.geb_leb, (proj2 (Z.leb_gt _ _)) by lia. cbn [andb].
      destruct (Z.gtb_spec count (- start)); lia. }
  clearbody e.
  destruct (index_spec junk q xs bss start K Hi Hst HK) as (q1 & en & ys & a & d & zs & b1 & bs & b2 & k & -> & F).
  rewrite some_bind. cbv beta iota.
  destruct F as [Hi1 Hlocs [_ -> H1 Hd H2] Hr Hsf -> Hk -> _ _ -> Hoth Hm].
  assert (n = length (concat b1) + length bs + length (concat b2))%nat as En.
  { unfold n. rewrite concat_mid, !length_app. lia. }
  destruct (delrange_loop_spec (length zs) zs (S (size (q_nodes q1))) q1 ys a d b1 bs b2 k
    (if start <? 0 then Z.of_nat k - zlen bs else Z.of_nat k) e) as (q' & -> & Hq'); try done.
  - intros N. rewrite (sf_compress _ _ Hsf). destruct (Hm N) as [?|Hin]; [done|]. destruct N. by apply (unmarked_at xs a).
  - unfold unmarked. rewrite Forall_fmap, Forall_forall. intros [a' d'] Hin. cbn. apply (unmarked_at xs a' d' Hum), Hoth. set_solver.
  - rewrite (nodes_size _ _ (v_shape _ _ _ Hi1)), length_app. simpl. lia.
  - destruct (start <? 0); auto.
  - lia.
  - unfold range_fits. destruct (Z.ltb_spec start 0); [left; lia|right; left; lia].
  - rewrite some_bind. exists q'. split; [done|]. rewrite concat_mid.
    rewrite take_app_ge, <- app_assoc by lia. replace (length (concat b1) + k - length (concat b1))%nat with k by lia.
    rewrite take_app_le by lia. rewrite drop_app_ge by lia.
    replace (length (concat b1) + k + Z.to_nat count - length (concat b1))%nat with (k + Z.to_nat count)%nat by lia.
    destruct (Z.min_spec count (Z.of_nat n - Z.of_nat (length (concat b1) + k))) as [[Hlt Em]|[Hge Em]]; rewrite Em in Ee; subst e.
    + done.
    + rewrite drop_ge in Hq' by (rewrite length_app; lia). rewrite drop_ge by (rewrite length_app; lia). done.
Qed.

Lemma del_range_none q l start count :
  qlist q l → in_s 64 start → count ≤ 0 ∨ nth_of (length l) start = None →
  quicklistDelRange junk htab0 q start count = Some (false, q).
Proof.
  intros (xs & bss & Hi & ->) Hst Hcase. unfold quicklistDelRange.
  destruct (Z.leb_spec count 0) as [|Hpos]; [done|]. destruct Hcase as [?|HK]; [lia|].
  by rewrite (index_none junk q xs bss start Hi Hst HK), some_bind.
Qed.
End ranges.
