(* ===== verification/QuickIter.v ===== *)
(** * Quick lists: iteration

    [quicklistNext] from the head or from an index visits every string from
    there to the end once and in order, at every compression depth, and
    leaves the list as it was. *)

From S2P Require Import Prelude Decimal Util Adlist Lzf Zipenc Ziplist ZipRead ZipView Quicklist QuickNodes QuickOps QuickRange.

#[local] Set Default Proof Using "Type".

(** All that an iterator yields: nodes are never empty, so that a call of
    [quicklistNext] looks at two of them at most. *)
Fixpoint collect (junk : nat → Z) (htab0 : Z → Z) (n : nat) (q : quicklist) (it : quicklistIter) : option (list content * quicklist) :=
  match n with
  | O => None
  | S n =>
      '(e, it, q) ← quicklistNext junk htab0 2 q it;
      match e with
      | None => Some ([], q)
      | Some e => v ← qe_value e; '(vs, q) ← collect junk htab0 n q it; Some (v :: vs, q)
      end
  end.

(** The node [a] of the list [l]; the nodes behind it are not marked. *)
Record at_node (q : quicklist) (l : list (list Z)) (ys : list (loc * qdata)) (a : loc) (d : qdata) (zs : list (loc * qdata))
    (b1 : list (list (list Z))) (bs : list (list Z)) (b2 : list (list (list Z))) : Prop := {
  an_inv : qinv q (ys ++ (a, d) :: zs) (b1 ++ bs :: b2);
  an_left : Forall2 node_ok ys.*2 b1;
  an_node : node_ok d bs;
  an_right : Forall2 node_ok zs.*2 b2;
  an_mark : n_recompress d ≠ 0 → interior (q_compress q) ys zs;
  an_rest : unmarked zs;
  an_list : l = concat (b1 ++ bs :: b2)
}.

(** An iterator that has [rest] before it. *)
Inductive ready (q : quicklist) (l : list (list Z)) : quicklistIter → list (list Z) → Prop :=
  | ready_end o : qlist q l → ready q l (QIter None None o AL_START_HEAD) []
  | ready_new ys a d zs b1 bs b2 o k :
      at_node q l ys a d zs b1 bs b2 → nth_of (length bs) (s32 o) = Some k →
      ready q l (QIter (Some a) None o AL_START_HEAD) (drop k bs ++ concat b2)
  | ready_in ys a d zs b1 bs b2 zl pos o k :
      at_node q l ys a d zs b1 bs b2 → raw d → n_zl d = Some zl → entries zl bs pos → (k < length bs)%nat →
      ready q l (QIter (Some a) (Some (pos k)) o AL_START_HEAD) (drop (S k) bs ++ concat b2).

Section iteration.
Context (junk : nat → Z) (htab0 : Z → Z).

Lemma nth_lt n i K : nth_of n i = Some K → (K < n)%nat.
Proof. unfold nth_of. repeat case_decide; intros [= <-]; lia. Qed.

Lemma at_node_list q l ys a d zs b1 bs b2 : at_node q l ys a d zs b1 bs b2 → qlist q l.
Proof. intros [Hi _ _ _ _ _ ->]. eexists _, _. by split. Qed.

(** The first entry in a node. *)
Lemma enter_spec q l ys a d zs b1 bs b2 o k fuel :
  at_node q l ys a d zs b1 bs b2 → nth_of (length bs) (s32 o) = Some k →
  ∃ e it' q' x, quicklistNext junk htab0 (S fuel) q (QIter (Some a) None o AL_START_HEAD) = Some (Some e, it', q') ∧
    bs !! k = Some x ∧ qe_value e = Some (content_of x) ∧ ready q' l it' (drop (S k) bs ++ concat b2).
Proof.
  intros [Hi H1 Hd H2 Hm Hu ->] Hk. pose proof (nth_lt _ _ _ Hk) as Hlt. pose proof Hi as [Hs Hn Hc Hb Hf].
  cbn [quicklistNext qi_current qi_zi qi_offset qi_direction].
  destruct (use_spec junk q ys a d zs Hs) as (q1 & d1 & -> & Hs1 & Hsb & Hr & Hsf & Hmark); [by eapply nodes_blocks|].
  rewrite some_bind, (data_mid _ _ _ _ _ (s_link _ _ Hs1)), some_bind.
  assert (node_ok d1 bs) as Hd1 by by eapply node_recode.
  destruct (node_view d1 bs Hd1 Hr) as (zl & pos & Ezl & Hz & He). rewrite Ezl, some_bind.
  rewrite (e_index _ _ _ He) by (apply wraps_range; lia). rewrite Hk. cbn [fmap option_fmap option_map]. rewrite !some_bind.
  destruct (lookup_lt_is_Some_2 bs k Hlt) as [x Hx]. rewrite (e_get _ _ _ He k x Hx), some_bind.
  eexists _, _, q1, x. split; [done|]. split; [done|]. split; [done|].
  eapply (ready_in q1 _ ys a d1 zs b1 bs b2 zl pos); try done.
  split; try done; [by eapply node_changed|]. intros N. rewrite (sf_compress _ _ Hsf). destruct Hmark as [->|[_ ?]]; [by apply Hm|done].
Qed.

(** Leaving a node: it is compressed again, and the next one comes. *)
Lemma leave_spec q l ys a d zs b1 bs b2 :
  at_node q l ys a d zs b1 bs b2 →
  ∃ q' nd, quicklistCompress junk htab0 q a = Some q' ∧ q_nodes q' !! a = Some nd ∧
    ready q' l (QIter (next nd) None 0 AL_START_HEAD) (concat b2).
Proof.
  intros [Hi H1 Hd H2 Hm Hu ->]. pose proof Hi as [Hs Hn Hc Hb Hf].
  destruct (compress_after junk htab0 q ys a d zs Hs) as (q1 & xs1 & -> & Hs1 & Hmv & [F1 F2 F3 F4]); [by eapply nodes_blocks|done|].
  destruct (moved_app_inv _ _ _ Hmv) as (ys1 & r & -> & My & Mr).
  apply Forall2_cons_inv_l in Mr as ([a' d1] & zs1 & [Ea [Hrc _]] & Mz & ->). cbn [fst snd] in Ea, Hrc. subst a'.
  eexists q1, _. split; [done|]. split; [by apply (node_mid q1 ys1 zs1 a d1), Hs1|]. cbn [next].
  assert (qinv q1 (ys1 ++ (a, d1) :: zs1) (b1 ++ bs :: b2)) as Hi1.
  { split; [done|by eapply moved_nodes|by rewrite F1|done|by rewrite F3]. }
  destruct zs as [|[c dc] zs].
  - apply Forall2_nil_inv_l in Mz as ->. apply Forall2_nil_inv_l in H2 as ->. apply ready_end. eexists _, _. by split.
  - pose proof (moved_unmarked _ _ Mz Hu) as Hu1.
    apply Forall2_cons_inv_l in Mz as ([c' dc1] & zs2 & [Ec [Hrcc _]] & Mz & ->). cbn [fst snd] in Ec, Hrcc. subst c'.
    apply Forall2_cons_inv_l in H2 as (bc & b2' & Hdc & H2 & ->). cbn [snd] in Hdc. apply Forall_cons in Hu1 as [Hm1 Hu1]. cbn [first concat].
    pose proof (no_ne _ _ Hdc). apply (ready_new q1 _ (ys1 ++ [(a, d1)]) c dc1 zs2 (b1 ++ [bs]) bc b2' 0 0).
    + split; try done.
      * by rewrite <- !app_assoc.
      * rewrite fmap_app. apply Forall2_app; [by eapply moved_nodes|]. constructor; [by eapply node_recode|constructor].
      * by eapply node_recode.
      * by eapply moved_nodes.
      * by rewrite <- app_assoc.
    + change (s32 0) with 0. apply nth_zero. destruct bc; [done|simpl; lia].
Qed.

Lemma next_spec q l it rest :
  ready q l it rest →
  match rest with
  | [] => ∃ it' q', quicklistNext junk htab0 2 q it = Some (None, it', q') ∧ qlist q' l
  | x :: rest' => ∃ e it' q', quicklistNext junk htab0 2 q it = Some (Some e, it', q') ∧
      qe_value e = Some (content_of x) ∧ ready q' l it' rest'
  end.
Proof.
  intros Hr. assert (∀ q it rest, ready q l it rest → qi_zi it = None → ∀ fuel,
    match rest with
    | [] => ∃ it' q', quicklistNext junk htab0 (S fuel) q it = Some (None, it', q') ∧ qlist q' l
    | x :: rest' => ∃ e it' q', quicklistNext junk htab0 (S fuel) q it = Some (Some e, it', q') ∧
        qe_value e = Some (content_of x) ∧ ready q' l it' rest'
    end) as Hfirst.
  { clear. intros q it rest Hr Hz fuel. destruct Hr as [o Hq|ys a d zs b1 bs b2 o k Hat Hk|]; [by eexists _, q| |done].
    destruct (enter_spec q l ys a d zs b1 bs b2 o k fuel Hat Hk) as (e & it' & q' & x & Hrun & Hx & Hv & Hrd).
    rewrite (drop_S _ _ _ Hx). cbn [app]. by exists e, it', q'. }
  destruct Hr as [o Hq|ys a d zs b1 bs b2 o k Hat Hk|ys a d zs b1 bs b2 zl pos o k Hat Hr Ezl He Hk].
  - by eexists _, q.
  - by apply (Hfirst _ _ _ (ready_new q l ys a d zs b1 bs b2 o k Hat Hk)).
  - cbn [quicklistNext qi_current qi_zi qi_offset qi_direction].
    rewrite some_bind, (data_mid _ _ _ _ _ (s_link _ _ (v_shape _ _ _ (an_inv _ _ _ _ _ _ _ _ _ Hat)))), some_bind, Ezl, some_bind.
    rewrite (e_next _ _ _ He k Hk), !some_bind. cbv beta iota. case_decide as Hlt.
    + destruct (lookup_lt_is_Some_2 bs (S k) Hlt) as [x Hx]. rewrite (drop_S _ _ _ Hx). cbn [app].
      rewrite (e_get _ _ _ He _ x Hx), some_bind. eexists _, _, q. split; [done|]. split; [done|]. by eapply ready_in.
    + rewrite (drop_ge bs) by lia. cbn [app].
      destruct (leave_spec q l ys a d zs b1 bs b2 Hat) as (q1 & nd & -> & Hnd & Hrd). rewrite some_bind, Hnd, some_bind.
      apply (Hfirst _ _ _ Hrd eq_refl 0%nat).
Qed.

Lemma collect_spec rest : ∀ q l it n,
  ready q l it rest → (length rest < n)%nat →
  ∃ q', collect junk htab0 n q it = Some (content_of <$> rest, q') ∧ qlist q' l.
Proof.
  induction rest as [|x rest IH]; intros q l it n Hr Hn; (destruct n as [|n]; [simpl in Hn; lia|]); cbn [collect];
    pose proof (next_spec q l it _ Hr) as Hnx; cbv iota in Hnx.
  - destruct Hnx as (it' & q' & -> & Hq). by exists q'.
  - destruct Hnx as (e & it' & q' & -> & Hv & Hrd). rewrite some_bind, Hv, some_bind.
    destruct (IH q' l it' n Hrd) as (q2 & -> & Hq2); [simpl in Hn; lia|]. rewrite some_bind. by exists q2.
Qed.

Lemma head_ready q l : qlist q l → calm q → ready q l (quicklistGetIterator q AL_START_HEAD) l.
Proof.
  intros (xs & bss & Hi & ->) Hc. pose proof (s_link _ _ (v_shape _ _ _ Hi)) as Hl. cbn [quicklistGetIterator].
  rewrite (l_head _ _ Hl). pose proof (calm_unmarked _ _ Hl Hc) as Hu. pose proof (v_nodes _ _ _ Hi) as Hn. destruct xs as [|[a d] zs].
  - apply Forall2_nil_inv_l in Hn as ->. apply ready_end. by exists [], [].
  - apply Forall2_cons_inv_l in Hn as (bs & b2 & Hd & H2 & ->). apply Forall_cons in Hu as [Hm Hu]. cbn [snd] in *.
    pose proof (no_ne _ _ Hd). apply (ready_new q _ [] a d zs [] bs b2 0 0).
    + split; try done.
    + change (s32 0) with 0. apply nth_zero. destruct bs; [done|simpl; lia].
Qed.

Lemma index_ready q l idx K :
  qlist q l → calm q → in_s 64 idx → nth_of (length l) idx = Some K →
  ∃ it q', quicklistGetIteratorAtIdx junk q AL_START_HEAD idx = Some (Some it, q') ∧ ready q' l it (drop K l).
Proof.
  intros (xs & bss & Hi & ->) Hc Hx HK. pose proof (s_link _ _ (v_shape _ _ _ Hi)) as Hl.
  pose proof (calm_unmarked _ _ Hl Hc) as Hu. unfold quicklistGetIteratorAtIdx.
  destruct (index_spec junk q xs bss idx K Hi Hx HK) as (q1 & e & ys & a & d & zs & b1 & bs & b2 & k & -> & F).
  rewrite some_bind. destruct F as [Hi1 _ [_ -> H1 Hd H2] Hr Hsf -> Hk -> _ _ -> Hoth Hm].
  eexists _, q1. split; [done|]. pose proof (no_small _ _ Hd) as Hsm.
  rewrite concat_mid, drop_app_ge, drop_app_le by lia.
  replace (length (concat b1) + k - length (concat b1))%nat with k by lia.
  eapply (ready_new q1 _ ys a d zs b1 bs b2).
  - split; try done.
    + intros N. rewrite (sf_compress _ _ Hsf). destruct (Hm N) as [?|Hin]; [done|]. destruct N. by apply (unmarked_at xs a).
    + unfold unmarked. rewrite Forall_fmap, Forall_forall. intros [a' d'] Hin. cbn. apply (unmarked_at xs a' d' Hu), Hoth.
      apply elem_of_app. by right.
    + by rewrite concat_mid.
  - unfold nth_of, s32. destruct (Z.ltb_spec idx 0).
    + rewrite wraps_id by (unfold in_s; pow2; lia). rewrite decide_False, decide_True by lia. f_equal. lia.
    + rewrite wraps_id by (unfold in_s; pow2; lia). rewrite decide_True by lia. f_equal. lia.
Qed.
End iteration.
