(* ===== verification/QuickInsert.v ===== *)
(** * Quick lists: inserting next to an entry

    The branches of [_quicklistInsert]: into the node of the entry, into the
    node before it, as a new node, or with a split of the node and the merges
    of its neighbours that follow. *)

From S2P Require Import Prelude Decimal Util Adlist Lzf Zipenc Ziplist ZipRead ZipView Quicklist QuickNodes QuickOps QuickRange.

#[local] Set Default Proof Using "Type".

(** The list with [v] before or after the position [k]. *)
Definition insert_at {A} (after : bool) (k : nat) (v : A) (l : list A) : list A :=
  let k := if after then S k else k in take k l ++ v :: drop k l.

(** A value whose entry takes four bytes or more: no block shrinks when it is inserted. *)
Definition roomy (v : list Z) : Prop := 3 ≤ zlen (enc_content (content_of v)).

Section insert.
Context (junk : nat → Z) (htab0 : Z → Z).

Lemma use_raw q ys a d zs :
  linkage q (ys ++ (a, d) :: zs) → raw d → quicklistDecompressNodeForUse junk q (Some a) = Some q.
Proof.
  intros Hl Hr. unfold quicklistDecompressNodeForUse. rewrite (data_mid _ _ _ _ _ Hl), some_bind. by rewrite Hr.
Qed.

Lemma length_insert_at {A} after k (v : A) l : (k < length l)%nat → zlen (insert_at after k v l) = zlen l + 1.
Proof. intros Hk. unfold insert_at. rewrite length_app. cbn [length]. rewrite length_take, length_drop. destruct after; lia. Qed.

Lemma total_size_insert after k v bs : total_size (insert_at after k v bs) = total_size bs + 14 + zlen v.
Proof.
  unfold insert_at. set (j := if after then S k else k). rewrite total_size_app. cbn [total_size foldr].
  pose proof (total_size_app (take j bs) (drop j bs)) as H. rewrite take_drop in H. unfold total_size in *. lia.
Qed.

Lemma bytes_insert_at after k v bs : bytes_ok v → Forall bytes_ok bs → Forall bytes_ok (insert_at after k v bs).
Proof.
  intros Hv Hb. apply Forall_app. split; [by apply Forall_take|]. constructor; [done|by apply Forall_drop].
Qed.

(** A block of the right contents makes a good node. *)
Lemma raw_node d zl bs :
  raw d → n_zl d = Some zl → zip zl bs → n_sz d = zlen zl → Forall bytes_ok bs → bs ≠ [] → n_count d = zlen bs →
  zlen bs < 2 ^ 16 → total_size bs < 2 ^ 31 → node_ok d bs.
Proof.
  intros Hr Ezl Hz Hs Hb Hne Hc Hsm Hts. split; try done. split; [done|]. split; [unfold fits; lia|].
  exists zl. split; [done|]. split; [done|]. by left.
Qed.

Lemma plus_one_count d bs : node_ok d bs → zlen bs + 1 < 2 ^ 16 → u16 (n_count d + 1) = zlen bs + 1.
Proof. intros Hd Hl. rewrite (no_count _ _ Hd). unfold u16. apply wrapu_id. unfold in_u. lia. Qed.

Lemma ne_length {A} (l : list A) : 0 < zlen l → l ≠ [].
Proof. by destruct l. Qed.

(** The common end of the branches that change one node: it gets the block
    [zl'], its counter one more, and is compressed again if it was for use. *)
Lemma one_more q ys a d zs b1 bs b2 zl' bs' :
  qshape q (ys ++ (a, d) :: zs) → Forall2 node_ok ys.*2 b1 → node_ok d bs → Forall2 node_ok zs.*2 b2 → raw d →
  (n_recompress d ≠ 0 → interior (q_compress q) ys zs) →
  zip zl' bs' → Forall bytes_ok bs' → zlen bs' = zlen bs + 1 → zlen bs' < 2 ^ 16 → total_size bs' < 2 ^ 31 →
  ∃ q' d', (n ← quicklistNodeUpdateSz (set_ncount (n_count d + 1) (set_zl (Some zl') d));
            q ← qput q a n; quicklistRecompressOnly junk htab0 q a) = Some q' ∧
    qshape q' (ys ++ (a, d') :: zs) ∧ node_ok d' bs' ∧ same_fields q q'.
Proof.
  intros Hs H1 Hd H2 Hr Hm Hz Hb Hl Hsm Hts. rewrite (update_sz _ zl' _ Hz), some_bind by done. set (d2 := set_sz _ _).
  destruct (put_shape q ys a d zs d2 Hs) as (q2 & -> & Hs2 & Hf2);
    [done|intros H0; by apply (plain_like d); [eapply off_plain|..]|]. rewrite some_bind.
  assert (node_ok d2 bs') as Hd2.
  { apply (raw_node d2 zl'); try done; [apply ne_length; lia|]. cbn. rewrite (plus_one_count d bs Hd) by lia. lia. }
  destruct (recompress_after junk htab0 q2 ys a d2 zs Hs2) as (q3 & d3 & -> & Hs3 & [Hrc _] & Hf3).
  { eapply blocks_app_cons; [done|done|]. eexists. apply Hd2. }
  { intros N. rewrite (sf_compress _ _ Hf2). by apply Hm. }
  exists q3, d3. split; [done|]. split; [done|]. split; [by eapply node_recode|]. by etrans.
Qed.

Lemma insert_into_spec q ys a d zs b1 bs b2 zl pos k v (after : bool) :
  qshape q (ys ++ (a, d) :: zs) → Forall2 node_ok ys.*2 b1 → node_ok d bs → Forall2 node_ok zs.*2 b2 → raw d →
  (n_recompress d ≠ 0 → interior (q_compress q) ys zs) →
  n_zl d = Some zl → zip zl bs → entries zl bs pos → (k < length bs)%nat → storable v → roomy v →
  _quicklistNodeAllowInsert (Some d) (q_fill q) (zlen v) = true →
  ∃ q' d', insert_into junk htab0 q a (Some (pos k)) v after = Some q' ∧
    qshape q' (ys ++ (a, d') :: zs) ∧ node_ok d' (insert_at after k v bs) ∧ same_fields q q'.
Proof.
  intros Hs H1 Hd H2 Hr Hm Ezl Hz He Hk Hv Hroom Ha.
  destruct (allow_insert_ok d bs _ v Hd Hv Ha) as [Hts Hcnt]. destruct (no_block _ _ Hd) as (Hby & _ & _).
  unfold insert_into. rewrite (use_raw q ys a d zs (s_link _ _ Hs) Hr), some_bind.
  rewrite (data_mid _ _ _ _ _ (s_link _ _ Hs)), some_bind, Ezl, !some_bind.
  assert (∃ zl', (if after then next ← ziplistNext zl (pos k);
                    match next with None => ziplistPush junk zl v ZIPLIST_TAIL | Some next => ziplistInsert junk zl next v end
                  else ziplistInsert junk zl (pos k) v) = Some zl' ∧ zip zl' (insert_at after k v bs)) as (zl' & -> & Hz').
  { assert (∀ j, fits (take j bs ++ v :: drop j bs)) as Hfit.
    { intros j. unfold fits. pose proof (total_size_insert false j v bs) as E. unfold insert_at in E. rewrite E. lia. }
    destruct after; unfold insert_at; [|apply (e_insert _ _ _ He junk k v Hk); [by right|done]].
    rewrite (e_next _ _ _ He k Hk), some_bind. destruct (decide (S k < length bs)%nat) as [Hlt|Hge].
    - apply (e_insert _ _ _ He junk (S k) v Hlt); [by right|done].
    - destruct (push_view junk zl bs v ZIPLIST_TAIL Hz) as (zl' & -> & Hz').
      { unfold fits. cbn [total_size foldr]. unfold total_size in *. lia. }
      exists zl'. split; [done|]. by rewrite take_ge, drop_ge by lia. }
  rewrite some_bind. apply one_more with (b1 := b1) (bs := bs) (b2 := b2); try done.
  - apply bytes_insert_at; [apply Hv|done].
  - by apply length_insert_at.
  - rewrite length_insert_at by done. done.
  - rewrite total_size_insert. lia.
Qed.

Lemma push_into_spec q ys a d zs b1 bs b2 v w :
  qshape q (ys ++ (a, d) :: zs) → Forall2 node_ok ys.*2 b1 → node_ok d bs → Forall2 node_ok zs.*2 b2 →
  (n_recompress d ≠ 0 → interior (q_compress q) ys zs) → storable v →
  _quicklistNodeAllowInsert (Some d) (q_fill q) (zlen v) = true →
  ∃ q' d', push_into junk htab0 q a v w = Some q' ∧
    qshape q' (ys ++ (a, d') :: zs) ∧ node_ok d' (push_at w v bs) ∧ same_fields q q'.
Proof.
  intros Hs H1 Hd H2 Hm Hv Ha. destruct (allow_insert_ok d bs _ v Hd Hv Ha) as [Hts Hcnt].
  destruct (no_block _ _ Hd) as (Hby & _ & _). unfold push_into.
  destruct (use_spec junk q ys a d zs Hs) as (q1 & d1 & -> & Hs1 & Hsb & Hr & Hf1 & Hmark).
  { eapply blocks_app_cons; [done|done|]. eexists. apply Hd. }
  rewrite some_bind, (data_mid _ _ _ _ _ (s_link _ _ Hs1)), some_bind.
  assert (node_ok d1 bs) as Hd1 by by eapply node_recode.
  destruct (node_view d1 bs Hd1 Hr) as (zl & pos & Ezl & Hz & He). rewrite Ezl, some_bind.
  destruct (push_view junk zl bs v w Hz) as (zl' & -> & Hz').
  { unfold fits. cbn [total_size foldr]. unfold total_size in *. lia. }
  rewrite some_bind.
  destruct (one_more q1 ys a d1 zs b1 bs b2 zl' (push_at w v bs)) as (q2 & d2 & Hrun & Hs2 & Hd2 & Hf2); try done.
  - intros N. rewrite (sf_compress _ _ Hf1). destruct Hmark as [->|[_ ?]]; [by apply Hm|done].
  - destruct w; cbn; [constructor; [apply Hv|done]|apply Forall_app; split; [done|]; constructor; [apply Hv|done]].
  - destruct w; cbn; rewrite ?length_app; simpl; lia.
  - destruct w; cbn; rewrite ?length_app; simpl; lia.
  - destruct w; cbn [push_at]; rewrite ?total_size_app; cbn [total_size foldr]; unfold total_size in *; lia.
  - exists q2, d2. split; [exact Hrun|]. split; [done|]. split; [done|]. by etrans.
Qed.

(** The list after one of these steps and the count of the list. *)
Lemma insert_finish q q' ys a d' zs b1 bs bs' b2 l :
  qshape q' (ys ++ (a, d') :: zs) → Forall2 node_ok ys.*2 b1 → node_ok d' bs' → Forall2 node_ok zs.*2 b2 →
  same_fields q q' → q_count q = zlen (concat (b1 ++ bs :: b2)) → q_count q + 1 < 2 ^ 32 → in_s 16 (q_fill q) →
  zlen bs' = zlen bs + 1 → l = concat (b1 ++ bs' :: b2) →
  qlist (set_qcount (q_count q' + 1) q') l.
Proof.
  intros Hs H1 Hd H2 [E1 _ E3 _] Hc Hb Hf Hlen ->. eexists _, _. split; [|done].
  eapply qinv_node; [by apply shape_count|done|done|done| | | |cbn; by rewrite E3].
  - apply set_count_val. lia.
  - rewrite E1, Hc, !concat_mid, !length_app. lia.
  - lia.
Qed.

(** ** Merging, without compression

    While an insertion is under way the counter of the list is one behind. *)
Record loose (q : quicklist) (xs : list (loc * qdata)) (bss : list (list (list Z))) : Prop := {
  lo_shape : qshape q xs;
  lo_nodes : Forall2 node_ok xs.*2 bss;
  lo_off : q_compress q = 0;
  lo_count : in_u 64 (q_count q)
}.
Definition keep_fields (q q' : quicklist) : Prop := q_count q' = q_count q ∧ q_fill q' = q_fill q.

Lemma compress_off q a d : q_compress q = 0 → qdata_of q a = Some d → n_recompress d = 0 → quicklistCompress junk htab0 q a = Some q.
Proof.
  intros H0 Ha Hm. unfold quicklistCompress. rewrite Ha, some_bind, Hm. cbn [Z.eqb negb].
  unfold __quicklistCompress, quicklistAllowsCompression. by rewrite H0.
Qed.

Lemma decompress_raw q a d : qdata_of q a = Some d → raw d → quicklistDecompressNode junk q (Some a) = Some q.
Proof. intros Ha Hr. unfold quicklistDecompressNode. rewrite Ha, some_bind. by rewrite Hr. Qed.

Lemma allow_merge_ok da db ba bb fill :
  node_ok da ba → node_ok db bb → _quicklistNodeAllowMerge (Some da) (Some db) fill = true →
  zlen (ba ++ bb) < 2 ^ 16 ∧ total_size (ba ++ bb) < 2 ^ 31.
Proof.
  intros [Ha _ _ Ha1 Ha2] [Hb _ _ Hb1 Hb2] H. unfold _quicklistNodeAllowMerge in H.
  pose proof (block_size _ _ Ha). pose proof (block_size _ _ Hb).
  unfold u32 in H. rewrite wrapu_id in H by (unfold in_u; lia). rewrite total_size_app, length_app.
  assert (n_sz da + n_sz db - 11 ≤ 65536); [|lia].
  destruct (_quicklistNodeSizeMeetsOptimizationRequirement _ _) eqn:E; [by apply opt_level_bound in E|].
  destruct (sizeMeetsSafetyLimit _) eqn:E2; [|done]. unfold sizeMeetsSafetyLimit, SIZE_SAFETY_LIMIT in E2. lia.
Qed.

Lemma allow_merge_comm da db fill : _quicklistNodeAllowMerge da db fill = _quicklistNodeAllowMerge db da fill.
Proof.
  destruct da as [da|], db as [db|]; try done. unfold _quicklistNodeAllowMerge.
  by rewrite (Z.add_comm (n_sz da)), (Z.add_comm (n_count da)).
Qed.

Lemma moved_locs xs xs' : moved xs xs' → xs'.*1 = xs.*1.
Proof. induction 1 as [|x y xs xs' [E _] _ IH]; [done|]. rewrite !fmap_cons. by rewrite E, IH. Qed.

Lemma recode_plain1 d d' : recode d d' → plain d → raw d' → plain d'.
Proof. intros [_ [E|E]] [_ Hp] Hr; split; try done; congruence. Qed.

Lemma put_loose q ys a d zs d' :
  qshape q (ys ++ (a, d) :: zs) → plain d' →
  ∃ q', qput q a d' = Some q' ∧ qshape q' (ys ++ (a, d') :: zs) ∧ same_fields q q'.
Proof. intros Hs Hp. apply put_shape with (d := d); [done|intros _; apply Hp|done]. Qed.

(** The node that lost its block goes ... *)
Lemma drop_node q L n dn R bss :
  qshape q (L ++ (n, dn) :: R) → n_count dn = 0 → q_compress q = 0 → in_u 64 (q_count q) → Forall2 node_ok (L ++ R).*2 bss →
  ∃ q' xs', __quicklistDelNode junk htab0 q n = Some q' ∧ loose q' xs' bss ∧ moved (L ++ R) xs' ∧ keep_fields q q'.
Proof.
  intros Hs Hn H0 Hc Hb. destruct (del_node_spec junk htab0 q L n dn R Hs (nodes_blocks _ _ Hb)) as (q' & xs' & -> & Hs' & Hmv & Ec & Ef & Ecp).
  assert (q_count q' = q_count q) as Eq.
  { rewrite Ec, Hn, Z.sub_0_r. by apply wrapu_id. }
  exists q', xs'. split; [done|]. split; [|split; [done|by split]].
  split; [done|by eapply moved_nodes|congruence|by rewrite Eq].
Qed.

(** ... and the other one stays where it was. *)
Lemma kept_node q ys t k zs xs b1 bs b2 :
  loose q xs (b1 ++ bs :: b2) → moved (ys ++ (t, k) :: zs) xs →
  Forall2 node_ok ys.*2 b1 → node_ok k bs → Forall2 node_ok zs.*2 b2 →
  quicklistCompress junk htab0 q t = Some q ∧
  ∃ ys' dt zs', xs = ys' ++ (t, dt) :: zs' ∧ Forall2 node_ok ys'.*2 b1 ∧ node_ok dt bs ∧ Forall2 node_ok zs'.*2 b2 ∧
    moved ys ys' ∧ moved zs zs'.
Proof.
  intros [Hs _ H0 _] Hmv H1 Hk H2. destruct (moved_app_inv _ _ _ Hmv) as (ys' & l & -> & My & Ml).
  apply Forall2_cons_inv_l in Ml as ([t' dt] & zs' & [Et Hrt] & Mz & ->). cbn [fst snd] in Et, Hrt. subst t'. split.
  - apply (compress_off q t dt); [done|eapply data_mid, Hs|apply (off_plain _ _ _ _ _ Hs H0)].
  - exists ys', dt, zs'. split; [done|]. split; [by eapply moved_nodes|]. split; [eapply node_recode; [apply Hrt|done]|].
    split; [by eapply moved_nodes|done].
Qed.

(** The two nodes, left to right: the one that is kept holds both contents. *)
Lemma merge_spec q ys a da b db zs b1 ba bb b2 :
  loose q (ys ++ (a, da) :: (b, db) :: zs) (b1 ++ ba :: bb :: b2) →
  Forall2 node_ok ys.*2 b1 → node_ok da ba → node_ok db bb → Forall2 node_ok zs.*2 b2 →
  _quicklistNodeAllowMerge (Some da) (Some db) (q_fill q) = true →
  ∃ q' t dt ys' zs', _quicklistZiplistMerge junk htab0 q a b = Some (Some t, q') ∧
    loose q' (ys' ++ (t, dt) :: zs') (b1 ++ (ba ++ bb) :: b2) ∧
    Forall2 node_ok ys'.*2 b1 ∧ node_ok dt (ba ++ bb) ∧ Forall2 node_ok zs'.*2 b2 ∧
    moved ys ys' ∧ moved zs zs' ∧ keep_fields q q'.
Proof.
  intros [Hs Hn H0 Hct] H1 Ha Hb H2 Hal. destruct (allow_merge_ok da db ba bb _ Ha Hb Hal) as [Hsm Hts].
  assert (ys ++ (a, da) :: (b, db) :: zs = (ys ++ [(a, da)]) ++ (b, db) :: zs) as Ex by (by rewrite <- app_assoc).
  pose proof (off_plain q ys a da _ Hs H0) as Pa. pose proof Hs as Hsb. rewrite Ex in Hsb.
  pose proof (off_plain q _ b db zs Hsb H0) as Pb. unfold _quicklistZiplistMerge.
  rewrite (decompress_raw q a da), some_bind by (eapply data_mid, Hs || apply Pa).
  rewrite (decompress_raw q b db), some_bind by (eapply data_mid, Hsb || apply Pb).
  rewrite (data_mid _ _ _ _ _ (s_link _ _ Hs)), some_bind, (data_mid _ _ _ _ _ (s_link _ _ Hsb)), some_bind.
  destruct (node_view da ba Ha (proj1 Pa)) as (zla & pa & Eza & Hza & _).
  destruct (node_view db bb Hb (proj1 Pb)) as (zlb & pb & Ezb & Hzb & _). rewrite Eza, Ezb.
  destruct (merge_view junk zla zlb ba bb Hza Hzb) as (append & zl & -> & Hz); [right; apply Hb|unfold fits; lia|].
  rewrite some_bind. cbv beta iota. destruct (ziplistLen_counts zl _ Hz) as (zl' & Hlen & Hz').
  assert (∀ x, plain x → node_ok (set_sz (zlen zl') (set_ncount (zlen (ba ++ bb)) (set_zl (Some zl') x))) (ba ++ bb)) as Hkeep.
  { intros x [Hx _]. apply (raw_node _ zl'); try done.
    - destruct (no_block _ _ Ha) as (? & _), (no_block _ _ Hb) as (? & _). by apply Forall_app.
    - pose proof (no_ne _ _ Ha). by destruct ba.
    - cbn. unfold u16. apply wrapu_id. unfold in_u. lia. }
  set (da1 := set_zl (if append then Some zl else None) da). set (db1 := set_zl (if append then None else Some zl) db).
  destruct (put_loose q ys a da ((b, db) :: zs) da1 Hs Pa) as (q1 & -> & Hs1 & Hf1). rewrite some_bind.
  change (ys ++ (a, da1) :: (b, db) :: zs) with (ys ++ [(a, da1)] ++ (b, db) :: zs) in Hs1. rewrite app_assoc in Hs1.
  destruct (put_loose q1 (ys ++ [(a, da1)]) b db zs db1 Hs1 Pb) as (q2 & -> & Hs2 & Hf2). rewrite some_bind. cbv zeta.
  pose proof Hs2 as Hs2a. rewrite <- app_assoc in Hs2a. cbn [app] in Hs2a.
  destruct append; cbv iota beta.
  - rewrite (data_mid _ _ _ _ _ (s_link _ _ Hs2a)), some_bind. unfold da1. cbn [n_zl set_zl]. rewrite some_bind, Hlen, some_bind. cbv beta iota.
    rewrite (update_sz _ zl' _ Hz'), some_bind by done. set (k := set_sz _ _).
    destruct (put_loose q2 ys a da1 ((b, db1) :: zs) k Hs2a) as (q3 & -> & Hs3 & Hf3); [done|]. rewrite some_bind.
    change (ys ++ (a, k) :: (b, db1) :: zs) with (ys ++ [(a, k)] ++ (b, db1) :: zs) in Hs3. rewrite app_assoc in Hs3.
    rewrite (data_mid _ _ _ _ _ (s_link _ _ Hs3)), some_bind.
    destruct (put_loose q3 (ys ++ [(a, k)]) b db1 zs (set_ncount 0 db1) Hs3) as (q4 & -> & Hs4 & Hf4); [done|]. rewrite some_bind.
    assert (same_fields q q4) as [G1 _ G3 G4] by (etrans; [|exact Hf4]; etrans; [|exact Hf3]; by etrans).
    assert (node_ok k (ba ++ bb)) as Hk by (by apply (Hkeep da)).
    destruct (drop_node q4 (ys ++ [(a, k)]) b (set_ncount 0 db1) zs (b1 ++ (ba ++ bb) :: b2) Hs4) as (q5 & xs5 & -> & Hl5 & Hmv & [E1 E2]);
      [done|congruence|by rewrite G1| |].
    { rewrite <- app_assoc, fmap_app. apply Forall2_app; [done|]. by constructor. }
    rewrite some_bind. rewrite <- app_assoc in Hmv. cbn [app] in Hmv.
    destruct (kept_node q5 ys a k zs xs5 b1 _ b2 Hl5 Hmv H1 Hk H2) as [-> (ys5 & dt & zs5 & -> & ? & ? & ? & ? & ?)].
    exists q5, a, dt, ys5, zs5. split; [done|]. do 6 (split; [done|]). split; congruence.
  - rewrite (data_mid _ _ _ _ _ (s_link _ _ Hs2)), some_bind. unfold db1. cbn [n_zl set_zl]. rewrite some_bind, Hlen, some_bind. cbv beta iota.
    rewrite (update_sz _ zl' _ Hz'), some_bind by done. set (k := set_sz _ _).
    destruct (put_loose q2 (ys ++ [(a, da1)]) b db1 zs k Hs2) as (q3 & -> & Hs3 & Hf3); [done|]. rewrite some_bind.
    rewrite <- app_assoc in Hs3. cbn [app] in Hs3. rewrite (data_mid _ _ _ _ _ (s_link _ _ Hs3)), some_bind.
    destruct (put_loose q3 ys a da1 ((b, k) :: zs) (set_ncount 0 da1) Hs3) as (q4 & -> & Hs4 & Hf4); [done|]. rewrite some_bind.
    assert (same_fields q q4) as [G1 _ G3 G4] by (etrans; [|exact Hf4]; etrans; [|exact Hf3]; by etrans).
    assert (node_ok k (ba ++ bb)) as Hk by (by apply (Hkeep db)).
    destruct (drop_node q4 ys a (set_ncount 0 da1) ((b, k) :: zs) (b1 ++ (ba ++ bb) :: b2) Hs4) as (q5 & xs5 & -> & Hl5 & Hmv & [E1 E2]);
      [done|congruence|by rewrite G1| |].
    { rewrite fmap_app. apply Forall2_app; [done|]. by constructor. }
    rewrite some_bind.
    destruct (kept_node q5 ys b k zs xs5 b1 _ b2 Hl5 Hmv H1 Hk H2) as [-> (ys5 & dt & zs5 & -> & ? & ? & ? & ? & ?)].
    exists q5, b, dt, ys5, zs5. split; [done|]. do 6 (split; [done|]). split; congruence.
Qed.

(** ** The merges around a node *)

(** [c] keeps its contents between the nodes [A] and [B]. *)
Record around (q : quicklist) (A : list (loc * qdata)) (c : loc) (dc : qdata) (B : list (loc * qdata))
    (bA : list (list (list Z))) (bs : list (list Z)) (bB : list (list (list Z))) : Prop := {
  ar_loose : loose q (A ++ (c, dc) :: B) (bA ++ bs :: bB);
  ar_left : Forall2 node_ok A.*2 bA;
  ar_node : node_ok dc bs;
  ar_right : Forall2 node_ok B.*2 bB
}.

Lemma nodes_snoc (xs : list (loc * qdata)) a d b bs : Forall2 node_ok xs.*2 b → node_ok d bs → Forall2 node_ok (xs ++ [(a, d)]).*2 (b ++ [bs]).
Proof. intros H Hd. rewrite fmap_app. apply Forall2_app; [done|]. constructor; [done|constructor]. Qed.

Lemma try_merge_no q x y l r dx dy :
  qdata_at q x = Some dx → qdata_at q y = Some dy → _quicklistNodeAllowMerge dx dy (q_fill q) = false →
  try_merge junk htab0 q x y l r = Some (None, q).
Proof. intros Hx Hy Ha. unfold try_merge. by rewrite Hx, some_bind, Hy, some_bind, Ha. Qed.

Lemma allow_merge_none d fill : _quicklistNodeAllowMerge d None fill = false.
Proof. by destruct d. Qed.

Lemma qdata_at_mid q ys a d zs : linkage q (ys ++ (a, d) :: zs) → qdata_at q (Some a) = Some (Some d).
Proof. intros Hl. unfold qdata_at. by rewrite (data_mid _ _ _ _ _ Hl). Qed.

(** The attempt on two neighbours, named in either order. *)
Lemma try_merge_pair q ys a da b db zs b1 ba bb b2 (swap : bool) :
  loose q (ys ++ (a, da) :: (b, db) :: zs) (b1 ++ ba :: bb :: b2) →
  Forall2 node_ok ys.*2 b1 → node_ok da ba → node_ok db bb → Forall2 node_ok zs.*2 b2 →
  let x := if swap then b else a in let y := if swap then a else b in
  try_merge junk htab0 q (Some x) (Some y) (Some a) (Some b) = Some (None, q) ∨
  ∃ q' t dt ys' zs', try_merge junk htab0 q (Some x) (Some y) (Some a) (Some b) = Some (Some (Some t), q') ∧
    around q' ys' t dt zs' b1 (ba ++ bb) b2 ∧ moved ys ys' ∧ moved zs zs' ∧ keep_fields q q'.
Proof.
  intros Hlo H1 Ha Hb H2 x y. pose proof (s_link _ _ (lo_shape _ _ _ Hlo)) as Hl.
  pose proof (qdata_at_mid q ys a da _ Hl) as Da.
  assert (qdata_at q (Some b) = Some (Some db)) as Db.
  { change (ys ++ (a, da) :: (b, db) :: zs) with (ys ++ [(a, da)] ++ (b, db) :: zs) in Hl. rewrite app_assoc in Hl.
    by eapply qdata_at_mid. }
  unfold try_merge. assert (qdata_at q (Some x) = Some (Some (if swap then db else da))) as -> by (by destruct swap).
  assert (qdata_at q (Some y) = Some (Some (if swap then da else db))) as -> by (by destruct swap).
  rewrite !some_bind.
  assert (_quicklistNodeAllowMerge (Some (if swap then db else da)) (Some (if swap then da else db)) (q_fill q) =
          _quicklistNodeAllowMerge (Some da) (Some db) (q_fill q)) as ->.
  { destruct swap; [apply allow_merge_comm|done]. }
  destruct (_quicklistNodeAllowMerge (Some da) (Some db) (q_fill q)) eqn:Hal; [right|by left].
  destruct (merge_spec q ys a da b db zs b1 ba bb b2 Hlo H1 Ha Hb H2 Hal) as (q' & t & dt & ys' & zs' & -> & Hlo' & ? & ? & ? & ? & ? & ?).
  exists q', t, dt, ys', zs'. by split.
Qed.

Lemma merge_left q A c dc B bA bs bB :
  around q A c dc B bA bs bB →
  ∃ r q' A' dc' B' bA', try_merge junk htab0 q (final None A) (final None (removelast A)) (final None (removelast A)) (final None A) = Some (r, q') ∧
    around q' A' c dc' B' bA' bs bB ∧ concat bA' = concat bA ∧ moved B B' ∧ keep_fields q q'.
Proof.
  intros [Hlo HA Hc HB]. pose proof (s_link _ _ (lo_shape _ _ _ Hlo)) as Hl.
  destruct (seg_last A) as [->|(A1 & a & da & ->)].
  { exists None, q, [], dc, B, bA. split; [done|]. split; [by split|]. split; [done|]. split; [apply moved_refl|done]. }
  rewrite removelast_last, final_app. cbn [final].
  destruct (seg_last A1) as [->|(A0 & e & de & ->)].
  { exists None, q, [(a, da)], dc, B, bA. cbn [final]. split; [|split; [by split|]; split; [done|]; split; [apply moved_refl|done]].
    apply (try_merge_no q _ _ _ _ (Some da) None); [by apply (qdata_at_mid q [] a da ((c, dc) :: B))|done|done]. }
  rewrite final_app. cbn [final]. rewrite <- app_assoc in Hlo, HA, Hl. cbn [app] in Hlo, HA, Hl.
  rewrite fmap_app, !fmap_cons in HA. apply Forall2_app_inv_l in HA as (b0 & l & H0 & Hr & ->).
  apply Forall2_cons_inv_l in Hr as (be & l' & He & Hr & ->). apply Forall2_cons_inv_l in Hr as (ba & l'' & Ha & Hnil & ->).
  apply Forall2_nil_inv_l in Hnil as ->. cbn [snd] in He, Ha. rewrite <- !app_assoc in Hlo. cbn [app] in Hlo.
  destruct (try_merge_pair q A0 e de a da ((c, dc) :: B) b0 be ba (bs :: bB) true Hlo H0 He Ha) as [Hno|Hyes];
    [by constructor| |].
  - cbn iota in Hno. exists None, q, (A0 ++ [(e, de); (a, da)]), dc, B, (b0 ++ [be; ba]). split; [done|].
    split; [|split; [done|]; split; [apply moved_refl|done]].
    split; [rewrite <- !app_assoc; exact Hlo| |done|done].
    change [(e, de); (a, da)] with ([(e, de)] ++ [(a, da)]). change [be; ba] with ([be] ++ [ba]). rewrite !app_assoc.
    by apply nodes_snoc; [apply nodes_snoc|].
  - cbn iota in Hyes. destruct Hyes as (q' & t & dt & A0' & Z' & -> & [Hlo' HL Ht HR] & My & Mz & Hk).
    apply Forall2_cons_inv_l in Mz as ([c' dc'] & B' & [Ec Hrc] & MB & ->). cbn [fst snd] in Ec, Hrc. subst c'.
    rewrite fmap_cons in HR. apply Forall2_cons in HR as [Hc' HB']. cbn [snd] in Hc'.
    exists (Some (Some t)), q', (A0' ++ [(t, dt)]), dc', B', (b0 ++ [be ++ ba]). split; [done|].
    split; [|split; [|done]].
    + split; [by rewrite <- !app_assoc|by apply nodes_snoc|done|done].
    + rewrite !concat_app. cbn. by rewrite !app_nil_r.
Qed.

Lemma merge_right q A c dc B bA bs bB :
  around q A c dc B bA bs bB →
  ∃ r q' A' dc' B' bB', try_merge junk htab0 q (first B None) (first (drop 1 B) None) (first B None) (first (drop 1 B) None) = Some (r, q') ∧
    around q' A' c dc' B' bA bs bB' ∧ concat bB' = concat bB ∧ keep_fields q q'.
Proof.
  intros [Hlo HA Hc HB]. pose proof (s_link _ _ (lo_shape _ _ _ Hlo)) as Hl.
  assert (A ++ (c, dc) :: B = (A ++ [(c, dc)]) ++ B) as Ex by (by rewrite <- app_assoc).
  assert (bA ++ bs :: bB = (bA ++ [bs]) ++ bB) as Eb by (by rewrite <- app_assoc).
  assert (Forall2 node_ok (A ++ [(c, dc)]).*2 (bA ++ [bs])) as HAc by (by apply nodes_snoc).
  destruct B as [|[a da] B].
  { exists None, q, A, dc, [], bB. split; [done|]. split; [by split|done]. }
  destruct B as [|[e de] B].
  { exists None, q, A, dc, [(a, da)], bB. split; [|split; [by split|done]]. cbn [first drop].
    rewrite Ex in Hl. apply (try_merge_no q _ _ _ _ (Some da) None); [by eapply qdata_at_mid|done|done]. }
  cbn [first drop]. rewrite !fmap_cons in HB. apply Forall2_cons_inv_l in HB as (ba & l & Ha & HB & ->).
  apply Forall2_cons_inv_l in HB as (be & bB' & He & HB & ->). cbn [snd] in Ha, He.
  pose proof Hlo as Hlo2. rewrite Ex, Eb in Hlo2.
  destruct (try_merge_pair q (A ++ [(c, dc)]) a da e de B (bA ++ [bs]) ba be bB' false Hlo2 HAc Ha He HB) as [Hno|Hyes]; cbn iota in *.
  - exists None, q, A, dc, ((a, da) :: (e, de) :: B), (ba :: be :: bB'). split; [done|]. split; [|done].
    split; [done|done|done|]. rewrite !fmap_cons. by constructor; [|constructor].
  - destruct Hyes as (q' & t & dt & Y' & B' & -> & [Hlo' HL Ht HR] & My & Mz & Hk).
    destruct (moved_app_inv _ _ _ My) as (A' & l & -> & MA & Ml).
    apply Forall2_cons_inv_l in Ml as ([c' dc'] & l' & [Ec Hrc] & Hnil & ->). apply Forall2_nil_inv_l in Hnil as ->.
    cbn [fst snd] in Ec, Hrc. subst c'. rewrite <- !app_assoc in Hlo'. cbn [app] in Hlo'.
    pose proof (moved_nodes _ _ _ MA HA) as HA'. pose proof (node_recode _ _ _ (proj1 Hrc) Hc) as Hc'.
    exists (Some (Some t)), q', A', dc', ((t, dt) :: B'), ((ba ++ be) :: bB'). split; [done|]. split; [|split; [|done]].
    + split; [done|done|done|]. rewrite fmap_cons. by constructor.
    + cbn. by rewrite <- app_assoc.
Qed.

Lemma merge_center q A c dc B bA bs bB :
  around q A c dc B bA bs bB →
  ∃ r q' t A' dt B' bss, try_merge junk htab0 q (Some c) (final None A) (final None A) (Some c) = Some (r, q') ∧
    match r with Some t => t | None => Some c end = Some t ∧ loose q' (A' ++ (t, dt) :: B') bss ∧
    concat bss = concat (bA ++ bs :: bB) ∧ keep_fields q q'.
Proof.
  intros [Hlo HA Hc HB]. pose proof (s_link _ _ (lo_shape _ _ _ Hlo)) as Hl.
  destruct (seg_last A) as [->|(A0 & a & da & ->)].
  { exists None, q, c, [], dc, B, (bA ++ bs :: bB). split; [|do 3 (split; [done|]); done].
    apply (try_merge_no q _ _ _ _ (Some dc) None); [by apply (qdata_at_mid q [] c dc B)|done|done]. }
  rewrite final_app. cbn [final]. rewrite <- app_assoc in Hlo, Hl. cbn [app] in Hlo, Hl.
  rewrite fmap_app in HA. apply Forall2_app_inv_l in HA as (b0 & l & H0 & Hr & ->).
  apply Forall2_cons_inv_l in Hr as (ba & l' & Ha & Hnil & ->). apply Forall2_nil_inv_l in Hnil as ->. cbn [snd] in Ha.
  rewrite <- !app_assoc in Hlo. cbn [app] in Hlo.
  destruct (try_merge_pair q A0 a da c dc B b0 ba bs bB true Hlo H0 Ha Hc HB) as [Hno|Hyes]; cbn iota in *.
  - exists None, q, c, (A0 ++ [(a, da)]), dc, B, (b0 ++ ba :: bs :: bB). split; [done|]. split; [done|].
    split; [by rewrite <- app_assoc|]. split; [by rewrite <- app_assoc|done].
  - destruct Hyes as (q' & t & dt & A0' & B' & -> & [Hlo' _ _ _] & _ & _ & Hk).
    exists (Some (Some t)), q', t, A0', dt, B', (b0 ++ (ba ++ bs) :: bB). split; [done|]. split; [done|].
    split; [done|]. split; [|done]. rewrite <- app_assoc. cbn [app]. rewrite !concat_mid. cbn [concat]. by rewrite <- !app_assoc.
Qed.

Lemma merge_target q A t dt B bss :
  loose q (A ++ (t, dt) :: B) bss →
  ∃ r q' xs bss', try_merge junk htab0 q (Some t) (first B None) (Some t) (first B None) = Some (r, q') ∧
    loose q' xs bss' ∧ concat bss' = concat bss ∧ keep_fields q q'.
Proof.
  intros Hlo. pose proof (s_link _ _ (lo_shape _ _ _ Hlo)) as Hl. pose proof (lo_nodes _ _ _ Hlo) as Hn.
  destruct B as [|[b db] B].
  { exists None, q, (A ++ [(t, dt)]), bss. split; [|do 2 (split; [done|]); done].
    apply (try_merge_no q _ _ _ _ (Some dt) None); [by eapply qdata_at_mid|done|done]. }
  cbn [first]. rewrite fmap_app, !fmap_cons in Hn. apply Forall2_app_inv_l in Hn as (b1 & l & H1 & Hn & ->).
  apply Forall2_cons_inv_l in Hn as (bt & l' & Ht & Hn & ->). apply Forall2_cons_inv_l in Hn as (bb & b2 & Hb & H2 & ->).
  destruct (try_merge_pair q A t dt b db B b1 bt bb b2 false Hlo H1 Ht Hb H2) as [Hno|Hyes]; cbn iota in *.
  - exists None, q, (A ++ (t, dt) :: (b, db) :: B), (b1 ++ bt :: bb :: b2). split; [done|]. do 2 (split; [done|]); done.
  - destruct Hyes as (q' & t' & dt' & A' & B' & -> & [Hlo' _ _ _] & _ & _ & Hk).
    eexists _, q', _, _. split; [done|]. split; [exact Hlo'|]. split; [|done]. rewrite !concat_mid. cbn [concat]. by rewrite <- !app_assoc.
Qed.

(** The neighbours of the neighbours. *)
Lemma load_prev q A R : linkage q (A ++ R) →
  match final None A with Some p => n ← q_nodes q !! p; Some (prev n) | None => Some None end = Some (final None (removelast A)).
Proof.
  intros Hl. destruct (seg_last A) as [->|(A0 & a & da & ->)]; [done|]. rewrite removelast_last, final_app. cbn [final].
  rewrite <- app_assoc in Hl. by rewrite (node_mid _ _ _ _ _ Hl).
Qed.

Lemma load_next q L B : linkage q (L ++ B) →
  match first B None with Some p => n ← q_nodes q !! p; Some (next n) | None => Some None end = Some (first (drop 1 B) None).
Proof. intros Hl. destruct B as [|[b db] B]; [done|]. cbn [first drop]. by rewrite (node_mid _ _ _ _ _ Hl). Qed.

Lemma keep_trans q1 q2 q3 : keep_fields q1 q2 → keep_fields q2 q3 → keep_fields q1 q3.
Proof. unfold keep_fields. intuition congruence. Qed.

Lemma merge_nodes_spec q A c dc B bA bs bB :
  around q A c dc B bA bs bB →
  ∃ q' xs bss, _quicklistMergeNodes junk htab0 q c = Some q' ∧ loose q' xs bss ∧
    concat bss = concat (bA ++ bs :: bB) ∧ keep_fields q q'.
Proof.
  intros Har. pose proof (s_link _ _ (lo_shape _ _ _ (ar_loose _ _ _ _ _ _ _ _ Har))) as Hl.
  unfold _quicklistMergeNodes. rewrite (node_mid _ _ _ _ _ Hl), some_bind. cbn [prev next]. cbv zeta.
  rewrite (load_prev q A _ Hl), some_bind. pose proof Hl as Hl'.
  change (A ++ (c, dc) :: B) with (A ++ [(c, dc)] ++ B) in Hl'. rewrite app_assoc in Hl'.
  rewrite (load_next q _ B Hl'), some_bind.
  destruct (merge_left q A c dc B bA bs bB Har) as (r1 & q1 & A1 & dc1 & B1 & bA1 & -> & Har1 & E1 & Mv & K1).
  rewrite some_bind. rewrite <- (moved_first _ _ Mv), <- (moved_first (drop 1 B) (drop 1 B1)) by (by apply Forall2_drop).
  destruct (merge_right q1 A1 c dc1 B1 bA1 bs bB Har1) as (r2 & q2 & A2 & dc2 & B2 & bB2 & -> & Har2 & E2 & K2).
  rewrite some_bind. pose proof (s_link _ _ (lo_shape _ _ _ (ar_loose _ _ _ _ _ _ _ _ Har2))) as Hl2.
  rewrite (node_mid _ _ _ _ _ Hl2), some_bind. cbn [prev].
  destruct (merge_center q2 A2 c dc2 B2 bA1 bs bB2 Har2) as (r3 & q3 & t & A3 & dt & B3 & bss3 & -> & Et & Hlo3 & E3 & K3).
  rewrite some_bind, Et. cbv zeta. pose proof (s_link _ _ (lo_shape _ _ _ Hlo3)) as Hl3.
  unfold qload. rewrite some_bind, (node_mid _ _ _ _ _ Hl3), some_bind. cbn [next].
  destruct (merge_target q3 A3 t dt B3 bss3 Hlo3) as (r4 & q4 & xs & bss & -> & Hlo4 & E4 & K4). rewrite some_bind.
  exists q4, xs, bss. split; [done|]. split; [done|]. split.
  - rewrite E4, E3, !concat_mid. by rewrite E1, E2.
  - eapply keep_trans; [exact K1|]. eapply keep_trans; [exact K2|]. by eapply keep_trans.
Qed.

(** ** Splitting a node *)
Lemma cut_tail zl bs (j : nat) :
  zip zl bs → fits bs → zlen bs < 2 ^ 16 → (j ≤ length bs)%nat →
  ∃ zl', ziplistDeleteRange junk zl (Z.of_nat j) (u32 (- 1)) = Some zl' ∧ zip zl' (take j bs).
Proof.
  intros Hz Hf Hs Hj. change (u32 (- 1)) with (2 ^ 32 - 1).
  destruct (delete_range_view junk zl bs (Z.of_nat j) (2 ^ 32 - 1) Hz Hf) as (zl' & -> & Hz'); [unfold in_s; pow2; lia|lia|].
  exists zl'. split; [done|]. unfold nth_of in Hz'. destruct (decide (0 ≤ Z.of_nat j < Z.of_nat (length bs))) as [H|H].
  - rewrite Nat2Z.id, (drop_ge bs), app_nil_r in Hz' by lia. done.
  - rewrite decide_False in Hz' by lia. by rewrite take_ge by lia.
Qed.

Lemma cut_head zl bs (j : nat) :
  zip zl bs → fits bs → zlen bs < 2 ^ 16 → bs ≠ [] → (j ≤ length bs)%nat →
  ∃ zl', ziplistDeleteRange junk zl 0 (u32 (Z.of_nat j)) = Some zl' ∧ zip zl' (drop j bs).
Proof.
  intros Hz Hf Hs Hne Hj. assert (u32 (Z.of_nat j) = Z.of_nat j) as -> by (unfold u32; apply wrapu_id; unfold in_u; pow2; lia).
  destruct (delete_range_view junk zl bs 0 (Z.of_nat j) Hz Hf) as (zl' & -> & Hz'); [unfold in_s; pow2; lia|lia|].
  exists zl'. split; [done|]. unfold nth_of in Hz'. rewrite decide_True in Hz' by (destruct bs; [done|simpl; lia]).
  by rewrite Nat2Z.id in Hz'.
Qed.

(** The two parts: what stays in the node, and what goes to the new one. *)
Definition kept_part {A} (after : bool) (k : nat) (l : list A) : list A := if after then take (S k) l else drop k l.
Definition new_part {A} (after : bool) (k : nat) (l : list A) : list A := if after then drop (S k) l else take k l.

Lemma split_ranges (after : bool) zl bs k :
  zip zl bs → fits bs → zlen bs < 2 ^ 16 → (k < length bs)%nat →
  (∃ zl', ziplistDeleteRange junk zl (if after then s32 (Z.of_nat k + 1) else 0)
            (u32 (if after then -1 else Z.of_nat k)) = Some zl' ∧ zip zl' (kept_part after k bs)) ∧
  (∃ zl', ziplistDeleteRange junk zl (if after then 0 else Z.of_nat k)
            (u32 (if after then s32 (Z.of_nat k + 1) else -1)) = Some zl' ∧ zip zl' (new_part after k bs)).
Proof.
  intros Hz Hf Hs Hk. assert (bs ≠ []) as Hne by (by destruct bs; [simpl in Hk; lia|]).
  assert (s32 (Z.of_nat k + 1) = Z.of_nat (S k)) as ->.
  { unfold s32. rewrite wraps_id; [lia|lia|]. unfold in_s. pow2. lia. }
  destruct after; cbn [kept_part new_part]; (split; [first [apply cut_tail|apply cut_head]|first [apply cut_head|apply cut_tail]]); (done || lia).
Qed.

Lemma part_sizes (after : bool) k bs :
  (k < length bs)%nat → Forall bytes_ok bs →
  kept_part after k bs ≠ [] ∧ zlen (kept_part after k bs) ≤ zlen bs ∧ zlen (new_part after k bs) + 1 ≤ zlen bs ∧
  total_size (kept_part after k bs) ≤ total_size bs ∧ total_size (new_part after k bs) ≤ total_size bs ∧
  Forall bytes_ok (kept_part after k bs) ∧ Forall bytes_ok (new_part after k bs).
Proof.
  intros Hk Hb. set (j := if after then S k else k).
  pose proof (total_size_app (take j bs) (drop j bs)) as E. rewrite take_drop in E.
  pose proof (total_size_pos (take j bs)). pose proof (total_size_pos (drop j bs)).
  assert (length (take j bs) = j ∧ length (drop j bs) = length bs - j)%nat as [L1 L2].
  { rewrite length_take, length_drop. unfold j. destruct after; lia. }
  assert (Forall bytes_ok (take j bs) ∧ Forall bytes_ok (drop j bs)) as [B1 B2] by (split; [by apply Forall_take|by apply Forall_drop]).
  unfold kept_part, new_part. unfold total_size in *.
  destruct after; unfold j in *; (split; [apply ne_length; lia|]); (split; [lia|]); (split; [lia|]); (split; [lia|]); (split; [lia|]); done.
Qed.

(** The node keeps its part; the new node, not linked yet, has the other. *)
Lemma split_node_spec q ys a d zs b1 bs b2 k (after : bool) :
  loose q (ys ++ (a, d) :: zs) (b1 ++ bs :: b2) → node_ok d bs → (k < length bs)%nat →
  ∃ q' d' n zl, _quicklistSplitNode junk q a (Z.of_nat k) after =
      Some (fresh (dom (q_nodes q')), qstore q' (fresh (dom (q_nodes q'))) (mk_node None None n)) ∧
    qshape q' (ys ++ (a, d') :: zs) ∧ node_ok d' (kept_part after k bs) ∧ same_fields q q' ∧
    plain n ∧ n_zl n = Some zl ∧ zip zl (new_part after k bs) ∧ n_count n = zlen (new_part after k bs).
Proof.
  intros [Hs _ H0 _] Hd Hk. pose proof (off_plain q ys a d zs Hs H0) as Hp.
  destruct (node_view d bs Hd (proj1 Hp)) as (zl & pos & Ezl & Hz & _).
  destruct (no_block _ _ Hd) as (Hby & Hf & _). pose proof (no_small _ _ Hd) as Hsm. pose proof (no_size _ _ Hd) as Hts.
  destruct (block_raw _ _ (no_block _ _ Hd) (proj1 Hp)) as (_ & _ & zl0 & E0 & _ & Esz). rewrite Ezl in E0. injection E0 as <-.
  destruct (part_sizes after k bs Hk Hby) as (P1 & P2 & P3 & P4 & P5 & P6 & P7).
  destruct (split_ranges after zl bs k Hz Hf Hsm Hk) as [(zo & Ho & Hzo) (zn & Hn & Hzn)].
  unfold _quicklistSplitNode. rewrite (data_mid _ _ _ _ _ (s_link _ _ Hs)), some_bind, Ezl, some_bind, Esz, mread_all, some_bind by done.
  cbv zeta. rewrite Ho, some_bind. destruct (ziplistLen_counts _ _ Hzo) as (zo' & -> & Hzo'). rewrite some_bind. cbv beta iota.
  rewrite (update_sz _ zo' _ Hzo'), some_bind by done. set (d' := set_sz _ _).
  destruct (put_shape q ys a d zs d' Hs) as (q' & -> & Hs' & Hf'); [done|done|]. rewrite some_bind, Hn, some_bind.
  destruct (ziplistLen_counts _ _ Hzn) as (zn' & -> & Hzn'). rewrite some_bind. cbv beta iota.
  rewrite (update_sz _ zn' _ Hzn'), some_bind by done. unfold qalloc. eexists q', d', _, zn'. split; [done|].
  assert (∀ x, 0 ≤ x ≤ zlen bs → u16 x = x) as Hu by (intros x Hx; unfold u16; apply wrapu_id; unfold in_u; lia).
  split; [done|]. split.
  - apply (raw_node d' zo'); try done; [apply Hp|cbn; apply Hu; lia|lia|lia].
  - split; [done|]. split; [done|]. split; [done|]. split; [done|]. cbn. apply Hu. lia.
Qed.

(** ** The insertion *)
Lemma qdata_at_prev q ys R : linkage q (ys ++ R) → qdata_at q (final None ys) = Some (snd <$> last ys).
Proof.
  intros Hl. destruct (seg_last ys) as [->|(ys0 & b & db & ->)]; [done|].
  rewrite final_app, last_snoc. cbn [final]. rewrite <- app_assoc in Hl. by rewrite (qdata_at_mid _ _ _ _ _ Hl).
Qed.

Lemma qdata_at_next q L zs : linkage q (L ++ zs) → qdata_at q (first zs None) = Some (snd <$> hd_error zs).
Proof. intros Hl. destruct zs as [|[b db] zs]; [done|]. cbn [first]. by rewrite (qdata_at_mid _ _ _ _ _ Hl). Qed.

Lemma put_fresh q a n n' :
  qput (qstore q a (mk_node None None n)) a n' = Some (qstore q a (mk_node None None n')).
Proof. unfold qput, qstore. cbn. rewrite lookup_insert_eq, some_bind. unfold set_qnodes. cbn. by rewrite insert_insert_eq. Qed.

Lemma data_fresh q a n : qdata_of (qstore q a (mk_node None None n)) a = Some n.
Proof. unfold qdata_of, qstore. cbn. by rewrite lookup_insert_eq. Qed.

Lemma insert_parts {A} (after : bool) k (v : A) l :
  insert_at after k v l =
    if after then kept_part true k l ++ v :: new_part true k l else (new_part false k l ++ [v]) ++ kept_part false k l.
Proof. destruct after; [done|]. cbn. by rewrite <- app_assoc. Qed.

(** The last branch: split, push to the new node, link it and merge. *)
Lemma split_insert_spec q ys a d zs b1 bs b2 k v (after : bool) :
  loose q (ys ++ (a, d) :: zs) (b1 ++ bs :: b2) → Forall2 node_ok ys.*2 b1 → node_ok d bs → Forall2 node_ok zs.*2 b2 →
  (k < length bs)%nat → storable v → total_size bs + 14 + zlen v < 2 ^ 31 → zlen (ys ++ (a, d) :: zs) + 1 < 2 ^ 32 →
  ∃ q' xs bss, ('(new_node, q) ← _quicklistSplitNode junk q a (Z.of_nat k) after;
     n ← qdata_of q new_node; zl ← n_zl n;
     zl ← ziplistPush junk zl v (if after then ZIPLIST_HEAD else ZIPLIST_TAIL);
     n ← quicklistNodeUpdateSz (set_ncount (n_count n + 1) (set_zl (Some zl) n));
     q ← qput q new_node n;
     q ← __quicklistInsertNode junk htab0 q (Some a) new_node after;
     _quicklistMergeNodes junk htab0 q a) = Some q' ∧
    loose q' xs bss ∧ concat bss = concat b1 ++ insert_at after k v bs ++ concat b2 ∧ keep_fields q q'.
Proof.
  intros Hlo H1 Hd H2 Hk Hv Hts Hlen. pose proof Hlo as [Hs0 _ H0 Hc0].
  destruct (no_block _ _ Hd) as (Hby & _ & _). destruct (part_sizes after k bs Hk Hby) as (P1 & P2 & P3 & P4 & P5 & P6 & P7).
  destruct (split_node_spec q ys a d zs b1 bs b2 k after Hlo Hd Hk) as (q1 & d1 & n & zl & -> & Hs1 & Hd1 & Hf1 & Hpn & Ezl & Hz & Hcn).
  rewrite some_bind. cbv beta iota. set (c := fresh (dom (q_nodes q1))). pose proof (no_small _ _ Hd) as Hsm.
  rewrite data_fresh, some_bind, Ezl, some_bind.
  destruct (push_view junk zl (new_part after k bs) v (if after then ZIPLIST_HEAD else ZIPLIST_TAIL) Hz) as (zl' & -> & Hz').
  { unfold fits. cbn [total_size foldr]. unfold total_size in *. lia. }
  rewrite some_bind, (update_sz _ zl' _ Hz'), some_bind by done. set (nn := set_sz _ _). set (nb := push_at _ _ _) in *.
  assert (zlen nb = zlen (new_part after k bs) + 1) as Hnb by (unfold nb; destruct after; cbn; rewrite ?length_app; simpl; lia).
  assert (total_size nb = total_size (new_part after k bs) + 14 + zlen v) as Htn.
  { unfold nb. destruct after; cbn [push_at]; rewrite ?total_size_app; cbn [total_size foldr]; unfold total_size in *; lia. }
  assert (node_ok nn nb) as Hnn.
  { apply (raw_node nn zl'); try done; [apply Hpn| |apply ne_length; lia| |lia|lia].
    - unfold nb. destruct after; cbn; [constructor; [apply Hv|done]|apply Forall_app; split; [done|]; constructor; [apply Hv|done]].
    - cbn. rewrite Hcn. unfold u16. rewrite wrapu_id; [lia|]. unfold in_u. lia. }
  rewrite put_fresh, some_bind. destruct Hf1 as [F1 F2 F3 F4].
  destruct (insert_node_spec junk htab0 q1 ys a d1 zs c nn after Hs1) as (q2 & xs2 & -> & Hs2 & Hmv & E1 & E2 & E3).
  { eapply blocks_app_cons; [done|done|]. eexists. apply Hd1. }
  { apply not_elem_of_dom, is_fresh. }
  { apply Hpn. }
  { eexists. apply Hnn. }
  { intros N. destruct N. by apply (off_plain q1 ys a d1 zs Hs1); congruence. }
  { revert Hlen. rewrite !length_app. done. }
  rewrite some_bind.
  assert (∃ A' d2 B' bA bB, xs2 = A' ++ (a, d2) :: B' ∧ around q2 A' a d2 B' bA (kept_part after k bs) bB ∧
    concat bA ++ kept_part after k bs ++ concat bB = concat b1 ++ insert_at after k v bs ++ concat b2)
    as (A' & d2 & B' & bA & bB & -> & Har & Econ).
  { assert (∀ A B bA bB, moved (A ++ (a, d1) :: B) xs2 → Forall2 node_ok A.*2 bA → Forall2 node_ok B.*2 bB →
      ∃ A' d2 B', xs2 = A' ++ (a, d2) :: B' ∧ around q2 A' a d2 B' bA (kept_part after k bs) bB) as Hgen.
    { intros A B bA bB Hm HA HB. destruct (moved_app_inv _ _ _ Hm) as (A' & l & -> & MA & Ml).
      apply Forall2_cons_inv_l in Ml as ([a' d2] & B' & [Ea Hra] & MB & ->). cbn [fst snd] in Ea, Hra. subst a'.
      exists A', d2, B'. split; [done|].
      assert (Forall2 node_ok A'.*2 bA ∧ Forall2 node_ok B'.*2 bB) as [HA' HB'] by (split; by eapply moved_nodes).
      assert (node_ok d2 (kept_part after k bs)) as Hd2 by (eapply node_recode; [apply Hra|done]).
      split; [|done|done|done]. split; [done| |congruence|by rewrite E1, F1].
      rewrite fmap_app, fmap_cons. apply Forall2_app; [done|]. by constructor. }
    rewrite insert_parts. destruct after.
    - destruct (Hgen ys ((c, nn) :: zs) b1 (nb :: b2) Hmv H1) as (A' & d2 & B' & -> & Har); [by constructor|].
      exists A', d2, B', b1, (nb :: b2). split; [done|]. split; [done|]. cbn [concat]. unfold nb. cbn [push_at]. by rewrite <- !app_assoc.
    - change (ys ++ (c, nn) :: (a, d1) :: zs) with (ys ++ [(c, nn)] ++ (a, d1) :: zs) in Hmv. rewrite app_assoc in Hmv.
      destruct (Hgen (ys ++ [(c, nn)]) zs (b1 ++ [nb]) b2 Hmv) as (A' & d2 & B' & -> & Har); [by apply nodes_snoc|done|].
      exists A', d2, B', (b1 ++ [nb]), b2. split; [done|]. split; [done|]. rewrite concat_app. cbn [concat]. unfold nb. cbn [push_at].
      by rewrite app_nil_r, <- !app_assoc. }
  destruct (merge_nodes_spec q2 A' a d2 B' bA _ bB Har) as (q3 & xs3 & bss3 & -> & Hlo3 & E3c & [K1 K2]).
  exists q3, xs3, bss3. split; [done|]. split; [done|]. split; [by rewrite E3c, concat_mid|]. split; congruence.
Qed.

(** The counter is brought up to date at the end. *)
Lemma loose_finish q xs bss n :
  loose q xs bss → q_count q = n → n + 1 = zlen (concat bss) → n + 1 < 2 ^ 32 → in_s 16 (q_fill q) →
  qlist (set_qcount (q_count q + 1) q) (concat bss).
Proof.
  intros [Hs Hn H0 _] Ec Hlen Hb Hf. exists xs, bss. split; [|done].
  split; [by apply shape_count|done|rewrite set_count_val by lia; lia|lia|done].
Qed.

(** A full node, the entry first in it and a node before that: into that node if
    there is room, else into a node of its own. *)
Lemma insert_before_head q ys p dp a d zs b1 bp bs b2 v :
  qinv q ((ys ++ [(p, dp)]) ++ (a, d) :: zs) ((b1 ++ [bp]) ++ bs :: b2) →
  Forall2 node_ok ys.*2 b1 → node_ok dp bp → node_ok d bs → Forall2 node_ok zs.*2 b2 → q_compress q = 0 →
  storable v → zlen (concat ((b1 ++ [bp]) ++ bs :: b2)) + 1 < 2 ^ 32 →
  ∃ q', (if _quicklistNodeAllowInsert (Some dp) (q_fill q) (zlen v) then push_into junk htab0 q p v ZIPLIST_TAIL
         else n ← new_node_with junk v ZIPLIST_HEAD;
              let '(new_node, q) := qalloc q (mk_node None None (set_ncount (n_count n + 1) n)) in
              __quicklistInsertNode junk htab0 q (Some a) new_node false) = Some q' ∧
    qlist (set_qcount (q_count q' + 1) q') (concat (b1 ++ [bp]) ++ v :: bs ++ concat b2).
Proof.
  intros [Hs Hn Hc Hb Hf] H1 Hp Hd H2 H0 Hv Hlen.
  assert (Forall2 node_ok ((a, d) :: zs).*2 (bs :: b2)) as Hr by (by constructor).
  destruct (_quicklistNodeAllowInsert (Some dp) (q_fill q) (zlen v)) eqn:Ha.
  - pose proof Hs as Hs'. rewrite <- app_assoc in Hs'. cbn [app] in Hs'. rewrite <- app_assoc in Hc, Hlen. cbn [app] in Hc, Hlen.
    destruct (push_into_spec q ys p dp ((a, d) :: zs) b1 bp (bs :: b2) v ZIPLIST_TAIL Hs' H1 Hp Hr) as (q' & dp' & -> & Hs2 & Hp2 & Hf2);
      [intros N; destruct N; by apply (off_plain q ys p dp _ Hs')|done|done|].
    exists q'. split; [done|]. eapply (insert_finish q q' ys p dp' _ b1 bp _ (bs :: b2)); try done; [lia| |].
    + cbn. rewrite length_app. simpl. lia.
    + rewrite concat_app, concat_mid. cbn. by rewrite app_nil_r, <- !app_assoc.
  - destruct (qnode_new_spec junk v ZIPLIST_HEAD Hv) as (n & -> & Hpn & Hbn & Hcn). rewrite some_bind. unfold qalloc. rewrite Hcn.
    set (c := fresh _). set (n1 := set_ncount _ _).
    assert (node_ok n1 [v]) as Hn1 by (apply single_ok; [done|by destruct Hbn|done]).
    pose proof (nodes_length _ _ Hn) as Hnl. rewrite length_fmap in Hnl.
    destruct (insert_node_spec junk htab0 q (ys ++ [(p, dp)]) a d zs c n1 false Hs) as (q' & xs' & -> & Hs2 & Hmv & E1 & E2 & E3);
      [by eapply nodes_blocks|apply not_elem_of_dom, is_fresh|done|by exists [v]; apply Hn1| |lia|].
    { intros N. destruct N. by apply (off_plain q (ys ++ [(p, dp)]) a d zs). }
    exists q'. split; [done|]. exists xs', ((b1 ++ [bp]) ++ [v] :: bs :: b2). split; [|by rewrite (concat_mid (b1 ++ [bp]))].
    rewrite (concat_mid (b1 ++ [bp])), !length_app in Hc, Hlen. split; [by apply shape_count| | | |cbn; by rewrite E2].
    + eapply moved_nodes; [exact Hmv|]. rewrite fmap_app. apply Forall2_app; [by apply nodes_snoc|]. by constructor.
    + rewrite set_count_val, E1, Hc, (concat_mid (b1 ++ [bp])), !length_app by lia. cbn [concat]. rewrite length_app. simpl. lia.
    + rewrite (concat_mid (b1 ++ [bp])), !length_app. cbn [concat]. rewrite length_app. simpl. lia.
Qed.

Lemma insert_entry_spec q ys a d zs b1 bs b2 e zl pos k v (after : bool) :
  qinv q (ys ++ (a, d) :: zs) (b1 ++ bs :: b2) → Forall2 node_ok ys.*2 b1 → node_ok d bs → Forall2 node_ok zs.*2 b2 →
  q_compress q = 0 → n_zl d = Some zl → zip zl bs → entries zl bs pos → (k < length bs)%nat →
  qe_node e = Some a → qe_zi e = Some (pos k) → qe_offset e = Z.of_nat k →
  storable v → roomy v → total_size bs + 14 + zlen v < 2 ^ 31 → q_count q + 1 < 2 ^ 32 →
  ∃ q', _quicklistInsert junk htab0 q e v after = Some q' ∧ qlist q' (concat b1 ++ insert_at after k v bs ++ concat b2).
Proof.
  intros Hi H1 Hd H2 H0 Ezl Hz He Hk En Ezi Eo Hv Hroom Hts Hcnt. pose proof Hi as [Hs Hn Hc Hb Hf].
  pose proof (s_link _ _ Hs) as Hl. destruct (off_plain q ys a d zs Hs H0) as [Hr Hm].
  unfold _quicklistInsert. rewrite En, (node_mid _ _ _ _ _ Hl), some_bind. cbn [next prev value].
  pose proof Hl as Hl'. change (ys ++ (a, d) :: zs) with (ys ++ [(a, d)] ++ zs) in Hl'. rewrite app_assoc in Hl'.
  rewrite (qdata_at_next q _ zs Hl'), some_bind, (qdata_at_prev q ys _ Hl), some_bind. cbv zeta.
  rewrite Eo, (no_count _ _ Hd), (proj2 (Z.eqb_neq _ _)) by lia. rewrite andb_false_r. cbn [andb orb].
  destruct (_quicklistNodeAllowInsert (Some d) (q_fill q) (zlen v)) eqn:Ha; cbn [negb].
  - rewrite Ezi. destruct (insert_into_spec q ys a d zs b1 bs b2 zl pos k v after) as (q' & d' & -> & Hs2 & Hd2 & Hf2); try done.
    rewrite some_bind. eexists. split; [done|]. eapply (insert_finish q q' ys a d' zs b1 bs _ b2); try done.
    + by apply length_insert_at.
    + by rewrite concat_mid.
  - destruct (negb after && (Z.of_nat k =? 0) && bool_decide (final None ys ≠ None)) eqn:Eh.
    + apply andb_true_iff in Eh as [Eh Hp]. apply andb_true_iff in Eh as [Eaf Ek]. apply Z.eqb_eq in Ek.
      apply bool_decide_eq_true in Hp. destruct after; [done|]. assert (k = 0%nat) as -> by lia.
      destruct (seg_last ys) as [->|(ys0 & p & dp & ->)]; [done|]. rewrite last_snoc, final_app in *. cbn [final] in *.
      rewrite fmap_app in H1. apply Forall2_app_inv_l in H1 as (b0 & l & H1 & Hp1 & ->).
      apply Forall2_cons_inv_l in Hp1 as (bp & l' & Hp1 & Hnil & ->). apply Forall2_nil_inv_l in Hnil as ->. cbn [snd] in Hp1.
      destruct (insert_before_head q ys0 p dp a d zs b0 bp bs b2 v Hi H1 Hp1 Hd H2 H0 Hv) as (q' & Hrun & Hq); [lia|].
      exists (set_qcount (q_count q' + 1) q'). split; [|by unfold insert_at; cbn [take drop]].
      change (Z.of_nat 0 =? 0) with true. cbn [negb andb fmap option_fmap option_map snd].
      destruct (_quicklistNodeAllowInsert (Some dp) (q_fill q) (zlen v)); cbn [negb andb orb]; rewrite ?some_bind; by rewrite Hrun, some_bind.
    + cbn [andb orb]. rewrite (use_raw q ys a d zs Hl Hr), some_bind.
      destruct (split_insert_spec q ys a d zs b1 bs b2 k v after) as (q' & xs & bss & -> & Hlo & Econ & [K1 K2]); try done.
      { split; [done|done|done|]. rewrite Hc. unfold in_u. pow2. lia. }
      { pose proof (nodes_length _ _ Hn) as Hnl. rewrite length_fmap in Hnl. lia. }
      rewrite some_bind. eexists. split; [done|]. rewrite <- Econ.
      apply (loose_finish q' xs bss (q_count q)); try done; [|by rewrite K2].
      rewrite Econ, Hc, concat_mid, !length_app, !Nat2Z.inj_add, length_insert_at by done. lia.
Qed.
End insert.
