(* ===== verification/QuickProps.v ===== *)
(** * Quick lists: what they promise

    The options of a list and the marks of its nodes through the operations;
    histories of operations against lists of strings; iteration; and the
    inputs on which the code does not do what it means to. *)

From S2P Require Import Prelude Decimal Util Adlist Lzf Zipenc Ziplist ZipRead ZipView Quicklist QuickNodes QuickOps QuickRange QuickIter QuickInsert.

#[local] Set Default Proof Using "Type".

(** ** Options and marks *)

(** No operation changes [fill] or [compress]. *)
Definition same_opts (q q' : quicklist) : Prop := q_fill q' = q_fill q ∧ q_compress q' = q_compress q.
(** ... and some do not mark nodes either. *)
Definition tame (q q' : quicklist) : Prop := same_opts q q' ∧ (calm q → calm q').

#[export] Instance same_opts_preorder : PreOrder same_opts.
Proof. split; [done|]. intros q1 q2 q3 [? ?] [? ?]. split; congruence. Qed.
#[export] Instance tame_preorder : PreOrder tame.
Proof. split; [by intros q; split|]. intros q1 q2 q3 [? ?] [? ?]. split; [by etrans|auto]. Qed.

Lemma tame_opts q q' : tame q q' → same_opts q q'.
Proof. by intros []. Qed.

(** [binds] takes the run of an operation apart; [chain] composes what is known of its steps. *)
Ltac binds :=
  repeat match goal with
  | H : Some _ = Some _ |- _ => injection H as H
  | H : (_, _) = (_, _) |- _ => injection H as ? ?
  | H : None = Some _ |- _ => discriminate H
  | H : (_ ≫= _) = Some _ |- _ => apply bind_Some in H as (? & ? & H)
  | H : (_ <$> _) = Some _ |- _ => apply fmap_Some in H as (? & H & ?)
  | H : match ?x with _ => _ end = Some _ |- _ => destruct x eqn:?
  end; subst.
Ltac chain R :=
  repeat match goal with
  | H : R ?q1 ?q2 |- R ?q1 ?q3 => first [exact H|etrans; [exact H|]]; clear H
  end; try reflexivity.

Lemma tame_store q a n : n_recompress (value n) = 0 → tame q (qstore q a n).
Proof.
  intros Hn. split; [done|]. intros Hc b m. cbn. destruct (decide (a = b)) as [->|N].
  - rewrite lookup_insert_eq. by intros [= <-].
  - rewrite lookup_insert_ne by done. apply Hc.
Qed.

Lemma tame_put q a d q' : qput q a d = Some q' → n_recompress d = 0 → tame q q'.
Proof. unfold qput. intros H Hd. binds. by apply tame_store. Qed.

(** The marks that were there stay the only ones. *)
Lemma tame_over q a n n' :
  q_nodes q !! a = Some n → n_recompress (value n') = n_recompress (value n) ∨ n_recompress (value n') = 0 → tame q (qstore q a n').
Proof.
  intros Ha Hn. split; [done|]. intros Hc. apply tame_store; [|done]. destruct Hn as [-> | ->]; [apply (Hc _ _ Ha)|done].
Qed.

Lemma tame_like q a d d0 q' :
  qput q a d = Some q' → qdata_of q a = Some d0 → n_recompress d = n_recompress d0 ∨ n_recompress d = 0 → tame q q'.
Proof. unfold qput, qdata_of. intros H H0 Hd. binds. apply (tame_over q a x); [done|]. cbn. simplify_eq. done. Qed.

Lemma tame_set_prev q p x q' : qset_prev q p x = Some q' → tame q q'.
Proof. unfold qset_prev. intros H. binds. eapply tame_over; [done|by left]. Qed.

Lemma tame_set_next q p x q' : qset_next q p x = Some q' → tame q q'.
Proof. unfold qset_next. intros H. binds. eapply tame_over; [done|by left]. Qed.

(** The other fields of the structure. *)
Lemma tame_fields q q' : q_nodes q' = q_nodes q → q_fill q' = q_fill q → q_compress q' = q_compress q → tame q q'.
Proof. intros E1 E2 E3. split; [done|]. unfold calm. by rewrite E1. Qed.

Lemma tame_delete q a : tame q (set_qnodes (delete a (q_nodes q)) q).
Proof. split; [done|]. intros Hc b m. cbn. intros [_ Hb]%lookup_delete_Some. by eapply Hc. Qed.

Lemma update_mark d d' : quicklistNodeUpdateSz d = Some d' → n_recompress d' = n_recompress d.
Proof. unfold quicklistNodeUpdateSz. intros H. by binds. Qed.

Create HintDb tame.
#[export] Hint Resolve tame_set_prev tame_set_next : tame.

(** Follows the run back from its last state to the first. *)
Ltac back1 :=
  match goal with
  | |- tame ?q ?q => reflexivity
  | |- tame _ (set_qcount _ ?q) => etrans; [|by apply (tame_fields q)]
  | |- tame _ (set_qlen _ ?q) => etrans; [|by apply (tame_fields q)]
  | |- tame _ (set_qhead _ ?q) => etrans; [|by apply (tame_fields q)]
  | |- tame _ (set_qtail _ ?q) => etrans; [|by apply (tame_fields q)]
  | |- tame _ (set_qnodes (delete _ _) ?q) => etrans; [|apply (tame_delete q)]
  | |- tame _ (if _ then _ else _) => case_match
  | |- tame _ ?q => is_var q; etrans; [|solve [eauto 2 with tame]]
  end.
Ltac follow := binds; repeat back1.

Section marks.
Context (junk : nat → Z) (htab0 : Z → Z).

Lemma compress_mark d r d' :
  __quicklistCompressNode junk htab0 d = Some (r, d') → n_recompress d' = n_recompress d ∨ n_recompress d' = 0.
Proof. unfold __quicklistCompressNode. intros H. binds; auto. Qed.

Lemma decompress_mark d r d' : __quicklistDecompressNode junk d = Some (r, d') → n_recompress d' = n_recompress d.
Proof. unfold __quicklistDecompressNode. intros H. by binds. Qed.

Lemma tame_compress_node q p q' : quicklistCompressNode junk htab0 q p = Some q' → tame q q'.
Proof.
  unfold quicklistCompressNode. intros H. binds; try reflexivity.
  eapply tame_like; [done|done|by eapply compress_mark].
Qed.

Lemma tame_decompress_node q p q' : quicklistDecompressNode junk q p = Some q' → tame q q'.
Proof.
  unfold quicklistDecompressNode. intros H. binds; try reflexivity.
  eapply tame_like; [done|done|]. left. by eapply decompress_mark.
Qed.
#[local] Hint Resolve tame_compress_node tame_decompress_node : tame.

Lemma tame_depth_loop k : ∀ q f r node ind q' out, depth_loop junk k q f r node ind = Some (q', out) → tame q q'.
Proof.
  induction k as [|k IH]; intros q f r node ind q' out H; cbn [depth_loop] in H; binds; try reflexivity; follow.
Qed.
#[local] Hint Resolve tame_depth_loop : tame.

Lemma tame_compress q node q' : __quicklistCompress junk htab0 q node = Some q' → tame q q'.
Proof. unfold __quicklistCompress. intros H. binds; follow. Qed.
#[local] Hint Resolve tame_compress : tame.

Lemma tame_quicklistCompress q p q' : quicklistCompress junk htab0 q p = Some q' → tame q q'.
Proof. unfold quicklistCompress. intros H. binds; follow. Qed.
#[local] Hint Resolve tame_quicklistCompress : tame.

Lemma tame_recompress q p q' : quicklistRecompressOnly junk htab0 q p = Some q' → tame q q'.
Proof. unfold quicklistRecompressOnly. intros H. binds; follow. Qed.

Lemma tame_link q o n after q' : link_node q o n after = Some q' → tame q q'.
Proof. unfold link_node. intros H. binds; follow. Qed.

Lemma tame_unlink q p q' : unlink_node q p = Some q' → tame q q'.
Proof. unfold unlink_node. intros H. binds; follow. Qed.
#[local] Hint Resolve tame_recompress tame_link tame_unlink : tame.

Lemma tame_insert_node q o n after q' : __quicklistInsertNode junk htab0 q o n after = Some q' → tame q q'.
Proof. unfold __quicklistInsertNode. intros H. binds; follow. Qed.

Lemma tame_del_node q p q' : __quicklistDelNode junk htab0 q p = Some q' → tame q q'.
Proof. unfold __quicklistDelNode. intros H. binds; follow. Qed.
#[local] Hint Resolve tame_insert_node tame_del_node : tame.

Lemma push_mark d v w d' : push_node junk d v w = Some d' → n_recompress d' = n_recompress d.
Proof. unfold push_node. intros H. binds. match goal with H : _ = Some d' |- _ => by apply update_mark in H end. Qed.

Lemma new_mark v w d : new_node_with junk v w = Some d → n_recompress d = 0.
Proof. unfold new_node_with. intros H. binds. match goal with H : _ = Some d |- _ => by apply push_mark in H end. Qed.

Lemma tame_alloc q n p q' : qalloc q n = (p, q') → n_recompress (value n) = 0 → tame q q'.
Proof. unfold qalloc. intros [= _ <-] Hn. by apply tame_store. Qed.

Lemma tame_push q v w q' : quicklistPush junk htab0 q v w = Some q' → tame q q'.
Proof.
  unfold quicklistPush, quicklistPushHead, quicklistPushTail. intros H. destruct w; binds; cbn [snd].
  all: repeat match goal with
    | H : push_node _ _ _ _ = Some _ |- _ => apply push_mark in H
    | H : new_node_with _ _ _ = Some _ |- _ => apply new_mark in H
    | H : qalloc _ _ = _ |- _ => apply tame_alloc in H; [|done]
    | H : _quicklistInsertNodeBefore _ _ _ _ _ = Some _ |- _ => apply tame_insert_node in H
    | H : _quicklistInsertNodeAfter _ _ _ _ _ = Some _ |- _ => apply tame_insert_node in H
    | H : qput (set_qcount _ _) _ _ = Some _ |- _ => eapply tame_like in H; [|done|by left]
    | H : qput _ _ ?d = Some _, E : n_recompress ?d = _ |- _ => eapply tame_like in H; [|done|by left]
    end.
  all: repeat match goal with H : tame _ ?q |- tame _ ?q => etrans; [|exact H] | _ => back1 end.
Qed.

Lemma tame_del_index q p i r q' : quicklistDelIndex junk htab0 q p i = Some (r, q') → tame q q'.
Proof.
  unfold quicklistDelIndex. intros H. binds.
  all: repeat match goal with
    | H : quicklistNodeUpdateSz _ = Some _ |- _ => apply update_mark in H
    end.
  - do 2 back1. eapply tame_like; [done|done|by left].
  - back1. match goal with H1 : qput q p ?d1 = Some ?q1, H2 : qput ?q1 p ?d2 = Some ?q2 |- _ =>
      etrans; [eapply tame_like; [exact H1|done|by left]|]; eapply (tame_like q1 p d2 d1); [exact H2| |by left] end.
    match goal with H1 : qput q p ?d1 = Some ?q1 |- qdata_of ?q1 p = _ =>
      unfold qput in H1; binds; unfold qdata_of; cbn; by rewrite lookup_insert_eq end.
Qed.

Lemma tame_pop q w r q' : quicklistPop junk htab0 q w = Some (r, q') → tame q q'.
Proof.
  unfold quicklistPop, quicklistPopCustom. intros H. binds; try reflexivity; by eapply tame_del_index.
Qed.

Lemma opts_put q a d q' : qput q a d = Some q' → same_opts q q'.
Proof. unfold qput. intros H. by binds. Qed.

Lemma opts_use q p q' : quicklistDecompressNodeForUse junk q p = Some q' → same_opts q q'.
Proof. unfold quicklistDecompressNodeForUse. intros H. binds; try done; by eapply opts_put. Qed.

Ltac back_opts :=
  match goal with
  | |- same_opts ?q ?q => reflexivity
  | |- same_opts _ (set_qcount _ ?q) => transitivity q; [|done]
  | |- same_opts _ (qstore ?q _ _) => transitivity q; [|done]
  | |- same_opts _ ?q => is_var q; etrans; [|solve [eauto 3 using tame_opts with tame opts]]
  end.

Create HintDb opts.
#[local] Hint Resolve opts_put opts_use : opts.

Lemma opts_index q i b e q' : quicklistIndex junk q i = Some (b, e, q') → same_opts q q'.
Proof. unfold quicklistIndex. intros H. binds; repeat back_opts. Qed.
#[local] Hint Resolve opts_index : opts.

Lemma opts_replace q i v b q' : quicklistReplaceAtIndex junk htab0 q i v = Some (b, q') → same_opts q q'.
Proof. unfold quicklistReplaceAtIndex. intros H. binds; repeat back_opts. Qed.

Lemma opts_range_node q p o del b q' : range_node junk htab0 q p o del b = Some q' → same_opts q q'.
Proof. unfold range_node, quicklistDeleteIfEmpty. intros H. binds; repeat back_opts. Qed.
#[local] Hint Resolve opts_range_node : opts.

Lemma opts_delrange_loop fuel : ∀ q p o e q', delrange_loop junk htab0 fuel q p o e = Some q' → same_opts q q'.
Proof.
  induction fuel as [|fuel IH]; intros q p o e q' H; cbn [delrange_loop] in H; binds; try done.
  etrans; [|by eapply IH]. by eapply opts_range_node.
Qed.
#[local] Hint Resolve opts_delrange_loop : opts.

Lemma opts_del_range q i n b q' : quicklistDelRange junk htab0 q i n = Some (b, q') → same_opts q q'.
Proof. unfold quicklistDelRange. intros H. binds; repeat back_opts. Qed.

Lemma opts_merge q a b r q' : _quicklistZiplistMerge junk htab0 q a b = Some (r, q') → same_opts q q'.
Proof. unfold _quicklistZiplistMerge. intros H. binds; repeat back_opts. Qed.
#[local] Hint Resolve opts_merge : opts.

Lemma opts_try_merge q x y l r t q' : try_merge junk htab0 q x y l r = Some (t, q') → same_opts q q'.
Proof. unfold try_merge. intros H. binds; repeat back_opts. Qed.
#[local] Hint Resolve opts_try_merge : opts.

Lemma opts_merge_nodes q p q' : _quicklistMergeNodes junk htab0 q p = Some q' → same_opts q q'.
Proof. unfold _quicklistMergeNodes. intros H. binds; repeat back_opts. Qed.

Lemma opts_split q p o after n q' : _quicklistSplitNode junk q p o after = Some (n, q') → same_opts q q'.
Proof. unfold _quicklistSplitNode, qalloc. intros H. binds; repeat back_opts. Qed.

Lemma opts_push_into q p v w q' : push_into junk htab0 q p v w = Some q' → same_opts q q'.
Proof. unfold push_into. intros H. binds; repeat back_opts. Qed.

Lemma opts_insert_into q p zi v after q' : insert_into junk htab0 q p zi v after = Some q' → same_opts q q'.
Proof. unfold insert_into. intros H. binds; repeat back_opts. Qed.
#[local] Hint Resolve opts_merge_nodes opts_split opts_push_into opts_insert_into : opts.

Lemma opts_insert q e v after q' : _quicklistInsert junk htab0 q e v after = Some q' → same_opts q q'.
Proof. unfold _quicklistInsert, qalloc. intros H. binds; repeat back_opts. Qed.
End marks.

(** ** Histories *)
Inductive qop :=
  | Push (w : q_where) (v : list Z)
  | Pop (w : q_where)
  | At (idx : Z)
  | Set_ (idx : Z) (v : list Z)
  | Insert (after : bool) (idx : Z) (v : list Z)
  | DelRange (start count : Z).
(** What an operation answers. *)
Inductive qres := Done | Flag (b : bool) | Value (c : option content).

Section history.
Context (junk : nat → Z) (htab0 : Z → Z).

Definition qstep (q : quicklist) (o : qop) : option (qres * quicklist) :=
  match o with
  | Push w v => q ← quicklistPush junk htab0 q v w; Some (Done, q)
  | Pop w => '(c, q) ← quicklistPop junk htab0 q w; Some (Value c, q)
  | At idx => '(_, e, q) ← quicklistIndex junk q idx; Some (Value (qe_value e), q)
  | Set_ idx v => '(b, q) ← quicklistReplaceAtIndex junk htab0 q idx v; Some (Flag b, q)
  | Insert after idx v =>
      '(found, e, q) ← quicklistIndex junk q idx;
      if (found : bool) then
        q ← (if after then quicklistInsertAfter junk htab0 q e v else quicklistInsertBefore junk htab0 q e v);
        Some (Flag true, q)
      else Some (Flag false, q)
  | DelRange start count => '(b, q) ← quicklistDelRange junk htab0 q start count; Some (Flag b, q)
  end.

Fixpoint qrun (q : quicklist) (os : list qop) : option (list qres * quicklist) :=
  match os with
  | [] => Some ([], q)
  | o :: os => '(r, q) ← qstep q o; '(rs, q) ← qrun q os; Some (r :: rs, q)
  end.
End history.

(** The same on a list of strings. *)
Definition lstep (l : list (list Z)) (o : qop) : qres * list (list Z) :=
  match o with
  | Push QUICKLIST_HEAD v => (Done, v :: l)
  | Push QUICKLIST_TAIL v => (Done, l ++ [v])
  | Pop QUICKLIST_HEAD => (Value (content_of <$> hd_error l), List.tl l)
  | Pop QUICKLIST_TAIL => (Value (content_of <$> last l), removelast l)
  | At idx => (Value (K ← nth_of (length l) idx; content_of <$> l !! K), l)
  | Set_ idx v => match nth_of (length l) idx with Some K => (Flag true, <[K := v]> l) | None => (Flag false, l) end
  | Insert after idx v =>
      match nth_of (length l) idx with Some K => (Flag true, insert_at after K v l) | None => (Flag false, l) end
  | DelRange start count =>
      if count <=? 0 then (Flag false, l)
      else match nth_of (length l) start with
           | Some K => (Flag true, take K l ++ drop (K + Z.to_nat count) l)
           | None => (Flag false, l)
           end
  end.

Fixpoint lrun (l : list (list Z)) (os : list qop) : list qres * list (list Z) :=
  match os with
  | [] => ([], l)
  | o :: os => let '(r, l) := lstep l o in let '(rs, l) := lrun l os in (r :: rs, l)
  end.

(** The arguments of an operation: values that fit, positions that fit the type, an
    insertion next to an entry found from the head, of a value of three bytes or
    more; ranges that start at the head or are counted from the tail. *)
Definition op_ok (o : qop) : Prop :=
  match o with
  | Push _ v => storable v
  | Pop _ => True
  | At idx => in_s 64 idx
  | Set_ idx v => in_s 64 idx ∧ storable v
  | Insert _ idx v => 0 ≤ idx < 2 ^ 63 ∧ storable v ∧ roomy v
  | DelRange start count => in_s 64 start ∧ in_s 64 count ∧ start ≤ 0
  end.

(** Every list on the way is of a size that the counters can hold. *)
Fixpoint sizes_ok (l : list (list Z)) (os : list qop) : Prop :=
  match os with
  | [] => True
  | o :: os =>
      let l' := (lstep l o).2 in zlen l' < 2 ^ 32 ∧ total_size l' < 2 ^ 31 ∧ sizes_ok l' os
  end.

Section refinement.
Context (junk : nat → Z) (htab0 : Z → Z).

Lemma push_spec q l w v :
  qlist q l → calm q → storable v → zlen l + 1 < 2 ^ 32 →
  ∃ q', qstep junk htab0 q (Push w v) = Some (Done, q') ∧ qlist q' (lstep l (Push w v)).2 ∧ tame q q'.
Proof.
  intros Hq Hc Hv Hl. assert (∀ q', quicklistPush junk htab0 q v w = Some q' → tame q q') as Ht by apply tame_push.
  destruct w; cbn [qstep quicklistPush lstep snd] in *.
  - destruct (push_head_spec junk htab0 q l v Hq Hc Hv Hl) as (b & q' & E & Hq'). rewrite E in *. exists q'. by split; [|split; [|apply Ht]].
  - destruct (push_tail_spec junk htab0 q l v Hq Hc Hv Hl) as (b & q' & E & Hq'). rewrite E in *. exists q'. by split; [|split; [|apply Ht]].
Qed.

Lemma pop_spec q l w :
  qlist q l → ∃ q', qstep junk htab0 q (Pop w) = Some ((lstep l (Pop w)).1, q') ∧ qlist q' (lstep l (Pop w)).2 ∧ tame q q'.
Proof.
  intros Hq. assert (∀ r q', quicklistPop junk htab0 q w = Some (r, q') → tame q q') as Ht by apply tame_pop.
  cbn [qstep]. destruct (decide (l = [])) as [->|N].
  { exists q. rewrite (pop_empty junk htab0 q w Hq). split; [by destruct w|]. split; [by destruct w|reflexivity]. }
  destruct w; cbn [lstep fst snd] in *.
  - destruct l as [|x l]; [done|]. destruct (pop_head_spec junk htab0 q x l Hq) as (q' & E & Hq' & _). rewrite E in *.
    exists q'. split; [done|]. split; [done|by eapply Ht].
  - destruct (exists_last N) as (l0 & x & ->). destruct (pop_tail_spec junk htab0 q x l0 Hq) as (q' & E & Hq' & _). rewrite E in *.
    exists q'. rewrite last_snoc, removelast_last. split; [done|]. split; [done|by eapply Ht].
Qed.

Lemma at_spec q l idx :
  qlist q l → in_s 64 idx →
  ∃ q', qstep junk htab0 q (At idx) = Some ((lstep l (At idx)).1, q') ∧ qlist q' l.
Proof.
  intros (xs & bss & Hi & ->) Hx. cbn [qstep lstep fst]. destruct (nth_of (length (concat bss)) idx) as [K|] eqn:HK.
  - destruct (index_spec junk q xs bss idx K Hi Hx HK) as (q' & e & ys & a & d & zs & b1 & bs & b2 & k & -> & F).
    exists q'. rewrite !some_bind, (f_value _ _ _ _ _ _ _ _ _ _ _ _ _ _ _ F). split; [done|].
    eexists _, _. split; [apply F|done].
  - exists q. rewrite (index_none junk q xs bss idx Hi Hx HK), some_bind. split; [done|]. by exists xs, bss.
Qed.

Lemma qinsert_spec q l after idx v :
  qlist q l → q_compress q = 0 → op_ok (Insert after idx v) →
  zlen (lstep l (Insert after idx v)).2 < 2 ^ 32 → total_size (lstep l (Insert after idx v)).2 < 2 ^ 31 →
  ∃ q', qstep junk htab0 q (Insert after idx v) = Some ((lstep l (Insert after idx v)).1, q') ∧
    qlist q' (lstep l (Insert after idx v)).2.
Proof.
  intros (xs & bss & Hi & ->) H0 (Hx & Hv & Hr). assert (in_s 64 idx) as Hs by (unfold in_s; pow2; lia). cbn [qstep lstep].
  destruct (nth_of (length (concat bss)) idx) as [K|] eqn:HK; cbn [fst snd]; intros Hl Ht.
  2: { exists q. rewrite (index_none junk q xs bss idx Hi Hs HK), some_bind. split; [done|]. by exists xs, bss. }
  destruct (index_spec junk q xs bss idx K Hi Hs HK) as (q1 & e & ys & a & d & zs & b1 & bs & b2 & k & -> & F).
  destruct F as [Hi1 _ [_ -> H1 Hd H2] _ Hf EK Hk En (zl & pos & Ezl & Hz & He & Ez) _ Eo _ _].
  rewrite (proj2 (Z.ltb_ge _ _)) in Eo by lia. rewrite some_bind. cbv beta iota.
  rewrite length_insert_at in Hl by (by eapply nth_lt). rewrite total_size_insert in Ht.
  destruct (insert_entry_spec junk htab0 q1 ys a d zs b1 bs b2 e zl pos k v after) as (q' & Hrun & Hq'); try done.
  - rewrite (sf_compress _ _ Hf). done.
  - rewrite concat_mid in Ht. pose proof (total_size_part (concat b1) bs (concat b2)). lia.
  - rewrite (v_count _ _ _ Hi1). done.
  - exists q'. unfold quicklistInsertAfter, quicklistInsertBefore. split; [destruct after; by rewrite Hrun|].
    replace (insert_at after K v (concat (b1 ++ bs :: b2))) with (concat b1 ++ insert_at after k v bs ++ concat b2); [done|].
    rewrite EK, concat_mid. unfold insert_at. destruct after.
    + rewrite take_app_ge, drop_app_ge, <- !app_assoc by lia. replace (S (length (concat b1) + k) - length (concat b1))%nat with (S k) by lia.
      rewrite take_app_le, drop_app_le by lia. cbn [app]. done.
    + rewrite take_app_ge, drop_app_ge, <- !app_assoc by lia. replace (length (concat b1) + k - length (concat b1))%nat with k by lia.
      rewrite take_app_le, drop_app_le by lia. cbn [app]. done.
Qed.

Lemma qlist_new fill c : qlist (quicklistNew fill c) [].
Proof.
  exists [], []. split; [|done]. split; [|constructor|done|done|apply wraps_range; lia].
  split; [split; [done|constructor|done|done]|done|done|done| |by split].
  unfold quicklistNew, quicklistSetOptions, quicklistSetCompressDepth. cbn. apply wrapu_range. lia.
Qed.

Lemma new_calm fill c : calm (quicklistNew fill c).
Proof. apply map_Forall_empty. Qed.

Lemma step_refines q l o :
  qlist q l → q_compress q = 0 → op_ok o → zlen (lstep l o).2 < 2 ^ 32 → total_size (lstep l o).2 < 2 ^ 31 →
  ∃ q', qstep junk htab0 q o = Some ((lstep l o).1, q') ∧ qlist q' (lstep l o).2 ∧ q_compress q' = 0.
Proof.
  intros Hq H0 Ho Hl Ht. pose proof (off_calm q l Hq H0) as Hc.
  assert (∃ q', qstep junk htab0 q o = Some ((lstep l o).1, q') ∧ qlist q' (lstep l o).2) as (q' & Hrun & Hq').
  { destruct o as [w v|w|idx|idx v|after idx v|start count].
    - destruct (push_spec q l w v Hq Hc Ho) as (q' & -> & ? & _); [|by exists q'; destruct w].
      destruct w; cbn in Hl; rewrite ?length_app in Hl; simpl in Hl; lia.
    - destruct (pop_spec q l w Hq) as (q' & ? & ? & _). by exists q'.
    - by apply at_spec.
    - destruct Ho as [Hx [Hv _]]. cbn [qstep lstep] in *. destruct (nth_of (length l) idx) as [K|] eqn:HK; cbn [fst snd] in *.
      + destruct (replace_spec junk htab0 q l idx K v) as (q' & -> & ?); try done. by exists q'.
      + rewrite (replace_none junk htab0 q l idx v Hq Hx HK). by exists q.
    - by apply qinsert_spec.
    - destruct Ho as (Hx & Hct & Hs). cbn [qstep lstep] in *. destruct (Z.leb_spec count 0) as [Hle|Hgt].
      + rewrite (del_range_none junk htab0 q l start count Hq Hx) by (by left). by exists q.
      + destruct (nth_of (length l) start) as [K|] eqn:HK; cbn [fst snd] in *.
        * destruct (del_range_spec junk htab0 q l start count K) as (q' & -> & ?); try done. by exists q'.
        * rewrite (del_range_none junk htab0 q l start count Hq Hx) by (by right). by exists q. }
  exists q'. split; [done|]. split; [done|]. rewrite <- H0. clear - Hrun. cbv beta.
  destruct o as [w v|w|idx|idx v|after idx v|start count]; cbn [qstep] in Hrun; binds.
  - by apply tame_push in H as [[_ ?] _].
  - by apply tame_pop in H as [[_ ?] _].
  - by apply opts_index in H as [_ ?].
  - by apply opts_replace in H as [_ ?].
  - apply opts_insert in H0 as [_ ->]. by apply opts_index in H as [_ ?].
  - apply opts_insert in H0 as [_ ->]. by apply opts_index in H as [_ ?].
  - by apply opts_index in H as [_ ?].
  - by apply opts_del_range in H as [_ ?].
Qed.

Lemma run_refines os : ∀ q l,
  qlist q l → q_compress q = 0 → Forall op_ok os → sizes_ok l os →
  ∃ q', qrun junk htab0 q os = Some ((lrun l os).1, q') ∧ qlist q' (lrun l os).2.
Proof.
  induction os as [|o os IH]; intros q l Hq H0 Ho Hs; [by exists q|].
  apply Forall_cons in Ho as [Ho Hos]. cbn [sizes_ok] in Hs. destruct Hs as (Hl & Ht & Hs).
  destruct (step_refines q l o Hq H0 Ho Hl Ht) as (q1 & Hrun & Hq1 & H1). cbn [qrun lrun]. rewrite Hrun, some_bind.
  destruct (lstep l o) as [r l1]. cbn [fst snd] in *. destruct (IH q1 l1 Hq1 H1 Hos Hs) as (q2 & -> & Hq2). rewrite some_bind.
  destruct (lrun l1 os) as [rs l2]. by exists q2.
Qed.


Definition queue_op (o : qop) : Prop := match o with Push _ _ | Pop _ => True | _ => False end.

Lemma queue_run os : ∀ q l,
  qlist q l → calm q → Forall queue_op os → Forall op_ok os → sizes_ok l os →
  ∃ q', qrun junk htab0 q os = Some ((lrun l os).1, q') ∧ qlist q' (lrun l os).2 ∧ calm q'.
Proof.
  induction os as [|o os IH]; intros q l Hq H0 Hu Ho Hs; [by exists q|].
  apply Forall_cons in Ho as [Ho Hos]. apply Forall_cons in Hu as [Hu Hus]. cbn [sizes_ok] in Hs. destruct Hs as (Hl & Ht & Hs).
  assert (∃ q', qstep junk htab0 q o = Some ((lstep l o).1, q') ∧ qlist q' (lstep l o).2 ∧ calm q') as (q1 & Hrun & Hq1 & H1).
  { destruct o as [w v|w| | | |]; try done.
    - destruct (push_spec q l w v Hq H0 Ho) as (q' & -> & ? & [_ ?]); [|exists q'; split; [by destruct w|auto]].
      destruct w; cbn in Hl; rewrite ?length_app in Hl; simpl in Hl; lia.
    - destruct (pop_spec q l w Hq) as (q' & ? & ? & [_ ?]). exists q'. auto. }
  cbn [qrun lrun]. rewrite Hrun, some_bind.
  destruct (lstep l o) as [r l1]. cbn [fst snd] in *. destruct (IH q1 l1 Hq1 H1 Hus Hos Hs) as (q2 & -> & Hq2 & H2). rewrite some_bind.
  destruct (lrun l1 os) as [rs l2]. by exists q2.
Qed.

(** C7: as a queue, stack or deque a quick list works at every compression depth:
    the nodes that are compressed and decompressed on the way keep their
    contents, and the ends that are pushed to and popped from are never
    compressed. *)
Theorem quicklist_queue_refines fill depth os :
  Forall queue_op os → Forall op_ok os → sizes_ok [] os →
  ∃ q', qrun junk htab0 (quicklistNew fill depth) os = Some ((lrun [] os).1, q') ∧ qlist q' (lrun [] os).2 ∧ calm q'.
Proof. apply queue_run; [apply qlist_new|apply new_calm]. Qed.

(** An iterator set to an index yields every string from there to the end of
    the list, once and in order, decompressing and compressing the nodes it
    passes, and leaves the list with the same strings. *)
Theorem quicklist_iterates q l idx K :
  qlist q l → calm q → in_s 64 idx → nth_of (length l) idx = Some K →
  ∃ it q1 q2, quicklistGetIteratorAtIdx junk q AL_START_HEAD idx = Some (Some it, q1) ∧
    collect junk htab0 (S (length l)) q1 it = Some (content_of <$> drop K l, q2) ∧ qlist q2 l.
Proof.
  intros Hq Hc Hx HK. destruct (index_ready junk q l idx K Hq Hc Hx HK) as (it & q1 & E & Hr).
  destruct (collect_spec junk htab0 _ q1 l it (S (length l)) Hr) as (q2 & E2 & Hq2); [rewrite length_drop; lia|].
  by exists it, q1, q2.
Qed.

(** The widths of the fields. *)
Definition fields_ok (q : quicklist) : Prop :=
  in_u 32 (q_len q) ∧ in_u 32 (q_count q) ∧ in_s 16 (q_fill q) ∧ in_u 16 (q_compress q) ∧
  map_Forall (λ _ n, let d := value n in
    0 < n_count d < 2 ^ 16 ∧ 11 < n_sz d < 2 ^ 32 ∧
    (n_encoding d = QUICKLIST_NODE_ENCODING_RAW ∨ n_encoding d = QUICKLIST_NODE_ENCODING_LZF)) (q_nodes q).

Lemma node_of_heap q xs bss a n : qinv q xs bss → q_nodes q !! a = Some n → ∃ bs, node_ok (value n) bs.
Proof.
  intros [[Hl Hd _ _ _ _] Hn _ _ _] Ha.
  assert (a ∈ xs.*1) as Hin. { rewrite <- (elem_of_list_to_set (C := gset loc)), <- Hd. by eapply elem_of_dom_2. }
  apply list_elem_of_lookup in Hin as [i Hi]. rewrite list_lookup_fmap in Hi. apply fmap_Some in Hi as ([a' d] & Hi & ->). cbn [fst] in Ha.
  rewrite (node_at _ _ _ _ _ Hl Hi) in Ha. injection Ha as <-. cbn.
  destruct (Forall2_lookup_l _ _ _ i d Hn) as (bs & _ & H); [by rewrite list_lookup_fmap, Hi|]. by exists bs.
Qed.

Lemma qlist_fields q l : qlist q l → fields_ok q.
Proof.
  intros (xs & bss & Hi & ->). pose proof Hi as [[_ _ Hl Hb Hc _] _ Hct Hcb Hf]. unfold fields_ok, in_u. rewrite Hl, Hct.
  repeat (split; [done || lia|]). intros a n Ha. destruct (node_of_heap q xs bss a n Hi Ha) as (bs & [Hblk Hne Hcn Hsm Hts]).
  pose proof (block_size _ _ Hblk) as Hsz. assert (0 < zlen bs) by (destruct bs; [done|simpl; lia]).
  cbv zeta. rewrite Hcn. split; [lia|]. split; [lia|]. by apply (encoding_cases _ bs).
Qed.

End refinement.

(** ** Concrete runs *)
Definition zero_mem : nat → Z := λ _, 0.
Definition zero_tab : Z → Z := λ _, 0.
Definition item (c : Z) : list Z := replicate 60 c.
Definition pushes (cs : list Z) : list qop := (λ c, Push QUICKLIST_TAIL (item c)) <$> cs.

(** Encodings and counters of the nodes, from the head. *)
Fixpoint node_states (n : nat) (q : quicklist) (p : option loc) : list (Z * Z) :=
  match n, p with
  | S n, Some p =>
      match q_nodes q !! p with
      | Some nd => (n_encoding (value nd), n_count (value nd)) :: node_states n q (next nd)
      | None => []
      end
  | _, _ => []
  end.

Ltac op_oks := repeat (constructor || split); vm_compute; first [done|congruence|auto].

Definition demo : list qop :=
  pushes [65; 66; 67; 68; 69] ++
  [Insert true 1 (item 70); Insert false 0 (item 71); Set_ (-1) (item 72); At 2; DelRange (-2) 5; Pop QUICKLIST_HEAD].

Lemma demo_ok : Forall op_ok demo.
Proof. op_oks. Qed.

Lemma demo_sizes : sizes_ok [] demo.
Proof. vm_compute. repeat split; done. Qed.


Definition deque : list qop := pushes [65; 66; 67; 68; 69; 70] ++ [Pop QUICKLIST_HEAD; Push QUICKLIST_HEAD (item 71); Pop QUICKLIST_TAIL].

Lemma quicklist_queue_refines_witness :
  ∃ q', qrun zero_mem zero_tab (quicklistNew 2 1) deque =
      Some ([Done; Done; Done; Done; Done; Done; Value (Some (CStr (item 65))); Done; Value (Some (CStr (item 70)))], q') ∧
    qlist q' (item <$> [71; 66; 67; 68; 69]) ∧ calm q'.
Proof.
  apply (quicklist_queue_refines zero_mem zero_tab 2 1 deque); [repeat constructor|op_oks|].
  vm_compute. repeat split; done.
Defined.

Definition deque_end : list (list Z) := item <$> [71; 66; 67; 68; 69].

Lemma deque_run :
  ∃ q, qrun zero_mem zero_tab (quicklistNew 2 1) deque = Some ((lrun [] deque).1, q) ∧ qlist q deque_end ∧ calm q.
Proof.
  assert ((lrun [] deque).2 = deque_end) as <- by (vm_compute; reflexivity).
  apply queue_run; [apply qlist_new|apply new_calm|repeat constructor|op_oks|vm_compute; repeat split; done].
Qed.

Lemma quicklist_iterates_witness :
  ∃ q it q1 q2, qrun zero_mem zero_tab (quicklistNew 2 1) deque = Some ((lrun [] deque).1, q) ∧
    quicklistGetIteratorAtIdx zero_mem q AL_START_HEAD (-4) = Some (Some it, q1) ∧
    collect zero_mem zero_tab (S (length deque_end)) q1 it = Some (content_of <$> drop 1 deque_end, q2) ∧ qlist q2 deque_end.
Proof.
  assert (in_s 64 (-4) ∧ nth_of (length deque_end) (-4) = Some 1%nat) as [Hi Hn] by (vm_compute; done).
  destruct deque_run as (q & E & Hq & Hc).
  destruct (quicklist_iterates zero_mem zero_tab q deque_end (-4) 1 Hq Hc Hi Hn) as (it & q1 & q2 & H).
  exists q, it, q1, q2. split; [exact E|exact H].
Defined.


(** ** Where the code does not do what it means to *)

(** An access by index leaves a node marked; once it is the head, a replacement in
    it compresses the head, and the next pop reads outside its block. *)
Definition stale_history : list qop :=
  pushes [65; 66; 67; 68; 69; 70] ++ [At 2; Pop QUICKLIST_HEAD; Pop QUICKLIST_HEAD; Set_ 0 (item 71)].


(** A range that starts inside a node, ends in the next one and is shorter
    than the first takes more from the counter of that node than from its
    block: the counters then say four strings where the blocks hold five. *)
Theorem del_range_miscounts :
  (r ← qrun zero_mem zero_tab (quicklistNew 4 0) (pushes [65; 66; 67; 68; 69; 70; 71] ++ [DelRange 2 3]);
   h ← q_head r.2; d ← qdata_of r.2 h; zl ← n_zl d; '(n, _) ← ziplistLen zl;
   Some (q_count r.2, node_states 9 r.2 (q_head r.2), n)) =
  Some (4, [(QUICKLIST_NODE_ENCODING_RAW, 1); (QUICKLIST_NODE_ENCODING_RAW, 3)], 2).
Proof. vm_compute. done. Qed.

(** The copy reads as many bytes of a compressed node as the node has uncompressed. *)
Theorem dup_reads_past_block :
  (r ← qrun zero_mem zero_tab (quicklistNew 2 1) (pushes [65; 66; 67; 68; 69; 70]);
   Some (node_states 9 r.2 (q_head r.2), quicklistDup zero_mem zero_tab r.2)) =
  Some ([(QUICKLIST_NODE_ENCODING_RAW, 2); (QUICKLIST_NODE_ENCODING_LZF, 2); (QUICKLIST_NODE_ENCODING_RAW, 2)], None).
Proof. vm_compute. done. Qed.

(** The largest values of the options do not fit their bit fields. *)
Theorem options_overflow :
  q_fill (quicklistNew FILL_MAX 0) = -32768 ∧ q_compress (quicklistNew 0 COMPRESS_MAX) = 0.
Proof. done. Qed.

(** With as many nodes as both depths together, nodes inside the depth are compressed. *)
Theorem depth_compresses_inside :
  (r ← qrun zero_mem zero_tab (quicklistNew 1 2) (pushes [65; 66; 67; 68; 69] ++ [Pop QUICKLIST_HEAD]);
   Some (node_states 9 r.2 (q_head r.2))) =
  Some [(QUICKLIST_NODE_ENCODING_RAW, 1); (QUICKLIST_NODE_ENCODING_LZF, 1);
        (QUICKLIST_NODE_ENCODING_LZF, 1); (QUICKLIST_NODE_ENCODING_RAW, 1)].
Proof. vm_compute. done. Qed.
