(* ===== verification/Keyspace.v ===== *)
(** * The key space ([redis-3.2/src/db.c])

    The databases of the server: the dictionary of the values and the one of
    the times at which keys expire, keyed by database number and key.  Expiry
    is lazy: a key whose time has passed stays in the dictionary until it is
    looked up ([expireIfNeeded]).

    Commands are programs over the functions of [db.c] that the commands of
    the server call ([op]); [run] executes a program on the dictionaries as
    [db.c] does, [arun] on an abstract data base in which keys vanish at the
    moment their time has passed.  [run_ok] shows once and for all
    programs that the two agree, as long as a program looks a key up before
    it uses it in another way.

    [None] is a failed assertion.  Access times, statistics and reference
    counts are not modelled: the code copies a shared object before it changes
    it, so that objects are values here.  The clock stands still during a
    command. *)

From S2P Require Import Prelude Util StringObj Notify.

Abbreviation dbkey := (Z * list Z)%type.

Inductive otype := OBJ_LIST | OBJ_SET | OBJ_ZSET | OBJ_HASH.
(** The values of other types than strings are opaque. *)
Inductive value := VStr (o : robj) | VOther (t : otype) (id : Z).

Inductive rep :=
  | ROk | RInt (n : Z) | RBulk (s : list Z) | RNull | RStatus (s : string) | RError (s : string)
  | RWrongType | RSyntax | RNoKey | RSameObject | ROutOfRange | RMultiLen (n : Z) | RSds (s : string).

(** What the rest of the server is told: modified keys, notifications, lists that
    clients may wait for, another command to propagate instead, deletions sent to the append only file and to the
    slaves, and changes of the table of slots in a cluster. *)
Inductive event :=
  | EvSignal (k : dbkey) | EvNotify (type : Z) (ev : string) (k : dbkey) | EvReady (k : dbkey)
  | EvRewrite (argv : list (list Z))
  | EvAofDel (k : dbkey) | EvSlavesDel (k : dbkey) | EvSlotAdd (k : dbkey) | EvSlotDel (k : dbkey).

(** The configuration and the client during a command; [readonly_client]: the client
    is not the master and its command only reads. *)
Record kenv := KEnv {
  masterhost : bool;
  loading : bool;
  lua_time_start : option Z;
  mstime : Z;
  dbnum : Z;
  aof_on : bool;
  kcluster : bool;
  readonly_client : bool
}.

Record kserver := KServer {
  kdict : gmap dbkey value;
  kexpires : gmap dbkey Z;
  kdirty : Z;
  klog : list event;
  kreplies : list rep
}.

Definition set_dict (d : gmap dbkey value) (s : kserver) : kserver := KServer d (kexpires s) (kdirty s) (klog s) (kreplies s).
Definition set_expires (e : gmap dbkey Z) (s : kserver) : kserver := KServer (kdict s) e (kdirty s) (klog s) (kreplies s).
Definition add_dirty (n : Z) (s : kserver) : kserver := KServer (kdict s) (kexpires s) (kdirty s + n) (klog s) (kreplies s).
Definition add_log (e : event) (s : kserver) : kserver := KServer (kdict s) (kexpires s) (kdirty s) (klog s ++ [e]) (kreplies s).
Definition add_reply (r : rep) (s : kserver) : kserver := KServer (kdict s) (kexpires s) (kdirty s) (klog s) (kreplies s ++ [r]).
Definition log_if (b : bool) (e : event) (s : kserver) : kserver := if b then add_log e s else s.

(** ** The functions of [db.c] *)
Section db.
Context (en : kenv).

Definition dbDelete (s : kserver) (k : dbkey) : bool * kserver :=
  let s := set_expires (delete k (kexpires s)) s in
  match kdict s !! k with
  | Some _ => (true, log_if (kcluster en) (EvSlotDel k) (set_dict (delete k (kdict s)) s))
  | None => (false, s)
  end.

Definition removeExpire (s : kserver) (k : dbkey) : option (bool * kserver) :=
  _ ← kdict s !! k;
  Some (bool_decide (is_Some (kexpires s !! k)), set_expires (delete k (kexpires s)) s).

Definition setExpire (s : kserver) (k : dbkey) (when : Z) : option kserver :=
  _ ← kdict s !! k; Some (set_expires (<[k := when]> (kexpires s)) s).

Definition getExpire (s : kserver) (k : dbkey) : option Z :=
  match kexpires s !! k with
  | None => Some (-1)
  | Some when => _ ← kdict s !! k; Some when
  end.

Definition propagateExpire (s : kserver) (k : dbkey) : kserver :=
  add_log (EvSlavesDel k) (log_if (aof_on en) (EvAofDel k) s).

(** The time expiry goes by. *)
Definition know : Z := match lua_time_start en with Some t => t | None => mstime en end.

Definition expireIfNeeded (s : kserver) (k : dbkey) : option (bool * kserver) :=
  when ← getExpire s k;
  if when <? 0 then Some (false, s)
  else if loading en then Some (false, s)
  else if masterhost en then Some (know >? when, s)
  else if know <=? when then Some (false, s)
  else Some (dbDelete (add_log (EvNotify NOTIFY_EXPIRED "expired" k) (propagateExpire s k)) k).

Definition lookupKeyRead (s : kserver) (k : dbkey) : option (option value * kserver) :=
  '(expired, s) ← expireIfNeeded s k;
  if (expired : bool) && (negb (masterhost en) || readonly_client en) then Some (None, s)
  else Some (kdict s !! k, s).

Definition lookupKeyWrite (s : kserver) (k : dbkey) : option (option value * kserver) :=
  '(_, s) ← expireIfNeeded s k; Some (kdict s !! k, s).

Definition dbAdd (s : kserver) (k : dbkey) (v : value) : option kserver :=
  match kdict s !! k with
  | Some _ => None
  | None =>
      let s := set_dict (<[k := v]> (kdict s)) s in
      let s := log_if (match v with VOther OBJ_LIST _ => true | _ => false end) (EvReady k) s in
      Some (log_if (kcluster en) (EvSlotAdd k) s)
  end.

Definition dbOverwrite (s : kserver) (k : dbkey) (v : value) : option kserver :=
  _ ← kdict s !! k; Some (set_dict (<[k := v]> (kdict s)) s).

Definition dbExists (s : kserver) (k : dbkey) : bool := bool_decide (is_Some (kdict s !! k)).
End db.

(** ** Programs *)
Inductive op : Type → Type :=
  | OLookupRead (k : dbkey) : op (option value)
  | OLookupWrite (k : dbkey) : op (option value)
  | OExpireIfNeeded (k : dbkey) : op unit
  | ODbAdd (k : dbkey) (v : value) : op unit
  | ODbOverwrite (k : dbkey) (v : value) : op unit
  | ODbDelete (k : dbkey) : op bool
  | ODbExists (k : dbkey) : op bool
  | OSetExpire (k : dbkey) (when : Z) : op unit
  | OGetExpire (k : dbkey) : op Z
  | ORemoveExpire (k : dbkey) : op bool
  | OSignalModified (k : dbkey) : op unit
  | ONotifyEvent (type : Z) (ev : string) (k : dbkey) : op unit
  | ORewrite (argv : list (list Z)) : op unit
  | ODirty (n : Z) : op unit
  | OReply (r : rep) : op unit
  | OEnv : op kenv
  | ODbSize (id : Z) : op Z
  | OFail (R : Type) : op R.

Inductive prog (A : Type) : Type :=
  | Ret (a : A)
  | Do {R : Type} (o : op R) (k : R → prog A).
Arguments Ret {A} a.
Arguments Do {A R} o k.

Fixpoint prog_bind {A B} (f : A → prog B) (p : prog A) : prog B :=
  match p with Ret a => f a | Do o k => Do o (λ r, prog_bind f (k r)) end.
#[export] Instance prog_mret : MRet prog := λ _ a, Ret a.
#[export] Instance prog_mbind : MBind prog := λ _ _ f p, prog_bind f p.

Definition call {R} (o : op R) : prog R := Do o Ret.
Definition LookupRead (k : dbkey) : prog (option value) := call (OLookupRead k).
Definition LookupWrite (k : dbkey) : prog (option value) := call (OLookupWrite k).
Definition ExpireIfNeeded (k : dbkey) : prog unit := call (OExpireIfNeeded k).
Definition DbAdd (k : dbkey) (v : value) : prog unit := call (ODbAdd k v).
Definition DbOverwrite (k : dbkey) (v : value) : prog unit := call (ODbOverwrite k v).
Definition DbDelete (k : dbkey) : prog bool := call (ODbDelete k).
Definition DbExists (k : dbkey) : prog bool := call (ODbExists k).
Definition SetExpire (k : dbkey) (when : Z) : prog unit := call (OSetExpire k when).
Definition GetExpire (k : dbkey) : prog Z := call (OGetExpire k).
Definition RemoveExpire (k : dbkey) : prog bool := call (ORemoveExpire k).
Definition SignalModified (k : dbkey) : prog unit := call (OSignalModified k).
Definition NotifyEvent (type : Z) (ev : string) (k : dbkey) : prog unit := call (ONotifyEvent type ev k).
Definition Rewrite (argv : list (list Z)) : prog unit := call (ORewrite argv).
Definition Dirty (n : Z) : prog unit := call (ODirty n).
Definition Reply (r : rep) : prog unit := call (OReply r).
Definition Env : prog kenv := call (OEnv).
Definition DbSize (id : Z) : prog Z := call (ODbSize id).
Definition Fail {R} : prog R := call (OFail R).

(** A computation that may fail an assertion or leave its memory. *)
Definition lift {A} (o : option A) : prog A := match o with Some a => Ret a | None => Fail end.

(** [map f] over a list, one after the other. *)
Fixpoint each {A} (f : A → prog unit) (l : list A) : prog unit :=
  match l with [] => Ret () | x :: l => f x ;; each f l end.

Section handlers.
Context (en : kenv).

Definition step {R} (o : op R) (s : kserver) : option (R * kserver) :=
  match o with
  | OLookupRead k => lookupKeyRead en s k
  | OLookupWrite k => lookupKeyWrite en s k
  | OExpireIfNeeded k => '(_, s) ← expireIfNeeded en s k; Some ((), s)
  | ODbAdd k v => s ← dbAdd en s k v; Some ((), s)
  | ODbOverwrite k v => s ← dbOverwrite s k v; Some ((), s)
  | ODbDelete k => Some (dbDelete en s k)
  | ODbExists k => Some (dbExists s k, s)
  | OSetExpire k w => s ← setExpire s k w; Some ((), s)
  | OGetExpire k => w ← getExpire s k; Some (w, s)
  | ORemoveExpire k => removeExpire s k
  | OSignalModified k => Some ((), add_log (EvSignal k) s)
  | ONotifyEvent t e k => Some ((), add_log (EvNotify t e k) s)
  | ORewrite argv => Some ((), add_log (EvRewrite argv) s)
  | ODirty n => Some ((), add_dirty n s)
  | OReply r => Some ((), add_reply r s)
  | OEnv => Some (en, s)
  | ODbSize id => Some (zlen (filter (λ x, x.1.1 = id) (map_to_list (kdict s))), s)
  | OFail _ => None
  end.

Fixpoint run {A} (p : prog A) (s : kserver) : option (A * kserver) :=
  match p with
  | Ret a => Some (a, s)
  | Do o k => '(r, s) ← step o s; run (k r) s
  end.

(** ** The abstract data base

    [aclean] are the keys that were looked up during the command. *)
Record astate := AState {
  adb : gmap dbkey (value * option Z);
  aclean : gset dbkey;
  adirty : Z;
  alog : list event;
  areplies : list rep
}.

Definition dead (when : Z) : bool := (0 <=? when) && (when <? know en).

Definition set_adb (d : gmap dbkey (value * option Z)) (a : astate) : astate := AState d (aclean a) (adirty a) (alog a) (areplies a).
Definition set_clean (c : gset dbkey) (a : astate) : astate := AState (adb a) c (adirty a) (alog a) (areplies a).
Definition a_log (e : event) (a : astate) : astate := AState (adb a) (aclean a) (adirty a) (alog a ++ [e]) (areplies a).

Definition astep {R} (o : op R) (a : astate) : option (R * astate) :=
  match o with
  | OLookupRead k => Some (fst <$> adb a !! k, set_clean ({[k]} ∪ aclean a) a)
  | OLookupWrite k => Some (fst <$> adb a !! k, set_clean ({[k]} ∪ aclean a) a)
  | OExpireIfNeeded k => Some ((), set_clean ({[k]} ∪ aclean a) a)
  | ODbAdd k v =>
      if decide (k ∈ aclean a ∧ adb a !! k = None) then
        let a := set_adb (<[k := (v, None)]> (adb a)) a in
        Some ((), match v with VOther OBJ_LIST _ => a_log (EvReady k) a | _ => a end)
      else None
  | ODbOverwrite k v => '(_, e) ← adb a !! k; Some ((), set_adb (<[k := (v, e)]> (adb a)) a)
  | ODbDelete k =>
      if decide (k ∈ aclean a) then Some (bool_decide (is_Some (adb a !! k)), set_adb (delete k (adb a)) a) else None
  | ODbExists k => if decide (k ∈ aclean a) then Some (bool_decide (is_Some (adb a !! k)), a) else None
  | OSetExpire k w =>
      '(v, _) ← adb a !! k;
      Some ((), if dead w then set_clean (aclean a ∖ {[k]}) (set_adb (delete k (adb a)) a)
                else set_adb (<[k := (v, Some w)]> (adb a)) a)
  | OGetExpire k =>
      if decide (k ∈ aclean a) then Some (match adb a !! k with Some (_, Some w) => w | _ => -1 end, a) else None
  | ORemoveExpire k =>
      '(v, e) ← adb a !! k; Some (bool_decide (is_Some e), set_adb (<[k := (v, None)]> (adb a)) a)
  | OSignalModified k => Some ((), a_log (EvSignal k) a)
  | ONotifyEvent t e k => Some ((), if decide (t = NOTIFY_EXPIRED) then a else a_log (EvNotify t e k) a)
  | ORewrite argv => Some ((), a_log (EvRewrite argv) a)
  | ODirty n => Some ((), AState (adb a) (aclean a) (adirty a + n) (alog a) (areplies a))
  | OReply r => Some ((), AState (adb a) (aclean a) (adirty a) (alog a) (areplies a ++ [r]))
  | OEnv => Some (en, a)
  | ODbSize _ => None
  | OFail _ => None
  end.

Fixpoint arun {A} (p : prog A) (a : astate) : option (A * astate) :=
  match p with
  | Ret x => Some (x, a)
  | Do o k => '(r, a) ← astep o a; arun (k r) a
  end.

(** ** The refinement *)

(** Events that expiry and the table of slots cause are not visible. *)
Definition visible (e : event) : bool :=
  match e with
  | EvSignal _ | EvReady _ | EvRewrite _ => true
  | EvNotify t _ _ => negb (t =? NOTIFY_EXPIRED)
  | _ => false
  end.

Definition live (s : kserver) (k : dbkey) : option (value * option Z) :=
  v ← kdict s !! k;
  match kexpires s !! k with
  | Some w => if dead w then None else Some (v, Some w)
  | None => Some (v, None)
  end.

(** Only keys that are there expire. *)
Definition kinv (s : kserver) : Prop := ∀ k w, kexpires s !! k = Some w → is_Some (kdict s !! k).

Record abs (s : kserver) (a : astate) : Prop := {
  ab_inv : kinv s;
  ab_view k : adb a !! k = live s k;
  ab_clean k : k ∈ aclean a → kdict s !! k = fst <$> adb a !! k;
  ab_dirty : kdirty s = adirty a;
  ab_log : filter (λ e, visible e = true) (klog s) = alog a;
  ab_replies : kreplies s = areplies a
}.
End handlers.

Section refinement.
Context (en : kenv) (Hmaster : masterhost en = false) (Hload : loading en = false).
Abbreviation abs := (abs en).

Lemma log_if_kinv b e s : kinv s → kinv (log_if b e s).
Proof. by destruct b. Qed.

(** An event that is logged on both sides, or that is not visible. *)
Lemma abs_log s a e : abs s a → abs (add_log e s) (if visible e then a_log e a else a).
Proof.
  intros [H1 H2 H3 H4 H5 H6]. destruct (visible e) eqn:Ev; (split; [done|done|done|done| |done]); cbn [klog add_log alog a_log].
  - rewrite filter_app, H5. cbn. by rewrite decide_True.
  - rewrite filter_app, H5. cbn. rewrite decide_False by (rewrite Ev; done). by rewrite app_nil_r.
Qed.

Lemma abs_log_if b s a e : visible e = false → abs s a → abs (log_if b e s) a.
Proof. intros Hv Ha. destruct b; [|done]. cbn. pose proof (abs_log s a e Ha) as H. by rewrite Hv in H. Qed.

(** Changes of one key. *)
Lemma abs_key s a s' a' k :
  abs s a → (∀ j, j ≠ k → kdict s' !! j = kdict s !! j ∧ kexpires s' !! j = kexpires s !! j ∧ adb a' !! j = adb a !! j) →
  (∀ w, kexpires s' !! k = Some w → is_Some (kdict s' !! k)) → adb a' !! k = live en s' k →
  (∀ j, j ∈ aclean a' → j = k ∨ j ∈ aclean a) → (k ∈ aclean a' → kdict s' !! k = fst <$> adb a' !! k) →
  kdirty s' = kdirty s → klog s' = klog s → kreplies s' = kreplies s → adirty a' = adirty a → alog a' = alog a → areplies a' = areplies a →
  abs s' a'.
Proof.
  intros [H1 H2 H3 H4 H5 H6] Hne Hi Hv Hc Hk E1 E2 E3 E4 E5 E6. split; [| | |congruence|congruence|congruence].
  - intros j w Hj. destruct (decide (j = k)) as [->|N]; [by eapply Hi|]. destruct (Hne j N) as (-> & E & _). rewrite E in Hj. by eapply H1.
  - intros j. destruct (decide (j = k)) as [->|N]; [done|]. destruct (Hne j N) as (Ed & Ee & ->). rewrite H2. unfold live. by rewrite Ed, Ee.
  - intros j Hj. destruct (decide (j = k)) as [->|N]; [by apply Hk|]. destruct (Hne j N) as (-> & _ & ->).
    apply H3. destruct (Hc j Hj) as [?|?]; done.
Qed.

Lemma abs_clean s a k : abs s a → kdict s !! k = fst <$> adb a !! k → abs s (set_clean ({[k]} ∪ aclean a) a).
Proof.
  intros [H1 H2 H3 H4 H5 H6] Hk. split; try done. intros j [->%elem_of_singleton|Hj]%elem_of_union; [done|by apply H3].
Qed.

Lemma live_fst s k v : kdict s !! k = Some v → (∀ w, kexpires s !! k = Some w → dead en w = false) → fst <$> live en s k = Some v.
Proof.
  intros Hd He. unfold live. rewrite Hd. cbn. destruct (kexpires s !! k) as [w|] eqn:Ew; [|done]. by rewrite (He w eq_refl).
Qed.

Lemma expire_spec s a k :
  abs s a → ∃ b s', expireIfNeeded en s k = Some (b, s') ∧ abs s' (set_clean ({[k]} ∪ aclean a) a) ∧
    (b = true → kdict s' !! k = None).
Proof.
  intros Ha. pose proof Ha as [Hinv Hview _ _ _ _]. unfold expireIfNeeded, getExpire.
  assert (∀ w, kexpires s !! k = Some w → dead en w = false → abs s (set_clean ({[k]} ∪ aclean a) a)) as Halive.
  { intros w Hw Hd. apply abs_clean; [done|]. destruct (Hinv k w Hw) as [v Hv]. rewrite Hview, (live_fst s k v Hv); [done|].
    intros w' Hw'. by simplify_eq. }
  destruct (kexpires s !! k) as [w|] eqn:Ew.
  2: { cbn. exists false, s. split; [done|]. split; [|done]. apply abs_clean; [done|]. rewrite Hview. unfold live.
       destruct (kdict s !! k) as [v|]; cbn; [by rewrite Ew|done]. }
  destruct (Hinv k w Ew) as [v Hv]. rewrite Hv, !some_bind.
  destruct (Z.ltb_spec w 0) as [Hn|Hp].
  { exists false, s. split; [done|]. split; [|done]. apply (Halive w); [done|]. unfold dead. by rewrite (proj2 (Z.leb_gt _ _)) by lia. }
  rewrite Hload, Hmaster. destruct (Z.leb_spec (know en) w) as [Hl|Hg].
  { exists false, s. split; [done|]. split; [|done]. apply (Halive w); [done|]. unfold dead. rewrite (proj2 (Z.ltb_ge _ _)) by lia. apply andb_false_r. }
  assert (dead en w = true) as Hdead by (unfold dead; rewrite (proj2 (Z.leb_le _ _)), (proj2 (Z.ltb_lt _ _)) by lia; done).
  assert (adb a !! k = None) as Hnone by (rewrite Hview; unfold live; rewrite Hv, Ew; cbn; by rewrite Hdead).
  set (s1 := add_log _ _). assert (abs s1 a) as Ha1.
  { unfold s1, propagateExpire. apply (abs_log _ a (EvNotify NOTIFY_EXPIRED "expired" k)).
    apply (abs_log _ a (EvSlavesDel k)). by apply abs_log_if. }
  assert (kdict s1 = kdict s ∧ kexpires s1 = kexpires s) as [Ed Ee] by (unfold s1, propagateExpire; by destruct (aof_on en)).
  clearbody s1. unfold dbDelete. cbn [kdict set_expires].
  rewrite Ed, Hv. eexists true, _. split; [done|]. split.
  - apply abs_log_if; [done|]. apply (abs_key s1 a _ _ k Ha1); try done.
    + intros j Hj. cbn. rewrite Ed, !lookup_delete_ne by done. done.
    + intros w'. cbn. by rewrite lookup_delete_eq.
    + cbn. unfold live. cbn. by rewrite !lookup_delete_eq, Hnone.
    + intros j. cbn. set_solver.
    + intros _. cbn. by rewrite lookup_delete_eq, Hnone.
  - intros _. destruct (kcluster en); cbn; by rewrite lookup_delete_eq.
Qed.

Lemma abs_dict s a k v e : abs s a → adb a !! k = Some (v, e) → kdict s !! k = Some v ∧ kexpires s !! k = e ∧ (∀ w, e = Some w → dead en w = false).
Proof.
  intros [_ Hview _ _ _ _]. rewrite Hview. unfold live. destruct (kdict s !! k) as [v'|]; [|done]. cbn.
  destruct (kexpires s !! k) as [w|]; [destruct (dead en w) eqn:Ed; [done|]|]; intros [= <- <-]; (split; [done|]); (split; [done|]); by intros w' [= <-].
Qed.

Lemma abs_absent s a k : abs s a → k ∈ aclean a → adb a !! k = None → kdict s !! k = None ∧ kexpires s !! k = None.
Proof.
  intros [Hinv _ Hc _ _ _] Hk Hn. specialize (Hc k Hk). rewrite Hn in Hc. split; [done|].
  destruct (kexpires s !! k) as [w|] eqn:Ew; [|done]. destruct (Hinv k w Ew) as [v Hv]. cbn in Hc. congruence.
Qed.

Ltac one_key := intros ? ?; cbn; rewrite ?lookup_insert_ne, ?lookup_delete_ne by done; done.

Lemma add_spec s a k v u a' :
  abs s a → astep en (ODbAdd k v) a = Some (u, a') → ∃ s', step en (ODbAdd k v) s = Some (u, s') ∧ abs s' a'.
Proof.
  intros Ha. cbn [astep step]. case_decide as Hd; [|done]. destruct Hd as [Hk Hn]. intros [= <- <-].
  destruct (abs_absent s a k Ha Hk Hn) as [Hd He]. unfold dbAdd. rewrite Hd, some_bind. eexists. split; [done|].
  apply abs_log_if; [done|].
  assert (abs (set_dict (<[k := v]> (kdict s)) s) (set_adb (<[k := (v, None)]> (adb a)) a)) as H1.
  { apply (abs_key s a _ _ k Ha); try done; [one_key|..].
    - intros w. cbn. by rewrite He.
    - unfold live. cbn. rewrite !lookup_insert_eq. cbn. by rewrite He.
    - intros j. by right.
    - intros _. cbn. by rewrite !lookup_insert_eq. }
  destruct v as [o|[] id]; try done. by apply (abs_log _ _ (EvReady k)).
Qed.

Lemma overwrite_spec s a k v u a' :
  abs s a → astep en (ODbOverwrite k v) a = Some (u, a') → ∃ s', step en (ODbOverwrite k v) s = Some (u, s') ∧ abs s' a'.
Proof.
  intros Ha. cbn [astep step]. intros ([v0 e] & Hv & [= <- <-])%bind_Some. destruct (abs_dict s a k v0 e Ha Hv) as (Hd & He & Hl).
  unfold dbOverwrite. rewrite Hd, !some_bind. eexists. split; [done|]. apply (abs_key s a _ _ k Ha); try done; [one_key|..].
  - intros w _. cbn. by rewrite lookup_insert_eq.
  - unfold live. cbn. rewrite !lookup_insert_eq. cbn. rewrite He. destruct e as [w|]; [by rewrite (Hl w eq_refl)|done].
  - intros j. by right.
  - intros _. cbn. by rewrite !lookup_insert_eq.
Qed.

Lemma key_delete_spec s a k r a' :
  abs s a → astep en (ODbDelete k) a = Some (r, a') → ∃ s', step en (ODbDelete k) s = Some (r, s') ∧ abs s' a'.
Proof.
  intros Ha. cbn [astep step]. case_decide as Hk; [|done]. intros [= <- <-]. pose proof (ab_clean _ _ _ Ha k Hk) as Hc.
  unfold dbDelete. cbn [kdict set_expires].
  assert (abs (set_dict (delete k (kdict s)) (set_expires (delete k (kexpires s)) s)) (set_adb (delete k (adb a)) a)) as H1.
  { apply (abs_key s a _ _ k Ha); try done; [one_key|..].
    - intros w. cbn. by rewrite lookup_delete_eq.
    - unfold live. cbn. by rewrite !lookup_delete_eq.
    - intros j. by right.
    - intros _. cbn. by rewrite !lookup_delete_eq. }
  destruct (kdict s !! k) as [v|] eqn:Ed.
  - destruct (adb a !! k) as [[v' e]|]; [|done]. eexists. split; [done|]. by apply abs_log_if.
  - destruct (adb a !! k) as [[v' e]|] eqn:Ea; [done|]. eexists. split; [done|].
    by rewrite (delete_id (kdict s)) in H1.
Qed.

Lemma set_expire_spec s a k w u a' :
  abs s a → astep en (OSetExpire k w) a = Some (u, a') → ∃ s', step en (OSetExpire k w) s = Some (u, s') ∧ abs s' a'.
Proof.
  intros Ha. cbn [astep step]. intros ([v e] & Hv & [= <- <-])%bind_Some. destruct (abs_dict s a k v e Ha Hv) as (Hd & He & _).
  unfold setExpire. rewrite Hd, !some_bind. eexists. split; [done|].
  assert (∀ d c, (∀ j, j ≠ k → d !! j = adb a !! j) → d !! k = (if dead en w then None else Some (v, Some w)) →
    (∀ j, j ∈ c → j ∈ aclean a ∧ (dead en w = true → j ≠ k)) →
    abs (set_expires (<[k := w]> (kexpires s)) s) (set_clean c (set_adb d a))) as Hgen.
  { intros d c Hne Hk Hc. apply (abs_key s a _ _ k Ha); try done.
    - intros j Hj. cbn. rewrite lookup_insert_ne by done. split; [done|]. split; [done|by apply Hne].
    - cbn. rewrite Hk. unfold live. cbn. rewrite Hd, lookup_insert_eq. done.
    - intros j Hj. right. by apply Hc.
    - cbn. intros Hj. destruct (Hc k Hj) as [_ Hdk]. rewrite Hd, Hk. destruct (dead en w); [by destruct Hdk|done]. }
  destruct (dead en w) eqn:Edw.
  - apply Hgen; [intros j Hj; by rewrite lookup_delete_ne|by rewrite lookup_delete_eq|set_solver].
  - change (set_adb ?d a) with (set_clean (aclean a) (set_adb d a)).
    apply Hgen; [intros j Hj; by rewrite lookup_insert_ne|by rewrite lookup_insert_eq|done].
Qed.

Lemma remove_expire_spec s a k r a' :
  abs s a → astep en (ORemoveExpire k) a = Some (r, a') → ∃ s', step en (ORemoveExpire k) s = Some (r, s') ∧ abs s' a'.
Proof.
  intros Ha. cbn [astep step]. intros ([v e] & Hv & [= <- <-])%bind_Some. destruct (abs_dict s a k v e Ha Hv) as (Hd & He & _).
  unfold removeExpire. rewrite Hd, !some_bind, He. eexists. split; [done|]. apply (abs_key s a _ _ k Ha); try done; [one_key|..].
  - unfold live. cbn. rewrite lookup_insert_eq, Hd. cbn. by rewrite lookup_delete_eq.
  - intros j. by right.
  - intros _. cbn. by rewrite lookup_insert_eq, Hd.
Qed.

Lemma get_expire_spec s a k r a' :
  abs s a → astep en (OGetExpire k) a = Some (r, a') → step en (OGetExpire k) s = Some (r, s) ∧ a' = a.
Proof.
  intros Ha. cbn [astep step]. case_decide as Hk; [|done]. intros [= <- <-]. split; [|done]. unfold getExpire.
  destruct (adb a !! k) as [[v e]|] eqn:Ea.
  - destruct (abs_dict s a k v e Ha Ea) as (Hd & -> & _). by destruct e; rewrite ?Hd.
  - destruct (abs_absent s a k Ha Hk Ea) as [_ ->]. done.
Qed.

Lemma op_step_ok {R} (o : op R) s a r a' :
  abs s a → astep en o a = Some (r, a') → ∃ s', step en o s = Some (r, s') ∧ abs s' a'.
Proof.
  intros Ha. pose proof Ha as [H1 H2 H3 H4 H5 H6]. destruct o.
  - intros [= <- <-]. cbn [step]. unfold lookupKeyRead. destruct (expire_spec s a k Ha) as (b & s' & -> & Ha' & Hb). rewrite some_bind, Hmaster.
    pose proof (ab_clean _ _ _ Ha' k ltac:(cbn; set_solver)) as Hc. cbn in Hc.
    destruct b; cbn [andb orb negb]; [|exists s'; by rewrite Hc]. exists s'. split; [|done]. by rewrite <- Hc, Hb.
  - intros [= <- <-]. cbn [step]. unfold lookupKeyWrite. destruct (expire_spec s a k Ha) as (b & s' & -> & Ha' & Hb). rewrite some_bind.
    pose proof (ab_clean _ _ _ Ha' k ltac:(cbn; set_solver)) as Hc. cbn in Hc. exists s'. by rewrite Hc.
  - intros [= <- <-]. cbn [step]. destruct (expire_spec s a k Ha) as (b & s' & -> & Ha' & Hb). by exists s'.
  - by apply add_spec.
  - by apply overwrite_spec.
  - by apply key_delete_spec.
  - cbn [astep step]. case_decide as Hk; [|done]. intros [= <- <-]. exists s. split; [|done]. unfold dbExists.
    rewrite (H3 k Hk). do 2 f_equal. apply bool_decide_ext. by rewrite fmap_is_Some.
  - by apply set_expire_spec.
  - intros H. apply (get_expire_spec s a) in H as [? ->]; [|done]. by exists s.
  - by apply remove_expire_spec.
  - intros [= <- <-]. eexists. split; [done|]. by apply (abs_log s a (EvSignal k)).
  - cbn [astep]. intros [= <- <-]. eexists. split; [done|]. pose proof (abs_log s a (EvNotify type ev k) Ha) as H. cbn [visible] in H.
    case_decide as Ht; [rewrite Ht in *; done|]. by rewrite (proj2 (Z.eqb_neq _ _) Ht) in H.
  - intros [= <- <-]. eexists. split; [done|]. by apply (abs_log s a (EvRewrite argv)).
  - intros [= <- <-]. eexists. split; [done|]. split; try done. cbn. congruence.
  - intros [= <- <-]. eexists. split; [done|]. split; try done. cbn. congruence.
  - intros [= <- <-]. by exists s.
  - done.
  - done.
Qed.

Lemma run_ok {A} (p : prog A) : ∀ s a x a',
  abs s a → arun en p a = Some (x, a') → ∃ s', run en p s = Some (x, s') ∧ abs s' a'.
Proof.
  induction p as [x|R o k IH]; intros s a y a' Ha; cbn [arun run]; [intros [= <- <-]; by exists s|].
  intros ([r a1] & H1 & H2)%bind_Some. destruct (op_step_ok o s a r a1 Ha H1) as (s1 & -> & Ha1). rewrite some_bind. by apply (IH r s1 a1).
Qed.
End refinement.
