(* ===== verification/KeyCmd.v ===== *)
(** * Commands on keys ([redis-3.2/src/db.c])

    The commands of [db.c] that work on keys of any type, as programs over the
    functions of [Keyspace]. *)

From S2P Require Import Prelude Decimal Util StringObj Notify Keyspace.

(** ** Numbers as arguments ([object.c]) *)

(** [None] is [C_ERR]; no object counts as 0. *)
Definition getLongLongFromObject (o : option robj) : option Z :=
  match o with
  | None => Some 0
  | Some (StrRaw s) => string2ll s
  | Some (StrInt v) => Some v
  end.

Definition getLongLongFromObjectOrReply (o : option robj) (msg : option string) : prog (option Z) :=
  match getLongLongFromObject o with
  | None => Reply (RError (default "value is not an integer or out of range"%string msg));; Ret None
  | Some v => Ret (Some v)
  end.

Definition getLongFromObjectOrReply (o : option robj) (msg : option string) : prog (option Z) :=
  v ← getLongLongFromObjectOrReply o msg;
  match v with
  | None => Ret None
  | Some v =>
      if (v <? - 2 ^ 63) || (v >? 2 ^ 63 - 1) then Reply (RError (default "value is out of range"%string msg));; Ret None
      else Ret (Some v)
  end.

(** [checkType] with [OBJ_STRING]; [None]: the object has another type, and the client was told. *)
Definition checkString (v : value) : prog (option robj) :=
  match v with VStr o => Ret (Some o) | VOther _ _ => Reply RWrongType;; Ret None end.

Definition lookupKeyReadOrReply (k : dbkey) (r : rep) : prog (option value) :=
  o ← LookupRead k; match o with None => Reply r;; Ret None | Some v => Ret (Some v) end.

Definition lookupKeyWriteOrReply (k : dbkey) (r : rep) : prog (option value) :=
  o ← LookupWrite k; match o with None => Reply r;; Ret None | Some v => Ret (Some v) end.

Definition setKey (k : dbkey) (v : value) : prog unit :=
  o ← LookupWrite k;
  match o with None => DbAdd k v | Some _ => DbOverwrite k v end;;
  RemoveExpire k;;
  SignalModified k.

(** ** Commands *)
Fixpoint del_loop (id : Z) (keys : list (list Z)) (deleted : Z) : prog Z :=
  match keys with
  | [] => Ret deleted
  | key :: keys =>
      ExpireIfNeeded (id, key);;
      b ← DbDelete (id, key);
      if (b : bool) then
        SignalModified (id, key);;
        NotifyEvent NOTIFY_GENERIC "del" (id, key);;
        Dirty 1;;
        del_loop id keys (deleted + 1)
      else del_loop id keys deleted
  end.

Definition delCommand (id : Z) (keys : list (list Z)) : prog unit :=
  n ← del_loop id keys 0; Reply (RInt n).

Fixpoint exists_loop (id : Z) (keys : list (list Z)) (count : Z) : prog Z :=
  match keys with
  | [] => Ret count
  | key :: keys =>
      ExpireIfNeeded (id, key);;
      b ← DbExists (id, key);
      exists_loop id keys (if (b : bool) then count + 1 else count)
  end.

Definition existsCommand (id : Z) (keys : list (list Z)) : prog unit :=
  n ← exists_loop id keys 0; Reply (RInt n).

Definition type_name (v : value) : string :=
  match v with
  | VStr _ => "string"
  | VOther OBJ_LIST _ => "list"
  | VOther OBJ_SET _ => "set"
  | VOther OBJ_ZSET _ => "zset"
  | VOther OBJ_HASH _ => "hash"
  end.

Definition typeCommand (id : Z) (key : list Z) : prog unit :=
  o ← LookupRead (id, key);
  Reply (RStatus match o with None => "none" | Some v => type_name v end).

Definition dbsizeCommand (id : Z) : prog unit := n ← DbSize id; Reply (RInt n).

Definition renameGenericCommand (id : Z) (src dst : list Z) (nx : bool) : prog unit :=
  let samekey := bool_decide (src = dst) in
  o ← lookupKeyWriteOrReply (id, src) RNoKey;
  match o with
  | None => Ret ()
  | Some o =>
      if samekey then Reply (if nx then RInt 0 else ROk) else
      expire ← GetExpire (id, src);
      d ← LookupWrite (id, dst);
      stop ← match d with
             | None => Ret false
             | Some _ => if nx then Reply (RInt 0);; Ret true else DbDelete (id, dst);; Ret false
             end;
      if (stop : bool) then Ret () else
      DbAdd (id, dst) o;;
      (if expire =? -1 then Ret () else SetExpire (id, dst) expire);;
      DbDelete (id, src);;
      SignalModified (id, src);;
      SignalModified (id, dst);;
      NotifyEvent NOTIFY_GENERIC "rename_from" (id, src);;
      NotifyEvent NOTIFY_GENERIC "rename_to" (id, dst);;
      Dirty 1;;
      Reply (if nx then RInt 1 else ROk)
  end.

Definition moveCommand (id : Z) (key dbid : list Z) : prog unit :=
  en ← Env;
  if kcluster en then Reply (RError "MOVE is not allowed in cluster mode") else
  match getLongLongFromObject (Some (StrRaw dbid)) with
  | None => Reply ROutOfRange
  | Some dst =>
      if (dst <? - 2 ^ 31) || (dst >? 2 ^ 31 - 1) || (dst <? 0) || (dst >=? dbnum en) then Reply ROutOfRange else
      if id =? dst then Reply RSameObject else
      o ← LookupWrite (id, key);
      match o with
      | None => Reply (RInt 0)
      | Some o =>
          expire ← GetExpire (id, key);
          d ← LookupWrite (dst, key);
          match d with
          | Some _ => Reply (RInt 0)
          | None =>
              DbAdd (dst, key) o;;
              (if expire =? -1 then Ret () else SetExpire (dst, key) expire);;
              DbDelete (id, key);;
              Dirty 1;;
              Reply (RInt 1)
          end
      end
  end.

Inductive unit_ := UNIT_SECONDS | UNIT_MILLISECONDS.

Definition expireGenericCommand (id : Z) (key param : list Z) (basetime : Z) (u : unit_) : prog unit :=
  w ← getLongLongFromObjectOrReply (Some (StrRaw param)) None;
  match w with
  | None => Ret ()
  | Some w =>
      let w := match u with UNIT_SECONDS => s64 (w * 1000) | UNIT_MILLISECONDS => w end in
      let w := s64 (w + basetime) in
      o ← LookupWrite (id, key);
      match o with
      | None => Reply (RInt 0)
      | Some _ =>
          en ← Env;
          if (w <=? mstime en) && negb (loading en) && negb (masterhost en) then
            b ← DbDelete (id, key);
            (if (b : bool) then Ret () else Fail);;
            Dirty 1;;
            Rewrite [of_string "DEL"; key];;
            SignalModified (id, key);;
            NotifyEvent NOTIFY_GENERIC "del" (id, key);;
            Reply (RInt 1)
          else
            SetExpire (id, key) w;;
            Reply (RInt 1);;
            SignalModified (id, key);;
            NotifyEvent NOTIFY_GENERIC "expire" (id, key);;
            Dirty 1
      end
  end.

Definition expireCommand (id : Z) (key param : list Z) : prog unit :=
  en ← Env; expireGenericCommand id key param (mstime en) UNIT_SECONDS.
Definition expireatCommand (id : Z) (key param : list Z) : prog unit := expireGenericCommand id key param 0 UNIT_SECONDS.
Definition pexpireCommand (id : Z) (key param : list Z) : prog unit :=
  en ← Env; expireGenericCommand id key param (mstime en) UNIT_MILLISECONDS.
Definition pexpireatCommand (id : Z) (key param : list Z) : prog unit := expireGenericCommand id key param 0 UNIT_MILLISECONDS.

Definition ttlGenericCommand (id : Z) (key : list Z) (output_ms : bool) : prog unit :=
  o ← LookupRead (id, key);
  match o with
  | None => Reply (RInt (-2))
  | Some _ =>
      expire ← GetExpire (id, key);
      en ← Env;
      let ttl := if expire =? -1 then -1 else Z.max 0 (s64 (expire - mstime en)) in
      Reply (RInt (if ttl =? -1 then -1 else if output_ms then ttl else Z.quot (s64 (ttl + 500)) 1000))
  end.

Definition persistCommand (id : Z) (key : list Z) : prog unit :=
  de ← DbExists (id, key);
  if (de : bool) then
    b ← RemoveExpire (id, key);
    if (b : bool) then Reply (RInt 1);; Dirty 1 else Reply (RInt 0)
  else Reply (RInt 0).

Fixpoint touch_loop (id : Z) (keys : list (list Z)) (touched : Z) : prog Z :=
  match keys with
  | [] => Ret touched
  | key :: keys =>
      o ← LookupRead (id, key);
      touch_loop id keys (if o is Some _ then touched + 1 else touched)
  end.

Definition touchCommand (id : Z) (keys : list (list Z)) : prog unit :=
  n ← touch_loop id keys 0; Reply (RInt n).
