(* ===== verification/StrCmd.v ===== *)
(** * Commands on strings ([redis-3.2/src/t_string.c])

    The commands of [t_string.c] but INCRBYFLOAT, as programs over the
    functions of [Keyspace].  The arguments of a command are strings; only
    [tryObjectEncoding] makes numbers of them. *)

From S2P Require Import Prelude Decimal Util StringObj Notify Keyspace KeyCmd.

(** ** String objects ([object.c]) *)

(** The smaller forms of a byte string and the shared numbers that [tryObjectEncoding] chooses are the same values; the
    arguments it is called on are not shared. *)
Definition tryObjectEncoding (o : robj) : robj :=
  match o with
  | StrInt _ => o
  | StrRaw s => if zlen s <=? 20 then match string2l s with Some v => StrInt v | None => o end else o
  end.

Definition createStringObjectFromLongLong (v : Z) : robj := StrInt v.

Definition stringObjectLen (o : robj) : Z := match o with StrRaw s => zlen s | StrInt v => sdigits10 v end.

(** A number printed to a buffer of [n] bytes. *)
Definition print_number (n : nat) (v : Z) : option (list Z) :=
  '(len, buf) ← ll2string (replicate n 0) (Z.of_nat n) v; mread buf 0 len.

Definition getDecodedObject (o : robj) : option (list Z) :=
  match o with StrRaw s => Some s | StrInt v => print_number 32 v end.

(** [dbUnshareStringValue]: the bytes of the object that may be changed now. *)
Definition dbUnshareStringValue (k : dbkey) (o : robj) : prog (list Z) :=
  match o with
  | StrRaw s => Ret s
  | StrInt _ => s ← lift (getDecodedObject o); DbOverwrite k (VStr (StrRaw s));; Ret s
  end.

(** [sdsnewlen] and [sdsgrowzero] on the contents.  Strings longer than the memory: the allocation fails and the server ends. *)
Definition new_zero (n : Z) : option (list Z) :=
  if n <? 2 ^ 63 then Some (replicate (Z.to_nat n) 0) else None.
Definition grow_zero (s : list Z) (n : Z) : option (list Z) :=
  if n <=? zlen s then Some s else if n <? 2 ^ 63 then Some (s ++ replicate (Z.to_nat (n - zlen s)) 0) else None.

(** ** Commands *)
Definition checkStringLength (size : Z) : prog bool :=
  if size >? 512 * 1024 * 1024 then Reply (RError "string exceeds maximum allowed size (512MB)");; Ret false else Ret true.

Definition OBJ_SET_NO_FLAGS : Z := 0.
Definition OBJ_SET_NX : Z := Z.shiftl 1 0.
Definition OBJ_SET_XX : Z := Z.shiftl 1 1.
Definition OBJ_SET_EX : Z := Z.shiftl 1 2.
Definition OBJ_SET_PX : Z := Z.shiftl 1 3.
Definition has_flag (f m : Z) : bool := negb (Z.land f m =? 0).

(** The time to live in milliseconds; the outer [None]: the client got an error. *)
Definition set_expire_arg (name : string) (expire : option (list Z)) (u : unit_) : prog (option (option Z)) :=
  match expire with
  | None => Ret (Some None)
  | Some e =>
      ms ← getLongLongFromObjectOrReply (Some (StrRaw e)) None;
      match ms with
      | None => Ret None
      | Some ms =>
          if ms <=? 0 then Reply (RError ("invalid expire time in " ++ name)%string);; Ret None
          else Ret (Some (Some (match u with UNIT_SECONDS => s64 (ms * 1000) | UNIT_MILLISECONDS => ms end)))
      end
  end.

(** [name] is the name of the command. *)
Definition setGenericCommand (name : string) (k : dbkey) (flags : Z) (val : robj) (expire : option (list Z)) (u : unit_)
    (ok_reply abort_reply : rep) : prog unit :=
  e ← set_expire_arg name expire u;
  match e with
  | None => Ret ()
  | Some e =>
      abort ← (if has_flag flags OBJ_SET_NX then
                 o ← LookupWrite k;
                 match o with
                 | Some _ => Ret true
                 | None => if has_flag flags OBJ_SET_XX then o ← LookupWrite k; Ret (bool_decide (o = None)) else Ret false
                 end
               else if has_flag flags OBJ_SET_XX then o ← LookupWrite k; Ret (bool_decide (o = None)) else Ret false);
      if (abort : bool) then Reply abort_reply else
      setKey k (VStr val);;
      Dirty 1;;
      (match e with Some ms => en ← Env; SetExpire k (s64 (mstime en + ms)) | None => Ret () end : prog unit);;
      NotifyEvent NOTIFY_STRING "set" k;;
      (match e with Some _ => NotifyEvent NOTIFY_GENERIC "expire" k | None => Ret () end : prog unit);;
      Reply ok_reply
  end.

(** An option of two letters, compared without case up to the terminating NUL. *)
Definition is_option (a : list Z) (w : string) : bool := strcaseeq (cstr a) (of_string w).

(** [None]: syntax error. *)
Fixpoint set_options (args : list (list Z)) (flags : Z) (expire : option (list Z)) (u : unit_) :
    option (Z * option (list Z) * unit_) :=
  match args with
  | [] => Some (flags, expire, u)
  | a :: args =>
      if is_option a "nx" && negb (has_flag flags OBJ_SET_XX) then set_options args (Z.lor flags OBJ_SET_NX) expire u
      else if is_option a "xx" && negb (has_flag flags OBJ_SET_NX) then set_options args (Z.lor flags OBJ_SET_XX) expire u
      else match args with
           | next :: args =>
               if is_option a "ex" && negb (has_flag flags OBJ_SET_PX) then
                 set_options args (Z.lor flags OBJ_SET_EX) (Some next) UNIT_SECONDS
               else if is_option a "px" && negb (has_flag flags OBJ_SET_EX) then
                 set_options args (Z.lor flags OBJ_SET_PX) (Some next) UNIT_MILLISECONDS
               else None
           | [] => None
           end
  end.

Definition setCommand (id : Z) (key val : list Z) (options : list (list Z)) : prog unit :=
  match set_options options OBJ_SET_NO_FLAGS None UNIT_SECONDS with
  | None => Reply RSyntax
  | Some (flags, expire, u) => setGenericCommand "set" (id, key) flags (tryObjectEncoding (StrRaw val)) expire u ROk RNull
  end.

Definition setnxCommand (id : Z) (key val : list Z) : prog unit :=
  setGenericCommand "setnx" (id, key) OBJ_SET_NX (tryObjectEncoding (StrRaw val)) None UNIT_SECONDS (RInt 1) (RInt 0).
Definition setexCommand (id : Z) (key secs val : list Z) : prog unit :=
  setGenericCommand "setex" (id, key) OBJ_SET_NO_FLAGS (tryObjectEncoding (StrRaw val)) (Some secs) UNIT_SECONDS ROk RNull.
Definition psetexCommand (id : Z) (key ms val : list Z) : prog unit :=
  setGenericCommand "psetex" (id, key) OBJ_SET_NO_FLAGS (tryObjectEncoding (StrRaw val)) (Some ms) UNIT_MILLISECONDS ROk RNull.

(** [addReplyBulk]: the text of a string object. *)
Definition addReplyBulk (o : robj) : prog unit := s ← lift (getDecodedObject o); Reply (RBulk s).

Definition getGenericCommand (k : dbkey) : prog bool :=
  o ← lookupKeyReadOrReply k RNull;
  match o with
  | None => Ret true
  | Some (VOther _ _) => Reply RWrongType;; Ret false
  | Some (VStr o) => addReplyBulk o;; Ret true
  end.

Definition getCommand (id : Z) (key : list Z) : prog unit := getGenericCommand (id, key);; Ret ().

Definition getsetCommand (id : Z) (key val : list Z) : prog unit :=
  ok ← getGenericCommand (id, key);
  if (ok : bool) then
    setKey (id, key) (VStr (tryObjectEncoding (StrRaw val)));;
    NotifyEvent NOTIFY_STRING "set" (id, key);;
    Dirty 1
  else Ret ().

(** The end of [setrangeCommand]: [s] are the bytes of the object. *)
Definition setrange_write (k : dbkey) (s : list Z) (offset : Z) (value : list Z) : prog unit :=
  s ← lift (grow_zero s (u64 (offset + zlen value)));
  s ← lift (mwrite s offset value);
  DbOverwrite k (VStr (StrRaw s));;
  SignalModified k;;
  NotifyEvent NOTIFY_STRING "setrange" k;;
  Dirty 1;;
  Reply (RInt (zlen s)).

Definition setrangeCommand (id : Z) (key offset value : list Z) : prog unit :=
  let k := (id, key) in
  off ← getLongFromObjectOrReply (Some (StrRaw offset)) None;
  match off with
  | None => Ret ()
  | Some off =>
      if off <? 0 then Reply (RError "offset is out of range") else
      o ← LookupWrite k;
      match o with
      | None =>
          if zlen value =? 0 then Reply (RInt 0) else
          ok ← checkStringLength (s64 (off + zlen value));
          if (ok : bool) then
            s ← lift (new_zero (u64 (off + zlen value)));
            DbAdd k (VStr (StrRaw s));;
            setrange_write k s off value
          else Ret ()
      | Some v =>
          o ← checkString v;
          match o with
          | None => Ret ()
          | Some o =>
              if zlen value =? 0 then Reply (RInt (stringObjectLen o)) else
              ok ← checkStringLength (s64 (off + zlen value));
              if (ok : bool) then s ← dbUnshareStringValue k o; setrange_write k s off value else Ret ()
          end
      end
  end.

(** The bytes from [start] to [end], both may count from the end. *)
Definition getrange (s : list Z) (start stop : Z) : option (list Z) :=
  let strlen := zlen s in
  if (start <? 0) && (stop <? 0) && (start >? stop) then Some [] else
  let start := if start <? 0 then s64 (strlen + start) else start in
  let stop := if stop <? 0 then s64 (strlen + stop) else stop in
  let start := if start <? 0 then 0 else start in
  let stop := if stop <? 0 then 0 else stop in
  let stop := if stop >=? strlen then s64 (strlen - 1) else stop in
  if (start >? stop) || (strlen =? 0) then Some [] else mread s start (stop - start + 1).

Definition getrangeCommand (id : Z) (key start stop : list Z) : prog unit :=
  st ← getLongLongFromObjectOrReply (Some (StrRaw start)) None;
  match st with
  | None => Ret ()
  | Some st =>
      en ← getLongLongFromObjectOrReply (Some (StrRaw stop)) None;
      match en with
      | None => Ret ()
      | Some en =>
          o ← lookupKeyReadOrReply (id, key) (RBulk []);
          match o with
          | None => Ret ()
          | Some v =>
              o ← checkString v;
              match o with
              | None => Ret ()
              | Some o => s ← lift (getDecodedObject o); r ← lift (getrange s st en); Reply (RBulk r)
              end
          end
      end
  end.

Definition mget_one (id : Z) (key : list Z) : prog unit :=
  o ← LookupRead (id, key);
  match o with Some (VStr o) => addReplyBulk o | _ => Reply RNull end.

Definition mgetCommand (id : Z) (keys : list (list Z)) : prog unit :=
  Reply (RMultiLen (zlen keys));; each (mget_one id) keys.

(** The keys and values of the arguments; [None] if the last key has no value. *)
Fixpoint pairs (args : list (list Z)) : option (list (list Z * list Z)) :=
  match args with
  | [] => Some []
  | [_] => None
  | k :: v :: args => l ← pairs args; Some ((k, v) :: l)
  end.

Fixpoint busy_keys (id : Z) (kvs : list (list Z * list Z)) (n : Z) : prog Z :=
  match kvs with
  | [] => Ret n
  | (k, _) :: kvs => o ← LookupWrite (id, k); busy_keys id kvs (if o is Some _ then n + 1 else n)
  end.

Definition mset_one (id : Z) (kv : list Z * list Z) : prog unit :=
  setKey (id, kv.1) (VStr (tryObjectEncoding (StrRaw kv.2)));;
  NotifyEvent NOTIFY_STRING "set" (id, kv.1).

Definition msetGenericCommand (id : Z) (args : list (list Z)) (nx : bool) : prog unit :=
  match pairs args with
  | None => Reply (RError "wrong number of arguments for MSET")
  | Some kvs =>
      busy ← (if nx then busy_keys id kvs 0 else Ret 0);
      if negb (busy =? 0) then Reply (RInt 0) else
      each (mset_one id) kvs;;
      Dirty (zlen kvs);;
      Reply (if nx then RInt 1 else ROk)
  end.

Definition msetCommand (id : Z) (args : list (list Z)) : prog unit := msetGenericCommand id args false.
Definition msetnxCommand (id : Z) (args : list (list Z)) : prog unit := msetGenericCommand id args true.

(** A private number is changed in place, which is what overwriting it amounts to. *)
Definition incrDecrCommand (id : Z) (key : list Z) (incr : Z) : prog unit :=
  let k := (id, key) in
  ov ← LookupWrite k;
  o ← (match ov with
       | None => Ret (Some None)
       | Some v => o ← checkString v; Ret (match o with None => None | Some o => Some (Some o) end)
       end : prog (option (option robj)));
  match o with
  | None => Ret ()
  | Some o =>
      value ← getLongLongFromObjectOrReply o None;
      match value with
      | None => Ret ()
      | Some oldvalue =>
          if ((incr <? 0) && (oldvalue <? 0) && (incr <? LLONG_MIN - oldvalue)) ||
             ((incr >? 0) && (oldvalue >? 0) && (incr >? LLONG_MAX - oldvalue))
          then Reply (RError "increment or decrement would overflow") else
          let value := s64 (oldvalue + incr) in
          let new := VStr (createStringObjectFromLongLong value) in
          (match o with Some _ => DbOverwrite k new | None => DbAdd k new end : prog unit);;
          SignalModified k;;
          NotifyEvent NOTIFY_STRING "incrby" k;;
          Dirty 1;;
          Reply (RInt value)
      end
  end.

Definition incrCommand (id : Z) (key : list Z) : prog unit := incrDecrCommand id key 1.
Definition decrCommand (id : Z) (key : list Z) : prog unit := incrDecrCommand id key (-1).
Definition incrbyCommand (id : Z) (key incr : list Z) : prog unit :=
  n ← getLongLongFromObjectOrReply (Some (StrRaw incr)) None;
  match n with None => Ret () | Some n => incrDecrCommand id key n end.
Definition decrbyCommand (id : Z) (key decr : list Z) : prog unit :=
  n ← getLongLongFromObjectOrReply (Some (StrRaw decr)) None;
  match n with None => Ret () | Some n => incrDecrCommand id key (s64 (- n)) end.

Definition appendCommand (id : Z) (key value : list Z) : prog unit :=
  let k := (id, key) in
  ov ← LookupWrite k;
  totlen ← (match ov with
           | None =>
               let o := tryObjectEncoding (StrRaw value) in
               DbAdd k (VStr o);; Ret (Some (stringObjectLen o))
           | Some v =>
               o ← checkString v;
               match o with
               | None => Ret None
               | Some o =>
                   ok ← checkStringLength (s64 (u64 (stringObjectLen o + zlen value)));
                   if (ok : bool) then
                     s ← dbUnshareStringValue k o;
                     DbOverwrite k (VStr (StrRaw (s ++ value)));; Ret (Some (zlen (s ++ value)))
                   else Ret None
               end
           end : prog (option Z));
  match totlen with
  | None => Ret ()
  | Some totlen =>
      SignalModified k;;
      NotifyEvent NOTIFY_STRING "append" k;;
      Dirty 1;;
      Reply (RInt totlen)
  end.

Definition strlenCommand (id : Z) (key : list Z) : prog unit :=
  o ← lookupKeyReadOrReply (id, key) (RInt 0);
  match o with
  | None => Ret ()
  | Some v => o ← checkString v; match o with None => Ret () | Some o => Reply (RInt (stringObjectLen o)) end
  end.
