(* ===== verification/Bitmap.v ===== *)
(** * Bit operations on strings ([redis-3.2/src/bitops.c])

    Counting bits, finding a bit, and integers of any width at any bit
    position.  Strings are lists of bytes; bit 0 is the most significant bit
    of the first byte.  [addr] is the address of the first byte, which decides
    how many bytes the loops take one by one before they take words.

    [None] is undefined behaviour: an access outside the string, a shift by
    the width of the type, or the panic at the end of [redisBitpos].  Signed
    additions that overflow wrap around, as the comments of the code expect. *)

From S2P Require Import Prelude.

(** ** Counting *)
Definition bitsinbyte : list Z :=
  [0; 1; 1; 2; 1; 2; 2; 3; 1; 2; 2; 3; 2; 3; 3; 4; 1; 2; 2; 3; 2; 3; 3; 4; 2; 3; 3; 4; 3; 4; 4; 5;
   1; 2; 2; 3; 2; 3; 3; 4; 2; 3; 3; 4; 3; 4; 4; 5; 2; 3; 3; 4; 3; 4; 4; 5; 3; 4; 4; 5; 4; 5; 5; 6;
   1; 2; 2; 3; 2; 3; 3; 4; 2; 3; 3; 4; 3; 4; 4; 5; 2; 3; 3; 4; 3; 4; 4; 5; 3; 4; 4; 5; 4; 5; 5; 6;
   2; 3; 3; 4; 3; 4; 4; 5; 3; 4; 4; 5; 4; 5; 5; 6; 3; 4; 4; 5; 4; 5; 5; 6; 4; 5; 5; 6; 5; 6; 6; 7;
   1; 2; 2; 3; 2; 3; 3; 4; 2; 3; 3; 4; 3; 4; 4; 5; 2; 3; 3; 4; 3; 4; 4; 5; 3; 4; 4; 5; 4; 5; 5; 6;
   2; 3; 3; 4; 3; 4; 4; 5; 3; 4; 4; 5; 4; 5; 5; 6; 3; 4; 4; 5; 4; 5; 5; 6; 4; 5; 5; 6; 5; 6; 6; 7;
   2; 3; 3; 4; 3; 4; 4; 5; 3; 4; 4; 5; 4; 5; 5; 6; 3; 4; 4; 5; 4; 5; 5; 6; 4; 5; 5; 6; 5; 6; 6; 7;
   3; 4; 4; 5; 4; 5; 5; 6; 4; 5; 5; 6; 5; 6; 6; 7; 4; 5; 5; 6; 5; 6; 6; 7; 5; 6; 6; 7; 6; 7; 7; 8].

(** [bits += bitsinbyte[*p++]] for every byte. *)
Definition count_bytes (p : list Z) : option Z :=
  foldr (λ b n, n ← n; t ← bitsinbyte !! Z.to_nat b; Some (t + n)) (Some 0) p.

(** The bytes up to the next address that is a multiple of four. *)
Definition unaligned (addr : Z) (align : Z) (p : list Z) : nat :=
  Nat.min (length p) (Z.to_nat ((- addr) mod align)).

Definition aux_pairs (aux : Z) : Z := u32 (aux - Z.land (Z.shiftr aux 1) 0x55555555).
Definition aux_nibbles (aux : Z) : Z := u32 (Z.land aux 0x33333333 + Z.land (Z.shiftr aux 2) 0x33333333).
Definition aux_bytes (aux : Z) : Z := Z.land (u32 (aux + Z.shiftr aux 4)) 0x0F0F0F0F.

(** Seven words at a time. *)
Definition count_words (ws : list Z) : Z :=
  let sum := foldl (λ a w, u32 (a + aux_bytes (aux_nibbles (aux_pairs w)))) 0 ws in
  Z.shiftr (u32 (sum * 0x01010101)) 24.

Fixpoint words (n : nat) (p : list Z) : list Z :=
  match n with O => [] | S n => le_val (take 4 p) :: words n (drop 4 p) end.

Fixpoint count28 (fuel : nat) (p : list Z) (bits : Z) : option Z :=
  match fuel with
  | O => None
  | S fuel =>
      if (28 <=? length p)%nat then count28 fuel (drop 28 p) (bits + count_words (words 7 p))
      else n ← count_bytes p; Some (bits + n)
  end.

Definition redisPopcount (addr : Z) (p : list Z) : option Z :=
  let k := unaligned addr 4 p in
  n ← count_bytes (take k p);
  count28 (S (length p)) (drop k p) n.

(** ** Finding *)

(** The first loop, up to an aligned address: the bytes that are skipped. *)
Fixpoint skip_bytes (n : nat) (skipval : Z) (p : list Z) : nat :=
  match n, p with
  | S n, c :: p => if c =? skipval then S (skip_bytes n skipval p) else O
  | _, _ => O
  end.

Fixpoint skip_words (fuel : nat) (skipval : Z) (p : list Z) : option nat :=
  match fuel with
  | O => None
  | S fuel =>
      if (8 <=? length p)%nat then
        if le_val (take 8 p) =? skipval then n ← skip_words fuel skipval (drop 8 p); Some (8 + n)%nat else Some O
      else Some O
  end.

(** The loop on [j]: the bytes as a big-endian word, zeros behind them. *)
Fixpoint load_word (n : nat) (word : Z) (p : list Z) : Z :=
  match n with
  | O => word
  | S n =>
      let word := u64 (Z.shiftl word 8) in
      match p with [] => load_word n word [] | c :: p => load_word n (Z.lor word c) p end
  end.

(** [while (one)]; [None] is the panic. *)
Fixpoint scan_word (n : nat) (one word : Z) (bit : bool) (pos : Z) : option Z :=
  match n with
  | O => None
  | S n =>
      if Bool.eqb (negb (Z.land one word =? 0)) bit then Some pos
      else scan_word n (Z.shiftr one 1) word bit (pos + 1)
  end.

Definition redisBitpos (addr : Z) (p : list Z) (bit : bool) : option Z :=
  let k := skip_bytes (unaligned addr 8 p) (if bit then 0 else 255) p in
  let p := drop k p in
  n ← skip_words (S (length p)) (if bit then 0 else 2 ^ 64 - 1) p;
  let p := drop n p in
  let word := load_word 8 0 p in
  if bit && (word =? 0) then Some (-1) else
  let one := Z.land (Z.lnot (Z.shiftr (2 ^ 64 - 1) 1)) (2 ^ 64 - 1) in
  scan_word 64 one word bit (8 * Z.of_nat (k + n)).

(** ** Integers in bit maps *)
Fixpoint setUnsignedBitfield (p : list Z) (offset : Z) (bits : nat) (value : Z) : option (list Z) :=
  match bits with
  | O => Some p
  | S j =>
      let bitval := if Z.land value (Z.shiftl 1 (Z.of_nat j)) =? 0 then 0 else 1 in
      let byte := Z.shiftr offset 3 in
      let bit := 7 - Z.land offset 7 in
      byteval ← get p byte;
      let byteval := Z.land byteval (Z.lnot (Z.shiftl 1 bit)) in
      let byteval := Z.lor byteval (Z.shiftl bitval bit) in
      p ← mwrite p byte [Z.land byteval 255];
      setUnsignedBitfield p (u64 (offset + 1)) j value
  end.

Definition setSignedBitfield (p : list Z) (offset : Z) (bits : nat) (value : Z) : option (list Z) :=
  setUnsignedBitfield p offset bits (u64 value).

Fixpoint get_bits (p : list Z) (offset : Z) (bits : nat) (value : Z) : option Z :=
  match bits with
  | O => Some value
  | S j =>
      byteval ← get p (Z.shiftr offset 3);
      let bit := 7 - Z.land offset 7 in
      let bitval := Z.land (Z.shiftr byteval bit) 1 in
      get_bits p (u64 (offset + 1)) j (Z.lor (u64 (Z.shiftl value 1)) bitval)
  end.

Definition getUnsignedBitfield (p : list Z) (offset : Z) (bits : nat) : option Z := get_bits p offset bits 0.

(** [((uint64_t)-1) << bits]. *)
Definition high_mask (bits : nat) : option Z :=
  if (bits <? 64)%nat then Some (u64 (Z.shiftl (2 ^ 64 - 1) (Z.of_nat bits))) else None.

Definition getSignedBitfield (p : list Z) (offset : Z) (bits : nat) : option Z :=
  u ← getUnsignedBitfield p offset bits;
  if negb (Z.land u (Z.shiftl 1 (Z.of_nat bits - 1)) =? 0) then m ← high_mask bits; Some (s64 (Z.lor u m)) else Some (s64 u).

(** ** Overflow *)
Inductive owtype := BFOVERFLOW_WRAP | BFOVERFLOW_SAT | BFOVERFLOW_FAIL.

(** The result and what is stored to [*limit], if anything is. *)
Definition checkUnsignedBitfieldOverflow (value incr : Z) (bits : nat) (ow : owtype) : option (Z * option Z) :=
  let max := if (bits =? 64)%nat then 2 ^ 64 - 1 else 2 ^ Z.of_nat bits - 1 in
  let maxincr := s64 (max - value) in
  let minincr := s64 (- value) in
  let wrap := mask ← high_mask bits; Some (1, Some (Z.land (u64 (value + incr)) (Z.lxor mask (2 ^ 64 - 1)))) in
  if (value >? max) || ((incr >? 0) && (incr >? maxincr)) then
    match ow with
    | BFOVERFLOW_WRAP => wrap
    | BFOVERFLOW_SAT => Some (1, Some max)
    | BFOVERFLOW_FAIL => Some (1, None)
    end
  else if (incr <? 0) && (incr <? minincr) then
    match ow with
    | BFOVERFLOW_WRAP => wrap
    | BFOVERFLOW_SAT => Some (-1, Some 0)
    | BFOVERFLOW_FAIL => Some (-1, None)
    end
  else Some (0, None).

Definition checkSignedBitfieldOverflow (value incr : Z) (bits : nat) (ow : owtype) : option (Z * option Z) :=
  let max := if (bits =? 64)%nat then 2 ^ 63 - 1 else 2 ^ (Z.of_nat bits - 1) - 1 in
  let min := - max - 1 in
  let maxincr := s64 (max - value) in
  let minincr := s64 (min - value) in
  let wrap :=
    mask ← high_mask bits;
    let msb := Z.shiftl 1 (Z.of_nat bits - 1) in
    let c := u64 (value + incr) in
    Some (1, Some (s64 (if negb (Z.land c msb =? 0) then Z.lor c mask else Z.land c (Z.lxor mask (2 ^ 64 - 1))))) in
  if (value >? max) || (negb (bits =? 64)%nat && (incr >? maxincr)) || ((value >=? 0) && (incr >? 0) && (incr >? maxincr)) then
    match ow with
    | BFOVERFLOW_WRAP => wrap
    | BFOVERFLOW_SAT => Some (1, Some max)
    | BFOVERFLOW_FAIL => Some (1, None)
    end
  else if (value <? min) || (negb (bits =? 64)%nat && (incr <? minincr)) || ((value <? 0) && (incr <? 0) && (incr <? minincr)) then
    match ow with
    | BFOVERFLOW_WRAP => wrap
    | BFOVERFLOW_SAT => Some (-1, Some min)
    | BFOVERFLOW_FAIL => Some (-1, None)
    end
  else Some (0, None).

(** ** Bits *)
Definition byte_bits (b : Z) : list bool := map (Z.testbit b) [7; 6; 5; 4; 3; 2; 1; 0].
(** The bits of a string, bit 0 first. *)
Definition bits_of (p : list Z) : list bool := concat (map byte_bits p).
Definition ones (l : list bool) : Z := foldr (λ b n, Z.b2z b + n) 0 l.

Lemma bits_app p q : bits_of (p ++ q) = bits_of p ++ bits_of q.
Proof. unfold bits_of. by rewrite map_app, concat_app. Qed.

Lemma bits_length p : length (bits_of p) = (8 * length p)%nat.
Proof. induction p as [|b p IH]; [done|]. change (bits_of (b :: p)) with (byte_bits b ++ bits_of p). rewrite length_app, IH. change (length (byte_bits b)) with 8%nat. simpl length. lia. Qed.

Lemma ones_app a b : ones (a ++ b) = ones a + ones b.
Proof. induction a as [|x a IH]; [done|]. change (Z.b2z x + ones (a ++ b) = Z.b2z x + ones a + ones b). lia. Qed.

Lemma byte_all (P : Z → bool) : forallb P (map Z.of_nat (seq 0 256)) = true → ∀ b, byte_ok b → P b = true.
Proof.
  intros H b Hb. rewrite forallb_forall in H. apply H, in_map_iff. unfold byte_ok, in_u in Hb. pow2.
  exists (Z.to_nat b). split; [lia|]. apply in_seq. lia.
Qed.

Definition popb (b : Z) : Z := ones (byte_bits b).

Lemma table_ok b : byte_ok b → bitsinbyte !! Z.to_nat b = Some (popb b).
Proof.
  intros Hb. apply (byte_all (λ b, bool_decide (bitsinbyte !! Z.to_nat b = Some (popb b)))) in Hb; [|by vm_compute].
  by apply bool_decide_eq_true in Hb.
Qed.

Lemma count_bytes_ok p : bytes_ok p → count_bytes p = Some (ones (bits_of p)).
Proof.
  induction 1 as [|b p Hb _ IH]; [done|]. change (count_bytes (b :: p)) with (n ← count_bytes p; t ← bitsinbyte !! Z.to_nat b; Some (t + n)).
  rewrite IH, some_bind, (table_ok b Hb), some_bind. change (bits_of (b :: p)) with (byte_bits b ++ bits_of p). by rewrite ones_app.
Qed.

(** ** Words of four bytes *)
Definition quad (a b c d : Z) : Z := a + 256 * (b + 256 * (c + 256 * d)).

Lemma testbit_cat b w n : byte_ok b → 0 ≤ n → Z.testbit (b + 256 * w) n = if n <? 8 then Z.testbit b n else Z.testbit w (n - 8).
Proof.
  intros Hb Hn. unfold byte_ok, in_u in Hb. change 256 with (2 ^ 8) in *. rewrite Z.mul_comm, <- lor_shift by lia.
  rewrite Z.lor_spec, Z.shiftl_spec by done. destruct (Z.ltb_spec n 8).
  - by rewrite (Z.testbit_neg_r w) by lia; rewrite orb_false_r.
  - rewrite (Z.bits_above_log2 b n); [done|lia|]. destruct (Z.eq_dec b 0) as [->|]; [cbn; lia|]. apply Z.log2_lt_pow2; [lia|].
    pose proof (Z.pow_le_mono_r 2 8 n). lia.
Qed.

Lemma testbit_small a n k : 0 ≤ a < 2 ^ k → 0 ≤ k ≤ n → Z.testbit a n = false.
Proof.
  intros Ha Hn. destruct (Z.eq_dec a 0) as [->|]; [apply Z.testbit_0_l|]. apply Z.bits_above_log2; [lia|].
  apply Z.log2_lt_pow2; [lia|]. pose proof (Z.pow_le_mono_r 2 k n). lia.
Qed.

Lemma land_byte_ok a b : byte_ok b → byte_ok (Z.land a b).
Proof.
  intros Hb. unfold byte_ok, in_u in *. split; [apply Z.land_nonneg; lia|].
  assert (Z.land a b = Z.land a b mod 2 ^ 8) as ->; [|apply Z.mod_pos_bound; lia].
  rewrite <- Z.land_ones by lia. apply Z.bits_inj'. intros n Hn. rewrite !Z.land_spec. destruct (Z.ltb_spec n 8).
  - rewrite Z.ones_spec_low by lia. by rewrite andb_true_r.
  - rewrite (testbit_small b n 8) by lia. by rewrite andb_false_r.
Qed.

(** Shifting and masking byte by byte: the mask hides what comes in from the next byte. *)
Lemma mask_split b w k m M :
  byte_ok b → 0 ≤ k ≤ 8 → 0 ≤ m < 2 ^ (8 - k) →
  Z.land (Z.shiftr (b + 256 * w) k) (m + 256 * M) = Z.land (Z.shiftr b k) m + 256 * Z.land (Z.shiftr w k) M.
Proof.
  intros Hb Hk Hm. assert (byte_ok m) as Hm8.
  { unfold byte_ok, in_u. pose proof (Z.pow_le_mono_r 2 (8 - k) 8). lia. }
  apply Z.bits_inj'. intros n Hn. rewrite testbit_cat by (done || by apply land_byte_ok). rewrite !Z.land_spec, !Z.shiftr_spec by done.
  rewrite (testbit_cat m M n Hm8 Hn), (testbit_cat b w (n + k)) by (done || lia).
  destruct (Z.ltb_spec n 8).
  - destruct (Z.ltb_spec (n + k) 8); [done|].
    rewrite (testbit_small m n (8 - k)) by lia. by rewrite !andb_false_r.
  - rewrite (proj2 (Z.ltb_ge (n + k) 8)) by lia. rewrite Z.shiftr_spec by lia. do 2 f_equal. lia.
Qed.

Lemma mask_quad a b c d k m :
  byte_ok a → byte_ok b → byte_ok c → byte_ok d → 0 ≤ k ≤ 8 → 0 ≤ m < 2 ^ (8 - k) →
  Z.land (Z.shiftr (quad a b c d) k) (quad m m m m) =
  quad (Z.land (Z.shiftr a k) m) (Z.land (Z.shiftr b k) m) (Z.land (Z.shiftr c k) m) (Z.land (Z.shiftr d k) m).
Proof. intros. unfold quad. by rewrite !mask_split. Qed.

Lemma u32_quad a b c d : byte_ok a → byte_ok b → byte_ok c → byte_ok d → u32 (quad a b c d) = quad a b c d.
Proof. unfold byte_ok, quad. intros. apply wrapu_id. unfold in_u in *. pow2. lia. Qed.

Definition pairb (b : Z) : Z := b - Z.land (Z.shiftr b 1) 0x55.
Definition nibbleb (b : Z) : Z := Z.land b 0x33 + Z.land (Z.shiftr b 2) 0x33.

Lemma pairb_ok b : byte_ok b → byte_ok (pairb b).
Proof.
  intros Hb. apply (byte_all (λ b, bool_decide (byte_ok (pairb b)))) in Hb; [by apply bool_decide_eq_true in Hb|by vm_compute].
Qed.

(** After the second step both halves of a byte are at most 4, and their sum is the number of bits. *)
Lemma nibbles_ok b : byte_ok b →
  let x := nibbleb (pairb b) in byte_ok x ∧ x / 16 ≤ 4 ∧ x mod 16 ≤ 4 ∧ x / 16 + x mod 16 = popb b.
Proof.
  intros Hb. cbv zeta.
  apply (byte_all (λ b, let x := nibbleb (pairb b) in bool_decide (byte_ok x ∧ x / 16 ≤ 4 ∧ x mod 16 ≤ 4 ∧ x / 16 + x mod 16 = popb b))) in Hb;
    [by apply bool_decide_eq_true in Hb|by vm_compute].
Qed.

Lemma popb_range b : byte_ok b → 0 ≤ popb b ≤ 8.
Proof.
  intros Hb. apply (byte_all (λ b, bool_decide (0 ≤ popb b ≤ 8))) in Hb; [by apply bool_decide_eq_true in Hb|by vm_compute].
Qed.

Lemma word_count a b c d :
  byte_ok a → byte_ok b → byte_ok c → byte_ok d →
  aux_bytes (aux_nibbles (aux_pairs (quad a b c d))) = quad (popb a) (popb b) (popb c) (popb d).
Proof.
  intros Ha Hb Hc Hd. unfold aux_pairs. change 0x55555555 with (quad 0x55 0x55 0x55 0x55). rewrite mask_quad by (done || lia).
  replace (quad a b c d - _) with (quad (pairb a) (pairb b) (pairb c) (pairb d)) by (unfold quad, pairb; lia).
  rewrite u32_quad by (by apply pairb_ok). unfold aux_nibbles. change 0x33333333 with (quad 0x33 0x33 0x33 0x33).
  rewrite mask_quad by (by try apply pairb_ok || lia). rewrite <- (Z.shiftr_0_r (quad (pairb a) _ _ _)) at 1.
  rewrite mask_quad by (by try apply pairb_ok || lia). rewrite !Z.shiftr_0_r.
  destruct (nibbles_ok a Ha) as (A1 & A2 & A3 & A4), (nibbles_ok b Hb) as (B1 & B2 & B3 & B4),
    (nibbles_ok c Hc) as (C1 & C2 & C3 & C4), (nibbles_ok d Hd) as (D1 & D2 & D3 & D4).
  replace (quad _ _ _ _ + quad _ _ _ _) with (quad (nibbleb (pairb a)) (nibbleb (pairb b)) (nibbleb (pairb c)) (nibbleb (pairb d)))
    by (unfold quad, nibbleb; lia).
  rewrite u32_quad by done. revert A1 A2 A3 A4 B1 B2 B3 B4 C1 C2 C3 C4 D1 D2 D3 D4.
  generalize (nibbleb (pairb a)) (nibbleb (pairb b)) (nibbleb (pairb c)) (nibbleb (pairb d)). clear. intros w x y z. intros.
  unfold aux_bytes. rewrite Z.shiftr_div_pow2 by lia. change (2 ^ 4) with 16.
  unfold byte_ok, in_u in *. change (2 ^ 8) with 256 in *.
  replace (quad w x y z + quad w x y z / 16) with
    (quad (w + w / 16 + 16 * (x mod 16)) (x + x / 16 + 16 * (y mod 16)) (y + y / 16 + 16 * (z mod 16)) (z + z / 16))
    by (unfold quad; Z.div_mod_to_equations; lia).
  assert (∀ u v, 0 ≤ u < 256 → u / 16 ≤ 4 → u mod 16 ≤ 4 → 0 ≤ v ≤ 4 → byte_ok (u + u / 16 + 16 * v) ∧ Z.land (u + u / 16 + 16 * v) 15 = u / 16 + u mod 16) as Hone.
  { intros u v Hu H1 H2 Hv. split; [unfold byte_ok, in_u; pow2; Z.div_mod_to_equations; lia|].
    change 15 with (Z.ones 4). rewrite Z.land_ones by lia. change (2 ^ 4) with 16. Z.div_mod_to_equations. lia. }
  destruct (Hone w (x mod 16)) as [O1 E1]; [lia|lia|lia|Z.div_mod_to_equations; lia|].
  destruct (Hone x (y mod 16)) as [O2 E2]; [lia|lia|lia|Z.div_mod_to_equations; lia|].
  destruct (Hone y (z mod 16)) as [O3 E3]; [lia|lia|lia|Z.div_mod_to_equations; lia|].
  destruct (Hone z 0) as [O4 E4]; [lia|lia|lia|lia|]. rewrite Z.mul_0_r, Z.add_0_r in O4, E4.
  rewrite u32_quad by done. change 0x0F0F0F0F with (quad 15 15 15 15). rewrite <- (Z.shiftr_0_r (quad _ _ _ _)) at 1.
  rewrite mask_quad by (done || lia). rewrite !Z.shiftr_0_r, E1, E2, E3, E4. by rewrite <- A4, <- B4, <- C4, <- D4.
Qed.

Lemma words_S n a b c d p : words (S n) (a :: b :: c :: d :: p) = quad a b c d :: words n p.
Proof.
  change (words (S n) (a :: b :: c :: d :: p)) with (a + 256 * (b + 256 * (c + 256 * (d + 256 * 0))) :: words n (drop 0 p)).
  rewrite drop_0. unfold quad. f_equal. lia.
Qed.

(** The sums of the four columns stay below 256 as long as there are at most seven words. *)
Lemma sum_words n : ∀ p w x y z k,
  (n + k ≤ 31)%nat → length p = (4 * n)%nat → bytes_ok p →
  0 ≤ w ≤ 8 * Z.of_nat k → 0 ≤ x ≤ 8 * Z.of_nat k → 0 ≤ y ≤ 8 * Z.of_nat k → 0 ≤ z ≤ 8 * Z.of_nat k →
  ∃ w' x' y' z',
    foldl (λ a v, u32 (a + aux_bytes (aux_nibbles (aux_pairs v)))) (quad w x y z) (words n p) = quad w' x' y' z' ∧
    (0 ≤ w' ≤ 8 * Z.of_nat (n + k) ∧ 0 ≤ x' ≤ 8 * Z.of_nat (n + k) ∧ 0 ≤ y' ≤ 8 * Z.of_nat (n + k) ∧ 0 ≤ z' ≤ 8 * Z.of_nat (n + k)) ∧
    w' + x' + y' + z' = w + x + y + z + ones (bits_of p).
Proof.
  induction n as [|n IH]; intros p w x y z k Hk Hl Hp Hw Hx Hy Hz.
  { destruct p; [|simpl in Hl; lia]. exists w, x, y, z. change (ones (bits_of [])) with 0. repeat split; try done; lia. }
  destruct p as [|a [|b [|c [|d p]]]]; try (simpl in Hl; lia).
  apply Forall_cons in Hp as [Ha Hp]. apply Forall_cons in Hp as [Hb Hp]. apply Forall_cons in Hp as [Hc Hp]. apply Forall_cons in Hp as [Hd Hp].
  rewrite words_S. cbn [foldl]. rewrite word_count by done.
  pose proof (popb_range a Ha). pose proof (popb_range b Hb). pose proof (popb_range c Hc). pose proof (popb_range d Hd).
  replace (quad w x y z + _) with (quad (w + popb a) (x + popb b) (y + popb c) (z + popb d)) by (unfold quad; lia).
  rewrite u32_quad by (unfold byte_ok, in_u; pow2; lia).
  destruct (IH p (w + popb a) (x + popb b) (y + popb c) (z + popb d) (S k)) as (w' & x' & y' & z' & E & R & S'); try done; [lia|simpl in Hl; lia|lia..|].
  exists w', x', y', z'. rewrite E. replace (S n + k)%nat with (n + S k)%nat by lia. split; [done|]. split; [done|]. rewrite S'.
  change (bits_of (a :: b :: c :: d :: p)) with (byte_bits a ++ byte_bits b ++ byte_bits c ++ byte_bits d ++ bits_of p).
  rewrite !ones_app. unfold popb. lia.
Qed.

Lemma count_words_ok p : length p = 28%nat → bytes_ok p → count_words (words 7 p) = ones (bits_of p).
Proof.
  intros Hl Hp. unfold count_words. change 0 with (quad 0 0 0 0) at 1.
  destruct (sum_words 7 p 0 0 0 0 0) as (w & x & y & z & -> & R & S'); try done; try lia.
  replace (ones (bits_of p)) with (w + x + y + z) by lia. rewrite Z.shiftr_div_pow2 by lia. unfold u32, wrapu, quad. pow2.
  replace ((w + 256 * (x + 256 * (y + 256 * z))) * 16843009)
    with (w + 256 * (w + x) + 65536 * (w + x + y) + 16777216 * (w + x + y + z) + (x + y + z + 256 * (y + z) + 65536 * z) * 4294967296) by lia.
  rewrite Z_mod_plus_full. rewrite Z.mod_small by lia. Z.div_mod_to_equations. lia.
Qed.

(** Words are read from the front: what follows them does not matter. *)
Lemma words_app n : ∀ p q, length p = (4 * n)%nat → words n (p ++ q) = words n p.
Proof.
  induction n as [|n IH]; intros p q Hl; [done|]. destruct p as [|a [|b [|c [|d p]]]]; try (simpl in Hl; lia).
  rewrite <- !app_comm_cons, !words_S. f_equal. apply IH. simpl in Hl. lia.
Qed.

Lemma count28_ok fuel : ∀ p n, (length p < fuel)%nat → bytes_ok p → count28 fuel p n = Some (n + ones (bits_of p)).
Proof.
  induction fuel as [|fuel IH]; intros p n Hf Hp; [lia|]. cbn [count28]. destruct (Nat.leb_spec 28 (length p)).
  - rewrite IH; [|rewrite length_drop; lia|by apply Forall_drop]. rewrite <- (take_drop 28 p) at 1 3.
    assert (length (take 28 p) = 28%nat) as Hl by (rewrite length_take; lia).
    rewrite words_app, count_words_ok, bits_app, ones_app by (done || by apply Forall_take). f_equal. lia.
  - rewrite count_bytes_ok, some_bind by done. done.
Qed.

Lemma popcount_bits addr p : bytes_ok p → redisPopcount addr p = Some (ones (bits_of p)).
Proof.
  intros Hp. unfold redisPopcount. rewrite count_bytes_ok, some_bind by (by apply Forall_take).
  rewrite count28_ok by (by apply Forall_drop || (rewrite length_drop; lia)). by rewrite <- ones_app, <- bits_app, take_drop.
Qed.


(** ** The value of a list of bits *)
Definition val (l : list bool) : Z := foldl (λ a b, 2 * a + Z.b2z b) 0 l.

Lemma val_snoc l b : val (l ++ [b]) = 2 * val l + Z.b2z b.
Proof. unfold val. by rewrite foldl_app. Qed.

Lemma val_app a b : val (a ++ b) = val a * 2 ^ zlen b + val b.
Proof.
  induction b as [|x b IH] using rev_ind; [change (val []) with 0; rewrite app_nil_r; cbn; lia|].
  rewrite app_assoc, !val_snoc, IH, length_app, Nat2Z.inj_add, Z.pow_add_r by lia. change (2 ^ zlen [x]) with 2. lia.
Qed.

Lemma val_range l : 0 ≤ val l < 2 ^ zlen l.
Proof.
  induction l as [|x l IH] using rev_ind; [done|]. rewrite val_snoc, length_app, Nat2Z.inj_add, Z.pow_add_r by lia.
  change (2 ^ zlen [x]) with 2. destruct x; cbn [Z.b2z]; lia.
Qed.

Lemma val_cons x l : val (x :: l) = Z.b2z x * 2 ^ zlen l + val l.
Proof. change (x :: l) with ([x] ++ l). rewrite val_app. by destruct x. Qed.

(** The bit in front of [l] in a word that ends with [l]. *)
Lemma val_testbit pre x l : Z.testbit (val (pre ++ x :: l)) (zlen l) = x.
Proof.
  rewrite val_app, val_cons. rewrite Z.testbit_odd, Z.shiftr_div_pow2 by lia. pose proof (val_range l).
  change (zlen (x :: l)) with (Z.of_nat (S (length l))). rewrite Nat2Z.inj_succ, Z.pow_succ_r by lia.
  replace (val pre * (2 * 2 ^ zlen l) + (Z.b2z x * 2 ^ zlen l + val l)) with (val l + (2 * val pre + Z.b2z x) * 2 ^ zlen l) by lia.
  rewrite Z.div_add, Z.div_small by lia. rewrite Z.add_0_l, Z.add_comm, Z.odd_add_mul_2. by destruct x.
Qed.

Lemma val_byte b : byte_ok b → val (byte_bits b) = b.
Proof. intros Hb. apply (byte_all (λ b, val (byte_bits b) =? b)) in Hb; [lia|by vm_compute]. Qed.

Lemma land_pow2 a n : 0 ≤ n → (Z.land (2 ^ n) a =? 0) = negb (Z.testbit a n).
Proof.
  intros Hn. destruct (Z.testbit a n) eqn:E; simpl.
  - apply Z.eqb_neq. intros H0. apply (f_equal (λ z, Z.testbit z n)) in H0. by rewrite Z.land_spec, Z.pow2_bits_true, E, Z.testbit_0_l in H0.
  - apply Z.eqb_eq, Z.bits_inj'. intros m Hm. rewrite Z.land_spec, Z.testbit_0_l, Z.pow2_bits_eqb by done.
    destruct (Z.eqb_spec n m) as [->|]; [by rewrite E|done].
Qed.

(** ** The first bit with a value *)
Fixpoint find_bit (x : bool) (l : list bool) : nat :=
  match l with [] => O | y :: l => if Bool.eqb y x then O else S (find_bit x l) end.

Lemma find_bit_le x l : (find_bit x l ≤ length l)%nat.
Proof. induction l as [|y l IH]; [done|]. simpl. destruct (Bool.eqb y x); lia. Qed.

Lemma find_bit_app x a b : find_bit x (a ++ b) = if (find_bit x a <? length a)%nat then find_bit x a else (length a + find_bit x b)%nat.
Proof.
  induction a as [|y a IH]; [done|]. simpl. destruct (Bool.eqb y x); [done|]. rewrite IH.
  change (S (find_bit x a) <? S (length a))%nat with (find_bit x a <? length a)%nat. by destruct (find_bit x a <? length a)%nat.
Qed.

Definition skip_byte (bit : bool) : Z := if bit then 0 else 255.

Lemma find_bit_skip bit k l : find_bit bit (bits_of (replicate k (skip_byte bit)) ++ l) = (8 * k + find_bit bit l)%nat.
Proof.
  induction k as [|k IH]; [done|]. change (replicate (S k) ?x) with (x :: replicate k x).
  change (bits_of (?x :: ?l)) with (byte_bits x ++ bits_of l). rewrite <- app_assoc, find_bit_app, IH. destruct bit; cbn; lia.
Qed.

Lemma scan_word_ok bit l : ∀ pre pos,
  scan_word (length l) (Z.shiftr (2 ^ zlen l) 1) (val (pre ++ l)) bit pos =
  if (find_bit bit l <? length l)%nat then Some (pos + Z.of_nat (find_bit bit l)) else None.
Proof.
  induction l as [|x l IH]; intros pre pos; [done|]. cbn [length scan_word]. rewrite Nat2Z.inj_succ, Z.pow_succ_r by lia.
  replace (Z.shiftr (2 * 2 ^ zlen l) 1) with (2 ^ zlen l) by (rewrite Z.shiftr_div_pow2 by lia; change (2 ^ 1) with 2; Z.div_mod_to_equations; lia).
  rewrite land_pow2, negb_involutive, val_testbit by lia. cbn [find_bit]. destruct (Bool.eqb x bit); [cbn; f_equal; lia|].
  replace (pre ++ x :: l) with ((pre ++ [x]) ++ l) by (by rewrite <- app_assoc). rewrite IH.
  change (S (find_bit bit l) <? S (length l))%nat with (find_bit bit l <? length l)%nat.
  destruct (find_bit bit l <? length l)%nat; [f_equal; lia|done].
Qed.

(** The first [n] bytes, zeros behind the end. *)
Fixpoint pad (n : nat) (p : list Z) : list Z :=
  match n with O => [] | S n => match p with [] => 0 :: pad n [] | c :: p => c :: pad n p end end.

Lemma pad_length n : ∀ p, length (pad n p) = n.
Proof. induction n as [|n IH]; intros [|c p]; simpl; by rewrite ?IH. Qed.

Lemma pad_long n : ∀ p, (n ≤ length p)%nat → pad n p = take n p.
Proof. induction n as [|n IH]; intros [|c p] H; simpl in *; [done|done|lia|]. by rewrite IH by lia. Qed.

Lemma pad_short n : ∀ p, (length p ≤ n)%nat → pad n p = p ++ replicate (n - length p) 0.
Proof.
  induction n as [|n IH]; intros [|c p] H; simpl in *; [done|lia| |by rewrite IH by lia].
  rewrite IH by (simpl; lia). simpl. by rewrite Nat.sub_0_r.
Qed.

Lemma load_word_ok n : ∀ pre p,
  (length pre + 8 * n ≤ 64)%nat → bytes_ok p → load_word n (val pre) p = val (pre ++ bits_of (pad n p)).
Proof.
  assert (∀ pre c, (length pre ≤ 56)%nat → byte_ok c → Z.lor (u64 (Z.shiftl (val pre) 8)) c = val (pre ++ byte_bits c)) as Hone.
  { intros pre c Hl Hc. pose proof (val_range pre). pose proof (Z.pow_le_mono_r 2 (zlen pre) 56).
    unfold u64. rewrite wrapu_id by (unfold in_u; rewrite Z.shiftl_mul_pow2 by lia; pow2; lia).
    rewrite Z.lor_comm, lor_shift by (lia || apply Hc). rewrite val_app, (val_byte c Hc). change (zlen (byte_bits c)) with 8. lia. }
  induction n as [|n IH]; intros pre p Hl Hp; [by rewrite app_nil_r|]. cbn [load_word pad]. destruct p as [|c p].
  - rewrite <- (Z.lor_0_r (u64 _)), Hone, IH by (done || (rewrite ?length_app; change (length (byte_bits 0)) with 8%nat; lia)).
    change (bits_of (0 :: ?l)) with (byte_bits 0 ++ bits_of l). by rewrite app_assoc.
  - apply Forall_cons in Hp as [Hc Hp].
    rewrite Hone, IH by (done || (rewrite ?length_app; change (length (byte_bits c)) with 8%nat; lia)).
    change (bits_of (c :: ?l)) with (byte_bits c ++ bits_of l). by rewrite app_assoc.
Qed.

Lemma skip_bytes_ok n bit : ∀ p, let k := skip_bytes n (skip_byte bit) p in (k ≤ length p)%nat ∧ take k p = replicate k (skip_byte bit).
Proof.
  induction n as [|n IH]; intros [|c p]; [split; [simpl; lia|done]..|]. cbn [skip_bytes].
  destruct (Z.eqb_spec c (skip_byte bit)) as [->|]; [|split; [simpl; lia|done]]. destruct (IH p) as [H E]. split; [simpl; lia|].
  simpl. by rewrite E.
Qed.

Definition skip_long (bit : bool) : Z := if bit then 0 else 2 ^ 64 - 1.

Lemma long_skip bit q : bytes_ok q → length q = 8%nat → le_val q = skip_long bit → q = replicate 8 (skip_byte bit).
Proof. intros Hq Hl E. rewrite <- (le_bytes_val q Hq), Hl, E. by destruct bit; vm_compute. Qed.

Lemma skip_long_val bit : le_val (replicate 8 (skip_byte bit)) = skip_long bit.
Proof. by destruct bit. Qed.

Lemma skip_words_ok fuel bit : ∀ p, (length p < fuel)%nat → bytes_ok p →
  ∃ n, skip_words fuel (skip_long bit) p = Some n ∧ (n ≤ length p)%nat ∧ take n p = replicate n (skip_byte bit) ∧
    ((length (drop n p) < 8)%nat ∨ take 8 (drop n p) ≠ replicate 8 (skip_byte bit)).
Proof.
  induction fuel as [|fuel IH]; intros p Hf Hp; [lia|]. cbn [skip_words].
  destruct (Nat.leb_spec 8 (length p)) as [H8|H8]; [|exists O; repeat split; [lia|rewrite drop_0; by left]].
  destruct (Z.eqb_spec (le_val (take 8 p)) (skip_long bit)) as [E|E].
  - destruct (IH (drop 8 p)) as (n & -> & Hn & Et & Hd); [rewrite length_drop; lia|by apply Forall_drop|].
    exists (8 + n)%nat. rewrite length_drop in Hn. split; [done|]. split; [lia|]. rewrite drop_drop in Hd. split; [|done].
    rewrite replicate_add, <- Et, <- (long_skip bit (take 8 p)) by (done || by apply Forall_take || (rewrite length_take; lia)).
    by rewrite <- (take_take_drop p 8 n).
  - exists O. repeat split; [lia|]. rewrite drop_0. right. intros E'. apply E. rewrite E'. by apply skip_long_val.
Qed.

(** What the comment of [redisBitpos] promises: the first position with the bit; without one, -1 for ones and the length for zeros. *)
Definition bitpos_spec (p : list Z) (bit : bool) : Z :=
  let n := find_bit bit (bits_of p) in
  if bit && (n =? length (bits_of p))%nat then -1 else Z.of_nat n.

Lemma val_zero l : (val l =? 0) = (find_bit true l =? length l)%nat.
Proof.
  induction l as [|x l IH]; [done|]. rewrite val_cons. pose proof (val_range l). destruct x; simpl.
  - apply Z.eqb_neq. lia.
  - rewrite <- IH. f_equal.
Qed.

Lemma byte_missing bit b : byte_ok b → find_bit bit (byte_bits b) = 8%nat → b = skip_byte bit.
Proof.
  intros Hb. apply (byte_all (λ b, bool_decide (find_bit bit (byte_bits b) = 8%nat → b = skip_byte bit))) in Hb;
    [by apply bool_decide_eq_true in Hb|by destruct bit; vm_compute].
Qed.

Lemma missing bit p : bytes_ok p → find_bit bit (bits_of p) = length (bits_of p) → p = replicate (length p) (skip_byte bit).
Proof.
  induction 1 as [|b p Hb _ IH]; [done|]. change (bits_of (b :: p)) with (byte_bits b ++ bits_of p).
  rewrite find_bit_app, length_app. change (length (byte_bits b)) with 8%nat. intros E.
  pose proof (find_bit_le bit (byte_bits b)) as H8. change (length (byte_bits b)) with 8%nat in H8. pose proof (find_bit_le bit (bits_of p)).
  destruct (Nat.ltb_spec (find_bit bit (byte_bits b)) 8).
  - assert (length (bits_of p) = 0 ∨ length (bits_of p) ≠ 0)%nat as [] by lia; lia.
  - simpl. rewrite <- IH by lia. by rewrite <- (byte_missing bit b Hb) by lia.
Qed.

(** The word that is scanned has the bit, or there are only zeros left when a one is looked for. *)
Lemma last_word q bit :
  bytes_ok q → (length q < 8)%nat ∨ take 8 q ≠ replicate 8 (skip_byte bit) →
  let l := bits_of (pad 8 q) in
  if (find_bit bit l <? 64)%nat then find_bit bit l = find_bit bit (bits_of q) ∧ (bit = true → find_bit bit l < length (bits_of q))%nat
  else bit = true ∧ find_bit bit (bits_of q) = length (bits_of q).
Proof.
  intros Hq Hc. cbv zeta. pose proof (find_bit_le bit (bits_of q)) as Hle. destruct (decide (length q < 8)%nat) as [Hs|Hs].
  - rewrite pad_short, bits_app, find_bit_app by lia. rewrite bits_length in *.
    destruct (Nat.ltb_spec (find_bit bit (bits_of q)) (8 * length q)); [rewrite (proj2 (Nat.ltb_lt _ 64)) by lia; split; [done|lia]|].
    destruct bit.
    + pose proof (find_bit_skip true (8 - length q) []) as E. rewrite app_nil_r in E. cbn [skip_byte find_bit] in E. rewrite E.
      rewrite (proj2 (Nat.ltb_ge _ 64)) by lia. split; [done|lia].
    + destruct (8 - length q)%nat eqn:E; [lia|]. change (find_bit false (bits_of (replicate (S n) 0))) with O.
      rewrite (proj2 (Nat.ltb_lt _ 64)) by lia. split; [lia|done].
  - rewrite pad_long by lia. assert (length (bits_of (take 8 q)) = 64%nat) as H64 by (rewrite bits_length, length_take; lia).
    assert (find_bit bit (bits_of (take 8 q)) < 64)%nat as Hlt.
    { pose proof (find_bit_le bit (bits_of (take 8 q))). destruct (decide (find_bit bit (bits_of (take 8 q)) = 64%nat)) as [E|]; [|lia].
      destruct Hc as [|Hc]; [done|]. exfalso. apply Hc. rewrite (missing bit (take 8 q)) by (by apply Forall_take || congruence).
      by rewrite length_take, Nat.min_l by lia. }
    rewrite (proj2 (Nat.ltb_lt _ 64) Hlt). rewrite <- (take_drop 8 q) at 2 4.
    rewrite bits_app, find_bit_app, H64, (proj2 (Nat.ltb_lt _ 64) Hlt). split; [done|]. rewrite length_app. lia.
Qed.

Lemma bitpos_bits addr p bit : bytes_ok p → redisBitpos addr p bit = Some (bitpos_spec p bit).
Proof.
  intros Hp. unfold redisBitpos. fold (skip_byte bit). fold (skip_long bit). set (k := skip_bytes _ _ p).
  assert ((k ≤ length p)%nat ∧ take k p = replicate k (skip_byte bit)) as [Hk Ek] by apply skip_bytes_ok.
  destruct (skip_words_ok (S (length (drop k p))) bit (drop k p)) as (n & -> & Hn & En & Hd); [lia|by apply Forall_drop|].
  rewrite some_bind. set (q := drop n (drop k p)) in *. assert (bytes_ok q) as Hq by (by do 2 apply Forall_drop).
  assert (p = replicate (k + n) (skip_byte bit) ++ q) as Ep.
  { rewrite replicate_add, <- Ek, <- En, <- app_assoc. unfold q. by rewrite !take_drop. }
  rewrite (load_word_ok 8 [] q : _ → _ → load_word 8 0 q = _) by (done || simpl; lia). cbn [app]. set (l := bits_of (pad 8 q)).
  assert (length l = 64%nat) as Hl by (unfold l; by rewrite bits_length, pad_length).
  assert (bitpos_spec p bit = if bit && (find_bit bit (bits_of q) =? length (bits_of q))%nat then -1
                              else 8 * Z.of_nat (k + n) + Z.of_nat (find_bit bit (bits_of q))) as ->.
  { unfold bitpos_spec. rewrite Ep, bits_app, find_bit_skip, length_app, !bits_length, length_replicate.
    destruct bit; cbn [andb]; [|lia]. destruct (Nat.eqb_spec (find_bit true (bits_of q)) (8 * length q)) as [->|H].
    - by rewrite Nat.eqb_refl.
    - rewrite (proj2 (Nat.eqb_neq _ _)) by lia. lia. }
  pose proof (last_word q bit Hq Hd) as HL. cbv zeta in HL. fold l in HL. pose proof (scan_word_ok bit l [] (8 * Z.of_nat (k + n))) as HS.
  rewrite Hl in HS. change (Z.shiftr (2 ^ Z.of_nat 64) 1) with (Z.land (Z.lnot (Z.shiftr (2 ^ 64 - 1) 1)) (2 ^ 64 - 1)) in HS. cbn [app] in HS.
  rewrite val_zero, Hl. destruct (Nat.ltb_spec (find_bit bit l) 64) as [E64|E64].
  - destruct HL as [HL HT]. rewrite <- HL, HS. destruct bit; [|done]. specialize (HT eq_refl). cbn [andb].
    rewrite !(proj2 (Nat.eqb_neq _ _)) by lia. done.
  - destruct HL as [-> ->]. pose proof (find_bit_le true l). cbn [andb]. rewrite Nat.eqb_refl, (proj2 (Nat.eqb_eq _ _)) by lia. done.
Qed.

(** C9: counting with the table for the unaligned bytes, seven words at a time in the middle and the table again at the end
    gives the number of bits that are set, for every string at every address. *)
Theorem redisPopcount_correct addr p : bytes_ok p → redisPopcount addr p = Some (ones (bits_of p)).
Proof. apply popcount_bits. Qed.

Lemma redisPopcount_witness : redisPopcount 6 (repeat 181 40) = Some (ones (bits_of (repeat 181 40))).
Proof. apply redisPopcount_correct. by repeat constructor. Defined.

(** C32: scanning byte by byte up to an aligned address, then word by word and at last bit by bit finds the first bit with the
    given value, at every address; the panic behind the scan is unreachable. *)
Theorem redisBitpos_correct addr p bit : bytes_ok p → redisBitpos addr p bit = Some (bitpos_spec p bit).
Proof. apply bitpos_bits. Qed.

Lemma redisBitpos_witness :
  redisBitpos 3 (repeat 255 21 ++ [253; 7]) false = Some 174 ∧ redisBitpos 3 (repeat 0 21) true = Some (-1) ∧
  redisBitpos 3 (repeat 255 21) false = Some 168.
Proof. split; [|split]; (rewrite redisBitpos_correct; [done|by repeat constructor]). Defined.

(** ** One bit of a string *)
Lemma bits_split p i b : p !! i = Some b → bits_of p = bits_of (take i p) ++ byte_bits b ++ bits_of (drop (S i) p).
Proof.
  intros H. rewrite <- (take_drop_middle p i b H) at 1. rewrite bits_app.
  by change (bits_of (b :: ?l)) with (byte_bits b ++ bits_of l).
Qed.

Lemma byte_bit b j : (j < 8)%nat → byte_bits b !! j = Some (Z.testbit b (7 - Z.of_nat j)).
Proof. intros. do 8 (destruct j as [|j]; [done|]). lia. Qed.

Lemma bits_lookup p i b j : p !! i = Some b → (j < 8)%nat → bits_of p !! (8 * i + j)%nat = Some (Z.testbit b (7 - Z.of_nat j)).
Proof.
  intros H Hj. pose proof (lookup_lt_Some _ _ _ H). rewrite (bits_split p i b H).
  assert (length (bits_of (take i p)) = (8 * i)%nat) as Hl by (rewrite bits_length, length_take; lia).
  rewrite lookup_app_r by lia. rewrite Hl, lookup_app_l by (change (length (byte_bits b)) with 8%nat; lia).
  replace (8 * i + j - 8 * i)%nat with j by lia. by apply byte_bit.
Qed.

Lemma bits_insert p i b b' j x :
  p !! i = Some b → (j < 8)%nat → byte_bits b' = <[j:=x]> (byte_bits b) → bits_of (<[i:=b']> p) = <[(8 * i + j)%nat:=x]> (bits_of p).
Proof.
  intros H Hj E. pose proof (lookup_lt_Some _ _ _ H). rewrite (bits_split p i b H).
  assert (length (bits_of (take i p)) = (8 * i)%nat) as Hl by (rewrite bits_length, length_take; lia).
  rewrite <- Hl, insert_app_r, insert_app_l by (change (length (byte_bits b)) with 8%nat; lia). rewrite <- E.
  rewrite (insert_take_drop p i b') by done. rewrite bits_app. by change (bits_of (b' :: ?l)) with (byte_bits b' ++ bits_of l).
Qed.

(** The byte the loop of [setUnsignedBitfield] writes. *)
Definition put_bit (b : Z) (x : bool) (bit : Z) : Z :=
  Z.land (Z.lor (Z.land b (Z.lnot (Z.shiftl 1 bit))) (Z.shiftl (if x then 1 else 0) bit)) 255.

Lemma put_bit_ok b x j : byte_ok b → (j < 8)%nat →
  byte_ok (put_bit b x (7 - Z.of_nat j)) ∧ byte_bits (put_bit b x (7 - Z.of_nat j)) = <[j:=x]> (byte_bits b).
Proof.
  intros Hb Hj. apply (byte_all (λ b, forallb (λ j, bool_decide (byte_ok (put_bit b x (7 - Z.of_nat j)) ∧
    byte_bits (put_bit b x (7 - Z.of_nat j)) = <[j:=x]> (byte_bits b))) (seq 0 8))) in Hb; [|by destruct x; vm_compute].
  rewrite forallb_forall in Hb. specialize (Hb j). rewrite bool_decide_eq_true in Hb. apply Hb, in_seq. lia.
Qed.

Lemma offset_split o : 0 ≤ o → Z.shiftr o 3 = Z.of_nat (Z.to_nat o / 8) ∧ Z.land o 7 = Z.of_nat (Z.to_nat o mod 8).
Proof.
  intros Ho. change 7 with (Z.ones 3). rewrite Z.shiftr_div_pow2, Z.land_ones by lia. change (2 ^ 3) with (Z.of_nat 8).
  rewrite Nat2Z.inj_div, Nat2Z.inj_mod, Z2Nat.id by lia. done.
Qed.

(** ** Integers as bits *)
Fixpoint wbits (n : nat) (v : Z) : list bool :=
  match n with O => [] | S j => Z.testbit v (Z.of_nat j) :: wbits j v end.

Lemma wbits_length n v : length (wbits n v) = n.
Proof. induction n; simpl; congruence. Qed.

Lemma val_wbits n v : val (wbits n v) = v mod 2 ^ Z.of_nat n.
Proof.
  induction n as [|n IH]; [by rewrite Z.mod_1_r|]. cbn [wbits]. rewrite val_cons, wbits_length, IH, Nat2Z.inj_succ.
  rewrite Z.pow_succ_r, (Z.mul_comm 2), Z.rem_mul_r by lia. rewrite Z.testbit_spec' by lia. lia.
Qed.

Lemma mwrite_insert p i v : (i < length p)%nat → mwrite p (Z.of_nat i) [v] = Some (<[i:=v]> p).
Proof.
  intros H. unfold mwrite. rewrite decide_True by (change (zlen [v]) with 1; lia). rewrite Nat2Z.id, (insert_take_drop p i v H).
  change (length [v]) with 1%nat. by rewrite Nat.add_1_r.
Qed.

Lemma get_nat p i : get p (Z.of_nat i) = p !! i.
Proof. unfold get. rewrite decide_True by lia. by rewrite Nat2Z.id. Qed.

Definition fits (p : list Z) (o : nat) (n : nat) : Prop := (o + n ≤ 8 * length p)%nat ∧ 8 * zlen p < 2 ^ 64.

Lemma get_bits_ok p n : ∀ o pre, fits p o n → (length pre + n ≤ 64)%nat →
  get_bits p (Z.of_nat o) n (val pre) = Some (val (pre ++ take n (drop o (bits_of p)))).
Proof.
  induction n as [|n IH]; intros o pre [Ho Hp] Hl; [by rewrite app_nil_r|]. cbn [get_bits].
  destruct (offset_split (Z.of_nat o)) as [-> ->]; [lia|]. rewrite Nat2Z.id, get_nat.
  pose proof (Nat.div_mod_eq o 8). pose proof (Nat.mod_upper_bound o 8).
  destruct (lookup_lt_is_Some_2 p (o / 8)) as [b Hb]; [lia|]. rewrite Hb, some_bind.
  pose proof (bits_lookup p (o / 8) b (o mod 8) Hb) as Hx. rewrite <- Nat.div_mod_eq in Hx. specialize (Hx ltac:(lia)).
  set (x := Z.testbit b (7 - Z.of_nat (o mod 8))) in *. rewrite (drop_S _ x o Hx). cbn [take firstn].
  assert (Z.land (Z.shiftr b (7 - Z.of_nat (o mod 8))) 1 = Z.b2z x) as ->.
  { change 1 with (Z.ones 1). rewrite Z.land_ones by lia. unfold x. rewrite Z.testbit_spec' by lia. by rewrite Z.shiftr_div_pow2 by lia. }
  pose proof (val_range pre). pose proof (Z.pow_le_mono_r 2 (zlen pre) 63).
  unfold u64 at 2. rewrite wrapu_id by (unfold in_u; rewrite Z.shiftl_mul_pow2 by lia; pow2; lia).
  rewrite Z.lor_comm, lor_shift by (lia || destruct x; simpl; lia). change (2 ^ 1) with 2.
  replace (Z.b2z x + val pre * 2) with (val (pre ++ [x])) by (rewrite val_snoc; lia).
  replace (u64 (Z.of_nat o + 1)) with (Z.of_nat (S o)) by (unfold u64; rewrite wrapu_id; [lia|unfold in_u; lia]).
  rewrite IH by (first [split; simpl; lia|rewrite length_app; simpl; lia]). by rewrite <- app_assoc.
Qed.

Lemma setUnsignedBitfield_ok n v : ∀ p o, fits p o n → bytes_ok p →
  ∃ p', setUnsignedBitfield p (Z.of_nat o) n v = Some p' ∧ bytes_ok p' ∧ length p' = length p ∧
    bits_of p' = take o (bits_of p) ++ wbits n v ++ drop (o + n) (bits_of p).
Proof.
  induction n as [|n IH]; intros p o [Ho Hp] Hby.
  { exists p. rewrite Nat.add_0_r. simpl. by rewrite take_drop. }
  cbn [setUnsignedBitfield wbits]. destruct (offset_split (Z.of_nat o)) as [-> ->]; [lia|]. rewrite Nat2Z.id, get_nat.
  pose proof (Nat.div_mod_eq o 8). pose proof (Nat.mod_upper_bound o 8).
  destruct (lookup_lt_is_Some_2 p (o / 8)) as [b Hb]; [lia|]. rewrite Hb, some_bind.
  rewrite (Z.shiftl_1_l (Z.of_nat n)), (Z.land_comm v), land_pow2 by lia. set (x := Z.testbit v (Z.of_nat n)).
  replace (if negb x then 0 else 1) with (if x then 1 else 0) by (by destruct x). fold (put_bit b x (7 - Z.of_nat (o mod 8))).
  assert (byte_ok b) as Hbb by (by eapply Forall_lookup_1 in Hb). destruct (put_bit_ok b x (o mod 8) Hbb) as [Hbo Ebo]; [lia|].
  rewrite mwrite_insert, some_bind by (by eapply lookup_lt_Some). set (p1 := <[_:=_]> p).
  assert (bits_of p1 = <[o:=x]> (bits_of p)) as E1.
  { unfold p1. rewrite (bits_insert p (o / 8) b _ (o mod 8) x Hb ltac:(lia) Ebo). by rewrite <- Nat.div_mod_eq. }
  replace (u64 (Z.of_nat o + 1)) with (Z.of_nat (S o)) by (unfold u64; rewrite wrapu_id; [lia|unfold in_u; lia]).
  assert (length p1 = length p) as L1 by apply length_insert.
  destruct (IH p1 (S o)) as (p' & E' & Hb' & L' & B'); [by split; rewrite L1; lia|by apply Forall_insert|].
  exists p'. rewrite E'. split; [done|]. split; [done|]. split; [congruence|]. rewrite B', E1. pose proof (bits_length p).
  rewrite (take_S_r _ o x) by (rewrite list_lookup_insert_eq; [done|lia]).
  rewrite take_insert_ge, drop_insert_lt by lia. rewrite <- app_assoc. simpl. by rewrite Nat.add_succ_r.
Qed.

(** Two strings of one length with the same bits before and behind a field read the same there. *)
Lemma slice_other (l w : list bool) (o o' n' : nat) :
  (o + length w ≤ length l)%nat → (o' + n' ≤ o ∨ o + length w ≤ o')%nat →
  take n' (drop o' (take o l ++ w ++ drop (o + length w) l)) = take n' (drop o' l).
Proof.
  intros H [H'|H'].
  - rewrite drop_app_le by (rewrite length_take; lia). rewrite take_app_le by (rewrite length_drop, length_take; lia).
    rewrite skipn_firstn_comm, take_take, Nat.min_l by lia. done.
  - rewrite app_assoc, drop_app_ge by (rewrite length_app, length_take; lia).
    rewrite length_app, length_take, Nat.min_l, drop_drop by lia. do 2 f_equal. lia.
Qed.

Lemma slice_same (l w : list bool) (o : nat) (r : list bool) :
  (o ≤ length l)%nat → take (length w) (drop o (take o l ++ w ++ r)) = w.
Proof. intros H. rewrite drop_app_length', take_app_length by (rewrite length_take; lia). done. Qed.

(** C33: storing an unsigned integer of up to 64 bits at any bit position writes exactly the bits of the field: reading the field
    gives the value modulo its width, every field that does not overlap reads as before, and no byte outside the string is touched. *)
Theorem bitfield_roundtrip p o n v :
  fits p o n → (n ≤ 64)%nat → bytes_ok p →
  ∃ p', setUnsignedBitfield p (Z.of_nat o) n v = Some p' ∧ bytes_ok p' ∧ length p' = length p ∧
    getUnsignedBitfield p' (Z.of_nat o) n = Some (v mod 2 ^ Z.of_nat n) ∧
    (∀ o' n', fits p o' n' → (n' ≤ 64)%nat → (o' + n' ≤ o ∨ o + n ≤ o')%nat →
       getUnsignedBitfield p' (Z.of_nat o') n' = getUnsignedBitfield p (Z.of_nat o') n').
Proof.
  intros Hf Hn Hp. destruct (setUnsignedBitfield_ok n v p o Hf Hp) as (p' & E & Hb & Hl & B). exists p'.
  split; [done|]. split; [done|]. split; [done|]. unfold getUnsignedBitfield. change 0 with (val []). pose proof (bits_length p).
  split; [|intros o' n' Hf' Hn' Hd].
  - rewrite get_bits_ok by (unfold fits in *; rewrite ?Hl; done || simpl; lia). cbn [app]. rewrite B, <- val_wbits.
    rewrite <- (wbits_length n v) at 1. rewrite slice_same by (unfold fits in Hf; lia). done.
  - rewrite !get_bits_ok by (unfold fits in *; rewrite ?Hl; done || simpl; lia). cbn [app]. rewrite B. do 2 f_equal.
    rewrite <- (wbits_length n v) at 2. apply slice_other; rewrite wbits_length; unfold fits in Hf; lia.
Qed.

Lemma bitfield_roundtrip_witness :
  ∃ p', setUnsignedBitfield [0; 0] 7 5 23 = Some p' ∧ getUnsignedBitfield p' 7 5 = Some 23 ∧ p' = [1; 112].
Proof.
  destruct (bitfield_roundtrip [0; 0] 7 5 23) as (p' & E & _ & _ & G & _); [by split; simpl; lia|lia|by repeat constructor|].
  exists p'. split; [exact E|]. split; [exact G|]. vm_compute in E. by injection E.
Defined.

(** ** Signed fields *)
Lemma high_mask_ok n : (n < 64)%nat → high_mask n = Some (2 ^ 64 - 2 ^ Z.of_nat n).
Proof.
  intros Hn. unfold high_mask. rewrite (proj2 (Nat.ltb_lt n 64)) by done. f_equal. rewrite Z.shiftl_mul_pow2 by lia.
  pose proof (Z.pow_le_mono_r 2 (Z.of_nat n) 63 ltac:(lia) ltac:(lia)). pose proof (Z.pow_pos_nonneg 2 (Z.of_nat n) ltac:(lia) ltac:(lia)).
  unfold u64, wrapu. replace ((2 ^ 64 - 1) * 2 ^ Z.of_nat n) with (2 ^ 64 - 2 ^ Z.of_nat n + (2 ^ Z.of_nat n - 1) * 2 ^ 64) by lia.
  rewrite Z_mod_plus_full, Z.mod_small; [done|]. pow2. lia.
Qed.

Lemma testbit_top u n : (0 < n)%nat → 0 ≤ u < 2 ^ Z.of_nat n → Z.testbit u (Z.of_nat n - 1) = (2 ^ (Z.of_nat n - 1) <=? u).
Proof.
  intros Hn Hu. rewrite Z.testbit_odd, Z.shiftr_div_pow2 by lia. replace (Z.of_nat n) with (Z.succ (Z.of_nat n - 1)) in Hu by lia.
  rewrite Z.pow_succ_r in Hu by lia. destruct (Z.leb_spec (2 ^ (Z.of_nat n - 1)) u).
  - replace (u / _) with 1; [done|]. apply (Z.div_unique u _ 1 (u - 2 ^ (Z.of_nat n - 1))); lia.
  - by rewrite Z.div_small by lia.
Qed.

(** Putting the mask on top of a value of [n] bits adds it. *)
Lemma lor_high u n : (n < 64)%nat → 0 ≤ u < 2 ^ Z.of_nat n → Z.lor u (2 ^ 64 - 2 ^ Z.of_nat n) = u + (2 ^ 64 - 2 ^ Z.of_nat n).
Proof.
  intros Hn Hu. replace (2 ^ 64 - 2 ^ Z.of_nat n) with (Z.shiftl (2 ^ (64 - Z.of_nat n) - 1) (Z.of_nat n)).
  - rewrite lor_shift by lia. rewrite Z.shiftl_mul_pow2 by lia. lia.
  - rewrite Z.shiftl_mul_pow2, Z.mul_sub_distr_r, <- Z.pow_add_r by lia. do 2 f_equal; lia.
Qed.

Lemma wraps_small n u : (0 < n)%nat → 0 ≤ u < 2 ^ Z.of_nat n →
  wraps (Z.of_nat n) u = if 2 ^ (Z.of_nat n - 1) <=? u then u - 2 ^ Z.of_nat n else u.
Proof.
  intros Hn Hu. unfold wraps. assert (2 ^ Z.of_nat n = 2 * 2 ^ (Z.of_nat n - 1)) as E.
  { rewrite <- Z.pow_succ_r by lia. f_equal. lia. }
  destruct (Z.leb_spec (2 ^ (Z.of_nat n - 1)) u).
  - replace (u + 2 ^ (Z.of_nat n - 1)) with (u - 2 ^ (Z.of_nat n - 1) + 1 * 2 ^ Z.of_nat n) by lia.
    rewrite Z_mod_plus_full, Z.mod_small by lia. lia.
  - rewrite Z.mod_small by lia. lia.
Qed.

Lemma pow2_half n : (0 < n)%nat → 2 ^ Z.of_nat n = 2 * 2 ^ (Z.of_nat n - 1).
Proof. intros Hn. rewrite <- Z.pow_succ_r by lia. f_equal. lia. Qed.

(** Sign extension, as [getSignedBitfield] and the wrapping branch do it. *)
Lemma sign_extend n u : (0 < n < 64)%nat → 0 ≤ u < 2 ^ Z.of_nat n →
  s64 (if Z.testbit u (Z.of_nat n - 1) then Z.lor u (2 ^ 64 - 2 ^ Z.of_nat n) else u) = wraps (Z.of_nat n) u.
Proof.
  intros Hn Hu. rewrite testbit_top, wraps_small by lia. pose proof (pow2_half n ltac:(lia)).
  pose proof (Z.pow_le_mono_r 2 (Z.of_nat n) 63 ltac:(lia) ltac:(lia)). unfold s64.
  destruct (Z.leb_spec (2 ^ (Z.of_nat n - 1)) u).
  - rewrite lor_high by lia. rewrite (wraps_small 64) by (change (Z.of_nat 64) with 64; lia).
    change (Z.of_nat 64) with 64. rewrite (proj2 (Z.leb_le _ _)) by (pow2; lia). lia.
  - apply wraps_id; [done|]. unfold in_s. pow2. lia.
Qed.

Lemma getSigned_ok p o n u : (0 < n ≤ 64)%nat → getUnsignedBitfield p o n = Some u → 0 ≤ u < 2 ^ Z.of_nat n →
  getSignedBitfield p o n = if (n =? 64)%nat && (2 ^ 63 <=? u) then None else Some (wraps (Z.of_nat n) u).
Proof.
  intros Hn E Hu. unfold getSignedBitfield. rewrite E, some_bind. rewrite Z.shiftl_1_l, Z.land_comm, land_pow2, negb_involutive by lia.
  destruct (decide (n = 64%nat)) as [->|Hne].
  - rewrite testbit_top by lia. change (Z.of_nat 64 - 1) with 63. cbn [Nat.eqb andb].
    destruct (Z.leb_spec (2 ^ 63) u); [done|]. done.
  - rewrite (proj2 (Nat.eqb_neq n 64)) by done. cbn [andb]. rewrite <- sign_extend by lia. rewrite high_mask_ok by lia.
    by destruct (Z.testbit u (Z.of_nat n - 1)).
Qed.

(** A signed integer stored in a field of its width reads back as itself, with one exception: for the width 64, which the
    command accepts, reading a negative number shifts by the width of the type, which is undefined. *)
Theorem signed_bitfield_roundtrip p o n v :
  fits p o n → (0 < n ≤ 64)%nat → bytes_ok p → in_s (Z.of_nat n) v →
  ∃ p', setSignedBitfield p (Z.of_nat o) n v = Some p' ∧ length p' = length p ∧
    getSignedBitfield p' (Z.of_nat o) n = if (n =? 64)%nat && (v <? 0) then None else Some v.
Proof.
  intros Hf Hn Hp Hv. destruct (setUnsignedBitfield_ok n (u64 v) p o Hf Hp) as (p' & E & Hb & Hl & B). exists p'.
  split; [done|]. split; [done|].
  assert (getUnsignedBitfield p' (Z.of_nat o) n = Some (wrapu (Z.of_nat n) v)) as G.
  { unfold getUnsignedBitfield. change 0 with (val []). rewrite get_bits_ok by (unfold fits in *; rewrite ?Hl; done || simpl; lia).
    cbn [app]. rewrite B. pose proof (bits_length p). rewrite <- (wbits_length n (u64 v)) at 1.
    rewrite slice_same by (unfold fits in Hf; lia). rewrite val_wbits. f_equal. unfold u64, wrapu.
    apply Z.mod_mod_divide. exists (2 ^ (64 - Z.of_nat n)). rewrite <- Z.pow_add_r by lia. f_equal. lia. }
  assert (in_u (Z.of_nat n) (wrapu (Z.of_nat n) v)) as Hu by (apply wrapu_range; lia).
  rewrite (getSigned_ok p' _ n _ Hn G Hu), wraps_wrapu, wraps_id by (done || lia). destruct (Nat.eqb_spec n 64) as [->|]; [|done].
  cbn [andb]. unfold in_s in Hv. change (Z.of_nat 64) with 64 in *. change (64 - 1) with 63 in Hv.
  destruct (Z.ltb_spec v 0); [replace (wrapu 64 v) with (v + 2 ^ 64)|rewrite wrapu_id by (unfold in_u; pow2; lia)].
  - rewrite (proj2 (Z.leb_le _ _)) by (pow2; lia). done.
  - unfold wrapu. apply (Z.mod_unique v _ (-1)); [pow2; lia|lia].
  - rewrite (proj2 (Z.leb_gt _ _)) by lia. done.
Qed.

Lemma signed_bitfield_witness :
  ∃ p', setSignedBitfield (repeat 0 9) 3 17 (-300) = Some p' ∧ getSignedBitfield p' 3 17 = Some (-300).
Proof.
  destruct (signed_bitfield_roundtrip (repeat 0 9) 3 17 (-300)) as (p' & E & _ & G);
    [by split; simpl; lia|lia|by repeat constructor|done|]. exists p'. split; [exact E|exact G].
Defined.

(** ** Overflow *)

(** What the comment above the two checks promises of the sum [r] in the range from [lo] to [hi]. *)
Definition overflow_spec (lo hi r wrapped : Z) (ow : owtype) : Z * option Z :=
  if hi <? r then match ow with BFOVERFLOW_WRAP => (1, Some wrapped) | BFOVERFLOW_SAT => (1, Some hi) | BFOVERFLOW_FAIL => (1, None) end
  else if r <? lo then match ow with BFOVERFLOW_WRAP => (1, Some wrapped) | BFOVERFLOW_SAT => (-1, Some lo) | BFOVERFLOW_FAIL => (-1, None) end
  else (0, None).

Lemma land_low r n : (n < 64)%nat → Z.land (u64 r) (Z.lxor (2 ^ 64 - 2 ^ Z.of_nat n) (2 ^ 64 - 1)) = wrapu (Z.of_nat n) r.
Proof.
  intros Hn. pose proof (Z.pow_le_mono_r 2 (Z.of_nat n) 63 ltac:(lia) ltac:(lia)).
  pose proof (Z.pow_pos_nonneg 2 (Z.of_nat n) ltac:(lia) ltac:(lia)).
  assert (Z.lxor (2 ^ 64 - 2 ^ Z.of_nat n) (2 ^ 64 - 1) = Z.ones (Z.of_nat n)) as ->.
  { replace (2 ^ 64 - 1) with (Z.lor (Z.ones (Z.of_nat n)) (2 ^ 64 - 2 ^ Z.of_nat n))
      by (rewrite lor_high by (rewrite ?Z.ones_equiv; lia); rewrite Z.ones_equiv; lia).
    assert (Z.land (Z.ones (Z.of_nat n)) (2 ^ 64 - 2 ^ Z.of_nat n) = 0) as E0.
    { rewrite Z.land_comm, Z.land_ones by lia. replace (2 ^ 64 - 2 ^ Z.of_nat n) with ((2 ^ (64 - Z.of_nat n) - 1) * 2 ^ Z.of_nat n).
      - apply Z.mod_mul. lia.
      - rewrite Z.mul_sub_distr_r, <- Z.pow_add_r by lia. do 2 f_equal; lia. }
    rewrite <- Z.lxor_lor by done. rewrite (Z.lxor_comm (Z.ones _)), <- Z.lxor_assoc, Z.lxor_nilpotent. apply Z.lxor_0_l. }
  rewrite Z.land_ones by lia. unfold u64, wrapu. apply Z.mod_mod_divide.
  exists (2 ^ (64 - Z.of_nat n)). rewrite <- Z.pow_add_r by lia. f_equal. lia.
Qed.

(** For every width the command accepts, the unsigned check tells exactly whether the sum is in range, and stores the
    bound or the sum modulo the width. *)
Theorem unsigned_overflow_correct value incr n ow :
  (0 < n < 64)%nat → in_u 64 value → in_s 64 incr → incr = 0 ∨ value ≤ 2 ^ Z.of_nat n - 1 →
  checkUnsignedBitfieldOverflow value incr n ow =
  Some (overflow_spec 0 (2 ^ Z.of_nat n - 1) (value + incr) ((value + incr) mod 2 ^ Z.of_nat n) ow).
Proof.
  intros Hn Hv Hi Hc. unfold checkUnsignedBitfieldOverflow, overflow_spec. rewrite (proj2 (Nat.eqb_neq n 64)) by lia.
  rewrite high_mask_ok, some_bind, land_low by lia. fold (wrapu (Z.of_nat n) (value + incr)).
  pose proof (Z.pow_le_mono_r 2 (Z.of_nat n) 63 ltac:(lia) ltac:(lia)). pose proof (Z.pow_pos_nonneg 2 (Z.of_nat n) ltac:(lia) ltac:(lia)).
  unfold in_u, in_s in Hv, Hi. change (64 - 1) with 63 in Hi. rewrite Z.gtb_ltb, !(Z.gtb_ltb incr).
  destruct (Z.ltb_spec (2 ^ Z.of_nat n - 1) value).
  { destruct Hc as [->|]; [|lia]. rewrite Z.add_0_r, (proj2 (Z.ltb_lt (2 ^ Z.of_nat n - 1) value)) by lia. by destruct ow. }
  unfold s64. rewrite !wraps_id by (done || unfold in_s; pow2; lia). cbn [orb].
  destruct (Z.ltb_spec 0 incr), (Z.ltb_spec (2 ^ Z.of_nat n - 1 - value) incr), (Z.ltb_spec (2 ^ Z.of_nat n - 1) (value + incr)),
    (Z.ltb_spec incr 0), (Z.ltb_spec incr (- value)), (Z.ltb_spec (value + incr) 0); try lia; cbn [andb]; by destruct ow.
Qed.

Lemma unsigned_overflow_witness :
  checkUnsignedBitfieldOverflow 250 10 8 BFOVERFLOW_WRAP = Some (1, Some 4) ∧
  checkUnsignedBitfieldOverflow 250 (-251) 8 BFOVERFLOW_SAT = Some (-1, Some 0).
Proof. split; (rewrite unsigned_overflow_correct; [done|lia|done|done|right; vm_compute; discriminate]). Defined.

(** What is above the field does not matter once the mask is on top of it. *)
Lemma lor_high_wrap r n : (n < 64)%nat → Z.lor (u64 r) (2 ^ 64 - 2 ^ Z.of_nat n) = Z.lor (wrapu (Z.of_nat n) r) (2 ^ 64 - 2 ^ Z.of_nat n).
Proof.
  intros Hn. replace (2 ^ 64 - 2 ^ Z.of_nat n) with (Z.shiftl (Z.ones (64 - Z.of_nat n)) (Z.of_nat n)).
  2:{ rewrite Z.shiftl_mul_pow2, Z.ones_equiv by lia. unfold Z.pred. rewrite Z.mul_add_distr_r, <- Z.pow_add_r by lia.
      replace (64 - Z.of_nat n + Z.of_nat n) with 64 by lia. lia. }
  apply Z.bits_inj'. intros i Hi. rewrite !Z.lor_spec, Z.shiftl_spec by done. unfold u64, wrapu.
  destruct (Z.ltb_spec i (Z.of_nat n)); [by rewrite !Z.mod_pow2_bits_low by lia|].
  destruct (Z.ltb_spec i 64); [by rewrite Z.ones_spec_low, !orb_true_r by lia|]. by rewrite !Z.mod_pow2_bits_high by lia.
Qed.

Lemma wrap_signed n r : (0 < n < 64)%nat →
  s64 (if negb (Z.land (u64 r) (Z.shiftl 1 (Z.of_nat n - 1)) =? 0) then Z.lor (u64 r) (2 ^ 64 - 2 ^ Z.of_nat n)
       else Z.land (u64 r) (Z.lxor (2 ^ 64 - 2 ^ Z.of_nat n) (2 ^ 64 - 1))) = wraps (Z.of_nat n) r.
Proof.
  intros Hn. rewrite Z.shiftl_1_l, (Z.land_comm (u64 r) (2 ^ (_ - _))), land_pow2, negb_involutive by lia.
  rewrite land_low, lor_high_wrap by lia. rewrite <- (wraps_wrapu _ r) by lia.
  rewrite <- sign_extend by (done || apply wrapu_range; lia). do 2 f_equal. unfold u64, wrapu. by rewrite !Z.mod_pow2_bits_low by lia.
Qed.

(** The two guards of the signed check, [w64] for the width 64. *)
Section guards.
  Context (w64 : bool) (hi value incr : Z).
  Context (Hhi : if w64 then hi = 2 ^ 63 - 1 else 0 ≤ hi < 2 ^ 62).
  Context (Hv : - 2 ^ 63 ≤ value < 2 ^ 63) (Hi : - 2 ^ 63 ≤ incr < 2 ^ 63).
  Context (Hc : (incr = 0 ∧ hi - value < 2 ^ 63) ∨ - hi - 1 ≤ value ≤ hi).

Lemma over_guard :
  (hi <? value) || (negb w64 && (s64 (hi - value) <? incr)) || ((0 <=? value) && (0 <? incr) && (s64 (hi - value) <? incr))
  = (hi <? value + incr).
Proof.
  change (2 ^ 62) with 4611686018427387904 in *. change (2 ^ 63) with 9223372036854775808 in *. destruct w64; cbn [negb andb].
  - destruct (Z.ltb_spec hi value); [lia|]. destruct (Z.leb_spec 0 value); cbn [orb andb].
    + unfold s64. rewrite wraps_id by (done || unfold in_s; pow2; lia).
      destruct (Z.ltb_spec 0 incr), (Z.ltb_spec (hi - value) incr), (Z.ltb_spec hi (value + incr)); done || lia.
    + symmetry. apply Z.ltb_ge. lia.
  - destruct (Z.ltb_spec hi value); cbn [orb]; [symmetry; apply Z.ltb_lt; lia|].
    unfold s64. rewrite wraps_id by (done || unfold in_s; pow2; lia).
    destruct (Z.leb_spec 0 value), (Z.ltb_spec 0 incr), (Z.ltb_spec (hi - value) incr), (Z.ltb_spec hi (value + incr)); done || lia.
Qed.

Lemma under_guard : value ≤ hi →
  (value <? - hi - 1) || (negb w64 && (incr <? s64 (- hi - 1 - value))) || ((value <? 0) && (incr <? 0) && (incr <? s64 (- hi - 1 - value)))
  = (value + incr <? - hi - 1).
Proof.
  intros Hle. change (2 ^ 62) with 4611686018427387904 in *. change (2 ^ 63) with 9223372036854775808 in *. destruct w64; cbn [negb andb].
  - destruct (Z.ltb_spec value (- hi - 1)); [lia|]. destruct (Z.ltb_spec value 0); cbn [orb andb].
    + unfold s64. rewrite wraps_id by (done || unfold in_s; pow2; lia).
      destruct (Z.ltb_spec incr 0), (Z.ltb_spec incr (- hi - 1 - value)), (Z.ltb_spec (value + incr) (- hi - 1)); done || lia.
    + symmetry. apply Z.ltb_ge. lia.
  - destruct (Z.ltb_spec value (- hi - 1)); cbn [orb]; [symmetry; apply Z.ltb_lt; lia|].
    unfold s64. rewrite wraps_id by (done || unfold in_s; pow2; lia).
    destruct (Z.ltb_spec value 0), (Z.ltb_spec incr 0), (Z.ltb_spec incr (- hi - 1 - value)), (Z.ltb_spec (value + incr) (- hi - 1)); done || lia.
Qed.
End guards.

(** The signed check tells exactly whether the sum is in range and stores the bound or the sum in two's complement, for
    values in range and for the plain values of SET as long as their distance to the maximum is below two to the 63; wrapping a
    field of 64 bits is undefined. *)
Theorem signed_overflow_correct value incr n ow :
  let hi := 2 ^ (Z.of_nat n - 1) - 1 in let lo := - hi - 1 in
  (0 < n ≤ 64)%nat → in_s 64 value → in_s 64 incr → (incr = 0 ∧ hi - value < 2 ^ 63) ∨ lo ≤ value ≤ hi →
  checkSignedBitfieldOverflow value incr n ow =
  if (n =? 64)%nat && negb (bool_decide (lo ≤ value + incr ≤ hi)) && (match ow with BFOVERFLOW_WRAP => true | _ => false end) then None
  else Some (overflow_spec lo hi (value + incr) (wraps (Z.of_nat n) (value + incr)) ow).
Proof.
  intros hi lo Hn Hv Hi Hc. unfold checkSignedBitfieldOverflow, overflow_spec.
  pose proof (pow2_half n ltac:(lia)). pose proof (Z.pow_le_mono_r 2 (Z.of_nat n - 1) 63 ltac:(lia) ltac:(lia)).
  pose proof (Z.pow_pos_nonneg 2 (Z.of_nat n - 1) ltac:(lia) ltac:(lia)).
  replace (if (n =? 64)%nat then 2 ^ 63 - 1 else 2 ^ (Z.of_nat n - 1) - 1) with hi
    by (destruct (Nat.eqb_spec n 64) as [->|]; done).
  unfold in_s in Hv, Hi. change (64 - 1) with 63 in Hv, Hi.
  rewrite !Z.gtb_ltb, !Z.geb_leb.
  assert (if (n =? 64)%nat then hi = 2 ^ 63 - 1 else 0 ≤ hi < 2 ^ 62) as Hhi.
  { unfold hi. destruct (Nat.eqb_spec n 64) as [->|]; [done|]. pose proof (Z.pow_le_mono_r 2 (Z.of_nat n - 1) 62). lia. }
  rewrite (over_guard (n =? 64)%nat hi value incr Hhi Hv Hi Hc).
  assert (hi < value + incr ∨ value ≤ hi) as Hle by lia.
  assert ((n =? 64)%nat = false → Z.of_nat n ≠ 64 ∧ (n < 64)%nat) as Hn64 by (intros E; apply Nat.eqb_neq in E; lia).
  destruct (Z.ltb_spec hi (value + incr)).
  - rewrite bool_decide_eq_false_2 by lia. destruct ow, (n =? 64)%nat eqn:E64; try done.
    + apply Nat.eqb_eq in E64 as ->. done.
    + destruct (Hn64 eq_refl). cbn [negb andb]. rewrite high_mask_ok, some_bind by lia. by rewrite wrap_signed by lia.
  - unfold lo. rewrite (under_guard (n =? 64)%nat hi value incr Hhi Hv Hi Hc) by lia.
    destruct (Z.ltb_spec (value + incr) (- hi - 1)).
    + rewrite bool_decide_eq_false_2 by lia. destruct ow, (n =? 64)%nat eqn:E64; try done.
      * apply Nat.eqb_eq in E64 as ->. done.
      * destruct (Hn64 eq_refl). cbn [negb andb]. rewrite high_mask_ok, some_bind by lia. by rewrite wrap_signed by lia.
    + rewrite bool_decide_eq_true_2 by lia. by rewrite andb_false_r.
Qed.

Lemma signed_overflow_witness :
  checkSignedBitfieldOverflow 120 10 8 BFOVERFLOW_WRAP = Some (1, Some (-126)) ∧
  checkSignedBitfieldOverflow (-120) (-10) 8 BFOVERFLOW_SAT = Some (-1, Some (-128)).
Proof. split; (rewrite signed_overflow_correct; [done|lia|done|done|right; split; vm_compute; discriminate]). Defined.

(** The distance to the maximum overflows for the plain values of SET that are far below the range: saturating the least
    64-bit number to eight bits reports an overflow and stores the maximum, 127, not the minimum the comment promises. *)
Theorem saturates_wrong_way : checkSignedBitfieldOverflow (- 2 ^ 63) 0 8 BFOVERFLOW_SAT = Some (1, Some 127).
Proof. by vm_compute. Qed.
