(* ===== verification/BitCmd.v ===== *)
(** * Commands on bits ([redis-3.2/src/bitops.c])

    SETBIT, GETBIT, BITOP, BITCOUNT, BITPOS and BITFIELD, as programs over the
    functions of [Keyspace] that call the routines of [Bitmap].  The word-wise
    fast path of BITOP is modelled as it reads and writes memory, and shown to
    compute the same string as the loop on bytes. *)

From S2P Require Import Prelude Decimal Util StringObj Notify Keyspace KeyCmd StrCmd Bitmap.

(** ** Arguments *)
Definition bit_offset_error : string := "bit offset is not an integer or out of range".

(** The multiplication wraps around. *)
Definition getBitOffsetFromArgument (o : list Z) (hash : bool) (bits : Z) : prog (option Z) :=
  let usehash := bool_decide (o !! 0%nat = Some 35) && hash && (bits >? 0) in
  match string2ll (if usehash then List.tl o else o) with
  | None => Reply (RError bit_offset_error);; Ret None
  | Some loffset =>
      let loffset := if usehash then s64 (loffset * bits) else loffset in
      if (loffset <? 0) || (Z.shiftr (u64 loffset) 3 >=? 512 * 1024 * 1024)
      then Reply (RError bit_offset_error);; Ret None
      else Ret (Some loffset)
  end.

Definition bitfield_type_error : string :=
  "Invalid bitfield type. Use something like i16 u8. Note that u64 is not supported but i64 is.".

(** [true] is signed. *)
Definition getBitfieldTypeFromArgument (o : list Z) : prog (option (bool * Z)) :=
  let sign := match o with c :: _ => if c =? 105 then Some true else if c =? 117 then Some false else None | [] => None end in
  match sign with
  | None => Reply (RError bitfield_type_error);; Ret None
  | Some sign =>
      match string2ll (cstr (List.tl o)) with
      | Some llbits =>
          if (llbits <? 1) || (sign && (llbits >? 64)) || (negb sign && (llbits >? 63))
          then Reply (RError bitfield_type_error);; Ret None
          else Ret (Some (sign, llbits))
      | None => Reply (RError bitfield_type_error);; Ret None
      end
  end.

(** The bytes of the string that may be changed now, long enough for [maxbit]. *)
Definition lookupStringForBitCommand (k : dbkey) (maxbit : Z) : prog (option (list Z)) :=
  let byte := Z.shiftr maxbit 3 in
  o ← LookupWrite k;
  match o with
  | None =>
      s ← lift (new_zero (byte + 1));
      DbAdd k (VStr (StrRaw s));; Ret (Some s)
  | Some v =>
      o ← checkString v;
      match o with
      | None => Ret None
      | Some o =>
          s ← dbUnshareStringValue k o;
          s ← lift (grow_zero s (byte + 1));
          DbOverwrite k (VStr (StrRaw s));; Ret (Some s)
      end
  end.

(** The object is not [NULL] where this is called. *)
Definition getObjectReadOnlyString (o : robj) : option (list Z) :=
  match o with StrRaw s => Some s | StrInt v => print_number 21 v end.

(** ** SETBIT and GETBIT *)
Definition setbitCommand (id : Z) (key offset bit : list Z) : prog unit :=
  let k := (id, key) in
  let err := "bit is not an integer or out of range"%string in
  bitoffset ← getBitOffsetFromArgument offset false 0;
  match bitoffset with
  | None => Ret ()
  | Some bitoffset =>
      on ← getLongFromObjectOrReply (Some (StrRaw bit)) (Some err);
      match on with
      | None => Ret ()
      | Some on =>
          if negb (Z.land on (Z.lnot 1) =? 0) then Reply (RError err) else
          s ← lookupStringForBitCommand k bitoffset;
          match s with
          | None => Ret ()
          | Some s =>
              let byte := Z.shiftr bitoffset 3 in
              byteval ← lift (get s byte);
              let bit := 7 - Z.land bitoffset 7 in
              let bitval := Z.land byteval (Z.shiftl 1 bit) in
              let byteval := Z.land byteval (Z.lnot (Z.shiftl 1 bit)) in
              let byteval := Z.lor byteval (Z.shiftl (Z.land on 1) bit) in
              s ← lift (mwrite s byte [u8 byteval]);
              DbOverwrite k (VStr (StrRaw s));;
              SignalModified k;;
              NotifyEvent NOTIFY_STRING "setbit" k;;
              Dirty 1;;
              Reply (RInt (if bitval =? 0 then 0 else 1))
          end
      end
  end.

Definition getbitCommand (id : Z) (key offset : list Z) : prog unit :=
  bitoffset ← getBitOffsetFromArgument offset false 0;
  match bitoffset with
  | None => Ret ()
  | Some bitoffset =>
      o ← lookupKeyReadOrReply (id, key) (RInt 0);
      match o with
      | None => Ret ()
      | Some v =>
          o ← checkString v;
          match o with
          | None => Ret ()
          | Some o =>
              let byte := Z.shiftr bitoffset 3 in
              let bit := 7 - Z.land bitoffset 7 in
              s ← lift (getDecodedObject o);
              bitval ← (if byte <? zlen s then b ← lift (get s byte); Ret (Z.land b (Z.shiftl 1 bit)) else Ret 0 : prog Z);
              Reply (RInt (if bitval =? 0 then 0 else 1))
          end
      end
  end.

(** ** BITOP *)
Inductive bitop := BITOP_AND | BITOP_OR | BITOP_XOR | BITOP_NOT.
#[export] Instance bitop_eq_dec : EqDecision bitop.
Proof. solve_decision. Defined.

Definition binary (op : bitop) (a b : Z) : Z :=
  match op with BITOP_AND => Z.land a b | BITOP_OR => Z.lor a b | BITOP_XOR => Z.lxor a b | BITOP_NOT => a end.

Definition bitop_name (opname : list Z) : option bitop :=
  if is_option opname "and" then Some BITOP_AND
  else if is_option opname "or" then Some BITOP_OR
  else if is_option opname "xor" then Some BITOP_XOR
  else if is_option opname "not" then Some BITOP_NOT
  else None.

(** [lres[w] op= lp[i][w]], both at [off]. *)
Definition fast_word (op : bitop) (src : list Z) (res : list Z) (off : Z) : option (list Z) :=
  a ← mread res off 8; b ← mread src off 8; mwrite res off (le_bytes 8 (binary op (le_val a) (le_val b))).

(** [lres[w] = ~lres[w]]. *)
Definition fast_not (res : list Z) (off : Z) : option (list Z) :=
  a ← mread res off 8; mwrite res off (le_bytes 8 (u64 (Z.lnot (le_val a)))).

(** Four words. *)
Definition four (f : list Z → Z → option (list Z)) (res : list Z) (off : Z) : option (list Z) :=
  res ← f res off; res ← f res (off + 8); res ← f res (off + 16); f res (off + 24).

Fixpoint fast_sources (op : bitop) (srcs : list (list Z)) (off : Z) (res : list Z) : option (list Z) :=
  match srcs with
  | [] => Some res
  | src :: srcs => res ← four (fast_word op src) res off; fast_sources op srcs off res
  end.

(** The result and [j]; [srcs] without the first, which is in [res] already. *)
Fixpoint fast_loop (fuel : nat) (op : bitop) (srcs : list (list Z)) (res : list Z) (j minlen : Z) : option (list Z * Z) :=
  match fuel with
  | O => None
  | S fuel =>
      if minlen >=? 32 then
        res ← match op with BITOP_NOT => four fast_not res j | _ => fast_sources op srcs j res end;
        fast_loop fuel op srcs res (j + 32) (minlen - 32)
      else Some (res, j)
  end.

(** The byte at [j]: bytes behind the end of a string count as 0. *)
Definition slow_byte (op : bitop) (srcs : list (list Z)) (j : Z) : option Z :=
  match srcs with
  | [] => None
  | src0 :: srcs =>
      out ← (if zlen src0 <=? j then Some 0 else get src0 j);
      let out := match op with BITOP_NOT => u8 (Z.lnot out) | _ => out end in
      foldl (λ out src, out ← out; b ← (if zlen src <=? j then Some 0 else get src j); Some (binary op out b)) (Some out) srcs
  end.

Fixpoint slow_loop (n : nat) (op : bitop) (srcs : list (list Z)) (res : list Z) (j : Z) : option (list Z) :=
  match n with
  | O => Some res
  | S n => b ← slow_byte op srcs j; res ← mwrite res j [b]; slow_loop n op srcs res (j + 1)
  end.

(** [minlen] is the least length of the sources, [maxlen] the greatest. *)
Definition bitop_compute (op : bitop) (srcs : list (list Z)) (minlen maxlen : Z) : option (list Z) :=
  let res := replicate (Z.to_nat maxlen) 0 in
  '(res, j) ←
    (if (minlen >=? 32) && (zlen srcs <=? 16) then
       src0 ← srcs !! 0%nat;
       bs ← mread src0 0 minlen; res ← mwrite res 0 bs;
       fast_loop (S (Z.to_nat minlen)) op (List.tl srcs) res 0 minlen
     else Some (res, 0));
  slow_loop (Z.to_nat (maxlen - j)) op srcs res j.

(** The sources and the two lengths; [None]: the client was told of a wrong type. *)
Fixpoint bitop_sources (id : Z) (keys : list (list Z)) (first : bool) (minlen maxlen : Z) (acc : list (list Z)) :
    prog (option (list (list Z) * Z * Z)) :=
  match keys with
  | [] => Ret (Some (acc, minlen, maxlen))
  | key :: keys =>
      o ← LookupRead (id, key);
      match o with
      | None => bitop_sources id keys false 0 maxlen (acc ++ [[]])
      | Some v =>
          o ← checkString v;
          match o with
          | None => Ret None
          | Some o =>
              s ← lift (getDecodedObject o);
              bitop_sources id keys false (if first || (zlen s <? minlen) then zlen s else minlen)
                (if zlen s >? maxlen then zlen s else maxlen) (acc ++ [s])
          end
      end
  end.

Definition bitopCommand (id : Z) (opname targetkey : list Z) (keys : list (list Z)) : prog unit :=
  let k := (id, targetkey) in
  match bitop_name opname with
  | None => Reply RSyntax
  | Some op =>
      if bool_decide (op = BITOP_NOT) && negb (length keys =? 1)%nat
      then Reply (RError "BITOP NOT must be called with a single source key.") else
      r ← bitop_sources id keys true 0 0 [];
      match r with
      | None => Ret ()
      | Some (srcs, minlen, maxlen) =>
          (if negb (maxlen =? 0) then
             res ← lift (bitop_compute op srcs minlen maxlen);
             setKey k (VStr (StrRaw res));;
             NotifyEvent NOTIFY_STRING "set" k
           else
             b ← DbDelete k;
             if (b : bool) then SignalModified k;; NotifyEvent NOTIFY_GENERIC "del" k else Ret ());;
          Dirty 1;;
          Reply (RInt maxlen)
      end
  end.

(** ** BITCOUNT and BITPOS

    [addr] is the address of the bytes of the string. *)

(** Negative indexes count from the end; the end is at most the last byte. *)
Definition clip (strlen start stop : Z) : Z * Z :=
  let start := if start <? 0 then s64 (strlen + start) else start in
  let stop := if stop <? 0 then s64 (strlen + stop) else stop in
  let start := if start <? 0 then 0 else start in
  let stop := if stop <? 0 then 0 else stop in
  (start, if stop >=? strlen then strlen - 1 else stop).

(** The range of the arguments: [Some None] for the whole string, the outer [None] if the client got an error. *)
Definition bitcount_range (args : list (list Z)) : prog (option (option (Z * Z))) :=
  match args with
  | [] => Ret (Some None)
  | [a; b] =>
      start ← getLongFromObjectOrReply (Some (StrRaw a)) None;
      match start with
      | None => Ret None
      | Some start =>
          stop ← getLongFromObjectOrReply (Some (StrRaw b)) None;
          Ret (match stop with None => None | Some stop => Some (Some (start, stop)) end)
      end
  | _ => Reply RSyntax;; Ret None
  end.

Definition bitcountCommand (addr : Z) (id : Z) (key : list Z) (args : list (list Z)) : prog unit :=
  o ← lookupKeyReadOrReply (id, key) (RInt 0);
  match o with
  | None => Ret ()
  | Some v =>
      o ← checkString v;
      match o with
      | None => Ret ()
      | Some o =>
          p ← lift (getObjectReadOnlyString o);
          r ← bitcount_range args;
          match r with
          | None => Ret ()
          | Some r =>
              let neg := match r with Some (a, b) => (a <? 0) && (b <? 0) && (a >? b) | None => false end in
              if neg then Reply (RInt 0) else
              let '(start, stop) := match r with Some (a, b) => clip (zlen p) a b | None => (0, zlen p - 1) end in
              if start >? stop then Reply (RInt 0) else
              bs ← lift (mread p start (stop - start + 1));
              n ← lift (redisPopcount (addr + start) bs);
              Reply (RInt n)
          end
      end
  end.

(** The range of BITPOS: the start, and the end if it is given; the outer [None] if the client got an error. *)
Definition bitpos_range (args : list (list Z)) : prog (option (option (Z * option Z))) :=
  match args with
  | [] => Ret (Some None)
  | a :: rest =>
      if (2 <=? length rest)%nat then Reply RSyntax;; Ret None else
      start ← getLongFromObjectOrReply (Some (StrRaw a)) None;
      match start with
      | None => Ret None
      | Some start =>
          match rest with
          | [] => Ret (Some (Some (start, None)))
          | b :: _ =>
              stop ← getLongFromObjectOrReply (Some (StrRaw b)) None;
              Ret (match stop with None => None | Some stop => Some (Some (start, Some stop)) end)
          end
      end
  end.

(** The end of [bitposCommand], on the bytes [p] from [start] to [stop]. *)
Definition bitpos_reply (addr : Z) (p : list Z) (bit : bool) (start stop : Z) (end_given : bool) : option Z :=
  if start >? stop then Some (-1) else
  let bytes := stop - start + 1 in
  bs ← mread p start bytes;
  pos ← redisBitpos (addr + start) bs bit;
  if end_given && negb bit && (pos =? bytes * 8) then Some (-1)
  else Some (if pos =? -1 then pos else pos + start * 8).

Definition bitposCommand (addr : Z) (id : Z) (key bit : list Z) (args : list (list Z)) : prog unit :=
  b ← getLongFromObjectOrReply (Some (StrRaw bit)) None;
  match b with
  | None => Ret ()
  | Some b =>
      if negb (b =? 0) && negb (b =? 1) then Reply (RError "The bit argument must be 1 or 0.") else
      o ← LookupRead (id, key);
      match o with
      | None => Reply (RInt (if b =? 0 then 0 else -1))
      | Some v =>
          o ← checkString v;
          match o with
          | None => Ret ()
          | Some o =>
              p ← lift (getObjectReadOnlyString o);
              r ← bitpos_range args;
              match r with
              | None => Ret ()
              | Some r =>
                  let '(start, stop, given) :=
                    match r with
                    | None => (0, zlen p - 1, false)
                    | Some (a, e) => (clip (zlen p) a (default (zlen p - 1) e), bool_decide (is_Some e))
                    end in
                  n ← lift (bitpos_reply addr p (b =? 1) start stop given);
                  Reply (RInt n)
              end
          end
      end
  end.

(** ** BITFIELD *)
Inductive opcode := BITFIELDOP_GET | BITFIELDOP_SET | BITFIELDOP_INCRBY.
#[export] Instance opcode_eq_dec : EqDecision opcode.
Proof. solve_decision. Defined.

Record bitfieldOp := BitfieldOp {
  bf_offset : Z;
  bf_i64 : Z;
  bf_opcode : opcode;
  bf_owtype : owtype;
  bf_bits : Z;
  bf_sign : bool
}.

(** What the parser keeps: the type of overflow, whether everything only reads, and the greatest bit that is written. *)
Record bfparse := BfParse {
  bp_owtype : owtype;
  bp_readonly : bool;
  bp_highest : Z;
  bp_ops : list bitfieldOp
}.

Definition overflow_name (a : list Z) : option owtype :=
  if is_option a "wrap" then Some BFOVERFLOW_WRAP
  else if is_option a "sat" then Some BFOVERFLOW_SAT
  else if is_option a "fail" then Some BFOVERFLOW_FAIL
  else None.

(** One operation: its type, offset and, unless it is GET, its value. *)
Definition parse_op (opc : opcode) (type offset : list Z) (val : option (list Z)) (st : bfparse) : prog (option bfparse) :=
  t ← getBitfieldTypeFromArgument type;
  match t with
  | None => Ret None
  | Some (sign, bits) =>
      off ← getBitOffsetFromArgument offset true bits;
      match off with
      | None => Ret None
      | Some off =>
          match val with
          | None => Ret (Some (BfParse (bp_owtype st) (bp_readonly st) (bp_highest st)
                                 (bp_ops st ++ [BitfieldOp off 0 opc (bp_owtype st) bits sign])))
          | Some val =>
              i64 ← getLongLongFromObjectOrReply (Some (StrRaw val)) None;
              match i64 with
              | None => Ret None
              | Some i64 => Ret (Some (BfParse (bp_owtype st) false (Z.max (bp_highest st) (off + bits - 1))
                                         (bp_ops st ++ [BitfieldOp off i64 opc (bp_owtype st) bits sign])))
              end
          end
      end
  end.

(** OVERFLOW, and what is none of the subcommands. *)
Definition parse_overflow (sub a : list Z) (st : bfparse) : prog (option bfparse) :=
  if is_option sub "overflow" then
    match overflow_name a with
    | Some ow => Ret (Some (BfParse ow (bp_readonly st) (bp_highest st) (bp_ops st)))
    | None => Reply (RError "Invalid OVERFLOW type specified");; Ret None
    end
  else Reply RSyntax;; Ret None.

Definition and_then (p : prog (option bfparse)) (k : bfparse → prog (option bfparse)) : prog (option bfparse) :=
  r ← p; match r with None => Ret None | Some st => k st end.

Fixpoint parse_ops (args : list (list Z)) (st : bfparse) : prog (option bfparse) :=
  match args with
  | [] => Ret (Some st)
  | [_] => Reply RSyntax;; Ret None
  | sub :: a1 :: r1 =>
      match r1 with
      | [] => and_then (parse_overflow sub a1 st) (parse_ops r1)
      | a2 :: r2 =>
          if is_option sub "get" then and_then (parse_op BITFIELDOP_GET a1 a2 None st) (parse_ops r2)
          else match r2 with
               | [] => and_then (parse_overflow sub a1 st) (parse_ops r1)
               | a3 :: r3 =>
                   if is_option sub "set" then and_then (parse_op BITFIELDOP_SET a1 a2 (Some a3) st) (parse_ops r3)
                   else if is_option sub "incrby" then and_then (parse_op BITFIELDOP_INCRBY a1 a2 (Some a3) st) (parse_ops r3)
                   else and_then (parse_overflow sub a1 st) (parse_ops r1)
               end
      end
  end.

(** SET and INCRBY: the reply, [None] for no value, and the bytes. *)
Definition bf_write (o : bitfieldOp) (s : list Z) : option (option Z * list Z) :=
  let bits := Z.to_nat (bf_bits o) in
  let incr := bool_decide (bf_opcode o = BITFIELDOP_INCRBY) in
  if bf_sign o then
    oldval ← getSignedBitfield s (bf_offset o) bits;
    '(overflow, wrapped) ← (if incr then checkSignedBitfieldOverflow oldval (bf_i64 o) bits (bf_owtype o)
                            else checkSignedBitfieldOverflow (bf_i64 o) 0 bits (bf_owtype o));
    let newval := if incr then s64 (oldval + bf_i64 o) else bf_i64 o in
    match (if overflow =? 0 then Some newval else wrapped) with
    | Some newval => s ← setSignedBitfield s (bf_offset o) bits newval; Some (Some (if incr then newval else oldval), s)
    | None => Some (None, s)
    end
  else
    oldval ← getUnsignedBitfield s (bf_offset o) bits;
    '(overflow, wrapped) ← (if incr then checkUnsignedBitfieldOverflow oldval (bf_i64 o) bits (bf_owtype o)
                            else checkUnsignedBitfieldOverflow (u64 (bf_i64 o)) 0 bits (bf_owtype o));
    let newval := if incr then u64 (oldval + bf_i64 o) else u64 (bf_i64 o) in
    match (if overflow =? 0 then Some newval else wrapped) with
    | Some newval => s ← setUnsignedBitfield s (bf_offset o) bits newval; Some (Some (s64 (if incr then newval else oldval)), s)
    | None => Some (None, s)
    end.

(** The loop that fills the nine bytes of the buffer. *)
Definition copy9 (src : list Z) (byte : nat) : list Z := map (λ i, default 0 (src !! (i + byte)%nat)) (seq 0 9).

(** GET; [src] is [None] if there is no key. *)
Definition bf_read (o : bitfieldOp) (src : option (list Z)) : option Z :=
  let byte := Z.shiftr (bf_offset o) 3 in
  let buf := copy9 (default [] src) (Z.to_nat byte) in
  let bits := Z.to_nat (bf_bits o) in
  if bf_sign o then getSignedBitfield buf (bf_offset o - byte * 8) bits
  else v ← getUnsignedBitfield buf (bf_offset o - byte * 8) bits; Some (s64 v).

(** The operations in order; the number of changes. *)
Fixpoint bf_execute (k : dbkey) (ops : list bitfieldOp) (s : option (list Z)) (changes : Z) : prog Z :=
  match ops with
  | [] => Ret changes
  | o :: ops =>
      if bool_decide (bf_opcode o = BITFIELDOP_GET) then
        v ← lift (bf_read o s); Reply (RInt v);; bf_execute k ops s changes
      else
        s ← lift s;
        '(r, s) ← lift (bf_write o s);
        Reply (match r with Some v => RInt v | None => RNull end);;
        DbOverwrite k (VStr (StrRaw s));;
        bf_execute k ops (Some s) (changes + 1)
  end.

Definition bitfieldCommand (id : Z) (key : list Z) (args : list (list Z)) : prog unit :=
  let k := (id, key) in
  r ← parse_ops args (BfParse BFOVERFLOW_WRAP true 0 []);
  match r with
  | None => Ret ()
  | Some st =>
      (* [None]: the client got an error *)
      o ← (if bp_readonly st then
             o ← LookupRead k;
             match o with
             | None => Ret (Some None)
             | Some v => o ← checkString v;
                         match o with None => Ret None | Some o => s ← lift (getObjectReadOnlyString o); Ret (Some (Some s)) end
             end
           else s ← lookupStringForBitCommand k (bp_highest st); Ret (match s with None => None | Some s => Some (Some s) end)
           : prog (option (option (list Z))));
      match o with
      | None => Ret ()
      | Some s =>
          Reply (RMultiLen (zlen (bp_ops st)));;
          changes ← bf_execute k (bp_ops st) s 0;
          if changes =? 0 then Ret () else
          SignalModified k;;
          NotifyEvent NOTIFY_STRING "setbit" k;;
          Dirty changes
      end
  end.

(** ** The fast path of BITOP *)
Lemma binary_ok op x y : byte_ok x → byte_ok y → byte_ok (binary op x y).
Proof.
  intros Hx Hy. destruct op; [by apply land_byte_ok| |by apply lxor_range|done].
  apply (byte_all (λ x, forallb (λ y, bool_decide (byte_ok (Z.lor x y))) (map Z.of_nat (seq 0 256)))) in Hx; [|by vm_compute].
  by apply (byte_all _ Hx), bool_decide_eq_true in Hy.
Qed.

Lemma binary_cat op x y A B : byte_ok x → byte_ok y → binary op (x + 256 * A) (y + 256 * B) = binary op x y + 256 * binary op A B.
Proof.
  intros Hx Hy. destruct op; [| | |done]; apply Z.bits_inj'; intros n Hn.
  - rewrite testbit_cat by (done || by apply land_byte_ok). cbn [binary]. rewrite !Z.land_spec, !testbit_cat by done. by destruct (n <? 8).
  - rewrite testbit_cat by (done || by apply (binary_ok BITOP_OR)). cbn [binary]. rewrite !Z.lor_spec, !testbit_cat by done. by destruct (n <? 8).
  - rewrite testbit_cat by (done || by apply lxor_range). cbn [binary]. rewrite !Z.lxor_spec, !testbit_cat by done. by destruct (n <? 8).
Qed.

Lemma word_bytes op a b : length a = length b → bytes_ok a → bytes_ok b →
  le_bytes (length a) (binary op (le_val a) (le_val b)) = zip_with (binary op) a b.
Proof.
  intros Hl Ha Hb. assert (bytes_ok (zip_with (binary op) a b) ∧ le_val (zip_with (binary op) a b) = binary op (le_val a) (le_val b)) as [Hz E].
  { revert b Hl Hb. induction Ha as [|x a Hx _ IH]; intros [|y b] Hl Hb; try done; [by destruct op|].
    apply Forall_cons in Hb as [Hy Hb]. destruct (IH b) as [IH1 IH2]; [by injection Hl|done|].
    split; [constructor; [by apply binary_ok|done]|]. cbn [zip_with le_val]. by rewrite IH2, binary_cat. }
  rewrite <- E. rewrite <- (le_bytes_val _ Hz) at 2. by rewrite length_zip_with, Hl, Nat.min_id.
Qed.

Definition flip (x : Z) : Z := u8 (Z.lnot x).

Lemma flip_ok x : byte_ok (flip x).
Proof. by apply wrapu_range. Qed.

Lemma flip_bytes a : length a = 8%nat → bytes_ok a → le_bytes 8 (u64 (Z.lnot (le_val a))) = map flip a.
Proof.
  intros Hl Ha. assert (bytes_ok (map flip a)) as Hf by (apply Forall_map, Forall_true; intros x; apply flip_ok).
  rewrite <- (le_bytes_val _ Hf), length_map, Hl. f_equal.
  assert (∀ l, bytes_ok l → le_val (map flip l) = 2 ^ (8 * zlen l) - 1 - le_val l) as E.
  { induction 1 as [|x l Hx _ IH]; [done|]. cbn [map le_val]. rewrite IH. cbn [length]. rewrite pow256.
    assert (flip x = 255 - x) as ->; [|lia]. apply (byte_all (λ x, flip x =? 255 - x)) in Hx; [lia|by vm_compute]. }
  rewrite E, Hl by done. pose proof (le_val_range a Ha) as Hr. rewrite Hl in Hr. change (8 * Z.of_nat 8) with 64 in *. unfold in_u in Hr.
  unfold u64, wrapu, Z.lnot, Z.pred. symmetry. apply (Z.mod_unique _ _ (-1)); lia.
Qed.

(** [res'] is [res] with [h] applied to the bytes from [off] to [off + n]. *)
Record upd (off n : nat) (h : nat → Z → Z) (res res' : list Z) : Prop := {
  up_bytes : bytes_ok res';
  up_length : length res' = length res;
  up_at i : res' !! i = if decide (off ≤ i < off + n)%nat then h i <$> res !! i else res !! i
}.

Lemma upd_split off n m h r1 r2 r3 : upd off n h r1 r2 → upd (off + n) m h r2 r3 → upd off (n + m) h r1 r3.
Proof.
  intros [B1 L1 A1] [B2 L2 A2]. split; [done|congruence|]. intros i. rewrite A2, A1. repeat case_decide; done || lia.
Qed.

Lemma upd_compose off n h h' r1 r2 r3 : upd off n h r1 r2 → upd off n h' r2 r3 → upd off n (λ i x, h' i (h i x)) r1 r3.
Proof.
  intros [B1 L1 A1] [B2 L2 A2]. split; [done|congruence|]. intros i. rewrite A2, A1. case_decide; [by destruct (r1 !! i)|done].
Qed.

Lemma upd_ext off n h h' r r' : (∀ i x, h i x = h' i x) → upd off n h r r' → upd off n h' r r'.
Proof. intros E [B L A]. split; [done|done|]. intros i. rewrite A. case_decide; [|done]. destruct (r !! i); [cbn; by rewrite E|done]. Qed.

Lemma upd_write res off bs h :
  (off + 8 ≤ length res)%nat → bytes_ok res → bytes_ok bs → length bs = 8%nat →
  (∀ i, (i < 8)%nat → bs !! i = h (off + i)%nat <$> res !! (off + i)%nat) →
  ∃ res', mwrite res (Z.of_nat off) bs = Some res' ∧ upd off 8 h res res'.
Proof.
  intros Hl Hr Hb Hbl He. unfold mwrite. rewrite decide_True by lia. rewrite Nat2Z.id. eexists. split; [done|]. split.
  - apply Forall_app. split; [by apply Forall_take|]. apply Forall_app. split; [done|by apply Forall_drop].
  - rewrite !length_app, length_take, length_drop. lia.
  - assert (length (take off res) = off) as Ht by (rewrite length_take; lia).
    intros i. case_decide as Hi; [|destruct (decide (i < off)%nat)].
    + rewrite lookup_app_r by lia. rewrite Ht, lookup_app_l by lia. rewrite He by lia. by replace (off + (i - off))%nat with i by lia.
    + rewrite lookup_app_l by lia. by apply lookup_take_lt.
    + rewrite lookup_app_r by lia. rewrite Ht, lookup_app_r by lia. rewrite lookup_drop. f_equal. lia.
Qed.

Definition at_ (s : list Z) (i : nat) : Z := default 0 (s !! i).

Lemma mread_nat m off n : (off + n ≤ length m)%nat → mread m (Z.of_nat off) (Z.of_nat n) = Some (take n (drop off m)).
Proof. intros H. unfold mread. rewrite decide_True by lia. by rewrite !Nat2Z.id. Qed.

Lemma slice_at (m : list Z) off n i : (i < n)%nat → take n (drop off m) !! i = m !! (off + i)%nat.
Proof. intros H. by rewrite lookup_take_lt, lookup_drop. Qed.

Lemma fast_word_ok op src res off :
  (off + 8 ≤ length res)%nat → (off + 8 ≤ length src)%nat → bytes_ok res → bytes_ok src →
  ∃ res', fast_word op src res (Z.of_nat off) = Some res' ∧ upd off 8 (λ i x, binary op x (at_ src i)) res res'.
Proof.
  intros Hr Hs Br Bs. unfold fast_word. change 8 with (Z.of_nat 8). rewrite !mread_nat, !some_bind by lia.
  set (a := take 8 (drop off res)). set (b := take 8 (drop off src)).
  assert (length a = 8%nat) as La by (unfold a; rewrite length_take, length_drop; lia).
  assert (length b = 8%nat) as Lb by (unfold b; rewrite length_take, length_drop; lia).
  assert (bytes_ok a) as Ba by (by apply Forall_take, Forall_drop). assert (bytes_ok b) as Bb by (by apply Forall_take, Forall_drop).
  pose proof (word_bytes op a b ltac:(congruence) Ba Bb) as E. rewrite La in E. rewrite E. apply upd_write; [done|done| | |].
  - rewrite <- E. apply le_bytes_ok.
  - rewrite length_zip_with. lia.
  - intros i Hi. rewrite lookup_zip_with. unfold a, b. rewrite !slice_at by done. unfold at_.
    destruct (lookup_lt_is_Some_2 res (off + i)) as [x ->]; [lia|]. by destruct (lookup_lt_is_Some_2 src (off + i)) as [y ->]; [lia|].
Qed.

Lemma fast_not_ok res off : (off + 8 ≤ length res)%nat → bytes_ok res →
  ∃ res', fast_not res (Z.of_nat off) = Some res' ∧ upd off 8 (λ _ x, flip x) res res'.
Proof.
  intros Hr Br. unfold fast_not. change 8 with (Z.of_nat 8) at 1. rewrite mread_nat, some_bind by lia.
  set (a := take 8 (drop off res)). assert (length a = 8%nat) as La by (unfold a; rewrite length_take, length_drop; lia).
  rewrite flip_bytes by (done || by apply Forall_take, Forall_drop). apply upd_write; [done|done| | |].
  - apply Forall_map, Forall_true. intros x. apply flip_ok.
  - by rewrite length_map.
  - intros i Hi. rewrite list_lookup_fmap. unfold a. by rewrite slice_at.
Qed.

Lemma four_ok f h res off : (off + 32 ≤ length res)%nat → bytes_ok res →
  (∀ r o, length r = length res → bytes_ok r → (o + 8 ≤ off + 32)%nat → ∃ r', f r (Z.of_nat o) = Some r' ∧ upd o 8 h r r') →
  ∃ res', four f res (Z.of_nat off) = Some res' ∧ upd off 32 h res res'.
Proof.
  intros Hl Hb Hf. unfold four.
  destruct (Hf res off) as (r1 & -> & U1); [done|done|lia|]. rewrite some_bind.
  replace (Z.of_nat off + 8) with (Z.of_nat (off + 8)) by lia. replace (Z.of_nat off + 16) with (Z.of_nat (off + 16)) by lia.
  replace (Z.of_nat off + 24) with (Z.of_nat (off + 24)) by lia.
  destruct (Hf r1 (off + 8)%nat) as (r2 & -> & U2); [apply U1|apply U1|lia|]. rewrite some_bind.
  pose proof (upd_split _ _ _ _ _ _ _ U1 U2) as U12.
  destruct (Hf r2 (off + 16)%nat) as (r3 & -> & U3); [apply U12|apply U12|lia|]. rewrite some_bind.
  pose proof (upd_split _ _ _ _ _ _ _ U12 U3) as U13.
  destruct (Hf r3 (off + 24)%nat) as (r4 & -> & U4); [apply U13|apply U13|lia|].
  exists r4. split; [done|]. exact (upd_split _ _ _ _ _ _ _ U13 U4).
Qed.

Definition combine (op : bitop) (srcs : list (list Z)) (i : nat) (x : Z) : Z := foldl (λ out s, binary op out (at_ s i)) x srcs.

(** What a byte of the result is: the bytes of the sources at its position, zero where a source has ended. *)
Definition byte_ref (op : bitop) (srcs : list (list Z)) (i : nat) : Z :=
  match srcs with
  | [] => 0
  | src0 :: srcs => combine op srcs i (if bool_decide (op = BITOP_NOT) then flip (at_ src0 i) else at_ src0 i)
  end.

Lemma fast_sources_ok op srcs : ∀ off res,
  (off + 32 ≤ length res)%nat → bytes_ok res → Forall (λ s, bytes_ok s ∧ (off + 32 ≤ length s)%nat) srcs →
  ∃ res', fast_sources op srcs (Z.of_nat off) res = Some res' ∧ upd off 32 (combine op srcs) res res'.
Proof.
  induction srcs as [|s srcs IH]; intros off res Hl Hb Hs; cbn [fast_sources].
  - exists res. split; [done|]. split; [done|done|]. intros i. case_decide; [by destruct (res !! i)|done].
  - apply Forall_cons in Hs as [[Hs1 Hs2] Hs].
    destruct (four_ok (fast_word op s) (λ i x, binary op x (at_ s i)) res off Hl Hb) as (r1 & -> & U1).
    { intros r o Hr Br Ho. apply fast_word_ok; [lia|lia|done|done]. }
    rewrite some_bind. destruct (IH off r1) as (r2 & -> & U2); [by rewrite (up_length _ _ _ _ _ U1)|apply U1|done|].
    exists r2. split; [done|]. exact (upd_compose _ _ _ _ _ _ _ U1 U2).
Qed.

Definition not_first (op : bitop) (x : Z) : Z := if bool_decide (op = BITOP_NOT) then flip x else x.

Lemma combine_not srcs i x : combine BITOP_NOT srcs i x = x.
Proof. unfold combine. induction srcs; [done|]. by cbn [foldl binary]. Qed.

Lemma fast_loop_ok fuel op srcs : ∀ j minlen res,
  (minlen < fuel)%nat → (j + minlen ≤ length res)%nat → bytes_ok res → Forall (λ s, bytes_ok s ∧ (j + minlen ≤ length s)%nat) srcs →
  ∃ res' n, fast_loop fuel op srcs res (Z.of_nat j) (Z.of_nat minlen) = Some (res', Z.of_nat (j + n)) ∧ (n ≤ minlen)%nat ∧
    upd j n (λ i x, combine op srcs i (not_first op x)) res res'.
Proof.
  induction fuel as [|fuel IH]; intros j minlen res Hf Hl Hb Hs; [lia|]. cbn [fast_loop].
  rewrite Z.geb_leb. destruct (Z.leb_spec 32 (Z.of_nat minlen)) as [H32|H32].
  2: { exists res, O. rewrite Nat.add_0_r. split; [done|]. split; [lia|]. split; [done|done|]. intros i. rewrite decide_False by lia. done. }
  assert (∃ r1, match op with BITOP_NOT => four fast_not res (Z.of_nat j) | _ => fast_sources op srcs (Z.of_nat j) res end = Some r1 ∧
    upd j 32 (λ i x, combine op srcs i (not_first op x)) res r1) as (r1 & -> & U1).
  { destruct (decide (op = BITOP_NOT)) as [->|Hne].
    - destruct (four_ok fast_not (λ _ x, flip x) res j) as (r1 & E & U); [lia|done| |].
      + intros r o Hr Br Ho. apply fast_not_ok; [lia|done].
      + exists r1. split; [done|]. eapply upd_ext, U. intros i x. by rewrite combine_not.
    - destruct (fast_sources_ok op srcs j res) as (r1 & E & U); [lia|done| |].
      + eapply Forall_impl; [exact Hs|]. intros s [H1 H2]. split; [done|lia].
      + exists r1. split; [by destruct op|]. eapply upd_ext, U. intros i x. unfold not_first. by rewrite bool_decide_eq_false_2. }
  rewrite some_bind. replace (Z.of_nat j + 32) with (Z.of_nat (j + 32)) by lia.
  replace (Z.of_nat minlen - 32) with (Z.of_nat (minlen - 32)) by lia.
  destruct (IH (j + 32)%nat (minlen - 32)%nat r1) as (r2 & n & -> & Hn & U2); [lia|rewrite (up_length _ _ _ _ _ U1); lia|apply U1| |].
  { eapply Forall_impl; [exact Hs|]. intros s [H1 H2]. split; [done|lia]. }
  exists r2, (32 + n)%nat. split; [do 3 f_equal; lia|]. split; [lia|]. exact (upd_split _ _ _ _ _ _ _ U1 U2).
Qed.

Lemma byte_at s j : (if zlen s <=? Z.of_nat j then Some 0 else get s (Z.of_nat j)) = Some (at_ s j).
Proof.
  unfold at_. rewrite get_nat. destruct (Z.leb_spec (zlen s) (Z.of_nat j)).
  - by rewrite lookup_ge_None_2 by lia.
  - by destruct (lookup_lt_is_Some_2 s j) as [x ->]; [lia|].
Qed.

Lemma slow_byte_ok op srcs j : srcs ≠ [] → slow_byte op srcs (Z.of_nat j) = Some (byte_ref op srcs j).
Proof.
  destruct srcs as [|s0 srcs]; [done|intros _]. unfold slow_byte, byte_ref, combine. rewrite byte_at, some_bind.
  replace (match op with BITOP_NOT => u8 (Z.lnot (at_ s0 j)) | _ => at_ s0 j end)
    with (if bool_decide (op = BITOP_NOT) then flip (at_ s0 j) else at_ s0 j) by (by destruct op).
  generalize (if bool_decide (op = BITOP_NOT) then flip (at_ s0 j) else at_ s0 j). clear.
  induction srcs as [|s srcs IH]; intros x; [done|]. cbn [foldl]. by rewrite some_bind, byte_at, some_bind, IH.
Qed.

Lemma slow_loop_ok op srcs n : ∀ j res, srcs ≠ [] → (j + n = length res)%nat →
  slow_loop n op srcs res (Z.of_nat j) = Some (take j res ++ map (byte_ref op srcs) (seq j n)).
Proof.
  induction n as [|n IH]; intros j res Hs Hl; cbn [slow_loop]; [by rewrite app_nil_r, take_ge by lia|].
  rewrite slow_byte_ok, some_bind, mwrite_insert, some_bind by (done || lia).
  replace (Z.of_nat j + 1) with (Z.of_nat (S j)) by lia. rewrite IH by (done || rewrite length_insert; lia).
  rewrite (take_S_r _ j (byte_ref op srcs j)) by (rewrite list_lookup_insert_eq; [done|lia]).
  rewrite take_insert_ge by lia. by rewrite <- app_assoc.
Qed.

(** C12: the result of BITOP is, byte by byte, the operation on the sources padded with zeros to the longest: the path that takes
    four words at a time from up to sixteen sources as long as all have data computes the same as the plain loop. *)
Theorem bitop_fast_path op srcs minlen maxlen :
  srcs ≠ [] → Forall (λ s, bytes_ok s ∧ (minlen ≤ length s ≤ maxlen)%nat) srcs →
  bitop_compute op srcs (Z.of_nat minlen) (Z.of_nat maxlen) = Some (map (byte_ref op srcs) (seq 0 maxlen)).
Proof.
  intros Hne Hs. unfold bitop_compute. rewrite !Nat2Z.id. destruct ((_ >=? 32) && _).
  2: { rewrite some_bind, Z.sub_0_r, Nat2Z.id. apply (slow_loop_ok op srcs maxlen 0); [done|by rewrite length_replicate]. }
  destruct srcs as [|s0 srcs]; [done|]. pose proof Hs as [[B0 L0] Hs']%Forall_cons. cbn [lookup list_lookup List.tl].
  rewrite some_bind. rewrite (mread_nat s0 0 minlen : _ → mread s0 0 _ = _), some_bind, drop_0 by lia.
  assert (length (take minlen s0) = minlen) as Lt by (rewrite length_take; lia).
  assert (mwrite (replicate maxlen 0) 0 (take minlen s0) = Some (take minlen s0 ++ replicate (maxlen - minlen) 0)) as ->.
  { replace maxlen with (minlen + (maxlen - minlen))%nat at 1 by lia. rewrite replicate_add. apply mwrite_start. by rewrite length_replicate, Lt. }
  rewrite some_bind. set (r0 := take minlen s0 ++ _).
  assert (length r0 = maxlen) as L by (unfold r0; rewrite length_app, Lt, length_replicate; lia).
  destruct (fast_loop_ok (S minlen) op srcs 0 minlen r0) as (r1 & n & E & Hn & U); [lia|lia| | |].
  { apply Forall_app. split; [by apply Forall_take|by apply Forall_replicate]. }
  { eapply Forall_impl; [exact Hs'|]. intros s [? ?]. split; [done|lia]. }
  change (Z.of_nat 0) with 0 in E. rewrite E, some_bind. cbn [Nat.add]. replace (Z.to_nat (Z.of_nat maxlen - Z.of_nat n)) with (maxlen - n)%nat by lia.
  rewrite slow_loop_ok by (done || rewrite (up_length _ _ _ _ _ U); lia). f_equal.
  replace maxlen with (n + (maxlen - n))%nat at 2 by lia. rewrite seq_app, map_app. f_equal.
  apply list_eq. intros i. rewrite list_lookup_fmap. destruct (decide (i < n)%nat) as [Hi|Hi].
  - rewrite lookup_take_lt, (up_at _ _ _ _ _ U), decide_True, lookup_seq_lt by lia. cbn [fmap option_fmap option_map Nat.add].
    unfold r0. rewrite lookup_app_l, lookup_take_lt by lia. unfold byte_ref, at_.
    by destruct (lookup_lt_is_Some_2 s0 i) as [x ->]; [lia|].
  - rewrite lookup_take_ge, lookup_seq_ge by lia. done.
Qed.

Lemma bitop_fast_path_witness :
  bitop_compute BITOP_XOR [repeat 5 40; repeat 3 70] (Z.of_nat 40) (Z.of_nat 70) = Some (repeat 6 40 ++ repeat 3 30).
Proof.
  rewrite (bitop_fast_path BITOP_XOR [repeat 5 40; repeat 3 70] 40 70); [by vm_compute|done|].
  repeat constructor; vm_compute; done || lia.
Defined.
