(* ===== verification/KeyProps.v ===== *)
(** * Histories of commands on keys and strings

    Every history of commands, on a server that is not a slave, answers as a
    data base in which keys vanish at the moment their time has passed: the
    commands never fail an assertion nor leave the memory of a string, and
    replies, dirty counter and events agree.  PERSIST, DBSIZE and BITOP are
    not among the commands of the histories, because they use keys that were
    not looked up before; what PERSIST does to an expired key is shown apart. *)

From S2P Require Import Prelude Decimal Util SdsNum StringObj Notify Keyspace KeyCmd StrCmd Bitmap BitCmd.

(** ** Values *)

(** BITFIELD may write up to eight bytes behind the limit of 512 MB. *)
Definition max_len : Z := 2 ^ 29 + 8.

Definition obj_ok (o : robj) : Prop :=
  match o with StrRaw s => bytes_ok s ∧ zlen s ≤ max_len | StrInt v => in_s 64 v end.

Definition vok (v : value) : Prop := match v with VStr o => obj_ok o | VOther _ _ => True end.

Definition arg_ok (s : list Z) : Prop := bytes_ok s ∧ zlen s ≤ 2 ^ 29.

Lemma print_ok n v : in_s 64 v → (20 < n)%nat → print_number n v = Some (dec_of_Z v).
Proof.
  intros Hv Hn. unfold print_number. pose proof (length_dec_of_Z_20 v Hv). assert (zlen (replicate n 0) = Z.of_nat n) as E by (by rewrite length_replicate).
  rewrite <- E. rewrite ll2string_spec by done. rewrite decide_True by lia. rewrite some_bind. by apply mread_start.
Qed.

Lemma decoded_ok o : obj_ok o → getDecodedObject o = Some (text o).
Proof. destruct o as [s|v]; [done|]. intros Hv. by apply print_ok; [|lia]. Qed.

Lemma readonly_ok o : obj_ok o → getObjectReadOnlyString o = Some (text o).
Proof. destruct o as [s|v]; [done|]. intros Hv. by apply print_ok; [|lia]. Qed.

Lemma text_ok o : obj_ok o → bytes_ok (text o) ∧ zlen (text o) ≤ max_len.
Proof.
  destruct o as [s|v]; [done|]. intros Hv. split; [|pose proof (length_dec_of_Z_20 v Hv); unfold max_len; cbn; lia].
  assert (∀ z, 0 ≤ z → bytes_ok (dec z)) as Hd.
  { intros z Hz. eapply Forall_impl; [by apply dec_digits|]. intros c Hc. unfold digit in Hc. unfold byte_ok, in_u. pow2. lia. }
  cbn. unfold dec_of_Z. destruct (Z.ltb_spec v 0); [constructor; [done|]|]; apply Hd; lia.
Qed.

(** [tryObjectEncoding] keeps a string or makes the number of it that prints as the string. *)
Lemma object_cases s : let o := tryObjectEncoding (StrRaw s) in o = StrRaw s ∨ ∃ z, o = StrInt z ∧ in_s 64 z ∧ s = dec_of_Z z.
Proof.
  cbn. destruct (zlen s <=? 20); [|by left]. unfold string2l. destruct (string2ll s) as [z|] eqn:E; [|by left].
  apply string2ll_sound in E as [Hz ->]. rewrite some_bind. destruct (_ || _); [by left|]. right. exists z. split; [|done].
  unfold s64. by rewrite wraps_id.
Qed.

Lemma encoding_text s : text (tryObjectEncoding (StrRaw s)) = s.
Proof. by destruct (object_cases s) as [->|(z & -> & _ & ->)]. Qed.

Lemma encoding_ok s : arg_ok s → obj_ok (tryObjectEncoding (StrRaw s)).
Proof.
  intros [Hb Hl]. destruct (object_cases s) as [->|(z & -> & Hz & _)]; [|done]. split; [done|]. unfold max_len. lia.
Qed.

Lemma stringObjectLen_text o : obj_ok o → stringObjectLen o = zlen (text o).
Proof. destruct o as [s|v]; [done|]. intros Hv. cbn. unfold sdigits10, dec_of_Z. unfold obj_ok, in_s in Hv. change (2 ^ (64 - 1)) with 9223372036854775808 in Hv.
  destruct (Z.ltb_spec v 0); [|apply digits10_spec; unfold in_u; pow2; lia].
  replace (if negb (v =? LLONG_MIN) then u64 (- v) else u64 (LLONG_MAX + 1)) with (- v).
  - rewrite digits10_spec by (unfold in_u; pow2; lia). cbn [length]. lia.
  - unfold LLONG_MIN, LLONG_MAX. destruct (Z.eqb_spec v (- 2 ^ 63)) as [->|]; [done|]. cbn. unfold u64. rewrite wrapu_id; [done|unfold in_u; pow2; lia].
Qed.

(** ** Commands on the abstract data base do not get stuck

    [ok p d c Q]: on a data base [d] whose keys [c] were looked up, [p] ends, and [Q] holds of what it returns and leaves. *)
Abbreviation db := (gmap dbkey (value * option Z)).

Definition good (d : db) : Prop := ∀ k v e, d !! k = Some (v, e) → vok v.

Lemma good_insert d k v e : good d → vok v → good (<[k := (v, e)]> d).
Proof. intros Hd Hv k' v' e'. destruct (decide (k' = k)) as [->|N]; [|rewrite lookup_insert_ne by done; apply Hd]. rewrite lookup_insert_eq. by intros [= <- <-]. Qed.

Lemma good_delete d k : good d → good (delete k d).
Proof. intros Hd k' v' e' H. apply (Hd k' v' e'). by apply lookup_delete_Some in H as [_ H]. Qed.

Section ok.
Context (en : kenv).
Implicit Types (d : db) (c : gset dbkey).

Definition ok {A} (p : prog A) (d : db) (c : gset dbkey) (Q : A → db → gset dbkey → Prop) : Prop :=
  ∀ a, adb a = d → aclean a = c → ∃ x a', arun en p a = Some (x, a') ∧ Q x (adb a') (aclean a').

Lemma ok_ret {A} (x : A) d c (Q : A → db → gset dbkey → Prop) : Q x d c → ok (Ret x) d c Q.
Proof. intros H a <- <-. by exists x, a. Qed.

Lemma ok_do {A R} (o : op R) (K : R → prog A) d c Q :
  (∀ a, adb a = d → aclean a = c → ∃ r a', astep en o a = Some (r, a') ∧ ok (K r) (adb a') (aclean a') Q) → ok (Do o K) d c Q.
Proof.
  intros H a Ed Ec. destruct (H a Ed Ec) as (r & a' & E & HK). destruct (HK a' eq_refl eq_refl) as (x & a'' & E' & HQ).
  exists x, a''. split; [|done]. cbn [arun]. by rewrite E, some_bind.
Qed.

Lemma ok_mono {A} (p : prog A) d c (Q Q' : A → db → gset dbkey → Prop) : (∀ x d c, Q x d c → Q' x d c) → ok p d c Q → ok p d c Q'.
Proof. intros H Hp a Ed Ec. destruct (Hp a Ed Ec) as (x & a' & E & HQ). exists x, a'. split; [done|by apply H]. Qed.

Lemma arun_bind {A B} (p : prog A) (f : A → prog B) : ∀ a, arun en (prog_bind f p) a = '(x, a) ← arun en p a; arun en (f x) a.
Proof.
  induction p as [x|R o k IH]; intros a; cbn [prog_bind arun]; [done|]. destruct (astep en o a) as [[r a1]|]; [|done].
  rewrite !some_bind. apply IH.
Qed.

Lemma ok_bind {A B} (p : prog A) (f : A → prog B) d c Q : ok p d c (λ x d c, ok (f x) d c Q) → ok (prog_bind f p) d c Q.
Proof.
  intros H a Ed Ec. destruct (H a Ed Ec) as (x & a1 & E & Hf). destruct (Hf a1 eq_refl eq_refl) as (y & a2 & E2 & HQ).
  exists y, a2. split; [|done]. by rewrite arun_bind, E, some_bind.
Qed.

Lemma ok_assoc {A B C} (p : prog A) (f : A → prog B) (K : B → prog C) d c Q :
  ok (prog_bind (λ x, prog_bind K (f x)) p) d c Q → ok (prog_bind K (prog_bind f p)) d c Q.
Proof.
  intros H a Ed Ec. destruct (H a Ed Ec) as (x & a' & E & HQ). exists x, a'. split; [|done]. rewrite <- E, !arun_bind.
  destruct (arun en p a) as [[y a1]|]; [|done]. by rewrite !some_bind, arun_bind.
Qed.

(** One rule for every operation. *)
Lemma ok_lookup {A} w k (K : option value → prog A) d c Q :
  good d → (∀ v e, d !! k = Some (v, e) → vok v → ok (K (Some v)) d ({[k]} ∪ c) Q) → (d !! k = None → ok (K None) d ({[k]} ∪ c) Q) →
  ok (Do (if w : bool then OLookupWrite k else OLookupRead k) K) d c Q.
Proof.
  intros Hg Hs Hn. apply ok_do. intros a <- <-. exists (fst <$> adb a !! k), (set_clean ({[k]} ∪ aclean a) a). split; [by destruct w|].
  cbn [adb aclean set_clean]. destruct (adb a !! k) as [[v e]|] eqn:E; [|by apply Hn]. eapply Hs; [done|by eapply Hg].
Qed.

Lemma ok_expire {A} k (K : unit → prog A) d c Q : ok (K ()) d ({[k]} ∪ c) Q → ok (Do (OExpireIfNeeded k) K) d c Q.
Proof. intros H. apply ok_do. intros a <- <-. by exists (), (set_clean ({[k]} ∪ aclean a) a). Qed.

Lemma ok_add {A} k v (K : unit → prog A) d c Q : k ∈ c → d !! k = None → ok (K ()) (<[k := (v, None)]> d) c Q → ok (Do (ODbAdd k v) K) d c Q.
Proof.
  intros Hc Hn H. apply ok_do. intros a <- <-. exists (), (match v with VOther OBJ_LIST _ => a_log (EvReady k) (set_adb (<[k := (v, None)]> (adb a)) a)
    | _ => set_adb (<[k := (v, None)]> (adb a)) a end). split; [cbn [astep]; by rewrite decide_True|]. by destruct v as [|[]].
Qed.

Lemma ok_overwrite {A} k v v0 e (K : unit → prog A) d c Q :
  d !! k = Some (v0, e) → ok (K ()) (<[k := (v, e)]> d) c Q → ok (Do (ODbOverwrite k v) K) d c Q.
Proof. intros Hd H. apply ok_do. intros a <- <-. eexists _, _. split; [cbn [astep]; by rewrite Hd|done]. Qed.

Lemma ok_delete {A} k (K : bool → prog A) d c Q :
  k ∈ c → ok (K (bool_decide (is_Some (d !! k)))) (delete k d) c Q → ok (Do (ODbDelete k) K) d c Q.
Proof. intros Hc H. apply ok_do. intros a <- <-. eexists _, _. split; [cbn [astep]; by rewrite decide_True|done]. Qed.

Lemma ok_exists {A} k (K : bool → prog A) d c Q : k ∈ c → (∀ b, ok (K b) d c Q) → ok (Do (ODbExists k) K) d c Q.
Proof. intros Hc H. apply ok_do. intros a <- <-. eexists _, _. split; [cbn [astep]; by rewrite decide_True|apply H]. Qed.

Lemma ok_setexpire {A} k w v e (K : unit → prog A) d c Q :
  d !! k = Some (v, e) → (dead en w = true → ok (K ()) (delete k d) (c ∖ {[k]}) Q) → (dead en w = false → ok (K ()) (<[k := (v, Some w)]> d) c Q) →
  ok (Do (OSetExpire k w) K) d c Q.
Proof.
  intros Hd H1 H2. apply ok_do. intros a <- <-. eexists _, _. split; [cbn [astep]; by rewrite Hd|].
  destruct (dead en w) eqn:E; [by apply H1|by apply H2].
Qed.

Lemma ok_getexpire {A} k (K : Z → prog A) d c Q : k ∈ c →
  ok (K (match d !! k with Some (_, Some w) => w | _ => -1 end)) d c Q → ok (Do (OGetExpire k) K) d c Q.
Proof. intros Hc H. apply ok_do. intros a <- <-. eexists _, _. split; [cbn [astep]; by rewrite decide_True|done]. Qed.

Lemma ok_removeexpire {A} k v e (K : bool → prog A) d c Q :
  d !! k = Some (v, e) → ok (K (bool_decide (is_Some e))) (<[k := (v, None)]> d) c Q → ok (Do (ORemoveExpire k) K) d c Q.
Proof. intros Hd H. apply ok_do. intros a <- <-. eexists _, _. split; [cbn [astep]; by rewrite Hd|done]. Qed.

(** What only tells the rest of the server something. *)
Definition silent {R} (o : op R) : bool :=
  match o with OSignalModified _ | ONotifyEvent _ _ _ | ORewrite _ | ODirty _ | OReply _ => true | _ => false end.

Lemma ok_silent {A R} (o : op R) (K : R → prog A) d c Q : silent o = true → (∀ r, ok (K r) d c Q) → ok (Do o K) d c Q.
Proof.
  intros Hs H. apply ok_do. intros a <- <-. destruct o; try done; (eexists (), _; split; [done|]; try by apply H).
  case_decide; by apply H.
Qed.

Lemma ok_env {A} (K : kenv → prog A) d c Q : ok (K en) d c Q → ok (Do OEnv K) d c Q.
Proof. intros H. apply ok_do. intros a <- <-. by exists en, a. Qed.
End ok.

(** ** Running programs *)
Definition leaves_good {A} (_ : A) (d : db) (_ : gset dbkey) : Prop := good d.
Create HintDb db_good.
#[export] Hint Resolve good_insert good_delete : db_good.
#[export] Hint Extern 1 (vok _) => done : db_good.

Ltac ok_simp :=
  unfold LookupRead, LookupWrite, ExpireIfNeeded, DbAdd, DbOverwrite, DbDelete, DbExists, SetExpire, GetExpire,
       RemoveExpire, SignalModified, NotifyEvent, Rewrite, Dirty, Reply, Env, call, lift;
  cbn [mbind prog_mbind prog_bind fst snd].

Ltac ok_good := auto 8 with db_good.
Ltac ok_in := first [assumption | set_solver].
Ltac ok_at := repeat first [eassumption | rewrite lookup_insert_eq; reflexivity | rewrite lookup_delete_eq; reflexivity
  | rewrite lookup_insert_ne by congruence | rewrite lookup_delete_ne by congruence].

Ltac ok_split p :=
  lazymatch p with
  | prog_bind _ ?q => ok_split q
  | @mbind _ _ _ _ _ ?q => ok_split q
  | match ?x with _ => _ end => first [is_var x; destruct x | destruct x eqn:?]
  end.

(** Rules for functions that several commands call, added below. *)
Ltac ok_special := fail.

Ltac ok_step :=
  ok_simp; first [progress ok_special |
  lazymatch goal with
  | |- ok _ (Ret _) _ _ _ => apply ok_ret
  | |- ok _ (Do (OLookupRead _) _) _ _ _ => apply (ok_lookup _ false); [ok_good|intros ? ? ? ?|intros ?]
  | |- ok _ (Do (OLookupWrite _) _) _ _ _ => apply (ok_lookup _ true); [ok_good|intros ? ? ? ?|intros ?]
  | |- ok _ (Do (OExpireIfNeeded _) _) _ _ _ => apply ok_expire
  | |- ok _ (Do (ODbAdd _ _) _) _ _ _ => apply ok_add; [ok_in|ok_at|]
  | |- ok _ (Do (ODbOverwrite _ _) _) _ _ _ => eapply ok_overwrite; [ok_at|]
  | |- ok _ (Do (ODbDelete _) _) _ _ _ => apply ok_delete; [ok_in|]
  | |- ok _ (Do (ODbExists _) _) _ _ _ => apply ok_exists; [ok_in|intros ?]
  | |- ok _ (Do (OSetExpire _ _) _) _ _ _ => eapply ok_setexpire; [ok_at|intros ?|intros ?]
  | |- ok _ (Do (OGetExpire _) _) _ _ _ => apply ok_getexpire; [ok_in|]
  | |- ok _ (Do (ORemoveExpire _) _) _ _ _ => eapply ok_removeexpire; [ok_at|]
  | |- ok _ (Do OEnv _) _ _ _ => apply ok_env
  | |- ok _ (Do _ _) _ _ _ => apply ok_silent; [done|intros ?]
  | |- ok _ ?p _ _ _ => ok_split p
  end].
Ltac ok_end := try (unfold leaves_good; ok_good).
Ltac ok_run := repeat ok_step; ok_end.

Section commands.
Context (en : kenv).
Implicit Types (d : db) (c : gset dbkey).
Abbreviation safe p := (∀ d c, good d → ok en p d c leaves_good).

Lemma present d k v e : d !! k = Some (v, e) → bool_decide (is_Some (d !! k)) = false → False.
Proof. intros H E. apply bool_decide_eq_false in E. rewrite H in E. by destruct E. Qed.

Lemma expire_safe id key param b u : safe (expireGenericCommand id key param b u).
Proof. intros d c Hg. unfold expireGenericCommand, getLongLongFromObjectOrReply. ok_run. exfalso. by eapply present. Qed.

Lemma del_safe id keys n : safe (del_loop id keys n).
Proof. revert n. induction keys as [|key keys IH]; intros n d c Hg; cbn [del_loop]; ok_run; apply IH; ok_good. Qed.

Lemma exists_safe id keys n : safe (exists_loop id keys n).
Proof. revert n. induction keys as [|key keys IH]; intros n d c Hg; cbn [exists_loop]; ok_run; apply IH; ok_good. Qed.

Lemma touch_safe id keys n : safe (touch_loop id keys n).
Proof. revert n. induction keys as [|key keys IH]; intros n d c Hg; cbn [touch_loop]; ok_run; apply IH; ok_good. Qed.

Lemma type_safe id key : safe (typeCommand id key).
Proof. intros d c Hg. unfold typeCommand. ok_run. Qed.

Lemma ttl_safe id key ms : safe (ttlGenericCommand id key ms).
Proof. intros d c Hg. unfold ttlGenericCommand. ok_run. Qed.

Lemma setKey_ok {A} k v (K : unit → prog A) d c Q :
  good d → vok v → (ok en (K ()) (<[k := (v, None)]> d) ({[k]} ∪ c) Q) → ok en (prog_bind K (setKey k v)) d c Q.
Proof.
  intros Hg Hv H. unfold setKey. ok_run; destruct r; by rewrite insert_insert_eq.
Qed.
End commands.

Ltac ok_special ::=
  match goal with
  | |- ok _ (prog_bind _ (setKey _ _)) _ _ _ => apply setKey_ok; [ok_good|ok_good|]
  | |- ok _ (mbind _ (setKey _ _)) _ _ _ => apply setKey_ok; [ok_good|ok_good|]
  | |- context [getDecodedObject ?o] => rewrite (decoded_ok o) by assumption
  | |- context [getObjectReadOnlyString ?o] => rewrite (readonly_ok o) by assumption
  end.

Ltac ok_args :=
  unfold lookupKeyReadOrReply, lookupKeyWriteOrReply, checkString, getLongFromObjectOrReply, getLongLongFromObjectOrReply, checkStringLength.

Section string_commands.
Context (en : kenv).
Implicit Types (d : db) (c : gset dbkey).
Abbreviation safe p := (∀ d c, good d → ok en p d c leaves_good).

Lemma rename_safe id src dst nx : safe (renameGenericCommand id src dst nx).
Proof.
  intros d c Hg. unfold renameGenericCommand. ok_args. destruct (decide (src = dst)) as [->|N].
  - rewrite bool_decide_eq_true_2 by done. ok_run.
  - rewrite bool_decide_eq_false_2 by done. assert ((id, src) ≠ (id, dst)) by congruence. ok_run.
Qed.

Lemma move_safe id key dbid : safe (moveCommand id key dbid).
Proof.
  intros d c Hg. unfold moveCommand. ok_args. ok_step. ok_step; [ok_run|]. ok_step; [|ok_run]. ok_step; [ok_run|].
  destruct (Z.eqb_spec id z) as [->|N]; [ok_run|]. assert ((id, key) ≠ (z, key)) by congruence. ok_run.
Qed.

Lemma set_safe name k flags val expire u r1 r2 : obj_ok val → safe (setGenericCommand name k flags val expire u r1 r2).
Proof. intros Hv d c Hg. unfold setGenericCommand, set_expire_arg. ok_args. ok_run. Qed.

Lemma setCommand_safe id key val options : arg_ok val → safe (setCommand id key val options).
Proof.
  intros Hv d c Hg. unfold setCommand. destruct (set_options _ _ _ _) as [[[f e] u]|]; [|ok_run]. apply set_safe; [by apply encoding_ok|done].
Qed.

Lemma getGeneric_ok {A} k (K : bool → prog A) d c Q : good d → (∀ b, ok en (K b) d ({[k]} ∪ c) Q) → ok en (prog_bind K (getGenericCommand k)) d c Q.
Proof. intros Hg H. unfold getGenericCommand, addReplyBulk. ok_args. ok_run; apply H. Qed.

Lemma getset_safe id key val : arg_ok val → safe (getsetCommand id key val).
Proof.
  intros Hv d c Hg. unfold getsetCommand. apply getGeneric_ok; [done|]. intros b. pose proof (encoding_ok val Hv). ok_run.
Qed.

Lemma getCommand_safe id key : safe (getCommand id key).
Proof. intros d c Hg. unfold getCommand. apply getGeneric_ok; [done|]. intros b. ok_run. Qed.

Lemma mget_safe id keys : safe (mgetCommand id keys).
Proof.
  intros d c Hg. unfold mgetCommand. ok_step. revert c. induction keys as [|key keys IH]; intros c; cbn [each]; [ok_run|].
  unfold mget_one, addReplyBulk. ok_run; apply IH.
Qed.

Lemma strlen_safe id key : safe (strlenCommand id key).
Proof. intros d c Hg. unfold strlenCommand. ok_args. ok_run. Qed.

Lemma raw_ok s : bytes_ok s → zlen s ≤ max_len → vok (VStr (StrRaw s)).
Proof. done. Qed.

Lemma append_safe id key val : arg_ok val → safe (appendCommand id key val).
Proof.
  intros Hv d c Hg. unfold appendCommand, dbUnshareStringValue. ok_args. pose proof (encoding_ok val Hv).
  assert (∀ o, obj_ok o → (s64 (u64 (stringObjectLen o + zlen val)) >? 512 * 1024 * 1024) = false → vok (VStr (StrRaw (text o ++ val)))) as Ha.
  { intros o Ho El. destruct (text_ok o Ho) as [Hb Hl]. rewrite stringObjectLen_text in El by done. destruct Hv as [Hvb Hvl].
    unfold u64 in El. rewrite wrapu_id in El by (unfold in_u, max_len in *; pow2; lia).
    unfold s64 in El. rewrite wraps_id in El by (done || unfold in_s, max_len in *; pow2; lia).
    apply raw_ok; [by apply Forall_app|]. rewrite length_app. unfold max_len. rewrite Z.gtb_ltb in El. apply Z.ltb_ge in El. lia. }
  ok_run; apply good_insert; ok_good; [by apply (Ha (StrRaw s))|]. apply good_insert; [done|]. by apply text_ok.
Qed.

Lemma incr_safe id key n : in_s 64 n → safe (incrDecrCommand id key n).
Proof.
  intros Hv d c Hg. unfold incrDecrCommand. ok_args.
  assert (∀ z, vok (VStr (createStringObjectFromLongLong (s64 z)))) by (intros z; by apply wraps_range). ok_run.
Qed.

Lemma parse_range s z : getLongLongFromObject (Some (StrRaw s)) = Some z → in_s 64 z.
Proof. intros H. by apply string2ll_sound in H as [? _]. Qed.

Lemma incrby_safe id key incr : safe (incrbyCommand id key incr).
Proof. intros d c Hg. unfold incrbyCommand. ok_args. ok_run. apply incr_safe; [by eapply parse_range|done]. Qed.

Lemma decrby_safe id key decr : safe (decrbyCommand id key decr).
Proof. intros d c Hg. unfold decrbyCommand. ok_args. ok_run. apply incr_safe; [by apply wraps_range|done]. Qed.

Lemma mset_each id kvs (K : unit → prog unit) d c :
  good d → Forall (λ kv, arg_ok kv.2) kvs → (∀ d c, good d → ok en (K ()) d c leaves_good) →
  ok en (prog_bind K (each (mset_one id) kvs)) d c leaves_good.
Proof.
  intros Hg Hk HK. revert d c Hg. induction Hk as [|[k v] kvs Hv _ IH]; intros d c Hg; cbn [each]; [by apply HK|].
  pose proof (encoding_ok v Hv). apply ok_assoc, ok_assoc. ok_run.
Qed.

Lemma pairs_ok args kvs : pairs args = Some kvs → Forall arg_ok args → Forall (λ kv, arg_ok kv.2) kvs.
Proof.
  revert kvs. assert (∀ n args, (length args ≤ n)%nat → ∀ kvs, pairs args = Some kvs → Forall arg_ok args → Forall (λ kv, arg_ok kv.2) kvs) as H; [|by eapply H].
  clear args. induction n as [|n IH]; intros [|k [|v args]] Hl kvs; cbn [pairs]; try done; try (intros [= <-]; by constructor); [simpl in Hl; lia|].
  intros (l & E & [= <-])%bind_Some [_ [Hv Ha]%Forall_cons]%Forall_cons. constructor; [done|]. apply (IH args); [simpl in Hl; lia|done|done].
Qed.

Lemma busy_ok {A} id kvs n (K : Z → prog A) d c Q : good d → (∀ n c, ok en (K n) d c Q) → ok en (prog_bind K (busy_keys id kvs n)) d c Q.
Proof.
  intros Hg HK. revert n c. induction kvs as [|[k v] kvs IH]; intros n c; cbn [busy_keys]; [apply HK|]. ok_run; apply IH.
Qed.

Lemma mset_safe id args nx : Forall arg_ok args → safe (msetGenericCommand id args nx).
Proof.
  intros Ha d c Hg. unfold msetGenericCommand. destruct (pairs args) as [kvs|] eqn:E; [|ok_run]. pose proof (pairs_ok args kvs E Ha) as Hk.
  assert (∀ n c, ok en (if negb (n =? 0) then Reply (RInt 0) else each (mset_one id) kvs;; Dirty (zlen kvs);; Reply (if nx then RInt 1 else ROk)) d c leaves_good) as H.
  { intros n c'. destruct (negb _); [ok_run|]. apply mset_each; [done|done|]. clear. intros d c Hg. ok_run. }
  destruct nx; [apply busy_ok; [done|apply H]|apply (H 0)].
Qed.

(** GETRANGE stays inside the string. *)
Lemma getrange_ok s a b : zlen s ≤ max_len → in_s 64 a → in_s 64 b → ∃ r, getrange s a b = Some r ∧ ∃ i n, r = take n (drop i s).
Proof.
  intros Hl Ha Hb. unfold getrange. unfold in_s in *. change (2 ^ (64 - 1)) with 9223372036854775808 in *. unfold max_len in Hl.
  change (2 ^ 29 + 8) with 536870920 in Hl.
  destruct (_ && _ && _); [exists []; split; [done|]; by exists O, O|].
  assert (s64 (zlen s - 1) = zlen s - 1) as -> by (apply wraps_id; [done|]; unfold in_s; pow2; lia).
  assert (∀ z, z < 0 → - 9223372036854775808 ≤ z → s64 (zlen s + z) = zlen s + z) as Hs
    by (intros z ? ?; apply wraps_id; [done|]; unfold in_s; pow2; lia).
  set (a1 := if a <? 0 then s64 (zlen s + a) else a). set (b1 := if b <? 0 then s64 (zlen s + b) else b).
  set (a2 := if a1 <? 0 then 0 else a1). set (b2 := if b1 <? 0 then 0 else b1).
  assert (0 ≤ a2 ∧ 0 ≤ b2) as [Ha2 Hb2] by (unfold a2, b2; destruct (Z.ltb_spec a1 0), (Z.ltb_spec b1 0); lia).
  clearbody a2 b2. rewrite Z.geb_leb, Z.gtb_ltb.
  set (b3 := if zlen s <=? b2 then zlen s - 1 else b2). assert (b3 < zlen s) as Hb3 by (unfold b3; destruct (Z.leb_spec (zlen s) b2); lia).
  destruct (Z.ltb_spec b3 a2); [exists []; split; [done|]; by exists O, O|]. destruct (_ =? 0); [exists []; split; [done|]; by exists O, O|].
  unfold mread. rewrite decide_True by lia. eexists. split; [done|]. by eexists _, _.
Qed.

Lemma getrange_safe id key s e : safe (getrangeCommand id key s e).
Proof.
  intros d c Hg. unfold getrangeCommand. ok_args. ok_run. exfalso. destruct (getrange_ok (text o) z z0) as (r & E & _); [by apply text_ok| | |congruence].
  all: by eapply parse_range.
Qed.
End string_commands.

(** ** Strings that grow *)
Lemma newlen_ok n : 0 ≤ n < 2 ^ 63 → ∃ s, new_zero n = Some s ∧ bytes_ok s ∧ zlen s = n.
Proof.
  intros Hn. unfold new_zero. rewrite (proj2 (Z.ltb_lt _ _)) by lia. eexists. split; [done|].
  split; [by apply Forall_replicate|rewrite length_replicate; lia].
Qed.

Lemma grow_ok s n : bytes_ok s → n < 2 ^ 63 → ∃ s', grow_zero s n = Some s' ∧ bytes_ok s' ∧ zlen s' = Z.max (zlen s) n.
Proof.
  intros Hb Hn. unfold grow_zero. destruct (Z.leb_spec n (zlen s)); [exists s; split; [done|]; split; [done|lia]|].
  rewrite (proj2 (Z.ltb_lt _ _)) by lia. eexists. split; [done|]. split; [apply Forall_app; split; [done|by apply Forall_replicate]|].
  rewrite length_app, length_replicate. lia.
Qed.

Lemma mwrite_ok s off bs : bytes_ok s → bytes_ok bs → 0 ≤ off → off + zlen bs ≤ zlen s →
  ∃ s', mwrite s off bs = Some s' ∧ bytes_ok s' ∧ zlen s' = zlen s.
Proof.
  intros Hs Hb Ho Hl. unfold mwrite. rewrite decide_True by lia. eexists. split; [done|]. split.
  - apply Forall_app. split; [by apply Forall_take|]. apply Forall_app. split; [done|by apply Forall_drop].
  - rewrite !length_app, length_take, length_drop. lia.
Qed.

Section growing.
Context (en : kenv).
Implicit Types (d : db) (c : gset dbkey).
Abbreviation safe p := (∀ d c, good d → ok en p d c leaves_good).

Lemma setrange_write_ok k s off value v e d c :
  good d → d !! k = Some (v, e) → bytes_ok s → zlen s ≤ max_len → 0 ≤ off → arg_ok value → off + zlen value ≤ 2 ^ 29 →
  ok en (setrange_write k s off value) d c leaves_good.
Proof.
  intros Hg Hk Hb Hl Ho [Hvb Hvl] Hs. unfold setrange_write. unfold u64. rewrite wrapu_id by (unfold in_u; pow2; lia).
  destruct (grow_ok s (off + zlen value)) as (s1 & -> & B1 & L1); [done|lia|]. ok_simp.
  destruct (mwrite_ok s1 off value) as (s2 & -> & B2 & L2); [done|done|lia|lia|]. ok_simp.
  assert (vok (VStr (StrRaw s2))) by (apply raw_ok; [done|unfold max_len in *; lia]). ok_run.
Qed.

Lemma unshare_ok {A} k o e (K : list Z → prog A) d c Q :
  d !! k = Some (VStr o, e) → obj_ok o → ok en (K (text o)) (<[k := (VStr (StrRaw (text o)), e)]> d) c Q →
  ok en (prog_bind K (dbUnshareStringValue k o)) d c Q.
Proof.
  intros Hd Ho H. unfold dbUnshareStringValue. destruct o as [s|v]; [|ok_run]. ok_simp. by rewrite insert_id in H.
Qed.

Definition setrange_fits (offset value : list Z) : Prop := ∀ off, string2ll offset = Some off → off + zlen value < 2 ^ 63.

Lemma setrange_safe id key offset value : arg_ok value → setrange_fits offset value → safe (setrangeCommand id key offset value).
Proof.
  intros Hv Hf d c Hg. unfold setrangeCommand. ok_args. ok_step; [|ok_run]. ok_step; [ok_run|]. ok_step; [ok_run|].
  assert (in_s 64 z) as Hz by (by eapply parse_range). specialize (Hf z Heqo). apply Z.ltb_ge in Heqb0.
  assert (s64 (z + zlen value) = z + zlen value) as E64.
  { apply wraps_id; [done|]. unfold in_s. change (2 ^ (64 - 1)) with (2 ^ 63). lia. }
  rewrite E64. rewrite Z.gtb_ltb. change (512 * 1024 * 1024) with (2 ^ 29). ok_step.
  - ok_step; [|ok_run]. ok_step; [ok_run|]. destruct (Z.ltb_spec (2 ^ 29) (z + zlen value)); [ok_run|]. ok_simp.
    eapply unshare_ok; [done|done|]. eapply setrange_write_ok; [|ok_at|by apply text_ok|by apply text_ok|lia|done|done].
    apply good_insert; [done|]. by apply text_ok.
  - ok_step; [ok_run|]. destruct (Z.ltb_spec (2 ^ 29) (z + zlen value)); [ok_run|]. ok_simp.
    unfold u64. rewrite wrapu_id by (unfold in_u; pow2; lia). destruct (newlen_ok (z + zlen value)) as (s & -> & B & L); [lia|].
    ok_step. eapply setrange_write_ok; [|ok_at|done|unfold max_len; lia|lia|done|done].
    apply good_insert; [done|]. apply raw_ok; [done|unfold max_len; lia].
Qed.
End growing.

(** ** Bits *)
Section bits.
Context (en : kenv).
Implicit Types (d : db) (c : gset dbkey).
Abbreviation safe p := (∀ d c, good d → ok en p d c leaves_good).

Lemma offset_ok {A} o hash bits (K : option Z → prog A) d c Q :
  ok en (K None) d c Q → (∀ off, 0 ≤ off < 2 ^ 32 → ok en (K (Some off)) d c Q) →
  ok en (prog_bind K (getBitOffsetFromArgument o hash bits)) d c Q.
Proof.
  intros Hn Hs. unfold getBitOffsetFromArgument. set (usehash := _ && _ && _). clearbody usehash.
  destruct (string2ll (if usehash then List.tl o else o)) as [z|] eqn:E; [|ok_run]. ok_step; [ok_run|]. apply Hs.
  apply orb_false_iff in Heqb as [H0%Z.ltb_ge H1]. rewrite Z.geb_leb in H1. apply Z.leb_gt in H1.
  apply string2ll_sound in E as [Hz _]. set (w := if usehash then s64 (z * bits) else z) in *.
  assert (in_s 64 w) as Hw by (unfold w; destruct usehash; [by apply wraps_range|done]).
  unfold u64 in H1. rewrite wrapu_id in H1 by (unfold in_s in Hw; change (2 ^ (64 - 1)) with (2 ^ 63) in Hw; unfold in_u; pow2; lia).
  rewrite Z.shiftr_div_pow2 in H1 by lia. change (2 ^ 3) with 8 in H1. change (2 ^ 32) with 4294967296. Z.div_mod_to_equations. lia.
Qed.

Lemma bit_string_ok {A} k maxbit (K : option (list Z) → prog A) d c Q :
  good d → 0 ≤ maxbit < 2 ^ 32 + 64 → (∀ c, ok en (K None) d c Q) →
  (∀ s e d c, good d → d !! k = Some (VStr (StrRaw s), e) → bytes_ok s → Z.shiftr maxbit 3 + 1 ≤ zlen s ≤ max_len → ok en (K (Some s)) d c Q) →
  ok en (prog_bind K (lookupStringForBitCommand k maxbit)) d c Q.
Proof.
  intros Hg Hm Hn Hs. assert (0 ≤ Z.shiftr maxbit 3 < max_len) as Hb.
  { rewrite Z.shiftr_div_pow2 by lia. change (2 ^ 3) with 8. unfold max_len. change (2 ^ 29) with 536870912. change (2 ^ 32) with 4294967296 in Hm.
    Z.div_mod_to_equations. lia. }
  unfold max_len in Hb. unfold lookupStringForBitCommand. ok_args. ok_step.
  - ok_step; [|ok_run; apply Hn]. ok_simp. apply ok_assoc. eapply unshare_ok; [done|done|].
    destruct (text_ok o) as [Ht Hl]; [done|]. destruct (grow_ok (text o) (Z.shiftr maxbit 3 + 1)) as (s & -> & B & L); [done|lia|].
    ok_run. eapply Hs; [|ok_at|done|unfold max_len in *; lia]. rewrite insert_insert_eq. apply good_insert; [done|]. apply raw_ok; [done|unfold max_len in *; lia].
  - destruct (newlen_ok (Z.shiftr maxbit 3 + 1)) as (s & -> & B & L); [lia|]. ok_run.
    eapply Hs; [|ok_at|done|unfold max_len; lia]. apply good_insert; [done|]. apply raw_ok; [done|unfold max_len; lia].
Qed.

Lemma setbit_safe id key offset bit : safe (setbitCommand id key offset bit).
Proof.
  intros d c Hg. unfold setbitCommand. ok_args. apply offset_ok; [ok_run|]. intros off Ho.
  ok_step; [|ok_run]. ok_step; [ok_run|]. ok_step; [ok_run|]. apply bit_string_ok; [done|lia|intros; ok_run|].
  intros s e d' c' Hg' Hk Hb [Hl Hl']. ok_simp.
  assert (0 ≤ Z.shiftr off 3) by (apply Z.shiftr_nonneg; lia). unfold get. rewrite decide_True by lia.
  destruct (lookup_lt_is_Some_2 s (Z.to_nat (Z.shiftr off 3))) as [x Hx]; [lia|]. rewrite Hx. ok_simp.
  match goal with |- context [mwrite s _ ?l] => destruct (mwrite_ok s (Z.shiftr off 3) l) as (s' & -> & B & L) end;
    [done|by constructor; [apply wrapu_range|constructor]|lia|cbn [length]; lia|].
  ok_simp. assert (vok (VStr (StrRaw s'))) by (apply raw_ok; [done|lia]). ok_run.
Qed.

Lemma getbit_safe id key offset : safe (getbitCommand id key offset).
Proof.
  intros d c Hg. unfold getbitCommand. ok_args. apply offset_ok; [ok_run|]. intros off Ho. ok_run. exfalso.
  apply Z.ltb_lt in Heqb. unfold get in Heqo0. assert (0 ≤ Z.shiftr off 3) by (apply Z.shiftr_nonneg; lia).
  rewrite decide_True in Heqo0 by lia. apply lookup_ge_None in Heqo0. lia.
Qed.

Lemma clip_ok n a b start stop : 0 ≤ n ≤ max_len → in_s 64 a → in_s 64 b → clip n a b = (start, stop) → 0 ≤ start ∧ stop < n.
Proof.
  intros Hn Ha Hb. unfold clip. set (a1 := if a <? 0 then s64 (n + a) else a). set (b1 := if b <? 0 then s64 (n + b) else b).
  rewrite Z.geb_leb. intros [= <- <-]. destruct (Z.ltb_spec a1 0), (Z.ltb_spec b1 0); (case_match eqn:E; [|apply Z.leb_gt in E]; lia).
Qed.

Lemma slice_ok p start stop : bytes_ok p → 0 ≤ start → stop < zlen p → start ≤ stop →
  ∃ bs, mread p start (stop - start + 1) = Some bs ∧ bytes_ok bs.
Proof.
  intros Hp H1 H2 H3. unfold mread. rewrite decide_True by lia. eexists. split; [done|]. by apply Forall_take, Forall_drop.
Qed.

Lemma count_ok {A} p start stop addr (K : Z → prog A) d c Q : bytes_ok p → 0 ≤ start → stop < zlen p → start ≤ stop → (∀ n, ok en (K n) d c Q) →
  ok en (prog_bind (λ bs, prog_bind K (lift (redisPopcount addr bs))) (lift (mread p start (stop - start + 1)))) d c Q.
Proof.
  intros Hp H1 H2 H3 H. destruct (slice_ok p start stop Hp H1 H2 H3) as (bs & -> & B). cbn [lift prog_bind].
  rewrite popcount_bits by done. apply H.
Qed.

Lemma bitcount_range_ok {A} args (K : option (option (Z * Z)) → prog A) d c Q :
  ok en (K None) d c Q → (∀ r, (∀ a b, r = Some (a, b) → in_s 64 a ∧ in_s 64 b) → ok en (K (Some r)) d c Q) →
  ok en (prog_bind K (bitcount_range args)) d c Q.
Proof.
  intros Hn Hs. unfold bitcount_range. ok_args. ok_run; apply Hs; [done|]. intros a b [= <- <-]. split; by eapply parse_range.
Qed.

Lemma bitcount_safe addr id key args : safe (bitcountCommand addr id key args).
Proof.
  intros d c Hg. unfold bitcountCommand. ok_args. ok_step; [|ok_run]. ok_step; [|ok_run].
  destruct (text_ok o) as [Ht Hl]; [done|]. ok_step. ok_simp. apply bitcount_range_ok; [ok_run|]. intros r Hr.
  destruct (match r with Some (a, b) => _ | None => false end); [ok_run|].
  destruct (match r with Some (a, b) => clip _ _ _ | None => _ end) as [start stop] eqn:E.
  assert (0 ≤ start ∧ stop < zlen (text o)) as [H1 H2].
  { destruct r as [[a b]|]; [destruct (Hr a b eq_refl); apply (clip_ok (zlen (text o)) a b); [lia|done..]|]. injection E as <- <-. lia. }
  rewrite Z.gtb_ltb. destruct (Z.ltb_spec stop start); [ok_run|]. apply count_ok; [done|done|done|done|]. intros n. ok_run.
Qed.

Lemma bitpos_range_ok {A} args (K : option (option (Z * option Z)) → prog A) d c Q :
  ok en (K None) d c Q → (∀ r, (∀ a b, r = Some (a, b) → in_s 64 a ∧ (∀ z, b = Some z → in_s 64 z)) → ok en (K (Some r)) d c Q) →
  ok en (prog_bind K (bitpos_range args)) d c Q.
Proof.
  intros Hn Hs. unfold bitpos_range. ok_args. ok_run; apply Hs; [done|..]; intros a b [= <- <-]; (split; [by eapply parse_range|]); [done|].
  intros z' [= <-]. by eapply parse_range.
Qed.

Lemma bitpos_reply_ok addr p bit start stop given : bytes_ok p → 0 ≤ start → stop < zlen p → is_Some (bitpos_reply addr p bit start stop given).
Proof.
  intros Hp H1 H2. unfold bitpos_reply. rewrite Z.gtb_ltb. destruct (Z.ltb_spec stop start); [done|].
  destruct (slice_ok p start stop) as (bs & -> & B); [done..|]. rewrite some_bind, bitpos_bits, some_bind by done. by destruct (_ && _ && _).
Qed.

Lemma bitpos_safe addr id key bit args : safe (bitposCommand addr id key bit args).
Proof.
  intros d c Hg. unfold bitposCommand. ok_args. ok_step; [|ok_run]. ok_step; [ok_run|]. ok_step; [ok_run|]. ok_step; [|ok_run]. ok_step; [|ok_run].
  destruct (text_ok o) as [Ht Hl]; [done|]. ok_step. ok_simp. apply bitpos_range_ok; [ok_run|]. intros r Hr.
  destruct (match r with Some (a, b) => _ | None => (0, _, _) end) as [[start stop] given] eqn:E.
  assert (0 ≤ start ∧ stop < zlen (text o)) as [H1 H2].
  { destruct r as [[a b]|]; [|injection E as <- <-; lia]. destruct (Hr a b eq_refl) as [Ha Hb]. apply (f_equal fst) in E. cbn [fst] in E.
    apply (clip_ok (zlen (text o)) a (default (zlen (text o) - 1) b)); [lia|done| |done]. destruct b as [b|]; [by apply Hb|]. unfold in_s, max_len in *. cbn [default]. pow2. lia. }
  destruct (bitpos_reply_ok addr (text o) (z =? 1) start stop given Ht H1 H2) as [n ->]. ok_run.
Qed.
End bits.

(** ** BITFIELD *)
Lemma field_get p o n : fits p o n → (n ≤ 64)%nat → ∃ u, getUnsignedBitfield p (Z.of_nat o) n = Some u ∧ 0 ≤ u < 2 ^ Z.of_nat n.
Proof.
  intros Hf Hn. exists (val (take n (drop o (bits_of p)))). split; [by apply (get_bits_ok p n o [])|].
  pose proof (val_range (take n (drop o (bits_of p)))) as Hr. rewrite length_take, length_drop, bits_length in Hr.
  unfold fits in Hf. by rewrite Nat.min_l in Hr by lia.
Qed.

Lemma field_get_signed p o n : fits p o n → (0 < n < 64)%nat → is_Some (getSignedBitfield p (Z.of_nat o) n).
Proof.
  intros Hf Hn. destruct (field_get p o n Hf) as (u & E & Hu); [lia|]. rewrite (getSigned_ok p _ n u) by (done || lia).
  by rewrite (proj2 (Nat.eqb_neq n 64)) by lia.
Qed.

(** Below 64 bits the checks are defined. *)
Lemma check_defined (signed : bool) value incr n ow : (n < 64)%nat →
  is_Some ((if signed then checkSignedBitfieldOverflow else checkUnsignedBitfieldOverflow) value incr n ow).
Proof.
  intros Hn. destruct signed; unfold checkSignedBitfieldOverflow, checkUnsignedBitfieldOverflow; rewrite high_mask_ok by done;
    repeat case_match; done.
Qed.

Record op_ok (o : bitfieldOp) : Prop := {
  op_offset : 0 ≤ bf_offset o < 2 ^ 32;
  op_bits : 1 ≤ bf_bits o < 64
}.

Lemma op_fits o s : op_ok o → bf_offset o + bf_bits o ≤ 8 * zlen s → zlen s ≤ max_len → fits s (Z.to_nat (bf_offset o)) (Z.to_nat (bf_bits o)).
Proof. intros [Ho Hb] H1 H2. unfold fits, max_len in *. split; [lia|]. pow2. change (2 ^ 29) with 536870912 in H2. lia. Qed.

Lemma bf_read_ok o src : op_ok o → is_Some (bf_read o src).
Proof.
  intros [Ho Hb]. unfold bf_read. set (byte := Z.shiftr (bf_offset o) 3).
  assert (bf_offset o - byte * 8 = Z.of_nat (Z.to_nat (bf_offset o mod 8)) ∧ (Z.to_nat (bf_offset o mod 8) < 8)%nat) as [-> H8].
  { unfold byte. rewrite Z.shiftr_div_pow2 by lia. change (2 ^ 3) with 8. Z.div_mod_to_equations. lia. }
  assert (fits (copy9 (default [] src) (Z.to_nat byte)) (Z.to_nat (bf_offset o mod 8)) (Z.to_nat (bf_bits o))) as Hf.
  { unfold fits, copy9. rewrite length_map, length_seq. split; [lia|done]. }
  destruct (bf_sign o); [by apply field_get_signed; [|lia]|]. destruct (field_get _ _ _ Hf) as (u & -> & _); [lia|]. done.
Qed.

Lemma bf_write_ok o s : op_ok o → bytes_ok s → bf_offset o + bf_bits o ≤ 8 * zlen s → zlen s ≤ max_len →
  ∃ r s', bf_write o s = Some (r, s') ∧ bytes_ok s' ∧ zlen s' = zlen s.
Proof.
  intros Hop Hs Hl Hm. pose proof (op_fits o s Hop Hl Hm) as Hf. destruct Hop as [Ho Hb]. unfold bf_write.
  set (n := Z.to_nat (bf_bits o)) in *. assert (0 < n < 64)%nat as Hn by lia. rewrite <- (Z2Nat.id (bf_offset o)) by lia.
  set (off := Z.to_nat (bf_offset o)) in *.
  assert (∀ v, ∃ s', setUnsignedBitfield s (Z.of_nat off) n v = Some s' ∧ bytes_ok s' ∧ zlen s' = zlen s) as Hset.
  { intros v. destruct (setUnsignedBitfield_ok n v s off Hf Hs) as (s' & E & B & L & _). exists s'. split; [done|]. split; [done|lia]. }
  destruct (bf_sign o).
  - destruct (field_get_signed s off n Hf Hn) as [old ->]. rewrite some_bind.
    pose proof (λ v i, check_defined true v i n (bf_owtype o) ltac:(lia)) as Hc. cbn in Hc.
    destruct (Hc old (bf_i64 o)) as [[r1 w1] E1], (Hc (bf_i64 o) 0) as [[r2 w2] E2]. rewrite E1, E2.
    unfold setSignedBitfield. destruct (bool_decide _); rewrite some_bind.
    + destruct (if r1 =? 0 then _ else w1) as [v|]; [|by eexists _, _]. destruct (Hset (u64 v)) as (s' & -> & B & L). by eexists _, _.
    + destruct (if r2 =? 0 then _ else w2) as [v|]; [|by eexists _, _]. destruct (Hset (u64 v)) as (s' & -> & B & L). by eexists _, _.
  - destruct (field_get s off n Hf) as (old & -> & _); [lia|]. rewrite some_bind.
    pose proof (λ v i, check_defined false v i n (bf_owtype o) ltac:(lia)) as Hc. cbn in Hc.
    destruct (Hc old (bf_i64 o)) as [[r1 w1] E1], (Hc (u64 (bf_i64 o)) 0) as [[r2 w2] E2]. rewrite E1, E2.
    destruct (bool_decide _); rewrite some_bind.
    + destruct (if r1 =? 0 then _ else w1) as [v|]; [|by eexists _, _]. destruct (Hset v) as (s' & -> & B & L). by eexists _, _.
    + destruct (if r2 =? 0 then _ else w2) as [v|]; [|by eexists _, _]. destruct (Hset v) as (s' & -> & B & L). by eexists _, _.
Qed.

Definition is_get (o : bitfieldOp) : Prop := bf_opcode o = BITFIELDOP_GET.

(** What the parser guarantees. *)
Record parsed_ok (st : bfparse) : Prop := {
  pa_highest : 0 ≤ bp_highest st < 2 ^ 32 + 64;
  pa_ops : Forall op_ok (bp_ops st);
  pa_write : Forall (λ o, is_get o ∨ (bp_readonly st = false ∧ bf_offset o + bf_bits o - 1 ≤ bp_highest st)) (bp_ops st)
}.

(** The type [i64], for which reading a negative number is undefined. *)
Definition i64_type (a : list Z) : Prop := a !! 0%nat = Some 105 ∧ string2ll (cstr (List.tl a)) = Some 64.

Section bitfield.
Context (en : kenv).
Implicit Types (d : db) (c : gset dbkey).

Lemma type_ok {A} o (K : option (bool * Z) → prog A) d c Q :
  ¬ i64_type o → ok en (K None) d c Q → (∀ sign bits, 1 ≤ bits < 64 → ok en (K (Some (sign, bits))) d c Q) →
  ok en (prog_bind K (getBitfieldTypeFromArgument o)) d c Q.
Proof.
  intros Hi Hn Hs. unfold getBitfieldTypeFromArgument. set (sign := match o with c :: _ => _ | [] => None end).
  destruct sign as [b|] eqn:Es; [|ok_run]. destruct (string2ll _) as [z|] eqn:E; [|ok_run]. ok_step; [ok_run|]. apply Hs.
  apply orb_false_iff in Heqb0 as [[H1%Z.ltb_ge H2]%orb_false_iff H3]. rewrite Z.gtb_ltb in H2, H3.
  assert (z ≠ 64 ∨ b = false) as Hz.
  { destruct b; [|by right]. left. intros ->. apply Hi. split; [|done]. unfold sign in Es. destruct o as [|x o]; [done|].
    destruct (Z.eqb_spec x 105) as [->|]; [done|]. by destruct (x =? 117). }
  destruct b; cbn [negb andb] in *.
  - apply Z.ltb_ge in H2. destruct Hz; [lia|done].
  - apply Z.ltb_ge in H3. lia.
Qed.

Lemma parse_op_ok {A} opc type offset val st (K : option bfparse → prog A) d c Q :
  ¬ i64_type type → parsed_ok st → (opc = BITFIELDOP_GET ∨ is_Some val) → ok en (K None) d c Q →
  (∀ st, parsed_ok st → ok en (K (Some st)) d c Q) → ok en (prog_bind K (parse_op opc type offset val st)) d c Q.
Proof.
  intros Hi [H1 H2 H3] Hv Hn Hs. unfold parse_op. apply ok_assoc, type_ok; [done|ok_run|]. intros sign bits Hb. ok_simp.
  apply ok_assoc, offset_ok; [ok_run|]. intros off Ho. ok_args. assert (∀ i64, op_ok (BitfieldOp off i64 opc (bp_owtype st) bits sign)) as Hop by done.
  destruct val as [val|]; ok_run; apply Hs; split; cbn [bp_highest bp_ops bp_readonly]; try lia.
  - apply Forall_app. split; [done|]. by apply Forall_singleton.
  - apply Forall_app. split; [eapply Forall_impl; [exact H3|]|apply Forall_singleton; right; cbn; split; [done|lia]].
    cbn. intros o [?|[? ?]]; [by left|right; split; [done|lia]].
  - apply Forall_app. split; [done|]. by apply Forall_singleton.
  - apply Forall_app. split; [done|]. apply Forall_singleton. left. by destruct Hv as [->|[? ?]].
Qed.

Lemma overflow_ok {A} sub a st (K : option bfparse → prog A) d c Q :
  parsed_ok st → ok en (K None) d c Q → (∀ st, parsed_ok st → ok en (K (Some st)) d c Q) → ok en (prog_bind K (parse_overflow sub a st)) d c Q.
Proof. intros [H1 H2 H3] Hn Hs. unfold parse_overflow. ok_run. by apply Hs. Qed.

Lemma parse_ops_ok {A} n : ∀ args st (K : option bfparse → prog A) d c Q,
  (length args ≤ n)%nat → Forall (λ a, ¬ i64_type a) args → parsed_ok st → ok en (K None) d c Q →
  (∀ st, parsed_ok st → ok en (K (Some st)) d c Q) → ok en (prog_bind K (parse_ops args st)) d c Q.
Proof.
  induction n as [|n IH]; intros args st K d c Q Hl Ha Hst Hn Hs; (destruct args as [|sub [|a1 r1]]; cbn [parse_ops]; [by apply Hs|ok_run; done|]);
    [simpl in Hl; lia|].
  apply Forall_cons in Ha as [_ Ha]. pose proof Ha as [Ha1 Hr1]%Forall_cons. simpl in Hl. unfold and_then.
  assert (∀ st r, parsed_ok st → (length r ≤ n)%nat → Forall (λ a, ¬ i64_type a) r →
    ok en (prog_bind K (match Some st with Some st => parse_ops r st | None => Ret None end)) d c Q) as Hnext.
  { intros st' r Hst' Hr Hf. by apply IH. }
  assert (ok en (prog_bind K (r ← parse_overflow sub a1 st; match r with Some st => parse_ops r1 st | None => Ret None end)) d c Q) as Hov.
  { apply ok_assoc, overflow_ok; [done|done|]. intros st' Hst'. apply Hnext; [done|lia|done]. }
  destruct r1 as [|a2 r2]; [exact Hov|]. apply Forall_cons in Hr1 as [_ Hr2]. simpl in Hl.
  destruct (is_option sub "get").
  { apply ok_assoc, parse_op_ok; [done|done|by left|done|]. intros st' Hst'. apply Hnext; [done|lia|done]. }
  destruct r2 as [|a3 r3]; [exact Hov|]. apply Forall_cons in Hr2 as [_ Hr3]. simpl in Hl.
  destruct (is_option sub "set"); [|destruct (is_option sub "incrby"); [|exact Hov]].
  - apply ok_assoc, parse_op_ok; [done|done|by right|done|]. intros st' Hst'. apply Hnext; [done|lia|done].
  - apply ok_assoc, parse_op_ok; [done|done|by right|done|]. intros st' Hst'. apply Hnext; [done|lia|done].
Qed.

Lemma bf_execute_ok k ops : ∀ s n (K : Z → prog unit) d c,
  good d → Forall op_ok ops →
  (Forall is_get ops ∨ ∃ b e, s = Some b ∧ d !! k = Some (VStr (StrRaw b), e) ∧ bytes_ok b ∧ zlen b ≤ max_len ∧
     Forall (λ o, is_get o ∨ bf_offset o + bf_bits o ≤ 8 * zlen b) ops) →
  (∀ n d c, good d → ok en (K n) d c leaves_good) → ok en (prog_bind K (bf_execute k ops s n)) d c leaves_good.
Proof.
  induction ops as [|o ops IH]; intros s n K d c Hg Hops Hs HK; cbn [bf_execute]; [by apply HK|].
  apply Forall_cons in Hops as [Ho Hops]. case_bool_decide as Hget.
  - destruct (bf_read_ok o s Ho) as [v ->]. ok_simp. ok_step. apply IH; [done|done| |done].
    destruct Hs as [Hs|(b & e & -> & Hd & Hb & Hl & Hw)]; [left; by apply Forall_cons in Hs as [_ ?]|].
    right. exists b, e. apply Forall_cons in Hw as [_ Hw]. done.
  - destruct Hs as [[? _]%Forall_cons|(b & e & -> & Hd & Hb & Hl & Hw)]; [done|]. apply Forall_cons in Hw as [[?|Hw1] Hw]; [done|]. ok_simp.
    destruct (bf_write_ok o b Ho Hb Hw1 Hl) as (r & b' & -> & Hb' & Hl'). ok_simp. ok_step. ok_step.
    apply IH; [apply good_insert; [done|apply raw_ok; [done|lia]]|done| |done].
    right. exists b', e. split; [done|]. split; [ok_at|]. split; [done|]. split; [lia|]. by rewrite Hl'.
Qed.
End bitfield.

Lemma bitfield_safe en id key args d c :
  Forall (λ a, ¬ i64_type a) args → good d → ok en (bitfieldCommand id key args) d c leaves_good.
Proof.
  intros Ha Hg. unfold bitfieldCommand. eapply (parse_ops_ok en _ args); [done|done|by split|ok_run|]. intros st [H1 H2 H3].
  assert (∀ k s d c, good d →
    (Forall is_get (bp_ops st) ∨ ∃ b e, s = Some b ∧ d !! k = Some (VStr (StrRaw b), e) ∧ bytes_ok b ∧ zlen b ≤ max_len ∧
      Forall (λ o, is_get o ∨ bf_offset o + bf_bits o ≤ 8 * zlen b) (bp_ops st)) →
    ok en (Reply (RMultiLen (zlen (bp_ops st)));; changes ← bf_execute k (bp_ops st) s 0;
           if changes =? 0 then Ret () else SignalModified k;; NotifyEvent NOTIFY_STRING "setbit" k;; Dirty changes) d c leaves_good) as Hex.
  { intros k s d' c' Hg' Hs. ok_step. apply bf_execute_ok; [done|done|done|]. intros n d'' c'' Hg''. ok_run. }
  destruct (bp_readonly st) eqn:Er.
  - assert (Forall is_get (bp_ops st)) as Hget by (eapply Forall_impl; [exact H3|]; by intros o [?|[? _]]).
    ok_args. ok_step; [|apply Hex; [done|by left]]. ok_step; [|ok_run]. ok_step. apply Hex; [done|by left].
  - apply ok_assoc, bit_string_ok; [done|done|intros; ok_run|]. intros s e d' c' Hg' Hd Hb [Hl Hm]. ok_simp. apply Hex; [done|]. right.
    exists s, e. split; [done|]. split; [done|]. split; [done|]. split; [done|]. eapply Forall_impl; [exact H3|].
    intros o [?|[_ ?]]; [by left|right]. rewrite Z.shiftr_div_pow2 in Hl by lia. change (2 ^ 3) with 8 in Hl. Z.div_mod_to_equations. lia.
Qed.

(** ** Commands and histories *)
Inductive command :=
  | CDel (keys : list (list Z)) | CExists (keys : list (list Z)) | CTouch (keys : list (list Z)) | CType (key : list Z)
  | CRename (src dst : list Z) (nx : bool) | CMove (key db : list Z)
  | CExpire (key param : list Z) | CExpireat (key param : list Z) | CPexpire (key param : list Z) | CPexpireat (key param : list Z)
  | CTtl (key : list Z) | CPttl (key : list Z)
  | CSet (key val : list Z) (options : list (list Z)) | CSetnx (key val : list Z) | CSetex (key secs val : list Z) | CPsetex (key ms val : list Z)
  | CGet (key : list Z) | CGetset (key val : list Z) | CSetrange (key offset val : list Z) | CGetrange (key start stop : list Z)
  | CMget (keys : list (list Z)) | CMset (args : list (list Z)) | CMsetnx (args : list (list Z))
  | CIncr (key : list Z) | CDecr (key : list Z) | CIncrby (key n : list Z) | CDecrby (key n : list Z)
  | CAppend (key val : list Z) | CStrlen (key : list Z)
  | CSetbit (key offset bit : list Z) | CGetbit (key offset : list Z)
  | CBitcount (addr : Z) (key : list Z) (args : list (list Z)) | CBitpos (addr : Z) (key bit : list Z) (args : list (list Z))
  | CBitfield (key : list Z) (args : list (list Z)).

Definition exec (id : Z) (cmd : command) : prog unit :=
  match cmd with
  | CDel keys => delCommand id keys
  | CExists keys => existsCommand id keys
  | CTouch keys => touchCommand id keys
  | CType key => typeCommand id key
  | CRename src dst nx => renameGenericCommand id src dst nx
  | CMove key db => moveCommand id key db
  | CExpire key p => expireCommand id key p
  | CExpireat key p => expireatCommand id key p
  | CPexpire key p => pexpireCommand id key p
  | CPexpireat key p => pexpireatCommand id key p
  | CTtl key => ttlGenericCommand id key false
  | CPttl key => ttlGenericCommand id key true
  | CSet key v o => setCommand id key v o
  | CSetnx key v => setnxCommand id key v
  | CSetex key s v => setexCommand id key s v
  | CPsetex key s v => psetexCommand id key s v
  | CGet key => getCommand id key
  | CGetset key v => getsetCommand id key v
  | CSetrange key o v => setrangeCommand id key o v
  | CGetrange key s e => getrangeCommand id key s e
  | CMget keys => mgetCommand id keys
  | CMset args => msetCommand id args
  | CMsetnx args => msetnxCommand id args
  | CIncr key => incrCommand id key
  | CDecr key => decrCommand id key
  | CIncrby key n => incrbyCommand id key n
  | CDecrby key n => decrbyCommand id key n
  | CAppend key v => appendCommand id key v
  | CStrlen key => strlenCommand id key
  | CSetbit key o b => setbitCommand id key o b
  | CGetbit key o => getbitCommand id key o
  | CBitcount addr key args => bitcountCommand addr id key args
  | CBitpos addr key b args => bitposCommand addr id key b args
  | CBitfield key args => bitfieldCommand id key args
  end.

(** Arguments are strings of bytes below the limit of the protocol; the offset of SETRANGE does not overflow and BITFIELD
    does not use the type [i64]. *)
Definition command_ok (cmd : command) : Prop :=
  match cmd with
  | CSet _ v _ | CSetnx _ v | CSetex _ _ v | CPsetex _ _ v | CGetset _ v | CAppend _ v => arg_ok v
  | CSetrange _ o v => arg_ok v ∧ setrange_fits o v
  | CMset args | CMsetnx args => Forall arg_ok args
  | CBitfield _ args => Forall (λ a, ¬ i64_type a) args
  | _ => True
  end.

Lemma reply_safe en (p : prog Z) d c : ok en p d c leaves_good → ok en (n ← p; Reply (RInt n)) d c leaves_good.
Proof. intros H. apply ok_bind. eapply ok_mono; [|exact H]. intros n d' c' Hg. ok_run. Qed.

Lemma exec_safe en id cmd d c : command_ok cmd → good d → ok en (exec id cmd) d c leaves_good.
Proof.
  intros Hc Hg. destruct cmd; cbn [exec command_ok] in *;
    first [apply reply_safe; first [by apply del_safe | by apply exists_safe | by apply touch_safe] | idtac];
    unfold msetCommand, msetnxCommand, incrCommand, decrCommand, expireatCommand, pexpireatCommand;
    first [ by apply type_safe | by apply rename_safe | by apply move_safe | by apply expire_safe | by apply ttl_safe
          | by apply setCommand_safe | by apply set_safe; [apply encoding_ok|] | by apply getCommand_safe | by apply getset_safe
          | by apply getrange_safe | by apply mget_safe | by apply mset_safe | by apply incr_safe
          | by apply incrby_safe | by apply decrby_safe | by apply append_safe | by apply strlen_safe | by apply setbit_safe
          | by apply getbit_safe | by apply bitcount_safe | by apply bitpos_safe | by apply bitfield_safe
          | (apply ok_env; by apply expire_safe) | (destruct Hc; by apply setrange_safe) ].
Qed.

(** The time is that of [en] now: what has expired is gone, and nothing was looked up. *)
Definition alive (en : kenv) (x : dbkey * (value * option Z)) : bool := match x.2.2 with Some w => negb (dead en w) | None => true end.
Definition tick (en : kenv) (a : astate) : astate :=
  AState (filter (λ x, alive en x = true) (adb a)) ∅ (adirty a) (alog a) (areplies a).

Lemma tick_live en en' s k : know en ≤ know en' →
  live en' s k = (x ← live en s k; match x.2 with Some w => if dead en' w then None else Some x | None => Some x end).
Proof.
  intros Ht. unfold live. destruct (kdict s !! k) as [v|]; [|done]. rewrite !some_bind. destruct (kexpires s !! k) as [w|]; [|done].
  destruct (dead en w) eqn:Ed; [|done]. cbn. replace (dead en' w) with true; [done|]. symmetry. unfold dead in *.
  apply andb_true_iff in Ed as [-> ?%Z.ltb_lt]. apply Z.ltb_lt. lia.
Qed.

Lemma tick_ok en en' s a : abs en s a → know en ≤ know en' → abs en' s (tick en' a).
Proof.
  intros [H1 H2 H3 H4 H5 H6] Ht. split; try done. intros k. rewrite (tick_live en en' s k Ht), <- H2. cbn [tick adb].
  destruct (adb a !! k) as [[v [w|]]|] eqn:E; cbn.
  - destruct (dead en' w) eqn:Ed; [apply map_lookup_filter_None_2; right; intros x Hx; rewrite E in Hx; injection Hx as <-; unfold alive; cbn; by rewrite Ed|].
    apply map_lookup_filter_Some_2; [done|]. unfold alive. cbn. by rewrite Ed.
  - by apply map_lookup_filter_Some_2.
  - apply map_lookup_filter_None_2. by left.
Qed.

Lemma tick_good en a : good (adb a) → good (adb (tick en a)).
Proof. intros Hg k v e H. cbn [tick adb] in H. apply map_lookup_filter_Some in H as [H _]. by eapply Hg. Qed.

(** A history: the environment of each command, the database its client has selected, and the command. *)
Abbreviation history := (list (kenv * Z * command)).

Fixpoint hist (h : history) (s : kserver) : option kserver :=
  match h with [] => Some s | (en, id, cmd) :: h => '(_, s) ← run en (exec id cmd) s; hist h s end.

Fixpoint ahist (h : history) (a : astate) : option astate :=
  match h with [] => Some a | (en, id, cmd) :: h => '(_, a) ← arun en (exec id cmd) (tick en a); ahist h a end.

Fixpoint hist_ok (t : Z) (h : history) : Prop :=
  match h with
  | [] => True
  | (en, _, cmd) :: h => masterhost en = false ∧ loading en = false ∧ t ≤ know en ∧ command_ok cmd ∧ hist_ok (know en) h
  end.

Lemma hist_refines h : ∀ t s a,
  hist_ok t h → good (adb a) → (∀ en, t ≤ know en → abs en s (tick en a)) →
  ∃ s' a', hist h s = Some s' ∧ ahist h a = Some a' ∧ ∃ t', ∀ en, t' ≤ know en → abs en s' (tick en a').
Proof.
  induction h as [|[[en id] cmd] h IH]; intros t s a Hh Hg Ha; cbn [hist ahist]; [exists s, a; split; [done|]; split; [done|by exists t]|].
  destruct Hh as (Hm & Hl & Ht & Hc & Hh). destruct (exec_safe en id cmd (adb (tick en a)) (aclean (tick en a)) Hc) with (a := tick en a) as ([] & a1 & E & Hg1);
    [by apply tick_good|done|done|]. rewrite E, some_bind.
  destruct (run_ok en Hm Hl (exec id cmd) s (tick en a) () a1 (Ha en Ht) E) as (s1 & -> & Ha1). rewrite some_bind.
  apply (IH (know en)); [done|done|]. intros en' Hen. by apply (tick_ok en).
Qed.

Definition server0 : kserver := KServer ∅ ∅ 0 [] [].
Definition astate0 : astate := AState ∅ ∅ 0 [] [].

Lemma empty_ok en : abs en server0 (tick en astate0).
Proof. split; try done. Qed.

