(* ===== verification/KeySpec.v ===== *)
(** * What commands on strings answer, and where they go wrong

    Functional theorems on the concrete server, obtained through the abstract
    data base of [Keyspace], and the executions that refute what one would
    expect: PERSIST on an expired key, offsets, decrements and times that
    overflow, and a move that no transaction notices. *)

From S2P Require Import Prelude Decimal Util SdsNum StringObj Notify Keyspace KeyCmd StrCmd Bitmap BitCmd KeyProps.

(** ** The abstract data base of a server *)
Definition abstract_of (en : kenv) (s : kserver) : astate :=
  AState (map_imap (λ k _, live en s k) (kdict s)) ∅ (kdirty s) (filter (λ e, visible e = true) (klog s)) (kreplies s).

Lemma abstract_ok en s : kinv s → abs en s (abstract_of en s).
Proof.
  intros Hi. split; try done. intros k. cbn [abstract_of adb]. rewrite map_lookup_imap.
  destruct (kdict s !! k) as [v|] eqn:E; [done|]. unfold live. by rewrite E.
Qed.

Section master.
Context (en : kenv) (Hmaster : masterhost en = false) (Hload : loading en = false).

Lemma through_abs {A} (p : prog A) s x a' : kinv s → arun en p (abstract_of en s) = Some (x, a') → ∃ s', run en p s = Some (x, s') ∧ abs en s' a'.
Proof. intros Hi. apply (run_ok en Hmaster Hload). by apply abstract_ok. Qed.

Lemma live_at s k : kinv s → adb (abstract_of en s) !! k = live en s k.
Proof. intros Hi. apply (abstract_ok en s Hi). Qed.

(** One operation of a program. *)
Lemma arun_do {A R} (o : op R) (K : R → prog A) a r a' x : astep en o a = Some (r, a') → arun en (K r) a' = x → arun en (Do o K) a = x.
Proof. intros E <-. cbn [arun]. by rewrite E, some_bind. Qed.
End master.

(** Runs a program whose operations are determined by what is known. *)
Ltac run_step :=
  ok_simp; eapply arun_do; [cbn [astep adb aclean set_clean set_adb a_log fmap option_fmap option_map fst];
    rewrite ?lookup_insert_eq, ?some_bind; repeat match goal with E : _ !! _ = _ |- _ => rewrite E end; cbn [fmap option_fmap option_map fst];
    first [rewrite decide_True by (split; [set_solver|done]); reflexivity | rewrite decide_True by set_solver; reflexivity | reflexivity] |].

Section texts.
Context (en : kenv) (Hmaster : masterhost en = false) (Hload : loading en = false).

(** SET with no options. *)
Lemma set_run id key v s : kinv s →
  ∃ s', run en (setCommand id key v []) s = Some ((), s') ∧ kinv s' ∧ kreplies s' = kreplies s ++ [ROk] ∧
    (∀ k, live en s' k = if decide (k = (id, key)) then Some (VStr (tryObjectEncoding (StrRaw v)), None) else live en s k).
Proof.
  intros Hi. set (k := (id, key)). set (w := tryObjectEncoding (StrRaw v)). set (a := abstract_of en s).
  assert (∃ a', arun en (setCommand id key v []) a = Some ((), a') ∧ areplies a' = areplies a ++ [ROk] ∧ adb a' = <[k := (VStr w, None)]> (adb a)) as (a' & E & Hr & Hd).
  { unfold setCommand. cbn [set_options]. fold k. unfold setGenericCommand, set_expire_arg. change (has_flag OBJ_SET_NO_FLAGS OBJ_SET_NX) with false.
    change (has_flag OBJ_SET_NO_FLAGS OBJ_SET_XX) with false. unfold setKey. fold w.
    destruct (adb a !! k) as [[v0 e0]|] eqn:Ek; (eexists; split; [repeat run_step; reflexivity|]); cbn; rewrite ?insert_insert_eq; done. }
  destruct (through_abs en Hmaster Hload _ s () a' Hi E) as (s' & Es & Ha). exists s'. split; [done|]. split; [apply Ha|].
  split; [rewrite (ab_replies _ _ _ Ha); exact Hr|]. intros k'. rewrite <- (ab_view _ _ _ Ha), Hd. unfold a. case_decide as Hk.
  - by rewrite Hk, lookup_insert_eq.
  - rewrite lookup_insert_ne by done. by rewrite live_at.
Qed.

Definition in_time (s : kserver) (k : dbkey) : option value := fst <$> live en s k.

Lemma get_run id key o s : kinv s → in_time s (id, key) = Some (VStr o) → obj_ok o →
  ∃ s', run en (getCommand id key) s = Some ((), s') ∧ kreplies s' = kreplies s ++ [RBulk (text o)].
Proof.
  intros Hi Hk Ho. set (k := (id, key)) in *. set (a := abstract_of en s).
  assert (∃ a', arun en (getCommand id key) a = Some ((), a') ∧ areplies a' = areplies a ++ [RBulk (text o)]) as (a' & E & Hr).
  { unfold in_time in Hk. rewrite <- live_at in Hk by done. fold a in Hk. destruct (adb a !! k) as [[v0 e0]|] eqn:Ek; [|done]. injection Hk as ->.
    unfold getCommand, getGenericCommand, lookupKeyReadOrReply, addReplyBulk. fold k.
    eexists. split; [run_step; ok_simp; rewrite decoded_ok by done; repeat run_step; reflexivity|]. done. }
  destruct (through_abs en Hmaster Hload _ s () a' Hi E) as (s' & Es & Ha). exists s'. split; [done|]. by rewrite (ab_replies _ _ _ Ha).
Qed.
End texts.

(** C34: what SET stores, GET returns, at any later time, byte for byte: also when the string was encoded as a number, and
    whatever was stored under the key before and however soon that was to expire. *)
Theorem set_get en en' id key v s :
  masterhost en = false → loading en = false → masterhost en' = false → loading en' = false → kinv s → arg_ok v →
  ∃ s1 s2, run en (setCommand id key v []) s = Some ((), s1) ∧ run en' (getCommand id key) s1 = Some ((), s2) ∧
    kreplies s2 = kreplies s ++ [ROk; RBulk v].
Proof.
  intros Hm Hl Hm' Hl' Hi Hv. destruct (set_run en Hm Hl id key v s Hi) as (s1 & E1 & Hi1 & R1 & L1).
  specialize (L1 (id, key)). rewrite decide_True in L1 by done.
  destruct (get_run en' Hm' Hl' id key (tryObjectEncoding (StrRaw v)) s1 Hi1) as (s2 & E2 & R2); [|by apply encoding_ok|].
  { unfold in_time. unfold live in *. apply bind_Some in L1 as (v1 & Hd & He). rewrite Hd. cbn.
    destruct (kexpires s1 !! (id, key)) as [w|]; [by destruct (dead en w)|]. by injection He as ->. }
  exists s1, s2. split; [done|]. split; [done|]. rewrite R2, R1, encoding_text, <- app_assoc. done.
Qed.

Definition env_at (t : Z) : kenv := KEnv false false None t 16 false false false.

Lemma set_get_witness :
  ∃ s1 s2, run (env_at 5) (setCommand 0 (of_string "k") (of_string "-12") []) server0 = Some ((), s1) ∧
    run (env_at 9) (getCommand 0 (of_string "k")) s1 = Some ((), s2) ∧ kreplies s2 = [ROk; RBulk (of_string "-12")].
Proof.
  apply (set_get (env_at 5) (env_at 9) 0 (of_string "k") (of_string "-12") server0); try done.
  split; [by repeat constructor|done].
Defined.

(** ** Numbers *)

(** The number a key holds: 0 if there is no key, [None] if it is not a number. *)
Definition number_at (en : kenv) (s : kserver) (k : dbkey) : option Z :=
  match in_time en s k with
  | None => Some 0
  | Some (VStr o) => getLongLongFromObject (Some o)
  | Some (VOther _ _) => None
  end.

(** The test of [incrDecrCommand] before it adds. *)
Lemma overflow_test n incr : in_s 64 n → in_s 64 incr →
  ((incr <? 0) && (n <? 0) && (incr <? LLONG_MIN - n)) || ((incr >? 0) && (n >? 0) && (incr >? LLONG_MAX - n)) = negb (bool_decide (in_s 64 (n + incr))).
Proof.
  intros Hn Hi. assert (∀ b : bool, (b = true ↔ ¬ in_s 64 (n + incr)) → b = negb (bool_decide (in_s 64 (n + incr)))) as Hb.
  { intros b Hb. destruct (decide (in_s 64 (n + incr))); [rewrite bool_decide_eq_true_2 by done|rewrite bool_decide_eq_false_2 by done]; destruct b; naive_solver. }
  apply Hb. clear Hb. unfold in_s, LLONG_MIN, LLONG_MAX in *. change (2 ^ (64 - 1)) with (2 ^ 63) in *. assert (0 < 2 ^ 63) as HM by done.
  rewrite !Z.gtb_ltb, orb_true_iff, !andb_true_iff, !Z.ltb_lt. lia.
Qed.

(** C35: INCR, DECR and INCRBY add exactly or refuse: if the sum fits 64 bits it is stored, keeps the time to live and is the
    reply, otherwise the client gets an error and no key changes. *)
Theorem incr_exact en id key n incr s :
  masterhost en = false → loading en = false → kinv s → number_at en s (id, key) = Some n → in_s 64 n → in_s 64 incr →
  ∃ s', run en (incrDecrCommand id key incr) s = Some ((), s') ∧
    if bool_decide (in_s 64 (n + incr)) then
      kreplies s' = kreplies s ++ [RInt (n + incr)] ∧
      (∀ k, live en s' k = if decide (k = (id, key)) then Some (VStr (StrInt (n + incr)), x ← live en s k; x.2) else live en s k)
    else kreplies s' = kreplies s ++ [RError "increment or decrement would overflow"] ∧ (∀ k, live en s' k = live en s k).
Proof.
  intros Hm Hl Hi Hk Hn Hc. set (k := (id, key)) in *. set (a := abstract_of en s).
  pose proof (live_at en s k Hi) as Hlive. fold a in Hlive. unfold number_at, in_time in Hk. rewrite <- Hlive in Hk.
  assert (∃ a', arun en (incrDecrCommand id key incr) a = Some ((), a') ∧
    if bool_decide (in_s 64 (n + incr)) then areplies a' = areplies a ++ [RInt (n + incr)] ∧ adb a' = <[k := (VStr (StrInt (n + incr)), x ← adb a !! k; x.2)]> (adb a)
    else areplies a' = areplies a ++ [RError "increment or decrement would overflow"] ∧ adb a' = adb a) as (a' & E & Hr).
  { unfold incrDecrCommand, checkString, getLongLongFromObjectOrReply. fold k.
    assert (bool_decide (in_s 64 (n + incr)) = true → s64 (n + incr) = n + incr) as H64 by (intros Hb%bool_decide_eq_true; by apply wraps_id).
    pose proof (overflow_test n incr Hn Hc) as Hov. destruct (bool_decide (in_s 64 (n + incr))) eqn:Eb; [specialize (H64 eq_refl)|];
      (destruct (adb a !! k) as [[v e]|] eqn:Ek; cbn [fmap option_fmap option_map fst] in Hk; [destruct v as [o|]; [|done]|injection Hk as <-]);
      (eexists; split; [run_step; ok_simp; rewrite ?Hk; cbn [getLongLongFromObject]; ok_simp; rewrite Hov; cbn [negb];
        unfold createStringObjectFromLongLong; rewrite ?H64; repeat run_step; reflexivity|]); done. }
  destruct (through_abs en Hm Hl _ s () a' Hi E) as (s' & Es & Ha). exists s'. split; [done|].
  rewrite (ab_replies _ _ _ Ha). destruct (bool_decide (in_s 64 (n + incr))); (destruct Hr as [Hr Hd]; split; [done|]); intros k';
    rewrite <- (ab_view _ _ _ Ha), Hd, <- !(live_at en s k' Hi); [|done].
  fold a. case_decide as Hk'; [rewrite Hk', lookup_insert_eq; done|by rewrite lookup_insert_ne].
Qed.

Lemma incr_exact_witness :
  ∃ s, hist [(env_at 1, 0, CSet (of_string "n") (of_string "41") [])] server0 = Some s ∧
    ∃ s', run (env_at 2) (incrDecrCommand 0 (of_string "n") 1) s = Some ((), s') ∧ kreplies s' = [ROk; RInt 42].
Proof.
  eexists. split; [vm_compute; reflexivity|]. set (s := KServer _ _ _ _ _).
  destruct (incr_exact (env_at 2) 0 (of_string "n") 41 1 s) as (s' & E & H); [done|done| |vm_compute; reflexivity|done|done|].
  - intros k w H. by destruct (lookup_empty_Some (M := gmap dbkey) k w H).
  - exists s'. split; [done|]. apply H.
Defined.

(** ** The two dictionaries *)
Lemma kinv_delete en s k : kinv s → kinv (dbDelete en s k).2.
Proof.
  intros Hi. unfold dbDelete. cbn [kdict set_expires].
  assert (∀ j w, delete k (kexpires s) !! j = Some w → j ≠ k ∧ is_Some (kdict s !! j)) as Hd.
  { intros j w [Hj Hw]%lookup_delete_Some. split; [done|by eapply Hi]. }
  destruct (kdict s !! k) as [v|] eqn:E; cbn [snd]; [apply log_if_kinv|]; intros j w Hj; cbn in *; destruct (Hd j w Hj) as [N H]; [|done].
  by rewrite lookup_delete_ne.
Qed.

Lemma kinv_expire en s k b s' : kinv s → expireIfNeeded en s k = Some (b, s') → kinv s'.
Proof.
  intros Hi. unfold expireIfNeeded. intros (w & _ & H)%bind_Some. repeat case_match; simplify_eq; try done.
  match goal with H : dbDelete _ ?x _ = _ |- _ => pose proof (kinv_delete en x k) as Hk; rewrite H in Hk end.
  apply Hk. unfold propagateExpire. by destruct (aof_on en).
Qed.

Lemma kinv_step {R} en (o : op R) s r s' : kinv s → step en o s = Some (r, s') → kinv s'.
Proof.
  intros Hi. destruct o; cbn [step].
  - unfold lookupKeyRead. intros ([b s1] & E & H)%bind_Some. apply (kinv_expire en s k b s1 Hi) in E. destruct (_ && _); by simplify_eq.
  - unfold lookupKeyWrite. intros ([b s1] & E & H)%bind_Some. apply (kinv_expire en s k b s1 Hi) in E. by simplify_eq.
  - intros ([b s1] & E & H)%bind_Some. apply (kinv_expire en s k b s1 Hi) in E. by simplify_eq.
  - unfold dbAdd. destruct (kdict s !! k) as [?|] eqn:E; [done|]. cbn. intros [= <- <-]. do 2 apply log_if_kinv. intros j w Hj. cbn.
    destruct (decide (j = k)) as [->|N]; [by rewrite lookup_insert_eq|]. rewrite lookup_insert_ne by done. by eapply Hi.
  - intros (s1 & E & [= <- <-])%bind_Some. unfold dbOverwrite in E. apply bind_Some in E as (? & _ & [= <-]). intros j w Hj. cbn.
    destruct (decide (j = k)) as [->|N]; [by rewrite lookup_insert_eq|]. rewrite lookup_insert_ne by done. by eapply Hi.
  - intros [= E]. pose proof (kinv_delete en s k Hi) as H. by rewrite E in H.
  - by intros [= <- <-].
  - intros (s1 & E & [= <- <-])%bind_Some. unfold setExpire in E. apply bind_Some in E as (v & Hv & [= <-]). intros j w Hj. cbn in *.
    destruct (decide (j = k)) as [->|N]; [by rewrite Hv|]. rewrite lookup_insert_ne in Hj by done. by eapply Hi.
  - intros (w & E & [= <- <-])%bind_Some. done.
  - unfold removeExpire. intros (v & E & [= <- <-])%bind_Some. intros j w Hj. cbn in Hj. apply lookup_delete_Some in Hj as [_ Hj]. by eapply Hi.
  - by intros [= <- <-].
  - by intros [= <- <-].
  - by intros [= <- <-].
  - by intros [= <- <-].
  - by intros [= <- <-].
  - by intros [= <- <-].
  - by intros [= <- <-].
  - done.
Qed.

(** C36: whatever a command does, on a master, on a slave or while loading: a key with a time to live is in the dictionary. *)
Theorem expires_within_dict {A} en (p : prog A) : ∀ s x s', kinv s → run en p s = Some (x, s') → kinv s'.
Proof.
  induction p as [y|R o k IH]; intros s x s' Hi; cbn [run]; [by intros [= <- <-]|].
  intros ([r s1] & E & H)%bind_Some. eapply IH; [|exact H]. by eapply kinv_step.
Qed.

Lemma expires_within_dict_witness : ∃ s, run (env_at 7) (setexCommand 0 (of_string "k") (of_string "5") (of_string "v")) server0 = Some ((), s) ∧ kinv s.
Proof.
  eexists. split; [vm_compute; reflexivity|].
  refine (expires_within_dict (env_at 7) (setexCommand 0 (of_string "k") (of_string "5") (of_string "v")) server0 () _ _ _); [done|].
  vm_compute. reflexivity.
Defined.

(** ** Executions *)
Definition k0 : list Z := of_string "k".
Definition after (p : prog unit) (t : Z) (s : option kserver) : option kserver := s ← s; '(_, s) ← run (env_at t) p s; Some s.
Definition replies_of (s : option kserver) : option (list rep) := kreplies <$> s.



(** The limit of 512 MB is checked on a signed sum that overflows: SETRANGE with the greatest offset passes the check and asks
    for more memory than there is, which ends the server. *)
Theorem setrange_overflows : run (env_at 0) (setrangeCommand 0 k0 (of_string "9223372036854775807") (of_string "x")) server0 = None.
Proof. by vm_compute. Qed.

(** Numbers of the client are multiplied and negated without a check: a time to live in seconds that does not fit
    milliseconds makes a key that has expired already, decrementing by the least number gives a negative instead of an overflow, and
    an offset of BITFIELD that counts fields wraps around to the first bit. *)
Theorem arguments_overflow :
  replies_of (after (getCommand 0 k0) 10000 (after (setexCommand 0 k0 (of_string "9223372036854775807") (of_string "v")) 10000 (Some server0))) =
    Some [ROk; RNull] ∧
  replies_of (after (decrbyCommand 0 k0 (of_string "-9223372036854775808")) 0 (Some server0)) = Some [RInt (-9223372036854775808)] ∧
  replies_of (after (getCommand 0 k0) 0 (after (bitfieldCommand 0 k0 [of_string "set"; of_string "u8"; of_string "#2305843009213693952"; of_string "255"]) 0 (Some server0))) =
    Some [RMultiLen 1; RInt 0; RBulk [255]].
Proof. by vm_compute. Qed.

(** MOVE and PERSIST change keys and do not signal it, although the comment above [signalModifiedKey] says it is called every
    time a key is modified: a transaction that watches the key does not notice. *)
Theorem move_unsignalled :
  let signals s := filter (λ e, match e with EvSignal _ => true | _ => false end = true) <$> (klog <$> s) in
  let s := after (psetexCommand 0 k0 (of_string "50") (of_string "v")) 0 (Some server0) in
  signals s = Some [EvSignal (0, k0)] ∧ signals (after (moveCommand 0 k0 (of_string "1")) 10 s) = Some [EvSignal (0, k0)] ∧
  signals (after (persistCommand 0 k0) 10 s) = Some [EvSignal (0, k0)] ∧
  replies_of (after (getCommand 1 k0) 10 (after (moveCommand 0 k0 (of_string "1")) 10 s)) = Some [ROk; RInt 1; RBulk (of_string "v")].
Proof. by vm_compute. Qed.
