(* ===== verification/Zipmap.v ===== *)
(** * String maps in one block ([redis-3.2/src/zipmap.c])

    A zipmap is a byte with the number of entries, the entries and an end
    marker.  An entry is a key and a value with their lengths, and up to a few
    free bytes behind the value, so that a value can be changed in place.

    Pointers into the block are offsets.  [None] is an access outside the block
    or fuel that has run out.  The bytes a grown block gets are arbitrary
    ([junk]).  Byte order conversions do nothing on the little-endian host. *)

From S2P Require Import Prelude.

Definition ZIPMAP_BIGLEN : Z := 254.
Definition ZIPMAP_END : Z := 255.
Definition ZIPMAP_VALUE_MAX_FREE : Z := 4.
Definition ZIPMAP_LEN_BYTES (l : Z) : Z := if l <? ZIPMAP_BIGLEN then 1 else 4 + 1.

Definition zipmapNew : list Z := [0; ZIPMAP_END].

Definition zipmapDecodeLength (zm : list Z) (p : Z) : option Z :=
  len ← get zm p;
  if len <? ZIPMAP_BIGLEN then Some len else bs ← mread zm (p + 1) 4; Some (le_val bs).

(** The block and the number of bytes written; with [p] [NULL] it is [ZIPMAP_LEN_BYTES]. *)
Definition zipmapEncodeLength (zm : list Z) (p len : Z) : option (list Z * Z) :=
  if len <? ZIPMAP_BIGLEN then zm ← mwrite zm p [len]; Some (zm, 1)
  else zm ← mwrite zm p [ZIPMAP_BIGLEN]; zm ← mwrite zm (p + 1) (le_bytes 4 len); Some (zm, 1 + 4).

(** [totlen] tells whether the caller asked for the total length; the result is [k] and [p] at the end. *)
Fixpoint lookup_loop (fuel : nat) (zm : list Z) (key : option (list Z)) (totlen : bool) (p : Z) (k : option Z) : option (option Z * Z) :=
  match fuel with
  | O => None
  | S fuel =>
      c ← get zm p;
      if c =? ZIPMAP_END then Some (k, p) else
      l ← zipmapDecodeLength zm p;
      let llen := ZIPMAP_LEN_BYTES l in
      found ← match key, k with
              | Some key, None =>
                  if l =? zlen key then bs ← mread zm (p + llen) l; Some (bool_decide (bs = key)) else Some false
              | _, _ => Some false
              end;
      if (found : bool) && negb totlen then Some (Some p, p) else
      let k := if found then Some p else k in
      let p := p + u32 (llen + l) in
      l ← zipmapDecodeLength zm p;
      let p := p + ZIPMAP_LEN_BYTES l in
      free ← get zm p;
      lookup_loop fuel zm key totlen (p + u32 (l + 1 + free)) k
  end.

(** The entry and the total length, which is meaningful if it was asked for. *)
Definition zipmapLookupRaw (zm : list Z) (key : option (list Z)) (totlen : bool) : option (option Z * Z) :=
  '(k, p) ← lookup_loop (S (length zm)) zm key totlen 1 None; Some (k, u32 (u32 p + 1)).

Definition zipmapRequiredLength (klen vlen : Z) : Z :=
  let l := u32 (klen + vlen + 3) in
  let l := if klen >=? ZIPMAP_BIGLEN then u32 (l + 4) else l in
  if vlen >=? ZIPMAP_BIGLEN then u32 (l + 4) else l.

Definition zipmapRawKeyLength (zm : list Z) (p : Z) : option Z :=
  l ← zipmapDecodeLength zm p; Some (u32 (ZIPMAP_LEN_BYTES l + l)).

Definition zipmapRawValueLength (zm : list Z) (p : Z) : option Z :=
  l ← zipmapDecodeLength zm p;
  let used := ZIPMAP_LEN_BYTES l in
  f ← get zm (p + used);
  Some (u32 (used + (f + 1 + l))).

Definition zipmapRawEntryLength (zm : list Z) (p : Z) : option Z :=
  l ← zipmapRawKeyLength zm p;
  v ← zipmapRawValueLength zm (p + l);
  Some (u32 (l + v)).

Section alloc.
Context (junk : nat → Z).

Definition zipmapResize (zm : list Z) (len : Z) : option (list Z) := mwrite (zrealloc junk zm len) (len - 1) [ZIPMAP_END].

(** The end of [zipmapSet]: the entry at [p]. *)
Definition write_entry (zm : list Z) (p : Z) (key val : list Z) (vempty : Z) : option (list Z) :=
  '(zm, n) ← zipmapEncodeLength zm p (zlen key);
  let p := p + n in
  zm ← mwrite zm p key;
  let p := p + zlen key in
  '(zm, n) ← zipmapEncodeLength zm p (zlen val);
  let p := p + n in
  zm ← mwrite zm p [vempty];
  mwrite zm (p + 1) val.

(** Too much free space behind the entry is given back; the block and the number of free bytes that stay. *)
Definition place (zm : list Z) (p zmlen freelen reqlen : Z) : option (list Z * Z) :=
  let empty := u32 (freelen - reqlen) in
  if empty >=? ZIPMAP_VALUE_MAX_FREE then
    zm ← memmove zm (p + reqlen) (p + freelen) (u32 (zmlen - u32 (p + freelen + 1)));
    zm ← zipmapResize zm (u32 (zmlen - empty));
    Some (zm, 0)
  else Some (zm, empty).

(** [update] and the block. *)
Definition zipmapSet (zm key val : list Z) : option (bool * list Z) :=
  let reqlen := zipmapRequiredLength (zlen key) (zlen val) in
  '(k, zmlen) ← zipmapLookupRaw zm (Some key) true;
  '(update, zm, p, zmlen, freelen) ←
    match k with
    | None =>
        zm ← zipmapResize zm (u32 (zmlen + reqlen));
        let p := zmlen - 1 in
        n ← get zm 0;
        zm ← (if n <? ZIPMAP_BIGLEN then mwrite zm 0 [n + 1] else Some zm);
        Some (false, zm, p, u32 (zmlen + reqlen), reqlen)
    | Some p =>
        freelen ← zipmapRawEntryLength zm p;
        if freelen <? reqlen then
          zm ← zipmapResize zm (u32 (zmlen - freelen + reqlen));
          zm ← memmove zm (p + reqlen) (p + freelen) (u32 (zmlen - u32 (p + freelen + 1)));
          Some (true, zm, p, u32 (zmlen - freelen + reqlen), reqlen)
        else Some (true, zm, p, zmlen, freelen)
    end;
  '(zm, vempty) ← place zm p zmlen freelen reqlen;
  zm ← write_entry zm p key val vempty;
  Some (update : bool, zm).

(** [deleted] and the block. *)
Definition zipmapDel (zm key : list Z) : option (bool * list Z) :=
  '(k, zmlen) ← zipmapLookupRaw zm (Some key) true;
  match k with
  | Some p =>
      freelen ← zipmapRawEntryLength zm p;
      zm ← memmove zm p (p + freelen) (zmlen - (p + freelen + 1));
      zm ← zipmapResize zm (u32 (zmlen - freelen));
      n ← get zm 0;
      zm ← (if n <? ZIPMAP_BIGLEN then mwrite zm 0 [n - 1] else Some zm);
      Some (true, zm)
  | None => Some (false, zm)
  end.
End alloc.

Definition zipmapRewind : Z := 1.

(** What [zipmapNext] stores: the next entry, and where key and value are, with their lengths; the inner [None] is [NULL]. *)
Definition zipmapNext (zm : list Z) (p : Z) : option (option (Z * (Z * Z) * (Z * Z))) :=
  c ← get zm p;
  if c =? ZIPMAP_END then Some None else
  klen ← zipmapDecodeLength zm p;
  let key := p + ZIPMAP_LEN_BYTES klen in
  n ← zipmapRawKeyLength zm p;
  let p := p + n in
  vlen ← zipmapDecodeLength zm p;
  let value := p + 1 + ZIPMAP_LEN_BYTES vlen in
  n ← zipmapRawValueLength zm p;
  Some (Some (p + n, (key, klen), (value, vlen))).

Definition zipmapGet (zm key : list Z) : option (option (Z * Z)) :=
  '(k, _) ← zipmapLookupRaw zm (Some key) false;
  match k with
  | None => Some None
  | Some p =>
      n ← zipmapRawKeyLength zm p;
      let p := p + n in
      vlen ← zipmapDecodeLength zm p;
      Some (Some (p + ZIPMAP_LEN_BYTES vlen + 1, vlen))
  end.

Definition zipmapExists (zm key : list Z) : option bool :=
  '(k, _) ← zipmapLookupRaw zm (Some key) false; Some (bool_decide (is_Some k)).

Fixpoint zipmap_count (fuel : nat) (zm : list Z) (p : Z) (len : Z) : option Z :=
  match fuel with
  | O => None
  | S fuel =>
      r ← zipmapNext zm p;
      match r with None => Some len | Some (p, _, _) => zipmap_count fuel zm p (u32 (len + 1)) end
  end.

(** The length and the block, in which the length may be stored again. *)
Definition zipmapLen (zm : list Z) : option (Z * list Z) :=
  n ← get zm 0;
  if n <? ZIPMAP_BIGLEN then Some (n, zm) else
  len ← zipmap_count (S (length zm)) zm zipmapRewind 0;
  zm ← (if len <? ZIPMAP_BIGLEN then mwrite zm 0 [len] else Some zm);
  Some (len, zm).

Definition zipmapBlobLen (zm : list Z) : option Z := '(_, totlen) ← zipmapLookupRaw zm None true; Some totlen.

(** ** Entries *)
Record entry := Entry { e_key : list Z; e_val : list Z; e_slack : list Z }.

Definition len_enc (l : Z) : list Z := if l <? ZIPMAP_BIGLEN then [l] else ZIPMAP_BIGLEN :: le_bytes 4 l.
Definition key_enc (k : list Z) : list Z := len_enc (zlen k) ++ k.
Definition val_enc (v slack : list Z) : list Z := len_enc (zlen v) ++ [zlen slack] ++ v ++ slack.
Definition enc (e : entry) : list Z := key_enc (e_key e) ++ val_enc (e_val e) (e_slack e).
Definition encs (es : list entry) : list Z := concat (map enc es).

Lemma len_enc_length l : 0 ≤ l → zlen (len_enc l) = ZIPMAP_LEN_BYTES l.
Proof. intros H. unfold len_enc, ZIPMAP_LEN_BYTES. by destruct (l <? ZIPMAP_BIGLEN). Qed.

Lemma decode_ok A l R p : 0 ≤ l < 2 ^ 32 → p = zlen A → zipmapDecodeLength (A ++ len_enc l ++ R) p = Some l.
Proof.
  intros Hl ->. unfold zipmapDecodeLength, len_enc. destruct (Z.ltb_spec l ZIPMAP_BIGLEN) as [H|H].
  - rewrite (get_app A l R) by done. rewrite some_bind. by rewrite (proj2 (Z.ltb_lt _ _)).
  - rewrite <- app_comm_cons, (get_app A ZIPMAP_BIGLEN) by done. rewrite some_bind. change (ZIPMAP_BIGLEN <? ZIPMAP_BIGLEN) with false.
    change (A ++ ZIPMAP_BIGLEN :: le_bytes 4 l ++ R) with (A ++ [ZIPMAP_BIGLEN] ++ le_bytes 4 l ++ R). rewrite app_assoc.
    rewrite mread_app by (rewrite ?length_app, ?length_le_bytes; cbn; lia). rewrite some_bind, le_val_bytes.
    by rewrite wrapu_id by (unfold in_u; done).
Qed.

Lemma encode_ok A h R l p : length h = length (len_enc l) → p = zlen A → 0 ≤ l →
  zipmapEncodeLength (A ++ h ++ R) p l = Some (A ++ len_enc l ++ R, ZIPMAP_LEN_BYTES l).
Proof.
  intros Hh -> Hl. unfold zipmapEncodeLength. rewrite <- len_enc_length by done. revert Hh. unfold len_enc.
  destruct (Z.ltb_spec l ZIPMAP_BIGLEN); intros Hh.
  - rewrite mwrite_app by done. done.
  - destruct h as [|x h]; [done|]. simpl in Hh. rewrite <- app_comm_cons.
    change (A ++ x :: h ++ R) with (A ++ [x] ++ h ++ R). rewrite mwrite_app, some_bind by done. rewrite app_assoc.
    rewrite mwrite_app by (rewrite ?length_app, ?length_le_bytes; cbn; lia). rewrite some_bind, <- app_assoc. by rewrite length_cons, length_le_bytes.
Qed.

(** ** Blocks *)
Definition block (n : Z) (es : list entry) : list Z := [n] ++ encs es ++ [ZIPMAP_END].

Definition entry_ok (e : entry) : Prop := zlen (e_slack e) < ZIPMAP_VALUE_MAX_FREE ∧ zlen (enc e) < 2 ^ 32.

(** The number of entries, or a number that says they have to be counted. *)
Definition count_ok (n : Z) (es : list entry) : Prop := n = ZIPMAP_BIGLEN ∨ (n = zlen es ∧ n < ZIPMAP_BIGLEN).

Record rep (zm : list Z) (es : list entry) : Prop := {
  rp_block : ∃ n, zm = block n es ∧ count_ok n es;
  rp_keys : NoDup (map e_key es);
  rp_entries : Forall entry_ok es;
  rp_size : zlen zm < 2 ^ 32
}.

Lemma blk_cons e es : encs (e :: es) = enc e ++ encs es.
Proof. done. Qed.

Lemma blk_app a b : encs (a ++ b) = encs a ++ encs b.
Proof. unfold encs. by rewrite map_app, concat_app. Qed.

Lemma key_enc_length k : zlen (key_enc k) = ZIPMAP_LEN_BYTES (zlen k) + zlen k.
Proof. unfold key_enc. rewrite length_app, Nat2Z.inj_add, len_enc_length by lia. done. Qed.

Lemma val_enc_length v s : zlen (val_enc v s) = ZIPMAP_LEN_BYTES (zlen v) + 1 + zlen v + zlen s.
Proof. unfold val_enc. rewrite !length_app, !Nat2Z.inj_add, len_enc_length by lia. cbn [length]. lia. Qed.

Lemma enc_length e : zlen (enc e) = zlen (key_enc (e_key e)) + zlen (val_enc (e_val e) (e_slack e)).
Proof. unfold enc. rewrite length_app. lia. Qed.

Lemma len_bytes_pos l : 1 ≤ ZIPMAP_LEN_BYTES l ≤ 5.
Proof. unfold ZIPMAP_LEN_BYTES. destruct (l <? ZIPMAP_BIGLEN); lia. Qed.

Lemma entry_sizes e : entry_ok e →
  0 ≤ zlen (e_key e) < 2 ^ 32 ∧ 0 ≤ zlen (e_val e) < 2 ^ 32 ∧ zlen (key_enc (e_key e)) < 2 ^ 32 ∧ zlen (val_enc (e_val e) (e_slack e)) < 2 ^ 32 ∧
  3 ≤ zlen (enc e).
Proof.
  intros [_ H]. rewrite enc_length, key_enc_length, val_enc_length in *.
  pose proof (len_bytes_pos (zlen (e_key e))). pose proof (len_bytes_pos (zlen (e_val e))). lia.
Qed.

(** An entry does not start with the end marker. *)
Lemma enc_head A e R p : entry_ok e → p = zlen A → ∃ c, get (A ++ enc e ++ R) p = Some c ∧ (c =? ZIPMAP_END) = false.
Proof.
  intros He ->. unfold enc, key_enc, len_enc. destruct (Z.ltb_spec (zlen (e_key e)) ZIPMAP_BIGLEN).
  - exists (zlen (e_key e)). rewrite <- !app_assoc. split; [by apply get_app|]. unfold ZIPMAP_BIGLEN, ZIPMAP_END in *. lia.
  - exists ZIPMAP_BIGLEN. rewrite <- !app_assoc, <- app_comm_cons. split; [by apply get_app|done].
Qed.

Section at_entry.
Context (A R : list Z) (e : entry) (He : entry_ok e).
Abbreviation zm := (A ++ enc e ++ R).

Lemma key_len_at p : p = zlen A → zipmapDecodeLength zm p = Some (zlen (e_key e)).
Proof.
  intros ->. unfold enc, key_enc. rewrite <- !app_assoc. apply decode_ok; [|done]. destruct (entry_sizes e He) as (H & _). exact H.
Qed.

Lemma key_at p : p = zlen A + ZIPMAP_LEN_BYTES (zlen (e_key e)) → mread zm p (zlen (e_key e)) = Some (e_key e).
Proof.
  intros ->. unfold enc, key_enc. rewrite <- !app_assoc, app_assoc. apply mread_app; [|done]. rewrite length_app, Nat2Z.inj_add, len_enc_length by lia. lia.
Qed.

Lemma val_len_at p : p = zlen A + zlen (key_enc (e_key e)) → zipmapDecodeLength zm p = Some (zlen (e_val e)).
Proof.
  intros ->. unfold enc, val_enc. rewrite <- !app_assoc, app_assoc. apply decode_ok; [|rewrite length_app; lia].
  destruct (entry_sizes e He) as (_ & H & _). exact H.
Qed.

Lemma free_at p : p = zlen A + zlen (key_enc (e_key e)) + ZIPMAP_LEN_BYTES (zlen (e_val e)) → get zm p = Some (zlen (e_slack e)).
Proof.
  intros ->. unfold enc, val_enc. rewrite <- !app_assoc. cbn [app]. rewrite app_assoc, (app_assoc (A ++ _)).
  apply get_app. rewrite !length_app, !Nat2Z.inj_add, len_enc_length by lia. lia.
Qed.

Lemma val_at p : p = zlen A + zlen (key_enc (e_key e)) + ZIPMAP_LEN_BYTES (zlen (e_val e)) + 1 → mread zm p (zlen (e_val e)) = Some (e_val e).
Proof.
  intros ->. unfold enc, val_enc.
  replace (A ++ (key_enc (e_key e) ++ len_enc (zlen (e_val e)) ++ [zlen (e_slack e)] ++ e_val e ++ e_slack e) ++ R)
    with ((A ++ key_enc (e_key e) ++ len_enc (zlen (e_val e)) ++ [zlen (e_slack e)]) ++ e_val e ++ (e_slack e ++ R)) by (by rewrite <- !app_assoc).
  apply mread_app; [|done]. rewrite !length_app, !Nat2Z.inj_add, len_enc_length by lia. cbn [length]. lia.
Qed.

Lemma raw_key p : p = zlen A → zipmapRawKeyLength zm p = Some (zlen (key_enc (e_key e))).
Proof.
  intros ->. unfold zipmapRawKeyLength. rewrite key_len_at, some_bind by done. rewrite <- key_enc_length. f_equal. apply u32_id.
  destruct (entry_sizes e He) as (_ & _ & H & _). lia.
Qed.

Lemma raw_val p : p = zlen A + zlen (key_enc (e_key e)) → zipmapRawValueLength zm p = Some (zlen (val_enc (e_val e) (e_slack e))).
Proof.
  intros ->. unfold zipmapRawValueLength. rewrite val_len_at, some_bind, free_at, some_bind by done. f_equal.
  destruct (entry_sizes e He) as (_ & _ & _ & H & _). rewrite val_enc_length in *. rewrite u32_id; [lia|].
  pose proof (len_bytes_pos (zlen (e_val e))). lia.
Qed.

Lemma raw_entry p : p = zlen A → zipmapRawEntryLength zm p = Some (zlen (enc e)).
Proof.
  intros ->. unfold zipmapRawEntryLength. rewrite raw_key, some_bind, raw_val, some_bind by done. f_equal. rewrite <- enc_length.
  apply u32_id. destruct He as [_ H]. lia.
Qed.
End at_entry.

(** ** Looking up *)

(** Where the entry of a key is, the first entry at [p]. *)
Fixpoint find_pos (key : list Z) (es : list entry) (p : Z) : option Z :=
  match es with
  | [] => None
  | e :: es => if decide (e_key e = key) then Some p else find_pos key es (p + zlen (enc e))
  end.

Definition find_key (key : option (list Z)) (k : option Z) (es : list entry) (p : Z) : option Z :=
  match k with Some _ => k | None => match key with Some key => find_pos key es p | None => None end end.

Lemma end_at A R p : p = zlen A → get (A ++ [ZIPMAP_END] ++ R) p = Some ZIPMAP_END.
Proof. by apply get_app. Qed.

(** The comparison with the key at [p]. *)
Lemma found_at A e R p key (k : option Z) : entry_ok e → p = zlen A →
  match key, k with
  | Some key, None => if zlen (e_key e) =? zlen key then bs ← mread (A ++ enc e ++ R) (p + ZIPMAP_LEN_BYTES (zlen (e_key e))) (zlen (e_key e)); Some (bool_decide (bs = key)) else Some false
  | _, _ => Some false
  end = Some (match key, k with Some key, None => bool_decide (e_key e = key) | _, _ => false end : bool).
Proof.
  intros He ->. destruct key as [key|]; [|done]. destruct k; [done|]. destruct (Z.eqb_spec (zlen (e_key e)) (zlen key)) as [E|E].
  - by rewrite key_at, some_bind.
  - rewrite bool_decide_eq_false_2; [done|]. intros <-. done.
Qed.

Lemma lookup_loop_ok fuel key : ∀ es A k p,
  (length es < fuel)%nat → Forall entry_ok es → p = zlen A →
  lookup_loop fuel (A ++ encs es ++ [ZIPMAP_END]) key true p k = Some (find_key key k es p, zlen (A ++ encs es)).
Proof.
  induction fuel as [|fuel IH]; intros es A k p Hf He ->; [lia|]. cbn [lookup_loop]. destruct es as [|e es].
  - change (encs []) with (@nil Z). cbn [app]. rewrite (get_app A ZIPMAP_END []) by done. rewrite some_bind. cbn. rewrite app_nil_r.
    unfold find_key. by destruct k, key.
  - apply Forall_cons in He as [He Hes]. rewrite blk_cons, <- !app_assoc.
    destruct (enc_head A e (encs es ++ [ZIPMAP_END]) (zlen A) He eq_refl) as (c & -> & Hc). rewrite some_bind, Hc.
    rewrite key_len_at, some_bind, found_at, some_bind by done. cbn [negb]. rewrite andb_false_r.
    destruct (entry_sizes e He) as (H1 & H2 & H3 & H4 & _). rewrite <- key_enc_length, u32_id by lia.
    rewrite val_len_at, some_bind by done. rewrite free_at, some_bind by done.
    rewrite u32_id by (rewrite val_enc_length in H4; pose proof (len_bytes_pos (zlen (e_val e))); lia).
    assert (zlen A + zlen (key_enc (e_key e)) + ZIPMAP_LEN_BYTES (zlen (e_val e)) + (zlen (e_val e) + 1 + zlen (e_slack e)) = zlen (A ++ enc e)) as ->.
    { rewrite length_app, Nat2Z.inj_add, enc_length, val_enc_length. lia. }
    rewrite (app_assoc A (enc e)), IH by (done || simpl in Hf; lia). rewrite <- app_assoc. do 2 f_equal.
    unfold find_key. destruct key as [key|], k as [k|]; try done. cbn [find_pos]. rewrite length_app, Nat2Z.inj_add.
    case_bool_decide; case_decide; done.
Qed.

Lemma lookup_get_ok fuel key : ∀ es A p,
  (length es < fuel)%nat → Forall entry_ok es → p = zlen A →
  ∃ q, lookup_loop fuel (A ++ encs es ++ [ZIPMAP_END]) (Some key) false p None = Some (find_pos key es p, q).
Proof.
  induction fuel as [|fuel IH]; intros es A p Hf He ->; [lia|]. cbn [lookup_loop]. destruct es as [|e es].
  - change (encs []) with (@nil Z). cbn [app]. rewrite (get_app A ZIPMAP_END []) by done. rewrite some_bind. cbn. by eexists.
  - apply Forall_cons in He as [He Hes]. rewrite blk_cons, <- !app_assoc.
    destruct (enc_head A e (encs es ++ [ZIPMAP_END]) (zlen A) He eq_refl) as (c & -> & Hc). rewrite some_bind, Hc.
    rewrite key_len_at, some_bind by done.
    pose proof (found_at A e (encs es ++ [ZIPMAP_END]) (zlen A) (Some key) None He eq_refl) as Hfa. cbv beta iota in Hfa. rewrite Hfa, some_bind. clear Hfa.
    cbn [negb find_pos]. rewrite andb_true_r. case_bool_decide as Hk; [rewrite decide_True by done; by eexists|]. rewrite decide_False by done.
    destruct (entry_sizes e He) as (H1 & H2 & H3 & H4 & _). rewrite <- key_enc_length, u32_id by lia.
    rewrite val_len_at, some_bind by done. rewrite free_at, some_bind by done.
    rewrite u32_id by (rewrite val_enc_length in H4; pose proof (len_bytes_pos (zlen (e_val e))); lia).
    assert (zlen A + zlen (key_enc (e_key e)) + ZIPMAP_LEN_BYTES (zlen (e_val e)) + (zlen (e_val e) + 1 + zlen (e_slack e)) = zlen (A ++ enc e)) as ->.
    { rewrite length_app, Nat2Z.inj_add, enc_length, val_enc_length. lia. }
    rewrite (app_assoc A (enc e)). destruct (IH es (A ++ enc e) (zlen (A ++ enc e))) as (q & E); [simpl in Hf; lia|done|done|].
    rewrite E. exists q. do 2 f_equal. rewrite length_app, Nat2Z.inj_add. done.
Qed.

Lemma entries_fuel es : Forall entry_ok es → (length es ≤ length (encs es))%nat.
Proof.
  induction 1 as [|e es He _ IH]; [done|]. rewrite blk_cons, length_app. destruct (entry_sizes e He) as (_ & _ & _ & _ & H). simpl. lia.
Qed.

Lemma lookup_raw n key es : Forall entry_ok es → zlen (block n es) < 2 ^ 32 →
  zipmapLookupRaw (block n es) key true = Some (find_key key None es 1, zlen (block n es)).
Proof.
  intros He Hs. unfold zipmapLookupRaw, block in *. pose proof (entries_fuel es He).
  rewrite lookup_loop_ok by (done || rewrite !length_app; simpl; lia). rewrite some_bind. do 2 f_equal.
  rewrite !length_app in *. cbn [length] in *. rewrite !u32_id by (rewrite ?u32_id; lia). lia.
Qed.

Lemma find_pos_split key es : ∀ p, 
  match find_pos key es p with
  | Some q => ∃ a e b, es = a ++ e :: b ∧ e_key e = key ∧ (key ∉ map e_key a) ∧ q = p + zlen (encs a)
  | None => key ∉ map e_key es
  end.
Proof.
  induction es as [|e es IH]; intros p; cbn [find_pos]; [cbn; by apply not_elem_of_nil|]. case_decide as Hk.
  - exists [], e, es. split; [done|]. split; [done|]. split; [cbn; by apply not_elem_of_nil|cbn; lia].
  - specialize (IH (p + zlen (enc e))). destruct (find_pos key es (p + zlen (enc e))) as [q|].
    + destruct IH as (a & e' & b & -> & Hk' & Hn & ->). exists (e :: a), e', b. split; [done|]. split; [done|].
      split; [cbn; apply not_elem_of_cons; by split|]. rewrite blk_cons, length_app. lia.
    + cbn. apply not_elem_of_cons. by split.
Qed.

(** ** Storing *)
Definition need (k v : list Z) : Z := zlen (enc (Entry k v [])).

Lemma required_ok k v : need k v < 2 ^ 32 → zipmapRequiredLength (zlen k) (zlen v) = need k v.
Proof.
  unfold need, zipmapRequiredLength. rewrite enc_length, key_enc_length, val_enc_length. cbn [e_key e_val e_slack length]. unfold ZIPMAP_LEN_BYTES. intros H.
  rewrite !Z.geb_leb. rewrite (u32_id (zlen k + zlen v + 3)) by (repeat case_match; lia). destruct (Z.ltb_spec (zlen k) ZIPMAP_BIGLEN), (Z.ltb_spec (zlen v) ZIPMAP_BIGLEN);
    repeat match goal with |- context [ZIPMAP_BIGLEN <=? ?x] => destruct (Z.leb_spec ZIPMAP_BIGLEN x); try lia end;
    rewrite ?(u32_id (zlen k + zlen v + 3 + 4)) by lia; rewrite ?u32_id by lia; lia.
Qed.

Lemma write_entry_ok A hole slack R k v p :
  p = zlen A → zlen hole = need k v → zlen slack < ZIPMAP_VALUE_MAX_FREE →
  write_entry (A ++ hole ++ slack ++ R) p k v (zlen slack) = Some (A ++ enc (Entry k v slack) ++ R).
Proof.
  intros -> Hh Hs. unfold need in Hh. rewrite enc_length in Hh. unfold key_enc, val_enc in Hh. cbn [e_key e_val e_slack] in Hh.
  rewrite !length_app in Hh. cbn [length] in Hh.
  assert (∃ h1 h2 h3 x h4, hole = h1 ++ h2 ++ h3 ++ [x] ++ h4 ∧ length h1 = length (len_enc (zlen k)) ∧ length h2 = length k ∧
    length h3 = length (len_enc (zlen v)) ∧ length h4 = length v) as (h1 & h2 & h3 & x & h4 & -> & L1 & L2 & L3 & L4).
  { exists (take (length (len_enc (zlen k))) hole), (take (length k) (drop (length (len_enc (zlen k))) hole)).
    set (r := drop (length k) (drop (length (len_enc (zlen k))) hole)).
    assert (length r = (length (len_enc (zlen v)) + 1 + length v)%nat) as Lr by (unfold r; rewrite !length_drop; lia).
    destruct (drop (length (len_enc (zlen v))) r) as [|x h4] eqn:Ed; [apply (f_equal length) in Ed; rewrite length_drop in Ed; simpl in Ed; lia|].
    exists (take (length (len_enc (zlen v))) r), x, h4. apply (f_equal length) in Ed as Ll. rewrite length_drop in Ll. simpl in Ll.
    split; [|repeat split; rewrite ?length_take, ?length_drop; lia].
    change ([x] ++ h4) with (x :: h4). rewrite <- Ed, take_drop. unfold r. by rewrite !take_drop. }
  unfold write_entry. rewrite <- !app_assoc.
  rewrite (encode_ok A h1) by (done || lia). rewrite some_bind. cbn beta iota.
  rewrite (app_assoc A), mwrite_app by (done || (rewrite length_app, Nat2Z.inj_add, len_enc_length by lia; lia)). rewrite some_bind.
  rewrite (app_assoc (A ++ _) k). rewrite encode_ok by (done || (rewrite !length_app, !Nat2Z.inj_add, len_enc_length by lia; lia) || lia).
  rewrite some_bind. cbn beta iota.
  rewrite (app_assoc ((A ++ len_enc (zlen k)) ++ k)), mwrite_app by (done || (rewrite !length_app, !Nat2Z.inj_add, !len_enc_length by lia; lia)).
  rewrite some_bind. rewrite (app_assoc (((A ++ _) ++ k) ++ _) [zlen slack]), mwrite_app by (done || (rewrite !length_app, !Nat2Z.inj_add, !len_enc_length by lia; cbn [length]; lia)).
  f_equal. unfold enc, key_enc, val_enc. cbn [e_key e_val e_slack]. by rewrite <- !app_assoc.
Qed.

(** ** The map *)
Definition pairs (es : list entry) : list (list Z * list Z) := map (λ e, (e_key e, e_val e)) es.

Fixpoint aset (k v : list Z) (l : list (list Z * list Z)) : list (list Z * list Z) :=
  match l with
  | [] => [(k, v)]
  | x :: l => if decide (x.1 = k) then (k, v) :: l else x :: aset k v l
  end.

Fixpoint aget (k : list Z) (l : list (list Z * list Z)) : option (list Z) :=
  match l with [] => None | x :: l => if decide (x.1 = k) then Some x.2 else aget k l end.

Definition adel (k : list Z) (l : list (list Z * list Z)) : list (list Z * list Z) := filter (λ x, x.1 ≠ k) l.

Lemma aset_new k v es : k ∉ map e_key es → aset k v (pairs es) = pairs es ++ [(k, v)].
Proof.
  induction es as [|e es IH]; [done|]. cbn. intros [Hk Hn]%not_elem_of_cons. rewrite decide_False by congruence. f_equal. by apply IH.
Qed.

Lemma aset_old k v a e b s : k ∉ map e_key a → e_key e = k → aset k v (pairs (a ++ e :: b)) = pairs (a ++ Entry k v s :: b).
Proof.
  intros Hn Hk. induction a as [|e' a IH]; cbn; [by rewrite decide_True|]. cbn in Hn. apply not_elem_of_cons in Hn as [H1 H2].
  rewrite decide_False by congruence. f_equal. by apply IH.
Qed.

Lemma get_zero n l : get ([n] ++ l) 0 = Some n.
Proof. done. Qed.

Lemma block_split n a e b : block n (a ++ e :: b) = ([n] ++ encs a) ++ enc e ++ encs b ++ [ZIPMAP_END].
Proof. unfold block. rewrite blk_app, blk_cons, <- !app_assoc. done. Qed.

Lemma find_pos_at k a e b : ∀ p, k ∉ map e_key a → e_key e = k → find_pos k (a ++ e :: b) p = Some (p + zlen (encs a)).
Proof.
  induction a as [|x a IH]; intros p Hn Hk; cbn [app find_pos]; [rewrite decide_True by done; cbn; f_equal; lia|].
  cbn in Hn. apply not_elem_of_cons in Hn as [H1 H2]. rewrite decide_False by congruence. rewrite IH by done. f_equal. rewrite blk_cons, length_app. lia.
Qed.

Section proofs.
Context (junk : nat → Z).

(** Growing a block: the end marker is at the new end. *)
Lemma zipmap_grow zm len : zlen zm < len → ∃ e, zlen e = len - 1 - zlen zm ∧ zipmapResize junk zm len = Some (zm ++ e ++ [ZIPMAP_END]).
Proof.
  intros H. unfold zipmapResize. destruct (zrealloc_grow junk zm len) as (e & -> & He); [lia|].
  destruct (exists_last (l := e)) as (e0 & x & ->); [intros ->; cbn in He; lia|]. rewrite length_app in He. cbn [length] in He.
  exists e0. split; [lia|]. rewrite app_assoc, mwrite_end by (done || rewrite length_app; lia). by rewrite <- app_assoc.
Qed.

Lemma zipmap_shrink a x b len : len = zlen a + 1 → zipmapResize junk (a ++ x :: b) len = Some (a ++ [ZIPMAP_END]).
Proof.
  intros ->. unfold zipmapResize. change (x :: b) with ([x] ++ b). rewrite app_assoc, zrealloc_shrink by (rewrite length_app; cbn; lia).
  apply mwrite_end; [lia|done].
Qed.

Lemma set_new zm es k v : rep zm es → k ∉ map e_key es → zlen zm + need k v < 2 ^ 32 →
  ∃ zm', zipmapSet junk zm k v = Some (false, zm') ∧ rep zm' (es ++ [Entry k v []]) ∧ zlen zm' = zlen zm + need k v.
Proof.
  intros [(n & -> & Hc) Hn He Hs] Hk Hz. assert (0 < need k v) as Hpos.
  { unfold need. rewrite enc_length, key_enc_length. pose proof (len_bytes_pos (zlen k)). cbn [e_key]. lia. }
  unfold zipmapSet. rewrite required_ok, lookup_raw, some_bind by (done || lia). cbn [find_key].
  pose proof (find_pos_split k es 1) as Hf. destruct (find_pos k es 1) as [q|].
  { destruct Hf as (a & e & b & -> & <- & _). exfalso. apply Hk. rewrite map_app. cbn. set_solver. }
  rewrite u32_id by lia. destruct (zipmap_grow (block n es) (zlen (block n es) + need k v)) as (e & Le & ->); [lia|]. rewrite some_bind.
  replace (block n es ++ e ++ [ZIPMAP_END]) with ([n] ++ encs es ++ [ZIPMAP_END] ++ e ++ [ZIPMAP_END]) by (unfold block; by rewrite <- !app_assoc).
  rewrite get_zero, some_bind.
  set (n' := if n <? ZIPMAP_BIGLEN then n + 1 else n).
  assert ((if n <? ZIPMAP_BIGLEN then mwrite ([n] ++ encs es ++ [ZIPMAP_END] ++ e ++ [ZIPMAP_END]) 0 [n + 1] else Some ([n] ++ encs es ++ [ZIPMAP_END] ++ e ++ [ZIPMAP_END]))
    = Some ([n'] ++ encs es ++ [ZIPMAP_END] ++ e ++ [ZIPMAP_END])) as ->.
  { unfold n'. destruct (n <? ZIPMAP_BIGLEN); [|done]. by rewrite mwrite_start. }
  rewrite !some_bind. unfold place. rewrite Z.sub_diag. change (u32 0 >=? ZIPMAP_VALUE_MAX_FREE) with false. change (u32 0) with (zlen (@nil Z)). cbn beta iota. rewrite some_bind.
  assert (zlen (block n es) = zlen ([n'] ++ encs es) + 1) as Lb by (unfold block; rewrite !length_app; cbn [length]; lia).
  replace ([n'] ++ encs es ++ [ZIPMAP_END] ++ e ++ [ZIPMAP_END]) with (([n'] ++ encs es) ++ ([ZIPMAP_END] ++ e) ++ [] ++ [ZIPMAP_END]) by (by rewrite <- !app_assoc).
  rewrite write_entry_ok by (done || lia || (rewrite length_app; cbn [length]; lia)). rewrite some_bind. eexists. split; [done|].
  assert (([n'] ++ encs es) ++ enc (Entry k v []) ++ [ZIPMAP_END] = block n' (es ++ [Entry k v []])) as ->.
  { rewrite block_split. done. }
  assert (zlen (block n' (es ++ [Entry k v []])) = zlen (block n es) + need k v) as Lz.
  { rewrite block_split, !length_app. unfold block. rewrite !length_app. unfold need. cbn [length encs map concat]. lia. }
  split; [|done]. split; [|rewrite map_app; apply NoDup_app; split; [done|]; split; [set_solver|apply NoDup_singleton]| |lia].
  - exists n'. split; [done|]. unfold count_ok, n' in *. rewrite length_app. cbn [length].
    destruct (Z.ltb_spec n ZIPMAP_BIGLEN); [|destruct Hc as [->|]; [by left|lia]]. destruct Hc as [->|[-> Hc]]; [lia|].
    unfold ZIPMAP_BIGLEN in *. destruct (decide (zlen es + 1 = 254)); [by left|right; lia].
  - apply Forall_app. split; [done|]. apply Forall_singleton. split; [done|]. unfold need in Hz. pose proof (Nat2Z.is_nonneg (length (block n es))). lia.
Qed.

Lemma place_ok A E T reqlen : 0 ≤ reqlen ≤ zlen E → zlen (A ++ E ++ T ++ [ZIPMAP_END]) < 2 ^ 32 →
  ∃ hole slack, zlen hole = reqlen ∧ zlen slack < ZIPMAP_VALUE_MAX_FREE ∧ reqlen + zlen slack ≤ zlen E ∧
    place junk (A ++ E ++ T ++ [ZIPMAP_END]) (zlen A) (zlen (A ++ E ++ T ++ [ZIPMAP_END])) (zlen E) reqlen = Some (A ++ hole ++ slack ++ T ++ [ZIPMAP_END], zlen slack).
Proof.
  intros Hr Hs. unfold place. rewrite !length_app in *. cbn [length] in *. rewrite (u32_id (zlen E - reqlen)) by lia.
  exists (take (Z.to_nat reqlen) E). assert (zlen (take (Z.to_nat reqlen) E) = reqlen) as L1 by (rewrite length_take; lia).
  set (E1 := take (Z.to_nat reqlen) E) in *. set (E2 := drop (Z.to_nat reqlen) E).
  assert (E = E1 ++ E2) as EE by (unfold E1, E2; by rewrite take_drop). assert (zlen E2 = zlen E - reqlen) as L2 by (unfold E2; rewrite length_drop; lia).
  rewrite Z.geb_leb. destruct (Z.leb_spec ZIPMAP_VALUE_MAX_FREE (zlen E - reqlen)) as [H4|H4].
  - exists []. split; [done|]. split; [done|]. split; [cbn; lia|]. rewrite (u32_id (zlen A + zlen E + 1)) by lia.
    do 2 rewrite (u32_id (Z.of_nat (length A + _) - _)) by lia. replace (A ++ E ++ T ++ [ZIPMAP_END]) with (((A ++ E1) ++ E2 ++ T) ++ [ZIPMAP_END]) by (rewrite EE, <- !app_assoc; done).
    rewrite (memmove_frame ((A ++ E1) ++ E2 ++ T) [ZIPMAP_END] _ _ _ ((A ++ E1) ++ T ++ drop (length T) (E2 ++ T)))
      by (apply memmove_left; rewrite ?length_app; lia). rewrite some_bind, <- !app_assoc. set (rest := drop (length T) (E2 ++ T) ++ [ZIPMAP_END]).
    destruct rest as [|x rest'] eqn:Er; [unfold rest in Er; by destruct (drop (length T) (E2 ++ T))|].
    replace (A ++ E1 ++ T ++ x :: rest') with ((A ++ E1 ++ T) ++ x :: rest') by (by rewrite <- !app_assoc).
    rewrite zipmap_shrink by (rewrite !length_app; lia). rewrite some_bind. cbn [length app]. do 2 f_equal. by rewrite <- !app_assoc.
  - exists E2. split; [done|]. split; [lia|]. split; [lia|]. rewrite L2. do 2 f_equal. rewrite EE, <- !app_assoc. done.
Qed.

(** The entry that is too short is moved apart. *)
Lemma widen_ok A E T reqlen : zlen E < reqlen → zlen (A ++ E ++ T ++ [ZIPMAP_END]) + reqlen < 2 ^ 32 →
  ∃ E', zlen E' = reqlen ∧
    (zm ← zipmapResize junk (A ++ E ++ T ++ [ZIPMAP_END]) (u32 (zlen (A ++ E ++ T ++ [ZIPMAP_END]) - zlen E + reqlen));
     memmove zm (zlen A + reqlen) (zlen A + zlen E) (u32 (zlen (A ++ E ++ T ++ [ZIPMAP_END]) - u32 (zlen A + zlen E + 1)))) = Some (A ++ E' ++ T ++ [ZIPMAP_END]).
Proof.
  intros Hr Hs. set (zm := A ++ E ++ T ++ [ZIPMAP_END]) in *. assert (zlen zm = zlen A + zlen E + zlen T + 1) as Lz by (unfold zm; rewrite !length_app; cbn [length]; lia).
  rewrite (u32_id (zlen zm - zlen E + reqlen)), (u32_id (zlen A + zlen E + 1)), (u32_id (zlen zm - _)) by lia.
  destruct (zipmap_grow zm (zlen zm - zlen E + reqlen)) as (e & Le & ->); [lia|]. rewrite some_bind. set (X := [ZIPMAP_END] ++ e).
  assert (zlen X = reqlen - zlen E) as LX by (unfold X; rewrite length_app; cbn [length]; lia).
  exists (E ++ take (length X) (T ++ X)). split; [rewrite length_app, length_take, length_app; lia|].
  replace (zm ++ e ++ [ZIPMAP_END]) with (((A ++ E) ++ T ++ X) ++ [ZIPMAP_END]) by (unfold zm, X; by rewrite <- !app_assoc).
  rewrite (memmove_frame _ _ _ _ _ ((A ++ E) ++ take (length X) (T ++ X) ++ T)) by (apply memmove_right; rewrite ?length_app; lia).
  by rewrite <- !app_assoc.
Qed.

Lemma set_old zm a e b k v : rep zm (a ++ e :: b) → e_key e = k → k ∉ map e_key a → zlen zm + need k v < 2 ^ 32 →
  ∃ zm' s, zipmapSet junk zm k v = Some (true, zm') ∧ rep zm' (a ++ Entry k v s :: b) ∧ zlen zm' ≤ zlen zm + need k v.
Proof.
  intros [(n & -> & Hc) Hn He Hs] Hk Ha Hz. assert (0 < need k v) as Hpos.
  { unfold need. rewrite enc_length, key_enc_length. pose proof (len_bytes_pos (zlen k)). cbn [e_key]. lia. }
  unfold zipmapSet. rewrite required_ok, lookup_raw, some_bind by (done || lia). cbn [find_key].
  rewrite find_pos_at by done. set (A := [n] ++ encs a). replace (1 + zlen (encs a)) with (zlen A) by (unfold A; rewrite length_app; cbn [length]; lia).
  apply Forall_app in He as [Hea He]. apply Forall_cons in He as [He Heb]. rewrite block_split in *. fold A in Hz, Hs |- *. set (T := encs b) in *.
  rewrite raw_entry, some_bind by done.
  assert (∃ hole slack zm1 zmlen freelen, (if zlen (enc e) <? need k v then
      zm ← zipmapResize junk (A ++ enc e ++ T ++ [ZIPMAP_END]) (u32 (zlen (A ++ enc e ++ T ++ [ZIPMAP_END]) - zlen (enc e) + need k v));
      zm ← memmove zm (zlen A + need k v) (zlen A + zlen (enc e)) (u32 (zlen (A ++ enc e ++ T ++ [ZIPMAP_END]) - u32 (zlen A + zlen (enc e) + 1)));
      Some (true, zm, zlen A, u32 (zlen (A ++ enc e ++ T ++ [ZIPMAP_END]) - zlen (enc e) + need k v), need k v)
    else Some (true, A ++ enc e ++ T ++ [ZIPMAP_END], zlen A, zlen (A ++ enc e ++ T ++ [ZIPMAP_END]), zlen (enc e))) = Some (true, zm1, zlen A, zmlen, freelen) ∧
    place junk zm1 (zlen A) zmlen freelen (need k v) = Some (A ++ hole ++ slack ++ T ++ [ZIPMAP_END], zlen slack) ∧
    zlen hole = need k v ∧ zlen slack < ZIPMAP_VALUE_MAX_FREE ∧ need k v + zlen slack ≤ Z.max (need k v) (zlen (enc e))) as
    (hole & slack & zm1 & zmlen & freelen & -> & Hp & Lh & Ls & Lt).
  { destruct (Z.ltb_spec (zlen (enc e)) (need k v)) as [Hlt|Hge].
    - destruct (widen_ok A (enc e) T (need k v) Hlt Hz) as (E' & LE & Hw). apply bind_Some in Hw as (zm0 & -> & Hm). rewrite some_bind, Hm, some_bind.
      assert (u32 (zlen (A ++ enc e ++ T ++ [ZIPMAP_END]) - zlen (enc e) + need k v) = zlen (A ++ E' ++ T ++ [ZIPMAP_END])) as ->.
      { rewrite !length_app in *. rewrite u32_id; lia. }
      destruct (place_ok A E' T (need k v)) as (hole & slack & Lh & Ls & Lt & Hp); [lia|rewrite !length_app in *; lia|]. rewrite LE in Hp, Lt.
      exists hole, slack. do 3 eexists. split; [done|]. split; [exact Hp|]. split; [done|]. split; [done|lia].
    - destruct (place_ok A (enc e) T (need k v)) as (hole & slack & Lh & Ls & Lt & Hp); [lia|done|].
      exists hole, slack. do 3 eexists. split; [done|]. split; [exact Hp|]. split; [done|]. split; [done|lia]. }
  rewrite some_bind, Hp, some_bind. rewrite write_entry_ok, some_bind by done. eexists _, slack. split; [done|].
  assert (zlen (enc (Entry k v slack)) = need k v + zlen slack) as Lw.
  { unfold need. rewrite !enc_length, !val_enc_length. cbn [e_key e_val e_slack length]. lia. }
  assert (A ++ enc (Entry k v slack) ++ T ++ [ZIPMAP_END] = block n (a ++ Entry k v slack :: b)) as Eb by (rewrite block_split; done).
  split; [|rewrite !length_app in *; lia]. rewrite Eb. split.
  - exists n. split; [done|]. unfold count_ok in *. rewrite length_app in *. exact Hc.
  - rewrite map_app in *. cbn [map e_key] in *. by rewrite <- Hk.
  - apply Forall_app. split; [done|]. constructor; [|done]. split; [done|]. destruct He as [_ He]. rewrite Lw. rewrite !length_app in *. lia.
  - rewrite <- Eb, !length_app in *. lia.
Qed.

Lemma del_old zm a e b k : rep zm (a ++ e :: b) → e_key e = k → k ∉ map e_key a →
  ∃ zm', zipmapDel junk zm k = Some (true, zm') ∧ rep zm' (a ++ b) ∧ zlen zm' ≤ zlen zm.
Proof.
  intros [(n & -> & Hc) Hn He Hs] Hk Ha. unfold zipmapDel. rewrite lookup_raw, some_bind by done. cbn [find_key]. rewrite find_pos_at by done.
  set (A := [n] ++ encs a). replace (1 + zlen (encs a)) with (zlen A) by (unfold A; rewrite length_app; cbn [length]; lia).
  apply Forall_app in He as [Hea He]. apply Forall_cons in He as [He Heb]. rewrite block_split in *. fold A in Hs |- *. set (T := encs b) in *.
  rewrite raw_entry, some_bind by done. set (zm := A ++ enc e ++ T ++ [ZIPMAP_END]) in *.
  assert (zlen zm = zlen A + zlen (enc e) + zlen T + 1) as Lz by (unfold zm; rewrite !length_app; cbn [length]; lia).
  assert (memmove zm (zlen A) (zlen A + zlen (enc e)) (zlen zm - (zlen A + zlen (enc e) + 1)) = Some ((A ++ T ++ drop (length T) (enc e ++ T)) ++ [ZIPMAP_END])) as ->.
  { rewrite Lz. unfold zm. rewrite (app_assoc (enc e)), (app_assoc A). apply memmove_frame, memmove_left; rewrite ?length_app; lia. }
  rewrite some_bind, <- !app_assoc. set (rest := drop (length T) (enc e ++ T) ++ [ZIPMAP_END]).
  destruct rest as [|x rest'] eqn:Er; [unfold rest in Er; by destruct (drop (length T) (enc e ++ T))|]. rewrite (app_assoc A T (x :: rest')).
  rewrite zipmap_shrink by (rewrite u32_id, length_app by lia; lia). rewrite some_bind. unfold A. rewrite <- !app_assoc, get_zero, some_bind.
  set (n' := if n <? ZIPMAP_BIGLEN then n - 1 else n).
  assert ((if n <? ZIPMAP_BIGLEN then mwrite ([n] ++ encs a ++ T ++ [ZIPMAP_END]) 0 [n - 1] else Some ([n] ++ encs a ++ T ++ [ZIPMAP_END]))
    = Some (block n' (a ++ b))) as ->.
  { unfold n', block, T. rewrite blk_app, <- app_assoc. destruct (n <? ZIPMAP_BIGLEN); [|done]. by rewrite mwrite_start. }
  rewrite some_bind. eexists. split; [done|].
  assert (zlen (block n' (a ++ b)) = zlen A + zlen T + 1) as Lb by (unfold block, A, T; rewrite blk_app, !length_app; cbn [length]; lia).
  split; [|lia]. split; [| |by apply Forall_app|lia].
  - exists n'. split; [done|]. unfold count_ok, n' in *. rewrite !length_app in *. cbn [length] in Hc.
    destruct (Z.ltb_spec n ZIPMAP_BIGLEN); [|destruct Hc as [->|]; [by left|lia]]. destruct Hc as [->|[-> Hc]]; [lia|]. right. lia.
  - rewrite map_app in *. cbn [map] in Hn. apply NoDup_app in Hn as (N1 & N2 & N3). apply NoDup_cons in N3 as [_ N3]. apply NoDup_app.
    split; [done|]. split; [|done]. intros x' Hx Hb. apply (N2 x' Hx). by right.
Qed.

Lemma del_none zm es k : rep zm es → k ∉ map e_key es → zipmapDel junk zm k = Some (false, zm).
Proof.
  intros [(n & -> & Hc) Hn He Hs] Hk. unfold zipmapDel. rewrite lookup_raw, some_bind by done. cbn [find_key].
  pose proof (find_pos_split k es 1) as Hf. destruct (find_pos k es 1) as [q|]; [|done]. destruct Hf as (a & e & b & -> & <- & _).
  exfalso. apply Hk. rewrite map_app. cbn. set_solver.
Qed.
End proofs.

Lemma lookup_raw_get n key es : Forall entry_ok es → zlen (block n es) < 2 ^ 32 →
  ∃ q, zipmapLookupRaw (block n es) (Some key) false = Some (find_pos key es 1, q).
Proof.
  intros He Hs. unfold zipmapLookupRaw, block. pose proof (entries_fuel es He).
  destruct (lookup_get_ok (S (length ([n] ++ encs es ++ [ZIPMAP_END]))) key es [n] 1) as (q & E); [rewrite !length_app; simpl; lia|done|done|].
  rewrite E, some_bind. by eexists.
Qed.

(** The bytes [zipmapGet] points to. *)
Definition fetch (zm key : list Z) : option (option (list Z)) :=
  r ← zipmapGet zm key; match r with None => Some None | Some (p, l) => v ← mread zm p l; Some (Some v) end.

Lemma aget_split k es : 
  match aget k (pairs es) with
  | Some v => ∃ a e b, es = a ++ e :: b ∧ e_key e = k ∧ (k ∉ map e_key a) ∧ v = e_val e
  | None => k ∉ map e_key es
  end.
Proof.
  induction es as [|e es IH]; [cbn; by apply not_elem_of_nil|]. change (pairs (e :: es)) with ((e_key e, e_val e) :: pairs es).
  cbn [aget fst snd]. case_decide as Hk.
  - exists [], e, es. split; [done|]. split; [done|]. split; [cbn; by apply not_elem_of_nil|done].
  - destruct (aget k (pairs es)) as [v|].
    + destruct IH as (a & e' & b & -> & Hk' & Hn & ->). exists (e :: a), e', b. split; [done|]. split; [done|]. split; [|done].
      cbn. apply not_elem_of_cons. by split.
    + cbn. apply not_elem_of_cons. by split.
Qed.

Lemma get_spec zm es k : rep zm es → fetch zm k = Some (aget k (pairs es)).
Proof.
  intros [(n & -> & Hc) Hn He Hs]. unfold fetch, zipmapGet. destruct (lookup_raw_get n k es He Hs) as (q & ->). rewrite some_bind.
  pose proof (aget_split k es) as Hg. destruct (aget k (pairs es)) as [v|].
  - destruct Hg as (a & e & b & -> & Hk & Ha & ->). rewrite find_pos_at by done. apply Forall_app in He as [_ He]. apply Forall_cons in He as [He _].
    rewrite block_split. set (A := [n] ++ encs a). replace (1 + zlen (encs a)) with (zlen A) by (unfold A; rewrite length_app; cbn [length]; lia).
    rewrite raw_key, some_bind, val_len_at, some_bind by done. rewrite some_bind. by rewrite val_at.
  - pose proof (find_pos_split k es 1) as Hf. destruct (find_pos k es 1) as [p|]; [|done]. destruct Hf as (a & e & b & -> & <- & _).
    exfalso. apply Hg. rewrite map_app. cbn. set_solver.
Qed.

Lemma next_at A e R p : entry_ok e → p = zlen A →
  zipmapNext (A ++ enc e ++ R) p =
  Some (Some (zlen (A ++ enc e), (zlen A + ZIPMAP_LEN_BYTES (zlen (e_key e)), zlen (e_key e)),
              (zlen A + zlen (key_enc (e_key e)) + ZIPMAP_LEN_BYTES (zlen (e_val e)) + 1, zlen (e_val e)))).
Proof.
  intros He ->. unfold zipmapNext. destruct (enc_head A e R (zlen A) He eq_refl) as (c & -> & Hc). rewrite some_bind, Hc.
  rewrite key_len_at, some_bind, raw_key, some_bind, val_len_at, some_bind, raw_val, some_bind by done.
  rewrite length_app, Nat2Z.inj_add, enc_length, Z.add_assoc.
  by replace (zlen A + zlen (key_enc (e_key e)) + 1 + ZIPMAP_LEN_BYTES (zlen (e_val e)))
    with (zlen A + zlen (key_enc (e_key e)) + ZIPMAP_LEN_BYTES (zlen (e_val e)) + 1) by lia.
Qed.

Lemma count_loop fuel : ∀ es A n, (length es < fuel)%nat → Forall entry_ok es → 0 ≤ n → n + zlen es < 2 ^ 32 →
  zipmap_count fuel (A ++ encs es ++ [ZIPMAP_END]) (zlen A) n = Some (n + zlen es).
Proof.
  induction fuel as [|fuel IH]; intros es A n Hf He Hn Hl; [lia|]. cbn [zipmap_count]. destruct es as [|e es].
  - change (encs []) with (@nil Z). cbn [app]. unfold zipmapNext. rewrite (get_app A ZIPMAP_END []) by done. rewrite some_bind. cbn. f_equal. lia.
  - apply Forall_cons in He as [He Hes]. rewrite blk_cons, <- app_assoc, next_at, some_bind by done. cbn [length] in *.
    rewrite u32_id by lia. rewrite (app_assoc A (enc e)), IH by (done || lia). f_equal. lia.
Qed.

Lemma len_spec zm es : rep zm es → ∃ zm', zipmapLen zm = Some (zlen es, zm') ∧ rep zm' es ∧ zlen zm' = zlen zm.
Proof.
  intros [(n & -> & Hc) Hn He Hs]. unfold zipmapLen. change (get (block n es) 0) with (Some n). rewrite some_bind.
  destruct (Z.ltb_spec n ZIPMAP_BIGLEN) as [H|H].
  - destruct Hc as [->|[-> Hc]]; [lia|]. eexists. split; [done|]. split; [|done]. split; [|done|done|done]. eexists. split; [done|]. by right.
  - pose proof (entries_fuel es He) as Hfu. change zipmapRewind with (zlen [n]).
    assert (zipmap_count (S (length (block n es))) (block n es) (zlen [n]) 0 = Some (0 + zlen es)) as ->.
    { apply count_loop; (done || lia || (unfold block in *; rewrite !length_app in *; simpl in *; lia)). }
    rewrite some_bind, Z.add_0_l.
    destruct (Z.ltb_spec (zlen es) ZIPMAP_BIGLEN) as [Hb|Hb].
    + unfold block. rewrite mwrite_start, some_bind by done. eexists. split; [done|]. split; [|done].
      split; [exists (zlen es); split; [done|by right]|done|done|done].
    + rewrite some_bind. eexists. split; [done|]. split; [|done]. split; [|done|done|done]. by exists n.
Qed.

Lemma exists_spec zm es k : rep zm es → zipmapExists zm k = Some (bool_decide (is_Some (aget k (pairs es)))).
Proof.
  intros [(n & -> & Hc) Hn He Hs]. unfold zipmapExists. destruct (lookup_raw_get n k es He Hs) as (q & ->). rewrite some_bind. f_equal.
  apply bool_decide_ext. pose proof (aget_split k es) as Hg. pose proof (find_pos_split k es 1) as Hf.
  destruct (aget k (pairs es)) as [v|], (find_pos k es 1) as [p|]; [done| | |done].
  - destruct Hg as (a & e & b & -> & <- & _). exfalso. apply Hf. rewrite map_app. cbn. set_solver.
  - destruct Hf as (a & e & b & -> & <- & _). exfalso. apply Hg. rewrite map_app. cbn. set_solver.
Qed.

(** The loop of the comment above [zipmapNext]. *)
Fixpoint walk (fuel : nat) (zm : list Z) (p : Z) : option (list (list Z * list Z)) :=
  match fuel with
  | O => None
  | S fuel =>
      r ← zipmapNext zm p;
      match r with
      | None => Some []
      | Some (p, (k, klen), (v, vlen)) => k ← mread zm k klen; v ← mread zm v vlen; l ← walk fuel zm p; Some ((k, v) :: l)
      end
  end.

Lemma walk_ok fuel : ∀ es A, (length es < fuel)%nat → Forall entry_ok es →
  walk fuel (A ++ encs es ++ [ZIPMAP_END]) (zlen A) = Some (pairs es).
Proof.
  induction fuel as [|fuel IH]; intros es A Hf He; [lia|]. cbn [walk]. destruct es as [|e es].
  - change (encs []) with (@nil Z). cbn [app]. unfold zipmapNext. by rewrite (get_app A ZIPMAP_END []) by done.
  - apply Forall_cons in He as [He Hes]. rewrite blk_cons, <- app_assoc, next_at, some_bind by done. cbn [length] in *.
    rewrite key_at, some_bind, val_at, some_bind by (done || lia). rewrite (app_assoc A (enc e)), IH, some_bind by (done || lia). done.
Qed.

(** ** Histories *)
Inductive zop := ZSet (k v : list Z) | ZDel (k : list Z) | ZGet (k : list Z) | ZExists (k : list Z) | ZLen | ZBlob | ZAll.
Inductive zres := RFlag (b : bool) | RVal (v : option (list Z)) | RNum (n : Z) | RAll (l : list (list Z * list Z)).

Section history.
Context (junk : nat → Z).

Definition zstep (o : zop) (zm : list Z) : option (option zres * list Z) :=
  match o with
  | ZSet k v => '(b, zm) ← zipmapSet junk zm k v; Some (Some (RFlag b), zm)
  | ZDel k => '(b, zm) ← zipmapDel junk zm k; Some (Some (RFlag b), zm)
  | ZGet k => v ← fetch zm k; Some (Some (RVal v), zm)
  | ZExists k => b ← zipmapExists zm k; Some (Some (RFlag b), zm)
  | ZLen => '(n, zm) ← zipmapLen zm; Some (Some (RNum n), zm)
  | ZBlob => n ← zipmapBlobLen zm; Some (if n =? zlen zm then None else Some (RNum n), zm)
  | ZAll => l ← walk (S (length zm)) zm zipmapRewind; Some (Some (RAll l), zm)
  end.

Fixpoint zrun (os : list zop) (zm : list Z) : option (list (option zres) * list Z) :=
  match os with [] => Some ([], zm) | o :: os => '(r, zm) ← zstep o zm; '(rs, zm) ← zrun os zm; Some (r :: rs, zm) end.

(** The same on an association list; the size of the block is right, so that [ZBlob] has no result of its own. *)
Definition astep (o : zop) (l : list (list Z * list Z)) : option zres * list (list Z * list Z) :=
  match o with
  | ZSet k v => (Some (RFlag (bool_decide (is_Some (aget k l)))), aset k v l)
  | ZDel k => (Some (RFlag (bool_decide (is_Some (aget k l)))), adel k l)
  | ZGet k => (Some (RVal (aget k l)), l)
  | ZExists k => (Some (RFlag (bool_decide (is_Some (aget k l)))), l)
  | ZLen => (Some (RNum (zlen l)), l)
  | ZBlob => (None, l)
  | ZAll => (Some (RAll l), l)
  end.

Fixpoint arun (os : list zop) (l : list (list Z * list Z)) : list (option zres) * list (list Z * list Z) :=
  match os with [] => ([], l) | o :: os => let '(r, l) := astep o l in let '(rs, l) := arun os l in (r :: rs, l) end.

(** What an operation may add to the block. *)
Definition grows (o : zop) : Z := match o with ZSet k v => need k v | _ => 0 end.
Definition total (os : list zop) : Z := foldr (λ o n, grows o + n) 0 os.

Lemma need_nonneg k v : 0 ≤ need k v.
Proof. unfold need. lia. Qed.

Lemma adel_none k es : k ∉ map e_key es → adel k (pairs es) = pairs es.
Proof.
  unfold adel. induction es as [|e es IH]; [done|]. cbn [map]. intros [Hk Hn]%not_elem_of_cons. change (pairs (e :: es)) with ((e_key e, e_val e) :: pairs es).
  rewrite filter_cons_True by (cbn; congruence). f_equal. by apply IH.
Qed.

Lemma adel_old k a e b : NoDup (map e_key (a ++ e :: b)) → e_key e = k → adel k (pairs (a ++ e :: b)) = pairs (a ++ b).
Proof.
  intros Hn Hk. rewrite map_app in Hn. cbn [map] in Hn. apply NoDup_app in Hn as (_ & N2 & N3). apply NoDup_cons in N3 as [N3 _].
  unfold pairs. rewrite !map_app. cbn [map]. fold (pairs a) (pairs b). unfold adel. rewrite filter_app, filter_cons_False by (cbn; by intros []).
  fold (adel k (pairs a)) (adel k (pairs b)). rewrite !adel_none; [done|congruence|]. intros H. apply (N2 k H). subst k. by left.
Qed.

Lemma zstep_ok o zm es : rep zm es → zlen zm + grows o < 2 ^ 32 →
  ∃ zm' es', zstep o zm = Some ((astep o (pairs es)).1, zm') ∧ rep zm' es' ∧ pairs es' = (astep o (pairs es)).2 ∧ zlen zm' ≤ zlen zm + grows o.
Proof.
  intros Hr Hz. destruct o as [k v|k|k|k| | |]; cbn [zstep astep grows fst snd] in *.
  - pose proof (aget_split k es) as Hg. destruct (aget k (pairs es)) as [w|].
    + destruct Hg as (a & e & b & -> & Hk & Ha & _). destruct (set_old junk zm a e b k v Hr Hk Ha Hz) as (zm' & s & -> & Hr' & Hl).
      rewrite some_bind. exists zm', (a ++ Entry k v s :: b). split; [done|]. split; [done|]. split; [|done]. by rewrite (aset_old k v a e b s).
    + destruct (set_new junk zm es k v Hr Hg Hz) as (zm' & -> & Hr' & Hl). rewrite some_bind. exists zm', (es ++ [Entry k v []]).
      split; [done|]. split; [done|]. split; [|lia]. rewrite aset_new by done. unfold pairs. by rewrite map_app.
  - pose proof (aget_split k es) as Hg. destruct (aget k (pairs es)) as [w|].
    + destruct Hg as (a & e & b & -> & Hk & Ha & _). destruct (del_old junk zm a e b k Hr Hk Ha) as (zm' & -> & Hr' & Hl).
      rewrite some_bind. exists zm', (a ++ b). split; [done|]. split; [done|]. split; [|lia]. by rewrite adel_old by (done || apply Hr).
    + rewrite (del_none junk zm es k Hr Hg), some_bind. exists zm, es. split; [done|]. split; [done|]. split; [by rewrite adel_none|lia].
  - rewrite (get_spec zm es k Hr), some_bind. exists zm, es. split; [done|]. split; [done|]. split; [done|lia].
  - rewrite (exists_spec zm es k Hr), some_bind. exists zm, es. split; [done|]. split; [done|]. split; [done|lia].
  - destruct (len_spec zm es Hr) as (zm' & -> & Hr' & Hl). rewrite some_bind. exists zm', es. unfold pairs. rewrite length_map. split; [done|]. split; [done|]. split; [done|lia].
  - pose proof Hr as [(n & -> & Hc) Hn He Hs]. unfold zipmapBlobLen. rewrite lookup_raw, !some_bind by done. rewrite Z.eqb_refl.
    exists (block n es), es. split; [done|]. split; [done|]. split; [done|lia].
  - pose proof Hr as [(n & -> & Hc) Hn He Hs]. pose proof (entries_fuel es He).
    assert (walk (S (length (block n es))) (block n es) zipmapRewind = Some (pairs es)) as ->.
    { apply (walk_ok (S (length (block n es))) es [n]); [unfold block; rewrite !length_app; simpl; lia|done]. }
    rewrite some_bind. exists (block n es), es. split; [done|]. split; [done|]. split; [done|lia].
Qed.

Lemma grows_nonneg o : 0 ≤ grows o.
Proof. destruct o; cbn; [apply need_nonneg|lia..]. Qed.

Lemma total_grows_nonneg os : 0 ≤ total os.
Proof. induction os as [|o os IH]; cbn; [lia|]. pose proof (grows_nonneg o). fold (total os). lia. Qed.

Lemma zrun_ok os : ∀ zm es, rep zm es → zlen zm + total os < 2 ^ 32 →
  ∃ zm' es', zrun os zm = Some ((arun os (pairs es)).1, zm') ∧ rep zm' es' ∧ pairs es' = (arun os (pairs es)).2.
Proof.
  induction os as [|o os IH]; intros zm es Hr Hz; [by exists zm, es|]. cbn [zrun arun].
  change (total (o :: os)) with (grows o + total os) in Hz. pose proof (grows_nonneg o). pose proof (total_grows_nonneg os).
  destruct (zstep_ok o zm es Hr) as (zm1 & es1 & -> & Hr1 & Hp & Hl); [lia|]. rewrite some_bind. destruct (astep o (pairs es)) as [r l]. cbn [fst snd] in *.
  destruct (IH zm1 es1 Hr1) as (zm' & es' & -> & Hr' & Hp'); [lia|]. rewrite some_bind, Hp in *. destruct (arun os l) as [rs l']. exists zm', es'. done.
Qed.

(** C8: any history of setting, deleting, reading, counting and iterating on a new zipmap gives the results of an association
    list in order of insertion, without access outside the block and with the size [zipmapBlobLen] reports, as long as the block stays
    below 4 GB; values that shrink or grow, the free bytes and the counter that gives up at 254 do not show. *)
Theorem zipmap_history_refines os : 2 + total os < 2 ^ 32 →
  ∃ zm es, zrun os zipmapNew = Some ((arun os []).1, zm) ∧ rep zm es ∧ pairs es = (arun os []).2.
Proof.
  intros Hz. apply (zrun_ok os zipmapNew []); [|exact Hz]. split; [|constructor|constructor|done]. exists 0. split; [done|]. by right.
Qed.
End history.

Lemma zipmap_history_witness :
  let os := [ZSet [1; 2] [3]; ZSet [7] (repeat 9 300); ZSet [1; 2] [4; 5]; ZGet [1; 2]; ZSet [7] [8]; ZDel [9]; ZLen; ZBlob; ZAll; ZDel [1; 2]; ZExists [1; 2]] in
  2 + total os < 2 ^ 32 ∧ ∃ zm, zrun (λ _, 77) os zipmapNew =
    Some ([Some (RFlag false); Some (RFlag false); Some (RFlag true); Some (RVal (Some [4; 5])); Some (RFlag true); Some (RFlag false);
           Some (RNum 2); None; Some (RAll [([1; 2], [4; 5]); ([7], [8])]); Some (RFlag true); Some (RFlag false)], zm).
Proof.
  intros os. assert (2 + total os < 2 ^ 32) as Hz by (by vm_compute). split; [done|].
  destruct (zipmap_history_refines (λ _, 77) os Hz) as (zm & es & E & _). exists zm. rewrite E. by vm_compute.
Defined.
