(* ===== verification/Hll.v ===== *)
(** * HyperLogLogs ([redis-3.2/src/hyperloglog.c])

    A HyperLogLog is a string: a header of 16 bytes with an encoding and a
    cached count, and 16384 registers of six bits, dense or as a sequence of
    run-length opcodes.

    The functions work on the block of the string, its contents with the
    terminating zero and, where the code has made room, three more bytes of
    any value ([junk]).  Pointers into the block are offsets.  [None] is an
    access outside the block, a string that is left without its terminator, a
    failed assertion or fuel that has run out. *)

From S2P Require Import Prelude.

Definition HLL_P : Z := 14.
Definition HLL_REGISTERS : Z := Z.shiftl 1 HLL_P.
Definition HLL_P_MASK : Z := HLL_REGISTERS - 1.
Definition HLL_BITS : Z := 6.
Definition HLL_REGISTER_MAX : Z := Z.shiftl 1 HLL_BITS - 1.
Definition HLL_HDR_SIZE : Z := 16.
Definition HLL_DENSE_SIZE : Z := HLL_HDR_SIZE + (HLL_REGISTERS * HLL_BITS + 7) / 8.
Definition HLL_DENSE : Z := 0.
Definition HLL_SPARSE : Z := 1.
Definition HLL_RAW : Z := 255.
Definition HLL_MAX_ENCODING : Z := 1.

(** The offsets of the fields of [struct hllhdr]. *)
Definition hdr_encoding : Z := 4.
Definition hdr_card : Z := 8.

Definition HLL_INVALIDATE_CACHE (b : list Z) : option (list Z) :=
  x ← get b (hdr_card + 7); mwrite b (hdr_card + 7) [Z.lor x (Z.shiftl 1 7)].
Definition HLL_VALID_CACHE (b : list Z) : option bool :=
  x ← get b (hdr_card + 7); Some (Z.land x (Z.shiftl 1 7) =? 0).

(** The contents of a string of length [len] in a block, which has to end with a zero. *)
Definition contents (b : list Z) (len : Z) : option (list Z) :=
  z ← get b len; if z =? 0 then mread b 0 len else None.

(** ** Registers of six bits *)
Definition HLL_DENSE_GET_REGISTER (b : list Z) (p regnum : Z) : option Z :=
  let byte := regnum * HLL_BITS / 8 in
  let fb := Z.land (regnum * HLL_BITS) 7 in
  let fb8 := 8 - fb in
  b0 ← get b (p + byte);
  b1 ← get b (p + (byte + 1));
  Some (Z.land (Z.lor (Z.shiftr b0 fb) (Z.shiftl b1 fb8)) HLL_REGISTER_MAX).

Definition HLL_DENSE_SET_REGISTER (b : list Z) (p regnum v : Z) : option (list Z) :=
  let byte := regnum * HLL_BITS / 8 in
  let fb := Z.land (regnum * HLL_BITS) 7 in
  let fb8 := 8 - fb in
  x ← get b (p + byte);
  b ← mwrite b (p + byte) [u8 (Z.land x (Z.lnot (Z.shiftl HLL_REGISTER_MAX fb)))];
  x ← get b (p + byte);
  b ← mwrite b (p + byte) [u8 (Z.lor x (Z.shiftl v fb))];
  x ← get b (p + (byte + 1));
  b ← mwrite b (p + (byte + 1)) [u8 (Z.land x (Z.lnot (Z.shiftr HLL_REGISTER_MAX fb8)))];
  x ← get b (p + (byte + 1));
  mwrite b (p + (byte + 1)) [u8 (Z.lor x (Z.shiftr v fb8))].

(** ** Opcodes, by their bytes *)
Definition HLL_SPARSE_XZERO_BIT : Z := 0x40.
Definition HLL_SPARSE_VAL_BIT : Z := 0x80.
Definition HLL_SPARSE_IS_ZERO (x : Z) : bool := Z.land x 0xc0 =? 0.
Definition HLL_SPARSE_IS_XZERO (x : Z) : bool := Z.land x 0xc0 =? HLL_SPARSE_XZERO_BIT.
Definition HLL_SPARSE_IS_VAL (x : Z) : bool := negb (Z.land x HLL_SPARSE_VAL_BIT =? 0).
Definition HLL_SPARSE_ZERO_LEN (x : Z) : Z := Z.land x 0x3f + 1.
Definition HLL_SPARSE_XZERO_LEN (x y : Z) : Z := Z.lor (Z.shiftl (Z.land x 0x3f) 8) y + 1.
Definition HLL_SPARSE_VAL_VALUE (x : Z) : Z := Z.land (Z.shiftr x 2) 0x1f + 1.
Definition HLL_SPARSE_VAL_LEN (x : Z) : Z := Z.land x 0x3 + 1.
Definition HLL_SPARSE_VAL_MAX_VALUE : Z := 32.
Definition HLL_SPARSE_VAL_MAX_LEN : Z := 4.
Definition HLL_SPARSE_ZERO_MAX_LEN : Z := 64.
Definition HLL_SPARSE_XZERO_MAX_LEN : Z := 16384.
Definition HLL_SPARSE_VAL_SET (v len : Z) : list Z := [u8 (Z.lor (Z.lor (Z.shiftl (v - 1) 2) (len - 1)) HLL_SPARSE_VAL_BIT)].
Definition HLL_SPARSE_ZERO_SET (len : Z) : list Z := [u8 (len - 1)].
Definition HLL_SPARSE_XZERO_SET (len : Z) : list Z :=
  let l := len - 1 in [u8 (Z.lor (Z.shiftr l 8) HLL_SPARSE_XZERO_BIT); Z.land l 0xff].

(** ** The hash of an element *)
Definition murmur_m : Z := 0xc6a4a7935bd1e995.
Definition murmur_r : Z := 47.

Fixpoint murmur64_words (n : nat) (data : list Z) (h : Z) : Z :=
  match n with
  | O => h
  | S n =>
      let k := le_val (take 8 data) in
      let k := u64 (k * murmur_m) in
      let k := Z.lxor k (Z.shiftr k murmur_r) in
      let k := u64 (k * murmur_m) in
      let h := Z.lxor h k in
      let h := u64 (h * murmur_m) in
      murmur64_words n (drop 8 data) h
  end.

(** The cases [n], [n - 1], ..., 1 of the [switch]. *)
Fixpoint murmur64_tail (n : nat) (data : list Z) (h : Z) : Z :=
  match n with
  | O => h
  | S n => murmur64_tail n data (Z.lxor h (Z.shiftl (data !!! n) (8 * Z.of_nat n)))
  end.

Definition MurmurHash64A (key : list Z) (len seed : Z) : Z :=
  let h := Z.lxor seed (u64 (len * murmur_m)) in
  let words := Z.to_nat ((len - Z.land len 7) / 8) in
  let h := murmur64_words words key h in
  let rest := Z.to_nat (Z.land len 7) in
  let h := match rest with O => h | _ => u64 (murmur64_tail rest (drop (8 * words) key) h * murmur_m) end in
  let h := Z.lxor h (Z.shiftr h murmur_r) in
  let h := u64 (h * murmur_m) in
  Z.lxor h (Z.shiftr h murmur_r).

Fixpoint pat_loop (fuel : nat) (hash bit count : Z) : option Z :=
  match fuel with
  | O => None
  | S fuel => if Z.land hash bit =? 0 then pat_loop fuel hash (u64 (Z.shiftl bit 1)) (count + 1) else Some count
  end.

(** The length of the pattern and the register. *)
Definition hllPatLen (ele : list Z) : option (Z * Z) :=
  let hash := MurmurHash64A ele (zlen ele) 0xadc83b19 in
  let index := Z.land hash HLL_P_MASK in
  let hash := Z.lor hash (Z.shiftl 1 63) in
  count ← pat_loop 64 hash HLL_REGISTERS 1;
  Some (count, index).

Definition hllDenseAdd (b : list Z) (registers : Z) (ele : list Z) : option (bool * list Z) :=
  '(count, index) ← hllPatLen ele;
  oldcount ← HLL_DENSE_GET_REGISTER b registers index;
  if count >? oldcount then b ← HLL_DENSE_SET_REGISTER b registers index count; Some (true, b)
  else Some (false, b).

(** ** The sparse representation *)
Fixpoint set_run (n : nat) (dense : list Z) (idx regval : Z) : option (list Z) :=
  match n with
  | O => Some dense
  | S n => dense ← HLL_DENSE_SET_REGISTER dense HLL_HDR_SIZE idx regval; set_run n dense (idx + 1) regval
  end.

Fixpoint to_dense_loop (fuel : nat) (sparse : list Z) (p fin : Z) (dense : list Z) (idx : Z) : option (list Z * Z) :=
  match fuel with
  | O => None
  | S fuel =>
      if negb (p <? fin) then Some (dense, idx) else
      x ← get sparse p;
      if HLL_SPARSE_IS_ZERO x then to_dense_loop fuel sparse (p + 1) fin dense (idx + HLL_SPARSE_ZERO_LEN x)
      else if HLL_SPARSE_IS_XZERO x then
        y ← get sparse (p + 1); to_dense_loop fuel sparse (p + 2) fin dense (idx + HLL_SPARSE_XZERO_LEN x y)
      else
        let runlen := HLL_SPARSE_VAL_LEN x in
        dense ← set_run (Z.to_nat runlen) dense idx (HLL_SPARSE_VAL_VALUE x);
        to_dense_loop fuel sparse (p + 1) fin dense (idx + runlen)
  end.

(** The contents of the new string; the inner [None] is [C_ERR], which leaves the string as it is. *)
Definition hllSparseToDense (s : list Z) : option (option (list Z)) :=
  let sparse := s ++ [0] in
  e ← get sparse hdr_encoding;
  if e =? HLL_DENSE then Some (Some s) else
  let dense := replicate (Z.to_nat HLL_DENSE_SIZE) 0 ++ [0] in
  h ← mread sparse 0 HLL_HDR_SIZE;
  dense ← mwrite dense 0 h;
  dense ← mwrite dense hdr_encoding [HLL_DENSE];
  '(dense, idx) ← to_dense_loop (S (length s)) sparse HLL_HDR_SIZE (zlen s) dense 0;
  if negb (idx =? HLL_REGISTERS) then Some None
  else d ← contents dense HLL_DENSE_SIZE; Some (Some d).

(** Step 1 of [hllSparseAdd]: [p], [prev], [first] and [span] after the loop. *)
Fixpoint locate (fuel : nat) (b : list Z) (fin index p : Z) (prev : option Z) (first span : Z) : option (Z * option Z * Z * Z) :=
  match fuel with
  | O => None
  | S fuel =>
      if negb (p <? fin) then Some (p, prev, first, span) else
      x ← get b p;
      '(span, oplen) ← (if HLL_SPARSE_IS_ZERO x then Some (HLL_SPARSE_ZERO_LEN x, 1)
                        else if HLL_SPARSE_IS_VAL x then Some (HLL_SPARSE_VAL_LEN x, 1)
                        else y ← get b (p + 1); Some (HLL_SPARSE_XZERO_LEN x y, 2));
      if index <=? first + span - 1 then Some (p, prev, first, span)
      else locate fuel b fin index (p + oplen) (Some p) (first + span) span
  end.

Definition zero_run (len : Z) : list Z := if len >? HLL_SPARSE_ZERO_MAX_LEN then HLL_SPARSE_XZERO_SET len else HLL_SPARSE_ZERO_SET len.

(** The sequence that replaces the opcode, in a buffer of five bytes; [cur] is the value of a VAL opcode. *)
Definition split_seq (cur : option Z) (index first last count : Z) : option (list Z) :=
  let run len := match cur with None => zero_run len | Some curval => HLL_SPARSE_VAL_SET curval len end in
  let seq := (if negb (index =? first) then run (index - first) else []) ++ HLL_SPARSE_VAL_SET count 1 ++
             (if negb (index =? last) then run (last - index) else []) in
  if zlen seq <=? 5 then Some seq else None.

(** Step 4; [fin] is the end of the opcodes and of the string. *)
Fixpoint merge_loop (scanlen : nat) (b : list Z) (p fin : Z) : option (list Z * Z) :=
  if negb (p <? fin) then Some (b, fin) else
  match scanlen with
  | O => Some (b, fin)
  | S scanlen =>
      x ← get b p;
      if HLL_SPARSE_IS_XZERO x then merge_loop scanlen b (p + 2) fin
      else if HLL_SPARSE_IS_ZERO x then merge_loop scanlen b (p + 1) fin
      else
        y ← (if p + 1 <? fin then y ← get b (p + 1); Some (Some y) else Some None);
        match y with
        | Some y =>
            let v1 := HLL_SPARSE_VAL_VALUE x in
            let len := HLL_SPARSE_VAL_LEN x + HLL_SPARSE_VAL_LEN y in
            if HLL_SPARSE_IS_VAL y && (v1 =? HLL_SPARSE_VAL_VALUE y) && (len <=? HLL_SPARSE_VAL_MAX_LEN) then
              b ← mwrite b (p + 1) (HLL_SPARSE_VAL_SET v1 len);
              b ← memmove b p (p + 1) (fin - p);
              b ← mwrite b (fin - 1) [0];
              merge_loop scanlen b p (fin - 1)
            else merge_loop scanlen b (p + 1) fin
        | None => merge_loop scanlen b (p + 1) fin
        end
  end.

Section config.
(** [server.hll_sparse_max_bytes], and the bytes the string gets. *)
Context (hll_sparse_max_bytes : Z) (junk : nat → Z).

Definition promote (s ele : list Z) : option (Z * list Z) :=
  d ← hllSparseToDense s;
  match d with
  | None => Some (-1, s)
  | Some d =>
      '(r, b) ← hllDenseAdd (d ++ [0]) HLL_HDR_SIZE ele;
      if (r : bool) then d ← contents b (zlen d); Some (1, d) else None
  end.

(** From the label [updated]. *)
Definition updated (b : list Z) (prev : option Z) (fin : Z) : option (Z * list Z) :=
  let p := match prev with Some prev => prev | None => HLL_HDR_SIZE end in
  '(b, fin) ← merge_loop 5 b p fin;
  b ← HLL_INVALIDATE_CACHE b;
  s ← contents b fin;
  Some (1, s).

(** The result and the contents of the string. *)
Definition hllSparseAdd (s ele : list Z) : option (Z * list Z) :=
  '(count, index) ← hllPatLen ele;
  if count >? HLL_SPARSE_VAL_MAX_VALUE then promote s ele else
  let b := s ++ [0] ++ map junk (seq 0 3) in
  let fin := zlen s in
  '(p, prev, first, span) ← locate (S (length s)) b fin index HLL_HDR_SIZE None 0 0;
  if span =? 0 then Some (-1, s) else
  x ← get b p;
  let is_zero := HLL_SPARSE_IS_ZERO x in
  let is_xzero := negb is_zero && HLL_SPARSE_IS_XZERO x in
  let is_val := negb is_zero && negb is_xzero in
  let next := if HLL_SPARSE_IS_XZERO x then p + 2 else p + 1 in
  let next := if next >=? fin then None else Some next in
  runlen ← (if is_zero then Some (HLL_SPARSE_ZERO_LEN x)
            else if is_xzero then y ← get b (p + 1); Some (HLL_SPARSE_XZERO_LEN x y)
            else Some (HLL_SPARSE_VAL_LEN x));
  if is_val && (HLL_SPARSE_VAL_VALUE x >=? count) then Some (0, s) else
  if (is_val && (runlen =? 1)) || (is_zero && (runlen =? 1)) then
    b ← mwrite b p (HLL_SPARSE_VAL_SET count 1); updated b prev fin
  else
  let last := first + span - 1 in
  seq ← split_seq (if is_val then Some (HLL_SPARSE_VAL_VALUE x) else None) index first last count;
  let oldlen := if is_xzero then 2 else 1 in
  let deltalen := zlen seq - oldlen in
  if (deltalen >? 0) && (fin + deltalen >? hll_sparse_max_bytes) then promote s ele else
  b ← match next with
      | Some next => if deltalen =? 0 then Some b else memmove b (next + deltalen) next (fin - next)
      | None => Some b
      end;
  b ← mwrite b (fin + deltalen) [0];
  b ← mwrite b p seq;
  updated b prev (fin + deltalen).

Definition hllAdd (s ele : list Z) : option (Z * list Z) :=
  e ← get (s ++ [0]) hdr_encoding;
  if e =? HLL_DENSE then
    '(r, b) ← hllDenseAdd (s ++ [0]) HLL_HDR_SIZE ele;
    s ← contents b (zlen s); Some (Z.b2z r, s)
  else if e =? HLL_SPARSE then hllSparseAdd s ele
  else Some (-1, s).
End config.

(** ** Merging *)
Fixpoint merge_dense (n : nat) (b : list Z) (i : Z) (max : list Z) : option (list Z) :=
  match n with
  | O => Some max
  | S n =>
      v ← HLL_DENSE_GET_REGISTER b HLL_HDR_SIZE i;
      m ← get max i;
      max ← (if v >? m then mwrite max i [v] else Some max);
      merge_dense n b (i + 1) max
  end.

Fixpoint merge_run (n : nat) (max : list Z) (i regval : Z) : option (list Z) :=
  match n with
  | O => Some max
  | S n =>
      m ← get max i;
      max ← (if regval >? m then mwrite max i [u8 regval] else Some max);
      merge_run n max (i + 1) regval
  end.

Fixpoint merge_sparse (fuel : nat) (b : list Z) (p fin i : Z) (max : list Z) : option (Z * list Z) :=
  match fuel with
  | O => None
  | S fuel =>
      if negb (p <? fin) then Some (i, max) else
      x ← get b p;
      if HLL_SPARSE_IS_ZERO x then merge_sparse fuel b (p + 1) fin (i + HLL_SPARSE_ZERO_LEN x) max
      else if HLL_SPARSE_IS_XZERO x then
        y ← get b (p + 1); merge_sparse fuel b (p + 2) fin (i + HLL_SPARSE_XZERO_LEN x y) max
      else
        let runlen := HLL_SPARSE_VAL_LEN x in
        max ← merge_run (Z.to_nat runlen) max i (HLL_SPARSE_VAL_VALUE x);
        merge_sparse fuel b (p + 1) fin (i + runlen) max
  end.

(** [C_OK] and the array. *)
Definition hllMerge (max s : list Z) : option (bool * list Z) :=
  e ← get (s ++ [0]) hdr_encoding;
  if e =? HLL_DENSE then max ← merge_dense (Z.to_nat HLL_REGISTERS) (s ++ [0]) 0 max; Some (true, max)
  else '(i, max) ← merge_sparse (S (length s)) (s ++ [0]) HLL_HDR_SIZE (zlen s) 0 max; Some (i =? HLL_REGISTERS, max).

(** ** A new one *)
Fixpoint create_loop (fuel : nat) (b : list Z) (p aux : Z) : option (list Z * Z) :=
  if aux =? 0 then Some (b, p) else
  match fuel with
  | O => None
  | S fuel =>
      let xzero := if HLL_SPARSE_XZERO_MAX_LEN >? aux then aux else HLL_SPARSE_XZERO_MAX_LEN in
      b ← mwrite b p (HLL_SPARSE_XZERO_SET xzero); create_loop fuel b (p + 2) (aux - xzero)
  end.

Definition createHLLObject : option (list Z) :=
  let sparselen := HLL_HDR_SIZE + ((HLL_REGISTERS + (HLL_SPARSE_XZERO_MAX_LEN - 1)) / HLL_SPARSE_XZERO_MAX_LEN) * 2 in
  '(b, p) ← create_loop 1 (replicate (Z.to_nat sparselen) 0 ++ [0]) HLL_HDR_SIZE HLL_REGISTERS;
  if negb (p =? sparselen) then None else
  b ← mwrite b 0 [72; 89; 76; 76];
  b ← mwrite b hdr_encoding [HLL_SPARSE];
  contents b sparselen.

(** ** Registers and bits *)
Definition abit (b : list Z) (n : Z) : bool :=
  match b !! Z.to_nat (n / 8) with Some x => Z.testbit x (n mod 8) | None => false end.

Lemma mwrite_byte b i v : 0 ≤ i < zlen b → mwrite b i [v] = Some (<[Z.to_nat i := v]> b).
Proof.
  intros H. unfold mwrite. rewrite decide_True by (cbn [length]; lia). f_equal. rewrite insert_take_drop by lia. cbn [length]. by rewrite Nat.add_1_r.
Qed.

Lemma get_insert b i j v : 0 ≤ i < zlen b → 0 ≤ j → get (<[Z.to_nat i := v]> b) j = if i =? j then Some v else get b j.
Proof.
  intros Hi Hj. rewrite !get_nth by done. destruct (Z.eqb_spec i j) as [->|N]; [by apply list_lookup_insert_eq; lia|].
  apply list_lookup_insert_ne. lia.
Qed.

Lemma byte_high x t : byte_ok x → 8 ≤ t → Z.testbit x t = false.
Proof. intros [H1 H2] Ht. apply Z.bits_above_log2; [done|]. destruct (decide (x = 0)) as [->|]; [cbn; lia|]. apply Z.log2_lt_pow2; [lia|]. apply (Z.lt_le_trans _ (2 ^ 8)); [done|]. by apply Z.pow_le_mono_r. Qed.

Lemma byte_ext x y : byte_ok x → byte_ok y → (∀ t, 0 ≤ t < 8 → Z.testbit x t = Z.testbit y t) → x = y.
Proof.
  intros Hx Hy H. apply Z.bits_inj'. intros t Ht. destruct (decide (t < 8)); [by apply H|]. by rewrite !byte_high by (done || lia).
Qed.

Lemma u8_bit x t : 0 ≤ t < 8 → Z.testbit (u8 x) t = Z.testbit x t.
Proof. intros H. unfold u8, wrapu. rewrite Z.mod_pow2_bits_low by lia. done. Qed.

Lemma u8_byte x : byte_ok (u8 x).
Proof. by apply wrapu_range. Qed.

Lemma mask6 t : 0 ≤ t → Z.testbit HLL_REGISTER_MAX t = (t <? 6).
Proof. intros H. change HLL_REGISTER_MAX with (Z.ones 6). rewrite Z.testbit_ones by lia. by rewrite (proj2 (Z.leb_le 0 t)) by lia. Qed.

Lemma mask6_neg t : t < 0 → Z.testbit HLL_REGISTER_MAX t = false.
Proof. intros H. by apply Z.testbit_neg_r. Qed.

Lemma value_high v t : 0 ≤ v < 64 → 6 ≤ t → Z.testbit v t = false.
Proof. intros H Ht. apply Z.bits_above_log2; [lia|]. destruct (decide (v = 0)) as [->|]; [cbn; lia|]. apply Z.log2_lt_pow2; [lia|]. apply (Z.lt_le_trans _ (2 ^ 6)); [lia|]. by apply Z.pow_le_mono_r. Qed.

(** The two bytes that hold a register. *)
Definition low_byte (x v fb : Z) : Z := u8 (Z.lor (u8 (Z.land x (Z.lnot (Z.shiftl HLL_REGISTER_MAX fb)))) (Z.shiftl v fb)).
Definition high_byte (y v fb : Z) : Z := u8 (Z.lor (u8 (Z.land y (Z.lnot (Z.shiftr HLL_REGISTER_MAX (8 - fb))))) (Z.shiftr v (8 - fb))).

Lemma low_byte_bit x v fb t : 0 ≤ v < 64 → 0 ≤ fb < 8 → 0 ≤ t < 8 →
  Z.testbit (low_byte x v fb) t = if (fb <=? t) && (t <? fb + 6) then Z.testbit v (t - fb) else Z.testbit x t.
Proof.
  intros Hv Hf Ht. unfold low_byte. rewrite u8_bit, Z.lor_spec, u8_bit, Z.land_spec, Z.lnot_spec, !Z.shiftl_spec by lia.
  destruct (Z.leb_spec fb t), (Z.ltb_spec t (fb + 6)); cbn [andb].
  - rewrite mask6 by lia. rewrite (proj2 (Z.ltb_lt _ _)) by lia. cbn. by rewrite andb_false_r.
  - rewrite mask6 by lia. rewrite (proj2 (Z.ltb_ge _ _)) by lia. rewrite (value_high v) by lia. cbn. by rewrite andb_true_r, orb_false_r.
  - rewrite mask6_neg, (Z.testbit_neg_r v) by lia. cbn. by rewrite andb_true_r, orb_false_r.
  - rewrite mask6_neg, (Z.testbit_neg_r v) by lia. cbn. by rewrite andb_true_r, orb_false_r.
Qed.

Lemma high_byte_bit y v fb t : 0 ≤ v < 64 → 0 ≤ fb < 8 → 0 ≤ t < 8 →
  Z.testbit (high_byte y v fb) t = if t + 8 <? fb + 6 then Z.testbit v (t + 8 - fb) else Z.testbit y t.
Proof.
  intros Hv Hf Ht. unfold high_byte. rewrite u8_bit, Z.lor_spec, u8_bit, Z.land_spec, Z.lnot_spec, !Z.shiftr_spec by lia.
  rewrite mask6 by lia. replace (t + (8 - fb)) with (t + 8 - fb) by lia. destruct (Z.ltb_spec (t + 8) (fb + 6)).
  - rewrite (proj2 (Z.ltb_lt _ _)) by lia. cbn. by rewrite andb_false_r.
  - rewrite (proj2 (Z.ltb_ge _ _)) by lia. rewrite (value_high v) by lia. cbn. by rewrite andb_true_r, orb_false_r.
Qed.

Lemma land7 z : Z.land z 7 = z mod 8.
Proof. change 7 with (Z.ones 3). by rewrite Z.land_ones by lia. Qed.

Lemma abit_at b n x : 0 ≤ n → get b (n / 8) = Some x → abit b n = Z.testbit x (n mod 8).
Proof. intros Hn H. rewrite get_nth in H by (apply Z.div_pos; lia). unfold abit. by rewrite H. Qed.

Definition reg_in (b : list Z) (p i : Z) : Prop := 0 ≤ p ∧ 0 ≤ i ∧ p + (i * HLL_BITS / 8 + 1) < zlen b.

Lemma reg_byte b i : bytes_ok b → 0 ≤ i < zlen b → ∃ x, get b i = Some x ∧ byte_ok x.
Proof.
  intros Hb Hi. destruct (get_is_some b i Hi) as [x Hx]. exists x. split; [done|]. rewrite get_nth in Hx by lia. by eapply Forall_lookup_1.
Qed.

Lemma get_reg_ok b p i : bytes_ok b → reg_in b p i →
  ∃ v, HLL_DENSE_GET_REGISTER b p i = Some v ∧ 0 ≤ v < 64 ∧ ∀ t, 0 ≤ t < 6 → Z.testbit v t = abit b (8 * p + 6 * i + t).
Proof.
  intros Hb (Hp & Hi & Hl). unfold HLL_DENSE_GET_REGISTER. rewrite land7. unfold HLL_BITS in *. pose proof (Z.div_mod (i * 6) 8) as Hd.
  pose proof (Z.mod_pos_bound (i * 6) 8). set (q := i * 6 / 8) in *. set (fb := (i * 6) mod 8) in *.
  destruct (reg_byte b (p + q) Hb) as (x & Hx & Bx); [lia|]. destruct (reg_byte b (p + (q + 1)) Hb) as (y & Hy & By); [lia|].
  rewrite Hx, some_bind, Hy, some_bind. eexists. split; [done|]. split.
  { change HLL_REGISTER_MAX with (Z.ones 6). rewrite Z.land_ones by lia. by apply Z.mod_pos_bound. }
  intros t Ht. rewrite Z.land_spec, mask6, Z.lor_spec, Z.shiftr_spec, Z.shiftl_spec, (proj2 (Z.ltb_lt t 6)), andb_true_r by lia.
  destruct (decide (t + fb < 8)) as [Hc|Hc].
  - rewrite (Z.testbit_neg_r y), orb_false_r by lia. assert ((8 * p + 6 * i + t) / 8 = p + q ∧ (8 * p + 6 * i + t) mod 8 = t + fb) as [E1 E2].
    { split; symmetry; [apply (Z.div_unique _ 8 _ (t + fb))|apply (Z.mod_unique _ 8 (p + q))]; lia. }
    rewrite (abit_at b _ x), E2 by (rewrite ?E1; done || lia). done.
  - rewrite (byte_high x) by (done || lia). assert ((8 * p + 6 * i + t) / 8 = p + (q + 1) ∧ (8 * p + 6 * i + t) mod 8 = t + fb - 8) as [E1 E2].
    { split; symmetry; [apply (Z.div_unique _ 8 _ (t + fb - 8))|apply (Z.mod_unique _ 8 (p + (q + 1)))]; lia. }
    rewrite (abit_at b _ y), E2 by (rewrite ?E1; done || lia). cbn. f_equal. lia.
Qed.

Lemma set_reg_ok b p i v : bytes_ok b → reg_in b p i → 0 ≤ v < 64 →
  ∃ b', HLL_DENSE_SET_REGISTER b p i v = Some b' ∧ length b' = length b ∧ bytes_ok b' ∧
    ∀ n, 0 ≤ n → abit b' n = if (8 * p + 6 * i <=? n) && (n <? 8 * p + 6 * i + 6) then Z.testbit v (n - (8 * p + 6 * i)) else abit b n.
Proof.
  intros Hb (Hp & Hi & Hl) Hv. unfold HLL_DENSE_SET_REGISTER. rewrite land7. unfold HLL_BITS in *. pose proof (Z.div_mod (i * 6) 8) as Hd.
  pose proof (Z.mod_pos_bound (i * 6) 8). set (q := i * 6 / 8) in *. set (fb := (i * 6) mod 8) in *.
  destruct (reg_byte b (p + q) Hb) as (x & Hx & Bx); [lia|]. destruct (reg_byte b (p + (q + 1)) Hb) as (y & Hy & By); [lia|].
  rewrite Hx, some_bind, mwrite_byte, some_bind, get_insert, Z.eqb_refl, some_bind by lia.
  rewrite mwrite_byte, some_bind, list_insert_insert_eq by (rewrite ?length_insert; lia).
  rewrite get_insert, (proj2 (Z.eqb_neq _ _)), Hy, some_bind by lia.
  rewrite mwrite_byte, some_bind, get_insert, Z.eqb_refl, some_bind by (rewrite ?length_insert; lia).
  rewrite mwrite_byte, list_insert_insert_eq by (rewrite ?length_insert; lia).
  change (u8 (Z.lor (u8 (Z.land x _)) _)) with (low_byte x v fb). change (u8 (Z.lor (u8 (Z.land y _)) _)) with (high_byte y v fb).
  eexists. split; [done|]. split; [by rewrite !length_insert|]. split.
  { apply Forall_insert; [apply Forall_insert; [done|apply u8_byte]|apply u8_byte]. }
  intros n Hn. pose proof (Z.div_mod n 8) as Hdn. pose proof (Z.mod_pos_bound n 8). set (m := n / 8) in *. set (t := n mod 8) in *.
  assert (0 ≤ m) by (apply Z.div_pos; lia).
  assert (abit b n = match get b m with Some z => Z.testbit z t | None => false end) as ->.
  { unfold abit. by rewrite get_nth by lia. }
  unfold abit. fold m t. rewrite <- get_nth, get_insert, get_insert by (rewrite ?length_insert; lia).
  destruct (Z.eqb_spec (p + (q + 1)) m) as [Em|Nm]; [|destruct (Z.eqb_spec (p + q) m) as [Em|Nm']].
  - rewrite high_byte_bit by lia. rewrite <- Em, Hy. rewrite (proj2 (Z.leb_le (8 * p + 6 * i) n)) by lia. cbn [andb].
    destruct (Z.ltb_spec (t + 8) (fb + 6)), (Z.ltb_spec n (8 * p + 6 * i + 6)); try lia; [|done]. f_equal. lia.
  - rewrite low_byte_bit by lia. rewrite <- Em, Hx. destruct (Z.leb_spec fb t), (Z.leb_spec (8 * p + 6 * i) n); try lia; cbn [andb]; [|done].
    destruct (Z.ltb_spec t (fb + 6)), (Z.ltb_spec n (8 * p + 6 * i + 6)); try lia; [|done]. f_equal. lia.
  - destruct (Z.leb_spec (8 * p + 6 * i) n), (Z.ltb_spec n (8 * p + 6 * i + 6)); try done. exfalso. lia.
Qed.

Lemma value_ext v w : 0 ≤ v < 64 → 0 ≤ w < 64 → (∀ t, 0 ≤ t < 6 → Z.testbit v t = Z.testbit w t) → v = w.
Proof.
  intros Hv Hw H. apply Z.bits_inj'. intros t Ht. destruct (decide (t < 6)); [by apply H|]. by rewrite !value_high by lia.
Qed.

Lemma byte_of_bits b b' i : length b = length b' → bytes_ok b → bytes_ok b' → 0 ≤ i →
  (∀ t, 0 ≤ t < 8 → abit b (8 * i + t) = abit b' (8 * i + t)) → get b i = get b' i.
Proof.
  intros Hl Hb Hb' Hi H. destruct (decide (i < zlen b)) as [Hlt|Hge].
  - destruct (reg_byte b i Hb) as (x & Hx & Bx); [lia|]. destruct (reg_byte b' i Hb') as (y & Hy & By); [lia|]. rewrite Hx, Hy. f_equal.
    apply byte_ext; [done|done|]. intros t Ht. specialize (H t Ht).
    assert ((8 * i + t) / 8 = i ∧ (8 * i + t) mod 8 = t) as [E1 E2] by (split; symmetry; [apply (Z.div_unique _ 8 _ t)|apply (Z.mod_unique _ 8 i)]; lia).
    rewrite (abit_at b _ x), (abit_at b' _ y), E2 in H by (rewrite ?E1; done || lia). done.
  - rewrite !get_nth by lia. rewrite !lookup_ge_None_2 by lia. done.
Qed.

(** A block of a dense string and its registers. *)
Record holds (b : list Z) (r : list Z) : Prop := {
  ho_bytes : bytes_ok b;
  ho_size : zlen b = HLL_DENSE_SIZE + 1;
  ho_regs : zlen r = HLL_REGISTERS;
  ho_get i x : r !! i = Some x → HLL_DENSE_GET_REGISTER b HLL_HDR_SIZE (Z.of_nat i) = Some x
}.

Lemma reg_in_dense b i : zlen b = HLL_DENSE_SIZE + 1 → 0 ≤ i < HLL_REGISTERS → reg_in b HLL_HDR_SIZE i.
Proof.
  intros Hb Hi. unfold reg_in. rewrite Hb. split; [done|]. split; [lia|]. change HLL_REGISTERS with 16384 in Hi. change (HLL_DENSE_SIZE + 1) with 12305.
  unfold HLL_HDR_SIZE, HLL_BITS. assert (i * 6 / 8 < 12288) by (apply Z.div_lt_upper_bound; lia). lia.
Qed.

Lemma set_dense b r i v : holds b r → 0 ≤ i < HLL_REGISTERS → 0 ≤ v < 64 →
  ∃ b', HLL_DENSE_SET_REGISTER b HLL_HDR_SIZE i v = Some b' ∧ holds b' (<[Z.to_nat i := v]> r) ∧
    (∀ j, 0 ≤ j < HLL_HDR_SIZE → get b' j = get b j) ∧ get b' HLL_DENSE_SIZE = get b HLL_DENSE_SIZE.
Proof.
  intros [Hb Hs Hr Hg] Hi Hv. destruct (set_reg_ok b HLL_HDR_SIZE i v Hb (reg_in_dense b i Hs Hi) Hv) as (b' & E & Hl & Hb' & Hbits).
  exists b'. split; [done|]. change HLL_REGISTERS with 16384 in *. unfold HLL_HDR_SIZE in *.
  assert (zlen b' = HLL_DENSE_SIZE + 1) as Hs' by lia. split; [split; [done|done|by rewrite length_insert|]|].
  - intros j x Hj. assert (0 ≤ Z.of_nat j < 16384) as Hjr by (apply lookup_lt_Some in Hj; rewrite length_insert in Hj; lia).
    destruct (get_reg_ok b' 16 (Z.of_nat j) Hb') as (w & Ew & Hw & Hwb); [by apply reg_in_dense|]. unfold HLL_HDR_SIZE. rewrite Ew. f_equal.
    apply list_lookup_insert_Some in Hj as [(<- & <- & _)|[Hn Hj]].
    + apply value_ext; [done|done|]. intros t Ht. rewrite Hwb, Hbits by lia.
      rewrite (proj2 (Z.leb_le _ _)), (proj2 (Z.ltb_lt _ _)) by lia. cbn. f_equal. lia.
    + apply Hg in Hj. destruct (get_reg_ok b 16 (Z.of_nat j) Hb) as (u & Eu & Hu & Hub); [by apply reg_in_dense|]. unfold HLL_HDR_SIZE in Hj.
      rewrite Eu in Hj. injection Hj as <-. apply value_ext; [done|done|]. intros t Ht. rewrite Hwb, Hbits, Hub by lia.
      destruct (Z.leb_spec (8 * 16 + 6 * i) (8 * 16 + 6 * Z.of_nat j + t)), (Z.ltb_spec (8 * 16 + 6 * Z.of_nat j + t) (8 * 16 + 6 * i + 6)); try done. exfalso. lia.
  - split; [intros j Hj|change HLL_DENSE_SIZE with 12304]; apply byte_of_bits; try done; try lia; intros t Ht; rewrite Hbits by lia.
    + by rewrite (proj2 (Z.leb_gt _ _)) by lia.
    + rewrite (proj2 (Z.ltb_ge _ _)) by lia. by rewrite andb_false_r.
Qed.

(** ** Patterns *)
Lemma land_bit h t : 0 ≤ t → (Z.land h (2 ^ t) =? 0) = negb (Z.testbit h t).
Proof.
  intros Ht. destruct (Z.testbit h t) eqn:E; cbn; [apply Z.eqb_neq|apply Z.eqb_eq].
  - intros H. assert (Z.testbit (Z.land h (2 ^ t)) t = false) as E' by (by rewrite H, Z.bits_0). by rewrite Z.land_spec, E, Z.pow2_bits_true in E'.
  - apply Z.bits_inj'. intros n Hn. rewrite Z.land_spec, Z.bits_0. destruct (decide (n = t)) as [->|N]; [by rewrite E|].
    rewrite Z.pow2_bits_false by lia. apply andb_false_r.
Qed.

Lemma pat_loop_ok hash fuel : ∀ t, Z.testbit hash 63 = true → 14 ≤ t ≤ 63 → (Z.to_nat (63 - t) < fuel)%nat →
  ∃ c, pat_loop fuel hash (2 ^ t) (t - 13) = Some c ∧ t - 13 ≤ c ≤ 50 ∧ Z.testbit hash (13 + c) = true ∧ ∀ j, t ≤ j < 13 + c → Z.testbit hash j = false.
Proof.
  induction fuel as [|fuel IH]; intros t Hh Ht Hf; [lia|]. cbn [pat_loop]. rewrite land_bit by lia. destruct (Z.testbit hash t) eqn:E; cbn [negb].
  - exists (t - 13). split; [done|]. split; [lia|]. replace (13 + (t - 13)) with t by lia. split; [done|]. intros j Hj. lia.
  - assert (t ≠ 63) by (intros ->; congruence). rewrite Z.shiftl_mul_pow2 by lia. change (2 ^ 1) with 2. rewrite <- (Z.mul_comm 2), <- Z.pow_succ_r by lia.
    assert (u64 (2 ^ Z.succ t) = 2 ^ Z.succ t) as ->.
    { apply wrapu_id. split; [apply Z.pow_nonneg; lia|]. apply Z.pow_lt_mono_r; lia. }
    destruct (IH (Z.succ t)) as (c & Ec & Hc & Hb & Hz); [done|lia|lia|]. exists c.
    replace (t - 13 + 1) with (Z.succ t - 13) by lia. split; [done|]. split; [lia|]. split; [done|]. intros j Hj.
    destruct (decide (j = t)) as [->|]; [done|]. apply Hz. lia.
Qed.

(** The register is the low 14 bits of the hash, the length the position of the first one above them, or 50. *)
Lemma hllPatLen_ok ele : ∃ c i, hllPatLen ele = Some (c, i) ∧ 1 ≤ c ≤ 50 ∧ 0 ≤ i < HLL_REGISTERS ∧
  let hash := MurmurHash64A ele (zlen ele) 0xadc83b19 in
  i = hash mod 2 ^ 14 ∧ (∀ j, 14 ≤ j < 13 + c → Z.testbit hash j = false) ∧ (c = 50 ∨ Z.testbit hash (13 + c) = true).
Proof.
  unfold hllPatLen. set (hash := MurmurHash64A _ _ _). change (Z.shiftl 1 63) with (2 ^ 63).
  assert (∀ j, 0 ≤ j → Z.testbit (Z.lor hash (2 ^ 63)) j = Z.testbit hash j || (j =? 63)) as Hlor.
  { intros j Hj. rewrite Z.lor_spec, Z.pow2_bits_eqb by lia. f_equal. apply Z.eqb_sym. }
  destruct (pat_loop_ok (Z.lor hash (2 ^ 63)) 64 14) as (c & E & Hc & Hb & Hz); [rewrite Hlor by lia; apply orb_true_r|lia|lia|].
  change (pat_loop 64 (Z.lor hash (2 ^ 63)) HLL_REGISTERS 1 = Some c) in E. rewrite E, some_bind. assert (Z.land hash HLL_P_MASK = hash mod 2 ^ 14) as ->.
  { change HLL_P_MASK with (Z.ones 14). by rewrite Z.land_ones by lia. }
  exists c, (hash mod 2 ^ 14). split; [done|]. split; [lia|]. split; [by apply Z.mod_pos_bound|]. cbv zeta. split; [done|]. split.
  - intros j Hj. specialize (Hz j Hj). rewrite Hlor in Hz by lia. by apply orb_false_elim in Hz as [? _].
  - rewrite Hlor in Hb by lia. destruct (Z.eqb_spec (13 + c) 63); [left; lia|]. right. by rewrite orb_false_r in Hb.
Qed.

(** ** What adding means: the register of the element becomes at least the length of its pattern *)
Definition upd (r : list Z) (i c : Z) : list Z := <[Z.to_nat i := Z.max (r !!! Z.to_nat i) c]> r.
Definition observe (ele r : list Z) : list Z := match hllPatLen ele with Some (c, i) => upd r i c | None => r end.
Definition zeros : list Z := replicate (Z.to_nat HLL_REGISTERS) 0.
Definition regs_of (eles : list (list Z)) : list Z := foldl (λ r e, observe e r) zeros eles.

Lemma zlen_zeros : zlen zeros = HLL_REGISTERS.
Proof. unfold zeros. by rewrite length_replicate, Z2Nat.id. Qed.

Lemma observe_length ele r : length (observe ele r) = length r.
Proof. unfold observe, upd. destruct (hllPatLen ele) as [[c i]|]; [by rewrite length_insert|done]. Qed.

Lemma upd_same r i c x : r !! Z.to_nat i = Some x → c ≤ x → upd r i c = r.
Proof. intros H Hc. unfold upd. rewrite (list_lookup_total_correct r _ x) by done. rewrite Z.max_l by done. by apply list_insert_id. Qed.

Lemma upd_new r i c x : r !! Z.to_nat i = Some x → x < c → upd r i c = <[Z.to_nat i := c]> r ∧ upd r i c ≠ r.
Proof.
  intros H Hc. unfold upd. rewrite (list_lookup_total_correct r _ x) by done. rewrite Z.max_r by lia. split; [done|]. intros E.
  assert (<[Z.to_nat i:=c]> r !! Z.to_nat i = Some c) as E' by (apply list_lookup_insert_eq; by apply lookup_lt_Some in H). rewrite E, H in E'. injection E'. lia.
Qed.

(** The header and the terminator stay. *)
Definition framed (b b' : list Z) : Prop := (∀ j, 0 ≤ j < HLL_HDR_SIZE → get b' j = get b j) ∧ get b' HLL_DENSE_SIZE = get b HLL_DENSE_SIZE.

Lemma holds_lookup b r i : holds b r → 0 ≤ i < HLL_REGISTERS → ∃ x, r !! Z.to_nat i = Some x ∧ HLL_DENSE_GET_REGISTER b HLL_HDR_SIZE i = Some x.
Proof.
  intros [_ _ Hr Hg] Hi. destruct (lookup_lt_is_Some_2 r (Z.to_nat i)) as [x Hx]; [lia|]. exists x. split; [done|].
  rewrite <- (Hg _ _ Hx). f_equal. lia.
Qed.

Lemma dense_add_ok b r ele : holds b r →
  ∃ b', hllDenseAdd b HLL_HDR_SIZE ele = Some (bool_decide (observe ele r ≠ r), b') ∧ holds b' (observe ele r) ∧ framed b b' ∧ (observe ele r = r → b' = b).
Proof.
  intros Hb. unfold hllDenseAdd, observe. destruct (hllPatLen_ok ele) as (c & i & -> & Hc & Hi & _). rewrite some_bind.
  destruct (holds_lookup b r i Hb Hi) as (x & Hx & ->). rewrite some_bind. destruct (Z.gtb_spec c x) as [H|H].
  - destruct (upd_new r i c x Hx) as [E N]; [lia|]. destruct (set_dense b r i c Hb Hi) as (b' & -> & Hb' & Hf); [lia|]. rewrite some_bind.
    exists b'. rewrite bool_decide_eq_true_2 by done. rewrite <- E in Hb'. split; [done|]. split; [done|]. split; [done|]. by intros ?.
  - rewrite (upd_same r i c x Hx) by lia. exists b. rewrite bool_decide_eq_false_2 by (by intros []). done.
Qed.

(** ** Opcodes *)
Inductive opc := Zero (n : Z) | XZero (n : Z) | Val (v n : Z).

Definition opc_ok (o : opc) : Prop :=
  match o with
  | Zero n => 1 ≤ n ≤ HLL_SPARSE_ZERO_MAX_LEN
  | XZero n => 1 ≤ n ≤ HLL_SPARSE_XZERO_MAX_LEN
  | Val v n => 1 ≤ v ≤ HLL_SPARSE_VAL_MAX_VALUE ∧ 1 ≤ n ≤ HLL_SPARSE_VAL_MAX_LEN
  end.

Definition opc_enc (o : opc) : list Z :=
  match o with Zero n => HLL_SPARSE_ZERO_SET n | XZero n => HLL_SPARSE_XZERO_SET n | Val v n => HLL_SPARSE_VAL_SET v n end.

Definition opc_len (o : opc) : Z := match o with Zero n | XZero n | Val _ n => n end.
Definition opc_val (o : opc) : Z := match o with Val v _ => v | _ => 0 end.
Definition opc_regs (o : opc) : list Z := replicate (Z.to_nat (opc_len o)) (opc_val o).

Definition encs (os : list opc) : list Z := concat (map opc_enc os).
Definition regs (os : list opc) : list Z := concat (map opc_regs os).

Fixpoint check_upto (n : nat) (z : Z) (P : Z → bool) : bool := match n with O => true | S n => P z && check_upto n (z + 1) P end.

Lemma forall_upto (P : Z → bool) n : check_upto n 1 P = true → ∀ z, 1 ≤ z ≤ Z.of_nat n → P z = true.
Proof.
  assert (∀ n s, check_upto n s P = true → ∀ z, s ≤ z < s + Z.of_nat n → P z = true) as H; [|intros Hc z Hz; apply (H n 1 Hc); lia].
  clear n. induction n as [|n IH]; intros s; cbn [check_upto]; [lia|]. intros [H1 H2]%andb_true_iff z Hz.
  destruct (decide (z = s)) as [->|]; [done|]. apply (IH (s + 1) H2). lia.
Qed.

Lemma zero_bytes n : 1 ≤ n ≤ HLL_SPARSE_ZERO_MAX_LEN → ∃ x, opc_enc (Zero n) = [x] ∧ byte_ok x ∧
  HLL_SPARSE_IS_ZERO x = true ∧ HLL_SPARSE_IS_XZERO x = false ∧ HLL_SPARSE_IS_VAL x = false ∧ HLL_SPARSE_ZERO_LEN x = n.
Proof.
  intros Hn. eexists. split; [done|]. split; [apply u8_byte|].
  set (P n := let x := u8 (n - 1) in HLL_SPARSE_IS_ZERO x && negb (HLL_SPARSE_IS_XZERO x) && negb (HLL_SPARSE_IS_VAL x) && (HLL_SPARSE_ZERO_LEN x =? n)).
  assert (P n = true) as H by (apply (forall_upto P 64); [by vm_compute|exact Hn]).
  unfold P in H. rewrite !andb_true_iff, !negb_true_iff, Z.eqb_eq in H. tauto.
Qed.

Lemma val_bytes v n : 1 ≤ v ≤ HLL_SPARSE_VAL_MAX_VALUE → 1 ≤ n ≤ HLL_SPARSE_VAL_MAX_LEN → ∃ x, opc_enc (Val v n) = [x] ∧ byte_ok x ∧
  HLL_SPARSE_IS_ZERO x = false ∧ HLL_SPARSE_IS_XZERO x = false ∧ HLL_SPARSE_IS_VAL x = true ∧ HLL_SPARSE_VAL_LEN x = n ∧ HLL_SPARSE_VAL_VALUE x = v.
Proof.
  intros Hv Hn. eexists. split; [done|]. split; [apply u8_byte|].
  set (P v n := match HLL_SPARSE_VAL_SET v n with [x] => negb (HLL_SPARSE_IS_ZERO x) && negb (HLL_SPARSE_IS_XZERO x) && HLL_SPARSE_IS_VAL x &&
    (HLL_SPARSE_VAL_LEN x =? n) && (HLL_SPARSE_VAL_VALUE x =? v) | _ => false end).
  assert (P v n = true) as H.
  { apply (forall_upto (P v) 4); [|exact Hn]. apply (forall_upto (λ v, check_upto 4 1 (P v)) 32); [by vm_compute|exact Hv]. }
  unfold P, HLL_SPARSE_VAL_SET in H. rewrite !andb_true_iff, !negb_true_iff, !Z.eqb_eq in H. tauto.
Qed.

Lemma xzero_bytes n : 1 ≤ n ≤ HLL_SPARSE_XZERO_MAX_LEN → ∃ x y, opc_enc (XZero n) = [x; y] ∧ byte_ok x ∧ byte_ok y ∧
  HLL_SPARSE_IS_ZERO x = false ∧ HLL_SPARSE_IS_XZERO x = true ∧ HLL_SPARSE_IS_VAL x = false ∧ HLL_SPARSE_XZERO_LEN x y = n.
Proof.
  intros Hn. eexists _, _. split; [done|]. split; [apply u8_byte|]. unfold byte_ok, in_u.
  set (P n := match HLL_SPARSE_XZERO_SET n with [x; y] => (0 <=? y) && (y <? 2 ^ 8) && negb (HLL_SPARSE_IS_ZERO x) && HLL_SPARSE_IS_XZERO x &&
    negb (HLL_SPARSE_IS_VAL x) && (HLL_SPARSE_XZERO_LEN x y =? n) | _ => false end).
  assert (P n = true) as H by (apply (forall_upto P (Z.to_nat 16384)); [by vm_compute|rewrite Z2Nat.id by done; exact Hn]).
  unfold P, HLL_SPARSE_XZERO_SET in H. rewrite !andb_true_iff, !negb_true_iff, !Z.eqb_eq, Z.leb_le, Z.ltb_lt in H. tauto.
Qed.

Lemma encs_opc_app a b : encs (a ++ b) = encs a ++ encs b.
Proof. unfold encs. by rewrite map_app, concat_app. Qed.
Lemma regs_app a b : regs (a ++ b) = regs a ++ regs b.
Proof. unfold regs. by rewrite map_app, concat_app. Qed.
Lemma encs_opc_cons o os : encs (o :: os) = opc_enc o ++ encs os.
Proof. done. Qed.
Lemma regs_cons o os : regs (o :: os) = opc_regs o ++ regs os.
Proof. done. Qed.

Lemma opc_pos o : opc_ok o → 1 ≤ opc_len o ∧ 1 ≤ zlen (opc_enc o) ≤ 2 ∧ bytes_ok (opc_enc o) ∧ 0 ≤ opc_val o ≤ 32.
Proof.
  destruct o as [n|n|v n]; cbn [opc_ok opc_len opc_val].
  - intros H. destruct (zero_bytes n H) as (x & -> & Hx & _). split; [lia|]. split; [cbn; lia|]. split; [by apply Forall_singleton|lia].
  - intros H. destruct (xzero_bytes n H) as (x & y & -> & Hx & Hy & _). split; [lia|]. split; [cbn; lia|]. split; [apply Forall_cons; split; [done|by apply Forall_singleton]|lia].
  - intros [H1 H2]. destruct (val_bytes v n H1 H2) as (x & -> & Hx & _). unfold HLL_SPARSE_VAL_MAX_VALUE in H1.
    split; [lia|]. split; [cbn; lia|]. split; [by apply Forall_singleton|lia].
Qed.

Lemma opc_regs_length o : opc_ok o → zlen (opc_regs o) = opc_len o.
Proof. intros H. apply opc_pos in H as (H & _). unfold opc_regs. rewrite length_replicate. lia. Qed.

Lemma encs_fuel os : Forall opc_ok os → (length os ≤ length (encs os))%nat.
Proof.
  induction 1 as [|o os Ho Hos IH]; [done|]. rewrite encs_opc_cons, length_app. apply opc_pos in Ho as (_ & H & _). cbn [length]. lia.
Qed.

Lemma encs_bytes os : Forall opc_ok os → bytes_ok (encs os).
Proof. induction 1 as [|o os Ho Hos IH]; [constructor|]. rewrite encs_opc_cons. apply Forall_app. split; [by apply opc_pos in Ho as (_ & _ & ? & _)|done]. Qed.

(** The first byte of an opcode in a block, and what the code finds out from it. *)
Section at_opcode.
Context (A R : list Z) (o : opc) (Ho : opc_ok o).
Abbreviation blk := (A ++ opc_enc o ++ R).

Lemma opcode_at : ∃ x, get blk (zlen A) = Some x ∧
  match o with
  | Zero n => HLL_SPARSE_IS_ZERO x = true ∧ HLL_SPARSE_IS_XZERO x = false ∧ HLL_SPARSE_IS_VAL x = false ∧ HLL_SPARSE_ZERO_LEN x = n ∧ zlen (opc_enc o) = 1
  | XZero n => HLL_SPARSE_IS_ZERO x = false ∧ HLL_SPARSE_IS_XZERO x = true ∧ HLL_SPARSE_IS_VAL x = false ∧ zlen (opc_enc o) = 2 ∧
      ∃ y, get blk (zlen A + 1) = Some y ∧ HLL_SPARSE_XZERO_LEN x y = n
  | Val v n => HLL_SPARSE_IS_ZERO x = false ∧ HLL_SPARSE_IS_XZERO x = false ∧ HLL_SPARSE_IS_VAL x = true ∧ HLL_SPARSE_VAL_LEN x = n ∧
      HLL_SPARSE_VAL_VALUE x = v ∧ zlen (opc_enc o) = 1
  end.
Proof.
  destruct o as [n|n|v n]; cbn [opc_ok] in Ho.
  - destruct (zero_bytes n Ho) as (x & -> & Hx & H1 & H2 & H3 & H4). exists x. split; [by apply get_app|]. done.
  - destruct (xzero_bytes n Ho) as (x & y & -> & Hx & Hy & H1 & H2 & H3 & H4). exists x. split; [by apply (get_app A x ([y] ++ R))|].
    split; [done|]. split; [done|]. split; [done|]. split; [done|]. exists y. split; [|done]. change ([x; y] ++ R) with ([x] ++ y :: R). rewrite app_assoc.
    apply get_app. rewrite length_app. cbn. lia.
  - destruct Ho as [Hv Hn]. destruct (val_bytes v n Hv Hn) as (x & -> & Hx & H1 & H2 & H3 & H4 & H5). exists x. split; [by apply get_app|]. done.
Qed.
End at_opcode.

Lemma framed_trans b b' b'' : framed b b' → framed b' b'' → framed b b''.
Proof. intros [H1 H2] [H3 H4]. split; [|congruence]. intros j Hj. by rewrite H3, H1. Qed.

Lemma set_run_ok n : ∀ dense pre post v, 0 ≤ v < 64 → holds dense (pre ++ replicate n 0 ++ post) →
  ∃ d, set_run n dense (zlen pre) v = Some d ∧ holds d (pre ++ replicate n v ++ post) ∧ framed dense d.
Proof.
  induction n as [|n IH]; intros dense pre post v Hv Hd; cbn [set_run]; [by exists dense|]. pose proof (ho_regs _ _ Hd) as Hr. rewrite !length_app in Hr.
  cbn [replicate length] in Hr.
  destruct (set_dense dense _ (zlen pre) v Hd) as (d1 & -> & Hd1 & Hf1); [lia|done|]. rewrite some_bind. rewrite Nat2Z.id in Hd1.
  cbn [replicate app] in Hd1. rewrite insert_app_r_alt, Nat.sub_diag in Hd1 by done. cbn in Hd1.
  destruct (IH d1 (pre ++ [v]) post v Hv) as (d & E & Hd2 & Hf2); [by rewrite <- app_assoc|].
  exists d. replace (zlen (pre ++ [v])) with (zlen pre + 1) in E by (rewrite length_app; cbn; lia). split; [done|]. rewrite <- app_assoc in Hd2. split; [done|].
  by apply (framed_trans _ d1).
Qed.

Lemma to_dense_loop_ok fuel : ∀ os A R dense pre, (length os < fuel)%nat → Forall opc_ok os → holds dense (pre ++ replicate (length (regs os)) 0) →
  ∃ d, to_dense_loop fuel (A ++ encs os ++ R) (zlen A) (zlen A + zlen (encs os)) dense (zlen pre) = Some (d, zlen pre + zlen (regs os)) ∧
    holds d (pre ++ regs os) ∧ framed dense d.
Proof.
  induction fuel as [|fuel IH]; intros os A R dense pre Hf Hos Hd; [lia|]. cbn [to_dense_loop]. destruct os as [|o os].
  - cbn. rewrite (proj2 (Z.ltb_ge _ _)) by lia. exists dense. cbn. rewrite Z.add_0_r. done.
  - apply Forall_cons in Hos as [Ho Hos]. destruct (opc_pos o Ho) as (Hl & He & _ & Hv). pose proof (opc_regs_length o Ho) as Hol.
    rewrite encs_opc_cons, regs_cons in *. rewrite !length_app, !Nat2Z.inj_add in *. rewrite replicate_add in Hd. cbn [length] in Hf.
    rewrite (proj2 (Z.ltb_lt _ _)) by lia. cbn [negb]. rewrite <- app_assoc. destruct (opcode_at A (encs os ++ R) o Ho) as (x & -> & Hx). rewrite some_bind.
    assert (∃ d1, holds d1 ((pre ++ opc_regs o) ++ replicate (length (regs os)) 0) ∧ framed dense d1 ∧
      (if HLL_SPARSE_IS_ZERO x then to_dense_loop fuel (A ++ opc_enc o ++ encs os ++ R) (zlen A + 1) (zlen A + (zlen (opc_enc o) + zlen (encs os))) dense (zlen pre + HLL_SPARSE_ZERO_LEN x)
       else if HLL_SPARSE_IS_XZERO x then
        y ← get (A ++ opc_enc o ++ encs os ++ R) (zlen A + 1);
        to_dense_loop fuel (A ++ opc_enc o ++ encs os ++ R) (zlen A + 2) (zlen A + (zlen (opc_enc o) + zlen (encs os))) dense (zlen pre + HLL_SPARSE_XZERO_LEN x y)
       else d ← set_run (Z.to_nat (HLL_SPARSE_VAL_LEN x)) dense (zlen pre) (HLL_SPARSE_VAL_VALUE x);
        to_dense_loop fuel (A ++ opc_enc o ++ encs os ++ R) (zlen A + 1) (zlen A + (zlen (opc_enc o) + zlen (encs os))) d (zlen pre + HLL_SPARSE_VAL_LEN x)) =
      to_dense_loop fuel ((A ++ opc_enc o) ++ encs os ++ R) (zlen (A ++ opc_enc o)) (zlen (A ++ opc_enc o) + zlen (encs os)) d1 (zlen (pre ++ opc_regs o)))
      as (d1 & Hd1 & Hf1 & ->).
    { rewrite <- !app_assoc, !length_app, !Nat2Z.inj_add, Hol, Z.add_assoc. unfold opc_regs in *. rewrite length_replicate in Hd.
      destruct o as [n|n|v n]; cbn [opc_len opc_val] in *.
      - destruct Hx as (-> & _ & _ & -> & ->). by exists dense.
      - destruct Hx as (-> & -> & _ & -> & y & -> & Hn). rewrite some_bind, Hn. by exists dense.
      - destruct Hx as (-> & -> & _ & -> & -> & ->). destruct (set_run_ok (Z.to_nat n) dense pre (replicate (length (regs os)) 0) v) as (d1 & -> & Hd1 & Hf1); [lia|done|].
        by exists d1. }
    destruct (IH os (A ++ opc_enc o) R d1 (pre ++ opc_regs o)) as (d & -> & Hd' & Hf'); [lia|done|done|].
    exists d. rewrite length_app, Nat2Z.inj_add, Z.add_assoc, <- app_assoc in *. split; [done|]. split; [done|]. by apply (framed_trans _ d1).
Qed.

(** ** Strings that are HyperLogLogs *)
Definition magic : list Z := [72; 89; 76; 76].

(** A header with an encoding; the bytes behind it are reserved and the cached count. *)
Definition header (e : Z) (rest : list Z) : list Z := magic ++ [e] ++ rest.

Inductive hll : list Z → list Z → Prop :=
  | hll_dense rest d r : length rest = 11%nat → holds (header HLL_DENSE rest ++ d ++ [0]) r → hll (header HLL_DENSE rest ++ d) r
  | hll_sparse rest os : length rest = 11%nat → bytes_ok rest → Forall opc_ok os → zlen (regs os) = HLL_REGISTERS →
      hll (header HLL_SPARSE rest ++ encs os) (regs os).

Lemma hll_header_length e rest : length rest = 11%nat → zlen (header e rest) = HLL_HDR_SIZE.
Proof. intros H. unfold header. rewrite !length_app, H. done. Qed.

Lemma get_encoding e rest t : get (header e rest ++ t) hdr_encoding = Some e.
Proof. unfold header. rewrite <- !app_assoc. by apply (get_app magic e). Qed.

Lemma set_encoding e e' rest t : mwrite (header e rest ++ t) hdr_encoding [e'] = Some (header e' rest ++ t).
Proof. unfold header. rewrite <- !app_assoc. by apply (mwrite_app magic [e] [e']). Qed.

Lemma lookup_zeros n i : 0 ≤ i < Z.of_nat n → get (replicate n 0) i = Some 0.
Proof. intros H. rewrite get_nth by lia. apply lookup_replicate_2. lia. Qed.

Lemma get_shift A b i : 0 ≤ i → get (A ++ b) (zlen A + i) = get b i.
Proof. intros H. rewrite !get_nth by lia. rewrite lookup_app_r by lia. f_equal. lia. Qed.

(** A new dense string. *)
Lemma holds_zeros h : zlen h = HLL_HDR_SIZE → bytes_ok h → holds (h ++ replicate (Z.to_nat (HLL_DENSE_SIZE - HLL_HDR_SIZE)) 0 ++ [0]) zeros.
Proof.
  intros Hh Hb. change ([0]) with (replicate 1 0). rewrite <- replicate_add. set (n := (_ + 1)%nat). assert (Z.of_nat n = 12289) as Hn by done. clearbody n.
  split; [apply Forall_app; split; [done|by apply Forall_replicate]| |by rewrite zlen_zeros|].
  { rewrite length_app, length_replicate, Nat2Z.inj_add, Hh, Hn. done. }
  intros i x [-> Hi]%lookup_replicate. assert (0 ≤ Z.of_nat i < 16384) as Hi' by (change HLL_REGISTERS with 16384 in Hi; lia). unfold HLL_DENSE_GET_REGISTER, HLL_BITS.
  assert (0 ≤ Z.of_nat i * 6 / 8 < 12288) by (split; [apply Z.div_pos; lia|apply Z.div_lt_upper_bound; lia]). rewrite <- Hh.
  rewrite !get_shift, !lookup_zeros, !some_bind by lia. by rewrite Z.shiftr_0_l, Z.shiftl_0_l.
Qed.

Lemma contents_app s n : n = zlen s → ∀ t, contents (s ++ 0 :: t) n = Some s.
Proof. intros -> t. unfold contents. rewrite (get_app s 0 t) by done. rewrite some_bind. cbn. by apply mread_start. Qed.

(** A dense block as header, registers and terminator. *)
Lemma dense_block e rest b' r b : length rest = 11%nat → holds b' r → framed (header e rest ++ b ++ [0]) b' →
  zlen (header e rest ++ b) = HLL_DENSE_SIZE → ∃ d, b' = header e rest ++ d ++ [0].
Proof.
  intros Hr [Hb Hs _ _] [F1 F2] Hl. pose proof (hll_header_length e rest Hr) as Hh.
  assert (take 16 b' = header e rest) as Et.
  { apply list_eq. intros j. destruct (decide (j < 16)%nat) as [Hj|Hj].
    - rewrite lookup_take_lt by done. specialize (F1 (Z.of_nat j)). rewrite !get_nth, Nat2Z.id in F1 by lia. rewrite F1 by (unfold HLL_HDR_SIZE; lia).
      rewrite lookup_app_l; [done|]. unfold HLL_HDR_SIZE in Hh. lia.
    - rewrite !lookup_ge_None_2; [done|unfold HLL_HDR_SIZE in Hh; lia|rewrite length_take; lia]. }
  assert (get b' HLL_DENSE_SIZE = Some 0) as Hz.
  { rewrite F2, app_assoc. by apply get_app. }
  rewrite get_nth in Hz by done. exists (take (Z.to_nat (HLL_DENSE_SIZE - HLL_HDR_SIZE)) (drop 16 b')). rewrite <- Et.
  rewrite <- (take_drop 16 b') at 1. f_equal. rewrite <- (take_drop (Z.to_nat (HLL_DENSE_SIZE - HLL_HDR_SIZE)) (drop 16 b')) at 1. f_equal. rewrite drop_drop.
  replace (16 + Z.to_nat (HLL_DENSE_SIZE - HLL_HDR_SIZE))%nat with (Z.to_nat HLL_DENSE_SIZE) by done.
  rewrite (drop_S b' 0 _ Hz). f_equal. apply length_zero_iff_nil. rewrite length_drop. lia.
Qed.

Lemma to_dense_ok s r : hll s r → ∃ rest d, hllSparseToDense s = Some (Some (header HLL_DENSE rest ++ d)) ∧ hll (header HLL_DENSE rest ++ d) r ∧ length rest = 11%nat ∧
  ∃ e t, s = header e rest ++ t.
Proof.
  intros [rest d r' Hr Hh|rest os Hr Hb Hos Hn]; unfold hllSparseToDense.
  - rewrite <- app_assoc, get_encoding, some_bind. exists rest, d. split; [done|]. split; [by constructor|]. split; [done|]. by eexists _, _.
  - rewrite <- app_assoc, get_encoding, some_bind. change (HLL_SPARSE =? HLL_DENSE) with false. pose proof (hll_header_length HLL_SPARSE rest Hr) as Hh.
    rewrite mread_start, some_bind by done.
    replace (Z.to_nat HLL_DENSE_SIZE) with (16 + Z.to_nat (HLL_DENSE_SIZE - HLL_HDR_SIZE))%nat by done.
    rewrite (replicate_add 16), <- app_assoc, mwrite_start, some_bind by (rewrite length_replicate; unfold HLL_HDR_SIZE in Hh; lia).
    rewrite set_encoding, some_bind. set (d0 := header HLL_DENSE rest ++ _). pose proof (hll_header_length HLL_DENSE rest Hr) as Hh0.
    assert (holds d0 (replicate (length (regs os)) 0)) as Hd0.
    { replace (replicate (length (regs os)) 0) with zeros by (unfold zeros; f_equal; lia). apply holds_zeros; [done|].
      unfold header, magic. repeat (apply Forall_cons; split; [done|]). done. }
    pose proof (encs_fuel os Hos) as Hfu.
    destruct (to_dense_loop_ok (S (length (header HLL_SPARSE rest ++ encs os))) os (header HLL_SPARSE rest) [0] d0 []) as (b & E & Hb' & Hf);
      [rewrite length_app; lia|done|done|].
    rewrite Hh in E. change (zlen []) with 0 in E. rewrite Hn in E. rewrite length_app, Nat2Z.inj_add, Hh, <- length_app, E, some_bind. cbn [fst snd].
    change (negb (0 + HLL_REGISTERS =? HLL_REGISTERS)) with false. cbn [app] in Hb'.
    destruct (dense_block HLL_DENSE rest b (regs os) _ Hr Hb' Hf) as (d & ->).
    { rewrite length_app, length_replicate, Nat2Z.inj_add, Hh0, Z2Nat.id by done. lia. }
    rewrite app_assoc, contents_app, some_bind.
    + exists rest, d. split; [done|]. split; [|split; [done|by eexists _, _]]. apply hll_dense; done.
    + pose proof (ho_size _ _ Hb') as Hsz. rewrite !length_app in *. cbn [length] in Hsz. lia.
Qed.
