(* ===== verification/HllSparse.v ===== *)
(** * Adding to sparse HyperLogLogs

    [hllSparseAdd] of [hyperloglog.c] on the opcodes: it finds the opcode that
    covers a register, replaces it by up to three, and joins adjacent values;
    the registers the opcodes stand for change in the one register alone. *)

From S2P Require Import Prelude Hll.

(** ** Finding the opcode of a register *)
Definition prev_of (A : list Z) (a : list opc) (prev : option Z) : option Z :=
  match last a with None => prev | Some l => Some (zlen A + zlen (encs a) - zlen (opc_enc l)) end.

Lemma locate_ok fuel index : ∀ os A R prev first span, (length os < fuel)%nat → Forall opc_ok os → 0 ≤ index - first < zlen (regs os) →
  ∃ a o c, os = a ++ o :: c ∧ zlen (regs a) ≤ index - first < zlen (regs a) + opc_len o ∧
    locate fuel (A ++ encs os ++ R) (zlen A + zlen (encs os)) index (zlen A) prev first span =
      Some (zlen A + zlen (encs a), prev_of A a prev, first + zlen (regs a), opc_len o).
Proof.
  induction fuel as [|fuel IH]; intros os A R prev first span Hf Hos Hi; [lia|]. destruct os as [|o os]; [cbn in Hi; lia|].
  apply Forall_cons in Hos as [Ho Hos]. destruct (opc_pos o Ho) as (Hl & He & _). pose proof (opc_regs_length o Ho) as Hol.
  cbn [locate]. rewrite encs_opc_cons, regs_cons in *. rewrite !length_app, !Nat2Z.inj_add in *. cbn [length] in Hf.
  rewrite (proj2 (Z.ltb_lt _ _)) by lia. cbn [negb]. rewrite <- app_assoc. destruct (opcode_at A (encs os ++ R) o Ho) as (x & -> & Hx). rewrite some_bind.
  assert ((if HLL_SPARSE_IS_ZERO x then Some (HLL_SPARSE_ZERO_LEN x, 1)
           else if HLL_SPARSE_IS_VAL x then Some (HLL_SPARSE_VAL_LEN x, 1)
           else y ← get (A ++ opc_enc o ++ encs os ++ R) (zlen A + 1); Some (HLL_SPARSE_XZERO_LEN x y, 2)) = Some (opc_len o, zlen (opc_enc o))) as ->.
  { destruct o as [n|n|v n]; cbn [opc_len].
    - by destruct Hx as (-> & _ & _ & -> & ->).
    - destruct Hx as (-> & _ & -> & -> & y & -> & Hn). by rewrite some_bind, Hn.
    - by destruct Hx as (-> & _ & -> & -> & _ & ->). }
  rewrite some_bind. destruct (Z.leb_spec index (first + opc_len o - 1)) as [Hc|Hc].
  - exists [], o, os. split; [done|]. change (regs []) with (@nil Z). change (encs []) with (@nil Z). cbn [length]. split; [lia|]. cbn [prev_of last].
    by rewrite !Z.add_0_r.
  - destruct (IH os (A ++ opc_enc o) R (Some (zlen A)) (first + opc_len o) (opc_len o)) as (a & o' & c & -> & Hr & E); [lia|done|lia|].
    exists (o :: a), o', c. split; [done|]. rewrite encs_opc_cons, regs_cons, !length_app, !Nat2Z.inj_add. split; [lia|].
    rewrite <- app_assoc, length_app, Nat2Z.inj_add in E. rewrite Z.add_assoc, E. f_equal. f_equal. f_equal; [|lia]. f_equal; [lia|].
    unfold prev_of. destruct a as [|o2 a].
    + cbn [last]. change (encs []) with (@nil Z). rewrite encs_opc_cons, app_nil_r. f_equal. lia.
    + change (last (o :: o2 :: a)) with (last (o2 :: a)). destruct (last (o2 :: a)) as [l|] eqn:El; [|by apply last_None in El].
      rewrite !length_app, (encs_opc_cons o), length_app. f_equal. lia.
Qed.

(** ** Joining adjacent values *)
Lemma merge_two A v n1 n2 os t : 1 ≤ v ≤ HLL_SPARSE_VAL_MAX_VALUE → 1 ≤ n1 → 1 ≤ n2 → n1 + n2 ≤ HLL_SPARSE_VAL_MAX_LEN →
  let fin := zlen A + zlen (encs (Val v n1 :: Val v n2 :: os)) in
  (b ← mwrite (A ++ encs (Val v n1 :: Val v n2 :: os) ++ 0 :: t) (zlen A + 1) (HLL_SPARSE_VAL_SET v (n1 + n2));
   b ← memmove b (zlen A) (zlen A + 1) (fin - zlen A);
   mwrite b (fin - 1) [0]) = Some (A ++ encs (Val v (n1 + n2) :: os) ++ 0 :: 0 :: t).
Proof.
  intros Hv H1 H2 H12 fin. destruct (val_bytes v n1) as (x & Ex & _); [done|unfold HLL_SPARSE_VAL_MAX_LEN in *; lia|].
  destruct (val_bytes v n2) as (y & Ey & _); [done|unfold HLL_SPARSE_VAL_MAX_LEN in *; lia|].
  destruct (val_bytes v (n1 + n2)) as (z & Ez & _); [done|lia|]. change (HLL_SPARSE_VAL_SET v (n1 + n2)) with (opc_enc (Val v (n1 + n2))).
  unfold fin. rewrite !encs_opc_cons, Ex, Ey, Ez. clear fin. rewrite !length_app, !Nat2Z.inj_add. cbn [length]. set (E := encs os).
  replace (A ++ ([x] ++ [y] ++ E) ++ 0 :: t) with ((A ++ [x]) ++ [y] ++ E ++ 0 :: t) by (by rewrite <- !app_assoc).
  rewrite (mwrite_app (A ++ [x]) [y] [z]), some_bind by (rewrite ?length_app; cbn; (done || lia)).
  replace ((A ++ [x]) ++ [z] ++ E ++ 0 :: t) with ((A ++ [x] ++ ([z] ++ E ++ [0])) ++ t) by (by rewrite <- !app_assoc).
  rewrite (memmove_frame _ t _ _ _ (A ++ ([z] ++ E ++ [0]) ++ [0])), some_bind.
  - replace ((A ++ ([z] ++ E ++ [0]) ++ [0]) ++ t) with ((A ++ [z] ++ E) ++ [0] ++ 0 :: t) by (by rewrite <- !app_assoc).
    rewrite (mwrite_app (A ++ [z] ++ E) [0] [0]) by (rewrite ?length_app; cbn; (done || lia)). by rewrite <- !app_assoc.
  - rewrite (memmove_left A [x] ([z] ++ E ++ [0])) by (rewrite ?length_app; cbn; lia). do 3 f_equal.
    rewrite (app_assoc [x]), (app_assoc ([x] ++ [z])) . rewrite drop_app_length'; [done|]. rewrite !length_app. cbn. lia.
Qed.

Lemma merge_loop_ok n : ∀ os A t, Forall opc_ok os →
  ∃ os' t', merge_loop n (A ++ encs os ++ 0 :: t) (zlen A) (zlen A + zlen (encs os)) = Some (A ++ encs os' ++ 0 :: t', zlen A + zlen (encs os')) ∧
    Forall opc_ok os' ∧ regs os' = regs os.
Proof.
  induction n as [|n IH]; intros os A t Hos.
  { exists os, t. cbn [merge_loop]. destruct (negb _); done. }
  destruct os as [|o os].
  { exists [], t. cbn [merge_loop]. change (encs []) with (@nil Z). cbn [length]. by rewrite (proj2 (Z.ltb_ge _ _)) by lia. }
  pose proof Hos as [Ho Hos']%Forall_cons. destruct (opc_pos o Ho) as (Hl & He & _).
  assert (∃ os' t', merge_loop n (A ++ encs (o :: os) ++ 0 :: t) (zlen A + zlen (opc_enc o)) (zlen A + zlen (encs (o :: os))) =
    Some (A ++ encs os' ++ 0 :: t', zlen A + zlen (encs os')) ∧ Forall opc_ok os' ∧ regs os' = regs (o :: os)) as Hskip.
  { destruct (IH os (A ++ opc_enc o) t Hos') as (os' & t' & E & H1 & H2). exists (o :: os'), t'.
    rewrite !encs_opc_cons, !regs_cons, !length_app, !Nat2Z.inj_add, <- !app_assoc, !Z.add_assoc in *. rewrite E. split; [done|]. split; [by constructor|by rewrite H2]. }
  cbn [merge_loop]. rewrite (encs_opc_cons o os), (length_app (opc_enc o)), Nat2Z.inj_add. rewrite (proj2 (Z.ltb_lt _ _)) by lia. cbn [negb].
  rewrite <- Nat2Z.inj_add, <- length_app, <- encs_opc_cons, (encs_opc_cons o os), <- (app_assoc (opc_enc o)).
  destruct (opcode_at A (encs os ++ 0 :: t) o Ho) as (x & -> & Hx). rewrite some_bind. rewrite (app_assoc (opc_enc o)), <- encs_opc_cons.
  destruct o as [k|k|v k].
  - destruct Hx as (-> & -> & _ & _ & Hk). by rewrite Hk in Hskip.
  - destruct Hx as (-> & -> & _ & Hk & _). by rewrite Hk in Hskip.
  - destruct Hx as (-> & -> & _ & -> & -> & Hk). rewrite Hk in *. destruct os as [|o2 os].
    { rewrite encs_opc_cons, length_app. change (encs []) with (@nil Z). cbn [length]. rewrite (proj2 (Z.ltb_ge _ _)) by lia.
      rewrite some_bind. rewrite encs_opc_cons, length_app in Hskip. exact Hskip. }
    apply Forall_cons in Hos' as [Ho2 Hos'].
    assert ((zlen A + 1 <? zlen A + zlen (encs (Val v k :: o2 :: os))) = true) as ->.
    { apply Z.ltb_lt. rewrite !encs_opc_cons, !length_app. destruct (opc_pos o2 Ho2) as (_ & H2 & _). lia. }
    destruct (opcode_at (A ++ opc_enc (Val v k)) (encs os ++ 0 :: t) o2 Ho2) as (y & Hy & Hx2).
    rewrite length_app, Nat2Z.inj_add, Hk in Hy, Hx2. replace ((A ++ opc_enc (Val v k)) ++ opc_enc o2 ++ encs os ++ 0 :: t)
      with (A ++ encs (Val v k :: o2 :: os) ++ 0 :: t) in Hy by (rewrite !encs_opc_cons, <- !app_assoc; done).
    rewrite Hy, !some_bind. destruct o2 as [k2|k2|v2 k2].
    + destruct Hx2 as (_ & _ & -> & _). exact Hskip.
    + destruct Hx2 as (_ & _ & -> & _). exact Hskip.
    + destruct Hx2 as (_ & _ & -> & -> & -> & _). destruct (Z.eqb_spec v v2) as [<-|]; [|exact Hskip]. cbn [andb].
      destruct (Z.leb_spec (k + k2) HLL_SPARSE_VAL_MAX_LEN) as [Hle|]; [|exact Hskip]. destruct Ho as [Hv Hk1], Ho2 as [_ Hk2].
      pose proof (merge_two A v k k2 os t Hv) as E. cbv zeta in E. revert E.
      destruct (mwrite _ (zlen A + 1) _) as [b1|]; [|intros E; exfalso; revert E; cbn; intros E; specialize (E ltac:(lia) ltac:(lia) Hle); done].
      rewrite !some_bind. destruct (memmove b1 _ _ _) as [b2|]; [|intros E; exfalso; specialize (E ltac:(lia) ltac:(lia) Hle); done]. rewrite !some_bind.
      intros ->; [|lia|lia|done]. rewrite some_bind.
      destruct (IH (Val v (k + k2) :: os) A (0 :: t)) as (os' & t' & E & H1 & H2); [constructor; [split; [done|lia]|done]|].
      exists os', t'. rewrite <- E. split; [f_equal|].
      * rewrite !encs_opc_cons, !length_app. destruct (val_bytes v k Hv Hk1) as (? & -> & _). destruct (val_bytes v k2 Hv Hk2) as (? & -> & _).
        destruct (val_bytes v (k + k2) Hv) as (? & -> & _); [lia|]. cbn [length]. lia.
      * split; [done|]. rewrite H2, !regs_cons, app_assoc. f_equal. unfold opc_regs. cbn [opc_len opc_val]. by rewrite Z2Nat.inj_add, replicate_add by lia.
Qed.

(** ** Adding to a sparse string *)
Lemma invalidate_ok e rest t : length rest = 11%nat → bytes_ok rest →
  ∃ rest', HLL_INVALIDATE_CACHE (header e rest ++ t) = Some (header e rest' ++ t) ∧ length rest' = 11%nat ∧ bytes_ok rest' ∧
    HLL_VALID_CACHE (header e rest' ++ t) = Some false.
Proof.
  intros Hl Hb. destruct rest as [|x rest _] using rev_ind; [done|]. rewrite length_app in Hl. cbn [length] in Hl. apply Forall_app in Hb as [Hb [Hx _]%Forall_cons].
  assert (∀ y, header e (rest ++ [y]) ++ t = (header e rest) ++ [y] ++ t) as Eh by (intros y; unfold header; by rewrite <- !app_assoc).
  assert (hdr_card + 7 = zlen (header e rest)) as Ep by (unfold header; rewrite !length_app; cbn [length]; unfold hdr_card; cbn; lia).
  exists (rest ++ [Z.lor x 128]). unfold HLL_INVALIDATE_CACHE, HLL_VALID_CACHE. rewrite !Eh, Ep.
  rewrite (get_app _ x t), some_bind by done. change (Z.shiftl 1 7) with 128. rewrite (mwrite_app _ [x] [Z.lor x 128]) by done. split; [done|]. split; [rewrite length_app; cbn; lia|].
  rewrite (get_app _ (Z.lor x 128) t), some_bind by done. split.
  - apply Forall_app. split; [done|]. apply Forall_singleton. destruct Hx as [H1 H2]. unfold byte_ok, in_u in *. split; [by apply Z.lor_nonneg|].
    destruct (decide (Z.lor x 128 = 0)) as [->|]; [done|]. apply Z.log2_lt_pow2; [assert (0 ≤ Z.lor x 128) by (by apply Z.lor_nonneg); lia|].
    rewrite Z.log2_lor by lia. apply Z.max_lub_lt; [|done]. destruct (decide (x = 0)) as [->|]; [done|]. apply Z.log2_lt_pow2; lia.
  - f_equal. change 128 with (2 ^ 7). rewrite land_bit, Z.lor_spec, Z.pow2_bits_true, orb_true_r by lia. done.
Qed.

Lemma updated_ok rest a os t : length rest = 11%nat → bytes_ok rest → Forall opc_ok (a ++ os) →
  zlen (regs (a ++ os)) = HLL_REGISTERS →
  ∃ s, updated (header HLL_SPARSE rest ++ encs (a ++ os) ++ 0 :: t) (prev_of (header HLL_SPARSE rest) a None) (HLL_HDR_SIZE + zlen (encs (a ++ os))) = Some (1, s) ∧
    hll s (regs (a ++ os)).
Proof.
  intros Hr Hb Hos Hn. pose proof (hll_header_length HLL_SPARSE rest Hr) as Hh. unfold updated.
  assert (∃ a' os1, a ++ os = a' ++ os1 ∧ match prev_of (header HLL_SPARSE rest) a None with Some p => p | None => HLL_HDR_SIZE end =
    zlen (header HLL_SPARSE rest ++ encs a')) as (a' & os1 & Eos & ->).
  { unfold prev_of. destruct a as [|l a _] using rev_ind; [exists [], os; rewrite app_nil_r; by split|].
    rewrite last_snoc. exists a, (l :: os). split; [by rewrite <- app_assoc|].
    rewrite encs_opc_app, !length_app, !Nat2Z.inj_add. unfold encs. cbn [map concat]. rewrite app_nil_r. lia. }
  rewrite Eos in *. pose proof Hos as [Ha' Hos1]%Forall_app.
  destruct (merge_loop_ok 5 os1 (header HLL_SPARSE rest ++ encs a') t Hos1) as (os' & t' & E & Hos' & Hregs).
  replace (header HLL_SPARSE rest ++ encs (a' ++ os1) ++ 0 :: t) with ((header HLL_SPARSE rest ++ encs a') ++ encs os1 ++ 0 :: t)
    by (by rewrite encs_opc_app, <- !app_assoc).
  replace (HLL_HDR_SIZE + zlen (encs (a' ++ os1))) with (zlen (header HLL_SPARSE rest ++ encs a') + zlen (encs os1))
    by (rewrite encs_opc_app, !length_app; lia).
  rewrite E, some_bind, <- !app_assoc.
  destruct (invalidate_ok HLL_SPARSE rest (encs a' ++ encs os' ++ 0 :: t') Hr Hb) as (rest' & -> & Hr' & Hb' & _). rewrite some_bind.
  rewrite (app_assoc (encs a')), <- encs_opc_app, (app_assoc (header HLL_SPARSE rest')), contents_app, some_bind.
  - eexists. split; [done|]. rewrite regs_app, <- Hregs, <- regs_app in *. constructor; [done|done| |done]. by apply Forall_app.
  - rewrite !length_app, encs_opc_app, length_app. pose proof (hll_header_length HLL_SPARSE rest' Hr'). lia.
Qed.

(** Replacing an opcode in the block. *)
Lemma replace_ok A o seq c J : length J = 3%nat → (length seq - length o ≤ 3)%nat → (1 ≤ length seq)%nat → (1 ≤ length o ≤ 2)%nat →
  let p := zlen A in let fin := zlen A + zlen o + zlen c in let delta := zlen seq - zlen o in
  let next := if p + zlen o >=? fin then None else Some (p + zlen o) in
  ∃ t, (b ← match next with
            | Some next => if delta =? 0 then Some (A ++ o ++ c ++ 0 :: J) else memmove (A ++ o ++ c ++ 0 :: J) (next + delta) next (fin - next)
            | None => Some (A ++ o ++ c ++ 0 :: J)
            end;
        b ← mwrite b (fin + delta) [0];
        mwrite b p seq) = Some (A ++ seq ++ c ++ 0 :: t).
Proof.
  intros HJ Hs Hs1 Ho p fin delta next. destruct (decide (length o ≤ length seq)%nat) as [Hle|Hgt].
  - set (d := (length seq - length o)%nat). assert (∃ w f, length w = d ∧ length f = (4 - d)%nat ∧
      match next with
      | Some next => if delta =? 0 then Some (A ++ o ++ c ++ 0 :: J) else memmove (A ++ o ++ c ++ 0 :: J) (next + delta) next (fin - next)
      | None => Some (A ++ o ++ c ++ 0 :: J)
      end = Some (A ++ (o ++ w) ++ c ++ f)) as (w & f & Hw & Hf & ->).
    { unfold next. destruct (Z.geb_spec (p + zlen o) fin) as [Hc|Hc].
      - assert (c = []) as -> by (apply length_zero_iff_nil; unfold p, fin in Hc; lia). exists (take d (0 :: J)), (drop d (0 :: J)).
        rewrite length_take, length_drop. cbn [length]. split; [lia|]. split; [lia|]. cbn [app]. by rewrite <- app_assoc, take_drop.
      - destruct (Z.eqb_spec delta 0) as [Hd|Hd].
        + exists [], (0 :: J). assert (d = 0%nat) as -> by (unfold d, delta in *; lia). split; [done|]. split; [cbn; lia|]. by rewrite app_nil_r.
        + exists (take d (c ++ take d (0 :: J))), (drop d (0 :: J)). rewrite length_take, !length_app, length_take, length_drop. cbn [length].
          split; [lia|]. split; [lia|].
          replace (A ++ o ++ c ++ 0 :: J) with (((A ++ o) ++ c ++ take d (0 :: J)) ++ drop d (0 :: J)) by (by rewrite <- !app_assoc, take_drop).
          assert (length (take d (0 :: J)) = d) as Ht by (rewrite length_take; cbn; lia).
          pose proof (memmove_right (A ++ o) c (take d (0 :: J)) (p + zlen o + delta) (p + zlen o) (fin - (p + zlen o))) as M. rewrite Ht, length_app in M.
          rewrite (memmove_frame _ (drop d (0 :: J)) _ _ _ _ (M ltac:(unfold p, delta, d in *; lia) ltac:(unfold p; lia) ltac:(unfold p, fin; lia))).
          by rewrite <- !app_assoc. }
    rewrite some_bind. destruct f as [|f0 t]; [cbn in Hf; lia|]. exists t.
    replace (A ++ (o ++ w) ++ c ++ f0 :: t) with ((A ++ (o ++ w) ++ c) ++ [f0] ++ t) by (by rewrite <- !app_assoc).
    rewrite (mwrite_app _ [f0] [0]), some_bind by (rewrite ?length_app, ?Hw; unfold fin, delta, d in *; (done || lia)).
    rewrite <- !app_assoc, (app_assoc o w). rewrite (mwrite_app A (o ++ w) seq) by (rewrite ?length_app, ?Hw; unfold p, d; (done || lia)). done.
  - destruct o as [|x [|y [|? o]]]; cbn [length] in *; try lia. destruct seq as [|z [|? seq]]; cbn [length] in *; try lia. assert (delta = -1) as Hd by (unfold delta; cbn; lia).
    exists (0 :: J). assert (∃ w, match next with
      | Some next => if delta =? 0 then Some (A ++ [x; y] ++ c ++ 0 :: J) else memmove (A ++ [x; y] ++ c ++ 0 :: J) (next + delta) next (fin - next)
      | None => Some (A ++ [x; y] ++ c ++ 0 :: J)
      end = Some ((A ++ [x] ++ c) ++ [w] ++ 0 :: J)) as (w & ->).
    { unfold next. destruct (Z.geb_spec (p + Z.of_nat 2) fin) as [Hc|Hc].
      - assert (c = []) as -> by (apply length_zero_iff_nil; unfold p, fin in Hc; lia). exists y. by rewrite <- !app_assoc.
      - rewrite Hd. change (-1 =? 0) with false. destruct (drop (length c) ([y] ++ c)) as [|w [|? ?]] eqn:Ew;
          [apply (f_equal length) in Ew; rewrite length_drop in Ew; cbn in Ew; lia| |apply (f_equal length) in Ew; rewrite length_drop in Ew; cbn in Ew; lia].
        exists w. replace (A ++ [x; y] ++ c ++ 0 :: J) with (((A ++ [x]) ++ [y] ++ c) ++ 0 :: J) by (by rewrite <- !app_assoc).
        rewrite (memmove_frame ((A ++ [x]) ++ [y] ++ c) (0 :: J) _ _ _ ((A ++ [x]) ++ c ++ [w])) by
          (rewrite <- Ew; apply memmove_left; rewrite ?length_app; cbn [length]; unfold p, fin; lia). by rewrite <- !app_assoc. }
    rewrite some_bind, Hd. rewrite (mwrite_app _ [w] [0]), some_bind by (rewrite ?length_app; cbn [length]; unfold fin; (done || lia)).
    rewrite <- !app_assoc. rewrite (mwrite_app A [x] [z]) by done. done.
Qed.

(** The sequence that replaces an opcode. *)
Definition run_ops (o : opc) (len : Z) : list opc :=
  if len =? 0 then [] else
  match o with Val v _ => [Val v len] | _ => if len >? HLL_SPARSE_ZERO_MAX_LEN then [XZero len] else [Zero len] end.
Definition split_ops (o : opc) (k count : Z) : list opc := run_ops o k ++ [Val count 1] ++ run_ops o (opc_len o - 1 - k).
Definition cur_val (o : opc) : option Z := match o with Val v _ => Some v | _ => None end.

Lemma run_ops_ok o len : opc_ok o → 0 ≤ len < opc_len o →
  Forall opc_ok (run_ops o len) ∧ regs (run_ops o len) = replicate (Z.to_nat len) (opc_val o) ∧
  encs (run_ops o len) = (if negb (len =? 0) then match cur_val o with None => zero_run len | Some v => HLL_SPARSE_VAL_SET v len end else []) ∧
  (length (encs (run_ops o len)) ≤ length (opc_enc o))%nat.
Proof.
  intros Ho Hl. unfold run_ops. destruct (Z.eqb_spec len 0) as [->|N]; [cbn; split; [done|]; split; [done|]; split; [done|lia]|]. cbn [negb].
  assert (∀ q : opc, regs [q] = opc_regs q) as R1 by (intros; unfold regs; cbn [map concat]; apply app_nil_r).
  assert (∀ q : opc, encs [q] = opc_enc q) as E1 by (intros; unfold encs; cbn [map concat]; apply app_nil_r).
  destruct o as [n|n|v n]; cbn [opc_ok opc_len opc_val cur_val] in *.
  - unfold zero_run. rewrite Z.gtb_ltb, (proj2 (Z.ltb_ge _ _)) by lia. rewrite R1, E1. split; [apply Forall_singleton; cbn; lia|]. done.
  - unfold zero_run. destruct (Z.gtb_spec len HLL_SPARSE_ZERO_MAX_LEN); rewrite R1, E1; (split; [apply Forall_singleton; cbn; lia|]; split; [done|]; split; [done|cbn; lia]).
  - rewrite R1, E1. split; [apply Forall_singleton; cbn; lia|]. done.
Qed.

Lemma insert_run {A} (n k : nat) (x y : A) : (k < n)%nat → replicate k x ++ [y] ++ replicate (n - 1 - k) x = <[k := y]> (replicate n x).
Proof.
  intros H. replace n with (k + (1 + (n - 1 - k)))%nat at 2 by lia. rewrite replicate_add, insert_app_r_alt by (rewrite length_replicate; lia).
  by rewrite length_replicate, Nat.sub_diag.
Qed.

Lemma split_ok o index first count : opc_ok o → 0 ≤ index - first < opc_len o → 1 ≤ count ≤ HLL_SPARSE_VAL_MAX_VALUE →
  let os := split_ops o (index - first) count in
  split_seq (cur_val o) index first (first + opc_len o - 1) count = Some (encs os) ∧ Forall opc_ok os ∧
  regs os = <[Z.to_nat (index - first) := count]> (opc_regs o) ∧ (1 ≤ length (encs os))%nat ∧ (length (encs os) - length (opc_enc o) ≤ 3)%nat.
Proof.
  intros Ho Hi Hc os. destruct (run_ops_ok o (index - first) Ho) as (F1 & R1 & E1 & L1); [lia|].
  destruct (run_ops_ok o (opc_len o - 1 - (index - first)) Ho) as (F2 & R2 & E2 & L2); [lia|].
  assert (encs os = encs (run_ops o (index - first)) ++ HLL_SPARSE_VAL_SET count 1 ++ encs (run_ops o (opc_len o - 1 - (index - first)))) as Eos.
  { unfold os, split_ops. by rewrite !encs_opc_app. }
  assert (length (encs os) ≤ 1 + 2 * length (opc_enc o))%nat as Hlen by (rewrite Eos, !length_app; unfold HLL_SPARSE_VAL_SET; cbn [length]; lia).
  destruct (opc_pos o Ho) as (_ & Hel & _ & _). split; [|split; [|split; [|split]]].
  - unfold split_seq. replace (negb (index =? first)) with (negb (index - first =? 0)) by (destruct (Z.eqb_spec index first), (Z.eqb_spec (index - first) 0); lia || done).
    replace (negb (index =? first + opc_len o - 1)) with (negb (opc_len o - 1 - (index - first) =? 0))
      by (destruct (Z.eqb_spec index (first + opc_len o - 1)), (Z.eqb_spec (opc_len o - 1 - (index - first)) 0); lia || done).
    replace (first + opc_len o - 1 - index) with (opc_len o - 1 - (index - first)) by lia. rewrite <- E1, <- E2, <- Eos.
    rewrite (proj2 (Z.leb_le _ _)); [done|]. lia.
  - apply Forall_app. split; [done|]. apply Forall_cons. split; [cbn; unfold HLL_SPARSE_VAL_MAX_LEN; lia|done].
  - unfold os, split_ops. rewrite !regs_app, R1, R2. unfold opc_regs. change (regs [Val count 1]) with [count].
    replace (Z.to_nat (opc_len o - 1 - (index - first))) with (Z.to_nat (opc_len o) - 1 - Z.to_nat (index - first))%nat by lia. apply insert_run. lia.
  - rewrite Eos, !length_app. unfold HLL_SPARSE_VAL_SET. cbn [length]. lia.
  - lia.
Qed.

Lemma dense_inv rest d r : length rest = 11%nat → hll (header HLL_DENSE rest ++ d) r → holds (header HLL_DENSE rest ++ d ++ [0]) r.
Proof.
  intros Hr Hd. inversion Hd as [rest' d' r' Hr' Hh E|rest' os Hr' Hb Hos Hn E]; subst; unfold header in E; simplify_eq. apply app_inj_1 in E as [-> ->]; [done|lia].
Qed.

(** A change of the registers of a dense string. *)
Lemma dense_change rest d r b r' : length rest = 11%nat → holds (header HLL_DENSE rest ++ d ++ [0]) r → holds b r' → framed (header HLL_DENSE rest ++ d ++ [0]) b →
  ∃ d', b = header HLL_DENSE rest ++ d' ++ [0] ∧ contents b (zlen (header HLL_DENSE rest ++ d)) = Some (header HLL_DENSE rest ++ d') ∧ hll (header HLL_DENSE rest ++ d') r'.
Proof.
  intros Hr Hh Hb Hf. pose proof (ho_size _ _ Hh) as Hsz. pose proof (ho_size _ _ Hb) as Hsz'. rewrite !length_app in Hsz. cbn [length] in Hsz.
  destruct (dense_block HLL_DENSE rest b r' d Hr Hb Hf) as (d' & ->); [rewrite length_app; lia|]. exists d'. split; [done|].
  rewrite !length_app in Hsz'. cbn [length] in Hsz'. split; [|by constructor]. rewrite app_assoc, contents_app by (rewrite !length_app; lia). done.
Qed.

Section add.
Context (max_bytes : Z) (junk : nat → Z).

Lemma promote_ok s r ele : hll s r → observe ele r ≠ r → ∃ s', promote s ele = Some (1, s') ∧ hll s' (observe ele r).
Proof.
  intros Hs Hne. unfold promote. destruct (to_dense_ok s r Hs) as (rest & d & -> & Hd & Hr & _). rewrite some_bind.
  pose proof (dense_inv _ _ _ Hr Hd) as Hh.
  destruct (dense_add_ok _ r ele Hh) as (b & E & Hb & Hf & _). rewrite <- app_assoc, E, some_bind. rewrite bool_decide_eq_true_2 by done.
  destruct (dense_change rest d r b _ Hr Hh Hb Hf) as (d' & _ & -> & Hd'). by exists (header HLL_DENSE rest ++ d').
Qed.

(** The opcode of the register [index], with what is in front of it and behind. *)
Context (rest : list Z) (a : list opc) (o : opc) (cs : list opc) (ele : list Z) (index count : Z).
Context (Hrest : length rest = 11%nat) (Hbytes : bytes_ok rest) (Hos : Forall opc_ok (a ++ o :: cs)) (Hregs : zlen (regs (a ++ o :: cs)) = HLL_REGISTERS).
Context (Hpat : hllPatLen ele = Some (count, index)) (Hcount : 1 ≤ count ≤ HLL_SPARSE_VAL_MAX_VALUE).
Context (Hindex : zlen (regs a) ≤ index < zlen (regs a) + opc_len o).

Abbreviation H := (header HLL_SPARSE rest).
Abbreviation os := (a ++ o :: cs).
Abbreviation J := (map junk (seq 0 3)).
Abbreviation p := (HLL_HDR_SIZE + zlen (encs a)).
Abbreviation fin := (HLL_HDR_SIZE + zlen (encs os)).

Lemma opcode_ok : opc_ok o.
Proof. by apply Forall_app in Hos as [_ [? _]%Forall_cons]. Qed.

Lemma register_value : regs os !! Z.to_nat index = Some (opc_val o).
Proof.
  rewrite regs_app, lookup_app_r by lia. rewrite regs_cons, lookup_app_l.
  - apply lookup_replicate_2. lia.
  - pose proof (opc_regs_length o opcode_ok). lia.
Qed.

Lemma observe_here : opc_val o < count → ∀ ns, regs ns = <[Z.to_nat (index - zlen (regs a)) := count]> (opc_regs o) →
  regs (a ++ ns ++ cs) = observe ele (regs os) ∧ observe ele (regs os) ≠ regs os.
Proof.
  intros Hv ns Hns. unfold observe. rewrite Hpat. destruct (upd_new (regs os) index count (opc_val o) register_value Hv) as [E N]. split; [|done].
  rewrite E, !regs_app, regs_cons, Hns, insert_app_r_alt by lia. f_equal. rewrite insert_app_l; [by do 2 f_equal; lia|].
  pose proof (opc_regs_length o opcode_ok). lia.
Qed.

Lemma opcode_block : (H ++ encs os) ++ [0] ++ J = (H ++ encs a) ++ opc_enc o ++ encs cs ++ 0 :: J.
Proof. by rewrite encs_opc_app, encs_opc_cons, <- !app_assoc. Qed.

(** What is written makes a HyperLogLog of it. *)
Lemma written_ok ns t : opc_val o < count → Forall opc_ok ns → regs ns = <[Z.to_nat (index - zlen (regs a)) := count]> (opc_regs o) →
  ∃ s', updated ((H ++ encs a) ++ encs ns ++ encs cs ++ 0 :: t) (prev_of H a None) (HLL_HDR_SIZE + zlen (encs (a ++ ns ++ cs))) = Some (1, s') ∧
    hll s' (observe ele (regs os)).
Proof.
  intros Hv Hns Hr. destruct (observe_here Hv ns Hr) as [E _]. apply Forall_app in Hos as [Ha [_ Hcs]%Forall_cons].
  destruct (updated_ok rest a (ns ++ cs) t Hrest Hbytes) as (s' & E' & Hs').
  - apply Forall_app. split; [done|]. by apply Forall_app.
  - rewrite E, observe_length. exact Hregs.
  - exists s'. rewrite E in Hs'. split; [|done]. rewrite <- E'. by rewrite !encs_opc_app, <- !app_assoc.
Qed.

Lemma replaced_ok : opc_val o < count →
  let next := if p + zlen (opc_enc o) >=? fin then None else Some (p + zlen (opc_enc o)) in
  ∃ s', (seq ← split_seq (cur_val o) index (zlen (regs a)) (zlen (regs a) + opc_len o - 1) count;
    let deltalen := zlen seq - zlen (opc_enc o) in
    if (deltalen >? 0) && (fin + deltalen >? max_bytes) then promote (H ++ encs os) ele else
    b ← match next with
        | Some next => if deltalen =? 0 then Some ((H ++ encs os) ++ [0] ++ J) else memmove ((H ++ encs os) ++ [0] ++ J) (next + deltalen) next (fin - next)
        | None => Some ((H ++ encs os) ++ [0] ++ J)
        end;
    b ← mwrite b (fin + deltalen) [0];
    b ← mwrite b p seq;
    updated b (prev_of H a None) (fin + deltalen)) = Some (1, s') ∧ hll s' (observe ele (regs os)).
Proof.
  intros Hv next. destruct (split_ok o index (zlen (regs a)) count opcode_ok) as (-> & Hn & Hr & L1 & L2); [lia|done|]. rewrite some_bind. cbv zeta.
  set (ns := split_ops o (index - zlen (regs a)) count) in *. destruct (observe_here Hv ns Hr) as [E N].
  destruct (_ && _); [apply promote_ok; [by constructor|done]|].
  destruct (opc_pos o opcode_ok) as (_ & Hel & _).
  pose proof (replace_ok (H ++ encs a) (opc_enc o) (encs ns) (encs cs) J) as R. cbv zeta in R. pose proof (hll_header_length HLL_SPARSE rest Hrest) as Hh.
  assert (zlen (H ++ encs a) = p) as Ep by (rewrite length_app; lia).
  assert (zlen (H ++ encs a) + zlen (opc_enc o) + zlen (encs cs) = fin) as Ef by (rewrite encs_opc_app, encs_opc_cons, !length_app; lia).
  rewrite Ef, Ep, <- opcode_block in R. destruct R as (t & R); [done|lia|lia|lia|]. fold next in R.
  apply bind_Some in R as (b & Eb & (b1 & Eb1 & R)%bind_Some). rewrite Eb, some_bind, Eb1, some_bind.
  rewrite R, some_bind. destruct (written_ok ns t Hv Hn Hr) as (s' & E' & Hs'). exists s'. split; [|done].
  replace (fin + (zlen (encs ns) - zlen (opc_enc o))) with (HLL_HDR_SIZE + zlen (encs (a ++ ns ++ cs))) by (rewrite !encs_opc_app, encs_opc_cons, !length_app; lia).
  exact E'.
Qed.

Lemma single_opcode_ok : opc_len o = 1 → zlen (opc_enc o) = 1 → opc_val o < count →
  ∃ s', (b ← mwrite ((H ++ encs os) ++ [0] ++ J) p (HLL_SPARSE_VAL_SET count 1); updated b (prev_of H a None) fin) = Some (1, s') ∧
    hll s' (observe ele (regs os)).
Proof.
  intros Hl He Hv. pose proof (hll_header_length HLL_SPARSE rest Hrest) as Hh. rewrite opcode_block.
  rewrite (mwrite_app (H ++ encs a) (opc_enc o) (HLL_SPARSE_VAL_SET count 1)), some_bind by (rewrite ?length_app; unfold HLL_SPARSE_VAL_SET; cbn [length]; lia).
  destruct (written_ok [Val count 1] J Hv) as (s' & E & Hs').
  - apply Forall_singleton. cbn. unfold HLL_SPARSE_VAL_MAX_LEN. lia.
  - replace (Z.to_nat (index - zlen (regs a))) with 0%nat by lia. unfold opc_regs. by rewrite Hl.
  - exists s'. split; [|done]. rewrite <- E. change (encs [Val count 1]) with (HLL_SPARSE_VAL_SET count 1).
    replace fin with (HLL_HDR_SIZE + zlen (encs (a ++ [Val count 1] ++ cs))) by (rewrite !encs_opc_app, (encs_opc_cons o cs), !length_app; change (encs [Val count 1]) with (HLL_SPARSE_VAL_SET count 1); unfold HLL_SPARSE_VAL_SET; cbn [length]; lia). done.
Qed.
End add.

(** [hllSparseAdd] raises the register of the element and tells whether it did. *)
Lemma sparse_add_ok max_bytes junk rest os ele : length rest = 11%nat → bytes_ok rest → Forall opc_ok os → zlen (regs os) = HLL_REGISTERS →
  let s := header HLL_SPARSE rest ++ encs os in
  ∃ s', hllSparseAdd max_bytes junk s ele = Some (Z.b2z (bool_decide (observe ele (regs os) ≠ regs os)), s') ∧ hll s' (observe ele (regs os)) ∧
    (observe ele (regs os) = regs os → s' = s).
Proof.
  intros Hr Hb Hos Hn s. unfold hllSparseAdd. destruct (hllPatLen_ok ele) as (c & i & Hpat & Hc & Hi & _). rewrite Hpat, some_bind.
  pose proof (hll_header_length HLL_SPARSE rest Hr) as Hh. pose proof (encs_fuel os Hos) as Hfu.
  destruct (locate_ok (S (length s)) i os (header HLL_SPARSE rest) (0 :: map junk (seq 0 3)) None 0 0) as (a & o & cs & -> & Hpos & Eloc);
    [unfold s; rewrite length_app; lia|done|lia|]. rewrite Z.sub_0_r in Hpos.
  pose proof (opcode_ok a o cs Hos) as Ho. pose proof (register_value rest a o cs i Hr Hos Hpos) as Hval.
  destruct (opc_pos o Ho) as (Hlen & _ & _ & Hv).
  assert (∀ s', hll s' (observe ele (regs (a ++ o :: cs))) → opc_val o < c → ∃ s'0,
    Some (1, s') = Some (Z.b2z (bool_decide (observe ele (regs (a ++ o :: cs)) ≠ regs (a ++ o :: cs))), s'0) ∧
    hll s'0 (observe ele (regs (a ++ o :: cs))) ∧ (observe ele (regs (a ++ o :: cs)) = regs (a ++ o :: cs) → s'0 = s)) as Hdone.
  { intros s' Hs' Hlt. exists s'. assert (observe ele (regs (a ++ o :: cs)) ≠ regs (a ++ o :: cs)) as N.
    { unfold observe. rewrite Hpat. by apply (upd_new _ i c (opc_val o)). }
    rewrite bool_decide_eq_true_2 by done. done. }
  destruct (Z.gtb_spec c HLL_SPARSE_VAL_MAX_VALUE) as [Hbig|Hsmall].
  { assert (opc_val o < c) by (unfold HLL_SPARSE_VAL_MAX_VALUE in Hbig; lia). destruct (promote_ok s (regs (a ++ o :: cs)) ele) as (s' & -> & Hs').
    - by constructor.
    - unfold observe. rewrite Hpat. by apply (upd_new _ i c (opc_val o)).
    - by apply Hdone. }
  assert (zlen s = HLL_HDR_SIZE + zlen (encs (a ++ o :: cs))) as Hs by (unfold s; rewrite length_app; lia).
  rewrite Hh, app_assoc in Eloc. fold s in Eloc. change (0 :: map junk (seq 0 3)) with ([0] ++ map junk (seq 0 3)) in Eloc.
  rewrite Hs, Eloc, some_bind, Z.add_0_l, (proj2 (Z.eqb_neq (opc_len o) 0)) by lia.
  pose proof (opcode_at (header HLL_SPARSE rest ++ encs a) (encs cs ++ 0 :: map junk (seq 0 3)) o Ho) as (x & Hx & Hfacts).
  rewrite <- opcode_block in Hx, Hfacts. rewrite length_app, Nat2Z.inj_add, Hh in Hx, Hfacts. fold s in Hx, Hfacts. rewrite Hx, some_bind.
  assert (1 ≤ c ≤ HLL_SPARSE_VAL_MAX_VALUE) as Hc' by lia.
  pose proof (single_opcode_ok junk rest a o cs ele i c Hr Hb Hos Hn Hpat Hc' Hpos) as Hsingle.
  pose proof (replaced_ok max_bytes junk rest a o cs ele i c Hr Hb Hos Hn Hpat Hc' Hpos) as Hreplaced. fold s in Hsingle, Hreplaced. cbv zeta in Hreplaced.
  destruct o as [n|n|v n]; cbn [opc_len opc_val cur_val] in *.
  - destruct Hfacts as (-> & -> & _ & -> & He). rewrite He in *. cbn [negb andb orb]. rewrite some_bind. destruct (Z.eqb_spec n 1) as [H1|H1].
    + destruct Hsingle as (s' & -> & Hs'); [done|done|lia|]. apply Hdone; [done|lia].
    + destruct Hreplaced as (s' & -> & Hs'); [lia|]. apply Hdone; [done|lia].
  - destruct Hfacts as (-> & -> & _ & He & y & -> & Hy). rewrite He in *. cbn [negb andb orb]. rewrite some_bind, Hy, some_bind.
    destruct Hreplaced as (s' & -> & Hs'); [lia|]. apply Hdone; [done|lia].
  - destruct Hfacts as (-> & -> & _ & -> & -> & He). rewrite He in *. cbn [negb andb orb]. rewrite some_bind.
    destruct (Z.geb_spec v c) as [Hge|Hlt].
    + assert (observe ele (regs (a ++ Val v n :: cs)) = regs (a ++ Val v n :: cs)) as E by (unfold observe; rewrite Hpat; by apply (upd_same _ i c v)).
      exists s. rewrite bool_decide_eq_false_2 by (by rewrite E; intros []). split; [done|]. rewrite E. split; [by constructor|done].
    + rewrite orb_false_r. destruct (Z.eqb_spec n 1) as [H1|H1].
      * destruct Hsingle as (s' & -> & Hs'); [done|done|lia|]. apply Hdone; [done|lia].
      * destruct Hreplaced as (s' & -> & Hs'); [lia|]. apply Hdone; [done|lia].
Qed.

(** ** Every encoding *)

(** [hllAdd] raises the register of the element, tells whether it did, and leaves the string as it is if not. *)
Lemma hllAdd_ok max_bytes junk s r ele : hll s r →
  ∃ s', hllAdd max_bytes junk s ele = Some (Z.b2z (bool_decide (observe ele r ≠ r)), s') ∧ hll s' (observe ele r) ∧ (observe ele r = r → s' = s).
Proof.
  intros [rest d r' Hr Hh|rest os Hr Hb Hos Hn]; unfold hllAdd; rewrite <- app_assoc, get_encoding, some_bind.
  - change (HLL_DENSE =? HLL_DENSE) with true. destruct (dense_add_ok _ r' ele Hh) as (b & -> & Hb & Hf & Hsame). rewrite some_bind.
    destruct (dense_change rest d r' b _ Hr Hh Hb Hf) as (d' & -> & -> & Hd'). rewrite some_bind. eexists. split; [done|]. split; [done|].
    intros E. specialize (Hsame E). rewrite !app_assoc in Hsame. by apply app_inj_2 in Hsame as [? _].
  - change (HLL_SPARSE =? HLL_DENSE) with false. change (HLL_SPARSE =? HLL_SPARSE) with true. by apply sparse_add_ok.
Qed.

Lemma create_ok : ∃ s, createHLLObject = Some s ∧ hll s zeros ∧ s = header HLL_SPARSE (replicate 11 0) ++ encs [XZero HLL_REGISTERS].
Proof.
  exists (header HLL_SPARSE (replicate 11 0) ++ encs [XZero HLL_REGISTERS]). split; [by vm_compute|]. split; [|done].
  assert (bytes_ok (replicate 11 0)) as Hb by (by apply Forall_replicate). assert (Forall opc_ok [XZero HLL_REGISTERS]) as Ho by (by apply Forall_singleton).
  assert (regs [XZero HLL_REGISTERS] = zeros) as E by (unfold regs; cbn [map concat]; apply app_nil_r). rewrite <- E.
  refine (hll_sparse (replicate 11 0) _ eq_refl Hb Ho _). rewrite E. apply zlen_zeros.
Qed.

(** ** Merging takes the maximum of each register *)
Lemma max_step m i v x : get m i = Some x → 0 ≤ v < 64 → (if v >? x then mwrite m i [u8 v] else Some m) = Some (<[Z.to_nat i := Z.max x v]> m).
Proof.
  intros Hx Hv. assert (0 ≤ i < zlen m) as Hi.
  { unfold get in Hx. case_decide; [|done]. apply lookup_lt_Some in Hx. lia. }
  rewrite get_nth in Hx by lia. destruct (Z.gtb_spec v x).
  - rewrite mwrite_byte by done. rewrite Z.max_r by lia. unfold u8. by rewrite wrapu_id by (unfold in_u; pow2; lia).
  - rewrite Z.max_l by lia. by rewrite list_insert_id.
Qed.

Lemma merge_run_ok n : ∀ pre m post v, 0 ≤ v < 64 → length m = n →
  merge_run n (pre ++ m ++ post) (zlen pre) v = Some (pre ++ map (λ x, Z.max x v) m ++ post).
Proof.
  induction n as [|n IH]; intros pre m post v Hv Hm; (destruct m as [|x m]; [|]; try done). cbn [merge_run].
  assert (get (pre ++ (x :: m) ++ post) (zlen pre) = Some x) as Hx by (by apply (get_app pre x (m ++ post))).
  rewrite Hx, some_bind, (max_step _ _ v x Hx Hv), some_bind, Nat2Z.id. cbn [app]. rewrite insert_app_r_alt, Nat.sub_diag by done. cbn.
  change (pre ++ Z.max x v :: m ++ post) with (pre ++ [Z.max x v] ++ m ++ post). rewrite app_assoc.
  replace (zlen pre + 1) with (zlen (pre ++ [Z.max x v])) by (rewrite length_app; cbn; lia). rewrite IH by (done || (cbn in Hm; lia)). by rewrite <- app_assoc.
Qed.

Definition small (m : list Z) : Prop := Forall (λ x, 0 ≤ x < 64) m.

Lemma max_run m v n : length m = n → zip_with Z.max m (replicate n v) = map (λ x, Z.max x v) m.
Proof. intros <-. induction m as [|x m IH]; [done|]. cbn. by rewrite IH. Qed.

Lemma max_zero m : small m → map (λ x, Z.max x 0) m = m.
Proof. induction 1 as [|x m Hx Hm IH]; [done|]. cbn. rewrite IH. f_equal. lia. Qed.

Lemma merge_sparse_ok fuel : ∀ os A R pre m, (length os < fuel)%nat → Forall opc_ok os → length m = length (regs os) → small m →
  merge_sparse fuel (A ++ encs os ++ R) (zlen A) (zlen A + zlen (encs os)) (zlen pre) (pre ++ m) =
    Some (zlen pre + zlen (regs os), pre ++ zip_with Z.max m (regs os)).
Proof.
  induction fuel as [|fuel IH]; intros os A R pre m Hf Hos Hl Hm; [lia|]. cbn [merge_sparse]. destruct os as [|o os].
  - change (encs []) with (@nil Z). change (regs []) with (@nil Z) in *. destruct m; [|done]. cbn [length]. rewrite (proj2 (Z.ltb_ge _ _)) by lia.
    cbn [negb]. do 2 f_equal. lia.
  - apply Forall_cons in Hos as [Ho Hos]. destruct (opc_pos o Ho) as (Hol & He & _ & Hv). pose proof (opc_regs_length o Ho) as Hrl.
    rewrite encs_opc_cons, regs_cons in *. rewrite length_app in Hl. cbn [length] in Hf.
    rewrite (length_app (opc_enc o)), Nat2Z.inj_add. rewrite (proj2 (Z.ltb_lt _ _)) by lia. cbn [negb]. rewrite <- (app_assoc (opc_enc o)).
    destruct (opcode_at A (encs os ++ R) o Ho) as (x & -> & Hx). rewrite some_bind.
    rewrite <- (take_drop (length (opc_regs o)) m) in Hm |- *. set (m1 := take _ m) in *. set (m2 := drop _ m) in *.
    assert (length m1 = length (opc_regs o)) as L1 by (unfold m1; rewrite length_take; lia). assert (length m2 = length (regs os)) as L2 by (unfold m2; rewrite length_drop; lia).
    apply Forall_app in Hm as [Hm1 Hm2]. rewrite zip_with_app by done.
    specialize (IH os (A ++ opc_enc o) R (pre ++ zip_with Z.max m1 (opc_regs o)) m2 ltac:(lia) Hos L2 Hm2).
    assert (length (zip_with Z.max m1 (opc_regs o)) = length (opc_regs o)) as L3 by (rewrite length_zip_with; lia).
    rewrite <- !app_assoc, !length_app, !Nat2Z.inj_add, L3, Hrl, <- !Z.add_assoc in IH. unfold opc_regs in *. rewrite length_replicate in *.
    rewrite (length_app (replicate _ _)), length_replicate, Nat2Z.inj_add, Hrl. rewrite max_run in IH |- * by done.
    destruct o as [n|n|v n]; cbn [opc_len opc_val] in *; rewrite ?max_zero in IH by done; rewrite ?max_zero by done.
    + destruct Hx as (-> & _ & _ & -> & Hk). rewrite Hk in IH. exact IH.
    + destruct Hx as (-> & -> & _ & Hk & y & -> & Hy). rewrite some_bind, Hy. rewrite Hk in IH. exact IH.
    + destruct Hx as (-> & -> & _ & -> & -> & Hk). rewrite merge_run_ok, some_bind by (done || lia). rewrite Hk in IH. exact IH.
Qed.

Lemma merge_dense_ok n b r : holds b r → ∀ pre m i, length m = n → i = zlen pre → zlen pre + zlen m = HLL_REGISTERS →
  merge_dense n b i (pre ++ m) = Some (pre ++ zip_with Z.max m (drop (length pre) r)).
Proof.
  intros Hb. induction n as [|n IH]; intros pre m i Hm -> Hl; (destruct m as [|x m]; try done). cbn [merge_dense]. cbn [length] in *.
  destruct (holds_lookup b r (zlen pre) Hb) as (v & Hv & Hg); [lia|]. rewrite Hg, some_bind. assert (0 ≤ v < 64) as Hvr.
  { destruct (get_reg_ok b HLL_HDR_SIZE (zlen pre) (ho_bytes _ _ Hb)) as (w & E & Hw & _); [apply reg_in_dense; [apply Hb|lia]|]. congruence. }
  assert (get (pre ++ x :: m) (zlen pre) = Some x) as Hx by (by apply get_app). rewrite Hx, some_bind.
  assert (u8 v = v) as Eu by (unfold u8; rewrite wrapu_id; [done|unfold in_u; pow2; lia]). rewrite <- Eu at 2.
  rewrite (max_step _ _ v x Hx Hvr), some_bind, Nat2Z.id. rewrite insert_app_r_alt, Nat.sub_diag by done. cbn [insert list_insert].
  change (pre ++ Z.max x v :: m) with (pre ++ [Z.max x v] ++ m). rewrite app_assoc, (IH (pre ++ [Z.max x v]) m) by (rewrite ?length_app; cbn; lia).
  rewrite Nat2Z.id in Hv. rewrite (drop_S r v _ Hv). cbn [zip_with]. rewrite <- app_assoc. cbn [app]. rewrite length_app. cbn [length]. by rewrite Nat.add_1_r.
Qed.

Lemma hllMerge_ok max s r : hll s r → zlen max = HLL_REGISTERS → small max → hllMerge max s = Some (true, zip_with Z.max max r).
Proof.
  intros [rest d r' Hr Hh|rest os Hr Hb Hos Hn] Hl Hm; unfold hllMerge; rewrite <- app_assoc, get_encoding, some_bind.
  - change (HLL_DENSE =? HLL_DENSE) with true. rewrite (merge_dense_ok _ _ _ Hh [] max 0), some_bind; [done| |done|cbn; lia]. lia.
  - change (HLL_SPARSE =? HLL_DENSE) with false. pose proof (hll_header_length HLL_SPARSE rest Hr) as Hh. pose proof (encs_fuel os Hos).
    pose proof (merge_sparse_ok (S (length (header HLL_SPARSE rest ++ encs os))) os (header HLL_SPARSE rest) [0] [] max) as E.
    rewrite Hh in E. change (zlen []) with 0 in E. cbn [app] in E. rewrite (length_app (header HLL_SPARSE rest)), Nat2Z.inj_add, Hh, <- length_app.
    rewrite E, some_bind, Hn; [done|rewrite length_app; lia|done|lia|done].
Qed.

Lemma opc_small os : Forall opc_ok os → small (regs os).
Proof.
  induction 1 as [|o os Ho Hos IH]; [constructor|]. rewrite regs_cons. apply Forall_app. split; [|done]. apply Forall_replicate. apply opc_pos in Ho. lia.
Qed.

Lemma holds_small b r : holds b r → small r.
Proof.
  intros Hb. apply Forall_lookup. intros i x Hx. pose proof (ho_get _ _ Hb i x Hx) as E. pose proof (ho_regs _ _ Hb) as Hr. pose proof (lookup_lt_Some _ _ _ Hx).
  destruct (get_reg_ok b HLL_HDR_SIZE (Z.of_nat i) (ho_bytes _ _ Hb)) as (v & E' & Hv & _); [apply reg_in_dense; [apply Hb|lia]|]. congruence.
Qed.

Lemma hll_registers s r : hll s r → zlen r = HLL_REGISTERS ∧ small r.
Proof.
  intros [rest d r' Hr Hh|rest os Hr Hb Hos Hn]; [split; [apply Hh|by eapply holds_small]|]. split; [done|by apply opc_small].
Qed.

(** ** A HyperLogLog as the set of what was added *)
Definition pat (e : list Z) (j : nat) : Z := match hllPatLen e with Some (c, i) => if (Z.to_nat i =? j)%nat then c else 0 | None => 0 end.
Definition reg_max (l : list (list Z)) (j : nat) : Z := foldr (λ e m, Z.max (pat e j) m) 0 l.

Lemma pat_range e j : 0 ≤ pat e j < 64.
Proof. unfold pat. destruct (hllPatLen_ok e) as (c & i & -> & Hc & _). destruct (_ =? j)%nat; lia. Qed.

Lemma observe_lookup e r j x : r !! j = Some x → 0 ≤ x → observe e r !! j = Some (Z.max x (pat e j)).
Proof.
  intros Hx H0. unfold observe, pat, upd. destruct (hllPatLen_ok e) as (c & i & -> & Hc & _). destruct (Nat.eqb_spec (Z.to_nat i) j) as [<-|N].
  - rewrite list_lookup_insert_eq by (by apply lookup_lt_Some in Hx). by rewrite (list_lookup_total_correct r _ x).
  - rewrite list_lookup_insert_ne by done. rewrite Hx. f_equal. lia.
Qed.

Lemma reg_max_le l j m : 0 ≤ m → reg_max l j ≤ m ↔ ∀ e, e ∈ l → pat e j ≤ m.
Proof.
  intros Hm. induction l as [|e l IH]; cbn [reg_max foldr]; [split; [set_solver|lia]|]. fold (reg_max l j). rewrite Z.max_lub_iff, IH.
  split; [intros [H1 H2] e' [->|He]%elem_of_cons; [done|by apply H2]|]. intros H. split; [apply H; by left|]. intros e' He. apply H. by right.
Qed.

Lemma reg_max_range l j : 0 ≤ reg_max l j < 64.
Proof.
  split; [induction l as [|e l IH]; cbn; [lia|fold (reg_max l j); lia]|]. assert (reg_max l j ≤ 63); [|lia]. apply reg_max_le; [lia|].
  intros e _. pose proof (pat_range e j). lia.
Qed.

Lemma fold_lookup l : ∀ r j x, r !! j = Some x → 0 ≤ x → foldl (λ r e, observe e r) r l !! j = Some (Z.max x (reg_max l j)).
Proof.
  induction l as [|e l IH]; intros r j x Hx H0; cbn [foldl reg_max foldr]; [rewrite Hx; f_equal; lia|]. fold (reg_max l j).
  rewrite (IH _ j (Z.max x (pat e j))) by (try apply observe_lookup; done || lia). f_equal. lia.
Qed.

Lemma regs_of_length l : zlen (regs_of l) = HLL_REGISTERS.
Proof.
  rewrite <- zlen_zeros. unfold regs_of. f_equal. generalize zeros. induction l as [|e l IH]; intros r; [done|]. cbn [foldl]. by rewrite IH, observe_length.
Qed.

Lemma regs_of_lookup l j : (j < Z.to_nat HLL_REGISTERS)%nat → regs_of l !! j = Some (reg_max l j).
Proof.
  intros Hj. unfold regs_of. rewrite (fold_lookup l zeros j 0); [|by apply lookup_replicate_2|done]. f_equal. pose proof (reg_max_range l j). lia.
Qed.

Lemma regs_of_eq l r : zlen r = HLL_REGISTERS → (∀ j, (j < Z.to_nat HLL_REGISTERS)%nat → r !! j = Some (reg_max l j)) → r = regs_of l.
Proof.
  intros Hl H. pose proof (regs_of_length l). apply list_eq. intros j. destruct (decide (j < Z.to_nat HLL_REGISTERS)%nat) as [Hj|Hj].
  - by rewrite H, regs_of_lookup.
  - rewrite !lookup_ge_None_2 by lia. done.
Qed.

Lemma regs_of_small l : small (regs_of l).
Proof.
  apply Forall_lookup. intros j x Hx. pose proof (regs_of_length l) as Hl. pose proof (lookup_lt_Some _ _ _ Hx). rewrite regs_of_lookup in Hx by lia.
  injection Hx as <-. apply reg_max_range.
Qed.

(** The registers depend on the set of the elements alone ... *)
Lemma regs_of_set l l' : (∀ e, e ∈ l ↔ e ∈ l') → regs_of l = regs_of l'.
Proof.
  intros H. apply regs_of_eq; [apply regs_of_length|]. intros j Hj. rewrite regs_of_lookup by done. f_equal.
  assert (∀ l l', (∀ e, e ∈ l → e ∈ l') → reg_max l j ≤ reg_max l' j) as Hle.
  { intros k k' Hk. apply reg_max_le; [apply reg_max_range|]. intros e He. apply (reg_max_le k' j); [apply reg_max_range|done|by apply Hk]. }
  apply Z.le_antisymm; apply Hle; intros e; apply H.
Qed.

(** ... and the maximum of two is that of the union. *)
Lemma reg_max_app l l' j : reg_max (l ++ l') j = Z.max (reg_max l j) (reg_max l' j).
Proof.
  induction l as [|e l IH]; cbn [app reg_max foldr].
  - fold (reg_max l' j). pose proof (reg_max_range l' j). lia.
  - fold (reg_max (l ++ l') j) (reg_max l j). lia.
Qed.

Lemma regs_of_union l l' : zip_with Z.max (regs_of l) (regs_of l') = regs_of (l ++ l').
Proof.
  pose proof (regs_of_length l). pose proof (regs_of_length l'). apply regs_of_eq; [rewrite length_zip_with; lia|]. intros j Hj.
  rewrite lookup_zip_with, !regs_of_lookup by done. cbn. by rewrite reg_max_app.
Qed.

Lemma regs_of_snoc l e : observe e (regs_of l) = regs_of (l ++ [e]).
Proof. unfold regs_of. by rewrite foldl_app. Qed.
