(* ===== verification/HllCount.v ===== *)
(** * Counting with HyperLogLogs ([redis-3.2/src/hyperloglog.c])

    The sums of [2 ^ -register] over the three encodings and the estimate of
    the cardinality, [hllCount].  Doubles are the IEEE 754 numbers of the
    Standard Library's [SpecFloat], with 53 bits and rounding to nearest, so
    that the order of the additions is that of the code; the logarithm is a
    parameter.  [None] is an access outside a block or a conversion of a
    double that does not fit an integer. *)

From Stdlib Require Import SpecFloat.
From S2P Require Import Prelude Hll HllSparse.

Abbreviation double := spec_float.
Definition dint (z : Z) : double := binary_normalize 53 1024 z 0 false.
Definition dadd : double → double → double := SFadd 53 1024.
Definition dsub : double → double → double := SFsub 53 1024.
Definition dmul : double → double → double := SFmul 53 1024.
Definition ddiv : double → double → double := SFdiv 53 1024.
(** A decimal constant: the quotient of two integers that are exact. *)
Definition dconst (n d : Z) : double := ddiv (dint n) (dint d).

(** The conversion to [uint64_t]. *)
Definition to_uint64 (x : double) : option Z :=
  match x with
  | S754_zero _ => Some 0
  | S754_finite sign m e =>
      let z := Z.shiftl (Z.pos m) e in
      if sign then if z =? 0 then Some 0 else None else if z <? 2 ^ 64 then Some z else None
  | _ => None
  end.

(** The table [PE]. *)
Definition PE (reg : Z) : option double :=
  if (0 <=? reg) && (reg <? 64) then Some (if reg =? 0 then dint 1 else ddiv (dint 1) (dint (Z.shiftl 1 reg))) else None.

(** ** Sums *)

(** The sixteen registers in twelve bytes. *)
Definition unpack (r : list Z) : list Z :=
  [ Z.land (r !!! 0%nat) 63; Z.land (Z.lor (Z.shiftr (r !!! 0%nat) 6) (Z.shiftl (r !!! 1%nat) 2)) 63;
    Z.land (Z.lor (Z.shiftr (r !!! 1%nat) 4) (Z.shiftl (r !!! 2%nat) 4)) 63; Z.land (Z.shiftr (r !!! 2%nat) 2) 63;
    Z.land (r !!! 3%nat) 63; Z.land (Z.lor (Z.shiftr (r !!! 3%nat) 6) (Z.shiftl (r !!! 4%nat) 2)) 63;
    Z.land (Z.lor (Z.shiftr (r !!! 4%nat) 4) (Z.shiftl (r !!! 5%nat) 4)) 63; Z.land (Z.shiftr (r !!! 5%nat) 2) 63;
    Z.land (r !!! 6%nat) 63; Z.land (Z.lor (Z.shiftr (r !!! 6%nat) 6) (Z.shiftl (r !!! 7%nat) 2)) 63;
    Z.land (Z.lor (Z.shiftr (r !!! 7%nat) 4) (Z.shiftl (r !!! 8%nat) 4)) 63; Z.land (Z.shiftr (r !!! 8%nat) 2) 63;
    Z.land (r !!! 9%nat) 63; Z.land (Z.lor (Z.shiftr (r !!! 9%nat) 6) (Z.shiftl (r !!! 10%nat) 2)) 63;
    Z.land (Z.lor (Z.shiftr (r !!! 10%nat) 4) (Z.shiftl (r !!! 11%nat) 4)) 63; Z.land (Z.shiftr (r !!! 11%nat) 2) 63 ].

Fixpoint pairs_sum (l : list double) : list double :=
  match l with x :: y :: l => dadd x y :: pairs_sum l | _ => [] end.
Definition sum16 (l : list double) : double := match pairs_sum l with [] => dint 0 | x :: l => foldl dadd x l end.

Definition zero_regs (l : list Z) : Z := zlen (filter (λ x, x = 0) l).

Fixpoint dense_sum (n : nat) (b : list Z) (r : Z) (E : double) (ez : Z) : option (double * Z) :=
  match n with
  | O => Some (E, ez)
  | S n =>
      bs ← mread b r 12;
      let rs := unpack bs in
      ps ← mapM PE rs;
      dense_sum n b (r + 12) (dadd E (sum16 ps)) (ez + zero_regs rs)
  end.
Definition hllDenseSum (b : list Z) (registers : Z) : option (double * Z) := dense_sum 1024 b registers (dint 0) 0.

Fixpoint sparse_sum (fuel : nat) (b : list Z) (p fin : Z) (E : double) (ez idx : Z) : option (double * Z * Z) :=
  match fuel with
  | O => None
  | S fuel =>
      if negb (p <? fin) then Some (E, ez, idx) else
      x ← get b p;
      if HLL_SPARSE_IS_ZERO x then
        let runlen := HLL_SPARSE_ZERO_LEN x in sparse_sum fuel b (p + 1) fin E (ez + runlen) (idx + runlen)
      else if HLL_SPARSE_IS_XZERO x then
        y ← get b (p + 1);
        let runlen := HLL_SPARSE_XZERO_LEN x y in sparse_sum fuel b (p + 2) fin E (ez + runlen) (idx + runlen)
      else
        let runlen := HLL_SPARSE_VAL_LEN x in
        pe ← PE (HLL_SPARSE_VAL_VALUE x);
        sparse_sum fuel b (p + 1) fin (dadd E (dmul pe (dint runlen))) ez (idx + runlen)
  end.

(** The sum, the number of zero registers, and whether the string is invalid. *)
Definition hllSparseSum (b : list Z) (sparse sparselen : Z) : option (double * Z * bool) :=
  '(E, ez, idx) ← sparse_sum (S (Z.to_nat sparselen)) b sparse (sparse + sparselen) (dint 0) 0 0;
  Some (dadd E (dint ez), ez, negb (idx =? HLL_REGISTERS)).

Fixpoint raw_bytes (bs : list Z) (E : double) (ez : Z) : option (double * Z) :=
  match bs with
  | [] => Some (E, ez)
  | x :: bs => if negb (x =? 0) then pe ← PE x; raw_bytes bs (dadd E pe) ez else raw_bytes bs E (ez + 1)
  end.

Fixpoint raw_sum (n : nat) (b : list Z) (word : Z) (E : double) (ez : Z) : option (double * Z) :=
  match n with
  | O => Some (E, ez)
  | S n =>
      bytes ← mread b word 8;
      '(E, ez) ← (if le_val bytes =? 0 then Some (E, ez + 8) else raw_bytes bytes E ez);
      raw_sum n b (word + 8) E ez
  end.
Definition hllRawSum (b : list Z) (registers : Z) : option (double * Z) :=
  '(E, ez) ← raw_sum (Z.to_nat (HLL_REGISTERS / 8)) b registers (dint 0) 0;
  Some (dadd E (dint ez), ez).

(** ** The estimate *)
Section count.
Context (log : double → double).

Definition estimate (E : double) (ez : Z) : option Z :=
  let m := dint HLL_REGISTERS in
  let alpha := ddiv (dconst 7213 10000) (dadd (dint 1) (ddiv (dconst 1079 1000) m)) in
  let E := dmul (dmul (dmul (ddiv (dint 1) E) alpha) m) m in
  if SFltb E (dmul m (dconst 5 2)) && negb (ez =? 0) then to_uint64 (dmul m (log (ddiv m (dint ez))))
  else if SFltb E (dint 72000) then
    let E2 := dmul E E in
    let bias :=
      dadd (dsub (dadd (dsub (dmul (dmul (dconst 59119 10000) (dconst 1 (10 ^ 18))) (dmul (dmul E2 E) E))
                             (dmul (dmul (dconst 14253 10000) (dconst 1 (10 ^ 12))) (dmul E2 E)))
                       (dmul (dmul (dconst 12940 10000) (dconst 1 (10 ^ 7))) E2))
                 (dmul (dmul (dconst 52921 10000) (dconst 1 (10 ^ 3))) E))
           (dconst 833216 10000) in
    to_uint64 (dsub E (dmul E (ddiv bias (dint 100))))
  else to_uint64 E.

(** The count of a block whose string has the length [len], and whether the string is invalid; other encodings are a panic. *)
Definition hllCount (b : list Z) (len : Z) : option (Z * bool) :=
  e ← get b hdr_encoding;
  '(E, ez, invalid) ←
    (if e =? HLL_DENSE then '(E, ez) ← hllDenseSum b HLL_HDR_SIZE; Some (E, ez, false)
     else if e =? HLL_SPARSE then hllSparseSum b HLL_HDR_SIZE (len - HLL_HDR_SIZE)
     else if e =? HLL_RAW then '(E, ez) ← hllRawSum b HLL_HDR_SIZE; Some (E, ez, false)
     else None);
  n ← estimate E ez;
  Some (n, invalid).
End count.

(** ** The unrolled loop reads the registers *)
Lemma mread_lookup b off n bs k : mread b off n = Some bs → 0 ≤ k < n → get b (off + k) = Some (bs !!! Z.to_nat k).
Proof.
  unfold mread. case_decide as H; [|done]. intros [= <-] Hk. rewrite get_nth by lia. destruct (lookup_lt_is_Some_2 b (Z.to_nat (off + k))) as [x Hx]; [lia|].
  rewrite Hx. f_equal. symmetry. apply list_lookup_total_correct. rewrite lookup_take_lt, lookup_drop by lia. rewrite <- Hx. f_equal. lia.
Qed.

Lemma land_shifted a y k : 6 ≤ k → Z.land (Z.lor a (Z.shiftl y k)) 63 = Z.land a 63.
Proof.
  intros Hk. change 63 with HLL_REGISTER_MAX. apply Z.bits_inj'. intros t Ht. rewrite !Z.land_spec, mask6, Z.lor_spec by done. destruct (Z.ltb_spec t 6); [|by rewrite !andb_false_r].
  rewrite Z.shiftl_spec, (Z.testbit_neg_r y) by lia. by rewrite orb_false_r.
Qed.

(** The place of a register, by its number among sixteen. *)
Lemma reg_place j t : 0 ≤ t → (16 * j + t) * HLL_BITS / 8 = 12 * j + t * 6 / 8 ∧ Z.land ((16 * j + t) * HLL_BITS) 7 = (t * 6) mod 8.
Proof.
  intros Ht. unfold HLL_BITS. rewrite land7. replace ((16 * j + t) * 6) with (t * 6 + (12 * j) * 8) by lia. split; [rewrite Z.div_add by lia; lia|by rewrite Z.mod_add by lia].
Qed.

Ltac place Hg Hg' Hy' :=
  match goal with |- context [Z.of_nat ?t * 6 / 8] =>
    let q := eval vm_compute in (Z.of_nat t * 6 / 8) in let r := eval vm_compute in ((Z.of_nat t * 6) mod 8) in
    change (Z.of_nat t * 6 / 8) with q; change ((Z.of_nat t * 6) mod 8) with r
  end;
  rewrite Hg, some_bind by lia; first [rewrite Hy' | rewrite Hg' by lia]; rewrite some_bind;
  rewrite ?Z.shiftr_0_r; first [rewrite land_shifted by lia; reflexivity | reflexivity].

Lemma unpack_ok b p j bs : mread b (p + 12 * j) 12 = Some bs → (∃ y, get b (p + 12 * (j + 1)) = Some y) →
  ∀ t, (t < 16)%nat → HLL_DENSE_GET_REGISTER b p (16 * j + Z.of_nat t) = unpack bs !! t.
Proof.
  intros Hb [y Hy] t Ht. unfold HLL_DENSE_GET_REGISTER. destruct (reg_place j (Z.of_nat t)) as [-> ->]; [lia|].
  assert (∀ k, 0 ≤ k < 12 → get b (p + (12 * j + k)) = Some (bs !!! Z.to_nat k)) as Hg.
  { intros k Hk. rewrite <- (mread_lookup _ _ _ _ k Hb Hk). f_equal. lia. }
  assert (get b (p + (12 * j + 11 + 1)) = Some y) as Hy' by (rewrite <- Hy; f_equal; lia).
  assert (∀ k, 0 ≤ k < 11 → get b (p + (12 * j + k + 1)) = Some (bs !!! Z.to_nat (k + 1))) as Hg'.
  { intros k Hk. rewrite <- (Hg (k + 1)) by lia. f_equal. lia. }
  do 16 (destruct t as [|t]; [place Hg Hg' Hy'|]).
  lia.
Qed.

Definition pe (reg : Z) : double := default (dint 0) (PE reg).

Lemma PE_small r : 0 ≤ r < 64 → PE r = Some (pe r).
Proof. intros H. unfold pe, PE. by rewrite (proj2 (Z.leb_le _ _)), (proj2 (Z.ltb_lt _ _)) by lia. Qed.

Lemma mapM_PE l : small l → mapM PE l = Some (map pe l).
Proof. induction 1 as [|x l Hx Hl IH]; [done|]. cbn. rewrite (PE_small x Hx). cbn. by rewrite IH. Qed.

(** The sum over registers, sixteen at a time. *)
Fixpoint sums16 (n : nat) (r : list Z) (E : double) : double :=
  match n with O => E | S n => sums16 n (drop 16 r) (dadd E (sum16 (map pe (take 16 r)))) end.

Lemma zero_regs_app a b : zero_regs (a ++ b) = zero_regs a + zero_regs b.
Proof. unfold zero_regs. rewrite filter_app, length_app. lia. Qed.

Lemma zero_regs_run n v : zero_regs (replicate n v) = if v =? 0 then Z.of_nat n else 0.
Proof.
  unfold zero_regs. destruct (Z.eqb_spec v 0) as [Hv|N]; (induction n as [|n IH]; [done|]); cbn [replicate].
  - rewrite filter_cons_True by done. cbn [length]. lia.
  - by rewrite filter_cons_False.
Qed.

Lemma dense_sum_ok b r : holds b r → ∀ n j E ez, 0 ≤ j → Z.of_nat n + j = 1024 →
  dense_sum n b (HLL_HDR_SIZE + 12 * j) E ez = Some (sums16 n (drop (Z.to_nat (16 * j)) r) E, ez + zero_regs (drop (Z.to_nat (16 * j)) r)).
Proof.
  intros Hb. pose proof (ho_size _ _ Hb) as Hs. pose proof (ho_regs _ _ Hb) as Hr. change (HLL_DENSE_SIZE + 1) with 12305 in Hs. change HLL_REGISTERS with 16384 in Hr.
  unfold HLL_HDR_SIZE in *. induction n as [|n IH]; intros j E ez Hj Hn; cbn [dense_sum sums16].
  - rewrite drop_ge by lia. do 2 f_equal. change (zero_regs []) with 0. lia.
  - assert (is_Some (mread b (16 + 12 * j) 12)) as [bs Hbs] by (unfold mread; rewrite decide_True by lia; done).
    rewrite Hbs, some_bind. set (r' := drop (Z.to_nat (16 * j)) r).
    assert (unpack bs = take 16 r') as Eu.
    { apply list_eq. intros t. destruct (decide (t < 16)%nat) as [Ht|Ht].
      - rewrite lookup_take_lt by done. unfold r'. rewrite lookup_drop. destruct (lookup_lt_is_Some_2 r (Z.to_nat (16 * j) + t)) as [x Hx]; [lia|].
        rewrite Hx. rewrite <- (unpack_ok b 16 j bs Hbs (get_is_some b (16 + 12 * (j + 1)) ltac:(lia)) t Ht).
        rewrite <- (ho_get _ _ Hb _ _ Hx). unfold HLL_HDR_SIZE. f_equal. lia.
      - rewrite !lookup_ge_None_2; [done|rewrite length_take; lia|cbn; lia]. }
    rewrite Eu, mapM_PE, some_bind by (apply Forall_take, Forall_drop; by apply (holds_small b)).
    replace (16 + 12 * j + 12) with (16 + 12 * (j + 1)) by lia. rewrite IH by lia.
    replace (drop (Z.to_nat (16 * (j + 1))) r) with (drop 16 r') by (unfold r'; rewrite drop_drop; f_equal; lia).
    do 2 f_equal. rewrite <- (take_drop 16 r') at 3. rewrite zero_regs_app. lia.
Qed.

Lemma sparse_sum_ok fuel : ∀ os A R E ez idx, (length os < fuel)%nat → Forall opc_ok os →
  ∃ E', sparse_sum fuel (A ++ encs os ++ R) (zlen A) (zlen A + zlen (encs os)) E ez idx = Some (E', ez + zero_regs (regs os), idx + zlen (regs os)).
Proof.
  induction fuel as [|fuel IH]; intros os A R E ez idx Hf Hos; [lia|]. cbn [sparse_sum]. destruct os as [|o os].
  - change (encs []) with (@nil Z). change (regs []) with (@nil Z). cbn [length]. rewrite (proj2 (Z.ltb_ge _ _)) by lia. exists E. change (zero_regs []) with 0. by rewrite !Z.add_0_r.
  - apply Forall_cons in Hos as [Ho Hos]. destruct (opc_pos o Ho) as (Hol & He & _ & Hv). pose proof (opc_regs_length o Ho) as Hrl. cbn [length] in Hf.
    rewrite encs_opc_cons, regs_cons, zero_regs_app, (length_app (opc_enc o)), (length_app (opc_regs o)), !Nat2Z.inj_add, Hrl.
    rewrite (proj2 (Z.ltb_lt _ _)) by lia. cbn [negb]. rewrite <- (app_assoc (opc_enc o)).
    destruct (opcode_at A (encs os ++ R) o Ho) as (x & -> & Hx). rewrite some_bind.
    unfold opc_regs at 1. rewrite zero_regs_run.
    specialize (IH os (A ++ opc_enc o) R). rewrite <- !app_assoc, !length_app, !Nat2Z.inj_add in IH.
    destruct o as [n|n|v n]; cbn [opc_len opc_val] in *.
    + destruct Hx as (-> & _ & _ & -> & Hk). rewrite Hk in IH |- *. destruct (IH E (ez + n) (idx + n)) as [E' H]; [lia|done|]. exists E'.
      rewrite Z.add_assoc, H. change (0 =? 0) with true. apply f_equal, f_equal2; [apply f_equal; lia|lia].
    + destruct Hx as (-> & -> & _ & Hk & y & -> & Hy). rewrite some_bind, Hy. rewrite Hk in IH |- *. destruct (IH E (ez + n) (idx + n)) as [E' H]; [lia|done|]. exists E'.
      rewrite Z.add_assoc, H. change (0 =? 0) with true. apply f_equal, f_equal2; [apply f_equal; lia|lia].
    + destruct Hx as (-> & -> & _ & -> & -> & Hk). rewrite PE_small, some_bind by lia. rewrite Hk in IH |- *. destruct Ho as [Hv1 _].
      edestruct (IH (dadd E (dmul (pe v) (dint n))) ez (idx + n)) as [E' H]; [lia|done|]. exists E'.
      rewrite Z.add_assoc, H. rewrite (proj2 (Z.eqb_neq v 0)) by lia. apply f_equal, f_equal2; [apply f_equal; lia|lia].
Qed.

Lemma sparse_sum_total rest os : length rest = 11%nat → Forall opc_ok os → zlen (regs os) = HLL_REGISTERS →
  let s := header HLL_SPARSE rest ++ encs os in
  ∃ E, hllSparseSum (s ++ [0]) HLL_HDR_SIZE (zlen s - HLL_HDR_SIZE) = Some (E, zero_regs (regs os), false).
Proof.
  intros Hr Hos Hn s. pose proof (hll_header_length HLL_SPARSE rest Hr) as Hh. assert (zlen s - HLL_HDR_SIZE = zlen (encs os)) as El by (unfold s; rewrite length_app; lia).
  unfold hllSparseSum. rewrite El. unfold s. rewrite <- app_assoc, <- Hh, Nat2Z.id. pose proof (encs_fuel os Hos).
  destruct (sparse_sum_ok (S (length (encs os))) os (header HLL_SPARSE rest) [0] (dint 0) 0 0) as [E ->]; [lia|done|]. rewrite some_bind, Hn.
  eexists. done.
Qed.

(** ** The raw encoding *)
Lemma raw_bytes_ok bs : ∀ E ez, small bs → ∃ E', raw_bytes bs E ez = Some (E', ez + zero_regs bs).
Proof.
  induction bs as [|x bs IH]; intros E ez H; cbn [raw_bytes]; [exists E; do 2 f_equal; change (zero_regs []) with 0; lia|]. apply Forall_cons in H as [Hx H].
  change (x :: bs) with ([x] ++ bs). rewrite zero_regs_app. change [x] with (replicate 1 x). rewrite zero_regs_run. destruct (Z.eqb_spec x 0) as [->|N]; cbn [negb].
  - destruct (IH E (ez + 1) H) as [E' ->]. exists E'. do 2 f_equal. lia.
  - rewrite PE_small, some_bind by done. destruct (IH (dadd E (pe x)) ez H) as [E' ->]. exists E'. do 2 f_equal.
Qed.

Lemma le_val_zero bs : small bs → le_val bs = 0 → zero_regs bs = zlen bs.
Proof.
  induction 1 as [|x bs Hx Hbs IH]; [done|]. cbn [le_val]. intros H. assert (0 ≤ le_val bs) as Hp.
  { clear IH H. induction Hbs as [|y bs Hy _ IH]; cbn; lia. }
  change (x :: bs) with (replicate 1 x ++ bs). rewrite zero_regs_app, zero_regs_run, IH by lia. rewrite (proj2 (Z.eqb_eq x 0)) by lia. rewrite length_app. cbn [length replicate]. lia.
Qed.

Lemma raw_sum_ok n : ∀ A m E ez, zlen m = 8 * Z.of_nat n → small m → ∃ E', raw_sum n (A ++ m) (zlen A) E ez = Some (E', ez + zero_regs m).
Proof.
  induction n as [|n IH]; intros A m E ez Hl Hm; cbn [raw_sum].
  - destruct m; [|cbn in Hl; lia]. exists E. change (zero_regs []) with 0. by rewrite Z.add_0_r.
  - rewrite <- (take_drop 8 m) in Hm |- *. set (m1 := take 8 m) in *. set (m2 := drop 8 m) in *.
    assert (length m1 = 8%nat) as L1 by (unfold m1; rewrite length_take; lia). assert (zlen m2 = 8 * Z.of_nat n) as L2 by (unfold m2; rewrite length_drop; lia).
    apply Forall_app in Hm as [Hm1 Hm2]. rewrite (mread_app A m1 m2), some_bind by (done || lia). rewrite zero_regs_app.
    assert (∃ E1, (if le_val m1 =? 0 then Some (E, ez + 8) else raw_bytes m1 E ez) = Some (E1, ez + zero_regs m1)) as [E1 ->].
    { destruct (Z.eqb_spec (le_val m1) 0) as [Hz|_]; [|by apply raw_bytes_ok]. exists E. rewrite (le_val_zero m1) by done. by rewrite L1. }
    rewrite some_bind. destruct (IH (A ++ m1) m2 E1 (ez + zero_regs m1) L2 Hm2) as [E' H]. exists E'. rewrite <- app_assoc, length_app, L1 in H.
    replace (zlen A + 8) with (Z.of_nat (length A + 8)) by lia. rewrite H. do 2 f_equal. lia.
Qed.

Lemma dense_sum_total b r : holds b r → hllDenseSum b HLL_HDR_SIZE = Some (sums16 1024 r (dint 0), zero_regs r).
Proof.
  intros Hb. pose proof (dense_sum_ok b r Hb 1024 0 (dint 0) 0) as E. rewrite Z.mul_0_r, Z.add_0_r, drop_0, Z.add_0_l in E. unfold hllDenseSum. by apply E.
Qed.

Lemma count_total log s r : hll s r → ∃ E, hllCount log (s ++ [0]) (zlen s) = (n ← estimate log E (zero_regs r); Some (n, false)).
Proof.
  intros [rest d r' Hr Hh|rest os Hr Hb Hos Hn]; unfold hllCount.
  - rewrite <- app_assoc, get_encoding, some_bind. change (HLL_DENSE =? HLL_DENSE) with true. rewrite (dense_sum_total _ _ Hh), !some_bind. by eexists.
  - destruct (sparse_sum_total rest os Hr Hos Hn) as [E HE]. cbv zeta in HE. rewrite HE, <- app_assoc, get_encoding, some_bind.
    change (HLL_SPARSE =? HLL_DENSE) with false. change (HLL_SPARSE =? HLL_SPARSE) with true. cbv iota. rewrite some_bind. by exists E.
Qed.

(** The count does not depend on the rest of the header. *)
Lemma sparse_sum_shift A A' t fuel : ∀ p fin E ez idx, zlen A = zlen A' → 0 ≤ p →
  sparse_sum fuel (A ++ t) (zlen A + p) fin E ez idx = sparse_sum fuel (A' ++ t) (zlen A + p) fin E ez idx.
Proof.
  induction fuel as [|fuel IH]; intros p fin E ez idx Hl Hp; [done|]. cbn [sparse_sum]. destruct (negb _); [done|].
  assert (∀ q, 0 ≤ q → get (A' ++ t) (zlen A + q) = get (A ++ t) (zlen A + q)) as Hg by (intros q Hq; rewrite Hl at 1; by rewrite !get_shift).
  rewrite Hg by lia. destruct (get (A ++ t) (zlen A + p)) as [x|]; [|done]. rewrite !some_bind. rewrite <- !(Z.add_assoc (zlen A)). rewrite Hg by lia.
  destruct (HLL_SPARSE_IS_ZERO x); [apply IH; (done || lia)|]. destruct (HLL_SPARSE_IS_XZERO x).
  - destruct (get (A ++ t) _) as [y|]; [|done]. rewrite !some_bind. apply IH; (done || lia).
  - destruct (PE _); [|done]. rewrite !some_bind. apply IH; (done || lia).
Qed.

Lemma to_uint64_range x n : to_uint64 x = Some n → in_u 64 n.
Proof.
  destruct x as [b|b| |b m e]; cbn [to_uint64]; try done; [by intros [= <-]|]. destruct b.
  - destruct (_ =? 0); [by intros [= <-]|done].
  - destruct (Z.ltb_spec (Z.shiftl (Z.pos m) e) (2 ^ 64)); [|done]. intros [= <-]. split; [by apply Z.shiftl_nonneg|done].
Qed.

Lemma count_range log b len n inv : hllCount log b len = Some (n, inv) → in_u 64 n.
Proof.
  unfold hllCount. intros (e & _ & ([[E ez] i] & _ & (z & Hz & [= <- _])%bind_Some)%bind_Some)%bind_Some. revert Hz. unfold estimate.
  destruct (_ && _); [apply to_uint64_range|]. destruct (SFltb _ _); apply to_uint64_range.
Qed.

(** C11: the sums over the registers never leave the string and count the zero registers alike in every encoding; in the dense one the
    unrolled loop over twelve bytes adds up the same sixteen registers that [HLL_DENSE_GET_REGISTER] reads one by one. *)
Theorem hll_sums_agree log s r : hll s r →
  (∃ E, hllCount log (s ++ [0]) (zlen s) = (n ← estimate log E (zero_regs r); Some (n, false))) ∧
  (∀ h, zlen h = HLL_HDR_SIZE → ∃ E, hllRawSum (h ++ r) HLL_HDR_SIZE = Some (E, zero_regs r)) ∧
  (get s hdr_encoding = Some HLL_DENSE → hllDenseSum (s ++ [0]) HLL_HDR_SIZE = Some (sums16 1024 r (dint 0), zero_regs r) ∧
     ∀ i x, r !! i = Some x → HLL_DENSE_GET_REGISTER (s ++ [0]) HLL_HDR_SIZE (Z.of_nat i) = Some x).
Proof.
  intros Hs. split; [|split].
  - by apply count_total.
  - intros h Hh. destruct (hll_registers s r Hs) as [Hl Hsm]. unfold hllRawSum. rewrite <- Hh.
    destruct (raw_sum_ok (Z.to_nat (HLL_REGISTERS / 8)) h r (dint 0) 0) as [E ->]; [rewrite Hl; done|done|]. rewrite some_bind. by eexists.
  - destruct Hs as [rest d r' Hr Hh|rest os Hr Hb Hos Hn]; intros He; [|rewrite get_encoding in He; done]. rewrite <- app_assoc.
    split; [by apply dense_sum_total|apply Hh].
Qed.

Lemma hll_sums_witness : ∃ s E, s = header HLL_SPARSE (replicate 11 0) ++ [127; 254; 136] ∧
  hllCount (λ _, dint 0) (s ++ [0]) (zlen s) = (n ← estimate (λ _, dint 0) E 16383; Some (n, false)).
Proof.
  set (os := [XZero 16383; Val 3 1]).
  assert (Forall opc_ok os) as Ho by (apply Forall_cons; split; [done|]; by apply Forall_singleton).
  assert (zlen (regs os) = HLL_REGISTERS) as Hn by (by vm_compute).
  assert (bytes_ok (replicate 11 0)) as Hb by (by apply Forall_replicate).
  assert (zero_regs (regs os) = 16383) as Hz by (by vm_compute).
  destruct (hll_sums_agree (λ _, dint 0) _ _ (hll_sparse (replicate 11 0) os eq_refl Hb Ho Hn)) as [[E HE] _]. rewrite Hz in HE.
  exists (header HLL_SPARSE (replicate 11 0) ++ [127; 254; 136]), E. split; [done|]. exact HE.
Defined.
