(* ===== verification/HllCmd.v ===== *)
(** * Commands on HyperLogLogs ([redis-3.2/src/hyperloglog.c])

    PFADD, PFCOUNT, PFMERGE and PFDEBUG, as programs over the functions of
    [Keyspace] that call the routines of [Hll] and [HllCount].  A string that
    is changed in place is written back with [DbOverwrite], as in [StrCmd]. *)

From Stdlib Require Import Ascii.
From S2P Require Import Prelude Decimal Util Sds StringObj Notify Keyspace KeyCmd StrCmd Hll HllSparse HllCount.

Definition invalid_hll_err : rep := RSds "-INVALIDOBJ Corrupted HLL object detected".

Section commands.
Context (hll_sparse_max_bytes : Z) (junk : nat → Z) (log : double → double).

(** [None]: the client was told.  The pointer of an object that is encoded as a number is no string. *)
Definition isHLLObjectOrReply (v : value) : prog (option (list Z)) :=
  let invalid := Reply (RSds "-WRONGTYPE Key is not a valid HyperLogLog string value.");; Ret None in
  o ← checkString v;
  match o with
  | None => Ret None
  | Some o =>
      if stringObjectLen o <? HLL_HDR_SIZE then invalid else
      match o with
      | StrInt _ => Fail
      | StrRaw s =>
          m ← lift (mread s 0 4);
          if negb (bool_decide (m = [72; 89; 76; 76])) then invalid else
          e ← lift (get s hdr_encoding);
          if e >? HLL_MAX_ENCODING then invalid else
          if (e =? HLL_DENSE) && negb (zlen s =? HLL_DENSE_SIZE) then invalid else
          Ret (Some s)
      end
  end.

(** The string, if no element was refused, and the number of updates. *)
Fixpoint pfadd_loop (k : dbkey) (eles : list (list Z)) (s : list Z) (updated : Z) : prog (option (list Z * Z)) :=
  match eles with
  | [] => Ret (Some (s, updated))
  | ele :: eles =>
      '(retval, s) ← lift (hllAdd hll_sparse_max_bytes junk s ele);
      DbOverwrite k (VStr (StrRaw s));;
      if retval =? 1 then pfadd_loop k eles s (updated + 1)
      else if retval =? -1 then Reply invalid_hll_err;; Ret None
      else pfadd_loop k eles s updated
  end.

(** [HLL_INVALIDATE_CACHE] on the string of a key. *)
Definition invalidate (k : dbkey) (s : list Z) : prog unit :=
  s ← lift (HLL_INVALIDATE_CACHE s); DbOverwrite k (VStr (StrRaw s)).

Definition pfaddCommand (id : Z) (key : list Z) (eles : list (list Z)) : prog unit :=
  let k := (id, key) in
  o ← LookupWrite k;
  o ← match o with
      | None => s ← lift createHLLObject; DbAdd k (VStr (StrRaw s));; Ret (Some (s, 1))
      | Some v => s ← isHLLObjectOrReply v; match s with None => Ret None | Some s => s ← dbUnshareStringValue k (StrRaw s); Ret (Some (s, 0)) end
      end;
  match o with
  | None => Ret ()
  | Some (s, updated) =>
      r ← pfadd_loop k eles s updated;
      match r with
      | None => Ret ()
      | Some (s, updated) =>
          (if negb (updated =? 0) then
             SignalModified k;;
             NotifyEvent NOTIFY_STRING "pfadd" k;;
             Dirty 1;;
             invalidate k s
           else Ret ());;
          Reply (RInt (if negb (updated =? 0) then 1 else 0))
      end
  end.

(** The maximum over the keys; [None]: the client was told. *)
Fixpoint merge_keys (id : Z) (keys : list (list Z)) (max : list Z) : prog (option (list Z)) :=
  match keys with
  | [] => Ret (Some max)
  | key :: keys =>
      o ← LookupRead (id, key);
      match o with
      | None => merge_keys id keys max
      | Some v =>
          s ← isHLLObjectOrReply v;
          match s with
          | None => Ret None
          | Some s =>
              '(ok, max) ← lift (hllMerge max s);
              if (ok : bool) then merge_keys id keys max else Reply invalid_hll_err;; Ret None
          end
      end
  end.

(** The cached count. *)
Definition card_of (s : list Z) : option Z := bs ← mread s hdr_card 8; Some (le_val bs).

Definition pfcountCommand (id : Z) (keys : list (list Z)) : prog unit :=
  match keys with
  | [key] =>
      let k := (id, key) in
      o ← LookupWrite k;
      match o with
      | None => Reply (RInt 0)
      | Some v =>
          s ← isHLLObjectOrReply v;
          match s with
          | None => Ret ()
          | Some s =>
              s ← dbUnshareStringValue k (StrRaw s);
              valid ← lift (HLL_VALID_CACHE s);
              if (valid : bool) then card ← lift (card_of s); Reply (RInt (s64 card))
              else
                '(card, invalid) ← lift (hllCount log (s ++ [0]) (zlen s));
                if (invalid : bool) then Reply invalid_hll_err else
                s ← lift (mwrite s hdr_card (le_bytes 8 card));
                DbOverwrite k (VStr (StrRaw s));;
                SignalModified k;;
                Dirty 1;;
                Reply (RInt (s64 card))
          end
      end
  | _ =>
      max ← merge_keys id keys zeros;
      match max with
      | None => Ret ()
      | Some max =>
          let b := replicate 4 0 ++ [HLL_RAW] ++ replicate 11 0 ++ max in
          '(card, _) ← lift (hllCount log b (zlen b));
          Reply (RInt (s64 card))
      end
  end.

Fixpoint set_all (n : nat) (b : list Z) (j : Z) (max : list Z) : option (list Z) :=
  match n with
  | O => Some b
  | S n => v ← get max j; b ← HLL_DENSE_SET_REGISTER b HLL_HDR_SIZE j v; set_all n b (j + 1) max
  end.

Definition pfmergeCommand (id : Z) (dest : list Z) (sources : list (list Z)) : prog unit :=
  let k := (id, dest) in
  max ← merge_keys id (dest :: sources) zeros;
  match max with
  | None => Ret ()
  | Some max =>
      o ← LookupWrite k;
      s ← match o with
          | None => s ← lift createHLLObject; DbAdd k (VStr (StrRaw s));; Ret s
          | Some (VStr o) => dbUnshareStringValue k o
          | Some (VOther _ _) => Fail
          end;
      d ← lift (hllSparseToDense s);
      match d with
      | None => Reply invalid_hll_err
      | Some s =>
          b ← lift (set_all (Z.to_nat HLL_REGISTERS) (s ++ [0]) 0 max);
          s ← lift (contents b (zlen s));
          invalidate k s;;
          SignalModified k;;
          NotifyEvent NOTIFY_STRING "pfadd" k;;
          Dirty 1;;
          Reply ROk
      end
  end.

(** ** PFDEBUG *)
Fixpoint get_all (n : nat) (b : list Z) (j : Z) : option (list Z) :=
  match n with
  | O => Some []
  | S n => v ← HLL_DENSE_GET_REGISTER b HLL_HDR_SIZE j; vs ← get_all n b (j + 1); Some (v :: vs)
  end.

Definition dec_word (c : Z) (ns : list Z) : list Z :=
  c :: 58 :: match ns with [n] => dec_of_Z n | [v; n] => dec_of_Z v ++ [44] ++ dec_of_Z n | _ => [] end ++ [32].

Fixpoint decode_loop (fuel : nat) (b : list Z) (p fin : Z) (decoded : list Z) : option (list Z) :=
  match fuel with
  | O => None
  | S fuel =>
      if negb (p <? fin) then Some decoded else
      x ← get b p;
      if HLL_SPARSE_IS_ZERO x then decode_loop fuel b (p + 1) fin (decoded ++ dec_word 122 [HLL_SPARSE_ZERO_LEN x])
      else if HLL_SPARSE_IS_XZERO x then
        y ← get b (p + 1); decode_loop fuel b (p + 2) fin (decoded ++ dec_word 90 [HLL_SPARSE_XZERO_LEN x y])
      else decode_loop fuel b (p + 1) fin (decoded ++ dec_word 118 [HLL_SPARSE_VAL_VALUE x; HLL_SPARSE_VAL_LEN x])
  end.

Definition string_of (l : list Z) : string := foldr (λ c s, String (ascii_of_nat (Z.to_nat c)) s) EmptyString (cstr l).

(** The conversion to the dense encoding, if it is needed; [None]: the client was told. *)
Definition to_dense (k : dbkey) (s : list Z) (e : Z) : prog (option (list Z * bool)) :=
  if e =? HLL_SPARSE then
    d ← lift (hllSparseToDense s);
    match d with
    | None => Reply invalid_hll_err;; Ret None
    | Some s => DbOverwrite k (VStr (StrRaw s));; Dirty 1;; Ret (Some (s, true))
    end
  else Ret (Some (s, false)).

(** [args] are the arguments behind the key. *)
Definition pfdebugCommand (id : Z) (cmd key : list Z) (args : list (list Z)) : prog unit :=
  let k := (id, key) in
  let arity p := match args with [] => p | _ => Reply (RError ("Wrong number of arguments for the '" ++ string_of cmd ++ "' subcommand")) end in
  o ← LookupWrite k;
  match o with
  | None => Reply (RError "The specified key does not exist")
  | Some v =>
      s ← isHLLObjectOrReply v;
      match s with
      | None => Ret ()
      | Some s =>
          s ← dbUnshareStringValue k (StrRaw s);
          e ← lift (get s hdr_encoding);
          if is_option cmd "getreg" then arity (
            d ← to_dense k s e;
            match d with
            | None => Ret ()
            | Some (s, _) =>
                Reply (RMultiLen HLL_REGISTERS);;
                vs ← lift (get_all (Z.to_nat HLL_REGISTERS) (s ++ [0]) 0);
                each (λ v, Reply (RInt v)) vs
            end)
          else if is_option cmd "decode" then arity (
            if negb (e =? HLL_SPARSE) then Reply (RError "HLL encoding is not sparse") else
            t ← lift (decode_loop (S (length s)) (s ++ [0]) HLL_HDR_SIZE (zlen s) []);
            Reply (RBulk (trimmed (in_cset [32]) t)))
          else if is_option cmd "encoding" then arity (Reply (RStatus (if e =? HLL_DENSE then "dense" else "sparse")))
          else if is_option cmd "todense" then arity (
            d ← to_dense k s e;
            match d with None => Ret () | Some (_, conv) => Reply (RInt (if conv : bool then 1 else 0)) end)
          else Reply (RError ("Unknown PFDEBUG subcommand '" ++ string_of cmd ++ "'"))
      end
  end.
End commands.
