(* ===== verification/HllProps.v ===== *)
(** * Histories of commands on HyperLogLogs

    A key that holds a HyperLogLog is the set of the elements that were added
    to it: PFADD adds elements and answers whether a register changed, PFMERGE
    makes the union, and PFCOUNT answers the same with its cache as without. *)

From S2P Require Import Prelude Decimal Util StringObj Notify Keyspace KeyCmd StrCmd KeyProps Hll HllSparse HllCount HllCmd.

(** ** Commands on the abstract data base *)
Section runs.
Context (en : kenv).

Lemma arun_ret {A B} (x : A) (f : A → prog B) a : arun en (prog_bind f (Ret x)) a = arun en (f x) a.
Proof. done. Qed.

Lemma arun_step {A R} (o : op R) (K : R → prog A) a r a' : astep en o a = Some (r, a') → arun en (Do o K) a = arun en (K r) a'.
Proof. intros E. cbn [arun]. by rewrite E. Qed.

Lemma arun_seq {A B} (p : prog A) (f : A → prog B) a x a' : arun en p a = Some (x, a') → arun en (prog_bind f p) a = arun en (f x) a'.
Proof. intros E. by rewrite arun_bind, E. Qed.

Lemma arun_overwrite {A} k v v0 e (K : unit → prog A) a : adb a !! k = Some (v0, e) →
  arun en (Do (ODbOverwrite k v) K) a = arun en (K ()) (set_adb (<[k := (v, e)]> (adb a)) a).
Proof. intros E. apply arun_step. cbn [astep]. by rewrite E. Qed.
End runs.

Lemma valid_string s r : hll s r → isHLLObjectOrReply (VStr (StrRaw s)) = Ret (Some s).
Proof.
  intros Hs. assert (∃ e rest t, s = header e rest ++ t ∧ (e = HLL_DENSE ∨ e = HLL_SPARSE) ∧ HLL_HDR_SIZE ≤ zlen s ∧ (e = HLL_DENSE → zlen s = HLL_DENSE_SIZE))
    as (e & rest & t & Es & He & Hl & Hd).
  { destruct Hs as [rest d r' Hr Hh|rest os Hr Hb Hos Hn]; [exists HLL_DENSE, rest, d|exists HLL_SPARSE, rest, (encs os)].
    - pose proof (ho_size _ _ Hh) as Hz. pose proof (hll_header_length HLL_DENSE rest Hr). rewrite !length_app in Hz. cbn [length] in Hz. split; [done|]. split; [by left|].
      rewrite length_app. split; [lia|]. intros _. lia.
    - pose proof (hll_header_length HLL_SPARSE rest Hr). split; [done|]. split; [by right|]. rewrite length_app. split; [lia|done]. }
  unfold isHLLObjectOrReply. cbn [checkString mbind prog_mbind prog_bind stringObjectLen]. rewrite (proj2 (Z.ltb_ge _ _)) by done.
  assert (mread s 0 4 = Some magic) as -> by (rewrite Es; unfold header; rewrite <- app_assoc; by apply mread_start).
  assert (get s hdr_encoding = Some e) as -> by (rewrite Es; apply get_encoding). cbn [lift mbind prog_mbind prog_bind].
  change (bool_decide (magic = [72; 89; 76; 76])) with true. cbn [negb].
  destruct He as [->| ->]; [|done]. rewrite Hd by done. done.
Qed.

Section add.
Context (en : kenv) (max_bytes : Z) (junk : nat → Z).

Abbreviation added l r := (foldl (λ r e, observe e r) r l).

Lemma added_same e l r : small r → added (e :: l) r = r → observe e r = r.
Proof.
  intros Hr H. apply list_eq. intros j. destruct (r !! j) as [x|] eqn:Hx.
  - pose proof (Forall_lookup_1 _ _ _ _ Hr Hx) as Hx0. pose proof (fold_lookup (e :: l) r j x Hx ltac:(cbn in Hx0; lia)) as E. rewrite H, Hx in E. injection E as E.
    rewrite (observe_lookup e r j x Hx) by (cbn in Hx0; lia). f_equal. cbn [reg_max foldr] in E. fold (reg_max l j) in E. lia.
  - apply lookup_ge_None in Hx. apply lookup_ge_None. by rewrite observe_length.
Qed.

(** The loop of PFADD. *)
Lemma pfadd_loop_ok k e eles : ∀ s r u a, hll s r → adb a !! k = Some (VStr (StrRaw s), e) →
  ∃ s' u', arun en (pfadd_loop max_bytes junk k eles s u) a = Some (Some (s', u'), set_adb (<[k := (VStr (StrRaw s'), e)]> (adb a)) a) ∧
    hll s' (added eles r) ∧ u ≤ u' ∧ (u' = u ↔ added eles r = r) ∧ (u' = u → s' = s).
Proof.
  induction eles as [|ele eles IH]; intros s r u a Hs Hk; cbn [pfadd_loop foldl].
  - exists s, u. cbn [arun]. rewrite insert_id by done. split; [by destruct a|]. split; [done|]. split; [lia|]. done.
  - destruct (hllAdd_ok max_bytes junk s r ele Hs) as (s1 & -> & Hs1 & Hsame). cbn [lift mbind prog_mbind prog_bind].
    destruct (hll_registers s r Hs) as [_ Hsm].
    unfold DbOverwrite, call. cbn [mbind prog_mbind prog_bind]. rewrite (arun_overwrite en k _ _ e _ a Hk).
    set (a1 := set_adb _ a). assert (adb a1 !! k = Some (VStr (StrRaw s1), e)) as Hk1 by (cbn; apply lookup_insert_eq).
    assert (∀ s', set_adb (<[k := (VStr (StrRaw s'), e)]> (adb a1)) a1 = set_adb (<[k := (VStr (StrRaw s'), e)]> (adb a)) a) as Ea.
    { intros s'. unfold a1, set_adb. cbn. by rewrite insert_insert_eq. }
    destruct (decide (observe ele r = r)) as [E|N].
    + rewrite bool_decide_eq_false_2 by (by intros []). change (Z.b2z false =? 1) with false. change (Z.b2z false =? -1) with false. cbv iota.
      destruct (IH s1 (observe ele r) u a1 Hs1 Hk1) as (s' & u' & -> & Hs' & Hu & Hiff & Hst). exists s', u'. rewrite Ea. split; [done|]. split; [done|]. split; [done|].
      rewrite E in Hiff |- *. rewrite Hiff. split; [done|]. intros H. rewrite Hst by (by apply Hiff). by apply Hsame.
    + rewrite bool_decide_eq_true_2 by done. change (Z.b2z true =? 1) with true. cbv iota.
      destruct (IH s1 (observe ele r) (u + 1) a1 Hs1 Hk1) as (s' & u' & -> & Hs' & Hu & _ & _). exists s', u'. rewrite Ea. split; [done|]. split; [done|]. split; [lia|].
      split; [|lia]. split; [lia|]. intros H. exfalso. apply N. by apply (added_same ele eles r).
Qed.
End add.

(** The header does not matter for the registers. *)
Lemma holds_header rest rest' t r : length rest = 11%nat → length rest' = 11%nat → bytes_ok rest' →
  holds (header HLL_DENSE rest ++ t) r → holds (header HLL_DENSE rest' ++ t) r.
Proof.
  intros Hl Hl' Hb [Hbs Hs Hr Hg]. pose proof (hll_header_length HLL_DENSE rest Hl) as Hh. pose proof (hll_header_length HLL_DENSE rest' Hl') as Hh'. rewrite length_app in Hs.
  split; [|rewrite length_app; lia|done|].
  - apply Forall_app in Hbs as [_ Ht]. apply Forall_app. split; [|done]. unfold header, magic. repeat (apply Forall_cons; split; [done|]). done.
  - intros i x Hx. rewrite <- (Hg i x Hx). assert (0 ≤ Z.of_nat i * HLL_BITS / 8) by (apply Z.div_pos; unfold HLL_BITS; lia). unfold HLL_DENSE_GET_REGISTER.
    assert (∀ j, 0 ≤ j → get (header HLL_DENSE rest' ++ t) (HLL_HDR_SIZE + j) = get (header HLL_DENSE rest ++ t) (HLL_HDR_SIZE + j)) as E.
    { intros j Hj. rewrite <- Hh' at 1. rewrite <- Hh. by rewrite !get_shift. }
    by rewrite !E by lia.
Qed.

Lemma hll_header_bytes e rest t : bytes_ok (header e rest ++ t) → bytes_ok rest.
Proof. intros H. apply Forall_app in H as [H _]. unfold header in H. apply Forall_app in H as [_ H]. by apply Forall_app in H as [_ ?]. Qed.

Lemma hll_rest rest rest' e t r : length rest = 11%nat → length rest' = 11%nat → bytes_ok rest' →
  hll (header e rest ++ t) r → hll (header e rest' ++ t) r.
Proof.
  intros Hl Hl' Hb Hs. remember (header e rest ++ t) as s eqn:E. destruct Hs as [rest0 d r0 Hr Hh|rest0 os Hr Hb0 Hos Hn];
    (apply app_inj_1 in E as [Eh <-]; [|pose proof (hll_header_length HLL_DENSE rest0 Hr); pose proof (hll_header_length HLL_SPARSE rest0 Hr); pose proof (hll_header_length e rest Hl); lia]);
    unfold header, magic in Eh; injection Eh as <- <-.
  - apply hll_dense; [done|]. by apply (holds_header rest0).
  - by apply hll_sparse.
Qed.

Lemma hll_header s r : hll s r → ∃ e rest t, s = header e rest ++ t ∧ length rest = 11%nat ∧ bytes_ok rest.
Proof.
  intros [rest d r' Hr Hh|rest os Hr Hb Hos Hn]; [exists HLL_DENSE, rest, d|by exists HLL_SPARSE, rest, (encs os)]. split; [done|]. split; [done|].
  apply (hll_header_bytes HLL_DENSE rest (d ++ [0])), Hh.
Qed.

Lemma invalidate_hll s r : hll s r → ∃ s', HLL_INVALIDATE_CACHE s = Some s' ∧ hll s' r ∧ HLL_VALID_CACHE s' = Some false.
Proof.
  intros Hs. destruct (hll_header s r Hs) as (e & rest & t & -> & Hl & Hb). destruct (invalidate_ok e rest t Hl Hb) as (rest' & E & Hl' & Hb' & Hv).
  exists (header e rest' ++ t). split; [done|]. split; [by apply (hll_rest rest)|done].
Qed.

(** What PFADD and PFMERGE tell the server. *)
Definition pf_state (b : bool) (r : rep) (k : dbkey) (d : db) (c : gset dbkey) (a : astate) : astate :=
  AState d c (adirty a + Z.b2z b) (alog a ++ if b then [EvSignal k; EvNotify NOTIFY_STRING "pfadd" k] else []) (areplies a ++ [r]).

Section commands.
Context (en : kenv) (max_bytes : Z) (junk : nat → Z).
Abbreviation added l r := (foldl (λ r e, observe e r) r l).

(** The end of PFADD, with the string in the data base. *)
Lemma pfadd_end k e eles s r u a : hll s r → adb a !! k = Some (VStr (StrRaw s), e) → 0 ≤ u →
  let b := negb (u =? 0) || bool_decide (added eles r ≠ r) in
  ∃ s', arun en (r ← pfadd_loop max_bytes junk k eles s u;
      match r with
      | None => Ret ()
      | Some (s, updated) =>
          (if negb (updated =? 0) then SignalModified k;; NotifyEvent NOTIFY_STRING "pfadd" k;; Dirty 1;; invalidate k s else Ret ());;
          Reply (RInt (if negb (updated =? 0) then 1 else 0))
      end) a = Some ((), pf_state b (RInt (Z.b2z b)) k (<[k := (VStr (StrRaw s'), e)]> (adb a)) (aclean a) a) ∧
    hll s' (added eles r) ∧ (b = true → HLL_VALID_CACHE s' = Some false) ∧ (b = false → s' = s).
Proof.
  intros Hs Hk Hu b. destruct (pfadd_loop_ok en max_bytes junk k e eles s r u a Hs Hk) as (s1 & u1 & E & Hs1 & Hle & Hiff & Hsame).
  rewrite (arun_seq en _ _ _ _ _ E). assert (negb (u1 =? 0) = b) as ->.
  { unfold b. destruct (Z.eqb_spec u 0) as [->|N]; cbn [negb orb].
    - destruct (Z.eqb_spec u1 0) as [->|N1]; [by rewrite bool_decide_eq_false_2 by (intros []; by apply Hiff)|].
      rewrite bool_decide_eq_true_2; [done|]. intros H. apply N1. by apply Hiff.
    - by rewrite (proj2 (Z.eqb_neq u1 0)) by lia. }
  set (a1 := set_adb _ a). assert (adb a1 !! k = Some (VStr (StrRaw s1), e)) as Hk1 by (cbn; apply lookup_insert_eq).
  destruct b eqn:Eb.
  - destruct (invalidate_hll s1 _ Hs1) as (s2 & E2 & Hs2 & Hv). exists s2. split; [|done]. unfold invalidate. rewrite E2.
    unfold SignalModified, NotifyEvent, Dirty, DbOverwrite, Reply, call. cbn [lift mbind prog_mbind prog_bind].
    erewrite arun_step by done. erewrite arun_step by done. erewrite arun_step by done. rewrite decide_False by done.
    erewrite arun_overwrite by exact Hk1. erewrite arun_step by done. cbn [arun]. do 2 f_equal. unfold pf_state, set_adb. cbn. rewrite insert_insert_eq, <- app_assoc. done.
  - exists s1. split.
    + unfold Reply, call. cbn [mbind prog_mbind prog_bind]. erewrite arun_step by done. cbn [arun]. do 2 f_equal. unfold pf_state. cbn. rewrite app_nil_r, Z.add_0_r. done.
    + split; [done|]. split; [done|]. intros _. apply Hsame. unfold b in Eb. apply orb_false_iff in Eb as [_ Eb]. apply bool_decide_eq_false in Eb. apply Hiff.
      destruct (decide (added eles r = r)); [done|]. by exfalso.
Qed.

Lemma pfadd_new id key eles a : let k := (id, key) in adb a !! k = None →
  ∃ s', arun en (pfaddCommand max_bytes junk id key eles) a =
      Some ((), pf_state true (RInt 1) k (<[k := (VStr (StrRaw s'), None)]> (adb a)) ({[k]} ∪ aclean a) a) ∧ hll s' (regs_of eles) ∧ HLL_VALID_CACHE s' = Some false.
Proof.
  intros k Hk. unfold pfaddCommand, LookupWrite, DbAdd, call. fold k. cbn [mbind prog_mbind prog_bind]. erewrite arun_step by done. rewrite Hk. cbn [fmap option_fmap option_map].
  destruct create_ok as (s & -> & Hs & _). cbn [lift mbind prog_mbind prog_bind].
  erewrite arun_step by (cbn [astep adb aclean set_clean]; rewrite decide_True by (split; [set_solver|done]); done).
  set (a1 := set_adb _ _). destruct (pfadd_end k None eles s zeros 1 a1 Hs) as (s' & E & Hs' & Hv & _); [cbn; apply lookup_insert_eq|lia|].
  cbn [negb Z.eqb orb] in E, Hv. exists s'. split; [|split; [done|by apply Hv]]. cbn [mbind prog_mbind prog_bind] in E. rewrite E. do 2 f_equal. unfold pf_state. cbn. by rewrite insert_insert_eq.
Qed.

Lemma pfadd_old id key eles s r e a : let k := (id, key) in adb a !! k = Some (VStr (StrRaw s), e) → hll s r →
  let b := bool_decide (added eles r ≠ r) in
  ∃ s', arun en (pfaddCommand max_bytes junk id key eles) a =
      Some ((), pf_state b (RInt (Z.b2z b)) k (<[k := (VStr (StrRaw s'), e)]> (adb a)) ({[k]} ∪ aclean a) a) ∧ hll s' (added eles r) ∧
    (b = true → HLL_VALID_CACHE s' = Some false) ∧ (b = false → s' = s).
Proof.
  intros k Hk Hs b. unfold pfaddCommand, LookupWrite, call. fold k. cbn [mbind prog_mbind prog_bind]. erewrite arun_step by done. rewrite Hk. cbn [fmap option_fmap option_map fst].
  rewrite (valid_string s r Hs). cbn [dbUnshareStringValue mbind prog_mbind prog_bind].
  destruct (pfadd_end k e eles s r 0 (set_clean ({[k]} ∪ aclean a) a) Hs Hk ltac:(lia)) as (s' & E & Hs' & Hv & Hsame). cbn [negb Z.eqb orb] in E, Hv, Hsame. fold b in E, Hv, Hsame.
  exists s'. split; [|done]. cbn [mbind prog_mbind prog_bind] in E. exact E.
Qed.
End commands.

(** ** Data bases of sets *)
Abbreviation sets := (gmap dbkey (list (list Z))).

(** Every key holds a HyperLogLog to which the elements of its set were added. *)
Definition pf_db (d : db) (m : sets) : Prop := ∀ k,
  match d !! k, m !! k with
  | Some (v, e), Some l => e = None ∧ ∃ s, v = VStr (StrRaw s) ∧ hll s (regs_of l)
  | None, None => True
  | _, _ => False
  end.

Lemma pf_db_insert d m k s l : pf_db d m → hll s (regs_of l) → pf_db (<[k := (VStr (StrRaw s), None)]> d) (<[k := l]> m).
Proof.
  intros Hd Hs j. destruct (decide (j = k)) as [->|N]; [rewrite !lookup_insert_eq; split; [done|by exists s]|]. rewrite !lookup_insert_ne by done. apply Hd.
Qed.

Lemma pf_db_delete d m k : pf_db d m → pf_db (delete k d) (delete k m).
Proof. intros Hd j. destruct (decide (j = k)) as [->|N]; [by rewrite !lookup_delete_eq|]. rewrite !lookup_delete_ne by done. apply Hd. Qed.

Lemma pf_db_some d m k l : pf_db d m → m !! k = Some l → ∃ s, d !! k = Some (VStr (StrRaw s), None) ∧ hll s (regs_of l).
Proof. intros Hd Hm. specialize (Hd k). rewrite Hm in Hd. destruct (d !! k) as [[v e]|]; [|done]. destruct Hd as (-> & s & -> & Hs). by exists s. Qed.

Lemma pf_db_none d m k : pf_db d m → m !! k = None → d !! k = None.
Proof. intros Hd Hm. specialize (Hd k). rewrite Hm in Hd. by destruct (d !! k) as [[v e]|]. Qed.

Lemma added_regs eles l : foldl (λ r e, observe e r) (regs_of l) eles = regs_of (l ++ eles).
Proof. unfold regs_of. by rewrite foldl_app. Qed.

Definition union (m : sets) (id : Z) (keys : list (list Z)) : list (list Z) := concat (map (λ key, default [] (m !! (id, key))) keys).

(** Writing all registers. *)
Lemma set_all_ok n max : zlen max = HLL_REGISTERS → small max → ∀ b j r, holds b (take j max ++ r) → (j + n)%nat = Z.to_nat HLL_REGISTERS →
  ∃ b', set_all n b (Z.of_nat j) max = Some b' ∧ holds b' max ∧ framed b b'.
Proof.
  intros Hl Hm. induction n as [|n IH]; intros b j r Hb Hj; cbn [set_all].
  - exists b. split; [done|]. assert (take j max ++ r = max) as E; [|by rewrite E in Hb]. pose proof (ho_regs _ _ Hb) as Hr. rewrite length_app, length_take in Hr.
    destruct r; [|cbn in Hr; lia]. rewrite app_nil_r. apply take_ge. lia.
  - destruct (lookup_lt_is_Some_2 max j) as [v Hv]; [lia|]. rewrite get_nth, Nat2Z.id, Hv, some_bind by lia. pose proof (ho_regs _ _ Hb) as Hr.
    rewrite length_app, length_take in Hr. pose proof (Forall_lookup_1 _ _ _ _ Hm Hv) as Hvr. cbn in Hvr.
    destruct (set_dense b _ (Z.of_nat j) v Hb) as (b1 & -> & Hb1 & Hf1); [lia|done|]. rewrite some_bind, Nat2Z.id in *.
    destruct r as [|x r]; [cbn in Hr; lia|]. rewrite insert_app_r_alt in Hb1 by (rewrite length_take; lia). rewrite length_take in Hb1.
    replace (j - (j `min` length max))%nat with 0%nat in Hb1 by lia. cbn [insert list_insert] in Hb1.
    destruct (IH b1 (S j) r) as (b' & E & Hb' & Hf'); [|lia|].
    + rewrite (take_S_r _ _ _ Hv), <- app_assoc. exact Hb1.
    + exists b'. replace (Z.of_nat j + 1) with (Z.of_nat (S j)) by lia. split; [done|]. split; [done|]. by apply (framed_trans _ b1).
Qed.

Section merge.
Context (en : kenv).

Lemma merge_keys_ok id m keys : ∀ l a, pf_db (adb a) m →
  ∃ c, arun en (merge_keys id keys (regs_of l)) a = Some (Some (regs_of (l ++ union m id keys)), set_clean c a) ∧ aclean a ⊆ c.
Proof.
  induction keys as [|key keys IH]; intros l a Hd; cbn [merge_keys].
  - exists (aclean a). change (union m id []) with (@nil (list Z)). rewrite app_nil_r. split; [by destruct a|done].
  - unfold LookupRead, call. cbn [mbind prog_mbind prog_bind]. erewrite arun_step by done. set (a1 := set_clean _ a).
    change (union m id (key :: keys)) with (default [] (m !! (id, key)) ++ union m id keys). destruct (m !! (id, key)) as [l1|] eqn:Em.
    + destruct (pf_db_some _ _ _ _ Hd Em) as (s & Es & Hs). rewrite Es. cbn [fmap option_fmap option_map fst]. rewrite (valid_string _ _ Hs). cbn [mbind prog_mbind prog_bind].
      rewrite (hllMerge_ok _ s _ Hs (regs_of_length l) (regs_of_small l)), regs_of_union. cbn [lift mbind prog_mbind prog_bind].
      destruct (IH (l ++ l1) a1 Hd) as (c & -> & Hc). exists c. cbn [default]. rewrite app_assoc. split; [done|]. cbn in Hc. set_solver.
    + rewrite (pf_db_none _ _ _ Hd Em). cbn [fmap option_fmap option_map]. destruct (IH l a1 Hd) as (c & -> & Hc). exists c. split; [done|]. cbn in Hc. set_solver.
Qed.

Lemma set_registers max b r : zlen max = HLL_REGISTERS → small max → holds b r →
  ∃ b', set_all (Z.to_nat HLL_REGISTERS) b 0 max = Some b' ∧ holds b' max ∧ framed b b'.
Proof. intros Hl Hm Hb. by apply (set_all_ok (Z.to_nat HLL_REGISTERS) max Hl Hm b 0 r Hb). Qed.

(** The end of PFMERGE, with a string in the data base. *)
Lemma write_merged k e max s r a : zlen max = HLL_REGISTERS → small max → hll s r → adb a !! k = Some (VStr (StrRaw s), e) →
  ∃ s', arun en (d ← lift (hllSparseToDense s);
      match d with
      | None => Reply invalid_hll_err
      | Some s =>
          b ← lift (set_all (Z.to_nat HLL_REGISTERS) (s ++ [0]) 0 max);
          s ← lift (contents b (zlen s));
          invalidate k s;; SignalModified k;; NotifyEvent NOTIFY_STRING "pfadd" k;; Dirty 1;; Reply ROk
      end) a = Some ((), pf_state true ROk k (<[k := (VStr (StrRaw s'), e)]> (adb a)) (aclean a) a) ∧ hll s' max ∧ HLL_VALID_CACHE s' = Some false.
Proof.
  intros Hl Hm Hs Hk. destruct (to_dense_ok s r Hs) as (rest & dd & -> & Hdd & Hr & _). cbn [lift mbind prog_mbind]. rewrite arun_ret.
  pose proof (dense_inv _ _ _ Hr Hdd) as Hh. destruct (set_registers max _ r Hl Hm Hh) as (b & Eb & Hb & Hf). rewrite <- app_assoc, Eb. clear Eb. cbn [lift]. rewrite arun_ret.
  destruct (dense_change rest dd r b _ Hr Hh Hb Hf) as (d' & _ & -> & Hs1). cbn [lift]. rewrite arun_ret.
  destruct (invalidate_hll _ _ Hs1) as (s2 & E2 & Hs2 & Hv). exists s2. split; [|done]. unfold invalidate. rewrite E2.
  unfold SignalModified, NotifyEvent, Dirty, DbOverwrite, Reply, call. cbn [lift mbind prog_mbind prog_bind].
  erewrite arun_overwrite by exact Hk. erewrite arun_step by done. erewrite arun_step by done. erewrite arun_step by done. rewrite decide_False by done.
  erewrite arun_step by done. cbn [arun]. unfold pf_state, set_adb. cbn. by rewrite <- app_assoc.
Qed.

Lemma pfmerge_ok id dest sources m a : pf_db (adb a) m → let k := (id, dest) in
  ∃ s' c, arun en (pfmergeCommand id dest sources) a = Some ((), pf_state true ROk k (<[k := (VStr (StrRaw s'), None)]> (adb a)) c a) ∧
    hll s' (regs_of (union m id (dest :: sources))) ∧ HLL_VALID_CACHE s' = Some false.
Proof.
  intros Hd k. unfold pfmergeCommand. fold k. destruct (merge_keys_ok id m (dest :: sources) [] a Hd) as (c & E & _). change (regs_of []) with zeros in E.
  cbn [mbind prog_mbind]. rewrite (arun_seq en _ _ _ _ _ E). clear E. cbn [app]. set (l := union m id (dest :: sources)).
  unfold LookupWrite, call. cbn [mbind prog_mbind prog_bind]. erewrite arun_step by done. set (a1 := set_clean _ (set_clean c a)).
  assert (∃ s r a2 d, hll s r ∧
    arun en match fst <$> adb (set_clean c a) !! k with
            | None => prog_bind (λ s, Do (ODbAdd k (VStr (StrRaw s))) (λ _, Ret s)) (lift createHLLObject)
            | Some (VStr o) => dbUnshareStringValue k o
            | Some (VOther _ _) => Fail
            end a1 = Some (s, a2) ∧ adb a2 !! k = Some (VStr (StrRaw s), None) ∧ a2 = set_adb d a1 ∧ ∀ v, <[k := v]> d = <[k := v]> (adb a))
    as (s & r & a2 & d & Hs & E2 & Hk2 & Ea2 & Hd2).
  { change (adb (set_clean c a)) with (adb a). destruct (m !! k) as [l1|] eqn:Em.
    - destruct (pf_db_some _ _ _ _ Hd Em) as (s & Es & Hs). exists s, (regs_of l1), a1, (adb a). rewrite Es. split; [done|]. split; [done|]. split; [exact Es|]. split; [by destruct a|done].
    - pose proof (pf_db_none _ _ _ Hd Em) as En. destruct create_ok as (s & -> & Hs & _).
      exists s, zeros, (set_adb (<[k := (VStr (StrRaw s), None)]> (adb a)) a1), (<[k := (VStr (StrRaw s), None)]> (adb a)). split; [done|].
      rewrite En. cbn [fmap option_fmap option_map lift prog_bind]. split.
      + erewrite arun_step by (cbn [astep]; rewrite decide_True by (split; [cbn; set_solver|exact En]); done). done.
      + split; [cbn; apply lookup_insert_eq|]. split; [done|]. intros v. by rewrite insert_insert_eq. }
  unfold DbAdd, call. cbn [mbind prog_mbind prog_bind]. rewrite (arun_seq en _ _ _ _ _ E2). clear E2.
  destruct (write_merged k None (regs_of l) s r a2 (regs_of_length l) (regs_of_small l) Hs Hk2) as (s2 & E2 & Hs2 & Hv). exists s2, ({[k]} ∪ c). split; [|done].
  cbn [mbind prog_mbind] in E2. rewrite E2. subst a2. unfold pf_state. cbn. by rewrite Hd2.
Qed.
End merge.

(** ** Histories *)
Inductive pfcmd := PfAdd (key : list Z) (eles : list (list Z)) | PfMerge (dest : list Z) (sources : list (list Z)) | PfDel (key : list Z).

Section history.
Context (max_bytes : Z) (junk : nat → Z).

Definition pf_exec (id : Z) (cmd : pfcmd) : prog unit :=
  match cmd with
  | PfAdd key eles => pfaddCommand max_bytes junk id key eles
  | PfMerge dest sources => pfmergeCommand id dest sources
  | PfDel key => delCommand id [key]
  end.

(** The same on sets: the new sets, the reply, and the change of the dirty counter. *)
Definition pf_spec (id : Z) (cmd : pfcmd) (m : sets) : sets * rep * Z :=
  match cmd with
  | PfAdd key eles =>
      let k := (id, key) in
      let old := default [] (m !! k) in
      let b := match m !! k with None => true | Some _ => bool_decide (regs_of (old ++ eles) ≠ regs_of old) end in
      (<[k := old ++ eles]> m, RInt (Z.b2z b), Z.b2z b)
  | PfMerge dest sources => (<[(id, dest) := union m id (dest :: sources)]> m, ROk, 1)
  | PfDel key => let b := bool_decide (is_Some (m !! (id, key))) in (delete (id, key) m, RInt (Z.b2z b), Z.b2z b)
  end.

(** A string is as it was, or its cached count is marked invalid. *)
Definition fresh (d d' : db) : Prop := ∀ k s e, d' !! k = Some (VStr (StrRaw s), e) → d !! k = Some (VStr (StrRaw s), e) ∨ HLL_VALID_CACHE s = Some false.

Lemma fresh_insert d k s e : HLL_VALID_CACHE s = Some false ∨ d !! k = Some (VStr (StrRaw s), e) → fresh d (<[k := (VStr (StrRaw s), e)]> d).
Proof.
  intros H j s' e' Hj. destruct (decide (j = k)) as [->|N]; [|rewrite lookup_insert_ne in Hj by done; by left].
  rewrite lookup_insert_eq in Hj. injection Hj as <- <-. destruct H; [by right|by left].
Qed.

Lemma fresh_delete d k : fresh d (delete k d).
Proof. intros j s e H. left. by apply lookup_delete_Some in H as [_ ?]. Qed.

Lemma pf_step en id cmd m a : pf_db (adb a) m → let '(m', r, n) := pf_spec id cmd m in
  ∃ a', arun en (pf_exec id cmd) a = Some ((), a') ∧ pf_db (adb a') m' ∧ areplies a' = areplies a ++ [r] ∧ adirty a' = adirty a + n ∧ fresh (adb a) (adb a').
Proof.
  intros Hd. destruct cmd as [key eles|dest sources|key]; cbn [pf_exec pf_spec].
  - destruct (m !! (id, key)) as [l|] eqn:Em; cbn [default].
    + destruct (pf_db_some _ _ _ _ Hd Em) as (s & Es & Hs). destruct (pfadd_old en max_bytes junk id key eles s (regs_of l) None a Es Hs) as (s' & -> & Hs' & Hb1 & Hb2).
      rewrite added_regs in *. eexists. split; [done|]. cbn [pf_state adb areplies adirty]. split; [by apply pf_db_insert|]. split; [done|]. split; [done|].
      apply fresh_insert. destruct (bool_decide _); [left; by apply Hb1|right; by rewrite Hb2].
    + destruct (pfadd_new en max_bytes junk id key eles a (pf_db_none _ _ _ Hd Em)) as (s' & -> & Hs' & Hv). eexists. split; [done|].
      split; [by apply pf_db_insert|]. split; [done|]. split; [done|]. apply fresh_insert. by left.
  - destruct (pfmerge_ok en id dest sources m a Hd) as (s' & c & -> & Hs' & Hv). eexists. split; [done|]. split; [by apply pf_db_insert|]. split; [done|]. split; [done|].
    apply fresh_insert. by left.
  - unfold delCommand. cbn [del_loop]. unfold ExpireIfNeeded, DbDelete, SignalModified, NotifyEvent, Dirty, Reply, call. cbn [mbind prog_mbind prog_bind].
    erewrite arun_step by done. erewrite arun_step by (cbn [astep]; rewrite decide_True by (cbn; set_solver); done). cbn [adb set_clean].
    assert (bool_decide (is_Some (adb a !! (id, key))) = bool_decide (is_Some (m !! (id, key)))) as ->.
    { apply bool_decide_ext. specialize (Hd (id, key)). destruct (adb a !! (id, key)) as [[v e]|], (m !! (id, key)); split; intros [x Hx]; done. }
    destruct (bool_decide _); cbn [prog_bind].
    + do 4 erewrite arun_step by done. rewrite decide_False by done. eexists. split; [done|]. cbn. split; [by apply pf_db_delete|]. split; [done|]. split; [done|apply fresh_delete].
    + erewrite arun_step by done. eexists. split; [done|]. cbn. split; [by apply pf_db_delete|]. split; [done|]. split; [lia|apply fresh_delete].
Qed.

Abbreviation pf_history := (list (kenv * Z * pfcmd)).

Fixpoint pf_hist (h : pf_history) (s : kserver) : option kserver :=
  match h with [] => Some s | (en, id, cmd) :: h => '(_, s) ← run en (pf_exec id cmd) s; pf_hist h s end.

Fixpoint pf_sets (h : pf_history) (m : sets) : sets * list rep * Z :=
  match h with
  | [] => (m, [], 0)
  | (_, id, cmd) :: h => let '(m, r, n) := pf_spec id cmd m in let '(m, rs, n') := pf_sets h m in (m, r :: rs, n + n')
  end.

Fixpoint pf_times (t : Z) (h : pf_history) : Prop :=
  match h with [] => True | (en, _, _) :: h => masterhost en = false ∧ loading en = false ∧ t ≤ know en ∧ pf_times (know en) h end.

Lemma tick_pf en a m : pf_db (adb a) m → pf_db (adb (tick en a)) m.
Proof.
  intros Hd k. specialize (Hd k). cbn [tick adb]. destruct (adb a !! k) as [[v e]|] eqn:E, (m !! k) as [l|]; try done.
  - destruct Hd as (-> & Hd). rewrite (map_lookup_filter_Some_2 _ (adb a) k (v, None)) by done. done.
  - by rewrite (proj2 (map_lookup_filter_None _ (adb a) k)) by (by left).
Qed.

Lemma pf_hist_ok h : ∀ t s a m, pf_times t h → pf_db (adb a) m → (∀ en, t ≤ know en → abs en s (tick en a)) →
  let '(m', rs, n) := pf_sets h m in
  ∃ s' a', pf_hist h s = Some s' ∧ pf_db (adb a') m' ∧ areplies a' = areplies a ++ rs ∧ adirty a' = adirty a + n ∧
    ∃ t', ∀ en, t' ≤ know en → abs en s' (tick en a').
Proof.
  induction h as [|[[en id] cmd] h IH]; intros t s a m Ht Hd Ha; cbn [pf_hist pf_sets].
  - exists s, a. split; [done|]. split; [done|]. rewrite app_nil_r. split; [done|]. split; [lia|]. by exists t.
  - destruct Ht as (Hm & Hl & Hk & Ht). pose proof (pf_step en id cmd m (tick en a) (tick_pf en a m Hd)) as Hstep. destruct (pf_spec id cmd m) as [[m1 r] n].
    destruct Hstep as (a1 & E & Hd1 & Hr & Hn & _). destruct (run_ok en Hm Hl _ s (tick en a) () a1 (Ha en Hk) E) as (s1 & -> & Ha1). rewrite some_bind.
    pose proof (IH (know en) s1 a1 m1 Ht Hd1 (λ en', tick_ok en en' s1 a1 Ha1)) as IH'. destruct (pf_sets h m1) as [[m' rs] n'].
    destruct IH' as (s' & a' & E' & Hd' & Hr' & Hn' & Ht'). exists s', a'. split; [done|]. split; [done|]. cbn [tick areplies adirty] in *.
    rewrite Hr', Hr, <- app_assoc. split; [done|]. split; [lia|done].
Qed.

(** C4: on a master a history of PFADD, PFMERGE and DEL, with any limit for the sparse encoding, never leaves a string nor fails the
    assertion of [hllSparseAdd]; every key stands for a set, PFADD adds to it and answers 1 exactly if the key is new or a register
    changed, PFMERGE makes the union, and the string of each key holds the registers of its set, whatever its encoding. *)
Theorem pf_history_refines h : pf_times 0 h → let '(m, rs, n) := pf_sets h ∅ in
  ∃ s, pf_hist h server0 = Some s ∧ kreplies s = rs ∧ kdirty s = n ∧
    ∃ t, ∀ en k, t ≤ know en →
      match m !! k with
      | None => live en s k = None
      | Some l => ∃ str, live en s k = Some (VStr (StrRaw str), None) ∧ hll str (regs_of l)
      end.
Proof.
  intros Ht. pose proof (pf_hist_ok h 0 server0 astate0 ∅ Ht) as H. destruct (pf_sets h ∅) as [[m rs] n].
  destruct H as (s & a & E & Hd & Hr & Hn & t & Ha); [done|intros en _; apply empty_ok|]. exists s.
  destruct (Ha (KEnv false false None t 16 false false false)) as [_ _ _ H4 _ H6]; [done|]. split; [done|]. split; [rewrite H6; exact Hr|]. split; [rewrite H4; exact Hn|].
  exists t. intros en k Hk. destruct (Ha en Hk) as [_ Hv _ _ _ _]. rewrite <- (Hv k). destruct (m !! k) as [l|] eqn:Em.
  - apply (pf_db_some _ m); [by apply tick_pf|done].
  - apply (pf_db_none _ m); [by apply tick_pf|done].
Qed.
End history.

Lemma pf_history_witness :
  let en := KEnv false false None 1000 16 false false false in
  let h := [(en, 0, PfAdd [1] [[97]; [98]]); (en, 0, PfAdd [1] [[97]]); (en, 0, PfAdd [2] [[99]]); (en, 0, PfMerge [3] [[1]; [2]]);
            (en, 0, PfAdd [3] [[99]; [97]]); (en, 0, PfDel [1])] in
  pf_times 0 h ∧ ∃ s, pf_hist 3000 (λ _, 7) h server0 = Some s ∧ kreplies s = [RInt 1; RInt 0; RInt 1; ROk; RInt 0; RInt 1] ∧ kdirty s = 4.
Proof.
  intros en h. assert (pf_times 0 h) as Ht by (cbn; unfold know; cbn; lia). split; [exact Ht|]. pose proof (pf_history_refines 3000 (λ _, 7) h Ht) as H.
  assert ((pf_sets h ∅).1.2 = [RInt 1; RInt 0; RInt 1; ROk; RInt 0; RInt 1]) as E1 by (vm_compute; reflexivity).
  assert ((pf_sets h ∅).2 = 4) as E2 by (vm_compute; reflexivity).
  destruct (pf_sets h ∅) as [[m rs] n]. cbn [fst snd] in E1, E2. destruct H as (s & H1 & H2 & H3 & _). exists s.
  split; [exact H1|]. rewrite H2, H3. split; [exact E1|exact E2].
Defined.

(** ** The cached count *)
Section cache.
Context (en : kenv) (max_bytes : Z) (junk : nat → Z) (log : double → double).
Abbreviation count s := (hllCount log (s ++ [0]) (zlen s)).

(** A count that is marked valid is that of the registers. *)
Definition coherent (s : list Z) : Prop := HLL_VALID_CACHE s = Some true → ∃ n, card_of s = Some n ∧ count s = Some (n, false).
Definition caches (d : db) : Prop := ∀ k s e, d !! k = Some (VStr (StrRaw s), e) → coherent s.

Lemma invalid_coherent s : HLL_VALID_CACHE s = Some false → coherent s.
Proof. intros H H'. congruence. Qed.

Lemma caches_insert d k s e : caches d → coherent s → caches (<[k := (VStr (StrRaw s), e)]> d).
Proof. intros Hd Hs j s' e'. destruct (decide (j = k)) as [->|N]; [rewrite lookup_insert_eq; by intros [= <- <-]|rewrite lookup_insert_ne by done; apply Hd]. Qed.

Lemma caches_delete d k : caches d → caches (delete k d).
Proof. intros Hd j s e H. apply (Hd j s e). by apply lookup_delete_Some in H as [_ ?]. Qed.

(** The count of a string depends on its registers, not on the header. *)
Lemma count_rest e rest rest' t r : length rest = 11%nat → length rest' = 11%nat → bytes_ok rest' → hll (header e rest ++ t) r →
  count (header e rest' ++ t) = count (header e rest ++ t).
Proof.
  intros Hl Hl' Hb Hs. pose proof (hll_header_length e rest Hl) as Hh. pose proof (hll_header_length e rest' Hl') as Hh'.
  assert (zlen (header e rest' ++ t) = zlen (header e rest ++ t)) as -> by (rewrite !length_app; lia). rewrite <- !app_assoc. unfold hllCount. rewrite !get_encoding, !some_bind.
  remember (header e rest ++ t) as s eqn:E. pose proof Hs as Hs0. destruct Hs as [rest0 d r0 Hr Hd|rest0 os Hr Hb0 Hos Hn];
    (apply app_inj_1 in E as [Eh <-]; [|pose proof (hll_header_length HLL_DENSE rest0 Hr); pose proof (hll_header_length HLL_SPARSE rest0 Hr); lia]); unfold header, magic in Eh; injection Eh as <- <-.
  - change (HLL_DENSE =? HLL_DENSE) with true. cbv iota. rewrite (dense_sum_total _ _ Hd). by rewrite (dense_sum_total _ _ (holds_header rest0 rest' _ _ Hl Hl' Hb Hd)).
  - change (HLL_SPARSE =? HLL_DENSE) with false. change (HLL_SPARSE =? HLL_SPARSE) with true. cbv iota. unfold hllSparseSum.
    pose proof (sparse_sum_shift (header HLL_SPARSE rest0) (header HLL_SPARSE rest') (encs os ++ [0])) as Hsh. rewrite Hh in Hsh.
    specialize (Hsh (S (Z.to_nat (zlen (header HLL_SPARSE rest0 ++ encs os) - HLL_HDR_SIZE))) 0
      (HLL_HDR_SIZE + (zlen (header HLL_SPARSE rest0 ++ encs os) - HLL_HDR_SIZE)) (dint 0) 0 0 ltac:(lia) ltac:(lia)).
    rewrite Z.add_0_r in Hsh. by rewrite Hsh.
Qed.

(** Storing a count in the header. *)
Lemma store_count s r n : hll s r → count s = Some (n, false) → ∃ s', mwrite s hdr_card (le_bytes 8 n) = Some s' ∧ hll s' r ∧ coherent s'.
Proof.
  intros Hs Hn. destruct (hll_header s r Hs) as (e & rest & t & -> & Hl & Hb). pose proof (count_range _ _ _ _ _ Hn) as Hr.
  rewrite <- (take_drop 3 rest) in Hl, Hb, Hs, Hn |- *. set (r1 := take 3 rest) in *. set (r2 := drop 3 rest) in *.
  assert (length r1 = 3%nat) as L1 by (rewrite length_app in Hl; unfold r1, r2 in *; rewrite length_take, length_drop in *; lia).
  assert (length r2 = 8%nat) as L2 by (rewrite length_app in Hl; lia).
  assert (∀ x : list Z, header e (r1 ++ x) ++ t = (magic ++ [e] ++ r1) ++ x ++ t) as Eh by (intros x; unfold header; by rewrite <- !app_assoc).
  assert (hdr_card = zlen (magic ++ [e] ++ r1)) as Ec by (rewrite !length_app, L1; done).
  assert (bytes_ok (r1 ++ le_bytes 8 n)) as Hb' by (apply Forall_app in Hb as [? _]; apply Forall_app; split; [done|apply le_bytes_ok]).
  assert (length (r1 ++ le_bytes 8 n) = 11%nat) as Hl' by (rewrite length_app, length_le_bytes; lia).
  exists (header e (r1 ++ le_bytes 8 n) ++ t). split; [|split].
  - rewrite !Eh. by rewrite (mwrite_app _ r2 (le_bytes 8 n)) by (done || by rewrite length_le_bytes).
  - by apply (hll_rest (r1 ++ r2)).
  - intros _. exists n. split; [|by rewrite (count_rest e (r1 ++ r2) _ t r)]. unfold card_of. rewrite Eh, (mread_app _ (le_bytes 8 n)) by (done || by rewrite length_le_bytes).
    rewrite some_bind, le_val_bytes. by rewrite wrapu_id.
Qed.

(** PFCOUNT on one key. *)
Lemma pfcount_ok id key s r e n inv a : let k := (id, key) in adb a !! k = Some (VStr (StrRaw s), e) → hll s r → coherent s → count s = Some (n, inv) →
  ∃ a' s', arun en (pfcountCommand log id [key]) a = Some ((), a') ∧ areplies a' = areplies a ++ [RInt (s64 n)] ∧
    adb a' = <[k := (VStr (StrRaw s'), e)]> (adb a) ∧ hll s' r ∧ coherent s'.
Proof.
  intros k Hk Hs Hc Hn. assert (inv = false) as ->.
  { destruct (count_total log s r Hs) as [E HE]. rewrite Hn in HE. destruct (estimate _ _ _); [|done]. rewrite some_bind in HE. by injection HE. }
  unfold pfcountCommand, LookupWrite, call. fold k. cbn [mbind prog_mbind prog_bind]. erewrite arun_step by done. rewrite Hk. cbn [fmap option_fmap option_map fst].
  rewrite (valid_string s r Hs). cbn [dbUnshareStringValue mbind prog_mbind prog_bind]. set (a1 := set_clean _ a).
  assert (∃ b, HLL_VALID_CACHE s = Some b) as [b Hb].
  { destruct (hll_header s r Hs) as (e0 & rest & t & -> & Hl & Hb). unfold HLL_VALID_CACHE. pose proof (hll_header_length e0 rest Hl).
    destruct (get_is_some (header e0 rest ++ t) (hdr_card + 7)) as [x ->]; [rewrite length_app; unfold hdr_card, HLL_HDR_SIZE in *; lia|]. by eexists. }
  rewrite Hb. cbn [lift mbind prog_mbind prog_bind]. destruct b.
  - destruct (Hc Hb) as (n' & Hcard & Hn'). rewrite Hn in Hn'. injection Hn' as <-. rewrite Hcard. cbn [lift mbind prog_mbind prog_bind]. unfold Reply, call.
    erewrite arun_step by done. eexists _, s. split; [done|]. cbn. split; [done|]. split; [by rewrite insert_id|done].
  - rewrite Hn. cbn [lift mbind prog_mbind prog_bind]. destruct (store_count s r n Hs Hn) as (s' & -> & Hs' & Hc'). cbn [lift mbind prog_mbind prog_bind].
    unfold DbOverwrite, SignalModified, Dirty, Reply, call. cbn [mbind prog_mbind prog_bind]. erewrite arun_overwrite by exact Hk. do 3 erewrite arun_step by done.
    eexists _, s'. split; [done|]. done.
Qed.

End cache.


(** ** Defects *)

(** A string that passes the check of [isHLLObjectOrReply] but covers one register too many: merging it, which PFCOUNT and PFMERGE do,
    and converting it to the dense encoding write behind the registers. *)
Theorem corrupt_overflows :
  let s := header HLL_SPARSE (replicate 11 0) ++ [127; 255; 128] in
  isHLLObjectOrReply (VStr (StrRaw s)) = Ret (Some s) ∧ hllMerge zeros s = None ∧ hllSparseToDense s = None.
Proof. split; [|split]; vm_compute; reflexivity. Qed.

(** A number of 16 digits is stored as an integer; PFADD on it follows the integer as a pointer. *)
Theorem number_is_no_pointer :
  let en := KEnv false false None 1000 16 false false false in
  (∃ s, run en (setCommand 0 [7] (of_string "1234567890123456") []) server0 = Some ((), s) ∧
    run en (pfaddCommand 3000 (λ _, 0) 0 [7] [[97]]) s = None) ∧
  ∃ s, run en (setCommand 0 [7] (of_string "123456789012345") []) server0 = Some ((), s) ∧
    is_Some (run en (pfaddCommand 3000 (λ _, 0) 0 [7] [[97]]) s).
Proof.
  split; (eexists; split; [vm_compute; reflexivity|]); vm_compute; [reflexivity|by eexists].
Qed.
